(* ===== verification/_CoqProject ===== *)
-Q . S2P
Prelude.v
Bits.v
Index.v
Text.v
Interner.v
Path.v
PathSyntax.v
FactPath.v
PathSet.v
UnionCache.v
Decision.v
Swiss.v
RawTable.v
TableInv.v
TableOps.v
TableIter.v
TableGrow.v
TableConsume.v
HybridSet.v
PathGroup.v
LocalsTrie.v
CondTrie.v
CondViews.v
CondRounds.v
IR.v
Graph.v
Search.v
TopoSort.v
DeadTemps.v
ComposeLoads.v
CopyProp.v
Dominators.v
LengauerTarjan.v
Scc.v
Semantics.v
Unfolding.v
Saturation.v
Verify.v
Builder.v
Vmt.v
Coalesce.v
Cfg.v
PhiPlace.v
Rename.v
Reaching.v
SsaExec.v
Ssa.v
SsaVerify.v
SsaOrder.v
Mem2Reg.v
PassWf.v
Pipeline.v
SsaForm.v
