(* ===== verification/Prelude.v ===== *)
(** * CTADL IR: a verification development

    CTADL is a static taint analyzer.  Front ends translate C, CIL, DEX, JVM bytecode, Lua,
    pcode and Flowy programs into one intermediate representation (crate [ctadl-ir]); passes
    over the IR normalise it and put it in SSA form; the index and query engines ([ctadl-index],
    [ctadl-ascent]) then propagate labels over the access paths of the program.  This
    development models [src/ctadl-ir/src]: the IR, the path algebra every other part is tested
    against, the graph algorithms, the passes, the verifier that guards the front ends' output,
    and the reference evaluator that says what an IR program means; and the
    layer below the index engine's rules: the interner of 4-byte handles
    ([src/immortal/src/id.rs]), the paths of the index over it ([src/ctadl-index/src/facts.rs]), the frozen set of
    admissible paths ([src/ctadl-index/src/index_engine/path_set.rs]), the decision sets and conditions its facts
    hold under ([src/ctadl-index/src/index_engine/decision.rs]), and the stores of its largest relations: the hybrid hash set
    ([index_engine/hybrid_set.rs] and its modules [raw.rs] and [swiss.rs]), the groups of leaves by path ([path_group.rs]), and the
    stores with and without conditions that serve all indices of a relation ([locals_trie.rs], [cond_trie.rs]).

    ** The program and the files

    A program is a list of functions ([cir/mod.rs]); a function is a list of basic blocks of
    statements that read and write access paths, a variable followed by a path of fields,
    offsets, [deref] and [#value].  Paths are compared in normal form only ([cir/path.rs]).

    - [Prelude]: outcomes (return, panic, out of fuel), results, 64-bit wrap-around arithmetic,
      the fold in the outcome monad, and the generic list lemmas.
    - [Index]: [IndexVec] ([index/index_vec.rs], [index/slice.rs]): indexing that panics, the
      map-like API ([PartialMap], the interface the graph searches rely on) and the inversion of
      a permutation.
    - [Bits]: casts between machine integers, checked [i64] addition and subtraction, bit fields.
    - [Interner]: [IdInterner] ([immortal/src/id.rs]): shards, slots in buckets, the bump arena, ids;
      what [hashbrown] promises is the class [HashTable], and what the interner promises its clients
      the class [IdHandle], of which it is proved an instance.
    - [Text]: Rust strings as UTF-8 byte strings; integer printing and parsing.
    - [Path]: [cir/path.rs]: [push_normalized], [normalize], [classify], [concat],
      [strip_prefix], [rewrite_address_dest], [location_of].
    - [PathSyntax]: [cir/path_syntax.rs]: the parser and printer of paths and global paths.
    - [FactPath]: [Path] of [facts.rs], cons lists in the interner: construction, prefix matching and
      substitution, the join keys of the propagation rules, printing and parsing.
    - [PathSet]: the admissible paths of an index, frozen: a hash table of handles, a bit set with ranks, and the
      splits of the members; concatenation decided without building the path.
    - [UnionCache], [Decision]: the memo of set unions, whose slots are seqlocks, and the decision ids, decision sets and
      conditions of [decision.rs].
    - [Swiss], [RawTable]: the hash table below the sets.  [Swiss] holds the word-parallel scans of a group, the probe sequence and the sizes;
      [RawTable] the block of memory, with its occupancy word or control bytes, and every operation on it.  [TableInv] is
      the invariant and the lemmas on memory; [TableOps] proves lookups, [TableIter] iteration, [TableGrow] allocation, insertion and
      rebuilding, [TableConsume] cloning, the owning iterator and freeing.
    - [HybridSet]: the set operations over the table.  What a set promises is the pair of classes [SetOps], [SetLaws]; the hybrid set is an instance.
    - [PathGroup], [LocalsTrie]: groups and the store of five columns, written and proved against [SetLaws].
    - [CondTrie], [CondViews], [CondRounds]: the store of rows with conditions, what its indices answer, and what it holds
      after rounds of semi-naive evaluation, over the interfaces of [HybridSet] and the lattice of [Decision].
    - [IR]: the data types of [cir/mod.rs], [cir/call.rs], [cir/terminator.rs]; the statement
      constructors; read and write sets; the tables of locals and globals.
    - [Graph], [Search], [TopoSort], [Dominators]: [graph/mod.rs], [graph/reversed.rs],
      [graph/sort/mod.rs], [graph/dominators/mod.rs].
      [LengauerTarjan] proves what the dominator computation returns, through the theory of
      semidominators and an invariant of its link-eval forest.
    - [Scc]: strongly connected components and their annotations ([graph/scc/mod.rs]).
    - [DeadTemps], [ComposeLoads], [CopyProp], [Coalesce]: the passes [ssa/dead_temps],
      [ssa/compose_loads], [ssa/copy_prop], [ssa/coalesce].
    - [Semantics]: the evaluator [semantics/mod.rs], whole.  [Unfolding] is its specification,
      the least labeling of the unfolding as an inductive predicate over call strings, and
      [Saturation] the proof that the evaluator computes it.
    - [Verify]: [cir/verify.rs] with the traversals of [cir/visit/mod.rs] it uses.
    - [Builder]: the builders of [cir/builder.rs], with scripts of calls on them.
    - [Vmt]: the name tables and method tables of [cir/call.rs].
    - [Cfg]: basic blocks as a graph ([cir/basic_blocks.rs]), pruning and the single exit
      ([prune_unreachable_nodes] and [complete] of [ssa/mod.rs]).
    - [PhiPlace], [Rename], [Ssa]: SSA construction, [PhiPlace], [SsaRename] and
      [transform_with] of [ssa/mod.rs].  [Reaching] is the argument that the version renaming
      gives a use is the one that reaches it along every path, [SsaExec] the path semantics the
      preservation theorem is stated in, [SsaVerify] the proof that the result verifies, and
      [SsaOrder] the proof that its definitions precede their uses.
    - [Mem2Reg]: [ssa/mem2reg/mod.rs].
    - [PassWf]: every pass keeps functions well formed.
    - [Pipeline]: the pass pipeline of [ssa/mod.rs], which runs the passes above on every
      function of a program, on one thread or on a pool.
    - [SsaForm]: [ssa_form] of [semantics/mod.rs], where the verifier, SSA construction and the evaluator meet.

    ** How the code is modelled

    A function that mutates its arguments returns the new state; records are the source's
    structs and inductive types its enums.  [Vec], [SmallVec], [ThinVec], [IndexVec] and
    [IndexVecDeque] are lists, [HashMap], [HashSet], [BTreeMap] and [BTreeSet] are [gmap] and
    [gset].  Where the iteration order of a hash table is visible, the order is a parameter
    [hash_iter] assumed only to enumerate the entries.  Indexing out of range, [unwrap] of
    [None], failed assertions and subtraction below zero are [Panic], which the theorems rule
    out.  The graph traits are type classes, so that the searches are proved once for every
    graph that implements them.  Offsets are [i64] with wrap-around; the [u32] state indices of
    the breadth-first search wrap too.  The offsets of [facts.rs] and [path_set.rs] are added with a plain [+],
    which panics on overflow.  The state of an interner is threaded through; memory from the allocator is a map
    from the cells written, and a read of another cell or a write out of bounds is [Panic].  Threads that intern are a step relation
    on the two critical sections of [intern].  The memory of a hash table is a list of words and a list of slots; a slot
    that is uninitialised or moved out of is [None], and reading one, or an access out of the block, is [Panic]; debug assertions are modelled.
    The allocator, the layout of the elements and the hash function are parameters ([Allocator], [Layout], [Hasher]).  The maps of the stores are hashbrown's, used
    as finite maps; their order, which is unspecified, is that of [map_to_list].  The driver of an evaluation is [ascent]'s; a round of it is
    what the documentation of [cond_trie.rs] says: a row is added to [new] unless [total] or [delta] holds it, and the
    versions are merged at the end.  Threads that use the union cache interleave their single accesses to its slots.

    ** Fuel

    A [while] loop is a fixpoint on fuel.  No theorem assumes that a result was obtained: each
    gives fuel that is enough and shows that the code returns with it.  Searches need more than
    the total out-degree of the reachable nodes (each edge is pushed once) or more than the
    number of reachable states; the walk for the components takes two rounds per
    node, and the links it follows end within the nodes; Kahn's loop pops each node once; the dead-temporary work-list
    pops each statement once; each sweep of copy propagation but the last settles a phi; the
    parser consumes a byte per step; the work-lists of phi placement push a block once per
    variable besides those they start from ([place_fuel], [ssa_fuel]); the renaming search
    recurses at most as deep as there are blocks; the walks of an interned path take a step per segment, and the
    arena moves to the next of its 23 chunks in every round; a probe of a hash table takes at most as many steps as there are groups, or
    slots in the small regime, and an iteration as many as there are elements; the closure of an interface visits each
    declared interface once; the evaluator's sweeps add a judgement to a set that
    [Unfolding.finite_judgements] bounds, so the theorem gives a fuel from which on every fuel
    works.

    ** The theorems

    - Evaluation: what the evaluator returns is the least labeling within its bounds, and the
      unbounded one when [truncated] is unset ([evaluate_least_labeling], [evaluate_observed]).
    - Verification: the verifier never panics and accepts exactly the well-formed programs
      ([verify_correct]); verified programs evaluate ([verified_programs_evaluate]), and
      verified programs of a front end do once they are in SSA form ([ssa_form_evaluates]), which [ssa_form] does not always recognise ([ssa_form_not_idempotent]).  What the
      builders build from well-formed arguments verifies ([built_functions_verify]); they insert in order ([builder_insert_order]).
    - Passes: coalescing simulates the original program under every interpretation
      ([coalesce_function_correct]); copy propagation preserves value flow and is complete;
      dead-temporary elimination deletes exactly the inductively dead definitions and keeps every
      read defined; load composition keeps what every access path denotes.
    - SSA: pruning keeps the reachable part of the graph and [complete] what is returned; phis
      are placed exactly at the live blocks of the iterated frontier ([phi_place_correct]);
      renaming gives each definition its own version ([rename_correct]); together they preserve
      what every path computes ([ssa_preserves_behaviour]), and the result passes the verifier
      ([transform_verifies]).  [ssa_entry_loop_wrong] is a program with an edge back to its start
      block on which they do not.
    - Mem2reg: promotion can be undone statement by statement ([mem2reg_invertible]), and no
      escaped address reaches a promoted slot ([promoted_slots_unreachable],
      [escape_reach_bounds]); which configurations parse ([mem2reg_parse_correct]).
    - Pipeline: the number of threads and the grouping of their results do not matter
      ([pipeline_threads_agree]), nor does running the passes function by function or pass by
      pass ([pipeline_pass_order]); verified programs go through without a panic and come out
      verified ([pipeline_verifies]).
    - Graphs: soundness and completeness of the searches, shortest paths, topological order or a
      cycle, the depth-first numbering; the dominator computation terminates with a tree whose
      parents dominate and are immediate dominators unless they are the start node
      ([dominator_tree_correct]), with a graph on which its final pass does return the start node
      for another immediate dominator ([dominator_tree_not_immediate]); the dominance frontier of
      a dominator tree; the strongly connected components, their graph and their annotations
      ([sccs_correct], [scc_annotations_correct]).
    - Paths: normal forms are unique and compose; [strip_prefix] is a partial inverse of
      [concat]; classes are stable under extension; printing and parsing are inverse and the
      parser is total.
    - Interned handles: the interner is a growing one-to-one map, with no read of an unwritten cell
      ([interner_correct]); threads that race to intern a value get one id ([interner_threads]); when there is room, strings are interned
      ([intern_str_returns]).
    - Index paths: a handle is its normal form ([fact_paths_canonical]); prefix matching is [strip_prefix], except where the prefix
      ends in an offset the path lacks ([match_prefix_correct]); substitution is concatenation in the path
      algebra ([substitute_prefix_correct]); the join keys of a path are the prefixes that match it ([prefix_keys_complete]).
    - Path set: concatenation and substitution find exactly the members that building the path would reach
      ([path_set_concat_correct], [path_set_substitute_correct]); the stored splits are the splits ([path_set_splits_correct]).
    - Decisions: the union cache never returns a torn entry ([union_cache_never_torn]); decision sets and conditions are lattices, with
      [join_mut] the least upper bound under the widening bound ([decision_sets_lattice], [conditions_lattice]); rows settle
      ([decision_row_settles]); decision ids are dense and one to one ([decision_ids_correct]).
    - Hybrid sets: every composition of the operations is the set it should be ([hybrid_set_refines_set]), whichever regime it
      is in ([promotion_at_threshold]); [merge] counts what was new ([hybrid_set_merge_correct]); the owning iterator moves or drops each
      element once ([into_iter_moves_each_once]); a probe sequence visits every bucket once ([probe_visits_every_bucket_once]); the
      word-parallel scans agree with a byte loop ([group_scans_correct]); the block holds what is put in it ([raw_layout_sound]).
    - Relation stores: a group is the set of its leaves ([path_group_refines_set]); over rounds of semi-naive evaluation [total], [delta] and
      [new] hold what they should, and all views agree ([locals_relation_semi_naive]); with conditions, [delta] holds exactly
      the facts whose join changed ([cond_relation_semi_naive]); seed rows come back from the store ([assign_rows_roundtrip]).
    - Tables: which interfaces are functional ([type_facts_correct]); [finish_names] keeps the first entry of each name, and which tables
      [check_names] accepts ([finish_names_correct]).
    - IR: destinations are rewritten to the same meaning, reads and writes follow renaming, and
      the interning tables stay injective.

    ** Not modelled

    The 32-bit bound of indices and counters other than those above; the memory orderings of the atomics of the interner and the union cache, whose
    critical sections and accesses are sequentially consistent steps here; serialization, [Display] of
    whole programs and log messages; [SmallVec] inlining and the caches of
    [cir/basic_blocks.rs] and [DominatorTree]; the
    text of escape samples; the rows, flow variables and id maps of [facts.rs]; panics of the hash and clone functions of the
    elements; clones and heap reports of groups and stores; the concurrent stores [c_locals_trie.rs] and [c_cond_trie.rs]; the front ends,
    readers, the rules of the engines, which the [ascent] macros compile, and the other storage crates.

    ** What is left

    The flow variables of [facts.rs]; the concurrent stores; and the refinement that would close the development,
    that the passes preserve the observations of [Unfolding.derives]. *)

From stdpp Require Export base option list gmap sets strings pretty sorting.
From Stdlib Require Export ZArith Lia.


(** ** Outcomes

    Rust code either returns, panics (a failed [assert!], an [unwrap] of [None], an index out
    of bounds), or, in the fuelled model of a [while] loop, is cut off.  Keeping the last two
    apart lets a theorem say "panics" and lets another say "never runs out of fuel". *)
Inductive outcome (A : Type) : Type :=
| Ret (a : A)
| Panic
| OutOfFuel.
Arguments Ret {A} a.
Arguments Panic {A}.
Arguments OutOfFuel {A}.

#[export] Instance outcome_ret : MRet outcome := fun A a => Ret a.
#[export] Instance outcome_bind : MBind outcome := fun A B f m =>
  match m with Ret a => f a | Panic => Panic | OutOfFuel => OutOfFuel end.
#[export] Instance outcome_fmap : FMap outcome := fun A B f m =>
  match m with Ret a => Ret (f a) | Panic => Panic | OutOfFuel => OutOfFuel end.

#[export] Instance outcome_eq_dec `{EqDecision A} : EqDecision (outcome A).
Proof. solve_decision. Defined.

(** Rust's [Result]. *)
Inductive result (E A : Type) : Type :=
| Ok (a : A)
| Err (e : E).
Arguments Ok {E A} a.
Arguments Err {E A} e.

#[export] Instance result_eq_dec `{EqDecision E, EqDecision A} : EqDecision (result E A).
Proof. solve_decision. Defined.

Definition map_err {E F A} (f : E -> F) (r : result E A) : result F A :=
  match r with Ok a => Ok a | Err e => Err (f e) end.

Definition map_ok {E A B} (f : A -> B) (r : result E A) : result E B :=
  match r with Ok a => Ok (f a) | Err e => Err e end.

(** [unwrap o]: Rust's [Option::unwrap]/[expect], and indexing [v[i]] when [o] is [v.get(i)]. *)
Definition unwrap {A} (o : option A) : outcome A :=
  match o with Some a => Ret a | None => Panic end.

(** [assert b]: Rust's [assert!]. *)
Definition rust_assert (b : bool) : outcome unit := if b then Ret tt else Panic.

(** A monadic left fold: the body of [for x in xs { ... }]. *)
Fixpoint foldM {A B} (f : B -> A -> outcome B) (b : B) (l : list A) : outcome B :=
  match l with
  | [] => Ret b
  | x :: l' => match f b x with Ret b' => foldM f b' l' | Panic => Panic | OutOfFuel => OutOfFuel end
  end.

Fixpoint mapM_out {A B} (f : A -> outcome B) (l : list A) : outcome (list B) :=
  match l with
  | [] => Ret []
  | x :: l' =>
      match f x with
      | Ret y => match mapM_out f l' with Ret ys => Ret (y :: ys) | Panic => Panic | OutOfFuel => OutOfFuel end
      | Panic => Panic | OutOfFuel => OutOfFuel
      end
  end.

Lemma mapM_out_Ret {A B} (f : A -> outcome B) l l' :
  mapM_out f l = Ret l' <-> Forall2 (fun x y => f x = Ret y) l l'.
Proof.
  split.
  - revert l'. induction l as [|x l IH]; intros l'; simpl; [intros [= <-]; constructor|].
    destruct (f x) eqn:E; [|done..]. destruct (mapM_out f l); [|done..]. intros [= <-]. constructor; auto.
  - induction 1 as [|x y l l' E _ IH]; simpl; [done|]. by rewrite E, IH.
Qed.

Lemma mapM_out_total {A B} (f : A -> outcome B) l :
  (forall x, x ∈ l -> exists y, f x = Ret y) -> exists l', mapM_out f l = Ret l'.
Proof.
  induction l as [|x l IH]; intros H; simpl; [by eexists|].
  destruct (H x (list_elem_of_here _ _)) as [y ->].
  destruct IH as [l' ->]; [intros; apply H; by apply list_elem_of_further|by eexists].
Qed.

(** [for x in l { acc.push(f(x)); n += ... }] is [mapM_out]. *)
Lemma fold_mapM {A B} (g : A -> outcome (B * nat)) l :
  foldM (fun '(ys, k) x => '(y, n) ← g x; Ret (ys ++ [y], k + n)) ([], 0) l =
    (rs ← mapM_out g l; Ret (map fst rs, foldl Nat.add 0 (map snd rs))).
Proof.
  assert (forall l pre k, foldM (fun '(ys, k) x => '(y, n) ← g x; Ret (ys ++ [y], k + n)) (pre, k) l =
    (rs ← mapM_out g l; Ret (pre ++ map fst rs, foldl Nat.add k (map snd rs)))) as H; [|apply H].
  induction l0 as [|x l0 IH]; intros pre k; simpl; [by rewrite app_nil_r|]. destruct (g x) as [[y n]| |]; simpl; [|done..].
  rewrite IH. destruct (mapM_out g l0); simpl; [|done..]. by rewrite <- app_assoc.
Qed.

Lemma mapM_out_fst {A B C} (g : A -> outcome (B * C)) l :
  mapM_out (fun x => '(y, _) ← g x; Ret y) l = (rs ← mapM_out g l; Ret (map fst rs)).
Proof. induction l as [|x l IH]; simpl; [done|]. destruct (g x) as [[y n]| |]; simpl; [|done..]. rewrite IH. by destruct (mapM_out g l). Qed.

(** ** 64-bit signed integers

    An [i64] is a [Z] in [[-2^63, 2^63)]; wrapping arithmetic is written out. *)
Definition i64_min : Z := (- 2 ^ 63)%Z.
Definition i64_max : Z := (2 ^ 63 - 1)%Z.
Definition in_i64 (z : Z) : Prop := (i64_min <= z <= i64_max)%Z.
#[export] Instance in_i64_dec z : Decision (in_i64 z).
Proof. unfold in_i64. apply _. Defined.

Definition wrap_i64 (z : Z) : Z := ((z + 2 ^ 63) mod 2 ^ 64 - 2 ^ 63)%Z.
Definition wrapping_add (a b : Z) : Z := wrap_i64 (a + b)%Z.
Definition wrapping_neg (a : Z) : Z := wrap_i64 (- a)%Z.
Definition saturating_add (a b : Z) : Z := Z.max i64_min (Z.min i64_max (a + b))%Z.

Ltac i64_unfold :=
  unfold in_i64, wrapping_add, wrapping_neg, saturating_add, wrap_i64, i64_min, i64_max in *.

(** Arithmetic on [i64]: unfolds the wrap-around and lets [lia] see the division. *)
Ltac i64 :=
  i64_unfold; change (2 ^ 63)%Z with 9223372036854775808%Z in *;
  change (2 ^ 64)%Z with 18446744073709551616%Z in *;
  Z.div_mod_to_equations; lia.

Lemma wrap_i64_range z : in_i64 (wrap_i64 z).
Proof. i64. Qed.

Lemma wrap_i64_id z : in_i64 z -> wrap_i64 z = z.
Proof. intros. i64. Qed.

Lemma wrapping_add_range a b : in_i64 (wrapping_add a b).
Proof. apply wrap_i64_range. Qed.

Lemma wrapping_neg_range a : in_i64 (wrapping_neg a).
Proof. apply wrap_i64_range. Qed.

Lemma wrapping_add_0_r a : in_i64 a -> wrapping_add a 0 = a.
Proof. intros. i64. Qed.

Lemma wrapping_add_0_l a : in_i64 a -> wrapping_add 0 a = a.
Proof. intros. i64. Qed.

Lemma wrapping_add_comm a b : wrapping_add a b = wrapping_add b a.
Proof. unfold wrapping_add. f_equal. lia. Qed.

Lemma wrapping_add_assoc a b c :
  wrapping_add (wrapping_add a b) c = wrapping_add a (wrapping_add b c).
Proof. i64. Qed.

Lemma wrapping_neg_r a : wrapping_add a (wrapping_neg a) = 0%Z.
Proof. i64. Qed.

Lemma wrapping_neg_l a : wrapping_add (wrapping_neg a) a = 0%Z.
Proof. i64. Qed.

Lemma wrapping_neg_nonzero a : in_i64 a -> a <> 0%Z -> wrapping_neg a <> 0%Z.
Proof. intros. i64. Qed.

(** ** Vectors: the end of a list *)

(** Rust's [slice::split_last], as (everything but the last, the last). *)
Fixpoint split_last {A} (l : list A) : option (list A * A) :=
  match l with
  | [] => None
  | x :: l' =>
      match split_last l' with
      | None => Some ([], x)
      | Some (init, y) => Some (x :: init, y)
      end
  end.

Lemma split_last_snoc {A} (l : list A) x : split_last (l ++ [x]) = Some (l, x).
Proof. induction l as [|y l IH]; simpl; [done|]. by rewrite IH. Qed.

Lemma split_last_Some {A} (l : list A) i x : split_last l = Some (i, x) <-> l = i ++ [x].
Proof.
  split; [|intros ->; apply split_last_snoc].
  destruct l as [|y l _] using rev_ind; [done|].
  rewrite split_last_snoc. by intros [= -> ->].
Qed.

Lemma split_last_None {A} (l : list A) : split_last l = None <-> l = [].
Proof.
  split; [|by intros ->].
  destruct l as [|y l _] using rev_ind; [done|]. by rewrite split_last_snoc.
Qed.

Lemma lookup_map {A B} (f : A -> B) (l : list A) i : map f l !! i = f <$> l !! i.
Proof. exact (list_lookup_fmap f l i). Qed.

Lemma elem_of_map {A B} (f : A -> B) (l : list A) y : y ∈ map f l <-> exists x, y = f x /\ x ∈ l.
Proof. exact (list_elem_of_fmap f l y). Qed.

Lemma sum_list_with_ext {A} (f h : A -> nat) (l : list A) :
  (forall x, x ∈ l -> f x = h x) -> sum_list_with f l = sum_list_with h l.
Proof.
  induction l as [|x l IH]; [done|]. intros E. simpl. rewrite E, IH; [done| |]; intros; [apply E|]; set_solver.
Qed.

Lemma sum_list_with_pos {A} (f : A -> nat) (l : list A) :
  0 < sum_list_with f l <-> exists x, x ∈ l /\ 0 < f x.
Proof.
  split.
  - induction l as [|x l IH]; simpl; [lia|]. destruct (decide (f x = 0)) as [E|E].
    + rewrite E. intros (y & ? & ?)%IH. exists y. set_solver.
    + intros _. exists x. split; [set_solver|lia].
  - intros (x & Hx & Hf). pose proof (sum_list_with_in x f l Hx). lia.
Qed.

Lemma filter_ext_in {A} (P Q : A -> Prop) `{!forall x, Decision (P x), !forall x, Decision (Q x)} (l : list A) :
  (forall x, x ∈ l -> P x <-> Q x) -> filter P l = filter Q l.
Proof.
  induction l as [|x l IH]; intros E; [done|]. rewrite !filter_cons, IH by (intros; apply E; set_solver).
  specialize (E x (list_elem_of_here x l)). destruct (decide (P x)), (decide (Q x)); naive_solver.
Qed.

(** A list that is not duplicate free has an element at two places. *)
Lemma not_NoDup_split {A} `{EqDecision A} (l : list A) : ~ NoDup l ->
  exists x l1 l2 l3, l = l1 ++ x :: l2 ++ x :: l3.
Proof.
  induction l as [|x l IH]; intros Hd; [by destruct Hd; apply NoDup_nil_2|].
  destruct (decide (x ∈ l)) as [(l2 & l3 & ->)%list_elem_of_split|Hx]; [by exists x, [], l2, l3|].
  destruct IH as (y & l1 & l2 & l3 & ->); [|by exists y, (x :: l1), l2, l3].
  intros Hnd. apply Hd. by apply NoDup_cons.
Qed.

(** In a finite set closed under some predecessor of a relation there is a cycle. *)
Lemma backward_closed_cycle {A} `{Countable A} (R : relation A) (X : gset A) (x : A) :
  x ∈ X -> (forall y, y ∈ X -> exists z, z ∈ X /\ R z y) -> exists y, y ∈ X /\ tc R y y.
Proof.
  intros Hx HX.
  assert (forall k y, y ∈ X -> exists l, length l = k /\ (forall z, z ∈ l -> z ∈ X) /\
    forall l1 a l2 b l3, l ++ [y] = l1 ++ a :: l2 ++ b :: l3 -> tc R a b) as Hchain.
  { induction k as [|k IH]; intros y Hy.
    - exists []. split_and!; [done|set_solver|]. intros l1 a l2 b l3 E%(f_equal length).
      rewrite !length_app in E. simpl in E. rewrite length_app in E. simpl in E. lia.
    - destruct (HX y Hy) as (z & Hz & Hzy). destruct (IH z Hz) as (l & Hl & Hin & Hp).
      exists (l ++ [z]). split_and!; [rewrite length_app; simpl; lia|set_solver|].
      intros l1 a l2 b l3 E. destruct l3 as [|b' l3 _] using rev_ind.
      + rewrite app_comm_cons, app_assoc in E. apply app_inj_tail in E as [E ->].
        destruct l2 as [|c l2 _] using rev_ind.
        * apply app_inj_tail in E as [_ ->]. by apply tc_once.
        * rewrite app_comm_cons, app_assoc in E. apply app_inj_tail in E as [E ->].
          eapply tc_r; [|exact Hzy]. eapply (Hp l1 a l2 c []). rewrite E.
          by rewrite <- app_assoc.
      + assert (l ++ [z] = l1 ++ a :: l2 ++ b :: l3) as E'; [|by eapply Hp].
        replace (l1 ++ a :: l2 ++ b :: l3 ++ [b']) with ((l1 ++ a :: l2 ++ b :: l3) ++ [b']) in E
          by (by rewrite <- app_assoc; simpl; rewrite <- app_assoc).
        by apply app_inj_tail in E as [E _]. }
  destruct (Hchain (size X) x Hx) as (l & Hl & Hin & Hp).
  assert (~ NoDup (l ++ [x])) as Hnd.
  { intros Hnd. assert (size (list_to_set (l ++ [x]) : gset A) <= size X) as Hs.
    { apply subseteq_size. set_solver. }
    rewrite size_list_to_set, length_app in Hs by done. simpl in Hs. lia. }
  apply not_NoDup_split in Hnd as (y & l1 & l2 & l3 & E). exists y. split; [|by eapply Hp].
  assert (y ∈ l ++ [x]) by (rewrite E; set_solver). set_solver.
Qed.

Lemma NoDup_omap {A B} (f : A -> option B) (l : list A) :
  (forall x y b, x ∈ l -> y ∈ l -> f x = Some b -> f y = Some b -> x = y) -> NoDup l -> NoDup (omap f l).
Proof.
  intros Hf. induction 1 as [|x l Hx Hl IH]; csimpl; [constructor|].
  assert (NoDup (omap f l)) by (apply IH; intros; eapply Hf; eauto using list_elem_of_further).
  destruct (f x) as [b|] eqn:E; [|done]. constructor; [|done].
  intros (y & Hy & Ey)%list_elem_of_omap. apply Hx. replace x with y; [done|].
  eapply Hf; [by apply list_elem_of_further|apply list_elem_of_here|done..].
Qed.

(** [iter().enumerate()], from index [i]. *)
Fixpoint enum_from {A} (i : nat) (l : list A) : list (nat * A) :=
  match l with [] => [] | x :: l' => (i, x) :: enum_from (S i) l' end.
Notation enumerate := (enum_from 0).

Lemma elem_of_enum_from {A} (l : list A) : forall i j x,
  (j, x) ∈ enum_from i l <-> i <= j /\ l !! (j - i) = Some x.
Proof.
  induction l as [|y l IH]; intros i j x; simpl.
  - rewrite elem_of_nil, lookup_nil. naive_solver.
  - rewrite elem_of_cons, IH. destruct (decide (i = j)) as [<-|Hij].
    + rewrite Nat.sub_diag. simpl. naive_solver lia.
    + destruct (decide (i <= j)) as [Hle|].
      * replace (j - i) with (S (j - S i)) by lia. simpl. naive_solver lia.
      * naive_solver lia.
Qed.

Lemma elem_of_enumerate {A} (l : list A) i x : (i, x) ∈ enumerate l <-> l !! i = Some x.
Proof. rewrite elem_of_enum_from, Nat.sub_0_r. naive_solver lia. Qed.

Lemma enum_from_fst {A} (l : list A) : forall i, (enum_from i l).*1 = seq i (length l).
Proof. induction l as [|x l IH]; intros i; simpl; [done|]. by rewrite IH. Qed.

Lemma NoDup_enumerate {A} (l : list A) : NoDup (enumerate l).
Proof. apply (NoDup_fmap_1 fst). rewrite enum_from_fst. apply NoDup_seq. Qed.

Lemma enum_from_snd {A} (l : list A) : forall i, (enum_from i l).*2 = l.
Proof. induction l as [|x l IH]; intros i; simpl; [done|]. by rewrite IH. Qed.

(** ** Monadic folds *)

Lemma foldM_app {A B} (f : B -> A -> outcome B) b l1 l2 :
  foldM f b (l1 ++ l2) = match foldM f b l1 with Ret b' => foldM f b' l2 | Panic => Panic | OutOfFuel => OutOfFuel end.
Proof. revert b. induction l1 as [|x l1 IH]; intros b; simpl; [done|]. destruct (f b x); auto. Qed.

(** A fold whose steps return and keep an invariant returns. *)
Lemma foldM_inv {A B} (f : B -> A -> outcome B) (I : list A -> B -> Prop) (l : list A) : forall pre b,
  I pre b ->
  (forall pre x b, x ∈ l -> I pre b -> exists b', f b x = Ret b' /\ I (pre ++ [x]) b') ->
  exists b', foldM f b l = Ret b' /\ I (pre ++ l) b'.
Proof.
  induction l as [|x l IH]; intros pre b Hb Hstep; simpl; [rewrite app_nil_r; eauto|].
  destruct (Hstep pre x b) as (b1 & -> & Hb1); [set_solver|done|].
  destruct (IH (pre ++ [x]) b1 Hb1) as (b2 & E2 & Hb2).
  { intros pre' y b' Hy. apply Hstep. set_solver. }
  exists b2. rewrite <- app_assoc in Hb2. done.
Qed.

(** The same, where a step knows its place in the list. *)
Lemma foldM_split {A B} (f : B -> A -> outcome B) (I : list A -> B -> Prop) (l : list A) b :
  I [] b ->
  (forall pre x post b, l = pre ++ x :: post -> I pre b -> exists b', f b x = Ret b' /\ I (pre ++ [x]) b') ->
  exists b', foldM f b l = Ret b' /\ I l b'.
Proof.
  intros Hb Hstep.
  assert (forall post pre b, l = pre ++ post -> I pre b -> exists b', foldM f b post = Ret b' /\ I l b') as G.
  { induction post as [|x post IH]; intros pre b' E Hi; simpl.
    - rewrite app_nil_r in E. subst. eauto.
    - destruct (Hstep pre x post b' E Hi) as (b1 & -> & Hi1). eapply IH; [|exact Hi1].
      by rewrite <- app_assoc. }
  by apply (G l [] b).
Qed.

Create HintDb ctadl.
Create Rewrite HintDb ctadl.
#[export] Hint Rewrite @split_last_snoc @app_nil_r @last_snoc : ctadl.
#[export] Hint Resolve wrapping_add_range wrapping_neg_range wrap_i64_range : ctadl.

(** Proves a decidable closed goal by evaluating its decision procedure. *)
Ltac by_decide := apply (bool_decide_unpack _); vm_compute; exact I.
