(* ===== verification/Bits.v ===== *)
(** * Bits: fixed-width integers packed in words

    Casts to unsigned widths, the checked signed arithmetic of debug builds, [trailing_zeros], and the lemmas
    by which two fields put in one word with a shift and an or are read back; and lemmas on sorted lists of integers. *)

From S2P Require Import Prelude.

#[local] Open Scope Z_scope.

(** [x as u16], [x as u32], [x as u64]: the low bits. *)
Definition u16 (z : Z) : Z := z mod 2 ^ 16.
Definition u32 (z : Z) : Z := z mod 2 ^ 32.
Definition u64 (z : Z) : Z := z mod 2 ^ 64.

(** [x as i16] of an unsigned word. *)
Definition i16 (z : Z) : Z := (z + 2 ^ 15) mod 2 ^ 16 - 2 ^ 15.

(** [a + b] and [a - b] on [i64]: an overflow panics, as in a debug build. *)
Definition add_i64 (a b : Z) : outcome Z := if decide (in_i64 (a + b)) then Ret (a + b) else Panic.
Definition sub_i64 (a b : Z) : outcome Z := if decide (in_i64 (a - b)) then Ret (a - b) else Panic.

Definition trailing_zeros (z : Z) : Z := Z.log2 (Z.land z (- z)).

(** [u64::count_ones]. *)
Definition count_ones (w : Z) : Z := Z.of_nat (length (filter (fun i => Z.testbit w i = true) (seqZ 0 64))).

(** ** Fields of a word *)

Lemma bits_above a n i : 0 <= a < 2 ^ n -> 0 <= n <= i -> Z.testbit a i = false.
Proof.
  intros Ha Hn. rewrite <- (Z.mod_small a (2 ^ n)) by done. by apply Z.mod_pow2_bits_high.
Qed.

Lemma lor_shiftl a b n : 0 <= n -> 0 <= a < 2 ^ n -> Z.lor a (Z.shiftl b n) = a + b * 2 ^ n.
Proof.
  intros Hn Ha. rewrite <- Z.shiftl_mul_pow2 by done. symmetry. apply Z.add_nocarry_lor.
  apply Z.bits_inj'. intros i Hi. rewrite Z.land_spec, Z.bits_0. destruct (decide (i < n)).
  - rewrite Z.shiftl_spec_low by done. apply andb_false_r.
  - rewrite (bits_above a n) by lia. done.
Qed.

Lemma land_mask a n : 0 <= n -> Z.land a (2 ^ n - 1) = a mod 2 ^ n.
Proof. intros Hn. rewrite <- Z.land_ones by done. f_equal. rewrite Z.ones_equiv. lia. Qed.

Lemma field_low a b n : 0 <= n -> 0 <= a < 2 ^ n -> (a + b * 2 ^ n) mod 2 ^ n = a.
Proof. intros Hn Ha. rewrite Z_mod_plus_full. by apply Z.mod_small. Qed.

Lemma field_high a b n : 0 <= n -> 0 <= a < 2 ^ n -> Z.shiftr (a + b * 2 ^ n) n = b.
Proof. intros Hn Ha. rewrite Z.shiftr_div_pow2, Z_div_plus_full, Z.div_small by lia. lia. Qed.

(** A one-bit tag above a field: setting, testing and clearing it. *)
Lemma lor_bit a n : 0 <= n -> 0 <= a < 2 ^ n -> Z.lor a (2 ^ n) = a + 2 ^ n.
Proof. intros Hn Ha. rewrite <- (Z.shiftl_1_l n), lor_shiftl, Z.shiftl_1_l by done. lia. Qed.

Lemma land_pow2 a n : 0 <= n -> Z.land a (2 ^ n) = Z.b2z (Z.testbit a n) * 2 ^ n.
Proof.
  intros Hn. rewrite <- Z.shiftl_mul_pow2 by done. apply Z.bits_inj'. intros i Hi.
  rewrite Z.land_spec, Z.pow2_bits_eqb, Z.shiftl_spec by done. destruct (Z.eqb_spec n i) as [->|Hne].
  - rewrite andb_true_r, Z.sub_diag. by destruct (Z.testbit a i).
  - rewrite andb_false_r. destruct (decide (i < n)); [by rewrite Z.testbit_neg_r by lia|].
    symmetry. apply (bits_above _ 1); [by destruct (Z.testbit a n)|lia].
Qed.

Lemma land_bit_low a n : 0 <= n -> 0 <= a < 2 ^ n -> Z.land a (2 ^ n) = 0.
Proof. intros Hn Ha. rewrite land_pow2, (bits_above a n) by lia. done. Qed.

Lemma land_bit_high a n : 0 <= n -> 0 <= a < 2 ^ n -> Z.land (a + 2 ^ n) (2 ^ n) = 2 ^ n.
Proof.
  intros Hn Ha. rewrite land_pow2, <- lor_bit, Z.lor_spec, Z.pow2_bits_true, orb_true_r by lia. simpl. lia.
Qed.

Lemma trailing_zeros_pow2 n : 0 <= n -> trailing_zeros (2 ^ n) = n.
Proof.
  intros Hn. unfold trailing_zeros. replace (Z.land (2 ^ n) (- 2 ^ n)) with (2 ^ n); [by apply Z.log2_pow2|].
  replace (- 2 ^ n) with (Z.lnot (Z.ones n)) by (rewrite Z.ones_equiv; unfold Z.lnot; lia).
  rewrite <- Z.ldiff_land, Z.ldiff_ones_r, Z.shiftr_div_pow2, Z.div_same, Z.shiftl_1_l by lia. done.
Qed.

Lemma u32_small z : 0 <= z < 2 ^ 32 -> u32 z = z.
Proof. apply Z.mod_small. Qed.

Lemma u32_range z : 0 <= u32 z < 2 ^ 32.
Proof. by apply Z.mod_pos_bound. Qed.

Lemma i16_u16 z : - 2 ^ 15 <= z < 2 ^ 15 -> i16 (u16 z) = z.
Proof. intros Hz. unfold i16, u16. rewrite Zplus_mod_idemp_l, Z.mod_small by lia. lia. Qed.

(** ** Sorted lists of integers *)

Lemma StronglySorted_filter {A} (R : A -> A -> Prop) (P : A -> Prop) `{!forall x, Decision (P x)} l : StronglySorted R l -> StronglySorted R (filter P l).
Proof.
  induction 1 as [|x l Hs IHs Hx]; [constructor|]. rewrite filter_cons. destruct (decide (P x)); [|done]. constructor; [done|].
  rewrite Forall_forall in Hx |- *. intros y [_ Hy]%list_elem_of_filter. by apply Hx.
Qed.

Lemma StronglySorted_lt_NoDup l : StronglySorted Z.lt l -> NoDup l.
Proof. induction 1 as [|x l Hs IHs Hx]; constructor; [|done]. intros Hin. rewrite Forall_forall in Hx. specialize (Hx _ Hin). lia. Qed.

#[export] Hint Resolve u32_range : ctadl.
