(* ===== verification/Index.v ===== *)
(** * Index: the index vectors of [ctadl-ir/src/index]

    [IndexVec<I, T>] is a list.  Its map-like API on [IndexVec<I, Option<T>>] ([insert] grows
    the vector with [None], [remove] takes the entry) implements a finite map; [PartialMap]
    states that promise for the graph searches, and [HashMap] and [IndexVec] both discharge
    it.  [invert_bijective_mapping] inverts a permutation. *)

From S2P Require Import Prelude.

(** ** Operations of [IndexVec] *)

Definition iv_index {A} (l : list A) (i : nat) : outcome A := unwrap (l !! i).

(** [v[i] = x]: panics out of range. *)
Definition iv_set {A} (l : list A) (i : nat) (x : A) : outcome (list A) :=
  if decide (i < length l) then Ret (<[i := x]> l) else Panic.

Definition iv_push {A} (l : list A) (x : A) : list A * nat := (l ++ [x], length l).

(** [&v[range]]. *)
Definition slice {A} (l : list A) (range : nat * nat) : outcome (list A) :=
  if decide (range.1 <= range.2 <= length l) then Ret (take (range.2 - range.1) (drop range.1 l)) else Panic.

Definition ensure_contains_elem {A} (l : list A) (elem : nat) (fill : A) : list A :=
  let min_new_len := elem + 1 in
  if decide (length l < min_new_len) then l ++ replicate (min_new_len - length l) fill else l.

Definition iv_insert {A} (l : list (option A)) (i : nat) (v : A) : list (option A) :=
  <[i := Some v]> (ensure_contains_elem l i None).

Definition iv_remove {A} (l : list (option A)) (i : nat) : list (option A) * option A :=
  match l !! i with
  | Some o => (<[i := None]> l, o)
  | None => (l, None)
  end.

Definition iv_contains {A} (l : list (option A)) (i : nat) : bool :=
  match l !! i with Some (Some _) => true | _ => false end.

(** [inverse[i2] = i1] for every [(i1, i2)], from index [i]. *)
Fixpoint invert_loop (i : nat) (l : list nat) (inverse : list nat) : outcome (list nat) :=
  match l with
  | [] => Ret inverse
  | i2 :: l' => inverse ← iv_set inverse i2 i; invert_loop (S i) l' inverse
  end.

Definition invert_bijective_mapping (l : list nat) : outcome (list nat) :=
  invert_loop 0 l (replicate (length l) 0).

(** ** Finite maps, as an interface

    What a search asks of the container it keeps parent links in. *)
Class PartialMap (K V M : Type) : Type := {
  pm_insert : M -> K -> V -> M;
  pm_remove : M -> K -> M * option V;
  pm_get : M -> K -> option V;
  pm_get_insert_eq m k v : pm_get (pm_insert m k v) k = Some v;
  pm_get_insert_ne m k k' v : k <> k' -> pm_get (pm_insert m k v) k' = pm_get m k';
  pm_remove_get m k : snd (pm_remove m k) = pm_get m k;
  pm_get_remove_eq m k : pm_get (fst (pm_remove m k)) k = None;
  pm_get_remove_ne m k k' : k <> k' -> pm_get (fst (pm_remove m k)) k' = pm_get m k';
}.

Definition iv_get {A} (l : list (option A)) (i : nat) : option A := mjoin (l !! i).

Lemma lookup_ensure {A} (l : list (option A)) i j :
  mjoin (ensure_contains_elem l i None !! j) = mjoin (l !! j) /\
  i < length (ensure_contains_elem l i None).
Proof.
  unfold ensure_contains_elem. case_decide as H; [|split; [done|lia]].
  rewrite length_app, length_replicate. split; [|lia].
  destruct (decide (j < length l)); [by rewrite lookup_app_l|].
  rewrite lookup_app_r, (lookup_ge_None_2 l j) by lia.
  destruct (decide (j - length l < i + 1 - length l));
    [by rewrite lookup_replicate_2|by rewrite lookup_ge_None_2; [|rewrite length_replicate; lia]].
Qed.

#[export, refine] Instance IndexVec_PartialMap {A} : PartialMap nat A (list (option A)) := {|
  pm_insert := iv_insert; pm_remove := iv_remove; pm_get := iv_get;
|}.
Proof.
  - intros m k v. unfold iv_get, iv_insert. by rewrite list_lookup_insert_eq by apply (lookup_ensure m k k).
  - intros m k k' v Hk. unfold iv_get, iv_insert. rewrite list_lookup_insert_ne by done. apply lookup_ensure.
  - intros m k. unfold iv_remove, iv_get. by destruct (m !! k).
  - intros m k. unfold iv_remove, iv_get. destruct (m !! k) eqn:E; simpl; [|by rewrite E].
    by rewrite list_lookup_insert_eq by (by eapply lookup_lt_Some).
  - intros m k k' Hk. unfold iv_remove, iv_get. destruct (m !! k); simpl; [|done].
    by rewrite list_lookup_insert_ne.
Defined.

#[export, refine] Instance HashMap_PartialMap `{Countable K} {V} : PartialMap K V (gmap K V) := {|
  pm_insert m k v := <[k := v]> m;
  pm_remove m k := (delete k m, m !! k);
  pm_get m k := m !! k;
|}.
Proof.
  - intros. by rewrite lookup_insert_eq.
  - intros. by rewrite lookup_insert_ne.
  - done.
  - intros m k. apply lookup_delete_eq.
  - intros m k k' Hk. by apply lookup_delete_ne.
Defined.

Lemma iv_get_replicate {A} n k : pm_get (replicate n (@None A)) k = None.
Proof.
  unfold pm_get, IndexVec_PartialMap, iv_get. destruct (replicate _ _ !! k) eqn:E; [|done].
  by apply lookup_replicate_1 in E as [-> _].
Qed.

Lemma iv_index_Some {A} (l : list A) i x : l !! i = Some x -> iv_index l i = Ret x.
Proof. unfold iv_index. by intros ->. Qed.

Lemma iv_set_lt {A} (l : list A) i x : i < length l -> iv_set l i x = Ret (<[i := x]> l).
Proof. intros Hi. unfold iv_set. by rewrite decide_True. Qed.

#[export] Hint Rewrite @pm_get_insert_eq @pm_remove_get @pm_get_remove_eq : ctadl.

(** ** Inverting a permutation *)

Lemma invert_loop_spec l : forall i inverse,
  NoDup l -> Forall (fun x => x < length inverse) l ->
  exists r, invert_loop i l inverse = Ret r /\ length r = length inverse /\
    (forall k x, l !! k = Some x -> r !! x = Some (i + k)) /\
    (forall x, x ∉ l -> r !! x = inverse !! x).
Proof.
  induction l as [|x l IH]; intros i inverse Hnd Hlt; simpl; [by exists inverse|].
  apply NoDup_cons in Hnd as [Hx Hnd]. apply Forall_cons in Hlt as [Hxl Hlt].
  unfold iv_set at 1. rewrite decide_True by done. simpl.
  destruct (IH (S i) (<[x:=i]> inverse) Hnd) as (r & -> & Hl & Hin & Hout).
  { by rewrite length_insert. }
  exists r. rewrite length_insert in Hl. split_and!; [done..| |].
  - intros [|k] y; simpl.
    + intros [= <-]. rewrite Hout by done. rewrite list_lookup_insert_eq by done. f_equal. lia.
    + intros Hk. rewrite (Hin _ _ Hk). f_equal. lia.
  - intros y [Hy Hy']%not_elem_of_cons. rewrite Hout by done. by rewrite list_lookup_insert_ne.
Qed.

(** [invert_bijective_mapping] inverts permutations: on a permutation of [0..n) it never
    indexes out of range, its result maps [y] back to [x] whenever the input maps [x] to [y],
    and inverting the result gives the input back. *)
Theorem invert_bijective_mapping_correct (l : list nat) :
  l ≡ₚ seq 0 (length l) ->
  exists r, invert_bijective_mapping l = Ret r /\
    (forall x y, l !! x = Some y <-> r !! y = Some x) /\
    r ≡ₚ seq 0 (length r) /\
    invert_bijective_mapping r = Ret l.
Proof.
  assert (forall l, l ≡ₚ seq 0 (length l) ->
    exists r, invert_bijective_mapping l = Ret r /\ length r = length l /\
      forall x y, l !! x = Some y <-> r !! y = Some x) as Hinv.
  { clear. intros l Hp. assert (NoDup l) as Hnd by (rewrite Hp; apply NoDup_seq).
    assert (forall x, x ∈ l <-> x < length l) as Hel by (intros x; rewrite Hp at 1; rewrite elem_of_seq; lia).
    destruct (invert_loop_spec l 0 (replicate (length l) 0) Hnd) as (r & E & Hl & Hin & _).
    { apply Forall_forall. intros x. rewrite length_replicate, Hel. done. }
    rewrite length_replicate in Hl. exists r. split_and!; [done..|].
    intros x y. split; [apply Hin|]. intros Hy. pose proof (lookup_lt_Some _ _ _ Hy) as Hy'.
    rewrite Hl, <- Hel in Hy'. apply list_elem_of_lookup in Hy' as [x' Hx'].
    rewrite (Hin _ _ Hx') in Hy. by simplify_eq. }
  intros Hp. destruct (Hinv l Hp) as (r & E & Hl & Hr).
  assert (forall x, x ∈ l <-> x < length l) as Hel by (intros x; rewrite Hp at 1; rewrite elem_of_seq; lia).
  assert (r ≡ₚ seq 0 (length r)) as Hpr.
  { apply NoDup_Permutation; [|apply NoDup_seq|].
    - apply NoDup_alt. intros i j x Hi%Hr Hj%Hr. congruence.
    - intros x. rewrite elem_of_seq, list_elem_of_lookup. setoid_rewrite <- Hr.
      rewrite Hl. split.
      + intros [y Hy]. apply lookup_lt_Some in Hy. lia.
      + intros [_ Hx]. destruct (lookup_lt_is_Some_2 l x) as [y Hy]; [lia|]. by exists y. }
  exists r. split_and!; [done..|]. destruct (Hinv r Hpr) as (l' & -> & Hl' & Hr').
  f_equal. apply list_eq. intros x. apply option_eq. intros y. by rewrite Hr, Hr'.
Qed.

Lemma invert_bijective_mapping_correct_witness :
  [2; 0; 1] ≡ₚ seq 0 3 /\ exists r, invert_bijective_mapping [2; 0; 1] = Ret r.
Proof.
  assert ([2; 0; 1] ≡ₚ seq 0 3) as H by by_decide.
  split; [exact H|]. destruct (invert_bijective_mapping_correct [2; 0; 1] H) as (r & E & _).
  by exists r.
Defined.
