(* ===== verification/Text.v ===== *)
(** * Text: Rust strings as UTF-8 byte strings

    A Rust [str] is a sequence of UTF-8 bytes; here it is Rocq's [string] of 8-bit characters.
    This file has what the code uses of them: byte slicing, [str::chars], decimal printing
    ([Display] for integers) and decimal parsing ([str::parse::<i64>]), with the round trip
    between the last two. *)

From Stdlib Require Export Ascii.
From S2P Require Import Prelude.

#[global] Arguments String.append !_ _ / : simpl nomatch.

(** ** Slicing *)

(** [s[n..]]. *)
Fixpoint drop_str (n : nat) (s : string) : string :=
  match n, s with
  | S n', String _ s' => drop_str n' s'
  | _, _ => s
  end.

(** [s[..n]]. *)
Fixpoint take_str (n : nat) (s : string) : string :=
  match n, s with
  | S n', String c s' => String c (take_str n' s')
  | _, _ => ""
  end.

(** [s.find(c)] for an ASCII character. *)
Fixpoint find_char (c : ascii) (s : string) : option nat :=
  match s with
  | "" => None
  | String d s' => if decide (c = d) then Some 0 else S <$> find_char c s'
  end.

Fixpoint all_str (f : ascii -> bool) (s : string) : bool :=
  match s with "" => true | String c s' => f c && all_str f s' end.

(** [s.strip_prefix(p)] for a string pattern. *)
Fixpoint strip_prefix_str (p s : string) : option string :=
  match p, s with
  | "", _ => Some s
  | String c p', String d s' => if decide (c = d) then strip_prefix_str p' s' else None
  | String _ _, "" => None
  end.

(** [parts.join(sep)]. *)
Fixpoint join_str (sep : string) (parts : list string) : string :=
  match parts with
  | [] => ""
  | [x] => x
  | x :: rest => x +:+ sep +:+ join_str sep rest
  end.

Lemma string_app_nil_r s : s +:+ "" = s.
Proof. induction s; simpl; congruence. Qed.

Lemma string_app_assoc s1 s2 s3 : s1 +:+ (s2 +:+ s3) = (s1 +:+ s2) +:+ s3.
Proof. induction s1; simpl; congruence. Qed.

Lemma string_length_app s1 s2 : String.length (s1 +:+ s2) = String.length s1 + String.length s2.
Proof. induction s1; simpl; congruence. Qed.

Lemma drop_str_app s1 s2 : drop_str (String.length s1) (s1 +:+ s2) = s2.
Proof. induction s1; simpl; [by destruct s2|done]. Qed.

Lemma take_str_app s1 s2 : take_str (String.length s1) (s1 +:+ s2) = s1.
Proof. induction s1; simpl; [by destruct s2|congruence]. Qed.

Lemma take_drop_str n s : take_str n s +:+ drop_str n s = s.
Proof. revert s; induction n; intros [|c s]; simpl; try done. by rewrite IHn. Qed.

Lemma drop_str_drop n m s : drop_str n (drop_str m s) = drop_str (m + n) s.
Proof. revert s; induction m; intros [|c s]; simpl; try done. by destruct n. Qed.

Lemma drop_str_length n s : String.length (drop_str n s) = String.length s - n.
Proof. revert s; induction n; intros [|c s]; simpl; try done; lia. Qed.

Lemma take_str_length n s : String.length (take_str n s) = Nat.min n (String.length s).
Proof. revert s; induction n; intros [|c s]; simpl; try done. by rewrite IHn. Qed.

Lemma drop_str_all n s : String.length s <= n -> drop_str n s = "".
Proof. revert s; induction n; intros [|c s]; simpl; try done; try lia. intros; apply IHn; lia. Qed.

Lemma find_char_app c s1 s2 : find_char c s1 = None ->
  find_char c (s1 +:+ String c s2) = Some (String.length s1).
Proof.
  induction s1 as [|d s1 IH]; simpl; intros H; [by rewrite decide_True by done|].
  case_decide; [done|]. destruct (find_char c s1); [done|]. by rewrite IH.
Qed.

Lemma find_char_lt c s i : find_char c s = Some i -> i < String.length s.
Proof.
  revert i. induction s as [|d s IH]; simpl; intros i H; [done|].
  case_decide; simplify_eq/=; [lia|]. destruct (find_char c s); simplify_eq/=.
  pose proof (IH _ eq_refl). lia.
Qed.

(** ** Characters ([str::chars]) *)

(** How many bytes the character whose first byte is [c] has. *)
Definition utf8_len (c : ascii) : nat :=
  let n := N_of_ascii c in
  if (n <? 128)%N then 1 else if (n <? 224)%N then 2 else if (n <? 240)%N then 3 else 4.

(** [s.chars().next()], as its bytes, with the rest of the string. *)
Definition next_char (s : string) : option (string * string) :=
  match s with
  | "" => None
  | String c _ => Some (take_str (utf8_len c) s, drop_str (utf8_len c) s)
  end.

Fixpoint chars_fuel (n : nat) (s : string) : list string :=
  match n, next_char s with
  | S n', Some (c, r) => c :: chars_fuel n' r
  | _, _ => []
  end.

(** [s.chars()].  Every character has at least one byte, so [length s] steps are enough
    ([concat_chars]). *)
Definition chars (s : string) : list string := chars_fuel (String.length s) s.

Definition concat_str (l : list string) : string := foldr String.append "" l.

(** One complete character: what its first byte announces. *)
Definition is_char (c : string) : Prop :=
  match c with "" => False | String b _ => String.length c = utf8_len b end.
#[export] Instance is_char_dec c : Decision (is_char c).
Proof. destruct c; apply _. Defined.

(** No character is cut off: what every Rust [str] satisfies. *)
Definition utf8 (s : string) : Prop := Forall is_char (chars s).
#[export] Instance utf8_dec s : Decision (utf8 s).
Proof. unfold utf8. apply _. Defined.

Lemma utf8_len_pos c : 1 <= utf8_len c.
Proof. unfold utf8_len. repeat case_match; lia. Qed.

Lemma next_char_shrinks s c r : next_char s = Some (c, r) -> String.length r < String.length s.
Proof.
  destruct s as [|b s]; [done|]. intros [= <- <-].
  pose proof (utf8_len_pos b). rewrite drop_str_length. simpl. lia.
Qed.

Lemma next_char_split s c r : next_char s = Some (c, r) -> s = c +:+ r.
Proof. destruct s as [|b s]; [done|]. intros [= <- <-]. by rewrite take_drop_str. Qed.

Lemma next_char_app c s : is_char c -> next_char (c +:+ s) = Some (c, s).
Proof.
  destruct c as [|b c]; [done|]. unfold is_char. intros H.
  change (next_char (String b c +:+ s)) with
    (Some (take_str (utf8_len b) (String b c +:+ s), drop_str (utf8_len b) (String b c +:+ s))).
  by rewrite <- H, take_str_app, drop_str_app.
Qed.

Lemma concat_chars_fuel n s : String.length s <= n -> concat_str (chars_fuel n s) = s.
Proof.
  revert s. induction n as [|n IH]; intros s Hn; [destruct s; simpl in *; [done|lia]|].
  simpl. destruct (next_char s) as [[c r]|] eqn:E.
  - simpl. rewrite IH; [by rewrite <- (next_char_split _ _ _ E)|].
    apply next_char_shrinks in E. lia.
  - by destruct s.
Qed.

Lemma concat_chars s : concat_str (chars s) = s.
Proof. by apply concat_chars_fuel. Qed.

(** ** Decimal integers *)

Definition is_digit (c : ascii) : bool :=
  ((48 <=? N_of_ascii c) && (N_of_ascii c <=? 57))%N.

Definition digit_val (c : ascii) : Z := Z.of_N (N_of_ascii c - 48).

Fixpoint digits_val (acc : Z) (s : string) : Z :=
  match s with "" => acc | String c s' => digits_val (acc * 10 + digit_val c) s' end.

(** [Display] for an integer. *)
Definition show_Z (z : Z) : string := pretty z.
Definition show_nat (n : nat) : string := pretty n.

Lemma pretty_N_char_spec x : (x < 10)%N ->
  is_digit (pretty_N_char x) = true /\ digit_val (pretty_N_char x) = Z.of_N x.
Proof.
  intros H. assert (exists n : nat, x = N.of_nat n /\ n < 10) as (n & -> & Hn)
    by (exists (N.to_nat x); lia).
  do 10 (destruct n as [|n]; [by vm_compute|]). lia.
Qed.

Lemma pretty_N_go_spec x s :
  all_str is_digit (pretty_N_go x s) = all_str is_digit s /\
  digits_val 0 (pretty_N_go x s) = digits_val (Z.of_N x) s.
Proof.
  revert s. induction (N.lt_wf_0 x) as [x _ IH]; intros s.
  destruct (decide (x = 0%N)) as [->|Hx]; [by rewrite pretty_N_go_0|].
  rewrite pretty_N_go_step by lia.
  pose proof (N.mod_lt x 10 ltac:(lia)) as Hm.
  destruct (pretty_N_char_spec _ Hm) as [Hd Hv].
  destruct (IH (x `div` 10)%N (N.div_lt x 10 ltac:(lia) ltac:(lia)) (String (pretty_N_char (x `mod` 10)) s))
    as [-> ->]. cbn [all_str digits_val]. rewrite Hd, Hv. split; [done|]. f_equal.
  pose proof (N.div_mod x 10 ltac:(lia)). lia.
Qed.

Lemma pretty_N_spec (x : N) :
  all_str is_digit (pretty x) = true /\ digits_val 0 (pretty x) = Z.of_N x /\ pretty x <> "".
Proof.
  unfold pretty, pretty_N. case_decide as Hx; [subst; by vm_compute|].
  destruct (pretty_N_go_spec x "") as [-> ->]. split_and!; [done..|].
  rewrite pretty_N_go_step by lia. intros Hs.
  assert (forall y s, s <> "" -> pretty_N_go y s <> "") as Hne.
  { intros y. induction (N.lt_wf_0 y) as [y _ IHy]. intros s ?.
    destruct (decide (y = 0%N)) as [->|]; [by rewrite pretty_N_go_0|].
    rewrite pretty_N_go_step by lia. apply IHy; [apply N.div_lt; lia|done]. }
  by eapply Hne, Hs.
Qed.

(** [parse_i64]'s sign: [s.strip_prefix(['+', '-'])]. *)
Definition split_sign (s : string) : bool * string :=
  match s with
  | String "+" d => (false, d)
  | String "-" d => (true, d)
  | _ => (false, s)
  end.

(** [s.parse::<i64>()], on a string already known to be an optional sign and digits. *)
Definition i64_from_str (s : string) : option Z :=
  let '(neg, digits) := split_sign s in
  let v := digits_val 0 digits in
  let v := if neg then (- v)%Z else v in
  if decide (in_i64 v) then Some v else None.

Lemma split_sign_digits s : all_str is_digit s = true -> split_sign s = (false, s).
Proof.
  destruct s as [|c s]; [done|]. simpl. intros [Hc _]%andb_true_iff.
  destruct c as [[] [] [] [] [] [] [] []]; try done; by vm_compute in Hc.
Qed.

Lemma show_Z_spec z :
  exists digits neg, split_sign (show_Z z) = (neg, digits) /\
    all_str is_digit digits = true /\ digits <> "" /\
    (if neg then (- digits_val 0 digits)%Z else digits_val 0 digits) = z /\
    find_char "]" (show_Z z) = None.
Proof.
  assert (forall s, all_str is_digit s = true -> find_char "]" s = None) as Hf.
  { induction s as [|c s IH]; simpl; [done|]. intros [Hc Hs]%andb_true_iff.
    case_decide; [subst; by vm_compute in Hc|]. by rewrite IH. }
  unfold show_Z, pretty, pretty_Z. destruct z as [|p|p].
  - exists "0", false. by vm_compute.
  - destruct (pretty_N_spec (Npos p)) as (H1 & H2 & H3).
    exists (pretty (Npos p)), false. split_and!; try done; [by apply split_sign_digits|by apply Hf].
  - destruct (pretty_N_spec (Npos p)) as (H1 & H2 & H3).
    exists (pretty (Npos p)), true. split_and!; try done.
    + change (pretty (Z.pos p)) with (pretty (Npos p)). by rewrite H2.
    + change (find_char "]" (String "-" (pretty (Npos p))) = None). simpl.
      by rewrite (Hf (pretty (Npos p))).
Qed.
