(* ===== verification/Interner.v ===== *)
(** * Interner: interned values behind 4-byte ids ([immortal/src/id.rs])

    [IdInterner] maps every distinct value to a [NonZeroU32] and back.  It has [S] shards; a shard keeps a
    hash table of its ids and an append-only array of slots in buckets of [64 << b]; the contents of
    strings and slices are copied to a bump arena of chunks of [1024 << c].

    Memory from the allocator is a map from the cells written so far; writing out of bounds, following a null
    pointer and reading a cell never written, undefined in the source, are [Panic] here, so that the theorems
    rule them out.  [hashbrown]'s table is a class, [HashTable], with its documented laws; the hash
    function [fx] of [rustc_hash] and the equality [eqb] of the interned type are parameters. *)

From S2P Require Import Prelude Bits Index.

#[local] Open Scope Z_scope.

(** ** [hashbrown::HashTable] *)

(** [ht_find] runs the closure on some of the entries, among them every entry of the given hash
    until it finds one; [ht_insert_unique] takes the function that rehashes the entries when the table grows. *)
Class HashTable (E HT : Type) : Type := {
  ht_new : HT;
  ht_find : HT -> Z -> (E -> outcome bool) -> outcome (option E);
  ht_insert_unique : HT -> Z -> E -> (E -> Z) -> HT;
  ht_reserve : HT -> Z -> (E -> Z) -> HT;
  ht_len : HT -> Z;
  ht_allocation_size : HT -> Z;
  ht_elems : HT -> list E;
  ht_ok : (E -> Z) -> HT -> Prop;
  ht_new_ok : forall hasher, ht_ok hasher ht_new /\ ht_elems ht_new = [];
  ht_find_spec : forall hasher t h eq (f : E -> bool), ht_ok hasher t -> (forall e, e ∈ ht_elems t -> eq e = Ret (f e)) ->
    exists r, ht_find t h eq = Ret r /\
      match r with
      | Some e => e ∈ ht_elems t /\ f e = true
      | None => forall e, e ∈ ht_elems t -> hasher e = h -> f e = false
      end;
  ht_insert_ok : forall hasher t h e, ht_ok hasher t -> hasher e = h ->
    ht_ok hasher (ht_insert_unique t h e hasher) /\ ht_elems (ht_insert_unique t h e hasher) ≡ₚ e :: ht_elems t;
  ht_ok_ext : forall hasher hasher' t, (forall e, e ∈ ht_elems t -> hasher e = hasher' e) -> ht_ok hasher t -> ht_ok hasher' t;
  ht_reserve_ok : forall hasher t n, ht_ok hasher t -> ht_ok hasher (ht_reserve t n hasher) /\ ht_elems (ht_reserve t n hasher) ≡ₚ ht_elems t;
}.

(** ** Memory *)

(** A block from the allocator. *)
Notation block := (gmap Z).

(** [ptr.add(i).write(x)] in a block of [size] cells. *)
Definition ptr_write {X} (size : Z) (b : block X) (i : Z) (x : X) : outcome (block X) :=
  if decide (0 <= i < size) then Ret (<[i := x]> b) else Panic.

Definition ptr_read {X} (b : block X) (i : Z) : outcome X := unwrap (b !! i).

Definition FIRST_BUCKET : Z := 64.
Definition BUCKETS : nat := 27.
Definition FIRST_CHUNK : Z := 1024.
Definition CHUNKS : nat := 23.

(** The bucket and the index in it of the [n]th slot. *)
Definition split (n first : Z) : Z * Z :=
  let x := n + first in
  let b := Z.log2 x - Z.log2 first in
  (b, x - Z.shiftl first b).

(** ** The bump arena *)

Record Bump (U : Type) : Type := mk_bump { b_chunks : list (option (block U)); b_next : Z; b_bytes : Z }.
Arguments mk_bump {U}.
Arguments b_chunks {U}.
Arguments b_next {U}.
Arguments b_bytes {U}.

Record Span : Type := mk_span { sp_off : Z; sp_len : Z }.

Section arena.
Context {U : Type} (size_of : Z).

Fixpoint store_loop (fuel : nat) (b : Bump U) (v : list U) : outcome (Bump U * option Span) :=
  match fuel with
  | 0%nat => OutOfFuel
  | S fuel =>
      let n := Z.of_nat (length v) in
      let '(c, i) := split (b_next b) FIRST_CHUNK in
      if decide (Z.of_nat CHUNKS <= c) then Ret (b, None)
      else
        let size := Z.shiftl FIRST_CHUNK c in
        if decide (i + n > size) then store_loop fuel (mk_bump (b_chunks b) (b_next b + (size - i)) (b_bytes b)) v
        else if decide (2 ^ 32 <= b_next b) then Ret (b, None)
        else
          chunk ← iv_index (b_chunks b) (Z.to_nat c);
          let '(chunk, bytes) := match chunk with Some chunk => (chunk, b_bytes b) | None => (∅, b_bytes b + size * size_of) end in
          chunk ← foldM (fun chunk '(k, x) => ptr_write size chunk (i + Z.of_nat k) x) chunk (enumerate v);
          chunks ← iv_set (b_chunks b) (Z.to_nat c) (Some chunk);
          Ret (mk_bump chunks (b_next b + n) bytes, Some (mk_span (b_next b) n))
  end.

(** [Bump::store_slice]; every round of its loop moves to the next chunk. *)
Definition store_slice (b : Bump U) (v : list U) : outcome (Bump U * option Span) :=
  if decide (2 ^ 32 <= Z.of_nat (length v)) then Ret (b, None)
  else if decide (length v = 0%nat) then Ret (b, Some (mk_span 0 0))
  else store_loop (S CHUNKS) b v.

Definition load_slice (slot : Span) (chunks : list (option (block U))) : outcome (list U) :=
  if decide (sp_len slot = 0) then Ret []
  else
    let '(c, i) := split (sp_off slot) FIRST_CHUNK in
    chunk ← iv_index chunks (Z.to_nat c);
    chunk ← unwrap chunk;
    mapM_out (fun k => ptr_read chunk (i + Z.of_nat k)) (seq 0 (Z.to_nat (sp_len slot))).
End arena.

(** ** What can be interned *)

Class Internable (T : Type) : Type := {
  i_Slot : Type;
  i_Unit : Type;
  i_size_slot : Z;
  i_store : T -> Bump i_Unit -> outcome (Bump i_Unit * option i_Slot);
  i_load : i_Slot -> list (option (block i_Unit)) -> outcome T;
}.

(** A sized type: the slot holds the value. *)
Definition Internable_sized (T : Type) (size_of : Z) : Internable T := {|
  i_Slot := T; i_Unit := unit; i_size_slot := size_of; i_store v b := Ret (b, Some v); i_load slot _ := Ret slot |}.

(** [[T]]: the slot holds the place of the contents in the arena. *)
Definition Internable_slice (T : Type) (size_of : Z) : Internable (list T) := {|
  i_Slot := Span; i_Unit := T; i_size_slot := 8; i_store v b := store_slice size_of b v; i_load slot chunks := load_slice slot chunks |}.

(** [str], by its bytes. *)
Definition Internable_str : Internable string := {|
  i_Slot := Span; i_Unit := Ascii.ascii; i_size_slot := 8;
  i_store v b := store_slice 1 b (String.list_ascii_of_string v);
  i_load slot chunks := bytes ← load_slice slot chunks; Ret (String.string_of_list_ascii bytes) |}.

(** ** The interner *)

Record Locked (HT : Type) : Type := mk_locked { l_table : HT; l_len : Z; l_next : Z; l_slot_bytes : Z; l_arena_bytes : Z }.
Arguments mk_locked {HT}.
Arguments l_table {HT}.
Arguments l_len {HT}.
Arguments l_next {HT}.
Arguments l_slot_bytes {HT}.
Arguments l_arena_bytes {HT}.

Record Shard (HT : Type) : Type := mk_shard { s_lock : Locked HT; s_len : Z }.
Arguments mk_shard {HT}.
Arguments s_lock {HT}.
Arguments s_len {HT}.

Record Ptrs (Slot U : Type) : Type := mk_ptrs { p_slots : list (option (block Slot)); p_chunks : list (option (block U)) }.
Arguments mk_ptrs {Slot U}.
Arguments p_slots {Slot U}.
Arguments p_chunks {Slot U}.

Record Stats : Type := mk_stats { st_entries : Z; st_bytes : Z }.

(** [hash64], from the 64 bits of [FxHash]: the two halves of a full product, folded. *)
Definition hash64 (h : Z) : Z :=
  let m := (h * 0x9e3779b97f4a7c15) mod 2 ^ 128 in
  Z.lxor (u64 m) (u64 (Z.shiftr m 64)).

Definition table_hash (h32 : Z) : Z := Z.lor h32 (Z.shiftl h32 32).

(** [Id::new]. *)
Definition id_new (raw : Z) : outcome Z := if decide (raw = 0) then Panic else Ret raw.

Section interner.
Context {T : Type} `{IT : Internable T} {HT : Type} `{HH : HashTable Z HT}.
Context (nshards : Z) (fx : T -> Z) (eqb : T -> T -> bool).

Record IdInterner : Type := mk_interner { ii_shards : list (Shard HT); ii_ptrs : list (Ptrs i_Slot i_Unit); ii_limit : Z }.

Definition LOG2_S : Z := trailing_zeros nshards.

Definition with_limit (limit : Z) : outcome IdInterner :=
  _ ← rust_assert (bool_decide (nshards = 2 ^ Z.log2 nshards /\ nshards <= Z.shiftl 1 16));
  let n := Z.to_nat nshards in
  Ret (mk_interner (replicate n (mk_shard (mk_locked ht_new 0 0 0 0) 0))
         (replicate n (mk_ptrs (replicate BUCKETS None) (replicate CHUNKS None))) limit).

Definition with_id_bits (bits : Z) : outcome IdInterner :=
  _ ← rust_assert (bool_decide (LOG2_S < bits <= 32));
  with_limit (u32 (Z.shiftl 1 (bits - LOG2_S) - 1)).

(** [CAP] and [new]. *)
Definition ii_new : outcome IdInterner := with_limit (u32 (Z.shiftl 1 (32 - LOG2_S) - 1)).

(** The shard and the local index; [wrapping_sub] on [u32]. *)
Definition decode (raw : Z) : Z * Z := (Z.land raw (nshards - 1), u32 (Z.shiftr raw LOG2_S - 1)).

Definition ii_value (st : IdInterner) (raw : Z) : outcome T :=
  let '(shard, local) := decode raw in
  let '(b, i) := split local FIRST_BUCKET in
  ptrs ← iv_index (ii_ptrs st) (Z.to_nat shard);
  bucket ← iv_index (p_slots ptrs) (Z.to_nat b);
  bucket ← unwrap bucket;
  slot ← ptr_read bucket i;
  i_load slot (p_chunks ptrs).

Definition ii_get (st : IdInterner) (id : Z) : outcome T := ii_value st id.

Definition ii_find (st : IdInterner) (table : HT) (h32 : Z) (value : T) : outcome (option Z) :=
  found ← ht_find table (table_hash h32) (fun e =>
      if decide (u32 (Z.shiftr e 32) = h32) then w ← ii_value st (u32 e); Ret (eqb w value) else Ret false);
  match found with
  | Some e => id ← id_new (u32 e); Ret (Some id)
  | None => Ret None
  end.

Definition shard_of (value : T) : nat := Z.to_nat (Z.land (Z.shiftr (hash64 (fx value)) 32) (nshards - 1)).
Definition hash32 (value : T) : Z := u32 (hash64 (fx value)).

(** [intern] under the read lock. *)
Definition intern_read (st : IdInterner) (value : T) : outcome (option Z) :=
  shard ← iv_index (ii_shards st) (shard_of value);
  ii_find st (l_table (s_lock shard)) (hash32 value) value.

(** [intern] under the write lock. *)
Definition intern_write (st : IdInterner) (value : T) : outcome (IdInterner * Z) :=
  let s := shard_of value in
  let h32 := hash32 value in
  shard ← iv_index (ii_shards st) s;
  let locked := s_lock shard in
  found ← ii_find st (l_table locked) h32 value;
  match found with
  | Some id => Ret (st, id)
  | None =>
      let local := l_len locked in
      if decide (ii_limit st <= local) then Panic
      else
        let '(b, i) := split local FIRST_BUCKET in
        ptrs ← iv_index (ii_ptrs st) s;
        bucket ← iv_index (p_slots ptrs) (Z.to_nat b);
        let n := Z.shiftl FIRST_BUCKET b in
        let '(bucket, slot_bytes) := match bucket with
          | Some bucket => (bucket, l_slot_bytes locked)
          | None => (∅, l_slot_bytes locked + n * i_size_slot)
          end in
        '(bump, slot) ← i_store value (mk_bump (p_chunks ptrs) (l_next locked) (l_arena_bytes locked));
        slot ← unwrap slot;
        bucket ← ptr_write n bucket i slot;
        slots ← iv_set (p_slots ptrs) (Z.to_nat b) (Some bucket);
        let raw := Z.lor (u32 (Z.shiftl (local + 1) LOG2_S)) (Z.of_nat s) in
        let table := ht_insert_unique (l_table locked) (table_hash h32) (Z.lor raw (Z.shiftl h32 32))
          (fun e => table_hash (u32 (Z.shiftr e 32))) in
        shards ← iv_set (ii_shards st) s (mk_shard (mk_locked table (local + 1) (b_next bump) slot_bytes (b_bytes bump)) (local + 1));
        ptrs ← iv_set (ii_ptrs st) s (mk_ptrs slots (b_chunks bump));
        id ← id_new raw;
        Ret (mk_interner shards ptrs (ii_limit st), id)
  end.

Definition ii_intern (st : IdInterner) (value : T) : outcome (IdInterner * Z) :=
  found ← intern_read st value;
  match found with
  | Some id => Ret (st, id)
  | None => intern_write st value
  end.

Definition ii_try_get (st : IdInterner) (value : T) : outcome (option Z) := intern_read st value.

Definition ii_from_raw (st : IdInterner) (raw : Z) : outcome (option Z) :=
  let '(shard, local) := decode raw in
  sh ← iv_index (ii_shards st) (Z.to_nat shard);
  if decide (local < s_len sh) then id ← id_new raw; Ret (Some id) else Ret None.

Definition ii_is_valid (st : IdInterner) (id : Z) : outcome bool :=
  r ← ii_from_raw st id; Ret (bool_decide (is_Some r)).

Definition div_ceil (n d : Z) : Z := (n + d - 1) / d.

Definition ii_reserve (st : IdInterner) (n : Z) : IdInterner :=
  let per_shard := div_ceil n nshards + div_ceil n nshards / 10 in
  mk_interner (map (fun shard =>
      let locked := s_lock shard in
      let additional := Z.max 0 (per_shard - ht_len (l_table locked)) in
      mk_shard (mk_locked (ht_reserve (l_table locked) additional (fun e => table_hash (u32 (Z.shiftr e 32)))) (l_len locked)
        (l_next locked) (l_slot_bytes locked) (l_arena_bytes locked)) (s_len shard)) (ii_shards st)) (ii_ptrs st) (ii_limit st).

Definition ii_stats (st : IdInterner) : Stats :=
  foldl (fun stats shard => let locked := s_lock shard in
      mk_stats (st_entries stats + l_len locked)
        (st_bytes stats + (ht_allocation_size (l_table locked) + l_slot_bytes locked + l_arena_bytes locked)))
    (mk_stats 0 0) (ii_shards st).
End interner.
Arguments IdInterner T {IT} HT.

(** ** Buckets *)

Lemma split_spec k n b i : 0 <= k -> 0 <= n -> split n (2 ^ k) = (b, i) -> 0 <= b /\ 0 <= i < 2 ^ (k + b) /\ n = 2 ^ (k + b) - 2 ^ k + i.
Proof.
  intros Hk Hn. unfold split. rewrite Z.log2_pow2 by done. intros [= <- <-].
  assert (0 < 2 ^ k) by (apply Z.pow_pos_nonneg; lia). destruct (Z.log2_spec (n + 2 ^ k)) as [H1 H2]; [lia|].
  assert (k <= Z.log2 (n + 2 ^ k)) by (rewrite <- (Z.log2_pow2 k) at 1 by done; apply Z.log2_le_mono; lia).
  rewrite Z.shiftl_mul_pow2, <- Z.pow_add_r by lia. replace (k + (Z.log2 (n + 2 ^ k) - k)) with (Z.log2 (n + 2 ^ k)) by lia.
  rewrite Z.pow_succ_r in H2 by lia. lia.
Qed.

Lemma split_of k b i : 0 <= k -> 0 <= b -> 0 <= i < 2 ^ (k + b) -> split (2 ^ (k + b) - 2 ^ k + i) (2 ^ k) = (b, i).
Proof.
  intros Hk Hb Hi. unfold split. replace (2 ^ (k + b) - 2 ^ k + i + 2 ^ k) with (2 ^ (k + b) + i) by lia.
  rewrite Z.log2_pow2 by done. assert (Z.log2 (2 ^ (k + b) + i) = k + b) as ->.
  { apply Z.log2_unique; [lia|]. rewrite Z.pow_succ_r by lia. lia. }
  rewrite Z.shiftl_mul_pow2, <- Z.pow_add_r by lia. replace (k + (k + b - k)) with (k + b) by lia.
  f_equal; lia.
Qed.

Lemma split_inj k n m : 0 <= k -> 0 <= n -> 0 <= m -> split n (2 ^ k) = split m (2 ^ k) -> n = m.
Proof.
  intros Hk Hn Hm E. destruct (split m (2 ^ k)) as [b i] eqn:Em.
  destruct (split_spec k n b i) as (_ & _ & ->); [done..|]. destruct (split_spec k m b i) as (_ & _ & ->); done.
Qed.

Lemma split_bound k m n b i : 0 <= k <= m -> 0 <= n < 2 ^ m -> split n (2 ^ k) = (b, i) -> b <= m - k.
Proof.
  intros Hk Hn E. destruct (split_spec k n b i) as (Hb & Hi & En); [lia..|done|].
  assert (2 ^ (k + b) < 2 ^ (m + 1)) as Hlt.
  { rewrite (Z.pow_add_r 2 m) by lia. assert (2 ^ k <= 2 ^ m) by (apply Z.pow_le_mono_r; lia). lia. }
  apply Z.pow_lt_mono_r_iff in Hlt; lia.
Qed.

(** ** The arena keeps what it stores *)

Section arena_facts.
Context {U : Type} (size_of : Z).

(** Cells are written below [b_next] only. *)
Record arena_ok (b : Bump U) : Prop := {
  ao_chunks : length (b_chunks b) = CHUNKS;
  ao_next : 0 <= b_next b;
  ao_cells : forall c chunk i x, b_chunks b !! c = Some (Some chunk) -> chunk !! i = Some x ->
    0 <= i < 2 ^ (10 + Z.of_nat c) /\ 2 ^ (10 + Z.of_nat c) - 2 ^ 10 + i < b_next b;
}.

Lemma write_cells size (i : Z) (v : list U) chunk : 0 <= i -> i + Z.of_nat (length v) <= size ->
  exists chunk', foldM (fun chunk '(k, x) => ptr_write size chunk (i + Z.of_nat k) x) chunk (enumerate v) = Ret chunk' /\
    (forall j, chunk' !! j = if decide (i <= j < i + Z.of_nat (length v)) then v !! Z.to_nat (j - i) else chunk !! j).
Proof.
  intros Hi Hlen. cut (forall m, Z.of_nat (m + length v) + i <= size ->
    exists chunk', foldM (fun chunk '(k, x) => ptr_write size chunk (i + Z.of_nat k) x) chunk (enum_from m v) = Ret chunk' /\
      (forall j, chunk' !! j = if decide (i + Z.of_nat m <= j < i + Z.of_nat (m + length v)) then v !! Z.to_nat (j - i - Z.of_nat m) else chunk !! j)).
  { intros H. destruct (H 0%nat) as (chunk' & E & Hj); [simpl; lia|]. exists chunk'. split; [done|]. intros j. rewrite Hj.
    destruct (decide _), (decide _); try lia; [f_equal; lia|done]. }
  clear Hlen. revert chunk. induction v as [|x v IH]; intros chunk m Hm; simpl.
  - exists chunk. split; [done|]. intros j. rewrite decide_False; [done|lia].
  - unfold ptr_write at 1. rewrite decide_True by (simpl in Hm; lia). destruct (IH (<[i + Z.of_nat m := x]> chunk) (S m)) as (chunk' & E & Hj);
      [simpl in *; lia|]. exists chunk'. split; [done|]. intros j. rewrite Hj. destruct (decide (j = i + Z.of_nat m)) as [->|Hne].
    + rewrite decide_False, decide_True by lia. rewrite lookup_insert_eq. replace (Z.to_nat _) with 0%nat by lia. done.
    + destruct (decide _), (decide _); try lia.
      * destruct (Z.to_nat (j - i - Z.of_nat m)) eqn:En; [lia|]. simpl. f_equal. lia.
      * by rewrite lookup_insert_ne.
Qed.

Lemma read_cells (chunk : block U) i (v : list U) : (forall k x, v !! k = Some x -> chunk !! (i + Z.of_nat k) = Some x) ->
  mapM_out (fun k => ptr_read chunk (i + Z.of_nat k)) (seq 0 (length v)) = Ret v.
Proof.
  intros H. apply mapM_out_Ret, Forall2_same_length_lookup_2; [by rewrite length_seq|].
  intros k a y Ha Hy. apply lookup_seq in Ha as [-> _]. unfold ptr_read. rewrite Nat.add_0_l, (H _ _ Hy). done.
Qed.

Lemma load_slice_mono slot chunks chunks' (w : list U) :
  (forall c chunk, chunks !! c = Some (Some chunk) -> exists chunk', chunks' !! c = Some (Some chunk') /\
    forall i x, chunk !! i = Some x -> chunk' !! i = Some x) ->
  load_slice slot chunks = Ret w -> load_slice slot chunks' = Ret w.
Proof.
  intros H. unfold load_slice. destruct (decide (sp_len slot = 0)); [done|]. destruct (split (sp_off slot) FIRST_CHUNK) as [c i].
  unfold iv_index. destruct (chunks !! Z.to_nat c) as [[chunk|]|] eqn:E; cbn [mbind outcome_bind unwrap]; [|done..].
  destruct (H _ _ E) as (chunk' & -> & Hc). cbn [mbind outcome_bind unwrap]. rewrite !mapM_out_Ret. intros Hw.
  eapply Forall2_impl; [exact Hw|]. intros k x. unfold ptr_read. destruct (chunk !! _) eqn:Ek; [|done]. intros [= ->]. by rewrite (Hc _ _ Ek).
Qed.

Lemma load_stored (chunks : list (option (block U))) c chunk i (v : list U) :
  0 <= c -> chunks !! Z.to_nat c = Some (Some chunk) -> 0 <= i -> i + Z.of_nat (length v) <= 2 ^ (10 + c) -> v <> [] ->
  (forall k x, v !! k = Some x -> chunk !! (i + Z.of_nat k) = Some x) ->
  load_slice (mk_span (2 ^ (10 + c) - 2 ^ 10 + i) (Z.of_nat (length v))) chunks = Ret v.
Proof.
  intros Hc E Hi Hle Hv Hk. assert (length v <> 0)%nat by (by destruct v). unfold load_slice. cbn [sp_len sp_off]. rewrite decide_False by lia.
  change FIRST_CHUNK with (2 ^ 10). rewrite split_of by lia. rewrite (iv_index_Some _ _ _ E). cbn [mbind outcome_bind unwrap].
  rewrite Nat2Z.id. by apply read_cells.
Qed.

(** What storing promises: earlier slots read as before, and the new one reads as the value. *)
Definition stored {S V : Type} (load : S -> list (option (block U)) -> outcome V) (chunks : list (option (block U))) (v : V) (r : outcome (Bump U * option S)) : Prop :=
  exists b' o, r = Ret (b', o) /\ arena_ok b' /\ (forall s w, load s chunks = Ret w -> load s (b_chunks b') = Ret w) /\
    forall s, o = Some s -> load s (b_chunks b') = Ret v.

Lemma stored_none {S V : Type} (load : S -> list (option (block U)) -> outcome V) b v : arena_ok b -> stored load (b_chunks b) v (Ret (b, None)).
Proof. intros Hok. exists b, None. split; [done|]. split; [done|]. split; [done|]. by intros s [=]. Qed.

Lemma store_loop_spec fuel b v c i : v <> [] -> arena_ok b -> split (b_next b) FIRST_CHUNK = (c, i) -> Z.max 0 (Z.of_nat CHUNKS - c) < Z.of_nat fuel ->
  stored load_slice (b_chunks b) v (store_loop size_of fuel b v).
Proof.
  intros Hv. revert b c i. induction fuel as [|fuel IH]; intros b c i Hok E Hf; [lia|]. cbn [store_loop]. rewrite E.
  destruct (split_spec 10 (b_next b) c i) as (Hc & Hi & En); [done|apply Hok|done|].
  destruct (decide (Z.of_nat CHUNKS <= c)). { by apply stored_none. }
  rewrite Z.shiftl_mul_pow2 by done. change FIRST_CHUNK with (2 ^ 10). rewrite <- Z.pow_add_r by lia.
  destruct (decide _) as [Hbig|Hfit].
  - apply (IH (mk_bump (b_chunks b) _ _) (c + 1) 0); [|cbn [b_next]|lia].
    + destruct Hok as [H1 H2 H3]. split; cbn; [done|lia|]. intros c' chunk j x E1 E2. destruct (H3 _ _ _ _ E1 E2). lia.
    + replace (b_next b + (2 ^ (10 + c) - i)) with (2 ^ (10 + (c + 1)) - 2 ^ 10 + 0); [apply split_of; lia|].
      replace (10 + (c + 1)) with (Z.succ (10 + c)) by lia. rewrite Z.pow_succ_r by lia. lia.
  - destruct (decide _). { by apply stored_none. }
    destruct (lookup_lt_is_Some_2 (b_chunks b) (Z.to_nat c)) as [o Eo]; [rewrite (ao_chunks _ Hok); lia|].
    rewrite (iv_index_Some _ _ _ Eo). cbn [mbind outcome_bind].
    set (cb := match o with Some chunk => (chunk, b_bytes b) | None => (∅, b_bytes b + 2 ^ (10 + c) * size_of) end).
    assert (forall j x, cb.1 !! j = Some x -> exists chunk, o = Some chunk /\ chunk !! j = Some x) as Hold.
    { intros j x. unfold cb. destruct o; cbn [fst]; [by eauto|]. by rewrite lookup_empty. }
    assert (forall chunk, o = Some chunk -> cb.1 = chunk) as Hsome by (intros chunk; unfold cb; by intros ->).
    destruct cb as [chunk0 bytes]. cbn [fst] in Hold, Hsome.
    destruct (write_cells (2 ^ (10 + c)) i v chunk0) as (chunk' & -> & Hw); [lia..|]. cbn [mbind outcome_bind].
    rewrite iv_set_lt by (by eapply lookup_lt_Some). cbn [mbind outcome_bind]. eexists _, _. split; [done|].
    assert (forall j x, chunk0 !! j = Some x -> 0 <= j < i) as Hlow.
    { intros j x Hj. destruct (Hold _ _ Hj) as (ch & -> & Hj'). destruct (ao_cells _ Hok _ _ _ _ Eo Hj') as [? Hlt].
      rewrite Z2Nat.id in Hlt by done. lia. }
    cbn [b_chunks]. split; [split; cbn [b_chunks b_next]|split].
    + rewrite length_insert. apply Hok.
    + pose proof (ao_next _ Hok). lia.
    + intros c' chunk j x. destruct (decide (c' = Z.to_nat c)) as [->|Hne].
      * rewrite list_lookup_insert_eq by (by eapply lookup_lt_Some). intros [= <-]. rewrite Hw. rewrite Z2Nat.id by done.
        destruct (decide _); [lia|]. intros Hj. apply Hlow in Hj. lia.
      * rewrite list_lookup_insert_ne by done. intros E1 E2. destruct (ao_cells _ Hok _ _ _ _ E1 E2). lia.
    + intros s w. apply load_slice_mono. intros c' chunk Ec. destruct (decide (c' = Z.to_nat c)) as [->|Hne].
      * rewrite list_lookup_insert_eq by (by eapply lookup_lt_Some). eexists. split; [done|]. intros j x Hj. rewrite Hw.
        assert (o = Some chunk) as -> by congruence. destruct (ao_cells _ Hok _ _ _ _ Ec Hj) as [? Hlt].
        rewrite Z2Nat.id in Hlt by done. rewrite decide_False, (Hsome chunk) by (done || lia). done.
      * rewrite list_lookup_insert_ne by done. eauto.
    + intros s [= <-]. rewrite En. eapply load_stored; [lia|by rewrite list_lookup_insert_eq by (by eapply lookup_lt_Some)|lia|lia|done|].
      intros k x Hk. pose proof (lookup_lt_Some _ _ _ Hk). rewrite Hw, decide_True by lia. rewrite <- Hk. f_equal. lia.
Qed.
(** Enough offsets: the arena is at most half used, and the value takes at most half of it. *)
Lemma store_loop_room fuel (b b' : Bump U) v c i : split (b_next b) FIRST_CHUNK = (c, i) -> 0 <= b_next b < 2 ^ 32 -> i = 0 \/ 2 * b_next b + 2 ^ 10 < 2 ^ 32 ->
  2 * Z.of_nat (length v) < 2 ^ 32 -> store_loop size_of fuel b v <> Ret (b', None).
Proof.
  revert b c i. induction fuel as [|fuel IH]; intros b c i E Hn Hi Hv; [done|]. cbn [store_loop]. rewrite E.
  destruct (split_spec 10 (b_next b) c i) as (Hc & Hi' & En); [lia..|done|]. pose proof (split_bound 10 32 (b_next b) c i ltac:(lia) ltac:(lia) E).
  rewrite decide_False by (unfold CHUNKS; lia). rewrite Z.shiftl_mul_pow2 by done. change FIRST_CHUNK with (2 ^ 10). rewrite <- Z.pow_add_r by lia.
  destruct (decide _) as [Hbig|Hfit].
  - assert (b_next b + (2 ^ (10 + c) - i) = 2 ^ (10 + (c + 1)) - 2 ^ 10 + 0) as Enext.
    { replace (10 + (c + 1)) with (Z.succ (10 + c)) by lia. rewrite Z.pow_succ_r by lia. lia. }
    apply (IH (mk_bump (b_chunks b) _ _) (c + 1) 0); cbn [b_next]; rewrite ?Enext; [apply split_of; lia| |by left|done].
    replace (10 + (c + 1)) with (Z.succ (10 + c)) by lia. rewrite Z.pow_succ_r by lia. destruct Hi as [->|Hi]; lia.
  - rewrite decide_False by lia. destruct (iv_index _ _) as [o| |]; cbn [mbind outcome_bind]; [|done..].
    destruct (match o with Some _ => _ | None => _ end) as [chunk bytes]. destruct (foldM _ _ _); cbn [mbind outcome_bind]; [|done..].
    by destruct (iv_set _ _ _).
Qed.

Lemma store_slice_room (b : Bump U) v : arena_ok b -> 2 * b_next b + 2 ^ 10 < 2 ^ 32 -> 2 * Z.of_nat (length v) < 2 ^ 32 ->
  forall b', store_slice size_of b v <> Ret (b', None).
Proof.
  intros Hok Hn Hv b'. pose proof (ao_next _ Hok). unfold store_slice. rewrite decide_False by lia. destruct (decide _); [done|].
  destruct (split (b_next b) FIRST_CHUNK) as [c i] eqn:E. eapply store_loop_room; [done|lia|by right|done].
Qed.
End arena_facts.

(** What the interner relies on: a stored value reads back, and storing keeps earlier slots. *)
Class InternableOk (T : Type) `{IT : Internable T} : Prop :=
  i_store_ok : forall v b, arena_ok b -> stored i_load (b_chunks b) v (i_store v b).

Lemma store_slice_spec {U} size_of (b : Bump U) v : arena_ok b -> stored load_slice (b_chunks b) v (store_slice size_of b v).
Proof.
  intros Hok. unfold store_slice. destruct (decide _); [by apply stored_none|]. destruct (decide _) as [E|].
  - apply nil_length_inv in E as ->. eexists _, _. split; [done|]. split; [done|]. split; [done|]. intros s [= <-]. unfold load_slice. by rewrite decide_True.
  - destruct (split (b_next b) FIRST_CHUNK) as [c i] eqn:E. destruct (split_spec 10 (b_next b) c i) as (Hc & _); [done|apply Hok|done|].
    eapply store_loop_spec; [by destruct v|done|done|lia].
Qed.

Lemma sized_ok T size_of : @InternableOk T (Internable_sized T size_of).
Proof. intros v b Hok. eexists _, _. split; [done|]. split; [done|]. split; [done|]. by intros s [= <-]. Qed.

Lemma slice_ok T size_of : @InternableOk (list T) (Internable_slice T size_of).
Proof. intros v b Hok. by apply store_slice_spec. Qed.

Lemma str_ok : @InternableOk string Internable_str.
Proof.
  unfold InternableOk. cbn [i_store i_load i_Unit i_Slot Internable_str]. intros v b Hok. destruct (store_slice_spec 1 b (String.list_ascii_of_string v) Hok) as (b' & o & E & Hok' & Hold & Hnew).
  exists b', o. split; [exact E|]. split; [done|]. split.
  - intros s w. destruct (load_slice s (b_chunks b)) as [bytes| |] eqn:Es; cbn [mbind outcome_bind]; [|done..]. by rewrite (Hold _ _ Es).
  - intros s Es. rewrite (Hnew _ Es). cbn [mbind outcome_bind]. by rewrite String.string_of_list_ascii_of_string.
Qed.

(** ** The interner's invariant *)

Section invariant.
Context {T : Type} `{IT : Internable T} `{!InternableOk T} {HT : Type} `{HH : HashTable Z HT}.
Context (nshards : Z) (fx : T -> Z) (eqb : T -> T -> bool).
Context (k : Z) (Hk : 0 <= k <= 16) (Hshards : nshards = 2 ^ k).

Abbreviation IdInterner := (IdInterner T HT).
Abbreviation shard_of := (shard_of nshards fx).
Abbreviation hash32 := (hash32 fx).
Abbreviation ii_value := (ii_value nshards).

(** The id of the [l]th value of shard [s], and its entry in the table. *)
Definition id_of (s l : nat) : Z := (Z.of_nat l + 1) * 2 ^ k + Z.of_nat s.
Definition entry (s l : nat) (v : T) : Z := id_of s l + hash32 v * 2 ^ 32.
Definition entry_hash (e : Z) : Z := table_hash (u32 (Z.shiftr e 32)).

(** A shard holds the values [vs], in the order they came. *)
Record shard_ok (limit : Z) (s : nat) (sh : Shard HT) (p : Ptrs i_Slot i_Unit) (vs : list T) : Prop := {
  so_len : l_len (s_lock sh) = Z.of_nat (length vs);
  so_published : s_len sh = Z.of_nat (length vs);
  so_limit : Z.of_nat (length vs) <= limit;
  so_home : forall v, v ∈ vs -> shard_of v = s;
  so_nodup : NoDup vs;
  so_slots : length (p_slots p) = BUCKETS;
  so_vals : forall l v, vs !! l = Some v -> exists bucket slot, p_slots p !! Z.to_nat (split (Z.of_nat l) FIRST_BUCKET).1 = Some (Some bucket) /\
    bucket !! (split (Z.of_nat l) FIRST_BUCKET).2 = Some slot /\ i_load slot (p_chunks p) = Ret v;
  so_arena : arena_ok (mk_bump (p_chunks p) (l_next (s_lock sh)) (l_arena_bytes (s_lock sh)));
  so_table : ht_ok entry_hash (l_table (s_lock sh));
  so_entries : forall e, e ∈ ht_elems (l_table (s_lock sh)) <-> exists l v, vs !! l = Some v /\ e = entry s l v;
}.

Record interner_ok (st : IdInterner) (vss : list (list T)) : Prop := {
  io_limit : 0 <= ii_limit st <= 2 ^ (32 - k) - 1;
  io_shards : length (ii_shards st) = length vss;
  io_ptrs : length (ii_ptrs st) = length vss;
  io_count : Z.of_nat (length vss) = nshards;
  io_ok : forall s sh p vs, ii_shards st !! s = Some sh -> ii_ptrs st !! s = Some p -> vss !! s = Some vs -> shard_ok (ii_limit st) s sh p vs;
}.

(** [raw] is the id of [v]. *)
Definition listed (vss : list (list T)) (raw : Z) (v : T) : Prop := exists s l vs, vss !! s = Some vs /\ vs !! l = Some v /\ raw = id_of s l.

Lemma id_of_range limit s l : Z.of_nat s < 2 ^ k -> Z.of_nat l < limit -> limit <= 2 ^ (32 - k) - 1 -> 2 ^ k <= id_of s l < (limit + 1) * 2 ^ k /\ id_of s l < 2 ^ 32.
Proof.
  intros Hs Hl Hlim. unfold id_of. assert (2 ^ 32 = 2 ^ (32 - k) * 2 ^ k) as -> by (rewrite <- Z.pow_add_r by lia; f_equal; lia). nia.
Qed.

Lemma LOG2_S_k : LOG2_S nshards = k.
Proof. unfold LOG2_S. rewrite Hshards. apply trailing_zeros_pow2. lia. Qed.

Lemma decode_id_of s l : Z.of_nat s < 2 ^ k -> Z.of_nat l < 2 ^ 32 -> decode nshards (id_of s l) = (Z.of_nat s, Z.of_nat l).
Proof.
  intros Hs Hl. unfold decode, id_of. rewrite LOG2_S_k, Hshards, land_mask by lia. rewrite Z.add_comm.
  rewrite field_low, field_high by lia. unfold u32. rewrite Z.mod_small by lia. f_equal. lia.
Qed.

Lemma id_of_inj s l s' l' : Z.of_nat s < 2 ^ k -> Z.of_nat s' < 2 ^ k -> id_of s l = id_of s' l' -> s = s' /\ l = l'.
Proof.
  unfold id_of. intros Hs Hs' E. assert (Z.of_nat s = Z.of_nat s') as Es.
  { rewrite <- (field_low (Z.of_nat s) (Z.of_nat l + 1) k), <- (field_low (Z.of_nat s') (Z.of_nat l' + 1) k) by lia. f_equal. lia. }
  split; [lia|]. rewrite Es in E. assert (2 ^ k <> 0) by lia. nia.
Qed.

Lemma hash32_range v : 0 <= hash32 v < 2 ^ 32.
Proof. apply u32_range. Qed.

Lemma entry_fields s l v : id_of s l < 2 ^ 32 -> u32 (entry s l v) = id_of s l /\ u32 (Z.shiftr (entry s l v) 32) = hash32 v.
Proof.
  intros Hid. assert (0 <= id_of s l) by (unfold id_of; nia). unfold entry.
  rewrite field_high by lia. unfold u32 at 1. rewrite field_low by lia. split; [done|]. apply u32_small, hash32_range.
Qed.

Lemma shard_of_lt v : Z.of_nat (shard_of v) < 2 ^ k.
Proof.
  unfold Interner.shard_of. rewrite Hshards, land_mask by lia. pose proof (Z.mod_pos_bound (Z.shiftr (hash64 (fx v)) 32) (2 ^ k)).
  rewrite Z2Nat.id; lia.
Qed.

Lemma shard_at st vss s vs : interner_ok st vss -> vss !! s = Some vs -> exists sh p, ii_shards st !! s = Some sh /\ ii_ptrs st !! s = Some p /\
  shard_ok (ii_limit st) s sh p vs /\ Z.of_nat s < 2 ^ k.
Proof.
  intros Hok Ev. pose proof (lookup_lt_Some _ _ _ Ev) as Hs.
  destruct (lookup_lt_is_Some_2 (ii_shards st) s) as [sh Esh]; [by rewrite (io_shards _ _ Hok)|].
  destruct (lookup_lt_is_Some_2 (ii_ptrs st) s) as [p Ep]; [by rewrite (io_ptrs _ _ Hok)|].
  exists sh, p. split_and!; [done..|by eapply io_ok|]. pose proof (io_count _ _ Hok). lia.
Qed.

Lemma local_range limit s sh p vs l v : shard_ok limit s sh p vs -> limit <= 2 ^ (32 - k) - 1 -> vs !! l = Some v -> Z.of_nat l < limit /\ Z.of_nat l < 2 ^ 32.
Proof.
  intros Hso Hlim Hl. apply lookup_lt_Some in Hl. pose proof (so_limit _ _ _ _ _ Hso).
  assert (2 ^ (32 - k) <= 2 ^ 32) by (apply Z.pow_le_mono_r; lia). lia.
Qed.

Lemma listed_value st vss raw v : interner_ok st vss -> listed vss raw v ->
  ii_value st raw = Ret v /\ 2 ^ k <= raw < (ii_limit st + 1) * 2 ^ k /\ raw < 2 ^ 32.
Proof.
  intros Hok (s & l & vs & Es & El & ->). destruct (shard_at _ _ _ _ Hok Es) as (sh & p & Esh & Ep & Hso & Hs).
  destruct (local_range _ _ _ _ _ _ _ Hso (proj2 (io_limit _ _ Hok)) El) as [Hl Hl'].
  split; [|by apply id_of_range; [..|apply Hok]]. unfold Interner.ii_value. rewrite decode_id_of by done.
  destruct (so_vals _ _ _ _ _ Hso _ _ El) as (bucket & slot & E1 & E2 & E3). destruct (split _ _) as [b i]. cbn [fst snd] in E1, E2.
  rewrite Nat2Z.id, (iv_index_Some _ _ _ Ep). cbn [mbind outcome_bind]. rewrite (iv_index_Some _ _ _ E1). cbn [mbind outcome_bind unwrap].
  unfold ptr_read. rewrite E2. done.
Qed.

Lemma listed_fun st vss raw v w : interner_ok st vss -> listed vss raw v -> listed vss raw w -> v = w.
Proof. intros Hok Hv Hw. apply (listed_value _ _ _ _ Hok) in Hv as [Ev _], Hw as [Ew _]. congruence. Qed.

Lemma listed_inj st vss raw raw' v : interner_ok st vss -> listed vss raw v -> listed vss raw' v -> raw = raw'.
Proof.
  intros Hok (s & l & vs & Es & El & ->) (s' & l' & vs' & Es' & El' & ->).
  destruct (shard_at _ _ _ _ Hok Es) as (sh & p & _ & _ & Hso & _). destruct (shard_at _ _ _ _ Hok Es') as (sh' & p' & _ & _ & Hso' & _).
  assert (s = s') as <-.
  { rewrite <- (so_home _ _ _ _ _ Hso v), <- (so_home _ _ _ _ _ Hso' v); [done|by eapply list_elem_of_lookup_2..]. }
  assert (vs' = vs) as -> by congruence. by rewrite (NoDup_lookup _ _ _ _ (so_nodup _ _ _ _ _ Hso) El El').
Qed.

(** The equality of the type tells [v] from the values the interner holds. *)
Definition eq_agrees (vss : list (list T)) (v : T) : Prop := forall raw w, listed vss raw w -> (eqb w v = true <-> w = v).

Lemma ii_find_spec st vss sh v : interner_ok st vss -> eq_agrees vss v -> ii_shards st !! shard_of v = Some sh ->
  exists r, ii_find nshards eqb st (l_table (s_lock sh)) (hash32 v) v = Ret r /\
    match r with Some id => listed vss id v | None => forall raw, ~ listed vss raw v end.
Proof.
  intros Hok Heq Esh. destruct (lookup_lt_is_Some_2 vss (shard_of v)) as [vs Evs].
  { rewrite <- (io_shards _ _ Hok). by eapply lookup_lt_Some. }
  destruct (shard_at _ _ _ _ Hok Evs) as (sh' & p & Esh' & Ep & Hso & Hs). assert (sh' = sh) as -> by congruence.
  assert (forall l w, vs !! l = Some w -> id_of (shard_of v) l < 2 ^ 32 /\ 0 < id_of (shard_of v) l /\ listed vss (id_of (shard_of v) l) w) as Hid.
  { intros l w Hl. assert (listed vss (id_of (shard_of v) l) w) as Hw by (by exists (shard_of v), l, vs).
    destruct (listed_value _ _ _ _ Hok Hw) as (_ & ? & ?). assert (0 < 2 ^ k) by lia. split_and!; [done|lia|done]. }
  unfold ii_find. destruct (ht_find_spec entry_hash (l_table (s_lock sh)) (table_hash (hash32 v)) (fun e =>
      if decide (u32 (Z.shiftr e 32) = hash32 v) then w ← ii_value st (u32 e); Ret (eqb w v) else Ret false)
      (fun e => if decide (u32 (Z.shiftr e 32) = hash32 v) then match ii_value st (u32 e) with Ret w => eqb w v | _ => false end else false))
    as (r & -> & Hr); [apply Hso| |].
  - intros e (l & w & Hl & ->)%(so_entries _ _ _ _ _ Hso). destruct (Hid _ _ Hl) as (H1 & _ & H3). destruct (decide _); [|done].
    destruct (entry_fields (shard_of v) l w H1) as [-> _]. destruct (listed_value _ _ _ _ Hok H3) as [-> _]. done.
  - cbn [mbind outcome_bind]. destruct r as [e|].
    + destruct Hr as [(l & w & Hl & ->)%(so_entries _ _ _ _ _ Hso) Hf]. destruct (Hid _ _ Hl) as (H1 & H2 & H3).
      destruct (entry_fields (shard_of v) l w H1) as [E1 E2]. rewrite E1, E2 in Hf. rewrite E1. unfold id_new. rewrite decide_False by lia.
      cbn [mbind outcome_bind]. eexists. split; [done|]. destruct (decide _); [|done]. destruct (listed_value _ _ _ _ Hok H3) as [E _].
      rewrite E in Hf. apply (Heq _ _ H3) in Hf. by subst w.
    + eexists. split; [done|]. intros raw Hraw. pose proof Hraw as (s & l & vs' & Es & El & ->).
      destruct (shard_at _ _ _ _ Hok Es) as (sh' & p' & _ & _ & Hso' & _). assert (shard_of v = s) as <- by (apply (so_home _ _ _ _ _ Hso'); by eapply list_elem_of_lookup_2).
      assert (vs' = vs) as -> by congruence. destruct (Hid _ _ El) as (H1 & _ & _). destruct (entry_fields (shard_of v) l v H1) as [E1 E2].
      assert (match ii_value st (id_of (shard_of v) l) with Ret w => eqb w v | _ => false end = false) as Hf.
      { specialize (Hr (entry (shard_of v) l v)). rewrite E1, E2, decide_True in Hr by done. apply Hr; [apply (so_entries _ _ _ _ _ Hso); by eauto|].
        unfold entry_hash. by rewrite E2. }
      destruct (listed_value _ _ _ _ Hok Hraw) as [E _]. rewrite E in Hf. by rewrite (proj2 (Heq _ _ Hraw) eq_refl) in Hf.
Qed.

Lemma ht_entries_new st vss s sh p vs v : interner_ok st vss -> shard_ok (ii_limit st) s sh p vs -> s = shard_of v -> id_of s (length vs) < 2 ^ 32 ->
  let t := ht_insert_unique (l_table (s_lock sh)) (table_hash (hash32 v)) (entry s (length vs) v) entry_hash in
  ht_ok entry_hash t /\ forall e, e ∈ ht_elems t <-> exists l w, (vs ++ [v]) !! l = Some w /\ e = entry s l w.
Proof.
  intros Hok Hso -> Hid. destruct (ht_insert_ok entry_hash (l_table (s_lock sh)) (table_hash (hash32 v)) (entry (shard_of v) (length vs) v)) as [H1 H2].
  - apply Hso.
  - unfold entry_hash. by rewrite (proj2 (entry_fields _ _ _ Hid)).
  - split; [done|]. intros e. rewrite H2, elem_of_cons, (so_entries _ _ _ _ _ Hso). split.
    + intros [->|(l & w & Hl & ->)]; [exists (length vs), v|exists l, w]; (split; [|done]).
      * by rewrite lookup_app_r, Nat.sub_diag by lia.
      * by apply lookup_app_l_Some.
    + intros (l & w & Hl & ->). apply lookup_snoc_Some in Hl as [[_ Hl]|[-> ->]]; [right; by eauto|by left].
Qed.

Lemma bucket_bound n : 0 <= n < 2 ^ 32 -> exists b i, split n FIRST_BUCKET = (b, i) /\ 0 <= b /\ (Z.to_nat b < BUCKETS)%nat /\ 0 <= i < Z.shiftl FIRST_BUCKET b.
Proof.
  intros Hn. destruct (split n FIRST_BUCKET) as [b i] eqn:E. exists b, i. split; [done|].
  destruct (split_spec 6 n b i) as (Hb & Hi & _); [lia..|done|]. pose proof (split_bound 6 32 n b i ltac:(lia) Hn E).
  rewrite Z.shiftl_mul_pow2 by done. change FIRST_BUCKET with (2 ^ 6). rewrite <- Z.pow_add_r by lia. unfold BUCKETS. lia.
Qed.

(** The slots after the next value is written. *)
Lemma slots_push (p : Ptrs i_Slot i_Unit) (vs : list T) v b i bucket0 slot chunks :
  (forall l w, vs !! l = Some w -> exists bucket sl, p_slots p !! Z.to_nat (split (Z.of_nat l) FIRST_BUCKET).1 = Some (Some bucket) /\
    bucket !! (split (Z.of_nat l) FIRST_BUCKET).2 = Some sl /\ i_load sl (p_chunks p) = Ret w) ->
  split (Z.of_nat (length vs)) FIRST_BUCKET = (b, i) -> 0 <= b -> (Z.to_nat b < length (p_slots p))%nat ->
  (forall bucket, p_slots p !! Z.to_nat b = Some (Some bucket) -> bucket0 = bucket) ->
  (forall s w, i_load s (p_chunks p) = Ret w -> i_load s chunks = Ret w) -> i_load slot chunks = Ret v ->
  forall l w, (vs ++ [v]) !! l = Some w -> exists bucket sl,
    <[Z.to_nat b := Some (<[i := slot]> bucket0)]> (p_slots p) !! Z.to_nat (split (Z.of_nat l) FIRST_BUCKET).1 = Some (Some bucket) /\
    bucket !! (split (Z.of_nat l) FIRST_BUCKET).2 = Some sl /\ i_load sl chunks = Ret w.
Proof.
  intros Hvals E Hb Hlt Hb0 Hold Hnew l w Hl. apply lookup_snoc_Some in Hl as [[Hll Hl]|[-> ->]].
  - destruct (Hvals _ _ Hl) as (bucket & sl & E1 & E2 & E3). destruct (split (Z.of_nat l) FIRST_BUCKET) as [b' i'] eqn:El. cbn [fst snd] in *.
    destruct (split_spec 6 (Z.of_nat l) b' i') as (Hb' & _); [lia..|done|].
    destruct (decide (Z.to_nat b' = Z.to_nat b)) as [Eb|Hne].
    + assert (b' = b) as -> by lia. assert (i' <> i) by (intros ->; rewrite <- E in El; apply (split_inj 6) in El; lia).
      rewrite list_lookup_insert_eq by done. eexists _, sl. split; [done|]. rewrite lookup_insert_ne by done. rewrite (Hb0 _ E1). auto.
    + exists bucket, sl. rewrite list_lookup_insert_ne by done. auto.
  - rewrite E. cbn [fst snd]. rewrite list_lookup_insert_eq by done. eexists _, slot. split; [done|]. by rewrite lookup_insert_eq.
Qed.

(** No room for [v]: its shard is at the limit, or the arena is out of offsets. *)
Definition shard_full (st : IdInterner) (v : T) : Prop := exists sh p, ii_shards st !! shard_of v = Some sh /\ ii_ptrs st !! shard_of v = Some p /\
  (ii_limit st <= l_len (s_lock sh) \/ exists b', i_store v (mk_bump (p_chunks p) (l_next (s_lock sh)) (l_arena_bytes (s_lock sh))) = Ret (b', None)).

Definition push_value (vss : list (list T)) (s : nat) (v : T) : list (list T) := alter (fun vs => vs ++ [v]) s vss.

(** Interning [v] in [st]: it is there, or it is added with a new id, or there is no room. *)
Inductive interned (st : IdInterner) (vss : list (list T)) (v : T) : outcome (IdInterner * Z) -> Prop :=
| interned_old id : listed vss id v -> interned st vss v (Ret (st, id))
| interned_new st' vs : (forall raw, ~ listed vss raw v) -> vss !! shard_of v = Some vs -> interner_ok st' (push_value vss (shard_of v) v) ->
    ii_limit st' = ii_limit st -> interned st vss v (Ret (st', id_of (shard_of v) (length vs)))
| interned_full : (forall raw, ~ listed vss raw v) -> shard_full st v -> interned st vss v Panic.

Lemma intern_write_spec st vss v : interner_ok st vss -> eq_agrees vss v -> interned st vss v (intern_write nshards fx eqb st v).
Proof.
  intros Hok Heq. destruct (lookup_lt_is_Some_2 vss (shard_of v)) as [vs Evs]; [pose proof (io_count _ _ Hok); pose proof (shard_of_lt v); lia|].
  destruct (shard_at _ _ _ _ Hok Evs) as (sh & p & Esh & Ep & Hso & Hs). unfold intern_write. rewrite (iv_index_Some _ _ _ Esh). cbn [mbind outcome_bind].
  destruct (ii_find_spec _ _ _ _ Hok Heq Esh) as ([id|] & -> & Hr); cbn [mbind outcome_bind]; [by constructor|].
  rewrite (so_len _ _ _ _ _ Hso). destruct (decide _) as [Hfull|Hroom].
  { apply interned_full; [done|]. exists sh, p. split_and!; [done..|]. left. by rewrite (so_len _ _ _ _ _ Hso). }
  pose proof (io_limit _ _ Hok) as Hlim. assert (2 ^ (32 - k) <= 2 ^ 32) by (apply Z.pow_le_mono_r; lia).
  destruct (bucket_bound (Z.of_nat (length vs))) as (b & i & Eb & Hb & Hb' & Hi); [lia|]. rewrite Eb.
  rewrite (iv_index_Some _ _ _ Ep). cbn [mbind outcome_bind]. destruct (lookup_lt_is_Some_2 (p_slots p) (Z.to_nat b)) as [o Eo]; [by rewrite (so_slots _ _ _ _ _ Hso)|].
  rewrite (iv_index_Some _ _ _ Eo). cbn [mbind outcome_bind].
  set (cb := match o with Some bucket => _ | None => _ end). assert (forall bucket, o = Some bucket -> cb.1 = bucket) as Hcb by (intros bucket; unfold cb; by intros ->).
  destruct cb as [bucket0 bytes]. cbn [fst] in Hcb.
  destruct (i_store_ok v _ (so_arena _ _ _ _ _ Hso)) as (bump & [slot|] & Est & Hao & Hold & Hnew); rewrite Est; cbn [mbind outcome_bind unwrap].
  2:{ apply interned_full; [done|]. exists sh, p. split_and!; [done..|]. right. eauto. }
  unfold ptr_write. rewrite decide_True by done. cbn [mbind outcome_bind]. rewrite (iv_set_lt (p_slots p)) by (by rewrite (so_slots _ _ _ _ _ Hso)). cbn [mbind outcome_bind].
  destruct (id_of_range (ii_limit st) (shard_of v) (length vs) ltac:(done) ltac:(lia) ltac:(lia)) as [Hid1 Hid2].
  assert (Z.lor (u32 (Z.shiftl (Z.of_nat (length vs) + 1) (LOG2_S nshards))) (Z.of_nat (shard_of v)) = id_of (shard_of v) (length vs)) as Eraw.
  { rewrite LOG2_S_k, u32_small, Z.lor_comm, lor_shiftl by (rewrite ?Z.shiftl_mul_pow2 by lia; unfold id_of in *; lia). unfold id_of. lia. }
  rewrite Eraw. assert (Z.lor (id_of (shard_of v) (length vs)) (Z.shiftl (hash32 v) 32) = entry (shard_of v) (length vs) v) as Een.
  { rewrite lor_shiftl by lia. done. }
  rewrite Een. rewrite iv_set_lt by (by eapply lookup_lt_Some). cbn [mbind outcome_bind]. rewrite iv_set_lt by (by eapply lookup_lt_Some). cbn [mbind outcome_bind].
  unfold id_new. rewrite decide_False by lia. cbn [mbind outcome_bind].
  destruct (ht_entries_new _ _ _ _ _ _ v Hok Hso eq_refl Hid2) as [Ht1 Ht2].
  apply interned_new; [done|done| |done]. split; cbn [ii_limit ii_shards ii_ptrs].
  - done.
  - unfold push_value. rewrite length_insert, length_alter. apply Hok.
  - unfold push_value. rewrite length_insert, length_alter. apply Hok.
  - unfold push_value. rewrite length_alter. apply Hok.
  - intros s sh' p' vs'. destruct (decide (s = shard_of v)) as [->|Hne].
    + rewrite !list_lookup_insert_eq by (by eapply lookup_lt_Some). unfold push_value. rewrite list_lookup_alter_eq, Evs. cbn. intros [= <-] [= <-] [= <-].
      split; cbn [s_lock s_len l_len p_slots p_chunks l_next l_arena_bytes l_table]; try done.
      * rewrite length_app. simpl. lia.
      * rewrite length_app. simpl. lia.
      * rewrite length_app. simpl. lia.
      * intros w [Hw| ->%list_elem_of_singleton]%elem_of_app; [|done]. by apply (so_home _ _ _ _ _ Hso).
      * apply NoDup_app. split_and!; [apply Hso| |apply NoDup_singleton]. intros w Hw ->%list_elem_of_singleton.
        apply list_elem_of_lookup in Hw as [l Hl]. apply (Hr (id_of (shard_of v) l)). by exists (shard_of v), l, vs.
      * rewrite length_insert. apply Hso.
      * eapply slots_push; eauto; [apply Hso|by rewrite (so_slots _ _ _ _ _ Hso)|]. intros bucket Ebk. apply Hcb. congruence.
      * by destruct bump.
    + rewrite !list_lookup_insert_ne by done. unfold push_value. rewrite list_lookup_alter_ne by done. apply Hok.
Qed.

Lemma intern_read_spec st vss v : interner_ok st vss -> eq_agrees vss v -> exists r, intern_read nshards fx eqb st v = Ret r /\
  match r with Some id => listed vss id v | None => forall raw, ~ listed vss raw v end.
Proof.
  intros Hok Heq. destruct (lookup_lt_is_Some_2 (ii_shards st) (shard_of v)) as [sh Esh].
  { rewrite (io_shards _ _ Hok). pose proof (io_count _ _ Hok). pose proof (shard_of_lt v). lia. }
  unfold intern_read. rewrite (iv_index_Some _ _ _ Esh). cbn [mbind outcome_bind]. by apply ii_find_spec.
Qed.

Lemma ii_intern_spec st vss v : interner_ok st vss -> eq_agrees vss v -> interned st vss v (ii_intern nshards fx eqb st v).
Proof.
  intros Hok Heq. unfold ii_intern. destruct (intern_read_spec _ _ _ Hok Heq) as ([id|] & -> & Hr); cbn [mbind outcome_bind]; [by constructor|].
  by apply intern_write_spec.
Qed.

Lemma listed_push vss s v vs raw w : vss !! s = Some vs -> listed (push_value vss s v) raw w <-> listed vss raw w \/ (raw = id_of s (length vs) /\ w = v).
Proof.
  intros Es. unfold listed, push_value. split.
  - intros (s' & l & vs' & E & El & ->). destruct (decide (s' = s)) as [->|Hne].
    + rewrite list_lookup_alter_eq, Es in E. injection E as <-. apply lookup_snoc_Some in El as [[_ El]|[-> ->]]; [left; by exists s, l, vs|by right].
    + rewrite list_lookup_alter_ne in E by done. left. by exists s', l, vs'.
  - intros [(s' & l & vs' & E & El & ->)|[-> ->]].
    + destruct (decide (s' = s)) as [->|Hne]; [|exists s', l, vs'; by rewrite list_lookup_alter_ne].
      exists s, l, (vs ++ [v]). rewrite list_lookup_alter_eq, Es. split; [done|]. split; [|done]. apply lookup_app_l_Some. congruence.
    + exists s, (length vs), (vs ++ [v]). rewrite list_lookup_alter_eq, Es. split; [done|]. split; [|done]. by rewrite lookup_app_r, Nat.sub_diag by lia.
Qed.

Lemma from_raw_spec st vss raw : interner_ok st vss -> 0 <= raw < 2 ^ 32 ->
  exists r, ii_from_raw nshards st raw = Ret r /\ match r with Some id => id = raw /\ exists v, listed vss raw v | None => forall v, ~ listed vss raw v end.
Proof.
  intros Hok Hraw. unfold ii_from_raw, decode. rewrite LOG2_S_k, Hshards, land_mask by lia. assert (0 < 2 ^ k) by lia.
  pose proof (Z.mod_pos_bound raw (2 ^ k) ltac:(lia)) as Hm. pose proof (io_count _ _ Hok) as Hc.
  destruct (lookup_lt_is_Some_2 vss (Z.to_nat (raw mod 2 ^ k))) as [vs Evs]; [lia|].
  destruct (shard_at _ _ _ _ Hok Evs) as (sh & p & Esh & Ep & Hso & Hs). rewrite (iv_index_Some _ _ _ Esh). cbn [mbind outcome_bind].
  rewrite (so_published _ _ _ _ _ Hso). pose proof (so_limit _ _ _ _ _ Hso). pose proof (io_limit _ _ Hok).
  assert (2 ^ (32 - k) <= 2 ^ 32) by (apply Z.pow_le_mono_r; lia). rewrite Z.shiftr_div_pow2 by lia.
  assert (raw = raw / 2 ^ k * 2 ^ k + raw mod 2 ^ k) as Edm by (pose proof (Z.div_mod raw (2 ^ k)); lia).
  destruct (decide (raw < 2 ^ k)) as [Hlow|Hhigh].
  - rewrite Z.div_small by lia. change (u32 (0 - 1)) with (2 ^ 32 - 1). rewrite decide_False by lia. eexists. split; [done|]. intros v Hv.
    destruct (listed_value _ _ _ _ Hok Hv) as (_ & ? & _). lia.
  - assert (1 <= raw / 2 ^ k) by (apply Z.div_le_lower_bound; lia). assert (raw / 2 ^ k <= raw) by (apply Z.div_le_upper_bound; nia).
    rewrite u32_small by lia. destruct (decide _) as [Hlt|Hge].
    + unfold id_new. rewrite decide_False by lia. cbn [mbind outcome_bind]. eexists. split; [done|]. split; [done|].
      destruct (lookup_lt_is_Some_2 vs (Z.to_nat (raw / 2 ^ k - 1))) as [v Ev]; [lia|].
      exists v, (Z.to_nat (raw mod 2 ^ k)), (Z.to_nat (raw / 2 ^ k - 1)), vs. split_and!; [done..|]. unfold id_of. rewrite !Z2Nat.id by lia. lia.
    + eexists. split; [done|]. intros v (s & l & vs' & Es & El & Er). destruct (shard_at _ _ _ _ Hok Es) as (_ & _ & _ & _ & _ & Hs').
      assert (id_of s l = id_of (Z.to_nat (raw mod 2 ^ k)) (Z.to_nat (raw / 2 ^ k - 1))) as E.
      { rewrite <- Er. unfold id_of. rewrite !Z2Nat.id by lia. lia. }
      apply id_of_inj in E as [-> ->]; [|done|lia]. assert (vs' = vs) as -> by congruence. apply lookup_lt_Some in El. lia.
Qed.

Lemma interner_unique st vss vss' : interner_ok st vss -> interner_ok st vss' -> vss = vss'.
Proof.
  intros Hok Hok'. apply list_eq_same_length with (length vss); [|done|].
  { rewrite <- (io_shards _ _ Hok), <- (io_shards _ _ Hok'). done. }
  intros s vs vs' _ Es Es'. destruct (shard_at _ _ _ _ Hok Es) as (sh & p & Esh & Ep & Hso & Hs). destruct (shard_at _ _ _ _ Hok' Es') as (sh' & p' & Esh' & Ep' & Hso' & _).
  assert (sh' = sh) as -> by congruence. apply list_eq_same_length with (length vs); [|done|].
  - pose proof (so_len _ _ _ _ _ Hso). pose proof (so_len _ _ _ _ _ Hso'). lia.
  - intros l v v' _ El El'. assert (listed vss (id_of s l) v) as Hv by (by exists s, l, vs). assert (listed vss' (id_of s l) v') as Hv' by (by exists s, l, vs').
    apply (listed_value _ _ _ _ Hok) in Hv as [Ev _]. apply (listed_value _ _ _ _ Hok') in Hv' as [Ev' _]. congruence.
Qed.

Lemma new_ok bits : k < bits <= 32 -> exists st, with_id_bits nshards bits = Ret st /\ interner_ok st (replicate (Z.to_nat nshards) []) /\ ii_limit st = 2 ^ (bits - k) - 1.
Proof.
  intros Hb. unfold with_id_bits. rewrite LOG2_S_k, bool_decide_eq_true_2 by done. cbn [rust_assert mbind outcome_bind]. unfold with_limit.
  assert (2 ^ k <= 2 ^ 16) by (apply Z.pow_le_mono_r; lia). rewrite bool_decide_eq_true_2 by (rewrite Hshards, Z.log2_pow2, Z.shiftl_1_l by lia; split; [done|lia]).
  assert (0 < 2 ^ (bits - k)) by (apply Z.pow_pos_nonneg; lia). assert (2 ^ (bits - k) <= 2 ^ 32) by (apply Z.pow_le_mono_r; lia).
  assert (2 ^ (bits - k) <= 2 ^ (32 - k)) by (apply Z.pow_le_mono_r; lia).
  assert (0 < 2 ^ k) by (apply Z.pow_pos_nonneg; lia).
  cbn [rust_assert mbind outcome_bind]. eexists. split; [done|]. rewrite Z.shiftl_1_l, u32_small by lia. split; [|done]. split; cbn [ii_limit ii_shards ii_ptrs].
  - lia.
  - by rewrite !length_replicate.
  - by rewrite !length_replicate.
  - rewrite length_replicate, Z2Nat.id; lia.
  - intros s sh p vs [-> _]%lookup_replicate [-> _]%lookup_replicate [-> _]%lookup_replicate. destruct (ht_new_ok entry_hash) as [Hn1 Hn2].
    split; cbn [s_lock s_len l_len p_slots p_chunks l_next l_arena_bytes l_table length]; try done.
    + lia.
    + intros v []%not_elem_of_nil.
    + constructor.
    + split; cbn [b_chunks b_next]; [by rewrite length_replicate|done|]. intros c chunk i x [[=] _]%lookup_replicate.
    + intros e. rewrite Hn2. split; [intros []%not_elem_of_nil|]. by intros (l & v & ? & _).
Qed.

(** The invariant, and the ids it gives to values. *)
Definition ii_ok (st : IdInterner) : Prop := exists vss, interner_ok st vss.
Definition ii_names (st : IdInterner) (raw : Z) (v : T) : Prop := exists vss, interner_ok st vss /\ listed vss raw v.

Lemma ii_names_listed st vss raw v : interner_ok st vss -> ii_names st raw v <-> listed vss raw v.
Proof.
  intros Hok. split; [|intros Hl; by exists vss]. intros (vss' & Hok' & Hl). by rewrite (interner_unique _ _ _ Hok Hok').
Qed.

(** What [intern] does to the ids: none is lost or changed, and at most one is added. *)
Definition intern_result (st : IdInterner) (v : T) (r : outcome (IdInterner * Z)) : Prop :=
  (exists st' id, r = Ret (st', id) /\ ii_ok st' /\ ii_limit st' = ii_limit st /\ (forall raw w, ii_names st' raw w <-> ii_names st raw w \/ (raw = id /\ w = v)) /\
    (st' = st \/ forall raw, ~ ii_names st raw v)) \/
  (r = Panic /\ shard_full st v /\ forall raw, ~ ii_names st raw v).

Lemma interned_result st vss v r : interner_ok st vss -> interned st vss v r -> intern_result st v r.
Proof.
  intros Hok Hr. assert (forall raw w, ii_names st raw w <-> listed vss raw w) as Hn by (intros; by apply ii_names_listed).
  destruct Hr as [id Hl|st' vs Hno Es Hok' Hlim|Hno Hfull].
  - left. exists st, id. split; [done|]. split; [by exists vss|]. split; [done|]. split; [|by left]. intros raw w. split; [by left|].
    intros [?|[-> ->]]; [done|by apply Hn].
  - left. exists st', (id_of (shard_of v) (length vs)). split; [done|]. split; [by eexists|]. split; [done|]. split.
    + intros raw w. rewrite (ii_names_listed _ _ _ _ Hok'), Hn. by apply listed_push.
    + right. intros raw. rewrite Hn. apply Hno.
  - right. split; [done|]. split; [done|]. intros raw. rewrite Hn. apply Hno.
Qed.

Lemma names_value st raw v : ii_names st raw v -> ii_get nshards st raw = Ret v /\ 2 ^ k <= raw < (ii_limit st + 1) * 2 ^ k /\ raw < 2 ^ 32.
Proof. intros (vss & Hok & Hl). by apply (listed_value _ _ _ _ Hok). Qed.

Lemma names_fun st raw v w : ii_names st raw v -> ii_names st raw w -> v = w.
Proof. intros [Hv _]%names_value [Hw _]%names_value. congruence. Qed.

Lemma names_inj st raw raw' v : ii_names st raw v -> ii_names st raw' v -> raw = raw'.
Proof. intros (vss & Hok & Hl) Hl'%(ii_names_listed _ _ _ _ Hok). by eapply listed_inj. Qed.

Lemma names_agree st vss v : interner_ok st vss -> (forall raw w, ii_names st raw w -> (eqb w v = true <-> w = v)) -> eq_agrees vss v.
Proof. intros Hok H raw w Hl. apply (H raw). by exists vss. Qed.

Lemma ii_from_raw_names st raw : ii_ok st -> 0 <= raw < 2 ^ 32 ->
  exists r, ii_from_raw nshards st raw = Ret r /\ match r with Some id => id = raw /\ exists v, ii_names st raw v | None => forall v, ~ ii_names st raw v end.
Proof.
  intros [vss Hok] Hraw. destruct (from_raw_spec _ _ _ Hok Hraw) as (r & E & Hr). exists r. split; [done|].
  destruct r as [id|]; [destruct Hr as (-> & v & Hv); split; [done|]; exists v; by exists vss|]. intros v Hv%(ii_names_listed _ _ _ _ Hok). by apply (Hr v).
Qed.

Lemma ii_try_get_names st v : ii_ok st -> (forall raw w, ii_names st raw w -> (eqb w v = true <-> w = v)) ->
  exists r, ii_try_get nshards fx eqb st v = Ret r /\ match r with Some id => ii_names st id v | None => forall raw, ~ ii_names st raw v end.
Proof.
  intros [vss Hok] Heq. destruct (intern_read_spec _ _ _ Hok (names_agree _ _ _ Hok Heq)) as (r & E & Hr). exists r. split; [done|].
  destruct r as [id|]; [by exists vss|]. intros raw Hv%(ii_names_listed _ _ _ _ Hok). by apply (Hr raw).
Qed.

Lemma ii_intern_names st v : ii_ok st -> (forall raw w, ii_names st raw w -> (eqb w v = true <-> w = v)) ->
  intern_result st v (ii_intern nshards fx eqb st v).
Proof. intros [vss Hok] Heq. eapply interned_result; [done|]. apply ii_intern_spec; [done|by apply (names_agree st)]. Qed.

(** Sizing the tables changes no id. *)
Lemma ii_reserve_names st n : ii_ok st -> ii_ok (ii_reserve nshards st n) /\ forall raw v, ii_names (ii_reserve nshards st n) raw v <-> ii_names st raw v.
Proof.
  intros [vss Hok]. assert (interner_ok (ii_reserve nshards st n) vss) as Hok'.
  { split; [apply Hok|unfold ii_reserve; cbn [ii_shards]; rewrite length_map; apply Hok|apply Hok|apply Hok|].
    intros s sh p vs. unfold ii_reserve. cbn [ii_shards ii_ptrs ii_limit]. rewrite lookup_map. destruct (ii_shards st !! s) as [sh0|] eqn:E; [|done].
    cbn [fmap option_fmap option_map]. intros [= <-] Ep Es. destruct (io_ok _ _ Hok _ _ _ _ E Ep Es) as [].
    destruct (ht_reserve_ok entry_hash (l_table (s_lock sh0)) (Z.max 0 (div_ceil n nshards + div_ceil n nshards / 10 - ht_len (l_table (s_lock sh0)))) so_table0) as [H1 H2].
    split; cbn [s_lock s_len l_len l_next l_arena_bytes l_table]; try done. intros e. rewrite <- so_entries0. unfold entry_hash in H2. by rewrite H2. }
  split; [by exists vss|]. intros raw v. by rewrite (ii_names_listed _ _ _ _ Hok'), (ii_names_listed _ _ _ _ Hok).
Qed.

Lemma new_names bits : k < bits <= 32 -> exists st, with_id_bits nshards bits = Ret st /\ ii_ok st /\ ii_limit st = 2 ^ (bits - k) - 1 /\ forall raw v, ~ ii_names st raw v.
Proof.
  intros Hb. destruct (new_ok bits Hb) as (st & E & Hok & Hl). exists st. split; [done|]. split; [by eexists|]. split; [done|].
  intros raw v (s & l & vs & Es & El & _)%(ii_names_listed _ _ _ _ Hok). by apply lookup_replicate in Es as [-> _].
Qed.

(** C8: The interner is a bijection that only grows.  [with_id_bits] returns an empty one.  In every state it
    can be in, [intern] returns an id of at most [bits] bits whose value is the one
    interned, every id issued before keeps its value, and interning the value again returns the id and changes
    nothing; or it panics, when the value is new and its shard or its arena is full.  Ids and values
    are one to one; [get] reads the value of every issued id; [try_get] finds exactly the interned values and
    [from_raw] accepts exactly the issued ids.  No read is of a cell never written, and no write out of bounds. *)
Theorem interner_correct (bits : Z) : k < bits <= 32 -> (forall x y, eqb x y = true <-> x = y) ->
  (exists st0, with_id_bits nshards bits = Ret st0 /\ ii_ok st0 /\ ii_limit st0 = 2 ^ (bits - k) - 1 /\ forall raw v, ~ ii_names st0 raw v) /\
  forall st, ii_ok st -> ii_limit st = 2 ^ (bits - k) - 1 ->
    (forall v,
      (exists st' id, ii_intern nshards fx eqb st v = Ret (st', id) /\ ii_ok st' /\ ii_limit st' = ii_limit st /\ 2 ^ k <= id < 2 ^ bits /\
        (forall raw w, ii_names st' raw w <-> ii_names st raw w \/ (raw = id /\ w = v)) /\ ii_intern nshards fx eqb st' v = Ret (st', id)) \/
      (ii_intern nshards fx eqb st v = Panic /\ shard_full st v /\ forall raw, ~ ii_names st raw v)) /\
    (forall raw v, ii_names st raw v -> ii_get nshards st raw = Ret v) /\
    (forall raw raw' v v', ii_names st raw v -> ii_names st raw' v' -> (raw = raw' <-> v = v')) /\
    (forall v, exists r, ii_try_get nshards fx eqb st v = Ret r /\ forall id, r = Some id <-> ii_names st id v) /\
    (forall raw, 0 <= raw < 2 ^ 32 -> exists r, ii_from_raw nshards st raw = Ret r /\ forall id, r = Some id <-> id = raw /\ exists v, ii_names st raw v).
Proof.
  intros Hb Heq. split; [by apply new_names|]. intros st Hok Hlim. split_and!.
  - intros v. destruct (ii_intern_names st v Hok) as [(st' & id & E & Hok' & Hlim' & Hn & _)|Hfull]; [by intros; apply Heq| |by right].
    left. exists st', id. assert (ii_names st' id v) as Hid by (apply Hn; by right). destruct (names_value _ _ _ Hid) as (_ & Hr & _).
    split_and!; [done..|lia| |done|].
    + replace (2 ^ bits) with (2 ^ (bits - k) * 2 ^ k) by (rewrite <- Z.pow_add_r by lia; f_equal; lia). rewrite Hlim', Hlim in Hr. lia.
    + destruct Hok' as [vss' Hok']. destruct (intern_read_spec _ _ v Hok' (fun raw w _ => Heq w v)) as ([id'|] & E' & Hr').
      * unfold ii_intern. rewrite E'. cbn [mbind outcome_bind]. do 2 f_equal. apply (names_inj st' _ _ v); [by exists vss'|done].
      * apply (ii_names_listed _ _ _ _ Hok') in Hid. by apply Hr' in Hid.
  - intros raw v Hv. by apply names_value.
  - intros raw raw' v v' Hv Hv'. split; [intros <-; by eapply names_fun|intros <-; by eapply names_inj].
  - intros v. destruct (ii_try_get_names st v Hok) as (r & E & Hr); [by intros; apply Heq|]. exists r. split; [done|]. intros id. destruct r as [id'|].
    + split; [by intros [= <-]|]. intros Hid. f_equal. by eapply names_inj.
    + split; [done|]. intros Hid. by apply Hr in Hid.
  - intros raw Hraw. destruct (ii_from_raw_names st raw Hok Hraw) as (r & E & Hr). exists r. split; [done|]. intros id. destruct r as [id'|].
    + destruct Hr as (-> & Hv). split; [by intros [= <-]|]. by intros [-> _].
    + split; [done|]. intros (_ & v & Hv). by apply Hr in Hv.
Qed.

(** ** Threads *)

(** A call of [intern] on one of the threads: about to take the read lock, about to take the write lock after
    a miss, or done. *)
Inductive task : Type := Interning (v : T) | Missed (v : T) | Interned (v : T) (id : Z).

Inductive intern_step : IdInterner * list task -> IdInterner * list task -> Prop :=
| step_hit st ts t v id : ts !! t = Some (Interning v) -> intern_read nshards fx eqb st v = Ret (Some id) ->
    intern_step (st, ts) (st, <[t := Interned v id]> ts)
| step_miss st ts t v : ts !! t = Some (Interning v) -> intern_read nshards fx eqb st v = Ret None ->
    intern_step (st, ts) (st, <[t := Missed v]> ts)
| step_write st ts t v st' id : ts !! t = Some (Missed v) -> intern_write nshards fx eqb st v = Ret (st', id) ->
    intern_step (st, ts) (st', <[t := Interned v id]> ts).

Definition tasks_ok (c : IdInterner * list task) : Prop := ii_ok c.1 /\ forall t v id, c.2 !! t = Some (Interned v id) -> ii_names c.1 id v.

Lemma intern_step_ok c c' : (forall x y, eqb x y = true <-> x = y) -> intern_step c c' -> tasks_ok c -> tasks_ok c'.
Proof.
  intros Heq Hstep. destruct Hstep as [st ts t v id Et E|st ts t v Et E|st ts t v st' id Et E]; intros [[vss Hok] Hts]; cbn [fst snd] in *.
  - split; [by exists vss|]. cbn [fst snd]. intros t' v' id' [(_ & [= <- <-] & _)|[_ H]]%list_lookup_insert_Some; [|by eapply Hts].
    destruct (intern_read_spec _ _ v Hok (fun raw w _ => Heq w v)) as (r & E' & Hr). rewrite E in E'. injection E' as <-. by exists vss.
  - split; [by exists vss|]. cbn [fst snd]. intros t' v' id' [(_ & [=] & _)|[_ H]]%list_lookup_insert_Some. by eapply Hts.
  - pose proof (interned_result _ _ _ _ Hok (intern_write_spec _ _ v Hok (fun raw w _ => Heq w v))) as [(st1 & id1 & E' & Hok' & _ & Hn & _)|[E' _]];
      rewrite E in E'; [|done]. injection E' as <- <-. split; [done|]. cbn [fst snd].
    intros t' v' id' [(_ & [= <- <-] & _)|[_ H]]%list_lookup_insert_Some; apply Hn; [by right|left; by eapply Hts].
Qed.

(** C9: Interning from several threads.  However the calls interleave, each looking under the read lock and
    then again under the write lock, the ids the calls have returned are equal exactly when their values are, each
    reads back as its value, and a call that has not returned can take its next step, and return with it if it has
    already missed, unless its shard is full. *)
Theorem interner_threads (st0 st : IdInterner) (vs : list T) (ts : list task) : ii_ok st0 -> (forall x y, eqb x y = true <-> x = y) ->
  rtc intern_step (st0, map Interning vs) (st, ts) ->
  (forall t v id, ts !! t = Some (Interned v id) -> ii_get nshards st id = Ret v) /\
  (forall t t' v v' id id', ts !! t = Some (Interned v id) -> ts !! t' = Some (Interned v' id') -> (id = id' <-> v = v')) /\
  (forall t v, ts !! t = Some (Interning v) -> (exists id, intern_step (st, ts) (st, <[t := Interned v id]> ts)) \/ intern_step (st, ts) (st, <[t := Missed v]> ts)) /\
  (forall t v, ts !! t = Some (Missed v) -> (exists st' id, intern_step (st, ts) (st', <[t := Interned v id]> ts)) \/ shard_full st v).
Proof.
  intros Hok0 Heq Hsteps. assert (tasks_ok (st, ts)) as [[vss Hok] Hts].
  { remember (st0, map Interning vs) as c0 eqn:E0. assert (tasks_ok c0) as H0.
    { rewrite E0. split; [done|]. cbn [fst snd]. intros t v id. rewrite lookup_map. by destruct (vs !! t). }
    clear E0. induction Hsteps as [|c c' c'' Hs _ IH]; [done|]. apply IH. by eapply intern_step_ok. }
  cbn [fst snd] in *. split_and!.
  - intros t v id Ht. by apply names_value, (Hts t).
  - intros t t' v v' id id' Ht%Hts Ht'%Hts. split; [intros <-; by eapply names_fun|intros <-; by eapply names_inj].
  - intros t v Ht. destruct (intern_read_spec _ _ v Hok (fun raw w _ => Heq w v)) as ([id|] & E & _); [left; eexists; by eapply step_hit|right; by eapply step_miss].
  - intros t v Ht. destruct (interned_result _ _ _ _ Hok (intern_write_spec _ _ v Hok (fun raw w _ => Heq w v))) as [(st' & id & E & _)|(_ & Hf & _)]; [|by right].
    left. eexists _, _. by eapply step_write.
Qed.
End invariant.
Arguments Interning {T} v.
Arguments Missed {T} v.
Arguments Interned {T} v id.

(** ** The handle: what the clients of an interner rely on *)

(** The functions [id_handle!] declares, for one interner, with what they promise: [ih_names st id v] says that [id] was issued for [v]. *)
Class IdHandle (T St : Type) : Type := {
  ih_intern : St -> T -> outcome (St * Z);
  ih_get : St -> Z -> outcome T;
  ih_from_raw : St -> Z -> outcome (option Z);
  ih_eqb : T -> T -> bool;
  ih_first : Z;
  ih_bound : Z;
  ih_ok : St -> Prop;
  ih_names : St -> Z -> T -> Prop;
  ih_full : St -> T -> Prop;
  ih_range : forall st raw v, ih_ok st -> ih_names st raw v -> ih_first <= raw < ih_bound;
  ih_get_names : forall st raw v, ih_names st raw v -> ih_get st raw = Ret v;
  ih_names_inj : forall st raw raw' v, ih_names st raw v -> ih_names st raw' v -> raw = raw';
  ih_from_raw_names : forall st raw, ih_ok st -> 0 <= raw < 2 ^ 32 -> exists r, ih_from_raw st raw = Ret r /\
    match r with Some id => id = raw /\ exists v, ih_names st raw v | None => forall v, ~ ih_names st raw v end;
  ih_intern_names : forall st v, ih_ok st -> (forall raw w, ih_names st raw w -> (ih_eqb w v = true <-> w = v)) ->
    (exists st' id, ih_intern st v = Ret (st', id) /\ ih_ok st' /\ forall raw w, ih_names st' raw w <-> ih_names st raw w \/ (raw = id /\ w = v)) \/
    (ih_intern st v = Panic /\ ih_full st v);
}.

#[refine] Instance interner_handle {T : Type} `{IT : Internable T} `{!InternableOk T} {HT : Type} `{HH : HashTable Z HT} (fx : T -> Z) (eqb : T -> T -> bool)
    (k bits : Z) (Hk : 0 <= k <= 16) (Hbits : k < bits <= 32) : IdHandle T (IdInterner T HT) := {|
  ih_intern := ii_intern (2 ^ k) fx eqb;
  ih_get := ii_get (2 ^ k);
  ih_from_raw := ii_from_raw (2 ^ k);
  ih_eqb := eqb;
  ih_first := 2 ^ k;
  ih_bound := 2 ^ bits;
  ih_ok st := ii_ok (2 ^ k) fx k st /\ ii_limit st = 2 ^ (bits - k) - 1;
  ih_names := ii_names (2 ^ k) fx k;
  ih_full := shard_full (2 ^ k) fx;
|}.
Proof.
  - intros st raw v [Hok Hlim] Hv. destruct (names_value _ _ _ Hk eq_refl _ _ _ Hv) as (_ & Hr & _). rewrite Hlim in Hr.
    replace (2 ^ bits) with (2 ^ (bits - k) * 2 ^ k) by (rewrite <- Z.pow_add_r by lia; f_equal; lia). lia.
  - intros st raw v Hv. by apply (names_value _ _ _ Hk eq_refl _ _ _ Hv).
  - intros st raw raw' v Hv Hv'. by eapply (names_inj _ _ _ Hk eq_refl).
  - intros st raw [Hok _] Hraw. by apply (ii_from_raw_names _ _ _ Hk eq_refl).
  - intros st v [Hok Hlim] Heq. destruct (ii_intern_names _ _ eqb _ Hk eq_refl st v Hok Heq) as [(st' & id & E & Hok' & Hl & Hn & _)|(E & Hf & _)]; [left|by right].
    exists st', id. rewrite Hl. auto.
Defined.

(** A table as a list of its entries with their hashes. *)
Section list_table.
Context {E : Type}.

Fixpoint list_find (t : list (Z * E)) (h : Z) (eq : E -> outcome bool) : outcome (option E) :=
  match t with
  | [] => Ret None
  | (h', e) :: t => if decide (h' = h) then b ← eq e; if (b : bool) then Ret (Some e) else list_find t h eq else list_find t h eq
  end.

#[export, refine] Instance list_table : HashTable E (list (Z * E)) := {|
  ht_new := []; ht_find := list_find; ht_insert_unique t h e _ := (h, e) :: t; ht_reserve t _ _ := t;
  ht_len t := Z.of_nat (length t); ht_allocation_size t := 0; ht_elems t := t.*2;
  ht_ok hasher t := Forall (fun '(h, e) => hasher e = h) t |}.
Proof.
  - by intros hasher.
  - intros hasher t h eq f Hok Hf. induction t as [|[h' e] t IH]; cbn [list_find]; [eexists; split; [done|]; intros e []%not_elem_of_nil|].
    apply Forall_cons in Hok as [Hh Hok]. destruct IH as (r & E1 & Hr); [done|intros; apply Hf; by right|].
    assert (eq e = Ret (f e)) as E2 by (apply Hf; by left). destruct (decide (h' = h)) as [->|Hne]; [rewrite E2; cbn [mbind outcome_bind]; destruct (f e) eqn:Ef|].
    + eexists. split; [done|]. split; [by left|done].
    + exists r. split; [done|]. destruct r as [e'|]; [destruct Hr; split; [by right|done]|]. intros e' [->|He']%elem_of_cons Hh'; [done|by apply Hr].
    + exists r. split; [done|]. destruct r as [e'|]; [destruct Hr; split; [by right|done]|]. intros e' [->|He']%elem_of_cons Hh'; [simpl in *; congruence|by apply Hr].
  - intros hasher t h e Hok He. by split; [constructor|].
  - intros hasher hasher' t H. rewrite !Forall_forall. intros Hok [h e] He. rewrite <- (H e) by (by apply (list_elem_of_fmap_2 snd _ (h, e))). by apply (Hok (h, e)).
  - by intros hasher t n Hok.
Defined.
End list_table.

Lemma length_list_ascii (s : string) : length (String.list_ascii_of_string s) = String.length s.
Proof. induction s; simpl; congruence. Qed.

(** Room for a string.  A shard of fewer values than the limit, with an arena half used at most, interns every
    string of less than [2 ^ 31] bytes: [intern] returns. *)
Theorem intern_str_returns {HT : Type} `{HH : HashTable Z HT} (fx : string -> Z) (eqb : string -> string -> bool) (k : Z) (st : IdInterner string HT (IT := Internable_str)) (v : string) :
  0 <= k <= 16 -> (forall x y, eqb x y = true <-> x = y) -> ii_ok (IT := Internable_str) (2 ^ k) fx k st ->
  (forall sh, ii_shards st !! shard_of (2 ^ k) fx v = Some sh -> l_len (s_lock sh) < ii_limit st /\ 2 * l_next (s_lock sh) + 2 ^ 10 < 2 ^ 32) ->
  2 * Z.of_nat (String.length v) < 2 ^ 32 ->
  exists st' id, ii_intern (IT := Internable_str) (2 ^ k) fx eqb st v = Ret (st', id) /\ ii_ok (IT := Internable_str) (2 ^ k) fx k st' /\
    ii_get (IT := Internable_str) (2 ^ k) st' id = Ret v.
Proof.
  intros Hk Heq Hok Hroom Hlen. pose proof str_ok. destruct Hok as [vss Hok].
  destruct (ii_intern_names (IT := Internable_str) _ fx eqb k Hk eq_refl st v) as [(st' & id & E & Hok' & _ & Hn & _)|(_ & (sh & p & Esh & Ep & Hfull) & _)];
    [by exists vss|by intros; apply Heq| |].
  - exists st', id. split; [done|]. split; [done|]. apply (names_value (IT := Internable_str) (2 ^ k) fx k Hk eq_refl). apply Hn. by right.
  - exfalso. destruct (Hroom _ Esh) as [Hl Hn]. destruct Hfull as [?|[b' E]]; [lia|]. revert E. cbn [i_store Internable_str]. apply store_slice_room.
    + destruct (lookup_lt_is_Some_2 vss (shard_of (2 ^ k) fx v)) as [vs Evs]; [rewrite <- (io_shards _ _ _ _ _ Hok); by eapply lookup_lt_Some|].
      apply (so_arena _ _ _ _ _ _ _ _ (io_ok _ _ _ _ _ Hok _ _ _ _ Esh Ep Evs)).
    + done.
    + by rewrite length_list_ascii.
Qed.

(** ** An interner of strings *)

(** The first byte, in place of [FxHash]. *)
Definition first_byte (s : string) : Z := match s with EmptyString => 0 | String a _ => Z.of_nat (Ascii.nat_of_ascii a) end.
Definition str_eqb (x y : string) : bool := bool_decide (x = y).

Lemma str_eqb_eq x y : str_eqb x y = true <-> x = y.
Proof. apply bool_decide_eq_true. Qed.

Definition str_interner : IdInterner string (list (Z * Z)) (IT := Internable_str) :=
  match with_id_bits (IT := Internable_str) (2 ^ 2) 31 with Ret st => st | _ => mk_interner [] [] 0 end.

Lemma interner_correct_witness : exists st0 st id, with_id_bits (IT := Internable_str) (HT := list (Z * Z)) (2 ^ 2) 31 = Ret st0 /\
  ii_intern (IT := Internable_str) (2 ^ 2) first_byte str_eqb st0 "ab" = Ret (st, id) /\
  ii_intern (IT := Internable_str) (2 ^ 2) first_byte str_eqb st "ab" = Ret (st, id) /\ ii_get (IT := Internable_str) (2 ^ 2) st id = Ret "ab".
Proof.
  pose proof str_ok as Hstr.
  destruct (interner_correct (IT := Internable_str) (HT := list (Z * Z)) (2 ^ 2) first_byte str_eqb 2 ltac:(lia) eq_refl 31 ltac:(lia) str_eqb_eq)
    as [(st0 & E0 & Hok0 & Hl0 & _) Hall].
  destruct (Hall st0 Hok0 Hl0) as (Hintern & _). destruct (Hintern "ab") as [(st & id & E & Hok & Hl & _ & Hn & E')|(E & _)].
  - exists st0, st, id. split_and!; [done..|]. rewrite Hl0 in Hl. destruct (Hall st Hok Hl) as (_ & Hget & _). apply Hget, Hn. by right.
  - exfalso. assert (st0 = str_interner) as -> by (unfold str_interner; by rewrite E0).
    assert (match ii_intern (IT := Internable_str) (2 ^ 2) first_byte str_eqb str_interner "ab" with Ret _ => true | _ => false end = true) as Hret
      by (vm_compute; reflexivity). by rewrite E in Hret.
Defined.

Lemma str_interner_ok : ii_ok (IT := Internable_str) (2 ^ 2) first_byte 2 str_interner.
Proof.
  pose proof str_ok. destruct (new_names (IT := Internable_str) (HT := list (Z * Z)) (2 ^ 2) first_byte 2 ltac:(lia) eq_refl 31 ltac:(lia)) as (st & E & Hok & _).
  unfold str_interner. rewrite E. exact Hok.
Qed.

(** Two threads intern the same string; both miss under the read lock. *)
Lemma interner_threads_witness : exists st id, rtc (intern_step (IT := Internable_str) (2 ^ 2) first_byte str_eqb)
    (str_interner, [Interning "ab"; Interning "ab"]) (st, [Interned "ab" id; Interned "ab" id]) /\ ii_get (IT := Internable_str) (2 ^ 2) st id = Ret "ab".
Proof.
  pose proof str_ok. destruct str_interner_ok as [vss Hok].
  destruct (interned_result (IT := Internable_str) (2 ^ 2) first_byte 2 ltac:(lia) eq_refl _ _ _ _ Hok (intern_write_spec (IT := Internable_str) (2 ^ 2) first_byte str_eqb 2 ltac:(lia) eq_refl _ _ "ab" Hok (fun raw w _ => str_eqb_eq w "ab")))
    as [(st & id & E & [vss' Hok'] & _ & Hn & _)|(E & _)].
  2:{ exfalso. assert (match intern_write (IT := Internable_str) (2 ^ 2) first_byte str_eqb str_interner "ab" with Ret _ => true | _ => false end = true) as Hret
        by (vm_compute; reflexivity). by rewrite E in Hret. }
  destruct (interned_result (IT := Internable_str) (2 ^ 2) first_byte 2 ltac:(lia) eq_refl _ _ _ _ Hok' (intern_write_spec (IT := Internable_str) (2 ^ 2) first_byte str_eqb 2 ltac:(lia) eq_refl _ _ "ab" Hok' (fun raw w _ => str_eqb_eq w "ab")))
    as [(st' & id' & E' & _ & _ & Hn' & [-> |Hno])|(_ & _ & Hno)]; [|exfalso; apply (Hno id), Hn; right; split; reflexivity..].
  assert (id' = id) as -> by (apply (names_inj (IT := Internable_str) (2 ^ 2) first_byte 2 ltac:(lia) eq_refl st _ _ "ab"); [apply Hn'|apply Hn]; right; split; reflexivity).
  assert (rtc (intern_step (IT := Internable_str) (2 ^ 2) first_byte str_eqb) (str_interner, map Interning ["ab"; "ab"])
    (st, [Interned "ab" id; Interned "ab" id])) as Hsteps.
  { eapply rtc_l; [eapply (step_miss _ _ _ _ _ 0); [reflexivity|vm_compute; reflexivity]|].
    eapply rtc_l; [eapply (step_miss _ _ _ _ _ 1); [reflexivity|vm_compute; reflexivity]|].
    eapply rtc_l; [eapply (step_write _ _ _ _ _ 0); [reflexivity|exact E]|].
    eapply rtc_l; [eapply (step_write _ _ _ _ _ 1); [reflexivity|exact E']|apply rtc_refl]. }
  exists st, id. split; [exact Hsteps|].
  destruct (interner_threads (IT := Internable_str) (2 ^ 2) first_byte str_eqb 2 ltac:(lia) eq_refl str_interner st ["ab"; "ab"] _ str_interner_ok str_eqb_eq Hsteps) as [Hget _].
  by apply (Hget 0%nat).
Defined.

Lemma intern_str_returns_witness : exists st' id, ii_intern (IT := Internable_str) (2 ^ 2) first_byte str_eqb str_interner "path" = Ret (st', id) /\
  ii_get (IT := Internable_str) (2 ^ 2) st' id = Ret "path".
Proof.
  destruct (intern_str_returns first_byte str_eqb 2 str_interner "path") as (st' & id & E & _ & Hg).
  - lia.
  - exact str_eqb_eq.
  - exact str_interner_ok.
  - intros sh Esh. assert (match ii_shards str_interner !! shard_of (2 ^ 2) first_byte "path" with Some sh => (l_len (s_lock sh), l_next (s_lock sh)) | None => (0, 0) end = (0, 0)) as E
      by (vm_compute; reflexivity). rewrite Esh in E. injection E as -> ->. assert (ii_limit str_interner = 2 ^ 29 - 1) as -> by (vm_compute; reflexivity). lia.
  - simpl. lia.
  - exists st', id. split; assumption.
Defined.
