(* ===== verification/Path.v ===== *)
(** * Paths: the path algebra of [ctadl-ir/src/cir/path.rs] *)

From S2P Require Import Prelude.

(** ** Segments ([cir/mod.rs], [PathSegment]) *)
Inductive PathSegment : Type :=
| Field (name : string)
| Offset (k : Z)
| Deref
| Value.

#[export] Instance PathSegment_eq_dec : EqDecision PathSegment.
Proof. solve_decision. Defined.

#[export] Instance PathSegment_countable : Countable PathSegment.
Proof.
  refine (inj_countable'
    (fun s => match s with
              | Field f => inl f | Offset k => inr (inl k)
              | Deref => inr (inr true) | Value => inr (inr false) end)
    (fun t => match t with
              | inl f => Field f | inr (inl k) => Offset k
              | inr (inr true) => Deref | inr (inr false) => Value end) _).
  by intros [].
Defined.

Abbreviation path := (list PathSegment).

Definition is_field (s : PathSegment) : bool := match s with Field _ => true | _ => false end.
Definition is_offset (s : PathSegment) : bool := match s with Offset _ => true | _ => false end.
Definition is_deref (s : PathSegment) : bool := match s with Deref => true | _ => false end.
Definition is_value (s : PathSegment) : bool := match s with Value => true | _ => false end.

(** ** Normalisation *)

Definition push_normalized (out : path) (seg : PathSegment) : path :=
  match seg with
  | Offset k =>
      match split_last out with
      | Some (_, Value) => out
      | Some (init, Offset prev) =>
          let sum := wrapping_add prev k in
          if decide (sum = 0%Z) then init else init ++ [Offset sum]
      | _ => if decide (k = 0%Z) then out else out ++ [Offset k]
      end
  | Value =>
      let out := match split_last out with Some (init, Offset _) => init | _ => out end in
      match split_last out with Some (_, Value) => out | _ => out ++ [Value] end
  | Field _ | Deref => out ++ [seg]
  end.

Definition normalize (segments : path) : path := foldl push_normalized [] segments.

Definition is_normal (segments : path) : bool := bool_decide (normalize segments = segments).

Inductive PathClass : Type := Void | Address | Location.

#[export] Instance PathClass_eq_dec : EqDecision PathClass.
Proof. solve_decision. Defined.

Fixpoint after_value (segments : path) : option path :=
  match segments with
  | [] => None
  | Value :: rest => Some rest
  | _ :: rest => after_value rest
  end.

Definition classify (segments : path) : PathClass :=
  if match after_value segments with
     | Some rest => existsb (fun s => is_field s || is_deref s) rest
     | None => false
     end
  then Void
  else match split_last segments with
       | Some (_, Offset _) => Address
       | _ => Location
       end.

Definition is_void (segments : path) : bool := bool_decide (classify segments = Void).
Definition is_location (segments : path) : bool := bool_decide (classify segments = Location).

Definition concat (prefix suffix : path) : path := foldl push_normalized prefix suffix.

Definition strip_prefix (p prefix : path) : option path :=
  match split_last prefix with
  | None => Some p
  | Some (init, seg) =>
      if decide (length p < length init) then None
      else if decide (take (length init) p <> init) then None
      else
        let rest := drop (length init) p in
        match seg with
        | Offset m =>
            let t := concat (normalize [Offset (wrapping_neg m)]) rest in
            if decide (concat prefix t = p) then Some t else None
        | _ =>
            match rest with
            | [] => None
            | head :: tail => if decide (head = seg) then Some tail else None
            end
        end
  end.

Definition rewrite_address_dest (dest src : path) : path * path :=
  match split_last dest with
  | Some (init, Offset k) => (init, concat src [Offset (wrapping_neg k)])
  | _ => (dest, src)
  end.

Definition location_of (segments : path) : path :=
  match split_last segments with
  | Some (init, Offset _) => init
  | _ => segments
  end.

(** ** Normal forms, structurally

    What the equations leave: no two adjacent segments that an equation rewrites, no zero
    offset, and offsets that are [i64]s. *)
Definition ok_pair (x y : PathSegment) : bool :=
  match x, y with
  | Offset _, Offset _ | Offset _, Value | Value, Offset _ | Value, Value => false
  | _, _ => true
  end.

Definition seg_i64 (s : PathSegment) : Prop :=
  match s with Offset k => in_i64 k | _ => True end.

Definition seg_ok (s : PathSegment) : Prop :=
  match s with Offset k => in_i64 k /\ k <> 0%Z | _ => True end.

Definition join_ok (p : path) (s : PathSegment) : Prop :=
  match last p with Some y => ok_pair y s = true | None => True end.

Inductive nf : path -> Prop :=
| nf_nil : nf []
| nf_snoc p s : nf p -> seg_ok s -> join_ok p s -> nf (p ++ [s]).

Lemma nf_snoc_inv p s : nf (p ++ [s]) -> nf p /\ seg_ok s /\ join_ok p s.
Proof.
  inversion 1 as [E|p' s' ? ? ? E].
  - by destruct p.
  - apply app_inj_tail in E as [-> ->]. done.
Qed.

Lemma nf_single s : seg_ok s -> nf [s].
Proof. intros. by apply (nf_snoc []); [constructor|..]. Qed.

Lemma nf_app_l p q : nf (p ++ q) -> nf p.
Proof.
  induction q as [|s q IH] using rev_ind; [by rewrite app_nil_r|].
  rewrite app_assoc. intros [? _]%nf_snoc_inv. auto.
Qed.

Lemma nf_app_r p q : nf (p ++ q) -> nf q.
Proof.
  induction q as [|s q IH] using rev_ind; [intros; constructor|].
  rewrite app_assoc. intros (H & Hs & Hj)%nf_snoc_inv. constructor; auto.
  unfold join_ok in *. rewrite last_app in Hj. by destruct (last q).
Qed.

(** Opens the last segment of the normal form [p]. *)
Ltac snoc_case p H :=
  let p' := fresh p in let s := fresh "s" in
  destruct p as [|s p' _] using rev_ind;
  [| let H1 := fresh H in
     pose proof (nf_snoc_inv _ _ H) as (H1 & ? & ?)].

Section push_normalized_props.
Implicit Types p q : path.

Lemma push_normalized_nf p s : nf p -> seg_i64 s -> nf (push_normalized p s).
Proof.
  intros Hp Hs. unfold push_normalized.
  destruct s as [f|k| |].
  - constructor; [done..|]. unfold join_ok. destruct (last p) as [[]|]; done.
  - snoc_case p Hp; rewrite ?split_last_snoc; simpl.
    + case_decide; [done|]. by apply (nf_snoc []).
    + assert (forall s', nf (p0 ++ [s']) -> ok_pair s' (Offset k) = true ->
                nf (if decide (k = 0%Z) then p0 ++ [s'] else (p0 ++ [s']) ++ [Offset k])) as Hdef.
      { intros s' ? ?. case_decide; [done|]. constructor; [done..|].
        unfold join_ok. by rewrite last_snoc. }
      destruct s as [g|j| |]; [by apply Hdef| |by apply Hdef|done].
      clear Hdef. case_decide; [done|]. constructor; [done| |done].
      split; [auto with ctadl|done].
  - constructor; [done..|]. unfold join_ok. destruct (last p) as [[]|]; done.
  - snoc_case p Hp; rewrite ?split_last_snoc; simpl; [by apply (nf_snoc [])|].
    destruct s as [g|j| |]; rewrite ?split_last_snoc; try done.
    + constructor; [done..|]. unfold join_ok. by rewrite last_snoc.
    + snoc_case p0 Hp0; rewrite ?split_last_snoc; simpl; [by apply (nf_snoc [])|].
      unfold join_ok in *. rewrite last_snoc in *.
      destruct s as [g| | |]; try done; constructor; try done;
        unfold join_ok; by rewrite last_snoc.
    + constructor; [done..|]. unfold join_ok. by rewrite last_snoc.
Qed.

(** A normal form is built by appending: normalising it changes nothing. *)
Lemma push_normalized_snoc p s : nf (p ++ [s]) -> push_normalized p s = p ++ [s].
Proof.
  intros (Hp & Hs & Hj)%nf_snoc_inv. unfold push_normalized, join_ok in *.
  destruct s as [f|k| |]; try done.
  - destruct Hs. snoc_case p Hp; rewrite ?split_last_snoc, ?last_snoc in *; simpl in *.
    + by case_decide.
    + destruct s; try done; by case_decide.
  - snoc_case p Hp; rewrite ?split_last_snoc, ?last_snoc in *; simpl in *; [done|].
    destruct s; try done; by rewrite split_last_snoc.
Qed.

Lemma push_value_value p : push_normalized (push_normalized p Value) Value = push_normalized p Value.
Proof.
  unfold push_normalized.
  set (o := match split_last p with Some (init, Offset _) => init | _ => p end).
  destruct (split_last o) as [[i []]|] eqn:E;
    rewrite ?split_last_snoc, ?E; try done; rewrite ?split_last_snoc; done.
Qed.

Lemma push_value_offset p k : push_normalized (push_normalized p Value) (Offset k) = push_normalized p Value.
Proof.
  unfold push_normalized.
  set (o := match split_last p with Some (init, Offset _) => init | _ => p end).
  destruct (split_last o) as [[i []]|] eqn:E;
    rewrite ?split_last_snoc, ?E; done.
Qed.

Lemma push_offset_value p k : nf p ->
  push_normalized (push_normalized p (Offset k)) Value = push_normalized p Value.
Proof.
  intros Hp. snoc_case p Hp.
  - unfold push_normalized; simpl. by case_decide.
  - unfold push_normalized; rewrite !split_last_snoc; simpl.
    destruct s as [f|j| |]; rewrite ?split_last_snoc; try done.
    + case_decide; rewrite ?split_last_snoc; done.
    + case_decide; rewrite ?split_last_snoc; [|done].
      destruct p0 as [|x p0 _] using rev_ind; [done|].
      rewrite split_last_snoc. unfold join_ok in *. rewrite last_snoc in *.
      destruct x; rewrite ?split_last_snoc; done.
    + case_decide; rewrite ?split_last_snoc; done.
Qed.

Lemma push_offset_0 p : nf p -> push_normalized p (Offset 0) = p.
Proof.
  intros Hp. snoc_case p Hp; [done|]. unfold push_normalized. rewrite split_last_snoc.
  destruct s as [f|j| |]; try done.
  match goal with H : seg_ok _ |- _ => destruct H as [Hr ?] end.
  rewrite wrapping_add_0_r by done. by case_decide.
Qed.

Lemma push_offset_offset p j k : nf p -> in_i64 j -> in_i64 k ->
  push_normalized (push_normalized p (Offset j)) (Offset k) =
  push_normalized p (Offset (wrapping_add j k)).
Proof.
  intros Hp Hj Hk. unfold push_normalized.
  assert (forall q, (match last q with Some (Offset _) | Some Value => false | _ => true end) = true ->
    push_normalized (if decide (j = 0%Z) then q else q ++ [Offset j]) (Offset k) =
    (if decide (wrapping_add j k = 0%Z) then q else q ++ [Offset (wrapping_add j k)])) as Hplain.
  { intros q Hq. unfold push_normalized. case_decide as Ej; [subst|].
    - rewrite wrapping_add_0_l by done.
      destruct q as [|x q _] using rev_ind; [done|].
      rewrite split_last_snoc, last_snoc in *. by destruct x.
    - by rewrite split_last_snoc. }
  snoc_case p Hp; [by apply (Hplain [])|]. rewrite split_last_snoc.
  destruct s as [f|i| |].
  - apply (Hplain (p0 ++ [Field f])). by rewrite last_snoc.
  - clear Hplain. case_decide as E1.
    + assert (join_ok p0 (Offset i)) as Hjo by done.
      replace (wrapping_add i (wrapping_add j k)) with k.
      2: { rewrite <- wrapping_add_assoc, E1. by rewrite wrapping_add_0_l. }
      unfold join_ok in Hjo.
      destruct p0 as [|x q _] using rev_ind; [done|].
      rewrite split_last_snoc, last_snoc in *. by destruct x.
    + rewrite split_last_snoc. by rewrite wrapping_add_assoc.
  - apply (Hplain (p0 ++ [Deref])). by rewrite last_snoc.
  - by rewrite split_last_snoc.
Qed.
End push_normalized_props.

Lemma nf_i64 p : nf p -> Forall seg_i64 p.
Proof.
  induction 1 as [|p s ? IH Hs ?]; [done|].
  apply Forall_app; split; [done|]. constructor; [|done].
  by destruct s; [|destruct Hs| |].
Qed.

Lemma concat_snoc a q s : concat a (q ++ [s]) = push_normalized (concat a q) s.
Proof. unfold concat. by rewrite foldl_app. Qed.

Lemma concat_app a p q : concat a (p ++ q) = concat (concat a p) q.
Proof. unfold concat. by rewrite foldl_app. Qed.

Lemma concat_nil_l p : concat [] p = normalize p.
Proof. done. Qed.

Lemma concat_nf a q : nf a -> Forall seg_i64 q -> nf (concat a q).
Proof.
  intros Ha. induction q as [|s q IH] using rev_ind; [done|].
  rewrite concat_snoc, Forall_app, Forall_singleton. intros [??].
  apply push_normalized_nf; auto.
Qed.

Lemma normalize_nf p : Forall seg_i64 p -> nf (normalize p).
Proof. apply concat_nf. constructor. Qed.

Lemma concat_app_nf a q : nf (a ++ q) -> concat a q = a ++ q.
Proof.
  induction q as [|s q IH] using rev_ind; [by rewrite app_nil_r|].
  rewrite app_assoc. intros H. rewrite concat_snoc, IH by eauto using nf_app_l.
  by apply push_normalized_snoc.
Qed.

Lemma normalize_id p : nf p -> normalize p = p.
Proof. apply (concat_app_nf []). Qed.

#[export] Hint Resolve nf_nil nf_i64 concat_nf normalize_nf push_normalized_nf : ctadl.

Lemma concat_push_plain a n x k : (is_field x || is_deref x) = true ->
  concat a (push_normalized (n ++ [x]) (Offset k)) =
  push_normalized (push_normalized (concat a n) x) (Offset k).
Proof.
  intros Hx. replace (push_normalized (concat a n) x) with (concat a n ++ [x]) by by destruct x.
  destruct x; try done; unfold push_normalized; rewrite !split_last_snoc;
    destruct (decide _); rewrite !concat_snoc; simpl; rewrite ?split_last_snoc; by try case_decide.
Qed.

(** Appending after concatenation is concatenating after appending: the step that makes
    [normalize] a homomorphism. *)
Lemma concat_push a n s : nf a -> nf n -> seg_i64 s ->
  concat a (push_normalized n s) = push_normalized (concat a n) s.
Proof.
  intros Ha Hn Hs.
  assert (push_normalized n s = n ++ [s] -> concat a (push_normalized n s) = push_normalized (concat a n) s)
    as Happ by (intros ->; apply concat_snoc).
  destruct s as [f|k| |]; try (by apply Happ).
  - snoc_case n Hn.
    + destruct (decide (k = 0%Z)) as [->|?]; [by rewrite !push_offset_0 by auto with ctadl|].
      apply Happ. unfold push_normalized; simpl. by case_decide.
    + rewrite concat_snoc. assert (nf (concat a n0)) as Hc by eauto with ctadl.
      destruct s as [f|j| |]; [by apply (concat_push_plain _ _ (Field f))| |
                               by apply (concat_push_plain _ _ Deref)|].
      * match goal with H : seg_ok _ |- _ => destruct H end.
        rewrite push_offset_offset by done.
        unfold push_normalized at 1. rewrite split_last_snoc. case_decide as E.
        -- by rewrite E, push_offset_0.
        -- by rewrite concat_snoc.
      * rewrite push_value_offset. unfold push_normalized at 1. rewrite split_last_snoc.
        by rewrite concat_snoc.
  - snoc_case n Hn; [by apply Happ|]. rewrite concat_snoc.
    assert (nf (concat a n0)) as Hc by eauto with ctadl.
    destruct s as [f|j| |].
    + rewrite <- concat_snoc, <- concat_snoc. f_equal.
      unfold push_normalized. by rewrite !split_last_snoc.
    + rewrite push_offset_value by done. rewrite <- concat_snoc. f_equal.
      unfold push_normalized. rewrite !split_last_snoc. unfold join_ok in *.
      destruct n0 as [|x n0 _] using rev_ind; [done|].
      rewrite split_last_snoc, last_snoc in *. by destruct x.
    + rewrite <- concat_snoc, <- concat_snoc. f_equal.
      unfold push_normalized. by rewrite !split_last_snoc.
    + rewrite push_value_value. unfold push_normalized at 1. rewrite !split_last_snoc.
      by rewrite concat_snoc.
Qed.

Lemma concat_normalize a q : nf a -> Forall seg_i64 q -> concat a (normalize q) = concat a q.
Proof.
  intros Ha. induction q as [|s q IH] using rev_ind; [done|].
  rewrite Forall_app, Forall_singleton. intros [??].
  rewrite concat_snoc, <- concat_nil_l, concat_snoc, concat_push; eauto with ctadl.
  by rewrite concat_nil_l, IH.
Qed.

Lemma concat_assoc a b c : nf a -> nf b -> Forall seg_i64 c ->
  concat (concat a b) c = concat a (concat b c).
Proof.
  intros Ha Hb Hc. rewrite <- (concat_normalize a (concat b c)) by eauto with ctadl.
  rewrite (normalize_id (concat b c)) by eauto with ctadl.
  rewrite <- concat_app. rewrite <- (concat_normalize a (b ++ c)); [|done|].
  2: { apply Forall_app; eauto with ctadl. }
  f_equal. rewrite <- concat_nil_l, concat_app. f_equal. by apply normalize_id.
Qed.

(** ** What concatenation keeps *)

Lemma nf_app p q :
  nf p -> nf q -> (match last p, head q with Some x, Some y => ok_pair x y = true | _, _ => True end) ->
  nf (p ++ q).
Proof.
  intros Hp Hq. induction Hq as [|q s Hq IH Hs Hj]; [by rewrite app_nil_r|].
  intros Hjoin. rewrite app_assoc. constructor; [|done|].
  - apply IH. destruct q; simpl in *; [by destruct (last p)|done].
  - unfold join_ok in *. rewrite last_app. destruct (last q) eqn:E; [done|].
    apply last_None in E as ->. simpl in *. by destruct (last p).
Qed.

Lemma nf_app_join p q : nf (p ++ q) -> match last p, head q with Some x, Some y => ok_pair x y = true | _, _ => True end.
Proof.
  destruct q as [|y q]; [by destruct (last p)|]. change (y :: q) with ([y] ++ q). rewrite app_assoc. intros (_ & _ & H)%nf_app_l%nf_snoc_inv.
  unfold join_ok in H. simpl. by destruct (last p).
Qed.

Lemma nf_cons_inv s q : nf (s :: q) -> seg_ok s /\ nf q /\ match head q with Some y => ok_pair s y = true | None => True end.
Proof.
  intros H. change (s :: q) with ([s] ++ q) in H. split_and!; [|by eapply nf_app_r|by apply nf_app_join in H].
  by apply nf_app_l, (nf_snoc_inv []) in H as (_ & ? & _).
Qed.

Lemma nf_cons s q : seg_ok s -> nf q -> match head q with Some y => ok_pair s y = true | None => True end -> nf (s :: q).
Proof. intros Hs Hq Hj. apply (nf_app [s]); [by apply nf_single|done|done]. Qed.

Definition ends_plain (p : path) : Prop :=
  match last p with Some (Offset _) => False | _ => True end.

Lemma push_keeps a r s : ends_plain a -> exists r', push_normalized (a ++ r) s = a ++ r'.
Proof.
  intros Ha.
  assert (forall x, exists r', (a ++ r) ++ [x] = a ++ r') as Happ
    by (intros x; exists (r ++ [x]); by rewrite app_assoc).
  destruct s as [f|k| |]; simpl; try apply Happ.
  - destruct r as [|x r _] using rev_ind.
    + rewrite app_nil_r in *. destruct (split_last a) as [[i []]|] eqn:E;
        try case_decide; eauto using app_nil_r.
      all: try (exists []; by rewrite app_nil_r).
      all: apply split_last_Some in E as ->; unfold ends_plain in Ha; by rewrite last_snoc in Ha.
    + rewrite app_assoc, split_last_snoc.
      assert (exists r', a ++ r ++ [x] = a ++ r') by eauto.
      destruct x; try case_decide; rewrite <- ?app_assoc; eauto.
  - destruct r as [|x r _] using rev_ind.
    + rewrite app_nil_r in *. destruct (split_last a) as [[i s]|] eqn:E; [|rewrite ?E; eauto].
      assert (exists r', a = a ++ r') by (exists []; by rewrite app_nil_r).
      destruct s; rewrite ?E; eauto.
      apply split_last_Some in E as ->. unfold ends_plain in Ha. by rewrite last_snoc in Ha.
    + rewrite app_assoc, split_last_snoc.
      assert (exists r', a ++ r ++ [x] = a ++ r') by eauto.
      assert (exists r', a ++ r = a ++ r') by eauto.
      destruct x; rewrite ?split_last_snoc; rewrite <- ?app_assoc in *; eauto.
      destruct (split_last (a ++ r)) as [[i []]|]; eauto.
Qed.

(** A prefix that does not end in an offset survives concatenation unchanged. *)
Lemma concat_keeps a q : ends_plain a -> exists r, concat a q = a ++ r.
Proof.
  intros Ha. induction q as [|s q [r IH]] using rev_ind; [exists []; by rewrite app_nil_r|].
  rewrite concat_snoc, IH. by apply push_keeps.
Qed.

Lemma push_length a s : length (push_normalized a s) <= S (length a).
Proof.
  destruct s as [f|k| |]; simpl; rewrite ?length_app; simpl; try lia.
  - destruct (split_last a) as [[i x]|] eqn:E; [apply split_last_Some in E as ->|];
      repeat (case_decide || case_match); rewrite ?length_app; simpl; lia.
  - destruct (split_last a) as [[i x]|] eqn:E; [apply split_last_Some in E as ->|];
      [destruct x|]; repeat case_match; rewrite ?length_app in *; simpl; lia.
Qed.

Lemma concat_length a q : length (concat a q) <= length a + length q.
Proof.
  induction q as [|s q IH] using rev_ind; [simpl; lia|].
  rewrite concat_snoc, length_app. simpl. pose proof (push_length (concat a q) s). lia.
Qed.

Lemma concat_offset_inverse m : in_i64 m -> m <> 0%Z ->
  concat [Offset m] [Offset (wrapping_neg m)] = [] /\
  concat [Offset (wrapping_neg m)] [Offset m] = [].
Proof.
  intros. unfold concat, push_normalized; simpl.
  rewrite wrapping_neg_l, wrapping_neg_r. done.
Qed.

Lemma concat_cancel p k : nf p -> in_i64 k -> concat (concat p [Offset (wrapping_neg k)]) [Offset k] = p.
Proof.
  intros. unfold concat; cbn [foldl].
  rewrite push_offset_offset, wrapping_neg_l; auto using push_offset_0 with ctadl.
Qed.

(** The front of a normal form whose prefix ends in [Offset m]. *)
Lemma nf_offset_init i m : nf (i ++ [Offset m]) ->
  nf i /\ in_i64 m /\ m <> 0%Z /\ ends_plain i /\ last i <> Some Value.
Proof.
  intros (Hi & [Hr Hm] & Hj)%nf_snoc_inv. unfold join_ok, ends_plain in *.
  destruct (last i) as [[]|]; naive_solver.
Qed.

Lemma concat_plain_app a q : nf a -> nf q -> ends_plain a -> last a <> Some Value ->
  concat a q = a ++ q.
Proof.
  intros Ha Hq Hp Hv. apply concat_app_nf, nf_app; [done..|].
  unfold ends_plain in Hp. destruct (last a) as [[]|], (head q); done.
Qed.

(** Two normal forms meet at one segment. *)
Lemma concat_cons a s b : nf a -> nf (s :: b) -> concat a (s :: b) = push_normalized a s ++ b.
Proof.
  intros Ha (Hs & Hb & Hj)%nf_cons_inv. change (concat a (s :: b)) with (concat (push_normalized a s) b).
  assert (seg_i64 s) by (destruct s; naive_solver). apply concat_app_nf, nf_app; [by apply push_normalized_nf|done|].
  destruct (head b) as [y|]; [|by destruct (last _)].
  destruct s as [f|k| |]; simpl.
  - by rewrite last_snoc.
  - destruct (split_last a) as [[i x]|] eqn:E; [apply split_last_Some in E as ->|apply split_last_None in E as ->; case_decide; by rewrite ?last_snoc].
    destruct x; repeat case_decide; rewrite ?last_snoc; try done; try (destruct y; done).
    apply nf_offset_init in Ha as (_ & _ & _ & Hp & Hv). unfold ends_plain in Hp. by destruct (last i) as [[]|], y.
  - by rewrite last_snoc.
  - destruct (split_last a) as [[i x]|] eqn:E; [|by rewrite E, last_snoc]. destruct x; rewrite ?E; simpl; rewrite ?last_snoc; try done.
    + destruct (split_last i) as [[i' []]|] eqn:E'; rewrite ?last_snoc; try done. apply split_last_Some in E' as ->. by rewrite last_snoc.
    + apply split_last_Some in E as ->. by rewrite last_snoc.
Qed.

(** ** [strip_prefix] *)

Section strip_prefix.
Context (p prefix : path) (Hp : nf p) (Hprefix : nf prefix).

Lemma strip_prefix_Some_spec t :
  strip_prefix p prefix = Some t -> concat prefix t = p /\ nf t.
Proof.
  unfold strip_prefix.
  destruct (split_last prefix) as [[i s]|] eqn:E.
  2: { apply split_last_None in E as ->. intros [= ->]. split; [by apply normalize_id|done]. }
  apply split_last_Some in E as ->.
  case_decide; [done|]. case_decide as Ht; [done|].
  assert (p = i ++ drop (length i) p) as Hdrop by (rewrite <- Ht at 1; by rewrite take_drop).
  revert Hdrop. generalize (drop (length i) p) as rest. intros rest ->.
  assert (forall tl, rest = s :: tl -> concat (i ++ [s]) tl = i ++ rest /\ nf tl) as Hplain.
  { intros tl ->. change (s :: tl) with ([s] ++ tl) in *. rewrite app_assoc in Hp |- *.
    split; [by apply concat_app_nf|].
    clear -Hp. induction tl as [|x tl IH] using rev_ind; [constructor|].
    rewrite app_assoc in Hp. apply nf_snoc_inv in Hp as (H1 & H2 & H3).
    constructor; [auto|done|]. unfold join_ok in *. rewrite last_app in H3.
    by destruct (last tl). }
  destruct s as [f|m| |]; [|clear Hplain|..];
    try (destruct rest as [|h tl]; [done|]; case_decide; [|done]; intros [= ->]; subst; auto).
  case_decide as Hc; [|done]. intros [= <-]. split; [done|].
  apply concat_nf; [apply normalize_nf|].
  - constructor; [apply wrapping_neg_range|done].
  - apply nf_i64 in Hp. by apply Forall_app in Hp as [_ ?].
Qed.

Lemma strip_prefix_is_Some q :
  Forall seg_i64 q -> concat prefix q = p -> is_Some (strip_prefix p prefix).
Proof.
  intros Hq Hc. unfold strip_prefix.
  destruct (split_last prefix) as [[i s]|] eqn:E; [|eauto].
  apply split_last_Some in E as ->.
  assert (forall r, p = i ++ r -> nf p -> (length p < length i -> False) /\ take (length i) p = i /\
            drop (length i) p = r) as Hsplit.
  { intros r -> _. rewrite length_app, take_app_length, drop_app_length. naive_solver lia. }
  assert (ends_plain (i ++ [s]) -> is_Some (strip_prefix p (i ++ [s]))) as Hplain.
  { intros He. destruct (concat_keeps (i ++ [s]) q He) as [r Hr].
    rewrite Hc, <- app_assoc in Hr. destruct (Hsplit ([s] ++ r)) as (H1 & H2 & H3); [done..|].
    unfold strip_prefix. rewrite split_last_snoc, H2, H3.
    rewrite decide_False by auto. rewrite decide_False by auto.
    unfold ends_plain in He. rewrite last_snoc in He.
    destruct s; try done; simpl; rewrite decide_True by done; eauto. }
  unfold strip_prefix in Hplain. rewrite split_last_snoc in Hplain.
  destruct s as [f|m| |]; try (apply Hplain; unfold ends_plain; by rewrite last_snoc).
  clear Hplain. apply nf_offset_init in Hprefix as (Hi & Hm & Hm0 & He & Hv).
  destruct (concat_keeps i (Offset m :: q) He) as [r Hr].
  assert (concat i (Offset m :: q) = p) as Hc'.
  { rewrite <- Hc. change (Offset m :: q) with ([Offset m] ++ q). rewrite concat_app. f_equal.
    apply concat_app_nf. constructor; [done|done|].
    unfold join_ok, ends_plain in *. by destruct (last i) as [[]|]. }
  rewrite Hc' in Hr. destruct (Hsplit r) as (H1 & H2 & H3); [done..|].
  rewrite H2, H3. rewrite decide_False by auto. rewrite decide_False by auto.
  rewrite decide_True; [eauto|].
  assert (Forall seg_i64 r) by (rewrite Hr in Hp; apply nf_i64, Forall_app in Hp; tauto).
  assert (Forall seg_i64 [Offset (wrapping_neg m)]) as Hneg
    by (constructor; [apply wrapping_neg_range|done]).
  assert (nf (i ++ [Offset m])) as Hpre.
  { constructor; [done|done|]. unfold join_ok, ends_plain in *. by destruct (last i) as [[]|]. }
  rewrite <- concat_assoc, concat_normalize by eauto with ctadl.
  rewrite <- (concat_app_nf i [Offset m]) by done.
  rewrite (concat_assoc i [Offset m]); [|done| |done].
  2: { by apply nf_single. }
  rewrite (proj1 (concat_offset_inverse m Hm Hm0)). simpl.
  rewrite concat_app_nf; congruence.
Qed.

Lemma strip_prefix_shortest t t' :
  strip_prefix p prefix = Some t -> nf t' -> concat prefix t' = p -> length t <= length t'.
Proof.
  intros Hs Ht' Hc. destruct (strip_prefix_Some_spec t Hs) as [Hc1 Ht].
  destruct (split_last prefix) as [[i s]|] eqn:E.
  2: { apply split_last_None in E as ->. unfold concat in *.
       change (normalize t' = p) in Hc. change (normalize t = p) in Hc1.
       rewrite normalize_id in Hc, Hc1 by done. by subst. }
  apply split_last_Some in E as ->.
  destruct (is_offset s) eqn:Eo.
  - destruct s as [|m| |]; try done. apply nf_offset_init in Hprefix as Hq.
    destruct Hq as (Hi & Hm & Hm0 & He & Hv).
    assert (nf [Offset m]) as Hnm by (by apply nf_single).
    assert (forall x, nf x -> concat (i ++ [Offset m]) x = p ->
              x = concat [Offset (wrapping_neg m)] (drop (length i) p)) as Hun.
    { intros x Hx <-. rewrite <- (concat_app_nf i [Offset m]) by done.
      rewrite concat_assoc by eauto with ctadl.
      rewrite (concat_plain_app i) by eauto with ctadl. rewrite drop_app_length.
      rewrite <- concat_assoc; eauto with ctadl.
      - rewrite (proj2 (concat_offset_inverse m Hm Hm0)). symmetry. by apply normalize_id.
      - apply nf_single. split; [apply wrapping_neg_range|].
        by apply wrapping_neg_nonzero. }
    rewrite (Hun t), (Hun t') by done. done.
  - unfold strip_prefix in Hs. rewrite split_last_snoc in Hs.
    case_decide; [done|]. case_decide as Htk; [done|].
    assert (length p = length i + length (drop (length i) p)) as Hlen
      by (rewrite <- Htk at 2; rewrite length_take, length_drop; lia).
    assert (length p = S (length i + length t)) as Hpl.
    { rewrite Hlen. destruct s; try done; destruct (drop (length i) p) as [|h tl]; try done;
        case_decide; simplify_eq/=; lia. }
    pose proof (concat_length (i ++ [s]) t') as Hb. rewrite Hc, length_app in Hb. simpl in Hb. lia.
Qed.
End strip_prefix.

(** ** Addresses and void paths *)

Lemma nf_location_of p : nf p -> nf (location_of p) /\ ends_plain (location_of p).
Proof.
  intros Hp. unfold location_of. snoc_case p Hp; [done|]. rewrite split_last_snoc.
  destruct s; try (split; [done|]; unfold ends_plain; by rewrite last_snoc).
  apply nf_offset_init in Hp as (? & ? & ? & ? & ?). auto.
Qed.

Lemma ends_plain_not_address p : ends_plain p -> classify p <> Address.
Proof.
  intros He. unfold classify. case_match; [done|]. unfold ends_plain in He.
  destruct p as [|x p _] using rev_ind; [done|].
  rewrite split_last_snoc. rewrite last_snoc in He. by destruct x.
Qed.

Lemma location_of_push_offset p k : nf p -> in_i64 k ->
  location_of (push_normalized p (Offset k)) = location_of p.
Proof.
  intros Hp Hk. unfold push_normalized, location_of.
  snoc_case p Hp; simpl; [by case_decide|]. rewrite split_last_snoc.
  destruct s as [f|j| |]; try (case_decide; by rewrite !split_last_snoc);
    try (by rewrite split_last_snoc).
  apply nf_offset_init in Hp as (_ & _ & _ & He & _). unfold ends_plain in He.
  case_decide; [|by rewrite split_last_snoc].
  destruct p0 as [|x q _] using rev_ind; [done|].
  rewrite split_last_snoc. rewrite last_snoc in He. by destruct x.
Qed.

Definition plain (s : PathSegment) : bool := is_field s || is_deref s.

Lemma after_value_app p q : after_value (p ++ q) =
  match after_value p with Some r => Some (r ++ q) | None => after_value q end.
Proof. induction p as [|[] p IH]; simpl; done. Qed.

(** A path is void exactly when a field or [deref] follows a [#value]. *)
Lemma classify_Void p :
  classify p = Void <-> exists a b c s, p = a ++ [Value] ++ b ++ [s] ++ c /\ plain s = true.
Proof.
  unfold classify. split.
  - intros H. destruct (after_value p) as [r|] eqn:E; [|by repeat case_match].
    assert (exists a, p = a ++ [Value] ++ r) as [a ->].
    { clear H. revert r E. induction p as [|[] p IH]; simpl; intros r E; simplify_eq; try done.
      - destruct (IH _ E) as [a ->]. by exists (Field name :: a).
      - destruct (IH _ E) as [a ->]. by exists (Offset k :: a).
      - destruct (IH _ E) as [a ->]. by exists (Deref :: a).
      - by exists []. }
    destruct (existsb _ r) eqn:Eb; [|by repeat case_match].
    apply existsb_exists in Eb as (s & Hin%list_elem_of_In & Hs).
    apply list_elem_of_split in Hin as (b & c & ->).
    exists a, b, c, s. done.
  - intros (a & b & c & s & -> & Hs).
    assert (exists r, after_value (a ++ [Value] ++ b ++ [s] ++ c) = Some (r ++ b ++ [s] ++ c)) as [r ->].
    { rewrite after_value_app. destruct (after_value a) as [r|]; simpl; [|by exists []].
      exists (r ++ [Value]). by rewrite <- app_assoc. }
    rewrite !existsb_app. simpl. change (is_field s || is_deref s) with (plain s).
    by rewrite Hs, orb_true_l, !orb_true_r.
Qed.

Lemma concat_keeps_plain a s c q : plain s = true ->
  exists r, concat (a ++ [s] ++ c) q = a ++ [s] ++ r.
Proof.
  intros Hs. assert (ends_plain (a ++ [s])) as He.
  { unfold ends_plain. rewrite last_snoc. by destruct s. }
  induction q as [|x q [r IH]] using rev_ind; [by exists c|].
  rewrite concat_snoc, IH, app_assoc. destruct (push_keeps (a ++ [s]) r x He) as [r' ->].
  exists r'. by rewrite <- app_assoc.
Qed.

(** ** Properties *)

(** [normalize] is idempotent, its result satisfies [is_normal], and on [i64] offsets
    [is_normal] holds of exactly the paths in which no equation of S2 applies: no zero offset,
    no two adjacent offsets, no offset next to [#value], no repeated [#value]. *)
Theorem normalize_idempotent (p : path) :
  Forall seg_i64 p ->
  normalize (normalize p) = normalize p /\ is_normal (normalize p) = true /\
  (is_normal p = true <-> nf p).
Proof.
  intros Hp. pose proof (normalize_nf p Hp) as Hn.
  split; [by apply normalize_id|]. unfold is_normal. rewrite !bool_decide_eq_true.
  split; [by apply normalize_id|]. split; [by intros <-|apply normalize_id].
Qed.

Lemma normalize_idempotent_witness :
  let p := [Offset 8; Value; Offset 4; Value] in
  Forall seg_i64 p /\ normalize (normalize p) = normalize p.
Proof.
  assert (Forall seg_i64 [Offset 8; Value; Offset 4; Value])
    by (repeat constructor; vm_compute; discriminate).
  split; [done|]. by apply (normalize_idempotent [Offset 8; Value; Offset 4; Value]).
Defined.



(** C38: [strip_prefix] is sound and complete: on normal forms it answers [Some t] exactly when
    the prefix divides the path, the suffix it answers is a normal form that [concat] puts back,
    and no normal suffix that does is shorter. *)
Theorem strip_prefix_correct (p prefix : path) :
  nf p -> nf prefix ->
  (forall t, strip_prefix p prefix = Some t ->
     concat prefix t = p /\ nf t /\
     forall t', nf t' -> concat prefix t' = p -> length t <= length t') /\
  (strip_prefix p prefix = None -> forall q, Forall seg_i64 q -> concat prefix q <> p).
Proof.
  intros Hp Hpre. split.
  - intros t Ht. destruct (strip_prefix_Some_spec p prefix Hp Hpre t Ht).
    split_and!; [done..|]. intros t'. by apply (strip_prefix_shortest p prefix).
  - intros HN q Hq Hc. destruct (strip_prefix_is_Some p prefix Hp Hpre q Hq Hc); congruence.
Qed.

Lemma strip_prefix_correct_witness :
  strip_prefix [Field "x"] [Offset 8] = Some [Offset (-8); Field "x"] /\
  concat [Offset 8] [Offset (-8); Field "x"] = [Field "x"].
Proof.
  assert (nf [Field "x"]) as H1 by (by apply nf_single).
  assert (nf [Offset 8]) as H2 by (apply nf_single; split; vm_compute; [split|]; discriminate).
  split; [vm_compute; reflexivity|].
  apply (proj1 (strip_prefix_correct _ _ H1 H2)). vm_compute. reflexivity.
Defined.

(** Rewriting an address destination (S5) gives an assignment whose destination is not an
    address, keeps both sides in normal form, and is undone by putting the offset back on both
    sides; a destination that is not an address, and its source, are unchanged. *)
Theorem rewrite_address_dest_correct (dest src : path) :
  nf dest -> nf src ->
  let (d, s) := rewrite_address_dest dest src in
  nf d /\ nf s /\ (forall i k, d <> i ++ [Offset k]) /\ classify d <> Address /\
  ((d = dest /\ s = src) \/
   exists k, concat d [Offset k] = dest /\ concat s [Offset k] = src).
Proof.
  intros Hd Hs. unfold rewrite_address_dest.
  assert (forall d, nf d -> ends_plain d -> (forall i k, d <> i ++ [Offset k]) /\ classify d <> Address)
    as Hplain.
  { intros d _ He. split; [|by apply ends_plain_not_address].
    intros i k ->. unfold ends_plain in He. by rewrite last_snoc in He. }
  snoc_case dest Hd; [split_and!; auto; by apply Hplain|]. rewrite split_last_snoc.
  destruct s as [f|k| |];
    try (destruct (Hplain _ Hd); [unfold ends_plain; by rewrite last_snoc|split_and!; by auto]).
  apply nf_offset_init in Hd as Hd'. destruct Hd' as (Hi & Hk & Hk0 & He & Hv).
  destruct (Hplain dest0 Hi He).
  split_and!; [done| |done|done|right; exists k; split].
  - apply concat_nf; [done|]. constructor; [apply wrapping_neg_range|done].
  - by apply concat_app_nf.
  - by apply concat_cancel.
Qed.

Lemma rewrite_address_dest_correct_witness :
  let (d, s) := rewrite_address_dest [Field "f"; Offset 8] [Deref] in classify d <> Address.
Proof.
  assert (nf [Field "f"; Offset 8]) as H1.
  { apply (nf_snoc [Field "f"]); [by apply nf_single| |done].
    split; vm_compute; [split|]; discriminate. }
  assert (nf [Deref]) as H2 by (by apply nf_single).
  apply (rewrite_address_dest_correct _ _ H1 H2).
Defined.

(** The classification of S3 respects the path equations: a void path stays void however it
    is extended, and an address has the location of its base, which is never an address
    ([labels(p.[k]) = labels(p)]). *)
Theorem classify_extension (p q : path) (k : Z) :
  nf p -> Forall seg_i64 q -> in_i64 k ->
  (classify p = Void -> classify (concat p q) = Void) /\
  location_of (concat p [Offset k]) = location_of p /\
  classify (location_of p) <> Address.
Proof.
  intros Hp Hq Hk. split_and!.
  - rewrite !classify_Void. intros (a & b & c & s & -> & Hs).
    destruct (concat_keeps_plain (a ++ [Value] ++ b) s c q Hs) as [r Hr].
    exists a, b, r, s. split; [|done]. rewrite <- !app_assoc in Hr. done.
  - by apply location_of_push_offset.
  - by apply ends_plain_not_address, nf_location_of.
Qed.

Lemma classify_extension_witness :
  classify (concat [Value; Field "f"] [Offset 8]) = Void.
Proof.
  assert (nf [Value; Field "f"]) as H1
    by (apply (nf_snoc [Value]); [by apply nf_single|done|done]).
  apply (classify_extension [Value; Field "f"] [Offset 8] 8 H1);
    [repeat constructor| |]; vm_compute; try split; try discriminate; reflexivity.
Defined.
