(* ===== verification/PathSyntax.v ===== *)
(** * PathSyntax: the textual grammar of paths ([ctadl-ir/src/cir/path_syntax.rs])

    The printer and the parser of [PathSegment] sequences, on UTF-8 byte strings, with the
    parser's error positions.  The loops carry fuel; [parse_segments_total] shows that the fuel
    the definitions pass is enough. *)

From S2P Require Import Prelude Text Path.

Definition DEREF : string := "deref".
Definition VALUE : string := "#value".

Inductive PathSyntaxErrorKind : Type :=
| MissingLeadingDot
| EmptySegment
| UnterminatedOffset
| InvalidOffset (contents : string)
| TrailingEscape.

Record PathSyntaxError : Type := { at_ : nat; err_kind : PathSyntaxErrorKind }.

#[export] Instance PathSyntaxErrorKind_eq_dec : EqDecision PathSyntaxErrorKind.
Proof. solve_decision. Defined.
#[export] Instance PathSyntaxError_eq_dec : EqDecision PathSyntaxError.
Proof. solve_decision. Defined.

Abbreviation parsed A := (outcome (result PathSyntaxError A)).
Definition error {A} (at_ : nat) (k : PathSyntaxErrorKind) : parsed A :=
  Ret (Err {| at_ := at_; err_kind := k |}).

(** Sequencing of [outcome (result _ _)]: the [?] operator. *)
Definition and_then {A B} (m : parsed A) (f : A -> parsed B) : parsed B :=
  match m with
  | Ret (Ok a) => f a
  | Ret (Err e) => Ret (Err e)
  | Panic => Panic
  | OutOfFuel => OutOfFuel
  end.

(** ** Parsing *)

Definition parse_i64 (s : string) : option Z :=
  let digits := snd (split_sign s) in
  if bool_decide (digits = "") || negb (all_str is_digit digits) then None
  else i64_from_str s.

(** The symbol loop of [parse_segment_at]: [rest] is [s[i..]]. *)
Fixpoint symbol_loop (fuel : nat) (rest : string) (i : nat) (name : string) (escaped_any : bool)
  : parsed (string * bool * nat) :=
  match fuel with
  | 0 => OutOfFuel
  | S fuel =>
      match rest with
      | "" => Ret (Ok (name, escaped_any, i))
      | String "." _ => Ret (Ok (name, escaped_any, i))
      | String "\" next =>
          match next_char next with
          | None => error i TrailingEscape
          | Some (ch, rest') =>
              symbol_loop fuel rest' (S i + String.length ch) (name +:+ ch) true
          end
      | _ =>
          match next_char rest with
          | None => Panic
          | Some (ch, rest') =>
              symbol_loop fuel rest' (i + String.length ch) (name +:+ ch) escaped_any
          end
      end
  end.

Definition parse_segment_at (s : string) (at_ : nat) : parsed (PathSegment * nat) :=
  match drop_str at_ s with
  | "" => error at_ EmptySegment
  | String "." _ => error at_ EmptySegment
  | String "[" _ =>
      let rest := drop_str at_ s in
      match find_char "]" rest with
      | None => error at_ UnterminatedOffset
      | Some i =>
          let close := at_ + i in
          let contents := take_str (close - (at_ + 1)) (drop_str (at_ + 1) s) in
          match parse_i64 contents with
          | None => error at_ (InvalidOffset contents)
          | Some value =>
              let end_ := close + 1 in
              match drop_str end_ s with
              | "" => Ret (Ok (Offset value, end_))
              | String "." _ => Ret (Ok (Offset value, end_))
              | _ => error end_ MissingLeadingDot
              end
          end
      end
  | rest =>
      and_then (symbol_loop (S (String.length rest)) rest at_ "" false)
        (fun '(name, escaped_any, i) =>
           let seg :=
             if bool_decide (name = DEREF) && negb escaped_any then Deref
             else if bool_decide (name = VALUE) && negb escaped_any then Value
             else Field name in
           Ret (Ok (seg, i)))
  end.

Definition parse_segment (s : string) : parsed PathSegment :=
  and_then (parse_segment_at s 0) (fun '(seg, rest_at) =>
    if decide (rest_at <> String.length s) then error rest_at MissingLeadingDot
    else Ret (Ok seg)).

Fixpoint segments_loop (fuel : nat) (s : string) (at_ : nat) (segments : path) : parsed path :=
  match fuel with
  | 0 => OutOfFuel
  | S fuel =>
      match drop_str at_ s with
      | "" => Ret (Ok segments)
      | String "." _ =>
          and_then (parse_segment_at s (at_ + 1)) (fun '(seg, next) =>
            segments_loop fuel s next (segments ++ [seg]))
      | _ => error at_ MissingLeadingDot
      end
  end.

Definition parse_segments (s : string) : parsed path :=
  segments_loop (S (String.length s)) s 0 [].

Definition parse_path (s : string) : parsed path :=
  map_ok normalize <$> parse_segments s.

(** ** Printing *)

Definition write_field_char (keyword : bool) (i : nat) (ch : string) : string :=
  if bool_decide (i = 0) && keyword then "\" +:+ ch
  else if bool_decide (ch = "\") || bool_decide (ch = ".") then "\" +:+ ch
  else if bool_decide (ch = "[") && bool_decide (i = 0) then "\["
  else ch.

(** [for (i, ch) in name.char_indices()]: [i] is a byte offset. *)
Fixpoint write_field_from (keyword : bool) (i : nat) (cs : list string) : string :=
  match cs with
  | [] => ""
  | ch :: cs' => write_field_char keyword i ch +:+ write_field_from keyword (i + String.length ch) cs'
  end.

Definition write_segment (out : string) (seg : PathSegment) : string :=
  match seg with
  | Offset value => out +:+ "[" +:+ show_Z value +:+ "]"
  | Deref => out +:+ DEREF
  | Value => out +:+ VALUE
  | Field name =>
      let keyword := bool_decide (name = DEREF) || bool_decide (name = VALUE) in
      out +:+ write_field_from keyword 0 (chars name)
  end.

Definition segment_to_string (seg : PathSegment) : string := write_segment "" seg.

Definition write_symbol (name : string) : string := write_segment "" (Field name).

Definition write_path (out : string) (segs : path) : string :=
  foldl (fun out seg => write_segment (out +:+ ".") seg) out segs.

Definition path_to_string (segs : path) : string := write_path "" segs.

(** ** Global access paths *)

Definition shift_error (n : nat) (e : PathSyntaxError) : PathSyntaxError :=
  {| at_ := at_ e + n; err_kind := err_kind e |}.

Definition parse_global_access_path (s : string) : parsed (option (string * path)) :=
  match s with
  | String "$" rest =>
      and_then (map_err (shift_error 1) <$> parse_segment_at rest 0) (fun '(seg, end_) =>
        match (match seg with
               | Field name => Some name
               | Deref => Some DEREF
               | Value => Some VALUE
               | Offset _ => None
               end) with
        | None => error 1 (InvalidOffset (take_str end_ rest))
        | Some name =>
            and_then (map_err (shift_error (1 + end_)) <$> parse_path (drop_str end_ rest))
              (fun p => Ret (Ok (Some (name, p))))
        end)
  | _ => Ret (Ok None)
  end.

(** ** The symbol loop *)

(** A string after which a segment may end: nothing, or the dot of the next segment. *)
Definition ends_segment (rest : string) : Prop :=
  rest = "" \/ exists r, rest = String "." r.

Ltac ascii_cases c := destruct c as [[] [] [] [] [] [] [] []]; try done.

Lemma is_char_ascii c t : is_char (String c t) -> (N_of_ascii c <? 128)%N = true -> t = "".
Proof.
  unfold is_char, utf8_len. intros H E. rewrite E in H. by destruct t.
Qed.

Section symbol_loop.
Context (fuel i : nat) (name : string) (esc : bool).

Lemma symbol_loop_end rest : ends_segment rest ->
  symbol_loop (S fuel) rest i name esc = Ret (Ok (name, esc, i)).
Proof. intros [->|[r ->]]; done. Qed.

Lemma symbol_loop_escape ch rest : is_char ch ->
  symbol_loop (S fuel) ("\" +:+ ch +:+ rest) i name esc =
  symbol_loop fuel rest (S i + String.length ch) (name +:+ ch) true.
Proof. intros H. cbn. by rewrite next_char_app. Qed.

Lemma symbol_loop_other c t : c <> "."%char -> c <> "\"%char ->
  symbol_loop (S fuel) (String c t) i name esc =
  match next_char (String c t) with
  | None => Panic
  | Some (ch, rest') => symbol_loop fuel rest' (i + String.length ch) (name +:+ ch) esc
  end.
Proof. intros H1 H2. ascii_cases c. Qed.

Lemma symbol_loop_plain ch rest : is_char ch -> ch <> "." -> ch <> "\" ->
  symbol_loop (S fuel) (ch +:+ rest) i name esc =
  symbol_loop fuel rest (i + String.length ch) (name +:+ ch) esc.
Proof.
  intros H H1 H2. pose proof (next_char_app ch rest H) as Hn.
  destruct ch as [|c t]; [done|]. simpl (String c t +:+ rest) in *.
  rewrite symbol_loop_other, Hn; [done|..]; intros ->; by rewrite (is_char_ascii _ _ H eq_refl) in *.
Qed.
End symbol_loop.

Lemma write_field_char_cases kw i ch :
  (write_field_char kw i ch = "\" +:+ ch) \/
  (write_field_char kw i ch = ch /\ ch <> "." /\ ch <> "\" /\ (i = 0 -> ch <> "[" /\ kw = false)).
Proof.
  unfold write_field_char. repeat case_bool_decide; destruct kw; simpl; subst; naive_solver.
Qed.

Lemma symbol_loop_field kw cs : Forall is_char cs ->
  forall i fuel pos acc esc rest, length cs < fuel -> ends_segment rest ->
  exists esc', symbol_loop fuel (write_field_from kw i cs +:+ rest) pos acc esc =
    Ret (Ok (acc +:+ concat_str cs, esc', pos + String.length (write_field_from kw i cs))) /\
    (esc = true -> esc' = true) /\ (i = 0 -> kw = true -> cs <> [] -> esc' = true).
Proof.
  induction 1 as [|ch cs Hch Hcs IH]; intros i fuel pos acc esc rest Hf Hr;
    (destruct fuel as [|fuel]; [simpl in *; lia|]).
  - exists esc. simpl (write_field_from _ _ _). rewrite symbol_loop_end by done.
    simpl. rewrite string_app_nil_r, Nat.add_0_r. done.
  - simpl (write_field_from _ _ _). rewrite <- string_app_assoc. simpl in Hf.
    destruct (write_field_char_cases kw i ch) as [->|(-> & H1 & H2 & H3)].
    + rewrite <- string_app_assoc, symbol_loop_escape by done.
      destruct (IH (i + String.length ch) fuel (S pos + String.length ch) (acc +:+ ch) true rest)
        as (esc' & -> & He & _); [lia|done|].
      exists esc'. split; [|naive_solver]. do 2 f_equal. simpl. f_equal.
      * by rewrite string_app_assoc.
      * rewrite string_length_app. simpl. lia.
    + rewrite symbol_loop_plain by done.
      destruct (IH (i + String.length ch) fuel (pos + String.length ch) (acc +:+ ch) esc rest)
        as (esc' & -> & He & _); [lia|done|].
      exists esc'. split; [|split; [done|]].
      * do 2 f_equal. simpl. rewrite string_app_assoc, string_length_app. f_equal. lia.
      * intros -> Hkw. destruct (H3 eq_refl). congruence.
Qed.

(** ** One segment *)

(** What a segment must satisfy to have a spelling: a field has a non-empty name, which is a
    Rust string; an offset is an [i64]. *)
Definition printable (s : PathSegment) : Prop :=
  match s with
  | Field name => name <> "" /\ utf8 name
  | Offset k => in_i64 k
  | _ => True
  end.
#[export] Instance printable_dec s : Decision (printable s).
Proof. destruct s; apply _. Defined.

Lemma parse_i64_show z : in_i64 z -> parse_i64 (show_Z z) = Some z.
Proof.
  intros Hz. destruct (show_Z_spec z) as (d & neg & Hs & Hd & Hne & Hv & _).
  unfold parse_i64, i64_from_str. rewrite Hs. simpl. rewrite Hd. simpl.
  rewrite bool_decide_eq_false_2 by done. simpl. rewrite Hv. by rewrite decide_True.
Qed.

Lemma parse_offset_at pre k rest : in_i64 k -> ends_segment rest ->
  parse_segment_at (pre +:+ ("[" +:+ show_Z k +:+ "]") +:+ rest) (String.length pre) =
  Ret (Ok (Offset k, String.length pre + String.length ("[" +:+ show_Z k +:+ "]"))).
Proof.
  intros Hk Hr. destruct (show_Z_spec k) as (_ & _ & _ & _ & _ & _ & Hf).
  unfold parse_segment_at. rewrite drop_str_app.
  assert (("[" +:+ show_Z k +:+ "]") +:+ rest = String "[" (show_Z k +:+ String "]" rest)) as E
    by (simpl; by rewrite <- string_app_assoc).
  rewrite E. cbn [String.append].
  assert (find_char "]" (String "[" (show_Z k +:+ String "]" rest)) = Some (S (String.length (show_Z k)))) as ->
    by (simpl; by rewrite find_char_app).
  replace (drop_str (String.length pre + 1) (pre +:+ String "[" (show_Z k +:+ String "]" rest)))
    with (show_Z k +:+ String "]" rest)
    by (by rewrite <- drop_str_drop, drop_str_app).
  replace (String.length pre + S (String.length (show_Z k)) - (String.length pre + 1))
    with (String.length (show_Z k)) by lia.
  rewrite take_str_app, parse_i64_show by done.
  replace (drop_str (String.length pre + S (String.length (show_Z k)) + 1)
            (pre +:+ String "[" (show_Z k +:+ String "]" rest))) with rest.
  2: { rewrite <- Nat.add_assoc, <- drop_str_drop, drop_str_app. simpl.
       by rewrite <- drop_str_drop, drop_str_app. }
  assert (String.length pre + S (String.length (show_Z k)) + 1 =
          String.length pre + String.length ("[" +:+ show_Z k +:+ "]")) as ->
    by (simpl; rewrite string_length_app; simpl; lia).
  destruct Hr as [->|[r ->]]; done.
Qed.

Lemma parse_symbol_at pre c t rest :
  c <> "."%char -> c <> "["%char ->
  parse_segment_at (pre +:+ String c t +:+ rest) (String.length pre) =
  and_then (symbol_loop (S (String.length (String c t +:+ rest))) (String c t +:+ rest) (String.length pre) "" false)
    (fun '(name, escaped_any, i) =>
       Ret (Ok (if bool_decide (name = DEREF) && negb escaped_any then Deref
                else if bool_decide (name = VALUE) && negb escaped_any then Value
                else Field name, i))).
Proof. intros H1 H2. unfold parse_segment_at. rewrite drop_str_app. simpl (_ +:+ rest). ascii_cases c. Qed.

Lemma chars_length_le n s : length (chars_fuel n s) <= n.
Proof. revert s; induction n; intros s; simpl; [done|]. destruct (next_char s) as [[]|]; simpl; [|lia]. pose proof (IHn s1). lia. Qed.

Lemma chars_ne s : s <> "" -> chars s <> [].
Proof. unfold chars. by destruct s. Qed.

Lemma length_cs_write kw i cs : Forall is_char cs -> length cs <= String.length (write_field_from kw i cs).
Proof.
  intros H. revert i. induction H as [|ch cs Hch _ IH]; intros i; simpl; [done|].
  rewrite string_length_app. pose proof (IH (i + String.length ch)).
  destruct ch as [|c t]; [done|].
  destruct (write_field_char_cases kw i (String c t)) as [->|(-> & _)]; simpl in *; lia.
Qed.

Lemma parse_segment_at_print pre seg rest : printable seg -> ends_segment rest ->
  parse_segment_at (pre +:+ segment_to_string seg +:+ rest) (String.length pre) =
  Ret (Ok (seg, String.length pre + String.length (segment_to_string seg))).
Proof.
  intros Hp Hr. unfold segment_to_string. destruct seg as [name|k| |]; simpl write_segment.
  - destruct Hp as [Hne Hu]. unfold utf8 in Hu.
    pose proof (concat_chars name) as Hcc. pose proof (chars_ne name Hne) as Hcs.
    set (kw := bool_decide (name = DEREF) || bool_decide (name = VALUE)).
    assert (exists c t, write_field_from kw 0 (chars name) = String c t /\
              c <> "."%char /\ c <> "["%char) as (c & t & E & Hc1 & Hc2).
    { destruct (chars name) as [|ch cs]; [done|]. apply Forall_cons in Hu as [Hch _]. simpl.
      destruct (write_field_char_cases kw 0 ch) as [->|(-> & H1 & H2 & H3)]; [by eexists _, _|].
      destruct ch as [|b u]; [done|]. eexists _, _. split; [done|].
      destruct (H3 eq_refl) as [H4 _].
      split; intros ->; by rewrite (is_char_ascii _ _ Hch eq_refl) in *. }
    rewrite E, parse_symbol_at by done. rewrite <- E.
    edestruct (symbol_loop_field kw (chars name) Hu 0) as (esc' & -> & _ & Hesc); [|done|].
    { rewrite string_length_app. pose proof (length_cs_write kw 0 _ Hu). lia. }
    simpl and_then. rewrite Hcc. simpl.
    unfold kw in Hesc. specialize (Hesc eq_refl).
    repeat case_bool_decide; simpl in *; try done; rewrite Hesc by done; done.
  - by apply parse_offset_at.
  - cbn [DEREF]. destruct Hr as [->|[r ->]].
    + rewrite string_app_nil_r. unfold parse_segment_at.
      rewrite <- (string_app_nil_r DEREF), drop_str_app. simpl.
      replace (String.length pre + 1 + 1 + 1 + 1 + 1) with (String.length pre + 5) by lia. done.
    + unfold parse_segment_at. rewrite drop_str_app. simpl.
      replace (String.length pre + 1 + 1 + 1 + 1 + 1) with (String.length pre + 5) by lia. done.
  - destruct Hr as [->|[r ->]].
    + rewrite string_app_nil_r. unfold parse_segment_at.
      rewrite <- (string_app_nil_r VALUE), drop_str_app. simpl.
      replace (String.length pre + 1 + 1 + 1 + 1 + 1 + 1) with (String.length pre + 6) by lia. done.
    + unfold parse_segment_at. rewrite drop_str_app. simpl.
      replace (String.length pre + 1 + 1 + 1 + 1 + 1 + 1) with (String.length pre + 6) by lia. done.
Qed.

(** ** Whole paths *)

Fixpoint print_path (segs : path) : string :=
  match segs with
  | [] => ""
  | s :: segs' => "." +:+ segment_to_string s +:+ print_path segs'
  end.

Lemma write_segment_app out s : write_segment out s = out +:+ segment_to_string s.
Proof. unfold segment_to_string. by destruct s. Qed.

Lemma write_path_print out segs : write_path out segs = out +:+ print_path segs.
Proof.
  unfold write_path. revert out. induction segs as [|s segs IH]; intros out;
    cbn [foldl print_path]; [by rewrite string_app_nil_r|].
  by rewrite IH, write_segment_app, !string_app_assoc.
Qed.

Lemma print_path_ends segs : ends_segment (print_path segs).
Proof. destruct segs; [by left|right]. simpl. eauto. Qed.

Lemma print_path_length segs : length segs <= String.length (print_path segs).
Proof. induction segs as [|s segs IH]; simpl; [done|]. rewrite string_length_app. lia. Qed.

Lemma segments_loop_print segs : Forall printable segs ->
  forall fuel pre acc, length segs < fuel ->
  segments_loop fuel (pre +:+ print_path segs) (String.length pre) acc = Ret (Ok (acc ++ segs)).
Proof.
  induction 1 as [|s segs Hs Hsegs IH]; intros fuel pre acc Hf;
    (destruct fuel as [|fuel]; [simpl in *; lia|]).
  - simpl. rewrite <- (string_app_nil_r pre) at 1 2.
    by rewrite string_app_nil_r, drop_str_app, app_nil_r.
  - cbn [segments_loop print_path]. rewrite drop_str_app. cbn [String.append].
    assert (pre +:+ String "." (segment_to_string s +:+ print_path segs) =
            (pre +:+ ".") +:+ segment_to_string s +:+ print_path segs) as ->
      by (by rewrite <- !string_app_assoc).
    replace (String.length pre + 1) with (String.length (pre +:+ "."))
      by (rewrite string_length_app; simpl; lia).
    rewrite parse_segment_at_print by auto using print_path_ends. simpl and_then.
    rewrite <- string_length_app.
    assert ((pre +:+ ".") +:+ segment_to_string s +:+ print_path segs =
            ((pre +:+ ".") +:+ segment_to_string s) +:+ print_path segs) as ->
      by (by rewrite !string_app_assoc).
    rewrite IH by (simpl in *; lia). by rewrite <- app_assoc.
Qed.

Lemma parse_segments_print segs : Forall printable segs ->
  parse_segments (path_to_string segs) = Ret (Ok segs).
Proof.
  intros H. unfold parse_segments, path_to_string. rewrite write_path_print. simpl ("" +:+ _).
  apply (segments_loop_print segs H _ "" []). pose proof (print_path_length segs). lia.
Qed.

(** ** Totality and error positions *)

(** [r] is a result of parsing from [at_] in [s]: a success ends strictly after [at_] and
    within [s], an error is reported within [s] and not before [at_]. *)
Definition in_bounds {A} (s : string) (at_ : nat) (r : parsed (A * nat)) : Prop :=
  match r with
  | Ret (Ok (_, next)) => at_ < next <= String.length s
  | Ret (Err e) => at_ <= PathSyntax.at_ e <= String.length s
  | Panic | OutOfFuel => False
  end.

Lemma symbol_loop_bounds fuel rest : String.length rest < fuel ->
  forall i name esc,
  match symbol_loop fuel rest i name esc with
  | Ret (Ok (_, _, j)) => i <= j <= i + String.length rest /\
      (forall c t, rest = String c t -> c <> "."%char -> i < j)
  | Ret (Err e) => i <= at_ e <= i + String.length rest
  | Panic | OutOfFuel => False
  end.
Proof.
  revert rest. induction fuel as [|fuel IH]; intros rest Hf i name esc; [lia|].
  destruct rest as [|c t]; [simpl; split; [lia|done]|].
  destruct (decide (c = "."%char)) as [->|Hdot]; [simpl; split; [lia|naive_solver]|].
  destruct (decide (c = "\"%char)) as [->|Hesc].
  - simpl. destruct (next_char t) as [[ch r]|] eqn:E; [|simpl; lia].
    pose proof (next_char_shrinks _ _ _ E). pose proof (next_char_split _ _ _ E) as ->.
    simpl in Hf. rewrite string_length_app in *.
    specialize (IH r ltac:(lia) (S (i + String.length ch)) (name +:+ ch) true). simpl in IH.
    repeat case_match; naive_solver lia.
  - rewrite symbol_loop_other by done. simpl (next_char (String c t)).
    destruct (next_char (String c t)) as [[ch r]|] eqn:E; [|done].
    injection E as E1 E2. rewrite E1, E2.
    assert (next_char (String c t) = Some (ch, r)) as E by (simpl; by rewrite E1, E2).
    pose proof (next_char_shrinks _ _ _ E) as Hlt.
    pose proof (f_equal String.length (next_char_split _ _ _ E)) as Hlen.
    rewrite string_length_app in Hlen.
    specialize (IH r ltac:(lia) (i + String.length ch) (name +:+ ch) esc).
    repeat case_match; naive_solver lia.
Qed.

Lemma parse_segment_at_bounds s at_ : at_ <= String.length s ->
  in_bounds s at_ (parse_segment_at s at_).
Proof.
  intros Hat. pose proof (drop_str_length at_ s) as Hlen. unfold parse_segment_at.
  destruct (drop_str at_ s) as [|c t] eqn:Hd; [simpl; lia|].
  destruct (decide (c = "."%char)) as [->|Hdot]; [simpl; lia|].
  destruct (decide (c = "["%char)) as [->|Hbr].
  - destruct (find_char "]" _) as [i|] eqn:Hi; [|simpl; lia].
    apply find_char_lt in Hi. rewrite Hlen in Hi.
    destruct (parse_i64 _); [|simpl; lia].
    destruct (drop_str (at_ + i + 1) s) as [|d u]; [simpl; lia|].
    destruct (decide (d = "."%char)) as [->|]; [simpl; lia|].
    assert (in_bounds (A := PathSegment) s at_ (error (at_ + i + 1) MissingLeadingDot)) by (simpl; lia).
    ascii_cases d.
  - assert (in_bounds s at_ (and_then (symbol_loop (S (String.length (String c t))) (String c t) at_ "" false)
        (fun '(name, escaped_any, i) =>
           Ret (Ok (if bool_decide (name = DEREF) && negb escaped_any then Deref
                    else if bool_decide (name = VALUE) && negb escaped_any then Value
                    else Field name, i))))) as Hsym.
    { pose proof (symbol_loop_bounds (S (String.length (String c t))) (String c t) ltac:(lia) at_ "" false) as Hb.
      destruct (symbol_loop _ _ _ _ _) as [[[[nm es] j]|e]| |]; cbn -[String.length] in *; try done; [|lia].
      destruct Hb as [Hj Hlt]. specialize (Hlt c t eq_refl Hdot). lia. }
    ascii_cases c.
Qed.

Lemma segments_loop_total s fuel : forall at_ acc,
  at_ <= String.length s -> String.length s - at_ < fuel ->
  (exists p, segments_loop fuel s at_ acc = Ret (Ok p)) \/
  (exists e, segments_loop fuel s at_ acc = Ret (Err e) /\ at_ <= PathSyntax.at_ e <= String.length s).
Proof.
  induction fuel as [|fuel IH]; intros at_ acc Hat Hf; [lia|]. cbn [segments_loop].
  pose proof (drop_str_length at_ s) as Hlen.
  destruct (drop_str at_ s) as [|c t] eqn:Hd; [eauto|]. simpl in Hlen.
  destruct (decide (c = "."%char)) as [->|Hdot].
  2: { right. exists {| PathSyntax.at_ := at_; err_kind := MissingLeadingDot |}. split; [|simpl; lia].
       ascii_cases c. }
  pose proof (parse_segment_at_bounds s (at_ + 1) ltac:(lia)) as Hb.
  destruct (parse_segment_at s (at_ + 1)) as [[[seg next]|e]| |]; simpl in *; try done.
  - destruct (IH next (acc ++ [seg]) ltac:(lia) ltac:(lia)) as [[p ->]|[e [-> ?]]]; [eauto|].
    right. exists e. split; [done|lia].
  - right. exists e. split; [done|lia].
Qed.

(** ** Properties *)

(** C39: Printing then parsing a path gives the path back, segment for segment, for every path
    whose fields have non-empty UTF-8 names and whose offsets are [i64]s, including fields named
    [deref], [#value], or with dots, backslashes and brackets in their names; [parse_path] then
    gives its normal form. *)
Theorem path_syntax_roundtrip (segs : path) :
  Forall printable segs ->
  parse_segments (path_to_string segs) = Ret (Ok segs) /\
  parse_path (path_to_string segs) = Ret (Ok (normalize segs)).
Proof. intros H. unfold parse_path. by rewrite parse_segments_print. Qed.

Lemma path_syntax_roundtrip_witness :
  let segs := [Field "deref"; Deref; Field "[_elem_]"; Offset i64_min; Field "a.b\"; Value] in
  parse_segments (path_to_string segs) = Ret (Ok segs).
Proof. intros segs. refine (proj1 (path_syntax_roundtrip segs _)). by_decide. Defined.

(** Parsing is total: on every byte string [parse_segments] returns a path or an error, with
    no panic and within the fuel it passes, and the position of an error is a position of the
    string. *)
Theorem parse_segments_total (s : string) :
  (exists p, parse_segments s = Ret (Ok p)) \/
  (exists e, parse_segments s = Ret (Err e) /\ at_ e <= String.length s).
Proof.
  unfold parse_segments.
  destruct (segments_loop_total s (S (String.length s)) 0 [] ltac:(lia) ltac:(lia)) as [?|[e [? ?]]];
    [by left|right]. exists e. split; [done|lia].
Qed.

(** A global's name, escaped by [write_symbol], and a path after it parse back to the name
    and the path's normal form, whatever the name (dots, brackets and keywords included). *)
Theorem global_access_path_roundtrip (name : string) (segs : path) :
  name <> "" -> utf8 name -> Forall printable segs ->
  parse_global_access_path ("$" +:+ write_symbol name +:+ path_to_string segs) =
    Ret (Ok (Some (name, normalize segs))).
Proof.
  intros Hne Hu Hp. unfold parse_global_access_path, write_symbol.
  change (write_segment "" (Field name)) with (segment_to_string (Field name)).
  unfold path_to_string. rewrite write_path_print. cbn [String.append].
  pose proof (parse_segment_at_print "" (Field name) (print_path segs)
                (conj Hne Hu) (print_path_ends segs)) as Hs.
  cbn [String.append String.length plus] in Hs. rewrite Hs. cbn [fmap outcome_fmap map_err and_then].
  rewrite drop_str_app.
  pose proof (parse_segments_print segs Hp) as Hps. unfold path_to_string in Hps.
  rewrite write_path_print in Hps. cbn [String.append] in Hps.
  unfold parse_path. by rewrite Hps.
Qed.

Lemma global_access_path_roundtrip_witness :
  parse_global_access_path ("$" +:+ write_symbol "g$util.c" +:+ path_to_string [Deref; Offset 4]) =
    Ret (Ok (Some ("g$util.c", [Deref; Offset 4]))).
Proof.
  refine (global_access_path_roundtrip "g$util.c" [Deref; Offset 4] _ _ _); by_decide.
Defined.
