(* ===== verification/FactPath.v ===== *)
(** * FactPath: the interned paths of the index ([ctadl-index/src/facts.rs], [Path])

    A path of the index engines is a 4-byte handle: 1 for the empty path, or the id of an interned cons cell
    ([PathNode]) that holds the first segment, the handle of the rest and a hash of the whole.  Every
    operation reads or extends the interner, so the interner is threaded through; it is used through the
    interface [IdHandle] only.  Functions that walk a path take fuel.

    The [i64] arithmetic on offsets is that of a debug build: an overflow panics. *)

From S2P Require Import Prelude Bits Index Text Path PathSyntax Interner.

#[local] Open Scope Z_scope.

(** ** Cons cells *)

Record PathNode : Type := mk_node { pn_head : PathSegment; pn_tail : option Z; pn_hash : Z }.

(** [PartialEq]: the hash is not compared. *)
Definition node_eqb (a b : PathNode) : bool := bool_decide (pn_tail a = pn_tail b /\ pn_head a = pn_head b).

Definition EMPTY_PATH_HASH : Z := 0.

(** [Path::EMPTY]. *)
Definition EMPTY : Z := 1.

Definition from_id (id : option Z) : Z := match id with Some raw => raw | None => EMPTY end.
Definition fp_id (p : Z) : option Z := if decide (p = EMPTY) then None else Some p.
Definition fp_is_empty (p : Z) : bool := bool_decide (p = EMPTY).

Inductive FormalType : Type := Copied | Shared | SharedFields.

Section paths.
Context {St : Type} `{IH : IdHandle PathNode St}.
Context (fxh : PathSegment -> Z -> Z) (seg_cmp : PathSegment -> PathSegment -> comparison).

(** [fxh head tail_hash] is what [FxHasher] returns for the two. *)
Definition suffix_hash (head : PathSegment) (tail_hash : Z) : Z :=
  let m := (fxh head tail_hash * 0x9e3779b97f4a7c15) mod 2 ^ 128 in
  u32 (Z.lxor (u64 (Z.shiftr m 64)) (u64 m)).

Definition fp_node (st : St) (p : Z) : outcome (option PathNode) :=
  match fp_id p with
  | None => Ret None
  | Some id => n ← ih_get st id; Ret (Some n)
  end.

Definition fp_suffix_hash (st : St) (p : Z) : outcome Z :=
  n ← fp_node st p; Ret match n with Some n => pn_hash n | None => EMPTY_PATH_HASH end.

Definition fp_uncons (st : St) (p : Z) : outcome (option (PathSegment * Z)) :=
  n ← fp_node st p; Ret match n with Some n => Some (pn_head n, from_id (pn_tail n)) | None => None end.

Definition fp_cons (st : St) (head : PathSegment) (tail : Z) : outcome (St * Z) :=
  h ← fp_suffix_hash st tail;
  '(st, id) ← ih_intern st (mk_node head (fp_id tail) (suffix_hash head h));
  Ret (st, from_id (Some id)).

Definition is_empty_field (s : PathSegment) : bool := match s with Field f => bool_decide (f = ""%string) | _ => false end.

Definition from_accesses (st : St) (iter : path) : outcome (St * Z) :=
  _ ← rust_assert (forallb (fun s => negb (is_empty_field s)) iter);
  foldM (fun '(st, tail) head => fp_cons st head tail) (st, EMPTY) (rev (normalize iter)).

Definition fp_head (st : St) (p : Z) : outcome (option PathSegment) := n ← fp_node st p; Ret match n with Some n => Some (pn_head n) | None => None end.

Definition fp_tail (st : St) (p : Z) : outcome Z := n ← fp_node st p; Ret match n with Some n => from_id (pn_tail n) | None => EMPTY end.

Definition with_head (st : St) (p : Z) (head : PathSegment) : outcome (St * Z) :=
  _ ← rust_assert (negb (fp_is_empty p));
  tail ← fp_tail st p; fp_cons st head tail.

Definition head_offset (st : St) (p : Z) : outcome (option Z) :=
  h ← fp_head st p; Ret match h with Some (Offset n) => Some n | _ => None end.

Definition fp_is_value (st : St) (p : Z) : outcome bool :=
  u ← fp_uncons st p; Ret match u with Some (head, tail) => is_value head && fp_is_empty tail | None => false end.

(** The segments a [PathIter] yields. *)
Fixpoint fp_iter (fuel : nat) (st : St) (p : Z) : outcome path :=
  match fuel with
  | 0%nat => OutOfFuel
  | S fuel =>
      n ← fp_node st p;
      match n with
      | None => Ret []
      | Some n => rest ← fp_iter fuel st (from_id (pn_tail n)); Ret (pn_head n :: rest)
      end
  end.

Definition fp_len (fuel : nat) (st : St) (p : Z) : outcome nat := l ← fp_iter fuel st p; Ret (length l).

Definition fp_from_raw (st : St) (raw : Z) : outcome (option Z) :=
  if decide (raw = EMPTY) then Ret (Some EMPTY)
  else id ← ih_from_raw st raw; Ret match id with Some id => Some (from_id (Some id)) | None => None end.

Definition fp_is_valid (st : St) (p : Z) : outcome bool :=
  if fp_is_empty p then Ret true else id ← ih_from_raw st p; Ret (bool_decide (is_Some id)).

Fixpoint fp_content_cmp (fuel : nat) (st : St) (a b : Z) : outcome comparison :=
  match fuel with
  | 0%nat => OutOfFuel
  | S fuel =>
      if decide (a = b) then Ret Eq
      else
        na ← fp_node st a;
        nb ← fp_node st b;
        match na, nb with
        | None, _ => Ret Lt
        | _, None => Ret Gt
        | Some x, Some y =>
            match seg_cmp (pn_head x) (pn_head y) with
            | Eq => fp_content_cmp fuel st (from_id (pn_tail x)) (from_id (pn_tail y))
            | unequal => Ret unequal
            end
        end
  end.

(** [Path::parse] and [to_dot_string]. *)
Definition fp_parse (st : St) (s : string) : outcome (St * result PathSyntaxError Z) :=
  r ← parse_segments s;
  match r with
  | Ok segs => '(st, p) ← from_accesses st segs; Ret (st, Ok p)
  | Err e => Ret (st, Err e)
  end.

Definition to_dot_string (fuel : nat) (st : St) (p : Z) : outcome string := l ← fp_iter fuel st p; Ret (path_to_string l).

Definition fp_concat (fuel : nat) (st : St) (p other : Z) : outcome (St * Z) :=
  a ← fp_iter fuel st p; b ← fp_iter fuel st other; from_accesses st (a ++ b).

(** ** Prefixes *)

(** The loop over all components of the prefix but the last. *)
Fixpoint match_loop (fuel : nat) (st : St) (path_seq prefix_seq : Z) : outcome (option (Z * Z)) :=
  match fuel with
  | 0%nat => OutOfFuel
  | S fuel =>
      prefix_tail ← fp_tail st prefix_seq;
      if fp_is_empty prefix_tail then Ret (Some (path_seq, prefix_seq))
      else
        a ← fp_head st prefix_seq;
        b ← fp_head st path_seq;
        if decide (a <> b) then Ret None
        else path_tail ← fp_tail st path_seq; match_loop fuel st path_tail prefix_tail
  end.

Definition match_prefix_split (fuel : nat) (st : St) (p prefix : Z) : outcome (option (option Z * Z)) :=
  if fp_is_empty prefix then Ret (Some (None, p))
  else
    r ← match_loop fuel st p prefix;
    match r with
    | None => Ret None
    | Some (path_seq, prefix_seq) =>
        prefix_last ← fp_head st prefix_seq;
        prefix_last ← unwrap prefix_last;
        path_last ← fp_head st path_seq;
        match path_last with
        | None => Ret None
        | Some path_last =>
            tail ← fp_tail st path_seq;
            match path_last, prefix_last with
            | Offset an, Offset pn =>
                if decide (an <> pn) then d ← sub_i64 an pn; Ret (Some (Some d, tail)) else Ret (Some (None, tail))
            | Value, Offset _ => Ret (Some (None, path_seq))
            | a, b => if decide (a = b) then Ret (Some (None, tail)) else Ret None
            end
        end
    end.

Definition match_prefix (fuel : nat) (st : St) (p prefix : Z) : outcome (St * option Z) :=
  r ← match_prefix_split fuel st p prefix;
  match r with
  | None => Ret (st, None)
  | Some (Some adj, rest) => '(st, t) ← fp_cons st (Offset adj) rest; Ret (st, Some t)
  | Some (None, rest) => Ret (st, Some rest)
  end.

Definition prepend_onto (fuel : nat) (st : St) (new_prefix suffix : Z) : outcome (St * Z) :=
  comps ← fp_iter fuel st new_prefix;
  match split_last comps with
  | None => Ret (st, suffix)
  | Some (init, last) =>
      head ← fp_head st suffix;
      '(st, acc, upto) ← match last, head with
        | Offset a, Some (Offset b) =>
            sum ← add_i64 a b;
            if decide (sum = 0) then rest ← fp_tail st suffix; Ret (st, rest, init)
            else '(st, rest) ← with_head st suffix (Offset sum); Ret (st, rest, init)
        | Offset _, Some Value => Ret (st, suffix, init)
        | Value, Some (Offset _) | Value, Some Value => rest ← fp_tail st suffix; Ret (st, rest, comps)
        | _, _ => Ret (st, suffix, comps)
        end;
      foldM (fun '(st, acc) comp => fp_cons st comp acc) (st, acc) (rev upto)
  end.

Definition substitute_prefix (fuel : nat) (st : St) (p prefix new_prefix : Z) : outcome (St * option Z) :=
  '(st, suffix) ← match_prefix fuel st p prefix;
  match suffix with
  | None => Ret (st, None)
  | Some suffix => '(st, r) ← prepend_onto fuel st new_prefix suffix; Ret (st, Some r)
  end.

Definition substitute_prefix_with_nonempty_suffix (fuel : nat) (st : St) (p prefix new_prefix : Z) : outcome (St * option Z) :=
  '(st, suffix) ← match_prefix fuel st p prefix;
  match suffix with
  | None => Ret (st, None)
  | Some suffix => if fp_is_empty suffix then Ret (st, None) else '(st, r) ← prepend_onto fuel st new_prefix suffix; Ret (st, Some r)
  end.

(** The [for] loop of [is_extension_of], one component of the port and one of the path at a time. *)
Fixpoint is_prefix_of (port l : path) : bool :=
  match port, l with
  | [], _ => true
  | p :: port, c :: l => if decide (c = p) then is_prefix_of port l else false
  | _ :: _, [] => false
  end.

Definition is_extension_of (fuel : nat) (st : St) (p port : Z) : outcome bool :=
  l ← fp_iter fuel st p; ps ← fp_iter fuel st port; Ret (is_prefix_of ps l).

(** ** Splits *)

Definition prefix_keys (fuel : nat) (st : St) (p : Z) : outcome (St * list (Z * Z)) :=
  comps ← fp_iter fuel st p;
  '(st, (out, _)) ← foldM (fun '(st, (out, rest)) k =>
      '(st, key) ← from_accesses st (take k comps);
      tail ← fp_tail st rest;
      Ret (st, (out ++ [(key, rest)], tail))) (st, ([], p)) (seq 0 (S (length comps)));
  Ret (st, out).

Definition prefix_keys_wild (fuel : nat) (st : St) (p : Z) : outcome (St * list (Z * Z)) :=
  comps ← fp_iter fuel st p;
  '(st, (out, _)) ← foldM (fun '(st, (out, rest)) '(k, comp) =>
      '(st, out) ← (if is_offset comp || is_value comp then '(st, key) ← from_accesses st (take k comps); Ret (st, out ++ [(key, rest)]) else Ret (st, out));
      tail ← fp_tail st rest;
      Ret (st, (out, tail))) (st, ([], p)) (enumerate comps);
  Ret (st, out).

Definition wild_rest (st : St) (rest m : Z) : outcome (option (Z * Z)) :=
  head ← fp_head st rest;
  match head with
  | Some (Offset n) => if decide (n <> m) then d ← sub_i64 n m; tail ← fp_tail st rest; Ret (Some (d, tail)) else Ret None
  | Some Value => Ret (Some (0, rest))
  | _ => Ret None
  end.

Definition split_trailing_offset (fuel : nat) (st : St) (p : Z) : outcome (St * option (Z * Z)) :=
  comps ← fp_iter fuel st p;
  match split_last comps with
  | Some (init, Offset m) => '(st, key) ← from_accesses st init; Ret (st, Some (key, m))
  | _ => Ret (st, None)
  end.

(** Whether a flow into [path] of the formal reaches the caller. *)
Definition isout (st : St) (formal_index : Z) (formal_type : FormalType) (p : Z) : outcome bool :=
  if decide (0 <= formal_index) then
    match formal_type with
    | Copied => Ret false
    | Shared => Ret true
    | SharedFields => if fp_is_empty p then Ret false else v ← fp_is_value st p; Ret (negb v)
    end
  else Ret true.
End paths.

Definition isin (formal : Z) : bool := bool_decide (formal = -3 \/ 0 <= formal).

(** ** What a handle denotes *)

(** The paths of the index: normal forms without empty field names. *)
Definition fact_path (l : path) : Prop := nf l /\ Forall (fun s => is_empty_field s = false) l.

Lemma fact_path_app l r : fact_path (l ++ r) -> fact_path l /\ fact_path r.
Proof. intros [H1 [H2 H3]%Forall_app]. split; (split; [|done]); [by eapply nf_app_l|by eapply nf_app_r]. Qed.

Lemma fact_path_cons s l : fact_path (s :: l) -> fact_path l.
Proof. apply (fact_path_app [s]). Qed.

Lemma fact_path_i64 l : fact_path l -> Forall seg_i64 l.
Proof. intros [H _]. by apply nf_i64. Qed.

Section facts.
Context {St : Type} `{IH : IdHandle PathNode St}.
Context (fxh : PathSegment -> Z -> Z) (seg_cmp : PathSegment -> PathSegment -> comparison).
(** The interner compares nodes with their [PartialEq] and never issues the handle of the empty path. *)
Context (Heqb : forall a b : PathNode, ih_eqb a b = node_eqb a b) (Hfirst : EMPTY < ih_first).

Abbreviation suffix_hash := (suffix_hash fxh).
Abbreviation fp_cons := (fp_cons fxh).
Abbreviation from_accesses := (from_accesses fxh).

Inductive denotes (st : St) : Z -> path -> Prop :=
| denotes_nil : denotes st EMPTY []
| denotes_cons id n l : ih_names st id n -> denotes st (from_id (pn_tail n)) l -> denotes st id (pn_head n :: l).

Definition seg_hash (l : path) : Z := foldr suffix_hash EMPTY_PATH_HASH l.

(** Every interned cell is the head of a path, with its hash. *)
Record paths_ok (st : St) : Prop := {
  po_ok : ih_ok st;
  po_nodes : forall id n, ih_names st id n -> exists l, denotes st (from_id (pn_tail n)) l /\ pn_hash n = seg_hash (pn_head n :: l) /\
    pn_tail n <> Some EMPTY /\ fact_path (pn_head n :: l);
}.

Definition grows (st st' : St) : Prop := forall id n, ih_names st id n -> ih_names st' id n.

Lemma grows_refl st : grows st st.
Proof. by intros id n. Qed.

Lemma grows_trans st st' st'' : grows st st' -> grows st' st'' -> grows st st''.
Proof. intros H1 H2 id n Hn. by apply H2, H1. Qed.

Lemma denotes_grows st st' p l : grows st st' -> denotes st p l -> denotes st' p l.
Proof. intros Hg. induction 1; constructor; auto. Qed.

Lemma names_not_empty st id n : paths_ok st -> ih_names st id n -> id <> EMPTY.
Proof. intros Hok Hn. pose proof (ih_range _ _ _ (po_ok _ Hok) Hn). lia. Qed.

Lemma names_node_fun st id n n' : ih_names st id n -> ih_names st id n' -> n = n'.
Proof. intros H%ih_get_names H'%ih_get_names. congruence. Qed.

Lemma denotes_fun st p l l' : paths_ok st -> denotes st p l -> denotes st p l' -> l = l'.
Proof.
  intros Hok H. revert l'. induction H as [|id n l Hn H IHd]; intros l'.
  - inversion 1 as [|id n l Hn H']; [done|]. by apply (names_not_empty _ _ _ Hok) in Hn.
  - inversion 1 as [E|id' n' l'' Hn' H']; [symmetry in E; by apply (names_not_empty _ _ _ Hok) in Hn|]. subst.
    assert (n' = n) as -> by (by eapply names_node_fun). f_equal. by apply IHd.
Qed.

Lemma from_id_inj a b : a <> Some EMPTY -> b <> Some EMPTY -> from_id a = from_id b -> a = b.
Proof. destruct a, b; simpl; congruence. Qed.

Lemma node_unique st id id' n n' p l : paths_ok st -> ih_names st id n -> ih_names st id' n' -> pn_head n = pn_head n' ->
  from_id (pn_tail n) = p -> from_id (pn_tail n') = p -> denotes st p l -> n = n'.
Proof.
  intros Hok Hn Hn' Eh Et Et' Hl. destruct (po_nodes _ Hok _ _ Hn) as (l1 & H1 & E1 & N1 & _). destruct (po_nodes _ Hok _ _ Hn') as (l2 & H2 & E2 & N2 & _).
  assert (pn_tail n = pn_tail n') as Etl by (apply from_id_inj; congruence). rewrite Et in H1. rewrite Et' in H2.
  assert (l1 = l) as -> by (by eapply denotes_fun). assert (l2 = l) as -> by (by eapply denotes_fun).
  destruct n, n'. simpl in *. congruence.
Qed.

Lemma denotes_inj st p q l : paths_ok st -> denotes st p l -> denotes st q l -> p = q.
Proof.
  intros Hok H. revert q. induction H as [|id n l Hn H IHd]; intros q; [by inversion 1|].
  inversion 1 as [|id' n' l' Hn' H' Eid El]. subst. apply (ih_names_inj st _ _ n); [done|].
  assert (n = n') as -> by (eapply node_unique; [done..|symmetry; by apply IHd|done]). done.
Qed.

Lemma denotes_fact st p l : paths_ok st -> denotes st p l -> fact_path l.
Proof.
  intros Hok H. destruct H as [|id n l Hn H]; [split; constructor|]. destruct (po_nodes _ Hok _ _ Hn) as (l' & H' & _ & _ & Hf).
  by rewrite (denotes_fun _ _ _ _ Hok H H').
Qed.

Lemma denotes_empty st p l : paths_ok st -> denotes st p l -> p = EMPTY <-> l = [].
Proof.
  intros Hok H. destruct H as [|id n l Hn H]; [done|]. split; [|done]. intros ->. by apply (names_not_empty _ _ _ Hok) in Hn.
Qed.

(** ** Reading *)

Lemma fp_node_spec st p l : paths_ok st -> denotes st p l ->
  (p = EMPTY /\ l = [] /\ fp_node st p = Ret None) \/
  exists n l', p <> EMPTY /\ l = pn_head n :: l' /\ fp_node st p = Ret (Some n) /\ denotes st (from_id (pn_tail n)) l' /\ pn_hash n = seg_hash l.
Proof.
  intros Hok H. unfold fp_node, fp_id. destruct H as [|id n l Hn H]; [by left; rewrite decide_True|].
  right. pose proof (names_not_empty _ _ _ Hok Hn). rewrite decide_False by done. exists n, l. rewrite (ih_get_names _ _ _ Hn). split_and!; [done..|].
  destruct (po_nodes _ Hok _ _ Hn) as (l' & H' & -> & _). by rewrite (denotes_fun _ _ _ _ Hok H H').
Qed.

Lemma fp_head_spec st p l : paths_ok st -> denotes st p l -> fp_head st p = Ret (head l).
Proof. intros Hok H. unfold fp_head. destruct (fp_node_spec _ _ _ Hok H) as [(_ & -> & ->)|(n & l' & _ & -> & -> & _)]; done. Qed.

Lemma fp_tail_spec st p l : paths_ok st -> denotes st p l -> exists q, fp_tail st p = Ret q /\ denotes st q (tail l).
Proof.
  intros Hok H. unfold fp_tail. destruct (fp_node_spec _ _ _ Hok H) as [(_ & -> & ->)|(n & l' & _ & -> & -> & H' & _)]; cbn [mbind outcome_bind];
    eexists; (split; [done|]); [constructor|done].
Qed.

Lemma fp_suffix_hash_spec st p l : paths_ok st -> denotes st p l -> fp_suffix_hash st p = Ret (seg_hash l).
Proof.
  intros Hok H. unfold fp_suffix_hash. destruct (fp_node_spec _ _ _ Hok H) as [(_ & -> & ->)|(n & l' & _ & -> & -> & _ & Eh)]; cbn [mbind outcome_bind]; [done|]. by rewrite Eh.
Qed.

Lemma fp_iter_spec fuel st p l : paths_ok st -> denotes st p l -> (length l < fuel)%nat -> fp_iter fuel st p = Ret l.
Proof.
  intros Hok. revert p l. induction fuel as [|fuel IHf]; intros p l H Hf; [lia|]. cbn [fp_iter].
  destruct (fp_node_spec _ _ _ Hok H) as [(_ & -> & ->)|(n & l' & _ & -> & -> & H' & _)]; cbn [mbind outcome_bind]; [done|].
  rewrite (IHf _ _ H') by (simpl in Hf; lia). done.
Qed.

Lemma fp_empty_spec st p l : paths_ok st -> denotes st p l -> fp_is_empty p = bool_decide (l = []).
Proof. intros Hok H. unfold fp_is_empty. apply bool_decide_ext. by eapply denotes_empty. Qed.

(** ** Writing

    An operation that interns returns with a larger interner, or panics because the interner is full. *)

Definition interner_full (st : St) : Prop := exists st' n, paths_ok st' /\ grows st st' /\ ih_full st' n.

Definition runs {X} (st : St) (o : outcome (St * X)) (Q : St -> X -> Prop) : Prop :=
  (exists st' x, o = Ret (st', x) /\ paths_ok st' /\ grows st st' /\ Q st' x) \/ (o = Panic /\ interner_full st).

Lemma runs_ret {X} st (x : X) (Q : St -> X -> Prop) : paths_ok st -> Q st x -> runs st (Ret (st, x)) Q.
Proof. intros Hok HQ. left. eexists _, _. split; [done|]. split; [done|]. split; [apply grows_refl|done]. Qed.

Lemma runs_bind {X Y} st (m : outcome (St * X)) (f : St * X -> outcome (St * Y)) (Q : St -> X -> Prop) (R : St -> Y -> Prop) : runs st m Q ->
  (forall st' x, paths_ok st' -> grows st st' -> Q st' x -> runs st' (f (st', x)) R) -> runs st (mbind f m) R.
Proof.
  intros [(st' & x & -> & Hok & Hg & HQ)|(-> & Hfull)] Hf; [|by right]. cbn [mbind outcome_bind].
  destruct (Hf st' x Hok Hg HQ) as [(st2 & y & E & Hok2 & Hg2 & HR)|(E & st2 & n & Hok2 & Hg2 & Hn)].
  - left. exists st2, y. split_and!; [done..|by eapply grows_trans|done].
  - right. split; [done|]. exists st2, n. split_and!; [done|by eapply grows_trans|done].
Qed.

Lemma runs_mono {X} st (m : outcome (St * X)) (Q R : St -> X -> Prop) : runs st m Q ->
  (forall st' x, paths_ok st' -> grows st st' -> Q st' x -> R st' x) -> runs st m R.
Proof. intros [(st' & x & -> & Hok & Hg & HQ)|Hfull] H; [left|by right]. exists st', x. eauto. Qed.

Lemma fp_cons_spec st s p l : paths_ok st -> denotes st p l -> fact_path (s :: l) -> runs st (fp_cons st s p) (fun st' q => denotes st' q (s :: l)).
Proof.
  intros Hok H Hf. unfold FactPath.fp_cons. rewrite (fp_suffix_hash_spec _ _ _ Hok H). cbn [mbind outcome_bind].
  set (n := mk_node s (fp_id p) (suffix_hash s (seg_hash l))). assert (from_id (pn_tail n) = p) as Ep by (simpl; unfold fp_id; by destruct (decide (p = EMPTY))).
  assert (pn_tail n <> Some EMPTY) as Hne by (simpl; unfold fp_id; destruct (decide (p = EMPTY)); congruence).
  destruct (ih_intern_names st n (po_ok _ Hok)) as [(st' & id & -> & Hok' & Hn)|(-> & Hfull)].
  - intros raw w Hw. rewrite Heqb. unfold node_eqb. rewrite bool_decide_eq_true. split; [|by intros ->]. intros [Et Eh].
    destruct (po_nodes _ Hok _ _ Hw) as (l' & Hl' & Eh' & _). rewrite Et, Ep in Hl'. rewrite (denotes_fun _ _ _ _ Hok Hl' H) in Eh'. destruct w. simpl in *. subst. done.
  - cbn [mbind outcome_bind]. left. exists st', id. split; [done|]. assert (grows st st') as Hg by (intros raw w Hw; apply Hn; by left).
    assert (denotes st' p l) as H' by (by eapply denotes_grows). split; [split; [done|]|].
    + intros raw w [Hw|[-> ->]]%Hn.
      * destruct (po_nodes _ Hok _ _ Hw) as (l' & Hl' & ?). exists l'. split; [by eapply denotes_grows|done].
      * exists l. rewrite Ep. by split_and!.
    + split; [done|]. change s with (pn_head n). constructor; [apply Hn; by right|by rewrite Ep].
  - right. cbn [mbind outcome_bind]. split; [done|]. exists st, n. split_and!; [done|apply grows_refl|done].
Qed.

(** Consing a list, last segment first. *)
Lemma cons_all_spec l st p r : paths_ok st -> denotes st p r -> fact_path (l ++ r) ->
  runs st (foldM (fun '(st, tail) s => fp_cons st s tail) (st, p) (rev l)) (fun st' q => denotes st' q (l ++ r)).
Proof.
  revert st p r. induction l as [|s l IHl] using rev_ind; intros st p r Hok H Hf; [by apply runs_ret|].
  rewrite rev_unit. rewrite <- app_assoc in Hf |- *. cbn [foldM].
  apply (runs_bind st (fp_cons st s p) (fun x => foldM (fun '(st, tail) s => fp_cons st s tail) x (rev l)) (fun st' q => denotes st' q (s :: r))).
  - apply fp_cons_spec; [done..|]. by apply fact_path_app in Hf as [_ ?].
  - intros st' q Hok' _ H'. by apply IHl.
Qed.

Lemma push_fields out s : Forall (fun s => is_empty_field s = false) out -> is_empty_field s = false -> Forall (fun s => is_empty_field s = false) (push_normalized out s).
Proof.
  intros Ho Hs. assert (forall i x, split_last out = Some (i, x) -> Forall (fun s => is_empty_field s = false) i) as Hi.
  { intros i x ->%split_last_Some. by apply Forall_app in Ho as [? _]. }
  assert (forall o x, Forall (fun s => is_empty_field s = false) o -> is_empty_field x = false -> Forall (fun s => is_empty_field s = false) (o ++ [x])) as Happ
    by (intros; apply Forall_app; split; [done|by constructor]).
  destruct s as [f|k| |]; simpl; try (by apply Happ).
  - destruct (split_last out) as [[i []]|] eqn:E; repeat case_decide; eauto.
  - destruct (split_last out) as [[i []]|] eqn:E; rewrite ?E; eauto. destruct (split_last i) as [[i' []]|]; eauto.
Qed.

Lemma concat_fields a l : Forall (fun s => is_empty_field s = false) a -> Forall (fun s => is_empty_field s = false) l -> Forall (fun s => is_empty_field s = false) (concat a l).
Proof. intros Ha Hl. revert a Ha. induction Hl as [|s l Hs Hl IHl]; intros a Ha; [done|]. cbn. apply IHl. by apply push_fields. Qed.

Lemma concat_fact a b : fact_path a -> fact_path b -> fact_path (concat a b).
Proof. intros [Ha Ha'] [Hb Hb']. split; [apply concat_nf; [done|by apply nf_i64]|by apply concat_fields]. Qed.

Lemma normalize_fact l : Forall seg_i64 l -> Forall (fun s => is_empty_field s = false) l -> fact_path (normalize l).
Proof. intros H1 H2. split; [by apply normalize_nf|]. by apply (concat_fields []). Qed.

Lemma from_accesses_spec st l : paths_ok st -> Forall seg_i64 l -> Forall (fun s => is_empty_field s = false) l ->
  runs st (from_accesses st l) (fun st' q => denotes st' q (normalize l)).
Proof.
  intros Hok Hl He. unfold FactPath.from_accesses. assert (forallb (fun s => negb (is_empty_field s)) l = true) as ->.
  { apply forallb_forall. intros s Hs%list_elem_of_In. rewrite Forall_forall in He. by rewrite He. }
  cbn [rust_assert mbind outcome_bind]. pose proof (cons_all_spec (normalize l) st EMPTY []) as H. rewrite app_nil_r in H.
  apply H; [done|constructor|by apply normalize_fact].
Qed.

Lemma from_fact_path st l : paths_ok st -> fact_path l -> runs st (from_accesses st l) (fun st' q => denotes st' q l).
Proof.
  intros Hok [Hl He]. eapply runs_mono; [apply from_accesses_spec; [done|by apply nf_i64|done]|]. intros st' q _ _. by rewrite normalize_id.
Qed.

(** ** Prefixes, on segments *)

Definition match_last (x last : PathSegment) (tl : path) : outcome (option (option Z * path)) :=
  match x, last with
  | Offset an, Offset pn => if decide (an <> pn) then d ← sub_i64 an pn; Ret (Some (Some d, tl)) else Ret (Some (None, tl))
  | Value, Offset _ => Ret (Some (None, x :: tl))
  | a, b => if decide (a = b) then Ret (Some (None, tl)) else Ret None
  end.

Definition match_segs (p prefix : path) : outcome (option (option Z * path)) :=
  match split_last prefix with
  | None => Ret (Some (None, p))
  | Some (init, last) =>
      if decide (take (length init) p = init) then match drop (length init) p with [] => Ret None | x :: tl => match_last x last tl end
      else Ret None
  end.

(** The suffix [match_prefix] builds. *)
Definition suffix_of (adjust : option Z) (l : path) : path := match adjust with Some d => Offset d :: l | None => l end.

Lemma match_loop_spec init last fuel st p q ps : paths_ok st -> denotes st p ps -> denotes st q (init ++ [last]) -> (length init < fuel)%nat ->
  exists r, match_loop fuel st p q = Ret r /\
    if decide (take (length init) ps = init) then exists p' q', r = Some (p', q') /\ denotes st p' (drop (length init) ps) /\ denotes st q' [last] else r = None.
Proof.
  intros Hok. revert p q ps fuel. induction init as [|x init IHi]; intros p q ps fuel Hp Hq Hf; (destruct fuel as [|fuel]; [lia|]); cbn [match_loop].
  - destruct (fp_tail_spec _ _ _ Hok Hq) as (t & -> & Ht). cbn [mbind outcome_bind]. rewrite (fp_empty_spec _ _ _ Hok Ht), bool_decide_eq_true_2 by done.
    eexists. split; [done|]. rewrite decide_True by done. eauto.
  - destruct (fp_tail_spec _ _ _ Hok Hq) as (t & -> & Ht). cbn [mbind outcome_bind tail app]. rewrite (fp_empty_spec _ _ _ Hok Ht), bool_decide_eq_false_2 by (by destruct init).
    rewrite (fp_head_spec _ _ _ Hok Hq), (fp_head_spec _ _ _ Hok Hp). cbn [mbind outcome_bind head app].
    destruct (fp_tail_spec _ _ _ Hok Hp) as (tp & Etp & Htp). destruct ps as [|y ps]; cbn [head tail] in *.
    + rewrite decide_True by done. eexists. split; [done|]. by rewrite decide_False.
    + destruct (decide _) as [Hne|He].
      * eexists. split; [done|]. rewrite decide_False; [done|]. simpl. congruence.
      * assert (y = x) as -> by (destruct (decide (y = x)); [done|]; exfalso; apply He; congruence). rewrite Etp. cbn [mbind outcome_bind].
        destruct (IHi tp t ps fuel Htp Ht ltac:(simpl in Hf; lia)) as (r & -> & Hr). eexists. split; [done|]. simpl.
        destruct (decide (take (length init) ps = init)) as [E|E]; [rewrite decide_True by (by rewrite E)|rewrite decide_False by congruence]; done.
Qed.

(** [match_prefix_split] answers as [match_segs] does. *)
Lemma match_prefix_split_spec fuel st p q ps qs : paths_ok st -> denotes st p ps -> denotes st q qs -> (length qs <= fuel)%nat ->
  match match_segs ps qs with
  | Ret None => match_prefix_split fuel st p q = Ret None
  | Ret (Some (adjust, l)) => exists r, match_prefix_split fuel st p q = Ret (Some (adjust, r)) /\ denotes st r l
  | Panic => match_prefix_split fuel st p q = Panic
  | OutOfFuel => False
  end.
Proof.
  intros Hok Hp Hq Hf. unfold match_prefix_split, match_segs. rewrite (fp_empty_spec _ _ _ Hok Hq). destruct (split_last qs) as [[init last]|] eqn:E.
  2:{ apply split_last_None in E as ->. rewrite bool_decide_eq_true_2 by done. eauto. }
  apply split_last_Some in E as ->. rewrite bool_decide_eq_false_2 by (by destruct init). rewrite length_app in Hf. simpl in Hf.
  destruct (match_loop_spec init last fuel st p q ps Hok Hp Hq) as (r & -> & Hr); [lia|]. cbn [mbind outcome_bind].
  destruct (decide (take (length init) ps = init)); [|by subst r]. destruct Hr as (p' & q' & -> & Hp' & Hq').
  rewrite (fp_head_spec _ _ _ Hok Hq'), (fp_head_spec _ _ _ Hok Hp'). cbn [mbind outcome_bind head unwrap].
  destruct (drop (length init) ps) as [|x tl]; [done|]. cbn [head]. destruct (fp_tail_spec _ _ _ Hok Hp') as (t & -> & Ht). cbn [mbind outcome_bind tail] in *.
  unfold match_last. destruct x as [f|an| |], last as [g|pn| |]; repeat case_decide; eauto; try done.
  unfold sub_i64. case_decide; cbn [mbind outcome_bind]; eauto.
Qed.

Lemma match_segs_fact ps qs adjust l : fact_path ps -> match_segs ps qs = Ret (Some (adjust, l)) -> fact_path (suffix_of adjust l).
Proof.
  intros Hps. unfold match_segs. destruct (split_last qs) as [[init last]|]; [|by intros [= <- <-]]. destruct (decide _) as [E|]; [|done].
  rewrite <- (take_drop (length init) ps) in Hps. apply fact_path_app in Hps as [_ Hd]. destruct (drop (length init) ps) as [|x tl]; [done|].
  pose proof (fact_path_cons _ _ Hd) as Htl. unfold match_last.
  destruct x as [f|an| |], last as [g|pn| |]; repeat case_decide; try done; try (by intros [= <- <-]).
  unfold sub_i64. case_decide; cbn [mbind outcome_bind]; [|done]. intros [= <- <-]. destruct Hd as [Hn He]. apply nf_cons_inv in Hn as (_ & Hn & Hj).
  split; [|constructor; [done|by inversion He]]. apply nf_cons; [split; [done|lia]|done|]. destruct (head tl) as [[]|]; done.
Qed.

Lemma match_prefix_spec fuel st p q ps qs : paths_ok st -> denotes st p ps -> denotes st q qs -> (length qs <= fuel)%nat ->
  match match_segs ps qs with
  | Ret None => match_prefix fxh fuel st p q = Ret (st, None)
  | Ret (Some (adjust, l)) => runs st (match_prefix fxh fuel st p q) (fun st' r => exists t, r = Some t /\ denotes st' t (suffix_of adjust l))
  | _ => match_prefix fxh fuel st p q = Panic
  end.
Proof.
  intros Hok Hp Hq Hf. pose proof (match_prefix_split_spec fuel st p q ps qs Hok Hp Hq Hf) as H. unfold match_prefix.
  destruct (match_segs ps qs) as [[[adjust l]|]| |] eqn:E; [| |by rewrite H|done].
  - destruct H as (r & -> & Hr). cbn [mbind outcome_bind]. pose proof (match_segs_fact _ _ _ _ (denotes_fact _ _ _ Hok Hp) E) as Hl.
    destruct adjust as [d|]; [|by apply runs_ret; eauto]. eapply runs_bind; [by apply fp_cons_spec|]. intros st' t Hok' _ Ht. apply runs_ret; eauto.
  - rewrite H. done.
Qed.

(** ** Prepending *)

(** The offsets that meet, if any, sum to an [i64]. *)
Definition junction_fits (a b : path) : Prop :=
  match last a, head b with Some (Offset x), Some (Offset y) => in_i64 (x + y) | _, _ => True end.

Lemma prepend_onto_spec fuel st p q a b : paths_ok st -> denotes st p a -> denotes st q b -> (length a < fuel)%nat -> junction_fits a b ->
  runs st (prepend_onto fxh fuel st p q) (fun st' r => denotes st' r (concat a b)).
Proof.
  intros Hok Hp Hq Hf Hfit. pose proof (denotes_fact _ _ _ Hok Hp) as Ha. pose proof (denotes_fact _ _ _ Hok Hq) as Hb.
  pose proof (concat_fact _ _ Ha Hb) as Hab. unfold prepend_onto. rewrite (fp_iter_spec _ _ _ _ Hok Hp Hf). cbn [mbind outcome_bind].
  destruct (split_last a) as [[i s]|] eqn:E.
  2:{ apply split_last_None in E as ->. apply runs_ret; [done|]. rewrite concat_nil_l. destruct Hb. by rewrite normalize_id. }
  apply split_last_Some in E as ->. rewrite (fp_head_spec _ _ _ Hok Hq). cbn [mbind outcome_bind]. unfold junction_fits in Hfit. rewrite last_snoc in Hfit.
  assert (forall st' acc l upto, paths_ok st' -> denotes st' acc l -> concat (i ++ [s]) b = upto ++ l ->
    runs st' (foldM (fun '(st, acc) comp => fp_cons st comp acc) (st', acc) (rev upto)) (fun st' r => denotes st' r (concat (i ++ [s]) b))) as Hrest.
  { intros st' acc l upto Hok' Hl E. rewrite E in Hab |- *. by apply cons_all_spec. }
  destruct (fp_tail_spec _ _ _ Hok Hq) as (t & Et & Ht). destruct b as [|y b]; cbn [head tail] in *.
  { assert (concat (i ++ [s]) [] = (i ++ [s]) ++ []) as E by (by rewrite app_nil_r).
    destruct s; cbn [mbind outcome_bind]; apply (Hrest _ _ [] (i ++ [_])); try done. }
  destruct Ha as [Ha Ha']. destruct Hb as [Hb Hb']. pose proof (concat_cons _ _ _ Ha Hb) as Ec.
  assert (push_normalized (i ++ [s]) y = (i ++ [s]) ++ [y] -> runs st (foldM (fun '(st, acc) comp => fp_cons st comp acc) (st, q) (rev (i ++ [s])))
    (fun st' r => denotes st' r (concat (i ++ [s]) (y :: b)))) as Hplain.
  { intros E. apply (Hrest _ _ (y :: b)); [done..|]. by rewrite Ec, E, <- app_assoc. }
  assert (s = Value -> is_offset y || is_value y = true -> runs st (foldM (fun '(st, acc) comp => fp_cons st comp acc) (st, t) (rev (i ++ [s])))
    (fun st' r => denotes st' r (concat (i ++ [s]) (y :: b)))) as Hvalue.
  { intros -> Hy. apply (Hrest _ _ b); [done..|]. rewrite Ec. destruct y; simpl; rewrite ?split_last_snoc; done. }
  destruct s as [f|x| |], y as [g|z| |]; cbn [mbind outcome_bind];
    try (by apply Hplain); try (rewrite Et; cbn [mbind outcome_bind]; by apply Hvalue).
  - apply Hplain. cbn [push_normalized]. rewrite split_last_snoc, decide_False; [done|]. by apply nf_cons_inv in Hb as ([_ ?] & _).
  - apply Hplain. cbn [push_normalized]. by rewrite !split_last_snoc.
  - unfold add_i64. cbn [head] in Hfit. rewrite decide_True by done. cbn [mbind outcome_bind]. cbn [push_normalized] in Ec. rewrite split_last_snoc in Ec.
    assert (wrapping_add x z = x + z) as Ew by (by apply wrap_i64_id). rewrite Ew in Ec. destruct (decide (x + z = 0)) as [E0|E0].
    { rewrite Et. cbn [mbind outcome_bind]. by apply (Hrest _ _ b). }
    unfold with_head. rewrite (fp_empty_spec _ _ _ Hok Hq), bool_decide_eq_false_2 by done. cbn [negb rust_assert mbind outcome_bind]. rewrite Et. cbn [mbind outcome_bind].
    rewrite Ec in Hab. rewrite <- app_assoc in Hab. destruct (fp_cons_spec st (Offset (x + z)) t b Hok Ht) as [(st' & r & -> & Hok' & Hg & Hr)|(-> & Hfull)];
      [by apply fact_path_app in Hab as [_ ?]| |by right]. cbn [mbind outcome_bind].
    destruct (Hrest st' r _ i Hok' Hr) as [(st2 & r2 & E2 & Hok2 & Hg2 & H2)|(E2 & st2 & n & Hok2 & Hg2 & H2)]; [by rewrite Ec, <- app_assoc| |].
    + left. exists st2, r2. split_and!; [done..|by eapply grows_trans|done].
    + right. split; [done|]. exists st2, n. split_and!; [done|by eapply grows_trans|done].
  - apply (Hrest _ _ (Value :: b)); [done..|]. rewrite Ec. cbn [push_normalized]. rewrite split_last_snoc.
    apply nf_offset_init in Ha as (_ & _ & _ & _ & Hv). destruct (split_last i) as [[i' []]|] eqn:E; try (by rewrite <- app_assoc).
    apply split_last_Some in E as ->. by rewrite last_snoc in Hv.
  - apply Hplain. cbn [push_normalized]. rewrite split_last_snoc, decide_False; [done|]. by apply nf_cons_inv in Hb as ([_ ?] & _).
  - apply Hplain. cbn [push_normalized]. by rewrite !split_last_snoc.
Qed.

Lemma prepend_onto_overflow fuel st p q a b : paths_ok st -> denotes st p a -> denotes st q b -> (length a < fuel)%nat -> ~ junction_fits a b ->
  prepend_onto fxh fuel st p q = Panic.
Proof.
  intros Hok Hp Hq Hf Hfit. unfold prepend_onto. rewrite (fp_iter_spec _ _ _ _ Hok Hp Hf). cbn [mbind outcome_bind]. unfold junction_fits in Hfit.
  destruct (last a) as [[]|] eqn:E; try done. destruct (head b) as [[]|] eqn:Eb; try done. apply last_Some in E as [i ->]. rewrite split_last_snoc.
  rewrite (fp_head_spec _ _ _ Hok Hq), Eb. cbn [mbind outcome_bind]. unfold add_i64. by rewrite decide_False.
Qed.

(** ** Splits *)

Lemma runs_fold {X A} (f : St * X -> A -> outcome (St * X)) (I : list A -> St -> X -> Prop) (l : list A) :
  (forall pre a post st x, l = pre ++ a :: post -> paths_ok st -> I pre st x -> runs st (f (st, x) a) (I (pre ++ [a]))) ->
  forall st x, paths_ok st -> I [] st x -> runs st (foldM f (st, x) l) (I l).
Proof.
  intros Hf. cut (forall post pre st x, l = pre ++ post -> paths_ok st -> I pre st x -> runs st (foldM f (st, x) post) (I l)).
  { intros H st x Hok HI. by apply (H l []). }
  induction post as [|a post IHp]; intros pre st x E Hok HI; cbn [foldM]; [rewrite app_nil_r in E; subst; by apply runs_ret|].
  apply (runs_bind st (f (st, x) a) (fun b => foldM f b post) (I (pre ++ [a]))); [by eapply Hf|].
  intros st' x' Hok' _ HI'. apply (IHp (pre ++ [a])); [by rewrite <- app_assoc|done|done].
Qed.

(** The [k]th split of a path. *)
Definition split_at (st : St) (l : path) (kr : Z * Z) (k : nat) : Prop := denotes st kr.1 (take k l) /\ denotes st kr.2 (drop k l).

Lemma split_at_grows st st' l out ks : grows st st' -> Forall2 (split_at st l) out ks -> Forall2 (split_at st' l) out ks.
Proof. intros Hg H. eapply Forall2_impl; [done|]. intros kr k [H1 H2]. split; by eapply denotes_grows. Qed.

Lemma drop_1 {A} (l : list A) : drop 1 l = tail l.
Proof. by destruct l. Qed.

Lemma take_fact k l : fact_path l -> fact_path (take k l).
Proof. intros H. rewrite <- (take_drop k l) in H. by apply fact_path_app in H as [? _]. Qed.

Lemma prefix_keys_spec fuel st p l : paths_ok st -> denotes st p l -> (length l < fuel)%nat ->
  runs st (prefix_keys fxh fuel st p) (fun st' out => Forall2 (split_at st' l) out (seq 0 (S (length l)))).
Proof.
  intros Hok Hp Hf. unfold prefix_keys. rewrite (fp_iter_spec _ _ _ _ Hok Hp Hf). cbn [mbind outcome_bind].
  pose proof (denotes_fact _ _ _ Hok Hp) as Hl.
  apply (runs_bind st _ (fun '(st, (out, _)) => Ret (st, out)) (fun st' x => Forall2 (split_at st' l) x.1 (seq 0 (S (length l))))).
  2:{ intros st' [out rest] Hok' _ Ho. by apply runs_ret. }
  eapply runs_mono; [apply (runs_fold _ (fun pre st' x => Forall2 (split_at st' l) x.1 pre /\ denotes st' x.2 (drop (length pre) l)))|].
  - intros pre k post st' [out rest] E Hok' [Ho Hr]. cbn [fst snd] in *. assert (k = length pre) as ->.
    { assert (seq 0 (S (length l)) !! length pre = Some k) as Hk by (rewrite E, lookup_app_r, Nat.sub_diag by lia; done). apply lookup_seq in Hk. lia. }
    eapply runs_bind; [by apply from_fact_path, take_fact|]. intros st2 key Hok2 Hg Hkey. cbn beta iota.
    destruct (fp_tail_spec st2 rest _ Hok2 (denotes_grows _ _ _ _ Hg Hr)) as (t & -> & Ht). cbn [mbind outcome_bind]. apply runs_ret; [done|]. cbn [fst snd].
    split; [|by rewrite length_app, <- drop_drop; simpl length; rewrite drop_1].
    apply Forall2_app; [by eapply split_at_grows|]. constructor; [|done]. split; [done|by eapply denotes_grows].
  - done.
  - by split; [constructor|].
  - by intros st' [out rest] _ _ [? _].
Qed.

Definition is_wild (kc : nat * PathSegment) : bool := is_offset kc.2 || is_value kc.2.

Lemma prefix_keys_wild_spec fuel st p l : paths_ok st -> denotes st p l -> (length l < fuel)%nat ->
  runs st (prefix_keys_wild fxh fuel st p) (fun st' out => Forall2 (split_at st' l) out (map fst (filter (fun kc => is_wild kc = true) (enumerate l)))).
Proof.
  intros Hok Hp Hf. unfold prefix_keys_wild. rewrite (fp_iter_spec _ _ _ _ Hok Hp Hf). cbn [mbind outcome_bind].
  pose proof (denotes_fact _ _ _ Hok Hp) as Hl.
  apply (runs_bind st _ (fun '(st, (out, _)) => Ret (st, out)) (fun st' x => Forall2 (split_at st' l) x.1 (map fst (filter (fun kc => is_wild kc = true) (enumerate l))))).
  2:{ intros st' [out rest] Hok' _ Ho. by apply runs_ret. }
  eapply runs_mono; [apply (runs_fold _ (fun pre st' x => Forall2 (split_at st' l) x.1 (map fst (filter (fun kc => is_wild kc = true) pre)) /\ denotes st' x.2 (drop (length pre) l)))|].
  - intros pre [k comp] post st' [out rest] E Hok' [Ho Hr]. cbn [fst snd] in *. assert (k = length pre) as ->.
    { assert ((enumerate l).*1 !! length pre = Some k) as Hk by (rewrite E, fmap_app, lookup_app_r; rewrite length_fmap, ?Nat.sub_diag by lia; done).
      rewrite enum_from_fst in Hk. apply lookup_seq in Hk. lia. }
    rewrite filter_app, map_app. eapply runs_bind with (Q := fun st' out' => Forall2 (split_at st' l) out' (map fst (filter (fun kc => is_wild kc = true) pre) ++
        map fst (filter (fun kc => is_wild kc = true) [(length pre, comp)])) /\ denotes st' rest (drop (length pre) l)).
    + rewrite filter_cons. change (is_offset comp || is_value comp) with (is_wild (length pre, comp)). destruct (is_wild (length pre, comp)) eqn:Ew.
      * rewrite decide_True by done. eapply runs_bind; [by apply from_fact_path, take_fact|]. intros st2 key Hok2 Hg Hkey. apply runs_ret; [done|].
        split; [|by eapply denotes_grows]. apply Forall2_app; [by eapply split_at_grows|]. constructor; [|constructor]. split; [done|by eapply denotes_grows].
      * rewrite decide_False by done. apply runs_ret; [done|]. by rewrite app_nil_r.
    + intros st2 out2 Hok2 Hg [Ho2 Hr2]. cbn beta iota. destruct (fp_tail_spec st2 rest _ Hok2 Hr2) as (t & -> & Ht). cbn [mbind outcome_bind].
      apply runs_ret; [done|]. cbn [fst snd]. split; [done|]. by rewrite length_app, <- drop_drop; simpl length; rewrite drop_1.
  - done.
  - by split; [constructor|].
  - by intros st' [out rest] _ _ [? _].
Qed.
End facts.

(** ** [match_prefix] and [strip_prefix] *)

(** [strip_prefix] of a prefix that ends in an offset. *)
Lemma strip_offset init m rest t q : nf (init ++ rest) -> nf (init ++ [Offset m]) -> concat [Offset (wrapping_neg m)] rest = t ->
  nf q -> concat (init ++ [Offset m]) q = init ++ rest -> strip_prefix (init ++ rest) (init ++ [Offset m]) = Some t.
Proof.
  intros Hp Hpre Et Hq Hc. destruct (strip_prefix_is_Some _ _ Hp Hpre q (nf_i64 _ Hq) Hc) as [u E]. rewrite E. unfold strip_prefix in E.
  rewrite split_last_snoc, length_app in E. rewrite decide_False in E by lia. rewrite take_app_length, drop_app_length in E. rewrite decide_False in E by naive_solver.
  apply nf_offset_init in Hpre as (_ & Hm & Hm0 & _). rewrite normalize_id in E by (apply nf_single; split; [apply wrapping_neg_range|by apply wrapping_neg_nonzero]).
  rewrite Et in E. destruct (decide _); congruence.
Qed.

Lemma wrapping_sub n m : in_i64 (n - m) -> wrapping_add (wrapping_neg m) n = n - m.
Proof. intros H. rewrite <- (wrap_i64_id (n - m)) by done. unfold wrapping_add, wrapping_neg. i64_unfold. i64. Qed.

Lemma match_segs_strip p prefix : nf p -> nf prefix ->
  match match_segs p prefix with
  | Ret (Some (adjust, l)) => strip_prefix p prefix = Some (suffix_of adjust l)
  | Ret None => strip_prefix p prefix = None \/ exists init m rest, prefix = init ++ [Offset m] /\ p = init ++ rest /\
      strip_prefix p prefix = Some (Offset (wrapping_neg m) :: rest)
  | _ => exists init an pn tl, prefix = init ++ [Offset pn] /\ p = init ++ Offset an :: tl /\ ~ in_i64 (an - pn)
  end.
Proof.
  intros Hp Hpre. unfold match_segs. destruct (split_last prefix) as [[init last]|] eqn:E.
  2:{ unfold strip_prefix. by rewrite E. }
  apply split_last_Some in E as ->. destruct (decide (take (length init) p = init)) as [Et|Et].
  2:{ left. unfold strip_prefix. rewrite split_last_snoc. destruct (decide _); [done|]. by rewrite decide_True. }
  assert (p = init ++ drop (length init) p) as Ep by (by rewrite <- Et at 1; rewrite take_drop).
  revert Ep. generalize (drop (length init) p) as rest. intros rest ->. clear Et.
  assert (is_offset last = false -> strip_prefix (init ++ rest) (init ++ [last]) = match rest with [] => None | h :: tl => if decide (h = last) then Some tl else None end) as Hplain.
  { intros Hl. unfold strip_prefix. rewrite split_last_snoc, length_app. rewrite decide_False by lia. rewrite take_app_length, drop_app_length.
    rewrite decide_False by naive_solver. by destruct last. }
  destruct (is_offset last) eqn:El.
  - destruct last as [|m| |]; try done. clear Hplain El. pose proof (nf_offset_init _ _ Hpre) as (Hi & Hm & Hm0 & Hend & Hval). pose proof (wrapping_neg_range m) as Hneg.
    pose proof (wrapping_neg_nonzero m Hm Hm0) as Hneg0. pose proof (nf_app_r _ _ Hp) as Hr.
    assert (nf [Offset (wrapping_neg m)]) as Hn1 by (by apply nf_single).
    assert (nf (Offset (wrapping_neg m) :: rest) -> strip_prefix (init ++ rest) (init ++ [Offset m]) = Some (Offset (wrapping_neg m) :: rest)) as Hneg1.
    { intros Hq. apply strip_offset with (Offset (wrapping_neg m) :: rest); [done..| |done|].
      - destruct rest as [|x rest]; [done|]. rewrite concat_app_nf; done.
      - rewrite concat_cons by done. cbn [push_normalized]. rewrite split_last_snoc, wrapping_neg_r. by rewrite decide_True. }
    destruct rest as [|x tl]; [right; exists init, m, []; split_and!; [done..|by apply Hneg1]|]. pose proof (nf_cons_inv _ _ Hr) as (Hx & Htl & Hj).
    destruct x as [f|an| |]; cbn [match_last].
    + rewrite decide_False by done. right. exists init, m, (Field f :: tl). split_and!; [done..|]. by apply Hneg1, nf_cons.
    + destruct Hx as [Han Han0]. assert (nf (Offset (an - m) :: tl) \/ an = m \/ ~ in_i64 (an - m)) as Hcase.
      { destruct (decide (an = m)); [by right; left|]. destruct (decide (in_i64 (an - m))); [left|by right; right]. apply nf_cons; [split; [done|lia]|done|]. by destruct (head tl) as [[]|]. }
      destruct (decide (an <> m)) as [Hne|He].
      * unfold sub_i64. destruct (decide _) as [Hin|Hout]; cbn [mbind outcome_bind]; [|by exists init, an, m, tl].
        destruct Hcase as [Hq|[?|?]]; [|done..]. cbn [suffix_of]. apply strip_offset with (Offset (an - m) :: tl); [done..| |done|].
        -- rewrite concat_cons by done. cbn [push_normalized split_last]. rewrite wrapping_sub by done. by rewrite decide_False by lia.
        -- rewrite concat_cons by done. cbn [push_normalized]. rewrite split_last_snoc. replace (wrapping_add m (an - m)) with an.
           ++ rewrite decide_False by done. by rewrite <- app_assoc.
           ++ unfold wrapping_add. replace (m + (an - m)) with an by lia. by rewrite wrap_i64_id.
      * assert (an = m) as -> by (destruct (decide (an = m)); [done|]; by destruct He). cbn [suffix_of]. apply strip_offset with tl; [done..| |done|].
        -- rewrite concat_cons by done. cbn [push_normalized split_last]. rewrite wrapping_neg_l. by rewrite decide_True.
        -- rewrite concat_app_nf; [by rewrite <- app_assoc|]. rewrite <- app_assoc. done.
    + rewrite decide_False by done. right. exists init, m, (Deref :: tl). split_and!; [done..|]. by apply Hneg1, nf_cons.
    + cbn [suffix_of]. apply strip_offset with (Value :: tl); [done..| |done|].
      * rewrite concat_cons by done. done.
      * rewrite concat_cons by done. cbn [push_normalized]. rewrite split_last_snoc. destruct (split_last init) as [[i' []]|] eqn:E'; try (by rewrite <- app_assoc).
        apply split_last_Some in E' as ->. by rewrite last_snoc in Hval.
  - rewrite Hplain by done. destruct rest as [|h tl]; [by left|]. destruct h, last; try done; cbn [match_last]; repeat case_decide; naive_solver.
Qed.

(** Which prefixes match, by the place where they end. *)
Lemma match_segs_iff l qs adjust t : match_segs l qs = Ret (Some (adjust, t)) <->
  (adjust = None /\ exists k, (k <= length l)%nat /\ qs = take k l /\ t = drop k l) \/
  (exists k m, qs = take k l ++ [Offset m] /\
    ((exists n, l !! k = Some (Offset n) /\ n <> m /\ in_i64 (n - m) /\ adjust = Some (n - m) /\ t = drop (S k) l) \/
     (l !! k = Some Value /\ adjust = None /\ t = drop k l))).
Proof.
  split.
  - unfold match_segs. destruct (split_last qs) as [[init x]|] eqn:E.
    2:{ apply split_last_None in E as ->. intros [= <- <-]. left. split; [done|]. exists 0%nat. by split; [lia|]. }
    apply split_last_Some in E as ->. destruct (decide (take (length init) l = init)) as [Et|]; [|done].
    assert (l = init ++ drop (length init) l) as El by (by rewrite <- Et at 1; rewrite take_drop).
    destruct (drop (length init) l) as [|y tl]; [done|]. intros H.
    assert (l !! length init = Some y) as Hy by (by rewrite El, lookup_app_r, Nat.sub_diag by lia).
    assert (take (S (length init)) l = init ++ [y]) as Ht by (by rewrite (take_S_r _ _ _ Hy), Et).
    assert (drop (S (length init)) l = tl) as Hd by (rewrite El, drop_app, drop_ge by lia; by replace (S (length init) - length init)%nat with 1%nat by lia).
    assert (y = x -> (adjust = None /\ tl = t) -> (adjust = None /\ exists k, (k <= length l)%nat /\ init ++ [x] = take k l /\ t = drop k l)) as Hex.
    { intros -> [-> <-]. split; [done|]. exists (S (length init)). split_and!; [by apply lookup_lt_Some in Hy|done|done]. }
    unfold match_last in H. destruct y as [f|an| |], x as [g|pn| |]; repeat case_decide; try done;
      try (left; injection H as <- <-; apply Hex; [congruence|done]).
    + right. unfold sub_i64 in H. destruct (decide _) as [Hin|]; [|done]. cbn [mbind outcome_bind] in H. injection H as <- <-.
      exists (length init), pn. rewrite Et. split; [done|]. left. exists an. by split_and!.
    + right. injection H as <- <-. exists (length init), pn. rewrite Et. split; [done|]. right. split_and!; [done..|]. by rewrite El, drop_app_length.
  - intros [(-> & k & Hk & -> & ->)|(k & m & -> & [(n & Hn & Hne & Hin & -> & ->)|(Hn & -> & ->)])]; unfold match_segs.
    + destruct k as [|k]; [done|]. destruct (lookup_lt_is_Some_2 l k) as [x Hx]; [lia|]. rewrite (take_S_r _ _ _ Hx), split_last_snoc.
      rewrite length_take_le, decide_True by (done || lia). rewrite (drop_S _ _ _ Hx). unfold match_last. destruct x; rewrite ?decide_True by done; try done.
      rewrite decide_False by naive_solver. done.
    + rewrite split_last_snoc. pose proof (lookup_lt_Some _ _ _ Hn). rewrite length_take_le, decide_True by (done || lia). rewrite (drop_S _ _ _ Hn).
      unfold match_last, sub_i64. by rewrite !decide_True.
    + rewrite split_last_snoc. pose proof (lookup_lt_Some _ _ _ Hn). rewrite length_take_le, decide_True by (done || lia). by rewrite (drop_S _ _ _ Hn).
Qed.

(** ** Properties *)

Section properties.
Context {St : Type} `{IH : IdHandle PathNode St}.
Context (fxh : PathSegment -> Z -> Z) (seg_cmp : PathSegment -> PathSegment -> comparison).
Context (Heqb : forall a b : PathNode, ih_eqb a b = node_eqb a b) (Hfirst : EMPTY < ih_first).
Abbreviation paths_ok := (paths_ok fxh).
Abbreviation runs := (runs fxh).



Lemma substitute_spec (st : St) (p q r : Z) (ps qs rs : path) (adjust : option Z) (l : path) (fuel : nat) :
  paths_ok st -> denotes st p ps -> denotes st q qs -> denotes st r rs -> (length qs <= fuel)%nat -> (length rs < fuel)%nat ->
  match_segs ps qs = Ret (Some (adjust, l)) -> junction_fits rs (suffix_of adjust l) ->
  runs st (substitute_prefix fxh fuel st p q r) (fun st' o => exists x, o = Some x /\ denotes st' x (concat rs (suffix_of adjust l))).
Proof.
  intros Hok Hp Hq Hr Hf Hf' E Hfit. pose proof (match_prefix_spec _ Heqb Hfirst fuel st p q ps qs Hok Hp Hq Hf) as H. rewrite E in H.
  unfold substitute_prefix. eapply runs_bind; [exact H|]. intros st' o Hok' Hg (t & -> & Ht). cbn beta iota.
  eapply runs_bind; [apply prepend_onto_spec; [done|done|done|by eapply denotes_grows|exact Ht|done|done]|]. intros st2 x Hok2 _ Hx. apply runs_ret; eauto.
Qed.

(** [substitute_prefix] replaces the prefix.  When [match_prefix] finds a suffix, the result denotes the
    concatenation of the new prefix with it, in the path algebra, so it is the handle [Path::concat] returns for the two;
    offsets that meet are added as [i64]s, which panics when they overflow. *)
Theorem substitute_prefix_correct (st : St) (p q r : Z) (ps qs rs : path) (adjust : option Z) (l : path) (fuel : nat) :
  paths_ok st -> denotes st p ps -> denotes st q qs -> denotes st r rs -> (length qs <= fuel)%nat -> (length rs < fuel)%nat ->
  match_segs ps qs = Ret (Some (adjust, l)) ->
  strip_prefix ps qs = Some (suffix_of adjust l) /\
  (junction_fits rs (suffix_of adjust l) -> runs st (substitute_prefix fxh fuel st p q r) (fun st' o => exists x, o = Some x /\ denotes st' x (concat rs (suffix_of adjust l)))) /\
  (~ junction_fits rs (suffix_of adjust l) -> substitute_prefix fxh fuel st p q r = Panic).
Proof.
  intros Hok Hp Hq Hr Hf Hf' E. pose proof (match_prefix_spec _ Heqb Hfirst fuel st p q ps qs Hok Hp Hq Hf) as H. rewrite E in H.
  split; [|split].
  - destruct (denotes_fact _ Hfirst _ _ _ Hok Hp) as [Hps _]. destruct (denotes_fact _ Hfirst _ _ _ Hok Hq) as [Hqs _].
    pose proof (match_segs_strip ps qs Hps Hqs) as Hs. by rewrite E in Hs.
  - by eapply substitute_spec.
  - intros Hfit. unfold substitute_prefix. destruct H as [(st' & o & -> & Hok' & Hg & t & -> & Ht)|(-> & _)]; [|done]. cbn [mbind outcome_bind].
    rewrite (prepend_onto_overflow fxh Hfirst fuel st' r t rs (suffix_of adjust l)); [done|done|by eapply denotes_grows|done..].
Qed.

Lemma split_answers fuel st p q ps qs adjust r : paths_ok st -> denotes st p ps -> denotes st q qs -> (length qs <= fuel)%nat ->
  match_prefix_split fuel st p q = Ret (Some (adjust, r)) <-> exists t, match_segs ps qs = Ret (Some (adjust, t)) /\ denotes st r t.
Proof.
  intros Hok Hp Hq Hf. pose proof (match_prefix_split_spec _ Hfirst fuel st p q ps qs Hok Hp Hq Hf) as H. split.
  - intros E. destruct (match_segs ps qs) as [[[adjust' t]|]| |]; [destruct H as (r' & E' & Hr)|..]; try congruence; [|done].
    assert (adjust' = adjust) as -> by congruence. assert (r' = r) as -> by congruence. eauto.
  - intros (t & E & Ht). rewrite E in H. destruct H as (r' & -> & Hr'). by rewrite (denotes_inj _ Hfirst _ _ _ _ Hok Hr' Ht).
Qed.

Lemma elem_of_splits st l out ks q r : paths_ok st -> Forall2 (split_at st l) out ks ->
  (q, r) ∈ out <-> exists k, k ∈ ks /\ denotes st q (take k l) /\ denotes st r (drop k l).
Proof.
  intros Hok H. split.
  - intros [i Hi]%list_elem_of_lookup. destruct (Forall2_lookup_l _ _ _ _ _ H Hi) as (k & Hk & H1 & H2). exists k. split; [by eapply list_elem_of_lookup_2|done].
  - intros (k & [i Hi]%list_elem_of_lookup & H1 & H2). destruct (Forall2_lookup_r _ _ _ _ _ H Hi) as ([q' r'] & Hk & H1' & H2'). cbn [fst snd] in *.
    rewrite (denotes_inj _ Hfirst _ _ _ _ Hok H1 H1'), (denotes_inj _ Hfirst _ _ _ _ Hok H2 H2'). by eapply list_elem_of_lookup_2.
Qed.

Lemma wild_rest_spec st rest l k m d r : paths_ok st -> denotes st rest (drop k l) ->
  wild_rest st rest m = Ret (Some (d, r)) <->
  (exists n, l !! k = Some (Offset n) /\ n <> m /\ in_i64 (n - m) /\ d = n - m /\ denotes st r (drop (S k) l)) \/ (l !! k = Some Value /\ d = 0 /\ r = rest).
Proof.
  intros Hok Hr. unfold wild_rest. rewrite (fp_head_spec _ Hfirst _ _ _ Hok Hr). cbn [mbind outcome_bind].
  destruct (fp_tail_spec _ Hfirst _ _ _ Hok Hr) as (t & Et & Ht). destruct (l !! k) as [x|] eqn:Ex.
  2:{ apply lookup_ge_None in Ex. rewrite drop_ge by done. naive_solver. }
  rewrite (drop_S _ _ _ Ex) in Ht |- *. cbn [head tail] in *. destruct x as [f|n| |]; [naive_solver| |naive_solver|naive_solver].
  rewrite Et. cbn [mbind outcome_bind]. unfold sub_i64. destruct (decide (n <> m)); [destruct (decide (in_i64 (n - m)))|]; cbn [mbind outcome_bind].
  - split; [intros [= <- <-]; left; by exists n|]. intros [(n' & [= <-] & _ & _ & -> & Hr')|(? & _)]; [|done]. by rewrite (denotes_inj _ Hfirst _ _ _ _ Hok Ht Hr').
  - naive_solver.
  - naive_solver.
Qed.

Lemma elem_of_wild l k : k ∈ map fst (filter (fun kc => is_wild kc = true) (enumerate l)) <-> exists x, l !! k = Some x /\ is_wild (k, x) = true.
Proof.
  rewrite elem_of_map. split.
  - intros ([k' x] & -> & [Hw Hx]%list_elem_of_filter). apply elem_of_enumerate in Hx. eauto.
  - intros (x & Hx & Hw). exists (k, x). split; [done|]. apply list_elem_of_filter. split; [done|]. by apply elem_of_enumerate.
Qed.

(** The join keys of a path are the prefixes that match it.  [match_prefix_split] answers for a prefix exactly when
    the prefix with its suffix is among the splits of [prefix_keys], or the prefix is [key.[m]] for a key
    of [prefix_keys_wild] and [wild_rest] answers for [m]; and the answers are the same. *)
Theorem prefix_keys_complete (st : St) (p : Z) (l : path) (fuel : nat) : paths_ok st -> denotes st p l -> (length l < fuel)%nat ->
  runs st (prefix_keys fxh fuel st p) (fun st1 exact => runs st1 (prefix_keys_wild fxh fuel st1 p) (fun st2 wild =>
    forall q qs adjust r, denotes st2 q qs -> (length qs <= fuel)%nat ->
      match_prefix_split fuel st2 p q = Ret (Some (adjust, r)) <->
      (adjust = None /\ (q, r) ∈ exact) \/
      exists key ks m rest d, qs = ks ++ [Offset m] /\ denotes st2 key ks /\ (key, rest) ∈ wild /\ wild_rest st2 rest m = Ret (Some (d, r)) /\
        adjust = if decide (d = 0) then None else Some d)).
Proof.
  intros Hok Hp Hf. eapply runs_mono; [by apply prefix_keys_spec|]. intros st1 exact Hok1 Hg1 He. cbn beta.
  eapply runs_mono; [apply prefix_keys_wild_spec; [done..|by eapply denotes_grows|done]|]. intros st2 wild Hok2 Hg2 Hw q qs adjust r Hq Hfq. cbn beta.
  assert (denotes st2 p l) as Hp2 by (by eapply denotes_grows, denotes_grows). apply (split_at_grows _ _ _ _ _ Hg2) in He.
  rewrite (split_answers _ _ _ _ _ _ _ _ Hok2 Hp2 Hq Hfq), (elem_of_splits _ _ _ _ _ _ Hok2 He). split.
  - intros (t & [(-> & k & Hk & -> & ->)|(k & m & -> & Hcase)]%match_segs_iff & Ht).
    + left. split; [done|]. exists k. split; [apply elem_of_seq; lia|done].
    + right. assert (exists key rest, denotes st2 key (take k l) /\ denotes st2 rest (drop k l) /\ (key, rest) ∈ wild) as (key & rest & Hkey & Hrest & Hin).
      { assert (k ∈ map fst (filter (fun kc => is_wild kc = true) (enumerate l))) as [i Hi]%list_elem_of_lookup.
        { apply elem_of_wild. destruct Hcase as [(n & Hn & _)|[Hn _]]; eauto. }
        destruct (Forall2_lookup_r _ _ _ _ _ Hw Hi) as ([key rest] & Hk & H1 & H2). exists key, rest. split_and!; [done..|by eapply list_elem_of_lookup_2]. }
      destruct Hcase as [(n & Hn & Hne & Hin' & -> & ->)|(Hn & -> & ->)].
      * exists key, (take k l), m, rest, (n - m). split_and!; [done..| |by rewrite decide_False by lia]. apply (wild_rest_spec st2 rest l k m); [done..|]. left. eauto 6.
      * exists key, (take k l), m, rest, 0. split_and!; [done..| |done]. apply (wild_rest_spec st2 rest l k m); [done..|]. right. split_and!; [done..|].
        by apply (denotes_inj _ Hfirst _ _ _ _ Hok2 Ht Hrest).
  - intros [(-> & k & Hk & Hqk & Hr)|(key & ks & m & rest & d & -> & Hkey & Hin & Ewr & ->)].
    + exists (drop k l). split; [|done]. apply match_segs_iff. left. split; [done|]. exists k. apply elem_of_seq in Hk. split_and!; [lia| |done].
      by apply (denotes_fun _ Hfirst _ _ _ _ Hok2 Hq Hqk).
    + apply (elem_of_splits _ _ _ _ _ _ Hok2 Hw) in Hin as (k & Hk & Hkey' & Hrest). rewrite (denotes_fun _ Hfirst _ _ _ _ Hok2 Hkey Hkey').
      apply (wild_rest_spec st2 rest l k m d r Hok2 Hrest) in Ewr as [(n & Hn & Hne & Hin & -> & Hr)|(Hn & -> & ->)].
      * exists (drop (S k) l). split; [|done]. apply match_segs_iff. right. exists k, m. split; [done|]. left. exists n. rewrite decide_False by lia. by split_and!.
      * exists (drop k l). split; [|done]. apply match_segs_iff. right. exists k, m. split; [done|]. right. by split_and!.
Qed.

(** Printing and parsing a path of the index.  [Path::parse] of what [to_dot_string] prints returns the same handle and the
    same interner, for every path whose field names are UTF-8; on any other string it returns the handle of the normal form of
    the parsed segments, or the parse error. *)
Theorem fact_path_roundtrip (st : St) (p : Z) (l : path) (fuel : nat) : paths_ok st -> denotes st p l -> Forall printable l -> (length l < fuel)%nat ->
  exists s, to_dot_string fuel st p = Ret s /\ runs st (fp_parse fxh st s) (fun st' r => r = Ok p /\ denotes st' p l).
Proof.
  intros Hok Hp Hl Hf. unfold to_dot_string. rewrite (fp_iter_spec _ Hfirst _ _ _ _ Hok Hp Hf). cbn [mbind outcome_bind]. eexists. split; [done|].
  unfold fp_parse. rewrite parse_segments_print by done. cbn [mbind outcome_bind].
  eapply runs_bind; [apply from_fact_path; [done..|by eapply (denotes_fact fxh)]|]. intros st' q Hok' Hg Hq. apply runs_ret; [done|].
  pose proof (denotes_grows _ _ _ _ Hg Hp) as Hp'. split; [|done]. f_equal. exact (denotes_inj _ Hfirst _ _ _ _ Hok' Hq Hp').
Qed.

(** The order of [content_cmp]: lexicographic, a proper prefix first. *)
Fixpoint lex_cmp (a b : path) : comparison :=
  match a, b with
  | [], [] => Eq
  | [], _ => Lt
  | _, [] => Gt
  | x :: a, y :: b => match seg_cmp x y with Eq => lex_cmp a b | c => c end
  end.

Lemma lex_cmp_refl a : (forall x, seg_cmp x x = Eq) -> lex_cmp a a = Eq.
Proof. intros H. induction a as [|x a IHa]; [done|]. simpl. by rewrite H. Qed.

(** [content_cmp] orders handles by their segments alone, whatever ids they were given. *)
Theorem content_cmp_lex fuel st p q a b : paths_ok st -> (forall x, seg_cmp x x = Eq) -> denotes st p a -> denotes st q b -> (length a < fuel)%nat ->
  fp_content_cmp seg_cmp fuel st p q = Ret (lex_cmp a b).
Proof.
  intros Hok Hrefl. revert p q a b. induction fuel as [|fuel IHf]; intros p q a b Hp Hq Hf; [lia|]. cbn [fp_content_cmp]. destruct (decide (p = q)) as [<-|Hne].
  { rewrite (denotes_fun _ Hfirst _ _ _ _ Hok Hp Hq). by rewrite lex_cmp_refl. }
  destruct (fp_node_spec _ Hfirst _ _ _ Hok Hp) as [(-> & -> & ->)|(n & l & _ & -> & -> & Hn & _)];
    destruct (fp_node_spec _ Hfirst _ _ _ Hok Hq) as [(-> & -> & ->)|(n' & l' & _ & -> & -> & Hn' & _)]; cbn [mbind outcome_bind lex_cmp]; try done.
  destruct (seg_cmp _ _); try done. apply IHf; [done..|]. simpl in Hf. lia.
Qed.

(** Interning several paths. *)
Lemma intern_paths (st : St) (ls : list path) : paths_ok st -> Forall fact_path ls ->
  runs st (foldM (fun '(st, ps) l => '(st, p) ← from_accesses fxh st l; Ret (st, ps ++ [p])) (st, []) ls) (fun st' ps => Forall2 (denotes st') ps ls).
Proof.
  intros Hok Hls. apply (runs_fold _ (fun '(st, ps) l => '(st, p) ← from_accesses fxh st l; Ret (st, ps ++ [p])) (fun pre st ps => Forall2 (denotes st) ps pre)).
  - intros pre l post st' ps -> Hok' H. apply Forall_app in Hls as [_ [Hl _]%Forall_cons]. eapply runs_bind; [by apply from_fact_path|].
    intros st2 p Hok2 Hg Hp. apply runs_ret; [done|]. apply Forall2_app; [|by constructor]. eapply Forall2_impl; [done|]. intros x y. by eapply denotes_grows.
  - done.
  - constructor.
Qed.
End properties.

(** ** An interner of paths, to try the operations on *)

Module Example_.
Definition seg_code (s : PathSegment) : Z := match s with Field f => 7 + Z.of_nat (String.length f) | Offset k => k | Deref => 3 | Value => 5 end.
Definition fxh (s : PathSegment) (h : Z) : Z := seg_code s + 31 * h.
Definition node_slots : Internable PathNode := Internable_sized PathNode 24.
Definition St : Type := IdInterner PathNode (list (Z * Z)) (IT := node_slots).

Lemma shards_ok : 0 <= 2 <= 16.
Proof. lia. Qed.

Lemma bits_ok : 2 < 32 <= 32.
Proof. lia. Qed.

#[export] Instance handle : IdHandle PathNode St := interner_handle (IT := node_slots) (InternableOk0 := sized_ok PathNode 24) pn_hash node_eqb 2 32 shards_ok bits_ok.

Definition st0 : St := match with_id_bits (IT := node_slots) (2 ^ 2) 32 with Ret st => st | _ => mk_interner [] [] 0 end.

Lemma st0_ok : paths_ok fxh st0.
Proof.
  destruct (new_names (IT := node_slots) (HT := list (Z * Z)) (2 ^ 2) pn_hash 2 ltac:(lia) eq_refl 32 ltac:(lia)) as (st & E & Hok & Hl & Hn).
  unfold st0. rewrite E. split; [by split|]. intros id n []%Hn.
Qed.

Definition setup (ls : list path) : outcome (St * list Z) :=
  foldM (fun '(st, ps) l => '(st, p) ← from_accesses fxh st l; Ret (st, ps ++ [p])) (st0, []) ls.
Definition returns {A} (o : outcome A) : bool := match o with Ret _ => true | _ => false end.

Lemma setup_paths ls : Forall fact_path ls -> returns (setup ls) = true -> exists st ps, setup ls = Ret (st, ps) /\ paths_ok fxh st /\ Forall2 (denotes st) ps ls.
Proof.
  intros Hls Hr. destruct (intern_paths fxh ltac:(done) ltac:(done) st0 ls st0_ok Hls) as [(st & ps & E & Hok & _ & H)|(E & _)].
  - exists st, ps. by split_and!.
  - unfold setup in Hr. by rewrite E in Hr.
Qed.

Lemma eqb_ok : forall a b : PathNode, ih_eqb (IdHandle := handle) a b = node_eqb a b.
Proof. done. Qed.

Lemma first_ok : EMPTY < ih_first (IdHandle := handle).
Proof. done. Qed.

#[export] Instance seg_i64_dec s : Decision (seg_i64 s).
Proof. destruct s; simpl; apply _. Defined.

Lemma fact_path_dec l : bool_decide (normalize l = l) && forallb (fun s => negb (is_empty_field s) && bool_decide (seg_i64 s)) l = true -> fact_path l.
Proof.
  intros [H1%bool_decide_eq_true H2]%andb_true_iff. assert (Forall (fun s => is_empty_field s = false /\ seg_i64 s) l) as H.
  { apply Forall_forall. intros s Hs. rewrite forallb_forall in H2. specialize (H2 s ltac:(by apply list_elem_of_In)).
    apply andb_true_iff in H2 as [H3%negb_true_iff H4%bool_decide_eq_true]. done. }
  split; [|eapply Forall_impl; [done|naive_solver]]. rewrite <- H1. apply normalize_nf. eapply Forall_impl; [done|naive_solver].
Qed.

Definition x8 : path := [Field "x"; Offset 8; Deref].
Definition x3 : path := [Field "x"; Offset 3].

(** The state after interning [.x.[8].deref], [.x.[3]] and [.y]. *)
Lemma example_state : exists st p q r, setup [x8; x3; [Field "y"]] = Ret (st, [p; q; r]) /\ paths_ok fxh st /\ denotes st p x8 /\ denotes st q x3 /\ denotes st r [Field "y"].
Proof.
  destruct (setup_paths [x8; x3; [Field "y"]]) as (st & ps & E & Hok & H).
  - repeat constructor; apply fact_path_dec; vm_compute; reflexivity.
  - vm_compute. reflexivity.
  - inversion H as [|p ? ps1 ? Hp H1]; subst. inversion H1 as [|q ? ps2 ? Hq H2]; subst. inversion H2 as [|r ? ps3 ? Hr H3]; subst. inversion H3; subst.
    exists st, p, q, r. by split_and!.
Qed.
End Example_.
Import Example_.



Lemma substitute_prefix_correct_witness : exists st p q r, denotes st p x8 /\ denotes st q x3 /\ denotes st r [Field "y"] /\
  runs fxh st (substitute_prefix fxh 9 st p q r) (fun st' o => exists x, o = Some x /\ denotes st' x [Field "y"; Offset 5; Deref]).
Proof.
  destruct example_state as (st & p & q & r & E & Hok & Hp & Hq & Hr). exists st, p, q, r. split; [exact Hp|]. split; [exact Hq|]. split; [exact Hr|].
  destruct (substitute_prefix_correct fxh eqb_ok first_ok st p q r x8 x3 [Field "y"] (Some 5) [Deref] 9 Hok Hp Hq Hr) as (_ & H & _).
  - simpl. lia.
  - simpl. lia.
  - vm_compute. reflexivity.
  - apply H. vm_compute. exact I.
Defined.

Lemma prefix_keys_complete_witness : exists st p, denotes st p x8 /\
  runs fxh st (prefix_keys fxh 9 st p) (fun st1 exact => runs fxh st1 (prefix_keys_wild fxh 9 st1 p) (fun st2 wild =>
    forall q adjust r, denotes st2 q x3 -> match_prefix_split 9 st2 p q = Ret (Some (adjust, r)) ->
      (adjust = None /\ (q, r) ∈ exact) \/ exists key ks m rest d, x3 = ks ++ [Offset m] /\ denotes st2 key ks /\ (key, rest) ∈ wild /\
        wild_rest st2 rest m = Ret (Some (d, r)) /\ adjust = if decide (d = 0) then None else Some d)).
Proof.
  destruct example_state as (st & p & q & r & E & Hok & Hp & _). exists st, p. split; [exact Hp|].
  eapply runs_mono; [apply (prefix_keys_complete fxh eqb_ok first_ok st p x8 9 Hok Hp); simpl; lia|]. intros st1 exact _ _ H. cbn beta in *.
  eapply runs_mono; [exact H|]. intros st2 wild _ _ H' q' adjust r' Hq Hm. apply (H' q' x3 adjust r' Hq); [simpl; lia|exact Hm].
Defined.

Lemma fact_path_roundtrip_witness : exists st p s, denotes st p x8 /\ to_dot_string 9 st p = Ret s /\ runs fxh st (fp_parse fxh st s) (fun st' r => r = Ok p /\ denotes st' p x8).
Proof.
  destruct example_state as (st & p & q & r & E & Hok & Hp & _). exists st, p.
  destruct (fact_path_roundtrip fxh eqb_ok first_ok st p x8 9 Hok Hp) as (s & Es & H); [by_decide|simpl; lia|]. exists s. split; [exact Hp|]. split; [exact Es|exact H].
Defined.
