(* ===== verification/PathSet.v ===== *)
(** * PathSet: the admissible paths of an index, frozen ([ctadl-index/src/index_engine/path_set.rs])

    [PathSet::concat] answers whether [prefix . [adjust] . rest] is one of a fixed set of paths without building it:
    it folds the new segments onto the stored hash of [rest], looks the hash up, and compares.  The splits of
    the members are computed once; a member's rank, its place in the order of the handles, is read off a bit set with
    the number of members before each word.

    The interner of the paths is threaded through as in [FactPath]; [hashbrown]'s table is used through [HashTable]. *)

From S2P Require Import Prelude Bits Index Path Interner FactPath.

#[local] Open Scope Z_scope.

Definition wide (h : Z) : Z := Z.lor h (Z.shiftl h 32).

Record Candidate : Type := mk_candidate { c_body : Z; c_n : nat; c_junction : option Z; c_base : Z }.

Record PathSet (HT : Type) : Type := mk_path_set {
  ps_table : HT; ps_bits : list Z; ps_ranks : list Z; ps_trailing : list (Z * Z);
  ps_exact_at : list Z; ps_exact : list (Z * Z); ps_wild_at : list Z; ps_wild : list (Z * Z); ps_max_depth : nat; ps_split_misses : nat }.
Arguments mk_path_set {HT}.
Arguments ps_table {HT}.
Arguments ps_bits {HT}.
Arguments ps_ranks {HT}.
Arguments ps_trailing {HT}.
Arguments ps_exact_at {HT}.
Arguments ps_exact {HT}.
Arguments ps_wild_at {HT}.
Arguments ps_wild {HT}.
Arguments ps_max_depth {HT}.
Arguments ps_split_misses {HT}.

Record Splits : Type := mk_splits { sp_exact : list (Z * Z); sp_wild : list (Z * Z) }.

Section path_set.
Context {St : Type} `{IH : IdHandle PathNode St} {HT : Type} `{HH : HashTable Z HT}.
Context (fxh : PathSegment -> Z -> Z).

(** ** Candidates *)

(** [p]'s first [n] segments folded onto [h], from the last outward. *)
Fixpoint path_fold (st : St) (p : Z) (n : nat) (h : Z) : outcome Z :=
  match n with
  | 0%nat => Ret h
  | S n =>
      u ← fp_uncons st p;
      '(head, tail) ← unwrap u;
      h ← path_fold st tail n h;
      Ret (suffix_hash fxh head h)
  end.

Definition candidate_hash (st : St) (c : Candidate) : outcome Z :=
  h ← fp_suffix_hash st (c_base c);
  let h := match c_junction c with Some s => suffix_hash fxh (Offset s) h | None => h end in
  path_fold st (c_body c) (c_n c) h.

Fixpoint candidate_loop (st : St) (n : nat) (p body : Z) : outcome (option Z) :=
  match n with
  | 0%nat => Ret (Some p)
  | S n =>
      u ← fp_uncons st p;
      v ← fp_uncons st body;
      match u, v with
      | Some (a, p_tail), Some (b, body_tail) => if decide (a <> b) then Ret None else candidate_loop st n p_tail body_tail
      | _, _ => Ret None
      end
  end.

Definition candidate_is (st : St) (c : Candidate) (p : Z) : outcome bool :=
  r ← candidate_loop st (c_n c) p (c_body c);
  match r with
  | None => Ret false
  | Some p =>
      match c_junction c with
      | Some s =>
          u ← fp_uncons st p;
          match u with
          | Some (Offset o, tail) => if decide (o = s) then Ret (bool_decide (tail = c_base c)) else Ret false
          | _ => Ret false
          end
      | None => Ret (bool_decide (p = c_base c))
      end
  end.

(** ** Freezing *)

(** [members.dedup()]. *)
Fixpoint dedup_sorted (l : list Z) : list Z :=
  match l with
  | x :: (y :: _) as l' => if decide (x = y) then dedup_sorted l' else x :: dedup_sorted l'
  | _ => l
  end.

(** The hash the table is told to rehash a member with. *)
Definition member_hash (st : St) (q : Z) : Z := match fp_suffix_hash st q with Ret h => wide h | _ => 0 end.

Definition add_member (fuel : nat) (st : St) (s : PathSet HT) (p : Z) : outcome (St * PathSet HT) :=
  word ← iv_index (ps_bits s) (Z.to_nat (p / 64));
  bits ← iv_set (ps_bits s) (Z.to_nat (p / 64)) (Z.lor word (Z.shiftl 1 (p mod 64)));
  '(st, keys) ← prefix_keys fxh fuel st p;
  '(st, wilds) ← prefix_keys_wild fxh fuel st p;
  '(st, trailing) ← split_trailing_offset fxh fuel st p;
  len ← fp_len fuel st p;
  table ← (if fp_is_empty p then Ret (ps_table s)
           else h ← fp_suffix_hash st p; Ret (ht_insert_unique (ps_table s) (wide h) p (member_hash st)));
  Ret (st, mk_path_set table bits (ps_ranks s) (ps_trailing s ++ [default (EMPTY, 0) trailing])
    (ps_exact_at s ++ [u32 (Z.of_nat (length (ps_exact s)))]) (ps_exact s ++ keys)
    (ps_wild_at s ++ [u32 (Z.of_nat (length (ps_wild s)))]) (ps_wild s ++ wilds)
    (Nat.max (ps_max_depth s) len) (ps_split_misses s)).

(** The members in the words before each word. *)
Fixpoint rank_words (before : Z) (bits : list Z) : list Z :=
  match bits with
  | [] => []
  | word :: bits => before :: rank_words (before + count_ones word) bits
  end.

Definition from_paths (fuel : nat) (st : St) (paths : list Z) : outcome (St * PathSet HT) :=
  let members := dedup_sorted (merge_sort Z.le paths) in
  let words := match last members with Some p => (Z.to_nat (p / 64) + 1)%nat | None => 0%nat end in
  let s := mk_path_set ht_new (replicate words 0) (replicate words 0) [] [] [] [] [] 0 0 in
  '(st, s) ← foldM (fun '(st, s) p => add_member fuel st s p) (st, s) members;
  Ret (st, mk_path_set (ps_table s) (ps_bits s) (rank_words 0 (ps_bits s)) (ps_trailing s)
    (ps_exact_at s ++ [u32 (Z.of_nat (length (ps_exact s)))]) (ps_exact s)
    (ps_wild_at s ++ [u32 (Z.of_nat (length (ps_wild s)))]) (ps_wild s) (ps_max_depth s) (ps_split_misses s)).

(** ** Queries *)

Definition rank (s : PathSet HT) (p : Z) : outcome (option Z) :=
  match ps_bits s !! Z.to_nat (p / 64) with
  | None => Ret None
  | Some word =>
      let bit := Z.shiftl 1 (p mod 64) in
      if decide (Z.land word bit <> 0) then
        before ← iv_index (ps_ranks s) (Z.to_nat (p / 64));
        Ret (Some (before + count_ones (Z.land word (bit - 1))))
      else Ret None
  end.

Definition ps_contains (s : PathSet HT) (p : Z) : outcome bool := r ← rank s p; Ret (bool_decide (is_Some r)).
Definition ps_len (s : PathSet HT) : nat := length (ps_trailing s).
Definition ps_is_empty (s : PathSet HT) : bool := bool_decide (ps_trailing s = []).

Definition splits (s : PathSet HT) (p : Z) : outcome Splits :=
  r ← rank s p;
  match r with
  | Some r =>
      let r := Z.to_nat r in
      e0 ← iv_index (ps_exact_at s) r;
      e1 ← iv_index (ps_exact_at s) (S r);
      exact ← slice (ps_exact s) (Z.to_nat e0, Z.to_nat e1);
      w0 ← iv_index (ps_wild_at s) r;
      w1 ← iv_index (ps_wild_at s) (S r);
      wild ← slice (ps_wild s) (Z.to_nat w0, Z.to_nat w1);
      Ret (mk_splits exact wild)
  | None => Ret (mk_splits [] [])
  end.

(** A path that is not a member is a bug: the debug assertion fails. *)
Definition ps_split_trailing_offset (s : PathSet HT) (p : Z) : outcome (option (Z * Z)) :=
  if fp_is_empty p then Ret None
  else
    r ← rank s p;
    match r with
    | Some r => split ← iv_index (ps_trailing s) (Z.to_nat r); Ret (if decide (split.2 <> 0) then Some split else None)
    | None => Panic
    end.

(** The length of the prefix, its last offset, and whether it ends in [#value]. *)
Fixpoint scan_prefix (fuel : nat) (st : St) (p : Z) (len : nat) (last_off : option Z) (last_value : bool) : outcome (nat * option Z * bool) :=
  match fuel with
  | 0%nat => OutOfFuel
  | S fuel =>
      u ← fp_uncons st p;
      match u with
      | None => Ret (len, last_off, last_value)
      | Some (head, tail) =>
          if fp_is_empty tail
          then scan_prefix fuel st tail (S len) match head with Offset o => Some o | _ => None end (is_value head)
          else scan_prefix fuel st tail (S len) last_off last_value
      end
  end.

Definition ps_candidate (fuel : nat) (st : St) (prefix : Z) (adjust : option Z) (rest : Z) : outcome Candidate :=
  '(len, last_off, last_value) ← scan_prefix fuel st prefix 0 None false;
  rest_off ← head_offset st rest;
  rest_head ← fp_head st rest;
  rest_tail ← fp_tail st rest;
  let rest_value := match rest_head with Some h => is_value h | None => false end in
  let n := (len - (if bool_decide (is_Some last_off) then 1 else 0))%nat in
  if (last_value : bool) then
    Ret (mk_candidate prefix len None (if bool_decide (is_Some rest_off) || rest_value then rest_tail else rest))
  else if (rest_value : bool) then Ret (mk_candidate prefix n None rest)
  else if bool_decide (is_Some last_off) || bool_decide (is_Some adjust) then
    sum ← add_i64 (default 0 last_off) (default 0 adjust);
    sum ← add_i64 sum (default 0 rest_off);
    Ret (mk_candidate prefix n (if decide (sum <> 0) then Some sum else None) (if bool_decide (is_Some rest_off) then rest_tail else rest))
  else Ret (mk_candidate prefix len None rest).

Definition ps_concat (fuel : nat) (st : St) (s : PathSet HT) (prefix : Z) (adjust : option Z) (rest : Z) : outcome (option Z) :=
  c ← ps_candidate fuel st prefix adjust rest;
  if decide (c_n c = 0%nat /\ c_junction c = None) then
    b ← ps_contains s (c_base c); Ret (if (b : bool) then Some (c_base c) else None)
  else if decide (ps_max_depth s < c_n c + (if bool_decide (is_Some (c_junction c)) then 1 else 0))%nat then Ret None
  else
    h ← candidate_hash st c;
    ht_find (ps_table s) (wide h) (fun p => h' ← fp_suffix_hash st p; if decide (h' = h) then candidate_is st c p else Ret false).

Definition ps_substitute_prefix (fuel : nat) (st : St) (s : PathSet HT) (p prefix new_prefix : Z) : outcome (option Z) :=
  r ← match_prefix_split fuel st p prefix;
  match r with
  | Some (adjust, rest) => ps_concat fuel st s new_prefix adjust rest
  | None => Ret None
  end.
End path_set.

(** ** Candidates denote *)

Section candidates.
Context {St : Type} `{IH : IdHandle PathNode St} (fxh : PathSegment -> Z -> Z) (Hfirst : EMPTY < ih_first).
Abbreviation paths_ok := (paths_ok fxh).
Abbreviation seg_hash := (seg_hash fxh).

Definition junction_seg (j : option Z) : path := match j with Some k => [Offset k] | None => [] end.

Lemma fp_uncons_spec st p l : paths_ok st -> denotes st p l ->
  match l with
  | [] => p = EMPTY /\ fp_uncons st p = Ret None
  | x :: l' => exists q, p <> EMPTY /\ fp_uncons st p = Ret (Some (x, q)) /\ denotes st q l'
  end.
Proof.
  intros Hok H. unfold fp_uncons. destruct (fp_node_spec _ Hfirst _ _ _ Hok H) as [(-> & -> & ->)|(n & l' & Hne & -> & -> & H' & _)]; cbn [mbind outcome_bind]; eauto.
Qed.

Lemma path_fold_spec st n : paths_ok st -> forall p l r, denotes st p l -> (n <= length l)%nat -> path_fold fxh st p n (seg_hash r) = Ret (seg_hash (take n l ++ r)).
Proof.
  intros Hok. induction n as [|n IHn]; intros p l r Hp Hn; [done|]. cbn [path_fold]. pose proof (fp_uncons_spec _ _ _ Hok Hp) as H.
  destruct l as [|x l]; [simpl in Hn; lia|]. destruct H as (q & _ & -> & Hq). cbn [mbind outcome_bind unwrap]. rewrite (IHn q l r Hq) by (simpl in Hn; lia). done.
Qed.

(** The segments of a candidate. *)
Definition candidate_segs (c : Candidate) (body base : path) : path := take (c_n c) body ++ junction_seg (c_junction c) ++ base.

Lemma candidate_hash_spec st c body base : paths_ok st -> denotes st (c_body c) body -> denotes st (c_base c) base -> (c_n c <= length body)%nat ->
  candidate_hash fxh st c = Ret (seg_hash (candidate_segs c body base)).
Proof.
  intros Hok Hb Hs Hn. unfold candidate_hash. rewrite (fp_suffix_hash_spec _ Hfirst _ _ _ Hok Hs). cbn [mbind outcome_bind]. unfold candidate_segs.
  destruct (c_junction c) as [k|]; [exact (path_fold_spec st (c_n c) Hok _ _ (Offset k :: base) Hb Hn)|by apply path_fold_spec].
Qed.

Lemma candidate_loop_spec st n : paths_ok st -> forall p body l b, denotes st p l -> denotes st body b -> (n <= length b)%nat ->
  exists r, candidate_loop st n p body = Ret r /\ if decide (take n l = take n b) then exists q, r = Some q /\ denotes st q (drop n l) else r = None.
Proof.
  intros Hok. induction n as [|n IHn]; intros p body l b Hp Hb Hn; [exists (Some p); split; [done|]; rewrite decide_True by done; eauto|]. cbn [candidate_loop].
  pose proof (fp_uncons_spec _ _ _ Hok Hp) as H. pose proof (fp_uncons_spec _ _ _ Hok Hb) as H'. destruct b as [|y b]; [simpl in Hn; lia|].
  destruct H' as (bt & _ & E' & Hbt). destruct l as [|x l].
  - destruct H as (_ & ->). cbn [mbind outcome_bind]. rewrite E'. cbn [mbind outcome_bind]. exists None. split; [done|]. by rewrite decide_False.
  - destruct H as (pt & _ & -> & Hpt). cbn [mbind outcome_bind]. rewrite E'. cbn [mbind outcome_bind]. destruct (decide (x <> y)) as [Hne|He].
    + exists None. split; [done|]. rewrite decide_False; [done|]. simpl. congruence.
    + assert (x = y) as -> by (destruct (decide (x = y)); [done|]; by destruct He). destruct (IHn pt bt l b Hpt Hbt ltac:(simpl in Hn; lia)) as (r & -> & Hr).
      exists r. split; [done|]. simpl. destruct (decide (take n l = take n b)) as [E|E]; [rewrite decide_True by (by rewrite E)|rewrite decide_False by congruence]; done.
Qed.

Lemma candidate_is_spec st c p l body base : paths_ok st -> denotes st p l -> denotes st (c_body c) body -> denotes st (c_base c) base -> (c_n c <= length body)%nat ->
  candidate_is st c p = Ret (bool_decide (l = candidate_segs c body base)).
Proof.
  intros Hok Hp Hb Hs Hn. unfold candidate_is. destruct (candidate_loop_spec st (c_n c) Hok p (c_body c) l body Hp Hb Hn) as (r & -> & Hr). cbn [mbind outcome_bind].
  unfold candidate_segs. destruct (decide (take (c_n c) l = take (c_n c) body)) as [Et|Et].
  2:{ subst r. f_equal. symmetry. apply bool_decide_eq_false_2. intros E. apply Et. rewrite E, take_app_le, take_take, Nat.min_id by (rewrite length_take; lia). done. }
  destruct Hr as (q & -> & Hq). assert (forall x, l = take (c_n c) body ++ x <-> drop (c_n c) l = x) as Hd.
  { intros x. rewrite <- Et. split; [|by intros <-; rewrite take_drop]. intros E. apply (app_inv_head (take (c_n c) l)). by rewrite take_drop. }
  rewrite (bool_decide_ext _ _ (Hd _)). destruct (c_junction c) as [k|]; cbn [junction_seg app].
  - pose proof (fp_uncons_spec _ _ _ Hok Hq) as H. destruct (drop (c_n c) l) as [|x tl].
    + destruct H as (_ & ->). cbn [mbind outcome_bind]. done.
    + destruct H as (t & _ & -> & Ht). cbn [mbind outcome_bind]. destruct x as [f|o| |]; try done.
      destruct (decide (o = k)) as [->|Hne]; [|f_equal; symmetry; apply bool_decide_eq_false_2; congruence]. f_equal. apply bool_decide_ext.
      split; [intros ->; f_equal; by apply (denotes_fun _ Hfirst _ _ _ _ Hok Ht Hs)|]. intros [= ->]. by apply (denotes_inj _ Hfirst _ _ _ _ Hok Ht Hs).
  - f_equal. apply bool_decide_ext. split; [intros ->; by apply (denotes_fun _ Hfirst _ _ _ _ Hok Hq Hs)|]. intros E. rewrite E in Hq. by apply (denotes_inj _ Hfirst _ _ _ _ Hok Hq Hs).
Qed.

Lemma scan_prefix_spec fuel st : paths_ok st -> forall p l len o v, denotes st p l -> (length l < fuel)%nat ->
  scan_prefix fuel st p len o v = Ret (len + length l, match last l with Some (Offset k) => Some k | None => o | _ => None end, match last l with Some x => is_value x | None => v end)%nat.
Proof.
  intros Hok. induction fuel as [|fuel IHf]; intros p l len o v Hp Hf; [lia|]. cbn [scan_prefix]. pose proof (fp_uncons_spec _ _ _ Hok Hp) as H.
  destruct l as [|x l]; [destruct H as (_ & ->); cbn [mbind outcome_bind]; by rewrite Nat.add_0_r|]. destruct H as (t & _ & -> & Ht). cbn [mbind outcome_bind].
  rewrite (fp_empty_spec _ Hfirst _ _ _ Hok Ht). simpl in Hf. destruct l as [|y l].
  - rewrite bool_decide_eq_true_2 by done. rewrite (IHf _ _ _ _ _ Ht) by (simpl; lia). simpl. do 2 f_equal. f_equal. lia.
  - rewrite bool_decide_eq_false_2 by done. rewrite (IHf _ _ _ _ _ Ht) by (simpl in *; lia). rewrite last_cons_cons. destruct (last (y :: l)) eqn:E; [|by apply last_None in E].
    do 3 f_equal. simpl. lia.
Qed.

(** ** What a candidate is a candidate for *)

(** [prefix . [adjust] . rest] in the path algebra. *)
Definition target (a : path) (adjust : option Z) (b : path) : path := concat (concat a (junction_seg adjust)) b.

Definition last_offset (a : path) : Z := match last a with Some (Offset k) => k | _ => 0 end.
Definition first_offset (b : path) : Z := match head b with Some (Offset k) => k | _ => 0 end.

(** The sums of the offsets that meet are [i64]s, as long as they are computed. *)
Definition sums_fit (a : path) (adjust : option Z) (b : path) : Prop := last a = Some Value \/ head b = Some Value \/
  (in_i64 (last_offset a + default 0 adjust) /\ in_i64 (last_offset a + default 0 adjust + first_offset b)).

Lemma push_offset_plain i k : ends_plain i -> last i <> Some Value -> push_normalized i (Offset k) = i ++ (if decide (k = 0) then [] else [Offset k]).
Proof.
  intros Hp Hv. cbn [push_normalized]. unfold ends_plain in Hp. destruct (split_last i) as [[i' x]|] eqn:E.
  - apply split_last_Some in E as ->. rewrite last_snoc in *. destruct x; try done; destruct (decide (k = 0)); by rewrite ?app_nil_r.
  - destruct (decide (k = 0)); by rewrite ?app_nil_r.
Qed.

Lemma push_value_plain i o : ends_plain i -> last i <> Some Value -> push_normalized (i ++ junction_seg o) Value = i ++ [Value].
Proof.
  intros Hp Hv. assert (match split_last i with Some (_, Value) => i | _ => i ++ [Value] end = i ++ [Value]) as E1.
  { destruct (split_last i) as [[i' []]|] eqn:E; try done. apply split_last_Some in E as ->. by rewrite last_snoc in Hv. }
  destruct o as [k|]; cbn [junction_seg push_normalized].
  - rewrite split_last_snoc. exact E1.
  - rewrite app_nil_r. unfold ends_plain in Hp. destruct (split_last i) as [[i' x]|] eqn:E; [|by rewrite ?E]. pose proof E as E'. apply split_last_Some in E' as ->.
    rewrite last_snoc in Hp. destruct x; try done; by rewrite E.
Qed.

(** A normal form is a part that does not end in an offset, and an offset. *)
Lemma trim_offset a : nf a -> last a <> Some Value -> exists i o, a = i ++ junction_seg o /\ nf i /\ ends_plain i /\ last i <> Some Value /\
  last_offset a = default 0 o /\ o = match last a with Some (Offset k) => Some k | _ => None end /\ in_i64 (default 0 o) /\ o <> Some 0.
Proof.
  intros Ha Hv. unfold last_offset. destruct (last a) as [x|] eqn:E; [pose proof E as [i ->]%last_Some|apply last_None in E as ->].
  - destruct x as [f|k| |]; try done.
    2:{ pose proof (nf_offset_init _ _ Ha) as (H1 & H2 & H3 & H4 & H5). exists i, (Some k). split_and!; try done. congruence. }
    all: eexists _, None; cbn [junction_seg]; rewrite app_nil_r; split_and!; try done; try (unfold ends_plain; by rewrite last_snoc); congruence.
  - exists [], None. split_and!; try done.
Qed.

Lemma head_trim b : nf b -> head b <> Some Value -> exists b', nf b' /\ in_i64 (first_offset b) /\
  match head b' with Some (Offset _) | Some Value => False | _ => True end /\
  ((first_offset b = 0 /\ b' = b /\ match head b with Some (Offset _) => False | _ => True end) \/ b = Offset (first_offset b) :: b' /\ first_offset b <> 0).
Proof.
  intros Hb Hv. unfold first_offset. destruct b as [|y b]; [exists []; by split_and!; try left|]. cbn [head] in *. pose proof (nf_cons_inv _ _ Hb) as (Hy & Hb' & Hj).
  destruct y as [f|k| |]; try done; [exists (Field f :: b)|exists b|exists (Deref :: b)]; split_and!; try done; try (by left); try apply Hy.
  - by destruct (head b) as [[]|].
  - right. split; [done|apply Hy].
Qed.

Lemma target_sum a adjust b i o b' : nf a -> nf b -> a = i ++ junction_seg o -> nf i -> ends_plain i -> last i <> Some Value ->
  in_i64 (default 0 o) -> (forall k, adjust = Some k -> in_i64 k) -> nf b' -> match head b' with Some (Offset _) | Some Value => False | _ => True end ->
  (first_offset b = 0 /\ b' = b) \/ b = Offset (first_offset b) :: b' -> in_i64 (first_offset b) ->
  in_i64 (default 0 o + default 0 adjust) -> in_i64 (default 0 o + default 0 adjust + first_offset b) -> o <> Some 0 ->
  let sum := default 0 o + default 0 adjust + first_offset b in target a adjust b = i ++ (if decide (sum = 0) then [] else [Offset sum]) ++ b'.
Proof.
  intros Ha Hb -> Hi Hp Hv Ho Hadj Hb' Hhb Hcase Hfo Hs1 Hs2 Ho0 sum.
  assert (i ++ junction_seg o = push_normalized i (Offset (default 0 o))) as Ea.
  { rewrite push_offset_plain by done. destruct o as [k|]; [|by rewrite decide_True]. simpl. rewrite decide_False; [done|]. intros ->. by apply Ho0. }
  unfold target. assert (concat (i ++ junction_seg o) (junction_seg adjust) = push_normalized i (Offset (default 0 o + default 0 adjust))) as ->.
  { rewrite Ea. destruct adjust as [k|]; simpl junction_seg; simpl default.
    - change (concat ?x [Offset k]) with (push_normalized x (Offset k)). rewrite push_offset_offset by (done || by apply Hadj). f_equal. f_equal. by apply wrap_i64_id.
    - by rewrite Z.add_0_r. }
  assert (concat (push_normalized i (Offset (default 0 o + default 0 adjust))) b = concat (push_normalized i (Offset sum)) b') as ->.
  { destruct Hcase as [[E ->]|E]; [unfold sum; by rewrite E, Z.add_0_r|]. rewrite E at 1.
    change (concat ?x (?y :: b')) with (concat (push_normalized x y) b'). rewrite push_offset_offset by done. do 3 f_equal. by apply wrap_i64_id. }
  rewrite push_offset_plain by done. rewrite app_assoc. apply concat_app_nf. rewrite <- app_assoc.
  assert (nf ((if decide (sum = 0) then [] else [Offset sum]) ++ b')) as Hnf.
  { destruct (decide (sum = 0)); [done|]. apply nf_cons; [done|done|]. by destruct (head b') as [[]|]. }
  apply nf_app; [done..|]. unfold ends_plain in Hp. set (h := head _). assert (h <> Some Value) as Hh by (unfold h; destruct (decide (sum = 0)); simpl; [intros E; by rewrite E in Hhb|done]).
  destruct (last i) as [[]|]; try done; destruct h as [[]|]; done.
Qed.
Lemma push_after_value a s : nf a -> last a = Some Value -> (exists k, s = Offset k) \/ s = Value -> push_normalized a s = a.
Proof.
  intros Ha [i ->]%last_Some Hs. rewrite <- (push_normalized_snoc i Value) by done. destruct Hs as [[k ->]| ->]; [apply push_value_offset|apply push_value_value].
Qed.

Lemma target_after_value a adjust b : nf a -> nf b -> last a = Some Value ->
  target a adjust b = a ++ match head b with Some (Offset _) | Some Value => tail b | _ => b end.
Proof.
  intros Ha Hb Hv. unfold target. replace (concat a (junction_seg adjust)) with a by (destruct adjust as [k|]; [symmetry; apply push_after_value; eauto|done]).
  destruct b as [|y b]; [by rewrite app_nil_r|]. rewrite concat_cons by done. cbn [head tail]. destruct y as [f|k| |].
  2,4: rewrite push_after_value by eauto; done.
  all: cbn [push_normalized]; by rewrite <- app_assoc.
Qed.

Lemma target_before_value a adjust b i o : nf a -> nf (Value :: b) -> (forall k, adjust = Some k -> in_i64 k) -> a = i ++ junction_seg o -> ends_plain i -> last i <> Some Value ->
  target a adjust (Value :: b) = i ++ Value :: b.
Proof.
  intros Ha Hb Hadj -> Hp Hv. unfold target. rewrite concat_cons; [|apply concat_nf; [done|]; destruct adjust as [k|]; repeat constructor; by apply Hadj|done].
  replace (push_normalized (concat (i ++ junction_seg o) (junction_seg adjust)) Value) with (push_normalized (i ++ junction_seg o) Value).
  - rewrite push_value_plain by done. by rewrite <- app_assoc.
  - destruct adjust as [k|]; [|done]. symmetry. by apply (push_offset_value (i ++ junction_seg o) k).
Qed.

(** [PathSet::concat] looks for [prefix . [adjust] . rest]. *)
Lemma candidate_spec fuel st p adjust q a b : paths_ok st -> denotes st p a -> denotes st q b -> (length a < fuel)%nat ->
  (forall k, adjust = Some k -> in_i64 k) -> sums_fit a adjust b ->
  exists c cs, ps_candidate fuel st p adjust q = Ret c /\ c_body c = p /\ denotes st (c_base c) cs /\ (c_n c <= length a)%nat /\ candidate_segs c a cs = target a adjust b.
Proof.
  intros Hok Hp Hq Hf Hadj Hfit. unfold ps_candidate. rewrite (scan_prefix_spec fuel st Hok p a 0 None false Hp Hf). cbn [mbind outcome_bind].
  unfold head_offset. rewrite (fp_head_spec _ Hfirst _ _ _ Hok Hq). cbn [mbind outcome_bind]. destruct (fp_tail_spec _ Hfirst _ _ _ Hok Hq) as (t & -> & Ht). cbn [mbind outcome_bind].
  destruct (denotes_fact _ Hfirst _ _ _ Hok Hp) as [Ha _]. destruct (denotes_fact _ Hfirst _ _ _ Hok Hq) as [Hb _]. rewrite Nat.add_0_l.
  destruct (decide (last a = Some Value)) as [Hv|Hv].
  { rewrite Hv. cbn [is_value]. eexists _, _. split; [done|]. cbn [c_body c_base c_n]. split; [done|]. split; [|split; [done|]].
    2:{ unfold candidate_segs. cbn [c_n c_junction junction_seg app]. rewrite firstn_all, target_after_value by done. done. }
    destruct b as [|[f|k| |] b]; done. }
  replace (match last a with Some x => is_value x | None => false end) with false by (destruct (last a) as [[]|]; done).
  destruct (trim_offset a Ha Hv) as (i & o & Ea & Hi & Hip & Hiv & Eo & Eo' & Hoi & Ho0).
  replace (match last a with Some (Offset k) => Some k | _ => None end) with o. cbn [fst snd].
  assert ((length a - (if bool_decide (is_Some o) then 1 else 0))%nat = length i) as Elen.
  { rewrite Ea, length_app. destruct o as [k|]; cbn [junction_seg length]; [rewrite bool_decide_eq_true_2 by eauto|rewrite bool_decide_eq_false_2 by (by intros [])]; lia. }
  assert (take (length i) a = i) as Etake by (rewrite Ea; apply take_app_length). assert ((length i <= length a)%nat) as Hle by (rewrite Ea, length_app; lia).
  rewrite Elen. destruct (decide (head b = Some Value)) as [Hbv|Hbv].
  { destruct b as [|y b]; [done|]. injection Hbv as ->. cbn [head is_value]. eexists _, _. split; [done|]. cbn [c_body c_base c_n]. split_and!; [done..|].
    unfold candidate_segs. cbn [c_n c_junction junction_seg app]. rewrite Etake. symmetry. by eapply target_before_value. }
  replace (match head b with Some h => is_value h | None => false end) with false by (destruct (head b) as [[]|]; done).
  destruct (head_trim b Hb Hbv) as (b' & Hb' & Hfo & Hhb & Hcase). destruct Hfit as [?|[?|[Hs1 Hs2]]]; [done..|]. rewrite Eo in Hs1, Hs2.
  pose proof (target_sum a adjust b i o b' Ha Hb Ea Hi Hip Hiv Hoi Hadj Hb' Hhb ltac:(naive_solver) Hfo Hs1 Hs2 Ho0) as Ht'. cbn beta zeta in Ht'. rewrite Ht'. clear Ht'.
  replace (match head b with Some (Offset n) => Some n | _ => None end) with (if decide (first_offset b = 0) then None else Some (first_offset b)).
  2:{ destruct Hcase as [(-> & _ & Hn)|[-> Hn]]; [rewrite decide_True by done; by destruct (head b) as [[]|]|by rewrite decide_False]. }
  destruct (decide (o = None /\ adjust = None)) as [[-> ->]|Hne].
  - simpl. eexists _, _. split; [done|]. cbn [c_body c_base c_n]. split_and!; [done..|]. unfold candidate_segs. cbn [c_n c_junction junction_seg app].
    rewrite firstn_all. rewrite Ea. cbn [junction_seg]. rewrite app_nil_r. f_equal. rewrite Z.add_0_l.
    destruct Hcase as [(-> & -> & _)|[Eb Hn]]; [by rewrite decide_True|]. rewrite decide_False by done. done.
  - replace (bool_decide (is_Some o) || bool_decide (is_Some adjust)) with true.
    2:{ symmetry. apply orb_true_iff. destruct o; [left; apply bool_decide_eq_true_2; eauto|]. destruct adjust; [right; apply bool_decide_eq_true_2; eauto|by destruct Hne]. }
    unfold add_i64. rewrite (decide_True (P := in_i64 (default 0 o + default 0 adjust))) by done. cbn [mbind outcome_bind].
    replace (default 0 (if decide (first_offset b = 0) then None else Some (first_offset b))) with (first_offset b) by (destruct (decide (first_offset b = 0)); done).
    rewrite (decide_True (P := in_i64 (default 0 o + default 0 adjust + first_offset b))) by done. cbn [mbind outcome_bind]. set (sum := default 0 o + default 0 adjust + first_offset b).
    exists (mk_candidate p (length i) (if decide (sum <> 0) then Some sum else None) (if decide (first_offset b = 0) then q else t)), b'.
    split; [|split; [done|split; [|split; [done|]]]].
    + f_equal. f_equal. destruct (decide (first_offset b = 0)); [by rewrite bool_decide_eq_false_2 by (by intros [])|by rewrite bool_decide_eq_true_2 by eauto].
    + cbn [c_base]. destruct Hcase as [(-> & -> & _)|[Eb Hn]]; [by rewrite decide_True|]. rewrite decide_False by done. by rewrite Eb in Ht.
    + unfold candidate_segs. cbn [c_n c_junction]. rewrite Etake. f_equal. destruct (decide (sum = 0)); [by rewrite decide_False by lia|by rewrite decide_True].
Qed.
End candidates.

(** ** Members by their bits *)

(** Bit [i] of word [k] says whether [64 k + i] is a member. *)
Definition bits_of (bits : list Z) (members : list Z) : Prop :=
  forall k w i, bits !! k = Some w -> 0 <= i < 64 -> Z.testbit w i = bool_decide (64 * Z.of_nat k + i ∈ members).

Lemma testbit_set w i j : 0 <= i -> 0 <= j -> Z.testbit (Z.lor w (Z.shiftl 1 i)) j = Z.testbit w j || bool_decide (j = i).
Proof.
  intros Hi Hj. rewrite Z.lor_spec, Z.shiftl_1_l, Z.pow2_bits_eqb by lia. f_equal. case_bool_decide; [subst; by apply Z.eqb_refl|apply Z.eqb_neq; lia].
Qed.

Lemma land_bit w i : 0 <= i -> Z.land w (Z.shiftl 1 i) <> 0 <-> Z.testbit w i = true.
Proof.
  intros Hi. split.
  - intros H. destruct (Z.testbit w i) eqn:E; [done|]. destruct H. apply Z.bits_inj_0. intros j. rewrite Z.land_spec, Z.shiftl_1_l.
    destruct (decide (j = i)) as [->|Hn]; [by rewrite E|]. rewrite Z.pow2_bits_false by lia. apply andb_false_r.
  - intros E H. assert (Z.testbit (Z.land w (Z.shiftl 1 i)) i = true) as Ht by (rewrite Z.land_spec, E, Z.shiftl_1_l, Z.pow2_bits_true by lia; done).
    by rewrite H, Z.bits_0 in Ht.
Qed.

Lemma bits_of_set bits members p w : 0 <= p -> bits !! Z.to_nat (p / 64) = Some w -> bits_of bits members ->
  bits_of (<[Z.to_nat (p / 64) := Z.lor w (Z.shiftl 1 (p mod 64))]> bits) (members ++ [p]).
Proof.
  intros Hp Hw Hb k w' i Hk Hi. pose proof (Z_div_mod_eq_full p 64). pose proof (Z.mod_pos_bound p 64 ltac:(lia)). pose proof (Z.div_pos p 64 Hp ltac:(lia)).
  destruct (decide (k = Z.to_nat (p / 64))) as [->|Hne].
  - rewrite list_lookup_insert_eq in Hk by (by apply lookup_lt_Some in Hw). injection Hk as <-. rewrite testbit_set, (Hb _ _ _ Hw Hi) by lia.
    rewrite Z2Nat.id by done. apply eq_true_iff_eq. rewrite orb_true_iff, !bool_decide_eq_true, elem_of_app, list_elem_of_singleton. split; (intros [?|?]; [by left|right; lia]).
  - rewrite list_lookup_insert_ne in Hk by done. rewrite (Hb _ _ _ Hk Hi). apply bool_decide_ext. rewrite elem_of_app, list_elem_of_singleton. split; [by left|].
    intros [?|E]; [done|]. destruct Hne. rewrite <- E. rewrite (Z.mul_comm 64), Z.div_add_l, Z.div_small by lia. lia.
Qed.

(** The number of members in an interval. *)
Definition members_in (members : list Z) (a n : Z) : Z := Z.of_nat (length (filter (.∈ members) (seqZ a n))).

Lemma members_in_app members a m n : 0 <= m -> 0 <= n -> members_in members a (m + n) = members_in members a m + members_in members (a + m) n.
Proof. intros Hm Hn. unfold members_in. rewrite seqZ_app, filter_app, length_app by lia. lia. Qed.

Lemma filter_seqZ_shift {P Q : Z -> Prop} `{!forall x, Decision (P x), !forall x, Decision (Q x)} a n :
  (forall i, 0 <= i < n -> P i <-> Q (a + i)) -> length (filter P (seqZ 0 n)) = length (filter Q (seqZ a n)).
Proof.
  intros Hpq. destruct (decide (0 <= n)) as [Hn|Hn]; [|by rewrite !seqZ_nil by lia]. apply Z_of_nat_complete in Hn as [m ->]. induction m as [|m IHm]; [done|].
  rewrite !seqZ_S, !filter_app, !length_app. rewrite IHm by (intros i Hi; apply Hpq; lia). f_equal. rewrite Z.add_0_l, !filter_cons, !filter_nil.
  pose proof (Hpq (Z.of_nat m) ltac:(lia)) as Hx. destruct (decide (P (Z.of_nat m))), (decide (Q (a + Z.of_nat m))); try done; naive_solver.
Qed.

Lemma count_ones_low bits members k w i : bits_of bits members -> bits !! k = Some w -> 0 <= i <= 64 ->
  count_ones (Z.land w (Z.ones i)) = members_in members (64 * Z.of_nat k) i.
Proof.
  intros Hb Hw Hi. unfold count_ones, members_in. f_equal. replace 64 with (i + (64 - i)) at 1 by lia. rewrite seqZ_app, filter_app, length_app by lia.
  rewrite (filter_seqZ_shift (Q := (.∈ members)) (64 * Z.of_nat k)).
  - replace (filter _ (seqZ (0 + i) (64 - i))) with (@nil Z); [simpl; lia|]. symmetry. apply elem_of_nil_inv. intros j [Hj' Hj%elem_of_seqZ]%list_elem_of_filter. revert Hj'. rewrite Z.land_spec, Z.ones_spec_high, andb_false_r by lia. done.
  - intros j Hj. rewrite Z.land_spec, Z.ones_spec_low, andb_true_r, (Hb _ _ _ Hw) by lia. apply bool_decide_eq_true.
Qed.

Lemma count_ones_word bits members k w : bits_of bits members -> bits !! k = Some w -> count_ones w = members_in members (64 * Z.of_nat k) 64.
Proof.
  intros Hb Hw. rewrite <- (count_ones_low bits members k w 64) by (done || lia). unfold count_ones. f_equal. apply filter_seqZ_shift. intros i Hi.
  by rewrite Z.land_spec, Z.ones_spec_low, andb_true_r by lia.
Qed.

Lemma rank_words_lookup bits members k w : bits_of bits members -> bits !! k = Some w -> rank_words 0 bits !! k = Some (members_in members 0 (64 * Z.of_nat k)).
Proof.
  intros Hb. cut (forall bits' n, (forall i, bits' !! i = bits !! (n + i)%nat) -> forall k, is_Some (bits' !! k) ->
    rank_words (members_in members 0 (64 * Z.of_nat n)) bits' !! k = Some (members_in members 0 (64 * Z.of_nat (n + k)))).
  { intros H Hk. rewrite <- (Nat.add_0_l k) at 2. by apply (H bits 0%nat (fun i => eq_refl)). }
  clear k w. induction bits' as [|w bits' IHb]; intros n Hn k [w' Hk]; [done|]. destruct k as [|k]; [by rewrite Nat.add_0_r|]. cbn [rank_words].
  change ((?x :: ?y) !! S k) with (y !! k). rewrite (count_ones_word bits members n w) by (done || (rewrite <- (Nat.add_0_r n), <- Hn; done)).
  replace (members_in members 0 (64 * Z.of_nat n) + members_in members (64 * Z.of_nat n) 64) with (members_in members 0 (64 * Z.of_nat (S n))).
  - rewrite IHb; [do 4 f_equal; lia| |by exists w']. intros i. specialize (Hn (S i)). by rewrite <- Nat.add_succ_comm in Hn.
  - rewrite <- (Z.add_0_l (64 * Z.of_nat n)) at 2. rewrite <- members_in_app by lia. f_equal. lia.
Qed.

(** ** The order of the members *)

Lemma StronglySorted_seqZ a n : StronglySorted Z.lt (seqZ a n).
Proof.
  destruct (decide (0 <= n)) as [Hn|Hn]; [|rewrite seqZ_nil by lia; constructor]. apply Z_of_nat_complete in Hn as [m ->]. revert a. induction m as [|m IHm]; intros a; [constructor|].
  rewrite seqZ_cons by lia. replace (Z.pred (Z.of_nat (S m))) with (Z.of_nat m) by lia. constructor; [apply IHm|]. apply Forall_forall. intros x Hx%elem_of_seqZ. lia.
Qed.

Lemma sorted_position members p : StronglySorted Z.lt members -> Forall (Z.le 0) members -> p ∈ members -> members !! Z.to_nat (members_in members 0 p) = Some p.
Proof.
  intros Hs H0 Hp. rewrite Forall_forall in H0. pose proof (H0 _ Hp) as Hp0. set (N := 1 + foldr Z.max p members).
  assert (forall x, x ∈ members -> x < N) as HN.
  { intros x Hx. unfold N. clear - Hx. induction members as [|y l IHl]; [by apply not_elem_of_nil in Hx|]. simpl. apply elem_of_cons in Hx as [->|Hx]; [lia|]. specialize (IHl Hx). lia. }
  assert (members = filter (.∈ members) (seqZ 0 N)) as E.
  { apply StronglySorted_unique_strong with Z.lt; [intros; lia|done|apply StronglySorted_filter, StronglySorted_seqZ|]. apply NoDup_Permutation; [by apply StronglySorted_lt_NoDup|apply NoDup_filter, NoDup_seqZ|].
    intros x. rewrite list_elem_of_filter, elem_of_seqZ. split; [|by intros [? _]]. intros Hx. specialize (H0 _ Hx). specialize (HN _ Hx). split; [done|lia]. }
  unfold members_in. rewrite Nat2Z.id. set (k := length _). rewrite E. pose proof (HN _ Hp). replace N with (p + (1 + (N - p - 1))) by lia. rewrite !seqZ_app, !filter_app by lia.
  rewrite lookup_app_r by done. unfold k. rewrite Nat.sub_diag, Z.add_0_l.
  change (seqZ p 1) with [p]. rewrite filter_cons, decide_True by done. done.
Qed.

Lemma elem_of_dedup l x : x ∈ dedup_sorted l <-> x ∈ l.
Proof.
  induction l as [|y l IHl]; [done|]. destruct l as [|z l]; [done|]. change (dedup_sorted (y :: z :: l)) with (if decide (y = z) then dedup_sorted (z :: l) else y :: dedup_sorted (z :: l)).
  destruct (decide (y = z)) as [->|Hne]; rewrite ?elem_of_cons, IHl, ?elem_of_cons; naive_solver.
Qed.

Lemma dedup_sorted_lt l : StronglySorted Z.le l -> StronglySorted Z.lt (dedup_sorted l).
Proof.
  induction 1 as [|y l Hs IHs Hy]; [constructor|]. destruct l as [|z l]; [repeat constructor|].
  change (dedup_sorted (y :: z :: l)) with (if decide (y = z) then dedup_sorted (z :: l) else y :: dedup_sorted (z :: l)).
  destruct (decide (y = z)) as [->|Hne]; [done|]. constructor; [done|]. apply Forall_forall. intros x Hx. rewrite elem_of_dedup in Hx.
  apply Forall_cons in Hy as [Hyz _]. apply StronglySorted_inv in Hs as [_ Hz]. rewrite Forall_forall in Hz.
  apply elem_of_cons in Hx as [->|Hx]; [lia|]. specialize (Hz _ Hx). lia.
Qed.

Lemma members_sorted paths : StronglySorted Z.lt (dedup_sorted (merge_sort Z.le paths)) /\ forall p, p ∈ dedup_sorted (merge_sort Z.le paths) <-> p ∈ paths.
Proof.
  split; [apply dedup_sorted_lt, (StronglySorted_merge_sort Z.le)|]. intros p. rewrite elem_of_dedup. by rewrite (merge_sort_Permutation Z.le paths).
Qed.

Lemma sorted_last_max l x y : StronglySorted Z.lt l -> last l = Some y -> x ∈ l -> x <= y.
Proof.
  intros Hs [l' ->]%last_Some Hx. apply elem_of_app in Hx as [Hx|Hx%list_elem_of_singleton]; [|lia].
  apply Z.lt_le_incl. eapply (StronglySorted_app_1_elem_of Z.lt l' [y]); [done..|by apply list_elem_of_singleton].
Qed.

(** ** Slices *)

Definition starts {X} (parts : list (list X)) (n : nat) : list Z := map (fun k => u32 (Z.of_nat (length (mjoin (take k parts))))) (seq 0 n).

Lemma starts_app {X} (parts : list (list X)) part : starts (parts ++ [part]) (length (parts ++ [part])) = starts parts (length parts) ++ [u32 (Z.of_nat (length (mjoin parts)))].
Proof.
  unfold starts. rewrite length_app, Nat.add_1_r, seq_S, map_app. f_equal.
  - apply map_ext_in. intros k Hk%in_seq. by rewrite take_app_le by lia.
  - simpl. by rewrite take_app_length.
Qed.

Lemma starts_last {X} (parts : list (list X)) : starts parts (length parts) ++ [u32 (Z.of_nat (length (mjoin parts)))] = starts parts (S (length parts)).
Proof. unfold starts. rewrite seq_S, map_app. simpl. by rewrite firstn_all. Qed.

Lemma slice_part {X} (parts : list (list X)) r part : Z.of_nat (length (mjoin parts)) < 2 ^ 32 -> parts !! r = Some part ->
  exists e0 e1, iv_index (starts parts (S (length parts))) r = Ret e0 /\ iv_index (starts parts (S (length parts))) (S r) = Ret e1 /\
    slice (mjoin parts) (Z.to_nat e0, Z.to_nat e1) = Ret part.
Proof.
  intros Hlt Hr. pose proof (lookup_lt_Some _ _ _ Hr) as Hlr. assert (forall k, (k <= length parts)%nat -> starts parts (S (length parts)) !! k = Some (Z.of_nat (length (mjoin (take k parts))))) as Hs.
  { intros k Hk. unfold starts. rewrite list_lookup_fmap, lookup_seq_lt by lia. simpl. f_equal. apply Z.mod_small. split; [lia|]. eapply Z.le_lt_trans; [|exact Hlt].
    rewrite <- (take_drop k parts) at 2. rewrite join_app, length_app. lia. }
  eexists _, _. split; [apply iv_index_Some, Hs; lia|]. split; [apply iv_index_Some, Hs; lia|]. rewrite !Nat2Z.id.
  pose proof (take_drop_middle _ _ _ Hr) as E. unfold slice. cbn [fst snd]. rewrite (take_S_r _ _ _ Hr), join_app, length_app. simpl mjoin. rewrite app_nil_r.
  assert (mjoin parts = mjoin (take r parts) ++ part ++ mjoin (drop (S r) parts)) as Ej by (rewrite <- E at 1; by rewrite join_app).
  rewrite Ej. rewrite decide_True by (rewrite !length_app; lia). f_equal. rewrite drop_app_length, Nat.add_comm, Nat.add_sub. apply take_app_length.
Qed.

(** ** The frozen set *)

Section frozen.
Context {St : Type} `{IH : IdHandle PathNode St} {HT : Type} `{HH : HashTable Z HT}.
Context (fxh : PathSegment -> Z -> Z).
Context (Heqb : forall a b : PathNode, ih_eqb a b = node_eqb a b) (Hfirst : EMPTY < ih_first).
Abbreviation paths_ok := (paths_ok fxh).
Abbreviation runs := (runs fxh).
Abbreviation seg_hash := (seg_hash fxh).
Implicit Types (st : St) (s : PathSet HT).

Definition wild_places (l : path) : list nat := map fst (filter (fun kc => is_wild kc = true) (enumerate l)).
Definition exact_of st (p : Z) (part : list (Z * Z)) : Prop := exists l, denotes st p l /\ Forall2 (split_at st l) part (seq 0 (S (length l))).
Definition wild_of st (p : Z) (part : list (Z * Z)) : Prop := exists l, denotes st p l /\ Forall2 (split_at st l) part (wild_places l).
Definition trailing_of st (p : Z) (t : Z * Z) : Prop := exists l, denotes st p l /\
  match split_last l with Some (init, Offset m) => denotes st t.1 init /\ t.2 = m | _ => t = (EMPTY, 0) end.
Definition sliced (R : Z -> list (Z * Z) -> Prop) (members : list Z) (starts_at : list Z) (all : list (Z * Z)) : Prop :=
  exists parts, Forall2 R members parts /\ all = mjoin parts /\ starts_at = starts parts (length parts).

(** The set while its members are added. *)
Record frozen st (words : nat) (members : list Z) s : Prop := {
  fr_words : length (ps_bits s) = words;
  fr_bits : bits_of (ps_bits s) members;
  fr_table : ht_ok (member_hash st) (ps_table s);
  fr_elems : ht_elems (ps_table s) ≡ₚ filter (.≠ EMPTY) members;
  fr_depth : forall p l, p ∈ members -> denotes st p l -> (length l <= ps_max_depth s)%nat;
  fr_trailing : Forall2 (trailing_of st) members (ps_trailing s);
  fr_exact : sliced (exact_of st) members (ps_exact_at s) (ps_exact s);
  fr_wild : sliced (wild_of st) members (ps_wild_at s) (ps_wild s);
}.

Lemma denotes_nonneg st p l : paths_ok st -> denotes st p l -> 0 <= p.
Proof. intros Hok H. destruct H as [|id n l Hn H]; [done|]. pose proof (ih_range _ _ _ (po_ok _ _ Hok) Hn). unfold EMPTY in *. lia. Qed.

Lemma member_hash_spec st p l : paths_ok st -> denotes st p l -> member_hash st p = wide (seg_hash l).
Proof. intros Hok Hp. unfold member_hash. by rewrite (fp_suffix_hash_spec _ Hfirst _ _ _ Hok Hp). Qed.

Lemma sliced_impl (R R' : Z -> list (Z * Z) -> Prop) members at_ all : (forall p part, R p part -> R' p part) -> sliced R members at_ all -> sliced R' members at_ all.
Proof. intros H (parts & H1 & H2). exists parts. split; [|done]. eapply Forall2_impl; eauto. Qed.

Lemma exact_of_grows st st' p part : grows st st' -> exact_of st p part -> exact_of st' p part.
Proof. intros Hg (l & Hp & H). exists l. split; [by eapply denotes_grows|by eapply split_at_grows]. Qed.

Lemma wild_of_grows st st' p part : grows st st' -> wild_of st p part -> wild_of st' p part.
Proof. intros Hg (l & Hp & H). exists l. split; [by eapply denotes_grows|by eapply split_at_grows]. Qed.

Lemma trailing_of_grows st st' p t : grows st st' -> trailing_of st p t -> trailing_of st' p t.
Proof.
  intros Hg (l & Hp & H). exists l. split; [by eapply denotes_grows|]. destruct (split_last l) as [[init []]|]; try done. destruct H as [H1 H2]. split; [by eapply denotes_grows|done].
Qed.

Lemma members_denote st members ts : Forall2 (trailing_of st) members ts -> forall p, p ∈ members -> exists l, denotes st p l.
Proof. intros H p [i Hi]%list_elem_of_lookup. destruct (Forall2_lookup_l _ _ _ _ _ H Hi) as (t & _ & l & Hl & _). eauto. Qed.

Lemma frozen_grows st st' words members s : paths_ok st -> paths_ok st' -> grows st st' -> frozen st words members s -> frozen st' words members s.
Proof.
  intros Hok Hok' Hg [Hw Hb Ht He Hd Htr Hex Hwi]. pose proof (members_denote _ _ _ Htr) as Hden. split; try done.
  - apply (ht_ok_ext (member_hash st)); [|done]. intros p Hp. rewrite He in Hp. apply list_elem_of_filter in Hp as [_ Hp]. destruct (Hden p Hp) as [l Hl].
    rewrite (member_hash_spec _ _ _ Hok Hl). symmetry. eapply member_hash_spec; [done|]. by eapply denotes_grows.
  - intros p l Hp Hl. destruct (Hden p Hp) as [l' Hl']. assert (l = l') as ->; [|by eapply Hd]. eapply (denotes_fun _ Hfirst); [exact Hok'|done|by eapply denotes_grows].
  - eapply Forall2_impl; [done|]. intros; by eapply trailing_of_grows.
  - eapply sliced_impl; [|done]. intros; by eapply exact_of_grows.
  - eapply sliced_impl; [|done]. intros; by eapply wild_of_grows.
Qed.

Lemma sliced_snoc (R : Z -> list (Z * Z) -> Prop) members at_ all p part : sliced R members at_ all -> R p part ->
  sliced R (members ++ [p]) (at_ ++ [u32 (Z.of_nat (length all))]) (all ++ part).
Proof.
  intros (parts & H & -> & ->) Hp. exists (parts ++ [part]). split_and!; [apply Forall2_app; [done|by constructor]| |by rewrite starts_app].
  rewrite join_app. simpl. by rewrite app_nil_r.
Qed.

Lemma split_trailing_offset_spec fuel st p l : paths_ok st -> denotes st p l -> (length l < fuel)%nat ->
  runs st (split_trailing_offset fxh fuel st p) (fun st' r => trailing_of st' p (default (EMPTY, 0) r)).
Proof.
  intros Hok Hp Hf. unfold split_trailing_offset. rewrite (fp_iter_spec _ Hfirst _ _ _ _ Hok Hp Hf). cbn [mbind outcome_bind].
  assert (forall st', grows st st' -> (forall init m, split_last l <> Some (init, Offset m)) -> trailing_of st' p (EMPTY, 0)) as Hnone.
  { intros st' Hg Hn. exists l. split; [by eapply denotes_grows|]. destruct (split_last l) as [[init []]|]; try done. by destruct (Hn init k). }
  destruct (split_last l) as [[init [f|m| |]]|] eqn:E.
  2:{ pose proof (denotes_fact _ Hfirst _ _ _ Hok Hp) as Hl. pose proof E as E'. apply split_last_Some in E' as El. rewrite El in Hl. apply fact_path_app in Hl as [Hl _].
      eapply runs_bind; [by apply from_fact_path|]. intros st' key Hok' Hg Hk. apply runs_ret; [done|]. exists l. split; [by eapply denotes_grows|]. by rewrite E. }
  all: apply runs_ret; [done|]; apply Hnone; [apply grows_refl|done].
Qed.

Lemma add_member_spec fuel st words members s p l : paths_ok st -> frozen st words members s -> denotes st p l -> (length l < fuel)%nat -> (Z.to_nat (p / 64) < words)%nat ->
  runs st (add_member fxh fuel st s p) (fun st' s' => frozen st' words (members ++ [p]) s').
Proof.
  intros Hok Hfr Hp Hf Hw. unfold add_member. pose proof (denotes_nonneg _ _ _ Hok Hp) as Hp0.
  destruct (lookup_lt_is_Some_2 (ps_bits s) (Z.to_nat (p / 64))) as [w Ew]; [by rewrite (fr_words _ _ _ _ Hfr)|].
  rewrite (iv_index_Some _ _ _ Ew). cbn [mbind outcome_bind]. rewrite iv_set_lt by (by apply lookup_lt_Some in Ew). cbn [mbind outcome_bind].
  eapply runs_bind; [by apply prefix_keys_spec|]. intros st1 keys Hok1 Hg1 Hk. pose proof (denotes_grows _ _ _ _ Hg1 Hp) as Hp1. cbn beta iota.
  eapply runs_bind; [by apply prefix_keys_wild_spec|]. intros st2 wilds Hok2 Hg2 Hwi. pose proof (denotes_grows _ _ _ _ Hg2 Hp1) as Hp2. cbn beta iota.
  eapply runs_bind; [by eapply split_trailing_offset_spec|]. intros st3 tr Hok3 Hg3 Htr. pose proof (denotes_grows _ _ _ _ Hg3 Hp2) as Hp3. cbn beta iota.
  unfold fp_len. rewrite (fp_iter_spec _ Hfirst _ _ _ _ Hok3 Hp3 Hf). cbn [mbind outcome_bind].
  assert (frozen st3 words members s) as [Fw Fb Ft Fe Fd Ftr Fex Fwi] by (eapply frozen_grows; [exact Hok|done|by do 2 (eapply grows_trans; [done|])|done]).
  set (T := if fp_is_empty p then Ret (ps_table s) else _).
  assert (exists t, T = Ret t /\ ht_ok (member_hash st3) t /\ ht_elems t ≡ₚ filter (.≠ EMPTY) (members ++ [p])) as (t & -> & Htok & Hte).
  { unfold T, fp_is_empty. rewrite filter_app, filter_cons, filter_nil. destruct (decide (p = EMPTY)) as [->|Hne].
    - rewrite bool_decide_eq_true_2 by done. rewrite decide_False by naive_solver. eexists. split; [done|]. by rewrite app_nil_r.
    - rewrite bool_decide_eq_false_2 by done. rewrite (fp_suffix_hash_spec _ Hfirst _ _ _ Hok3 Hp3), decide_True by done. cbn [mbind outcome_bind]. eexists. split; [done|].
      destruct (ht_insert_ok (member_hash st3) (ps_table s) (wide (seg_hash l)) p Ft (member_hash_spec _ _ _ Hok3 Hp3)) as [H1 H2]. split; [done|]. rewrite H2, Fe. apply Permutation_cons_append. }
  cbn [mbind outcome_bind]. apply runs_ret; [done|]. split; cbn [ps_bits ps_table ps_max_depth ps_trailing ps_exact_at ps_exact ps_wild_at ps_wild].
  - by rewrite length_insert.
  - by apply bits_of_set.
  - done.
  - done.
  - intros q lq [Hq| ->%list_elem_of_singleton]%elem_of_app Hl; [specialize (Fd q lq Hq Hl); lia|]. rewrite (denotes_fun _ Hfirst _ _ _ _ Hok3 Hl Hp3). lia.
  - apply Forall2_app; [done|]. by constructor.
  - apply sliced_snoc; [done|]. exists l. split; [done|]. by eapply split_at_grows, split_at_grows.
  - apply sliced_snoc; [done|]. exists l. split; [done|]. by eapply split_at_grows.
Qed.

(** The set, frozen. *)
Record set_ok st (members : list Z) s : Prop := {
  so_sorted : StronglySorted Z.lt members;
  so_bits : bits_of (ps_bits s) members;
  so_words : Forall (fun p => Z.to_nat (p / 64) < length (ps_bits s))%nat members;
  so_ranks : ps_ranks s = rank_words 0 (ps_bits s);
  so_table : ht_ok (member_hash st) (ps_table s);
  so_elems : ht_elems (ps_table s) ≡ₚ filter (.≠ EMPTY) members;
  so_depth : forall p l, p ∈ members -> denotes st p l -> (length l <= ps_max_depth s)%nat;
  so_trailing : Forall2 (trailing_of st) members (ps_trailing s);
  so_exact : exists parts, Forall2 (exact_of st) members parts /\ ps_exact s = mjoin parts /\ ps_exact_at s = starts parts (S (length parts));
  so_wild : exists parts, Forall2 (wild_of st) members parts /\ ps_wild s = mjoin parts /\ ps_wild_at s = starts parts (S (length parts));
}.

Lemma bits_of_zeros words : bits_of (replicate words 0) [].
Proof. intros k w i [-> _]%lookup_replicate_1 _. rewrite Z.bits_0. symmetry. apply bool_decide_eq_false_2, not_elem_of_nil. Qed.

Lemma frozen_zero st words ranks : frozen st words [] (mk_path_set ht_new (replicate words 0) ranks [] [] [] [] [] 0 0).
Proof.
  destruct (ht_new_ok (member_hash st)) as [H1 H2]. split; cbn [ps_bits ps_table ps_max_depth ps_trailing ps_exact_at ps_exact ps_wild_at ps_wild];
    [by rewrite length_replicate|apply bits_of_zeros|done|by rewrite H2|by intros p l ?%not_elem_of_nil|constructor|by exists []|by exists []].
Qed.

Lemma sliced_close (R : Z -> list (Z * Z) -> Prop) members at_ all : sliced R members at_ all ->
  exists parts, Forall2 R members parts /\ all = mjoin parts /\ at_ ++ [u32 (Z.of_nat (length all))] = starts parts (S (length parts)).
Proof. intros (parts & H1 & -> & ->). exists parts. split_and!; [done..|]. apply starts_last. Qed.

Definition freeze_members (paths : list Z) : list Z := dedup_sorted (merge_sort Z.le paths).

Lemma from_paths_spec fuel st paths : paths_ok st -> Forall (fun p => exists l, denotes st p l /\ (length l < fuel)%nat) paths ->
  runs st (from_paths fxh fuel st paths) (fun st' s => set_ok st' (freeze_members paths) s).
Proof.
  intros Hok Hps. unfold from_paths. destruct (members_sorted paths) as [Hs He]. change (dedup_sorted (merge_sort Z.le paths)) with (freeze_members paths) in *.
  set (members := freeze_members paths) in *. set (words := match last members with Some p => _ | None => _ end).
  assert (forall p, p ∈ members -> exists l, denotes st p l /\ (length l < fuel)%nat /\ (Z.to_nat (p / 64) < words)%nat) as Hm.
  { intros p Hp. rewrite Forall_forall in Hps. destruct (Hps p) as (l & Hl & Hf); [by apply He|]. exists l. split_and!; [done..|]. unfold words.
    destruct (last members) as [y|] eqn:Ey; [|apply last_None in Ey; rewrite Ey in Hp; by apply not_elem_of_nil in Hp].
    pose proof (sorted_last_max _ _ _ Hs Ey Hp). pose proof (Z.div_le_mono p y 64). lia. }
  eapply runs_bind.
  - apply (runs_fold _ (fun '(st, s) p => add_member fxh fuel st s p) (fun pre st' s => frozen st' words pre s /\ grows st st')); [|done|split; [apply frozen_zero|apply grows_refl]].
    intros pre p post st' s E Hok' [Hfr Hg]. destruct (Hm p) as (l & Hl & Hf & Hw); [rewrite E; apply elem_of_app; right; by left|].
    eapply runs_mono; [eapply add_member_spec; [done..|by eapply denotes_grows|done|done]|]. intros st2 s2 _ Hg2 Hfr2. split; [done|by eapply grows_trans].
  - intros st' s Hok' Hg [[Fw Fb Ft Fe Fd Ftr Fex Fwi] _]. cbn beta iota. apply runs_ret; [done|].
    split; cbn [ps_bits ps_ranks ps_table ps_max_depth ps_trailing ps_exact_at ps_exact ps_wild_at ps_wild]; try done; [|by apply sliced_close..].
    apply Forall_forall. intros p Hp. destruct (Hm p Hp) as (_ & _ & _ & H). by rewrite Fw.
Qed.

Lemma set_ok_grows st st' members s : paths_ok st -> paths_ok st' -> grows st st' -> set_ok st members s -> set_ok st' members s.
Proof.
  intros Hok Hok' Hg [H1 H2 H3 H4 H5 H6 H7 H8 (e & He & Ee) (w & Hw & Ew)]. 
  assert (frozen st (length (ps_bits s)) members (mk_path_set (ps_table s) (ps_bits s) [] (ps_trailing s) (starts e (length e)) (ps_exact s) (starts w (length w)) (ps_wild s) (ps_max_depth s) 0)) as F.
  { split; cbn [ps_bits ps_table ps_max_depth ps_trailing ps_exact_at ps_exact ps_wild_at ps_wild]; try done; [exists e|exists w]; naive_solver. }
  apply (frozen_grows _ _ _ _ _ Hok Hok' Hg) in F as [_ _ F1 _ F2 F3 _ _]. split; try done.
  - exists e. split; [|done]. eapply Forall2_impl; [done|]. intros; by eapply exact_of_grows.
  - exists w. split; [|done]. eapply Forall2_impl; [done|]. intros; by eapply wild_of_grows.
Qed.

(** ** Queries of the frozen set *)

Lemma rank_spec st members s p : paths_ok st -> set_ok st members s -> 0 <= p ->
  exists r, rank s p = Ret r /\ match r with Some k => members !! Z.to_nat k = Some p | None => p ∉ members end.
Proof.
  intros Hok Hset Hp. unfold rank. pose proof (Z_div_mod_eq_full p 64) as Ediv. pose proof (Z.mod_pos_bound p 64 ltac:(lia)) as Hmod. pose proof (Z.div_pos p 64 Hp ltac:(lia)) as Hdiv.
  destruct (ps_bits s !! Z.to_nat (p / 64)) as [w|] eqn:Ew.
  2:{ exists None. split; [done|]. intros Hin. pose proof (so_words _ _ _ Hset) as Hw. rewrite Forall_forall in Hw. apply lookup_ge_None in Ew. specialize (Hw p Hin). lia. }
  pose proof (so_bits _ _ _ Hset _ _ (p mod 64) Ew Hmod) as Hbit. rewrite Z2Nat.id, <- Ediv in Hbit by done.
  destruct (decide (p ∈ members)) as [Hin|Hin]; [rewrite bool_decide_eq_true_2 in Hbit by done|rewrite bool_decide_eq_false_2 in Hbit by done].
  - rewrite decide_True by (apply land_bit; [lia|done]). rewrite (so_ranks _ _ _ Hset).
    rewrite (iv_index_Some _ _ _ (rank_words_lookup _ _ _ _ (so_bits _ _ _ Hset) Ew)). cbn [mbind outcome_bind]. eexists. split; [done|]. cbn beta iota.
    replace (Z.shiftl 1 (p mod 64) - 1) with (Z.ones (p mod 64)) by (rewrite Z.ones_equiv, Z.shiftl_1_l; lia).
    rewrite (count_ones_low _ _ _ _ _ (so_bits _ _ _ Hset) Ew) by lia. rewrite <- (Z.add_0_l (64 * _)) at 2. rewrite <- members_in_app by lia.
    rewrite Z2Nat.id, <- Ediv by done. apply sorted_position; [apply Hset| |done]. apply Forall_forall. intros q Hq.
    destruct (members_denote _ _ _ (so_trailing _ _ _ Hset) q Hq) as [l Hl]. by eapply denotes_nonneg.
  - rewrite decide_False by (rewrite land_bit by lia; by rewrite Hbit). by exists None.
Qed.

Lemma ps_contains_spec st members s p : paths_ok st -> set_ok st members s -> 0 <= p -> ps_contains s p = Ret (bool_decide (p ∈ members)).
Proof.
  intros Hok Hset Hp. unfold ps_contains. destruct (rank_spec _ _ _ _ Hok Hset Hp) as (r & -> & Hr). cbn [mbind outcome_bind]. f_equal. apply bool_decide_ext.
  destruct r as [k|]; split; try done. intros _. by eapply list_elem_of_lookup_2.
Qed.

Lemma splits_spec st members s p l : paths_ok st -> set_ok st members s -> denotes st p l -> Z.of_nat (length (ps_exact s)) < 2 ^ 32 -> Z.of_nat (length (ps_wild s)) < 2 ^ 32 ->
  exists x, splits s p = Ret x /\
    if decide (p ∈ members) then Forall2 (split_at st l) (sp_exact x) (seq 0 (S (length l))) /\ Forall2 (split_at st l) (sp_wild x) (wild_places l)
    else x = mk_splits [] [].
Proof.
  intros Hok Hset Hp He Hw. unfold splits. destruct (rank_spec _ _ _ _ Hok Hset (denotes_nonneg _ _ _ Hok Hp)) as (r & -> & Hr). cbn [mbind outcome_bind].
  destruct r as [k|]; [|eexists; split; [done|]; by rewrite decide_False].
  destruct (so_exact _ _ _ Hset) as (ex & Hex & Eex & ->). destruct (so_wild _ _ _ Hset) as (wi & Hwi & Ewi & ->). rewrite Eex in *. rewrite Ewi in *.
  destruct (Forall2_lookup_l _ _ _ _ _ Hex Hr) as (x & Ex & l1 & Hl1 & Hx). destruct (Forall2_lookup_l _ _ _ _ _ Hwi Hr) as (y & Ey & l2 & Hl2 & Hy).
  destruct (slice_part ex _ _ He Ex) as (e0 & e1 & -> & -> & Es). destruct (slice_part wi _ _ Hw Ey) as (w0 & w1 & -> & -> & Ews). cbn [mbind outcome_bind].
  rewrite Es. cbn [mbind outcome_bind]. rewrite Ews. cbn [mbind outcome_bind]. eexists. split; [done|]. cbn [sp_exact sp_wild].
  rewrite decide_True by (by eapply list_elem_of_lookup_2). rewrite (denotes_fun _ Hfirst _ _ _ _ Hok Hl1 Hp) in Hx. rewrite (denotes_fun _ Hfirst _ _ _ _ Hok Hl2 Hp) in Hy. done.
Qed.

Lemma ps_split_trailing_spec st members s p l : paths_ok st -> set_ok st members s -> denotes st p l -> p ∈ members \/ l = [] ->
  exists r, ps_split_trailing_offset s p = Ret r /\ match split_last l with Some (init, Offset m) => exists key, r = Some (key, m) /\ denotes st key init | _ => r = None end.
Proof.
  intros Hok Hset Hp Hin. unfold ps_split_trailing_offset. rewrite (fp_empty_spec _ Hfirst _ _ _ Hok Hp). destruct (decide (l = [])) as [->|Hne].
  { rewrite bool_decide_eq_true_2 by done. by exists None. }
  rewrite bool_decide_eq_false_2 by done. destruct Hin as [Hin|?]; [|done]. destruct (rank_spec _ _ _ _ Hok Hset (denotes_nonneg _ _ _ Hok Hp)) as ([k|] & -> & Hr); [|done].
  cbn [mbind outcome_bind]. destruct (Forall2_lookup_l _ _ _ _ _ (so_trailing _ _ _ Hset) Hr) as (t & Et & l1 & Hl1 & Ht). rewrite (iv_index_Some _ _ _ Et). cbn [mbind outcome_bind].
  assert (l1 = l) as -> by (by apply (denotes_fun _ Hfirst _ _ _ _ Hok Hl1 Hp)). eexists. split; [done|]. destruct (split_last l) as [[init x]|] eqn:El.
  - destruct x as [f|m| |]; try (by rewrite Ht, decide_False by (by intros [])). destruct Ht as [Hk Em]. apply split_last_Some in El as El'.
    destruct (denotes_fact _ Hfirst _ _ _ Hok Hp) as [Hnf _]. rewrite El' in Hnf. apply nf_offset_init in Hnf as (_ & _ & Hm & _).
    rewrite decide_True by (by rewrite Em). exists t.1. split; [|done]. rewrite <- Em. by destruct t.
  - rewrite Ht, decide_False by (by intros []). done.
Qed.

Lemma target_length c a cs : (c_n c <= length a)%nat -> length (candidate_segs c a cs) = (c_n c + (if bool_decide (is_Some (c_junction c)) then 1 else 0) + length cs)%nat.
Proof.
  intros Hn. unfold candidate_segs. rewrite !length_app, length_take, Nat.min_l by done. destruct (c_junction c) as [k|]; cbn [junction_seg length];
    [rewrite bool_decide_eq_true_2 by eauto|rewrite bool_decide_eq_false_2 by (by intros [])]; lia.
Qed.

Lemma ps_concat_spec fuel st members s p adjust q a b : paths_ok st -> set_ok st members s -> denotes st p a -> denotes st q b -> (length a < fuel)%nat ->
  (forall k, adjust = Some k -> in_i64 k) -> sums_fit a adjust b ->
  exists r, ps_concat fxh fuel st s p adjust q = Ret r /\ forall m, r = Some m <-> m ∈ members /\ denotes st m (target a adjust b).
Proof.
  intros Hok Hset Hp Hq Hf Hadj Hfit. unfold ps_concat. destruct (candidate_spec fxh Hfirst fuel st p adjust q a b Hok Hp Hq Hf Hadj Hfit) as (c & cs & -> & Eb & Hb & Hn & <-).
  cbn [mbind outcome_bind]. rewrite <- Eb in Hp. pose proof (target_length c a cs Hn) as Hlen. destruct (decide (c_n c = 0%nat /\ c_junction c = None)) as [[En Ej]|Hne].
  { rewrite (ps_contains_spec _ _ _ _ Hok Hset (denotes_nonneg _ _ _ Hok Hb)). cbn [mbind outcome_bind]. eexists. split; [done|]. intros m.
    unfold candidate_segs. rewrite En, Ej. cbn [junction_seg app take]. rewrite take_0. cbn [app]. clear Hlen. case_bool_decide as Hin.
    - split; [by intros [= <-]|]. intros [_ Hm]. f_equal. by apply (denotes_inj _ Hfirst _ _ _ _ Hok Hb Hm).
    - split; [done|]. intros [Hm' Hm]. destruct Hin. by rewrite (denotes_inj _ Hfirst _ _ _ _ Hok Hb Hm). }
  assert (forall m, denotes st m (candidate_segs c a cs) -> m <> EMPTY) as Hme.
  { intros m Hm E. apply (denotes_empty _ Hfirst _ _ _ Hok Hm) in E. rewrite E in Hlen. simpl in Hlen. destruct Hne. case_bool_decide as Hj; [lia|]. split; [lia|]. by destruct (c_junction c); [destruct Hj|]. }
  destruct (decide (ps_max_depth s < _)%nat) as [Hdeep|Hdeep].
  { eexists. split; [done|]. intros m. split; [done|]. intros [Hm' Hm]. pose proof (so_depth _ _ _ Hset m _ Hm' Hm). lia. }
  rewrite (candidate_hash_spec _ Hfirst _ _ _ _ Hok Hp Hb Hn). cbn [mbind outcome_bind]. set (T := candidate_segs c a cs) in *.
  destruct (ht_find_spec (member_hash st) (ps_table s) (wide (seg_hash T))
    (fun p => h' ← fp_suffix_hash st p; if decide (h' = seg_hash T) then candidate_is st c p else Ret false)
    (fun p => match candidate_is st c p with Ret b => b | _ => false end) (so_table _ _ _ Hset)) as (r & Er & Hr).
  { intros m Hm. rewrite (so_elems _ _ _ Hset) in Hm. apply list_elem_of_filter in Hm as [_ Hm]. destruct (members_denote _ _ _ (so_trailing _ _ _ Hset) m Hm) as [l Hl].
    rewrite (fp_suffix_hash_spec _ Hfirst _ _ _ Hok Hl). cbn [mbind outcome_bind]. rewrite (candidate_is_spec _ Hfirst _ _ _ _ _ _ Hok Hl Hp Hb Hn). fold T.
    destruct (decide (seg_hash l = seg_hash T)) as [E|E]; [done|]. rewrite bool_decide_eq_false_2; [done|]. congruence. }
  exists r. split; [exact Er|]. assert (forall m, m ∈ members -> m <> EMPTY -> match candidate_is st c m with Ret b => b | _ => false end = true <-> denotes st m T) as His.
  { intros m Hm _. destruct (members_denote _ _ _ (so_trailing _ _ _ Hset) m Hm) as [l Hl]. rewrite (candidate_is_spec _ Hfirst _ _ _ _ _ _ Hok Hl Hp Hb Hn). fold T.
    rewrite bool_decide_eq_true. split; [by intros <-|]. intros Hm'. by apply (denotes_fun _ Hfirst _ _ _ _ Hok Hl Hm'). }
  assert (forall m, m ∈ ht_elems (ps_table s) <-> m <> EMPTY /\ m ∈ members) as Hel by (intros m; by rewrite (so_elems _ _ _ Hset), list_elem_of_filter).
  intros m. destruct r as [x|].
  - destruct Hr as [[Hx Hxm]%Hel Hf']. apply His in Hf'; [|done..]. split; [intros [= <-]; done|]. intros [_ Hm]. f_equal. by apply (denotes_inj _ Hfirst _ _ _ _ Hok Hf' Hm).
  - split; [done|]. intros [Hm' Hm]. pose proof (Hme m Hm) as Hne'. specialize (Hr m ltac:(by apply Hel) (member_hash_spec _ _ _ Hok Hm)).
    apply His in Hm; [|done..]. congruence.
Qed.

Lemma target_suffix a adjust b : target a adjust b = concat a (suffix_of adjust b).
Proof. by destruct adjust. Qed.

Lemma junction_fits_em a b : junction_fits a b \/ ~ junction_fits a b.
Proof. unfold junction_fits. destruct (last a) as [[]|], (head b) as [[]|]; auto. destruct (decide (in_i64 (k + k0))); auto. Qed.

Lemma junction_sums_fit a adjust l : nf a -> nf (suffix_of adjust l) -> junction_fits a (suffix_of adjust l) -> sums_fit a adjust l.
Proof.
  intros Ha Hl Hfit. unfold sums_fit. destruct (decide (last a = Some Value)) as [?|Hv]; [by left|]. destruct (decide (head l = Some Value)) as [?|Hlv]; [by right; left|].
  right; right. destruct (trim_offset a Ha Hv) as (i & o & _ & _ & _ & _ & Eo & Eo' & Ho & _). rewrite Eo. unfold junction_fits in Hfit.
  destruct adjust as [d|]; cbn [suffix_of] in *.
  - apply nf_cons_inv in Hl as ([Hd _] & _ & Hj). assert (first_offset l = 0) as -> by (unfold first_offset; by destruct (head l) as [[]|]). simpl default at 2 4. rewrite Z.add_0_r.
    assert (in_i64 (default 0 o + d)); [|done]. subst o. destruct (last a) as [[]|]; try done.
  - simpl default at 2 4. rewrite Z.add_0_r. split; [done|]. destruct (head_trim l Hl Hlv) as (_ & _ & Hf & _). unfold first_offset in *. subst o.
    destruct (last a) as [[]|], (head l) as [[]|]; try done; simpl; by rewrite Z.add_0_r.
Qed.

(** In a state where [Path::substitute_prefix] returns, [PathSet::substitute_prefix] returns the same path if it is a member. *)
Lemma ps_substitute_prefix_spec fuel st members s p q r ps qs rs st' o : paths_ok st -> set_ok st members s -> denotes st p ps -> denotes st q qs -> denotes st r rs ->
  (length qs <= fuel)%nat -> (length rs < fuel)%nat -> substitute_prefix fxh fuel st p q r = Ret (st', o) ->
  exists o', ps_substitute_prefix fxh fuel st s p q r = Ret o' /\ forall m, o' = Some m <-> o = Some m /\ m ∈ members.
Proof.
  intros Hok Hset Hp Hq Hr Hf Hf' Hsub. unfold ps_substitute_prefix. pose proof (match_prefix_spec _ Heqb Hfirst fuel st p q ps qs Hok Hp Hq Hf) as H.
  pose proof (match_prefix_split_spec _ Hfirst fuel st p q ps qs Hok Hp Hq Hf) as H'. unfold substitute_prefix in Hsub.
  destruct (match_segs ps qs) as [[[adjust l]|]| |] eqn:E; [| |by rewrite H in Hsub|done].
  2:{ rewrite H in Hsub. cbn [mbind outcome_bind] in Hsub. injection Hsub as <- <-. rewrite H'. cbn [mbind outcome_bind]. exists None. split; [done|]. intros m. split; [done|by intros []]. }
  destruct H as [(st2 & t & E2 & Hok2 & Hg2 & x & -> & Hx)|[E2 _]]; [|by rewrite E2 in Hsub]. rewrite E2 in Hsub. cbn [mbind outcome_bind] in Hsub.
  destruct H' as (rest & -> & Hrest). cbn [mbind outcome_bind]. pose proof (denotes_grows _ _ _ _ Hg2 Hr) as Hr2.
  destruct (match_segs_fact _ _ _ _ (denotes_fact _ Hfirst _ _ _ Hok Hp) E) as [Hnf _]. destruct (junction_fits_em rs (suffix_of adjust l)) as [Hfit|Hfit].
  2:{ rewrite (prepend_onto_overflow _ Hfirst _ _ _ _ _ _ Hok2 Hr2 Hx Hf' Hfit) in Hsub. done. }
  destruct (prepend_onto_spec _ Heqb Hfirst _ _ _ _ _ _ Hok2 Hr2 Hx Hf' Hfit) as [(st3 & y & E3 & Hok3 & Hg3 & Hy)|[E3 _]]; rewrite E3 in Hsub; [|done].
  cbn [mbind outcome_bind] in Hsub. injection Hsub as <- <-. destruct (denotes_fact _ Hfirst _ _ _ Hok Hr) as [Hrnf _].
  destruct (ps_concat_spec fuel st members s r adjust rest rs l Hok Hset Hr Hrest Hf') as (o & -> & Ho); [|by apply junction_sums_fit|].
  { intros k ->. by apply nf_cons_inv in Hnf as ([? _] & _). }
  exists o. split; [done|]. intros m. rewrite Ho, target_suffix. pose proof (grows_trans _ _ _ Hg2 Hg3) as Hg. split.
  - intros [Hm Hd]. split; [|done]. f_equal. apply (denotes_inj _ Hfirst _ _ _ _ Hok3 Hy). by eapply denotes_grows.
  - intros [[= <-] Hm]. split; [done|]. destruct (members_denote _ _ _ (so_trailing _ _ _ Hset) y Hm) as [l' Hl'].
    rewrite (denotes_fun _ Hfirst _ _ _ _ Hok3 Hy (denotes_grows _ _ _ _ Hg Hl')). done.
Qed.

Lemma freeze_members_elem paths p : p ∈ freeze_members paths <-> p ∈ paths.
Proof. apply members_sorted. Qed.


(** The frozen substitution is the interning one.  In every later state, whenever [Path::substitute_prefix] returns, which interns the result whether
    or not it is a member, [PathSet::substitute_prefix] returns the same handle if it is a member of the set and [None] otherwise. *)
Theorem path_set_substitute_correct (st : St) (paths : list Z) (fuel : nat) : paths_ok st -> Forall (fun p => exists l, denotes st p l /\ (length l < fuel)%nat) paths ->
  runs st (from_paths fxh fuel st paths) (fun st1 (s : PathSet HT) => forall st2, paths_ok st2 -> grows st1 st2 ->
    forall p q r ps qs rs st3 o, denotes st2 p ps -> denotes st2 q qs -> denotes st2 r rs -> (length qs <= fuel)%nat -> (length rs < fuel)%nat ->
      substitute_prefix fxh fuel st2 p q r = Ret (st3, o) ->
      exists o', ps_substitute_prefix fxh fuel st2 s p q r = Ret o' /\ forall m, o' = Some m <-> o = Some m /\ m ∈ paths).
Proof.
  intros Hok Hps. eapply runs_mono; [by apply from_paths_spec|]. intros st1 s Hok1 _ Hset st2 Hok2 Hg. apply (set_ok_grows _ _ _ _ Hok1 Hok2 Hg) in Hset.
  intros p q r ps qs rs st3 o Hp Hq Hr Hf Hf' Hsub. destruct (ps_substitute_prefix_spec fuel st2 _ s p q r ps qs rs st3 o Hok2 Hset Hp Hq Hr Hf Hf' Hsub) as (o' & Ho' & H).
  exists o'. split; [done|]. intros m. by rewrite H, freeze_members_elem.
Qed.

(** The stored splits are the splits.  For a member, [splits] answers the [k + 1] splits of [prefix_keys] and those of [prefix_keys_wild], and
    [split_trailing_offset] its last offset with the path before it; a path that is not a member has no splits.  The starts of the members' slices are [u32]s, so the
    splits have to be fewer than [2^32]. *)
Theorem path_set_splits_correct (st : St) (paths : list Z) (fuel : nat) : paths_ok st -> Forall (fun p => exists l, denotes st p l /\ (length l < fuel)%nat) paths ->
  runs st (from_paths fxh fuel st paths) (fun st1 (s : PathSet HT) => Z.of_nat (length (ps_exact s)) < 2 ^ 32 -> Z.of_nat (length (ps_wild s)) < 2 ^ 32 ->
    forall p l, denotes st1 p l ->
      (exists x, splits s p = Ret x /\
        if decide (p ∈ paths) then Forall2 (split_at st1 l) (sp_exact x) (seq 0 (S (length l))) /\ Forall2 (split_at st1 l) (sp_wild x) (wild_places l)
        else x = mk_splits [] []) /\
      (p ∈ paths \/ l = [] -> exists r, ps_split_trailing_offset s p = Ret r /\
        match split_last l with Some (init, Offset m) => exists key, r = Some (key, m) /\ denotes st1 key init | _ => r = None end)).
Proof.
  intros Hok Hps. eapply runs_mono; [by apply from_paths_spec|]. intros st1 s Hok1 _ Hset He Hw p l Hp. split.
  - destruct (splits_spec st1 _ s p l Hok1 Hset Hp He Hw) as (x & Hx & H). exists x. split; [done|].
    destruct (decide (p ∈ paths)) as [Hin|Hin]; [rewrite decide_True in H by (by apply freeze_members_elem)|rewrite decide_False in H by (by rewrite freeze_members_elem)]; done.
  - intros Hin. apply (ps_split_trailing_spec st1 _ s p l Hok1 Hset Hp). by rewrite freeze_members_elem.
Qed.
End frozen.

(** ** An example: [.x.[8].deref] and [.x.[3]] frozen *)

Import FactPath.Example_.

Lemma example_members st p q : denotes st p x8 -> denotes st q x3 -> Forall (fun m => exists l, denotes st m l /\ (length l < 9)%nat) [p; q].
Proof. intros Hp Hq. constructor; [exists x8; split; [done|simpl; lia]|]. constructor; [exists x3; split; [done|simpl; lia]|constructor]. Qed.

Lemma example_tail st p : denotes st p x8 -> exists t, denotes st t [Deref].
Proof.
  unfold x8. intros H. inversion H as [|id n l Hn H1 E1 E2]; subst. inversion H1 as [|id' n' l' Hn' H2 E1' E2']; subst. eauto.
Qed.


Lemma path_set_substitute_correct_witness : exists st p q, denotes st p x8 /\ denotes st q x3 /\
  runs fxh st (from_paths (HT := list (Z * Z)) fxh 9 st [p; q]) (fun st1 s => interner_full fxh st1 \/ ps_substitute_prefix fxh 9 st1 s p q q = Ret (Some p)).
Proof.
  destruct example_state as (st & p & q & r & E & Hok & Hp & Hq & _). exists st, p, q. split; [exact Hp|]. split; [exact Hq|].
  eapply runs_mono; [apply (path_set_substitute_correct fxh eqb_ok first_ok st [p; q] 9 Hok (example_members st p q Hp Hq))|].
  intros st1 s Hok1 Hg H. pose proof (denotes_grows _ _ _ _ Hg Hp) as Hp1. pose proof (denotes_grows _ _ _ _ Hg Hq) as Hq1.
  destruct (substitute_spec fxh eqb_ok first_ok st1 p q q x8 x3 x3 (Some 5) [Deref] 9 Hok1 Hp1 Hq1 Hq1) as [(st3 & o & Eo & Hok3 & Hg3 & x & -> & Hx)|[_ Hfull]].
  - simpl. lia.
  - simpl. lia.
  - vm_compute. reflexivity.
  - by_decide.
  - right. destruct (H st1 Hok1 (grows_refl st1) p q q x8 x3 x3 st3 (Some x) Hp1 Hq1 Hq1) as (o' & Eo' & Ho').
    + simpl. lia.
    + simpl. lia.
    + exact Eo.
    + rewrite Eo'. f_equal. apply Ho'. split; [|by left]. f_equal. refine (denotes_inj fxh first_ok st3 x p x8 Hok3 _ (denotes_grows _ _ _ _ Hg3 Hp1)).
      replace x8 with (concat x3 (suffix_of (Some 5) [Deref])) by (vm_compute; reflexivity). exact Hx.
  - left. exact Hfull.
Defined.

Lemma path_set_splits_correct_witness : exists st p q, denotes st p x8 /\ denotes st q x3 /\
  runs fxh st (from_paths (HT := list (Z * Z)) fxh 9 st [p; q]) (fun st1 s => Z.of_nat (length (ps_exact s)) < 2 ^ 32 -> Z.of_nat (length (ps_wild s)) < 2 ^ 32 ->
    exists x key, splits s p = Ret x /\ Forall2 (split_at st1 x8) (sp_exact x) [0; 1; 2; 3]%nat /\ Forall2 (split_at st1 x8) (sp_wild x) [1]%nat /\
      ps_split_trailing_offset s q = Ret (Some (key, 3)) /\ denotes st1 key [Field "x"]).
Proof.
  destruct example_state as (st & p & q & r & E & Hok & Hp & Hq & _). exists st, p, q. split; [exact Hp|]. split; [exact Hq|].
  eapply runs_mono; [apply (path_set_splits_correct fxh eqb_ok first_ok st [p; q] 9 Hok (example_members st p q Hp Hq))|].
  intros st1 s Hok1 Hg H He Hw. destruct (H He Hw p x8 (denotes_grows _ _ _ _ Hg Hp)) as [(x & Ex & Hx) _].
  destruct (H He Hw q x3 (denotes_grows _ _ _ _ Hg Hq)) as [_ Ht]. destruct Ht as (o & Eo & Ho); [left; right; by left|].
  simpl in Ho. destruct Ho as (key & -> & Hk). exists x, key. split; [exact Ex|]. rewrite decide_True in Hx by (by left). destruct Hx as [H1 H2].
  split; [exact H1|]. split; [exact H2|]. split; [exact Eo|exact Hk].
Defined.
