(* ===== verification/UnionCache.v ===== *)
(** * UnionCache: the memo of set unions ([ctadl-index/src/index_engine/decision.rs])

    A direct-mapped cache from the pair of two set handles to the handle of their union, shared by all threads without a
    lock.  Every slot is a seqlock: a writer moves the sequence number to odd, stores the key and the result, and
    moves it on to even; a reader takes the result only if the number was even and is still the same.

    A call is a state machine whose steps are the accesses of the code to the shared slots, one by one, and a
    run of several threads is an interleaving of their steps.  The accesses are sequentially consistent here;
    that the fences of the code make them appear so is not modelled. *)

From S2P Require Import Prelude Bits.

#[local] Open Scope Z_scope.

Record UnionSlot : Type := mk_slot { us_seq : Z; us_key : Z; us_result : Z }.

Definition UNION_CACHE_BITS : Z := 20.

(** The slots; those not in the map still hold the zeros they started with. *)
Notation cache := (gmap Z UnionSlot).
Definition slot_at (c : cache) (i : Z) : UnionSlot := default (mk_slot 0 0 0) (c !! i).

Definition union_slot (key : Z) : Z := Z.shiftr (u64 (key * 0x9E3779B97F4A7C15)) (64 - UNION_CACHE_BITS).
#[local] Opaque union_slot.

(** The places of [union_cache_get] and [union_cache_put] between their accesses. *)
Inductive call : Type :=
| GetStart (key : Z)
| GetSeq (key s1 : Z)
| GetKey (key s1 k : Z)
| GetResult (key s1 k result : Z)
| GetDone (key : Z) (found : option Z)
| PutStart (key result : Z)
| PutSeq (key result s : Z)
| PutClaimed (key result s : Z)
| PutKey (key result s : Z)
| PutResult (key result s : Z)
| PutDone (key result : Z) (stored : bool).

Definition set_seq (sl : UnionSlot) (s : Z) : UnionSlot := mk_slot s (us_key sl) (us_result sl).

(** The next access of a call. *)
Definition call_step (c : cache) (cl : call) : option (cache * call) :=
  match cl with
  | GetStart key =>
      let s1 := us_seq (slot_at c (union_slot key)) in
      Some (c, if decide (Z.land s1 1 = 1) then GetDone key None else GetSeq key s1)
  | GetSeq key s1 => Some (c, GetKey key s1 (us_key (slot_at c (union_slot key))))
  | GetKey key s1 k => Some (c, GetResult key s1 k (us_result (slot_at c (union_slot key))))
  | GetResult key s1 k result =>
      Some (c, GetDone key (if decide (us_seq (slot_at c (union_slot key)) <> s1 \/ k <> key) then None else Some result))
  | PutStart key result =>
      let s := us_seq (slot_at c (union_slot key)) in
      Some (c, if decide (Z.land s 1 = 1) then PutDone key result false else PutSeq key result s)
  | PutSeq key result s =>
      let sl := slot_at c (union_slot key) in
      if decide (us_seq sl = s) then Some (<[union_slot key := set_seq sl (u32 (s + 1))]> c, PutClaimed key result s)
      else Some (c, PutDone key result false)
  | PutClaimed key result s =>
      let sl := slot_at c (union_slot key) in
      Some (<[union_slot key := mk_slot (us_seq sl) key (us_result sl)]> c, PutKey key result s)
  | PutKey key result s =>
      let sl := slot_at c (union_slot key) in
      Some (<[union_slot key := mk_slot (us_seq sl) (us_key sl) result]> c, PutResult key result s)
  | PutResult key result s =>
      Some (<[union_slot key := set_seq (slot_at c (union_slot key)) (u32 (s + 2))]> c, PutDone key result true)
  | GetDone _ _ | PutDone _ _ _ => None
  end.

(** A call of one thread alone. *)
Fixpoint run_call (fuel : nat) (c : cache) (cl : call) : cache * call :=
  match fuel with
  | 0%nat => (c, cl)
  | S fuel => match call_step c cl with Some (c, cl) => run_call fuel c cl | None => (c, cl) end
  end.

Definition union_cache_get (c : cache) (key : Z) : option Z := match (run_call 5 c (GetStart key)).2 with GetDone _ found => found | _ => None end.
Definition union_cache_put (c : cache) (key result : Z) : cache := (run_call 6 c (PutStart key result)).1.

(** Calls of several threads. *)
Inductive cache_step : cache * list call -> cache * list call -> Prop :=
| cache_step_call c ts t cl c' cl' : ts !! t = Some cl -> call_step c cl = Some (c', cl') -> cache_step (c, ts) (c', <[t := cl']> ts).

(** ** Slots and steps *)

Lemma slot_at_insert c i j sl : slot_at (<[i := sl]> c) j = if decide (i = j) then sl else slot_at c j.
Proof. unfold slot_at. destruct (decide (i = j)) as [->|Hne]; [by rewrite lookup_insert_eq|by rewrite lookup_insert_ne]. Qed.

Lemma odd_land s : Z.land s 1 = 1 <-> Z.odd s = true.
Proof.
  change 1 with (Z.ones 1) at 1. rewrite Z.land_ones by lia. change (2 ^ 1) with 2. rewrite Zmod_odd. by destruct (Z.odd s).
Qed.

Definition call_key (cl : call) : Z :=
  match cl with
  | GetStart key | GetSeq key _ | GetKey key _ _ | GetResult key _ _ _ | GetDone key _ | PutStart key _ | PutSeq key _ _ | PutClaimed key _ _ | PutKey key _ _
  | PutResult key _ _ | PutDone key _ _ => key
  end.

(** The call a state of it came from. *)
Definition call_start (cl : call) : call :=
  match cl with
  | GetStart key | GetSeq key _ | GetKey key _ _ | GetResult key _ _ _ | GetDone key _ => GetStart key
  | PutStart key result | PutSeq key result _ | PutClaimed key result _ | PutKey key result _ | PutResult key result _ | PutDone key result _ => PutStart key result
  end.

(** The sequence number a writer that has claimed its slot started from. *)
Definition claimed (cl : call) : option Z := match cl with PutClaimed _ _ s | PutKey _ _ s | PutResult _ _ s => Some s | _ => None end.

(** What a call has added to the sequence number of its slot. *)
Definition weight (cl : call) : nat := match cl with PutClaimed _ _ _ | PutKey _ _ _ | PutResult _ _ _ => 1%nat | PutDone _ _ true => 2%nat | _ => 0%nat end.

Definition weight_at (i : Z) (cl : call) : nat := if decide (union_slot (call_key cl) = i) then weight cl else 0%nat.

Definition is_put (cl : call) : bool := match call_start cl with PutStart _ _ => true | _ => false end.

(** The accesses a call has left. *)
Definition steps_left (cl : call) : nat :=
  match cl with
  | GetStart _ => 4 | GetSeq _ _ => 3 | GetKey _ _ _ => 2 | GetResult _ _ _ _ => 1 | GetDone _ _ => 0
  | PutStart _ _ => 5 | PutSeq _ _ _ => 4 | PutClaimed _ _ _ => 3 | PutKey _ _ _ => 2 | PutResult _ _ _ => 1 | PutDone _ _ _ => 0
  end%nat.

Lemma call_step_start c cl c' cl' : call_step c cl = Some (c', cl') -> call_start cl' = call_start cl /\ call_key cl' = call_key cl /\ (steps_left cl' < steps_left cl)%nat.
Proof.
  destruct cl; cbn [call_step]; intros H; try done; repeat case_decide; injection H as <- <-; cbn [call_start call_key steps_left]; split_and!; try done; lia.
Qed.

Lemma call_step_total c cl : steps_left cl <> 0%nat -> is_Some (call_step c cl).
Proof. destruct cl; cbn [call_step steps_left]; intros H; try done; repeat case_decide; eauto. Qed.

(** ** The invariant *)

(** A slot that no writer holds has an even sequence number and an entry that was put whole, or the zeros it started with; a writer that holds it has
    moved the number to odd, and has stored what its place says. *)
Record slot_ok (calls : list call) (c : cache) (ts : list call) (i : Z) : Prop := {
  sl_seq : us_seq (slot_at c i) = Z.of_nat (sum_list_with (weight_at i) ts);
  sl_one : forall t t' cl cl', ts !! t = Some cl -> ts !! t' = Some cl' -> is_Some (claimed cl) -> is_Some (claimed cl') ->
    union_slot (call_key cl) = i -> union_slot (call_key cl') = i -> t = t';
  sl_free : (forall t cl, ts !! t = Some cl -> union_slot (call_key cl) = i -> claimed cl = None) ->
    Z.even (us_seq (slot_at c i)) = true /\
    (PutStart (us_key (slot_at c i)) (us_result (slot_at c i)) ∈ calls \/ (us_key (slot_at c i) = 0 /\ us_result (slot_at c i) = 0));
}.

(** What a call knows of its slot. *)
Definition call_ok (calls : list call) (c : cache) (cl : call) : Prop :=
  let sl := slot_at c (union_slot (call_key cl)) in
  match cl with
  | GetSeq _ s1 => Z.even s1 = true /\ s1 <= us_seq sl
  | GetKey _ s1 k => Z.even s1 = true /\ s1 <= us_seq sl /\ (us_seq sl = s1 -> us_key sl = k)
  | GetResult _ s1 k r => Z.even s1 = true /\ s1 <= us_seq sl /\ (us_seq sl = s1 -> us_key sl = k /\ us_result sl = r)
  | GetDone key (Some r) => PutStart key r ∈ calls \/ (key = 0 /\ r = 0)
  | PutSeq _ _ s => Z.even s = true
  | PutClaimed _ _ s => Z.even s = true /\ us_seq sl = s + 1
  | PutKey key _ s => Z.even s = true /\ us_seq sl = s + 1 /\ us_key sl = key
  | PutResult key r s => Z.even s = true /\ us_seq sl = s + 1 /\ us_key sl = key /\ us_result sl = r
  | _ => True
  end.

Record cache_ok (calls : list call) (c : cache) (ts : list call) : Prop := {
  ck_slots : forall i, slot_ok calls c ts i;
  ck_calls : forall t cl, ts !! t = Some cl -> call_ok calls c cl;
  ck_starts : map call_start ts = calls;
}.

Lemma sum_list_with_insert {A} (f : A -> nat) (l : list A) t x y : l !! t = Some x -> (sum_list_with f (<[t := y]> l) + f x = sum_list_with f l + f y)%nat.
Proof.
  revert t. induction l as [|z l IHl]; intros [|t] Hx; try done; simpl in *; [injection Hx as ->; lia|]. specialize (IHl t Hx). lia.
Qed.

Lemma weight_bound i ts : (sum_list_with (weight_at i) ts <= 2 * length (filter (fun cl => is_put cl = true) ts))%nat.
Proof.
  induction ts as [|cl ts IHt]; [done|]. rewrite filter_cons. cbn [sum_list_with]. assert (weight_at i cl <= if is_put cl then 2 else 0)%nat as H.
  { unfold weight_at. destruct (decide _); [|destruct (is_put cl); lia]. destruct cl as [| | | | | | | | | |? ? []]; cbn; lia. }
  destruct (is_put cl) eqn:E; [rewrite decide_True by done; cbn [length]|rewrite decide_False by done]; lia.
Qed.

Lemma puts_of_starts ts : length (filter (fun cl => is_put cl = true) (map call_start ts)) = length (filter (fun cl => is_put cl = true) ts).
Proof.
  induction ts as [|cl ts IHt]; [done|]. cbn [map]. rewrite !filter_cons. replace (is_put (call_start cl)) with (is_put cl) by (by destruct cl).
  destruct (decide _); cbn [length]; by rewrite IHt.
Qed.

Section invariant.
Context (calls : list call) (Hputs : Z.of_nat (length (filter (fun cl => is_put cl = true) calls)) < 2 ^ 31).
Abbreviation cache_ok := (cache_ok calls).
Abbreviation call_ok := (call_ok calls).

Lemma seq_small ts i : map call_start ts = calls -> 0 <= Z.of_nat (sum_list_with (weight_at i) ts) <= 2 ^ 32 - 2.
Proof. intros E. pose proof (weight_bound i ts) as H. rewrite <- puts_of_starts, E in H. lia. Qed.

Lemma insert_starts ts t cl cl' : ts !! t = Some cl -> call_start cl' = call_start cl -> map call_start ts = calls -> map call_start (<[t := cl']> ts) = calls.
Proof.
  intros Ht Es <-. change (call_start <$> <[t := cl']> ts = call_start <$> ts). rewrite list_fmap_insert. apply list_insert_id. rewrite list_lookup_fmap, Ht. simpl. by rewrite Es.
Qed.

(** A step that changes no slot. *)
Lemma quiet_step c ts t cl cl' : cache_ok c ts -> ts !! t = Some cl -> claimed cl = None -> claimed cl' = None -> weight cl' = weight cl -> call_key cl' = call_key cl ->
  call_start cl' = call_start cl -> call_ok c cl' -> cache_ok c (<[t := cl']> ts).
Proof.
  intros [Hs Hc Hst] Ht Hn Hn' Hw Hk Hs' Hok. split.
  - intros i. destruct (Hs i) as [H1 H2 H3]. split.
    + rewrite H1. f_equal. pose proof (sum_list_with_insert (weight_at i) ts t cl cl' Ht) as H. unfold weight_at in H at 2 4. rewrite Hk, Hw in H. unfold weight_at in *. lia.
    + intros t1 t2 c1 c2 E1 E2 Hc1 Hc2. apply list_lookup_insert_Some in E1 as [(_ & <- & _)|[_ E1]]; [rewrite Hn' in Hc1; by destruct Hc1|].
      apply list_lookup_insert_Some in E2 as [(_ & <- & _)|[_ E2]]; [rewrite Hn' in Hc2; by destruct Hc2|]. by apply (H2 t1 t2 c1 c2).
    + intros Hfree. apply H3. intros t1 c1 E1 Hi. destruct (decide (t1 = t)) as [->|Hne]; [congruence|]. apply (Hfree t1); [by rewrite list_lookup_insert_ne|done].
  - intros t1 c1 [(_ & <- & _)|[_ E1]]%list_lookup_insert_Some; [done|by eapply Hc].
  - by eapply insert_starts.
Qed.

(** A step of the writer that holds the slot, or takes it. *)
Lemma write_step c ts t cl cl' sl' : cache_ok c ts -> ts !! t = Some cl -> let i0 := union_slot (call_key cl) in let sl := slot_at c i0 in
  (forall t1 c1, t1 <> t -> ts !! t1 = Some c1 -> union_slot (call_key c1) = i0 -> claimed c1 = None) ->
  us_seq sl <= us_seq sl' /\ (Z.even (us_seq sl') = true -> us_seq sl < us_seq sl') -> us_seq sl' + Z.of_nat (weight cl) = us_seq sl + Z.of_nat (weight cl') ->
  call_key cl' = call_key cl -> call_start cl' = call_start cl -> call_ok (<[i0 := sl']> c) cl' ->
  (claimed cl' = None -> Z.even (us_seq sl') = true /\ PutStart (us_key sl') (us_result sl') ∈ calls) -> cache_ok (<[i0 := sl']> c) (<[t := cl']> ts).
Proof.
  intros [Hs Hc Hst] Ht i0 sl Hothers Hseq Hw Hk Hs' Hok Hfree. split.
  - intros i. destruct (Hs i) as [H1 H2 H3]. pose proof (sum_list_with_insert (weight_at i) ts t cl cl' Ht) as Hsum. unfold weight_at in Hsum at 2 4. rewrite Hk in Hsum. fold i0 in Hsum.
    destruct (decide (i0 = i)) as [<-|Hne].
    + split.
      * fold sl in H1. unfold weight_at in *. rewrite slot_at_insert, decide_True by done. lia.
      * intros t1 t2 c1 c2 E1 E2 Hc1 Hc2 Hi1 Hi2. assert (forall t1 c1, <[t := cl']> ts !! t1 = Some c1 -> is_Some (claimed c1) -> union_slot (call_key c1) = i0 -> t1 = t) as H.
        { intros t3 c3 [(-> & _)|[Hne E3]]%list_lookup_insert_Some [s Hc3] Hi3; [done|]. by rewrite (Hothers t3 c3) in Hc3. }
        by rewrite (H t1 c1), (H t2 c2).
      * intros Hall. rewrite slot_at_insert, decide_True by done. destruct Hfree as [? ?]; [|by split; [|left]]. apply (Hall t); [apply list_lookup_insert_eq; by eapply lookup_lt_Some|by rewrite Hk].
    + split.
      * rewrite slot_at_insert, decide_False by done. rewrite H1. f_equal. unfold weight_at in *. lia.
      * intros t1 t2 c1 c2 E1 E2 Hc1 Hc2 Hi1 Hi2. apply list_lookup_insert_Some in E1 as [(_ & <- & _)|[_ E1]]; [by rewrite Hk in Hi1|].
        apply list_lookup_insert_Some in E2 as [(_ & <- & _)|[_ E2]]; [by rewrite Hk in Hi2|]. by apply (H2 t1 t2 c1 c2).
      * intros Hall. rewrite slot_at_insert, decide_False by done. apply H3. intros t1 c1 E1 Hi. destruct (decide (t1 = t)) as [->|Ht1]; [assert (c1 = cl) as -> by congruence; by destruct Hne|].
        apply (Hall t1); [by rewrite list_lookup_insert_ne|done].
  - intros t1 c1 [(_ & <- & _)|[Hne E1]]%list_lookup_insert_Some; [done|]. pose proof (Hc t1 c1 E1) as H. unfold UnionCache.call_ok in *. rewrite slot_at_insert.
    destruct (decide (i0 = union_slot (call_key c1))) as [Ei|Ei]; [|done]. pose proof (Hothers t1 c1 (not_eq_sym Hne) E1 (eq_sym Ei)) as Hcl. rewrite <- Ei in H. fold sl in H.
    destruct c1; cbn [claimed call_key] in *; try done; destruct Hseq as [? Hev]; destruct_and? H; split_and?; try done; try lia; intros E; exfalso; rewrite E in Hev; specialize (Hev ltac:(done)); lia.
  - by eapply insert_starts.
Qed.

Lemma claimed_seq c cl s : call_ok c cl -> claimed cl = Some s -> Z.even s = true /\ us_seq (slot_at c (union_slot (call_key cl))) = s + 1.
Proof. destruct cl; intros H [= <-]; cbn [UnionCache.call_ok] in H; naive_solver. Qed.

Lemma even_free c ts i t cl : cache_ok c ts -> Z.even (us_seq (slot_at c i)) = true -> ts !! t = Some cl -> union_slot (call_key cl) = i -> claimed cl = None.
Proof.
  intros Hok He Ht Hi. destruct (claimed cl) as [s|] eqn:Es; [|done]. destruct (claimed_seq c cl s) as [Hs E]; [by eapply ck_calls|done|].
  rewrite Hi in E. rewrite E, Z.even_add, Hs in He. done.
Qed.

Lemma not_odd_even s : Z.land s 1 <> 1 -> Z.even s = true.
Proof. rewrite odd_land, <- Z.negb_odd. by destruct (Z.odd s). Qed.

Lemma even_odd_succ s : Z.even s = true -> Z.even (s + 1) = false.
Proof. intros H. by rewrite Z.even_add, H. Qed.

(** A writer that holds its slot stores into it. *)
Lemma store_step c ts t cl cl' sl' s : cache_ok c ts -> ts !! t = Some cl -> claimed cl = Some s -> claimed cl' = Some s -> weight cl' = weight cl -> us_seq sl' = s + 1 ->
  call_key cl' = call_key cl -> call_start cl' = call_start cl -> call_ok (<[union_slot (call_key cl) := sl']> c) cl' ->
  cache_ok (<[union_slot (call_key cl) := sl']> c) (<[t := cl']> ts).
Proof.
  intros Hok Ht Hcl Hcl' Hw Hsl Hk Hs Hcok. destruct (claimed_seq c cl s (ck_calls _ _ _ Hok _ _ Ht) Hcl) as [He Hseq]. apply write_step; try done.
  - intros t1 c1 Hne E1 Hi. destruct (claimed c1) eqn:E; [|done]. destruct Hne. eapply (sl_one _ _ _ _ (ck_slots _ _ _ Hok _)); [exact E1|exact Ht|by rewrite E|by rewrite Hcl|exact Hi|done].
  - rewrite Hsl, Hseq, even_odd_succ by done. split; [lia|done].
  - rewrite Hsl, Hseq, Hw. lia.
  - by rewrite Hcl'.
Qed.

Lemma cache_step_ok c ts c' ts' : cache_ok c ts -> cache_step (c, ts) (c', ts') -> cache_ok c' ts'.
Proof.
  intros Hok Hstep. inversion Hstep as [c0 ts0 t cl c1 cl' Ht Hs]; subst. pose proof (ck_calls _ _ _ Hok _ _ Ht) as Hcl. destruct (call_step_start _ _ _ _ Hs) as (Est & Ekey & _).
  pose proof (fun i => seq_small ts i (ck_starts _ _ _ Hok)) as Hsmall. destruct cl as [key|key s1|key s1 k|key s1 k r| |key r|key r s|key r s|key r s|key r s|]; cbn [call_step] in Hs; try done.
  - injection Hs as <- <-. destruct (decide _) as [Ho|Ho]; (eapply quiet_step; [done..|]); [done|]. cbn. split; [by apply not_odd_even|lia].
  - injection Hs as <- <-. eapply quiet_step; [done..|]. cbn in *. naive_solver.
  - injection Hs as <- <-. eapply quiet_step; [done..|]. cbn in *. naive_solver.
  - injection Hs as <- <-. eapply quiet_step; [done..|]. destruct (decide _) as [Hn|Hn]; [done|]. cbn in Hcl |- *. destruct Hcl as (He & _ & H).
    assert (us_seq (slot_at c (union_slot key)) = s1 /\ k = key) as [E ->] by (destruct (decide (us_seq (slot_at c (union_slot key)) = s1)), (decide (k = key)); naive_solver).
    destruct (H E) as [Ek Er]. rewrite <- E in He. destruct (sl_free _ _ _ _ (ck_slots _ _ _ Hok (union_slot key))) as [_ Hf]; [intros t1 c1; by eapply even_free|]. by rewrite Ek, Er in Hf.
  - injection Hs as <- <-. destruct (decide _) as [Ho|Ho]; (eapply quiet_step; [done..|]); [done|]. cbn. by apply not_odd_even.
  - destruct (decide _) as [E|E]; injection Hs as <- <-; [|by eapply quiet_step]. cbn in Hcl. specialize (Hsmall (union_slot key)). rewrite <- (sl_seq _ _ _ _ (ck_slots _ _ _ Hok _)), E in Hsmall.
    assert (u32 (s + 1) = s + 1) as Eu by (apply Z.mod_small; lia). apply (write_step c ts t (PutSeq key r s)); try done; cbn [call_key us_seq set_seq weight]; rewrite ?Eu, ?E.
    + intros t1 c1 _. eapply even_free; [done|]. by rewrite E.
    + rewrite even_odd_succ by done. split; [lia|done].
    + lia.
    + cbn [UnionCache.call_ok call_key]. rewrite slot_at_insert, decide_True by done. cbn [us_seq set_seq]. done.
  - injection Hs as <- <-. cbn in Hcl. destruct Hcl as [He E]. apply (store_step c ts t (PutClaimed key r s) _ _ s); try done. cbn. by rewrite slot_at_insert, decide_True.
  - injection Hs as <- <-. cbn in Hcl. destruct Hcl as (He & E & Ek). apply (store_step c ts t (PutKey key r s) _ _ s); try done. cbn. by rewrite slot_at_insert, decide_True.
  - injection Hs as <- <-. cbn in Hcl. destruct Hcl as (He & E & Ek & Er). pose proof (seq_small (<[t := PutDone key r true]> ts) (union_slot key)) as Hnew.
    specialize (Hnew ltac:(by eapply insert_starts; [|done|apply Hok])). pose proof (sum_list_with_insert (weight_at (union_slot key)) ts t _ (PutDone key r true) Ht) as Hsum.
    unfold weight_at in Hsum at 2 4. cbn [call_key weight] in Hsum. rewrite !decide_True in Hsum by done. pose proof (sl_seq _ _ _ _ (ck_slots _ _ _ Hok (union_slot key))) as Hseq.
    assert (u32 (s + 2) = s + 2) as Eu by (apply Z.mod_small; lia). apply (write_step c ts t (PutResult key r s)); try done; cbn [call_key us_seq us_key us_result set_seq weight]; rewrite ?Eu, ?E.
    + intros t1 c1 Hne E1 Hi. destruct (claimed c1) eqn:Ec; [|done]. destruct Hne. eapply (sl_one _ _ _ _ (ck_slots _ _ _ Hok _)); [exact E1|exact Ht|by rewrite Ec|done|exact Hi|done].
    + split; lia.
    + lia.
    + intros _. rewrite Ek, Er. split; [by rewrite Z.even_add, He|]. rewrite <- (ck_starts _ _ _ Hok). apply elem_of_map. exists (PutResult key r s). split; [done|]. by eapply list_elem_of_lookup_2.
Qed.
End invariant.

Lemma cache_start_ok calls : Forall (fun cl => call_start cl = cl) calls -> cache_ok calls ∅ calls.
Proof.
  intros Hst. assert (forall t cl, calls !! t = Some cl -> call_start cl = cl) as H by (intros t cl Ht; by eapply (Forall_lookup_1 _ _ _ _ Hst)). split.
  - intros i. assert (forall t cl, calls !! t = Some cl -> claimed cl = None /\ weight cl = 0%nat) as Hcl by (intros t cl Ht; specialize (H _ _ Ht); by destruct cl).
    assert (slot_at ∅ i = mk_slot 0 0 0) as E by done. split; rewrite ?E; cbn [us_seq us_key us_result].
    + symmetry. apply (Nat2Z.inj_iff _ 0). clear - Hcl. induction calls as [|cl l IHl]; [done|]. cbn [sum_list_with]. rewrite IHl by (intros t; apply (Hcl (S t))).
      unfold weight_at. destruct (Hcl 0%nat cl eq_refl) as [_ ->]. by destruct (decide _).
    + intros t t' cl cl' Ht _ [s Hs]. destruct (Hcl t cl Ht) as [Hn _]. congruence.
    + intros _. split; [done|by right].
  - intros t cl Ht. specialize (H _ _ Ht). by destruct cl.
  - clear - H. induction calls as [|cl l IHl]; [done|]. cbn [map]. rewrite IHl by (intros t; apply (H (S t))). f_equal. by apply (H 0%nat).
Qed.

Lemma cache_steps_left c ts c' ts' : cache_step (c, ts) (c', ts') -> (sum_list_with steps_left ts' < sum_list_with steps_left ts)%nat.
Proof.
  intros Hstep. inversion Hstep as [c0 ts0 t cl c1 cl' Ht Hs]; subst. destruct (call_step_start _ _ _ _ Hs) as (_ & _ & Hlt).
  pose proof (sum_list_with_insert steps_left ts t cl cl' Ht). lia.
Qed.

(** C13: The union cache never returns a torn entry.  However the accesses of any number of calls interleave, fewer than [2^31] of them puts, a get that hits returns a
    result that some call put for that very key.  No call waits for another: each takes at most five accesses, and a call that has not returned can
    always make its next one. *)
Theorem union_cache_never_torn (calls : list call) (c : cache) (ts : list call) (n : nat) :
  Forall (fun cl => call_start cl = cl) calls -> Z.of_nat (length (filter (fun cl => is_put cl = true) calls)) < 2 ^ 31 ->
  nsteps cache_step n (∅, calls) (c, ts) ->
  (forall t key r, ts !! t = Some (GetDone key (Some r)) -> key <> 0 -> PutStart key r ∈ calls) /\
  (n <= 5 * length calls)%nat /\
  (forall t cl, ts !! t = Some cl -> (exists key o, cl = GetDone key o) \/ (exists key r b, cl = PutDone key r b) \/ exists c' cl', cache_step (c, ts) (c', <[t := cl']> ts)).
Proof.
  intros Hst Hputs Hn. split_and!.
  - assert (cache_ok calls c ts) as Hok.
    { pose proof (cache_start_ok calls Hst) as H0. remember (∅, calls) as x eqn:Ex. remember (c, ts) as y eqn:Ey.
      assert (forall c ts, x = (c, ts) -> cache_ok calls c ts) as Hx by (intros ? ? E; rewrite Ex in E; by injection E as <- <-). clear Ex H0.
      revert Hx. induction Hn as [x|n x y z Hs Hn IHn]; intros Hx; [by apply Hx|]. apply IHn; [done|]. intros c1 ts1 ->. destruct x as [c0 ts0]. eapply cache_step_ok; [done|by apply Hx|done]. }
    intros t key r Ht Hk. destruct (ck_calls _ _ _ Hok _ _ Ht) as [H|[H _]]; [done|by destruct Hk].
  - assert (forall x y, nsteps cache_step n x y -> (n + sum_list_with steps_left y.2 <= sum_list_with steps_left x.2)%nat) as H.
    { clear. intros x y. induction 1 as [x|n x y z Hs Hn IHn]; [done|]. destruct x, y. apply cache_steps_left in Hs. cbn [snd] in *. lia. }
    specialize (H _ _ Hn). cbn [snd] in H. assert (sum_list_with steps_left calls <= 5 * length calls)%nat; [|lia]. clear.
    induction calls as [|cl l IHl]; [done|]. cbn [sum_list_with length]. assert (steps_left cl <= 5)%nat by (destruct cl; cbn; lia). lia.
  - intros t cl Ht. destruct (decide (steps_left cl = 0%nat)) as [E|E]; [destruct cl; try done; [left; eauto|right; left; eauto]|]. right; right. destruct (call_step_total c cl E) as [[c' cl'] Es].
    exists c', cl'. by econstructor.
Qed.

(** ** One thread *)

Lemma cache_get_spec c key : Z.even (us_seq (slot_at c (union_slot key))) = true ->
  union_cache_get c key = if decide (us_key (slot_at c (union_slot key)) = key) then Some (us_result (slot_at c (union_slot key))) else None.
Proof.
  intros He. unfold union_cache_get. cbn [run_call call_step]. rewrite decide_False by (rewrite odd_land, <- Z.negb_even, He; done). cbn [run_call call_step snd].
  destruct (decide (us_key _ = key)) as [E|E]; [rewrite decide_False by (intros [H|H]; done)|rewrite decide_True by (by right)]; done.
Qed.

Lemma cache_put_spec c key r : let i := union_slot key in 0 <= us_seq (slot_at c i) < 2 ^ 32 -> Z.even (us_seq (slot_at c i)) = true ->
  union_cache_put c key r !! i = Some (mk_slot (u32 (us_seq (slot_at c i) + 2)) key r) /\ forall j, j <> i -> union_cache_put c key r !! j = c !! j.
Proof.
  intros i Hr He. unfold union_cache_put. cbn [run_call call_step]. fold i. set (sl := slot_at c i) in *. rewrite decide_False by (rewrite odd_land, <- Z.negb_even, He; done).
  cbn [run_call call_step]. fold i sl. rewrite decide_True by done. cbn [run_call call_step fst]. fold i. rewrite !slot_at_insert, !decide_True by done. cbn [set_seq us_seq us_key us_result].
  split; [by rewrite lookup_insert_eq|]. intros j Hj. by rewrite !lookup_insert_ne by done.
Qed.

(** Two puts to one slot, and a get that reads the entry of the first while the second is about to claim the slot. *)
Definition race : list nat := [0; 0; 0; 0; 0; 2; 1; 2; 2; 2; 1; 1; 1; 1]%nat.
Definition race_calls : list call := [PutStart 5 7; PutStart 5 9; GetStart 5].

(** The threads take turns as listed. *)
Fixpoint run_turns (turns : list nat) (s : cache * list call) : option (cache * list call) :=
  match turns with
  | [] => Some s
  | t :: turns => cl ← s.2 !! t; '(c, cl) ← call_step s.1 cl; run_turns turns (c, <[t := cl]> s.2)
  end.

Lemma run_turns_steps turns s s' : run_turns turns s = Some s' -> nsteps cache_step (length turns) s s'.
Proof.
  revert s. induction turns as [|t turns IHt]; intros [c ts] H; [injection H as <-; constructor|]. cbn [run_turns snd fst] in H.
  destruct (ts !! t) as [cl|] eqn:Et; [|done]. cbn [mbind option_bind] in H. destruct (call_step c cl) as [[c' cl']|] eqn:Es; [|done]. cbn [mbind option_bind] in H.
  eapply nsteps_l; [by econstructor|by apply IHt].
Qed.

Definition race_result : option (list call) := snd <$> run_turns race (∅, race_calls).

Lemma union_cache_never_torn_witness : exists c ts, nsteps cache_step (length race) (∅, race_calls) (c, ts) /\ ts !! 2%nat = Some (GetDone 5 (Some 7)) /\ PutStart 5 7 ∈ race_calls.
Proof.
  destruct (run_turns race (∅, race_calls)) as [[c ts]|] eqn:E.
  - assert (race_result = Some [PutDone 5 7 true; PutDone 5 9 true; GetDone 5 (Some 7)]) as Er by (vm_compute; reflexivity).
    unfold race_result in Er. rewrite E in Er. injection Er as ->. exists c, [PutDone 5 7 true; PutDone 5 9 true; GetDone 5 (Some 7)].
    pose proof (run_turns_steps _ _ _ E) as Hn. split; [exact Hn|]. split; [reflexivity|].
    destruct (union_cache_never_torn race_calls c [PutDone 5 7 true; PutDone 5 9 true; GetDone 5 (Some 7)] (length race)) as (H & _ & _); [repeat constructor|vm_compute; reflexivity|exact Hn|]. apply (H 2%nat); [reflexivity|discriminate].
  - exfalso. assert (race_result = Some [PutDone 5 7 true; PutDone 5 9 true; GetDone 5 (Some 7)]) as Er by (vm_compute; reflexivity). unfold race_result in Er. rewrite E in Er. discriminate Er.
Defined.
