(* ===== verification/Decision.v ===== *)
(** * Decision: decision sets and conditions ([ctadl-index/src/index_engine/decision.rs])

    What the facts of the index hold under.  A decision has a dense id; a set of decisions is a 4-byte handle: the empty set and the
    two tops have reserved values, and the others are the sorted members, interned, with the top bit for the kind of the set.
    An exact set is what it says, up to a widening bound; a collapsing set has one member, and two different ones join to the top.

    The statics of the source are the fields of [Statics], which the operations thread through.  The two
    interners of members are used through [IdHandle], with the width their declarations ask for. *)

From S2P Require Import Prelude Bits Index Interner UnionCache.

#[local] Open Scope Z_scope.

Record IndexDecision : Type := mk_decision { d_formal : Z; d_path : Z; d_target : Z }.

#[export] Instance Decision_eq_dec : EqDecision IndexDecision.
Proof. solve_decision. Defined.

#[export] Instance Decision_countable : Countable IndexDecision.
Proof. apply (inj_countable' (fun d => (d_formal d, d_path d, d_target d)) (fun '(f, p, t) => mk_decision f p t)). by intros []. Defined.

Record DecisionTable : Type := mk_table { t_ids : gmap IndexDecision Z; t_decisions : list IndexDecision }.

(** The statics. *)
Record Statics (St : Type) : Type := mk_statics {
  g_table : DecisionTable; g_singletons : list (Z * Z);
  g_exact : St; g_collapsing : St;
  g_widen_bound : Z; g_spill : bool;
  g_unions : Z; g_unions_grew : Z; g_union_cache_misses : Z; g_cache : cache }.
Arguments mk_statics {St}.
Arguments g_table {St}.
Arguments g_singletons {St}.
Arguments g_exact {St}.
Arguments g_collapsing {St}.
Arguments g_widen_bound {St}.
Arguments g_spill {St}.
Arguments g_unions {St}.
Arguments g_unions_grew {St}.
Arguments g_union_cache_misses {St}.
Arguments g_cache {St}.

Definition COLLAPSING : Z := Z.shiftl 1 31.
Definition EMPTY_SET : Z := 1.
Definition TOP_EXACT : Z := 2.
Definition TOP : Z := Z.lor TOP_EXACT COLLAPSING.
Definition FIRST_INTERNED : Z := 256.

(** ** Handles *)

Definition ds_is_top (ds : Z) : bool := bool_decide (ds = TOP \/ ds = TOP_EXACT).
Definition ds_is_collapsing (ds : Z) : bool := bool_decide (Z.land ds COLLAPSING <> 0).
Definition ds_is_empty (ds : Z) : bool := bool_decide (ds = EMPTY_SET).

(** [sorted.windows(2).all(|w| w[0] < w[1])]. *)
Fixpoint strictly_sorted (l : list Z) : bool :=
  match l with
  | x :: (y :: _) as l' => bool_decide (x < y) && strictly_sorted l'
  | _ => true
  end.

(** [slice::binary_search(..).is_ok()] on [l[lo .. lo + size]]. *)
Fixpoint binary_search (fuel : nat) (l : list Z) (x : Z) (lo size : nat) : bool :=
  match fuel with
  | 0%nat => false
  | S fuel =>
      if decide (size = 0%nat) then false
      else
        let half := (size / 2)%nat in
        match l !! (lo + half)%nat with
        | None => false
        | Some y => if decide (y = x) then true else if decide (y < x) then binary_search fuel l x (lo + half + 1)%nat (size - half - 1)%nat else binary_search fuel l x lo half
        end
  end.

(** The walk of [is_subset]: [b] is what is left of [other]. *)
Fixpoint skip_less (x : Z) (b : list Z) : list Z :=
  match b with
  | y :: b' => if decide (y < x) then skip_less x b' else b
  | [] => []
  end.

Fixpoint subset_walk (a b : list Z) : bool :=
  match a with
  | [] => true
  | x :: a =>
      match skip_less x b with
      | y :: b => if decide (y = x) then subset_walk a b else false
      | [] => false
      end
  end.

(** The merge of [union_uncached]. *)
Fixpoint merge_members (a : list Z) : list Z -> list Z :=
  fix go (b : list Z) : list Z :=
    match a, b with
    | x :: a', y :: b' =>
        match x ?= y with
        | Lt => x :: merge_members a' b
        | Gt => y :: go b'
        | Eq => x :: merge_members a' b'
        end
    | [], b => b
    | a, [] => a
    end.

Definition union_key (a b : Z) : Z := if decide (a < b) then Z.lor a (Z.shiftl b 32) else Z.lor b (Z.shiftl a 32).

Section sets.
Context {St : Type} `{IH : IdHandle (list Z) St}.
Implicit Types (g : Statics St).

Definition set_exact g st := mk_statics (g_table g) (g_singletons g) st (g_collapsing g) (g_widen_bound g) (g_spill g) (g_unions g) (g_unions_grew g) (g_union_cache_misses g) (g_cache g).
Definition set_collapsing g st := mk_statics (g_table g) (g_singletons g) (g_exact g) st (g_widen_bound g) (g_spill g) (g_unions g) (g_unions_grew g) (g_union_cache_misses g) (g_cache g).
Definition count_union g := mk_statics (g_table g) (g_singletons g) (g_exact g) (g_collapsing g) (g_widen_bound g) (g_spill g) (g_unions g + 1) (g_unions_grew g) (g_union_cache_misses g) (g_cache g).
Definition count_grew g := mk_statics (g_table g) (g_singletons g) (g_exact g) (g_collapsing g) (g_widen_bound g) (g_spill g) (g_unions g) (g_unions_grew g + 1) (g_union_cache_misses g) (g_cache g).
Definition count_miss g := mk_statics (g_table g) (g_singletons g) (g_exact g) (g_collapsing g) (g_widen_bound g) (g_spill g) (g_unions g) (g_unions_grew g) (g_union_cache_misses g + 1) (g_cache g).
Definition set_cache g c := mk_statics (g_table g) (g_singletons g) (g_exact g) (g_collapsing g) (g_widen_bound g) (g_spill g) (g_unions g) (g_unions_grew g) (g_union_cache_misses g) c.
Definition set_widen_bound g k := mk_statics (g_table g) (g_singletons g) (g_exact g) (g_collapsing g) k (g_spill g) (g_unions g) (g_unions_grew g) (g_union_cache_misses g) (g_cache g).
Definition set_spill g on := mk_statics (g_table g) (g_singletons g) (g_exact g) (g_collapsing g) (g_widen_bound g) on (g_unions g) (g_unions_grew g) (g_union_cache_misses g) (g_cache g).

(** [DecisionSet::intern]. *)
Definition ds_intern g (sorted : list Z) (collapse : bool) : outcome (Statics St * Z) :=
  _ ← rust_assert (strictly_sorted sorted);
  if decide (sorted = []) then Ret (g, EMPTY_SET)
  else if collapse then
    '(st, id) ← ih_intern (g_collapsing g) sorted;
    raw ← id_new (Z.lor id COLLAPSING); Ret (set_collapsing g st, raw)
  else
    '(st, id) ← ih_intern (g_exact g) sorted;
    raw ← id_new id; Ret (set_exact g st, raw).

Definition ds_members g (ds : Z) : outcome (list Z) :=
  let id := Z.ldiff ds COLLAPSING in
  if decide (id < FIRST_INTERNED) then Ret []
  else if decide (Z.land ds COLLAPSING <> 0) then ih_get (g_collapsing g) id else ih_get (g_exact g) id.

Definition ds_len g (ds : Z) : outcome Z := l ← ds_members g ds; Ret (Z.of_nat (length l)).

Definition ds_decisions g (ds : Z) : outcome (list IndexDecision) :=
  l ← ds_members g ds; mapM_out (fun id => iv_index (t_decisions (g_table g)) (Z.to_nat id)) l.

Definition ds_contains g (ds d : Z) : outcome bool :=
  if ds_is_top ds then Ret true else l ← ds_members g ds; Ret (binary_search (S (length l)) l d 0 (length l)).

Definition ds_is_subset g (ds other : Z) : outcome bool :=
  if bool_decide (ds = other) || ds_is_empty ds || ds_is_top other then Ret true
  else if ds_is_top ds then Ret false
  else
    a ← ds_members g ds;
    b ← ds_members g other;
    if decide (length b < length a)%nat then Ret false else Ret (subset_walk a b).

Definition ds_union_uncached g (ds other : Z) : outcome (Statics St * Z) :=
  sub ← ds_is_subset g other ds;
  if (sub : bool) then Ret (g, ds)
  else
    sub ← ds_is_subset g ds other;
    if (sub : bool) then Ret (g, other)
    else
      a ← ds_members g ds;
      b ← ds_members g other;
      let out := merge_members a b in
      if decide (g_widen_bound g <> 0 /\ g_widen_bound g < Z.of_nat (length out)) then Ret (g, TOP_EXACT)
      else ds_intern g out false.

Definition ds_union g (ds other : Z) : outcome (Statics St * Z) :=
  if bool_decide (ds = other) || ds_is_empty other then Ret (g, ds)
  else if ds_is_empty ds then Ret (g, other)
  else if ds_is_collapsing ds || ds_is_collapsing other then
    _ ← rust_assert (ds_is_collapsing ds && ds_is_collapsing other);
    let g := count_union g in
    if ds_is_top ds then Ret (g, ds) else Ret (count_grew g, TOP)
  else
    let g := count_union g in
    if ds_is_top ds then Ret (g, ds)
    else if ds_is_top other then Ret (count_grew g, other)
    else
      let key := union_key ds other in
      '(g, result) ← match union_cache_get (g_cache g) key with
        | Some raw => Ret (g, raw)
        | None =>
            '(g, result) ← ds_union_uncached (count_miss g) ds other;
            Ret (set_cache g (union_cache_put (g_cache g) key result), result)
        end;
      Ret (if decide (result <> ds) then count_grew g else g, result).

Fixpoint filter_contained g (other : Z) (l : list Z) : outcome (list Z) :=
  match l with
  | [] => Ret []
  | d :: l => b ← ds_contains g other d; out ← filter_contained g other l; Ret (if (b : bool) then d :: out else out)
  end.

Definition ds_intersection g (ds other : Z) : outcome (Statics St * Z) :=
  if bool_decide (ds = other) || ds_is_top ds then Ret (g, other)
  else if ds_is_top other then Ret (g, ds)
  else
    l ← ds_members g ds;
    out ← filter_contained g other l;
    ds_intern g out (ds_is_collapsing ds).

Definition ds_partial_cmp g (ds other : Z) : outcome (option comparison) :=
  if decide (ds = other) then Ret (Some Eq)
  else
    sub ← ds_is_subset g ds other;
    if (sub : bool) then Ret (Some Lt)
    else sub ← ds_is_subset g other ds; Ret (if (sub : bool) then Some Gt else None).

(** [join_mut] and [meet_mut] return the new value with the flag. *)
Definition ds_join_mut g (ds other : Z) : outcome (Statics St * (Z * bool)) :=
  '(g, joined) ← ds_union g ds other; Ret (g, if decide (joined = ds) then (ds, false) else (joined, true)).

Definition ds_meet_mut g (ds other : Z) : outcome (Statics St * (Z * bool)) :=
  '(g, met) ← ds_intersection g ds other; Ret (g, if decide (met = ds) then (ds, false) else (met, true)).

(** ** Decision ids *)

Definition decision_of g (d : IndexDecision) : outcome (Statics St * Z) :=
  match t_ids (g_table g) !! d with
  | Some id => Ret (g, id)
  | None =>
      let id := Z.of_nat (length (t_decisions (g_table g))) in
      if decide (2 ^ 32 <= id) then Panic
      else
        let table := mk_table (<[d := id]> (t_ids (g_table g))) (t_decisions (g_table g) ++ [d]) in
        '(g, exact) ← ds_intern g [id] false;
        '(g, collapsing) ← ds_intern g [id] true;
        let slot := Z.of_nat (length (g_singletons g)) in
        _ ← rust_assert (bool_decide (slot = id));
        Ret (mk_statics table (g_singletons g ++ [(exact, collapsing)]) (g_exact g) (g_collapsing g) (g_widen_bound g) (g_spill g) (g_unions g) (g_unions_grew g)
          (g_union_cache_misses g) (g_cache g), id)
  end.

Definition decision_singleton g (id : Z) (collapse : bool) : outcome Z :=
  pair ← iv_index (g_singletons g) (Z.to_nat id); Ret (if collapse then pair.2 else pair.1).

Definition decision_get g (id : Z) : outcome IndexDecision := iv_index (t_decisions (g_table g)) (Z.to_nat id).

Definition decision_count g : nat := length (t_decisions (g_table g)).

Definition spills g (ds : Z) : bool := ds_is_top ds && g_spill g.
End sets.

(** ** Conditions *)

Inductive Cond : Type := Under (ds : Z) | Always.

#[export] Instance Cond_eq_dec : EqDecision Cond.
Proof. solve_decision. Defined.

Section conds.
Context {St : Type} `{IH : IdHandle (list Z) St}.
Implicit Types (g : Statics St).

Definition cond_under g (ds : Z) : Cond := if spills g ds then Always else Under ds.
Definition is_always (c : Cond) : bool := bool_decide (c = Always).
Definition cond_set (c : Cond) : option Z := match c with Under ds => Some ds | Always => None end.

Definition cond_and g (c other : Cond) : outcome (Statics St * option Cond) :=
  match c, other with
  | Always, c | c, Always => Ret (g, Some c)
  | Under a, Under b => '(g, ds) ← ds_intersection g a b; Ret (g, if ds_is_empty ds then None else Some (cond_under g ds))
  end.

Definition cond_partial_cmp g (c other : Cond) : outcome (option comparison) :=
  match c, other with
  | Always, Always => Ret (Some Eq)
  | Always, _ => Ret (Some Gt)
  | _, Always => Ret (Some Lt)
  | Under a, Under b => ds_partial_cmp g a b
  end.

Definition cond_join_mut g (c other : Cond) : outcome (Statics St * (Cond * bool)) :=
  '(g, joined) ← match c, other with
    | Always, _ | _, Always => Ret (g, Always)
    | Under a, Under b => '(g, ds) ← ds_union g a b; Ret (g, cond_under g ds)
    end;
  Ret (g, (joined, bool_decide (joined <> c))).

Definition cond_meet_mut g (c other : Cond) : outcome (Statics St * (Cond * bool)) :=
  '(g, met) ← match c, other with
    | Always, c | c, Always => Ret (g, c)
    | Under a, Under b => '(g, ds) ← ds_intersection g a b; Ret (g, Under ds)
    end;
  Ret (g, (met, bool_decide (met <> c))).
End conds.

(** ** Sorted members *)

Abbreviation ssorted := (StronglySorted Z.lt).

Lemma strictly_sorted_spec l : strictly_sorted l = true <-> ssorted l.
Proof.
  induction l as [|x l IHl]; [split; [constructor|done]|]. destruct l as [|y l]; [split; [repeat constructor|done]|].
  change (strictly_sorted (x :: y :: l)) with (bool_decide (x < y) && strictly_sorted (y :: l)). rewrite andb_true_iff, bool_decide_eq_true, IHl. split.
  - intros [Hxy Hs]. constructor; [done|]. constructor; [done|]. apply StronglySorted_inv in Hs as [_ Hs]. eapply Forall_impl; [done|]. intros z Hz. cbn in Hz. lia.
  - intros [Hs Hx]%StronglySorted_inv. by apply Forall_cons in Hx as [? _].
Qed.

Lemma ssorted_lookup l i j a b : ssorted l -> l !! i = Some a -> l !! j = Some b -> (i < j)%nat -> a < b.
Proof.
  intros Hs. revert i j. induction Hs as [|x l Hs IHs Hx]; intros i j Hi Hj Hij; [done|]. destruct j as [|j]; [lia|]. destruct i as [|i]; [|apply (IHs i j); [done..|lia]].
  injection Hi as ->. eapply (Forall_lookup_1 _ _ _ _ Hx). exact Hj.
Qed.

Lemma ssorted_eq l l' : ssorted l -> ssorted l' -> (forall x, x ∈ l <-> x ∈ l') -> l = l'.
Proof.
  intros Hl Hl' He. apply StronglySorted_unique_strong with Z.lt; [intros; lia|done..|].
  apply NoDup_Permutation; auto using StronglySorted_lt_NoDup.
Qed.

Lemma binary_search_range fuel l x lo size : ssorted l -> (size < fuel)%nat -> (lo + size <= length l)%nat ->
  binary_search fuel l x lo size = true <-> exists i, (lo <= i < lo + size)%nat /\ l !! i = Some x.
Proof.
  intros Hs. revert lo size. induction fuel as [|fuel IHf]; intros lo size Hf Hl; [lia|]. cbn [binary_search]. destruct (decide (size = 0%nat)) as [->|Hne].
  { split; [done|]. intros (i & Hi & _). lia. }
  pose proof (Nat.div_lt size 2 ltac:(lia) ltac:(lia)) as Hhalf. set (half := (size / 2)%nat) in *. destruct (lookup_lt_is_Some_2 l (lo + half)) as [y Hy]; [lia|]. rewrite Hy.
  destruct (decide (y = x)) as [->|Hyx]; [split; [intros _; exists (lo + half)%nat; split; [lia|done]|done]|].
  destruct (decide (y < x)) as [Hlt|Hge]; rewrite IHf by lia; split; intros (i & Hi & Hx); exists i; (split; [|done]).
  - lia.
  - destruct (decide (i <= lo + half)%nat) as [Hle|]; [|lia]. exfalso. destruct (decide (i = lo + half)%nat) as [->|]; [congruence|]. pose proof (ssorted_lookup l i _ _ _ Hs Hx Hy ltac:(lia)). lia.
  - lia.
  - destruct (decide (lo + half <= i)%nat) as [Hle|]; [|lia]. exfalso. destruct (decide (i = lo + half)%nat) as [->|]; [congruence|]. pose proof (ssorted_lookup l _ i _ _ Hs Hy Hx ltac:(lia)). lia.
Qed.

Lemma binary_search_spec l x : ssorted l -> binary_search (S (length l)) l x 0 (length l) = bool_decide (x ∈ l).
Proof.
  intros Hs. apply eq_true_iff_eq. rewrite binary_search_range, bool_decide_eq_true by (done || lia). rewrite list_elem_of_lookup. split; [intros (i & _ & Hi); eauto|].
  intros [i Hi]. exists i. apply lookup_lt_Some in Hi as ?. split; [lia|done].
Qed.

Lemma skip_less_spec x b : ssorted b -> ssorted (skip_less x b) /\ (length (skip_less x b) <= length b)%nat /\ Forall (Z.le x) (skip_less x b) /\ forall z, x <= z -> z ∈ skip_less x b <-> z ∈ b.
Proof.
  induction 1 as [|y b Hs (H1 & H2 & H3 & H4) Hy]; [split_and!; [constructor|done|constructor|done]|]. cbn [skip_less]. destruct (decide (y < x)) as [Hlt|Hge].
  - split_and!; [done|simpl; lia|done|]. intros z Hz. rewrite H4, elem_of_cons by done. split; [by right|]. intros [->|?]; [lia|done].
  - split_and!; [by constructor|done| |done]. constructor; [lia|]. eapply Forall_impl; [done|]. intros z Hz. cbn in Hz. lia.
Qed.

Lemma subset_walk_spec a : forall b, ssorted a -> ssorted b -> subset_walk a b = true <-> forall x, x ∈ a -> x ∈ b.
Proof.
  induction a as [|x a IHa]; intros b Ha Hb; [split; [intros _ x ?%not_elem_of_nil; done|done]|]. cbn [subset_walk]. apply StronglySorted_inv in Ha as [Ha Hx]. rewrite Forall_forall in Hx.
  destruct (skip_less_spec x b Hb) as (H1 & _ & H3 & H4). destruct (skip_less x b) as [|y b'] eqn:E.
  { split; [done|]. intros H. exfalso. by apply (not_elem_of_nil x), H4, H; [lia|left]. }
  apply StronglySorted_inv in H1 as [Hb' Hy]. rewrite Forall_forall in Hy. apply Forall_cons in H3 as [Hxy _]. destruct (decide (y = x)) as [->|Hne].
  - rewrite IHa by done. split.
    + intros H z [->|Hz]%elem_of_cons; [apply H4; [lia|by left]|]. apply H4; [specialize (Hx z Hz); lia|]. right. by apply H.
    + intros H z Hz. specialize (Hx z Hz). assert (z ∈ x :: b') as [->|?]%elem_of_cons by (apply H4; [lia|apply H; by right]); [lia|done].
  - split; [done|]. intros H. exfalso. assert (x ∈ y :: b') as [?|Hin]%elem_of_cons by (apply H4; [lia|apply H; by left]); [by destruct Hne|]. specialize (Hy _ Hin). lia.
Qed.

Lemma merge_nil_r a : merge_members a [] = a.
Proof. by destruct a. Qed.

Lemma merge_cons x a y b : merge_members (x :: a) (y :: b) =
  match x ?= y with Lt => x :: merge_members a (y :: b) | Gt => y :: merge_members (x :: a) b | Eq => x :: merge_members a b end.
Proof. done. Qed.

Lemma elem_of_merge a : forall b z, z ∈ merge_members a b <-> z ∈ a \/ z ∈ b.
Proof.
  induction a as [|x a IHa]; [intros [|y b] z; cbn; rewrite ?elem_of_nil; naive_solver|]. induction b as [|y b IHb]; intros z; [rewrite merge_nil_r, elem_of_nil; naive_solver|]. rewrite merge_cons.
  destruct (Z.compare_spec x y) as [->|H|H]; rewrite ?elem_of_cons, ?IHa, ?IHb, ?elem_of_cons; naive_solver.
Qed.

Lemma merge_sorted a : forall b, ssorted a -> ssorted b -> ssorted (merge_members a b).
Proof.
  induction a as [|x a IHa]; [by intros [|y b]|]. intros b Ha. induction b as [|y b IHb]; intros Hb; [by rewrite merge_nil_r|]. rewrite merge_cons.
  pose proof (StronglySorted_inv Ha) as [Ha' Hx]. pose proof (StronglySorted_inv Hb) as [Hb' Hy]. rewrite Forall_forall in Hx, Hy. 
  destruct (Z.compare_spec x y) as [->|H|H]; (constructor; [auto|]); apply Forall_forall; intros z Hz; rewrite elem_of_merge, ?elem_of_cons in Hz; destruct_or? Hz; subst; try lia;
    try (specialize (Hx _ Hz)); try (specialize (Hy _ Hz)); lia.
Qed.

(** ** What a handle denotes *)

Lemma ldiff_low a n : 0 <= n -> 0 <= a < 2 ^ n -> Z.ldiff a (2 ^ n) = a.
Proof.
  intros Hn Ha. apply Z.bits_inj'. intros i Hi. rewrite Z.ldiff_spec, Z.pow2_bits_eqb by done. destruct (Z.eqb_spec n i) as [->|]; [|apply andb_true_r].
  by rewrite (bits_above a i) by lia.
Qed.

Lemma ldiff_high a n : 0 <= n -> 0 <= a < 2 ^ n -> Z.ldiff (a + 2 ^ n) (2 ^ n) = a.
Proof.
  intros Hn Ha. rewrite <- lor_bit by done. rewrite <- (ldiff_low a n) at 2 by done. apply Z.bits_inj'. intros i Hi. rewrite !Z.ldiff_spec, Z.lor_spec. by destruct (Z.testbit a i), (Z.testbit _ i).
Qed.

(** Bottom, a set of one of the kinds, and the tops. *)
Inductive dval : Type := DBot | DSet (collapse : bool) (s : gset Z) | DTop (collapse : bool).

#[export] Instance dval_eq_dec : EqDecision dval.
Proof. solve_decision. Defined.

(** The empty set is of both kinds. *)
Definition of_kind (collapse : bool) (v : dval) : Prop := match v with DBot => True | DSet k _ | DTop k => k = collapse end.

#[export] Instance of_kind_dec collapse v : Decision (of_kind collapse v).
Proof. destruct v; cbn; apply _. Defined.

Definition dle (a b : dval) : Prop :=
  match a, b with
  | DBot, _ | _, DTop _ => True
  | DSet _ s, DSet _ s' => s ⊆ s'
  | _, _ => False
  end.

#[export] Instance dle_dec a b : Decision (dle a b).
Proof. destruct a, b; cbn; apply _. Defined.

Lemma dle_refl a : dle a a.
Proof. destruct a; cbn; [done|set_solver|done]. Qed.

(** The join: union, widened to the top beyond the bound; of two different collapsing sets, the top. *)
Definition djoin (bound : Z) (a b : dval) : dval :=
  match a, b with
  | DBot, v | v, DBot => v
  | DTop k, _ | _, DTop k => DTop k
  | DSet true s, DSet _ s' => if decide (s = s') then a else DTop true
  | DSet false s, DSet _ s' => if decide (bound <> 0 /\ bound < Z.of_nat (size (s ∪ s'))) then DTop false else DSet false (s ∪ s')
  end.

Definition dmeet (a b : dval) : dval :=
  match a, b with
  | DTop _, v | v, DTop _ => v
  | DBot, _ | _, DBot => DBot
  | DSet k s, DSet _ s' => if decide (s ∩ s' = ∅) then DBot else DSet k (s ∩ s')
  end.

(** The sets there can be: collapsing ones have one member, and exact ones no more than the bound. *)
Definition dwithin (bound : Z) (v : dval) : Prop :=
  match v with
  | DSet true s => exists d, s = {[ d ]}
  | DSet false s => s <> ∅ /\ (bound <> 0 -> Z.of_nat (size s) <= bound)
  | _ => True
  end.

Section denote.
Context {St : Type} `{IH : IdHandle (list Z) St}.
Context (Heqb : forall a b : list Z, ih_eqb a b = true <-> a = b) (Hfirst : FIRST_INTERNED <= ih_first) (Hbound : ih_bound <= 2 ^ 31).
Implicit Types (g : Statics St).

Inductive ds_denotes g : Z -> dval -> Prop :=
| den_empty : ds_denotes g EMPTY_SET DBot
| den_top_exact : ds_denotes g TOP_EXACT (DTop false)
| den_top : ds_denotes g TOP (DTop true)
| den_exact id l : ih_names (g_exact g) id l -> ds_denotes g id (DSet false (list_to_set l))
| den_collapsing id l : ih_names (g_collapsing g) id l -> ds_denotes g (Z.lor id COLLAPSING) (DSet true (list_to_set l)).

Definition members_fit (bound : Z) (l : list Z) : Prop := ssorted l /\ l <> [] /\ (bound <> 0 -> Z.of_nat (length l) <= bound).

Definition cached g (key result : Z) : Prop := exists a b va vb, key = union_key a b /\ 0 <= a < 2 ^ 32 /\ 0 <= b < 2 ^ 32 /\
  ds_denotes g a va /\ ds_denotes g b vb /\ of_kind false va /\ of_kind false vb /\ ds_denotes g result (djoin (g_widen_bound g) va vb).

Record statics_ok g : Prop := {
  gk_exact : ih_ok (g_exact g);
  gk_collapsing : ih_ok (g_collapsing g);
  gk_sets : forall id l, ih_names (g_exact g) id l -> members_fit (g_widen_bound g) l;
  gk_singles : forall id l, ih_names (g_collapsing g) id l -> exists d, l = [d];
  gk_bound : 0 <= g_widen_bound g;
  gk_cache : forall i, Z.even (us_seq (slot_at (g_cache g) i)) = true /\ 0 <= us_seq (slot_at (g_cache g) i) < 2 ^ 32 /\
    (us_key (slot_at (g_cache g) i) = 0 \/ cached g (us_key (slot_at (g_cache g) i)) (us_result (slot_at (g_cache g) i)));
  gk_ids : forall d id, t_ids (g_table g) !! d = Some id <-> 0 <= id /\ t_decisions (g_table g) !! Z.to_nat id = Some d;
  gk_singletons : length (g_singletons g) = length (t_decisions (g_table g));
  gk_single : forall id x y, g_singletons g !! Z.to_nat id = Some (x, y) -> 0 <= id -> ds_denotes g x (DSet false {[ id ]}) /\ ds_denotes g y (DSet true {[ id ]});
}.

(** Handles stay what they are. *)
Record ggrows g g' : Prop := {
  gg_exact : forall id l, ih_names (g_exact g) id l -> ih_names (g_exact g') id l;
  gg_collapsing : forall id l, ih_names (g_collapsing g) id l -> ih_names (g_collapsing g') id l;
  gg_bound : g_widen_bound g' = g_widen_bound g;
  gg_spill : g_spill g' = g_spill g;
  gg_decisions : t_decisions (g_table g) `prefix_of` t_decisions (g_table g');
}.

Lemma ggrows_refl g : ggrows g g.
Proof. by split. Qed.

Lemma ggrows_trans g g' g'' : ggrows g g' -> ggrows g' g'' -> ggrows g g''.
Proof. intros [] []. split; try congruence; eauto. by etrans. Qed.

Lemma ds_denotes_grows g g' a v : ggrows g g' -> ds_denotes g a v -> ds_denotes g' a v.
Proof. intros [H1 H2]. destruct 1; constructor; eauto. Qed.

Lemma cached_grows g g' key r : ggrows g g' -> cached g key r -> cached g' key r.
Proof.
  intros Hg (a & b & va & vb & H1 & H2 & H3 & H4 & H5 & H6 & H7 & H8). exists a, b, va, vb. rewrite (gg_bound _ _ Hg). split_and!; eauto using ds_denotes_grows; lia.
Qed.

Lemma exact_range g id l : statics_ok g -> ih_names (g_exact g) id l -> FIRST_INTERNED <= id < 2 ^ 31.
Proof. intros Hok Hn. pose proof (ih_range _ _ _ (gk_exact _ Hok) Hn). lia. Qed.

Lemma collapsing_range g id l : statics_ok g -> ih_names (g_collapsing g) id l -> FIRST_INTERNED <= id < 2 ^ 31.
Proof. intros Hok Hn. pose proof (ih_range _ _ _ (gk_collapsing _ Hok) Hn). lia. Qed.

Lemma names_list_fun (st : St) id l l' : ih_names st id l -> ih_names st id l' -> l = l'.
Proof. intros H%ih_get_names H'%ih_get_names. congruence. Qed.

Lemma COLLAPSING_eq : COLLAPSING = 2 ^ 31.
Proof. done. Qed.

Lemma tagged id : FIRST_INTERNED <= id < 2 ^ 31 -> Z.lor id COLLAPSING = id + 2 ^ 31.
Proof. intros H. rewrite COLLAPSING_eq, lor_bit; [done|done|]. unfold FIRST_INTERNED in H. lia. Qed.

Lemma TOP_eq : TOP = 2 + 2 ^ 31.
Proof. done. Qed.

(** A handle as the code takes it apart. *)
Lemma ds_denotes_raw g a v : statics_ok g -> ds_denotes g a v -> 0 < a < 2 ^ 32 /\
  ds_is_empty a = (match v with DBot => true | _ => false end) /\ ds_is_top a = (match v with DTop _ => true | _ => false end) /\
  ds_is_collapsing a = (match v with DSet k _ | DTop k => k | DBot => false end).
Proof.
  intros Hok Hv. unfold ds_is_empty, ds_is_top, ds_is_collapsing. destruct Hv as [| | |id l Hn|id l Hn]; [split; [|done]..| |].
  - by unfold EMPTY_SET.
  - by unfold TOP_EXACT.
  - by rewrite TOP_eq.
  - pose proof (exact_range _ _ _ Hok Hn) as Hr. unfold FIRST_INTERNED in Hr. split; [lia|]. rewrite COLLAPSING_eq, land_bit_low by lia. rewrite TOP_eq. unfold EMPTY_SET, TOP_EXACT.
    rewrite !bool_decide_eq_false_2 by lia. done.
  - pose proof (collapsing_range _ _ _ Hok Hn) as Hr. rewrite tagged by done. unfold FIRST_INTERNED in Hr. split; [lia|]. rewrite COLLAPSING_eq, land_bit_high by lia. rewrite TOP_eq. unfold EMPTY_SET, TOP_EXACT.
    rewrite (bool_decide_eq_true_2 (2 ^ 31 <> 0)) by done. rewrite !bool_decide_eq_false_2 by lia. done.
Qed.

Definition dset (v : dval) : gset Z := match v with DSet _ s => s | _ => ∅ end.

Lemma ds_members_spec g a v : statics_ok g -> ds_denotes g a v -> exists l, ds_members g a = Ret l /\ ssorted l /\ list_to_set l = dset v.
Proof.
  intros Hok Hv. unfold ds_members. destruct Hv as [| | |id l Hn|id l Hn].
  - exists []. split_and!; [done|constructor|done].
  - exists []. split_and!; [done|constructor|done].
  - exists []. split_and!; [done|constructor|done].
  - pose proof (exact_range _ _ _ Hok Hn) as Hr. pose proof Hr as Hr'. unfold FIRST_INTERNED in Hr'. rewrite COLLAPSING_eq, ldiff_low, land_bit_low by lia. rewrite decide_False by lia.
    rewrite decide_False by (by intros []). rewrite (ih_get_names _ _ _ Hn). exists l. split_and!; [done|by apply (gk_sets _ Hok id)|done].
  - pose proof (collapsing_range _ _ _ Hok Hn) as Hr. rewrite tagged by done. pose proof Hr as Hr'. unfold FIRST_INTERNED in Hr'. rewrite COLLAPSING_eq, ldiff_high, land_bit_high by lia.
    rewrite decide_False by lia. rewrite decide_True by done. rewrite (ih_get_names _ _ _ Hn). exists l. destruct (gk_singles _ Hok _ _ Hn) as [d ->]. split_and!; [done|repeat constructor|done].
Qed.

Lemma ds_denotes_fun g a v v' : statics_ok g -> ds_denotes g a v -> ds_denotes g a v' -> v = v'.
Proof.
  intros Hok Hv Hv'. pose proof (ds_denotes_raw _ _ _ Hok Hv) as (_ & E1 & E2 & E3). pose proof (ds_denotes_raw _ _ _ Hok Hv') as (_ & E1' & E2' & E3').
  rewrite E1 in E1'. rewrite E2 in E2'. rewrite E3 in E3'. clear E1 E2 E3. assert (dset v = dset v') as Es.
  { destruct (ds_members_spec _ _ _ Hok Hv) as (l & El & _ & <-). destruct (ds_members_spec _ _ _ Hok Hv') as (l' & El' & _ & <-). by rewrite El in El'; injection El' as ->. }
  clear Hv Hv'. destruct v as [|[] s|[]], v' as [|[] s'|[]]; cbn [dset] in Es; subst; done.
Qed.

Lemma list_to_set_sorted l l' : ssorted l -> ssorted l' -> (list_to_set l : gset Z) = list_to_set l' -> l = l'.
Proof. intros Hl Hl' E. apply ssorted_eq; [done..|]. intros x. rewrite <- !(elem_of_list_to_set (C := gset Z)). by rewrite E. Qed.

Lemma ds_denotes_inj g a b v : statics_ok g -> ds_denotes g a v -> ds_denotes g b v -> a = b.
Proof.
  intros Hok Ha. destruct Ha as [| | |id l Hn|id l Hn]; inversion 1 as [| | |id' l' Hn' E1 E2|id' l' Hn' E1 E2]; subst; try done.
  - apply (ih_names_inj (g_exact g) _ _ l); [done|]. rewrite (list_to_set_sorted l l'); [done|by eapply (gk_sets _ Hok)|by eapply (gk_sets _ Hok)|done].
  - destruct (gk_singles _ Hok _ _ Hn) as [d ->]. destruct (gk_singles _ Hok _ _ Hn') as [d' ->]. f_equal. apply (ih_names_inj (g_collapsing g) _ _ [d]); [done|].
    rewrite (list_to_set_sorted [d] [d']); [done|repeat constructor|repeat constructor|done].
Qed.

Lemma ds_denotes_within g a v : statics_ok g -> ds_denotes g a v -> dwithin (g_widen_bound g) v.
Proof.
  intros Hok Ha. destruct Ha as [| | |id l Hn|id l Hn]; try done; cbn [dwithin].
  - destruct (gk_sets _ Hok _ _ Hn) as (Hs & Hne & Hlen). split; [destruct l; [done|]; simpl; set_solver|]. intros Hb. specialize (Hlen Hb). rewrite size_list_to_set by (by apply StronglySorted_lt_NoDup). lia.
  - destruct (gk_singles _ Hok _ _ Hn) as [d ->]. exists d. simpl. set_solver.
Qed.

Lemma subset_members l l' : ssorted l -> ssorted l' ->
  (if decide (length l' < length l)%nat then Ret false else Ret (subset_walk l l')) = Ret (bool_decide ((list_to_set l : gset Z) ⊆ list_to_set l')).
Proof.
  intros Hl Hl'. assert ((list_to_set l : gset Z) ⊆ list_to_set l' <-> forall x, x ∈ l -> x ∈ l') as Hsub.
  { split; intros H x; specialize (H x); rewrite !elem_of_list_to_set in *; done. }
  destruct (decide _) as [Hlt|Hge]; f_equal; symmetry.
  - apply bool_decide_eq_false_2. intros H. apply subseteq_size in H. rewrite !size_list_to_set in H by (by apply StronglySorted_lt_NoDup). lia.
  - apply eq_true_iff_eq. by rewrite bool_decide_eq_true, Hsub, subset_walk_spec.
Qed.

Lemma ds_is_subset_spec g a b va vb k : statics_ok g -> ds_denotes g a va -> ds_denotes g b vb -> of_kind k va -> of_kind k vb ->
  ds_is_subset g a b = Ret (bool_decide (dle va vb)).
Proof.
  intros Hok Ha Hb Hka Hkb. unfold ds_is_subset. destruct (ds_denotes_raw _ _ _ Hok Ha) as (_ & E1 & E2 & _). destruct (ds_denotes_raw _ _ _ Hok Hb) as (_ & _ & E2' & _).
  rewrite E1, E2, E2'. clear E1 E2 E2'. destruct (ds_members_spec _ _ _ Hok Ha) as (l & -> & Hl & El). destruct (ds_members_spec _ _ _ Hok Hb) as (l' & -> & Hl' & El').
  destruct (decide (a = b)) as [->|Hne].
  { rewrite (bool_decide_eq_true_2 (b = b)) by done. cbn [orb]. f_equal. symmetry. apply bool_decide_eq_true_2. rewrite (ds_denotes_fun _ _ _ _ Hok Ha Hb). apply dle_refl. }
  rewrite (bool_decide_eq_false_2 (a = b)) by done. cbn [orb]. destruct va as [|ka s|ka], vb as [|kb s'|kb]; cbn [of_kind dset orb] in *; subst; try done; cbn [mbind outcome_bind].
  - rewrite subset_members by done. f_equal. apply bool_decide_ext. rewrite El'. cbn. pose proof (ds_denotes_within _ _ _ Hok Ha) as Hw. destruct k; cbn in Hw; [destruct Hw as [d ->]|]; set_solver.
  - rewrite subset_members by done. done.
Qed.

Lemma ds_contains_spec g a v x : statics_ok g -> ds_denotes g a v -> ds_contains g a x = Ret (match v with DTop _ => true | v => bool_decide (x ∈ dset v) end).
Proof.
  intros Hok Ha. unfold ds_contains. destruct (ds_denotes_raw _ _ _ Hok Ha) as (_ & _ & -> & _). destruct (ds_members_spec _ _ _ Hok Ha) as (l & El & Hl & Es).
  destruct v as [|k s|k]; [| |done]; rewrite El; cbn [mbind outcome_bind]; rewrite binary_search_spec by done; f_equal; apply bool_decide_ext; rewrite <- Es; by rewrite elem_of_list_to_set.
Qed.

(** ** Operations that intern

    They return with the handles as they were, or panic because an interner is full. *)

Definition sets_full g : Prop := exists g' l, statics_ok g' /\ ggrows g g' /\ (ih_full (g_exact g') l \/ ih_full (g_collapsing g') l).

Definition gruns {X} g (o : outcome (Statics St * X)) (Q : Statics St -> X -> Prop) : Prop :=
  (exists g' x, o = Ret (g', x) /\ statics_ok g' /\ ggrows g g' /\ Q g' x) \/ (o = Panic /\ sets_full g).

Lemma gruns_ret {X} g (x : X) (Q : Statics St -> X -> Prop) : statics_ok g -> Q g x -> gruns g (Ret (g, x)) Q.
Proof. intros Hok HQ. left. eexists _, _. split; [done|]. split; [done|]. split; [apply ggrows_refl|done]. Qed.

Lemma gruns_bind {X Y} g (m : outcome (Statics St * X)) (f : Statics St * X -> outcome (Statics St * Y)) (Q : Statics St -> X -> Prop) (R : Statics St -> Y -> Prop) : gruns g m Q ->
  (forall g' x, statics_ok g' -> ggrows g g' -> Q g' x -> gruns g' (f (g', x)) R) -> gruns g (mbind f m) R.
Proof.
  intros [(g' & x & -> & Hok & Hg & HQ)|(-> & Hfull)] Hf; [|by right]. cbn [mbind outcome_bind].
  destruct (Hf g' x Hok Hg HQ) as [(g2 & y & E & Hok2 & Hg2 & HR)|(E & g2 & n & Hok2 & Hg2 & Hn)].
  - left. exists g2, y. split_and!; [done..|by eapply ggrows_trans|done].
  - right. split; [done|]. exists g2, n. split_and!; [done|by eapply ggrows_trans|done].
Qed.

Lemma gruns_mono {X} g (m : outcome (Statics St * X)) (Q R : Statics St -> X -> Prop) : gruns g m Q ->
  (forall g' x, statics_ok g' -> ggrows g g' -> Q g' x -> R g' x) -> gruns g m R.
Proof. intros [(g' & x & -> & Hok & Hg & HQ)|Hfull] H; [left|by right]. exists g', x. eauto. Qed.

(** Only the interners have changed. *)
Lemma statics_ok_grow g g' : statics_ok g -> ggrows g g' -> ih_ok (g_exact g') -> ih_ok (g_collapsing g') ->
  (forall id l, ih_names (g_exact g') id l -> members_fit (g_widen_bound g) l) -> (forall id l, ih_names (g_collapsing g') id l -> exists d, l = [d]) ->
  g_table g' = g_table g -> g_singletons g' = g_singletons g -> g_cache g' = g_cache g -> statics_ok g'.
Proof.
  intros [] Hg He Hc Hsets Hsingles Et Es Ec. split; rewrite ?Et, ?Es, ?Ec, ?(gg_bound _ _ Hg); try done.
  - intros i. destruct (gk_cache0 i) as (H1 & H2 & [H3|H3]); (split; [done|]; split; [done|]); [by left|right; by eapply cached_grows].
  - intros id x y Hx Hid. destruct (gk_single0 id x y Hx Hid). split; by eapply ds_denotes_grows.
Qed.

Lemma id_new_ok x : x <> 0 -> id_new x = Ret x.
Proof. intros H. unfold id_new. by rewrite decide_False. Qed.

Lemma ds_intern_spec g l (k : bool) : statics_ok g -> ssorted l -> (if k then (length l <= 1)%nat else g_widen_bound g <> 0 -> Z.of_nat (length l) <= g_widen_bound g) ->
  gruns g (ds_intern g l k) (fun g' r => ds_denotes g' r (if decide (l = []) then DBot else DSet k (list_to_set l))).
Proof.
  intros Hok Hl Hk. unfold ds_intern. rewrite (proj2 (strictly_sorted_spec l) Hl). cbn [rust_assert mbind outcome_bind]. destruct (decide (l = [])) as [->|Hne]; [apply gruns_ret; [done|constructor]|].
  destruct k.
  - destruct (ih_intern_names (g_collapsing g) l (gk_collapsing _ Hok) (fun raw w _ => Heqb w l)) as [(st' & id & -> & Hok' & Hn)|[-> Hfull]]; cbn [mbind outcome_bind].
    2:{ right. split; [done|]. exists g, l. split_and!; [done|apply ggrows_refl|by right]. }
    assert (ggrows g (set_collapsing g st')) as Hg by (split; try done; intros; apply Hn; by left). assert (statics_ok (set_collapsing g st')) as Hok2.
    { apply (statics_ok_grow g); try done; [by apply Hok|by apply Hok|]. intros id' l' [H|[-> ->]]%Hn; [by eapply (gk_singles _ Hok)|]. destruct l as [|x [|]]; [done|eauto|simpl in Hk; lia]. }
    assert (ih_names (g_collapsing (set_collapsing g st')) id l) as Hid by (apply Hn; by right). pose proof (collapsing_range _ _ _ Hok2 Hid) as Hr.
    rewrite id_new_ok by (rewrite tagged by done; unfold FIRST_INTERNED in Hr; lia). cbn [mbind outcome_bind]. left. eexists _, _. split; [done|]. split; [done|]. split; [done|]. by constructor.
  - destruct (ih_intern_names (g_exact g) l (gk_exact _ Hok) (fun raw w _ => Heqb w l)) as [(st' & id & -> & Hok' & Hn)|[-> Hfull]]; cbn [mbind outcome_bind].
    2:{ right. split; [done|]. exists g, l. split_and!; [done|apply ggrows_refl|by left]. }
    assert (ggrows g (set_exact g st')) as Hg by (split; try done; intros; apply Hn; by left). assert (statics_ok (set_exact g st')) as Hok2.
    { apply (statics_ok_grow g); try done; [by apply Hok| |by apply Hok]. intros id' l' [H|[-> ->]]%Hn; [by eapply (gk_sets _ Hok)|]. by split_and!. }
    assert (ih_names (g_exact (set_exact g st')) id l) as Hid by (apply Hn; by right). pose proof (exact_range _ _ _ Hok2 Hid) as Hr. unfold FIRST_INTERNED in Hr.
    rewrite id_new_ok by lia. cbn [mbind outcome_bind]. left. eexists _, _. split; [done|]. split; [done|]. split; [done|]. by constructor.
Qed.

(** ** Unions *)

Lemma union_key_eq a b : 0 <= a < 2 ^ 32 -> 0 <= b < 2 ^ 32 -> union_key a b = Z.min a b + Z.max a b * 2 ^ 32.
Proof. intros Ha Hb. unfold union_key. destruct (decide (a < b)); rewrite lor_shiftl by lia; lia. Qed.

Lemma union_key_inj a b a' b' : 0 <= a < 2 ^ 32 -> 0 <= b < 2 ^ 32 -> 0 <= a' < 2 ^ 32 -> 0 <= b' < 2 ^ 32 -> union_key a b = union_key a' b' ->
  (a = a' /\ b = b') \/ (a = b' /\ b = a').
Proof. intros Ha Hb Ha' Hb'. rewrite !union_key_eq by done. lia. Qed.

Lemma djoin_comm bound a b k : of_kind k a -> of_kind k b -> djoin bound a b = djoin bound b a.
Proof.
  destruct a as [|[] s|[]], b as [|[] s'|[]]; cbn; intros; subst; try done.
  - destruct (decide (s = s')) as [->|Hne]; [by rewrite decide_True|]. by rewrite decide_False.
  - by rewrite (union_comm_L s s').
Qed.

Lemma count_ok g g' : statics_ok g -> g_table g' = g_table g -> g_singletons g' = g_singletons g -> g_exact g' = g_exact g -> g_collapsing g' = g_collapsing g ->
  g_widen_bound g' = g_widen_bound g -> g_spill g' = g_spill g -> g_cache g' = g_cache g -> statics_ok g' /\ ggrows g g'.
Proof.
  intros Hok E1 E2 E3 E4 E5 E6 E7. assert (ggrows g g') as Hg by (split; rewrite ?E1, ?E3, ?E4; done). split; [|done].
  apply (statics_ok_grow g); try done; rewrite ?E3, ?E4; apply Hok.
Qed.

Lemma gruns_count {X} g g' (o : outcome (Statics St * X)) Q : ggrows g g' -> gruns g' o Q -> gruns g o Q.
Proof.
  intros Hg [(g2 & x & -> & Hok & Hg2 & HQ)|(-> & g2 & n & Hok & Hg2 & Hn)]; [left; exists g2, x|right; split; [done|]; exists g2, n]; split_and!; try done; by eapply ggrows_trans.
Qed.

Lemma djoin_subset bound s s' : dwithin bound (DSet false s) -> s' ⊆ s -> djoin bound (DSet false s) (DSet false s') = DSet false s.
Proof. intros [_ Hs] Hsub. cbn. replace (s ∪ s') with s by set_solver. rewrite decide_False; [done|]. intros [H1 H2]. specialize (Hs H1). lia. Qed.

Lemma merge_set l l' : (list_to_set (merge_members l l') : gset Z) = list_to_set l ∪ list_to_set l'.
Proof. apply leibniz_equiv. intros x. by rewrite elem_of_union, !elem_of_list_to_set, elem_of_merge. Qed.

Lemma ds_union_uncached_spec g a b s s' : statics_ok g -> ds_denotes g a (DSet false s) -> ds_denotes g b (DSet false s') ->
  gruns g (ds_union_uncached g a b) (fun g' r => ds_denotes g' r (djoin (g_widen_bound g) (DSet false s) (DSet false s'))).
Proof.
  intros Hok Ha Hb. unfold ds_union_uncached. pose proof (ds_denotes_within _ _ _ Hok Ha) as Wa. pose proof (ds_denotes_within _ _ _ Hok Hb) as Wb.
  rewrite (ds_is_subset_spec g b a _ _ false Hok Hb Ha) by done. cbn [mbind outcome_bind dle]. case_bool_decide as Hba; [apply gruns_ret; [done|]; by rewrite djoin_subset|].
  rewrite (ds_is_subset_spec g a b _ _ false Hok Ha Hb) by done. cbn [mbind outcome_bind dle]. case_bool_decide as Hab; [apply gruns_ret; [done|]; by rewrite (djoin_comm _ _ _ false), djoin_subset|].
  destruct (ds_members_spec _ _ _ Hok Ha) as (l & -> & Hl & El). destruct (ds_members_spec _ _ _ Hok Hb) as (l' & -> & Hl' & El'). cbn [mbind outcome_bind dset] in *.
  pose proof (merge_sorted l l' Hl Hl') as Hm. assert (size (s ∪ s') = length (merge_members l l')) as Esz.
  { rewrite <- El, <- El', <- merge_set, size_list_to_set; [done|]. by apply StronglySorted_lt_NoDup. }
  cbn [djoin]. rewrite Esz. destruct (decide _) as [Hwide|Hnarrow]; [apply gruns_ret; [done|constructor]|].
  eapply gruns_mono; [apply ds_intern_spec; [done..|]; lia|]. intros g' r Hok' _ Hr. cbn beta in Hr. rewrite decide_False in Hr; [by rewrite merge_set, El, El' in Hr|].
  intros E. destruct Wa as [Wa _]. rewrite E in Esz. apply size_empty_inv in Esz. set_solver.
Qed.

Lemma count_union_ok g : statics_ok g -> statics_ok (count_union g) /\ ggrows g (count_union g).
Proof. intros Hok. by apply count_ok. Qed.
Lemma count_grew_ok g : statics_ok g -> statics_ok (count_grew g) /\ ggrows g (count_grew g).
Proof. intros Hok. by apply count_ok. Qed.
Lemma count_miss_ok g : statics_ok g -> statics_ok (count_miss g) /\ ggrows g (count_miss g).
Proof. intros Hok. by apply count_ok. Qed.

Lemma gruns_grew {X} g (x : X) (Q : Statics St -> X -> Prop) : statics_ok g -> Q (count_grew g) x -> gruns g (Ret (count_grew g, x)) Q.
Proof. intros Hok HQ. destruct (count_grew_ok g Hok) as [Hok' Hg]. left. by eexists _, _. Qed.

(** A result put in the cache. *)
Lemma put_ok g key r : statics_ok g -> cached g key r -> statics_ok (set_cache g (union_cache_put (g_cache g) key r)) /\ ggrows g (set_cache g (union_cache_put (g_cache g) key r)).
Proof.
  intros Hok Hc. assert (ggrows g (set_cache g (union_cache_put (g_cache g) key r))) as Hg by (by split). split; [|done].
  destruct Hok as [H1 H2 H3 H4 H5 Hcache H6 H7 H8]. split; try done.
  - intros i. cbn [set_cache g_cache]. destruct (Hcache (union_slot key)) as (He & Hr & _). destruct (cache_put_spec (g_cache g) key r Hr He) as [Hput Hother].
    unfold slot_at. destruct (decide (i = union_slot key)) as [->|Hne].
    + rewrite Hput. simpl default. cbn [us_seq us_key us_result]. split; [|split; [apply u32_range|right; by eapply cached_grows]].
      unfold u32. rewrite Z.mod_eq, Z.even_sub, Z.even_add, Z.even_mul, He by done. done.
    + rewrite Hother by done. destruct (Hcache i) as (He' & Hr' & Hk'). split; [done|]. split; [done|]. destruct Hk'; [by left|right; by eapply cached_grows].
  - intros id x y Hx Hid. destruct (H8 id x y Hx Hid). split; by eapply ds_denotes_grows.
Qed.

Lemma djoin_idem bound v : dwithin bound v -> djoin bound v v = v.
Proof. destruct v as [|[] s|k]; intros Hw; cbn; [done|by rewrite decide_True|by apply (djoin_subset bound s s)|done]. Qed.

(** A hit is the union of the pair. *)
Lemma cache_hit g a b s s' r : statics_ok g -> ds_denotes g a (DSet false s) -> ds_denotes g b (DSet false s') -> union_cache_get (g_cache g) (union_key a b) = Some r ->
  ds_denotes g r (djoin (g_widen_bound g) (DSet false s) (DSet false s')).
Proof.
  intros Hok Ha Hb. destruct (gk_cache _ Hok (union_slot (union_key a b))) as (He & _ & Hc). rewrite cache_get_spec by done. destruct (decide _) as [Ek|]; [|done]. intros [= <-]. rewrite Ek in Hc.
  destruct (ds_denotes_raw _ _ _ Hok Ha) as [Hra _]. destruct (ds_denotes_raw _ _ _ Hok Hb) as [Hrb _]. destruct Hc as [E0|(a' & b' & va & vb & E & Ha' & Hb' & Hda & Hdb & Hka & Hkb & Hr)].
  { rewrite union_key_eq in E0 by lia. lia. }
  apply union_key_inj in E as [[-> ->]|[-> ->]]; try lia.
  - rewrite (ds_denotes_fun _ _ _ _ Hok Ha Hda), (ds_denotes_fun _ _ _ _ Hok Hb Hdb). done.
  - rewrite (ds_denotes_fun _ _ _ _ Hok Ha Hdb), (ds_denotes_fun _ _ _ _ Hok Hb Hda). by rewrite (djoin_comm _ _ _ false).
Qed.

(** The last part of [union], between two explicit exact sets. *)
Lemma union_cached_spec g a b s s' : statics_ok g -> ds_denotes g a (DSet false s) -> ds_denotes g b (DSet false s') ->
  gruns g ('(g, result) ← match union_cache_get (g_cache g) (union_key a b) with
        | Some raw => Ret (g, raw)
        | None =>
            '(g, result) ← ds_union_uncached (count_miss g) a b;
            Ret (set_cache g (union_cache_put (g_cache g) (union_key a b) result), result)
        end;
      Ret (if decide (result <> a) then count_grew g else g, result))
    (fun g' r => ds_denotes g' r (djoin (g_widen_bound g) (DSet false s) (DSet false s'))).
Proof.
  intros Hok Ha Hb. apply (gruns_bind g _ _ (fun g' r => ds_denotes g' r (djoin (g_widen_bound g) (DSet false s) (DSet false s')))).
  - destruct (union_cache_get _ _) as [r|] eqn:E; [apply gruns_ret; [done|by eapply cache_hit]|]. destruct (count_miss_ok g Hok) as [Hok1 Hg1]. apply (gruns_count g (count_miss g)); [done|].
    eapply gruns_bind; [apply ds_union_uncached_spec; [done|by eapply ds_denotes_grows..]|]. intros g2 r Hok2 Hg2 Hr. cbn beta iota.
    pose proof (ggrows_trans _ _ _ Hg1 Hg2) as Hg. pose proof (ds_denotes_grows _ _ _ _ Hg Ha) as Ha2. pose proof (ds_denotes_grows _ _ _ _ Hg Hb) as Hb2.
    destruct (ds_denotes_raw _ _ _ Hok2 Ha2) as [Hra _]. destruct (ds_denotes_raw _ _ _ Hok2 Hb2) as [Hrb _].
    destruct (put_ok g2 (union_key a b) r Hok2) as [Hok3 Hg3].
    { exists a, b, (DSet false s), (DSet false s'). rewrite (gg_bound _ _ Hg). split_and!; done || lia. }
    left. eexists _, _. split; [done|]. split; [done|]. split; [done|]. by eapply ds_denotes_grows.
  - intros g2 r Hok2 Hg Hr. cbn beta iota. destruct (decide (r <> a)); [|by apply gruns_ret]. apply gruns_grew; [done|]. eapply ds_denotes_grows; [by apply count_grew_ok|done].
Qed.

Lemma ds_union_spec g a b va vb k : statics_ok g -> ds_denotes g a va -> ds_denotes g b vb -> of_kind k va -> of_kind k vb ->
  gruns g (ds_union g a b) (fun g' r => ds_denotes g' r (djoin (g_widen_bound g) va vb)).
Proof.
  intros Hok Ha Hb Hka Hkb. unfold ds_union. destruct (ds_denotes_raw _ _ _ Hok Ha) as (_ & -> & -> & ->). destruct (ds_denotes_raw _ _ _ Hok Hb) as (_ & -> & -> & ->).
  destruct (decide (a = b)) as [->|Hne].
  { rewrite bool_decide_eq_true_2 by done. apply gruns_ret; [done|]. rewrite (ds_denotes_fun _ _ _ _ Hok Hb Ha). rewrite djoin_idem; [done|]. by eapply ds_denotes_within. }
  rewrite (bool_decide_eq_false_2 (a = b)) by done. cbn [orb]. destruct (count_union_ok g Hok) as [Hok1 Hg1].
  destruct vb as [|kb s'|kb]; [apply gruns_ret; [done|]; by destruct va as [|[]|]|..]; (destruct va as [|ka s|ka]; [apply gruns_ret; done|..]); cbn [of_kind] in *; subst kb; subst ka; destruct k; cbn [orb andb rust_assert mbind outcome_bind].
  all: apply (gruns_count g (count_union g)); [done|].
  - apply gruns_grew; [done|]. cbn [djoin]. rewrite decide_False; [constructor|]. intros ->. apply Hne. by apply (ds_denotes_inj g _ _ (DSet true s')).
  - apply (union_cached_spec (count_union g)); [done|by eapply ds_denotes_grows..].
  - apply gruns_ret; [done|]. by eapply ds_denotes_grows.
  - apply gruns_ret; [done|]. by eapply ds_denotes_grows.
  - apply gruns_grew; [done|]. constructor.
  - apply gruns_grew; [done|]. eapply ds_denotes_grows; [|exact Hb]. eapply ggrows_trans; [done|by apply count_grew_ok].
  - apply gruns_ret; [done|]. by eapply ds_denotes_grows.
  - apply gruns_ret; [done|]. by eapply ds_denotes_grows.
Qed.

(** ** Intersections *)

Lemma filter_contained_spec g b v l : statics_ok g -> ds_denotes g b v -> (forall k, v <> DTop k) -> filter_contained g b l = Ret (filter (.∈ dset v) l).
Proof.
  intros Hok Hb Hv. induction l as [|x l IHl]; [done|]. cbn [filter_contained]. rewrite (ds_contains_spec g b v x Hok Hb), IHl. cbn [mbind outcome_bind]. rewrite filter_cons. f_equal.
  destruct v as [|k s|k]; [| |by destruct (Hv k)]; cbn [dset]; case_bool_decide; [by rewrite decide_True|by rewrite decide_False|by rewrite decide_True|by rewrite decide_False].
Qed.

Lemma dmeet_idem v bound : dwithin bound v -> dmeet v v = v.
Proof. destruct v as [|[] s|k]; intros Hw; cbn in *; [done|destruct Hw as [d ->]|destruct Hw as [Hw _]|done]; rewrite decide_False by set_solver; f_equal; set_solver. Qed.

Lemma ds_intersection_spec g a b va vb k : statics_ok g -> ds_denotes g a va -> ds_denotes g b vb -> of_kind k va -> of_kind k vb ->
  gruns g (ds_intersection g a b) (fun g' r => ds_denotes g' r (dmeet va vb)).
Proof.
  intros Hok Ha Hb Hka Hkb. unfold ds_intersection. pose proof (ds_denotes_within _ _ _ Hok Ha) as Wa. destruct (ds_denotes_raw _ _ _ Hok Ha) as (_ & _ & -> & ->). destruct (ds_denotes_raw _ _ _ Hok Hb) as (_ & _ & -> & _).
  destruct (decide (a = b)) as [->|Hne].
  { rewrite bool_decide_eq_true_2 by done. apply gruns_ret; [done|]. rewrite (ds_denotes_fun _ _ _ _ Hok Hb Ha). by erewrite dmeet_idem. }
  rewrite (bool_decide_eq_false_2 (a = b)) by done. cbn [orb].
  assert ((forall k, va <> DTop k) -> (forall k, vb <> DTop k) -> gruns g (l ← ds_members g a; out ← filter_contained g b l; ds_intern g out (match va with DSet k _ | DTop k => k | DBot => false end))
    (fun g' r => ds_denotes g' r (dmeet va vb))) as Hmain.
  { intros Hva Hvb. destruct (ds_members_spec _ _ _ Hok Ha) as (l & El & Hl & Es). rewrite El. cbn [mbind outcome_bind]. rewrite (filter_contained_spec g b vb l Hok Hb Hvb). cbn [mbind outcome_bind].
    eapply gruns_mono; [apply ds_intern_spec; [done|by apply StronglySorted_filter|]|].
    - pose proof (length_filter (.∈ dset vb) l) as Hlen.
      assert (length l = size (dset va)) as Esz by (rewrite <- Es, size_list_to_set; [done|by apply StronglySorted_lt_NoDup]). destruct va as [|[] s|ka]; cbn [dset dwithin] in *.
      + rewrite size_empty in Esz. pose proof (gk_bound _ Hok). lia.
      + destruct Wa as [d ->]. rewrite size_singleton in Esz. lia.
      + destruct Wa as [_ Wa]. intros Hb0. specialize (Wa Hb0). lia.
      + by destruct (Hva ka).
    - intros g' r _ _ Hr. cbn beta in Hr. assert (forall x, x ∈ filter (.∈ dset vb) l <-> x ∈ dset va ∩ dset vb) as Hin by (intros x; rewrite list_elem_of_filter, <- Es, elem_of_intersection, elem_of_list_to_set; naive_solver).
      assert ((list_to_set (filter (.∈ dset vb) l) : gset Z) = dset va ∩ dset vb) as Eset by (apply leibniz_equiv; intros x; by rewrite elem_of_list_to_set).
      assert (filter (.∈ dset vb) l = [] <-> dset va ∩ dset vb = ∅) as Enil by (rewrite <- Eset; split; [by intros ->|]; intros H; apply elem_of_nil_inv; intros x Hx; apply (elem_of_list_to_set (C := gset Z)) in Hx; rewrite H in Hx; set_solver).
      destruct va as [|ka s|ka], vb as [|kb s'|kb]; cbn [dset dmeet] in *; try (by destruct (Hva ka)); try (by destruct (Hvb kb)).
      1,2,3: rewrite decide_True in Hr by (apply Enil; set_solver); done.
      rewrite Eset in Hr. destruct (decide (s ∩ s' = ∅)) as [E|E]; [by rewrite decide_True in Hr by (by apply Enil)|by rewrite decide_False in Hr by (by rewrite Enil)]. }
  destruct va as [|ka s|ka]; [destruct vb as [|kb s'|kb]; [by apply Hmain..|by apply gruns_ret]|destruct vb as [|kb s'|kb]; [by apply Hmain..|by apply gruns_ret]|apply gruns_ret; [done|by destruct vb]].
Qed.

(** ** The lattice *)

Definition is_lub (bound : Z) (k : bool) (a b j : dval) : Prop := of_kind k j /\ dwithin bound j /\ dle a j /\ dle b j /\
  forall w, of_kind k w -> dwithin bound w -> dle a w -> dle b w -> dle j w.

Definition is_glb (bound : Z) (k : bool) (a b m : dval) : Prop := of_kind k m /\ dwithin bound m /\ dle m a /\ dle m b /\
  forall w, of_kind k w -> dwithin bound w -> dle w a -> dle w b -> dle w m.

Lemma djoin_lub bound k a b : of_kind k a -> of_kind k b -> dwithin bound a -> dwithin bound b -> is_lub bound k a b (djoin bound a b).
Proof. clear Heqb Hfirst Hbound.
  intros Ha Hb Wa Wb. destruct a as [|ka s|ka].
  - cbn [djoin]. split_and!; [done|done|done|apply dle_refl|done].
  - cbn in Ha. subst ka. destruct b as [|kb s'|kb]; [replace (djoin bound (DSet k s) DBot) with (DSet k s) by (by destruct k); split_and!; [done|done|apply dle_refl|done|done]| |].
    2:{ cbn in Hb. subst kb. replace (djoin bound (DSet k s) (DTop k)) with (DTop k) by (by destruct k). split_and!; try done. }
    cbn in Hb. subst kb. destruct k; cbn [djoin].
    + destruct (decide (s = s')) as [<-|Hne]; [split_and!; [done|done|apply dle_refl..|done]|]. split_and!; try done. intros [|kw sw|kw] Kw Ww H1 H2; cbn in *; try done. subst kw. exfalso. apply Hne.
      destruct Wa as [d ->], Wb as [d' ->], Ww as [e ->]. f_equal. set_solver.
    + destruct (decide _) as [Hwide|Hn].
      * split_and!; try done. intros [|kw sw|kw] Kw Ww H1 H2; cbn in *; try done. subst kw. exfalso. destruct Hwide as [Hb0 Hlt]. destruct Ww as [_ Ww]. specialize (Ww Hb0).
        pose proof (subseteq_size (s ∪ s') sw ltac:(set_solver)). lia.
      * split_and!; [done| |cbn; set_solver|cbn; set_solver|]; [cbn in *; split; [set_solver|lia]|]. intros [|kw sw|kw] Kw Ww H1 H2; cbn in *; try done. set_solver.
  - cbn in Ha. subst ka. replace (djoin bound (DTop k) b) with (DTop k) by (by destruct b as [|[]|]). split_and!; [done|done|done|by destruct b|by intros []].
Qed.

Lemma dmeet_glb bound k a b : of_kind k a -> of_kind k b -> dwithin bound a -> dwithin bound b -> is_glb bound k a b (dmeet a b).
Proof.
  intros Ha Hb Wa Wb. destruct a as [|ka s|ka].
  - replace (dmeet DBot b) with DBot by (by destruct b). by split_and!.
  - cbn in Ha. subst ka. destruct b as [|kb s'|kb]; cbn [dmeet]; [by split_and!| |split_and!; [done|done|apply dle_refl|done|done]].
    cbn in Hb. subst kb. destruct (decide (s ∩ s' = ∅)) as [E|E].
    + split_and!; try done. intros [|kw sw|kw] Kw Ww H1 H2; cbn in *; try done. subst kw. exfalso. assert (sw ≠ ∅) by (destruct k; [destruct Ww as [d ->]; set_solver|apply Ww]). set_solver.
    + split_and!; [done| |cbn; set_solver|cbn; set_solver|]; [|intros [|kw sw|kw] Kw Ww H1 H2; cbn in *; try done; set_solver]. cbn in *. destruct k.
      * destruct Wa as [d ->]. exists d. apply set_choose_L in E as [x Hx]. set_solver.
      * split; [done|]. intros Hb0. destruct Wa as [_ Wa]. specialize (Wa Hb0). pose proof (subseteq_size (s ∩ s') s ltac:(set_solver)). lia.
  - cbn [dmeet]. split_and!; [by destruct b|by destruct b|by destruct b|apply dle_refl|done].
Qed.

(** The order as [partial_cmp] reports it. *)
Definition dcmp (a b : dval) : option comparison := if decide (a = b) then Some Eq else if decide (dle a b) then Some Lt else if decide (dle b a) then Some Gt else None.

Lemma ds_partial_cmp_spec g a b va vb k : statics_ok g -> ds_denotes g a va -> ds_denotes g b vb -> of_kind k va -> of_kind k vb -> ds_partial_cmp g a b = Ret (dcmp va vb).
Proof.
  intros Hok Ha Hb Hka Hkb. unfold ds_partial_cmp, dcmp. destruct (decide (a = b)) as [->|Hne]; [rewrite decide_True by (by apply (ds_denotes_fun g b)); done|].
  rewrite (decide_False (P := va = vb)) by (intros ->; apply Hne; by apply (ds_denotes_inj g a b vb)). rewrite (ds_is_subset_spec g a b va vb k), (ds_is_subset_spec g b a vb va k) by done. cbn [mbind outcome_bind].
  case_bool_decide; [by rewrite decide_True|]. rewrite (decide_False (P := dle va vb)) by done. case_bool_decide; [by rewrite decide_True|by rewrite decide_False].
Qed.

Lemma ds_join_spec g a b va vb k : statics_ok g -> ds_denotes g a va -> ds_denotes g b vb -> of_kind k va -> of_kind k vb ->
  gruns g (ds_join_mut g a b) (fun g' r => ds_denotes g' r.1 (djoin (g_widen_bound g) va vb) /\ r.2 = bool_decide (djoin (g_widen_bound g) va vb <> va)).
Proof.
  intros Hok Ha Hb Hka Hkb. unfold ds_join_mut. eapply gruns_bind; [by eapply ds_union_spec|]. intros g' r Hok' Hg Hr. cbn beta iota. pose proof (ds_denotes_grows _ _ _ _ Hg Ha) as Ha'.
  apply gruns_ret; [done|]. destruct (decide (r = a)) as [->|Hne]; cbn [fst snd]; (split; [done|]); symmetry.
  - apply bool_decide_eq_false_2. intros H. apply H. by apply (ds_denotes_fun g' a).
  - apply bool_decide_eq_true_2. intros E. apply Hne. apply (ds_denotes_inj g' r a va); [done| |done]. by rewrite <- E.
Qed.

Lemma ds_meet_spec g a b va vb k : statics_ok g -> ds_denotes g a va -> ds_denotes g b vb -> of_kind k va -> of_kind k vb ->
  gruns g (ds_meet_mut g a b) (fun g' r => ds_denotes g' r.1 (dmeet va vb) /\ r.2 = bool_decide (dmeet va vb <> va)).
Proof.
  intros Hok Ha Hb Hka Hkb. unfold ds_meet_mut. eapply gruns_bind; [by eapply ds_intersection_spec|]. intros g' r Hok' Hg Hr. cbn beta iota. pose proof (ds_denotes_grows _ _ _ _ Hg Ha) as Ha'.
  apply gruns_ret; [done|]. destruct (decide (r = a)) as [->|Hne]; cbn [fst snd]; (split; [done|]); symmetry.
  - apply bool_decide_eq_false_2. intros H. apply H. by apply (ds_denotes_fun g' a).
  - apply bool_decide_eq_true_2. intros E. apply Hne. apply (ds_denotes_inj g' r a va); [done| |done]. by rewrite <- E.
Qed.


(** ** Rows settle *)

(** A row joined with one set after another; how often it changed. *)
Fixpoint join_row g (row : Z) (sets : list Z) : outcome (Statics St * (Z * nat)) :=
  match sets with
  | [] => Ret (g, (row, 0%nat))
  | ds :: sets =>
      '(g, (row, changed)) ← ds_join_mut g row ds;
      '(g, (row, n)) ← join_row g row sets;
      Ret (g, (row, if (changed : bool) then S n else n))
  end.

Definition dheight (bound : Z) (k : bool) : Z := if k then 2 else bound + 1.
Definition drank (bound : Z) (v : dval) : Z := match v with DBot => 0 | DSet _ s => Z.of_nat (size s) | DTop k => dheight bound k end.

Lemma drank_bound bound k v : 0 <= bound -> (k = false -> bound <> 0) -> of_kind k v -> dwithin bound v -> 0 <= drank bound v <= dheight bound k.
Proof.
  intros Hb Hk Hv Hw. destruct v as [|[] s|[]]; cbn [of_kind dwithin drank] in *; subst; unfold dheight; try (destruct k; lia); try lia.
  - destruct Hw as [d ->]. rewrite size_singleton. lia.
Qed.

Lemma drank_grows bound k a b : 0 <= bound -> (k = false -> bound <> 0) -> of_kind k a -> of_kind k b -> dwithin bound a -> dwithin bound b ->
  djoin bound a b <> a -> drank bound a < drank bound (djoin bound a b).
Proof.
  intros Hb Hk Ha Hb' Wa Wb Hne. destruct (djoin_lub bound k a b Ha Hb' Wa Wb) as (Kj & Wj & Hle & _). revert Kj Wj Hle Hne. generalize (djoin bound a b) as j. intros j Kj Wj Hle Hne.
  destruct a as [|ka s|ka], j as [|kj t|kj]; cbn [of_kind dwithin drank dle] in *; subst; try done.
  - destruct k; [destruct Wj as [d ->]; rewrite size_singleton; lia|]. destruct Wj as [Wj _]. assert (size t <> 0%nat) by (intros E%size_empty_inv; set_solver). lia.
  - unfold dheight. destruct k; lia.
  - assert (s ⊂ t) as Hs by (split; [done|]; intros Hts; apply Hne; f_equal; set_solver). apply subset_size in Hs. lia.
  - unfold dheight. destruct k; [destruct Wa as [d ->]; rewrite size_singleton; lia|]. destruct Wa as [_ Wa]. specialize (Wa (Hk eq_refl)). lia.
Qed.

Lemma dle_trans a b c : dle a b -> dle b c -> dle a c.
Proof. clear Heqb Hfirst Hbound. destruct a, b, c; cbn; try done. set_solver. Qed.

Lemma join_row_spec k sets : forall g row v vs, statics_ok g -> ds_denotes g row v -> of_kind k v -> Forall2 (ds_denotes g) sets vs -> Forall (of_kind k) vs ->
  (k = false -> g_widen_bound g <> 0) ->
  gruns g (join_row g row sets) (fun g' r => exists v', ds_denotes g' r.1 v' /\ of_kind k v' /\ dle v v' /\ Forall (fun w => dle w v') vs /\
    Z.of_nat r.2 + drank (g_widen_bound g) v <= drank (g_widen_bound g) v').
Proof.
  induction sets as [|ds sets IHs]; intros g row v vs Hok Hrow Hk Hsets Hkinds Hb; cbn [join_row].
  { inversion Hsets; subst. apply gruns_ret; [done|]. exists v. split_and!; [done|done|apply dle_refl|constructor|cbn; lia]. }
  inversion Hsets as [|? w ? ws Hw Hws]; subst. apply Forall_cons in Hkinds as [Hkw Hkinds]. pose proof (ds_denotes_within _ _ _ Hok Hrow) as Wv. pose proof (ds_denotes_within _ _ _ Hok Hw) as Ww.
  eapply gruns_bind; [by eapply ds_join_spec|]. intros g1 [r c] Hok1 Hg1 [Hr Hc]. cbn [fst snd] in *. destruct (djoin_lub (g_widen_bound g) k v w Hk Hkw Wv Ww) as (Kj & _ & Hle1 & Hle2 & _).
  eapply gruns_bind.
  - apply (IHs g1 r _ ws Hok1 Hr Kj); [eapply Forall2_impl; [exact Hws|]; intros; by eapply ds_denotes_grows|done|by rewrite (gg_bound _ _ Hg1)].
  - intros g2 [r2 n] Hok2 Hg2 (v' & Hv' & Kv' & Hle' & Hall & Hn). cbn [fst snd] in *. apply gruns_ret; [done|]. exists v'. rewrite (gg_bound _ _ Hg1) in Hn.
    split_and!; [done|done|exact (dle_trans _ _ _ Hle1 Hle')|constructor; [exact (dle_trans _ _ _ Hle2 Hle')|done]|]. cbn [fst snd]. subst c. case_bool_decide as Hne.
    + pose proof (drank_grows (g_widen_bound g) k v w (gk_bound _ Hok) Hb Hk Hkw Wv Ww Hne). lia.
    + rewrite Hne in Hn. lia.
Qed.

(** A row settles.  However many sets of its kind a row is joined with, it changes at most twice if the sets are collapsing, and at most one time more than the widening bound
    if they are exact and bounded. *)
Theorem decision_row_settles g (row : Z) (sets : list Z) (v : dval) (vs : list dval) (k : bool) : statics_ok g -> ds_denotes g row v -> of_kind k v ->
  Forall2 (ds_denotes g) sets vs -> Forall (of_kind k) vs -> (k = false -> g_widen_bound g <> 0) ->
  gruns g (join_row g row sets) (fun g' r => exists v', ds_denotes g' r.1 v' /\ dle v v' /\ Forall (fun w => dle w v') vs /\ Z.of_nat r.2 <= if k then 2 else g_widen_bound g + 1).
Proof.
  intros Hok Hrow Hk Hsets Hkinds Hb. eapply gruns_mono; [by eapply join_row_spec|]. intros g' r Hok' Hg (v' & Hv' & Kv' & Hle & Hall & Hn). exists v'. split_and!; [done..|].
  pose proof (ds_denotes_within _ _ _ Hok' Hv') as Wv'. rewrite (gg_bound _ _ Hg) in Wv'. pose proof (ds_denotes_within _ _ _ Hok Hrow) as Wv.
  pose proof (drank_bound (g_widen_bound g) k v' (gk_bound _ Hok) Hb Kv' Wv'). pose proof (drank_bound (g_widen_bound g) k v (gk_bound _ Hok) Hb Hk Wv). unfold dheight in *. lia.
Qed.

(** ** Conditions *)

(** [None] is [Always], above every set. *)
Definition cle (x y : option dval) : Prop := match x, y with _, None => True | None, Some _ => False | Some a, Some b => dle a b end.

Inductive cond_denotes g : Cond -> option dval -> Prop :=
| cden_always : cond_denotes g Always None
| cden_under ds v : ds_denotes g ds v -> cond_denotes g (Under ds) (Some v).

(** The conditions there are: where the top spills, it is [Always]. *)
Definition cwithin g (k : bool) (x : option dval) : Prop :=
  match x with Some v => of_kind k v /\ dwithin (g_widen_bound g) v /\ (g_spill g = true -> v <> DTop k) | None => True end.

Lemma cond_denotes_inj g c c' x : statics_ok g -> cond_denotes g c x -> cond_denotes g c' x -> c = c'.
Proof. intros Hok H. destruct H as [|ds v H]; inversion 1 as [|ds' v' H']; subst; [done|]. f_equal. by apply (ds_denotes_inj g ds ds' v). Qed.

Lemma cond_denotes_fun g c x x' : statics_ok g -> cond_denotes g c x -> cond_denotes g c x' -> x = x'.
Proof. intros Hok H. destruct H as [|ds v H]; inversion 1 as [|ds' v' H']; subst; [done|]. f_equal. by apply (ds_denotes_fun g ds). Qed.

Lemma cond_denotes_grows g g' c x : ggrows g g' -> cond_denotes g c x -> cond_denotes g' c x.
Proof. intros Hg. destruct 1; constructor. by eapply ds_denotes_grows. Qed.

Lemma cwithin_denotes g c v k : statics_ok g -> cond_denotes g c (Some v) -> of_kind k v -> (g_spill g = true -> v <> DTop k) -> cwithin g k (Some v).
Proof. intros Hok H Hk Hs. inversion H; subst. split_and!; [done|by eapply ds_denotes_within|done]. Qed.

(** What [Cond::under] makes of a set. *)
Definition cunder g (v : dval) : option dval := match v with DTop _ => if g_spill g then None else Some v | _ => Some v end.

Lemma cond_under_spec g ds v : statics_ok g -> ds_denotes g ds v -> cond_denotes g (cond_under g ds) (cunder g v).
Proof.
  intros Hok H. unfold cond_under, spills. destruct (ds_denotes_raw _ _ _ Hok H) as (_ & _ & -> & _). destruct v; cbn [andb cunder]; try (by constructor). destruct (g_spill g); by constructor.
Qed.

Definition c_lub g (k : bool) (x y j : option dval) : Prop := cwithin g k j /\ cle x j /\ cle y j /\ forall w, cwithin g k w -> cle x w -> cle y w -> cle j w.
Definition c_glb g (k : bool) (x y m : option dval) : Prop := cwithin g k m /\ cle m x /\ cle m y /\ forall w, cwithin g k w -> cle w x -> cle w y -> cle w m.

Definition cjoin g (x y : option dval) : option dval := match x, y with Some a, Some b => cunder g (djoin (g_widen_bound g) a b) | _, _ => None end.
Definition cmeet (x y : option dval) : option dval := match x, y with Some a, Some b => Some (dmeet a b) | None, x | x, None => x end.

Lemma cjoin_lub g k x y : cwithin g k x -> cwithin g k y -> c_lub g k x y (cjoin g x y).
Proof. clear Heqb Hfirst Hbound.
  intros Wx Wy. destruct x as [a|], y as [b|]; cbn [cjoin]; try (by split_and!; [..|intros []]). destruct Wx as (Ka & Wa & _), Wy as (Kb & Wb & _).
  destruct (djoin_lub (g_widen_bound g) k a b Ka Kb Wa Wb) as (Kj & Wj & H1 & H2 & H3). set (j := djoin (g_widen_bound g) a b) in *.
  assert (cunder g j = Some j /\ (g_spill g = true -> j <> DTop k) \/ cunder g j = None /\ g_spill g = true /\ exists kj, j = DTop kj) as [[-> Hs]|(-> & Hs & kj & Ej)].
  { unfold cunder. destruct j as [|kj s|kj]; [left; done|left; done|]. destruct (g_spill g); [right; eauto|left; done]. }
  - split_and!; [done..|]. intros [w|]; [|done]. intros (Kw & Ww & _). by apply H3.
  - split_and!; [done..|]. intros [w|]; [|done]. intros (Kw & Ww & Hw) Hxw Hyw. specialize (H3 w Kw Ww Hxw Hyw). rewrite Ej in H3, Kj. cbn in Kj. subst kj. destruct w as [|kw sw|kw]; try done.
    cbn in Kw. subst kw. by destruct (Hw Hs).
Qed.

Lemma cmeet_glb g k x y : cwithin g k x -> cwithin g k y -> c_glb g k x y (cmeet x y).
Proof.
  assert (forall x, cle x x) as Hrefl by (intros [v|]; [apply dle_refl|done]).
  intros Wx Wy. destruct x as [a|], y as [b|]; cbn [cmeet]; try (by split_and!). destruct Wx as (Ka & Wa & Sa), Wy as (Kb & Wb & _).
  destruct (dmeet_glb (g_widen_bound g) k a b Ka Kb Wa Wb) as (Kj & Wj & H1 & H2 & H3). split; [split; [done|split; [done|]]|split; [done|split; [done|]]].
  - intros Hs E. rewrite E in H1. destruct a as [|ka sa|ka]; try done. cbn in Ka. subst ka. by destruct (Sa Hs).
  - intros [w|]; [|done]. intros (Kw & Ww & _). by apply H3.
Qed.

Lemma changed_spec g c c' x x' : statics_ok g -> cond_denotes g c x -> cond_denotes g c' x' -> bool_decide (c' <> c) = bool_decide (x' <> x).
Proof.
  intros Hok Hc Hc'. apply bool_decide_ext. split; intros Hne E; apply Hne; [subst x'; by apply (cond_denotes_inj g c' c x)|subst c'; by apply (cond_denotes_fun g c)].
Qed.

Lemma cond_join_spec g c c' x y k : statics_ok g -> cond_denotes g c x -> cond_denotes g c' y -> cwithin g k x -> cwithin g k y ->
  gruns g (cond_join_mut g c c') (fun g' r => cond_denotes g' r.1 (cjoin g x y) /\ r.2 = bool_decide (cjoin g x y <> x)).
Proof.
  intros Hok Hc Hc' Wx Wy. unfold cond_join_mut. apply (gruns_bind g _ _ (fun g' r => cond_denotes g' r (cjoin g x y))).
  - destruct Hc as [|a va Ha], Hc' as [|b vb Hb]; try (apply gruns_ret; [done|constructor]). destruct Wx as [Ka _], Wy as [Kb _].
    eapply gruns_bind; [by eapply ds_union_spec|]. intros g' ds Hok' Hg Hds. cbn beta iota. apply gruns_ret; [done|]. apply (cond_under_spec g') in Hds; [|done]. cbn [cjoin].
    replace (cunder g) with (cunder g'); [done|]. unfold cunder. by rewrite (gg_spill _ _ Hg).
  - intros g' r Hok' Hg Hr. cbn beta iota. apply gruns_ret; [done|]. cbn [fst snd]. split; [done|]. eapply changed_spec; [done|by eapply cond_denotes_grows|done].
Qed.

Lemma cond_meet_spec g c c' x y k : statics_ok g -> cond_denotes g c x -> cond_denotes g c' y -> cwithin g k x -> cwithin g k y ->
  gruns g (cond_meet_mut g c c') (fun g' r => cond_denotes g' r.1 (cmeet x y) /\ r.2 = bool_decide (cmeet x y <> x)).
Proof.
  intros Hok Hc Hc' Wx Wy. unfold cond_meet_mut. apply (gruns_bind g _ _ (fun g' r => cond_denotes g' r (cmeet x y))).
  - destruct Hc as [|a va Ha], Hc' as [|b vb Hb]; try (apply gruns_ret; [done|by constructor]). destruct Wx as [Ka _], Wy as [Kb _].
    eapply gruns_bind; [by eapply ds_intersection_spec|]. intros g' ds Hok' Hg Hds. apply gruns_ret; [done|]. by constructor.
  - intros g' r Hok' Hg Hr. cbn beta iota. apply gruns_ret; [done|]. cbn [fst snd]. split; [done|]. eapply changed_spec; [done|by eapply cond_denotes_grows|done].
Qed.

(** [and] is the meet, with [None] for the empty set. *)
Lemma cond_and_spec g c c' x y k : statics_ok g -> cond_denotes g c x -> cond_denotes g c' y -> cwithin g k x -> cwithin g k y ->
  gruns g (cond_and g c c') (fun g' r => match r with
    | Some c'' => cond_denotes g' c'' (cmeet x y)
    | None => exists a b, x = Some a /\ y = Some b /\ dmeet a b = DBot
    end).
Proof.
  intros Hok Hc Hc' Wx Wy. unfold cond_and. destruct Hc as [|a va Ha], Hc' as [|b vb Hb]; try (apply gruns_ret; [done|by constructor]). destruct (cmeet_glb g k _ _ Wx Wy) as [(_ & _ & Hspill) _].
  destruct Wx as (Ka & Wa & Sa), Wy as (Kb & Wb & _). eapply gruns_bind; [by eapply ds_intersection_spec|]. intros g' ds Hok' Hg Hds. cbn beta iota. apply gruns_ret; [done|].
  destruct (ds_denotes_raw _ _ _ Hok' Hds) as (_ & -> & _ & _). pose proof (cond_under_spec g' ds _ Hok' Hds) as Hu. destruct (dmeet_glb (g_widen_bound g) k va vb Ka Kb Wa Wb) as [Km _].
  destruct (dmeet va vb) as [|km s|km] eqn:E; cbn [cmeet]; [eauto|by rewrite E|]. cbn in Km. subst km. rewrite E. unfold cunder in Hu. rewrite (gg_spill _ _ Hg) in Hu. destruct (g_spill g); [by destruct (Hspill eq_refl)|done].
Qed.

Definition ccmp (x y : option dval) : option comparison :=
  match x, y with None, None => Some Eq | None, _ => Some Gt | _, None => Some Lt | Some a, Some b => dcmp a b end.

(** Conditions are a lattice with [Always] on top.  Of conditions over sets of one kind, none of them a top that should have spilled, [partial_cmp] reports the order, [join_mut]
    leaves the least upper bound, which is [Always] where the sets widen to a top that spills, and [meet_mut] the greatest lower bound, with the flag for a change; [and]
    answers the greatest lower bound too, or [None] when it is the empty set. *)
Theorem conditions_lattice g (c c' : Cond) (x y : option dval) (k : bool) : statics_ok g -> cond_denotes g c x -> cond_denotes g c' y -> cwithin g k x -> cwithin g k y ->
  cond_partial_cmp g c c' = Ret (ccmp x y) /\
  gruns g (cond_join_mut g c c') (fun g' r => exists j, cond_denotes g' r.1 j /\ c_lub g k x y j /\ r.2 = bool_decide (j <> x)) /\
  gruns g (cond_meet_mut g c c') (fun g' r => exists m, cond_denotes g' r.1 m /\ c_glb g k x y m /\ r.2 = bool_decide (m <> x)) /\
  gruns g (cond_and g c c') (fun g' r => exists m, c_glb g k x y m /\ match r with Some c'' => cond_denotes g' c'' m | None => m = Some DBot end).
Proof.
  intros Hok Hc Hc' Wx Wy. split_and!.
  - destruct Hc as [|a va Ha], Hc' as [|b vb Hb]; try done. by apply (ds_partial_cmp_spec g a b va vb k); [..|apply Wx|apply Wy].
  - eapply gruns_mono; [by eapply cond_join_spec|]. intros g' r _ _ [Hr Hf]. eexists. split; [exact Hr|]. split; [by apply cjoin_lub|done].
  - eapply gruns_mono; [by eapply cond_meet_spec|]. intros g' r _ _ [Hr Hf]. eexists. split; [exact Hr|]. split; [by apply cmeet_glb|done].
  - eapply gruns_mono; [by eapply cond_and_spec|]. intros g' r _ _ Hr. exists (cmeet x y). split; [by apply cmeet_glb|]. destruct r as [c''|]; [done|]. destruct Hr as (a & b & -> & -> & E). cbn [cmeet]. by rewrite E.
Qed.

(** ** Decision ids *)

Lemma ds_intern_keeps g l k g' r : ds_intern g l k = Ret (g', r) -> g_table g' = g_table g /\ g_singletons g' = g_singletons g.
Proof.
  unfold ds_intern. destruct (rust_assert _) as [[]| |]; cbn [mbind outcome_bind]; [|done..]. destruct (decide _); [by intros [= <- _]|].
  destruct k; (destruct (ih_intern _ _) as [[st id]| |]; cbn [mbind outcome_bind]; [|done..]); (destruct (id_new _) as [raw| |]; cbn [mbind outcome_bind]; [|done..]); by intros [= <- _].
Qed.

Lemma gruns_intern g l (k : bool) : statics_ok g -> ssorted l -> (if k then (length l <= 1)%nat else g_widen_bound g <> 0 -> Z.of_nat (length l) <= g_widen_bound g) ->
  gruns g (ds_intern g l k) (fun g' r => ds_denotes g' r (if decide (l = []) then DBot else DSet k (list_to_set l)) /\ g_table g' = g_table g /\ g_singletons g' = g_singletons g).
Proof.
  intros Hok Hl Hk. destruct (ds_intern_spec g l k Hok Hl Hk) as [(g' & r & E & Hok' & Hg & Hr)|Hfull]; [left|by right]. exists g', r. destruct (ds_intern_keeps _ _ _ _ _ E). by split_and!.
Qed.

Lemma decision_get_iff g id d : statics_ok g -> 0 <= id -> decision_get g id = Ret d <-> t_ids (g_table g) !! d = Some id.
Proof.
  intros Hok Hid. rewrite (gk_ids _ Hok). unfold decision_get, iv_index. destruct (t_decisions (g_table g) !! Z.to_nat id); [|split; [done|by intros [_ ?]]]. split; [by intros [= ->]|by intros [_ [= ->]]].
Qed.

Lemma singleton_spec g id k : statics_ok g -> 0 <= id < Z.of_nat (decision_count g) -> exists ds, decision_singleton g id k = Ret ds /\ ds_denotes g ds (DSet k {[ id ]}).
Proof.
  intros Hok Hid. unfold decision_singleton. destruct (lookup_lt_is_Some_2 (g_singletons g) (Z.to_nat id)) as [[x y] E]; [rewrite (gk_singletons _ Hok); unfold decision_count in Hid; lia|].
  rewrite (iv_index_Some _ _ _ E). cbn [mbind outcome_bind]. destruct (gk_single _ Hok id x y E) as [Hx Hy]; [lia|]. eexists. split; [done|]. by destruct k.
Qed.

(** A new decision and its singletons. *)
Definition add_decision g (d : IndexDecision) (exact collapsing : Z) : Statics St :=
  mk_statics (mk_table (<[d := Z.of_nat (decision_count g)]> (t_ids (g_table g))) (t_decisions (g_table g) ++ [d])) (g_singletons g ++ [(exact, collapsing)]) (g_exact g) (g_collapsing g)
    (g_widen_bound g) (g_spill g) (g_unions g) (g_unions_grew g) (g_union_cache_misses g) (g_cache g).

Lemma add_decision_ok g d x y : statics_ok g -> t_ids (g_table g) !! d = None -> ds_denotes g x (DSet false {[ Z.of_nat (decision_count g) ]}) -> ds_denotes g y (DSet true {[ Z.of_nat (decision_count g) ]}) ->
  statics_ok (add_decision g d x y) /\ ggrows g (add_decision g d x y).
Proof.
  intros Hok Hd Hx Hy. set (n := decision_count g) in *. assert (ggrows g (add_decision g d x y)) as Hg by (split; try done; by eexists). split; [|done].
  destruct Hok as [H1 H2 H3 H4 H5 H6 Hids Hlen Hsing]. split; try done; cbn [add_decision g_table g_singletons t_ids t_decisions].
  - intros i. destruct (H6 i) as (E1 & E2 & [E3|E3]); (split; [done|]; split; [done|]); [by left|right; by eapply cached_grows].
  - intros d' id. destruct (decide (d' = d)) as [->|Hne].
    + rewrite lookup_insert_eq. split.
      * intros [= <-]. split; [lia|]. rewrite Nat2Z.id. by apply list_lookup_middle.
      * intros [Hid [E|[Hge E]]%lookup_app_Some]; [rewrite (proj2 (Hids d id) (conj Hid E)) in Hd; done|]. apply list_lookup_singleton_Some in E as [E _]. unfold n, decision_count. f_equal. lia.
    + rewrite lookup_insert_ne by done. rewrite Hids. split; intros [Hid E]; (split; [done|]).
      * by apply lookup_app_l_Some.
      * apply lookup_app_Some in E as [E|[_ E]]; [done|]. by apply list_lookup_singleton_Some in E as [_ ->].
  - rewrite !length_app, Hlen. done.
  - intros id x' y' [E|[Hge E]]%lookup_app_Some Hid.
    + destruct (Hsing id x' y' E Hid). split; by eapply ds_denotes_grows.
    + apply list_lookup_singleton_Some in E as [E1 [= <- <-]]. assert (id = Z.of_nat n) as -> by (unfold n, decision_count; lia). split; by eapply ds_denotes_grows.
Qed.

(** Decision ids are dense and one to one.  [DecisionId::of] returns the id of a decision, the next number if it is new; the ids issued before keep their decisions, [get] reads the
    decision back, asking again returns the same id and changes nothing, and the singletons of the id, exact and collapsing, are its singletons. *)
Theorem decision_ids_correct g (d : IndexDecision) : statics_ok g -> Z.of_nat (decision_count g) < 2 ^ 32 ->
  gruns g (decision_of g d) (fun g' id => 0 <= id <= Z.of_nat (decision_count g) /\ decision_get g' id = Ret d /\ decision_of g' d = Ret (g', id) /\
    (forall id' d', 0 <= id' -> decision_get g id' = Ret d' -> decision_get g' id' = Ret d' /\ (id' = id <-> d' = d)) /\
    forall k, exists ds, decision_singleton g' id k = Ret ds /\ ds_denotes g' ds (DSet k {[ id ]})).
Proof.
  intros Hok Hcount. unfold decision_of. destruct (t_ids (g_table g) !! d) as [id|] eqn:E.
  - apply gruns_ret; [done|]. pose proof (proj1 (gk_ids _ Hok d id) E) as [Hid El]. apply lookup_lt_Some in El as Hlt. rewrite E. split_and!; [done|unfold decision_count; lia|by apply decision_get_iff|done| |].
    + intros id' d' Hid' Hg'. split; [done|]. apply decision_get_iff in Hg'; [|done..]. pose proof (proj1 (gk_ids _ Hok d' id') Hg') as [_ El']. split; [intros ->; congruence|intros ->; congruence].
    + intros k. apply singleton_spec; [done|]. unfold decision_count. lia.
  - change (length (t_decisions (g_table g))) with (decision_count g). set (id := Z.of_nat (decision_count g)) in *. rewrite decide_False by lia. pose proof (gk_bound _ Hok) as Hb0.
    eapply gruns_bind; [apply gruns_intern; [done|repeat constructor|cbn [length]; lia]|]. intros g1 x Hok1 Hg1 (Hx & Et1 & Es1). cbn beta iota.
    eapply gruns_bind; [apply gruns_intern; [done|repeat constructor|done]|]. intros g2 y Hok2 Hg2 (Hy & Et2 & Es2). cbn beta iota.
    rewrite Es2, Es1, (gk_singletons _ Hok). change (length (t_decisions (g_table g))) with (decision_count g). fold id. rewrite bool_decide_eq_true_2 by done. cbn [rust_assert mbind outcome_bind].
    assert (decision_count g2 = decision_count g) as Ec by (unfold decision_count; by rewrite Et2, Et1).
    rewrite <- Es1, <- Es2, <- Et1, <- Et2. replace (mk_statics _ _ _ _ _ _ _ _ _ _) with (add_decision g2 d x y) by (unfold add_decision; by rewrite Ec).
    assert (forall z, list_to_set [z] = ({[ z ]} : gset Z)) as Esing by (intros z; simpl; set_solver). rewrite Esing in Hx, Hy. cbn in Hx, Hy.
    destruct (add_decision_ok g2 d x y Hok2) as [Hok3 Hg3]; [by rewrite Et2, Et1|rewrite Ec; by eapply ds_denotes_grows|by rewrite Ec|].
    assert (0 <= id) as Hid by (unfold id; lia). assert (t_ids (g_table (add_decision g2 d x y)) !! d = Some id) as Ed by (cbn; rewrite Ec; by apply lookup_insert_eq).
    left. exists (add_decision g2 d x y), id. split; [done|]. split; [done|]. split; [done|]. rewrite Ed. split_and!; [done|done|by apply decision_get_iff|done| |].
    + intros id' d' Hid' Hg'. assert (d' <> d) as Hne by (intros ->; apply decision_get_iff in Hg'; congruence). apply decision_get_iff in Hg' as Hi; [|done..]. pose proof (proj1 (gk_ids _ Hok d' id') Hi) as [_ El]. apply lookup_lt_Some in El.
      split; [|split; [intros ->; unfold id, decision_count in El; lia|done]]. apply decision_get_iff; [done..|]. cbn. rewrite Et2, Et1. by rewrite lookup_insert_ne.
    + intros k. apply singleton_spec; [done|]. split; [done|]. unfold decision_count. cbn [add_decision g_table t_decisions]. rewrite length_app. change (length (t_decisions (g_table g2))) with (decision_count g2). rewrite Ec. unfold id. simpl length. lia.
Qed.
End denote.

(** ** An example: the sets [{1, 3}] and [{2, 3}] with a widening bound *)

Module Sets_.
Definition member_slots : Internable (list Z) := Internable_slice Z 4.
Definition St : Type := IdInterner (list Z) (list (Z * Z)) (IT := member_slots).
Definition members_hash (l : list Z) : Z := foldr Z.add 0 l.
Definition members_eqb (a b : list Z) : bool := bool_decide (a = b).

Lemma set_shards_ok : 0 <= 8 <= 16.
Proof. lia. Qed.

Lemma set_bits_ok : 8 < 31 <= 32.
Proof. lia. Qed.

#[export] Instance handle : IdHandle (list Z) St := interner_handle (IT := member_slots) (InternableOk0 := slice_ok Z 4) members_hash members_eqb 8 31 set_shards_ok set_bits_ok.

Definition st0 : St := match with_id_bits (IT := member_slots) (2 ^ 8) 31 with Ret st => st | _ => mk_interner [] [] 0 end.
Definition g0 (bound : Z) : Statics St := mk_statics (mk_table ∅ []) [] st0 st0 bound false 0 0 0 ∅.

Lemma members_eqb_ok : forall a b : list Z, ih_eqb (IdHandle := handle) a b = true <-> a = b.
Proof. intros a b. apply bool_decide_eq_true. Qed.

Lemma set_first_ok : FIRST_INTERNED <= ih_first (IdHandle := handle).
Proof. done. Qed.

Lemma set_bound_ok : ih_bound (IdHandle := handle) <= 2 ^ 31.
Proof. done. Qed.

Lemma g0_ok bound : 0 <= bound -> statics_ok (g0 bound).
Proof.
  intros Hb. pose proof (slice_ok Z 4). destruct (new_names (IT := member_slots) (HT := list (Z * Z)) (2 ^ 8) members_hash 8 ltac:(lia) eq_refl 31 ltac:(lia)) as (st & E & Hok & Hl & Hn).
  unfold g0, st0. rewrite E. split; cbn [g_exact g_collapsing g_widen_bound g_cache g_table g_singletons t_ids t_decisions]; try done.
  - by intros id l []%Hn.
  - by intros id l []%Hn.
  - intros i. split; [done|]. split; [done|by left].
  - intros d id. rewrite lookup_empty. split; [done|by intros [_ ?]].
Qed.

Definition two_sets : outcome (Statics St * (Z * Z)) :=
  '(g, a) ← ds_intern (g0 4) [1; 3] false; '(g, b) ← ds_intern g [2; 3] false; Ret (g, (a, b)).
Definition did_return {A} (o : outcome A) : bool := match o with Ret _ => true | _ => false end.

Lemma two_sets_ok : exists g a b, statics_ok g /\ g_widen_bound g = 4 /\ g_spill g = false /\ ds_denotes g a (DSet false {[ 1; 3 ]}) /\ ds_denotes g b (DSet false {[ 2; 3 ]}).
Proof.
  assert (gruns (g0 4) two_sets (fun g r => ds_denotes g r.1 (DSet false {[ 1; 3 ]}) /\ ds_denotes g r.2 (DSet false {[ 2; 3 ]}))) as [(g & [a b] & _ & Hok & Hg & Ha & Hb)|[E _]].
  - unfold two_sets. eapply gruns_bind; [apply (ds_intern_spec members_eqb_ok set_first_ok set_bound_ok); [by apply g0_ok|repeat constructor|done]|]. intros g a Hok Hg Ha. cbn beta iota in *.
    eapply gruns_bind; [apply (ds_intern_spec members_eqb_ok set_first_ok set_bound_ok); [done|repeat constructor|by rewrite (gg_bound _ _ Hg)]|]. intros g' b Hok' Hg' Hb. cbn beta iota in *. apply gruns_ret; [done|]. cbn [fst snd].
    rewrite decide_False in Ha by done. rewrite decide_False in Hb by done. cbn [list_to_set] in Ha, Hb. rewrite union_empty_r_L in Ha, Hb. split; [by eapply ds_denotes_grows|done].
  - exists g, a, b. split_and!; [done|by rewrite (gg_bound _ _ Hg)|by rewrite (gg_spill _ _ Hg)|done|done].
  - exfalso. assert (did_return two_sets = true) as Hr by (vm_compute; reflexivity). by rewrite E in Hr.
Qed.
End Sets_.
Import Sets_.


Lemma decision_row_settles_witness : exists (g : Statics St) a b, statics_ok g /\ ds_denotes g a (DSet false {[ 1; 3 ]}) /\ ds_denotes g b (DSet false {[ 2; 3 ]}) /\
  gruns g (join_row g EMPTY_SET [a; b; a]) (fun g' r => exists v', ds_denotes g' r.1 v' /\ dle DBot v' /\
    Forall (fun w => dle w v') [DSet false {[ 1; 3 ]}; DSet false {[ 2; 3 ]}; DSet false {[ 1; 3 ]}] /\ Z.of_nat r.2 <= 5).
Proof.
  destruct two_sets_ok as (g & a & b & Hok & Eb & _ & Ha & Hb). exists g, a, b. split; [exact Hok|]. split; [exact Ha|]. split; [exact Hb|]. pose proof (gk_bound _ Hok) as Hg.
  eapply gruns_mono; [apply (decision_row_settles members_eqb_ok set_first_ok set_bound_ok g EMPTY_SET [a; b; a] DBot [DSet false {[ 1; 3 ]}; DSet false {[ 2; 3 ]}; DSet false {[ 1; 3 ]}] false Hok)|].
  - constructor.
  - exact I.
  - repeat constructor; [exact Ha|exact Hb|exact Ha].
  - repeat constructor.
  - intros _. rewrite Eb. discriminate.
  - intros g' r _ _ (v' & H1 & H2 & H3 & H4). exists v'. rewrite Eb in H4. split; [exact H1|]. split; [exact H2|]. split; [exact H3|exact H4].
Defined.

Lemma conditions_lattice_witness : exists (g : Statics St) a, statics_ok g /\ ds_denotes g a (DSet false {[ 1; 3 ]}) /\ cond_partial_cmp g (Under a) Always = Ret (Some Lt) /\
  gruns g (cond_and g (Under a) Always) (fun g' r => exists m, c_glb g false (Some (DSet false {[ 1; 3 ]})) None m /\ match r with Some c'' => cond_denotes g' c'' m | None => m = Some DBot end).
Proof.
  destruct two_sets_ok as (g & a & b & Hok & Eb & Es & Ha & Hb). exists g, a. split; [exact Hok|]. split; [exact Ha|].
  destruct (conditions_lattice members_eqb_ok set_first_ok set_bound_ok g (Under a) Always (Some (DSet false {[ 1; 3 ]})) None false Hok) as (Hcmp & _ & _ & Hand).
  - constructor. exact Ha.
  - constructor.
  - split; [reflexivity|]. split; [apply (ds_denotes_within members_eqb_ok set_first_ok set_bound_ok g a _ Hok Ha)|]. rewrite Es. discriminate.
  - exact I.
  - split; [exact Hcmp|exact Hand].
Defined.

Lemma decision_ids_correct_witness : exists g id, decision_of (g0 4) (mk_decision 0 1 7) = Ret (g, id) /\ decision_get g id = Ret (mk_decision 0 1 7) /\ decision_of g (mk_decision 0 1 7) = Ret (g, id).
Proof.
  destruct (decision_ids_correct members_eqb_ok set_first_ok set_bound_ok (g0 4) (mk_decision 0 1 7)) as [(g & id & E & _ & _ & _ & Hget & Hof & _)|[E _]].
  - by apply g0_ok.
  - vm_compute. reflexivity.
  - exists g, id. split; [exact E|]. split; [exact Hget|exact Hof].
  - exfalso. assert (did_return (decision_of (g0 4) (mk_decision 0 1 7)) = true) as Hr by (vm_compute; reflexivity). rewrite E in Hr. discriminate Hr.
Defined.
