(* ===== verification/Swiss.v ===== *)
(** * Swiss: control bytes, group scans, probe sequences and sizes

    The mechanism of src/ctadl-index/src/index_engine/hybrid_set/swiss.rs: eight control bytes read as
    one word and searched by word arithmetic, the bit mask such a search returns, quadratic probing over
    groups, and the sizes of tables.  A word is the little-endian reading of its bytes, so that [to_le] is
    the identity.  [RawTable] is the table that runs on it. *)

From S2P Require Import Prelude Bits.
From Stdlib Require Import Znumtheory Zpow_facts.

#[local] Open Scope Z_scope.

(** ** Words and bytes *)

Fixpoint word_of_bytes (l : list Z) : Z :=
  match l with [] => 0 | b :: l => b + 256 * word_of_bytes l end.

Fixpoint bytes_of_word (n : nat) (w : Z) : list Z :=
  match n with O => [] | S n => w mod 256 :: bytes_of_word n (w / 256) end.

Definition is_byte (b : Z) : Prop := 0 <= b < 256.

Definition EMPTY : Z := 255.
Definition GROUP_WIDTH : Z := 8.
Definition MIN_BUCKETS : Z := GROUP_WIDTH.

(** [u64::from_ne_bytes([byte; GROUP_WIDTH])]. *)
Definition repeat_byte (byte : Z) : Z := word_of_bytes (replicate (Z.to_nat GROUP_WIDTH) byte).

Definition h1 (hash : Z) : Z := hash.
Definition h2 (hash : Z) : Z := Z.shiftr hash (64 - 7) mod 256.

(** ** Groups

    [Group::load]: eight bytes of the control array from [pos]; a read outside the array panics here. *)
Definition group_load (meta : list Z) (pos : Z) : outcome Z :=
  if (0 <=? pos) && (pos + GROUP_WIDTH <=? Z.of_nat (length meta))
  then Ret (word_of_bytes (take (Z.to_nat GROUP_WIDTH) (drop (Z.to_nat pos) meta)))
  else Panic.

Definition match_byte (group byte : Z) : outcome Z :=
  _ ← rust_assert (Z.land byte 128 =? 0);
  let cmp := Z.lxor group (repeat_byte byte) in
  Ret (Z.land (Z.land (u64 (cmp - repeat_byte 1)) (u64 (Z.lnot cmp))) (repeat_byte 128)).

Definition match_empty (group : Z) : Z := Z.land group (repeat_byte 128).
Definition match_full (group : Z) : Z := Z.land (u64 (Z.lnot group)) (repeat_byte 128).

(** ** Bit masks *)

Definition SHIFT : Z := 3.

Definition mask_any (m : Z) : bool := negb (m =? 0).

Definition mask_lowest (m : Z) : option Z :=
  if m =? 0 then None else Some (Z.shiftr (trailing_zeros m) SHIFT).

(** [self.0 &= self.0 - 1]. *)
Definition clear_lowest (m : Z) : Z := Z.land m (m - 1).

Definition mask_next (m : Z) : option (Z * Z) :=
  match mask_lowest m with
  | None => None
  | Some bit => Some (bit, clear_lowest m)
  end.

(** [for bit in mask]: the bits the iterator yields; a word has at most 64 of them. *)
Fixpoint mask_collect (fuel : nat) (m : Z) : list Z :=
  match fuel with
  | O => []
  | S fuel => match mask_next m with None => [] | Some (bit, m) => bit :: mask_collect fuel m end
  end.
Definition mask_bits (m : Z) : list Z := mask_collect 64 m.

(** ** Probe sequences *)

Record ProbeSeq := { pos : Z; stride : Z }.

Definition probe_new (hash bucket_mask : Z) : ProbeSeq := {| pos := Z.land (h1 hash) bucket_mask; stride := 0 |}.

Definition move_next (p : ProbeSeq) (bucket_mask : Z) : outcome ProbeSeq :=
  _ ← rust_assert (stride p <=? bucket_mask);
  let s := stride p + GROUP_WIDTH in
  Ret {| pos := Z.land (pos p + s) bucket_mask; stride := s |}.

(** ** Sizes *)

Definition is_power_of_two (n : Z) : bool := (0 <? n) && (Z.land n (n - 1) =? 0).

(** [usize::next_power_of_two]: a result above [2^63] overflows, which panics in a debug build. *)
Definition next_power_of_two (n : Z) : outcome Z :=
  let p := 2 ^ Z.log2_up n in if p <? 2 ^ 64 then Ret p else Panic.

(** [a * b] and [a + b] on [usize]: an overflow panics, as in a debug build. *)
Definition mul_usize (a b : Z) : outcome Z := if a * b <? 2 ^ 64 then Ret (a * b) else Panic.
Definition add_usize (a b : Z) : outcome Z := if a + b <? 2 ^ 64 then Ret (a + b) else Panic.

Definition capacity_for (buckets : Z) : Z := buckets / 8 * 7.

Definition buckets_for (capacity : Z) : outcome Z :=
  if capacity =? 0 then Ret 0
  else
    c ← mul_usize capacity 8;
    p ← next_power_of_two (c / 7);
    Ret (Z.max p MIN_BUCKETS).

Definition ctrl_len (buckets : Z) : Z := buckets + GROUP_WIDTH.

(** ** Facts on words and bytes *)

Lemma word_of_bytes_range l : Forall is_byte l -> 0 <= word_of_bytes l < 2 ^ (8 * Z.of_nat (length l)).
Proof.
  induction 1 as [|b l Hb _ IH]; simpl word_of_bytes; [done|]. unfold is_byte in Hb. cbn [length].
  rewrite Nat2Z.inj_succ, Z.mul_succ_r, Z.pow_add_r by lia. lia.
Qed.

Lemma bytes_of_word_length n w : length (bytes_of_word n w) = n.
Proof. revert w. induction n as [|n IH]; intros w; simpl; [done|]. by rewrite IH. Qed.

Lemma bytes_of_word_bytes n w : Forall is_byte (bytes_of_word n w).
Proof. revert w. induction n as [|n IH]; intros w; simpl; constructor; [by apply Z.mod_pos_bound|done]. Qed.

Lemma word_of_bytes_of_word n w : 0 <= w < 2 ^ (8 * Z.of_nat n) -> word_of_bytes (bytes_of_word n w) = w.
Proof.
  revert w. induction n as [|n IH]; intros w Hw; [simpl in *; lia|]. cbn [bytes_of_word word_of_bytes].
  rewrite Nat2Z.inj_succ, Z.mul_succ_r, Z.pow_add_r in Hw by lia. change (2 ^ 8) with 256 in Hw.
  rewrite IH; Z.div_mod_to_equations; nia.
Qed.

(** Bit [j] of byte [i] is bit [8 * i + j] of the word. *)
Lemma word_testbit l (i : nat) j : Forall is_byte l -> 0 <= j < 8 ->
  Z.testbit (word_of_bytes l) (8 * Z.of_nat i + j) = Z.testbit (default 0 (l !! i)) j.
Proof.
  intros Hl Hj. revert i. induction Hl as [|b l Hb _ IH]; intros i; simpl word_of_bytes; [by rewrite lookup_nil, !Z.bits_0|].
  unfold is_byte in Hb. change 256 with (2 ^ 8) in *. rewrite (Z.mul_comm _ (word_of_bytes l)).
  rewrite <- lor_shiftl by lia. rewrite Z.lor_spec. destruct i as [|i].
  - rewrite Z.shiftl_spec_low by lia. by rewrite orb_false_r, Z.mul_0_r.
  - rewrite (bits_above b 8), Z.shiftl_spec by lia. cbn [lookup list_lookup]. rewrite <- IH. simpl. f_equal. lia.
Qed.

(** Two words of eight bytes that have the same bits are equal; bits of [repeat_byte]. *)
Lemma repeat_byte_testbit b (i : nat) j : is_byte b -> (i < 8)%nat -> 0 <= j < 8 ->
  Z.testbit (repeat_byte b) (8 * Z.of_nat i + j) = Z.testbit b j.
Proof.
  intros Hb Hi Hj. unfold repeat_byte. rewrite word_testbit by (try apply Forall_replicate; done).
  by rewrite lookup_replicate_2 by (unfold GROUP_WIDTH; lia).
Qed.

Lemma repeat_byte_range b : is_byte b -> 0 <= repeat_byte b < 2 ^ 64.
Proof.
  intros Hb. unfold repeat_byte. pose proof (word_of_bytes_range (replicate 8 b)) as Hr.
  rewrite length_replicate in Hr. apply Hr. by apply Forall_replicate.
Qed.

Lemma bit_split i : 0 <= i < 64 -> exists (q : nat) r, (q < 8)%nat /\ 0 <= r < 8 /\ i = 8 * Z.of_nat q + r.
Proof. intros Hi. exists (Z.to_nat (i / 8)), (i mod 8). Z.div_mod_to_equations. lia. Qed.

(** ** Bit masks as lists of positions *)

(** The word whose set bits are at the positions of [l]. *)
Definition word_of_bits (l : list Z) : Z := foldr (fun p w => 2 ^ p + w) 0 l.

Lemma low_bit_testbit n q i : 0 <= n -> 0 <= i ->
  Z.testbit (2 ^ n + 2 ^ (n + 1) * q) i = (if decide (n < i) then Z.testbit q (i - (n + 1)) else bool_decide (i = n)).
Proof.
  intros Hn Hi. rewrite (Z.mul_comm _ q), <- lor_shiftl by (rewrite ?Z.pow_add_r by lia; lia).
  rewrite Z.lor_spec, Z.pow2_bits_eqb, Z.shiftl_spec by lia. destruct (decide (n < i)).
  - rewrite (proj2 (Z.eqb_neq _ _)) by lia. done.
  - rewrite (Z.testbit_neg_r q), orb_false_r by lia. destruct (Z.eqb_spec n i); [by rewrite bool_decide_true|by rewrite bool_decide_false by lia].
Qed.

Lemma low_bit_pred_testbit n q i : 0 <= n -> 0 <= i ->
  Z.testbit (2 ^ n + 2 ^ (n + 1) * q - 1) i = (if decide (n < i) then Z.testbit q (i - (n + 1)) else bool_decide (i < n)).
Proof.
  intros Hn Hi. replace (2 ^ n + 2 ^ (n + 1) * q - 1) with (Z.ones n + q * 2 ^ (n + 1)) by (rewrite Z.ones_equiv; lia).
  assert (0 <= Z.ones n < 2 ^ n) as Ho by (rewrite Z.ones_equiv; lia).
  rewrite <- lor_shiftl by (rewrite ?Z.pow_add_r by lia; lia). rewrite Z.lor_spec, Z.shiftl_spec by lia. destruct (decide (n < i)).
  - rewrite Z.ones_spec_high by lia. done.
  - rewrite (Z.testbit_neg_r q), orb_false_r by lia. destruct (decide (i < n)).
    + by rewrite Z.ones_spec_low, bool_decide_true by lia.
    + by rewrite Z.ones_spec_high, bool_decide_false by lia.
Qed.

Lemma clear_lowest_spec n q : 0 <= n -> clear_lowest (2 ^ n + 2 ^ (n + 1) * q) = 2 ^ (n + 1) * q.
Proof.
  intros Hn. apply Z.bits_inj'. intros i Hi. unfold clear_lowest.
  rewrite Z.land_spec, low_bit_testbit, low_bit_pred_testbit by done.
  rewrite (Z.mul_comm _ q), <- Z.shiftl_mul_pow2, Z.shiftl_spec by lia. destruct (decide (n < i)); [by rewrite andb_diag|].
  rewrite (Z.testbit_neg_r q) by lia. destruct (decide (i = n)) as [->|]; [|by rewrite bool_decide_false].
  rewrite (bool_decide_false (n < n)) by lia. by rewrite andb_false_r.
Qed.

Lemma trailing_zeros_spec n q : 0 <= n -> trailing_zeros (2 ^ n + 2 ^ (n + 1) * q) = n.
Proof.
  intros Hn. unfold trailing_zeros. set (m := 2 ^ n + 2 ^ (n + 1) * q).
  replace (Z.land m (- m)) with (2 ^ n); [by apply Z.log2_pow2|]. replace (- m) with (Z.lnot (m - 1)) by (unfold Z.lnot; lia).
  apply Z.bits_inj'. intros i Hi. rewrite Z.land_spec, Z.lnot_spec, Z.pow2_bits_eqb by done. unfold m.
  rewrite low_bit_testbit, low_bit_pred_testbit by done. destruct (decide (n < i)).
  - rewrite (proj2 (Z.eqb_neq _ _)) by lia. by destruct (Z.testbit _ _).
  - destruct (Z.eqb_spec n i) as [->|]; [by rewrite bool_decide_true, bool_decide_false by lia|].
    by rewrite bool_decide_false by lia.
Qed.

Lemma word_of_bits_multiple p l : 0 <= p -> Forall (fun i => p < i) l -> exists q, word_of_bits l = 2 ^ (p + 1) * q.
Proof.
  intros Hp. induction 1 as [|i l Hi _ [q Hq]]; [by exists 0; simpl; lia|]. exists (2 ^ (i - (p + 1)) + q).
  simpl. rewrite Hq, Z.mul_add_distr_l, <- Z.pow_add_r by lia. f_equal. f_equal. lia.
Qed.

Lemma word_of_bits_cons p l : 0 <= p -> Forall (fun i => p < i) l ->
  word_of_bits (p :: l) <> 0 /\ trailing_zeros (word_of_bits (p :: l)) = p /\ clear_lowest (word_of_bits (p :: l)) = word_of_bits l.
Proof.
  intros Hp Hl. destruct (word_of_bits_multiple p l Hp Hl) as [q Hq]. cbn [word_of_bits foldr]. fold (word_of_bits l). rewrite Hq.
  split_and!; [|by apply trailing_zeros_spec|by apply clear_lowest_spec].
  intros E. pose proof (low_bit_testbit p q p Hp Hp) as Hb. rewrite E, Z.bits_0, decide_False, bool_decide_true in Hb by lia. done.
Qed.

Lemma word_of_bits_nonneg l : Forall (Z.le 0) l -> 0 <= word_of_bits l.
Proof. induction 1 as [|p l Hp _ IH]; simpl; [done|]. lia. Qed.

Lemma word_of_bits_testbit l i : StronglySorted Z.lt l -> Forall (Z.le 0) l -> 0 <= i -> Z.testbit (word_of_bits l) i = bool_decide (i ∈ l).
Proof.
  intros Hs Hp Hi. induction Hs as [|p l Hs IH Hlt]; [by rewrite Z.bits_0, bool_decide_false by set_solver|].
  apply Forall_cons in Hp as [Hp0 Hp]. specialize (IH Hp). destruct (word_of_bits_multiple p l Hp0 Hlt) as [q Hq].
  cbn [word_of_bits foldr]. fold (word_of_bits l). rewrite Hq in IH |- *. rewrite low_bit_testbit by done.
  rewrite (Z.mul_comm _ q), <- Z.shiftl_mul_pow2, Z.shiftl_spec in IH by lia. rewrite Forall_forall in Hlt. destruct (decide (p < i)).
  - rewrite IH. apply bool_decide_ext. rewrite elem_of_cons. naive_solver lia.
  - apply bool_decide_ext. rewrite elem_of_cons. split; [by left|]. intros [->|Hin]; [done|]. specialize (Hlt _ Hin). lia.
Qed.

(** The iterator of a mask yields the positions of its bits, in increasing order, divided by the spacing. *)
Lemma mask_collect_spec fuel l : StronglySorted Z.lt l -> Forall (Z.le 0) l -> (length l < fuel)%nat ->
  mask_collect fuel (word_of_bits l) = map (fun p => Z.shiftr p SHIFT) l.
Proof.
  intros Hs. revert fuel. induction Hs as [|p l Hs IH Hp]; intros fuel Hpos Hf; (destruct fuel as [|fuel]; [simpl in Hf; lia|]); [done|].
  apply Forall_cons in Hpos as [Hp0 Hpos]. destruct (word_of_bits_cons p l Hp0 Hp) as (Hne & Htz & Hcl). cbn [mask_collect].
  unfold mask_next, mask_lowest. rewrite (proj2 (Z.eqb_neq _ _) Hne), Htz, Hcl. simpl. rewrite IH; [done..|simpl in Hf; lia].
Qed.

(** ** Positions of the true flags of a list *)

Fixpoint true_idx (k : Z) (l : list bool) : list Z :=
  match l with [] => [] | b :: l => if b then k :: true_idx (k + 1) l else true_idx (k + 1) l end.

Lemma true_idx_elem k l i : i ∈ true_idx k l <-> k <= i /\ l !! Z.to_nat (i - k) = Some true.
Proof.
  revert k. induction l as [|b l IH]; intros k; simpl; [rewrite lookup_nil; set_solver|].
  assert (i ∈ true_idx (k + 1) l <-> k < i /\ (b :: l) !! Z.to_nat (i - k) = Some true) as E.
  { rewrite IH. split; (intros [Hi Hl]; split; [lia|]); replace (Z.to_nat (i - k)) with (S (Z.to_nat (i - (k + 1)))) in * by lia; done. }
  destruct b; [rewrite elem_of_cons|]; rewrite E; (split; [|intros [Hi Hl]; destruct (decide (i = k)) as [->|]]).
  - intros [->|[Hi Hl]]; [by rewrite Z.sub_diag|]. split; [lia|done].
  - by left.
  - right. split; [lia|done].
  - intros [Hi Hl]. split; [lia|done].
  - by rewrite Z.sub_diag in Hl.
  - split; [lia|done].
Qed.

Lemma true_idx_sorted k l : StronglySorted Z.lt (true_idx k l).
Proof.
  revert k. induction l as [|b l IH]; intros k; simpl; [constructor|]. destruct b; [|done]. constructor; [done|].
  apply Forall_forall. intros i [Hi _]%true_idx_elem. lia.
Qed.

Lemma true_idx_lower k l : 0 <= k -> Forall (Z.le 0) (true_idx k l).
Proof. intros Hk. apply Forall_forall. intros i [Hi _]%true_idx_elem. lia. Qed.

Lemma true_idx_app k l1 l2 : true_idx k (l1 ++ l2) = true_idx k l1 ++ true_idx (k + Z.of_nat (length l1)) l2.
Proof.
  revert k. induction l1 as [|b l1 IH]; intros k; simpl; [by rewrite Z.add_0_r|]. rewrite IH.
  replace (k + 1 + Z.of_nat (length l1)) with (k + Z.of_nat (S (length l1))) by lia. by destruct b.
Qed.

Lemma true_idx_length k l : (length (true_idx k l) <= length l)%nat.
Proof. revert k. induction l as [|b l IH]; intros k; simpl; [done|]. specialize (IH (k + 1)). destruct b; simpl; lia. Qed.

Lemma true_idx_shift k l : true_idx k l = map (fun i => k + i) (true_idx 0 l).
Proof.
  revert k. induction l as [|b l IH]; intros k; simpl; [done|]. change (0 + 1) with 1. rewrite (IH (k + 1)), (IH 1).
  assert (map (fun i => k + 1 + i) (true_idx 0 l) = map (fun i => k + i) (map (fun i => 1 + i) (true_idx 0 l))) as ->.
  { rewrite map_map. apply map_ext. intros i. lia. }
  destruct b; simpl; [|done]. by rewrite Z.add_0_r.
Qed.

(** The mask with the high bit of byte [i] set for each true flag [i]. *)
Definition flag_word (l : list bool) : Z := word_of_bytes (map (fun b : bool => if b then 128 else 0) l).

Lemma flag_word_bits l : flag_word l = word_of_bits (map (fun i => 8 * i + 7) (true_idx 0 l)).
Proof.
  assert (forall k, 0 <= k -> 2 ^ (8 * k) * flag_word l = word_of_bits (map (fun i => 8 * i + 7) (true_idx k l))) as H.
  { induction l as [|b l IH]; intros k Hk; [unfold flag_word; simpl; lia|].
    change (flag_word (b :: l)) with ((if b then 128 else 0) + 256 * flag_word l).
    assert (2 ^ (8 * k) * (256 * flag_word l) = word_of_bits (map (fun i => 8 * i + 7) (true_idx (k + 1) l))) as E.
    { rewrite <- IH by lia. rewrite Z.mul_add_distr_l, Z.pow_add_r by lia. lia. }
    destruct b; simpl; rewrite <- E; [|lia]. rewrite (Z.pow_add_r 2 (8 * k) 7) by lia. lia. }
  rewrite <- H by done. simpl. destruct (flag_word l); done.
Qed.

Lemma flag_word_zero l : flag_word l = 0 <-> true_idx 0 l = [].
Proof.
  rewrite flag_word_bits. split; [|by intros ->]. pose proof (true_idx_sorted 0 l) as Hs. pose proof (true_idx_lower 0 l ltac:(lia)) as Hp.
  destruct (true_idx 0 l) as [|p ps]; [done|]. apply StronglySorted_inv in Hs as [Hs Hlt]. apply Forall_cons in Hp as [Hp _]. intros E. exfalso.
  refine (proj1 (word_of_bits_cons (8 * p + 7) _ _ _) E); [lia|]. apply Forall_forall.
  intros i (j & -> & Hj)%elem_of_map. rewrite Forall_forall in Hlt. specialize (Hlt _ Hj). lia.
Qed.

Lemma flag_positions_sorted l : StronglySorted Z.lt l -> StronglySorted Z.lt (map (fun i => 8 * i + 7) l).
Proof.
  induction 1 as [|p l Hs IH Hp]; simpl; constructor; [done|]. rewrite Forall_forall in Hp |- *.
  intros i (j & -> & Hj)%elem_of_map. specialize (Hp _ Hj). lia.
Qed.

Lemma flag_positions_shift l : map (fun p => Z.shiftr p SHIFT) (map (fun i => 8 * i + 7) l) = l.
Proof.
  rewrite map_map. rewrite <- (map_id l) at 2. apply map_ext. intros i. unfold SHIFT.
  rewrite Z.shiftr_div_pow2 by lia. change (2 ^ 3) with 8. Z.div_mod_to_equations. lia.
Qed.

Lemma mask_bits_flag_word l : (length l <= 8)%nat -> mask_bits (flag_word l) = true_idx 0 l.
Proof.
  intros Hl. unfold mask_bits. rewrite flag_word_bits, mask_collect_spec.
  - apply flag_positions_shift.
  - apply flag_positions_sorted, true_idx_sorted.
  - apply Forall_forall. intros i (j & -> & [Hj _]%true_idx_elem)%elem_of_map. lia.
  - rewrite length_map. pose proof (true_idx_length 0 l). lia.
Qed.

Lemma mask_any_flag_word l : mask_any (flag_word l) = negb (bool_decide (true_idx 0 l = [])).
Proof.
  unfold mask_any. f_equal. apply eq_true_iff_eq. by rewrite Z.eqb_eq, bool_decide_eq_true, flag_word_zero.
Qed.

Lemma mask_lowest_flag_word l : mask_lowest (flag_word l) = head (true_idx 0 l).
Proof.
  unfold mask_lowest. destruct (Z.eqb_spec (flag_word l) 0) as [E|E]; [by apply flag_word_zero in E as ->|].
  rewrite flag_word_zero in E. rewrite flag_word_bits. pose proof (flag_positions_sorted _ (true_idx_sorted 0 l)) as Hs.
  pose proof (true_idx_lower 0 l ltac:(lia)) as Hp. pose proof (flag_positions_shift (true_idx 0 l)) as Hsh.
  destruct (true_idx 0 l) as [|p ps]; [done|]. simpl in Hs, Hsh. apply StronglySorted_inv in Hs as [_ Hlt].
  apply Forall_cons in Hp as [Hp _]. destruct (word_of_bits_cons (8 * p + 7) _ ltac:(lia) Hlt) as (_ & Htz & _).
  simpl map. rewrite Htz. simpl. by injection Hsh as ->.
Qed.

(** ** Group scans *)

Lemma byte_high_bit b : is_byte b -> Z.testbit b 7 = (128 <=? b).
Proof.
  intros [? ?]. rewrite Z.testbit_odd, Z.shiftr_div_pow2 by lia. change (2 ^ 7) with 128. destruct (Z.leb_spec 128 b).
  - by replace (b / 128) with 1 by (Z.div_mod_to_equations; lia).
  - by rewrite Z.div_small by lia.
Qed.

Lemma word_eq_bits a b : 0 <= a < 2 ^ 64 -> 0 <= b < 2 ^ 64 ->
  (forall (q : nat) r, (q < 8)%nat -> 0 <= r < 8 -> Z.testbit a (8 * Z.of_nat q + r) = Z.testbit b (8 * Z.of_nat q + r)) -> a = b.
Proof.
  intros Ha Hb H. apply Z.bits_inj'. intros i Hi. destruct (decide (i < 64)).
  - destruct (bit_split i) as (q & r & ? & ? & ->); [lia|]. by apply H.
  - by rewrite !(bits_above _ 64) by lia.
Qed.

(** A number with no bit at or above [n] is below [2^n]. *)
Lemma bits_bound a n : 0 <= n -> (forall i, n <= i -> Z.testbit a i = false) -> 0 <= a < 2 ^ n.
Proof.
  intros Hn H. replace a with (a mod 2 ^ n); [by apply Z.mod_pos_bound, Z.pow_pos_nonneg|]. apply Z.bits_inj'. intros i Hi.
  destruct (decide (i < n)); [by apply Z.mod_pow2_bits_low|]. by rewrite Z.mod_pow2_bits_high, H by lia.
Qed.

Lemma word8_range l : Forall is_byte l -> length l = 8%nat -> 0 <= word_of_bytes l < 2 ^ 64.
Proof. intros Hl Hn. pose proof (word_of_bytes_range l Hl) as Hr. by rewrite Hn in Hr. Qed.

Lemma flag_bytes (l : list bool) : Forall is_byte (map (fun b : bool => if b then 128 else 0) l).
Proof. apply Forall_forall. intros x (b & -> & _)%elem_of_map. unfold is_byte. destruct b; lia. Qed.

Lemma flag_word_testbit l (q : nat) r : 0 <= r < 8 ->
  Z.testbit (flag_word l) (8 * Z.of_nat q + r) = (r =? 7) && default false (l !! q).
Proof.
  intros Hr. unfold flag_word. rewrite word_testbit by (try apply flag_bytes; done). rewrite lookup_map.
  destruct (l !! q) as [[]|]; simpl; rewrite ?Z.bits_0, ?andb_false_r; try done.
  change 128 with (2 ^ 7). rewrite Z.pow2_bits_eqb, andb_true_r, Z.eqb_sym by lia. done.
Qed.

Lemma flag_word_range l : length l = 8%nat -> 0 <= flag_word l < 2 ^ 64.
Proof. intros Hl. apply word8_range; [apply flag_bytes|by rewrite length_map]. Qed.

(** A word masked by [repeat(0x80)] is the flags of the high bits of its bytes. *)
Lemma land_high_bits w l : length l = 8%nat ->
  (forall q : nat, (q < 8)%nat -> Z.testbit w (8 * Z.of_nat q + 7) = default false (l !! q)) ->
  Z.land w (repeat_byte 128) = flag_word l.
Proof.
  intros Hl H. apply word_eq_bits; [|by apply flag_word_range|].
  - apply bits_bound; [lia|]. intros i Hi. rewrite Z.land_spec, (bits_above (repeat_byte 128) 64), andb_false_r by
      (try apply repeat_byte_range; unfold is_byte; lia). done.
  - intros q r Hq Hr. rewrite Z.land_spec, repeat_byte_testbit, flag_word_testbit by (try unfold is_byte; lia).
    change 128 with (2 ^ 7). rewrite Z.pow2_bits_eqb, (Z.eqb_sym 7) by lia. destruct (Z.eqb_spec r 7) as [->|]; [|by rewrite andb_false_r].
    by rewrite andb_true_r, H.
Qed.

Lemma byte_at l (q : nat) : Forall is_byte l -> length l = 8%nat -> (q < 8)%nat -> exists b, l !! q = Some b /\ is_byte b.
Proof.
  intros Hl Hn Hq. destruct (lookup_lt_is_Some_2 l q) as [b Hb]; [lia|]. exists b. split; [done|].
  rewrite Forall_lookup in Hl. by apply (Hl q).
Qed.

Lemma match_empty_spec l : Forall is_byte l -> length l = 8%nat ->
  match_empty (word_of_bytes l) = flag_word (map (fun b => 128 <=? b) l).
Proof.
  intros Hl Hn. apply land_high_bits; [by rewrite length_map|]. intros q Hq.
  destruct (byte_at l q Hl Hn Hq) as (b & Hb & ?). rewrite word_testbit, lookup_map, Hb by (done || lia). simpl. by apply byte_high_bit.
Qed.

Lemma u64_lnot_testbit w i : 0 <= i < 64 -> Z.testbit (u64 (Z.lnot w)) i = negb (Z.testbit w i).
Proof. intros Hi. unfold u64. rewrite Z.mod_pow2_bits_low, Z.lnot_spec by lia. done. Qed.

Lemma match_full_spec l : Forall is_byte l -> length l = 8%nat ->
  match_full (word_of_bytes l) = flag_word (map (fun b => b <? 128) l).
Proof.
  intros Hl Hn. apply land_high_bits; [by rewrite length_map|]. intros q Hq.
  destruct (byte_at l q Hl Hn Hq) as (b & Hb & ?). rewrite u64_lnot_testbit, word_testbit, lookup_map, Hb by (done || lia).
  cbn [default fmap option_fmap option_map]. unfold id. rewrite byte_high_bit by done. apply eq_true_iff_eq. rewrite negb_true_iff, Z.leb_gt, Z.ltb_lt. done.
Qed.

(** The buckets [match_byte] reports, from the lowest: those that hold the byte, and those that hold the byte
    with its low bit flipped right above a reported one, where the borrow of the subtraction arrives. *)
Fixpoint reported (byte : Z) (borrow : bool) (l : list Z) : list bool :=
  match l with
  | [] => []
  | x :: l => let r := (x =? byte) || borrow && (x =? Z.lxor byte 1) in r :: reported byte r l
  end.

(** Bytewise subtraction of [0x01...01] with the borrow. *)
Fixpoint sub_ones (borrow : bool) (l : list Z) : list Z :=
  match l with
  | [] => []
  | x :: l => (x - 1 - Z.b2z borrow) mod 256 :: sub_ones (x <? 1 + Z.b2z borrow) l
  end.

Lemma sub_ones_bytes c l : Forall is_byte (sub_ones c l).
Proof. revert c. induction l as [|x l IH]; intros c; simpl; constructor; [by apply Z.mod_pos_bound|done]. Qed.

Lemma sub_ones_length c l : length (sub_ones c l) = length l.
Proof. revert c. induction l as [|x l IH]; intros c; simpl; [done|]. by rewrite IH. Qed.

Lemma sub_ones_word c l : Forall is_byte l ->
  (word_of_bytes l - Z.b2z c - word_of_bytes (replicate (length l) 1)) mod 2 ^ (8 * Z.of_nat (length l)) = word_of_bytes (sub_ones c l).
Proof.
  intros Hl. revert c. induction Hl as [|x l Hx Hl IH]; intros c; [by rewrite Z.mod_1_r|]. cbn [length replicate word_of_bytes sub_ones].
  rewrite <- IH. unfold is_byte in Hx. rewrite Nat2Z.inj_succ, Z.mul_succ_r, Z.pow_add_r by lia. change (2 ^ 8) with 256.
  set (B := 2 ^ (8 * Z.of_nat (length l))). assert (0 < B) by (apply Z.pow_pos_nonneg; lia).
  set (W := word_of_bytes l). set (R := word_of_bytes _).
  set (c' := Z.b2z (x <? 1 + Z.b2z c)). assert (x - 1 - Z.b2z c = (x - 1 - Z.b2z c) mod 256 - 256 * c') as E.
  { unfold c'. destruct (Z.ltb_spec x (1 + Z.b2z c)) as [Hlt|Hge]; destruct c; simpl in *; Z.div_mod_to_equations; lia. }
  assert (0 <= (x - 1 - Z.b2z c) mod 256 < 256) by (by apply Z.mod_pos_bound).
  replace (x + 256 * W - Z.b2z c - (1 + 256 * R)) with ((x - 1 - Z.b2z c) mod 256 + 256 * (W - c' - R)) by lia.
  rewrite (Z.mul_comm B), Z.rem_mul_r by lia. f_equal.
  - rewrite Z.mul_comm, Z_mod_plus_full. by apply Z.mod_small.
  - f_equal. f_equal. rewrite Z.mul_comm, Z_div_plus_full, Z.div_small by lia. done.
Qed.

Lemma lxor_word a l : is_byte a -> Forall is_byte l -> length l = 8%nat ->
  Z.lxor (word_of_bytes l) (repeat_byte a) = word_of_bytes (map (fun x => Z.lxor x a) l) /\ Forall is_byte (map (fun x => Z.lxor x a) l).
Proof.
  intros Ha Hl Hn. assert (Forall is_byte (map (fun x => Z.lxor x a) l)) as Hb.
  { apply Forall_forall. intros y (x & -> & Hx)%elem_of_map. rewrite Forall_forall in Hl. specialize (Hl _ Hx). unfold is_byte in *.
    change 256 with (2 ^ 8) in *. apply bits_bound; [lia|]. intros i Hi. by rewrite Z.lxor_spec, !(bits_above _ 8) by lia. }
  split; [|done]. apply word_eq_bits; [|by apply word8_range; rewrite ?length_map|].
  - pose proof (word8_range l Hl Hn). pose proof (repeat_byte_range a Ha). apply bits_bound; [lia|].
    intros i Hi. by rewrite Z.lxor_spec, !(bits_above _ 64) by lia.
  - intros q r Hq Hr. rewrite Z.lxor_spec, repeat_byte_testbit, !word_testbit, lookup_map by done.
    destruct (byte_at l q Hl Hn Hq) as (x & -> & _). simpl. by rewrite Z.lxor_spec.
Qed.

Lemma lxor_eq_iff y b d : Z.lxor y b = d <-> y = Z.lxor b d.
Proof.
  split; [intros <-|intros ->].
  - by rewrite (Z.lxor_comm y), <- Z.lxor_assoc, Z.lxor_nilpotent, Z.lxor_0_l.
  - by rewrite (Z.lxor_comm b d), Z.lxor_assoc, Z.lxor_nilpotent, Z.lxor_0_r.
Qed.

Lemma sub_ones_step x c : is_byte x ->
  Z.testbit ((x - 1 - Z.b2z c) mod 256) 7 && negb (Z.testbit x 7) = (x =? 0) || c && (x =? 1) /\
  (x <? 1 + Z.b2z c) = (x =? 0) || c && (x =? 1).
Proof.
  intros Hx. rewrite !byte_high_bit by (done || by apply Z.mod_pos_bound). unfold is_byte in Hx.
  destruct c; simpl Z.b2z; destruct (Z.eqb_spec x 0), (Z.eqb_spec x 1); subst; try done;
    split; simpl; rewrite ?andb_false_iff, ?negb_false_iff, ?Z.leb_gt, ?Z.leb_le, ?Z.ltb_ge; Z.div_mod_to_equations; lia.
Qed.

Lemma reported_sub_ones b c l (q : nat) : is_byte b -> Forall is_byte l -> Forall is_byte (map (fun x => Z.lxor x b) l) ->
  Z.testbit (default 0 (sub_ones c (map (fun x => Z.lxor x b) l) !! q)) 7 && negb (Z.testbit (default 0 (map (fun x => Z.lxor x b) l !! q)) 7)
    = default false (reported b c l !! q).
Proof.
  intros Hb Hl. revert c q. induction Hl as [|y l Hy Hl IH]; intros c q Hx; [done|].
  apply Forall_cons in Hx as [Hx Hxs]. cbn [map sub_ones reported].
  destruct (sub_ones_step (Z.lxor y b) c Hx) as [E1 E2].
  assert ((Z.lxor y b =? 0) || c && (Z.lxor y b =? 1) = (y =? b) || c && (y =? Z.lxor b 1)) as E.
  { apply eq_true_iff_eq. rewrite !orb_true_iff, !andb_true_iff, !Z.eqb_eq, !lxor_eq_iff, Z.lxor_0_r. done. }
  rewrite E in E1, E2. destruct q as [|q]; [exact E1|]. cbn [lookup list_lookup]. rewrite E2. by apply IH.
Qed.

Lemma reported_length b c l : length (reported b c l) = length l.
Proof. revert c. induction l as [|x l IH]; intros c; simpl; [done|]. by rewrite IH. Qed.

Lemma match_byte_spec b l : 0 <= b < 128 -> Forall is_byte l -> length l = 8%nat ->
  match_byte (word_of_bytes l) b = Ret (flag_word (reported b false l)).
Proof.
  intros Hb Hl Hn. assert (is_byte b) as Hb' by (unfold is_byte; lia). unfold match_byte.
  assert (Z.land b 128 = 0) as -> by (apply (land_bit_low b 7); lia). cbn [mbind outcome_bind rust_assert Z.eqb]. f_equal.
  destruct (lxor_word b l Hb' Hl Hn) as [-> Hx]. set (xs := map _ l) in *.
  assert (length xs = 8%nat) as Hxn by (by unfold xs; rewrite length_map).
  pose proof (sub_ones_word false xs Hx) as Hs. rewrite Hxn in Hs. change (Z.b2z false) with 0 in Hs. rewrite Z.sub_0_r in Hs.
  change (word_of_bytes (replicate 8 1)) with (repeat_byte 1) in Hs. change (2 ^ (8 * Z.of_nat 8)) with (2 ^ 64) in Hs. unfold u64 at 1. rewrite Hs.
  apply land_high_bits; [by rewrite reported_length|]. intros q Hq.
  rewrite Z.land_spec, u64_lnot_testbit, !word_testbit by (lia || done || apply sub_ones_bytes). by apply reported_sub_ones.
Qed.

(** Every bucket that holds the byte is reported; a reported bucket holds the byte or the byte with its low bit flipped. *)
Lemma reported_complete b c l (q : nat) : l !! q = Some b -> reported b c l !! q = Some true.
Proof. revert c q. induction l as [|x l IH]; intros c [|q]; simpl; [done..| |apply IH]. intros [= ->]. by rewrite Z.eqb_refl. Qed.

Lemma reported_sound b c l (q : nat) : reported b c l !! q = Some true -> l !! q = Some b \/ l !! q = Some (Z.lxor b 1).
Proof.
  revert c q. induction l as [|x l IH]; intros c [|q]; simpl; [done..| |apply IH]. intros [= [->%Z.eqb_eq|[_ ->%Z.eqb_eq]%andb_true_iff]%orb_true_iff]; auto.
Qed.

(** Exactly: at the lowest bucket, or above another, by whether that one is reported. *)
Lemma reported_exact b c l (q : nat) : reported b c l !! q = Some true <->
  l !! q = Some b \/ l !! q = Some (Z.lxor b 1) /\ match q with O => c = true | S q => reported b c l !! q = Some true end.
Proof.
  revert c q. induction l as [|x l IH]; intros c q; [simpl; rewrite lookup_nil; naive_solver|]. destruct q as [|q]; simpl.
  - rewrite !(inj_iff Some), orb_true_iff, andb_true_iff, !Z.eqb_eq. naive_solver.
  - rewrite IH. destruct q as [|q]; simpl; [|done]. by rewrite (inj_iff Some (_ || _)).
Qed.

Lemma h2_range hash : 0 <= hash < 2 ^ 64 -> 0 <= h2 hash < 128.
Proof.
  intros Hh. unfold h2. rewrite Z.shiftr_div_pow2 by lia. assert (0 <= hash / 2 ^ (64 - 7) < 128) as Hq.
  { split; [apply Z.div_pos; lia|]. apply Z.div_lt_upper_bound; lia. }
  by rewrite Z.mod_small by lia.
Qed.

(** ** Probe sequences cover the table *)

(** Triangular numbers, and the [k]-th position of a probe sequence. *)
Definition triangular (k : Z) : Z := k * (k + 1) / 2.
Definition probe_pos (hash cap k : Z) : Z := (hash + 8 * triangular k) mod cap.

Lemma triangular_succ k : triangular (k + 1) = triangular k + (k + 1).
Proof.
  unfold triangular. replace ((k + 1) * (k + 1 + 1)) with (k * (k + 1) + (k + 1) * 2) by lia. rewrite Z_div_plus_full by lia. lia.
Qed.

Lemma triangular_twice k : 2 * triangular k = k * (k + 1).
Proof.
  unfold triangular. assert ((k * (k + 1)) mod 2 = 0) as E.
  { rewrite Zmod_even, Z.even_mul, Z.even_add. by destruct (Z.even k). }
  rewrite (Z.div_mod (k * (k + 1)) 2) at 2 by lia. lia.
Qed.

(** On a power of two, no two of the first [2^m] triangular numbers agree. *)
Lemma triangular_inj m i j : 0 <= m -> 0 <= i < j -> j < 2 ^ m -> triangular i mod 2 ^ m <> triangular j mod 2 ^ m.
Proof.
  intros Hm Hij Hj E. assert (0 < 2 ^ m) by (apply Z.pow_pos_nonneg; lia).
  assert ((2 ^ (m + 1) | (j - i) * (j + i + 1))) as Hd.
  { rewrite Z.pow_add_r by lia. change (2 ^ 1) with 2.
    replace ((j - i) * (j + i + 1)) with ((triangular j - triangular i) * 2) by (pose proof (triangular_twice i); pose proof (triangular_twice j); nia).
    apply Z.mul_divide_mono_r. apply Z.mod_divide; [lia|]. rewrite Zminus_mod, E, Z.sub_diag. apply Z.mod_0_l. lia. }
  assert (Z.odd (j - i) = negb (Z.odd (j + i + 1))) as Hodd.
  { rewrite Z.odd_sub, !Z.odd_add. by destruct (Z.odd i), (Z.odd j). }
  assert (forall a, Z.odd a = true -> rel_prime (2 ^ (m + 1)) a) as Hrp.
  { intros a Ha. apply rel_prime_sym. apply Zpow_facts.rel_prime_Zpower_r; [lia|]. apply rel_prime_sym, prime_rel_prime; [apply prime_2|].
    intros [c Hc]. rewrite Hc, Z.odd_mul, andb_false_r in Ha. done. }
  rewrite Z.pow_add_r in * by lia. destruct (Z.odd (j - i)) eqn:E1.
  - apply Gauss in Hd; [|by apply Hrp]. apply Z.divide_pos_le in Hd; lia.
  - rewrite (Z.mul_comm (j - i)) in Hd. apply Gauss in Hd; [|apply Hrp; by destruct (Z.odd (j + i + 1))]. apply Z.divide_pos_le in Hd; lia.
Qed.

Lemma triangular_surj m g : 0 <= m -> 0 <= g < 2 ^ m -> exists k, 0 <= k < 2 ^ m /\ triangular k mod 2 ^ m = g.
Proof.
  intros Hm Hg. set (l := map (fun k => triangular k mod 2 ^ m) (seqZ 0 (2 ^ m))).
  assert (NoDup l) as Hnd.
  { apply NoDup_alt. intros a b x. unfold l. rewrite !lookup_map. intros Ha Hb. destruct (decide (a = b)) as [|Hne]; [done|exfalso].
    apply fmap_Some in Ha as (i & [-> Hi]%lookup_seqZ & Ei), Hb as (j & [-> Hj]%lookup_seqZ & Ej). rewrite Ei in Ej.
    destruct (decide (a < b)%nat); [|symmetry in Ej]; eapply triangular_inj in Ej; try done; lia. }
  assert (l ≡ₚ seqZ 0 (2 ^ m)) as Hp.
  { apply submseteq_length_Permutation; [|unfold l; by rewrite length_map]. apply NoDup_submseteq; [done|].
    intros x (k & -> & _)%elem_of_map. apply elem_of_seqZ. rewrite Z.add_0_l. apply Z.mod_pos_bound. lia. }
  assert (g ∈ l) as (k & -> & Hk%elem_of_seqZ)%elem_of_map; [|exists k; split; [lia|done]].
  rewrite Hp. apply elem_of_seqZ. lia.
Qed.

Lemma probe_pos_covers hash m b : 0 <= m -> 0 <= b < 8 * 2 ^ m ->
  exists k j, 0 <= k < 2 ^ m /\ 0 <= j < 8 /\ (probe_pos hash (8 * 2 ^ m) k + j) mod (8 * 2 ^ m) = b.
Proof.
  intros Hm Hb. set (cap := 8 * 2 ^ m) in *. set (d := (b - hash) mod cap).
  assert (0 <= d < cap) as Hd by (apply Z.mod_pos_bound; lia).
  destruct (triangular_surj m (d / 8)) as (k & Hk & Ek); [done|split; [apply Z.div_pos; lia|apply Z.div_lt_upper_bound; lia]|].
  exists k, (d mod 8). split_and!; [lia|lia|apply Z.mod_pos_bound; lia|apply Z.mod_pos_bound; lia|].
  unfold probe_pos. rewrite Zplus_mod_idemp_l. replace (8 * triangular k) with (8 * (d / 8) + cap * (triangular k / 2 ^ m)).
  2: { rewrite (Z.div_mod (triangular k) (2 ^ m)) at 2 by lia. rewrite Ek. unfold cap. lia. }
  replace (hash + (8 * (d / 8) + cap * (triangular k / 2 ^ m)) + d mod 8) with (hash + d + triangular k / 2 ^ m * cap)
    by (rewrite (Z.div_mod d 8) at 1 by lia; lia).
  rewrite Z_mod_plus_full. unfold d. rewrite Zplus_mod_idemp_r. replace (hash + (b - hash)) with b by lia. by apply Z.mod_small.
Qed.

(** The probe sequence of the source is at [probe_pos] after [k] steps, with stride [8 * k]. *)
Definition probe_at (hash cap k : Z) : ProbeSeq := {| pos := probe_pos hash cap k; stride := 8 * k |}.

Lemma probe_new_at hash n : 0 <= n -> probe_new hash (2 ^ n - 1) = probe_at hash (2 ^ n) 0.
Proof. intros Hn. unfold probe_new, probe_at, probe_pos, h1. rewrite land_mask by done. by rewrite Z.mul_0_r, Z.add_0_r. Qed.

Lemma move_next_at hash n k : 0 <= n -> 8 * k <= 2 ^ n - 1 ->
  move_next (probe_at hash (2 ^ n) k) (2 ^ n - 1) = Ret (probe_at hash (2 ^ n) (k + 1)).
Proof.
  intros Hn Hk. unfold move_next, probe_at, GROUP_WIDTH. cbn [stride pos]. rewrite (proj2 (Z.leb_le _ _)) by done.
  cbn [mbind outcome_bind rust_assert]. rewrite land_mask by done. do 2 f_equal; [|lia].
  unfold probe_pos. rewrite triangular_succ, Zplus_mod_idemp_l. f_equal. lia.
Qed.

(** ** Sizes *)

Lemma is_power_of_two_pow2 n : 0 <= n -> is_power_of_two (2 ^ n) = true.
Proof.
  intros Hn. unfold is_power_of_two. rewrite (proj2 (Z.ltb_lt _ _)) by lia. rewrite land_mask, Z.mod_same by lia. done.
Qed.

Lemma is_power_of_two_inv z : is_power_of_two z = true -> exists n, 0 <= n /\ z = 2 ^ n.
Proof.
  unfold is_power_of_two. rewrite andb_true_iff, Z.ltb_lt, Z.eqb_eq. intros [Hz E]. exists (Z.log2 z). split; [apply Z.log2_nonneg|].
  destruct (Z.log2_spec z Hz) as [Hlo Hhi]. set (n := Z.log2 z) in *. assert (0 <= n) by apply Z.log2_nonneg.
  destruct (decide (z = 2 ^ n)) as [|Hne]; [done|exfalso].
  assert (Z.testbit z n = true) by (by apply Z.bit_log2). assert (Z.testbit (z - 1) n = true) as Hb.
  { replace n with (Z.log2 (z - 1)); [apply Z.bit_log2; lia|]. apply Z.log2_unique; lia. }
  assert (Z.testbit (Z.land z (z - 1)) n = true) as Hc by (rewrite Z.land_spec; by apply andb_true_iff). by rewrite E, Z.bits_0 in Hc.
Qed.

Lemma next_power_of_two_spec n p : next_power_of_two n = Ret p -> exists e, 0 <= e < 64 /\ p = 2 ^ e /\ n <= p /\ (p = 1 \/ p < 2 * n).
Proof.
  unfold next_power_of_two. destruct (Z.ltb_spec (2 ^ Z.log2_up n) (2 ^ 64)) as [Hlt|]; [|done]. intros [= <-].
  exists (Z.log2_up n). assert (0 <= Z.log2_up n) by apply Z.log2_up_nonneg. split_and!; [done|by apply Z.pow_lt_mono_r_iff in Hlt|done| |].
  - destruct (decide (n <= 1)); [|apply Z.log2_up_spec; lia]. assert (0 < 2 ^ Z.log2_up n) by (apply Z.pow_pos_nonneg; lia). lia.
  - destruct (decide (n <= 1)) as [Hn|Hn]; [left; by rewrite Z.log2_up_eqn0|right]. destruct (Z.log2_up_spec n ltac:(lia)) as [Hlo _]. replace (Z.log2_up n) with (Z.succ (Z.pred (Z.log2_up n))) by lia.
    rewrite Z.pow_succ_r; [lia|]. assert (0 < Z.log2_up n) by (apply Z.log2_up_pos; lia). lia.
Qed.

Lemma next_power_of_two_total n : n <= 2 ^ 63 -> exists p, next_power_of_two n = Ret p.
Proof.
  intros Hn. unfold next_power_of_two. exists (2 ^ Z.log2_up n). rewrite (proj2 (Z.ltb_lt _ _)); [done|].
  apply Z.pow_lt_mono_r; [lia|lia|]. apply Z.log2_up_le_mono in Hn. rewrite Z.log2_up_pow2 in Hn by lia. lia.
Qed.

Lemma pow2_ge_8 e : 0 <= e -> 8 <= 2 ^ e -> 3 <= e.
Proof. intros He H. apply (Z.pow_le_mono_r_iff 2); [lia|done|]. done. Qed.

Lemma pow2_split_8 e : 3 <= e -> 2 ^ e = 8 * 2 ^ (e - 3).
Proof. intros He. change 8 with (2 ^ 3). rewrite <- Z.pow_add_r by lia. f_equal. lia. Qed.

Lemma capacity_for_pow2 e : 3 <= e -> capacity_for (2 ^ e) = 7 * 2 ^ (e - 3).
Proof. intros He. unfold capacity_for. rewrite pow2_split_8, (Z.mul_comm 8), Z.div_mul by lia. lia. Qed.

(** The smallest power of two, of at least one group, that holds [n] elements at 7/8 load. *)
Lemma buckets_for_spec n b : 0 < n -> buckets_for n = Ret b ->
  exists e, 3 <= e < 64 /\ b = 2 ^ e /\ n <= capacity_for b /\ (e = 3 \/ capacity_for (b / 2) < n).
Proof.
  intros Hn. unfold buckets_for, mul_usize. rewrite (proj2 (Z.eqb_neq _ _)) by lia. destruct (Z.ltb_spec (n * 8) (2 ^ 64)) as [Hlt|]; [|done].
  cbn [mbind outcome_bind]. destruct (next_power_of_two _) as [p| |] eqn:Ep; [|done..]. cbn [outcome_bind]. intros [= <-].
  apply next_power_of_two_spec in Ep as (e & He & -> & Hlo & Hhi). unfold MIN_BUCKETS, GROUP_WIDTH. destruct (decide (8 <= 2 ^ e)) as [H8|H8].
  - rewrite Z.max_l by done. apply pow2_ge_8 in H8; [|lia]. exists e. split_and!; [lia|lia|done|rewrite capacity_for_pow2 by done|].
    + rewrite (pow2_split_8 e) in Hlo, Hhi by done. Z.div_mod_to_equations; lia.
    + destruct (decide (e = 3)) as [|Hne]; [by left|right]. replace (2 ^ e) with (2 ^ (e - 1) * 2) in * by
        (rewrite Z.mul_comm, <- Z.pow_succ_r by lia; f_equal; lia).
      rewrite Z.div_mul by done. rewrite capacity_for_pow2 by lia. rewrite (pow2_split_8 (e - 1)) in Hlo, Hhi by lia.
      assert (0 < 2 ^ (e - 1 - 3)) by (apply Z.pow_pos_nonneg; lia). Z.div_mod_to_equations; lia.
  - rewrite Z.max_r by lia. exists 3. split_and!; [lia|lia|done| |by left]. change (capacity_for 8) with 7. Z.div_mod_to_equations; lia.
Qed.

Lemma buckets_for_total n : 0 <= n -> n * 8 < 2 ^ 64 -> exists b, buckets_for n = Ret b.
Proof.
  intros Hn Hlt. unfold buckets_for, mul_usize. destruct (n =? 0); [by eexists|]. rewrite (proj2 (Z.ltb_lt _ _)) by done. cbn [mbind outcome_bind].
  destruct (next_power_of_two_total (n * 8 / 7)) as [p ->]; [|by eexists]. Z.div_mod_to_equations; lia.
Qed.

#[local] Instance Zlt_anti_symm : AntiSymm (=) Z.lt.
Proof. intros x y ? ?. lia. Qed.

Lemma sorted_lists_eq l1 l2 : StronglySorted Z.lt l1 -> StronglySorted Z.lt l2 -> (forall i, i ∈ l1 <-> i ∈ l2) -> l1 = l2.
Proof.
  intros H1 H2 H. apply (StronglySorted_unique Z.lt); [done..|]. apply NoDup_Permutation; [by apply StronglySorted_lt_NoDup..|done].
Qed.

Lemma seqZ_sorted m n : StronglySorted Z.lt (seqZ m n).
Proof.
  destruct (decide (0 <= n)) as [Hn|]; [|by rewrite seqZ_nil by lia; constructor].
  revert m. pattern n. apply natlike_ind; [intros m; by rewrite seqZ_nil; [constructor|]| |done]. clear n Hn. intros n Hn IH m.
  rewrite seqZ_cons, Z.pred_succ by lia. constructor; [apply IH|]. apply Forall_forall. intros i Hi%elem_of_seqZ. lia.
Qed.

(** ** What a table relies on *)

(** C21: On the eight control bytes of any group, each [EMPTY] or a 7-bit tag, the word-parallel scans agree with
    a byte loop: [match_empty] and [match_full] yield exactly the empty and the full buckets, in increasing
    order; [match_byte] yields, in increasing order, every bucket with the tag searched for, never an empty
    one, and besides those only buckets whose tag differs from it in the lowest bit and that stand right above
    a reported bucket. *)
Theorem group_scans_correct (bytes : list Z) (tag : Z) (Hlen : length bytes = 8%nat)
    (Hbytes : Forall (fun b => b = EMPTY \/ 0 <= b < 128) bytes) (Htag : 0 <= tag < 128) :
  let group := word_of_bytes bytes in
  mask_bits (match_empty group) = filter (fun i => bytes !! Z.to_nat i = Some EMPTY) (seqZ 0 8) /\
  mask_bits (match_full group) = filter (fun i => bytes !! Z.to_nat i <> Some EMPTY) (seqZ 0 8) /\
  mask_lowest (match_empty group) = head (mask_bits (match_empty group)) /\
  exists m, match_byte group tag = Ret m /\ StronglySorted Z.lt (mask_bits m) /\
    forall i, i ∈ mask_bits m <-> 0 <= i < 8 /\
      (bytes !! Z.to_nat i = Some tag \/ bytes !! Z.to_nat i = Some (Z.lxor tag 1) /\ i - 1 ∈ mask_bits m).
Proof.
  assert (Forall is_byte bytes) as Hb.
  { eapply Forall_impl; [exact Hbytes|]. intros b [->|?]; unfold is_byte, EMPTY; lia. }
  intros group. unfold group. rewrite match_empty_spec, match_full_spec by done. rewrite mask_lowest_flag_word.
  rewrite !mask_bits_flag_word by (rewrite length_map; lia).
  assert (forall f P `{!forall i, Decision (P i)}, (forall i b, bytes !! Z.to_nat i = Some b -> f b = true <-> P i) ->
    true_idx 0 (map f bytes) = filter P (seqZ 0 8)) as Hscan.
  { intros f P ? Hf. apply sorted_lists_eq; [apply true_idx_sorted|apply StronglySorted_filter, seqZ_sorted|]. intros i.
    rewrite true_idx_elem, list_elem_of_filter, elem_of_seqZ, lookup_map, Z.sub_0_r. destruct (bytes !! Z.to_nat i) as [b|] eqn:E.
    - specialize (Hf i b E). apply lookup_lt_Some in E. cbn [fmap option_fmap option_map]. rewrite (inj_iff Some), Hf, Hlen in *. lia || (split; intros [? ?]; split; (done || lia)).
    - apply lookup_ge_None in E. split; [by intros [? ?]|lia]. }
  split_and!; [| |done|].
  - apply Hscan. intros i b Hi. rewrite Hi. rewrite Forall_forall in Hbytes.
    apply list_elem_of_lookup_2 in Hi. specialize (Hbytes _ Hi). rewrite (inj_iff Some), Z.leb_le. unfold EMPTY in *. lia.
  - apply Hscan. intros i b Hi. rewrite Hi. rewrite Forall_forall in Hbytes.
    apply list_elem_of_lookup_2 in Hi. specialize (Hbytes _ Hi). rewrite (inj_iff Some), Z.ltb_lt. unfold EMPTY in *. lia.
  - eexists. split; [by apply match_byte_spec|]. rewrite mask_bits_flag_word by (rewrite reported_length; lia).
    split; [apply true_idx_sorted|]. intros i. rewrite !true_idx_elem, !Z.sub_0_r. split.
    + intros [Hi Hr]. pose proof (lookup_lt_Some _ _ _ Hr) as Hlt. rewrite reported_length in Hlt. split; [lia|].
      apply reported_exact in Hr as [Hr|[Hr Hp]]; [by left|right]. split; [done|]. destruct (Z.to_nat i) as [|q] eqn:Eq; [done|].
      split; [lia|]. by replace (Z.to_nat (i - 1)) with q by lia.
    + intros [Hi Hr]. split; [lia|]. apply reported_exact. destruct Hr as [Hr|(Hr & Hi1 & Hp)]; [by left|right]. split; [done|].
      destruct (Z.to_nat i) as [|q] eqn:Eq; [lia|]. by replace (Z.to_nat (i - 1)) with q in Hp by lia.
Qed.


Lemma group_scans_correct_witness :
  exists m, match_byte (word_of_bytes [0; 255; 113; 255; 3; 113; 112; 127]) 113 = Ret m /\ mask_bits m = [2; 5; 6].
Proof.
  destruct (group_scans_correct [0; 255; 113; 255; 3; 113; 112; 127] 113) as (_ & _ & _ & m & E & _); [done| |lia|].
  - repeat constructor; unfold EMPTY; lia.
  - exists m. split; [exact E|]. vm_compute in E. injection E as <-. reflexivity.
Defined.

(** The positions of [n] successive groups of a probe sequence. *)
Fixpoint probe_positions (n : nat) (p : ProbeSeq) (bucket_mask : Z) : outcome (list Z) :=
  match n with
  | O => Ret []
  | S n =>
      match n with
      | O => Ret [pos p]
      | _ => p' ← move_next p bucket_mask; ps ← probe_positions n p' bucket_mask; Ret (pos p :: ps)
      end
  end.

(** The buckets of the group at [p]; a group that runs past the end continues at the start. *)
Definition window (cap p : Z) : list Z := map (fun j => (p + j) mod cap) (seqZ 0 8).

Lemma probe_positions_at hash e k (n : nat) : 0 <= e -> 8 * (k + Z.of_nat n - 1) <= 2 ^ e - 1 + 8 ->
  probe_positions n (probe_at hash (2 ^ e) k) (2 ^ e - 1) = Ret (map (probe_pos hash (2 ^ e)) (seqZ k (Z.of_nat n))).
Proof.
  intros He. revert k. induction n as [|n IH]; intros k Hk; [done|]. cbn [probe_positions]. rewrite seqZ_cons by lia.
  replace (Z.pred (Z.of_nat (S n))) with (Z.of_nat n) by lia. destruct n as [|n]; [done|].
  rewrite move_next_at by lia. cbn [mbind outcome_bind]. rewrite IH by lia. done.
Qed.

Lemma length_windows cap ps : length (ps ≫= window cap) = (8 * length ps)%nat.
Proof. induction ps as [|p ps IH]; [done|]. cbn [mbind list_bind]. rewrite length_app, IH. unfold window. rewrite length_map, length_seqZ. simpl. lia. Qed.

(** On a table of [2^e] buckets, at least one group, the probe sequence of any hash passes its assertion for
    as many steps as the table has groups, and the groups it visits meanwhile, from an arbitrary and unaligned
    first position, contain every bucket exactly once. *)
Theorem probe_visits_every_bucket_once (hash e : Z) (He : 3 <= e) :
  exists ps, probe_positions (Z.to_nat (2 ^ (e - 3))) (probe_new hash (2 ^ e - 1)) (2 ^ e - 1) = Ret ps /\
    ps ≫= window (2 ^ e) ≡ₚ seqZ 0 (2 ^ e).
Proof.
  pose proof (pow2_split_8 e He) as E8. assert (0 < 2 ^ (e - 3)) by (apply Z.pow_pos_nonneg; lia).
  eexists. rewrite probe_new_at, probe_positions_at by lia. split; [done|]. rewrite Z2Nat.id by lia. symmetry.
  apply submseteq_length_Permutation; [apply NoDup_submseteq; [apply NoDup_seqZ|]|].
  - intros b Hb%elem_of_seqZ. destruct (probe_pos_covers hash (e - 3) b) as (k & j & Hk & Hj & Eb); [lia..|]. rewrite <- E8 in Eb.
    apply list_elem_of_bind. exists (probe_pos hash (2 ^ e) k). split.
    + apply elem_of_map. exists j. split; [done|]. apply elem_of_seqZ. lia.
    + apply elem_of_map. exists k. split; [done|]. apply elem_of_seqZ. lia.
  - rewrite length_windows, length_map, !length_seqZ. lia.
Qed.

Lemma probe_visits_every_bucket_once_witness :
  exists ps, probe_positions 4 (probe_new 29 31) 31 = Ret ps /\ ps ≫= window 32 ≡ₚ seqZ 0 32.
Proof. apply (probe_visits_every_bucket_once 29 5). lia. Defined.
