(* ===== verification/RawTable.v ===== *)
(** * RawTable: one hash table in two regimes

    src/ctadl-index/src/index_engine/hybrid_set/raw.rs.  A table is a block of memory with its element slots
    and, after them, its metadata, and two numbers.  Up to [SMALL] slots the metadata is one word with a bit
    per slot and the table probes linearly; above, it is a control byte per bucket with a mirror of the first
    group, and the table probes by groups ([Swiss]).  The regime is read off [cap].

    A slot that is not initialised, or that has been moved out of, is [None]; reading one, reading or writing
    outside the block, and a failed [assert!] or [debug_assert!] are [Panic].  So a theorem that an operation
    returns also says that its [unsafe] blocks are used within their contracts.  [len] is at most [cap], and
    [cap] is below [2^32], so the increments of [len] do not overflow.  The element type's size and alignment
    and the allocator are parameters. *)

From S2P Require Import Prelude Bits Swiss.

#[local] Open Scope Z_scope.

(** What the table asks of the element type, and of the allocator: whether a block of a size and an
    alignment can be had. *)
Class Layout (T : Type) := { size_of : Z; align_of : Z; needs_drop : bool }.
#[global] Hint Mode Layout ! : typeclass_instances.
Arguments size_of T {_}.
Arguments align_of T {_}.
Arguments needs_drop T {_}.

Class Allocator := alloc : Z -> Z -> bool.

Class LayoutOk (T : Type) `{Layout T} := {
  align_of_pow2 : exists a, 0 <= a < 63 /\ align_of T = 2 ^ a;
  size_of_aligned : 0 <= size_of T /\ (align_of T | size_of T)
}.

Definition MAX_SMALL_THRESHOLD : Z := 64.
Definition SMALL_SLOTS_MIN : Z := 1.
Definition META_ALIGN : Z := GROUP_WIDTH.

Definition slot_count_for (n small_max : Z) : outcome Z :=
  if (n =? 0) || (small_max =? 0) then Ret 0
  else p ← next_power_of_two n; Ret (Z.min (Z.max p SMALL_SLOTS_MIN) small_max).

Inductive Probed := Found (i : Z) | Vacant (i : Z) | Full.

Definition EMPTY_META : list Z := replicate (Z.to_nat GROUP_WIDTH) 0.

Record RawTable (T : Type) := {
  rt_meta : list Z;             (** the bytes at [ptr] *)
  rt_slots : list (option T);   (** bucket [i] at [ptr - (i + 1) * size_of::<T>()] *)
  rt_cap : Z;
  rt_len : Z
}.
Arguments rt_meta {T} _.
Arguments rt_slots {T} _.
Arguments rt_cap {T} _.
Arguments rt_len {T} _.

Definition with_meta {T} (t : RawTable T) (m : list Z) : RawTable T :=
  {| rt_meta := m; rt_slots := rt_slots t; rt_cap := rt_cap t; rt_len := rt_len t |}.
Definition with_slots {T} (t : RawTable T) (s : list (option T)) : RawTable T :=
  {| rt_meta := rt_meta t; rt_slots := s; rt_cap := rt_cap t; rt_len := rt_len t |}.
Definition with_len {T} (t : RawTable T) (n : Z) : RawTable T :=
  {| rt_meta := rt_meta t; rt_slots := rt_slots t; rt_cap := rt_cap t; rt_len := n |}.

(** The byte store of the metadata. *)
Definition write_byte (meta : list Z) (i byte : Z) : outcome (list Z) :=
  if (0 <=? i) && (i <? Z.of_nat (length meta)) then Ret (<[Z.to_nat i := byte]> meta) else Panic.

Record RawIter := {
  it_bits : Z;
  it_base : Z;
  it_shift : Z;
  it_remaining : Z;
  it_cap : Z
}.

(** [RawIter::next]; [meta] is the memory its pointer reads, as it is at the time of the call. *)
Fixpoint raw_next_loop (fuel : nat) (meta : list Z) (it : RawIter) : outcome (Z * RawIter) :=
  match fuel with
  | O => OutOfFuel
  | S fuel =>
      if negb (it_bits it =? 0) then
        let index := it_base it + Z.shiftr (trailing_zeros (it_bits it)) (it_shift it) in
        Ret (index, {| it_bits := clear_lowest (it_bits it); it_base := it_base it; it_shift := it_shift it;
                       it_remaining := it_remaining it - 1; it_cap := it_cap it |})
      else
        let base := it_base it + GROUP_WIDTH in
        _ ← rust_assert (base <? it_cap it);
        group ← group_load meta base;
        raw_next_loop fuel meta {| it_bits := match_full group; it_base := base; it_shift := it_shift it;
                                   it_remaining := it_remaining it; it_cap := it_cap it |}
  end.

Definition raw_next (meta : list Z) (it : RawIter) : outcome (option (Z * RawIter)) :=
  if it_remaining it =? 0 then Ret None
  else r ← raw_next_loop (S (Z.to_nat (it_cap it))) meta it; Ret (Some r).

(** [for index in indices]: the buckets yielded while the metadata stays as it is. *)
Fixpoint raw_collect (fuel : nat) (meta : list Z) (it : RawIter) : outcome (list Z) :=
  match fuel with
  | O => OutOfFuel
  | S fuel =>
      r ← raw_next meta it;
      match r with
      | None => Ret []
      | Some (index, it) => rest ← raw_collect fuel meta it; Ret (index :: rest)
      end
  end.

Section Table.
Context {T : Type} `{EqDecision T, Layout T, Allocator} (SMALL : Z).

(** ** Sizes and regimes *)

Definition CHECK_SMALL : bool := (SMALL =? 0) || (is_power_of_two SMALL && (SMALL <=? MAX_SMALL_THRESHOLD)).
Definition MIN_LARGE_BUCKETS : Z := if MIN_BUCKETS <? 2 * SMALL then 2 * SMALL else MIN_BUCKETS.

Definition raw_new : RawTable T := {| rt_meta := EMPTY_META; rt_slots := []; rt_cap := 0; rt_len := 0 |}.

Definition cap_for (n : Z) : outcome Z :=
  if SMALL <? n then b ← buckets_for n; Ret (Z.max b MIN_LARGE_BUCKETS) else slot_count_for n SMALL.

Definition is_large (t : RawTable T) : bool := SMALL <? rt_cap t.
Definition mask (t : RawTable T) : Z := u64 (rt_cap t - 1).
Definition capacity (t : RawTable T) : Z := if is_large t then capacity_for (rt_cap t) else rt_cap t.
Definition growth_left (t : RawTable T) : outcome Z :=
  if rt_len t <=? capacity t then Ret (capacity t - rt_len t) else Panic.

(** ** Layout and allocation *)

Definition meta_len (cap : Z) : Z := if SMALL <? cap then ctrl_len cap else 8.

(** [Layout::from_size_align(..)], and the offset of the metadata. *)
Definition layout (cap : Z) : outcome (Z * Z * Z) :=
  _ ← rust_assert ((0 <? cap) && is_power_of_two cap);
  let align := Z.max (align_of T) META_ALIGN in
  elems ← mul_usize (size_of T) cap;
  meta_offset ← mul_usize ((elems + align - 1) / align) align;
  bytes ← add_usize meta_offset (meta_len cap);
  if bytes <=? 2 ^ 63 - align then Ret (bytes, align, meta_offset) else Panic.

Definition heap_bytes (t : RawTable T) : outcome Z :=
  if rt_cap t =? 0 then Ret 0 else '(bytes, _, _) ← layout (rt_cap t); Ret bytes.

Definition allocate (cap : Z) : outcome (RawTable T) :=
  _ ← rust_assert ((0 <? cap) && is_power_of_two cap);
  _ ← rust_assert ((cap <=? SMALL) || (MIN_LARGE_BUCKETS <=? cap));
  _ ← rust_assert (cap <? 2 ^ 32);
  '(bytes, align, _) ← layout cap;
  _ ← rust_assert (alloc bytes align);
  Ret {| rt_meta := if SMALL <? cap then replicate (Z.to_nat (ctrl_len cap)) EMPTY else bytes_of_word 8 0;
         rt_slots := replicate (Z.to_nat cap) None; rt_cap := cap; rt_len := 0 |}.

Definition with_capacity (capacity : Z) : outcome (RawTable T) :=
  cap ← cap_for capacity;
  if cap =? 0 then Ret raw_new else allocate cap.

(** ** Elements and metadata *)

(** [bucket(index)], as an offset into the block: [ptr] is at [meta_offset]. *)
Definition bucket_offset (meta_offset index : Z) : Z := meta_offset - (index + 1) * size_of T.

Definition bucket_read (t : RawTable T) (index : Z) : outcome T :=
  _ ← rust_assert (index <? rt_cap t);
  unwrap (mjoin (rt_slots t !! Z.to_nat index)).

Definition bucket_write (t : RawTable T) (index : Z) (value : T) : outcome (RawTable T) :=
  _ ← rust_assert (index <? rt_cap t);
  Ret (with_slots t (<[Z.to_nat index := Some value]> (rt_slots t))).

(** [bucket(index).read()] of an element that is moved out. *)
Definition bucket_take (t : RawTable T) (index : Z) : outcome (T * RawTable T) :=
  value ← bucket_read t index;
  Ret (value, with_slots t (<[Z.to_nat index := None]> (rt_slots t))).

Definition occupancy (t : RawTable T) : outcome Z :=
  _ ← rust_assert (negb (is_large t));
  group_load (rt_meta t) 0.

Definition set_occupancy (t : RawTable T) (bits : Z) : outcome (RawTable T) :=
  _ ← rust_assert (negb (is_large t) && (0 <? rt_cap t));
  Ret (with_meta t (bytes_of_word 8 bits ++ drop 8 (rt_meta t))).

Definition group_at (t : RawTable T) (p : Z) : outcome Z :=
  _ ← rust_assert (is_large t && (p <=? mask t));
  group_load (rt_meta t) p.

Definition set_ctrl (t : RawTable T) (index byte : Z) : outcome (RawTable T) :=
  _ ← rust_assert (is_large t && (index <? rt_cap t));
  let mirror := Z.land (u64 (index - GROUP_WIDTH)) (mask t) + GROUP_WIDTH in
  m ← write_byte (rt_meta t) index byte;
  m ← write_byte m mirror byte;
  Ret (with_meta t m).

Definition mark_full (t : RawTable T) (index h2 : Z) : outcome (RawTable T) :=
  if is_large t then set_ctrl t index h2
  else bits ← occupancy t; set_occupancy t (Z.lor bits (Z.shiftl 1 index)).

Definition clear_slot (t : RawTable T) (index : Z) : outcome (RawTable T) :=
  t ← (if is_large t then set_ctrl t index EMPTY
       else bits ← occupancy t; set_occupancy t (Z.land bits (u64 (Z.lnot (Z.shiftl 1 index)))));
  if rt_len t =? 0 then Panic else Ret (with_len t (rt_len t - 1)).

Definition meta_byte (t : RawTable T) (index : Z) : outcome Z :=
  if is_large t then unwrap (rt_meta t !! Z.to_nat index) else Ret 0.

(** ** Lookup *)

Fixpoint small_probe_loop (n : nat) (t : RawTable T) (bits i : Z) (eq : T -> bool) : outcome Probed :=
  match n with
  | O => Ret Full
  | S n =>
      if Z.land bits (Z.shiftl 1 i) =? 0 then Ret (Vacant i)
      else
        x ← bucket_read t i;
        if eq x then Ret (Found i) else small_probe_loop n t bits (Z.land (i + 1) (mask t)) eq
  end.

Definition small_probe (t : RawTable T) (hash : Z) (eq : T -> bool) : outcome Probed :=
  _ ← rust_assert (negb (is_large t));
  bits ← occupancy t;
  small_probe_loop (Z.to_nat (rt_cap t)) t bits (Z.land hash (mask t)) eq.

(** [for bit in group.match_byte(h2)]: the first candidate whose element is equal. *)
Fixpoint scan_matches (t : RawTable T) (p : Z) (eq : T -> bool) (bits : list Z) : outcome (option Z) :=
  match bits with
  | [] => Ret None
  | bit :: bits =>
      let index := Z.land (p + bit) (mask t) in
      x ← bucket_read t index;
      if eq x then Ret (Some index) else scan_matches t p eq bits
  end.

Fixpoint large_find_loop (fuel : nat) (t : RawTable T) (tag : Z) (eq : T -> bool) (probe : ProbeSeq) : outcome (option Z) :=
  match fuel with
  | O => OutOfFuel
  | S fuel =>
      group ← group_at t (pos probe);
      m ← match_byte group tag;
      hit ← scan_matches t (pos probe) eq (mask_bits m);
      match hit with
      | Some index => Ret (Some index)
      | None =>
          if mask_any (match_empty group) then Ret None
          else probe ← move_next probe (mask t); large_find_loop fuel t tag eq probe
      end
  end.

(** The loops over groups end after as many steps as there are groups; [cap] bounds them. *)
Definition group_fuel (t : RawTable T) : nat := Z.to_nat (rt_cap t).

Definition large_find_index (t : RawTable T) (hash : Z) (eq : T -> bool) : outcome (option Z) :=
  _ ← rust_assert (is_large t);
  large_find_loop (group_fuel t) t (h2 hash) eq (probe_new hash (mask t)).

Definition find_index (t : RawTable T) (hash : Z) (eq : T -> bool) : outcome (option Z) :=
  if is_large t then large_find_index t hash eq
  else
    r ← small_probe t hash eq;
    match r with Found i => Ret (Some i) | _ => Ret None end.

Definition raw_find (t : RawTable T) (hash : Z) (eq : T -> bool) : outcome (option T) :=
  i ← find_index t hash eq;
  match i with
  | None => Ret None
  | Some index => x ← bucket_read t index; Ret (Some x)
  end.

Fixpoint find_insert_slot_loop (fuel : nat) (t : RawTable T) (probe : ProbeSeq) : outcome Z :=
  match fuel with
  | O => OutOfFuel
  | S fuel =>
      group ← group_at t (pos probe);
      match mask_lowest (match_empty group) with
      | Some bit => Ret (Z.land (pos probe + bit) (mask t))
      | None => probe ← move_next probe (mask t); find_insert_slot_loop fuel t probe
      end
  end.

Definition find_insert_slot (t : RawTable T) (hash : Z) : outcome Z :=
  g ← growth_left t;
  _ ← rust_assert (is_large t && (0 <? g));
  find_insert_slot_loop (group_fuel t) t (probe_new hash (mask t)).

(** ** Iteration *)

Definition raw_iter (t : RawTable T) : outcome RawIter :=
  '(bits, shift) ← (if is_large t then group ← group_load (rt_meta t) 0; Ret (match_full group, SHIFT)
                    else bits ← occupancy t; _ ← rust_assert (rt_len t <=? count_ones bits); Ret (bits, 0));
  Ret {| it_bits := bits; it_base := 0; it_shift := shift; it_remaining := rt_len t; it_cap := rt_cap t |}.

Definition raw_indices (t : RawTable T) : outcome (list Z) :=
  it ← raw_iter t; raw_collect (S (Z.to_nat (rt_len t))) (rt_meta t) it.

Definition raw_elements (t : RawTable T) : outcome (list T) :=
  indices ← raw_indices t; mapM_out (bucket_read t) indices.

(** [free]: the elements dropped, and the table left. *)
Definition raw_free (t : RawTable T) : outcome (list T * RawTable T) :=
  dropped ← (if needs_drop T then raw_elements t else Ret []);
  _ ← (if rt_cap t =? 0 then Ret tt else _ ← layout (rt_cap t); Ret tt);
  Ret (dropped, raw_new).

(** ** Insertion *)

(** [while bits & (1u64 << i) != 0]. *)
Fixpoint small_vacant_loop (fuel : nat) (t : RawTable T) (bits i : Z) : outcome Z :=
  match fuel with
  | O => OutOfFuel
  | S fuel =>
      if Z.land bits (Z.shiftl 1 i) =? 0 then Ret i
      else small_vacant_loop fuel t bits (Z.land (i + 1) (mask t))
  end.

Definition insert_unique_no_grow (t : RawTable T) (hash : Z) (value : T) : outcome (RawTable T) :=
  g ← growth_left t;
  _ ← rust_assert (0 <? g);
  index ← (if is_large t then find_insert_slot t hash
           else bits ← occupancy t; small_vacant_loop (Z.to_nat (rt_cap t)) t bits (Z.land hash (mask t)));
  t ← bucket_write t index value;
  t ← mark_full t index (h2 hash);
  Ret (with_len t (rt_len t + 1)).

(** One turn of the loop of [rebuild]: the old table, and the fresh one. *)
Definition rebuild_move (hash_of : T -> Z) (s : RawTable T * RawTable T) (index : Z) : outcome (RawTable T * RawTable T) :=
  '(value, old) ← bucket_take (fst s) index;
  fresh ← insert_unique_no_grow (snd s) (hash_of value) value;
  Ret (old, fresh).

Definition rebuild (t : RawTable T) (new_cap : Z) (hash_of : T -> Z) : outcome (RawTable T) :=
  _ ← rust_assert (rt_len t <? new_cap);
  fresh ← allocate new_cap;
  indices ← raw_indices t;
  let moved := rt_len t in
  '(old, fresh) ← foldM (rebuild_move hash_of) (with_len t 0, fresh) indices;
  _ ← rust_assert (rt_len fresh =? moved);
  '(_, _) ← raw_free old;
  Ret fresh.

Definition small_insert (t : RawTable T) (hash : Z) (value : T) (hash_of : T -> Z) : outcome (RawTable T * bool) :=
  probed ← small_probe t hash (fun x => bool_decide (x = value));
  match probed with
  | Found _ => Ret (t, false)
  | Vacant i =>
      t ← bucket_write t i value;
      t ← mark_full t i 0;
      Ret (with_len t (rt_len t + 1), true)
  | Full =>
      cap ← cap_for (rt_len t + 1);
      t ← rebuild t cap hash_of;
      t ← insert_unique_no_grow t hash value;
      Ret (t, true)
  end.

(** The loop of [large_insert]: [None] when an equal element is found, or the vacant slot. *)
Fixpoint large_insert_loop (fuel : nat) (t : RawTable T) (tag : Z) (value : T) (probe : ProbeSeq) : outcome (option Z) :=
  match fuel with
  | O => OutOfFuel
  | S fuel =>
      group ← group_at t (pos probe);
      m ← match_byte group tag;
      hit ← scan_matches t (pos probe) (fun x => bool_decide (x = value)) (mask_bits m);
      match hit with
      | Some _ => Ret None
      | None =>
          match mask_lowest (match_empty group) with
          | Some bit => Ret (Some (Z.land (pos probe + bit) (mask t)))
          | None => probe ← move_next probe (mask t); large_insert_loop fuel t tag value probe
          end
      end
  end.

Definition large_insert (t : RawTable T) (hash : Z) (value : T) (hash_of : T -> Z) : outcome (RawTable T * bool) :=
  r ← large_insert_loop (group_fuel t) t (h2 hash) value (probe_new hash (mask t));
  match r with
  | None => Ret (t, false)
  | Some slot =>
      g ← growth_left t;
      '(t, slot) ← (if g =? 0
                    then t ← rebuild t (rt_cap t * 2) hash_of; slot ← find_insert_slot t hash; Ret (t, slot)
                    else Ret (t, slot));
      t ← bucket_write t slot value;
      t ← set_ctrl t slot (h2 hash);
      Ret (with_len t (rt_len t + 1), true)
  end.

Definition raw_insert (t : RawTable T) (hash : Z) (value : T) (hash_of : T -> Z) : outcome (RawTable T * bool) :=
  if is_large t then large_insert t hash value hash_of else small_insert t hash value hash_of.

Definition raw_reserve (t : RawTable T) (additional : Z) (hash_of : T -> Z) : outcome (RawTable T) :=
  want ← add_usize (rt_len t) additional;
  if want <=? capacity t then Ret t
  else cap ← cap_for want; rebuild t cap hash_of.

(** ** Cloning and consuming *)

Definition clone_slot (t fresh : RawTable T) (index : Z) : outcome (RawTable T) :=
  x ← bucket_read t index;
  fresh ← bucket_write fresh index x;
  byte ← meta_byte t index;
  fresh ← mark_full fresh index byte;
  Ret (with_len fresh (rt_len fresh + 1)).

Definition raw_clone (t : RawTable T) : outcome (RawTable T) :=
  if rt_cap t =? 0 then Ret raw_new
  else
    fresh ← allocate (rt_cap t);
    indices ← raw_indices t;
    foldM (clone_slot t) fresh indices.

(** [IntoIter]: the table it owns, and the positions; the positions are read from that table's metadata. *)
Record IntoIter := { ii_table : RawTable T; ii_indices : RawIter }.

Definition raw_into_iter (t : RawTable T) : outcome IntoIter :=
  indices ← raw_iter t; Ret {| ii_table := t; ii_indices := indices |}.

Definition into_iter_next (ii : IntoIter) : outcome (option (T * IntoIter)) :=
  r ← raw_next (rt_meta (ii_table ii)) (ii_indices ii);
  match r with
  | None => Ret None
  | Some (index, indices) =>
      '(value, t) ← bucket_take (ii_table ii) index;
      t ← clear_slot t index;
      Ret (Some (value, {| ii_table := t; ii_indices := indices |}))
  end.

End Table.
