(* ===== verification/TableInv.v ===== *)
(** * TableInv: what the memory of a table means

    The invariant of [RawTable] and the lemmas that read its metadata: the bytes at [ptr] are a function of the
    slots, each access to them is a statement on slots, and each write to them follows a write to a slot. *)

From S2P Require Import Prelude Bits Swiss RawTable.

#[local] Open Scope Z_scope.
Set Default Proof Using "Type".

(** ** Slots and the occupancy word *)

Section Slots.
Context {T : Type}.
#[local] Notation slots_t := (list (option T)).

Definition is_full (o : option T) : bool := match o with Some _ => true | None => false end.
Definition slot_at (s : slots_t) (b : Z) : option T := mjoin (s !! Z.to_nat b).
Definition occ_of (s : slots_t) : Z := word_of_bits (true_idx 0 (map is_full s)).

Lemma occ_of_testbit s i : 0 <= i -> Z.testbit (occ_of s) i = is_full (slot_at s i).
Proof.
  intros Hi. unfold occ_of. rewrite word_of_bits_testbit by (try apply true_idx_sorted; try apply true_idx_lower; lia).
  apply eq_true_iff_eq. rewrite bool_decide_eq_true, true_idx_elem, Z.sub_0_r, lookup_map. unfold slot_at.
  destruct (s !! Z.to_nat i) as [[x|]|]; simpl; naive_solver.
Qed.

Lemma slot_at_ge s i : Z.of_nat (length s) <= i -> slot_at s i = None.
Proof. intros Hi. unfold slot_at. by rewrite lookup_ge_None_2 by lia. Qed.

Lemma slot_at_Some s i x : slot_at s i = Some x <-> s !! Z.to_nat i = Some (Some x).
Proof. unfold slot_at. destruct (s !! Z.to_nat i) as [[y|]|]; simpl; naive_solver. Qed.

Lemma slot_at_lt s i x : 0 <= i -> slot_at s i = Some x -> i < Z.of_nat (length s).
Proof. intros Hi E%slot_at_Some%lookup_lt_Some. lia. Qed.

Lemma occ_of_range s : (length s <= 64)%nat -> 0 <= occ_of s < 2 ^ 64.
Proof. intros Hs. apply bits_bound; [lia|]. intros i Hi. by rewrite occ_of_testbit, slot_at_ge by lia. Qed.

Lemma bucket_insert s i o : 0 <= i < Z.of_nat (length s) -> slot_at (<[Z.to_nat i := o]> s) i = o.
Proof. intros Hi. unfold slot_at. by rewrite list_lookup_insert_eq by lia. Qed.

Lemma bucket_insert_ne s i j o : 0 <= i -> 0 <= j -> i <> j -> slot_at (<[Z.to_nat i := o]> s) j = slot_at s j.
Proof. intros Hi Hj Hne. unfold slot_at. by rewrite list_lookup_insert_ne by lia. Qed.

Lemma occ_of_fill s i x : 0 <= i < Z.of_nat (length s) -> occ_of (<[Z.to_nat i := Some x]> s) = Z.lor (occ_of s) (Z.shiftl 1 i).
Proof.
  intros Hi. apply Z.bits_inj'. intros j Hj. rewrite Z.lor_spec, !occ_of_testbit, Z.shiftl_1_l, Z.pow2_bits_eqb by lia.
  destruct (Z.eqb_spec i j) as [->|Hne]; [by rewrite bucket_insert, orb_true_r|]. by rewrite bucket_insert_ne, orb_false_r by lia.
Qed.

Lemma occ_of_clear s i : 0 <= i < Z.of_nat (length s) -> (length s <= 64)%nat ->
  occ_of (<[Z.to_nat i := None]> s) = Z.land (occ_of s) (u64 (Z.lnot (Z.shiftl 1 i))).
Proof.
  intros Hi Hs. apply Z.bits_inj'. intros j Hj. rewrite Z.land_spec, !occ_of_testbit by lia. destruct (decide (j < 64)).
  - rewrite u64_lnot_testbit, Z.shiftl_1_l, Z.pow2_bits_eqb by lia.
    destruct (Z.eqb_spec i j) as [->|Hne]; [by rewrite bucket_insert, andb_false_r|]. by rewrite bucket_insert_ne, andb_true_r by lia.
  - rewrite !slot_at_ge by (rewrite ?length_insert; lia). done.
Qed.

Lemma occ_of_load s : (length s <= 64)%nat -> group_load (bytes_of_word 8 (occ_of s)) 0 = Ret (occ_of s).
Proof.
  intros Hs. unfold group_load. rewrite bytes_of_word_length. cbn [andb Z.leb]. f_equal. rewrite drop_0.
  rewrite take_ge by (rewrite bytes_of_word_length; done). by apply word_of_bytes_of_word, occ_of_range.
Qed.

Lemma count_ones_occ s : (length s <= 64)%nat -> count_ones (occ_of s) = Z.of_nat (length (true_idx 0 (map is_full s))).
Proof.
  intros Hs. unfold count_ones. do 2 f_equal. apply sorted_lists_eq; [apply StronglySorted_filter, seqZ_sorted|apply true_idx_sorted|].
  intros i. rewrite list_elem_of_filter, elem_of_seqZ, true_idx_elem, Z.sub_0_r. split.
  - intros [Hb Hi]. rewrite occ_of_testbit in Hb by lia. unfold slot_at in Hb. rewrite lookup_map. split; [lia|].
    by destruct (s !! Z.to_nat i) as [[x|]|].
  - intros [Hi Hl]. rewrite occ_of_testbit by lia. pose proof (lookup_lt_Some _ _ _ Hl) as Hlt. rewrite length_map in Hlt. split; [|lia].
    unfold slot_at. rewrite lookup_map in Hl. by destruct (s !! Z.to_nat i) as [[x|]|].
Qed.

End Slots.

(** ** The metadata the slots determine *)

Section Memory.
Context {T : Type} (SMALL : Z) (hash_of : T -> Z).
Hypothesis hash_range : forall x, 0 <= hash_of x < 2 ^ 64.
#[local] Notation slots_t := (list (option T)).

Definition ctrl_of (o : option T) : Z := match o with Some x => h2 (hash_of x) | None => EMPTY end.

Definition meta_of (cap : Z) (s : slots_t) : list Z :=
  if SMALL <? cap then map ctrl_of s ++ take 8 (map ctrl_of s) else bytes_of_word 8 (occ_of s).

Lemma ctrl_of_byte o : is_byte (ctrl_of o).
Proof using hash_range. unfold is_byte. destruct o as [x|]; [pose proof (h2_range _ (hash_range x)); simpl; lia|simpl; unfold EMPTY; lia]. Qed.

Lemma ctrl_of_high o : (128 <=? ctrl_of o) = negb (is_full o).
Proof using hash_range. destruct o as [x|]; [|done]. pose proof (h2_range _ (hash_range x)). simpl. apply Z.leb_gt. lia. Qed.

Lemma ctrl_of_low o : (ctrl_of o <? 128) = is_full o.
Proof using hash_range. rewrite Z.ltb_antisym, ctrl_of_high. by destruct o. Qed.

(** ** Reading a group *)

Lemma window_length cap p : length (window cap p) = 8%nat.
Proof. unfold window. by rewrite length_map, length_seqZ. Qed.

Lemma window_lookup cap p (j : nat) : (j < 8)%nat -> window cap p !! j = Some ((p + Z.of_nat j) mod cap).
Proof. intros Hj. unfold window. rewrite lookup_map, (proj2 (lookup_seqZ 0 8 j (Z.of_nat j))) by lia. done. Qed.

Lemma window_elem cap p b : b ∈ window cap p <-> exists j, 0 <= j < 8 /\ b = (p + j) mod cap.
Proof. unfold window. rewrite elem_of_map. setoid_rewrite elem_of_seqZ. split; intros (j & H1 & H2); exists j; split; (done || lia). Qed.

(** The bytes a group load at [p] reads from a control array with its mirror. *)
Lemma group_load_window (c : list Z) p : 8 <= Z.of_nat (length c) -> 0 <= p < Z.of_nat (length c) ->
  take 8 (drop (Z.to_nat p) (c ++ take 8 c)) = map (fun b => default 0 (c !! Z.to_nat b)) (window (Z.of_nat (length c)) p).
Proof.
  intros Hc Hp. apply list_eq_same_length with 8%nat; [by rewrite length_map, window_length| |].
  - rewrite length_take, length_drop, length_app, length_take. lia.
  - intros j x y Hj. rewrite lookup_take_lt by lia. rewrite lookup_drop, lookup_map, window_lookup by done. intros Hx [= <-].
    destruct (decide (p + Z.of_nat j < Z.of_nat (length c))).
    + rewrite lookup_app_l in Hx by lia. rewrite Z.mod_small by lia. replace (Z.to_nat (p + Z.of_nat j)) with (Z.to_nat p + j)%nat by lia. by rewrite Hx.
    + rewrite lookup_app_r, lookup_take_lt in Hx by lia.
      replace ((p + Z.of_nat j) mod Z.of_nat (length c)) with (p + Z.of_nat j - Z.of_nat (length c)).
      2: { apply Z.mod_unique_pos with 1; lia. }
      replace (Z.to_nat (p + Z.of_nat j - Z.of_nat (length c))) with (Z.to_nat p + j - length c)%nat by lia. by rewrite Hx.
Qed.

Lemma group_load_meta cap s p : SMALL < cap -> 8 <= cap -> Z.of_nat (length s) = cap -> 0 <= p < cap ->
  group_load (meta_of cap s) p = Ret (word_of_bytes (map (fun b => ctrl_of (slot_at s b)) (window cap p))).
Proof.
  intros Hl H8 Hs Hp. unfold meta_of, group_load. rewrite (proj2 (Z.ltb_lt _ _) Hl).
  rewrite length_app, length_take, length_map. rewrite (proj2 (andb_true_iff _ _)) by (rewrite !Z.leb_le; unfold GROUP_WIDTH; lia).
  change (Z.to_nat GROUP_WIDTH) with 8%nat. f_equal. f_equal. rewrite group_load_window by (rewrite length_map; lia).
  rewrite length_map, Hs. apply map_ext_in. intros b (j & Hj & ->)%list_elem_of_In%window_elem.
  assert (0 <= (p + j) mod cap < cap) by (apply Z.mod_pos_bound; lia). rewrite lookup_map. unfold slot_at.
  destruct (lookup_lt_is_Some_2 s (Z.to_nat ((p + j) mod cap))) as [o ->]; [lia|]. done.
Qed.

(** ** Writing a control byte *)

Lemma mirror_index e i : 3 <= e <= 64 -> 0 <= i < 2 ^ e ->
  Z.land (u64 (i - GROUP_WIDTH)) (2 ^ e - 1) + GROUP_WIDTH = (if decide (i < 8) then 2 ^ e + i else i).
Proof.
  intros He Hi. rewrite land_mask by lia. unfold u64, GROUP_WIDTH.
  replace (2 ^ 64) with (2 ^ e * 2 ^ (64 - e)) by (rewrite <- Z.pow_add_r by lia; f_equal; lia).
  rewrite Z.rem_mul_r, (Z.mul_comm (2 ^ e)), Z_mod_plus_full, Z.mod_mod by lia.
  assert (8 <= 2 ^ e) by (change 8 with (2 ^ 3); apply Z.pow_le_mono_r; lia). destruct (decide (i < 8)).
  - replace ((i - 8) mod 2 ^ e) with (2 ^ e + i - 8); [lia|]. apply Z.mod_unique_pos with (-1); lia.
  - rewrite Z.mod_small by lia. lia.
Qed.

Lemma write_byte_Ret l i b : 0 <= i < Z.of_nat (length l) -> write_byte l i b = Ret (<[Z.to_nat i := b]> l).
Proof. intros Hi. unfold write_byte. rewrite (proj2 (Z.leb_le _ _)), (proj2 (Z.ltb_lt _ _)) by lia. done. Qed.

Lemma mirrored_write (c : list Z) (i : nat) b : (8 <= length c)%nat -> (i < length c)%nat ->
  <[(if decide (i < 8)%nat then (length c + i)%nat else i) := b]> (<[i := b]> (c ++ take 8 c)) = <[i := b]> c ++ take 8 (<[i := b]> c).
Proof.
  intros Hc Hi. rewrite (insert_app_l c) by lia. destruct (decide (i < 8)%nat).
  - rewrite insert_app_r_alt by (rewrite length_insert; lia). rewrite length_insert. replace (length c + i - length c)%nat with i by lia.
    by rewrite take_insert_lt by lia.
  - rewrite insert_app_l, list_insert_insert_eq by (rewrite length_insert; lia). by rewrite take_insert_ge by lia.
Qed.

Lemma meta_of_write e s i o : SMALL < 2 ^ e -> 3 <= e <= 64 -> Z.of_nat (length s) = 2 ^ e -> 0 <= i < 2 ^ e ->
  (m ← write_byte (meta_of (2 ^ e) s) i (ctrl_of o);
   write_byte m (Z.land (u64 (i - GROUP_WIDTH)) (2 ^ e - 1) + GROUP_WIDTH) (ctrl_of o)) = Ret (meta_of (2 ^ e) (<[Z.to_nat i := o]> s)).
Proof.
  intros Hl He Hs Hi. assert (8 <= 2 ^ e) by (change 8 with (2 ^ 3); apply Z.pow_le_mono_r; lia).
  unfold meta_of. rewrite (proj2 (Z.ltb_lt _ _) Hl), mirror_index by done. set (c := map ctrl_of s).
  assert (length c = Z.to_nat (2 ^ e)) as Hc by (unfold c; rewrite length_map; lia).
  assert (length (c ++ take 8 c) = (length c + 8)%nat) as Hm by (rewrite length_app, length_take; lia).
  rewrite write_byte_Ret by lia. cbn [mbind outcome_bind].
  rewrite write_byte_Ret by (rewrite length_insert, Hm; destruct (decide (i < 8)); lia).
  f_equal.
  assert (map ctrl_of (<[Z.to_nat i := o]> s) = <[Z.to_nat i := ctrl_of o]> c) as -> by apply (list_fmap_insert ctrl_of). rewrite <- mirrored_write by lia. f_equal.
  destruct (decide (i < 8)), (decide (Z.to_nat i < 8)%nat); lia.
Qed.
End Memory.

Section Invariant.
Context {T : Type} `{EqDecision T, Layout T, Allocator} (SMALL : Z) (hash_of : T -> Z).
Hypothesis small_ok : CHECK_SMALL SMALL = true.
Hypothesis hash_range : forall x, 0 <= hash_of x < 2 ^ 64.
#[local] Notation table := (RawTable T).
#[local] Notation meta_of := (meta_of SMALL hash_of).
#[local] Notation ctrl_of := (ctrl_of hash_of).

Lemma small_cases : SMALL = 0 \/ exists e, 0 <= e <= 6 /\ SMALL = 2 ^ e.
Proof using small_ok.
  unfold CHECK_SMALL in small_ok. rewrite orb_true_iff, andb_true_iff, Z.eqb_eq, Z.leb_le in small_ok.
  destruct small_ok as [?|[(e & He & E)%is_power_of_two_inv Hle]]; [by left|right]. exists e. split; [|done]. split; [done|].
  unfold MAX_SMALL_THRESHOLD in Hle. rewrite E in Hle. change 64 with (2 ^ 6) in Hle. apply Z.pow_le_mono_r_iff in Hle; lia.
Qed.

Lemma small_range : 0 <= SMALL <= 64.
Proof using small_ok.
  destruct small_cases as [->|(e & He & ->)]; [lia|]. split; [lia|]. change 64 with (2 ^ 6). apply Z.pow_le_mono_r; lia.
Qed.

(** The bucket counts a table can have, by regime. *)
Definition small_cap (cap : Z) : Prop := exists e, 0 <= e <= 6 /\ cap = 2 ^ e /\ cap <= SMALL.
Definition large_cap (cap : Z) : Prop := exists e, 3 <= e < 32 /\ cap = 2 ^ e /\ SMALL < cap /\ 2 * SMALL <= cap.
Definition cap_ok (cap : Z) : Prop := cap = 0 \/ small_cap cap \/ large_cap cap.

(** A block of [cap] buckets can be laid out and allocated. *)
Definition fits (cap : Z) : Prop :=
  cap < 2 ^ 32 /\ exists bytes align off, layout (T := T) SMALL cap = Ret (bytes, align, off) /\ alloc bytes align = true.

(** The buckets the [k]-th step of a probe looks at, and the number of steps. *)
Definition visited (cap hash k : Z) : list Z :=
  if SMALL <? cap then window cap (probe_pos hash cap k) else [(hash + k) mod cap].
Definition steps (cap : Z) : Z := if SMALL <? cap then cap / 8 else cap.

(** A probe for [hash] gets to bucket [b]: it meets no empty bucket in an earlier step. *)
Definition probe_reaches (cap : Z) (s : list (option T)) (hash b : Z) : Prop :=
  exists k, 0 <= k < steps cap /\ b ∈ visited cap hash k /\
    forall k' b', 0 <= k' < k -> b' ∈ visited cap hash k' -> slot_at s b' <> None.

Definition table_elements (t : table) : list T := omap id (rt_slots t).

(** The metadata describes the slots [s]. *)
Record mem_ok (t : table) (s : list (option T)) : Prop := {
  mem_cap : cap_ok (rt_cap t);
  mem_slots : Z.of_nat (length s) = rt_cap t;
  mem_meta : rt_meta t = meta_of (rt_cap t) s
}.

Record raw_ok (t : table) : Prop := {
  ok_mem : mem_ok t (rt_slots t);
  ok_layout : rt_cap t <> 0 -> exists l, layout (T := T) SMALL (rt_cap t) = Ret l;
  ok_len : rt_len t = Z.of_nat (length (table_elements t));
  ok_room : SMALL < rt_cap t -> rt_len t <= capacity_for (rt_cap t);
  ok_nodup : NoDup (table_elements t);
  ok_reaches : forall b x, 0 <= b -> slot_at (rt_slots t) b = Some x -> probe_reaches (rt_cap t) (rt_slots t) (hash_of x) b
}.

(** ** Reads *)

Lemma cap_ok_small cap : cap_ok cap -> cap <= SMALL -> cap = 0 \/ small_cap cap.
Proof. intros [?|[?|(e & ? & ? & ? & ?)]] Hs; [by left|by right|lia]. Qed.

Lemma cap_ok_large cap : cap_ok cap -> SMALL < cap -> large_cap cap.
Proof using small_ok. pose proof small_range. intros [?|[(e & ? & ? & ?)|?]] Hs; [lia..|done]. Qed.

Lemma large_cap_8 cap : large_cap cap -> 8 <= cap < 2 ^ 32.
Proof.
  intros (e & He & -> & _). split; [change 8 with (2 ^ 3); apply Z.pow_le_mono_r; lia|]. apply Z.pow_lt_mono_r; lia.
Qed.

Lemma cap_ok_range cap : cap_ok cap -> 0 <= cap < 2 ^ 32.
Proof using small_ok. pose proof small_range. intros [?|[(e & ? & ? & ?)|?%large_cap_8]]; lia. Qed.

Lemma mask_pow2 (t : table) e : 0 <= e <= 64 -> rt_cap t = 2 ^ e -> mask t = 2 ^ e - 1.
Proof.
  intros He E. unfold mask, u64. rewrite E. assert (0 < 2 ^ e <= 2 ^ 64) by (split; [lia|apply Z.pow_le_mono_r; lia]).
  apply Z.mod_small. lia.
Qed.

Lemma land_mask_cap (t : table) a : cap_ok (rt_cap t) -> rt_cap t <> 0 -> Z.land a (mask t) = a mod rt_cap t.
Proof.
  intros [?|[(e & ? & E & _)|(e & ? & E & _)]] Hne; [done|rewrite (mask_pow2 t e), E, land_mask by lia; done..].
Qed.

Lemma is_large_spec (t : table) : is_large SMALL t = bool_decide (SMALL < rt_cap t).
Proof. unfold is_large. apply eq_true_iff_eq. by rewrite Z.ltb_lt, bool_decide_eq_true. Qed.

Lemma occupancy_ok t s : mem_ok t s -> rt_cap t <= SMALL -> occupancy SMALL t = Ret (occ_of s).
Proof using small_ok.
  intros [Hcap Hs Hm] Hle. unfold occupancy. rewrite is_large_spec, bool_decide_false by lia. cbn [negb rust_assert mbind outcome_bind].
  rewrite Hm. unfold TableInv.meta_of. rewrite (proj2 (Z.ltb_ge _ _)) by lia. apply occ_of_load. pose proof small_range. lia.
Qed.

Lemma group_at_ok t s p : mem_ok t s -> SMALL < rt_cap t -> 0 <= p < rt_cap t ->
  group_at SMALL t p = Ret (word_of_bytes (map (fun b => ctrl_of (slot_at s b)) (window (rt_cap t) p))).
Proof using small_ok.
  intros [Hcap Hs Hm] Hl Hp. unfold group_at. pose proof (cap_ok_large _ Hcap Hl) as Hlc.
  assert (p <= mask t) as Hpm. { destruct Hlc as (e & He & E & _). rewrite (mask_pow2 t e) by lia. lia. }
  rewrite is_large_spec, bool_decide_true, (proj2 (Z.leb_le _ _)) by done. cbn [andb rust_assert mbind outcome_bind].
  rewrite Hm. apply group_load_meta; [done|by apply large_cap_8|done|done].
Qed.

Lemma bucket_read_ok (t : table) b x : 0 <= b < rt_cap t -> slot_at (rt_slots t) b = Some x -> bucket_read t b = Ret x.
Proof.
  intros Hb Hx. unfold bucket_read. rewrite (proj2 (Z.ltb_lt _ _)) by lia. cbn [rust_assert mbind outcome_bind].
  unfold slot_at in Hx. by rewrite Hx.
Qed.

(** Every bucket is looked at in some step. *)
Lemma visited_covers cap hash b : cap_ok cap -> 0 <= b < cap -> exists k, 0 <= k < steps cap /\ b ∈ visited cap hash k.
Proof using small_ok.
  intros Hcap Hb. unfold steps, visited. destruct (Z.ltb_spec SMALL cap) as [Hl|Hl].
  - destruct (cap_ok_large _ Hcap Hl) as (e & He & -> & _). rewrite (pow2_split_8 e) in * by lia.
    destruct (probe_pos_covers hash (e - 3) b) as (k & j & Hk & Hj & E); [lia..|]. exists k.
    rewrite (Z.mul_comm 8), Z.div_mul, (Z.mul_comm _ 8) by lia. split; [done|]. apply window_elem. by exists j.
  - exists ((b - hash) mod cap). split; [by apply Z.mod_pos_bound; lia|]. apply list_elem_of_singleton.
    rewrite Zplus_mod_idemp_r. replace (hash + (b - hash)) with b by lia. symmetry. by apply Z.mod_small.
Qed.

Lemma visited_range cap hash k b : 0 < cap -> b ∈ visited cap hash k -> 0 <= b < cap.
Proof.
  intros Hcap. unfold visited. destruct (SMALL <? cap).
  - intros (j & _ & ->)%window_elem. by apply Z.mod_pos_bound.
  - intros ->%list_elem_of_singleton. by apply Z.mod_pos_bound.
Qed.

(** A probe gets to a first step with an empty bucket, when there is one. *)
Lemma first_vacant_step cap (s : list (option T)) hash b : cap_ok cap -> 0 <= b < cap -> slot_at s b = None ->
  exists k, 0 <= k < steps cap /\ (exists b', b' ∈ visited cap hash k /\ slot_at s b' = None) /\
    forall k' b', 0 <= k' < k -> b' ∈ visited cap hash k' -> slot_at s b' <> None.
Proof using small_ok.
  intros Hcap Hb E. destruct (visited_covers cap hash b Hcap Hb) as (k & Hk & Hin).
  set (P k := Exists (fun b => slot_at s b = None) (visited cap hash (Z.of_nat k))).
  assert (P (Z.to_nat k)) as HP by (unfold P; rewrite Z2Nat.id by lia; apply Exists_exists; eauto).
  assert (forall n, P n -> exists m, (m <= n)%nat /\ P m /\ forall j, (j < m)%nat -> ~ P j) as Hleast.
  { induction n as [n IH] using lt_wf_ind. intros Hn. destruct (decide (Exists P (seq 0 n))) as [(j & Hj%elem_of_seq & HPj)%Exists_exists|Hno].
    - destruct (IH j ltac:(lia) HPj) as (m & ? & ? & ?). exists m. split; [lia|done].
    - exists n. split_and!; [done..|]. intros j Hj HPj. apply Hno. apply Exists_exists. exists j. split; [apply elem_of_seq; lia|done]. }
  destruct (Hleast _ HP) as (m & Hm & (b' & ? & ?)%Exists_exists & Hmin). exists (Z.of_nat m). split_and!; [lia|lia|by exists b'|].
  intros k' b'' Hk' Hin' E'. apply (Hmin (Z.to_nat k')); [lia|]. unfold P. rewrite Z2Nat.id by lia. apply Exists_exists. by exists b''.
Qed.

(** ** Writes *)

Lemma set_ctrl_ok t s b o : mem_ok t s -> SMALL < rt_cap t -> 0 <= b < rt_cap t ->
  set_ctrl SMALL t b (ctrl_of o) = Ret (with_meta t (meta_of (rt_cap t) (<[Z.to_nat b := o]> s))).
Proof using small_ok.
  intros [Hcap Hs Hm] Hl Hb. unfold set_ctrl. rewrite is_large_spec, bool_decide_true, (proj2 (Z.ltb_lt _ _)) by lia.
  cbn [andb rust_assert mbind outcome_bind]. destruct (cap_ok_large _ Hcap Hl) as (e & He & E & _).
  rewrite (mask_pow2 t e), Hm, E by lia. pose proof (meta_of_write SMALL hash_of e s b o) as Hw. rewrite E in *.
  specialize (Hw Hl ltac:(lia) Hs Hb). destruct (write_byte (meta_of (2 ^ e) s) b (ctrl_of o)) as [m| |]; [|done..].
  cbn [mbind outcome_bind] in Hw |- *. by rewrite Hw.
Qed.

Lemma set_occupancy_ok t s s' : mem_ok t s -> 0 < rt_cap t <= SMALL ->
  set_occupancy SMALL t (occ_of s') = Ret (with_meta t (meta_of (rt_cap t) s')).
Proof.
  intros [Hcap Hs Hm] Hle. unfold set_occupancy. rewrite is_large_spec, bool_decide_false, (proj2 (Z.ltb_lt _ _)) by lia.
  cbn [negb andb rust_assert mbind outcome_bind]. do 2 f_equal. rewrite Hm. unfold TableInv.meta_of. rewrite (proj2 (Z.ltb_ge _ _)) by lia.
  rewrite drop_ge by (by rewrite bytes_of_word_length). apply app_nil_r.
Qed.

Lemma mark_full_ok t s b x byte : mem_ok t s -> 0 <= b < rt_cap t -> (SMALL < rt_cap t -> byte = h2 (hash_of x)) ->
  mark_full SMALL t b byte = Ret (with_meta t (meta_of (rt_cap t) (<[Z.to_nat b := Some x]> s))).
Proof using small_ok.
  intros Hok Hb Hbyte. unfold mark_full. rewrite is_large_spec. case_bool_decide as Hl.
  - rewrite Hbyte by done. by apply (set_ctrl_ok t s b (Some x)).
  - rewrite (occupancy_ok t s) by (done || lia). cbn [mbind outcome_bind].
    rewrite <- (occ_of_fill s b x) by (rewrite (mem_slots _ _ Hok); lia). apply set_occupancy_ok with s; [done|lia].
Qed.

Lemma clear_slot_ok t s b : mem_ok t s -> 0 <= b < rt_cap t -> 0 < rt_len t ->
  clear_slot SMALL t b = Ret (with_len (with_meta t (meta_of (rt_cap t) (<[Z.to_nat b := None]> s))) (rt_len t - 1)).
Proof using small_ok.
  intros Hok Hb Hlen. unfold clear_slot.
  assert ((if is_large SMALL t then set_ctrl SMALL t b EMPTY
           else bits ← occupancy SMALL t; set_occupancy SMALL t (Z.land bits (u64 (Z.lnot (Z.shiftl 1 b)))))
    = Ret (with_meta t (meta_of (rt_cap t) (<[Z.to_nat b := None]> s)))) as ->.
  { rewrite is_large_spec. case_bool_decide as Hl; [by apply (set_ctrl_ok t s b None)|].
    rewrite (occupancy_ok t s) by (done || lia). cbn [mbind outcome_bind]. pose proof (mem_slots _ _ Hok). pose proof small_range.
    rewrite <- (occ_of_clear s b) by lia. apply set_occupancy_ok with s; [done|lia]. }
  cbn [mbind outcome_bind with_meta rt_len]. by rewrite (proj2 (Z.eqb_neq _ _)) by lia.
Qed.

(** The table after a slot is written, marked and counted. *)
Definition raw_put (t : table) (b : Z) (x : T) : table :=
  let s := <[Z.to_nat b := Some x]> (rt_slots t) in
  {| rt_meta := meta_of (rt_cap t) s; rt_slots := s; rt_cap := rt_cap t; rt_len := rt_len t + 1 |}.

Lemma mem_ok_slots t s s' : mem_ok t s -> mem_ok (with_slots t s') s.
Proof. intros [? ? ?]. by constructor. Qed.

Lemma write_mark_put t b x byte : mem_ok t (rt_slots t) -> 0 <= b < rt_cap t -> (SMALL < rt_cap t -> byte = h2 (hash_of x)) ->
  (t ← bucket_write t b x; t ← mark_full SMALL t b byte; Ret (with_len t (rt_len t + 1))) = Ret (raw_put t b x).
Proof using small_ok.
  intros Hok Hb Hbyte. unfold bucket_write. rewrite (proj2 (Z.ltb_lt _ _)) by lia. cbn [rust_assert mbind outcome_bind].
  rewrite (mark_full_ok _ (rt_slots t) b x) by (by try apply mem_ok_slots). done.
Qed.

Lemma omap_insert_None (s : list (option T)) b x : slot_at s b = None -> 0 <= b < Z.of_nat (length s) ->
  omap id (<[Z.to_nat b := Some x]> s) ≡ₚ x :: omap id s.
Proof.
  intros E Hb. assert (s !! Z.to_nat b = Some None) as El.
  { unfold slot_at in E. destruct (lookup_lt_is_Some_2 s (Z.to_nat b)) as [o Ho]; [lia|]. rewrite Ho in E |- *. by destruct o. }
  rewrite <- (take_drop_middle _ _ _ El) at 2. rewrite insert_take_drop by lia. rewrite !omap_app. simpl. by rewrite Permutation_middle.
Qed.

Lemma omap_take_Some (s : list (option T)) b x : slot_at s b = Some x -> 0 <= b ->
  omap id s ≡ₚ x :: omap id (<[Z.to_nat b := None]> s).
Proof.
  intros El%slot_at_Some Hb. rewrite <- (take_drop_middle _ _ _ El) at 1.
  rewrite insert_take_drop by (by apply lookup_lt_Some in El). rewrite !omap_app. simpl. by rewrite Permutation_middle.
Qed.

Lemma elem_of_slots (s : list (option T)) x : x ∈ omap id s <-> exists b, 0 <= b /\ slot_at s b = Some x.
Proof.
  rewrite list_elem_of_omap. split.
  - intros (o & (i & Hi)%list_elem_of_lookup & E). unfold id in E. subst o. exists (Z.of_nat i). split; [lia|]. apply slot_at_Some. by rewrite Nat2Z.id.
  - intros (b & _ & E%slot_at_Some%list_elem_of_lookup_2). by exists (Some x).
Qed.

Lemma reaches_fill cap (s : list (option T)) hash b i x : 0 <= i -> 0 < cap -> probe_reaches cap s hash b -> probe_reaches cap (<[Z.to_nat i := Some x]> s) hash b.
Proof.
  intros Hi Hcap (k & Hk & Hb & Hf). exists k. split_and!; [lia..|done|]. intros k' b' Hk' Hb' E.
  apply (Hf k' b' Hk' Hb'). destruct (decide (i = b')) as [->|Hne].
  - unfold slot_at in *. destruct (s !! Z.to_nat b') as [o|] eqn:Eo; [|done]. by rewrite list_lookup_insert_eq in E by (by apply lookup_lt_Some in Eo).
  - rewrite bucket_insert_ne in E; [done|lia| |done]. apply visited_range in Hb'; lia.
Qed.

(** A new element goes into the first empty bucket its probe gets to. *)
Lemma raw_put_ok t b x : raw_ok t -> 0 <= b < rt_cap t -> slot_at (rt_slots t) b = None -> probe_reaches (rt_cap t) (rt_slots t) (hash_of x) b ->
  x ∉ table_elements t -> (SMALL < rt_cap t -> rt_len t < capacity_for (rt_cap t)) ->
  raw_ok (raw_put t b x) /\ table_elements (raw_put t b x) ≡ₚ x :: table_elements t.
Proof.
  intros Hok Hb Hv Hr Hx Hroom. pose proof (ok_mem _ Hok) as [Hcap Hs Hm].
  assert (table_elements (raw_put t b x) ≡ₚ x :: table_elements t) as Hp by (apply omap_insert_None; [done|lia]).
  split; [|done]. constructor.
  - constructor; [done|by simpl; rewrite length_insert|done].
  - apply (ok_layout _ Hok).
  - rewrite Hp. simpl. rewrite (ok_len _ Hok). lia.
  - intros Hl. specialize (Hroom Hl). simpl. lia.
  - rewrite Hp. apply NoDup_cons. split; [done|]. apply (ok_nodup _ Hok).
  - cbn [raw_put rt_slots rt_cap]. intros b' y Hb' E. apply reaches_fill; [lia|lia|]. destruct (decide (b = b')) as [->|Hne].
    + rewrite bucket_insert in E by lia. by injection E as <-.
    + rewrite bucket_insert_ne in E by lia. by apply (ok_reaches _ Hok).
Qed.
End Invariant.
