(* ===== verification/TableOps.v ===== *)
(** * TableOps: a table is a set

    The operations of [RawTable] against the invariant of [TableInv]: a lookup finds exactly the elements of
    the table, an insertion adds its element once and keeps the others, growth and promotion keep all of them,
    and iteration yields each once.  The theorems say that the operations return, so no assertion of the source
    fails, no loop runs on, and no uninitialised slot is read; only growth can stop, when the next block does
    not fit. *)

From S2P Require Import Prelude Bits Swiss RawTable TableInv.

#[local] Open Scope Z_scope.
Set Default Proof Using "Type".

Lemma bit_test w i : 0 <= i -> (Z.land w (Z.shiftl 1 i) =? 0) = negb (Z.testbit w i).
Proof.
  intros Hi. rewrite Z.shiftl_1_l, land_pow2 by done. destruct (Z.testbit w i); simpl; [|done]. apply Z.eqb_neq. lia.
Qed.

Section Lookup.
Context {T : Type} `{EqDecision T, Layout T, Allocator} (SMALL : Z) (hash_of : T -> Z).
Hypothesis small_ok : CHECK_SMALL SMALL = true.
Hypothesis hash_range : forall x, 0 <= hash_of x < 2 ^ 64.
#[local] Notation table := (RawTable T).
#[local] Notation raw_ok := (raw_ok SMALL hash_of).
#[local] Notation mem_ok := (mem_ok SMALL hash_of).
#[local] Notation probe_reaches := (probe_reaches SMALL).
#[local] Notation visited := (visited SMALL).
#[local] Notation ctrl_of := (ctrl_of hash_of).

(** ** The buckets of one group *)

Lemma window_bytes s cap p : Forall is_byte (map (fun b => ctrl_of (slot_at s b)) (window cap p)) /\
  length (map (fun b => ctrl_of (slot_at s b)) (window cap p)) = 8%nat.
Proof using hash_range.
  rewrite length_map, window_length. split; [|done]. apply Forall_forall. intros y (b & -> & _)%elem_of_map. by apply ctrl_of_byte.
Qed.

Lemma window_at t p bit : cap_ok SMALL (rt_cap t) -> 0 < rt_cap t -> 0 <= bit < 8 ->
  window (rt_cap t) p !! Z.to_nat bit = Some (Z.land (p + bit) (mask (T := T) t)).
Proof.
  intros Hcap Hpos Hb. rewrite window_lookup by lia. rewrite Z2Nat.id by lia. by rewrite (land_mask_cap SMALL) by (done || lia).
Qed.

(** The empty buckets of a group, from its control bytes. *)
Lemma match_empty_window s cap p :
  match_empty (word_of_bytes (map (fun b => ctrl_of (slot_at s b)) (window cap p))) = flag_word (map (fun b => negb (is_full (slot_at s b))) (window cap p)).
Proof using hash_range.
  destruct (window_bytes s cap p) as [Hb Hl]. rewrite match_empty_spec by done. f_equal. rewrite map_map. apply map_ext. intros b. by apply ctrl_of_high.
Qed.

Lemma match_full_window s cap p :
  match_full (word_of_bytes (map (fun b => ctrl_of (slot_at s b)) (window cap p))) = flag_word (map (fun b => is_full (slot_at s b)) (window cap p)).
Proof using hash_range.
  destruct (window_bytes s cap p) as [Hb Hl]. rewrite match_full_spec by done. f_equal. rewrite map_map. apply map_ext. intros b. by apply ctrl_of_low.
Qed.

Lemma flags_elem {A} (f : A -> bool) l i : i ∈ true_idx 0 (map f l) <-> 0 <= i /\ exists x, l !! Z.to_nat i = Some x /\ f x = true.
Proof.
  rewrite true_idx_elem, Z.sub_0_r, lookup_map. destruct (l !! Z.to_nat i) as [x|]; simpl; split.
  - intros [? [= E]]. eauto.
  - intros (? & y & [= <-] & ->). done.
  - by intros [? ?].
  - by intros (? & y & ? & ?).
Qed.

Lemma lowest_empty s cap p :
  match mask_lowest (flag_word (map (fun b => negb (is_full (slot_at s b))) (window cap p))) with
  | Some bit => 0 <= bit < 8 /\ exists b, window cap p !! Z.to_nat bit = Some b /\ slot_at (T := T) s b = None
  | None => forall b, b ∈ window cap p -> slot_at s b <> None
  end.
Proof.
  rewrite mask_lowest_flag_word. set (f := fun b => negb (is_full (slot_at s b))). destruct (true_idx 0 (map f (window cap p))) as [|bit l] eqn:E; simpl.
  - intros b (i & Hi)%list_elem_of_lookup Hn. assert (Z.of_nat i ∈ true_idx 0 (map f (window cap p))) as Hin; [|rewrite E in Hin; by apply not_elem_of_nil in Hin].
    apply flags_elem. split; [lia|]. exists b. rewrite Nat2Z.id. split; [done|]. unfold f. by rewrite Hn.
  - assert (bit ∈ true_idx 0 (map f (window cap p))) as (H1 & b & Hb & Hf)%flags_elem by (rewrite E; apply list_elem_of_here).
    pose proof (lookup_lt_Some _ _ _ Hb) as Hlt. rewrite window_length in Hlt. split; [lia|]. exists b. split; [done|].
    unfold f in Hf. by destruct (slot_at s b).
Qed.

Lemma any_empty s cap p : mask_any (flag_word (map (fun b => negb (is_full (slot_at s b))) (window cap p))) = false ->
  forall b, b ∈ window cap p -> slot_at (T := T) s b <> None.
Proof.
  pose proof (lowest_empty s cap p) as Hl. unfold mask_any, mask_lowest in *. destruct (Z.eqb _ 0); [done|by simpl].
Qed.

(** The candidates of [match_byte]: full buckets, and among them every one with the tag. *)
Lemma candidates s cap p tag : 0 <= tag < 128 ->
  exists m, match_byte (word_of_bytes (map (fun b => ctrl_of (slot_at s b)) (window cap p))) tag = Ret m /\
    (forall bit, bit ∈ mask_bits m -> 0 <= bit < 8 /\ exists b x, window cap p !! Z.to_nat bit = Some b /\ slot_at s b = Some x) /\
    (forall b x, b ∈ window cap p -> slot_at s b = Some x -> h2 (hash_of x) = tag ->
      exists bit, bit ∈ mask_bits m /\ window cap p !! Z.to_nat bit = Some b).
Proof using hash_range.
  intros Htag. destruct (window_bytes s cap p) as [Hb Hl]. eexists. split; [by apply match_byte_spec|].
  rewrite mask_bits_flag_word by (rewrite reported_length; lia). split.
  - intros bit [H1 Hr]%true_idx_elem. rewrite Z.sub_0_r in Hr. pose proof (lookup_lt_Some _ _ _ Hr) as Hlt. rewrite reported_length, Hl in Hlt.
    split; [lia|]. apply reported_sound in Hr. rewrite lookup_map in Hr. destruct (window cap p !! Z.to_nat bit) as [b|]; [|by destruct Hr].
    exists b. simpl in Hr. destruct (slot_at s b) as [x|]; [by exists x|exfalso].
    assert (Z.lxor tag 1 < 128).
    { apply (bits_bound _ 7); [lia|]. intros i Hi. rewrite Z.lxor_spec, !(bits_above _ 7) by lia. done. }
    simpl in Hr. unfold EMPTY in Hr. destruct Hr as [[= E]|[= E]]; lia.
  - intros b x (i & Hi)%list_elem_of_lookup Hx Ht. exists (Z.of_nat i). rewrite Nat2Z.id. split; [|done]. apply true_idx_elem.
    split; [lia|]. rewrite Z.sub_0_r, Nat2Z.id. apply reported_complete. rewrite lookup_map, Hi. simpl. rewrite Hx. simpl. by rewrite Ht.
Qed.

Lemma scan_matches_spec (t : table) p eq bits : cap_ok SMALL (rt_cap t) -> 0 < rt_cap t ->
  (forall bit, bit ∈ bits -> 0 <= bit < 8 /\ exists b x, window (rt_cap t) p !! Z.to_nat bit = Some b /\ slot_at (rt_slots t) b = Some x) ->
  match scan_matches t p eq bits with
  | Ret (Some b) => exists x, 0 <= b < rt_cap t /\ slot_at (rt_slots t) b = Some x /\ eq x = true
  | Ret None => forall bit b x, bit ∈ bits -> window (rt_cap t) p !! Z.to_nat bit = Some b -> slot_at (rt_slots t) b = Some x -> eq x = false
  | _ => False
  end.
Proof.
  intros Hcap Hpos. induction bits as [|bit bits IH]; intros Hbits; cbn [scan_matches]; [by intros bit b x []%not_elem_of_nil|].
  destruct (Hbits bit ltac:(apply list_elem_of_here)) as (Hr & b & x & Hw & Hx). pose proof (window_at t p bit Hcap Hpos Hr) as Hw'. rewrite Hw in Hw'.
  injection Hw' as <-. assert (0 <= b < rt_cap t) as Hb.
  { apply list_elem_of_lookup_2, window_elem in Hw as (j & _ & ->). by apply Z.mod_pos_bound. }
  rewrite (bucket_read_ok t b x) by done. cbn [mbind outcome_bind]. destruct (eq x) eqn:E; [by exists x|].
  specialize (IH ltac:(intros; by apply Hbits, list_elem_of_further)). destruct (scan_matches t p eq bits) as [[i|]| |]; [done| |done..].
  intros bit' b' x' [->|Hin]%elem_of_cons Hw' Hx'; [|by eapply IH]. rewrite Hw in Hw'. injection Hw' as <-. rewrite Hx in Hx'. by injection Hx' as <-.
Qed.

(** An element its probe would meet at or before a step with an empty bucket is met. *)
Lemma absent_by_probe (t : table) hash K (eq : T -> bool) : raw_ok t ->
  (exists b, b ∈ visited (rt_cap t) hash K /\ slot_at (rt_slots t) b = None) -> 0 <= K ->
  (forall k b x, 0 <= k <= K -> b ∈ visited (rt_cap t) hash k -> slot_at (rt_slots t) b = Some x -> hash_of x = hash -> eq x = false) ->
  forall x, x ∈ table_elements t -> hash_of x = hash -> eq x = false.
Proof.
  intros Hok (b0 & Hb0 & He) HK Htest x (b & Hb & Hx)%elem_of_slots Hh. destruct (ok_reaches _ _ _ Hok b x Hb Hx) as (k & Hk & Hin & Hfull).
  rewrite Hh in Hin, Hfull. apply (Htest k b); [|done..]. split; [lia|]. apply Z.le_ngt. intros Hlt. by apply (Hfull K b0).
Qed.

(** ** The probe loops

    [K] is the first step of the probe with an empty bucket. *)
Record first_vacant (t : table) (hash K : Z) : Prop := {
  fv_step : 0 <= K < steps SMALL (rt_cap t);
  fv_vacant : exists b, b ∈ visited (rt_cap t) hash K /\ slot_at (rt_slots t) b = None;
  fv_full : forall k b, 0 <= k < K -> b ∈ visited (rt_cap t) hash k -> slot_at (rt_slots t) b <> None
}.

Lemma exists_vacant (s : list (option T)) : (length (omap id s) < length s)%nat -> exists b, 0 <= b < Z.of_nat (length s) /\ slot_at s b = None.
Proof.
  intros Hlt. assert (exists i : nat, s !! i = Some None) as [i Hi].
  { induction s as [|[x|] s IH]; simpl in *; [lia| |by exists 0%nat]. apply Nat.succ_lt_mono in Hlt. destruct (IH Hlt) as [i Hi]. by exists (S i). }
  exists (Z.of_nat i). split; [apply lookup_lt_Some in Hi; lia|]. unfold slot_at. by rewrite Nat2Z.id, Hi.
Qed.

Lemma first_vacant_exists t hash : raw_ok t -> rt_len t < rt_cap t -> exists K, first_vacant t hash K.
Proof using small_ok.
  intros Hok Hlt. pose proof (ok_mem _ _ _ Hok) as [Hcap Hs _]. rewrite (ok_len _ _ _ Hok) in Hlt.
  destruct (exists_vacant (rt_slots t)) as (b & Hb & E); [unfold table_elements in Hlt; lia|].
  destruct (first_vacant_step SMALL small_ok (rt_cap t) (rt_slots t) hash b Hcap ltac:(lia) E) as (K & HK & Hv & Hf). by exists K.
Qed.

Lemma large_len t : raw_ok t -> SMALL < rt_cap t -> rt_len t < rt_cap t.
Proof using small_ok.
  intros Hok Hl. pose proof (ok_room _ _ _ Hok Hl) as Hr. pose proof (mem_cap _ _ _ _ (ok_mem _ _ _ Hok)) as Hc.
  destruct (cap_ok_large SMALL small_ok _ Hc Hl) as (e & He & E & _). rewrite E, capacity_for_pow2 in Hr by lia.
  rewrite E, (pow2_split_8 e) by lia. assert (0 < 2 ^ (e - 3)) by (apply Z.pow_pos_nonneg; lia). lia.
Qed.

Lemma visited_large cap hash k : SMALL < cap -> visited cap hash k = window cap (probe_pos hash cap k).
Proof. intros Hl. unfold TableInv.visited. by rewrite (proj2 (Z.ltb_lt _ _) Hl). Qed.

(** What a group step reads. *)
Lemma group_step t hash k : raw_ok t -> SMALL < rt_cap t -> exists g,
  group_at SMALL t (pos (probe_at hash (rt_cap t) k)) = Ret g /\
  g = word_of_bytes (map (fun b => ctrl_of (slot_at (rt_slots t) b)) (window (rt_cap t) (probe_pos hash (rt_cap t) k))).
Proof using small_ok.
  intros Hok Hl. pose proof (mem_cap _ _ _ _ (ok_mem _ _ _ Hok)) as Hc. pose proof (small_range SMALL small_ok).
  eexists. split; [|done]. apply (group_at_ok SMALL hash_of small_ok t (rt_slots t)); [apply (ok_mem _ _ _ Hok)|done|].
  apply Z.mod_pos_bound. lia.
Qed.

Lemma move_next_step t hash k : raw_ok t -> SMALL < rt_cap t -> 0 <= k < steps SMALL (rt_cap t) - 1 ->
  move_next (probe_at hash (rt_cap t) k) (mask t) = Ret (probe_at hash (rt_cap t) (k + 1)).
Proof using small_ok.
  intros Hok Hl Hk. pose proof (mem_cap _ _ _ _ (ok_mem _ _ _ Hok)) as Hc. destruct (cap_ok_large SMALL small_ok _ Hc Hl) as (e & He & E & _).
  unfold steps in Hk. rewrite (proj2 (Z.ltb_lt _ _) Hl) in Hk. rewrite (mask_pow2 t e), E in * by lia.
  apply move_next_at; [lia|]. Z.div_mod_to_equations. lia.
Qed.

Lemma probe_new_step t hash : raw_ok t -> SMALL < rt_cap t -> probe_new hash (mask t) = probe_at hash (rt_cap t) 0.
Proof using small_ok.
  intros Hok Hl. pose proof (mem_cap _ _ _ _ (ok_mem _ _ _ Hok)) as Hc. destruct (cap_ok_large SMALL small_ok _ Hc Hl) as (e & He & E & _).
  rewrite (mask_pow2 t e), E by lia. apply probe_new_at. lia.
Qed.

(** No element that a lookup with this tag and [eq] would accept, in the steps before [k]. *)
Definition rejected (t : table) (hash k : Z) (eq : T -> bool) : Prop :=
  forall k' b x, 0 <= k' < k -> b ∈ visited (rt_cap t) hash k' -> slot_at (rt_slots t) b = Some x -> h2 (hash_of x) = h2 hash -> eq x = false.

Definition accepted (t : table) (b : Z) (eq : T -> bool) : Prop :=
  exists x, 0 <= b < rt_cap t /\ slot_at (rt_slots t) b = Some x /\ eq x = true.

(** The candidates of a group are tested. *)
Lemma scan_step t hash k eq : raw_ok t -> SMALL < rt_cap t -> 0 <= hash < 2 ^ 64 -> rejected t hash k eq -> exists g m,
  group_at SMALL t (pos (probe_at hash (rt_cap t) k)) = Ret g /\ match_byte g (h2 hash) = Ret m /\
  match_empty g = flag_word (map (fun b => negb (is_full (slot_at (rt_slots t) b))) (window (rt_cap t) (probe_pos hash (rt_cap t) k))) /\
  match scan_matches t (pos (probe_at hash (rt_cap t) k)) eq (mask_bits m) with
  | Ret (Some b) => accepted t b eq
  | Ret None => rejected t hash (k + 1) eq
  | _ => False
  end.
Proof using small_ok hash_range.
  intros Hok Hl Hh Hrej. destruct (group_step t hash k Hok Hl) as (g & Eg & ->). pose proof (mem_cap _ _ _ _ (ok_mem _ _ _ Hok)) as Hc.
  pose proof (small_range SMALL small_ok). destruct (candidates (rt_slots t) (rt_cap t) (probe_pos hash (rt_cap t) k) (h2 hash)) as (m & Em & Hm1 & Hm2); [by apply h2_range|].
  eexists _, m. split_and!; [done|done|apply match_empty_window|]. cbn [probe_at pos].
  pose proof (scan_matches_spec t (probe_pos hash (rt_cap t) k) eq (mask_bits m) Hc ltac:(lia) Hm1) as Hs.
  destruct (scan_matches _ _ _ _) as [[b|]| |]; [done| |done..]. intros k' b x Hk' Hb Hx Ht. destruct (decide (k' = k)) as [->|]; [|by apply (Hrej k' b); [lia|..]].
  rewrite visited_large in Hb by done. destruct (Hm2 b x Hb Hx Ht) as (bit & Hbit & Hw). by apply (Hs bit b).
Qed.

Lemma large_find_loop_spec t hash eq K : raw_ok t -> SMALL < rt_cap t -> 0 <= hash < 2 ^ 64 -> first_vacant t hash K ->
  forall fuel k, 0 <= k <= K -> K - k < Z.of_nat fuel -> rejected t hash k eq ->
  match large_find_loop SMALL fuel t (h2 hash) eq (probe_at hash (rt_cap t) k) with
  | Ret (Some b) => accepted t b eq
  | Ret None => rejected t hash (K + 1) eq
  | _ => False
  end.
Proof using small_ok hash_range.
  intros Hok Hl Hh [HK (b0 & Hb0 & He0) Hfull]. induction fuel as [|fuel IH]; intros k Hk Hf Hrej; [lia|]. cbn [large_find_loop].
  destruct (scan_step t hash k eq Hok Hl Hh Hrej) as (g & m & -> & Hm & Hem & Hs). cbn [mbind outcome_bind]. rewrite Hm. cbn [mbind outcome_bind].
  destruct (scan_matches _ _ _ _) as [[b|]| |]; [done| |done..]. cbn [mbind outcome_bind]. rewrite Hem.
  destruct (mask_any _) eqn:Ea.
  - assert (k = K) as ->; [|done]. destruct (decide (k = K)) as [|Hne]; [done|exfalso].
    pose proof (lowest_empty (rt_slots t) (rt_cap t) (probe_pos hash (rt_cap t) k)) as Hlow. unfold mask_any, mask_lowest in *.
    destruct (Z.eqb _ 0); [done|]. destruct Hlow as (_ & b & Hb%list_elem_of_lookup_2 & Hn).
    apply (Hfull k b); [lia|by rewrite visited_large|done].
  - pose proof (any_empty _ _ _ Ea) as Hall. destruct (decide (k = K)) as [->|]; [by rewrite visited_large in Hb0 by done; destruct (Hall b0 Hb0)|].
    rewrite move_next_step by (done || lia). cbn [mbind outcome_bind]. apply IH; [lia|lia|done].
Qed.

Lemma find_insert_slot_loop_spec t hash K : raw_ok t -> SMALL < rt_cap t -> first_vacant t hash K ->
  forall fuel k, 0 <= k <= K -> K - k < Z.of_nat fuel -> exists b,
  find_insert_slot_loop SMALL fuel t (probe_at hash (rt_cap t) k) = Ret b /\ b ∈ visited (rt_cap t) hash K /\ slot_at (rt_slots t) b = None.
Proof using small_ok hash_range.
  intros Hok Hl [HK (b0 & Hb0 & He0) Hfull]. pose proof (mem_cap _ _ _ _ (ok_mem _ _ _ Hok)) as Hc. pose proof (small_range SMALL small_ok).
  induction fuel as [|fuel IH]; intros k Hk Hf; [lia|]. cbn [find_insert_slot_loop].
  destruct (group_step t hash k Hok Hl) as (g & -> & ->). cbn [mbind outcome_bind]. rewrite match_empty_window.
  pose proof (lowest_empty (rt_slots t) (rt_cap t) (probe_pos hash (rt_cap t) k)) as Hlow. destruct (mask_lowest _) as [bit|].
  - destruct Hlow as (Hbit & b & Hb & Hn). pose proof (window_at t (probe_pos hash (rt_cap t) k) bit Hc ltac:(lia) Hbit) as Hw.
    rewrite Hb in Hw. injection Hw as ->. apply list_elem_of_lookup_2 in Hb. eexists. split; [done|]. split; [|done].
    rewrite <- visited_large in Hb by done. destruct (decide (k = K)) as [->|]; [done|]. by destruct (Hfull k _ ltac:(lia) Hb).
  - destruct (decide (k = K)) as [->|]; [by rewrite visited_large in Hb0 by done; destruct (Hlow b0 Hb0)|].
    rewrite move_next_step by (done || lia). cbn [mbind outcome_bind]. apply IH; lia.
Qed.

Lemma large_insert_loop_spec t hash value K : raw_ok t -> SMALL < rt_cap t -> 0 <= hash < 2 ^ 64 -> first_vacant t hash K ->
  let eq := fun x => bool_decide (x = value) in
  forall fuel k, 0 <= k <= K -> K - k < Z.of_nat fuel -> rejected t hash k eq ->
  match large_insert_loop SMALL fuel t (h2 hash) value (probe_at hash (rt_cap t) k) with
  | Ret None => exists b, accepted t b eq
  | Ret (Some b) => rejected t hash (K + 1) eq /\ b ∈ visited (rt_cap t) hash K /\ slot_at (rt_slots t) b = None
  | _ => False
  end.
Proof using small_ok hash_range.
  intros Hok Hl Hh [HK (b0 & Hb0 & He0) Hfull] eq. pose proof (mem_cap _ _ _ _ (ok_mem _ _ _ Hok)) as Hc. pose proof (small_range SMALL small_ok).
  induction fuel as [|fuel IH]; intros k Hk Hf Hrej; [lia|]. cbn [large_insert_loop].
  destruct (scan_step t hash k eq Hok Hl Hh Hrej) as (g & m & -> & Hm & Hem & Hs). cbn [mbind outcome_bind]. rewrite Hm. cbn [mbind outcome_bind]. fold eq.
  destruct (scan_matches _ _ _ _) as [[b|]| |]; [by exists b| |done..]. cbn [mbind outcome_bind]. rewrite Hem.
  pose proof (lowest_empty (rt_slots t) (rt_cap t) (probe_pos hash (rt_cap t) k)) as Hlow. destruct (mask_lowest _) as [bit|].
  - destruct Hlow as (Hbit & b & Hb & Hn). pose proof (window_at t (probe_pos hash (rt_cap t) k) bit Hc ltac:(lia) Hbit) as Hw.
    rewrite Hb in Hw. injection Hw as ->. apply list_elem_of_lookup_2 in Hb. rewrite <- visited_large in Hb by done.
    destruct (decide (k = K)) as [->|]; [done|]. by destruct (Hfull k _ ltac:(lia) Hb).
  - destruct (decide (k = K)) as [->|]; [by rewrite visited_large in Hb0 by done; destruct (Hlow b0 Hb0)|].
    rewrite move_next_step by (done || lia). cbn [mbind outcome_bind]. apply IH; [lia|lia|done].
Qed.

Lemma visited_small cap hash k : cap <= SMALL -> visited cap hash k = [(hash + k) mod cap].
Proof. intros Hl. unfold TableInv.visited. by rewrite (proj2 (Z.ltb_ge _ _) Hl). Qed.

Lemma small_step t hash k : raw_ok t -> 0 < rt_cap t <= SMALL ->
  Z.land ((hash + k) mod rt_cap t + 1) (mask t) = (hash + (k + 1)) mod rt_cap t.
Proof.
  intros Hok Hs. rewrite (land_mask_cap SMALL) by (apply Hok || lia). rewrite Zplus_mod_idemp_l. f_equal. lia.
Qed.

(** What a linear probe reports. *)
Definition probed_ok (t : table) (hash : Z) (eq : T -> bool) (r : Probed) : Prop :=
  match r with
  | Found b => accepted t b eq
  | Vacant b => exists K, first_vacant t hash K /\ b = (hash + K) mod rt_cap t /\
      forall k b x, 0 <= k <= K -> b ∈ visited (rt_cap t) hash k -> slot_at (rt_slots t) b = Some x -> eq x = false
  | Full => forall b, 0 <= b < rt_cap t -> exists x, slot_at (rt_slots t) b = Some x /\ eq x = false
  end.

Lemma small_probe_loop_spec t hash eq : raw_ok t -> 0 < rt_cap t <= SMALL ->
  forall n k, 0 <= k -> k + Z.of_nat n = rt_cap t ->
  (forall k', 0 <= k' < k -> exists x, slot_at (rt_slots t) ((hash + k') mod rt_cap t) = Some x /\ eq x = false) ->
  exists r, small_probe_loop n t (occ_of (rt_slots t)) ((hash + k) mod rt_cap t) eq = Ret r /\ probed_ok t hash eq r.
Proof using small_ok.
  intros Hok Hs. assert (forall k, 0 <= (hash + k) mod rt_cap t < rt_cap t) as Hr by (intros k; apply Z.mod_pos_bound; lia).
  induction n as [|n IH]; intros k Hk Hn Hpre; cbn [small_probe_loop].
  - exists Full. split; [done|]. intros b Hb. pose proof (ok_mem _ _ _ Hok) as [Hcap _ _].
    destruct (visited_covers SMALL small_ok (rt_cap t) hash b Hcap Hb) as (k' & Hk' & Hin). unfold steps in Hk'.
    rewrite (proj2 (Z.ltb_ge _ _)) in Hk' by lia. rewrite visited_small in Hin by lia. apply list_elem_of_singleton in Hin as ->. apply Hpre. lia.
  - specialize (Hr k). rewrite bit_test, occ_of_testbit by lia. destruct (slot_at (rt_slots t) ((hash + k) mod rt_cap t)) as [x|] eqn:Ex; cbn [is_full negb].
    + rewrite (bucket_read_ok t _ x) by done. cbn [mbind outcome_bind]. destruct (eq x) eqn:Eeq.
      * eexists. split; [done|]. by exists x.
      * rewrite small_step by done. apply IH; [lia|lia|]. intros k' Hk'. destruct (decide (k' = k)) as [->|]; [by exists x|]. apply Hpre. lia.
    + eexists. split; [done|]. exists k. split_and!; [constructor|done|].
      * unfold steps. rewrite (proj2 (Z.ltb_ge _ _)) by lia. lia.
      * exists ((hash + k) mod rt_cap t). rewrite visited_small by lia. split; [apply list_elem_of_here|done].
      * intros k' b Hk'. rewrite visited_small by lia. intros ->%list_elem_of_singleton. destruct (Hpre k' Hk') as (x & -> & _). done.
      * intros k' b x Hk'. rewrite visited_small by lia. intros ->%list_elem_of_singleton Hx. destruct (decide (k' = k)) as [->|]; [by rewrite Ex in Hx|].
        destruct (Hpre k' ltac:(lia)) as (y & Hy & ?). rewrite Hx in Hy. by injection Hy as ->.
Qed.

Lemma small_probe_spec t hash eq : raw_ok t -> rt_cap t <= SMALL -> exists r, small_probe SMALL t hash eq = Ret r /\ probed_ok t hash eq r.
Proof using small_ok.
  intros Hok Hs. pose proof (ok_mem _ _ _ Hok) as Hm. unfold small_probe. rewrite is_large_spec, bool_decide_false by lia. cbn [negb rust_assert mbind outcome_bind].
  rewrite (occupancy_ok SMALL hash_of small_ok t (rt_slots t)) by done. cbn [mbind outcome_bind].
  pose proof (cap_ok_range SMALL small_ok _ (mem_cap _ _ _ _ Hm)). destruct (decide (rt_cap t = 0)) as [E|].
  - rewrite E. exists Full. split; [done|]. intros b Hb. lia.
  - destruct (small_probe_loop_spec t hash eq Hok ltac:(lia) (Z.to_nat (rt_cap t)) 0) as (r & Hr & Hp); [lia..|].
    exists r. rewrite (land_mask_cap SMALL) by (apply Hm || done). rewrite Z.add_0_r in Hr. done.
Qed.

Lemma small_vacant_loop_spec t hash K : raw_ok t -> 0 < rt_cap t <= SMALL -> first_vacant t hash K ->
  forall fuel k, 0 <= k <= K -> K - k < Z.of_nat fuel ->
  small_vacant_loop fuel t (occ_of (rt_slots t)) ((hash + k) mod rt_cap t) = Ret ((hash + K) mod rt_cap t).
Proof.
  intros Hok Hs [HK (b & Hb & He) Hfull]. rewrite visited_small in Hb by lia. apply list_elem_of_singleton in Hb as ->.
  assert (forall k, 0 <= (hash + k) mod rt_cap t < rt_cap t) as Hr by (intros k; apply Z.mod_pos_bound; lia).
  induction fuel as [|fuel IH]; intros k Hk Hf; [lia|]. cbn [small_vacant_loop]. specialize (Hr k). rewrite bit_test, occ_of_testbit by lia.
  destruct (decide (k = K)) as [->|]; [by rewrite He|]. destruct (slot_at (rt_slots t) ((hash + k) mod rt_cap t)) as [x|] eqn:Ex; cbn [is_full negb].
  - rewrite small_step by done. apply IH; lia.
  - exfalso. apply (Hfull k ((hash + k) mod rt_cap t)); [lia| |done]. rewrite visited_small by lia. apply list_elem_of_here.
Qed.

(** ** Lookup *)

Lemma accepted_elem t b eq : accepted t b eq -> exists x, x ∈ table_elements t /\ eq x = true.
Proof. intros (x & Hb & Hx & He). exists x. split; [|done]. apply elem_of_slots. exists b. split; [lia|done]. Qed.

Lemma group_fuel_ok t K hash : raw_ok t -> SMALL < rt_cap t -> first_vacant t hash K -> 0 <= K /\ K - 0 < Z.of_nat (group_fuel t).
Proof using small_ok.
  intros Hok Hl [HK _ _]. pose proof (cap_ok_range SMALL small_ok _ (mem_cap _ _ _ _ (ok_mem _ _ _ Hok))) as Hr. unfold steps in HK.
  rewrite (proj2 (Z.ltb_lt _ _) Hl) in HK. unfold group_fuel. split; [lia|]. Z.div_mod_to_equations. lia.
Qed.

Lemma find_index_spec t hash eq : raw_ok t -> 0 <= hash < 2 ^ 64 ->
  match find_index SMALL t hash eq with
  | Ret (Some b) => accepted t b eq
  | Ret None => forall x, x ∈ table_elements t -> hash_of x = hash -> eq x = false
  | _ => False
  end.
Proof using small_ok hash_range.
  intros Hok Hh. unfold find_index. rewrite is_large_spec. case_bool_decide as Hl.
  - unfold large_find_index. rewrite is_large_spec, bool_decide_true by done. cbn [rust_assert mbind outcome_bind].
    destruct (first_vacant_exists t hash Hok (large_len t Hok Hl)) as [K HK]. destruct (group_fuel_ok t K hash Hok Hl HK) as [H1 H2].
    rewrite probe_new_step by done. pose proof (large_find_loop_spec t hash eq K Hok Hl Hh HK _ 0 ltac:(lia) H2) as Hs.
    destruct (large_find_loop _ _ _ _ _ _) as [[b|]| |]; [apply Hs| |apply Hs..]; [intros ????; lia| |intros ????; lia..].
    specialize (Hs ltac:(intros ????; lia)). apply (absent_by_probe t hash K eq Hok (fv_vacant _ _ _ HK) H1).
    intros k b x Hk Hb Hx E. apply (Hs k b); [lia|done|done|by rewrite E].
  - destruct (small_probe_spec t hash eq Hok ltac:(lia)) as (r & -> & Hr). cbn [mbind outcome_bind]. destruct r as [b|b|]; [done|..].
    + destruct Hr as (K & HK & _ & Hs). apply (absent_by_probe t hash K eq Hok (fv_vacant _ _ _ HK)); [apply HK|]. intros. by eapply Hs.
    + intros x (b & Hb & Hx)%elem_of_slots _. pose proof (slot_at_lt _ _ _ Hb Hx) as Hlt. rewrite (mem_slots _ _ _ _ (ok_mem _ _ _ Hok)) in Hlt.
      destruct (Hr b ltac:(lia)) as (y & Hy & ?). rewrite Hx in Hy. by injection Hy as ->.
Qed.
End Lookup.
