(* ===== verification/TableIter.v ===== *)
(** * TableIter: the positions of the full buckets

    [RawIter] of src/ctadl-index/src/index_engine/hybrid_set/raw.rs in both regimes: it yields the full buckets
    in increasing order, each once, and stops; the metadata it reads may meanwhile lose buckets already
    yielded. *)

From S2P Require Import Prelude Bits Swiss RawTable TableInv TableOps.

#[local] Open Scope Z_scope.
Set Default Proof Using "Type".

(** Buckets in increasing order, as the positions of their bits in a control word from bucket [base]. *)
Definition group_bits (base : Z) (l : list Z) : list Z := map (fun i => 8 * (i - base) + 7) l.

Lemma group_bits_sorted base l : StronglySorted Z.lt l -> StronglySorted Z.lt (group_bits base l).
Proof.
  induction 1 as [|p l Hs IH Hp]; simpl; constructor; [done|]. rewrite Forall_forall in Hp |- *.
  intros i (j & -> & Hj)%elem_of_map. specialize (Hp _ Hj). lia.
Qed.

Lemma flag_word_group_bits base l : flag_word l = word_of_bits (group_bits base (true_idx base l)).
Proof.
  rewrite flag_word_bits. f_equal. unfold group_bits. rewrite (true_idx_shift base), map_map. apply map_ext. intros i. lia.
Qed.

Section Iter.
Context {T : Type} `{EqDecision T, Layout T, Allocator} (SMALL : Z) (hash_of : T -> Z).
Hypothesis small_ok : CHECK_SMALL SMALL = true.
Hypothesis hash_range : forall x, 0 <= hash_of x < 2 ^ 64.
#[local] Notation table := (RawTable T).
#[local] Notation meta_of := (meta_of SMALL hash_of).
#[local] Notation mem_ok := (mem_ok SMALL hash_of).

(** The full buckets of a list of slots. *)
Definition full_buckets (s : list (option T)) : list Z := true_idx 0 (map is_full s).

(** The iterator [it] on a table of [cap] slots [s] has still to yield [pend]. *)
Definition it_ok (cap : Z) (s : list (option T)) (it : RawIter) (pend : list Z) : Prop :=
  it_remaining it = Z.of_nat (length pend) /\ it_cap it = cap /\ StronglySorted Z.lt pend /\
  if decide (cap <= SMALL)
  then it_shift it = 0 /\ it_base it = 0 /\ it_bits it = word_of_bits pend /\ Forall (Z.le 0) pend
  else it_shift it = SHIFT /\ 0 <= it_base it < cap /\ (8 | it_base it) /\
    exists cur, it_bits it = word_of_bits (group_bits (it_base it) cur) /\ Forall (fun i => it_base it <= i < it_base it + 8) cur /\
      pend = cur ++ true_idx (it_base it + 8) (map is_full (drop (Z.to_nat (it_base it + 8)) s)).

Lemma window_flags cap (s : list (option T)) p : 0 <= p -> p + 8 <= cap -> Z.of_nat (length s) = cap ->
  map (fun b => is_full (slot_at s b)) (window cap p) = map is_full (take 8 (drop (Z.to_nat p) s)).
Proof.
  intros Hp Hc Hs. apply list_eq_same_length with 8%nat; [by rewrite length_map, length_take, length_drop; lia|by rewrite length_map, window_length|].
  intros j x y Hj. rewrite !lookup_map, window_lookup, lookup_take_lt, lookup_drop, Z.mod_small by lia. simpl. unfold slot_at.
  replace (Z.to_nat (p + Z.of_nat j)) with (Z.to_nat p + j)%nat by lia. destruct (s !! _) as [[z|]|] eqn:E; simpl; [congruence..|].
  apply lookup_ge_None in E. lia.
Qed.

Lemma sorted_head p l : StronglySorted Z.lt (p :: l) -> StronglySorted Z.lt l /\ Forall (Z.lt p) l.
Proof. apply StronglySorted_inv. Qed.

Lemma full_group_load cap s base : SMALL < cap -> 8 <= cap -> Z.of_nat (length s) = cap -> 0 <= base -> base + 8 <= cap ->
  exists g, group_load (meta_of cap s) base = Ret g /\ match_full g = word_of_bits (group_bits base (true_idx base (map is_full (take 8 (drop (Z.to_nat base) s))))).
Proof using hash_range.
  intros Hl H8 Hs Hb Hc. eexists. split; [apply group_load_meta; (done || lia)|]. rewrite match_full_window by done.
  rewrite window_flags by done. apply flag_word_group_bits.
Qed.

Lemma true_idx_split (s : list (option T)) base : 0 <= base ->
  true_idx base (map is_full (drop (Z.to_nat base) s)) =
    true_idx base (map is_full (take 8 (drop (Z.to_nat base) s))) ++ true_idx (base + 8) (map is_full (drop (Z.to_nat (base + 8)) s)).
Proof.
  intros Hb. replace (Z.to_nat (base + 8)) with (Z.to_nat base + 8)%nat by lia. rewrite <- drop_drop.
  rewrite <- (take_drop 8 (drop (Z.to_nat base) s)) at 1. rewrite map_app, true_idx_app.
  destruct (decide (length (drop (Z.to_nat base) s) < 8)%nat) as [Hlt|Hge].
  - by rewrite (drop_ge _ 8) by lia.
  - do 2 f_equal. rewrite length_map, length_take. lia.
Qed.

Lemma true_idx_bound (s : list (option T)) base : 0 <= base ->
  Forall (fun i => base <= i < base + 8) (true_idx base (map is_full (take 8 (drop (Z.to_nat base) s)))).
Proof.
  intros Hb. apply Forall_forall. intros i [Hi Hl]%true_idx_elem. apply lookup_lt_Some in Hl. rewrite length_map, length_take in Hl. lia.
Qed.

(** One step of the loop of [next] with bits to yield. *)
Lemma raw_next_loop_bits cap s it p rest fuel meta : it_ok cap s it (p :: rest) -> it_bits it <> 0 ->
  exists it', raw_next_loop (S fuel) meta it = Ret (p, it') /\ it_ok cap s it' rest.
Proof.
  intros (Hrem & Hcap & Hsort & Hit) Hbits. cbn [raw_next_loop]. rewrite (proj2 (Z.eqb_neq _ _) Hbits). cbn [negb].
  apply sorted_head in Hsort as [Hsort Hlt]. unfold it_ok. destruct (decide (cap <= SMALL)).
  - destruct Hit as (Hsh & Hbase & Hb & Hpos). apply Forall_cons in Hpos as [Hp Hpos].
    destruct (word_of_bits_cons p rest Hp Hlt) as (_ & Htz & Hcl). rewrite Hsh, Hbase, Hb, Htz, Hcl, Z.shiftr_0_r. eexists. split; [done|].
    cbn [it_remaining it_cap it_shift it_base it_bits]. split_and!; [rewrite Hrem; simpl; lia|done..].
  - destruct Hit as (Hsh & Hbase & Hdiv & cur & Hb & Hcur & Hpend). destruct cur as [|c cur]; [done|]. injection Hpend as -> Hrest.
    apply Forall_cons in Hcur as [Hc Hcur]. assert (StronglySorted Z.lt (c :: cur)) as Hs.
    { constructor; [|rewrite Hrest in Hlt; by apply Forall_app in Hlt as [? _]]. rewrite Hrest in Hsort. by apply StronglySorted_app_1_l in Hsort. }
    pose proof (group_bits_sorted (it_base it) _ Hs) as Hgs. apply sorted_head in Hgs as [_ Hglt].
    destruct (word_of_bits_cons (8 * (c - it_base it) + 7) (group_bits (it_base it) cur) ltac:(lia) Hglt) as (_ & Htz & Hcl).
    change (word_of_bits (group_bits (it_base it) (c :: cur))) with (word_of_bits ((8 * (c - it_base it) + 7) :: group_bits (it_base it) cur)) in Hb.
    rewrite Hsh, Hb, Htz, Hcl. replace (it_base it + Z.shiftr (8 * (c - it_base it) + 7) SHIFT) with c.
    2: { unfold SHIFT. rewrite Z.shiftr_div_pow2 by lia. change (2 ^ 3) with 8. Z.div_mod_to_equations. lia. }
    eexists. split; [done|]. cbn [it_remaining it_cap it_shift it_base it_bits]. split_and!; [rewrite Hrem; simpl; lia|done|done|done|lia|lia|done|].
    by exists cur.
Qed.

Lemma raw_next_loop_spec cap s : mem_ok {| rt_meta := meta_of cap s; rt_slots := s; rt_cap := cap; rt_len := 0 |} s -> forall fuel it p rest,
  it_ok cap s it (p :: rest) -> cap - it_base it < 8 * Z.of_nat fuel ->
  exists it', raw_next_loop fuel (meta_of cap s) it = Ret (p, it') /\ it_ok cap s it' rest.
Proof using small_ok hash_range.
  intros [Hcap Hs _]. cbn [rt_cap] in *. induction fuel as [|fuel IH]; intros it p rest Hit Hf.
  - pose proof (cap_ok_range SMALL small_ok _ Hcap). destruct Hit as (_ & _ & _ & Hit). destruct (decide (cap <= SMALL)); [|lia].
    destruct Hit as (_ & Hb & _). lia.
  - destruct (decide (it_bits it = 0)) as [E|]; [|by apply raw_next_loop_bits]. destruct Hit as (Hrem & Hc & Hsort & Hit). cbn [raw_next_loop].
    rewrite E. cbn [Z.eqb negb]. destruct (decide (cap <= SMALL)).
    { destruct Hit as (_ & _ & Hb & Hpos). apply sorted_head in Hsort as [_ Hlt]. apply Forall_cons in Hpos as [Hp _].
      destruct (word_of_bits_cons p rest Hp Hlt) as (Hne & _). by rewrite <- Hb in Hne. }
    assert (SMALL < cap) as Hl by lia. destruct Hit as (Hsh & Hbase & Hdiv & cur & Hb & Hcur & Hpend).
    assert (cur = []) as ->.
    { destruct cur as [|c cur]; [done|exfalso]. apply Forall_cons in Hcur as [Hcb _]. assert (StronglySorted Z.lt (c :: cur)) as Hss.
      { rewrite Hpend in Hsort. by apply StronglySorted_app_1_l in Hsort. }
      pose proof (group_bits_sorted (it_base it) _ Hss) as Hgs. apply sorted_head in Hgs as [_ Hglt].
      destruct (word_of_bits_cons (8 * (c - it_base it) + 7) (group_bits (it_base it) cur) ltac:(lia) Hglt) as (Hne & _).
      apply Hne. rewrite <- E, Hb. done. }
    simpl in Hpend. destruct (cap_ok_large SMALL small_ok cap Hcap Hl) as (e & He & Ee & _).
    assert ((8 | cap)) as Hd8 by (rewrite Ee, pow2_split_8 by lia; by exists (2 ^ (e - 3)); lia).
    assert (it_base it + 8 < cap) as Hlt8.
    { assert (p ∈ true_idx (it_base it + 8) (map is_full (drop (Z.to_nat (it_base it + 8)) s))) as [Hp Hpl]%true_idx_elem
        by (rewrite <- Hpend; apply list_elem_of_here). apply lookup_lt_Some in Hpl. rewrite length_map, length_drop in Hpl. lia. }
    assert (it_base it + 8 + 8 <= cap) as Hle.
    { destruct Hdiv as [a Ha], Hd8 as [d Hd]. lia. }
    unfold GROUP_WIDTH. rewrite Hc, (proj2 (Z.ltb_lt _ _) Hlt8). cbn [rust_assert mbind outcome_bind].
    destruct (full_group_load cap s (it_base it + 8)) as (g & -> & Hg); [lia..|]. cbn [mbind outcome_bind]. rewrite Hg.
    apply IH; [|cbn [it_base]; lia]. unfold it_ok. cbn [it_remaining it_cap it_shift it_base it_bits].
    rewrite decide_False by lia. split_and!; [done|done|done|done|lia|lia|by apply Z.divide_add_r; [|exists 1]|].
    eexists. split_and!; [done|apply true_idx_bound; lia|]. rewrite Hpend. apply true_idx_split. lia.
Qed.

Lemma raw_next_spec cap s it pend : mem_ok {| rt_meta := meta_of cap s; rt_slots := s; rt_cap := cap; rt_len := 0 |} s -> it_ok cap s it pend ->
  match pend with
  | [] => raw_next (meta_of cap s) it = Ret None
  | p :: rest => exists it', raw_next (meta_of cap s) it = Ret (Some (p, it')) /\ it_ok cap s it' rest
  end.
Proof using small_ok hash_range.
  intros Hmem Hit. unfold raw_next. pose proof Hit as (Hrem & Hc & _ & Hb). rewrite Hrem. destruct pend as [|p rest]; [done|].
  rewrite (proj2 (Z.eqb_neq _ _)) by (simpl; lia). pose proof (cap_ok_range SMALL small_ok _ (mem_cap _ _ _ _ Hmem)) as Hr. cbn [rt_cap] in Hr.
  destruct (raw_next_loop_spec cap s Hmem (S (Z.to_nat (it_cap it))) it p rest Hit) as (it' & -> & Hit').
  - rewrite Hc. destruct (decide (cap <= SMALL)); [destruct Hb as (_ & -> & _)|destruct Hb as (_ & ? & _)]; lia.
  - exists it'. done.
Qed.

Lemma raw_collect_spec cap s it pend fuel : mem_ok {| rt_meta := meta_of cap s; rt_slots := s; rt_cap := cap; rt_len := 0 |} s ->
  it_ok cap s it pend -> (length pend < fuel)%nat -> raw_collect fuel (meta_of cap s) it = Ret pend.
Proof using small_ok hash_range.
  intros Hmem. revert it fuel. induction pend as [|p rest IH]; intros it fuel Hit Hf; (destruct fuel as [|fuel]; [simpl in Hf; lia|]); cbn [raw_collect].
  - pose proof (raw_next_spec cap s it [] Hmem Hit) as ->. done.
  - destruct (raw_next_spec cap s it (p :: rest) Hmem Hit) as (it' & -> & Hit'). cbn [mbind outcome_bind].
    rewrite (IH it') by (done || simpl in Hf; lia). done.
Qed.

Lemma mem_ok_forget t s : mem_ok t s -> mem_ok {| rt_meta := meta_of (rt_cap t) s; rt_slots := s; rt_cap := rt_cap t; rt_len := 0 |} s.
Proof. intros [? ? ?]. by constructor. Qed.

Lemma full_buckets_range (s : list (option T)) b : b ∈ full_buckets s -> 0 <= b < Z.of_nat (length s) /\ exists x, slot_at s b = Some x.
Proof.
  intros (Hb & o & Ho & Hf)%flags_elem. pose proof (lookup_lt_Some _ _ _ Ho). split; [lia|]. destruct o as [x|]; [|done]. exists x. by apply slot_at_Some.
Qed.

Lemma omap_full_buckets (s : list (option T)) : omap (slot_at s) (full_buckets s) = omap id s.
Proof.
  assert (forall pre, omap (slot_at (pre ++ s)) (true_idx (Z.of_nat (length pre)) (map is_full s)) = omap id s) as Hgen; [|apply (Hgen [])].
  induction s as [|o s IH]; intros pre; [done|]. specialize (IH (pre ++ [o])). rewrite <- app_assoc, length_app in IH. simpl in IH.
  replace (Z.of_nat (length pre + 1)) with (Z.of_nat (length pre) + 1) in IH by lia. destruct o as [x|]; simpl.
  - assert (slot_at (pre ++ Some x :: s) (Z.of_nat (length pre)) = Some x) as ->.
    { apply slot_at_Some. rewrite Nat2Z.id. by apply list_lookup_middle. }
    f_equal. exact IH.
  - exact IH.
Qed.

Lemma full_buckets_length (s : list (option T)) : length (full_buckets s) = length (omap id s).
Proof.
  rewrite <- omap_full_buckets. assert (Forall (fun b => is_Some (slot_at s b)) (full_buckets s)) as Hall.
  { apply Forall_forall. intros b [_ [x Hx]]%full_buckets_range. by rewrite Hx. }
  induction Hall as [|b l [x Hx] _ IH]; [done|]. simpl. rewrite Hx. simpl. by rewrite IH.
Qed.

Lemma raw_iter_spec t s : mem_ok t s -> 0 <= rt_len t <= Z.of_nat (length (omap id s)) -> exists it,
  raw_iter SMALL t = Ret it /\ it_remaining it = rt_len t /\
  (rt_len t = Z.of_nat (length (omap id s)) -> it_ok (rt_cap t) s it (full_buckets s)).
Proof using small_ok hash_range.
  intros Hmem Hlen. pose proof Hmem as [Hcap Hs Hm]. unfold raw_iter. rewrite is_large_spec. case_bool_decide as Hl.
  - rewrite Hm. pose proof (large_cap_8 SMALL _ (cap_ok_large SMALL small_ok _ Hcap Hl)).
    destruct (full_group_load (rt_cap t) s 0) as (g & -> & Hg); [lia..|]. cbn [mbind outcome_bind]. rewrite Hg. eexists. split_and!; [done|done|].
    intros Hc. unfold it_ok. cbn [it_remaining it_cap it_shift it_base it_bits]. rewrite decide_False by lia.
    split_and!; [by rewrite full_buckets_length|done|apply true_idx_sorted|done|lia|lia|by exists 0|].
    eexists. split_and!; [done|by apply true_idx_bound|]. exact (true_idx_split s 0 ltac:(lia)).
  - rewrite (occupancy_ok SMALL hash_of small_ok t s) by (done || lia). cbn [mbind outcome_bind]. pose proof (small_range SMALL small_ok).
    rewrite count_ones_occ by lia. fold (full_buckets s). rewrite full_buckets_length, (proj2 (Z.leb_le _ _)) by lia.
    cbn [rust_assert mbind outcome_bind]. eexists. split_and!; [done|done|]. intros Hc. unfold it_ok.
    cbn [it_remaining it_cap it_shift it_base it_bits]. rewrite decide_True by lia.
    split_and!; [by rewrite full_buckets_length|done|apply true_idx_sorted|done|done|done|by apply true_idx_lower].
Qed.

Lemma raw_indices_spec t s : mem_ok t s -> rt_len t = Z.of_nat (length (omap id s)) -> raw_indices SMALL t = Ret (full_buckets s).
Proof using small_ok hash_range.
  intros Hmem Hlen. unfold raw_indices. destruct (raw_iter_spec t s Hmem ltac:(lia)) as (it & -> & _ & Hit). cbn [mbind outcome_bind].
  rewrite (mem_meta _ _ _ _ Hmem). apply raw_collect_spec; [by apply mem_ok_forget|by apply Hit|]. rewrite full_buckets_length. lia.
Qed.

(** A table that has given up its elements has none to yield. *)
Lemma raw_indices_disowned t s : mem_ok t s -> rt_len t = 0 -> raw_indices SMALL t = Ret [].
Proof using small_ok hash_range.
  intros Hmem Hlen. unfold raw_indices. destruct (raw_iter_spec t s Hmem ltac:(lia)) as (it & -> & Hr & _). cbn [mbind outcome_bind].
  rewrite Hlen. cbn [Z.to_nat raw_collect]. unfold raw_next. by rewrite Hr, Hlen.
Qed.

Lemma mapM_read (t : table) l : Forall (fun b => 0 <= b < rt_cap t /\ is_Some (slot_at (rt_slots t) b)) l ->
  mapM_out (bucket_read t) l = Ret (omap (slot_at (rt_slots t)) l).
Proof.
  induction 1 as [|b l [Hb [x Hx]] _ IH]; [done|]. cbn [mapM_out]. rewrite (bucket_read_ok t b x), IH by done. simpl. by rewrite Hx.
Qed.

Lemma raw_elements_spec t : mem_ok t (rt_slots t) -> rt_len t = Z.of_nat (length (table_elements t)) -> raw_elements SMALL t = Ret (table_elements t).
Proof using small_ok hash_range.
  intros Hmem Hlen. unfold raw_elements. rewrite (raw_indices_spec t (rt_slots t)) by done. cbn [mbind outcome_bind]. rewrite mapM_read.
  - unfold table_elements. by rewrite omap_full_buckets.
  - apply Forall_forall. intros b [Hb [x Hx]]%full_buckets_range. rewrite (mem_slots _ _ _ _ Hmem) in Hb. by rewrite Hx.
Qed.
End Iter.
