(* ===== verification/TableGrow.v ===== *)
(** * TableGrow: insertion, growth and promotion

    The operations of src/ctadl-index/src/index_engine/hybrid_set/raw.rs that change a table: allocation,
    insertion into a table with room, [rebuild] (which is growth, promotion and reservation), insertion, and
    what they make of the set of elements. *)

From S2P Require Import Prelude Bits Swiss RawTable TableInv TableOps TableIter.

#[local] Open Scope Z_scope.
Set Default Proof Using "Type".

Lemma length_omap_le {A} (l : list (option A)) : (length (omap id l) <= length l)%nat.
Proof. induction l as [|[x|] l IH]; simpl in *; [done|by apply le_n_S|by apply Nat.le_le_succ_r]. Qed.

Section Grow.
Context {T : Type} `{EqDecision T, Layout T, Allocator} (SMALL : Z) (hash_of : T -> Z).
Hypothesis small_ok : CHECK_SMALL SMALL = true.
Hypothesis hash_range : forall x, 0 <= hash_of x < 2 ^ 64.
#[local] Notation table := (RawTable T).
#[local] Notation raw_ok := (raw_ok SMALL hash_of).
#[local] Notation mem_ok := (mem_ok SMALL hash_of).
#[local] Notation probe_reaches := (probe_reaches SMALL).
#[local] Notation visited := (visited SMALL).
#[local] Notation meta_of := (meta_of SMALL hash_of).
#[local] Notation ctrl_of := (ctrl_of hash_of).
#[local] Notation fits := (fits (T := T) SMALL).

(** ** Allocation *)

(** A bucket count that [allocate] accepts. *)
Definition alloc_cap (cap : Z) : Prop := small_cap SMALL cap \/ large_cap SMALL cap \/ (exists e, 32 <= e /\ cap = 2 ^ e /\ SMALL < cap /\ 2 * SMALL <= cap).

(** The empty table of [cap] buckets. *)
Definition fresh_table (cap : Z) : table :=
  {| rt_meta := meta_of cap (replicate (Z.to_nat cap) None); rt_slots := replicate (Z.to_nat cap) None; rt_cap := cap; rt_len := 0 |}.

Lemma slot_at_replicate n b : slot_at (T := T) (replicate n None) b = None.
Proof. unfold slot_at. destruct (replicate n None !! Z.to_nat b) as [o|] eqn:E; [|done]. by apply lookup_replicate in E as [-> _]. Qed.

Lemma omap_replicate n : omap id (replicate n (None (A := T))) = [].
Proof. induction n as [|n IH]; simpl; [done|exact IH]. Qed.

Lemma fresh_meta cap : 0 <= cap ->
  (if SMALL <? cap then replicate (Z.to_nat (ctrl_len cap)) EMPTY else bytes_of_word 8 0) = meta_of cap (replicate (Z.to_nat cap) None) \/ (SMALL < cap < 8).
Proof.
  intros Hc. unfold TableInv.meta_of. destruct (Z.ltb_spec SMALL cap) as [Hl|Hl].
  - destruct (decide (cap < 8)); [by right|left].
    assert (map ctrl_of (replicate (Z.to_nat cap) None) = replicate (Z.to_nat cap) EMPTY) as -> by apply (fmap_replicate ctrl_of).
    rewrite take_replicate, <- replicate_add. f_equal. unfold ctrl_len, GROUP_WIDTH. lia.
  - left. f_equal. unfold occ_of. assert (true_idx 0 (map is_full (replicate (Z.to_nat cap) (None (A := T)))) = []) as Hnil; [|by rewrite Hnil].
    destruct (true_idx _ _) as [|i l] eqn:E; [done|]. assert (i ∈ true_idx 0 (map is_full (replicate (Z.to_nat cap) (None (A := T))))) as (_ & o & Ho & Hf)%flags_elem
      by (rewrite E; apply list_elem_of_here). by apply lookup_replicate in Ho as [-> _].
Qed.

Lemma alloc_cap_ok cap : alloc_cap cap -> cap < 2 ^ 32 -> cap_ok SMALL cap /\ 0 < cap.
Proof.
  intros [Hs|[Hl|(e & He & -> & _)]] Hlt.
  - split; [by right; left|]. destruct Hs as (e & ? & -> & _). lia.
  - split; [by right; right|]. pose proof (large_cap_8 SMALL cap Hl). lia.
  - apply Z.pow_lt_mono_r_iff in Hlt; lia.
Qed.

Lemma fresh_table_ok cap : alloc_cap cap -> fits cap -> raw_ok (fresh_table cap).
Proof using small_ok.
  intros Hc [Hlt (bytes & align & off & Hlay & _)]. destruct (alloc_cap_ok cap Hc Hlt) as [Hok Hpos].
  assert (table_elements (fresh_table cap) = []) as He by apply omap_replicate. constructor.
  - constructor; [done|simpl; rewrite length_replicate; lia|done].
  - intros _. cbn [rt_cap fresh_table]. rewrite Hlay. by eexists.
  - by rewrite He.
  - intros Hl. cbn [rt_len rt_cap fresh_table]. unfold capacity_for. Z.div_mod_to_equations. lia.
  - rewrite He. apply NoDup_nil_2.
  - intros b x Hb E. cbn [rt_slots fresh_table] in E. by rewrite slot_at_replicate in E.
Qed.

Lemma alloc_cap_pow2 cap : alloc_cap cap -> exists e, 0 <= e /\ cap = 2 ^ e /\ (cap <= SMALL \/ MIN_LARGE_BUCKETS SMALL <= cap).
Proof.
  intros [(e & He & E & Hs)|[(e & He & E & Hs)|(e & He & E & Hs)]]; exists e; (split_and!; [lia|done|]); [by left|right..];
    unfold MIN_LARGE_BUCKETS, MIN_BUCKETS, GROUP_WIDTH; destruct (Z.ltb_spec 8 (2 * SMALL)); try lia;
    rewrite E; change 8 with (2 ^ 3); apply Z.pow_le_mono_r; lia.
Qed.

Lemma layout_outcome cap : (exists l, layout (T := T) SMALL cap = Ret l) \/ layout (T := T) SMALL cap = Panic.
Proof.
  unfold layout. destruct (rust_assert _) as [[]| |] eqn:E; cbn [mbind outcome_bind]; [|by right|by destruct (_ && _)].
  unfold mul_usize, add_usize. repeat (case_match; cbn [mbind outcome_bind] in *; simplify_eq); eauto.
Qed.

(** Allocation returns the empty table when the block fits, and stops otherwise. *)
Lemma allocate_spec cap : alloc_cap cap ->
  match allocate (T := T) SMALL cap with
  | Ret t => fits cap /\ t = fresh_table cap
  | Panic => ~ fits cap
  | OutOfFuel => False
  end.
Proof.
  intros Hc. destruct (alloc_cap_pow2 cap Hc) as (e & He & E & Hr). assert (0 < cap) by (rewrite E; lia). unfold allocate.
  assert ((0 <? cap) && is_power_of_two cap = true) as -> by (rewrite E, is_power_of_two_pow2 by done; rewrite andb_true_r; apply Z.ltb_lt; lia). cbn [andb rust_assert mbind outcome_bind].
  rewrite (proj2 (orb_true_iff _ _)) by (rewrite !Z.leb_le; lia). cbn [rust_assert mbind outcome_bind].
  destruct (Z.ltb_spec cap (2 ^ 32)) as [Hlt|Hge]; cbn [rust_assert mbind outcome_bind]; [|intros [? _]; lia].
  destruct (layout_outcome cap) as [[[[bytes align] off] Hl]|Hl]; rewrite Hl; cbn [mbind outcome_bind].
  - destruct (alloc bytes align) eqn:Ea; cbn [rust_assert mbind outcome_bind].
    + split; [split; [done|by exists bytes, align, off]|]. unfold fresh_table. f_equal.
      destruct (fresh_meta cap ltac:(lia)) as [?|Hbad]; [done|]. exfalso. destruct Hc as [(? & ? & ? & ?)|[Hl8%large_cap_8|(e' & He' & E' & _)]]; [lia..|].
      assert (2 ^ 32 <= cap); [|lia]. rewrite E'. apply Z.pow_le_mono_r; lia.
    + intros (_ & b' & a' & o' & Hl' & Ha'). rewrite Hl in Hl'. injection Hl' as <- <- <-. congruence.
  - intros (_ & b' & a' & o' & Hl' & _). congruence.
Qed.

(** ** Insertion into a table with room *)

Lemma capacity_le (t : table) : raw_ok t -> capacity SMALL t <= rt_cap t.
Proof using small_ok.
  intros Hok. unfold capacity. rewrite is_large_spec. case_bool_decide as Hl; [|done]. pose proof (small_range SMALL small_ok).
  unfold capacity_for. Z.div_mod_to_equations. lia.
Qed.

Lemma len_le_capacity (t : table) : raw_ok t -> rt_len t <= capacity SMALL t.
Proof.
  intros Hok. unfold capacity. rewrite is_large_spec. case_bool_decide as Hl; [by apply (ok_room _ _ _ Hok)|].
  rewrite (ok_len _ _ _ Hok), <- (mem_slots _ _ _ _ (ok_mem _ _ _ Hok)). unfold table_elements. pose proof (length_omap_le (rt_slots t)). lia.
Qed.

Lemma growth_left_spec (t : table) : raw_ok t -> growth_left SMALL t = Ret (capacity SMALL t - rt_len t).
Proof. intros Hok. unfold growth_left. by rewrite (proj2 (Z.leb_le _ _) (len_le_capacity t Hok)). Qed.

Lemma vacant_reaches (t : table) hash K b : first_vacant SMALL t hash K -> b ∈ visited (rt_cap t) hash K -> probe_reaches (rt_cap t) (rt_slots t) hash b.
Proof. intros [HK _ Hf] Hb. by exists K. Qed.

Lemma find_insert_slot_spec t hash K : raw_ok t -> SMALL < rt_cap t -> rt_len t < capacity SMALL t -> first_vacant SMALL t hash K -> exists b,
  find_insert_slot SMALL t hash = Ret b /\ b ∈ visited (rt_cap t) hash K /\ slot_at (rt_slots t) b = None.
Proof using small_ok hash_range.
  intros Hok Hl Hroom HK. unfold find_insert_slot. rewrite growth_left_spec by done. cbn [mbind outcome_bind].
  rewrite is_large_spec, bool_decide_true, (proj2 (Z.ltb_lt _ _)) by lia. cbn [andb rust_assert mbind outcome_bind].
  rewrite (probe_new_step SMALL hash_of small_ok) by done. destruct (group_fuel_ok SMALL hash_of small_ok t K _ Hok Hl HK).
  apply (find_insert_slot_loop_spec SMALL hash_of small_ok hash_range t hash K Hok Hl HK); lia.
Qed.

Lemma insert_unique_no_grow_spec t x : raw_ok t -> x ∉ table_elements t -> rt_len t < capacity SMALL t -> exists t',
  insert_unique_no_grow SMALL t (hash_of x) x = Ret t' /\ raw_ok t' /\ table_elements t' ≡ₚ x :: table_elements t /\ rt_cap t' = rt_cap t.
Proof using small_ok hash_range.
  intros Hok Hx Hroom. pose proof (ok_mem _ _ _ Hok) as Hmem. pose proof (capacity_le t Hok).
  assert (0 < rt_cap t) as Hpos. { pose proof (ok_len _ _ _ Hok). lia. }
  destruct (first_vacant_exists SMALL hash_of small_ok t (hash_of x) Hok ltac:(lia)) as [K HK]. pose proof (fv_step _ _ _ _ HK) as HK0.
  assert (exists b, (if is_large SMALL t then find_insert_slot SMALL t (hash_of x)
      else bits ← occupancy SMALL t; small_vacant_loop (Z.to_nat (rt_cap t)) t bits (Z.land (hash_of x) (mask t))) = Ret b /\
    b ∈ visited (rt_cap t) (hash_of x) K /\ slot_at (rt_slots t) b = None) as (b & Eb & Hb & Hv).
  { rewrite is_large_spec. case_bool_decide as Hl.
    - by apply find_insert_slot_spec.
    - rewrite (occupancy_ok SMALL hash_of small_ok t (rt_slots t)) by (done || lia). cbn [mbind outcome_bind].
      rewrite (land_mask_cap SMALL) by (apply Hmem || lia). unfold steps in HK0. rewrite (proj2 (Z.ltb_ge _ _)) in HK0 by lia.
      exists ((hash_of x + K) mod rt_cap t). rewrite <- (Z.add_0_r (hash_of x)) at 1.
      rewrite (small_vacant_loop_spec SMALL hash_of t (hash_of x) K) by (done || lia). split; [done|]. rewrite visited_small by lia.
      split; [apply list_elem_of_here|]. destruct (fv_vacant _ _ _ _ HK) as (b' & Hb' & Hn). rewrite visited_small in Hb' by lia.
      by apply list_elem_of_singleton in Hb' as ->. }
  unfold insert_unique_no_grow. rewrite growth_left_spec by done. cbn [mbind outcome_bind]. rewrite (proj2 (Z.ltb_lt _ _)) by lia.
  cbn [rust_assert mbind outcome_bind]. rewrite Eb. cbn [mbind outcome_bind]. apply visited_range in Hb as Hb'; [|done].
  exists (raw_put SMALL hash_of t b x). split; [by apply (write_mark_put SMALL hash_of small_ok)|].
  destruct (raw_put_ok SMALL hash_of t b x Hok Hb' Hv (vacant_reaches t _ K b HK Hb) Hx) as [? ?]; [|done].
  intros Hl. unfold capacity in Hroom. by rewrite is_large_spec, bool_decide_true in Hroom by done.
Qed.

(** ** Rebuilding *)

Lemma rebuild_fold s0 l : forall (old fresh : table), NoDup l ->
  (forall b, b ∈ l -> 0 <= b < rt_cap old /\ slot_at (rt_slots old) b = slot_at s0 b /\ is_Some (slot_at s0 b)) ->
  raw_ok fresh -> NoDup (table_elements fresh ++ omap (slot_at s0) l) -> rt_len fresh + Z.of_nat (length l) <= capacity SMALL fresh ->
  exists s' fresh', foldM (rebuild_move SMALL hash_of) (old, fresh) l = Ret (with_slots old s', fresh') /\
    raw_ok fresh' /\ table_elements fresh' ≡ₚ table_elements fresh ++ omap (slot_at s0) l /\ rt_cap fresh' = rt_cap fresh.
Proof using small_ok hash_range.
  induction l as [|b l IH]; intros old fresh Hnd Hl Hok Hnodup Hroom.
  - exists (rt_slots old), fresh. rewrite app_nil_r. by destruct old.
  - apply NoDup_cons in Hnd as [Hb Hnd]. destruct (Hl b (list_elem_of_here _ _)) as (Hbr & Hbs & [x Hx]). rewrite Hx in Hbs.
    cbn [foldM]. unfold rebuild_move at 1. cbn [fst snd].
    unfold bucket_take. rewrite (bucket_read_ok old b x) by done. cbn [mbind outcome_bind].
    assert (omap (slot_at s0) (b :: l) = x :: omap (slot_at s0) l) as Eo by (simpl; by rewrite Hx).
    assert (NoDup (table_elements fresh ++ x :: omap (slot_at s0) l)) as Hnd' by (by rewrite <- Eo).
    destruct (insert_unique_no_grow_spec fresh x Hok) as (fresh1 & -> & Hok1 & Hp1 & Hc1).
    { apply NoDup_app in Hnd' as (_ & Hd & _). intros Hin. apply (Hd x Hin), list_elem_of_here. }
    { simpl in Hroom. lia. }
    cbn [mbind outcome_bind]. destruct (IH (with_slots old (<[Z.to_nat b := None]> (rt_slots old))) fresh1 Hnd) as (s' & fresh' & Ef & Hok' & Hp' & Hc').
    + intros b' Hb'. destruct (Hl b' (list_elem_of_further _ _ _ Hb')) as (Hbr' & Hbs' & Hs'). cbn [rt_cap rt_slots with_slots]. split_and!; [lia|lia| |done].
       rewrite bucket_insert_ne by (lia || by intros ->). done.
    + done.
    + rewrite Hp1. cbn [app]. by rewrite Permutation_middle.
    + rewrite (ok_len _ _ _ Hok1), Hp1. rewrite (ok_len _ _ _ Hok) in Hroom. unfold capacity, is_large in *. rewrite Hc1. simpl in *. lia.
    + exists s', fresh'. rewrite Ef. split_and!; [done|done| |congruence]. rewrite Hp', Hp1, Eo. cbn [app]. by rewrite Permutation_middle.
Qed.

Lemma raw_free_disowned t s : mem_ok t s -> rt_len t = 0 -> (rt_cap t <> 0 -> exists l, layout (T := T) SMALL (rt_cap t) = Ret l) ->
  raw_free SMALL t = Ret ([], raw_new).
Proof using small_ok hash_range.
  intros Hmem Hlen Hlay. unfold raw_free.
  assert ((if needs_drop T then raw_elements SMALL t else Ret []) = Ret []) as ->.
  { destruct (needs_drop T); [|done]. unfold raw_elements. by rewrite (raw_indices_disowned SMALL hash_of small_ok hash_range t s). }
  cbn [mbind outcome_bind]. destruct (Z.eqb_spec (rt_cap t) 0) as [|Hne]; [done|]. destruct (Hlay Hne) as [l ->]. done.
Qed.

(** A rebuild keeps the elements, when the new block fits. *)
Lemma rebuild_spec t new_cap : raw_ok t -> alloc_cap new_cap -> rt_len t < new_cap ->
  rt_len t <= (if SMALL <? new_cap then capacity_for new_cap else new_cap) ->
  match rebuild SMALL t new_cap hash_of with
  | Ret t' => fits new_cap /\ raw_ok t' /\ table_elements t' ≡ₚ table_elements t /\ rt_cap t' = new_cap
  | Panic => ~ fits new_cap
  | OutOfFuel => False
  end.
Proof using small_ok hash_range.
  intros Hok Hc Hlt Hroom. pose proof (ok_mem _ _ _ Hok) as Hmem. unfold rebuild. rewrite (proj2 (Z.ltb_lt _ _) Hlt). cbn [rust_assert mbind outcome_bind].
  pose proof (allocate_spec new_cap Hc) as Ha. destruct (allocate SMALL new_cap) as [fresh| |]; cbn [mbind outcome_bind]; [|done..].
  destruct Ha as [Hfit ->]. pose proof (fresh_table_ok new_cap Hc Hfit) as Hfresh.
  rewrite (raw_indices_spec SMALL hash_of small_ok hash_range t (rt_slots t) Hmem (ok_len _ _ _ Hok)). cbn [mbind outcome_bind].
  assert (table_elements (fresh_table new_cap) = []) as Hnil by apply omap_replicate.
  destruct (rebuild_fold (rt_slots t) (full_buckets (rt_slots t)) (with_len t 0) (fresh_table new_cap)) as (s' & t' & -> & Hok' & Hp & Hcap').
  - apply StronglySorted_lt_NoDup, true_idx_sorted.
  - intros b [Hb [x Hx]]%full_buckets_range. rewrite (mem_slots _ _ _ _ Hmem) in Hb. cbn [rt_cap rt_slots with_len]. split_and!; [lia|lia|done|by rewrite Hx].
  - done.
  - rewrite Hnil, omap_full_buckets. apply (ok_nodup _ _ _ Hok).
  - rewrite full_buckets_length. pose proof (ok_len _ _ _ Hok) as Hlen. unfold table_elements in Hlen. cbn [rt_len fresh_table]. unfold capacity, is_large. cbn [rt_cap fresh_table]. lia.
  - cbn [mbind outcome_bind]. rewrite Hnil, omap_full_buckets in Hp. 
    assert (rt_len t' = rt_len t) as -> by (rewrite (ok_len _ _ _ Hok'), (ok_len _ _ _ Hok); by rewrite Hp). rewrite Z.eqb_refl. cbn [rust_assert mbind outcome_bind].
    rewrite (raw_free_disowned _ (rt_slots t)); [done|by destruct Hmem; constructor|done|apply (ok_layout _ _ _ Hok)].
Qed.

(** ** Insertion *)

Lemma pow2_exponent_lt a b : 0 <= b -> 2 ^ a < 2 ^ b -> a < b.
Proof. intros Hb Hlt. by apply (Z.pow_lt_mono_r_iff 2). Qed.

(** The bucket count for [n] elements holds them, and the minimum for large tables is never needed. *)
Lemma cap_for_spec n : 0 < n -> n * 8 < 2 ^ 64 -> exists c,
  cap_for SMALL n = Ret c /\ alloc_cap c /\ n <= c /\ n <= (if SMALL <? c then capacity_for c else c).
Proof using small_ok.
  intros Hn Hlt. unfold cap_for. destruct (Z.ltb_spec SMALL n) as [Hl|Hs].
  - destruct (buckets_for_total n ltac:(lia) Hlt) as [b Eb]. rewrite Eb. cbn [mbind outcome_bind].
    apply buckets_for_spec in Eb as (e & He & -> & Hcap & _); [|done]. rewrite capacity_for_pow2 in Hcap by lia.
    pose proof (pow2_split_8 e ltac:(lia)) as E8. assert (0 < 2 ^ (e - 3)) by (apply Z.pow_pos_nonneg; lia).
    assert (2 * SMALL <= 2 ^ e) as Hdouble.
    { destruct (small_cases SMALL small_ok) as [->|(s & Hs & ->)]; [lia|]. rewrite <- Z.pow_succ_r by lia. apply Z.pow_le_mono_r; [lia|].
      assert (s < e); [|lia]. apply pow2_exponent_lt; lia. }
    assert (Z.max (2 ^ e) (MIN_LARGE_BUCKETS SMALL) = 2 ^ e) as ->.
    { apply Z.max_l. unfold MIN_LARGE_BUCKETS, MIN_BUCKETS, GROUP_WIDTH. destruct (8 <? 2 * SMALL); lia. }
    assert (SMALL < 2 ^ e) by lia. eexists. split_and!; [done| |lia|by rewrite (proj2 (Z.ltb_lt _ _)), capacity_for_pow2 by lia].
    destruct (decide (e < 32)); right; [left|right]; exists e; split_and!; (done || lia).
  - unfold slot_count_for. rewrite (proj2 (Z.eqb_neq n 0)), (proj2 (Z.eqb_neq SMALL 0)) by lia. cbn [orb].
    destruct (small_cases SMALL small_ok) as [E0|(s & Hs' & Es)]; [lia|]. assert (Z.log2_up n <= s) as Hup.
    { rewrite Es in Hs. apply Z.log2_up_le_mono in Hs. by rewrite Z.log2_up_pow2 in Hs by lia. }
    destruct (next_power_of_two_total n) as [p Ep]; [pose proof (small_range SMALL small_ok); lia|]. rewrite Ep. cbn [mbind outcome_bind].
    unfold next_power_of_two in Ep. destruct (_ <? _); [|done]. injection Ep as <-. pose proof (Z.log2_up_nonneg n) as H0'.
    assert (n <= 2 ^ Z.log2_up n) as Hle by (destruct (decide (n = 1)) as [->|]; [done|apply Z.log2_up_spec; lia]).
    assert (2 ^ Z.log2_up n <= SMALL) by (rewrite Es; apply Z.pow_le_mono_r; lia).
    unfold SMALL_SLOTS_MIN. rewrite Z.max_l, Z.min_l by lia. eexists. split_and!; [done| |lia|by rewrite (proj2 (Z.ltb_ge _ _)) by lia].
    left. exists (Z.log2_up n). split_and!; (done || lia).
Qed.

(** The bucket count an insertion into a full table grows to. *)
Definition next_cap (t : table) : outcome Z := if is_large SMALL t then Ret (rt_cap t * 2) else cap_for SMALL (rt_len t + 1).

Definition capacity_of (c : Z) : Z := if SMALL <? c then capacity_for c else c.

Lemma next_cap_spec t : raw_ok t -> exists c, next_cap t = Ret c /\ alloc_cap c /\ rt_len t < c /\ rt_len t < capacity_of c /\ (SMALL < rt_cap t -> SMALL < c).
Proof using small_ok.
  intros Hok. pose proof (len_le_capacity t Hok) as Hlen. unfold next_cap, capacity, capacity_of in *. rewrite is_large_spec in *. case_bool_decide as Hl.
  - destruct (cap_ok_large SMALL small_ok _ (mem_cap _ _ _ _ (ok_mem _ _ _ Hok)) Hl) as (e & He & E & _ & H2).
    pose proof (small_range SMALL small_ok). exists (rt_cap t * 2). rewrite E in *. rewrite capacity_for_pow2 in Hlen by lia.
    pose proof (pow2_split_8 e ltac:(lia)) as E8. assert (0 < 2 ^ (e - 3)) by (apply Z.pow_pos_nonneg; lia).
    rewrite (Z.mul_comm _ 2), <- Z.pow_succ_r by lia. assert (2 ^ Z.succ e = 2 * 2 ^ e) as E2 by (apply Z.pow_succ_r; lia).
    split_and!; [done| |lia| |lia].
    + destruct (decide (Z.succ e < 32)); right; [left|right]; exists (Z.succ e); split_and!; (done || lia).
    + rewrite (proj2 (Z.ltb_lt _ _)), capacity_for_pow2 by lia. replace (Z.succ e - 3) with (Z.succ (e - 3)) by lia. rewrite Z.pow_succ_r by lia. lia.
  - pose proof (small_range SMALL small_ok). pose proof (ok_len _ _ _ Hok).
    destruct (cap_for_spec (rt_len t + 1)) as (c & Ec & Hc & H1' & H2'); [lia..|]. exists c. split_and!; [done|done|lia|lia|lia].
Qed.

(** What an insertion makes of a table. *)
Definition insert_result (t : table) (x : T) (r : outcome (table * bool)) : Prop :=
  match r with
  | Ret (t', true) => x ∉ table_elements t /\ raw_ok t' /\ table_elements t' ≡ₚ x :: table_elements t /\
      (rt_cap t' = rt_cap t \/ rt_len t = capacity SMALL t /\ next_cap t = Ret (rt_cap t'))
  | Ret (t', false) => x ∈ table_elements t /\ t' = t
  | Panic => x ∉ table_elements t /\ rt_len t = capacity SMALL t /\ exists c, next_cap t = Ret c /\ ~ fits c
  | OutOfFuel => False
  end.

Lemma elem_not_absent (t : table) x : (forall y, y ∈ table_elements t -> hash_of y = hash_of x -> bool_decide (y = x) = false) -> x ∉ table_elements t.
Proof. intros Ha Hin. specialize (Ha x Hin eq_refl). by rewrite bool_decide_true in Ha. Qed.

Lemma accepted_eq (t : table) b x : accepted t b (fun y => bool_decide (y = x)) -> x ∈ table_elements t.
Proof. intros (y & Hy & He)%accepted_elem. apply bool_decide_eq_true in He. by subst. Qed.

Lemma capacity_of_table (t : table) : capacity SMALL t = capacity_of (rt_cap t).
Proof. unfold capacity, capacity_of, is_large. done. Qed.

Lemma small_insert_spec t x : raw_ok t -> rt_cap t <= SMALL -> insert_result t x (small_insert SMALL t (hash_of x) x hash_of).
Proof using small_ok hash_range.
  intros Hok Hs. pose proof (ok_mem _ _ _ Hok) as Hmem. unfold small_insert.
  destruct (small_probe_spec SMALL hash_of small_ok t (hash_of x) (fun y => bool_decide (y = x)) Hok Hs) as (r & -> & Hr).
  cbn [mbind outcome_bind]. destruct r as [b|b|].
  - split; [by eapply accepted_eq|done].
  - destruct Hr as (K & HK & -> & Htest). assert (0 < rt_cap t) as Hpos.
    { pose proof (fv_step _ _ _ _ HK) as Hst. unfold steps in Hst. rewrite (proj2 (Z.ltb_ge _ _)) in Hst by lia. lia. }
    assert (x ∉ table_elements t) as Hx.
    { apply elem_not_absent. apply (absent_by_probe SMALL hash_of t (hash_of x) K _ Hok (fv_vacant _ _ _ _ HK)); [apply HK|]. intros. by eapply Htest. }
    assert (0 <= (hash_of x + K) mod rt_cap t < rt_cap t) as Hb by (by apply Z.mod_pos_bound).
    destruct (fv_vacant _ _ _ _ HK) as (b & Hbv & Hv). pose proof Hbv as Hbv'. rewrite visited_small in Hbv' by lia. apply list_elem_of_singleton in Hbv' as ->.
    pose proof (write_mark_put SMALL hash_of small_ok t _ x 0 Hmem Hb ltac:(lia)) as Hw.
    destruct (bucket_write t _ x) as [t1| |]; [|done..]. cbn [mbind outcome_bind] in Hw |- *.
    destruct (mark_full SMALL t1 _ 0) as [t2| |]; [|done..]. cbn [mbind outcome_bind] in Hw |- *.
    assert (with_len t2 (rt_len t2 + 1) = raw_put SMALL hash_of t ((hash_of x + K) mod rt_cap t) x) as -> by congruence.
    destruct (raw_put_ok SMALL hash_of t _ x Hok Hb Hv (vacant_reaches t _ K _ HK Hbv) Hx ltac:(lia)). split_and!; [done..|by left].
  - assert (x ∉ table_elements t) as Hx.
    { apply elem_not_absent. intros y (b & Hb & Hy)%elem_of_slots _. pose proof (slot_at_lt _ _ _ Hb Hy) as Hlt. rewrite (mem_slots _ _ _ _ Hmem) in Hlt.
      destruct (Hr b ltac:(lia)) as (z & Hz & ?). rewrite Hy in Hz. by injection Hz as ->. }
    assert (rt_len t = capacity SMALL t) as Hfull.
    { apply Z.le_antisymm; [by apply len_le_capacity|]. unfold capacity. rewrite is_large_spec, bool_decide_false by lia. apply Z.le_ngt. intros Hlt.
      destruct (exists_vacant (rt_slots t)) as (b & Hb & Hv).
      { rewrite (ok_len _ _ _ Hok) in Hlt. unfold table_elements in Hlt. pose proof (mem_slots _ _ _ _ Hmem). lia. }
      rewrite (mem_slots _ _ _ _ Hmem) in Hb. destruct (Hr b Hb) as (z & Hz & _). congruence. }
    destruct (next_cap_spec t Hok) as (c & Ec & Hc & Hlc & Hroom & _). pose proof Ec as Ec'. unfold next_cap in Ec'. rewrite is_large_spec, bool_decide_false in Ec' by lia.
    rewrite Ec'. cbn [mbind outcome_bind]. pose proof (rebuild_spec t c Hok Hc Hlc ltac:(unfold capacity_of in Hroom; lia)) as Hreb.
    destruct (rebuild SMALL t c hash_of) as [t1| |]; cbn [mbind outcome_bind]; [|by split_and!; [..|exists c]|done].
    destruct Hreb as (_ & Hok1 & Hp1 & Hc1).
    destruct (insert_unique_no_grow_spec t1 x Hok1) as (t2 & -> & Hok2 & Hp2 & Hc2).
    { by rewrite Hp1. }
    { rewrite capacity_of_table, Hc1. assert (rt_len t1 = rt_len t) as ->; [|done]. rewrite (ok_len _ _ _ Hok1), (ok_len _ _ _ Hok). by rewrite Hp1. }
    cbn [mbind outcome_bind]. split_and!; [done..|by rewrite Hp2, Hp1|right]. split; [done|]. by rewrite Hc2, Hc1.
Qed.

Lemma write_ctrl_put t b x : mem_ok t (rt_slots t) -> SMALL < rt_cap t -> 0 <= b < rt_cap t ->
  (t ← bucket_write t b x; t ← set_ctrl SMALL t b (h2 (hash_of x)); Ret (with_len t (rt_len t + 1))) = Ret (raw_put SMALL hash_of t b x).
Proof using small_ok.
  intros Hmem Hl Hb. rewrite <- (write_mark_put SMALL hash_of small_ok t b x (h2 (hash_of x))) by done.
  unfold bucket_write. rewrite (proj2 (Z.ltb_lt _ _)) by lia. cbn [rust_assert mbind outcome_bind]. unfold mark_full.
  rewrite (is_large_spec SMALL (with_slots t _)). cbn [rt_cap with_slots]. by rewrite bool_decide_true.
Qed.

Lemma large_insert_spec t x : raw_ok t -> SMALL < rt_cap t -> insert_result t x (large_insert SMALL t (hash_of x) x hash_of).
Proof using small_ok hash_range.
  intros Hok Hl. pose proof (ok_mem _ _ _ Hok) as Hmem. pose proof (small_range SMALL small_ok). unfold large_insert.
  destruct (first_vacant_exists SMALL hash_of small_ok t (hash_of x) Hok (large_len SMALL hash_of small_ok t Hok Hl)) as [K HK].
  destruct (group_fuel_ok SMALL hash_of small_ok t K _ Hok Hl HK) as [HK0 Hfuel]. rewrite (probe_new_step SMALL hash_of small_ok) by done.
  pose proof (large_insert_loop_spec SMALL hash_of small_ok hash_range t (hash_of x) x K Hok Hl (hash_range x) HK (group_fuel t) 0 ltac:(lia) Hfuel) as Hloop.
  specialize (Hloop ltac:(intros ????; lia)). destruct (large_insert_loop _ _ _ _ _ _) as [[slot|]| |]; cbn [mbind outcome_bind]; [| |done..].
  2: { destruct Hloop as [b Hb]. split; [by eapply accepted_eq|done]. }
  destruct Hloop as (Hrej & Hb & Hv). assert (x ∉ table_elements t) as Hx.
  { apply elem_not_absent. apply (absent_by_probe SMALL hash_of t (hash_of x) K _ Hok (fv_vacant _ _ _ _ HK) HK0).
    intros k b y Hk Hbk Hy E. apply (Hrej k b y); [lia|done|done|by rewrite E]. }
  rewrite growth_left_spec by done. cbn [mbind outcome_bind]. destruct (Z.eqb_spec (capacity SMALL t - rt_len t) 0) as [E0|E0].
  - destruct (next_cap_spec t Hok) as (c & Ec & Hc & Hlc & Hroom & Hlarge). pose proof Ec as Ec'. unfold next_cap in Ec'.
    rewrite is_large_spec, bool_decide_true in Ec' by done. injection Ec' as Ec'. rewrite Ec'.
    pose proof (rebuild_spec t c Hok Hc Hlc ltac:(unfold capacity_of in Hroom; lia)) as Hreb.
    destruct (rebuild SMALL t c hash_of) as [t1| |]; cbn [mbind outcome_bind]; [|split_and!; [done|lia|by exists c]|done].
    destruct Hreb as (_ & Hok1 & Hp1 & Hc1). specialize (Hlarge Hl). assert (SMALL < rt_cap t1) as Hl1 by lia.
    assert (rt_len t1 < capacity SMALL t1) as Hroom1.
    { rewrite capacity_of_table, Hc1. assert (rt_len t1 = rt_len t) as ->; [|done]. rewrite (ok_len _ _ _ Hok1), (ok_len _ _ _ Hok). by rewrite Hp1. }
    destruct (first_vacant_exists SMALL hash_of small_ok t1 (hash_of x) Hok1 (large_len SMALL hash_of small_ok t1 Hok1 Hl1)) as [K1 HK1].
    destruct (find_insert_slot_spec t1 (hash_of x) K1 Hok1 Hl1 Hroom1 HK1) as (b & -> & Hb1 & Hv1). cbn [mbind outcome_bind].
    apply visited_range in Hb1 as Hbr; [|lia]. pose proof (write_ctrl_put t1 b x (ok_mem _ _ _ Hok1) Hl1 Hbr) as Hw.
    destruct (bucket_write t1 b x) as [t2| |]; [|done..]. cbn [mbind outcome_bind] in Hw |- *.
    destruct (set_ctrl SMALL t2 b _) as [t3| |]; [|done..]. cbn [mbind outcome_bind] in Hw |- *.
    assert (with_len t3 (rt_len t3 + 1) = raw_put SMALL hash_of t1 b x) as -> by congruence.
    destruct (raw_put_ok SMALL hash_of t1 b x Hok1 Hbr Hv1 (vacant_reaches t1 _ K1 _ HK1 Hb1)) as [Hok3 Hp3].
    { by rewrite Hp1. } { intros _. unfold capacity in Hroom1. by rewrite is_large_spec, bool_decide_true in Hroom1 by done. }
    split_and!; [done..|by rewrite Hp3, Hp1|right]. split; [lia|]. cbn [raw_put rt_cap]. by rewrite Hc1.
  - cbn [mbind outcome_bind]. apply visited_range in Hb as Hbr; [|lia]. pose proof (write_ctrl_put t slot x Hmem Hl Hbr) as Hw.
    destruct (bucket_write t slot x) as [t2| |]; [|done..]. cbn [mbind outcome_bind] in Hw |- *.
    destruct (set_ctrl SMALL t2 slot _) as [t3| |]; [|done..]. cbn [mbind outcome_bind] in Hw |- *.
    assert (with_len t3 (rt_len t3 + 1) = raw_put SMALL hash_of t slot x) as -> by congruence.
    pose proof (len_le_capacity t Hok) as Hle.
    destruct (raw_put_ok SMALL hash_of t slot x Hok Hbr Hv (vacant_reaches t _ K _ HK Hb) Hx) as [Hok3 Hp3]; [|by split_and!; [..|left]].
    intros _. unfold capacity in *. rewrite is_large_spec, bool_decide_true in Hle, E0 by done. lia.
Qed.

Lemma raw_insert_spec t x : raw_ok t -> insert_result t x (raw_insert SMALL t (hash_of x) x hash_of).
Proof using small_ok hash_range.
  intros Hok. unfold raw_insert. rewrite is_large_spec. case_bool_decide as Hl; [by apply large_insert_spec|apply small_insert_spec; [done|lia]].
Qed.

(** ** Other constructors and growth *)

Lemma raw_new_ok : raw_ok raw_new /\ table_elements (raw_new (T := T)) = [].
Proof using small_ok.
  split; [|done]. pose proof (small_range SMALL small_ok). constructor; try done; try (cbn [raw_new rt_cap]; lia).
  - constructor; [by left|done|]. unfold TableInv.meta_of. cbn [rt_cap raw_new]. by rewrite (proj2 (Z.ltb_ge _ _)) by lia.
  - apply NoDup_nil_2.
Qed.

Lemma with_capacity_spec n : 0 <= n -> n * 8 < 2 ^ 64 ->
  match with_capacity (T := T) SMALL n with
  | Ret t => raw_ok t /\ table_elements t = [] /\ n <= capacity SMALL t
  | Panic => 0 < n /\ exists c, cap_for SMALL n = Ret c /\ ~ fits c
  | OutOfFuel => False
  end.
Proof using small_ok.
  intros Hn Hlt. unfold with_capacity. pose proof (small_range SMALL small_ok). destruct (decide (n = 0)) as [->|].
  - unfold cap_for. rewrite (proj2 (Z.ltb_ge _ _)) by lia. cbn [slot_count_for Z.eqb orb mbind outcome_bind]. destruct raw_new_ok.
    split_and!; [done..|]. unfold capacity. rewrite is_large_spec, bool_decide_false; simpl; lia.
  - destruct (cap_for_spec n) as (c & Ec & Hc & Hnc & Hroom); [lia..|]. rewrite Ec. cbn [mbind outcome_bind]. rewrite (proj2 (Z.eqb_neq _ _)) by lia.
    pose proof (allocate_spec c Hc) as Ha. destruct (allocate SMALL c) as [t| |]; [|split; [lia|by exists c]|done]. destruct Ha as [Hfit ->].
    split_and!; [by apply fresh_table_ok|apply omap_replicate|by rewrite capacity_of_table].
Qed.

Lemma raw_reserve_spec t additional : raw_ok t -> 0 <= additional -> (rt_len t + additional) * 8 < 2 ^ 64 ->
  match raw_reserve SMALL t additional hash_of with
  | Ret t' => raw_ok t' /\ table_elements t' ≡ₚ table_elements t /\ rt_len t + additional <= capacity SMALL t'
  | Panic => 0 < rt_len t + additional /\ exists c, cap_for SMALL (rt_len t + additional) = Ret c /\ ~ fits c
  | OutOfFuel => False
  end.
Proof using small_ok hash_range.
  intros Hok Ha Hlt. unfold raw_reserve, add_usize. rewrite (proj2 (Z.ltb_lt _ _)) by lia. cbn [mbind outcome_bind].
  destruct (Z.leb_spec (rt_len t + additional) (capacity SMALL t)) as [Hle|Hgt]; [done|]. pose proof (len_le_capacity t Hok). pose proof (ok_len _ _ _ Hok).
  assert (rt_len t < rt_len t + additional) by lia.
  destruct (cap_for_spec (rt_len t + additional)) as (c & Ec & Hc & Hnc & Hroom); [lia..|]. rewrite Ec. cbn [mbind outcome_bind].
  pose proof (rebuild_spec t c Hok Hc ltac:(lia) ltac:(lia)) as Hreb. destruct (rebuild SMALL t c hash_of) as [t'| |]; [|split; [lia|by exists c]|done].
  destruct Hreb as (_ & Hok' & Hp & Hc'). split_and!; [done..|]. by rewrite capacity_of_table, Hc'.
Qed.
End Grow.
