(* ===== verification/TableConsume.v ===== *)
(** * TableConsume: cloning, consuming and dropping a table

    [Clone], [IntoIter] and [Drop] of src/ctadl-index/src/index_engine/hybrid_set/raw.rs, and the theorems on the
    table as a whole. *)

From S2P Require Import Prelude Bits Swiss RawTable TableInv TableOps TableIter TableGrow.

#[local] Open Scope Z_scope.
Set Default Proof Using "Type".

(** The elements [IntoIter] yields in [n] calls of [next], and what is left of it. *)
Fixpoint into_iter_take {T : Type} (SMALL : Z) (n : nat) (ii : IntoIter (T := T)) : outcome (list T * IntoIter (T := T)) :=
  match n with
  | O => Ret ([], ii)
  | S n =>
      r ← into_iter_next SMALL ii;
      match r with
      | None => Ret ([], ii)
      | Some (x, ii) => '(xs, ii) ← into_iter_take SMALL n ii; Ret (x :: xs, ii)
      end
  end.

(** ** The block *)

Section Block.
Context {T : Type} {lay : Layout T} {lay_ok : LayoutOk T} (SMALL : Z).

Lemma pow2_divide_max a b : 0 <= a -> 0 <= b -> (2 ^ a | Z.max (2 ^ a) (2 ^ b)) /\ (2 ^ b | Z.max (2 ^ a) (2 ^ b)).
Proof.
  intros Ha Hb. assert (forall i j, 0 <= i <= j -> (2 ^ i | 2 ^ j)) as Hd.
  { intros i j Hij. exists (2 ^ (j - i)). rewrite <- Z.pow_add_r by lia. f_equal. lia. }
  destruct (decide (a <= b)).
  - rewrite Z.max_r by (apply Z.pow_le_mono_r; lia). split; [apply Hd; lia|done].
  - rewrite Z.max_l by (apply Z.pow_le_mono_r; lia). split; [done|apply Hd; lia].
Qed.

Lemma ceil_multiple n a : 0 < a -> 0 <= n -> n <= (n + a - 1) / a * a.
Proof. intros Ha Hn. Z.div_mod_to_equations. nia. Qed.

(** C22: A block the layout computes holds a table: the metadata starts at an offset aligned for a word and lies
    inside the block, group loads at every position included; every bucket lies between the start of the block
    and the metadata, aligned for the element type; and the ranges of two buckets do not overlap. *)
Theorem raw_layout_sound (cap bytes align off : Z) (Hlay : layout (T := T) SMALL cap = Ret (bytes, align, off)) :
  (META_ALIGN | off) /\ bytes = off + meta_len SMALL cap /\ bytes < 2 ^ 63 /\
  (forall p, SMALL < cap -> 0 <= p <= cap - 1 -> off + p + GROUP_WIDTH <= bytes) /\
  (forall i, 0 <= i < cap -> 0 <= bucket_offset (T := T) off i /\ bucket_offset (T := T) off i + size_of T <= off /\ (align_of T | bucket_offset (T := T) off i)) /\
  (forall i j, 0 <= i < j -> j < cap -> bucket_offset (T := T) off j + size_of T <= bucket_offset (T := T) off i).
Proof using lay_ok.
  destruct align_of_pow2 as (a & Ha & Ea), size_of_aligned as [Hsz Hdiv]. unfold layout in Hlay.
  destruct ((0 <? cap) && is_power_of_two cap) eqn:Ecap; [|done]. apply andb_true_iff in Ecap as [Hcap%Z.ltb_lt _]. cbn [rust_assert mbind outcome_bind] in Hlay.
  set (A := Z.max (align_of T) META_ALIGN) in *. assert ((align_of T | A) /\ (META_ALIGN | A) /\ 0 < A) as (HA1 & HA2 & HA0).
  { unfold A. rewrite Ea. change META_ALIGN with (2 ^ 3). destruct (pow2_divide_max a 3 ltac:(lia) ltac:(lia)) as [? ?]. split_and!; [done..|lia]. }
  unfold mul_usize, add_usize in Hlay. destruct (_ <? _); [|done]. cbn [mbind outcome_bind] in Hlay. destruct (_ <? _); [|done]. cbn [mbind outcome_bind] in Hlay.
  set (O := (size_of T * cap + A - 1) / A * A) in *. destruct (_ <? _); [|done]. cbn [mbind outcome_bind] in Hlay.
  destruct (Z.leb_spec (O + meta_len SMALL cap) (2 ^ 63 - A)) as [Hb|]; [|done]. injection Hlay as <- _ <-.
  assert (size_of T * cap <= O) as HO by (apply ceil_multiple; nia). assert ((A | O)) as HAO by (by exists ((size_of T * cap + A - 1) / A)).
  split_and!; [by etrans|done|lia|..]; unfold bucket_offset.
  - intros p Hl Hp. unfold meta_len, ctrl_len. rewrite (proj2 (Z.ltb_lt _ _) Hl). lia.
  - intros i Hi. split_and!; [nia|nia|]. apply Z.divide_sub_r; [by etrans|by apply Z.divide_mul_r].
  - intros i j Hij Hj. nia.
Qed.
End Block.

Section Consume.
Context {T : Type} `{EqDecision T, Layout T, Allocator} (SMALL : Z) (hash_of : T -> Z).
Hypothesis small_ok : CHECK_SMALL SMALL = true.
Hypothesis hash_range : forall x, 0 <= hash_of x < 2 ^ 64.
#[local] Notation table := (RawTable T).
#[local] Notation raw_ok := (raw_ok SMALL hash_of).
#[local] Notation mem_ok := (mem_ok SMALL hash_of).
#[local] Notation meta_of := (meta_of SMALL hash_of).
#[local] Notation ctrl_of := (ctrl_of hash_of).
#[local] Notation fits := (fits (T := T) SMALL).

(** ** Cloning *)

(** The table with slots [s] and length [n]. *)
Definition table_of (cap : Z) (s : list (option T)) (n : Z) : table := {| rt_meta := meta_of cap s; rt_slots := s; rt_cap := cap; rt_len := n |}.

Lemma meta_byte_ok t b x : mem_ok t (rt_slots t) -> 0 <= b < rt_cap t -> slot_at (rt_slots t) b = Some x ->
  exists byte, meta_byte SMALL t b = Ret byte /\ (SMALL < rt_cap t -> byte = h2 (hash_of x)).
Proof.
  intros [_ Hs Hm] Hb Hx. unfold meta_byte. rewrite is_large_spec. case_bool_decide as Hl; [|by exists 0].
  exists (h2 (hash_of x)). split; [|done]. rewrite Hm. unfold TableInv.meta_of. rewrite (proj2 (Z.ltb_lt _ _) Hl).
  rewrite lookup_app_l by (rewrite length_map; lia). apply slot_at_Some in Hx. by rewrite lookup_map, Hx.
Qed.

Lemma clone_fold t l : mem_ok t (rt_slots t) -> (forall b, b ∈ l -> 0 <= b < rt_cap t /\ is_Some (slot_at (rt_slots t) b)) ->
  forall s n, Z.of_nat (length s) = rt_cap t -> foldM (clone_slot SMALL t) (table_of (rt_cap t) s n) l =
    Ret (table_of (rt_cap t) (foldl (fun s b => <[Z.to_nat b := slot_at (rt_slots t) b]> s) s l) (n + Z.of_nat (length l))).
Proof using small_ok.
  intros Hmem. induction l as [|b l IH]; intros Hl s n Hs; cbn [foldM foldl]; [by rewrite Z.add_0_r|].
  destruct (Hl b (list_elem_of_here _ _)) as [Hb [x Hx]]. unfold clone_slot at 1. rewrite (bucket_read_ok t b x) by done. cbn [mbind outcome_bind].
  unfold bucket_write at 1. cbn [table_of rt_cap rt_slots]. rewrite (proj2 (Z.ltb_lt _ _)) by lia. cbn [rust_assert mbind outcome_bind].
  destruct (meta_byte_ok t b x Hmem Hb Hx) as (byte & -> & Hbyte). cbn [mbind outcome_bind].
  rewrite (mark_full_ok SMALL hash_of small_ok _ s b x byte); [|by constructor; [apply Hmem|..]|done|done].
  cbn [mbind outcome_bind]. rewrite Hx. cbn [length]. rewrite Nat2Z.inj_succ, <- Z.add_1_l, Z.add_assoc.
  apply (IH (fun b' Hb' => Hl b' (list_elem_of_further _ _ _ Hb'))). by rewrite length_insert.
Qed.

Lemma foldl_insert_lookup (f : Z -> option T) l (s : list (option T)) (i : nat) : Forall (Z.le 0) l -> (i < length s)%nat ->
  foldl (fun s b => <[Z.to_nat b := f b]> s) s l !! i = (if decide (Z.of_nat i ∈ l) then Some (f (Z.of_nat i)) else s !! i).
Proof.
  intros Hl. revert s. induction Hl as [|b l Hb _ IH]; intros s Hi; cbn [foldl]; [by rewrite decide_False by apply not_elem_of_nil|].
  rewrite IH by (by rewrite length_insert). destruct (decide (Z.of_nat i ∈ l)) as [Hin|Hin].
  - by rewrite decide_True by (by apply list_elem_of_further).
  - destruct (decide (Z.of_nat i = b)) as [<-|Hne].
    + rewrite decide_True by apply list_elem_of_here. rewrite Nat2Z.id. by apply list_lookup_insert_eq.
    + rewrite decide_False by (by intros [?|?]%elem_of_cons). apply list_lookup_insert_ne. lia.
Qed.

Lemma foldl_insert_length (f : Z -> option T) l (s : list (option T)) : length (foldl (fun s b => <[Z.to_nat b := f b]> s) s l) = length s.
Proof. revert s. induction l as [|b l IH]; intros s; [done|]. cbn [foldl]. by rewrite IH, length_insert. Qed.

Lemma foldl_insert_full (s : list (option T)) n : n = length s ->
  foldl (fun r b => <[Z.to_nat b := slot_at s b]> r) (replicate n None) (full_buckets s) = s.
Proof.
  intros ->. apply list_eq_same_length with (length s); [done|by rewrite foldl_insert_length, length_replicate|].
  intros i x y Hi. rewrite foldl_insert_lookup by (try (apply true_idx_lower; lia); rewrite length_replicate; lia).
  rewrite lookup_replicate_2 by done. intros Hx Hy. destruct (s !! i) as [o|] eqn:Ho; [|by rewrite lookup_ge_None in Ho; lia].
  injection Hy as <-. destruct (decide (Z.of_nat i ∈ full_buckets s)) as [Hin|Hin].
  - injection Hx as <-. unfold slot_at. by rewrite Nat2Z.id, Ho.
  - injection Hx as <-. destruct o as [z|]; [|done]. exfalso. apply Hin. apply flags_elem. split; [lia|]. exists (Some z). by rewrite Nat2Z.id.
Qed.

(** The clone is the table itself, bucket by bucket. *)
Lemma raw_clone_spec t : raw_ok t ->
  match raw_clone SMALL t with
  | Ret t' => t' = t
  | Panic => rt_cap t <> 0 /\ ~ fits (rt_cap t)
  | OutOfFuel => False
  end.
Proof using small_ok hash_range.
  intros Hok. pose proof (ok_mem _ _ _ Hok) as Hmem. pose proof (mem_slots _ _ _ _ Hmem) as Hs. unfold raw_clone. destruct (Z.eqb_spec (rt_cap t) 0) as [E|Hne].
  - destruct t as [m s cap len]. cbn [rt_cap rt_slots] in *. subst cap. destruct s; [|done]. pose proof (ok_len _ _ _ Hok) as Hlen.
    pose proof (mem_meta _ _ _ _ Hmem) as Hm. cbn in Hlen, Hm. rewrite Hlen, Hm. unfold TableInv.meta_of. pose proof (small_range SMALL small_ok).
    by rewrite (proj2 (Z.ltb_ge _ _)) by lia.
  - assert (alloc_cap SMALL (rt_cap t)) as Hc by (destruct (mem_cap _ _ _ _ Hmem) as [?|[?|?]]; [done|by left|by right; left]).
    pose proof (allocate_spec SMALL hash_of (rt_cap t) Hc) as Ha. destruct (allocate SMALL (rt_cap t)) as [fresh| |]; cbn [mbind outcome_bind]; [|done..].
    destruct Ha as [_ ->]. rewrite (raw_indices_spec SMALL hash_of small_ok hash_range t (rt_slots t) Hmem (ok_len _ _ _ Hok)). cbn [mbind outcome_bind].
    change (fresh_table SMALL hash_of (rt_cap t)) with (table_of (rt_cap t) (replicate (Z.to_nat (rt_cap t)) None) 0).
    rewrite clone_fold; [|done| |rewrite length_replicate; lia].
    2: { intros b [Hb [x Hx]]%full_buckets_range. rewrite Hs in Hb. by rewrite Hx. }
    rewrite foldl_insert_full by lia. rewrite full_buckets_length, Z.add_0_l. fold (table_elements t). rewrite <- (ok_len _ _ _ Hok).
    destruct t. unfold table_of. cbn. f_equal. symmetry. apply (mem_meta _ _ _ _ Hmem).
Qed.

(** ** Consuming *)

(** The state of an owning iterator: what its table still holds is what is to come. *)
Record ii_ok (ii : IntoIter (T := T)) : Prop := {
  ii_mem : mem_ok (ii_table ii) (rt_slots (ii_table ii));
  ii_len : rt_len (ii_table ii) = Z.of_nat (length (table_elements (ii_table ii)));
  ii_layout : rt_cap (ii_table ii) <> 0 -> exists l, layout (T := T) SMALL (rt_cap (ii_table ii)) = Ret l;
  ii_it : it_ok SMALL (rt_cap (ii_table ii)) (rt_slots (ii_table ii)) (ii_indices ii) (full_buckets (rt_slots (ii_table ii)))
}.

Lemma it_ok_clear cap (s : list (option T)) it p rest : 0 <= p -> Forall (Z.lt p) rest -> is_Some (slot_at s p) ->
  it_ok SMALL cap s it rest -> it_ok SMALL cap (<[Z.to_nat p := None]> s) it rest.
Proof.
  intros Hp Hlt [x Hx] (Hr & Hc & Hs & Hit). split_and!; [done..|]. destruct (decide (cap <= SMALL)); [done|].
  destruct Hit as (Hsh & Hb & Hd & cur & Hbits & Hcur & E). split_and!; [done|lia|lia|done|]. exists cur. split_and!; [done..|].
  rewrite drop_insert_lt; [done|]. apply Nat.nle_gt. intros Hle.
  assert (p ∈ rest) as Hin; [|rewrite Forall_forall in Hlt; specialize (Hlt _ Hin); lia].
  rewrite E. apply elem_of_app. right. apply true_idx_elem. split; [lia|]. apply slot_at_Some in Hx. rewrite lookup_map, lookup_drop.
  replace (Z.to_nat (it_base it + 8) + Z.to_nat (p - (it_base it + 8)))%nat with (Z.to_nat p) by lia. by rewrite Hx.
Qed.

Lemma full_buckets_clear (s : list (option T)) p rest : full_buckets s = p :: rest -> full_buckets (<[Z.to_nat p := None]> s) = rest.
Proof.
  intros E. pose proof (true_idx_sorted 0 (map is_full s)) as Hs. fold (full_buckets s) in Hs. rewrite E in Hs. apply sorted_head in Hs as [Hs Hlt].
  assert (p ∈ full_buckets s) as [Hp _]%full_buckets_range by (rewrite E; apply list_elem_of_here).
  apply sorted_lists_eq; [apply true_idx_sorted|done|]. intros i. unfold full_buckets. rewrite flags_elem. split.
  - intros (Hi & o & Ho & Hf). destruct (decide (i = p)) as [->|Hne]; [by rewrite list_lookup_insert_eq in Ho by lia; injection Ho as <-|].
    rewrite list_lookup_insert_ne in Ho by lia. assert (i ∈ full_buckets s) as Hin by (apply flags_elem; eauto). rewrite E in Hin. by apply elem_of_cons in Hin as [?|?].
  - intros Hi. assert (i ∈ full_buckets s) as (Hi0 & o & Ho & Hf)%flags_elem by (rewrite E; by apply list_elem_of_further).
    rewrite Forall_forall in Hlt. specialize (Hlt _ Hi). split; [done|]. exists o. by rewrite list_lookup_insert_ne by lia.
Qed.

Lemma omap_clear (s : list (option T)) p rest x : full_buckets s = p :: rest -> slot_at s p = Some x -> omap id s = x :: omap id (<[Z.to_nat p := None]> s).
Proof.
  intros E Hx. rewrite <- (omap_full_buckets s), <- (omap_full_buckets (<[_ := _]> s)), (full_buckets_clear s p rest E), E.
  change (omap (slot_at s) (p :: rest)) with (match slot_at s p with Some y => y :: omap (slot_at s) rest | None => omap (slot_at s) rest end). rewrite Hx. f_equal.
  pose proof (true_idx_sorted 0 (map is_full s)) as Hs. fold (full_buckets s) in Hs. rewrite E in Hs. apply sorted_head in Hs as [_ Hlt].
  assert (p ∈ full_buckets s) as [Hp _]%full_buckets_range by (rewrite E; apply list_elem_of_here).
  apply list_omap_ext. apply Forall2_same_length_lookup. split; [done|]. intros i a b Ha Hb. rewrite Ha in Hb. injection Hb as <-.
  apply list_elem_of_lookup_2 in Ha. rewrite Forall_forall in Hlt. specialize (Hlt _ Ha). by rewrite bucket_insert_ne by lia.
Qed.

Lemma into_iter_next_spec ii : ii_ok ii ->
  match table_elements (ii_table ii) with
  | [] => into_iter_next SMALL ii = Ret None
  | x :: xs => exists ii', into_iter_next SMALL ii = Ret (Some (x, ii')) /\ ii_ok ii' /\ table_elements (ii_table ii') = xs
  end.
Proof using small_ok hash_range.
  intros [Hmem Hlen Hlay Hit]. destruct ii as [t it]. cbn [ii_table ii_indices] in *. unfold into_iter_next. cbn [ii_table ii_indices].
  pose proof (raw_next_spec SMALL hash_of small_ok hash_range _ _ _ _ (mem_ok_forget SMALL hash_of t _ Hmem) Hit) as Hnext.
  rewrite <- (mem_meta _ _ _ _ Hmem) in Hnext. pose proof (full_buckets_length (rt_slots t)) as Hn. fold (table_elements t) in Hn.
  pose proof (full_buckets_clear (rt_slots t)) as Hclear. pose proof (omap_clear (rt_slots t)) as Homap. pose proof (true_idx_sorted 0 (map is_full (rt_slots t))) as Hsort.
  fold (full_buckets (rt_slots t)) in Hsort. destruct (full_buckets (rt_slots t)) as [|p rest] eqn:Efull.
  - destruct (table_elements t); [|done]. by rewrite Hnext.
  - destruct Hnext as (it' & -> & Hit'). cbn [mbind outcome_bind].
    assert (p ∈ full_buckets (rt_slots t)) as [Hp [x Hx]]%full_buckets_range by (rewrite Efull; apply list_elem_of_here).
    rewrite (mem_slots _ _ _ _ Hmem) in Hp. specialize (Homap p rest x eq_refl Hx). specialize (Hclear p rest eq_refl). apply sorted_head in Hsort as [_ Hlt].
    unfold table_elements. rewrite Homap. unfold bucket_take. rewrite (bucket_read_ok t p x) by done. cbn [mbind outcome_bind].
    rewrite (clear_slot_ok SMALL hash_of small_ok _ (rt_slots t) p); [|by apply mem_ok_slots|done|].
    2: { cbn [rt_len with_slots]. simpl in Hn. lia. }
    cbn [mbind outcome_bind]. eexists. split; [done|]. split; [|done]. constructor; cbn [ii_table ii_indices rt_cap rt_slots rt_len with_len with_meta with_slots].
    + constructor; [apply Hmem|cbn; rewrite length_insert; apply Hmem|done].
    + unfold table_elements. cbn. rewrite Hlen. unfold table_elements. rewrite Homap. cbn [length]. lia.
    + done.
    + rewrite Hclear. apply it_ok_clear; [lia|done|by rewrite Hx|done].
Qed.

Lemma into_iter_take_spec n : forall ii, ii_ok ii -> exists ii',
  into_iter_take SMALL n ii = Ret (take n (table_elements (ii_table ii)), ii') /\ ii_ok ii' /\ table_elements (ii_table ii') = drop n (table_elements (ii_table ii)).
Proof using small_ok hash_range.
  induction n as [|n IH]; intros ii Hok; cbn [into_iter_take]; [by exists ii|]. pose proof (into_iter_next_spec ii Hok) as Hn.
  destruct (table_elements (ii_table ii)) as [|x xs] eqn:E.
  - rewrite Hn. cbn [mbind outcome_bind]. exists ii. done.
  - destruct Hn as (ii1 & -> & Hok1 & E1). cbn [mbind outcome_bind]. destruct (IH ii1 Hok1) as (ii' & -> & Hok' & E'). cbn [mbind outcome_bind].
    rewrite E1 in *. by exists ii'.
Qed.

Lemma raw_into_iter_spec t : raw_ok t -> exists ii, raw_into_iter SMALL t = Ret ii /\ ii_ok ii /\ ii_table ii = t.
Proof using small_ok hash_range.
  intros Hok. pose proof (ok_mem _ _ _ Hok) as Hmem. unfold raw_into_iter.
  destruct (raw_iter_spec SMALL hash_of small_ok hash_range t (rt_slots t) Hmem) as (it & -> & _ & Hit); [rewrite (ok_len _ _ _ Hok); unfold table_elements; lia|].
  cbn [mbind outcome_bind]. eexists. split_and!; [done| |done]. constructor; [done|apply Hok|apply Hok|]. by apply Hit, Hok.
Qed.

Lemma raw_free_spec ii : ii_ok ii -> raw_free SMALL (ii_table ii) = Ret (if needs_drop T then table_elements (ii_table ii) else [], raw_new).
Proof using small_ok hash_range.
  intros [Hmem Hlen Hlay _]. unfold raw_free. rewrite (raw_elements_spec SMALL hash_of small_ok hash_range) by done.
  destruct (needs_drop T); cbn [mbind outcome_bind]; (destruct (Z.eqb_spec (rt_cap (ii_table ii)) 0) as [|Hne]; [done|destruct (Hlay Hne) as [y ->]; done]).
Qed.
End Consume.

(** ** Consuming a table, as a whole *)

Section Claims.
Context {T : Type} `{EqDecision T, Layout T, Allocator} (SMALL : Z) (hash_of : T -> Z).

(** C19: Consuming a table moves each element out exactly once: whatever number of elements is taken from the
    owning iterator before it is dropped, those taken and those the destructor then drops are together the
    elements of the table, none twice and none lost (elements that need no drop are only forgotten), and no
    bucket is read after it was moved out of, although the iterator reads the metadata that it clears. *)
Theorem into_iter_moves_each_once (t : RawTable T) (n : nat) (Hsmall : CHECK_SMALL SMALL = true)
    (Hhash : forall x, 0 <= hash_of x < 2 ^ 64) (Hok : raw_ok SMALL hash_of t) :
  exists ii ii' taken left, raw_into_iter SMALL t = Ret ii /\ into_iter_take SMALL n ii = Ret (taken, ii') /\
    raw_free SMALL (ii_table ii') = Ret (if needs_drop T then left else [], raw_new) /\
    taken ++ left = table_elements t /\ NoDup (taken ++ left) /\ length taken = Nat.min n (Z.to_nat (rt_len t)).
Proof.
  destruct (raw_into_iter_spec SMALL hash_of Hsmall Hhash t Hok) as (ii & Hii & Hiok & <-).
  destruct (into_iter_take_spec SMALL hash_of Hsmall Hhash n ii Hiok) as (ii' & Htake & Hiok' & E).
  exists ii, ii', (take n (table_elements (ii_table ii))), (drop n (table_elements (ii_table ii))). rewrite take_drop.
  split_and!; [done|done| |done|apply Hok|].
  - rewrite <- E. by apply (raw_free_spec SMALL hash_of Hsmall Hhash).
  - rewrite length_take, (ok_len _ _ _ Hok), Nat2Z.id. done.
Qed.
End Claims.

(** ** Witnesses *)

(** Words, with an allocator that always succeeds. *)
Definition word_layout : Layout Z := {| size_of := 8; align_of := 8; needs_drop := true |}.
Definition any_block : Allocator := fun _ _ => true.

#[local] Existing Instances word_layout any_block.
Definition word_hash (x : Z) : Z := x * 11400714819323198485 mod 2 ^ 64.

Lemma word_hash_range x : 0 <= word_hash x < 2 ^ 64.
Proof. by apply Z.mod_pos_bound. Qed.

Lemma raw_layout_sound_witness : (8 | 128) /\ 0 <= bucket_offset (T := Z) 128 15.
Proof.
  assert (LayoutOk Z) as Hw.
  { constructor; [exists 3; split; [lia|reflexivity]|split; [done|by exists 1]]. }
  destruct (raw_layout_sound (T := Z) (lay_ok := Hw) 8 16 152 8 128 eq_refl) as (H1 & _ & _ & _ & H2 & _).
  split; [exact H1|]. apply (H2 15). lia.
Defined.

(** The elements 3, 14 and 15, inserted one by one with two slots reserved for small tables: a large table. *)
Definition insert_word (t : RawTable Z) (x : Z) : RawTable Z :=
  match raw_insert 2 t (word_hash x) x word_hash with Ret (t, _) => t | _ => raw_new end.
Definition sample_table : RawTable Z := foldl insert_word raw_new [3; 14; 15].

Lemma insert_word_ok t x : raw_ok 2 word_hash t -> raw_ok 2 word_hash (insert_word t x).
Proof.
  intros Hok. pose proof (raw_insert_spec 2 word_hash eq_refl word_hash_range t x Hok) as Hi. unfold insert_word.
  destruct (raw_insert _ _ _ _ _) as [[t' []]| |]; [apply Hi|by destruct Hi as [_ ->]|by apply raw_new_ok..].
Qed.

Lemma sample_table_ok : raw_ok 2 word_hash sample_table.
Proof. unfold sample_table. cbn [foldl]. do 3 apply insert_word_ok. by apply raw_new_ok. Qed.

Lemma into_iter_moves_each_once_witness : exists ii ii' taken left, raw_into_iter 2 sample_table = Ret ii /\
  into_iter_take 2 2 ii = Ret (taken, ii') /\ raw_free 2 (ii_table ii') = Ret (left, raw_new) /\ length taken = 2%nat /\ length left = 1%nat.
Proof.
  destruct (into_iter_moves_each_once 2 word_hash sample_table 2 eq_refl word_hash_range sample_table_ok)
    as (ii & ii' & taken & left & H1 & H2 & H3 & H4 & _ & H5). exists ii, ii', taken, left. split_and!; [exact H1|exact H2|exact H3|exact H5|].
  assert (length taken = 2%nat) as H6 by exact H5. assert (length (table_elements sample_table) = 3%nat) as H7 by (vm_compute; reflexivity).
  rewrite <- H4, length_app, H6 in H7. lia.
Defined.
