(* ===== verification/HybridSet.v ===== *)
(** * HybridSet: the set of the index stores

    src/ctadl-index/src/index_engine/hybrid_set.rs over [RawTable]: the operations of the set, that every set
    built with them is the mathematical set its construction denotes, [merge], the point at which a set
    changes regime, and the interface ([SetOps], [SetLaws]) the set offers to the stores, which [PathGroup]
    is proved against.  The hasher is a function into 64-bit words. *)

From S2P Require Import Prelude Bits Swiss RawTable TableInv TableOps TableIter TableGrow TableConsume.

#[local] Open Scope Z_scope.
Set Default Proof Using "Type".

Definition SMALL_THRESHOLD : Z := 64.

(** The hasher is zero-sized and has no state; it is the function the operations are given. *)
Record HybridSet (T : Type) := { hs_table : RawTable T }.
Arguments hs_table {T} _.

(** [for value in set { .. }] on an owned set: the loop over [IntoIter], which is dropped at the end. *)
Fixpoint for_into {T B : Type} `{Layout T} (SMALL : Z) (fuel : nat) (f : B -> T -> outcome B) (acc : B) (ii : IntoIter (T := T)) : outcome B :=
  match fuel with
  | O => OutOfFuel
  | S fuel =>
      r ← into_iter_next SMALL ii;
      match r with
      | None => '(_, _) ← raw_free SMALL (ii_table ii); Ret acc
      | Some (x, ii) => acc ← f acc x; for_into SMALL fuel f acc ii
      end
  end.

(** ** Operations *)

Section Ops.
Context {T : Type} `{EqDecision T, Layout T, Allocator} (SMALL : Z) (hash_of : T -> Z).
#[local] Notation set_t := (HybridSet T).

Definition hs_new : set_t := {| hs_table := raw_new |}.
Definition hs_len (s : set_t) : Z := rt_len (hs_table s).
Definition hs_is_empty (s : set_t) : bool := hs_len s =? 0.
Definition hs_capacity (s : set_t) : Z := capacity SMALL (hs_table s).
Definition hs_is_large (s : set_t) : bool := is_large SMALL (hs_table s).
Definition hs_iter (s : set_t) : outcome (list T) := raw_elements SMALL (hs_table s).
Definition hs_heap_bytes (s : set_t) : outcome Z := heap_bytes SMALL (hs_table s).

Definition hs_with_capacity (n : Z) : outcome set_t := t ← with_capacity SMALL n; Ret {| hs_table := t |}.

Definition hs_contains (s : set_t) (value : T) : outcome bool :=
  r ← raw_find SMALL (hs_table s) (hash_of value) (fun x => bool_decide (x = value));
  Ret (match r with Some _ => true | None => false end).

Definition hs_insert (s : set_t) (value : T) : outcome (set_t * bool) :=
  '(t, added) ← raw_insert SMALL (hs_table s) (hash_of value) value hash_of;
  Ret ({| hs_table := t |}, added).

Definition hs_reserve (s : set_t) (additional : Z) : outcome set_t :=
  t ← raw_reserve SMALL (hs_table s) additional hash_of; Ret {| hs_table := t |}.

Definition hs_for {B : Type} (f : B -> T -> outcome B) (acc : B) (s : set_t) : outcome B :=
  ii ← raw_into_iter SMALL (hs_table s);
  for_into SMALL (S (Z.to_nat (hs_len s))) f acc ii.

Definition hs_insert_value (s : set_t) (value : T) : outcome set_t := '(s, _) ← hs_insert s value; Ret s.

Definition hs_merge (self other : set_t) : outcome (set_t * Z) :=
  if hs_is_empty other then Ret (self, 0)
  else
    let before := hs_len self in
    if before =? 0 then Ret (other, hs_len other)
    else
      let '(self, other) := if before <? hs_len other then (other, self) else (self, other) in
      self ← hs_for hs_insert_value self other;
      Ret (self, hs_len self - before).

Definition hs_clone (s : set_t) : outcome set_t := t ← raw_clone SMALL (hs_table s); Ret {| hs_table := t |}.

Definition hs_extend (s : set_t) (values : list T) : outcome set_t := foldM hs_insert_value s values.

(** [from_iter], on an iterator with the lower size bound [hint]. *)
Definition hs_from_iter (hint : Z) (values : list T) : outcome set_t := s ← hs_with_capacity hint; hs_extend s values.
End Ops.

(** ** The set a table is *)

Section Spec.
Context {T : Type} `{EqDecision T, Layout T, Allocator} (SMALL : Z) (hash_of : T -> Z).
Hypothesis small_ok : CHECK_SMALL SMALL = true.
Hypothesis hash_range : forall x, 0 <= hash_of x < 2 ^ 64.
#[local] Notation set_t := (HybridSet T).

Definition hs_ok (s : set_t) : Prop := raw_ok SMALL hash_of (hs_table s).
Definition hs_elems (s : set_t) : list T := table_elements (hs_table s).

(** An insertion cannot grow: the set is full and its next block does not fit. *)
Definition hs_stuck (s : set_t) : Prop :=
  rt_len (hs_table s) = capacity SMALL (hs_table s) /\ exists c, next_cap SMALL (hs_table s) = Ret c /\ ~ fits (T := T) SMALL c.

Lemma hs_len_spec s : hs_ok s -> hs_len s = Z.of_nat (length (hs_elems s)).
Proof. apply ok_len. Qed.

Lemma hs_is_empty_spec s : hs_ok s -> hs_is_empty s = bool_decide (hs_elems s = []).
Proof.
  intros Hok. unfold hs_is_empty. rewrite hs_len_spec by done. apply eq_true_iff_eq. rewrite Z.eqb_eq, bool_decide_eq_true.
  destruct (hs_elems s); simpl; split; (done || lia).
Qed.

Lemma hs_contains_spec s x : hs_ok s -> hs_contains SMALL hash_of s x = Ret (bool_decide (x ∈ hs_elems s)).
Proof using small_ok hash_range.
  intros Hok. unfold hs_contains, raw_find.
  pose proof (find_index_spec SMALL hash_of small_ok hash_range (hs_table s) (hash_of x) (fun y => bool_decide (y = x)) Hok (hash_range x)) as Hf.
  destruct (find_index _ _ _ _) as [[b|]| |]; [| |done..]; cbn [mbind outcome_bind].
  - pose proof (accepted_eq (hs_table s) b x Hf) as Hin. destruct Hf as (y & Hb & Hy & _). rewrite (bucket_read_ok _ b y) by done. cbn [mbind outcome_bind]. by rewrite bool_decide_true.
  - rewrite bool_decide_false; [done|]. by apply (elem_not_absent hash_of).
Qed.

Lemma hs_insert_spec s x : hs_ok s ->
  match hs_insert SMALL hash_of s x with
  | Ret (s', added) => hs_ok s' /\ added = bool_decide (x ∉ hs_elems s) /\ hs_elems s' ≡ₚ (if added then x :: hs_elems s else hs_elems s)
  | Panic => x ∉ hs_elems s /\ hs_stuck s
  | OutOfFuel => False
  end.
Proof using small_ok hash_range.
  intros Hok. unfold hs_insert. pose proof (raw_insert_spec SMALL hash_of small_ok hash_range (hs_table s) x Hok) as Hi.
  destruct (raw_insert _ _ _ _ _) as [[t []]| |]; cbn [mbind outcome_bind insert_result] in *; [|..|done|done].
  - destruct Hi as (Hx & Ht & Hp & _). by rewrite bool_decide_true.
  - destruct Hi as [Hx ->]. rewrite bool_decide_false by (by intros Hn). by destruct s.
Qed.

Lemma hs_iter_spec s : hs_ok s -> hs_iter SMALL s = Ret (hs_elems s) /\ NoDup (hs_elems s).
Proof using small_ok hash_range.
  intros Hok. split; [|apply (ok_nodup _ _ _ Hok)]. apply (raw_elements_spec SMALL hash_of small_ok hash_range); apply Hok.
Qed.

Lemma for_into_spec {B} (f : B -> T -> outcome B) fuel : forall acc ii, ii_ok SMALL hash_of ii -> (length (table_elements (ii_table ii)) < fuel)%nat ->
  for_into SMALL fuel f acc ii = foldM f acc (table_elements (ii_table ii)).
Proof using small_ok hash_range.
  induction fuel as [|fuel IH]; intros acc ii Hok Hf; [lia|]. cbn [for_into]. pose proof (into_iter_next_spec SMALL hash_of small_ok hash_range ii Hok) as Hn.
  destruct (table_elements (ii_table ii)) as [|x xs] eqn:E.
  - rewrite Hn. cbn [mbind outcome_bind]. by rewrite (raw_free_spec SMALL hash_of small_ok hash_range ii Hok).
  - destruct Hn as (ii' & -> & Hok' & E'). cbn [mbind outcome_bind foldM]. destruct (f acc x) as [acc'| |]; [|done..]. cbn [mbind outcome_bind].
    rewrite IH; [by rewrite E'|done|]. rewrite E'. simpl in Hf. lia.
Qed.

Lemma hs_for_spec {B} (f : B -> T -> outcome B) acc s : hs_ok s -> hs_for SMALL f acc s = foldM f acc (hs_elems s).
Proof using small_ok hash_range.
  intros Hok. unfold hs_for. destruct (raw_into_iter_spec SMALL hash_of small_ok hash_range (hs_table s) Hok) as (ii & -> & Hii & E). cbn [mbind outcome_bind].
  rewrite (for_into_spec f _ acc ii Hii); [by rewrite E|]. rewrite E. fold (hs_elems s). rewrite hs_len_spec by done. lia.
Qed.

(** ** Unions *)

(** Inserting a list, as the loops of [extend] and [merge] do. *)
Lemma extend_spec l : forall s, hs_ok s ->
  match hs_extend SMALL hash_of s l with
  | Ret s' => hs_ok s' /\ forall x, x ∈ hs_elems s' <-> x ∈ hs_elems s \/ x ∈ l
  | Panic => exists s', hs_ok s' /\ (forall x, x ∈ hs_elems s' -> x ∈ hs_elems s \/ x ∈ l) /\ hs_stuck s'
  | OutOfFuel => False
  end.
Proof using small_ok hash_range.
  induction l as [|y l IH]; intros s Hok; cbn [hs_extend foldM]; [split; [done|set_solver]|]. unfold hs_insert_value at 1.
  pose proof (hs_insert_spec s y Hok) as Hi. destruct (hs_insert SMALL hash_of s y) as [[s1 added]| |]; cbn [mbind outcome_bind]; [| |done].
  - destruct Hi as (Hok1 & -> & Hp). specialize (IH s1 Hok1). unfold hs_extend in IH.
    assert (forall x, x ∈ hs_elems s1 <-> x ∈ hs_elems s \/ x = y) as He.
    { intros x. rewrite Hp. case_bool_decide as Hy; [set_solver|]. split; [by left|]. intros [?| ->]; [done|]. destruct (decide (y ∈ hs_elems s)); done. }
    destruct (foldM _ s1 l) as [s'| |]; [| |done].
    + destruct IH as [Hok' Hs']. split; [done|]. set_solver.
    + destruct IH as (s' & Hok' & Hs' & Hst). exists s'. split_and!; [done| |done]. set_solver.
  - destruct Hi as [Hy Hst]. exists s. split_and!; [done| |done]. set_solver.
Qed.

Lemma hs_elems_remove_dups s l : hs_ok s -> (forall x, x ∈ hs_elems s <-> x ∈ l) -> hs_elems s ≡ₚ remove_dups l.
Proof.
  intros Hok He. apply NoDup_Permutation; [apply (ok_nodup _ _ _ Hok)|apply NoDup_remove_dups|]. intros x. by rewrite elem_of_remove_dups.
Qed.

Lemma merge_spec a b : hs_ok a -> hs_ok b ->
  match hs_merge SMALL hash_of a b with
  | Ret (s, n) => hs_ok s /\ (forall x, x ∈ hs_elems s <-> x ∈ hs_elems a \/ x ∈ hs_elems b) /\ n = hs_len s - hs_len a
  | Panic => exists s', hs_ok s' /\ (forall x, x ∈ hs_elems s' -> x ∈ hs_elems a \/ x ∈ hs_elems b) /\ hs_stuck s'
  | OutOfFuel => False
  end.
Proof using small_ok hash_range.
  intros Ha Hb. unfold hs_merge. rewrite hs_is_empty_spec by done. case_bool_decide as Eb; [split_and!; [done|rewrite Eb; set_solver|lia]|].
  destruct (Z.eqb_spec (hs_len a) 0) as [Ea|Ea].
  { rewrite Ea. rewrite hs_len_spec in Ea by done. destruct (hs_elems a) eqn:E; [|simpl in Ea; lia]. split_and!; [done|set_solver|lia]. }
  assert (forall self other, hs_ok self -> hs_ok other -> (forall x, x ∈ hs_elems self \/ x ∈ hs_elems other <-> x ∈ hs_elems a \/ x ∈ hs_elems b) ->
    match (self ← hs_for SMALL (hs_insert_value SMALL hash_of) self other; Ret (self, hs_len self - hs_len a)) with
    | Ret (s, n) => hs_ok s /\ (forall x, x ∈ hs_elems s <-> x ∈ hs_elems a \/ x ∈ hs_elems b) /\ n = hs_len s - hs_len a
    | Panic => exists s', hs_ok s' /\ (forall x, x ∈ hs_elems s' -> x ∈ hs_elems a \/ x ∈ hs_elems b) /\ hs_stuck s'
    | OutOfFuel => False
    end) as Hgen.
  { intros self other Hs Ho He. rewrite hs_for_spec by done. pose proof (extend_spec (hs_elems other) self Hs) as Hx. unfold hs_extend in Hx.
    destruct (foldM _ self _) as [s'| |]; cbn [mbind outcome_bind]; [| |done].
    - destruct Hx as [Hok' Hx]. split_and!; [done| |done]. intros x. by rewrite Hx, He.
    - destruct Hx as (s' & Hok' & Hx & Hst). exists s'. split_and!; [done| |done]. intros x Hin. apply He. by apply Hx. }
  destruct (hs_len a <? hs_len b); apply Hgen; try done; intros x; tauto.
Qed.
End Spec.

(** ** Sets as expressions

    The ways to build a set; [eval_set] runs the operations and [denote] lists the elements put in. *)

Inductive set_expr (T : Type) :=
| ENew
| EWithCapacity (n : N)
| EFromIter (hint : N) (values : list T)
| EInsert (e : set_expr T) (x : T)
| EExtend (e : set_expr T) (values : list T)
| EReserve (e : set_expr T) (additional : N)
| EClone (e : set_expr T)
| EMerge (e1 e2 : set_expr T).
Arguments ENew {T}.
Arguments EWithCapacity {T} n.
Arguments EFromIter {T} hint values.
Arguments EInsert {T} e x.
Arguments EExtend {T} e values.
Arguments EReserve {T} e additional.
Arguments EClone {T} e.
Arguments EMerge {T} e1 e2.

Fixpoint eval_set {T} `{EqDecision T, Layout T, Allocator} (SMALL : Z) (hash_of : T -> Z) (e : set_expr T) : outcome (HybridSet T) :=
  match e with
  | ENew => Ret hs_new
  | EWithCapacity n => hs_with_capacity SMALL (Z.of_N n)
  | EFromIter hint values => hs_from_iter SMALL hash_of (Z.of_N hint) values
  | EInsert e x => s ← eval_set SMALL hash_of e; hs_insert_value SMALL hash_of s x
  | EExtend e values => s ← eval_set SMALL hash_of e; hs_extend SMALL hash_of s values
  | EReserve e n => s ← eval_set SMALL hash_of e; hs_reserve SMALL hash_of s (Z.of_N n)
  | EClone e => s ← eval_set SMALL hash_of e; hs_clone SMALL s
  | EMerge e1 e2 =>
      s1 ← eval_set SMALL hash_of e1; s2 ← eval_set SMALL hash_of e2; '(s, _) ← hs_merge SMALL hash_of s1 s2; Ret s
  end.

Fixpoint denote {T} (e : set_expr T) : list T :=
  match e with
  | ENew | EWithCapacity _ => []
  | EFromIter _ values => values
  | EInsert e x => x :: denote e
  | EExtend e values => values ++ denote e
  | EReserve e _ | EClone e => denote e
  | EMerge e1 e2 => denote e1 ++ denote e2
  end.

(** The elements put in and the room asked for. *)
Fixpoint weight {T} (e : set_expr T) : Z :=
  match e with
  | ENew => 0
  | EWithCapacity n => Z.of_N n
  | EFromIter hint values => Z.of_N hint + Z.of_nat (length values)
  | EInsert e _ => weight e + 1
  | EExtend e values => weight e + Z.of_nat (length values)
  | EReserve e n => weight e + Z.of_N n
  | EClone e => weight e
  | EMerge e1 e2 => weight e1 + weight e2
  end.

Section Expressions.
Context {T : Type} `{EqDecision T, Layout T, Allocator} (SMALL : Z) (hash_of : T -> Z).
Hypothesis small_ok : CHECK_SMALL SMALL = true.
Hypothesis hash_range : forall x, 0 <= hash_of x < 2 ^ 64.
#[local] Notation set_t := (HybridSet T).
#[local] Notation hs_ok := (hs_ok SMALL hash_of).

(** Every table of fewer than [2^32] buckets can be allocated. *)
Definition memory_suffices : Prop := forall c, alloc_cap SMALL c -> c < 2 ^ 32 -> fits (T := T) SMALL c.
Hypothesis enough : memory_suffices.

Lemma cap_for_bound n c : 0 < n < 2 ^ 29 -> cap_for SMALL n = Ret c -> c < 2 ^ 32.
Proof using small_ok.
  intros Hn. pose proof (small_range SMALL small_ok) as Hs. unfold cap_for. destruct (Z.ltb_spec SMALL n) as [Hl|Hle].
  - destruct (buckets_for n) as [b| |] eqn:Eb; [|done..]. cbn [mbind outcome_bind]. intros [= <-].
    apply buckets_for_spec in Eb as (e & He & -> & _ & Hmin); [|lia]. apply Z.max_lub_lt.
    + apply Z.pow_lt_mono_r; [lia|lia|]. destruct Hmin as [->|Hmin]; [lia|]. apply Z.lt_nge. intros Hge.
      replace (2 ^ e) with (2 ^ (e - 1) * 2) in Hmin by (rewrite Z.mul_comm, <- Z.pow_succ_r by lia; f_equal; lia).
      rewrite Z.div_mul, capacity_for_pow2 in Hmin by lia. assert (2 ^ 28 <= 2 ^ (e - 1 - 3)) by (apply Z.pow_le_mono_r; lia). lia.
    + unfold MIN_LARGE_BUCKETS, MIN_BUCKETS, GROUP_WIDTH. destruct (_ <? _); lia.
  - unfold slot_count_for. destruct (_ || _); [intros [= <-]; lia|]. destruct (next_power_of_two n) as [p| |]; [|done..]. cbn [mbind outcome_bind].
    intros [= <-]. lia.
Qed.

Lemma room_fits n c : 0 < n < 2 ^ 29 -> cap_for SMALL n = Ret c -> fits (T := T) SMALL c.
Proof using small_ok enough.
  intros Hn Ec. destruct (cap_for_spec SMALL small_ok n) as (c' & Ec' & Hac & _); [lia..|]. rewrite Ec in Ec'. injection Ec' as <-.
  apply enough; [done|]. by apply (cap_for_bound n).
Qed.

Lemma not_stuck s : hs_ok s -> hs_len s < 2 ^ 28 -> ~ hs_stuck SMALL s.
Proof using small_ok enough.
  intros Hok Hlen (Hfull & c & Ec & Hc). destruct (next_cap_spec SMALL hash_of small_ok (hs_table s) Hok) as (c' & Ec' & Hac & _). rewrite Ec in Ec'. injection Ec' as <-.
  apply Hc. apply enough; [done|]. unfold hs_len in Hlen. unfold next_cap in Ec. rewrite is_large_spec in Ec. case_bool_decide as Hl.
  - injection Ec as <-. unfold capacity in Hfull. rewrite is_large_spec, bool_decide_true in Hfull by done.
    destruct (cap_ok_large SMALL small_ok _ (mem_cap _ _ _ _ (ok_mem _ _ _ Hok)) Hl) as (e & He & E & _). rewrite E, capacity_for_pow2 in Hfull by lia.
    rewrite E, (pow2_split_8 e) by lia. lia.
  - pose proof (ok_len _ _ _ Hok). apply (cap_for_bound (rt_len (hs_table s) + 1)); [lia|done].
Qed.

Lemma extend_total s l : hs_ok s -> hs_len s + Z.of_nat (length l) < 2 ^ 28 -> exists s',
  hs_extend SMALL hash_of s l = Ret s' /\ hs_ok s' /\ hs_len s' <= hs_len s + Z.of_nat (length l) /\ forall x, x ∈ hs_elems s' <-> x ∈ hs_elems s \/ x ∈ l.
Proof using small_ok hash_range enough.
  revert s. induction l as [|y l IH]; intros s Hok Hlen; [exists s; split_and!; [done|done|simpl; lia|set_solver]|]. cbn [hs_extend foldM].
  unfold hs_insert_value at 1. pose proof (hs_insert_spec SMALL hash_of small_ok hash_range s y Hok) as Hi. simpl length in *.
  destruct (hs_insert SMALL hash_of s y) as [[s1 added]| |]; cbn [mbind outcome_bind]; [|by destruct Hi as [_ []%not_stuck]; [..|lia]|done].
  destruct Hi as (Hok1 & -> & Hp). assert (hs_len s1 <= hs_len s + 1) as Hl1.
  { rewrite !(hs_len_spec SMALL hash_of) by done. rewrite Hp. case_bool_decide; simpl; lia. }
  assert (forall x, x ∈ hs_elems s1 <-> x ∈ hs_elems s \/ x = y) as He.
  { intros x. rewrite Hp. case_bool_decide as Hy; [set_solver|]. split; [by left|]. intros [?| ->]; [done|]. destruct (decide (y ∈ hs_elems s)); done. }
  destruct (IH s1 Hok1 ltac:(lia)) as (s' & E & Hok' & Hl' & Hs'). exists s'. split_and!; [done|done|lia|]. set_solver.
Qed.

Lemma merge_total a b : hs_ok a -> hs_ok b -> hs_len a + hs_len b < 2 ^ 28 -> exists s n,
  hs_merge SMALL hash_of a b = Ret (s, n) /\ hs_ok s /\ hs_len s <= hs_len a + hs_len b /\ (forall x, x ∈ hs_elems s <-> x ∈ hs_elems a \/ x ∈ hs_elems b).
Proof using small_ok hash_range enough.
  intros Ha Hb Hlen. pose proof (merge_spec SMALL hash_of small_ok hash_range a b Ha Hb) as Hm.
  assert (forall s, hs_ok s -> (forall x, x ∈ hs_elems s -> x ∈ hs_elems a \/ x ∈ hs_elems b) -> hs_len s <= hs_len a + hs_len b) as Hle.
  { intros s Hs Hin. rewrite !(hs_len_spec SMALL hash_of) by done. assert (length (hs_elems s) <= length (hs_elems a ++ hs_elems b))%nat as Hl; [|rewrite length_app in Hl; lia].
    apply submseteq_length, NoDup_submseteq; [apply (ok_nodup _ _ _ Hs)|]. intros x Hx. apply elem_of_app. by apply Hin. }
  destruct (hs_merge SMALL hash_of a b) as [[s n]| |]; [| |done].
  - destruct Hm as (Hs & Hin & _). exists s, n. split_and!; [done|done| |done]. apply Hle; [done|]. intros x. by rewrite Hin.
  - destruct Hm as (s' & Hs' & Hin & Hst). exfalso. apply (not_stuck s' Hs'); [|done]. specialize (Hle s' Hs' Hin). lia.
Qed.

Lemma with_capacity_total n : 0 <= n < 2 ^ 28 -> exists s, hs_with_capacity SMALL n = Ret s /\ hs_ok s /\ hs_elems s = [] /\ n <= hs_capacity SMALL s.
Proof using small_ok enough.
  intros Hn. unfold hs_with_capacity. pose proof (with_capacity_spec SMALL hash_of small_ok n ltac:(lia) ltac:(lia)) as Hw.
  destruct (with_capacity SMALL n) as [t| |]; cbn [mbind outcome_bind]; [by exists {| hs_table := t |}| |done].
  destruct Hw as (Hpos & c & Ec & Hc). exfalso. apply Hc, (room_fits n); [lia|done].
Qed.

Lemma reserve_total s n : hs_ok s -> 0 <= n -> hs_len s + n < 2 ^ 28 -> exists s',
  hs_reserve SMALL hash_of s n = Ret s' /\ hs_ok s' /\ hs_elems s' ≡ₚ hs_elems s.
Proof using small_ok hash_range enough.
  intros Hok Hn Hlt. unfold hs_reserve. pose proof (ok_len _ _ _ Hok) as Hlen. unfold hs_len in Hlt.
  pose proof (raw_reserve_spec SMALL hash_of small_ok hash_range (hs_table s) n Hok Hn ltac:(lia)) as Hr.
  destruct (raw_reserve SMALL (hs_table s) n hash_of) as [t| |]; cbn [mbind outcome_bind]; [exists {| hs_table := t |}; by destruct Hr as (? & ? & _)| |done].
  destruct Hr as (Hpos & c & Ec & Hc). exfalso. apply Hc, (room_fits (rt_len (hs_table s) + n)); [lia|done].
Qed.

Lemma clone_total s : hs_ok s -> hs_clone SMALL s = Ret s.
Proof using small_ok hash_range enough.
  intros Hok. unfold hs_clone. pose proof (raw_clone_spec SMALL hash_of small_ok hash_range (hs_table s) Hok) as Hc.
  destruct (raw_clone SMALL (hs_table s)) as [t| |]; cbn [mbind outcome_bind]; [by subst; destruct s| |done]. destruct Hc as [Hne Hc]. exfalso. apply Hc, enough.
  - destruct (mem_cap _ _ _ _ (ok_mem _ _ _ Hok)) as [?|[?|?]]; [done|by left|by right; left].
  - apply (cap_ok_range SMALL small_ok), (ok_mem _ _ _ Hok).
Qed.

Lemma weight_nonneg (e : set_expr T) : 0 <= weight e.
Proof. induction e; simpl; lia. Qed.

Lemma eval_set_spec e : weight e < 2 ^ 28 -> exists s, eval_set SMALL hash_of e = Ret s /\ hs_ok s /\ hs_len s <= weight e /\ forall x, x ∈ hs_elems s <-> x ∈ denote e.
Proof using small_ok hash_range enough.
  induction e as [|n|hint vs|e IH x|e IH vs|e IH n|e IH|e1 IH1 e2 IH2]; cbn [weight eval_set denote]; intros Hw.
  - exists hs_new. destruct (raw_new_ok SMALL hash_of small_ok). split_and!; [done..|]. done.
  - destruct (with_capacity_total (Z.of_N n)) as (s & -> & Hok & E & _); [lia|]. exists s. split_and!; [done|done| |by rewrite E].
    rewrite (hs_len_spec SMALL hash_of), E by done. simpl. lia.
  - unfold hs_from_iter. destruct (with_capacity_total (Z.of_N hint)) as (s & -> & Hok & E & _); [lia|]. cbn [mbind outcome_bind].
    assert (hs_len s = 0) as Hl by (rewrite (hs_len_spec SMALL hash_of), E by done; done).
    destruct (extend_total s vs Hok) as (s' & -> & Hok' & Hl' & Hs'); [lia|]. exists s'. split_and!; [done|done|lia|]. rewrite E in Hs'. set_solver.
  - destruct IH as (s & -> & Hok & Hl & Hs); [lia|]. cbn [mbind outcome_bind]. destruct (extend_total s [x] Hok) as (s' & E & Hok' & Hl' & Hs'); [simpl; lia|].
    cbn [hs_extend foldM] in E. exists s'. split_and!; [by destruct (hs_insert_value SMALL hash_of s x)|done|simpl in Hl'; lia|]. set_solver.
  - destruct IH as (s & -> & Hok & Hl & Hs); [lia|]. cbn [mbind outcome_bind]. destruct (extend_total s vs Hok) as (s' & E & Hok' & Hl' & Hs'); [lia|].
    exists s'. split_and!; [done|done|lia|]. set_solver.
  - destruct IH as (s & -> & Hok & Hl & Hs); [lia|]. cbn [mbind outcome_bind]. destruct (reserve_total s (Z.of_N n) Hok) as (s' & E & Hok' & Hp); [lia..|].
    exists s'. split_and!; [done|done| |by intros x; rewrite Hp]. rewrite (hs_len_spec SMALL hash_of) in Hl |- * by done. rewrite Hp. lia.
  - destruct IH as (s & -> & Hok & Hl & Hs); [lia|]. cbn [mbind outcome_bind]. rewrite clone_total by done. by exists s.
  - pose proof (weight_nonneg e1). pose proof (weight_nonneg e2). destruct IH1 as (s1 & -> & Hok1 & Hl1 & Hs1); [lia|]. destruct IH2 as (s2 & -> & Hok2 & Hl2 & Hs2); [lia|].
    cbn [mbind outcome_bind]. destruct (merge_total s1 s2 Hok1 Hok2) as (s & n & -> & Hok & Hl & Hs); [lia|]. cbn [mbind outcome_bind]. exists s.
    split_and!; [done|done|lia|]. set_solver.
Qed.
End Expressions.

(** ** The theorems on sets *)

Section Theorems.
Context {T : Type} `{EqDecision T, Layout T, Allocator} (SMALL : Z) (hash_of : T -> Z).

(** C15: A set refines the mathematical set its construction denotes.  For every composition of [new],
    [with_capacity], [from_iter], [insert], [extend], [reserve], [clone] and [merge] that handles fewer than
    2^28 elements, with every threshold the type accepts and every hash function, the construction returns; the
    set it returns answers [contains] for every value, reports its number of distinct elements as [len], and
    iterates over each exactly once. *)
Theorem hybrid_set_refines_set (e : set_expr T) (Hsmall : CHECK_SMALL SMALL = true)
    (Hhash : forall x, 0 <= hash_of x < 2 ^ 64) (Hmem : memory_suffices (T := T) SMALL) (Hweight : weight e < 2 ^ 28) :
  exists s l, eval_set SMALL hash_of e = Ret s /\ hs_iter SMALL s = Ret l /\ l ≡ₚ remove_dups (denote e) /\
    hs_len s = Z.of_nat (length (remove_dups (denote e))) /\
    forall x, hs_contains SMALL hash_of s x = Ret (bool_decide (x ∈ denote e)).
Proof.
  destruct (eval_set_spec SMALL hash_of Hsmall Hhash Hmem e Hweight) as (s & E & Hok & _ & Hs). exists s, (hs_elems s).
  pose proof (hs_elems_remove_dups SMALL hash_of s (denote e) Hok Hs) as Hp. split_and!; [done|by apply (hs_iter_spec SMALL hash_of)|done| |].
  - rewrite (hs_len_spec SMALL hash_of s Hok). by rewrite Hp.
  - intros x. rewrite (hs_contains_spec SMALL hash_of) by done. f_equal. apply bool_decide_ext. apply Hs.
Qed.

(** [merge] is the union, whichever of the two sets it inserts into the other, and returns how many elements
    were new to the first; it stops only when a set of elements of the two is full and its next block cannot be
    had. *)
Theorem hybrid_set_merge_correct (a b : HybridSet T) (Hsmall : CHECK_SMALL SMALL = true)
    (Hhash : forall x, 0 <= hash_of x < 2 ^ 64) (Ha : hs_ok SMALL hash_of a) (Hb : hs_ok SMALL hash_of b) :
  match hs_merge SMALL hash_of a b with
  | Ret (s, n) => hs_ok SMALL hash_of s /\ hs_elems s ≡ₚ hs_elems a ++ filter (fun x => x ∉ hs_elems a) (hs_elems b) /\
      n = Z.of_nat (length (filter (fun x => x ∉ hs_elems a) (hs_elems b)))
  | Panic => exists s, hs_ok SMALL hash_of s /\ hs_elems s ⊆ hs_elems a ++ hs_elems b /\ hs_stuck SMALL s
  | OutOfFuel => False
  end.
Proof.
  pose proof (merge_spec SMALL hash_of Hsmall Hhash a b Ha Hb) as Hm. destruct (hs_merge SMALL hash_of a b) as [[s n]| |]; [| |done].
  - destruct Hm as (Hs & Hin & ->). assert (hs_elems s ≡ₚ hs_elems a ++ filter (fun x => x ∉ hs_elems a) (hs_elems b)) as Hp.
    { apply NoDup_Permutation; [apply (ok_nodup _ _ _ Hs)| |].
      - apply NoDup_app. split_and!; [apply (ok_nodup _ _ _ Ha)| |apply NoDup_filter, (ok_nodup _ _ _ Hb)]. intros x Hx [? _]%list_elem_of_filter. done.
      - intros x. rewrite Hin, elem_of_app, list_elem_of_filter. destruct (decide (x ∈ hs_elems a)); tauto. }
    split_and!; [done|done|]. rewrite !(hs_len_spec SMALL hash_of) by done. rewrite Hp, length_app. lia.
  - destruct Hm as (s & Hs & Hin & Hst). exists s. split_and!; [done| |done]. intros x Hx. apply elem_of_app. by apply Hin.
Qed.

Definition regime_exact (t : RawTable T) : Prop := SMALL < rt_cap t -> SMALL < rt_len t.

Lemma cap_for_small n c : SMALL <> 0 -> 0 <= SMALL -> cap_for SMALL n = Ret c -> n <= SMALL -> c <= SMALL.
Proof.
  intros Hne Hs. unfold cap_for. intros Ec Hn. rewrite (proj2 (Z.ltb_ge _ _)) in Ec by lia. unfold slot_count_for in Ec.
  destruct (_ || _); [injection Ec as <-; lia|]. destruct (next_power_of_two n) as [p| |]; [|done..]. injection Ec as <-. lia.
Qed.

Lemma insert_regime (Hsmall : CHECK_SMALL SMALL = true) (Hhash : forall x, 0 <= hash_of x < 2 ^ 64) s x s' added :
  hs_ok SMALL hash_of s -> regime_exact (hs_table s) -> hs_insert SMALL hash_of s x = Ret (s', added) -> hs_ok SMALL hash_of s' /\ regime_exact (hs_table s').
Proof.
  intros Hok Hr. unfold hs_insert. pose proof (raw_insert_spec SMALL hash_of Hsmall Hhash (hs_table s) x Hok) as Hi.
  destruct (raw_insert _ _ _ _ _) as [[t []]| |]; cbn [mbind outcome_bind insert_result] in *; [|..|done|done]; intros [= <- <-]; cbn [hs_table].
  2: { by destruct Hi as [_ ->]. }
  destruct Hi as (_ & Ht & Hp & Hcap). split; [done|]. pose proof (small_range SMALL Hsmall) as Hsr.
  assert (rt_len t = rt_len (hs_table s) + 1) as Hlen by (rewrite (ok_len _ _ _ Ht), (ok_len _ _ _ Hok), Hp; simpl; lia).
  intros Hl. destruct Hcap as [E|[Hfull Ec]]; [rewrite E in Hl; specialize (Hr Hl); lia|]. unfold next_cap in Ec. rewrite is_large_spec in Ec.
  case_bool_decide as Hls; [specialize (Hr Hls); lia|]. apply Z.lt_nge. intros Hle.
  destruct (decide (SMALL = 0)) as [E0|Hne]; [pose proof (ok_len _ _ _ Hok); lia|]. pose proof (cap_for_small _ _ Hne ltac:(lia) Ec ltac:(lia)). lia.
Qed.

(** C20: A set grown by insertions from an empty one changes to the large regime exactly with the element that takes
    it past the threshold: it is a Swiss table if and only if it holds more than [SMALL] elements.  A set that
    asked for more room than the threshold is large with no element in it, so the length alone is a test of
    the regime only for sets grown by insertion. *)
Theorem promotion_at_threshold (l : list T) (s : HybridSet T) (Hsmall : CHECK_SMALL SMALL = true)
    (Hhash : forall x, 0 <= hash_of x < 2 ^ 64) (Hrun : hs_extend SMALL hash_of hs_new l = Ret s) :
  (hs_is_large SMALL s = true <-> SMALL < hs_len s) /\
  forall n (s' : HybridSet T), SMALL < n -> n * 8 < 2 ^ 64 -> hs_with_capacity SMALL n = Ret s' -> hs_is_large SMALL s' = true /\ hs_len s' = 0.
Proof.
  pose proof (small_range SMALL Hsmall) as Hsr. split.
  - assert (forall s0, hs_ok SMALL hash_of s0 -> regime_exact (hs_table s0) -> hs_extend SMALL hash_of s0 l = Ret s -> hs_ok SMALL hash_of s /\ regime_exact (hs_table s)) as Hgen.
    { clear Hrun. induction l as [|x l IH]; intros s0 Hok Hr; cbn [hs_extend foldM]; [by intros [= <-]|]. unfold hs_insert_value at 1.
      destruct (hs_insert SMALL hash_of s0 x) as [[s1 added]| |] eqn:E; cbn [mbind outcome_bind]; [|done..].
      destruct (insert_regime Hsmall Hhash s0 x s1 added Hok Hr E) as [Hok1 Hr1]. by apply IH. }
    destruct (Hgen hs_new) as [Hok Hr]; [by apply raw_new_ok|intros Hl; cbn in Hl; lia|done|]. unfold hs_is_large. rewrite is_large_spec, bool_decide_eq_true.
    split; [exact Hr|]. intros Hlt. pose proof (len_le_capacity SMALL hash_of _ Hok) as Hle. pose proof (capacity_le SMALL hash_of Hsmall _ Hok).
    unfold hs_len in Hlt. lia.
  - intros n s' Hn Hlt E. unfold hs_with_capacity in E. pose proof (with_capacity_spec SMALL hash_of Hsmall n ltac:(lia) Hlt) as Hw.
    destruct (with_capacity SMALL n) as [t| |]; [|done..]. injection E as <-. destruct Hw as (Hok & He & Hcap). unfold hs_is_large, hs_len. cbn [hs_table].
    split; [|by rewrite (ok_len _ _ _ Hok), He]. unfold capacity in Hcap. rewrite is_large_spec in *. case_bool_decide; [done|lia].
Qed.
End Theorems.

(** ** The interface to the stores *)

(** A set as its clients use it. *)
Class SetOps (T S : Type) := {
  set_new : S;
  set_len : S -> Z;
  set_contains : S -> T -> outcome bool;
  set_insert : S -> T -> outcome (S * bool);
  set_iter : S -> outcome (list T);
  set_for : forall B : Type, (B -> T -> outcome B) -> B -> S -> outcome B;
  set_clone : S -> outcome S
}.
#[global] Hint Mode SetOps - ! : typeclass_instances.
Arguments set_for {T S _ B} _ _ _.

(** What it promises: the elements of a well-formed set, and what each operation does with them.  [set_stuck]
    are the sets that cannot take another element. *)
Class SetLaws (T S : Type) `{EqDecision T, SetOps T S} := {
  set_ok : S -> Prop;
  set_elems : S -> list T;
  set_stuck : S -> Prop;
  set_new_law : set_ok set_new /\ set_elems set_new = [];
  set_len_law s : set_ok s -> set_len s = Z.of_nat (length (set_elems s)) /\ NoDup (set_elems s);
  set_contains_law s x : set_ok s -> set_contains s x = Ret (bool_decide (x ∈ set_elems s));
  set_insert_law s x : set_ok s ->
    match set_insert s x with
    | Ret (s', added) => set_ok s' /\ added = bool_decide (x ∉ set_elems s) /\ set_elems s' ≡ₚ (if added then x :: set_elems s else set_elems s)
    | Panic => x ∉ set_elems s /\ set_stuck s
    | OutOfFuel => False
    end;
  set_iter_law s : set_ok s -> set_iter s = Ret (set_elems s);
  set_for_law {B} (f : B -> T -> outcome B) acc s : set_ok s -> set_for f acc s = foldM f acc (set_elems s)
}.

(** The default set: threshold 64, and a hasher for the element type. *)
Class Hasher (T : Type) := { hash_one : T -> Z; hash_one_range : forall x, 0 <= hash_one x < 2 ^ 64 }.
#[global] Hint Mode Hasher ! : typeclass_instances.

#[export] Instance hybrid_set_ops {T} `{EqDecision T, Layout T, Allocator, Hasher T} : SetOps T (HybridSet T) := {
  set_new := hs_new;
  set_len := hs_len;
  set_contains := hs_contains SMALL_THRESHOLD hash_one;
  set_insert := hs_insert SMALL_THRESHOLD hash_one;
  set_iter := hs_iter SMALL_THRESHOLD;
  set_for := fun B f acc s => hs_for SMALL_THRESHOLD f acc s;
  set_clone := hs_clone SMALL_THRESHOLD
}.

#[export] Instance hybrid_set_laws {T} `{EqDecision T, Layout T, Allocator, Hasher T} : SetLaws T (HybridSet T).
Proof.
  refine {| set_ok := hs_ok SMALL_THRESHOLD hash_one; set_elems := hs_elems; set_stuck := hs_stuck SMALL_THRESHOLD |}.
  - by apply raw_new_ok.
  - intros s Hok. split; [by apply (hs_len_spec SMALL_THRESHOLD hash_one)|apply (ok_nodup _ _ _ Hok)].
  - intros s x. by apply hs_contains_spec, hash_one_range.
  - intros s x. by apply hs_insert_spec, hash_one_range.
  - intros s Hok. by destruct (hs_iter_spec SMALL_THRESHOLD hash_one eq_refl hash_one_range s Hok).
  - intros B f acc s. by apply (hs_for_spec SMALL_THRESHOLD hash_one), hash_one_range.
Defined.

(** ** Witnesses *)

#[local] Existing Instances word_layout any_block.

(** Elements of up to 1024 bytes, aligned to words. *)
Lemma any_memory_suffices {T} `{Layout T} SMALL : align_of T = 8 -> 0 <= size_of T <= 1024 -> (8 | size_of T) -> memory_suffices (T := T) SMALL.
Proof.
  intros Hal Hsz [k Hk] c Hc Hlt. split; [done|]. destruct (alloc_cap_pow2 SMALL c Hc) as (e & He & -> & _). assert (0 < 2 ^ e) by lia.
  unfold layout. rewrite (proj2 (Z.ltb_lt _ _)), is_power_of_two_pow2 by done. cbn [andb rust_assert mbind outcome_bind].
  rewrite Hal. change (Z.max 8 META_ALIGN) with 8. unfold mul_usize, add_usize. assert (0 <= size_of T * 2 ^ e <= 1024 * 2 ^ 32) by nia.
  rewrite (proj2 (Z.ltb_lt (size_of T * 2 ^ e) _)) by lia. cbn [mbind outcome_bind].
  replace ((size_of T * 2 ^ e + 8 - 1) / 8 * 8) with (size_of T * 2 ^ e).
  2: { rewrite Hk. replace (k * 8 * 2 ^ e + 8 - 1) with (7 + k * 2 ^ e * 8) by lia. rewrite Z_div_plus_full by lia. change (7 / 8) with 0. lia. }
  rewrite (proj2 (Z.ltb_lt (size_of T * 2 ^ e) _)) by lia. cbn [mbind outcome_bind].
  assert (0 <= meta_len SMALL (2 ^ e) <= 2 ^ e + 8) by (unfold meta_len, ctrl_len, GROUP_WIDTH; destruct (_ <? _); lia).
  rewrite (proj2 (Z.ltb_lt _ _)) by lia. cbn [mbind outcome_bind]. rewrite (proj2 (Z.leb_le _ _)) by lia. by eexists _, _, _.
Qed.

Lemma word_memory_suffices : memory_suffices (T := Z) 2.
Proof. apply any_memory_suffices; [done|done|by exists 1]. Qed.

Lemma hybrid_set_refines_set_witness : exists s l, eval_set 2 word_hash (EMerge (EFromIter 3 [7; 8; 7]) (EInsert (EReserve ENew 9) 8)) = Ret s /\
  hs_iter 2 s = Ret l /\ l ≡ₚ [7; 8] /\ hs_len s = 2 /\ hs_contains 2 word_hash s 7 = Ret true /\ hs_contains 2 word_hash s 9 = Ret false.
Proof.
  destruct (hybrid_set_refines_set 2 word_hash (EMerge (EFromIter 3 [7; 8; 7]) (EInsert (EReserve ENew 9) 8)) eq_refl word_hash_range word_memory_suffices)
    as (s & l & H1 & H2 & H3 & H4 & H5); [vm_compute; reflexivity|].
  exists s, l. split_and!; [exact H1|exact H2|exact H3|exact H4|rewrite H5; reflexivity|rewrite H5; reflexivity].
Defined.

Lemma hybrid_set_merge_correct_witness :
  match hs_merge 2 word_hash {| hs_table := sample_table |} {| hs_table := insert_word sample_table 16 |} with
  | Ret (s, n) => hs_ok 2 word_hash s /\ n = 1
  | _ => False
  end.
Proof.
  pose proof (hybrid_set_merge_correct 2 word_hash {| hs_table := sample_table |} {| hs_table := insert_word sample_table 16 |} eq_refl word_hash_range
    sample_table_ok (insert_word_ok _ 16 sample_table_ok)) as Hm.
  destruct (hs_merge 2 word_hash _ _) as [[s n]| |] eqn:E; [|vm_compute in E; discriminate E..]. destruct Hm as (Hok & _ & Hn). split; [exact Hok|].
  rewrite Hn. vm_compute. reflexivity.
Defined.

Lemma promotion_at_threshold_witness : exists s s' : HybridSet Z, hs_extend 2 word_hash hs_new [3; 14] = Ret s /\ hs_is_large 2 s = false /\
  hs_with_capacity 2 100 = Ret s' /\ hs_is_large 2 s' = true /\ hs_len s' = 0.
Proof.
  destruct (hs_extend 2 word_hash hs_new [3; 14]) as [s| |] eqn:E; [|vm_compute in E; discriminate E..].
  destruct (promotion_at_threshold 2 word_hash [3; 14] s eq_refl word_hash_range E) as [H1 H2].
  destruct (hs_with_capacity (T := Z) 2 100) as [s'| |] eqn:E'; [|vm_compute in E'; discriminate E'..].
  exists s, s'. destruct (H2 100 s' ltac:(lia) ltac:(lia) E') as [H3 H4].
  split_and!; [reflexivity| |reflexivity|exact H3|exact H4]. vm_compute in E. injection E as <-. reflexivity.
Defined.
