(* ===== verification/PathGroup.v ===== *)
(** * PathGroup: the leaves of one group, keyed by path

    src/ctadl-index/src/index_engine/path_group.rs: a group is one set of whole leaves while it is small, and
    above the threshold a map from a path to the set of its other columns.  The group is written and proved
    against the interface of [HybridSet] ([SetOps], [SetLaws]); the last section puts the hybrid sets in.  The map
    is hashbrown's, used as a finite map; its iteration order is not specified and is that of [map_to_list]
    here, so what follows is up to permutation. *)

From S2P Require Import Prelude Bits Swiss RawTable TableInv TableOps TableIter TableGrow TableConsume HybridSet.

#[local] Open Scope Z_scope.
Set Default Proof Using "Type".

(** ** Operations *)

Section Group.
Context {P A B S1 S2 : Type} `{Countable P, EqDecision A, EqDecision B, SetOps (P * A * B) S1, SetOps (A * B) S2}.

Inductive PathGroup :=
| Flat (set : S1)
| ByPath (map : gmap P S2) (len : Z).

Definition pg_new : PathGroup := Flat set_new.

Definition pg_len (g : PathGroup) : Z := match g with Flat set => set_len set | ByPath _ len => len end.
Definition pg_is_empty (g : PathGroup) : bool := pg_len g =? 0.
Definition pg_is_large (g : PathGroup) : bool := match g with Flat _ => false | ByPath _ _ => true end.

(** [seen.contains(&p)], [seen.push(p)]. *)
Definition see_path (seen : list P) (leaf : P * A * B) : list P :=
  let '(p, _, _) := leaf in if decide (p ∈ seen) then seen else seen ++ [p].

Definition pg_num_paths (g : PathGroup) : outcome Z :=
  match g with
  | Flat set => l ← set_iter set; Ret (Z.of_nat (length (foldl see_path [] l)))
  | ByPath map _ => Ret (Z.of_nat (size map))
  end.

Definition pg_contains (g : PathGroup) (p : P) (a : A) (b : B) : outcome bool :=
  match g with
  | Flat set => set_contains set (p, a, b)
  | ByPath map _ => match map !! p with Some set => set_contains set (a, b) | None => Ret false end
  end.

(** [map.entry(p).or_default().insert((a, b))], and the count. *)
Definition by_path_insert (acc : gmap P S2 * Z) (leaf : P * A * B) : outcome (gmap P S2 * Z * bool) :=
  let '(map, len) := acc in
  let '(p, a, b) := leaf in
  '(set, added) ← set_insert (default set_new (map !! p)) (a, b);
  Ret (<[p := set]> map, if added : bool then len + 1 else len, added).

Definition pg_promote (set : S1) : outcome (gmap P S2 * Z) :=
  set_for (fun acc leaf => '(acc, _) ← by_path_insert acc leaf; Ret acc) (∅, 0) set.

Definition pg_insert (g : PathGroup) (leaf : P * A * B) : outcome (PathGroup * bool) :=
  match g with
  | Flat set =>
      if set_len set <? SMALL_THRESHOLD then '(set, added) ← set_insert set leaf; Ret (Flat set, added)
      else
        '(map, len) ← pg_promote set;
        '(map, len, added) ← by_path_insert (map, len) leaf;
        Ret (ByPath map len, added)
  | ByPath map len =>
      '(map, len, added) ← by_path_insert (map, len) leaf;
      Ret (ByPath map len, added)
  end.

(** [for leaf in group]: the sets of the map in its order, each with its path. *)
Definition pg_for {C : Type} (f : C -> P * A * B -> outcome C) (acc : C) (g : PathGroup) : outcome C :=
  match g with
  | Flat set => set_for f acc set
  | ByPath map _ => foldM (fun acc '(p, set) => set_for (fun acc '(a, b) => f acc (p, a, b)) acc set) acc (map_to_list map)
  end.

Definition merge_leaf (acc : PathGroup * Z) (leaf : P * A * B) : outcome (PathGroup * Z) :=
  '(g, new) ← pg_insert (fst acc) leaf;
  Ret (g, if new : bool then snd acc + 1 else snd acc).

Definition pg_merge (self other : PathGroup) : outcome (PathGroup * Z) :=
  if pg_is_empty other then Ret (self, 0)
  else if pg_is_empty self then Ret (other, pg_len other)
  else pg_for merge_leaf (self, 0) other.

Definition pg_iter (g : PathGroup) : outcome (list (P * A * B)) :=
  match g with
  | Flat set => set_iter set
  | ByPath m _ =>
      ls ← mapM_out (fun '(p, set) => l ← set_iter set; Ret (map (fun '(a, b) => (p, a, b)) l)) (map_to_list m);
      Ret (concat ls)
  end.

(** [Get::Flat] walks the leaves and keeps those at [p]; [Get::ByPath] is the set of [p]. *)
Definition pg_get (g : PathGroup) (p : P) : outcome (option (list (A * B))) :=
  match g with
  | Flat set =>
      l ← set_iter set;
      if existsb (fun '(pp, _, _) => bool_decide (pp = p)) l
      then Ret (Some (omap (fun '(pp, a, b) => if decide (pp = p) then Some (a, b) else None) l))
      else Ret None
  | ByPath map _ =>
      match map !! p with Some set => l ← set_iter set; Ret (Some l) | None => Ret None end
  end.
End Group.
Arguments PathGroup _ _ _ {_ _} : assert.

(** ** The set a group is *)

Section GroupSpec.
Context {P A B S1 S2 : Type} `{Countable P, EqDecision A, EqDecision B, SetOps (P * A * B) S1, SetOps (A * B) S2}.
Context `{!SetLaws (P * A * B) S1, !SetLaws (A * B) S2}.
#[local] Notation group := (PathGroup P S1 S2).
#[local] Notation leaf_t := (P * A * B)%type.

Definition with_path (p : P) (ab : A * B) : leaf_t := (p, ab.1, ab.2).

(** The leaves of the map, and of the group. *)
Definition map_leaves (m : gmap P S2) : list leaf_t := map_to_list m ≫= (fun '(p, s) => map (with_path p) (set_elems s)).
Definition pg_leaves (g : group) : list leaf_t := match g with Flat s => set_elems s | ByPath m _ => map_leaves m end.

Definition map_ok (m : gmap P S2) : Prop := map_Forall (fun _ s => set_ok s /\ set_elems s <> []) m.
Definition pg_ok (g : group) : Prop :=
  match g with
  | Flat s => set_ok s /\ set_len s <= SMALL_THRESHOLD
  | ByPath m len => map_ok m /\ len = Z.of_nat (length (map_leaves m))
  end.

(** A set of these leaves that cannot take another element. *)
Definition pg_stuck (l : list leaf_t) : Prop :=
  (exists s : S1, set_ok s /\ set_stuck s /\ set_elems s ⊆ l) \/
  (exists p (s : S2), set_ok s /\ set_stuck s /\ map (with_path p) (set_elems s) ⊆ l).

Lemma pg_stuck_mono l l' : l ⊆ l' -> pg_stuck l -> pg_stuck l'.
Proof. intros Hl [(s & ? & ? & ?)|(p & s & ? & ? & ?)]; [left; exists s|right; exists p, s]; (split_and!; [done..|by etrans]). Qed.

Lemma map_leaves_elem (m : gmap P S2) p a b : (p, a, b) ∈ map_leaves m <-> exists s, m !! p = Some s /\ (a, b) ∈ set_elems s.
Proof.
  unfold map_leaves. rewrite list_elem_of_bind. split.
  - intros ([q s] & ([a' b'] & [= -> -> ->] & Hin)%elem_of_map & Hm%elem_of_map_to_list). by exists s.
  - intros (s & Hm & Hin). exists (p, s). split; [|by apply elem_of_map_to_list]. apply elem_of_map. by exists (a, b).
Qed.

Lemma map_leaves_insert (m : gmap P S2) p s : map_leaves (<[p := s]> m) ≡ₚ map (with_path p) (set_elems s) ++ map_leaves (delete p m).
Proof.
  unfold map_leaves. rewrite <- insert_delete_eq. rewrite map_to_list_insert by apply lookup_delete_eq. done.
Qed.

Lemma map_leaves_split (m : gmap P S2) p s : m !! p = Some s -> map_leaves m ≡ₚ map (with_path p) (set_elems s) ++ map_leaves (delete p m).
Proof. intros Hp. rewrite <- (insert_id m p s Hp) at 1. apply map_leaves_insert. Qed.

#[export] Instance with_path_inj p : Inj (=) (=) (with_path p).
Proof. intros [a b] [a' b'] [= -> ->]. done. Qed.

Lemma map_leaves_NoDup (m : gmap P S2) : map_ok m -> NoDup (map_leaves m).
Proof.
  induction m as [|p s m Hp IH] using map_ind; [intros _; unfold map_leaves; rewrite map_to_list_empty; apply NoDup_nil_2|].
  intros Hok. rewrite map_leaves_insert. rewrite delete_id by done. apply NoDup_app. split_and!.
  - apply (NoDup_fmap_2 (with_path p)). apply set_len_law. apply (Hok p s (lookup_insert_eq m p s)).
  - intros x (ab & -> & _)%elem_of_map (s' & Hs' & _)%map_leaves_elem. congruence.
  - apply IH. by eapply map_Forall_insert_1_2.
Qed.

Lemma pg_leaves_NoDup g : pg_ok g -> NoDup (pg_leaves g).
Proof. destruct g as [s|m len]; intros [Hs _]; [by apply set_len_law|by apply map_leaves_NoDup]. Qed.

Lemma pg_len_spec g : pg_ok g -> pg_len g = Z.of_nat (length (pg_leaves g)).
Proof. destruct g as [s|m len]; intros [Hs Hl]; [by apply set_len_law|done]. Qed.

Lemma pg_contains_spec g p a b : pg_ok g -> pg_contains g p a b = Ret (bool_decide ((p, a, b) ∈ pg_leaves g)).
Proof.
  destruct g as [s|m len]; intros [Hs _]; cbn [pg_contains pg_leaves]; [by apply set_contains_law|].
  assert ((p, a, b) ∈ map_leaves m <-> exists s, m !! p = Some s /\ (a, b) ∈ set_elems s) as E by apply map_leaves_elem.
  destruct (m !! p) as [s|] eqn:Ep.
  - rewrite set_contains_law by (by apply (Hs p)). f_equal. apply bool_decide_ext. rewrite E. naive_solver.
  - rewrite bool_decide_false; [done|]. rewrite E. naive_solver.
Qed.

Lemma by_path_insert_spec m len leaf : map_ok m -> len = Z.of_nat (length (map_leaves m)) ->
  match by_path_insert (m, len) leaf with
  | Ret (m', len', added) => map_ok m' /\ len' = Z.of_nat (length (map_leaves m')) /\ added = bool_decide (leaf ∉ map_leaves m) /\
      map_leaves m' ≡ₚ (if added then leaf :: map_leaves m else map_leaves m)
  | Panic => leaf ∉ map_leaves m /\ pg_stuck (map_leaves m)
  | OutOfFuel => False
  end.
Proof.
  intros Hm Hlen. destruct leaf as [[p a] b]. cbn [by_path_insert]. set (s := default set_new (m !! p)).
  assert (set_ok s /\ map_leaves m ≡ₚ map (with_path p) (set_elems s) ++ map_leaves (delete p m)) as [Hs Hsplit].
  { unfold s. destruct (m !! p) as [s0|] eqn:Ep; simpl; [split; [by apply (Hm p)|by apply map_leaves_split]|].
    destruct set_new_law as [Hnew Enew]. split; [done|]. rewrite Enew, delete_id by done. done. }
  assert ((p, a, b) ∈ map_leaves m <-> (a, b) ∈ set_elems s) as Hin.
  { rewrite Hsplit, elem_of_app. change (p, a, b) with (with_path p (a, b)). rewrite (list_elem_of_fmap_inj (with_path p)). split; [|by left].
    intros [?|(s' & Hs' & _)%map_leaves_elem]; [done|]. by rewrite lookup_delete_eq in Hs'. }
  pose proof (set_insert_law s (a, b) Hs) as Hi. destruct (set_insert s (a, b)) as [[s' added]| |]; cbn [mbind outcome_bind]; [| |done].
  - destruct Hi as (Hs' & Ha & Hp). assert (added = bool_decide ((p, a, b) ∉ map_leaves m)) as Ha' by (rewrite Ha; apply bool_decide_ext; by rewrite Hin).
    assert (map_leaves (<[p := s']> m) ≡ₚ (if added then (p, a, b) :: map_leaves m else map_leaves m)) as Hl.
    { rewrite map_leaves_insert. apply (Permutation_map (with_path p)) in Hp. rewrite Hp. by destruct added; rewrite Hsplit. }
    split_and!; [|destruct added; rewrite Hl, Hlen; simpl; lia|done|done].
    apply map_Forall_insert_2; [|done]. split; [done|]. intros E. rewrite E in Hp. apply Permutation_nil_l in Hp. destruct added; [done|].
    symmetry in Ha. apply bool_decide_eq_false in Ha. apply Ha. rewrite <- Hp. apply not_elem_of_nil.
  - destruct Hi as [Hx Hst]. split; [by rewrite Hin|]. right. exists p, s. split_and!; [done..|]. intros x Hx'. rewrite Hsplit. apply elem_of_app. by left.
Qed.

(** Inserting leaves into the map, as [promote] does. *)
Lemma promote_fold l : forall m len, map_ok m -> len = Z.of_nat (length (map_leaves m)) ->
  match foldM (fun acc leaf => '(acc, _) ← by_path_insert acc leaf; Ret acc) (m, len) l with
  | Ret (m', len') => map_ok m' /\ len' = Z.of_nat (length (map_leaves m')) /\ (forall x, x ∈ map_leaves m' <-> x ∈ map_leaves m \/ x ∈ l)
  | Panic => pg_stuck (map_leaves m ++ l)
  | OutOfFuel => False
  end.
Proof.
  induction l as [|y l IH]; intros m len Hm Hlen; cbn [foldM]; [split_and!; [done..|]; intros x; rewrite elem_of_nil; tauto|].
  pose proof (by_path_insert_spec m len y Hm Hlen) as Hi. destruct (by_path_insert (m, len) y) as [[[m1 len1] added]| |]; cbn [mbind outcome_bind]; [| |done].
  - destruct Hi as (Hm1 & Hl1 & Ha & Hp). assert (forall x, x ∈ map_leaves m1 <-> x ∈ map_leaves m \/ x = y) as Hin.
    { intros x. rewrite Hp. destruct added; [rewrite elem_of_cons; tauto|]. symmetry in Ha. apply bool_decide_eq_false in Ha.
      assert (y ∈ map_leaves m) by (destruct (decide (y ∈ map_leaves m)); done). naive_solver. }
    specialize (IH m1 len1 Hm1 Hl1). destruct (foldM _ (m1, len1) l) as [[m' len']| |]; [| |done].
    + destruct IH as (? & ? & IH). split_and!; [done..|]. intros x. rewrite IH, Hin, elem_of_cons. tauto.
    + eapply pg_stuck_mono; [|done]. intros x. rewrite !elem_of_app, Hin, elem_of_cons. tauto.
  - destruct Hi as [_ Hst]. eapply pg_stuck_mono; [|done]. intros x Hx. apply elem_of_app. by left.
Qed.

Lemma map_ok_empty : map_ok ∅ /\ map_leaves ∅ = [].
Proof. split; [apply map_Forall_empty|]. unfold map_leaves. by rewrite map_to_list_empty. Qed.

Lemma pg_insert_spec g leaf : pg_ok g ->
  match pg_insert g leaf with
  | Ret (g', added) => pg_ok g' /\ added = bool_decide (leaf ∉ pg_leaves g) /\ pg_leaves g' ≡ₚ (if added then leaf :: pg_leaves g else pg_leaves g)
  | Panic => pg_stuck (pg_leaves g)
  | OutOfFuel => False
  end.
Proof.
  destruct g as [s|m len]; intros [Hs Hl]; cbn [pg_insert pg_leaves].
  - destruct (Z.ltb_spec (set_len s) SMALL_THRESHOLD) as [Hlt|Hge].
    + pose proof (set_insert_law s leaf Hs) as Hi. destruct (set_insert s leaf) as [[s' added]| |]; cbn [mbind outcome_bind]; [| |done].
      * destruct Hi as (Hs' & Ha & Hp). split; [split; [done|]|done]. destruct (set_len_law s Hs) as [Hl1 _], (set_len_law s' Hs') as [Hl2 _].
        rewrite Hl2. destruct added; rewrite Hp; simpl; lia.
      * destruct Hi as [_ Hst]. left. by exists s.
    + unfold pg_promote. rewrite set_for_law by done. destruct map_ok_empty as [He E0].
      pose proof (promote_fold (set_elems s) ∅ 0 He ltac:(by rewrite E0)) as Hf. rewrite E0 in Hf. destruct (foldM _ _ _) as [[m len]| |]; cbn [mbind outcome_bind]; [| |done].
      * destruct Hf as (Hm & Hlen & Hin). assert (map_leaves m ≡ₚ set_elems s) as Hp.
        { apply NoDup_Permutation; [by apply map_leaves_NoDup|by apply set_len_law|]. intros x. rewrite Hin, elem_of_nil. tauto. }
        pose proof (by_path_insert_spec m len leaf Hm Hlen) as Hi. destruct (by_path_insert (m, len) leaf) as [[[m1 len1] added]| |]; cbn [mbind outcome_bind]; [| |done].
        -- destruct Hi as (? & ? & Ha & Hp1). split; [done|]. split.
           ++ rewrite Ha. apply bool_decide_ext. by rewrite Hp.
           ++ cbn [pg_leaves]. rewrite Hp1. destruct added; by rewrite Hp.
        -- destruct Hi as [_ Hst]. eapply pg_stuck_mono; [|done]. intros x. by rewrite Hp.
      * done.
  - pose proof (by_path_insert_spec m len leaf Hs Hl) as Hi. destruct (by_path_insert (m, len) leaf) as [[[m1 len1] added]| |]; cbn [mbind outcome_bind]; [| |done].
    + by destruct Hi as (? & ? & ? & ?).
    + by destruct Hi.
Qed.

(** The loop over a group is a loop over its leaves. *)
Lemma pg_for_spec {C} (f : C -> leaf_t -> outcome C) acc g : pg_ok g -> pg_for f acc g = foldM f acc (pg_leaves g).
Proof.
  destruct g as [s|m len]; intros [Hs _]; cbn [pg_for pg_leaves]; [by apply set_for_law|]. unfold map_leaves.
  assert (Forall (fun '(p, s) => set_ok s) (map_to_list m)) as Hall.
  { apply Forall_forall. intros [p s] Hp%elem_of_map_to_list. by apply (Hs p). }
  revert acc. induction Hall as [|[p s] l Hs' _ IH]; intros acc; [done|]. cbn [foldM mbind list_bind]. rewrite set_for_law by done.
  rewrite foldM_app. assert (forall l acc, foldM (fun acc '(a, b) => f acc (p, a, b)) acc l = foldM f acc (map (with_path p) l)) as Hmap.
  { clear. induction l as [|[a b] l IHl]; intros acc; [done|]. cbn [foldM map with_path fst snd]. by destruct (f acc _). }
  rewrite Hmap. destruct (foldM f acc _); [apply IH|done..].
Qed.

Lemma merge_fold l : forall g n, pg_ok g ->
  match foldM merge_leaf (g, n) l with
  | Ret (g', n') => pg_ok g' /\ (forall x, x ∈ pg_leaves g' <-> x ∈ pg_leaves g \/ x ∈ l) /\ n' = n + (pg_len g' - pg_len g)
  | Panic => pg_stuck (pg_leaves g ++ l)
  | OutOfFuel => False
  end.
Proof.
  induction l as [|y l IH]; intros g n Hg; cbn [foldM]; [split_and!; [done| |lia]; intros x; rewrite elem_of_nil; tauto|].
  unfold merge_leaf at 1. cbn [fst snd]. pose proof (pg_insert_spec g y Hg) as Hi. destruct (pg_insert g y) as [[g1 added]| |]; cbn [mbind outcome_bind]; [| |done].
  - destruct Hi as (Hg1 & Ha & Hp). assert (forall x, x ∈ pg_leaves g1 <-> x ∈ pg_leaves g \/ x = y) as Hin.
    { intros x. rewrite Hp. destruct added; [rewrite elem_of_cons; tauto|]. symmetry in Ha. apply bool_decide_eq_false in Ha.
      assert (y ∈ pg_leaves g) by (destruct (decide (y ∈ pg_leaves g)); done). naive_solver. }
    assert (pg_len g1 = if added then pg_len g + 1 else pg_len g) as Hl by (rewrite !pg_len_spec by done; destruct added; rewrite Hp; simpl; lia).
    specialize (IH g1 (if added then n + 1 else n) Hg1). destruct (foldM _ (g1, _) l) as [[g' n']| |]; [| |done].
    + destruct IH as (? & IH & ->). split_and!; [done| |destruct added; lia]. intros x. rewrite IH, Hin, elem_of_cons. tauto.
    + eapply pg_stuck_mono; [|done]. intros x. rewrite !elem_of_app, Hin, elem_of_cons. tauto.
  - eapply pg_stuck_mono; [|done]. intros x Hx. apply elem_of_app. by left.
Qed.

Lemma pg_is_empty_spec g : pg_ok g -> pg_is_empty g = true <-> pg_leaves g = [].
Proof. intros Hg. unfold pg_is_empty. rewrite pg_len_spec, Z.eqb_eq by done. destruct (pg_leaves g); simpl; split; (done || lia). Qed.

Lemma pg_merge_spec a b : pg_ok a -> pg_ok b ->
  match pg_merge a b with
  | Ret (g, n) => pg_ok g /\ (forall x, x ∈ pg_leaves g <-> x ∈ pg_leaves a \/ x ∈ pg_leaves b) /\ n = pg_len g - pg_len a
  | Panic => pg_stuck (pg_leaves a ++ pg_leaves b)
  | OutOfFuel => False
  end.
Proof.
  intros Ha Hb. unfold pg_merge. destruct (pg_is_empty b) eqn:Eb.
  { apply pg_is_empty_spec in Eb; [|done]. rewrite Eb. split_and!; [done| |lia]. intros x. rewrite elem_of_nil. tauto. }
  destruct (pg_is_empty a) eqn:Ea.
  { apply pg_is_empty_spec in Ea; [|done]. split_and!; [done| |]. 2: { rewrite (pg_len_spec a), Ea by done. simpl. lia. }
    intros x. rewrite Ea, elem_of_nil. tauto. }
  rewrite pg_for_spec by done. pose proof (merge_fold (pg_leaves b) a 0 Ha) as Hf. destruct (foldM _ _ _) as [[g n]| |]; [|done..].
  destruct Hf as (? & ? & ->). split_and!; [done..|lia].
Qed.

Lemma pg_iter_spec g : pg_ok g -> pg_iter g = Ret (pg_leaves g).
Proof.
  destruct g as [s|m len]; intros [Hs _]; cbn [pg_iter pg_leaves]; [by apply set_iter_law|]. unfold map_leaves.
  assert (Forall (fun '(p, s) => set_ok s) (map_to_list m)) as Hall.
  { apply Forall_forall. intros [p s] Hp%elem_of_map_to_list. by apply (Hs p). }
  assert (mapM_out (fun '(p, s) => l ← set_iter s; Ret (map (fun '(a, b) => (p, a, b)) l)) (map_to_list m) =
    Ret (map (fun '(p, s) => map (with_path p) (set_elems s)) (map_to_list m))) as ->.
  { induction Hall as [|[p s] l Hs' _ IH]; [done|]. cbn [mapM_out map]. rewrite set_iter_law by done. cbn [mbind outcome_bind]. rewrite IH. do 2 f_equal.
    apply map_ext. by intros [a b]. }
  cbn [mbind outcome_bind]. f_equal. clear. induction (map_to_list m) as [|[p s] l IH]; [done|]. cbn [map concat mbind list_bind]. by rewrite IH.
Qed.

Lemma pg_get_spec g p : pg_ok g ->
  match pg_get g p with
  | Ret None => forall a b, (p, a, b) ∉ pg_leaves g
  | Ret (Some l) => l <> [] /\ NoDup l /\ forall a b, (a, b) ∈ l <-> (p, a, b) ∈ pg_leaves g
  | _ => False
  end.
Proof.
  destruct g as [s|m len]; intros [Hs _]; cbn [pg_get pg_leaves].
  - rewrite set_iter_law by done. cbn [mbind outcome_bind]. destruct (set_len_law s Hs) as [_ Hnd].
    set (sel := fun '(pp, a, b) => if decide (pp = p) then Some (a, b) else None : option (A * B)).
    assert (forall a b, (a, b) ∈ omap sel (set_elems s) <-> (p, a, b) ∈ set_elems s) as Hsel.
    { intros a b. rewrite list_elem_of_omap. split.
      - intros ([[pp a'] b'] & Hin & E). unfold sel in E. destruct (decide (pp = p)) as [->|]; [|done]. by injection E as -> ->.
      - intros Hin. exists (p, a, b). split; [done|]. unfold sel. by rewrite decide_True. }
    destruct (existsb _ _) eqn:E.
    + apply existsb_exists in E as ([[pp a] b] & Hin%list_elem_of_In & ->%bool_decide_eq_true). fold sel. split_and!; [|apply NoDup_omap; [|done]|done].
      * intros Hn. specialize (Hsel a b). rewrite Hn, elem_of_nil in Hsel. tauto.
      * intros [[p1 a1] b1] [[p2 a2] b2] [a3 b3] _ _ E1 E2. unfold sel in E1, E2. repeat case_decide; simplify_eq. done.
    + intros a b Hin. apply not_true_iff_false in E. apply E. apply existsb_exists. exists (p, a, b). split; [by apply list_elem_of_In|]. by apply bool_decide_eq_true.
  - destruct (m !! p) as [s|] eqn:Ep; cbn [mbind outcome_bind].
    + destruct (Hs p s Ep) as [Hok Hne]. rewrite set_iter_law by done. cbn [mbind outcome_bind]. split_and!; [done|by apply set_len_law|].
      intros a b. rewrite map_leaves_elem. naive_solver.
    + intros a b (s & Hs' & _)%map_leaves_elem. congruence.
Qed.

Definition leaf_path (leaf : leaf_t) : P := leaf.1.1.

Lemma see_paths_spec l : forall seen, NoDup seen -> NoDup (foldl see_path seen l) /\ forall p, p ∈ foldl see_path seen l <-> p ∈ seen \/ p ∈ map leaf_path l.
Proof.
  induction l as [|[[p a] b] l IH]; intros seen Hnd; cbn [foldl map]; [split; [done|]; intros q; rewrite elem_of_nil; tauto|]. cbn [see_path leaf_path fst].
  destruct (decide (p ∈ seen)) as [Hin|Hin].
  - destruct (IH seen Hnd) as [? E]. split; [done|]. intros q. rewrite E, elem_of_cons. naive_solver.
  - destruct (IH (seen ++ [p])) as [? E].
    { apply NoDup_app. split_and!; [done|intros q Hq ->%list_elem_of_singleton; done|apply NoDup_singleton]. }
    split; [done|]. intros q. rewrite E, elem_of_app, list_elem_of_singleton, elem_of_cons. tauto.
Qed.

Lemma pg_num_paths_spec g : pg_ok g -> pg_num_paths g = Ret (Z.of_nat (length (remove_dups (map leaf_path (pg_leaves g))))).
Proof.
  destruct g as [s|m len]; intros [Hs _]; cbn [pg_num_paths pg_leaves].
  - rewrite set_iter_law by done. cbn [mbind outcome_bind]. do 2 f_equal. destruct (see_paths_spec (set_elems s) [] (NoDup_nil_2)) as [Hnd E].
    apply Permutation_length. apply NoDup_Permutation; [done|apply NoDup_remove_dups|]. intros p. rewrite E, elem_of_nil, elem_of_remove_dups. tauto.
  - do 2 f_equal. rewrite <- length_map_to_list, <- (length_map fst). apply Permutation_length.
    apply NoDup_Permutation; [apply (NoDup_fst_map_to_list m)|apply NoDup_remove_dups|]. intros p. rewrite elem_of_remove_dups, !elem_of_map. split.
    + intros ([q s] & -> & Hq%elem_of_map_to_list). destruct (Hs q s Hq) as [_ Hne]. destruct (set_elems s) as [|[a b] l] eqn:E; [done|].
      exists (q, a, b). split; [done|]. apply map_leaves_elem. exists s. rewrite E. split; [done|apply list_elem_of_here].
    + intros ([[q a] b] & -> & (s & Hq & _)%map_leaves_elem). exists (q, s). split; [done|]. by apply elem_of_map_to_list.
Qed.
End GroupSpec.

(** ** Groups as expressions *)

Inductive group_expr (L : Type) :=
| GNew
| GInsert (e : group_expr L) (leaf : L)
| GMerge (e1 e2 : group_expr L).
Arguments GNew {L}.
Arguments GInsert {L} e leaf.
Arguments GMerge {L} e1 e2.

Fixpoint group_leaves {L} (e : group_expr L) : list L :=
  match e with GNew => [] | GInsert e leaf => leaf :: group_leaves e | GMerge e1 e2 => group_leaves e1 ++ group_leaves e2 end.

Fixpoint eval_group {P A B S1 S2} `{Countable P, EqDecision A, EqDecision B, SetOps (P * A * B) S1, SetOps (A * B) S2}
    (e : group_expr (P * A * B)) : outcome (PathGroup P S1 S2) :=
  match e with
  | GNew => Ret pg_new
  | GInsert e leaf => g ← eval_group e; '(g, _) ← pg_insert g leaf; Ret g
  | GMerge e1 e2 => g1 ← eval_group e1; g2 ← eval_group e2; '(g, _) ← pg_merge g1 g2; Ret g
  end.

Section Expr.
Context {P A B S1 S2 : Type} `{Countable P, EqDecision A, EqDecision B, SetOps (P * A * B) S1, SetOps (A * B) S2}.
Context `{!SetLaws (P * A * B) S1, !SetLaws (A * B) S2}.

(** A group is the set of the leaves put in, or some set of those leaves could not grow. *)
Lemma eval_group_spec (e : group_expr (P * A * B)) :
  match eval_group (S1 := S1) (S2 := S2) e with
  | Ret g => pg_ok g /\ forall x, x ∈ pg_leaves g <-> x ∈ group_leaves e
  | Panic => pg_stuck (S1 := S1) (S2 := S2) (group_leaves e)
  | OutOfFuel => False
  end.
Proof.
  induction e as [|e IH leaf|e1 IH1 e2 IH2]; cbn [eval_group group_leaves].
  - destruct (set_new_law (S := S1)) as [Hok E]. split; [split; [done|]|by cbn; rewrite E]. destruct (set_len_law _ Hok) as [-> _]. by rewrite E.
  - destruct (eval_group e) as [g| |]; cbn [mbind outcome_bind]; [|eapply pg_stuck_mono; [|done]; intros x; apply list_elem_of_further|done].
    destruct IH as [Hg Hin]. pose proof (pg_insert_spec g leaf Hg) as Hi. destruct (pg_insert g leaf) as [[g1 added]| |]; cbn [mbind outcome_bind]; [| |done].
    + destruct Hi as (Hg1 & Ha & Hp). split; [done|]. intros x. rewrite Hp, elem_of_cons, <- Hin. destruct added; [by rewrite elem_of_cons|].
      symmetry in Ha. apply bool_decide_eq_false in Ha. assert (leaf ∈ pg_leaves g) by (destruct (decide (leaf ∈ pg_leaves g)); done). naive_solver.
    + eapply pg_stuck_mono; [|done]. intros x. rewrite Hin. apply list_elem_of_further.
  - destruct (eval_group e1) as [g1| |]; cbn [mbind outcome_bind]; [|eapply pg_stuck_mono; [|done]; intros x; rewrite elem_of_app; tauto|done].
    destruct (eval_group e2) as [g2| |]; cbn [mbind outcome_bind]; [|eapply pg_stuck_mono; [|done]; intros x; rewrite elem_of_app; tauto|done].
    destruct IH1 as [Hg1 Hin1], IH2 as [Hg2 Hin2]. pose proof (pg_merge_spec g1 g2 Hg1 Hg2) as Hm.
    destruct (pg_merge g1 g2) as [[g n]| |]; cbn [mbind outcome_bind]; [| |done].
    + destruct Hm as (Hg & Hin & _). split; [done|]. intros x. by rewrite Hin, elem_of_app, Hin1, Hin2.
    + eapply pg_stuck_mono; [|done]. intros x. rewrite !elem_of_app, Hin1, Hin2. done.
Qed.
End Expr.

(** ** Groups of hybrid sets *)

Section Hybrid.
Context {P A B : Type} `{Countable P, EqDecision A, EqDecision B, Allocator}.
Context `{Layout (P * A * B), Layout (A * B), Hasher (P * A * B), Hasher (A * B)}.
#[local] Notation group := (PathGroup P (HybridSet (P * A * B)) (HybridSet (A * B))).

Lemma hybrid_not_stuck {T} `{EqDecision T, Layout T, Hasher T} (s : HybridSet T) n : memory_suffices (T := T) SMALL_THRESHOLD ->
  set_ok s -> (length (set_elems s) <= n)%nat -> Z.of_nat n < 2 ^ 28 -> set_stuck s -> False.
Proof.
  intros Hmem Hok Hle Hlt Hst. apply (not_stuck SMALL_THRESHOLD hash_one eq_refl Hmem s Hok); [|done].
  rewrite (hs_len_spec SMALL_THRESHOLD hash_one s Hok). change (hs_elems s) with (set_elems s). lia.
Qed.

(** C16: A group refines the set of the leaves put into it, whichever regime it is in and however groups were
    merged: for every composition of [new], [insert] and [merge] over fewer than 2^28 leaves the construction
    returns; [len] is the number of distinct leaves, [contains] and iteration agree with the set, [get] yields
    exactly the leaves at a path, each once, and [None] if and only if there are none, and [num_paths] is the
    number of distinct paths. *)
Theorem path_group_refines_set (e : group_expr (P * A * B)) (Hmem1 : memory_suffices (T := P * A * B) SMALL_THRESHOLD)
    (Hmem2 : memory_suffices (T := A * B) SMALL_THRESHOLD) (Hsize : Z.of_nat (length (group_leaves e)) < 2 ^ 28) :
  exists g : group, eval_group e = Ret g /\
    pg_len g = Z.of_nat (length (remove_dups (group_leaves e))) /\
    (forall p a b, pg_contains g p a b = Ret (bool_decide ((p, a, b) ∈ group_leaves e))) /\
    (exists l, pg_iter g = Ret l /\ l ≡ₚ remove_dups (group_leaves e)) /\
    (forall p, match pg_get g p with
               | Ret None => forall a b, (p, a, b) ∉ group_leaves e
               | Ret (Some l) => l <> [] /\ NoDup l /\ forall a b, (a, b) ∈ l <-> (p, a, b) ∈ group_leaves e
               | _ => False
               end) /\
    pg_num_paths g = Ret (Z.of_nat (length (remove_dups (map leaf_path (group_leaves e))))).
Proof.
  pose proof (eval_group_spec (S1 := HybridSet (P * A * B)) (S2 := HybridSet (A * B)) e) as He. destruct (eval_group e) as [g| |]; [| |done].
  - destruct He as [Hg Hin]. assert (pg_leaves g ≡ₚ remove_dups (group_leaves e)) as Hp.
    { apply NoDup_Permutation; [by apply pg_leaves_NoDup|apply NoDup_remove_dups|]. intros x. by rewrite elem_of_remove_dups. }
    exists g. split_and!; [done|by rewrite pg_len_spec, Hp by done| |exists (pg_leaves g); by rewrite pg_iter_spec by done| |].
    + intros p a b. rewrite pg_contains_spec by done. f_equal. apply bool_decide_ext. apply Hin.
    + intros p. pose proof (pg_get_spec g p Hg) as Hget. destruct (pg_get g p) as [[l|]| |]; [| |done..].
      * destruct Hget as (? & ? & Hl). split_and!; [done..|]. intros a b. by rewrite Hl.
      * intros a b. rewrite <- Hin. apply Hget.
    + rewrite pg_num_paths_spec by done. do 2 f_equal. apply Permutation_length. apply NoDup_Permutation; [apply NoDup_remove_dups..|].
      intros p. rewrite !elem_of_remove_dups, !elem_of_map. by setoid_rewrite Hin.
  - exfalso. destruct He as [(s & Hok & Hst & Hsub)|(p & s & Hok & Hst & Hsub)].
    + eapply (hybrid_not_stuck s (length (group_leaves e)) Hmem1 Hok); [|done..]. apply submseteq_length, NoDup_submseteq; [by apply set_len_law|done].
    + eapply (hybrid_not_stuck s (length (group_leaves e)) Hmem2 Hok); [|done..]. rewrite <- (length_map (with_path p)).
      apply submseteq_length, NoDup_submseteq; [|done]. apply (NoDup_fmap_2 (with_path p)). by apply set_len_law.
Qed.
End Hybrid.

(** ** Witness *)

#[local] Existing Instances any_block.
#[local] Instance leaf_layout : Layout (Z * Z * Z) := {| size_of := 24; align_of := 8; needs_drop := false |}.
#[local] Instance rest_layout : Layout (Z * Z) := {| size_of := 16; align_of := 8; needs_drop := false |}.
#[local] Instance leaf_hasher : Hasher (Z * Z * Z).
Proof. exists (fun '(p, a, b) => word_hash (p + 31 * a + 997 * b)). intros [[p a] b]. apply word_hash_range. Defined.
#[local] Instance rest_hasher : Hasher (Z * Z).
Proof. exists (fun '(a, b) => word_hash (31 * a + 997 * b)). intros [a b]. apply word_hash_range. Defined.

Lemma path_group_refines_set_witness : exists g : PathGroup Z (HybridSet (Z * Z * Z)) (HybridSet (Z * Z)),
  eval_group (GMerge (GInsert (GInsert GNew (1, 2, 3)) (1, 2, 4)) (GInsert (GInsert GNew (5, 2, 3)) (1, 2, 3))) = Ret g /\
  pg_len g = 3 /\ pg_num_paths g = Ret 2 /\ pg_contains g 5 2 3 = Ret true.
Proof.
  destruct (path_group_refines_set (GMerge (GInsert (GInsert GNew (1, 2, 3)) (1, 2, 4)) (GInsert (GInsert GNew (5, 2, 3)) (1, 2, 3))))
    as (g & H1 & H2 & H3 & _ & _ & H4); [apply any_memory_suffices; [done|done|by exists 3]|apply any_memory_suffices; [done|done|by exists 2]|vm_compute; reflexivity|].
  exists g. split_and!; [exact H1|exact H2|exact H4|rewrite H3; reflexivity].
Defined.
