(* ===== verification/LocalsTrie.v ===== *)
(** * LocalsTrie: the shared store of a relation of five columns

    src/ctadl-index/src/index_engine/locals_trie.rs: one store per relation, a map from the first two columns to the
    group of the other three, and the four indices of the relation as views of it.  A lazy iterator is the list of
    what it yields.  The outer map is hashbrown's, used as a finite map, with the order of [map_to_list] for its
    unspecified order.  The store is proved against the laws of the sets below it; the last section puts the
    hybrid sets in. *)

From S2P Require Import Prelude Bits Swiss RawTable TableInv TableOps TableIter TableGrow TableConsume HybridSet PathGroup.

#[local] Open Scope Z_scope.
Set Default Proof Using "Type".

(** [iter().flat_map(f)], run to its end. *)
Definition flat_mapM {X Y} (f : X -> outcome (list Y)) (l : list X) : outcome (list Y) :=
  ls ← mapM_out f l; Ret (concat ls).

Lemma flat_mapM_Ret {X Y} (f : X -> outcome (list Y)) (h : X -> list Y) l :
  (forall x, x ∈ l -> f x = Ret (h x)) -> flat_mapM f l = Ret (l ≫= h).
Proof.
  intros Hf. unfold flat_mapM. assert (mapM_out f l = Ret (map h l)) as ->.
  { apply mapM_out_Ret. induction l as [|x l IH]; simpl; constructor; [apply Hf, list_elem_of_here|].
    apply IH. intros y Hy. apply Hf. by apply list_elem_of_further. }
  cbn [mbind outcome_bind]. f_equal. clear. induction l as [|x l IH]; [done|]. cbn [map concat mbind list_bind]. by rewrite IH.
Qed.

(** [by.entry(k).or_default().push(v)]. *)
Definition bucket_push `{Countable K} {W} (by_key : gmap K (list W)) (kv : K * W) : gmap K (list W) :=
  <[kv.1 := default [] (by_key !! kv.1) ++ [kv.2]]> by_key.

Lemma buckets_lookup `{Countable K} {W} (l : list (K * W)) : forall (m : gmap K (list W)) k,
  foldl bucket_push m l !! k =
    match m !! k, omap (fun '(k', w) => if decide (k' = k) then Some w else None) l with
    | None, [] => None
    | o, ws => Some (default [] o ++ ws)
    end.
Proof.
  induction l as [|[k' w] l IH]; intros m k; cbn [foldl omap list_omap].
  - destruct (m !! k) as [ws|]; cbn [default]; [by rewrite app_nil_r|done].
  - rewrite IH. unfold bucket_push. cbn [fst snd]. destruct (decide (k' = k)) as [->|Hne].
    + rewrite lookup_insert_eq. destruct (m !! k) as [ws|]; simpl; by rewrite <- ?app_assoc.
    + by rewrite lookup_insert_ne.
Qed.

(** ** What an index of a relation answers

    [index_get_ok]: a probe at [k] yields the values of the rows with that key, each row once, and [None] if and only if
    there are none.  [index_all_ok]: an iteration yields each key of a row once, with what the probe yields. *)
Section Indices.
Context {R K W : Type} `{EqDecision K} (rows : list R) (key : R -> K) (val : R -> W).

Definition rows_at (k : K) : list W := map val (filter (fun r => key r = k) rows).

Definition index_get_ok (k : K) (o : option (list W)) : Prop :=
  match o with Some l => l <> [] /\ l ≡ₚ rows_at k | None => rows_at k = [] end.

Definition index_all_ok (out : list (K * list W)) : Prop :=
  NoDup (map fst out) /\ Forall (fun e => index_get_ok e.1 (Some e.2)) out /\ (forall r, r ∈ rows -> key r ∈ map fst out).

Lemma rows_at_elem k w : w ∈ rows_at k <-> exists r, r ∈ rows /\ key r = k /\ val r = w.
Proof. unfold rows_at. rewrite elem_of_map. setoid_rewrite list_elem_of_filter. naive_solver. Qed.

Lemma rows_at_key r : r ∈ rows -> rows_at (key r) <> [].
Proof. intros Hr E. assert (val r ∈ rows_at (key r)) as Hin by (apply rows_at_elem; eauto). rewrite E in Hin. by apply not_elem_of_nil in Hin. Qed.

Context (val_inj : forall r r', key r = key r' -> val r = val r' -> r = r') (rows_nodup : NoDup rows).

Lemma rows_at_NoDup k : NoDup (rows_at k).
Proof using val_inj rows_nodup.
  unfold rows_at. pose proof (NoDup_filter (fun r => key r = k) rows rows_nodup) as Hnd.
  assert (Forall (fun r => key r = k) (filter (fun r => key r = k) rows)) as Hk by (apply Forall_forall; intros r Hr; by apply list_elem_of_filter in Hr as [? _]).
  induction Hnd as [|r l Hr Hnd IH]; [apply NoDup_nil_2|]. apply Forall_cons in Hk as [Er Hk]. cbn [map]. apply NoDup_cons. split; [|by apply IH].
  intros (r' & E & Hr')%elem_of_map. rewrite Forall_forall in Hk. specialize (Hk r' Hr'). apply Hr. by rewrite (val_inj r r') by congruence.
Qed.

Lemma index_get_intro k l : NoDup l -> l <> [] -> (forall w, w ∈ l <-> exists r, r ∈ rows /\ key r = k /\ val r = w) -> index_get_ok k (Some l).
Proof using val_inj rows_nodup. intros Hnd Hne Hl. split; [done|]. apply NoDup_Permutation; [done|apply rows_at_NoDup|]. intros w. by rewrite rows_at_elem. Qed.

Lemma index_get_none k : (forall r, r ∈ rows -> key r <> k) -> index_get_ok k None.
Proof. intros Hk. cbn. unfold rows_at. destruct (filter _ rows) as [|r l] eqn:E; [done|]. assert (r ∈ filter (fun r => key r = k) rows) as [? ?]%list_elem_of_filter by (rewrite E; apply list_elem_of_here). by destruct (Hk r). Qed.
End Indices.

Lemma rows_at_app {R K W} `{EqDecision K} (l1 l2 : list R) (key : R -> K) (val : R -> W) k : rows_at (l1 ++ l2) key val k = rows_at l1 key val k ++ rows_at l2 key val k.
Proof. unfold rows_at. by rewrite filter_app, map_app. Qed.

(** Two indices chained. *)
Definition chain {W} (o1 o2 : option (list W)) : option (list W) :=
  match o1, o2 with None, None => None | _, _ => Some (default [] o1 ++ default [] o2) end.

Lemma index_chain {R K W} `{EqDecision K} (l1 l2 : list R) (key : R -> K) (val : R -> W) k o1 o2 :
  index_get_ok l1 key val k o1 -> index_get_ok l2 key val k o2 -> index_get_ok (l1 ++ l2) key val k (chain o1 o2).
Proof.
  unfold index_get_ok, chain. rewrite rows_at_app. destruct o1 as [w1|], o2 as [w2|]; cbn [default].
  - intros [Hn H1] [_ H2]. split; [by destruct w1|by rewrite H1, H2].
  - intros [Hn H1] ->. rewrite !app_nil_r. done.
  - intros -> [Hn H2]. done.
  - by intros -> ->.
Qed.

(** Bucketing the rows by their keys. *)
Lemma buckets_index {R} `{Countable K} {W} (rows : list R) (key : R -> K) (val : R -> W) :
  index_all_ok rows key val (map_to_list (foldl bucket_push ∅ (map (fun r => (key r, val r)) rows))).
Proof.
  set (m := foldl bucket_push ∅ _). assert (forall k, m !! k = match rows_at rows key val k with [] => None | ws => Some ws end) as Hm.
  { intros k. unfold m. rewrite buckets_lookup, lookup_empty. cbn [default].
    assert (omap (fun '(k', w) => if decide (k' = k) then Some w else None) (map (fun r => (key r, val r)) rows) = rows_at rows key val k) as ->; [|by destruct (rows_at _ _ _ _)].
    unfold rows_at. induction rows as [|r rows IHr]; [done|]. cbn [map omap list_omap]. rewrite filter_cons. destruct (decide (key r = k)); cbn [map]; by rewrite <- IHr. }
  split_and!; [apply (NoDup_fst_map_to_list m)| |].
  - apply Forall_forall. intros [k ws] Hin%elem_of_map_to_list. rewrite Hm in Hin. cbn [fst snd]. destruct (rows_at rows key val k) as [|w l] eqn:E; [done|]. injection Hin as <-. split; [done|by rewrite E].
  - intros r Hr. pose proof (rows_at_key rows key val r Hr) as Hne. apply elem_of_map. exists (key r, rows_at rows key val (key r)). split; [done|]. apply elem_of_map_to_list. rewrite Hm.
    by destruct (rows_at rows key val (key r)).
Qed.

Section Store.
Context {F V P M Fp S1 S2 : Type} `{Countable F, Countable V, Countable P, EqDecision M, EqDecision Fp}.
Context `{SetOps (P * M * Fp) S1, SetOps (M * Fp) S2}.
#[local] Notation group := (PathGroup P S1 S2).
#[local] Notation row := (F * V * P * M * Fp)%type.

(** ** The store *)

Record LocalsIndCommon := mk_locals { fwd : gmap (F * V) group; lt_len : Z }.

Definition lt_default : LocalsIndCommon := mk_locals ∅ 0.
Definition lt_is_empty (s : LocalsIndCommon) : bool := lt_len s =? 0.
Definition lt_num_reached_variables (s : LocalsIndCommon) : nat := size (fwd s).

Definition lt_for_each_row {C} (f : C -> row -> outcome C) (acc : C) (s : LocalsIndCommon) : outcome C :=
  foldM (fun acc '((fk, v), g) => l ← pg_iter g; foldM (fun acc '(p, m, fp) => f acc (fk, v, p, m, fp)) acc l) acc (map_to_list (fwd s)).

Definition lt_contains (s : LocalsIndCommon) (r : row) : outcome bool :=
  let '(f, v, p, m, fp) := r in
  match fwd s !! (f, v) with Some g => pg_contains g p m fp | None => Ret false end.

Definition lt_insert (s : LocalsIndCommon) (r : row) : outcome (LocalsIndCommon * bool) :=
  let '(f, v, p, m, fp) := r in
  '(g, added) ← pg_insert (default pg_new (fwd s !! (f, v))) (p, m, fp);
  Ret (mk_locals (<[(f, v) := g]> (fwd s)) (if added : bool then lt_len s + 1 else lt_len s), added).

Definition absorb_group (s : LocalsIndCommon) (e : F * V * group) : outcome LocalsIndCommon :=
  let '(fv, from_group) := e in
  match fwd s !! fv with
  | Some g => '(g, n) ← pg_merge g from_group; Ret (mk_locals (<[fv := g]> (fwd s)) (lt_len s + n))
  | None => Ret (mk_locals (<[fv := from_group]> (fwd s)) (lt_len s + pg_len from_group))
  end.

(** The new [self] and the drained [from]. *)
Definition lt_absorb (self from : LocalsIndCommon) : outcome (LocalsIndCommon * LocalsIndCommon) :=
  self ← foldM absorb_group self (map_to_list (fwd from)); Ret (self, mk_locals ∅ 0).

(** The merge of the ind_common: [delta] moves into [total], then [new] and [delta] are swapped. *)
Definition lt_merge (new delta total : LocalsIndCommon) : outcome (LocalsIndCommon * LocalsIndCommon * LocalsIndCommon) :=
  '(total, delta) ← lt_absorb total delta; Ret (delta, new, total).

(** ** The views *)

Definition group_rows (e : F * V * group) : outcome (list row) :=
  let '((f, v), g) := e in l ← pg_iter g; Ret (map (fun '(p, m, fp) => (f, v, p, m, fp)) l).

(** [none]: every row. *)
Definition view_none_get (s : LocalsIndCommon) : outcome (option (list row)) :=
  l ← flat_mapM group_rows (map_to_list (fwd s)); Ret (Some l).
Definition view_none_iter_all (s : LocalsIndCommon) : outcome (list (unit * list row)) :=
  o ← view_none_get s; l ← unwrap o; Ret [(tt, l)].

(** [0_1]: the rows of a group. *)
Definition view01_get (s : LocalsIndCommon) (key : F * V) : outcome (option (list (P * M * Fp))) :=
  match fwd s !! key with Some g => l ← pg_iter g; Ret (Some l) | None => Ret None end.
Definition view01_iter_all (s : LocalsIndCommon) : outcome (list (F * V * list (P * M * Fp))) :=
  mapM_out (fun '(fv, g) => l ← pg_iter g; Ret (fv, l)) (map_to_list (fwd s)).

(** [0_1_2]: the rows at a path. *)
Definition view012_get (s : LocalsIndCommon) (key : F * V * P) : outcome (option (list (M * Fp))) :=
  match fwd s !! key.1 with Some g => pg_get g key.2 | None => Ret None end.
Definition view012_iter_all (s : LocalsIndCommon) : outcome (list (F * V * P * list (M * Fp))) :=
  flat_mapM (fun '(fv, g) =>
    l ← pg_iter g;
    let byp := foldl bucket_push ∅ (map (fun '(p, m, fp) => (p, (m, fp))) l) in
    Ret (map (fun '(p, mfs) => (fv, p, mfs)) (map_to_list byp))) (map_to_list (fwd s)).

(** The full index: existence. *)
Definition view_full_get (s : LocalsIndCommon) (r : row) : outcome (option unit) :=
  b ← lt_contains s r; Ret (if b : bool then Some tt else None).
Definition view_full_iter_all (s : LocalsIndCommon) : outcome (list (row * unit)) :=
  flat_mapM (fun e => l ← group_rows e; Ret (map (fun r => (r, tt)) l)) (map_to_list (fwd s)).
End Store.
Arguments LocalsIndCommon _ _ _ _ _ {_ _ _ _ _ _} : assert.

(** ** The rows of a store *)

Section StoreSpec.
Context {F V P M Fp S1 S2 : Type} `{Countable F, Countable V, Countable P, EqDecision M, EqDecision Fp}.
Context `{SetOps (P * M * Fp) S1, SetOps (M * Fp) S2, !SetLaws (P * M * Fp) S1, !SetLaws (M * Fp) S2}.
#[local] Notation group := (PathGroup P S1 S2).
#[local] Notation leaf_t := (P * M * Fp)%type.
#[local] Notation row := (F * V * P * M * Fp)%type.
#[local] Notation store := (LocalsIndCommon F V P S1 S2).

Definition row_at (fv : F * V) (l : leaf_t) : row := (fv.1, fv.2, l.1.1, l.1.2, l.2).
Definition row_key (r : row) : F * V := let '(f, v, _, _, _) := r in (f, v).
Definition row_leaf (r : row) : leaf_t := let '(_, _, p, m, fp) := r in (p, m, fp).

Definition fwd_rows (m : gmap (F * V) group) : list row := map_to_list m ≫= (fun '(fv, g) => map (row_at fv) (pg_leaves g)).
Definition lt_rows (s : store) : list row := fwd_rows (fwd s).

Record lt_ok (s : store) : Prop := {
  lk_groups : map_Forall (fun _ g => pg_ok g /\ pg_leaves g <> []) (fwd s);
  lk_len : lt_len s = Z.of_nat (length (lt_rows s))
}.

(** A group of these rows that cannot take another leaf. *)
Definition lt_stuck (rows : list row) : Prop :=
  exists fv ls, pg_stuck (S1 := S1) (S2 := S2) ls /\ map (row_at fv) ls ⊆ rows.

Lemma lt_stuck_mono rows rows' : rows ⊆ rows' -> lt_stuck rows -> lt_stuck rows'.
Proof. intros Hsub (fv & ls & Hst & Hls). exists fv, ls. split; [done|by etrans]. Qed.

Lemma row_at_key fv l : row_key (row_at fv l) = fv.
Proof. by destruct fv, l as [[]]. Qed.
Lemma row_at_leaf fv l : row_leaf (row_at fv l) = l.
Proof. by destruct fv, l as [[]]. Qed.
Lemma row_at_id r : row_at (row_key r) (row_leaf r) = r.
Proof. by destruct r as [[[[]]]]. Qed.

#[export] Instance row_at_inj fv : Inj (=) (=) (row_at fv).
Proof. intros l l' E. by rewrite <- (row_at_leaf fv l), E, row_at_leaf. Qed.

Lemma fwd_rows_elem (m : gmap (F * V) group) r : r ∈ fwd_rows m <-> exists g, m !! row_key r = Some g /\ row_leaf r ∈ pg_leaves g.
Proof.
  unfold fwd_rows. rewrite list_elem_of_bind. split.
  - intros ([fv g] & (l & -> & Hl)%elem_of_map & Hm%elem_of_map_to_list). exists g. by rewrite row_at_key, row_at_leaf.
  - intros (g & Hm & Hl). exists (row_key r, g). split; [|by apply elem_of_map_to_list]. apply elem_of_map. exists (row_leaf r). by rewrite row_at_id.
Qed.

Lemma fwd_rows_insert (m : gmap (F * V) group) fv g : fwd_rows (<[fv := g]> m) ≡ₚ map (row_at fv) (pg_leaves g) ++ fwd_rows (delete fv m).
Proof. unfold fwd_rows. rewrite <- insert_delete_eq. rewrite map_to_list_insert by apply lookup_delete_eq. done. Qed.

Lemma fwd_rows_split (m : gmap (F * V) group) fv : fwd_rows m ≡ₚ map (row_at fv) (default [] (pg_leaves <$> m !! fv)) ++ fwd_rows (delete fv m).
Proof.
  destruct (m !! fv) as [g|] eqn:E; simpl; [rewrite <- (insert_id m fv g E) at 1; apply fwd_rows_insert|]. by rewrite delete_id.
Qed.

Lemma fwd_rows_NoDup (m : gmap (F * V) group) : map_Forall (fun _ g => pg_ok g /\ pg_leaves g <> []) m -> NoDup (fwd_rows m).
Proof.
  induction m as [|fv g m Hm IH] using map_ind; [intros _; unfold fwd_rows; rewrite map_to_list_empty; apply NoDup_nil_2|].
  intros Hok. rewrite fwd_rows_insert, delete_id by done. apply NoDup_app. split_and!.
  - apply (NoDup_fmap_2 (row_at fv)), pg_leaves_NoDup. apply (Hok fv g (lookup_insert_eq m fv g)).
  - intros r (l & -> & _)%elem_of_map (g' & Hg' & _)%fwd_rows_elem. rewrite row_at_key in Hg'. congruence.
  - apply IH. by eapply map_Forall_insert_1_2.
Qed.

Lemma lt_rows_NoDup s : lt_ok s -> NoDup (lt_rows s).
Proof. intros [Hg _]. by apply fwd_rows_NoDup. Qed.

Lemma lt_default_ok : lt_ok (lt_default : store) /\ lt_rows (lt_default : store) = [].
Proof.
  assert (lt_rows (lt_default : store) = []) as E by (unfold lt_rows, fwd_rows; cbn [fwd lt_default]; by rewrite map_to_list_empty).
  split; [split; [apply map_Forall_empty|by rewrite E]|done].
Qed.

Lemma lt_is_empty_spec s : lt_ok s -> lt_is_empty s = true <-> lt_rows s = [].
Proof. intros Hs. unfold lt_is_empty. rewrite (lk_len _ Hs), Z.eqb_eq. destruct (lt_rows s); simpl; split; (done || lia). Qed.

Lemma lt_contains_spec s r : lt_ok s -> lt_contains s r = Ret (bool_decide (r ∈ lt_rows s)).
Proof.
  intros [Hg _]. assert (r ∈ lt_rows s <-> _) as E by apply fwd_rows_elem. destruct r as [[[[f v] p] m] fp]. cbn [lt_contains row_key row_leaf] in *.
  destruct (fwd s !! (f, v)) as [g|] eqn:Eg.
  - rewrite pg_contains_spec by (by apply (Hg (f, v))). f_equal. apply bool_decide_ext. rewrite E. split; [by eauto|]. by intros (g' & [= <-] & ?).
  - rewrite bool_decide_false; [done|]. rewrite E. by intros (g' & ? & ?).
Qed.

Lemma pg_new_ok : pg_ok (pg_new : group) /\ pg_leaves (pg_new : group) = [].
Proof. destruct (set_new_law (S := S1)) as [Hok E]. split; [|done]. split; [done|]. destruct (set_len_law _ Hok) as [-> _]. by rewrite E. Qed.

Lemma lt_insert_spec s r : lt_ok s ->
  match lt_insert s r with
  | Ret (s', added) => lt_ok s' /\ added = bool_decide (r ∉ lt_rows s) /\ lt_rows s' ≡ₚ (if added then r :: lt_rows s else lt_rows s)
  | Panic => lt_stuck (lt_rows s)
  | OutOfFuel => False
  end.
Proof.
  intros [Hg Hlen]. pose proof (row_at_id r) as Er. destruct r as [[[[f v] p] m] fp]. cbn [lt_insert row_key row_leaf] in *.
  set (g := default pg_new (fwd s !! (f, v))).
  assert (pg_ok g /\ pg_leaves g = default [] (pg_leaves <$> fwd s !! (f, v))) as [Hok El].
  { unfold g. destruct (fwd s !! (f, v)) as [g0|] eqn:E; simpl; [split; [by apply (Hg (f, v))|done]|apply pg_new_ok]. }
  assert (lt_rows s ≡ₚ map (row_at (f, v)) (pg_leaves g) ++ fwd_rows (delete (f, v) (fwd s))) as Hsplit by (rewrite El; apply fwd_rows_split).
  assert ((f, v, p, m, fp) ∈ lt_rows s <-> (p, m, fp) ∈ pg_leaves g) as Hin.
  { rewrite Hsplit, elem_of_app, <- Er, (list_elem_of_fmap_inj (row_at (f, v))). split; [|by left]. intros [?|(g' & Hg' & _)%fwd_rows_elem]; [done|].
    by rewrite row_at_key, lookup_delete_eq in Hg'. }
  pose proof (pg_insert_spec g (p, m, fp) Hok) as Hi. destruct (pg_insert g (p, m, fp)) as [[g' added]| |]; cbn [mbind outcome_bind]; [| |done].
  - destruct Hi as (Hok' & Ha & Hp). assert (lt_rows (mk_locals (<[(f, v) := g']> (fwd s)) 0) ≡ₚ (if added then (f, v, p, m, fp) :: lt_rows s else lt_rows s)) as Hl.
    { unfold lt_rows at 1. cbn [fwd]. rewrite fwd_rows_insert. apply (Permutation_map (row_at (f, v))) in Hp. rewrite Hp. destruct added; rewrite Hsplit; [|done]. cbn [map]. by rewrite Er. }
    split_and!; [split; cbn [fwd lt_len]|rewrite Ha; apply bool_decide_ext; by rewrite Hin|done].
    + apply map_Forall_insert_2; [|done]. split; [done|]. intros E. rewrite E in Hp. apply Permutation_nil_l in Hp. destruct added; [done|].
      symmetry in Ha. apply bool_decide_eq_false in Ha. apply Ha. rewrite <- Hp. apply not_elem_of_nil.
    + change (lt_rows _) with (lt_rows (mk_locals (<[(f, v) := g']> (fwd s)) 0)). rewrite Hl. destruct added; simpl; rewrite Hlen; lia.
  - exists (f, v), (pg_leaves g). split; [done|]. intros x Hx. rewrite Hsplit. apply elem_of_app. by left.
Qed.

Lemma lt_rows_set (s : store) fv g n r : lt_rows (mk_locals (<[fv := g]> (fwd s)) n) ≡ₚ map (row_at fv) (pg_leaves g) ++ fwd_rows (delete fv (fwd s)) /\
  (r ∈ lt_rows (mk_locals (<[fv := g]> (fwd s)) n) <-> r ∈ map (row_at fv) (pg_leaves g) \/ row_key r <> fv /\ r ∈ lt_rows s).
Proof.
  split; [apply fwd_rows_insert|]. unfold lt_rows. cbn [fwd]. rewrite fwd_rows_insert, elem_of_app. apply or_iff_compat_l. rewrite !fwd_rows_elem. split.
  - intros (g' & [? Hg']%lookup_delete_Some & ?). split; [done|by eauto].
  - intros (Hne & g' & Hg' & ?). exists g'. by rewrite lookup_delete_ne.
Qed.

Lemma absorb_group_spec s fv g : lt_ok s -> pg_ok g -> pg_leaves g <> [] ->
  match absorb_group s (fv, g) with
  | Ret s' => lt_ok s' /\ forall r, r ∈ lt_rows s' <-> r ∈ lt_rows s \/ r ∈ map (row_at fv) (pg_leaves g)
  | Panic => lt_stuck (lt_rows s ++ map (row_at fv) (pg_leaves g))
  | OutOfFuel => False
  end.
Proof.
  intros [Hs Hlen] Hg Hne. cbn [absorb_group]. pose proof (fwd_rows_split (fwd s) fv) as Hsplit. fold (lt_rows s) in Hsplit.
  assert (forall r, r ∈ lt_rows s <-> r ∈ map (row_at fv) (default [] (pg_leaves <$> fwd s !! fv)) \/ row_key r <> fv /\ r ∈ lt_rows s) as Hin.
  { intros r. split; [|intros [?|[]]; [|done]; rewrite Hsplit, elem_of_app; by left]. intros Hr. destruct (decide (row_key r = fv)) as [<-|]; [left|by right].
    apply fwd_rows_elem in Hr as (g' & -> & Hl). apply elem_of_map. exists (row_leaf r). by rewrite row_at_id. }
  destruct (fwd s !! fv) as [g0|] eqn:E; simpl in Hsplit, Hin.
  - destruct (Hs fv g0 E) as [Hg0 _]. pose proof (pg_merge_spec g0 g Hg0 Hg) as Hm. destruct (pg_merge g0 g) as [[g' n]| |]; cbn [mbind outcome_bind]; [| |done].
    + destruct Hm as (Hg' & Hl & ->).
      split; [split; cbn [fwd lt_len]|].
      * apply map_Forall_insert_2; [|done]. split; [done|]. destruct (pg_leaves g) as [|x ls]; [done|]. intros E'. specialize (Hl x). rewrite E', elem_of_nil in Hl. apply Hl. right. apply list_elem_of_here.
      * unfold lt_rows. cbn [fwd]. rewrite fwd_rows_insert, length_app, length_map, Hlen, Hsplit, length_app, length_map, !pg_len_spec by done. lia.
      * intros r. destruct (lt_rows_set s fv g' (lt_len s + (pg_len g' - pg_len g0)) r) as [_ ->]. rewrite (Hin r), !elem_of_map. setoid_rewrite Hl. naive_solver.
    + exists fv, (pg_leaves g0 ++ pg_leaves g). split; [done|]. rewrite map_app. intros x. rewrite !elem_of_app, Hin. tauto.
  - split; [split; cbn [fwd lt_len]|].
    + by apply map_Forall_insert_2.
    + unfold lt_rows. cbn [fwd]. rewrite fwd_rows_insert, length_app, length_map, Hlen, Hsplit, pg_len_spec by done. simpl. lia.
    + intros r. destruct (lt_rows_set s fv g (lt_len s + pg_len g) r) as [_ ->]. rewrite (Hin r), elem_of_nil. tauto.
Qed.

Lemma absorb_fold l : forall s, lt_ok s -> Forall (fun e => pg_ok e.2 /\ pg_leaves e.2 <> []) l ->
  match foldM absorb_group s l with
  | Ret s' => lt_ok s' /\ forall r, r ∈ lt_rows s' <-> r ∈ lt_rows s \/ r ∈ (l ≫= (fun '(fv, g) => map (row_at fv) (pg_leaves g)))
  | Panic => lt_stuck (lt_rows s ++ (l ≫= (fun '(fv, g) => map (row_at fv) (pg_leaves g))))
  | OutOfFuel => False
  end.
Proof.
  induction l as [|[fv g] l IH]; intros s Hs Hl; cbn [foldM mbind list_bind]; [split; [done|]; intros r; rewrite elem_of_nil; tauto|].
  apply Forall_cons in Hl as [[Hg Hne] Hl]. cbn [snd] in *. pose proof (absorb_group_spec s fv g Hs Hg Hne) as Ha. destruct (absorb_group s (fv, g)) as [s1| |]; [| |done].
  - destruct Ha as [Hs1 Hin]. specialize (IH s1 Hs1 Hl). destruct (foldM absorb_group s1 l) as [s'| |]; [| |done].
    + destruct IH as [? IH]. split; [done|]. intros r. rewrite IH, Hin, elem_of_app. tauto.
    + eapply lt_stuck_mono; [|done]. intros r. rewrite !elem_of_app, Hin. tauto.
  - eapply lt_stuck_mono; [|done]. intros r. rewrite !elem_of_app. tauto.
Qed.

Lemma lt_absorb_spec a b : lt_ok a -> lt_ok b ->
  match lt_absorb a b with
  | Ret (a', b') => lt_ok a' /\ (forall r, r ∈ lt_rows a' <-> r ∈ lt_rows a \/ r ∈ lt_rows b) /\ b' = lt_default
  | Panic => lt_stuck (lt_rows a ++ lt_rows b)
  | OutOfFuel => False
  end.
Proof.
  intros Ha [Hb _]. unfold lt_absorb. pose proof (absorb_fold (map_to_list (fwd b)) a Ha) as Hf.
  assert (Forall (fun e => pg_ok e.2 /\ pg_leaves e.2 <> []) (map_to_list (fwd b))) as Hall.
  { apply Forall_forall. intros [fv g] Hin%elem_of_map_to_list. exact (Hb fv g Hin). }
  specialize (Hf Hall). destruct (foldM _ _ _) as [a'| |]; cbn [mbind outcome_bind]; [|done..]. by destruct Hf.
Qed.

(** ** The views agree with the rows *)

Definition row_path (r : row) : F * V * P := let '(f, v, p, _, _) := r in (f, v, p).
Definition row_rest (r : row) : M * Fp := let '(_, _, _, m, fp) := r in (m, fp).

Lemma row_leaf_inj r r' : row_key r = row_key r' -> row_leaf r = row_leaf r' -> r = r'.
Proof. destruct r as [[[[]]]], r' as [[[[]]]]. cbn. congruence. Qed.
Lemma row_rest_inj r r' : row_path r = row_path r' -> row_rest r = row_rest r' -> r = r'.
Proof. destruct r as [[[[]]]], r' as [[[[]]]]. cbn. congruence. Qed.

Lemma group_rows_spec fv g : pg_ok g -> group_rows (fv, g) = Ret (map (row_at fv) (pg_leaves g)).
Proof. intros Hg. destruct fv as [f v]. cbn [group_rows]. rewrite pg_iter_spec by done. cbn [mbind outcome_bind]. f_equal. apply map_ext. by intros [[p m] fp]. Qed.

Lemma view_none_spec s : lt_ok s -> view_none_get s = Ret (Some (lt_rows s)) /\ view_none_iter_all s = Ret [(tt, lt_rows s)].
Proof.
  intros [Hs _]. assert (view_none_get s = Ret (Some (lt_rows s))) as E.
  { unfold view_none_get. rewrite (flat_mapM_Ret _ (fun '(fv, g) => map (row_at fv) (pg_leaves g))); [done|].
    intros [fv g] Hin%elem_of_map_to_list. apply group_rows_spec. by apply (Hs fv g). }
  split; [done|]. unfold view_none_iter_all. by rewrite E.
Qed.

Lemma group_rows_at s fv g : lt_ok s -> fwd s !! fv = Some g -> index_get_ok (lt_rows s) row_key row_leaf fv (Some (pg_leaves g)).
Proof.
  intros Hs Eg. destruct (lk_groups _ Hs fv g Eg) as [Hg Hne]. apply index_get_intro; [apply row_leaf_inj|by apply lt_rows_NoDup|by apply pg_leaves_NoDup|done|].
  intros w. split.
  - intros Hw. exists (row_at fv w). rewrite row_at_key, row_at_leaf. split_and!; [|done..]. apply fwd_rows_elem. exists g. by rewrite row_at_key, row_at_leaf.
  - intros (r & (g' & Hg' & Hl)%fwd_rows_elem & <- & <-). congruence.
Qed.

Lemma view01_get_spec s fv : lt_ok s -> exists o, view01_get s fv = Ret o /\ index_get_ok (lt_rows s) row_key row_leaf fv o.
Proof.
  intros Hs. unfold view01_get. destruct (fwd s !! fv) as [g|] eqn:Eg.
  - rewrite pg_iter_spec by (by apply (lk_groups _ Hs fv)). eexists. split; [done|]. by apply group_rows_at.
  - eexists. split; [done|]. apply index_get_none. intros r (g & Hg & _)%fwd_rows_elem <-. congruence.
Qed.

Lemma lt_rows_key s r : lt_ok s -> r ∈ lt_rows s -> row_key r ∈ map fst (map_to_list (fwd s)).
Proof. intros Hs (g & Hg & _)%fwd_rows_elem. apply elem_of_map. exists (row_key r, g). split; [done|]. by apply elem_of_map_to_list. Qed.

Lemma view01_iter_all_spec s : lt_ok s -> exists out, view01_iter_all s = Ret out /\ index_all_ok (lt_rows s) row_key row_leaf out.
Proof.
  intros Hs. exists (map (fun '(fv, g) => (fv, pg_leaves g)) (map_to_list (fwd s))).
  assert (map fst (map (fun '(fv, g) => (fv, pg_leaves g)) (map_to_list (fwd s))) = map fst (map_to_list (fwd s))) as Ek.
  { rewrite map_map. apply map_ext. by intros [fv g]. }
  split; [|split_and!].
  - unfold view01_iter_all. apply mapM_out_Ret. apply Forall2_fmap_r, Forall_Forall2_diag. apply Forall_forall. intros [fv g] Hin%elem_of_map_to_list.
    cbn. by rewrite pg_iter_spec by (by apply (lk_groups _ Hs fv)).
  - rewrite Ek. apply (NoDup_fst_map_to_list (fwd s)).
  - apply Forall_forall. intros e ([fv g] & -> & Hin%elem_of_map_to_list)%elem_of_map. by apply group_rows_at.
  - intros r Hr. rewrite Ek. by apply lt_rows_key.
Qed.

Lemma view012_get_spec s key : lt_ok s -> exists o, view012_get s key = Ret o /\ index_get_ok (lt_rows s) row_path row_rest key o.
Proof.
  intros Hs. destruct key as [fv p]. unfold view012_get. cbn [fst snd]. destruct (fwd s !! fv) as [g|] eqn:Eg.
  - destruct (lk_groups _ Hs fv g Eg) as [Hg _]. pose proof (pg_get_spec g p Hg) as Hget.
    assert (forall r, r ∈ lt_rows s -> row_path r = (fv, p) -> (p, (row_rest r).1, (row_rest r).2) ∈ pg_leaves g) as Hr.
    { intros [[[[f v] q] m] fp] (g' & Hg' & Hl)%fwd_rows_elem [= <- <-]. cbn in *. congruence. }
    destruct (pg_get g p) as [[l|]| |]; [| |done..]; eexists; (split; [done|]).
    + destruct Hget as (Hne & Hnd & Hl). apply index_get_intro; [apply row_rest_inj|by apply lt_rows_NoDup|done..|]. intros [m fp]. rewrite Hl. split.
      * intros Hin. exists (row_at fv (p, m, fp)). split; [|by destruct fv]. apply fwd_rows_elem. exists g. by rewrite row_at_key, row_at_leaf.
      * intros (r & Hin & Hk & E). specialize (Hr r Hin Hk). by rewrite E in Hr.
    + apply index_get_none. intros r Hin Hk. by apply (Hget (row_rest r).1 (row_rest r).2), Hr.
  - eexists. split; [done|]. apply index_get_none. intros [[[[f v] q] m] fp] (g & Hg & _)%fwd_rows_elem [= <- <-]. cbn in Hg. congruence.
Qed.

(** The buckets of one group. *)
Definition split_leaf (l : leaf_t) : P * (M * Fp) := let '(p, m, fp) := l in (p, (m, fp)).
Definition group_buckets (g : group) : gmap P (list (M * Fp)) := foldl bucket_push ∅ (map split_leaf (pg_leaves g)).

Lemma group_buckets_spec s fv g p mfs : lt_ok s -> fwd s !! fv = Some g -> group_buckets g !! p = Some mfs ->
  index_get_ok (lt_rows s) row_path row_rest (fv, p) (Some mfs).
Proof.
  intros Hs Eg. unfold group_buckets. rewrite buckets_lookup, lookup_empty. destruct (lk_groups _ Hs fv g Eg) as [Hg _]. destruct (omap _ _) as [|w ws] eqn:E; [done|]. intros [= <-]. rewrite <- E.
  assert (forall l, omap (fun '(k', w) => if decide (k' = p) then Some w else None) (map split_leaf l) = omap (fun '(q, m, fp) => if decide (q = p) then Some (m, fp) else None) l) as ->.
  { induction l as [|[[q m] fp] l IH]; [done|]. cbn [map split_leaf omap list_omap]. rewrite IH. by destruct (decide (q = p)). }
  apply index_get_intro; [apply row_rest_inj|by apply lt_rows_NoDup|apply NoDup_omap; [|by apply pg_leaves_NoDup]| |].
  - intros [[p1 a1] b1] [[p2 a2] b2] [a3 b3] _ _ E1 E2. repeat case_decide; simplify_eq. done.
  - intros E'. assert (w ∈ w :: ws) as Hw by apply list_elem_of_here. rewrite <- E in Hw. apply list_elem_of_omap in Hw as ([q w'] & ([[q' m] fp] & Eq & Hin)%elem_of_map & Ew).
    injection Eq as -> ->. destruct (decide (q' = p)) as [->|]; [|done]. assert ((m, fp) ∈ (omap (fun '(q, m, fp) => if decide (q = p) then Some (m, fp) else None) (pg_leaves g) : list (M * Fp))) as Hin'.
    { apply list_elem_of_omap. exists (p, m, fp). split; [done|]. by rewrite decide_True. }
    rewrite E' in Hin'. by apply not_elem_of_nil in Hin'.
  - intros [m fp]. rewrite list_elem_of_omap. split.
    + intros ([[q m'] fp'] & Hin & E'). destruct (decide (q = p)) as [->|]; [|done]. injection E' as -> ->. exists (row_at fv (p, m, fp)). split; [|by destruct fv].
      apply fwd_rows_elem. exists g. by rewrite row_at_key, row_at_leaf.
    + intros ([[[[f v] q] m'] fp'] & (g' & Hg' & Hl)%fwd_rows_elem & [= <- <-] & [= -> ->]). cbn in Hg', Hl. exists (q, m, fp). split; [congruence|]. by rewrite decide_True.
Qed.

Lemma view012_iter_all_spec s : lt_ok s -> exists out, view012_iter_all s = Ret out /\ index_all_ok (lt_rows s) row_path row_rest out.
Proof.
  intros Hs. set (h := fun e : F * V * group => map (fun '(p, mfs) => (e.1, p, mfs)) (map_to_list (group_buckets e.2))).
  assert (forall e, map fst (h e) = map (fun p => (e.1, p)) (map fst (map_to_list (group_buckets e.2)))) as Hh.
  { intros e. unfold h. rewrite !map_map. apply map_ext. by intros [p mfs]. }
  exists (map_to_list (fwd s) ≫= h). split; [|split_and!].
  - unfold view012_iter_all. apply flat_mapM_Ret. intros [fv g] Hin%elem_of_map_to_list. rewrite pg_iter_spec by (by apply (lk_groups _ Hs fv)). cbn [mbind outcome_bind].
    reflexivity.
  - assert (map fst (map_to_list (fwd s) ≫= h) = map_to_list (fwd s) ≫= (fun e => map fst (h e))) as ->.
    { induction (map_to_list (fwd s)) as [|e l IH]; [done|]. cbn [mbind list_bind]. by rewrite map_app, IH. }
    apply NoDup_bind; [| |apply NoDup_map_to_list].
    + intros [fv g] [fv' g'] k Hin%elem_of_map_to_list Hin'%elem_of_map_to_list. rewrite !Hh. intros (p & -> & _)%elem_of_map (p' & [= <- <-] & _)%elem_of_map. congruence.
    + intros [fv g] _. rewrite Hh. apply (NoDup_fmap_2_strong (pair fv)); [by intros ? ? _ _ [= ->]|]. apply (NoDup_fst_map_to_list (group_buckets g)).
  - apply Forall_forall. intros [[fv p] mfs] ([fv' g] & ([p' mfs'] & [= -> -> ->] & Hb%elem_of_map_to_list)%elem_of_map & Hin%elem_of_map_to_list)%list_elem_of_bind.
    by apply (group_buckets_spec s fv' g p').
  - intros r (g & Hg & Hl)%fwd_rows_elem. assert (exists mfs, group_buckets g !! (row_path r).2 = Some mfs) as [mfs Hb].
    { unfold group_buckets. rewrite buckets_lookup, lookup_empty. destruct (omap _ _) eqn:E; [|by eexists]. exfalso.
      assert (row_rest r ∈ ([] : list (M * Fp))) as Hnil; [|by apply not_elem_of_nil in Hnil]. rewrite <- E. apply list_elem_of_omap. destruct r as [[[[f v] p] m] fp].
      exists (p, (m, fp)). split; [|by rewrite decide_True]. apply elem_of_map. by exists (p, m, fp). }
    apply elem_of_map. exists (row_key r, (row_path r).2, mfs). split; [by destruct r as [[[[]]]]|]. apply list_elem_of_bind. exists (row_key r, g).
    split; [|by apply elem_of_map_to_list]. apply elem_of_map. exists ((row_path r).2, mfs). split; [done|]. by apply elem_of_map_to_list.
Qed.

Lemma view_full_spec s r : lt_ok s -> view_full_get s r = Ret (if decide (r ∈ lt_rows s) then Some tt else None) /\
  view_full_iter_all s = Ret (map (fun r => (r, tt)) (lt_rows s)).
Proof.
  intros Hs. split; [unfold view_full_get; rewrite lt_contains_spec by done; cbn [mbind outcome_bind]; by case_bool_decide; case_decide|].
  unfold view_full_iter_all. rewrite (flat_mapM_Ret _ (fun '(fv, g) => map (fun r => (r, tt)) (map (row_at fv) (pg_leaves g)))).
  - f_equal. unfold lt_rows, fwd_rows. induction (map_to_list (fwd s)) as [|[fv g] l IH]; [done|]. cbn [mbind list_bind]. by rewrite IH, map_app.
  - intros [fv g] Hin%elem_of_map_to_list. by rewrite group_rows_spec by (by apply (lk_groups _ Hs fv)).
Qed.

Lemma lt_for_each_spec {C} (f : C -> row -> outcome C) acc s : lt_ok s -> lt_for_each_row f acc s = foldM f acc (lt_rows s).
Proof.
  intros [Hs _]. unfold lt_for_each_row, lt_rows, fwd_rows.
  assert (Forall (fun e => pg_ok e.2) (map_to_list (fwd s))) as Hall by (apply Forall_forall; intros [fv g] Hin%elem_of_map_to_list; by apply (Hs fv g)).
  revert acc. induction Hall as [|[[fk v] g] l Hg _ IH]; intros acc; [done|]. cbn [foldM mbind list_bind snd] in *. rewrite foldM_app, pg_iter_spec by done. cbn [mbind outcome_bind].
  assert (forall ls acc, foldM (fun acc '(p, m, fp) => f acc (fk, v, p, m, fp)) acc ls = foldM f acc (map (row_at (fk, v)) ls)) as ->.
  { clear. induction ls as [|[[p m] fp] ls IHl]; intros acc; [done|]. cbn [foldM map row_at fst snd]. by destruct (f acc _). }
  destruct (foldM f acc _) as [acc'| |]; [apply IH|done..].
Qed.
End StoreSpec.

(** ** Semi-naive evaluation

    The three versions of a relation and the physical relation, a [CountingVec], of which only the length is kept.  A
    rule adds a row unless [total] or [delta] holds it, and the generated code pushes each row that is new; at the
    end of a round the versions are merged. *)

Section Rounds.
Context {F V P M Fp S1 S2 : Type} `{Countable F, Countable V, Countable P, EqDecision M, EqDecision Fp}.
Context `{SetOps (P * M * Fp) S1, SetOps (M * Fp) S2}.
#[local] Notation row := (F * V * P * M * Fp)%type.
#[local] Notation store := (LocalsIndCommon F V P S1 S2).

Record Relation := mk_relation { r_new : store; r_delta : store; r_total : store; r_count : Z }.

Definition relation_default : Relation := mk_relation lt_default lt_default lt_default 0.
Definition counting_push (len : Z) : Z := len + 1.

Definition derive (st : Relation) (r : row) : outcome Relation :=
  in_total ← lt_contains (r_total st) r;
  if in_total : bool then Ret st
  else
    in_delta ← lt_contains (r_delta st) r;
    if in_delta : bool then Ret st
    else
      '(new, added) ← lt_insert (r_new st) r;
      Ret (mk_relation new (r_delta st) (r_total st) (if added : bool then counting_push (r_count st) else r_count st)).

Definition merge_versions (st : Relation) : outcome Relation :=
  '(new, delta, total) ← lt_merge (r_new st) (r_delta st) (r_total st); Ret (mk_relation new delta total (r_count st)).

Definition derive_round (st : Relation) (rows : list row) : outcome Relation :=
  st ← foldM derive st rows; merge_versions st.
End Rounds.
Arguments Relation _ _ _ _ _ {_ _ _ _ _ _} : assert.

Section RoundsSpec.
Context {F V P M Fp S1 S2 : Type} `{Countable F, Countable V, Countable P, EqDecision M, EqDecision Fp}.
Context `{SetOps (P * M * Fp) S1, SetOps (M * Fp) S2, !SetLaws (P * M * Fp) S1, !SetLaws (M * Fp) S2}.
#[local] Notation row := (F * V * P * M * Fp)%type.
#[local] Notation store := (LocalsIndCommon F V P S1 S2).
#[local] Notation relation := (Relation F V P S1 S2).

Record rel_ok (st : relation) : Prop := {
  rk_new : lt_ok (r_new st);
  rk_delta : lt_ok (r_delta st);
  rk_total : lt_ok (r_total st);
  rk_disjoint : NoDup (lt_rows (r_total st) ++ lt_rows (r_delta st) ++ lt_rows (r_new st));
  rk_count : r_count st = lt_len (r_total st) + lt_len (r_delta st) + lt_len (r_new st)
}.

Definition rel_rows (st : relation) : list row := lt_rows (r_total st) ++ lt_rows (r_delta st) ++ lt_rows (r_new st).

Lemma rel_rows_elem st r : r ∈ rel_rows st <-> r ∈ lt_rows (r_total st) \/ r ∈ lt_rows (r_delta st) \/ r ∈ lt_rows (r_new st).
Proof. unfold rel_rows. by rewrite !elem_of_app. Qed.

Lemma relation_default_ok : rel_ok (relation_default : relation).
Proof. destruct (lt_default_ok (F := F) (V := V) (S1 := S1) (S2 := S2)) as [Hok E]. split; cbn [r_new r_delta r_total relation_default]; [done..|rewrite E; apply NoDup_nil_2|done]. Qed.

Lemma derive_spec (st : relation) r : rel_ok st ->
  match derive st r with
  | Ret st' => rel_ok st' /\ r_total st' = r_total st /\ r_delta st' = r_delta st /\
      forall x, x ∈ lt_rows (r_new st') <-> x ∈ lt_rows (r_new st) \/ x = r /\ r ∉ lt_rows (r_total st) /\ r ∉ lt_rows (r_delta st)
  | Panic => lt_stuck (S1 := S1) (S2 := S2) (rel_rows st)
  | OutOfFuel => False
  end.
Proof.
  intros Hst. destruct Hst as [Hn Hd Ht Hdis Hc]. unfold derive. rewrite (lt_contains_spec (r_total st) r Ht). cbn [mbind outcome_bind].
  destruct (bool_decide (r ∈ lt_rows (r_total st))) eqn:Et; [apply bool_decide_eq_true in Et; split; [by split|split_and!; [done..|tauto]]|apply bool_decide_eq_false in Et]. rewrite (lt_contains_spec (r_delta st) r Hd). cbn [mbind outcome_bind].
  destruct (bool_decide (r ∈ lt_rows (r_delta st))) eqn:Ed; [apply bool_decide_eq_true in Ed; split; [by split|split_and!; [done..|tauto]]|apply bool_decide_eq_false in Ed]. pose proof (lt_insert_spec (r_new st) r Hn) as Hi.
  destruct (lt_insert (r_new st) r) as [[n added]| |]; cbn [mbind outcome_bind]; [| |done].
  2: { eapply lt_stuck_mono; [|done]. intros x Hx. apply rel_rows_elem. tauto. }
  destruct Hi as (Hn' & Ha & Hp). pose proof (lk_len _ Hn) as L1. pose proof (lk_len _ Hn') as L2. split; [split|split_and!]; cbn [r_new r_delta r_total r_count]; try done.
  - rewrite Hp. destruct added; [|done]. symmetry in Ha. apply bool_decide_eq_true in Ha. rewrite (assoc_L (++)), <- Permutation_middle. apply NoDup_cons.
    split; [|by rewrite <- (assoc_L (++))]. rewrite !elem_of_app. tauto.
  - rewrite Hp in L2. unfold counting_push. destruct added; cbn [length] in L2; lia.
  - intros x. rewrite Hp. destruct added; [rewrite elem_of_cons; tauto|]. symmetry in Ha. apply bool_decide_eq_false in Ha.
    destruct (decide (r ∈ lt_rows (r_new st))) as [Hin|]; [|done]. split; [by left|]. by intros [?|(-> & _)].
Qed.

Lemma derive_fold rows : forall st : relation, rel_ok st ->
  match foldM derive st rows with
  | Ret st' => rel_ok st' /\ r_total st' = r_total st /\ r_delta st' = r_delta st /\
      forall x, x ∈ lt_rows (r_new st') <-> x ∈ lt_rows (r_new st) \/ x ∈ rows /\ x ∉ lt_rows (r_total st) /\ x ∉ lt_rows (r_delta st)
  | Panic => lt_stuck (S1 := S1) (S2 := S2) (rel_rows st ++ rows)
  | OutOfFuel => False
  end.
Proof.
  induction rows as [|r rows IH]; intros st Hst; cbn [foldM]; [split_and!; [done..|]; intros x; rewrite elem_of_nil; tauto|].
  pose proof (derive_spec st r Hst) as Hd. destruct (derive st r) as [st1| |]; [| |done].
  - destruct Hd as (Hst1 & Et & Ed & Hn). specialize (IH st1 Hst1). destruct (foldM derive st1 rows) as [st'| |]; [| |done].
    + destruct IH as (? & ? & ? & IH). split_and!; [done|congruence|congruence|]. intros x. rewrite IH, Hn, Et, Ed, elem_of_cons. naive_solver.
    + eapply lt_stuck_mono; [|done]. intros x. rewrite !elem_of_app, !rel_rows_elem, Hn, Et, Ed, elem_of_cons. naive_solver.
  - eapply lt_stuck_mono; [|done]. intros x Hx. apply elem_of_app. by left.
Qed.

Lemma merge_versions_spec (st : relation) : rel_ok st ->
  match merge_versions st with
  | Ret st' => rel_ok st' /\ r_new st' = lt_default /\ r_delta st' = r_new st /\ r_count st' = r_count st /\
      forall x, x ∈ lt_rows (r_total st') <-> x ∈ lt_rows (r_total st) \/ x ∈ lt_rows (r_delta st)
  | Panic => lt_stuck (S1 := S1) (S2 := S2) (rel_rows st)
  | OutOfFuel => False
  end.
Proof.
  intros [Hn Hd Ht Hdis Hc]. unfold merge_versions, lt_merge. pose proof (lt_absorb_spec (r_total st) (r_delta st) Ht Hd) as Ha.
  destruct (lt_absorb (r_total st) (r_delta st)) as [[t d]| |]; cbn [mbind outcome_bind]; [| |done].
  2: { eapply lt_stuck_mono; [|done]. intros x. rewrite rel_rows_elem, elem_of_app. tauto. }
  destruct Ha as (Ht' & Hin & ->). destruct (lt_default_ok (F := F) (V := V) (S1 := S1) (S2 := S2)) as [Hz E0]. assert (lt_rows t ≡ₚ lt_rows (r_total st) ++ lt_rows (r_delta st)) as Hp.
  { apply NoDup_Permutation; [by apply lt_rows_NoDup| |]. - rewrite (assoc_L (++)) in Hdis. by apply NoDup_app in Hdis as [? _]. - intros x. by rewrite elem_of_app. }
  split_and!; try done. split; cbn [r_new r_delta r_total r_count]; try done.
  - rewrite E0, app_nil_r, Hp. by rewrite <- (assoc_L (++)).
  - rewrite (lk_len _ Ht'), Hp, length_app, Hc, (lk_len _ Ht), (lk_len _ Hd). cbn [lt_len lt_default]. lia.
Qed.

(** After rounds of derivations, the last of them [rows]. *)
Definition round_state (before rows : list row) (st : relation) : Prop :=
  rel_ok st /\ lt_rows (r_new st) = [] /\ (forall x, x ∈ lt_rows (r_total st) <-> x ∈ before) /\
  (forall x, x ∈ lt_rows (r_delta st) <-> x ∈ rows /\ x ∉ before).

Lemma derive_round_spec before rows rows' (st : relation) : round_state before rows st ->
  match derive_round st rows' with
  | Ret st' => round_state (before ++ rows) rows' st'
  | Panic => lt_stuck (S1 := S1) (S2 := S2) (before ++ rows ++ rows')
  | OutOfFuel => False
  end.
Proof.
  intros (Hok & En & Ht & Hd). unfold derive_round. pose proof (derive_fold rows' st Hok) as Hf.
  assert (forall x, x ∈ rel_rows st -> x ∈ before \/ x ∈ rows) as Hrr by (intros x; rewrite rel_rows_elem, Ht, Hd, En, elem_of_nil; tauto).
  destruct (foldM derive st rows') as [st1| |]; cbn [mbind outcome_bind]; [| |done].
  2: { eapply lt_stuck_mono; [|done]. intros x. rewrite !elem_of_app. intros [?%Hrr|?]; tauto. }
  destruct Hf as (Hok1 & Et & Ed & Hn). assert (forall x, x ∈ before \/ x ∈ rows <-> x ∈ lt_rows (r_total st) \/ x ∈ lt_rows (r_delta st)) as Hold.
  { intros x. rewrite Ht, Hd. destruct (decide (x ∈ before)); tauto. }
  pose proof (merge_versions_spec st1 Hok1) as Hm. destruct (merge_versions st1) as [st'| |]; [| |done].
  - destruct Hm as (Hok' & En' & Ed' & _ & Ht'). split_and!; [done|rewrite En'; apply lt_default_ok| |].
    + intros x. rewrite Ht', Et, Ed, elem_of_app. symmetry. apply Hold.
    + intros x. rewrite Ed', Hn, En, elem_of_nil, elem_of_app, Hold. tauto.
  - eapply lt_stuck_mono; [|done]. intros x. rewrite rel_rows_elem, Et, Ed, Hn, En, elem_of_nil, !elem_of_app. pose proof (Hold x). tauto.
Qed.

Lemma rounds_spec rounds : forall before rows (st : relation), round_state before rows st ->
  match foldM derive_round st rounds with
  | Ret st' => exists before' rows', before' ++ rows' = before ++ rows ++ concat rounds /\ rows' = default rows (last rounds) /\ round_state before' rows' st'
  | Panic => lt_stuck (S1 := S1) (S2 := S2) (before ++ rows ++ concat rounds)
  | OutOfFuel => False
  end.
Proof.
  induction rounds as [|rows1 rounds IH]; intros before rows st Hst; cbn [foldM concat]; [exists before, rows; by rewrite app_nil_r|].
  pose proof (derive_round_spec before rows rows1 st Hst) as Hd. destruct (derive_round st rows1) as [st1| |]; [| |done].
  - specialize (IH _ _ _ Hd). destruct (foldM derive_round st1 rounds) as [st'| |]; [| |done].
    + destruct IH as (before' & rows' & E & El & Hs). exists before', rows'. rewrite E, <- !(assoc_L (++)). split_and!; [done| |done]. rewrite El, last_cons. by destruct (last rounds).
    + by rewrite <- !(assoc_L (++)) in IH.
  - eapply lt_stuck_mono; [|done]. intros x. rewrite !elem_of_app. tauto.
Qed.
End RoundsSpec.

(** ** Relations over hybrid sets *)

Section Hybrid.
Context {F V P M Fp : Type} `{Countable F, Countable V, Countable P, EqDecision M, EqDecision Fp, Allocator}.
Context `{Layout (P * M * Fp), Layout (M * Fp), Hasher (P * M * Fp), Hasher (M * Fp)}.
#[local] Notation row := (F * V * P * M * Fp)%type.
#[local] Notation S1 := (HybridSet (P * M * Fp)).
#[local] Notation S2 := (HybridSet (M * Fp)).

Lemma hybrid_store_not_stuck (rows : list row) (Hmem1 : memory_suffices (T := P * M * Fp) SMALL_THRESHOLD)
    (Hmem2 : memory_suffices (T := M * Fp) SMALL_THRESHOLD) : Z.of_nat (length rows) < 2 ^ 28 -> lt_stuck (S1 := S1) (S2 := S2) rows -> False.
Proof.
  intros Hsize (fv & ls & [(s & Hok & Hst & Hsub)|(p & s & Hok & Hst & Hsub)] & Hls).
  - eapply (hybrid_not_stuck s (length rows) Hmem1 Hok); [|done..]. rewrite <- (length_map (row_at fv)). apply submseteq_length, NoDup_submseteq.
    + apply (NoDup_fmap_2 (row_at fv)). by apply set_len_law.
    + intros x (l & -> & Hl)%elem_of_map. apply Hls, elem_of_map. exists l. split; [done|by apply Hsub].
  - eapply (hybrid_not_stuck s (length rows) Hmem2 Hok); [|done..]. rewrite <- (length_map (with_path p)), <- (length_map (row_at fv)). apply submseteq_length, NoDup_submseteq.
    + apply (NoDup_fmap_2 (row_at fv)), (NoDup_fmap_2 (with_path p)). by apply set_len_law.
    + intros x (l & -> & Hl)%elem_of_map. apply Hls, elem_of_map. exists l. split; [done|by apply Hsub].
Qed.

(** The indices of a store, over its rows. *)
Definition views_agree (s : LocalsIndCommon F V P S1 S2) (rows : list row) : Prop :=
  lt_len s = Z.of_nat (length rows) /\
  (forall r, lt_contains s r = Ret (bool_decide (r ∈ rows)) /\ view_full_get s r = Ret (if decide (r ∈ rows) then Some tt else None)) /\
  view_none_get s = Ret (Some rows) /\ view_none_iter_all s = Ret [(tt, rows)] /\ view_full_iter_all s = Ret (map (fun r => (r, tt)) rows) /\
  (forall fv, exists o, view01_get s fv = Ret o /\ index_get_ok rows row_key row_leaf fv o) /\
  (exists out, view01_iter_all s = Ret out /\ index_all_ok rows row_key row_leaf out) /\
  (forall k, exists o, view012_get s k = Ret o /\ index_get_ok rows row_path row_rest k o) /\
  (exists out, view012_iter_all s = Ret out /\ index_all_ok rows row_path row_rest out).

Lemma views_agree_rows s : lt_ok s -> views_agree s (lt_rows s).
Proof.
  intros Hs. destruct (view_none_spec s Hs) as [? ?]. split_and!; [apply (lk_len _ Hs)| |done|done|.. | |].
  - intros r. split; [by apply lt_contains_spec|by apply view_full_spec].
  - destruct (lt_rows s) as [|r l] eqn:E; [|rewrite <- E; by apply (view_full_spec s r)]. unfold view_full_iter_all, lt_rows, fwd_rows in *.
    assert (fwd s = ∅) as ->; [|by rewrite map_to_list_empty]. apply map_empty. intros fv. destruct (fwd s !! fv) as [g|] eqn:Eg; [|done].
    destruct (lk_groups _ Hs fv g Eg) as [_ Hne]. destruct (pg_leaves g) as [|x ls] eqn:El; [done|]. exfalso. apply (not_elem_of_nil (row_at fv x)). rewrite <- E.
    apply fwd_rows_elem. exists g. rewrite row_at_key, row_at_leaf, El. split; [done|apply list_elem_of_here].
  - intros fv. by apply view01_get_spec.
  - by apply view01_iter_all_spec.
  - intros k. by apply view012_get_spec.
  - by apply view012_iter_all_spec.
Qed.

(** C18: Semi-naive evaluation over the shared store.  For every sequence of rounds that derive fewer than 2^28 rows, with
    rows derived again in a round or across rounds, evaluation returns; afterwards [new] is empty, [total] holds exactly the rows
    of the earlier rounds, [delta] exactly the rows the last round derived first, and the physical relation has counted
    each distinct row once.  In every version the length is exact and all views - [none], [0_1], [0_1_2] and the full
    index, probed and iterated - answer from the same rows, each once, with [None] exactly where there are none. *)
Theorem locals_relation_semi_naive (rounds : list (list row)) (rows : list row) (Hmem1 : memory_suffices (T := P * M * Fp) SMALL_THRESHOLD)
    (Hmem2 : memory_suffices (T := M * Fp) SMALL_THRESHOLD) (Hsize : Z.of_nat (length (concat (rounds ++ [rows]))) < 2 ^ 28) :
  exists (st : Relation F V P S1 S2) total delta, foldM derive_round relation_default (rounds ++ [rows]) = Ret st /\
    lt_is_empty (r_new st) = true /\ views_agree (r_total st) total /\ views_agree (r_delta st) delta /\
    NoDup total /\ (forall r, r ∈ total <-> r ∈ concat rounds) /\
    NoDup delta /\ (forall r, r ∈ delta <-> r ∈ rows /\ r ∉ concat rounds) /\
    r_count st = Z.of_nat (length (remove_dups (concat (rounds ++ [rows])))).
Proof.
  assert (round_state [] [] (relation_default : Relation F V P S1 S2)) as H0'.
  { split; [apply relation_default_ok|]. destruct (lt_default_ok (F := F) (V := V) (S1 := S1) (S2 := S2)) as [_ E]. cbn [r_new r_delta r_total relation_default]. rewrite E.
    split_and!; [done|done|]. intros x. rewrite elem_of_nil. tauto. }
  pose proof (rounds_spec (rounds ++ [rows]) [] [] _ H0') as Hr. destruct (foldM _ _ _) as [st| |]; [|by destruct (hybrid_store_not_stuck _ Hmem1 Hmem2 Hsize)|done].
  destruct Hr as (before & rows' & E & El & (Hok & En & Ht & Hd)). rewrite last_snoc in El. cbn in El. subst rows'. rewrite concat_app in E |- *. cbn [concat] in E |- *. rewrite app_nil_r in E |- *.
  cbn [app] in E. apply app_inv_tail in E as ->. exists st, (lt_rows (r_total st)), (lt_rows (r_delta st)). destruct Hok as [Kn Kd Kt Kdis Kc]. split_and!; try done.
  - by apply lt_is_empty_spec.
  - by apply views_agree_rows.
  - by apply views_agree_rows.
  - by apply lt_rows_NoDup.
  - by apply lt_rows_NoDup.
  - rewrite Kc, (lk_len _ Kn), En, (lk_len _ Kt), (lk_len _ Kd). cbn [length]. rewrite Z.add_0_r, <- Nat2Z.inj_add, <- length_app. f_equal. apply Permutation_length.
    rewrite En, app_nil_r in Kdis. apply NoDup_Permutation; [done|apply NoDup_remove_dups|]. intros x. rewrite elem_of_remove_dups, !elem_of_app, Ht, Hd.
    destruct (decide (x ∈ concat rounds)); tauto.
Qed.
End Hybrid.

(** ** Witness *)

#[local] Existing Instances any_block.
#[local] Instance leaf_layout : Layout (Z * Z * Z) := {| size_of := 24; align_of := 8; needs_drop := false |}.
#[local] Instance rest_layout : Layout (Z * Z) := {| size_of := 16; align_of := 8; needs_drop := false |}.
#[local] Instance leaf_hasher : Hasher (Z * Z * Z).
Proof. exists (fun '(p, a, b) => word_hash (p + 31 * a + 997 * b)). intros [[p a] b]. apply word_hash_range. Defined.
#[local] Instance rest_hasher : Hasher (Z * Z).
Proof. exists (fun '(a, b) => word_hash (31 * a + 997 * b)). intros [a b]. apply word_hash_range. Defined.

Definition demo_rounds : list (list (Z * Z * Z * Z * Z)) := [[(1, 1, 7, 0, 5); (1, 1, 7, 0, 5)]; [(1, 2, 7, 0, 5); (1, 1, 7, 0, 5)]].
Definition demo_last : list (Z * Z * Z * Z * Z) := [(1, 2, 7, 0, 5); (1, 1, 8, 0, 5)].

Lemma locals_relation_semi_naive_witness : exists st : Relation Z Z Z (HybridSet (Z * Z * Z)) (HybridSet (Z * Z)),
  foldM derive_round relation_default (demo_rounds ++ [demo_last]) = Ret st /\ r_count st = 3 /\
  lt_contains (r_delta st) (1, 1, 8, 0, 5) = Ret true /\ lt_contains (r_delta st) (1, 2, 7, 0, 5) = Ret false /\ lt_contains (r_total st) (1, 2, 7, 0, 5) = Ret true.
Proof.
  destruct (locals_relation_semi_naive demo_rounds demo_last) as (st & total & delta & E & _ & Ht & Hd & _ & Ht' & _ & Hd' & Hc);
    [apply any_memory_suffices; [done|done|by exists 3]|apply any_memory_suffices; [done|done|by exists 2]|vm_compute; reflexivity|].
  destruct Ht as (_ & Ht & _), Hd as (_ & Hd & _). exists st. split; [exact E|]. split; [exact Hc|]. split_and!.
  - destruct (Hd (1, 1, 8, 0, 5)) as [-> _]. rewrite bool_decide_true; [reflexivity|]. apply Hd'. split; apply (bool_decide_unpack _); vm_compute; exact I.
  - destruct (Hd (1, 2, 7, 0, 5)) as [-> _]. rewrite bool_decide_false; [reflexivity|]. rewrite Hd'. intros [_ Hn]. apply Hn. apply (bool_decide_unpack _). vm_compute. exact I.
  - destruct (Ht (1, 2, 7, 0, 5)) as [-> _]. rewrite bool_decide_true; [reflexivity|]. apply Ht'. apply (bool_decide_unpack _). vm_compute. exact I.
Defined.
