(* ===== verification/CondTrie.v ===== *)
(** * CondTrie: a relation kept as a lattice on its conditions

    src/ctadl-index/src/index_engine/cond_trie.rs: a row is a fact of five columns and the condition it holds under.  The
    unconditional facts live in a [LocalsIndCommon], the conditional ones beside it in nested maps.  The joins of conditions
    read and extend the global tables of decision sets, so those are threaded through ([Statics]).  A lazy iterator is the list of what it
    yields; a [retain] visits the entries of a map in the order of [map_to_list], which stands for the unspecified order.  The lemmas about the merges
    and rounds are in [CondRounds]. *)

From S2P Require Import Prelude Bits Interner UnionCache Decision PathGroup LocalsTrie.
From S2P Require Import HybridSet.

#[local] Open Scope Z_scope.
Set Default Proof Using "Type".

(** [a - b] on [usize]. *)
Definition usize_sub (a b : Z) : outcome Z := if b <=? a then Ret (a - b) else Panic.

(** [HashMap::retain]: the closure sees each entry once, may change its value and keeps it or not. *)
Fixpoint retain_list {S K W} (f : S -> K -> W -> outcome (S * W * bool)) (s : S) (l : list (K * W)) : outcome (S * list (K * W)) :=
  match l with
  | [] => Ret (s, [])
  | (k, w) :: l =>
      '(s, w, keep) ← f s k w;
      '(s, l) ← retain_list f s l;
      Ret (s, if keep : bool then (k, w) :: l else l)
  end.

Definition retainM `{Countable K} {S W} (f : S -> K -> W -> outcome (S * W * bool)) (s : S) (m : gmap K W) : outcome (S * gmap K W) :=
  '(s, l) ← retain_list f s (map_to_list m); Ret (s, list_to_map l).

(** [map.is_empty()]. *)
Definition map_is_empty `{Countable K} {W} (m : gmap K W) : bool := bool_decide (m = ∅).

Section Trie.
Context {St : Type} `{IH : IdHandle (list Z) St}.
Context {K1 K2 P A B S1 S2 : Type} `{Countable K1, Countable K2, Countable P, Countable A, Countable B}.
Context `{SetOps (P * A * B) S1, SetOps (A * B) S2}.
#[local] Notation row := (K1 * K2 * P * A * B)%type.
#[local] Notation locals := (LocalsIndCommon K1 K2 P S1 S2).
#[local] Notation statics := (Statics St).
Implicit Types (g : statics) (r : row) (c : Cond).

Definition covers g (held c : Cond) : outcome (statics * bool) :=
  match held, c with
  | Always, _ => Ret (g, true)
  | _, Always => Ret (g, false)
  | held, c => '(g, (_, changed)) ← cond_join_mut g held c; Ret (g, negb changed)
  end.

#[local] Notation abs_map := (gmap (A * B) Cond).
#[local] Notation leaves_map := (gmap P abs_map).
#[local] Notation cond_map := (gmap (K1 * K2) leaves_map).

Record CondTrie := mk_trie { ct_always : locals; ct_cond : cond_map; ct_cond_len : Z }.

Definition ct_default : CondTrie := mk_trie lt_default ∅ 0.
Definition ct_len (s : CondTrie) : Z := lt_len (ct_always s) + ct_cond_len s.
Definition ct_is_empty (s : CondTrie) : bool := ct_len s =? 0.

(** [cond.get(g)?.get(p)?.get(ab)]. *)
Definition cond_lookup (m : cond_map) r : option Cond :=
  let '(k1, k2, p, a, b) := r in leaves ← m !! (k1, k2); abs ← (leaves : leaves_map) !! p; (abs : abs_map) !! (a, b).

Definition cond_at (s : CondTrie) r : outcome (option Cond) :=
  unconditional ← lt_contains (ct_always s) r;
  if unconditional : bool then Ret (Some Always)
  else if map_is_empty (ct_cond s) then Ret None
  else Ret (cond_lookup (ct_cond s) r).

(** The value of an entry, through [entry(g).or_default().entry(p).or_default()]. *)
Definition cond_put (m : cond_map) r c : cond_map :=
  let '(k1, k2, p, a, b) := r in
  let leaves := default ∅ (m !! (k1, k2)) in
  let abs := default ∅ (leaves !! p) in
  <[(k1, k2) := <[p := <[(a, b) := c]> abs]> leaves]> m.

Definition remove_cond (s : CondTrie) r : outcome CondTrie :=
  let '(k1, k2, p, a, b) := r in
  match ct_cond s !! (k1, k2) with
  | None => Ret s
  | Some leaves =>
      match leaves !! p with
      | None => Ret s
      | Some abs =>
          len ← (match abs !! (a, b) with Some _ => usize_sub (ct_cond_len s) 1 | None => Ret (ct_cond_len s) end);
          let abs := delete (a, b) abs in
          Ret (mk_trie (ct_always s)
            (if map_is_empty abs then
               let leaves := delete p leaves in
               if map_is_empty leaves then delete (k1, k2) (ct_cond s) else <[(k1, k2) := leaves]> (ct_cond s)
             else <[(k1, k2) := <[p := abs]> leaves]> (ct_cond s)) len)
      end
  end.

Definition ct_insert g (s : CondTrie) r c : outcome (statics * (CondTrie * bool)) :=
  if is_always c then
    '(always, added) ← lt_insert (ct_always s) r;
    Ret (g, (mk_trie always (ct_cond s) (ct_cond_len s), added))
  else
    unconditional ← lt_contains (ct_always s) r;
    if unconditional : bool then Ret (g, (s, false))
    else
      match cond_lookup (ct_cond s) r with
      | Some held =>
          '(g, (joined, changed)) ← cond_join_mut g held c;
          let s := mk_trie (ct_always s) (cond_put (ct_cond s) r joined) (ct_cond_len s) in
          if negb changed then Ret (g, (s, false))
          else if is_always joined then
            s ← remove_cond s r;
            '(always, _) ← lt_insert (ct_always s) r;
            Ret (g, (mk_trie always (ct_cond s) (ct_cond_len s), true))
          else Ret (g, (s, true))
      | None => Ret (g, (mk_trie (ct_always s) (cond_put (ct_cond s) r c) (ct_cond_len s + 1), true))
      end.

(** A [retain] of every leaf of the nested maps, which drops the maps it empties.  [skip] are the groups whose leaves are not visited. *)
Definition retain_leaves {S} (skip : K1 * K2 -> bool) (f : S -> row -> Cond -> outcome (S * Cond * bool)) (s : S) (m : cond_map) : outcome (S * cond_map) :=
  retainM (fun s '(k1, k2) (leaves : leaves_map) =>
    if skip (k1, k2) then Ret (s, leaves, negb (map_is_empty leaves))
    else
      '(s, leaves) ← retainM (fun s p (abs : abs_map) =>
        '(s, abs) ← retainM (fun s '(a, b) c => f s (k1, k2, p, a, b) c) s abs;
        Ret (s, abs, negb (map_is_empty abs))) s leaves;
      Ret (s, leaves, negb (map_is_empty leaves))) s m.

(** The closure that drops the leaves [from] makes unconditional; [from]'s group of the row is there. *)
Definition drop_unconditional (fwd_from : gmap (K1 * K2) (PathGroup P S1 S2)) (removed : Z) r c : outcome (Z * Cond * bool) :=
  let '(k1, k2, p, a, b) := r in
  group ← unwrap (fwd_from !! (k1, k2));
  gone ← pg_contains group p a b;
  Ret (if gone : bool then removed + 1 else removed, c, negb gone).

(** [for ((k1, k2), leaves) in cond { for (p, abs) in leaves { for ((a, b), c) in abs { .. } } }]. *)
Definition for_leaves {S} (f : S -> row -> Cond -> outcome S) (s : S) (m : cond_map) : outcome S :=
  foldM (fun s '((k1, k2), leaves) =>
    foldM (fun s '(p, abs) =>
      foldM (fun s '((a, b), c) => f s (k1, k2, p, a, b) c) s (map_to_list (abs : abs_map))) s (map_to_list (leaves : leaves_map))) s (map_to_list m).

Definition absorb_leaf (acc : statics * CondTrie) r c : outcome (statics * CondTrie) :=
  let '(g, self) := acc in '(g, (self, _)) ← ct_insert g self r c; Ret (g, self).

(** The new [self] and the emptied [from]. *)
Definition ct_absorb g (self from : CondTrie) : outcome (statics * (CondTrie * CondTrie)) :=
  self ← (if negb (map_is_empty (ct_cond self)) && negb (lt_is_empty (ct_always from)) then
            let fwd_from := fwd (ct_always from) in
            '(removed, cond) ← retain_leaves (fun k => negb (bool_decide (is_Some (fwd_from !! k)))) (drop_unconditional fwd_from) 0 (ct_cond self);
            len ← usize_sub (ct_cond_len self) removed;
            Ret (mk_trie (ct_always self) cond len)
          else Ret self);
  '(always, from_always) ← lt_absorb (ct_always self) (ct_always from);
  let self := mk_trie always (ct_cond self) (ct_cond_len self) in
  '(g, self) ← for_leaves absorb_leaf (g, self) (ct_cond from);
  Ret (g, (self, mk_trie from_always ∅ 0)).

(** The closure of [refine]: drops a leaf that is covered, and joins the others with what is held. *)
Definition refine_leaf (always : locals) (total : CondTrie) (acc : statics * Z * list row) r c : outcome (statics * Z * list row * Cond * bool) :=
  let '(g, removed, spilled) := acc in
  unconditional ← lt_contains always r;
  held ← (if unconditional : bool then Ret (Some Always) else cond_at total r);
  match held with
  | None => Ret (g, removed, spilled, c, true)
  | Some held =>
      '(g, covered) ← covers g held c;
      if covered : bool then Ret (g, removed + 1, spilled, c, false)
      else
        '(g, (c, _)) ← cond_join_mut g c held;
        if is_always c then Ret (g, removed + 1, spilled ++ [r], c, false)
        else Ret (g, removed, spilled, c, true)
  end.

Definition ct_refine g (self total : CondTrie) : outcome (statics * CondTrie) :=
  if map_is_empty (ct_cond self) then Ret (g, self)
  else
    '(g, removed, spilled, cond) ← retain_leaves (fun _ => false) (refine_leaf (ct_always self) total) (g, 0, []) (ct_cond self);
    len ← usize_sub (ct_cond_len self) removed;
    always ← foldM (fun always r => '(always, _) ← lt_insert always r; Ret always) (ct_always self) spilled;
    Ret (g, mk_trie always cond len).

(** The new [new], [delta] and [total]. *)
Definition ct_merge g (new delta total : CondTrie) : outcome (statics * (CondTrie * CondTrie * CondTrie)) :=
  '(g, (total, delta)) ← ct_absorb g total delta;
  '(g, new) ← ct_refine g new total;
  Ret (g, (delta, new, total)).

(** ** Reads *)

Definition leaf_rows (e : K1 * K2 * leaves_map) : list (row * Cond) :=
  let '((k1, k2), leaves) := e in
  map_to_list leaves ≫= (fun '(p, abs) => map (fun '((a, b), c) => ((k1, k2, p, a, b), c)) (map_to_list (abs : abs_map))).

Definition ct_rows (s : CondTrie) : outcome (list (row * Cond)) :=
  always ← flat_mapM (fun e => l ← group_rows e; Ret (map (fun r => (r, Always)) l)) (map_to_list (fwd (ct_always s)));
  Ret (always ++ (map_to_list (ct_cond s) ≫= leaf_rows)).

(** The leaves of a group, or of a path in it, with their conditions. *)
Definition group_leaves_of (leaves : leaves_map) : list (P * A * B * Cond) :=
  map_to_list leaves ≫= (fun '(p, abs) => map (fun '((a, b), c) => (p, a, b, c)) (map_to_list (abs : abs_map))).

Definition ct_group (s : CondTrie) (key : K1 * K2) : outcome (option (list (P * A * B * Cond))) :=
  let always := fwd (ct_always s) !! key in
  let cond := if map_is_empty (ct_cond s) then None else ct_cond s !! key in
  match always, cond with
  | None, None => Ret None
  | _, _ =>
      l ← (match always with Some group => pg_iter group | None => Ret [] end);
      Ret (Some (map (fun '(p, a, b) => (p, a, b, Always)) l ++ match cond with Some leaves => group_leaves_of leaves | None => [] end))
  end.

(** [CondGet] yields the unconditional rows, then the conditional ones. *)
Definition cond_get (always : option (list (A * B))) (cond : option abs_map) : list (A * B * Cond) :=
  map (fun '(a, b) => (a, b, Always)) (default [] always) ++ match cond with Some abs => map_to_list abs | None => [] end.

Definition ct_get (s : CondTrie) (key : K1 * K2 * P) : outcome (option (list (A * B * Cond))) :=
  always ← (match fwd (ct_always s) !! key.1 with Some group => pg_get group key.2 | None => Ret None end);
  let cond := if map_is_empty (ct_cond s) then None else leaves ← ct_cond s !! key.1; (leaves : leaves_map) !! key.2 in
  match always, cond with None, None => Ret None | _, _ => Ret (Some (cond_get always cond)) end.

Definition ct_iter_by_path (s : CondTrie) : outcome (list (K1 * K2 * P * list (A * B * Cond))) :=
  l ← ct_rows s;
  Ret (map_to_list (foldl bucket_push (∅ : gmap (K1 * K2 * P) (list (A * B * Cond))) (map (fun '((k1, k2, p, a, b), c) => ((k1, k2, p), (a, b, c))) l))).

(** The [0_1] index iterated: the keys of both maps, each with its group. *)
Definition ct_iter_groups (s : CondTrie) : outcome (list (K1 * K2 * list (P * A * B * Cond))) :=
  let keys := dom (fwd (ct_always s)) ∪ dom (ct_cond s) in
  mapM_out (fun k => o ← ct_group s k; l ← unwrap o; Ret (k, l)) (elements keys).

(** The full index: existence is coverage. *)
Definition ct_contains_key g (s : CondTrie) (rc : row * Cond) : outcome (statics * bool) :=
  held ← cond_at s rc.1;
  match held with Some held => covers g held rc.2 | None => Ret (g, false) end.

Definition ct_full_get (s : CondTrie) (rc : row * Cond) : outcome (option unit) :=
  held ← cond_at s rc.1; Ret (if bool_decide (held = Some rc.2) then Some tt else None).

(** The versions of a relation.  A rule adds a row unless [total] or [delta] covers it; the merge ends a round. *)
Record CondRelation := mk_cond_relation { cr_new : CondTrie; cr_delta : CondTrie; cr_total : CondTrie }.

Definition cond_derive (acc : statics * CondRelation) (rc : row * Cond) : outcome (statics * CondRelation) :=
  let '(g, st) := acc in
  '(g, in_total) ← ct_contains_key g (cr_total st) rc;
  if in_total : bool then Ret (g, st)
  else
    '(g, in_delta) ← ct_contains_key g (cr_delta st) rc;
    if in_delta : bool then Ret (g, st)
    else '(g, (new, _)) ← ct_insert g (cr_new st) rc.1 rc.2; Ret (g, mk_cond_relation new (cr_delta st) (cr_total st)).

Definition cond_round (acc : statics * CondRelation) (rows : list (row * Cond)) : outcome (statics * CondRelation) :=
  '(g, st) ← foldM cond_derive acc rows;
  '(g, (new, delta, total)) ← ct_merge g (cr_new st) (cr_delta st) (cr_total st);
  Ret (g, mk_cond_relation new delta total).
End Trie.
Arguments CondTrie _ _ _ _ _ _ _ {_ _ _ _ _ _ _ _ _ _} : assert.
Arguments CondRelation _ _ _ _ _ _ _ {_ _ _ _ _ _ _ _ _ _} : assert.

(** ** The column order of [assign]

    [assign_like] and [ext_dst] group an edge [Vd.Pd = Vs.Ps] on its source: the store's columns are [(F, Vs, Ps, Vd, Pd)]. *)
Section Assign.
Context {St : Type} `{IH : IdHandle (list Z) St}.
Context {T0 T1 T2 T3 T4 S1 S2 : Type} `{Countable T0, Countable T1, Countable T2, Countable T3, Countable T4}.
Context `{SetOps (T4 * T1 * T2) S1, SetOps (T1 * T2) S2}.
#[local] Notation row := (T0 * T1 * T2 * T3 * T4)%type.
#[local] Notation store := (CondTrie T0 T3 T4 T1 T2 S1 S2).

Definition assign_row (r : row) : T0 * T3 * T4 * T1 * T2 := let '(f, vd, pd, vs, ps) := r in (f, vs, ps, vd, pd).
Definition assign_edge (r : T0 * T3 * T4 * T1 * T2) : row := let '(f, vs, ps, vd, pd) := r in (f, vd, pd, vs, ps).

Definition assign_insert (g : Statics St) (s : store) (rc : row * Cond) : outcome (Statics St * (store * bool)) := ct_insert g s (assign_row rc.1) rc.2.
Definition assign_contains_key (g : Statics St) (s : store) (rc : row * Cond) : outcome (Statics St * bool) := ct_contains_key g s (assign_row rc.1, rc.2).
Definition assign_rows (s : store) : outcome (list (row * Cond)) := l ← ct_rows s; Ret (map (fun '(r, c) => (assign_edge r, c)) l).
Definition assign_group (s : store) (key : T0 * T3) : outcome (option (list (T1 * T2 * T4 * Cond))) :=
  o ← ct_group s key; Ret (option_map (map (fun '(ps, vd, pd, c) => (vd, pd, ps, c))) o).

Definition assign_from_rows (rows : list row) : outcome store :=
  foldM (fun store r => '(always, _) ← lt_insert (ct_always store) (assign_row r); Ret (mk_trie always (ct_cond store) (ct_cond_len store))) ct_default rows.

Definition assign_into_always_vec (s : store) : outcome (list row) :=
  foldM (fun out '((f, vs), group) => pg_for (fun out '(ps, vd, pd) => Ret (out ++ [(f, vd, pd, vs, ps)])) out group) [] (map_to_list (fwd (ct_always s))).
End Assign.

(** ** Retaining *)

Lemma retain_list_app {S K W} (f : S -> K -> W -> outcome (S * W * bool)) l1 l2 : forall s,
  retain_list f s (l1 ++ l2) = ('(s, l1) ← retain_list f s l1; '(s, l2) ← retain_list f s l2; Ret (s, l1 ++ l2)).
Proof.
  induction l1 as [|[k w] l1 IH]; intros s; cbn [retain_list app mbind outcome_bind].
  - by destruct (retain_list f s l2) as [[]| |].
  - destruct (f s k w) as [[[s1 w1] keep]| |]; cbn [mbind outcome_bind]; [|done..]. rewrite IH. destruct (retain_list f s1 l1) as [[s2 l1']| |]; cbn [mbind outcome_bind]; [|done..].
    destruct (retain_list f s2 l2) as [[s3 l2']| |]; cbn [mbind outcome_bind]; [|done..]. by destruct keep.
Qed.

Lemma retain_list_id {S K W} (f : S -> K -> W -> outcome (S * W * bool)) s l : (forall k w, (k, w) ∈ l -> f s k w = Ret (s, w, true)) -> retain_list f s l = Ret (s, l).
Proof.
  induction l as [|[k w] l IH]; intros Hf; cbn [retain_list]; [done|]. rewrite Hf by apply list_elem_of_here. cbn [mbind outcome_bind]. rewrite IH; [done|]. intros k' w' Hin. apply Hf. by apply list_elem_of_further.
Qed.

(** A closure over entries that stand for lists of rows: a retain over the entries is a retain over the rows. *)
Definition retains_rows {S K W R C} (F : S -> K -> W -> outcome (S * W * bool)) (f : S -> R -> C -> outcome (S * C * bool)) (rows : K * W -> list (R * C)) (wf : W -> Prop) (k : K) (w : W) : Prop :=
  forall s, match retain_list f s (rows (k, w)) with
  | Ret (s', l') => exists w' (keep : bool), F s k w = Ret (s', w', keep) /\ if keep then rows (k, w') ≡ₚ l' /\ wf w' else l' = []
  | Panic => F s k w = Panic
  | OutOfFuel => F s k w = OutOfFuel
  end.

Lemma retain_level {S K W R C} (F : S -> K -> W -> outcome (S * W * bool)) (f : S -> R -> C -> outcome (S * C * bool)) (rows : K * W -> list (R * C)) (wf : W -> Prop) l :
  (forall k w, (k, w) ∈ l -> retains_rows F f rows wf k w) -> forall s,
  match retain_list f s (l ≫= rows) with
  | Ret (s', l') => exists L, retain_list F s l = Ret (s', L) /\ L ≫= rows ≡ₚ l' /\ Forall (fun e => wf e.2) L /\ map fst L `sublist_of` map fst l
  | Panic => retain_list F s l = Panic
  | OutOfFuel => retain_list F s l = OutOfFuel
  end.
Proof.
  induction l as [|[k w] l IH]; intros HF s; cbn [mbind list_bind retain_list]; [by exists []|]. rewrite retain_list_app.
  pose proof (HF k w (list_elem_of_here _ _) s) as Hk. destruct (retain_list f s (rows (k, w))) as [[s1 l1]| |]; cbn [mbind outcome_bind]; [|by rewrite Hk..].
  destruct Hk as (w' & keep & -> & Hk). cbn [mbind outcome_bind]. specialize (IH (fun k' w' Hin => HF k' w' (list_elem_of_further _ _ _ Hin)) s1).
  fold (@mbind list _ _ _ rows l). destruct (retain_list f s1 (l ≫= rows)) as [[s2 l2]| |]; cbn [mbind outcome_bind]; [|by rewrite IH..].
  destruct IH as (L & -> & Hp & Hwf & Hsub). cbn [mbind outcome_bind]. destruct keep.
  - destruct Hk as [Hk Hw]. eexists. split; [done|]. cbn [mbind list_bind map fst]. split_and!; [by rewrite Hk, <- Hp|by constructor|by apply sublist_skip].
  - subst l1. exists L. split_and!; [done..|]. by apply sublist_cons.
Qed.

Lemma retain_map_level `{Countable K} {S W R C} (F : S -> K -> W -> outcome (S * W * bool)) (f : S -> R -> C -> outcome (S * C * bool)) (rows : K * W -> list (R * C)) (wf : W -> Prop) (m : gmap K W) :
  (forall k w, m !! k = Some w -> retains_rows F f rows wf k w) -> forall s,
  match retain_list f s (map_to_list m ≫= rows) with
  | Ret (s', l') => exists m', retainM F s m = Ret (s', m') /\ map_to_list m' ≫= rows ≡ₚ l' /\ map_Forall (fun _ w => wf w) m'
  | Panic => retainM F s m = Panic
  | OutOfFuel => retainM F s m = OutOfFuel
  end.
Proof.
  intros HF s. unfold retainM. pose proof (retain_level F f rows wf (map_to_list m)) as Hl. specialize (Hl (fun k w Hin => HF k w (proj1 (elem_of_map_to_list m k w) Hin)) s).
  destruct (retain_list f s (map_to_list m ≫= rows)) as [[s' l']| |]; [|by rewrite Hl..]. destruct Hl as (L & -> & Hp & Hwf & Hsub). cbn [mbind outcome_bind].
  assert (NoDup (map fst L)) as Hnd by (eapply sublist_NoDup; [apply (NoDup_fst_map_to_list m)|done]).
  exists (list_to_map L). split_and!; [done|by rewrite map_to_list_to_map|]. intros k w Hk%elem_of_list_to_map_2. rewrite Forall_forall in Hwf. apply (Hwf (k, w) Hk).
Qed.

(** ** The nested maps as one map of facts *)

Section Flat.
Context {K1 K2 P A B : Type} `{Countable K1, Countable K2, Countable P, Countable A, Countable B}.
#[local] Notation row := (K1 * K2 * P * A * B)%type.
#[local] Notation abs_map := (gmap (A * B) Cond).
#[local] Notation leaves_map := (gmap P abs_map).
#[local] Notation cond_map := (gmap (K1 * K2) leaves_map).
Implicit Types (m : cond_map) (r : row) (c : Cond).

Definition cleaves m : list (row * Cond) := map_to_list m ≫= leaf_rows.
Definition cflat m : gmap row Cond := list_to_map (cleaves m).

Lemma leaf_rows_elem (k : K1 * K2) (leaves : leaves_map) r c : (r, c) ∈ leaf_rows (k, leaves) <->
  row_key r = k /\ exists abs, leaves !! (row_path r).2 = Some abs /\ abs !! (row_rest r) = Some c.
Proof.
  destruct k as [k1 k2], r as [[[[k1' k2'] p] a] b]. cbn [leaf_rows row_key row_path row_rest snd]. rewrite list_elem_of_bind. split.
  - intros ([q abs] & ([[a' b'] c'] & [= -> -> -> -> -> ->] & Hc%elem_of_map_to_list)%elem_of_map & Hq%elem_of_map_to_list). eauto.
  - intros ([= -> ->] & abs & Hq & Hc). exists (p, abs). split; [|by apply elem_of_map_to_list]. apply elem_of_map. exists ((a, b), c). split; [done|]. by apply elem_of_map_to_list.
Qed.

Lemma cleaves_elem m r c : (r, c) ∈ cleaves m <-> cond_lookup m r = Some c.
Proof.
  unfold cleaves. rewrite list_elem_of_bind. destruct r as [[[[k1 k2] p] a] b]. cbn [cond_lookup]. split.
  - intros ([k leaves] & (<- & abs & Hp & Hc)%leaf_rows_elem & Hm%elem_of_map_to_list). cbn in Hm, Hp, Hc. rewrite Hm. cbn. rewrite Hp. exact Hc.
  - destruct (m !! (k1, k2)) as [leaves|] eqn:Em; [|done]. cbn. destruct (leaves !! p) as [abs|] eqn:Ep; [|done]. cbn. intros Hc.
    exists ((k1, k2), leaves). split; [|by apply elem_of_map_to_list]. apply leaf_rows_elem. cbn. eauto.
Qed.

Lemma leaf_rows_NoDup (e : K1 * K2 * leaves_map) : NoDup (map fst (leaf_rows e)).
Proof.
  destruct e as [[k1 k2] leaves]. cbn [leaf_rows].
  assert (map fst (map_to_list leaves ≫= (fun '(p, abs) => map (fun '((a, b), c) => ((k1, k2, p, a, b), c)) (map_to_list (abs : abs_map)))) =
    map_to_list leaves ≫= (fun pa => map (fun ab => (k1, k2, pa.1, ab.1, ab.2)) (map fst (map_to_list pa.2)))) as ->.
  { induction (map_to_list leaves) as [|[p abs] l IHl]; [done|]. cbn [mbind list_bind fst snd]. rewrite map_app, IHl. f_equal. rewrite !map_map. apply map_ext. by intros [[a b] c]. }
  apply NoDup_bind; [| |apply NoDup_map_to_list].
  - intros [p abs] [p' abs'] r Hp%elem_of_map_to_list Hp'%elem_of_map_to_list (ab & -> & _)%elem_of_map (ab' & [= <- _ _] & _)%elem_of_map. congruence.
  - intros [p abs] _. cbn [fst snd]. apply (NoDup_fmap_2_strong (fun ab => (k1, k2, p, ab.1, ab.2))); [by intros [] [] _ _ [= -> ->]|]. apply (NoDup_fst_map_to_list abs).
Qed.

Lemma cleaves_NoDup m : NoDup (map fst (cleaves m)).
Proof.
  unfold cleaves. assert (map fst (map_to_list m ≫= leaf_rows) = map_to_list m ≫= (fun e => map fst (leaf_rows e))) as ->.
  { induction (map_to_list m) as [|e l IHl]; [done|]. cbn [mbind list_bind]. by rewrite map_app, IHl. }
  apply NoDup_bind; [|intros e _; apply leaf_rows_NoDup|apply NoDup_map_to_list].
  intros [k leaves] [k' leaves'] r Hk%elem_of_map_to_list Hk'%elem_of_map_to_list ([r1 c1] & -> & (<- & _)%leaf_rows_elem)%elem_of_map ([r2 c2] & E & (<- & _)%leaf_rows_elem)%elem_of_map.
  cbn in E. subst r2. congruence.
Qed.

Lemma cflat_lookup m r : cflat m !! r = cond_lookup m r.
Proof.
  apply option_eq. intros c. unfold cflat. rewrite <- elem_of_list_to_map by apply cleaves_NoDup. apply cleaves_elem.
Qed.

Lemma cflat_leaves m : map_to_list (cflat m) ≡ₚ cleaves m.
Proof. apply map_to_list_to_map, cleaves_NoDup. Qed.

Lemma cflat_size m : size (cflat m) = length (cleaves m).
Proof. by rewrite <- length_map_to_list, cflat_leaves. Qed.

(** No inner map is empty. *)
Definition cwf m : Prop := map_Forall (fun _ leaves => leaves <> ∅ /\ map_Forall (fun _ abs => abs <> ∅) leaves) m.

Lemma cflat_empty : cflat ∅ = ∅ /\ cwf ∅.
Proof. split; [|apply map_Forall_empty]. apply map_eq. intros r. rewrite cflat_lookup, lookup_empty. destruct r as [[[[k1 k2] p] a] b]. cbn [cond_lookup]. by rewrite lookup_empty. Qed.

Lemma cflat_empty_iff m : cwf m -> map_is_empty m = true <-> cflat m = ∅.
Proof.
  intros Hm. unfold map_is_empty. rewrite bool_decide_eq_true. split; [intros ->; apply cflat_empty|]. intros E. apply map_empty. intros k. destruct (m !! k) as [leaves|] eqn:Ek; [|done]. exfalso.
  destruct (Hm k leaves Ek) as [[p [abs Ep]]%map_choose Hl]. destruct (map_choose _ (Hl p abs Ep)) as ([a b] & c & Ec).
  assert (cflat m !! (k.1, k.2, p, a, b) = Some c) as Hc; [|by rewrite E, lookup_empty in Hc]. rewrite cflat_lookup. destruct k as [k1 k2]. cbn. rewrite Ek. cbn. rewrite Ep. exact Ec.
Qed.

Lemma cond_put_flat m r c : cflat (cond_put m r c) = <[r := c]> (cflat m).
Proof.
  apply map_eq. intros r'. rewrite cflat_lookup. destruct r as [[[[k1 k2] p] a] b], r' as [[[[k1' k2'] p'] a'] b']. cbn [cond_put cond_lookup].
  destruct (decide ((k1, k2, p, a, b) = (k1', k2', p', a', b'))) as [[= <- <- <- <- <-]|Hne].
  { rewrite lookup_insert_eq, lookup_insert_eq. cbn. rewrite lookup_insert_eq. cbn. by rewrite lookup_insert_eq. }
  rewrite (lookup_insert_ne (cflat m)), cflat_lookup by done. cbn [cond_lookup]. destruct (decide ((k1, k2) = (k1', k2'))) as [[= <- <-]|Hk]; [|by rewrite lookup_insert_ne].
  rewrite lookup_insert_eq. cbn. destruct (m !! (k1, k2)) as [leaves|]; cbn.
  - destruct (decide (p = p')) as [<-|Hp]; [|by rewrite lookup_insert_ne]. rewrite lookup_insert_eq. cbn. destruct (leaves !! p) as [abs|]; cbn; (rewrite lookup_insert_ne by congruence); [done|apply lookup_empty].
  - destruct (decide (p = p')) as [<-|Hp]; [|rewrite lookup_insert_ne by done; by rewrite lookup_empty]. rewrite lookup_insert_eq. cbn. rewrite lookup_empty. cbn. rewrite lookup_insert_ne by congruence. apply lookup_empty.
Qed.

Lemma cond_put_wf m r c : cwf m -> cwf (cond_put m r c).
Proof.
  intros Hm. destruct r as [[[[k1 k2] p] a] b]. cbn [cond_put]. apply map_Forall_insert_2; [|done]. split; [apply insert_non_empty|].
  apply map_Forall_insert_2; [apply insert_non_empty|]. destruct (m !! (k1, k2)) as [leaves|] eqn:E; [by apply (Hm (k1, k2))|apply map_Forall_empty].
Qed.

Section Retain.
Context {S : Type} (f f' : S -> row -> Cond -> outcome (S * Cond * bool)) (k1 : K1) (k2 : K2) (Hf : forall s p a b c, f' s (k1, k2, p, a, b) c = f s (k1, k2, p, a, b) c).

Definition abs_rows (e : P * abs_map) : list (row * Cond) := map (fun '((a, b), c) => ((k1, k2, e.1, a, b), c)) (map_to_list e.2).

Lemma map_is_empty_bind {W} `{Countable L} (m : gmap L W) {Y} (h : L * W -> list Y) : map_is_empty m = true -> map_to_list m ≫= h = [].
Proof. intros ->%bool_decide_eq_true. by rewrite map_to_list_empty. Qed.

Lemma retains_leaf (p : P) (a : A) (b : B) c :
  retains_rows (fun s '(a, b) c => f s (k1, k2, p, a, b) c) f' (fun '((a, b), c) => [((k1, k2, p, a, b), c)]) (fun _ => True) (a, b) c.
Proof using Hf.
  intros s. cbn [retain_list]. rewrite Hf. destruct (f s _ c) as [[[s2 c2] keep]| |]; cbn [mbind outcome_bind]; [|done..]. exists c2, keep. split; [done|]. by destruct keep.
Qed.

Lemma retains_abs (p : P) (abs : abs_map) :
  retains_rows (fun s p (abs : abs_map) => '(s, abs) ← retainM (fun s '(a, b) c => f s (k1, k2, p, a, b) c) s abs; Ret (s, abs, negb (map_is_empty abs)))
    f' abs_rows (fun abs => abs <> ∅) p abs.
Proof using Hf.
  intros s. assert (forall abs : abs_map, abs_rows (p, abs) = map_to_list abs ≫= (fun '((a, b), c) => [((k1, k2, p, a, b), c)])) as Eb.
  { intros abs'. unfold abs_rows. cbn [fst snd]. induction (map_to_list abs') as [|[[a b] c] l IHl]; [done|]. cbn [map mbind list_bind]. by rewrite IHl. }
  rewrite Eb. pose proof (retain_map_level (fun s '(a, b) c => f s (k1, k2, p, a, b) c) f' (fun '((a, b), c) => [((k1, k2, p, a, b), c)]) (fun _ => True) abs) as Hl.
  specialize (Hl ltac:(intros [a b] c _; apply retains_leaf) s). destruct (retain_list f' s _) as [[s' l']| |]; [|by rewrite Hl..]. destruct Hl as (abs' & -> & Hp & _).
  cbn [mbind outcome_bind]. exists abs', (negb (map_is_empty abs')). split; [done|]. destruct (map_is_empty abs') eqn:E; cbn [negb].
  - rewrite map_is_empty_bind in Hp by done. by apply Permutation_nil_l in Hp.
  - rewrite Eb. split; [done|]. by apply bool_decide_eq_false in E.
Qed.
End Retain.

(** A retain of the leaves is a retain of the rows. *)
Lemma retain_leaves_spec {S} (skip : K1 * K2 -> bool) (f : S -> row -> Cond -> outcome (S * Cond * bool)) s m : cwf m ->
  match retain_list (fun s r c => if skip (row_key r) then Ret (s, c, true) else f s r c) s (cleaves m) with
  | Ret (s', l') => exists m', retain_leaves skip f s m = Ret (s', m') /\ cleaves m' ≡ₚ l' /\ cwf m'
  | Panic => retain_leaves skip f s m = Panic
  | OutOfFuel => retain_leaves skip f s m = OutOfFuel
  end.
Proof.
  intros Hm. unfold retain_leaves, cleaves. apply (retain_map_level _ _ leaf_rows (fun leaves => leaves <> ∅ /\ map_Forall (fun _ abs => abs <> ∅) leaves)).
  intros [k1 k2] leaves Hk s0. destruct (skip (k1, k2)) eqn:Ek.
  - rewrite retain_list_id. 2: { intros r c [-> _]%leaf_rows_elem. by rewrite Ek. } exists leaves, true. destruct (Hm _ _ Hk) as [Hne Hl].
    unfold map_is_empty. rewrite bool_decide_false by done. done.
  - set (f' := fun s r c => if skip (row_key r) then Ret (s, c, true) else f s r c).
    assert (forall leaves : leaves_map, leaf_rows ((k1, k2), leaves) = map_to_list leaves ≫= abs_rows k1 k2) as Er.
    { intros leaves'. cbn [leaf_rows]. unfold abs_rows. induction (map_to_list leaves') as [|[p abs] l IHl]; [done|]. cbn [mbind list_bind fst snd]. by rewrite IHl. }
    assert (forall s p a b c, f' s (k1, k2, p, a, b) c = f s (k1, k2, p, a, b) c) as Hf by (intros; unfold f'; cbn [row_key]; by rewrite Ek).
    rewrite Er. pose proof (retain_map_level _ f' (abs_rows k1 k2) _ leaves (fun p abs _ => retains_abs f f' k1 k2 Hf p abs) s0) as Hl.
    destruct (retain_list f' s0 _) as [[s' l']| |]; [|by rewrite Hl..]. destruct Hl as (leaves' & -> & Hp & Hwf). cbn [mbind outcome_bind].
    exists leaves', (negb (map_is_empty leaves')). split; [done|]. destruct (map_is_empty leaves') eqn:E; cbn [negb].
    + rewrite map_is_empty_bind in Hp by done. by apply Permutation_nil_l in Hp.
    + rewrite Er. split; [done|]. by apply bool_decide_eq_false in E.
Qed.

(** The loops over the nested maps are a loop over the rows. *)
Lemma for_leaves_spec {S} (f : S -> row -> Cond -> outcome S) s m : for_leaves f s m = foldM (fun s '(r, c) => f s r c) s (cleaves m).
Proof.
  unfold for_leaves, cleaves. revert s. induction (map_to_list m) as [|[[k1 k2] leaves] l IHl]; intros s; [done|]. cbn [foldM mbind list_bind]. rewrite foldM_app.
  assert (forall s, foldM (fun s '(p, abs) => foldM (fun s '((a, b), c) => f s (k1, k2, p, a, b) c) s (map_to_list (abs : abs_map))) s (map_to_list leaves) =
    foldM (fun s '(r, c) => f s r c) s (leaf_rows ((k1, k2), leaves))) as ->; [|by destruct (foldM _ s (leaf_rows _)); [apply IHl|..]].
  clear. intros s. cbn [leaf_rows]. revert s. induction (map_to_list leaves) as [|[p abs] l IHl]; intros s; [done|]. cbn [foldM mbind list_bind]. rewrite foldM_app.
  assert (forall s, foldM (fun s '((a, b), c) => f s (k1, k2, p, a, b) c) s (map_to_list abs) =
    foldM (fun s '(r, c) => f s r c) s (map (fun '((a, b), c) => ((k1, k2, p, a, b), c)) (map_to_list abs))) as ->; [|by destruct (foldM _ s (map _ _)); [apply IHl|..]].
  clear. intros s. revert s. induction (map_to_list abs) as [|[[a b] c] l IHl]; intros s; [done|]. cbn [foldM map]. by destruct (f s _ c).
Qed.
End Flat.

Section Remove.
Context {K1 K2 P A B S1 S2 : Type} `{Countable K1, Countable K2, Countable P, Countable A, Countable B}.
Context `{SetOps (P * A * B) S1, SetOps (A * B) S2}.
#[local] Notation row := (K1 * K2 * P * A * B)%type.
#[local] Notation trie := (CondTrie K1 K2 P A B S1 S2).

Record cond_ok (s : trie) : Prop := {
  co_wf : cwf (ct_cond s);
  co_len : ct_cond_len s = Z.of_nat (size (cflat (ct_cond s)))
}.

Lemma cond_lookup_at (m : gmap (K1 * K2) (gmap P (gmap (A * B) Cond))) (r : row) :
  cond_lookup m r = (leaves ← m !! row_key r; abs ← leaves !! (row_path r).2; abs !! row_rest r).
Proof. by destruct r as [[[[k1 k2] p] a] b]. Qed.

(** An inner map put back, or its entry removed when it is empty. *)
Definition put_back `{Countable K, Countable L} {W} (k : K) (v : gmap L W) (m : gmap K (gmap L W)) : gmap K (gmap L W) :=
  if map_is_empty v then delete k m else <[k := v]> m.

Lemma put_back_bind `{Countable K, Countable L} {W X} (k k' : K) (v : gmap L W) m (h : gmap L W -> option X) : h ∅ = None ->
  (put_back k v m !! k' ≫= h) = if decide (k = k') then h v else m !! k' ≫= h.
Proof.
  intros Hh. unfold put_back, map_is_empty. destruct (bool_decide (v = ∅)) eqn:E.
  - apply bool_decide_eq_true in E as ->. destruct (decide (k = k')) as [<-|]; [by rewrite lookup_delete_eq|by rewrite lookup_delete_ne].
  - destruct (decide (k = k')) as [<-|]; [by rewrite lookup_insert_eq|by rewrite lookup_insert_ne].
Qed.

Lemma put_back_wf `{Countable K, Countable L} {W} (Q : gmap L W -> Prop) (k : K) (v : gmap L W) m : map_Forall (fun _ w => w <> ∅ /\ Q w) m -> Q v -> map_Forall (fun _ w => w <> ∅ /\ Q w) (put_back k v m).
Proof.
  intros Hm Hv. unfold put_back, map_is_empty. destruct (bool_decide (v = ∅)) eqn:E; [by apply map_Forall_delete|]. apply bool_decide_eq_false in E. by apply map_Forall_insert_2.
Qed.

(** Removing a leaf, and the maps that become empty. *)
Lemma remove_cond_spec (s : trie) (r : row) : cond_ok s -> exists s', remove_cond s r = Ret s' /\ ct_always s' = ct_always s /\ cond_ok s' /\
  cflat (ct_cond s') = delete r (cflat (ct_cond s)).
Proof.
  intros [Hwf Hlen]. assert (cond_lookup (ct_cond s) r = None -> cflat (ct_cond s) = delete r (cflat (ct_cond s))) as Hnone by (intros E; rewrite delete_id; [done|by rewrite cflat_lookup]).
  destruct r as [[[[k1 k2] p] a] b]. cbn [remove_cond cond_lookup] in *. destruct (ct_cond s !! (k1, k2)) as [leaves|] eqn:Ek; [|exists s; by auto using Build_cond_ok].
  cbn in Hnone. destruct (leaves !! p) as [abs|] eqn:Ep; [|exists s; by auto using Build_cond_ok]. cbn in Hnone.
  set (len := match abs !! (a, b) with Some _ => usize_sub (ct_cond_len s) 1 | None => Ret (ct_cond_len s) end).
  set (m' := if map_is_empty (delete (a, b) abs) then if map_is_empty (delete p leaves) then delete (k1, k2) (ct_cond s) else <[(k1, k2) := delete p leaves]> (ct_cond s)
             else <[(k1, k2) := <[p := delete (a, b) abs]> leaves]> (ct_cond s)).
  assert (m' = put_back (k1, k2) (put_back p (delete (a, b) abs) leaves) (ct_cond s)) as Ep'.
  { unfold m', put_back. destruct (map_is_empty (delete (a, b) abs)); [done|]. unfold map_is_empty. rewrite bool_decide_false; [done|apply insert_non_empty]. }
  assert (cflat m' = delete (k1, k2, p, a, b) (cflat (ct_cond s))) as Em.
  { apply map_eq. intros r'. rewrite cflat_lookup, lookup_delete, cflat_lookup, !cond_lookup_at, Ep', put_back_bind by done. destruct r' as [[[[k1' k2'] p'] a'] b']. cbn [row_key row_path row_rest snd].
    destruct (decide ((k1, k2) = (k1', k2'))) as [[= <- <-]|]; [|rewrite decide_False by congruence; done]. rewrite put_back_bind, Ek by done. cbn.
    destruct (decide (p = p')) as [<-|]; [|rewrite decide_False by congruence; done]. rewrite Ep. cbn. rewrite lookup_delete. apply decide_ext. naive_solver. }
  assert (cwf m') as Hwf'.
  { rewrite Ep'. apply put_back_wf; [exact Hwf|]. destruct (Hwf _ _ Ek) as [_ Hl]. apply (map_Forall_impl (fun _ w => w <> ∅ /\ True)); [|by intros ? ? []].
    apply put_back_wf; [|done]. eapply map_Forall_impl; [exact Hl|done]. }
  assert (len = Ret (Z.of_nat (size (cflat m')))) as El.
  { unfold len. rewrite Em. assert (cflat (ct_cond s) !! (k1, k2, p, a, b) = abs !! (a, b)) as E by (rewrite cflat_lookup; cbn; rewrite Ek; cbn; rewrite Ep; done).
    destruct (abs !! (a, b)) as [c|].
    - rewrite map_size_delete_Some by eauto. assert (size (cflat (ct_cond s)) <> 0)%nat as Hz. { intros Hz%map_size_empty_inv. by rewrite Hz, lookup_empty in E. }
      unfold usize_sub. destruct (Z.leb_spec 1 (ct_cond_len s)); [f_equal; lia|lia].
    - rewrite map_size_delete_None by done. by rewrite Hlen. }
  rewrite El. cbn [mbind outcome_bind]. eexists. split; [done|]. split_and!; [done|by split|done].
Qed.
End Remove.
