(* ===== verification/CondViews.v ===== *)
(** * CondViews: the indices of the conditional store

    The reads of [CondTrie] - rows, groups, the probe of a path and the iterations - against the list of facts the store
    holds, unconditional ones first. *)

From S2P Require Import Prelude Decision PathGroup LocalsTrie CondTrie HybridSet.

#[local] Open Scope Z_scope.
Set Default Proof Using "Type".

Section Views.
Context {K1 K2 P A B S1 S2 : Type} `{Countable K1, Countable K2, Countable P, Countable A, Countable B}.
Context `{SetOps (P * A * B) S1, SetOps (A * B) S2, !SetLaws (P * A * B) S1, !SetLaws (A * B) S2}.
#[local] Notation row := (K1 * K2 * P * A * B)%type.
#[local] Notation fact := (row * Cond)%type.
#[local] Notation trie := (CondTrie K1 K2 P A B S1 S2).
#[local] Notation abs_map := (gmap (A * B) Cond).
#[local] Notation leaves_map := (gmap P abs_map).
#[local] Notation cond_map := (gmap (K1 * K2) leaves_map).
Implicit Types (s : trie) (m : cond_map).

Definition always_facts (rows : list row) : list fact := map (fun r => (r, Always)) rows.
Definition ct_facts s : list fact := always_facts (lt_rows (ct_always s)) ++ cleaves (ct_cond s).

Definition fact_key (f : fact) : K1 * K2 := row_key f.1.
Definition fact_leaf (f : fact) : P * A * B * Cond := (row_leaf f.1, f.2).
Definition fact_path (f : fact) : K1 * K2 * P := row_path f.1.
Definition fact_rest (f : fact) : A * B * Cond := (row_rest f.1, f.2).

Lemma if_not_empty {X : Type} (m : cond_map) (o : option X) : (m = ∅ -> o = None) -> (if map_is_empty m then None else o) = o.
Proof. intros Hm. unfold map_is_empty. destruct (bool_decide (m = ∅)) eqn:E; [|done]. apply bool_decide_eq_true in E. by rewrite Hm. Qed.

Lemma fact_leaf_inj f f' : fact_key f = fact_key f' -> fact_leaf f = fact_leaf f' -> f = f'.
Proof. destruct f as [r c], f' as [r' c']. intros Hk [= Hl ->]. f_equal. by apply row_leaf_inj. Qed.
Lemma fact_rest_inj f f' : fact_path f = fact_path f' -> fact_rest f = fact_rest f' -> f = f'.
Proof. destruct f as [r c], f' as [r' c']. intros Hk [= Hl ->]. f_equal. by apply row_rest_inj. Qed.

(** The unconditional part of an index. *)
Lemma always_index {K W} `{EqDecision K} (rows : list row) (key : row -> K) (val : row -> W) k o :
  index_get_ok rows key val k o -> index_get_ok (always_facts rows) (fun f => key f.1) (fun f => (val f.1, f.2)) k (map (fun w => (w, Always)) <$> o).
Proof.
  assert (rows_at (always_facts rows) (fun f => key f.1) (fun f => (val f.1, f.2)) k = map (fun w => (w, Always)) (rows_at rows key val k)) as E.
  { unfold rows_at, always_facts. induction rows as [|r rows IHr]; [done|]. cbn [map]. rewrite !filter_cons. cbn [fst]. destruct (decide (key r = k)); cbn [map fst snd]; by rewrite IHr. }
  unfold index_get_ok. rewrite E. destruct o as [l|]; cbn [fmap option_fmap option_map]; [|by intros ->]. intros [Hn Hp]. split; [by destruct l|]. by apply Permutation_map.
Qed.

Lemma group_leaves_rows (k : K1 * K2) (leaves : leaves_map) : leaf_rows (k, leaves) = map (fun lc => (row_at k lc.1, lc.2)) (group_leaves_of leaves).
Proof.
  destruct k as [k1 k2]. cbn [leaf_rows]. unfold group_leaves_of. induction (map_to_list leaves) as [|[p abs] l IHl]; [done|]. cbn [mbind list_bind]. rewrite map_app, <- IHl. f_equal.
  rewrite map_map. apply map_ext. by intros [[a b] c].
Qed.

Lemma cleaves_pairs_NoDup m : NoDup (cleaves m).
Proof. apply (NoDup_fmap_1 fst). apply cleaves_NoDup. Qed.

Lemma cond_group_index m k : cwf m -> index_get_ok (cleaves m) fact_key fact_leaf k (group_leaves_of <$> m !! k).
Proof.
  intros Hwf. destruct (m !! k) as [leaves|] eqn:Ek; cbn [fmap option_fmap option_map].
  - assert (forall f, f ∈ leaf_rows (k, leaves) <-> f ∈ cleaves m /\ fact_key f = k) as Hin.
    { intros [r c]. unfold cleaves. rewrite list_elem_of_bind. split.
      - intros Hf. split; [exists (k, leaves); split; [done|by apply elem_of_map_to_list]|]. by apply leaf_rows_elem in Hf as [? _].
      - intros (([k' leaves'] & Hf & Hm%elem_of_map_to_list) & Hk). pose proof Hf as [Hk' _]%leaf_rows_elem. unfold fact_key in Hk. cbn [fst] in Hk. assert (k' = k) as -> by congruence.
        by replace leaves with leaves' by congruence. }
    apply index_get_intro; [apply fact_leaf_inj|apply cleaves_pairs_NoDup| | |].
    + pose proof (leaf_rows_NoDup (k, leaves)) as Hnd. rewrite group_leaves_rows in Hnd. by apply NoDup_fmap_1, NoDup_fmap_1 in Hnd.
    + destruct (Hwf k leaves Ek) as [Hne Hl]. destruct (map_choose _ Hne) as (p & abs & Ep). destruct (map_choose _ (Hl p abs Ep)) as ([a b] & c & Ec). intros E.
      assert ((row_at k (p, a, b), c) ∈ leaf_rows (k, leaves)) as Hf by (apply leaf_rows_elem; rewrite row_at_key; destruct k; cbn; eauto). rewrite group_leaves_rows, E in Hf. by apply not_elem_of_nil in Hf.
    + intros [l c]. split.
      * intros Hl. exists (row_at k l, c). unfold fact_leaf. cbn [fst snd]. rewrite row_at_leaf. assert ((row_at k l, c) ∈ leaf_rows (k, leaves)) as [? ?]%Hin; [|done].
        rewrite group_leaves_rows. apply elem_of_map. by exists (l, c).
      * intros ([r c'] & Hr & Hk & [= <- <-]). assert ((r, c') ∈ leaf_rows (k, leaves)) as Hf by (by apply Hin). rewrite group_leaves_rows in Hf. apply elem_of_map in Hf as ([l c2] & [= -> ->] & Hl).
        cbn [fst snd]. by rewrite row_at_leaf.
  - apply index_get_none. intros [r c] Hr%cleaves_elem Hk. unfold fact_key in Hk. cbn [fst] in Hk. rewrite cond_lookup_at, Hk, Ek in Hr. done.
Qed.

Lemma cond_path_index m k : cwf m -> index_get_ok (cleaves m) fact_path fact_rest k (map_to_list <$> (leaves ← m !! k.1; leaves !! k.2)).
Proof.
  intros Hwf. assert (forall r c, (r, c) ∈ cleaves m <-> (leaves ← m !! (row_path r).1; abs ← leaves !! (row_path r).2; abs !! row_rest r) = Some c) as Hin.
  { intros r c. rewrite cleaves_elem, cond_lookup_at. by destruct r as [[[[]]]]. }
  destruct (m !! k.1 ≫= _) as [abs|] eqn:Ek; cbn [fmap option_fmap option_map].
  - assert (exists leaves, m !! k.1 = Some leaves /\ leaves !! k.2 = Some abs) as (leaves & Em & El) by (destruct (m !! k.1) as [leaves|]; [exists leaves; done|done]).
    apply index_get_intro; [apply fact_rest_inj|apply cleaves_pairs_NoDup|apply NoDup_map_to_list| |].
    + destruct (Hwf _ _ Em) as [_ Hl]. intros E%map_to_list_empty_iff. by apply (Hl _ _ El).
    + intros [ab c]. rewrite elem_of_map_to_list. split.
      * intros Hc. destruct k as [[k1 k2] p], ab as [a b]. exists ((k1, k2, p, a, b), c). split; [|done]. apply Hin. cbn in *. rewrite Em. cbn. rewrite El. exact Hc.
      * intros ([r c'] & Hr%Hin & Hk & [= <- <-]). unfold fact_path in Hk. cbn [fst] in Hk. rewrite Hk, Em in Hr. cbn in Hr. rewrite El in Hr. exact Hr.
  - apply index_get_none. intros [r c] Hr%Hin Hk. unfold fact_path in Hk. cbn [fst] in Hk. rewrite Hk in Hr. destruct (m !! k.1) as [leaves|]; [|done]. cbn in Ek, Hr. by rewrite Ek in Hr.
Qed.

Lemma ct_rows_spec s : lt_ok (ct_always s) -> ct_rows s = Ret (ct_facts s).
Proof.
  intros Hs. unfold ct_rows. rewrite (flat_mapM_Ret _ (fun e => always_facts (map (row_at e.1) (pg_leaves e.2)))).
  - cbn [mbind outcome_bind]. unfold ct_facts, lt_rows, fwd_rows. do 2 f_equal. induction (map_to_list (fwd (ct_always s))) as [|[fv g] l IHl]; [done|]. cbn [mbind list_bind]. unfold always_facts in *. rewrite map_app, <- IHl. done.
  - intros [fv g] Hin%elem_of_map_to_list. by rewrite group_rows_spec by (by apply (lk_groups _ Hs fv)).
Qed.

Lemma ct_len_spec s : lt_ok (ct_always s) -> cond_ok s -> ct_len s = Z.of_nat (length (ct_facts s)).
Proof. intros Hs [_ Hl]. unfold ct_len, ct_facts, always_facts. rewrite length_app, length_map, (lk_len _ Hs), Hl, cflat_size. lia. Qed.

Lemma ct_group_spec s k : lt_ok (ct_always s) -> cond_ok s -> exists o, ct_group s k = Ret o /\ index_get_ok (ct_facts s) fact_key fact_leaf k o.
Proof.
  intros Hs [Hwf _]. destruct (view01_get_spec (ct_always s) k Hs) as (o1 & E1 & H1'). apply always_index in H1'. pose proof (cond_group_index (ct_cond s) k Hwf) as H2'.
  pose proof (index_chain _ _ _ _ _ _ _ H1' H2') as Hc. eexists. split; [|exact Hc]. unfold ct_group. unfold view01_get in E1.
  assert ((if map_is_empty (ct_cond s) then None else ct_cond s !! k) = ct_cond s !! k) as ->. { apply if_not_empty. intros ->. by rewrite lookup_empty. }
  destruct (fwd (ct_always s) !! k) as [g|].
  - destruct (pg_iter g) as [l| |]; cbn [mbind outcome_bind] in *; [|done..]. injection E1 as <-. cbn [fmap option_fmap option_map chain default].
    assert (map (fun '(p, a, b) => (p, a, b, Always)) l = map (fun w => (w, Always)) l) as -> by (apply map_ext; by intros [[]]). by destruct (ct_cond s !! k).
  - injection E1 as <-. by destruct (ct_cond s !! k).
Qed.

Lemma ct_get_spec s k : lt_ok (ct_always s) -> cond_ok s -> exists o, ct_get s k = Ret o /\ index_get_ok (ct_facts s) fact_path fact_rest k o.
Proof.
  intros Hs [Hwf _]. destruct (view012_get_spec (ct_always s) k Hs) as (o1 & E1 & H1'). apply always_index in H1'. pose proof (cond_path_index (ct_cond s) k Hwf) as H2'.
  pose proof (index_chain _ _ _ _ _ _ _ H1' H2') as Hc. eexists. split; [|exact Hc]. unfold ct_get. unfold view012_get in E1. rewrite E1. cbn [mbind outcome_bind].
  assert ((if map_is_empty (ct_cond s) then None else leaves ← ct_cond s !! k.1; leaves !! k.2) = (leaves ← ct_cond s !! k.1; leaves !! k.2)) as ->.
  { apply if_not_empty. intros ->. by rewrite lookup_empty. }
  assert (forall l : list (A * B), map (fun '(a, b) => (a, b, Always)) l = map (fun w => (w, Always)) l) as El by (intros l; apply map_ext; by intros []).
  unfold cond_get. rewrite El. destruct o1 as [l|], (ct_cond s !! k.1 ≫= _) as [abs|]; done.
Qed.

Lemma ct_iter_by_path_spec s : lt_ok (ct_always s) -> exists out, ct_iter_by_path s = Ret out /\ index_all_ok (ct_facts s) fact_path fact_rest out.
Proof.
  intros Hs. unfold ct_iter_by_path. rewrite ct_rows_spec by done. cbn [mbind outcome_bind]. eexists. split; [done|].
  assert (map (fun '((k1, k2, p, a, b), c) => ((k1, k2, p), (a, b, c))) (ct_facts s) = map (fun f => (fact_path f, fact_rest f)) (ct_facts s)) as -> by (apply map_ext; by intros [[[[[]]]]]).
  apply buckets_index.
Qed.

Lemma ct_group_none s k : ct_group s k = Ret None -> fwd (ct_always s) !! k = None /\ ct_cond s !! k = None.
Proof.
  unfold ct_group. assert ((if map_is_empty (ct_cond s) then None else ct_cond s !! k) = ct_cond s !! k) as ->.
  { apply if_not_empty. intros ->. by rewrite lookup_empty. }
  destruct (fwd (ct_always s) !! k) as [g|], (ct_cond s !! k) as [leaves|]; cbn [mbind outcome_bind]; try done; destruct (pg_iter g); done.
Qed.

Lemma ct_iter_groups_spec s : lt_ok (ct_always s) -> cond_ok s -> exists out, ct_iter_groups s = Ret out /\ index_all_ok (ct_facts s) fact_key fact_leaf out.
Proof.
  intros Hs Hc. unfold ct_iter_groups. set (keys := dom (fwd (ct_always s)) ∪ dom (ct_cond s)). set (F := fun k => o ← ct_group s k; l ← unwrap o; Ret (k, l)).
  assert (forall k, k ∈ keys -> exists l, F k = Ret (k, l) /\ index_get_ok (ct_facts s) fact_key fact_leaf k (Some l)) as HF.
  { intros k Hk. destruct (ct_group_spec s k Hs Hc) as ([l|] & E & Ho); [exists l; unfold F; by rewrite E|]. exfalso.
    assert (fwd (ct_always s) !! k = None /\ ct_cond s !! k = None) as [E1 E2]; [|apply elem_of_union in Hk as [Hk|Hk]; apply elem_of_dom in Hk as [? ?]; congruence].
    apply ct_group_none in E. done. }
  destruct (mapM_out_total F (elements keys)) as [out Eout]; [intros k Hk%elem_of_elements; destruct (HF k Hk) as (l & ? & _); by eexists|]. exists out. split; [done|].
  apply mapM_out_Ret in Eout. assert (map fst out = elements keys /\ Forall (fun e => index_get_ok (ct_facts s) fact_key fact_leaf e.1 (Some e.2)) out) as [Ek Hall].
  { assert (forall k, k ∈ elements keys -> k ∈ keys) as Hin by (intros k; apply elem_of_elements). induction Eout as [|k e l l' He _ IHl]; [done|].
    destruct IHl as [IH1 IH2]; [intros k' Hk'; apply Hin; by apply list_elem_of_further|]. destruct (HF k (Hin k (list_elem_of_here _ _))) as (ws & Ews & Hok). rewrite Ews in He. injection He as <-.
    cbn [map fst]. split; [by rewrite IH1|by constructor]. }
  split_and!; [rewrite Ek; apply NoDup_elements|done|]. intros [r c] Hr. rewrite Ek, elem_of_elements. unfold keys, fact_key. cbn [fst]. rewrite elem_of_union, !elem_of_dom.
  unfold ct_facts, always_facts in Hr. apply elem_of_app in Hr as [(r' & [= -> ->] & (g & Hg & _)%fwd_rows_elem)%elem_of_map|Hr%cleaves_elem]; [left; by exists g|right].
  rewrite cond_lookup_at in Hr. destruct (ct_cond s !! row_key r) as [leaves|]; [by exists leaves|done].
Qed.
End Views.
