(* ===== verification/CondRounds.v ===== *)
(** * CondRounds: what the conditional store holds

    The operations of [CondTrie] against the lattice of conditions of [Decision]: a store is a map from facts to
    conditions, an insertion is a join, the merge of a round leaves in [delta] exactly the facts whose condition the round
    changed.  A condition is a value [option dval] with [None] for [Always]; a store holds an [option (option dval)] for each
    fact, with [None] for a fact that is not there. *)

From S2P Require Import Prelude Bits Interner UnionCache Decision PathGroup LocalsTrie CondTrie CondViews.
From S2P Require Import Swiss RawTable TableInv TableOps TableIter TableGrow TableConsume HybridSet.

#[local] Open Scope Z_scope.

(** ** Joins of what two stores hold *)

Section Algebra.
Context {St : Type} `{IH : IdHandle (list Z) St} (gb : Statics St) (k : bool).
#[local] Notation cval := (option dval).
#[local] Notation held := (option (option dval)).
Implicit Types (x y z : cval) (o : held).

#[export] Instance cle_dec x y : Decision (cle x y).
Proof. destruct x, y; cbn; apply _. Defined.

Lemma cle_refl x : cle x x.
Proof. destruct x; [apply dle_refl|done]. Qed.

Lemma cle_trans x y z : cle x y -> cle y z -> cle x z.
Proof. destruct x, y, z; cbn; try done. intros. by eapply dle_trans. Qed.

Lemma cle_antisym x y : cwithin gb k x -> cwithin gb k y -> cle x y -> cle y x -> x = y.
Proof.
  destruct x as [a|], y as [b|]; try done. intros (Ka & _) (Kb & _). cbn. destruct a, b; cbn in *; try done; intros; subst; try done. do 2 f_equal. set_solver.
Qed.

Definition owithin o : Prop := match o with Some x => cwithin gb k x | None => True end.
Definition ole o o' : Prop := match o, o' with None, _ => True | Some x, Some y => cle x y | _, _ => False end.
#[export] Instance ole_dec o o' : Decision (ole o o').
Proof. destruct o, o'; cbn; apply _. Defined.

Definition ojoin o o' : held := match o, o' with Some x, Some y => Some (cjoin gb x y) | None, o | o, None => o end.

Lemma ole_refl o : ole o o.
Proof. destruct o; [apply cle_refl|done]. Qed.
Lemma ole_trans o1 o2 o3 : ole o1 o2 -> ole o2 o3 -> ole o1 o3.
Proof. destruct o1, o2, o3; try done. apply cle_trans. Qed.
Lemma ole_antisym o o' : owithin o -> owithin o' -> ole o o' -> ole o' o -> o = o'.
Proof. destruct o, o'; try done. cbn. intros. f_equal. by apply cle_antisym. Qed.

Lemma ojoin_lub o o' : owithin o -> owithin o' -> owithin (ojoin o o') /\ ole o (ojoin o o') /\ ole o' (ojoin o o') /\ forall w, owithin w -> ole o w -> ole o' w -> ole (ojoin o o') w.
Proof.
  destruct o as [x|], o' as [y|]; cbn [ojoin]; intros Hx Hy; try (split_and!; [done|apply ole_refl || done|apply ole_refl || done|done]).
  destruct (cjoin_lub gb k x y Hx Hy) as (H1 & H2 & H3 & H4). split_and!; try done. intros [w|]; [|done]. by apply H4.
Qed.

Lemma ojoin_within o o' : owithin o -> owithin o' -> owithin (ojoin o o').
Proof. intros. by apply ojoin_lub. Qed.

Lemma ojoin_comm o o' : owithin o -> owithin o' -> ojoin o o' = ojoin o' o.
Proof.
  intros Ho Ho'. destruct (ojoin_lub o o' Ho Ho') as (? & ? & ? & Hl), (ojoin_lub o' o Ho' Ho) as (? & ? & ? & Hr). apply ole_antisym; auto.
Qed.

Lemma ojoin_assoc o1 o2 o3 : owithin o1 -> owithin o2 -> owithin o3 -> ojoin (ojoin o1 o2) o3 = ojoin o1 (ojoin o2 o3).
Proof.
  intros W1 W2 W3. destruct (ojoin_lub o1 o2 W1 W2) as (? & ? & ? & H12), (ojoin_lub o2 o3 W2 W3) as (? & ? & ? & H23).
  destruct (ojoin_lub (ojoin o1 o2) o3) as (? & ? & ? & Ha); [done..|]. destruct (ojoin_lub o1 (ojoin o2 o3)) as (? & ? & ? & Hb); [done..|].
  apply ole_antisym; [done..| |].
  - apply Ha; [done| |eauto using ole_trans]. apply H12; [done..|eauto using ole_trans].
  - apply Hb; [done|eauto using ole_trans|]. apply H23; [done|eauto using ole_trans|done].
Qed.

Lemma ojoin_absorbs o o' : owithin o -> owithin o' -> ojoin o o' = o <-> ole o' o.
Proof.
  intros Ho Ho'. destruct (ojoin_lub o o' Ho Ho') as (? & ? & Hr & Hl). split; [intros E; by rewrite E in Hr|]. intros Hle. apply ole_antisym; auto. apply Hl; [done|apply ole_refl|done].
Qed.

Lemma ojoin_none_r o : ojoin o None = o.
Proof. by destruct o. Qed.

(** [Always] is above everything. *)
Lemma ojoin_always o : ojoin o (Some None) = Some None.
Proof. destruct o as [[v|]|]; done. Qed.
End Algebra.

(** ** What a store holds *)

Section Spec.
Context {St : Type} `{IH : IdHandle (list Z) St}.
Context (Heqb : forall a b : list Z, ih_eqb a b = true <-> a = b) (Hfirst : FIRST_INTERNED <= ih_first) (Hbound : ih_bound <= 2 ^ 31).
Context {K1 K2 P A B S1 S2 : Type} `{Countable K1, Countable K2, Countable P, Countable A, Countable B}.
Context `{SetOps (P * A * B) S1, SetOps (A * B) S2, !SetLaws (P * A * B) S1, !SetLaws (A * B) S2}.
#[local] Notation row := (K1 * K2 * P * A * B)%type.
#[local] Notation locals := (LocalsIndCommon K1 K2 P S1 S2).
#[local] Notation trie := (CondTrie K1 K2 P A B S1 S2).
#[local] Notation statics := (Statics St).
#[local] Notation held := (option (option dval)).

(** [gb]: the tables at the start; [k]: the kind of the sets; [U]: the facts there are. *)
Context (gb : statics) (k : bool) (U : list row).
Implicit Types (g : statics) (r : row) (c : Cond) (s : trie) (V : row -> held).

#[local] Notation stuck := (lt_stuck (S1 := S1) (S2 := S2) U).

(** It returns with the tables extended, or panics because an interner or a set is full. *)
Definition truns {X} g (o : outcome (statics * X)) (Q : statics -> X -> Prop) : Prop :=
  (exists g' x, o = Ret (g', x) /\ statics_ok g' /\ ggrows g g' /\ Q g' x) \/ (o = Panic /\ (sets_full g \/ stuck)).

Lemma truns_ret {X} g (x : X) (Q : statics -> X -> Prop) : statics_ok g -> Q g x -> truns g (Ret (g, x)) Q.
Proof. intros. left. eexists _, _. split_and!; [done..|apply ggrows_refl|done]. Qed.

Lemma sets_full_grows g g' : ggrows g g' -> sets_full g' -> sets_full g.
Proof. intros Hg (g2 & l & Hok & Hg2 & Hl). exists g2, l. split_and!; [done|by eapply ggrows_trans|done]. Qed.

Lemma truns_bind {X Y} g (m : outcome (statics * X)) (f : statics * X -> outcome (statics * Y)) (Q : statics -> X -> Prop) (R : statics -> Y -> Prop) : truns g m Q ->
  (forall g' x, statics_ok g' -> ggrows g g' -> Q g' x -> truns g' (f (g', x)) R) -> truns g (mbind f m) R.
Proof.
  intros [(g' & x & -> & Hok & Hg & HQ)|(-> & Hfull)] Hf; [|by right]. cbn [mbind outcome_bind].
  destruct (Hf g' x Hok Hg HQ) as [(g2 & y & E & Hok2 & Hg2 & HR)|(E & [Hn|Hn])].
  - left. exists g2, y. split_and!; [done..|by eapply ggrows_trans|done].
  - right. split; [done|]. left. by eapply sets_full_grows.
  - right. split; [done|by right].
Qed.

Lemma truns_mono {X} g (m : outcome (statics * X)) (Q R : statics -> X -> Prop) : truns g m Q ->
  (forall g' x, statics_ok g' -> ggrows g g' -> Q g' x -> R g' x) -> truns g m R.
Proof. intros [(g' & x & -> & Hok & Hg & HQ)|Hfull] H'; [left|by right]. exists g', x. eauto. Qed.

Lemma truns_sets {X} g (m : outcome (statics * X)) (Q : statics -> X -> Prop) : gruns g m Q -> truns g m Q.
Proof. intros [?|[? ?]]; [by left|right; by split; [|left]]. Qed.

(** A step that leaves the tables alone. *)
Lemma truns_pure {X Y} g (m : outcome X) (f : X -> outcome (statics * Y)) (Q : X -> Prop) (R : statics -> Y -> Prop) :
  match m with Ret x => Q x | Panic => stuck | OutOfFuel => False end -> (forall x, Q x -> truns g (f x) R) -> truns g (mbind f m) R.
Proof. intros Hm Hf. destruct m as [x| |]; cbn [mbind outcome_bind]; [by apply Hf|right; by split; [|right]|done]. Qed.

(** The order and the joins stay what they were at the start. *)
Lemma cwithin_base g x : ggrows gb g -> cwithin g k x <-> cwithin gb k x.
Proof. intros Hg. unfold cwithin. by rewrite (gg_bound _ _ Hg), (gg_spill _ _ Hg). Qed.

Lemma cjoin_base g x y : ggrows gb g -> cjoin g x y = cjoin gb x y.
Proof. intros Hg. unfold cjoin, cunder. by rewrite (gg_bound _ _ Hg), (gg_spill _ _ Hg). Qed.

Lemma join_spec g c c' x y : statics_ok g -> ggrows gb g -> cond_denotes g c x -> cond_denotes g c' y -> cwithin gb k x -> cwithin gb k y ->
  truns g (cond_join_mut g c c') (fun g' j => cond_denotes g' j.1 (cjoin gb x y) /\ j.2 = bool_decide (cjoin gb x y <> x)).
Proof.
  intros Hok Hg Hx Hy Wx Wy. rewrite <- (cjoin_base g) by done. apply truns_sets. apply (cond_join_spec Heqb Hfirst Hbound g c c' x y k); [done..|by apply cwithin_base|by apply cwithin_base].
Qed.

Lemma covers_spec g hc c x y : statics_ok g -> ggrows gb g -> cond_denotes g hc x -> cond_denotes g c y -> cwithin gb k x -> cwithin gb k y ->
  truns g (covers g hc c) (fun g' b => b = bool_decide (cle y x)).
Proof.
  intros Hok Hg Hx Hy Wx Wy. destruct Hx as [|a va Ha]; [apply truns_ret; [done|]; symmetry; apply bool_decide_eq_true; by destruct y|].
  destruct Hy as [|b vb Hb]; [apply truns_ret; [done|]; symmetry; apply bool_decide_eq_false; by intros []|].
  cbn [covers]. eapply truns_bind; [apply (join_spec g (Under a) (Under b) (Some va) (Some vb)); [done|done|by constructor|by constructor|done|done]|].
  intros g' [j changed] Hok' Hg' [_ Hc]. cbn [fst snd] in Hc. cbn beta iota. apply truns_ret; [done|]. rewrite Hc.
  pose proof (ojoin_absorbs gb k (Some (Some va)) (Some (Some vb)) Wx Wy) as Habs. cbn [ojoin ole] in Habs.
  case_bool_decide as E1; case_bool_decide as E2; cbn [negb]; try done; exfalso.
  - apply E1. apply Habs in E2. congruence.
  - apply E2, Habs. f_equal. by destruct (decide (cjoin gb (Some va) (Some vb) = Some va)).
Qed.

(** The condition of a fact in a store, and what it denotes. *)
Definition ct_at s r : option Cond := if decide (r ∈ lt_rows (ct_always s)) then Some Always else cflat (ct_cond s) !! r.

Definition den g (oc : option Cond) (o : held) : Prop :=
  match oc, o with Some c, Some x => cond_denotes g c x /\ cwithin gb k x | None, None => True | _, _ => False end.

Record ct_ok g s V : Prop := {
  tk_always : lt_ok (ct_always s);
  tk_cond : cond_ok s;
  tk_sets : forall r c, cflat (ct_cond s) !! r = Some c -> exists v, cond_denotes g c (Some v) /\ cwithin gb k (Some v);
  tk_val : forall r, den g (ct_at s r) (V r);
  tk_known : forall r, r ∈ lt_rows (ct_always s) \/ is_Some (cflat (ct_cond s) !! r) -> r ∈ U
}.

(** A fact is in one part only. *)
Definition ct_sep s : Prop := forall r, r ∈ lt_rows (ct_always s) -> cflat (ct_cond s) !! r = None.

Lemma den_grows g g' oc o : ggrows g g' -> den g oc o -> den g' oc o.
Proof. intros Hg. destruct oc, o; try done. intros [? ?]. split; [by eapply cond_denotes_grows|done]. Qed.

Lemma ct_ok_grows g g' s V : ggrows g g' -> ct_ok g s V -> ct_ok g' s V.
Proof.
  intros Hg [? ? Hs Hv ?]. split; try done.
  - intros r c Hc. destruct (Hs r c Hc) as (v & ? & ?). exists v. split; [by eapply cond_denotes_grows|done].
  - intros r. by eapply den_grows.
Qed.

Lemma ct_ok_ext g s V V' : (forall r, V r = V' r) -> ct_ok g s V -> ct_ok g s V'.
Proof. intros E [? ? ? Hv ?]. split; try done. intros r. rewrite <- E. apply Hv. Qed.

Lemma ct_ok_within g s V r : ct_ok g s V -> owithin gb k (V r).
Proof. intros Hs. pose proof (tk_val _ _ _ Hs r) as Hv. destruct (ct_at s r), (V r); try done. by destruct Hv. Qed.

Lemma ct_default_ok g : ct_ok g (ct_default : trie) (fun _ => None) /\ ct_sep (ct_default : trie).
Proof.
  destruct (lt_default_ok (F := K1) (V := K2) (S1 := S1) (S2 := S2)) as [Hok E]. destruct (cflat_empty (K1 := K1) (K2 := K2) (P := P) (A := A) (B := B)) as [Ec Hc].
  assert (forall r, cflat (ct_cond (ct_default : trie)) !! r = None) as Hn by (intros r; cbn [ct_cond ct_default]; by rewrite Ec, lookup_empty).
  split; [split|].
  - done.
  - split; [done|]. cbn [ct_cond_len ct_cond ct_default]. by rewrite Ec.
  - intros r c. by rewrite Hn.
  - intros r. unfold ct_at. cbn [ct_always ct_default]. rewrite E, decide_False by apply not_elem_of_nil. by rewrite Hn.
  - intros r [Hr|[c Hr]]; [|by rewrite Hn in Hr]. cbn [ct_always ct_default] in Hr. rewrite E in Hr. by apply not_elem_of_nil in Hr.
  - intros r _. apply Hn.
Qed.

Lemma cond_at_spec g s V r : ct_ok g s V -> cond_at s r = Ret (ct_at s r).
Proof.
  intros Hs. unfold cond_at, ct_at. rewrite lt_contains_spec by apply (tk_always _ _ _ Hs). cbn [mbind outcome_bind].
  destruct (decide (r ∈ lt_rows (ct_always s))); [by rewrite bool_decide_true|rewrite bool_decide_false by done]. destruct (map_is_empty (ct_cond s)) eqn:E.
  - apply cflat_empty_iff in E; [|apply (tk_cond _ _ _ Hs)]. by rewrite E, lookup_empty.
  - by rewrite cflat_lookup.
Qed.

(** ** Insertion is a join *)

Definition upd V r (o : held) : row -> held := fun r' => if decide (r = r') then o else V r'.

Lemma upd_id V r o : V r = o -> forall r', V r' = upd V r o r'.
Proof. intros E r'. unfold upd. by destruct (decide (r = r')) as [<-|]. Qed.

Lemma ct_ok_update g s s' V r o : ct_ok g s V -> r ∈ U -> lt_ok (ct_always s') -> cond_ok s' ->
  (forall x, x <> r -> (x ∈ lt_rows (ct_always s') <-> x ∈ lt_rows (ct_always s)) /\ cflat (ct_cond s') !! x = cflat (ct_cond s) !! x) ->
  (forall c, cflat (ct_cond s') !! r = Some c -> exists v, cond_denotes g c (Some v) /\ cwithin gb k (Some v)) ->
  den g (ct_at s' r) o -> ct_ok g s' (upd V r o).
Proof.
  intros [_ _ Hs Hv Hk] HU Ha Hc Hx Hr Ho. split; [done..| | |].
  - intros x c. destruct (decide (x = r)) as [->|Hne]; [apply Hr|]. destruct (Hx x Hne) as [_ ->]. apply Hs.
  - intros x. unfold upd. destruct (decide (r = x)) as [<-|Hne]; [done|]. destruct (Hx x ltac:(done)) as [Er Ec]. specialize (Hv x). unfold ct_at in *. rewrite Ec.
    destruct (decide (x ∈ lt_rows (ct_always s'))), (decide (x ∈ lt_rows (ct_always s))); tauto.
  - intros x. destruct (decide (x = r)) as [->|Hne]; [done|]. destruct (Hx x Hne) as [-> ->]. apply Hk.
Qed.

Lemma known_rows g s V : ct_ok g s V -> lt_rows (ct_always s) ⊆ U.
Proof. intros Hs r Hr. apply (tk_known _ _ _ Hs). by left. Qed.

(** A fact put among the unconditional ones. *)
Lemma always_insert_spec g s V r : ct_ok g s V -> r ∈ U ->
  match lt_insert (ct_always s) r with
  | Ret (always, added) => added = bool_decide (r ∉ lt_rows (ct_always s)) /\ (forall x, x ∈ lt_rows always <-> x ∈ lt_rows (ct_always s) \/ x = r) /\
      ct_ok g (mk_trie always (ct_cond s) (ct_cond_len s)) (upd V r (Some None))
  | Panic => stuck
  | OutOfFuel => False
  end.
Proof.
  intros Hs HU. pose proof (lt_insert_spec (ct_always s) r (tk_always _ _ _ Hs)) as Hi. destruct (lt_insert (ct_always s) r) as [[always added]| |]; [| |done].
  2: { eapply lt_stuck_mono; [|done]. by eapply known_rows. }
  destruct Hi as (Ha & Hadd & Hp). assert (forall x, x ∈ lt_rows always <-> x ∈ lt_rows (ct_always s) \/ x = r) as Hin.
  { intros x. rewrite Hp. destruct added; [rewrite elem_of_cons; tauto|]. symmetry in Hadd. apply bool_decide_eq_false in Hadd.
    destruct (decide (r ∈ lt_rows (ct_always s))) as [Hr|]; [|done]. split; [by left|]. by intros [?| ->]. }
  split_and!; [done..|]. apply (ct_ok_update g s); cbn [ct_always ct_cond ct_cond_len]; try done.
  - by destruct (tk_cond _ _ _ Hs).
  - intros x Hne. split; [|done]. rewrite Hin. tauto.
  - intros c Hc. by apply (tk_sets _ _ _ Hs r).
  - unfold ct_at. cbn [ct_always]. rewrite decide_True by (apply Hin; by right). split; [constructor|done].
Qed.

(** A condition put at a fact that is not unconditional. *)
Lemma cond_put_ok g s V r c v len : ct_ok g s V -> r ∈ U -> r ∉ lt_rows (ct_always s) -> cond_denotes g c (Some v) -> cwithin gb k (Some v) ->
  len = (if decide (is_Some (cflat (ct_cond s) !! r)) then ct_cond_len s else ct_cond_len s + 1) ->
  ct_ok g (mk_trie (ct_always s) (cond_put (ct_cond s) r c) len) (upd V r (Some (Some v))).
Proof.
  intros Hs HU Hr Hc Wv Hlen. destruct (tk_cond _ _ _ Hs) as [Hwf Hl]. apply (ct_ok_update g s); cbn [ct_always ct_cond ct_cond_len]; try done; [apply Hs|split| | |]; cbn [ct_always ct_cond ct_cond_len].
  - by apply cond_put_wf.
  - rewrite cond_put_flat, Hlen, Hl. destruct (decide (is_Some _)) as [[c0 E]|E]; [by rewrite map_size_insert_Some by eauto|]. rewrite map_size_insert_None; [lia|]. by apply eq_None_not_Some.
  - intros x Hne. split; [done|]. rewrite cond_put_flat. by rewrite lookup_insert_ne.
  - intros c'. rewrite cond_put_flat, lookup_insert_eq. intros [= <-]. eauto.
  - unfold ct_at. cbn [ct_always ct_cond]. rewrite decide_False, cond_put_flat, lookup_insert_eq by done. done.
Qed.

Lemma ct_at_val g s V r c : statics_ok g -> ct_ok g s V -> ct_at s r = Some c -> forall x, cond_denotes g c x -> V r = Some x.
Proof.
  intros Hok Hs E x Hx. pose proof (tk_val _ _ _ Hs r) as Hv. rewrite E in Hv. destruct (V r) as [y|]; [|done]. destruct Hv as [Hy _]. f_equal. by eapply (cond_denotes_fun Hfirst Hbound).
Qed.

Lemma always_val g s V r : statics_ok g -> ct_ok g s V -> r ∈ lt_rows (ct_always s) <-> V r = Some None.
Proof.
  intros Hok Hs. split.
  - intros Hr. eapply ct_at_val; [done..| |constructor]. unfold ct_at. by rewrite decide_True.
  - intros E. pose proof (tk_val _ _ _ Hs r) as Hv. rewrite E in Hv. unfold ct_at in Hv. destruct (decide (r ∈ lt_rows (ct_always s))); [done|].
    destruct (cflat (ct_cond s) !! r) as [c|] eqn:Ec; [|done]. destruct (tk_sets _ _ _ Hs r c Ec) as (v & Hd & _). destruct Hv as [Hn _]. by pose proof (cond_denotes_fun Hfirst Hbound g c _ _ Hok Hd Hn).
Qed.

(** A join that spills to [Always] moves the fact: the leaf, whatever was put there, is removed. *)
Lemma removed_ok g s s2 V r : ct_ok g s V -> r ∈ U -> cond_ok s2 -> ct_always s2 = ct_always s -> cflat (ct_cond s2) = delete r (cflat (ct_cond s)) ->
  ct_ok g s2 (upd V r (if decide (r ∈ lt_rows (ct_always s)) then Some None else None)).
Proof.
  intros Hs HU Hc Ea Ef. apply (ct_ok_update g s); [done..|by rewrite Ea; apply Hs|done| | |].
  - intros x Hne. by rewrite Ea, Ef, lookup_delete_ne.
  - intros c. by rewrite Ef, lookup_delete_eq.
  - unfold ct_at. rewrite Ea, Ef, lookup_delete_eq. destruct (decide _); [|done]. split; [constructor|done].
Qed.

Lemma spill_spec g s V r joined : ct_ok g s V -> r ∈ U -> is_Some (cflat (ct_cond s) !! r) ->
  match (s2 ← remove_cond (mk_trie (ct_always s) (cond_put (ct_cond s) r joined) (ct_cond_len s)) r; '(always, _) ← lt_insert (ct_always s2) r;
         Ret (mk_trie always (ct_cond s2) (ct_cond_len s2))) with
  | Ret s' => ct_ok g s' (upd V r (Some None)) /\ (ct_sep s -> ct_sep s')
  | Panic => stuck
  | OutOfFuel => False
  end.
Proof.
  intros Hs HU Hr. destruct (tk_cond _ _ _ Hs) as [Hwf Hl].
  destruct (remove_cond_spec (mk_trie (ct_always s) (cond_put (ct_cond s) r joined) (ct_cond_len s)) r) as (s2 & -> & Ea & Hc2 & Ef).
  { split; cbn [ct_cond ct_cond_len]; [by apply cond_put_wf|]. by rewrite cond_put_flat, map_size_insert_Some. }
  cbn [ct_always ct_cond mbind outcome_bind] in *. rewrite cond_put_flat, delete_insert_eq in Ef.
  pose proof (always_insert_spec g s2 _ r (removed_ok g s s2 V r Hs HU Hc2 Ea Ef) HU) as Hi.
  destruct (lt_insert (ct_always s2) r) as [[always added]| |]; cbn [mbind outcome_bind]; [|done..]. destruct Hi as (_ & Hin & Hok). split.
  - eapply ct_ok_ext; [|exact Hok]. intros x. unfold upd. by destruct (decide (r = x)).
  - intros Hsep x. cbn [ct_always ct_cond]. rewrite Hin, Ef, Ea. destruct (decide (x = r)) as [->|Hne]; [by rewrite lookup_delete_eq|]. rewrite lookup_delete_ne by done. intros [?|?]; [by apply Hsep|done].
Qed.

Lemma put_sep s r c len : ct_sep s -> r ∉ lt_rows (ct_always s) -> ct_sep (mk_trie (ct_always s) (cond_put (ct_cond s) r c) len).
Proof. intros Hsep Hr x. cbn [ct_always ct_cond]. rewrite cond_put_flat. intros Hx. rewrite lookup_insert_ne by congruence. by apply Hsep. Qed.

Lemma ct_insert_spec g s V r c x : statics_ok g -> ggrows gb g -> ct_ok g s V -> r ∈ U -> cond_denotes g c x -> cwithin gb k x ->
  truns g (ct_insert g s r c) (fun g' y => ct_ok g' y.1 (upd V r (ojoin gb (V r) (Some x))) /\ y.2 = bool_decide (ojoin gb (V r) (Some x) <> V r) /\ (ct_sep s -> x <> None -> ct_sep y.1)).
Proof.
  intros Hok Hg Hs HU Hc Wx. unfold ct_insert. destruct Hc as [|ds v Hds].
  - replace (is_always Always) with true by (symmetry; by apply bool_decide_eq_true). eapply truns_pure; [exact (always_insert_spec g s V r Hs HU)|]. intros [always added] (Ha & _ & Hok').
    apply truns_ret; [done|]. cbn [fst snd]. rewrite ojoin_always. split_and!; [done| |done]. rewrite Ha. apply bool_decide_ext. rewrite (always_val g s V r) by done. naive_solver.
  - replace (is_always (Under ds)) with false by (symmetry; by apply bool_decide_eq_false). rewrite lt_contains_spec by apply Hs. cbn [mbind outcome_bind].
    destruct (bool_decide (r ∈ lt_rows (ct_always s))) eqn:Er.
    + apply bool_decide_eq_true in Er. apply (always_val g s V r Hok Hs) in Er. apply truns_ret; [done|]. cbn [fst snd]. rewrite Er. cbn [ojoin cjoin].
      split_and!; [by eapply ct_ok_ext, Hs; apply upd_id|by symmetry; apply bool_decide_eq_false; intros []|done].
    + apply bool_decide_eq_false in Er. rewrite <- cflat_lookup. destruct (cflat (ct_cond s) !! r) as [hc|] eqn:Eh.
      * destruct (tk_sets _ _ _ Hs r hc Eh) as (v0 & Hv0 & W0). assert (V r = Some (Some v0)) as EV by (eapply ct_at_val; [done..| |done]; unfold ct_at; by rewrite decide_False).
        eapply truns_bind; [apply (join_spec g hc (Under ds) (Some v0) (Some v)); [done|done|done|by constructor|done|done]|].
        intros g' [joined changed] Hok' Hg' [Hj Hch]. cbn [fst snd] in Hj, Hch. cbn beta iota. rewrite EV. cbn [ojoin].
        assert (ct_ok g' s V) as Hs' by (by eapply ct_ok_grows). pose proof (ojoin_within gb k (Some (Some v0)) (Some (Some v)) W0 Wx) as Wj. cbn [ojoin owithin] in Wj.
        destruct (cjoin gb (Some v0) (Some v)) as [vj|] eqn:Ej.
        -- assert (is_always joined = false) as -> by (inversion Hj; by apply bool_decide_eq_false).
           assert (ct_ok g' (mk_trie (ct_always s) (cond_put (ct_cond s) r joined) (ct_cond_len s)) (upd V r (Some (Some vj)))) as Hput.
           { apply cond_put_ok; [done..|]. rewrite Eh. by rewrite decide_True. }
           destruct changed; cbn [negb]; apply truns_ret; try done; cbn [fst snd]; (split_and!; [done| |intros ? _; by apply put_sep]); rewrite Hch; apply bool_decide_ext; naive_solver.
        -- assert (changed = true) as -> by (rewrite Hch; by apply bool_decide_eq_true). assert (is_always joined = true) as -> by (inversion Hj; by apply bool_decide_eq_true). cbn [negb].
           pose proof (spill_spec g' s V r joined Hs' HU ltac:(by eauto)) as Hsp. destruct (remove_cond _ r) as [s2| |]; cbn [mbind outcome_bind] in Hsp |- *; [|right; by split; [|right]|done].
           destruct (lt_insert (ct_always s2) r) as [[always added]| |]; cbn [mbind outcome_bind] in Hsp |- *; [|right; by split; [|right]|done]. destruct Hsp as [Hok2 Hsep2].
           apply truns_ret; [done|]. cbn [fst snd]. split_and!; [done|by symmetry; apply bool_decide_eq_true|auto].
      * assert (V r = None) as EV. { pose proof (tk_val _ _ _ Hs r) as Hv. unfold ct_at in Hv. rewrite decide_False, Eh in Hv by done. by destruct (V r). }
        apply truns_ret; [done|]. cbn [fst snd]. rewrite EV. cbn [ojoin]. split_and!; [|by symmetry; apply bool_decide_eq_true|intros ? _; by apply put_sep].
        apply cond_put_ok; [done..|by constructor|done|]. rewrite Eh. rewrite decide_False; [done|]. by intros [].
Qed.

(** ** Absorbing is the join of two stores *)

Lemma retain_filter {K W} (Q : K -> Prop) `{!forall x, Decision (Q x)} (F : Z -> K -> W -> outcome (Z * W * bool)) l : (forall n x w, F n x w = Ret (if decide (Q x) then n + 1 else n, w, bool_decide (~ Q x))) ->
  forall n, retain_list F n l = Ret (n + Z.of_nat (length l) - Z.of_nat (length (filter (fun e => ~ Q e.1) l)), filter (fun e => ~ Q e.1) l).
Proof.
  intros HF. induction l as [|[x w] l IHl]; intros n; cbn [retain_list]; [cbn; f_equal; f_equal; lia|]. rewrite HF. cbn [mbind outcome_bind]. rewrite IHl. cbn [mbind outcome_bind].
  rewrite filter_cons. cbn [fst length]. destruct (decide (Q x)) as [Hq|Hq].
  - rewrite bool_decide_false by tauto. rewrite decide_False by tauto. f_equal. f_equal. lia.
  - rewrite bool_decide_true by done. rewrite decide_True by done. cbn [length]. f_equal. f_equal. lia.
Qed.

Lemma drop_pointwise (f : locals) n r c : lt_ok f ->
  (if negb (bool_decide (is_Some (fwd f !! row_key r))) then Ret (n, c, true) else drop_unconditional (fwd f) n r c) =
  Ret (if decide (r ∈ lt_rows f) then n + 1 else n, c, bool_decide (~ r ∈ lt_rows f)).
Proof.
  intros Hf. assert (r ∈ lt_rows f <-> _) as E by apply fwd_rows_elem. destruct r as [[[[k1 k2] p] a] b]. cbn [row_key row_leaf drop_unconditional] in *.
  destruct (fwd f !! (k1, k2)) as [group|] eqn:Eg.
  - rewrite bool_decide_true by eauto. cbn [negb unwrap mbind outcome_bind]. rewrite pg_contains_spec by (by apply (lk_groups _ Hf (k1, k2))). cbn [mbind outcome_bind].
    assert ((k1, k2, p, a, b) ∈ lt_rows f <-> (p, a, b) ∈ pg_leaves group) as E' by (rewrite E; split; [by intros (? & [= <-] & ?)|eauto]).
    destruct (decide ((p, a, b) ∈ pg_leaves group)) as [Hin|Hin].
    + rewrite bool_decide_true by done. rewrite decide_True by tauto. rewrite bool_decide_false by tauto. done.
    + rewrite bool_decide_false by done. rewrite decide_False by tauto. rewrite bool_decide_true by tauto. done.
  - rewrite bool_decide_false by (by intros []). cbn [negb]. assert (~ (k1, k2, p, a, b) ∈ lt_rows f) as Hn by (rewrite E; by intros (? & ? & _)).
    rewrite decide_False by done. by rewrite bool_decide_true.
Qed.


(** The conditional leaves that [f] makes unconditional are dropped. *)
Definition drop_step s (f : trie) : outcome trie :=
  if negb (map_is_empty (ct_cond s)) && negb (lt_is_empty (ct_always f)) then
    let fwd_from := fwd (ct_always f) in
    '(removed, cond) ← retain_leaves (fun x => negb (bool_decide (is_Some (fwd_from !! x)))) (drop_unconditional fwd_from) 0 (ct_cond s);
    len ← usize_sub (ct_cond_len s) removed;
    Ret (mk_trie (ct_always s) cond len)
  else Ret s.

Lemma drop_step_spec s (f : trie) : cond_ok s -> lt_ok (ct_always f) -> exists s1, drop_step s f = Ret s1 /\ ct_always s1 = ct_always s /\ cond_ok s1 /\
  forall r, cflat (ct_cond s1) !! r = if decide (r ∈ lt_rows (ct_always f)) then None else cflat (ct_cond s) !! r.
Proof.
  intros Hs Hf. pose proof Hs as [Hwf Hlen]. unfold drop_step. destruct (map_is_empty (ct_cond s)) eqn:Ec; cbn [negb andb].
  { exists s. split_and!; [done..|]. apply cflat_empty_iff in Ec; [|done]. intros r. rewrite Ec, lookup_empty. by destruct (decide _). }
  destruct (lt_is_empty (ct_always f)) eqn:Ef; cbn [negb].
  { exists s. split_and!; [done..|]. apply lt_is_empty_spec in Ef; [|done]. intros r. rewrite Ef. by rewrite decide_False by apply not_elem_of_nil. }
  pose proof (retain_leaves_spec (fun x => negb (bool_decide (is_Some (fwd (ct_always f) !! x)))) (drop_unconditional (fwd (ct_always f))) 0 (ct_cond s) Hwf) as Hr.
  rewrite (retain_filter (.∈ lt_rows (ct_always f))) in Hr by (intros; by apply drop_pointwise). destruct Hr as (m' & -> & Hp & Hwf'). cbn [mbind outcome_bind].
  set (l' := filter _ _) in *. assert (length l' <= length (cleaves (ct_cond s)))%nat as Hle by (apply length_filter). unfold usize_sub. rewrite Hlen, cflat_size.
  destruct (Z.leb_spec (0 + Z.of_nat (length (cleaves (ct_cond s))) - Z.of_nat (length l')) (Z.of_nat (length (cleaves (ct_cond s))))); [|lia]. cbn [mbind outcome_bind].
  eexists. split; [done|]. cbn [ct_always ct_cond]. split_and!; [done| |].
  - split; cbn [ct_cond ct_cond_len]; [done|]. rewrite cflat_size, Hp. lia.
  - intros r. apply option_eq. intros c. rewrite cflat_lookup, <- cleaves_elem, Hp. unfold l'. rewrite list_elem_of_filter. cbn [fst]. rewrite cleaves_elem, <- cflat_lookup.
    destruct (decide (r ∈ lt_rows (ct_always f))); naive_solver.
Qed.

Lemma insert_fold l : forall g s V, statics_ok g -> ggrows gb g -> ct_ok g s V -> NoDup (map fst l) ->
  (forall r c, (r, c) ∈ l -> r ∈ U /\ exists v, cond_denotes g c (Some v) /\ cwithin gb k (Some v)) ->
  truns g (foldM (fun a '(r, c) => absorb_leaf a r c) (g, s) l)
    (fun g' s' => exists V', ct_ok g' s' V' /\ (ct_sep s -> ct_sep s') /\
      (forall r c v, (r, c) ∈ l -> cond_denotes g c (Some v) -> V' r = ojoin gb (V r) (Some (Some v))) /\ (forall r, r ∉ map fst l -> V' r = V r)).
Proof.
  induction l as [|[r0 c0] l IHl]; intros g s V Hok Hg Hs Hnd Hl.
  { apply truns_ret; [done|]. exists V. split_and!; [done|done| |done]. by intros r c v ?%not_elem_of_nil. }
  cbn [map fst] in Hnd. apply NoDup_cons in Hnd as [Hr0 Hnd]. destruct (Hl r0 c0 (list_elem_of_here _ _)) as (HU & v0 & Hv0 & W0).
  cbn [foldM]. change (truns g (absorb_leaf (g, s) r0 c0 ≫= (fun b => foldM (fun a '(r, c) => absorb_leaf a r c) b l))
    (fun g' s' => exists V', ct_ok g' s' V' /\ (ct_sep s -> ct_sep s') /\
      (forall r c v, (r, c) ∈ (r0, c0) :: l -> cond_denotes g c (Some v) -> V' r = ojoin gb (V r) (Some (Some v))) /\ (forall r, r ∉ r0 :: map fst l -> V' r = V r))).
  eapply (truns_bind g _ _ (fun g' s' => ct_ok g' s' (upd V r0 (ojoin gb (V r0) (Some (Some v0)))) /\ (ct_sep s -> ct_sep s'))).
  { eapply truns_bind; [by apply (ct_insert_spec g s V r0 c0 (Some v0))|]. intros g' [s' b] Hok' Hg' (H1' & _ & H2'). cbn beta iota. apply truns_ret; [done|]. split; [done|]. intros. by apply H2'. }
  intros g' s' Hok' Hg' [Hs' Hsep]. eapply truns_mono; [apply IHl; [done|by eapply ggrows_trans|exact Hs'|done|]|].
  - intros r c Hin. destruct (Hl r c (list_elem_of_further _ _ _ Hin)) as (? & v & ? & ?). split; [done|]. exists v. split; [by eapply cond_denotes_grows|done].
  - intros g2 s2 _ _ (V' & Hs2 & Hsep2 & Hin & Hout). exists V'. split_and!; [done|auto| |].
    + intros r c v [[= -> ->]|Hrc]%elem_of_cons Hd.
      * rewrite Hout by done. unfold upd. rewrite decide_True by done. by pose proof (cond_denotes_fun Hfirst Hbound g c0 _ _ Hok Hd Hv0) as [= ->].
      * rewrite (Hin r c v Hrc) by (by eapply cond_denotes_grows). unfold upd. rewrite decide_False; [done|]. intros ->. apply Hr0. apply elem_of_map. by exists (r, c).
    + intros r [Hne Hr]%not_elem_of_cons. rewrite Hout by done. unfold upd. by rewrite decide_False.
Qed.

Lemma ct_absorb_spec g s (f : trie) V W : statics_ok g -> ggrows gb g -> ct_ok g s V -> ct_sep s -> ct_ok g f W ->
  truns g (ct_absorb g s f) (fun g' y => ct_ok g' y.1 (fun r => ojoin gb (V r) (W r)) /\ ct_sep y.1 /\ y.2 = ct_default).
Proof.
  intros Hok Hg Hs Hsep Hf. unfold ct_absorb. fold (drop_step s f). destruct (drop_step_spec s f (tk_cond _ _ _ Hs) (tk_always _ _ _ Hf)) as (s1 & -> & Ea & Hc1 & Hflat). cbn [mbind outcome_bind].
  rewrite Ea. pose proof (lt_absorb_spec (ct_always s) (ct_always f) (tk_always _ _ _ Hs) (tk_always _ _ _ Hf)) as Ha.
  eapply (truns_pure g _ _ (fun y => lt_ok y.1 /\ (forall r, r ∈ lt_rows y.1 <-> r ∈ lt_rows (ct_always s) \/ r ∈ lt_rows (ct_always f)) /\ y.2 = lt_default)).
  { destruct (lt_absorb (ct_always s) (ct_always f)) as [[a b]| |]; [done| |done]. eapply lt_stuck_mono; [|done]. intros r. rewrite elem_of_app. intros [Hr|Hr]; [exact (known_rows g s V Hs r Hr)|exact (known_rows g f W Hf r Hr)]. }
  intros [a b] (Hla & Hrows & Eb). cbn [fst snd] in *. subst b. set (s2 := mk_trie a (ct_cond s1) (ct_cond_len s1)).
  set (V2 := fun r => if decide (r ∈ lt_rows (ct_always f)) then Some None else V r).
  assert (ct_ok g s2 V2) as Hs2.
  { split; unfold s2; cbn [ct_always ct_cond ct_cond_len]; [done|by destruct Hc1| | |].
    - intros r c. rewrite Hflat. destruct (decide _); [done|]. apply (tk_sets _ _ _ Hs).
    - intros r. pose proof (tk_val _ _ _ Hs r) as Hv. unfold ct_at, V2 in *. cbn [ct_always ct_cond]. rewrite Hflat.
      destruct (decide (r ∈ lt_rows (ct_always f))) as [Hin|Hin]; [rewrite decide_True by (apply Hrows; by right); split; [constructor|done]|].
      destruct (decide (r ∈ lt_rows (ct_always s))) as [Hin'|Hin']; [rewrite decide_True by (apply Hrows; by left); done|]. rewrite decide_False; [done|]. rewrite Hrows. tauto.
    - intros r. rewrite Hrows, Hflat. intros [[Hr|Hr]|[c Hr]]; [exact (known_rows g s V Hs r Hr)|exact (known_rows g f W Hf r Hr)|]. destruct (decide _); [done|]. apply (tk_known _ _ _ Hs). by right; exists c. }
  assert (ct_sep s2) as Hsep2.
  { intros r. unfold s2. cbn [ct_always ct_cond]. rewrite Hrows, Hflat. destruct (decide _); [done|]. intros [?|?]; [by apply Hsep|done]. }
  rewrite for_leaves_spec. eapply (truns_bind g _ _ (fun g' s' => ct_ok g' s' (fun r => ojoin gb (V r) (W r)) /\ ct_sep s')).
  2: { intros g' s' Hok' _ [? ?]. apply truns_ret; [done|]. by cbn [fst snd]. }
  eapply truns_mono; [apply (insert_fold (cleaves (ct_cond f)) g s2 V2 Hok Hg Hs2 (cleaves_NoDup _))|].
  { intros r c Hin%cleaves_elem. rewrite <- cflat_lookup in Hin. split; [apply (tk_known _ _ _ Hf); right; by exists c|by apply (tk_sets _ _ _ Hf r)]. }
  intros g' s' _ _ (V' & Hs' & Hsep' & Hin & Hout). split; [|auto]. eapply ct_ok_ext; [|exact Hs']. intros r. pose proof (tk_val _ _ _ Hf r) as Hw. unfold ct_at in Hw.
  destruct (decide (r ∈ lt_rows (ct_always f))) as [Hr|Hr].
  - pose proof Hr as EW. apply (always_val g f W r Hok Hf) in EW. rewrite EW, ojoin_always. assert (V2 r = Some None) as E2 by (unfold V2; by rewrite decide_True).
    destruct (cflat (ct_cond f) !! r) as [c|] eqn:Ec.
    + destruct (tk_sets _ _ _ Hf r c Ec) as (v & Hv & _). rewrite (Hin r c v), E2; [done| |done]. apply cleaves_elem. by rewrite <- cflat_lookup.
    + rewrite Hout; [done|]. intros ([r' c] & -> & Hc%cleaves_elem)%elem_of_map. cbn in Ec. by rewrite <- cflat_lookup, Ec in Hc.
  - assert (V2 r = V r) as E2 by (unfold V2; by rewrite decide_False). destruct (cflat (ct_cond f) !! r) as [c|] eqn:Ec.
    + destruct (tk_sets _ _ _ Hf r c Ec) as (v & Hv & _). rewrite (Hin r c v), E2; [|apply cleaves_elem; by rewrite <- cflat_lookup|done]. f_equal.
      symmetry. eapply (ct_at_val g f W); [done..| |exact Hv]. unfold ct_at. by rewrite decide_False.
    + rewrite Hout, E2. * destruct (W r); [done|]. by rewrite ojoin_none_r. * intros ([r' c] & -> & Hc%cleaves_elem)%elem_of_map. cbn in Ec. by rewrite <- cflat_lookup, Ec in Hc.
Qed.

(** ** Refining *)

(** What becomes of a conditional row, given what is held for its fact. *)
Definition rf (h : held) (v : dval) : held :=
  match h with Some x => if decide (cle (Some v) x) then None else Some (cjoin gb (Some v) x) | None => Some (Some v) end.
Definition refined V (T : row -> held) r : held := match V r with Some (Some v) => rf (T r) v | o => o end.

(** A leaf's fate: kept under its joined condition, dropped, or spilled. *)
Definition fate g (o : held) r (l : list (row * Cond)) (sp : list row) : Prop :=
  match o with
  | Some (Some v) => (exists c, (r, c) ∈ l /\ cond_denotes g c (Some v) /\ cwithin gb k (Some v)) /\ r ∉ sp
  | Some None => r ∈ sp /\ r ∉ map fst l
  | None => r ∉ sp /\ r ∉ map fst l
  end.

Lemma rf_within h v : owithin gb k h -> cwithin gb k (Some v) -> owithin gb k (rf h v).
Proof. destruct h as [x|]; cbn [rf]; [|done]. intros Wx Wv. destruct (decide _); [done|]. apply (ojoin_within gb k (Some (Some v)) (Some x)); done. Qed.

Lemma ret_count {X Y W} (a : X) (x y : Z) (b : Y) (d : W) : x = y -> Ret (a, x, b, d) = Ret (a, y, b, d).
Proof. by intros ->. Qed.

Section Refine.
Context (n t : trie) (N T : row -> held).

Definition held_at r : held := if decide (r ∈ lt_rows (ct_always n)) then Some None else T r.

Lemma refine_leaf_spec g removed spilled r c v : statics_ok g -> ggrows gb g -> ct_ok g n N -> ct_ok g t T -> cond_denotes g c (Some v) -> cwithin gb k (Some v) ->
  (exists g' removed' spilled' c' (keep : bool), refine_leaf (ct_always n) t (g, removed, spilled) r c = Ret (g', removed', spilled', c', keep) /\ statics_ok g' /\ ggrows g g' /\
     match rf (held_at r) v with
     | Some (Some v') => removed' = removed /\ spilled' = spilled /\ keep = true /\ cond_denotes g' c' (Some v') /\ cwithin gb k (Some v')
     | Some None => removed' = removed + 1 /\ spilled' = spilled ++ [r] /\ keep = false
     | None => removed' = removed + 1 /\ spilled' = spilled /\ keep = false
     end) \/ (refine_leaf (ct_always n) t (g, removed, spilled) r c = Panic /\ (sets_full g \/ stuck)).
Proof.
  intros Hok Hg Hn Ht Hc Wv. unfold refine_leaf. rewrite lt_contains_spec by apply Hn. cbn [mbind outcome_bind].
  assert (exists oc, (if bool_decide (r ∈ lt_rows (ct_always n)) then Ret (Some Always) else cond_at t r) = Ret oc /\ den g oc (held_at r)) as (oc & -> & Hden).
  { unfold held_at. destruct (decide (r ∈ lt_rows (ct_always n))); [rewrite bool_decide_true by done; eexists; split; [done|]; split; [constructor|done]|rewrite bool_decide_false by done].
    rewrite (cond_at_spec g t T) by done. eexists. split; [done|]. apply (tk_val _ _ _ Ht). }
  cbn [mbind outcome_bind]. destruct oc as [hc|], (held_at r) as [x|]; try done.
  2: { left. eexists g, _, _, _, _. split; [done|]. split_and!; [done|apply ggrows_refl|]. cbn [rf]. done. }
  destruct Hden as [Hx Wx]. destruct (covers_spec g hc c x (Some v) Hok Hg Hx Hc Wx Wv) as [(g1 & b & -> & Hok1 & Hg1 & ->)|(-> & Hf)]; cbn [mbind outcome_bind]; [|by right].
  cbn [rf]. destruct (decide (cle (Some v) x)) as [Hle|Hle].
  { rewrite bool_decide_true by done. left. eexists g1, _, _, _, _. by split. }
  rewrite bool_decide_false by done. destruct (join_spec g1 c hc (Some v) x) as [(g2 & [j ch] & -> & Hok2 & Hg2 & Hj & _)|(-> & Hf)]; [done|by eapply ggrows_trans|by eapply cond_denotes_grows|by eapply cond_denotes_grows|done|done| |].
  2: { right. split; [done|]. destruct Hf as [Hf|Hf]; [left; by eapply sets_full_grows|by right]. }
  cbn [mbind outcome_bind fst] in *. assert (ggrows g g2) as Hg12 by (by eapply ggrows_trans).
  pose proof (ojoin_within gb k (Some (Some v)) (Some x) Wv Wx) as Wj. cbn [ojoin owithin] in Wj. left. destruct (cjoin gb (Some v) x) as [vj|] eqn:Ej.
  - assert (is_always j = false) as -> by (inversion Hj; by apply bool_decide_eq_false). eexists g2, _, _, _, _. by split.
  - assert (is_always j = true) as -> by (inversion Hj; by apply bool_decide_eq_true). eexists g2, _, _, _, _. by split.
Qed.

Lemma refine_fold l : forall g removed spilled, statics_ok g -> ggrows gb g -> ct_ok g n N -> ct_ok g t T -> NoDup (map fst l) ->
  (forall r c, (r, c) ∈ l -> exists v, cond_denotes g c (Some v) /\ cwithin gb k (Some v)) ->
  (exists g' l' sp, retain_list (refine_leaf (ct_always n) t) (g, removed, spilled) l = Ret (g', removed + Z.of_nat (length l) - Z.of_nat (length l'), spilled ++ sp, l') /\
     (length l' <= length l)%nat /\ statics_ok g' /\ ggrows g g' /\ (forall r, r ∈ map fst l' \/ r ∈ sp -> r ∈ map fst l) /\
     (forall r c v, (r, c) ∈ l -> cond_denotes g c (Some v) -> fate g' (rf (held_at r) v) r l' sp)) \/
  (retain_list (refine_leaf (ct_always n) t) (g, removed, spilled) l = Panic /\ (sets_full g \/ stuck)).
Proof.
  induction l as [|[r0 c0] l IHl]; intros g removed spilled Hok Hg Hn Ht Hnd Hl; cbn [retain_list].
  { left. exists g, [], []. rewrite app_nil_r. split_and!; [apply ret_count; cbn; lia|done|done|apply ggrows_refl|intros r; cbn; tauto|]. by intros r c v ?%not_elem_of_nil. }
  cbn [map fst] in Hnd. apply NoDup_cons in Hnd as [Hr0 Hnd]. destruct (Hl r0 c0 (list_elem_of_here _ _)) as (v0 & Hv0 & W0).
  destruct (refine_leaf_spec g removed spilled r0 c0 v0 Hok Hg Hn Ht Hv0 W0) as [(g1 & removed1 & spilled1 & c1 & keep & -> & Hok1 & Hg1 & Hf1)|(-> & Hf)]; cbn [mbind outcome_bind]; [|by right].
  destruct (IHl g1 removed1 spilled1) as [(g2 & l2 & sp2 & -> & Hle & Hok2 & Hg2 & Hsub & Hfate)|(-> & Hf)]; [done|by eapply ggrows_trans|by eapply ct_ok_grows|by eapply ct_ok_grows|done| | |].
  { intros r c Hin. destruct (Hl r c (list_elem_of_further _ _ _ Hin)) as (v & ? & ?). exists v. split; [by eapply cond_denotes_grows|done]. }
  2: { right. split; [done|]. destruct Hf as [Hf|Hf]; [left; by eapply sets_full_grows|by right]. }
  cbn [mbind outcome_bind]. left. assert (r0 ∉ map fst l2 /\ r0 ∉ sp2) as [Hl2 Hsp2] by (split; intros Hin; apply Hr0, Hsub; [by left|by right]).
  assert (forall r c v, (r, c) ∈ (r0, c0) :: l -> cond_denotes g c (Some v) -> r = r0 /\ v = v0 \/ r <> r0 /\ fate g2 (rf (held_at r) v) r l2 sp2) as Hcases.
  { intros r c v [[= -> ->]|Hin]%elem_of_cons Hd; [left; split; [done|]; by pose proof (cond_denotes_fun Hfirst Hbound g c0 _ _ Hok Hd Hv0) as [= ->]|right].
    split; [intros ->; apply Hr0, elem_of_map; by exists (r0, c)|]. apply (Hfate r c v Hin). by eapply cond_denotes_grows. }
  destruct (rf (held_at r0) v0) as [[v'|]|] eqn:Erf.
  - destruct Hf1 as (-> & -> & -> & Hc1 & W1). exists g2, ((r0, c1) :: l2), sp2. cbn [length map fst]. split_and!; [apply ret_count; lia|lia|done|by eapply ggrows_trans| |].
    + intros r. rewrite !elem_of_cons. intros [[->|Hr]|Hr]; [by left|right; apply Hsub; by left|right; apply Hsub; by right].
    + intros r c v Hin Hd. destruct (Hcases r c v Hin Hd) as [[-> ->]|[Hne Hft]].
      * rewrite Erf. split; [|done]. exists c1. split_and!; [apply list_elem_of_here|by eapply cond_denotes_grows|done].
      * unfold fate in *. destruct (rf (held_at r) v) as [[w|]|]; cbn [map fst]; rewrite ?not_elem_of_cons.
        -- destruct Hft as [(c2 & ? & ?) ?]. split; [|done]. exists c2. split; [by apply list_elem_of_further|done].
        -- destruct Hft. done.
        -- destruct Hft. done.
  - destruct Hf1 as (-> & -> & ->). exists g2, l2, (r0 :: sp2). cbn [length map fst]. rewrite <- (assoc_L (++)). cbn [app]. split_and!; [apply ret_count; lia|lia|done|by eapply ggrows_trans| |].
    + intros r. rewrite !elem_of_cons. intros [Hr|[->|Hr]]; [right; apply Hsub; by left|by left|right; apply Hsub; by right].
    + intros r c v Hin Hd. destruct (Hcases r c v Hin Hd) as [[-> ->]|[Hne Hft]]; [rewrite Erf; split; [apply list_elem_of_here|done]|].
      unfold fate in *. destruct (rf (held_at r) v) as [[w|]|]; rewrite ?not_elem_of_cons, ?elem_of_cons; destruct Hft as [? ?]; (split; [|done]) || (split; [done|]); by auto.
  - destruct Hf1 as (-> & -> & ->). exists g2, l2, sp2. cbn [length map fst]. split_and!; [apply ret_count; lia|lia|done|by eapply ggrows_trans| |].
    + intros r Hr. apply elem_of_cons. right. by apply Hsub.
    + intros r c v Hin Hd. destruct (Hcases r c v Hin Hd) as [[-> ->]|[Hne Hft]]; [by rewrite Erf|done].
Qed.
End Refine.

Lemma spilled_fold sp : forall always : locals, lt_ok always -> lt_rows always ⊆ U -> sp ⊆ U ->
  match foldM (fun always r => '(always, _) ← lt_insert always r; Ret always) always sp with
  | Ret always' => lt_ok always' /\ forall r, r ∈ lt_rows always' <-> r ∈ lt_rows always \/ r ∈ sp
  | Panic => stuck
  | OutOfFuel => False
  end.
Proof.
  induction sp as [|r0 sp IHsp]; intros always Ha HU Hsp; cbn [foldM]; [split; [done|]; intros r; rewrite elem_of_nil; split; [by left|by intros [?|[]]]|].
  pose proof (lt_insert_spec always r0 Ha) as Hi. destruct (lt_insert always r0) as [[a1 added]| |]; cbn [mbind outcome_bind]; [|exact (lt_stuck_mono _ _ HU Hi)|done].
  destruct Hi as (Ha1 & Hadd & Hp). assert (forall r, r ∈ lt_rows a1 <-> r ∈ lt_rows always \/ r = r0) as Hin.
  { intros x. rewrite Hp. destruct added; [rewrite elem_of_cons; split; (intros [?|?]; [by right|by left])|]. symmetry in Hadd. apply bool_decide_eq_false in Hadd.
    destruct (decide (r0 ∈ lt_rows always)) as [Hr|]; [|done]. split; [by left|]. by intros [?| ->]. }
  assert (r0 ∈ U /\ sp ⊆ U) as [Hr0 Hsp'] by (split; [apply Hsp, list_elem_of_here|intros x Hx; by apply Hsp, list_elem_of_further]).
  specialize (IHsp a1 Ha1 ltac:(intros x [?| ->]%Hin; [by apply HU|done]) Hsp'). destruct (foldM _ a1 sp) as [a2| |]; [|done..]. destruct IHsp as [? IHsp]. split; [done|].
  intros r. rewrite IHsp, Hin, elem_of_cons. naive_solver.
Qed.

(** A store without conditional rows holds [Always] or nothing. *)
Lemma no_cond_val g s V r v : statics_ok g -> ct_ok g s V -> V r = Some (Some v) -> exists c, cflat (ct_cond s) !! r = Some c /\ cond_denotes g c (Some v) /\ r ∉ lt_rows (ct_always s).
Proof.
  intros Hok Hs E. pose proof (tk_val _ _ _ Hs r) as Hv. rewrite E in Hv. unfold ct_at in Hv. destruct (decide (r ∈ lt_rows (ct_always s))) as [Hr|Hr].
  - destruct Hv as [Hv _]. inversion Hv.
  - destruct (cflat (ct_cond s) !! r) as [c|]; [|done]. exists c. by destruct Hv.
Qed.

Lemma ct_refine_spec g n t N T : statics_ok g -> ggrows gb g -> ct_ok g n N -> ct_ok g t T ->
  truns g (ct_refine g n t) (fun g' n' => ct_ok g' n' (refined N T) /\ ct_sep n').
Proof.
  intros Hok Hg Hn Ht. unfold ct_refine. destruct (tk_cond _ _ _ Hn) as [Hwf Hlen]. destruct (map_is_empty (ct_cond n)) eqn:Ec.
  { apply cflat_empty_iff in Ec; [|done]. apply truns_ret; [done|]. split; [|intros r _; by rewrite Ec, lookup_empty]. eapply ct_ok_ext; [|exact Hn].
    intros r. unfold refined. destruct (N r) as [[v|]|] eqn:E; [|done..]. destruct (no_cond_val g n N r v Hok Hn E) as (c & Hc & _). by rewrite Ec, lookup_empty in Hc. }
  pose proof (retain_leaves_spec (fun _ => false) (refine_leaf (ct_always n) t) (g, 0, []) (ct_cond n) Hwf) as Hr. cbn beta iota in Hr.
  destruct (refine_fold n t N T (cleaves (ct_cond n)) g 0 [] Hok Hg Hn Ht (cleaves_NoDup _)) as [(g' & l' & sp & El & Hle & Hok' & Hg' & Hsub & Hfate)|(El & Hf)].
  { intros r c Hin%cleaves_elem. rewrite <- cflat_lookup in Hin. by apply (tk_sets _ _ _ Hn r). }
  2: { change (retain_list _ _ _) with (retain_list (refine_leaf (ct_always n) t) (g, 0, []) (cleaves (ct_cond n))) in Hr. rewrite El in Hr. rewrite Hr. by right. }
  change (retain_list _ _ _) with (retain_list (refine_leaf (ct_always n) t) (g, 0, []) (cleaves (ct_cond n))) in Hr. rewrite El in Hr. cbn [app] in Hr. destruct Hr as (m' & -> & Hp & Hwf'). cbn [mbind outcome_bind].
  unfold usize_sub. rewrite Hlen, cflat_size. destruct (Z.leb_spec (0 + Z.of_nat (length (cleaves (ct_cond n))) - Z.of_nat (length l')) (Z.of_nat (length (cleaves (ct_cond n))))); [|lia]. cbn [mbind outcome_bind].
  assert (forall r, r ∈ map fst (cleaves (ct_cond n)) -> exists c, cflat (ct_cond n) !! r = Some c /\ (r, c) ∈ cleaves (ct_cond n)) as Hkey.
  { intros r ([r' c] & -> & Hc)%elem_of_map. exists c. split; [|done]. apply cleaves_elem in Hc. by rewrite cflat_lookup. }
  assert (forall r c, (r, c) ∈ l' -> r ∈ map fst l') as Hfst by (intros r c Hin; apply elem_of_map; by exists (r, c)).
  assert (forall r c, cflat m' !! r = Some c <-> (r, c) ∈ l') as Hm' by (intros r c; by rewrite cflat_lookup, <- cleaves_elem, Hp).
  assert (sp ⊆ U) as HspU. { intros r Hr. destruct (Hkey r (Hsub r (or_intror Hr))) as (c & Hc & _). apply (tk_known _ _ _ Hn). right. by exists c. }
  pose proof (spilled_fold sp (ct_always n) (tk_always _ _ _ Hn) (known_rows g n N Hn) HspU) as Hsp.
  destruct (foldM _ (ct_always n) sp) as [always'| |]; cbn [mbind outcome_bind]; [|right; by split; [|right]|done]. destruct Hsp as [Ha' Hin].
  assert (forall r c, cflat (ct_cond n) !! r = Some c -> exists v, cond_denotes g c (Some v) /\ cwithin gb k (Some v) /\ fate g' (rf (held_at n T r) v) r l' sp) as Hfate'.
  { intros r c Hc. destruct (tk_sets _ _ _ Hn r c Hc) as (v & Hv & Wv). exists v. split_and!; [done..|]. apply (Hfate r c v); [|done]. apply cleaves_elem. by rewrite <- cflat_lookup. }
  left. eexists g', _. split_and!; [done..| |].
  - split; cbn [ct_always ct_cond ct_cond_len]; [done|split; cbn [ct_cond ct_cond_len]; [done|rewrite cflat_size, Hp; lia]| | |].
    + intros r c' Hc'%Hm'. destruct (Hkey r (Hsub r (or_introl (Hfst r c' Hc')))) as (c & Hc & _). destruct (Hfate' r c Hc) as (v & _ & _ & Hft). unfold fate in Hft.
      destruct (rf _ v) as [[v'|]|]; [|destruct Hft as [_ []]; by eapply Hfst..]. destruct Hft as [(c2 & Hc2%Hm' & Hd & Wd) _]. apply Hm' in Hc'. exists v'. split; [congruence|done].
    + intros r. unfold ct_at. cbn [ct_always ct_cond]. destruct (decide (r ∈ lt_rows (ct_always n))) as [Hr|Hr].
      { rewrite decide_True by (apply Hin; by left). apply (always_val g n N r Hok Hn) in Hr. unfold refined. rewrite Hr. split; [constructor|done]. }
      destruct (cflat (ct_cond n) !! r) as [c|] eqn:Er.
      * destruct (Hfate' r c Er) as (v & Hv & Wv & Hft). assert (N r = Some (Some v)) as EN by (eapply (ct_at_val g n N); [done..| |done]; unfold ct_at; by rewrite decide_False).
        unfold refined. rewrite EN. unfold held_at in Hft. rewrite decide_False in Hft by done. unfold fate in Hft. destruct (rf (T r) v) as [[v'|]|].
        -- destruct Hft as [(c2 & Hc2%Hm' & Hd & Wd) Hns]. rewrite decide_False by (rewrite Hin; by intros [?|?]). rewrite Hc2. done.
        -- destruct Hft as [Hs _]. rewrite decide_True by (apply Hin; by right). split; [constructor|done].
        -- destruct Hft as [Hns Hnl]. rewrite decide_False by (rewrite Hin; by intros [?|?]). destruct (cflat m' !! r) as [c'|] eqn:E'; [|done]. apply Hm' in E'. by destruct Hnl; eapply Hfst.
      * assert (N r = None) as EN. { pose proof (tk_val _ _ _ Hn r) as Hv. unfold ct_at in Hv. rewrite decide_False, Er in Hv by done. by destruct (N r). }
        unfold refined. rewrite EN. assert (r ∉ map fst (cleaves (ct_cond n))) as Hno by (intros (c & Hc & _)%Hkey; congruence).
        rewrite decide_False. 2: { rewrite Hin. intros [?|Hs]; [done|]. apply Hno, Hsub. by right. } destruct (cflat m' !! r) as [c'|] eqn:E'; [|done]. apply Hm' in E'. destruct Hno. apply Hsub. left. by eapply Hfst.
    + intros r. rewrite Hin. intros [[Hr|Hr]|[c' Hc'%Hm']]; [apply (tk_known _ _ _ Hn); by left|by apply HspU|]. destruct (Hkey r (Hsub r (or_introl (Hfst r c' Hc')))) as (c & Hc & _).
      apply (tk_known _ _ _ Hn). right. by exists c.
  - intros r. cbn [ct_always ct_cond]. rewrite Hin. intros Hr. destruct (cflat m' !! r) as [c'|] eqn:E'; [|done]. exfalso. apply Hm' in E'.
    destruct (Hkey r (Hsub r (or_introl (Hfst r c' E')))) as (c & Hc & _). destruct (Hfate' r c Hc) as (v & _ & _ & Hft). unfold fate, held_at in Hft. destruct Hr as [Hr|Hr].
    + rewrite decide_True in Hft by done. cbn [rf] in Hft. rewrite decide_True in Hft by done. destruct Hft as [_ []]. by eapply Hfst.
    + destruct (rf _ v) as [[v'|]|]; destruct Hft as [H1' H2']; [done|by destruct H2'; eapply Hfst|done].
Qed.

(** The merge of a round: [delta] joins [total], and [new], refined, becomes [delta]. *)
Lemma ct_merge_spec g n d t N D T : statics_ok g -> ggrows gb g -> ct_ok g n N -> ct_ok g d D -> ct_ok g t T -> ct_sep t ->
  truns g (ct_merge g n d t) (fun g' y => let '(n', d', t') := y in n' = ct_default /\
    ct_ok g' d' (refined N (fun r => ojoin gb (T r) (D r))) /\ ct_sep d' /\ ct_ok g' t' (fun r => ojoin gb (T r) (D r)) /\ ct_sep t').
Proof.
  intros Hok Hg Hn Hd Ht Hsep. unfold ct_merge. eapply truns_bind; [by apply (ct_absorb_spec g t d T D)|]. intros g1 [t' d0] Hok1 Hg1 (Ht' & Hsep' & Ed). cbn [fst snd] in *. subst d0. cbn beta iota.
  assert (ct_ok g1 n N) as Hn1 by (by eapply ct_ok_grows). eapply truns_bind; [apply (ct_refine_spec g1 n t' N (fun r => ojoin gb (T r) (D r)) Hok1); [by eapply ggrows_trans|done|done]|].
  intros g2 n' Hok2 Hg2 [Hn' Hsepn]. cbn beta iota. apply truns_ret; [done|]. split_and!; [done..|by eapply ct_ok_grows|done].
Qed.

Ltac grow := first [eapply ct_ok_grows|eapply cond_denotes_grows]; [|eassumption]; done.

(** ** Rounds *)

Lemma contains_key_spec g s V r c x : statics_ok g -> ggrows gb g -> ct_ok g s V -> cond_denotes g c x -> cwithin gb k x ->
  truns g (ct_contains_key g s (r, c)) (fun g' b => b = bool_decide (ole (Some x) (V r))).
Proof.
  intros Hok Hg Hs Hc Wx. unfold ct_contains_key. cbn [fst snd]. rewrite (cond_at_spec g s V) by done. cbn [mbind outcome_bind]. pose proof (tk_val _ _ _ Hs r) as Hv.
  destruct (ct_at s r) as [hc|], (V r) as [y|]; try done.
  - destruct Hv as [Hy Wy]. eapply truns_mono; [by apply (covers_spec g hc c y x)|]. intros g' b _ _ ->. done.
  - apply truns_ret; [done|]. symmetry. apply bool_decide_eq_false. by intros [].
Qed.

(** The join of what is held with the conditions derived. *)
Definition joins (o : held) (vs : list (row * option dval)) r : held := foldl (fun o e => if decide (e.1 = r) then ojoin gb o (Some e.2) else o) o vs.

(** The rows a round derives and what their conditions denote. *)
Definition derived g (rows : list (row * Cond)) (vs : list (row * option dval)) : Prop :=
  Forall2 (fun rc e => rc.1 = e.1 /\ cond_denotes g rc.2 e.2 /\ cwithin gb k e.2 /\ rc.1 ∈ U) rows vs.

(** [delta] against [total]: the facts whose condition changed, with all of it. *)
Definition changes (T C : row -> held) : row -> held := fun r => if decide (C r = T r) then None else C r.

(** During a round: [total] holds [T], [total] and [delta] together hold [C], and with [new] they hold [M]. *)
Record mid g (st : CondRelation K1 K2 P A B S1 S2) (N T C M : row -> held) : Prop := {
  md_new : ct_ok g (cr_new st) N;
  md_delta : ct_ok g (cr_delta st) (changes T C);
  md_total : ct_ok g (cr_total st) T;
  md_sep : ct_sep (cr_total st);
  md_within : forall r, owithin gb k (C r);
  md_le : forall r, ole (T r) (C r);
  md_join : forall r, ojoin gb (C r) (N r) = M r;
  md_always : forall r, N r = Some None -> C r <> Some None
}.

Lemma mid_grows g g' st N T C M : ggrows g g' -> mid g st N T C M -> mid g' st N T C M.
Proof. intros Hg []. split; try done; grow. Qed.

Lemma cond_derive_spec g st N T C M r c x : statics_ok g -> ggrows gb g -> mid g st N T C M -> cond_denotes g c x -> cwithin gb k x -> r ∈ U ->
  truns g (cond_derive (g, st) (r, c)) (fun g' st' => exists N', mid g' st' N' T C (upd M r (ojoin gb (M r) (Some x)))).
Proof.
  intros Hok Hg Hm Hc Wx HU. pose proof Hm as [Hn Hd Ht Hsep WC Hle HM HA].
  assert (forall r, owithin gb k (N r)) as WN by (intros; by eapply ct_ok_within). assert (owithin gb k (M r)) as WM by (rewrite <- HM; by apply ojoin_within).
  assert (ole (Some x) (C r) -> forall r', M r' = upd M r (ojoin gb (M r) (Some x)) r') as Hskip.
  { intros Hx. apply upd_id. symmetry. apply (ojoin_absorbs gb k); [done|done|]. rewrite <- HM. eapply ole_trans; [done|]. by apply (ojoin_lub gb k). }
  assert (forall g', ggrows g g' -> ole (Some x) (C r) -> exists N', mid g' st N' T C (upd M r (ojoin gb (M r) (Some x)))) as Hret.
  { intros g' Hg' Hx. exists N. destruct (mid_grows g g' st N T C M Hg' Hm) as [? ? ? ? ? ? HM' ?]. split; try done. intros r'. by rewrite HM', <- Hskip. }
  unfold cond_derive. eapply truns_bind; [by apply (contains_key_spec g (cr_total st) T r c x)|]. intros g1 b Hok1 Hg1 Hb. cbn beta iota. destruct b.
  { symmetry in Hb. apply bool_decide_eq_true in Hb. apply truns_ret; [done|]. apply Hret; [done|]. by eapply ole_trans. }
  symmetry in Hb. apply bool_decide_eq_false in Hb. assert (ggrows gb g1) as Hgb1 by (by eapply ggrows_trans). assert (cond_denotes g1 c x) as Hc1 by (grow).
  eapply truns_bind; [apply (contains_key_spec g1 (cr_delta st) (changes T C) r c x); [done|done|grow|done|done]|]. intros g2 b Hok2 Hg2 Hb2. cbn beta iota. destruct b.
  { symmetry in Hb2. apply bool_decide_eq_true in Hb2. apply truns_ret; [done|]. apply Hret; [by eapply ggrows_trans|]. unfold changes in Hb2. by destruct (decide (C r = T r)). }
  symmetry in Hb2. apply bool_decide_eq_false in Hb2. assert (~ ole (Some x) (C r)) as Hnot by (unfold changes in Hb2; destruct (decide (C r = T r)) as [->|]; done).
  assert (ggrows g g2) as Hg02 by (by eapply ggrows_trans). eapply truns_bind; [apply (ct_insert_spec g2 (cr_new st) N r c x); [done|by eapply ggrows_trans|grow|done|grow|done]|].
  intros g3 [n' added] Hok3 Hg3 (Hn' & _). cbn [fst] in Hn'. cbn beta iota. apply truns_ret; [done|]. exists (upd N r (ojoin gb (N r) (Some x))).
  assert (ggrows g g3) as Hg03 by (by eapply ggrows_trans). split; cbn [cr_new cr_delta cr_total]; try done; [grow..| |].
  - intros r'. unfold upd. destruct (decide (r = r')) as [<-|]; [|done]. by rewrite <- (ojoin_assoc gb k), HM by auto.
  - intros r'. unfold upd. destruct (decide (r = r')) as [<-|]; [|apply HA]. intros _ E. apply Hnot. rewrite E. by destruct x.
Qed.

Lemma derived_grows g g' rows vs : ggrows g g' -> derived g rows vs -> derived g' rows vs.
Proof. intros Hg Hd. eapply Forall2_impl; [exact Hd|]. intros rc e (? & ? & ? & ?). split_and!; [done|grow|done|done]. Qed.

Lemma cond_derive_fold rows : forall vs g st N T C M, statics_ok g -> ggrows gb g -> mid g st N T C M -> derived g rows vs ->
  truns g (foldM cond_derive (g, st) rows) (fun g' st' => exists N', mid g' st' N' T C (fun r => joins (M r) vs r)).
Proof.
  induction rows as [|[r c] rows IHr]; intros vs g st N T C M Hok Hg Hm Hd; inversion Hd as [|? [r' x] ? vs' (Er & Hx & Wx & HU) Hd']; subst; cbn [fst snd] in *.
  { apply truns_ret; [done|]. by exists N. }
  subst r'. change (foldM cond_derive (g, st) ((r, c) :: rows)) with (cond_derive (g, st) (r, c) ≫= (fun b => foldM cond_derive b rows)).
  eapply truns_bind; [by apply (cond_derive_spec g st N T C M r c x)|]. intros g1 st1 Hok1 Hg1 [N1 Hm1].
  eapply truns_mono; [apply (IHr vs' g1 st1 N1 T C _ Hok1 ltac:(by eapply ggrows_trans) Hm1); by eapply derived_grows|]. intros g2 st2 _ _ [N2 Hm2]. exists N2.
  destruct Hm2. split; try done. intros r'. rewrite md_join0. unfold joins, upd. cbn [foldl fst snd]. by destruct (decide (r = r')) as [<-|].
Qed.

Lemma refined_changes (N C M : row -> held) r : owithin gb k (N r) -> owithin gb k (C r) -> ojoin gb (C r) (N r) = M r -> (N r = Some None -> C r <> Some None) ->
  refined N C r = changes C M r.
Proof.
  intros WN WC HM HA. unfold refined, changes. rewrite <- HM. destruct (N r) as [[v|]|].
  - destruct (C r) as [t|] eqn:EC; cbn [rf ojoin]; [|by rewrite decide_False]. pose proof (ojoin_absorbs gb k (Some t) (Some (Some v)) WC WN) as Habs. cbn [ojoin ole] in Habs.
    destruct (decide (cle (Some v) t)) as [Hle|Hle]; [rewrite decide_True by (by apply Habs); done|]. rewrite decide_False by (by rewrite Habs).
    apply (ojoin_comm gb k (Some (Some v)) (Some t)); done.
  - rewrite ojoin_always. rewrite decide_False; [done|]. intros E. by apply (HA eq_refl).
  - rewrite ojoin_none_r. by rewrite decide_True.
Qed.

Lemma cond_round_spec rows vs g st T C : statics_ok g -> ggrows gb g -> mid g st (fun _ => None) T C C -> derived g rows vs ->
  truns g (cond_round (g, st) rows) (fun g' st' => let M := fun r => joins (C r) vs r in
    mid g' st' (fun _ => None) C M M /\ cr_new st' = ct_default /\ ct_sep (cr_delta st')).
Proof.
  intros Hok Hg Hm Hd. unfold cond_round. eapply truns_bind; [by apply (cond_derive_fold rows vs g st (fun _ => None) T C C)|]. intros g1 st1 Hok1 Hg1 [N [Hn Hdl Ht Hsep WC Hle HM HA]]. cbn beta iota.
  eapply truns_bind; [apply (ct_merge_spec g1 (cr_new st1) (cr_delta st1) (cr_total st1) N (changes T C) T); [done|by eapply ggrows_trans|done..]|].
  intros g2 [[n' d'] t'] Hok2 Hg2 (En & Hd2 & Hsepd & Ht2 & Hsept). subst n'. cbn beta iota. apply truns_ret; [done|].
  assert (forall r, owithin gb k (N r)) as WN by (intros; by eapply ct_ok_within). assert (forall r, owithin gb k (T r)) as WT by (intros; by eapply (ct_ok_within g1)).
  assert (forall r, ojoin gb (T r) (changes T C r) = C r) as HC.
  { intros r. unfold changes. destruct (decide (C r = T r)) as [->|]; [apply ojoin_none_r|]. rewrite (ojoin_comm gb k) by done. by apply (ojoin_absorbs gb k). }
  split; [split|]; cbn [cr_new cr_delta cr_total]; try done.
  - apply ct_default_ok.
  - eapply ct_ok_ext; [|exact Hd2]. intros r. unfold refined. rewrite HC. fold (refined N C r). apply refined_changes; [done|done|by rewrite HM|apply HA].
  - eapply ct_ok_ext; [|exact Ht2]. done.
  - intros r. rewrite <- HM. by apply ojoin_within.
  - intros r. rewrite <- HM. by apply (ojoin_lub gb k).
  - intros r. apply ojoin_none_r.
Qed.

Lemma joins_app o vs vs' r : joins o (vs ++ vs') r = joins (joins o vs r) vs' r.
Proof. unfold joins. apply foldl_app. Qed.

(** After rounds, [total] and [delta] together hold the join of the conditions derived. *)
Lemma cond_rounds_spec rounds : forall vss g st T C, statics_ok g -> ggrows gb g -> mid g st (fun _ => None) T C C -> Forall2 (derived g) rounds vss ->
  truns g (foldM cond_round (g, st) rounds) (fun g' st' => exists T' C', mid g' st' (fun _ => None) T' C' C' /\ forall r, C' r = joins (C r) (concat vss) r).
Proof.
  induction rounds as [|rows rounds IHr]; intros vss g st T C Hok Hg Hm Hd; inversion Hd as [|? vs ? vss' Hd1 Hd']; subst.
  { apply truns_ret; [done|]. by exists T, C. }
  change (foldM cond_round (g, st) (rows :: rounds)) with (cond_round (g, st) rows ≫= (fun b => foldM cond_round b rounds)).
  eapply truns_bind; [by apply (cond_round_spec rows vs g st T C)|]. intros g1 st1 Hok1 Hg1 (Hm1 & _). cbn zeta in Hm1.
  eapply truns_mono; [apply (IHr vss' g1 st1 C _ Hok1 ltac:(by eapply ggrows_trans) Hm1)|].
  { eapply Forall2_impl; [exact Hd'|]. intros. by eapply derived_grows. }
  intros g2 st2 _ _ (T' & C' & Hm2 & HC). exists T', C'. split; [done|]. intros r. rewrite HC. cbn [concat]. by rewrite joins_app.
Qed.
End Spec.

(** ** Relations over hybrid sets *)

Section Hybrid.
Context {St : Type} `{IH : IdHandle (list Z) St}.
Context (Heqb : forall a b : list Z, ih_eqb a b = true <-> a = b) (Hfirst : FIRST_INTERNED <= ih_first) (Hbound : ih_bound <= 2 ^ 31).
Context {K1 K2 P A B : Type} `{Countable K1, Countable K2, Countable P, Countable A, Countable B, Allocator}.
Context `{Layout (P * A * B), Layout (A * B), Hasher (P * A * B), Hasher (A * B)}.
#[local] Notation row := (K1 * K2 * P * A * B)%type.
#[local] Notation S1 := (HybridSet (P * A * B)).
#[local] Notation S2 := (HybridSet (A * B)).
#[local] Notation trie := (CondTrie K1 K2 P A B S1 S2).
#[local] Notation statics := (Statics St).

(** The rows of a round and what their conditions denote. *)
Definition denote_rows (gb : statics) (k : bool) (rows : list (row * Cond)) (vs : list (row * option dval)) : Prop :=
  Forall2 (fun rc e => rc.1 = e.1 /\ cond_denotes gb rc.2 e.2 /\ cwithin gb k e.2) rows vs.

(** The store holds the conditions [o], and its length, rows and indices agree. *)
Definition store_is (gb : statics) (k : bool) (g : statics) (s : trie) (o : row -> option (option dval)) : Prop :=
  exists facts, ct_rows s = Ret facts /\ NoDup (map fst facts) /\ ct_len s = Z.of_nat (length facts) /\
    (forall r, exists oc, cond_at s r = Ret oc /\ den gb k g oc (o r) /\ forall c, (r, c) ∈ facts <-> oc = Some c) /\
    (forall key, exists l, ct_group s key = Ret l /\ index_get_ok facts fact_key fact_leaf key l) /\
    (forall key, exists l, ct_get s key = Ret l /\ index_get_ok facts fact_path fact_rest key l) /\
    (exists out, ct_iter_groups s = Ret out /\ index_all_ok facts fact_key fact_leaf out) /\
    (exists out, ct_iter_by_path s = Ret out /\ index_all_ok facts fact_path fact_rest out).

Lemma ct_ok_store gb k U g s V : ct_ok gb k U g s V -> ct_sep s -> store_is gb k g s V.
Proof.
  intros Hs Hsep. pose proof (tk_always _ _ _ _ _ _ Hs) as Ha. pose proof (tk_cond _ _ _ _ _ _ Hs) as Hc.
  assert (forall r c, (r, c) ∈ ct_facts s <-> ct_at s r = Some c) as Hfacts.
  { intros r c. unfold ct_facts, ct_at, always_facts. rewrite elem_of_app, elem_of_map, cleaves_elem, <- cflat_lookup. destruct (decide (r ∈ lt_rows (ct_always s))) as [Hr|Hr].
    - rewrite (Hsep r Hr). split; [|intros [= <-]; left; by exists r]. by intros [(r' & [= -> ->] & _)|?].
    - split; [intros [(r' & [= -> ->] & ?)|?]; done|by right]. }
  exists (ct_facts s). split_and!.
  - by apply ct_rows_spec.
  - unfold ct_facts, always_facts. rewrite map_app, map_map. cbn [fst]. rewrite map_id. apply NoDup_app. split_and!; [by apply lt_rows_NoDup| |apply cleaves_NoDup].
    intros r Hr ([r' c] & -> & Hin%cleaves_elem)%elem_of_map. cbn [fst] in Hr. rewrite <- cflat_lookup, (Hsep r' Hr) in Hin. done.
  - by apply ct_len_spec.
  - intros r. exists (ct_at s r). split; [by apply (cond_at_spec gb k U g s V)|]. split; [apply (tk_val _ _ _ _ _ _ Hs)|]. intros c. apply Hfacts.
  - intros key. by apply ct_group_spec.
  - intros key. by apply ct_get_spec.
  - by apply ct_iter_groups_spec.
  - by apply ct_iter_by_path_spec.
Qed.

Lemma denote_rows_derived gb k U rows vs : denote_rows gb k rows vs -> map fst rows ⊆ U -> derived gb k U gb rows vs.
Proof.
  intros Hd. induction Hd as [|rc e rows vs (E & Hc & Hw) _ IHd]; intros Hsub; constructor.
  - split_and!; [done..|]. apply Hsub. apply list_elem_of_here.
  - apply IHd. intros r Hr. apply Hsub. by apply list_elem_of_further.
Qed.

Definition cond_relation_default : CondRelation K1 K2 P A B S1 S2 := mk_cond_relation ct_default ct_default ct_default.

Lemma mid_default gb k U g : mid gb k U g cond_relation_default (fun _ => None) (fun _ => None) (fun _ => None) (fun _ => None).
Proof.
  destruct (ct_default_ok gb k U g (K1 := K1) (K2 := K2) (S1 := S1) (S2 := S2)) as [Hok Hsep]. split; cbn [cr_new cr_delta cr_total cond_relation_default]; try done.
Qed.

End Hybrid.

(** ** The seed rows of [assign] *)

Section Seeds.
Context {T0 T1 T2 T3 T4 S1 S2 : Type} `{Countable T0, Countable T1, Countable T2, Countable T3, Countable T4}.
Context `{SetOps (T4 * T1 * T2) S1, SetOps (T1 * T2) S2, !SetLaws (T4 * T1 * T2) S1, !SetLaws (T1 * T2) S2}.
#[local] Notation row := (T0 * T1 * T2 * T3 * T4)%type.
#[local] Notation store := (CondTrie T0 T3 T4 T1 T2 S1 S2).

Lemma assign_edge_row (r : row) : assign_edge (assign_row r) = r.
Proof. by destruct r as [[[[]]]]. Qed.
Lemma assign_row_edge (r : T0 * T3 * T4 * T1 * T2) : assign_row (assign_edge r) = r.
Proof. by destruct r as [[[[]]]]. Qed.

Lemma from_rows_fold (rows : list row) : forall s : store, lt_ok (ct_always s) ->
  match foldM (fun store r => '(always, _) ← lt_insert (ct_always store) (assign_row r); Ret (mk_trie always (ct_cond store) (ct_cond_len store))) s rows with
  | Ret s' => lt_ok (ct_always s') /\ ct_cond s' = ct_cond s /\ ct_cond_len s' = ct_cond_len s /\
      forall r, r ∈ lt_rows (ct_always s') <-> r ∈ lt_rows (ct_always s) \/ assign_edge r ∈ rows
  | Panic => lt_stuck (S1 := S1) (S2 := S2) (lt_rows (ct_always s) ++ map assign_row rows)
  | OutOfFuel => False
  end.
Proof.
  induction rows as [|r0 rows IHr]; intros s Hs; cbn [foldM]; [split_and!; [done..|]; intros r; rewrite elem_of_nil; tauto|].
  pose proof (lt_insert_spec (ct_always s) (assign_row r0) Hs) as Hi. destruct (lt_insert (ct_always s) (assign_row r0)) as [[a added]| |]; cbn [mbind outcome_bind]; [| |done].
  2: { eapply lt_stuck_mono; [|exact Hi]. intros r Hr. apply elem_of_app. by left. }
  destruct Hi as (Ha & Hadd & Hp). assert (forall r, r ∈ lt_rows a <-> r ∈ lt_rows (ct_always s) \/ r = assign_row r0) as Hin.
  { intros r. rewrite Hp. destruct added; [rewrite elem_of_cons; tauto|]. symmetry in Hadd. apply bool_decide_eq_false in Hadd.
    destruct (decide (assign_row r0 ∈ lt_rows (ct_always s))) as [Hr|]; [|done]. split; [by left|]. by intros [?| ->]. }
  specialize (IHr (mk_trie a (ct_cond s) (ct_cond_len s)) Ha). cbn [ct_always ct_cond ct_cond_len] in IHr. destruct (foldM _ _ rows) as [s'| |]; [| |done].
  - destruct IHr as (? & ? & ? & IHr). split_and!; [done..|]. intros r. rewrite IHr, Hin, elem_of_cons. 
    assert (r = assign_row r0 <-> assign_edge r = r0) as E by (split; [intros ->; apply assign_edge_row|intros <-; by rewrite assign_row_edge]). rewrite E. tauto.
  - eapply lt_stuck_mono; [|exact IHr]. intros r. cbn [map]. rewrite !elem_of_app, elem_of_cons, Hin. tauto.
Qed.

Lemma into_always_vec_spec (s : store) : lt_ok (ct_always s) -> assign_into_always_vec s = Ret (map assign_edge (lt_rows (ct_always s))).
Proof.
  intros [Hs _]. unfold assign_into_always_vec, lt_rows, fwd_rows.
  assert (Forall (fun e => pg_ok e.2) (map_to_list (fwd (ct_always s)))) as Hall by (apply Forall_forall; intros [fv g] Hin%elem_of_map_to_list; by apply (Hs fv g)).
  assert (forall l out, Forall (fun e : T0 * T3 * PathGroup T4 S1 S2 => pg_ok e.2) l ->
    foldM (fun out '((f, vs), group) => pg_for (fun out '(ps, vd, pd) => Ret (out ++ [(f, vd, pd, vs, ps)])) out group) out l =
    Ret (out ++ map assign_edge (l ≫= (fun '(fv, g) => map (row_at fv) (pg_leaves g))))) as Hf; [|by rewrite Hf].
  clear. induction l as [|[[f vs] g] l IHl]; intros out Hl; [by rewrite app_nil_r|]. apply Forall_cons in Hl as [Hg Hl]. cbn [foldM mbind list_bind snd] in *. rewrite pg_for_spec by done.
  assert (forall ls out, foldM (fun out '(ps, vd, pd) => Ret (out ++ [(f, vd, pd, vs, ps)])) out ls = Ret (out ++ map assign_edge (map (row_at (f, vs)) ls))) as ->.
  { clear. induction ls as [|[[ps vd] pd] ls IHl]; intros out; cbn [foldM map]; [by rewrite app_nil_r|]. rewrite IHl, <- (assoc_L (++)). done. }
  rewrite IHl by done. by rewrite map_app, (assoc_L (++)).
Qed.
End Seeds.

Section SeedsHybrid.
Context {T0 T1 T2 T3 T4 : Type} `{Countable T0, Countable T1, Countable T2, Countable T3, Countable T4, Allocator}.
Context `{Layout (T4 * T1 * T2), Layout (T1 * T2), Hasher (T4 * T1 * T2), Hasher (T1 * T2)}.
#[local] Notation row := (T0 * T1 * T2 * T3 * T4)%type.

(** The seed rows of [assign_like] go into a store grouped on the source of the edge and come back.  [from_rows] of fewer
    than 2^28 rows returns; the length is the number of distinct rows; the rows read back, in the order of the relation's columns, are
    the distinct rows, each once and under [Always]; and [into_always_vec] returns them. *)
Theorem assign_rows_roundtrip (rows : list row) (Hmem1 : memory_suffices (T := T4 * T1 * T2) SMALL_THRESHOLD) (Hmem2 : memory_suffices (T := T1 * T2) SMALL_THRESHOLD)
    (Hsize : Z.of_nat (length rows) < 2 ^ 28) :
  exists (s : CondTrie T0 T3 T4 T1 T2 (HybridSet (T4 * T1 * T2)) (HybridSet (T1 * T2))) out l, assign_from_rows rows = Ret s /\
    ct_len s = Z.of_nat (length (remove_dups rows)) /\ assign_into_always_vec s = Ret out /\ out ≡ₚ remove_dups rows /\
    assign_rows s = Ret l /\ l ≡ₚ map (fun r => (r, Always)) (remove_dups rows).
Proof.
  destruct (lt_default_ok (F := T0) (V := T3) (S1 := HybridSet (T4 * T1 * T2)) (S2 := HybridSet (T1 * T2))) as [Hd Ed].
  pose proof (from_rows_fold rows (ct_default : CondTrie T0 T3 T4 T1 T2 (HybridSet (T4 * T1 * T2)) (HybridSet (T1 * T2))) Hd) as Hf. unfold assign_from_rows.
  destruct (foldM _ _ rows) as [s| |]; [| |done].
  2: { exfalso. eapply (hybrid_store_not_stuck _ Hmem1 Hmem2); [|exact Hf]. cbn [ct_always ct_default]. by rewrite Ed, app_nil_l, length_map. }
  destruct Hf as (Hs & Ec & El & Hin). cbn [ct_cond ct_cond_len ct_always ct_default] in *. rewrite Ed in Hin.
  assert (map assign_edge (lt_rows (ct_always s)) ≡ₚ remove_dups rows) as Hp.
  { apply NoDup_Permutation; [|apply NoDup_remove_dups|].
    - apply (NoDup_fmap_2_strong assign_edge); [|by apply lt_rows_NoDup]. intros x y _ _ E. by rewrite <- (assign_row_edge x), E, assign_row_edge.
    - intros r. rewrite elem_of_remove_dups, elem_of_map. split.
      + intros (r' & -> & [?%not_elem_of_nil|?]%Hin); done.
      + intros Hr. exists (assign_row r). rewrite Hin, assign_edge_row. split; [done|by right]. }
  exists s, (map assign_edge (lt_rows (ct_always s))). eexists. split_and!; [done| |by apply into_always_vec_spec|done|unfold assign_rows; by rewrite ct_rows_spec by done|].
  - unfold ct_len. rewrite El, (lk_len _ Hs), <- Hp, length_map. lia.
  - unfold ct_facts, cleaves, always_facts. rewrite Ec, map_to_list_empty. cbn [mbind list_bind]. rewrite app_nil_r, map_map, <- Hp, map_map. done.
Qed.
End SeedsHybrid.

(** ** Witnesses *)

Import Sets_.
#[local] Existing Instances any_block.
#[local] Instance leaf_layout : Layout (Z * Z * Z) := {| size_of := 24; align_of := 8; needs_drop := false |}.
#[local] Instance rest_layout : Layout (Z * Z) := {| size_of := 16; align_of := 8; needs_drop := false |}.
#[local] Instance leaf_hasher : Hasher (Z * Z * Z).
Proof. exists (fun '(p, a, b) => word_hash (p + 31 * a + 997 * b)). intros [[p a] b]. apply word_hash_range. Defined.
#[local] Instance rest_hasher : Hasher (Z * Z).
Proof. exists (fun '(a, b) => word_hash (31 * a + 997 * b)). intros [a b]. apply word_hash_range. Defined.

Definition fact1 : Z * Z * Z * Z * Z := (1, 1, 7, 0, 5).
Definition fact2 : Z * Z * Z * Z * Z := (1, 2, 7, 0, 5).

Definition demo_before : list (Z * Z * Z * Z * Z * option dval) := concat [[(fact1, Some (DSet false {[ 1; 3 ]}))]].
Definition demo_after : list (Z * Z * Z * Z * Z * option dval) := concat ([[(fact1, Some (DSet false {[ 1; 3 ]}))]] ++ [[(fact1, Some (DSet false {[ 2; 3 ]})); (fact2, None)]]).

Lemma demo_joins (g : Statics Sets_.St) : g_widen_bound g = 4 -> g_spill g = false ->
  joins g None demo_after fact1 = Some (Some (DSet false ({[ 1; 3 ]} ∪ {[ 2; 3 ]}))) /\ joins g None demo_after fact2 = Some None.
Proof.
  intros Eb Es. unfold joins, demo_after. cbn [foldl concat app fst snd]. rewrite !(decide_True (P := fact1 = fact1)), (decide_True (P := fact2 = fact2)), !(decide_False (P := fact1 = fact2)), !(decide_False (P := fact2 = fact1)) by (reflexivity || discriminate). split; [|done].
  cbn [ojoin cjoin djoin]. rewrite Eb, decide_False; [done|]. intros [_ Hlt]. vm_compute in Hlt. discriminate.
Qed.

Lemma demo_delta (g : Statics Sets_.St) : g_widen_bound g = 4 -> g_spill g = false ->
  changes (fun r => joins g None demo_before r) (fun r => joins g None demo_after r) fact1 = Some (Some (DSet false ({[ 1; 3 ]} ∪ {[ 2; 3 ]}))).
Proof.
  intros Eb Es. unfold changes. rewrite (proj1 (demo_joins g Eb Es)). rewrite decide_False; [done|].
  assert (bool_decide (Some (Some (DSet false ({[ 1; 3 ]} ∪ {[ 2; 3 ]}))) = Some (Some (DSet false {[ 1; 3 ]}))) = false) as H by (vm_compute; reflexivity). by apply bool_decide_eq_false in H.
Qed.


Lemma assign_rows_roundtrip_witness : exists (s : CondTrie Z Z Z Z Z (HybridSet (Z * Z * Z)) (HybridSet (Z * Z))) out,
  assign_from_rows [fact1; fact2; fact1] = Ret s /\ ct_len s = 2 /\ assign_into_always_vec s = Ret out /\ out ≡ₚ [fact2; fact1].
Proof.
  destruct (assign_rows_roundtrip [fact1; fact2; fact1]) as (s & out & l & E & El & Eo & Hp & _);
    [apply any_memory_suffices; [done|done|by exists 3]|apply any_memory_suffices; [done|done|by exists 2]|reflexivity|].
  exists s, out. split; [exact E|]. split; [exact El|]. split; [exact Eo|exact Hp].
Defined.
