(* ===== verification/IR.v ===== *)
(** * IR: the CTADL intermediate representation ([ctadl-ir/src/cir])

    The data types of [cir/mod.rs], [cir/call.rs] and [cir/terminator.rs], the constructors that
    keep access paths in normal form, the read and write sets of statements that every pass
    uses, and the interning tables for locals and globals.

    Indices ([BasicBlockIdx], [LocalIdx], ...) are naturals: the [u32] bound of [newtype_index!]
    is not modelled.  [SmallVec], [ThinVec], [IndexVec] and [IndexVecDeque] are lists. *)

From S2P Require Import Prelude Text Path.

#[global] Arguments concat : simpl never.
#[global] Arguments normalize : simpl never.

(** ** Variables *)

Inductive Var : Type :=
| Variable_Global (idx : nat)
| Variable_Local (idx : nat)
| Variable_Param (idx : nat).

#[export] Instance Var_eq_dec : EqDecision Var.
Proof. solve_decision. Defined.

#[export] Instance Var_countable : Countable Var.
Proof.
  refine (inj_countable'
    (fun v => match v with
              | Variable_Global i => inl i | Variable_Local i => inr (inl i)
              | Variable_Param i => inr (inr i) end)
    (fun t => match t with
              | inl i => Variable_Global i | inr (inl i) => Variable_Local i
              | inr (inr i) => Variable_Param i end) _).
  by intros [].
Defined.

Definition is_global (v : Var) : bool :=
  match v with Variable_Global _ => true | _ => false end.
Definition is_local (v : Var) : bool :=
  match v with Variable_Local _ => true | _ => false end.

Record VariableRef : Type := { variable : Var; version : option nat }.

#[export] Instance VariableRef_eq_dec : EqDecision VariableRef.
Proof. solve_decision. Defined.

#[export] Instance VariableRef_countable : Countable VariableRef.
Proof.
  refine (inj_countable' (fun v => (variable v, version v))
            (fun p => {| variable := p.1; version := p.2 |}) _).
  by intros [].
Defined.

Definition VariableRef_new (v : Var) : VariableRef := {| variable := v; version := None |}.
Definition new_local_idx (idx : nat) : VariableRef := VariableRef_new (Variable_Local idx).
Definition global_ref (idx : nat) : VariableRef := VariableRef_new (Variable_Global idx).
Definition new_parameter (idx : nat) : VariableRef := VariableRef_new (Variable_Param idx).
Definition with_version (v : VariableRef) (n : nat) : VariableRef :=
  {| variable := variable v; version := Some n |}.

(** ** Access paths *)

Record AccessPath : Type := { base : VariableRef; segments : path }.

#[export] Instance AccessPath_eq_dec : EqDecision AccessPath.
Proof. solve_decision. Defined.

Definition AccessPath_new (b : VariableRef) (segs : path) : AccessPath :=
  {| base := b; segments := normalize segs |}.

Definition is_pathless (ap : AccessPath) : bool := bool_decide (segments ap = []).
Definition class (ap : AccessPath) : PathClass := classify (segments ap).

Definition ap_extend (ap : AccessPath) (segs : path) : AccessPath :=
  {| base := base ap; segments := foldl push_normalized (segments ap) segs |}.
Definition ap_push (ap : AccessPath) (seg : PathSegment) : AccessPath := ap_extend ap [seg].

(** [From<VariableRef> for AccessPath]. *)
Definition ap_of_var (v : VariableRef) : AccessPath := AccessPath_new v [].

Definition ap_set_base (ap : AccessPath) (v : VariableRef) : AccessPath :=
  {| base := v; segments := segments ap |}.

(** ** Calls *)

Inductive JavaDispatch : Type := Dispatch_Virtual | Dispatch_Interface | Dispatch_Super | Dispatch_Unknown.
#[export] Instance JavaDispatch_eq_dec : EqDecision JavaDispatch.
Proof. solve_decision. Defined.

Inductive CallEdges : Type := Explicit (names : list string).
#[export] Instance CallEdges_eq_dec : EqDecision CallEdges.
Proof. solve_decision. Defined.

Inductive CallStyle : Type :=
| Unknown
| DirectCall (call_edges : CallEdges)
| FuncPtrCall (callee : AccessPath) (signature : option string)
| JavaCall (receiver : VariableRef) (cls simple_name descriptor : string)
    (dispatch : JavaDispatch) (super_start : option string)
| LuaCall (receiver : VariableRef) (method : string)
| CilCall (receiver : VariableRef) (cls simple_name descriptor : string).
#[export] Instance CallStyle_eq_dec : EqDecision CallStyle.
Proof. solve_decision. Defined.

Definition receiver (style : CallStyle) : option VariableRef :=
  match style with
  | JavaCall r _ _ _ _ _ => Some r
  | LuaCall r _ => Some r
  | CilCall r _ _ _ => Some r
  | FuncPtrCall callee _ => Some (base callee)
  | _ => None
  end.

(** [receiver_mut], with what the caller does to the receiver as a function. *)
Definition map_receiver (f : VariableRef -> VariableRef) (style : CallStyle) : CallStyle :=
  match style with
  | JavaCall r c n d k s => JavaCall (f r) c n d k s
  | LuaCall r m => LuaCall (f r) m
  | CilCall r c n d => CilCall (f r) c n d
  | FuncPtrCall callee sg => FuncPtrCall (ap_set_base callee (f (base callee))) sg
  | _ => style
  end.

Inductive CallObject : Type :=
| FunctionPtr (name : string)
| JavaObject (cls : string)
| LuaClass (cls : string)
| CilObject (cls : string).
#[export] Instance CallObject_eq_dec : EqDecision CallObject.
Proof. solve_decision. Defined.

(** ** Expressions *)

Inductive Exp : Type :=
| Exp_Path (ap : AccessPath)
| Exp_Value (ap : AccessPath)
| Exp_ObjectRef (obj : CallObject)
| Exp_Str (s : string)
| Exp_Int (value : Z)
| Exp_Bytes (bytes : list Z).
#[export] Instance Exp_eq_dec : EqDecision Exp.
Proof. solve_decision. Defined.

Definition Exp_variable (v : VariableRef) : Exp := Exp_Path (ap_of_var v).

Definition access_path (e : Exp) : option AccessPath :=
  match e with Exp_Path ap | Exp_Value ap => Some ap | _ => None end.

(** [access_path_mut], with what the caller does to the access path as a function. *)
Definition map_access_path (f : AccessPath -> AccessPath) (e : Exp) : Exp :=
  match e with
  | Exp_Path ap => Exp_Path (f ap)
  | Exp_Value ap => Exp_Value (f ap)
  | _ => e
  end.

Definition base_variable (e : Exp) : option VariableRef := base <$> access_path e.

Definition map_base_variable (f : VariableRef -> VariableRef) : Exp -> Exp :=
  map_access_path (fun ap => ap_set_base ap (f (base ap))).

Definition variable_ref (e : Exp) : option VariableRef :=
  match e with
  | Exp_Path ap => if is_pathless ap then Some (base ap) else None
  | _ => None
  end.

(** ** Statements *)

Inductive StatementKind : Type :=
| Assign (dest : AccessPath) (sources : list Exp)
| CallAssign (style : CallStyle) (rets : list VariableRef) (args : list Exp)
| Phi (dest : VariableRef) (operands : list (nat * VariableRef))
| Nop.
#[export] Instance StatementKind_eq_dec : EqDecision StatementKind.
Proof. solve_decision. Defined.

(** [source_info] is a [FileSpanId]; [NO_SPAN] is what [SourceInfo::default] gives. *)
Definition NO_SPAN : N := 0.

Record Statement : Type := { source_info : N; kind : StatementKind }.
#[export] Instance Statement_eq_dec : EqDecision Statement.
Proof. solve_decision. Defined.

Definition new_kind (k : StatementKind) : Statement := {| source_info := NO_SPAN; kind := k |}.
Definition with_kind (s : Statement) (k : StatementKind) : Statement :=
  {| source_info := source_info s; kind := k |}.

(** The S5 rewrite of an address destination, on a whole assignment. *)
Definition rewrite_address_dest_stmt (dest : AccessPath) (sources : list Exp)
  : AccessPath * list Exp :=
  let segs := normalize (segments dest) in
  match last segs with
  | Some (Offset _) =>
      let dest_segments := fst (rewrite_address_dest segs []) in
      let sources := map (fun src =>
        match src with
        | Exp_Path ap =>
            Exp_Path {| base := base ap;
                        segments := snd (rewrite_address_dest segs (segments ap)) |}
        | _ => src
        end) sources in
      ({| base := base dest; segments := dest_segments |}, sources)
  | _ => ({| base := base dest; segments := segs |}, sources)
  end.

Definition assign (dest : AccessPath) (srcs : list Exp) : StatementKind :=
  let '(dest, sources) := rewrite_address_dest_stmt dest srcs in Assign dest sources.

Definition load (dest : VariableRef) (source : AccessPath) (segment : PathSegment) : StatementKind :=
  assign (ap_of_var dest)
    [Exp_Path {| base := base source; segments := concat (segments source) [segment] |}].

Definition store (dest : AccessPath) (segment : PathSegment) (value : Exp) : StatementKind :=
  assign {| base := base dest; segments := concat (segments dest) [segment] |} [value].

Definition is_store (k : StatementKind) : bool :=
  match k with Assign dest _ => negb (is_pathless dest) | _ => false end.

Definition iter_src_var (k : StatementKind) : list VariableRef :=
  match k with
  | Assign dest sources =>
      (if is_pathless dest then [] else [base dest]) ++ omap base_variable sources
  | CallAssign style _ args =>
      omap base_variable args ++ match receiver style with Some r => [r] | None => [] end
  | Phi _ operands => map snd operands
  | Nop => []
  end.

(** [iter_src_var_mut]: what [f] does to every variable the statement reads. *)
Definition map_src_var (f : VariableRef -> VariableRef) (k : StatementKind) : StatementKind :=
  match k with
  | Assign dest sources =>
      Assign (if is_pathless dest then dest else ap_set_base dest (f (base dest)))
             (map (map_base_variable f) sources)
  | CallAssign style rets args =>
      CallAssign (map_receiver f style) rets (map (map_base_variable f) args)
  | Phi dest operands => Phi dest (map (fun '(b, v) => (b, f v)) operands)
  | Nop => Nop
  end.

Definition iter_dst_var (k : StatementKind) : list VariableRef :=
  match k with
  | Assign dest _ => if is_pathless dest then [base dest] else []
  | CallAssign _ rets _ => rets
  | Phi dest _ => [dest]
  | Nop => []
  end.

(** [segments.iter().rposition(|s| !s.is_offset())]. *)
Fixpoint rposition (l : path) : option nat :=
  match l with
  | [] => None
  | s :: l' =>
      match rposition l' with
      | Some i => Some (S i)
      | None => if is_offset s then None else Some 0
      end
  end.

(** [read_into_temp]: the appended statement, if any, and the access path that is left.  [t] is
    what the caller's [fresh()] returns. *)
Definition read_into_temp (ap : AccessPath) (out : list Statement) (t : VariableRef)
  : list Statement * AccessPath :=
  match rposition (segments ap) with
  | None => (out, ap)
  | Some i =>
      (out ++ [new_kind (assign (ap_of_var t)
                 [Exp_Path (AccessPath_new (base ap) (take (S i) (segments ap)))])],
       AccessPath_new t (drop (S i) (segments ap)))
  end.

(** ** Terminators and blocks *)

Inductive TerminatorKind : Type :=
| Return (args : list Exp)
| Goto (targets : list nat).
#[export] Instance TerminatorKind_eq_dec : EqDecision TerminatorKind.
Proof. solve_decision. Defined.

Record Terminator : Type := { term_source_info : N; term_kind : TerminatorKind }.
#[export] Instance Terminator_eq_dec : EqDecision Terminator.
Proof. solve_decision. Defined.

Definition term_new_kind (k : TerminatorKind) : Terminator :=
  {| term_source_info := NO_SPAN; term_kind := k |}.
Definition term_with_kind (t : Terminator) (k : TerminatorKind) : Terminator :=
  {| term_source_info := term_source_info t; term_kind := k |}.

Definition term_successors (t : Terminator) : list nat :=
  match term_kind t with Return _ => [] | Goto targets => targets end.

Definition term_iter_src_var (t : Terminator) : list VariableRef :=
  match term_kind t with Return args => omap base_variable args | Goto _ => [] end.

Definition term_map_src_var (f : VariableRef -> VariableRef) (t : Terminator) : Terminator :=
  match term_kind t with
  | Return args => term_with_kind t (Return (map (map_base_variable f) args))
  | Goto _ => t
  end.

Record BasicBlockData : Type := {
  statements : list Statement;
  terminator : option Terminator;
}.
#[export] Instance BasicBlockData_eq_dec : EqDecision BasicBlockData.
Proof. solve_decision. Defined.

Definition with_statements (b : BasicBlockData) (l : list Statement) : BasicBlockData :=
  {| statements := l; terminator := terminator b |}.

(** The variables a block reads, terminator included ([terminator_opt]). *)
Definition block_src_vars (b : BasicBlockData) : list VariableRef :=
  (statements b ≫= fun s => iter_src_var (kind s)) ++
  match terminator b with Some t => term_iter_src_var t | None => [] end.

(** ** Interning tables *)

Record Locals : Type := { decls : list string; by_name : gmap string nat }.

Definition Locals_default : Locals := {| decls := []; by_name := ∅ |}.

(** [for (idx, decl) in decls { by_name.entry(name).or_insert(idx) }], from index [i]. *)
Fixpoint index_names (i : nat) (l : list string) (m : gmap string nat) : gmap string nat :=
  match l with
  | [] => m
  | n :: l' => index_names (S i) l' (match m !! n with Some _ => m | None => <[n := i]> m end)
  end.

Definition Locals_rebuild_index (l : Locals) : Locals :=
  {| decls := decls l; by_name := index_names 0 (decls l) ∅ |}.

Definition get_or_intern (l : Locals) (n : string) : Locals * nat :=
  let l := if bool_decide (by_name l = ∅) && negb (bool_decide (decls l = []))
           then Locals_rebuild_index l else l in
  match by_name l !! n with
  | Some idx => (l, idx)
  | None =>
      let idx := length (decls l) in
      ({| decls := decls l ++ [n]; by_name := <[n := idx]> (by_name l) |}, idx)
  end.

Record GlobalData : Type := { gname : string; span : option N }.

Record Globals : Type := { gdecls : list GlobalData; gby_name : gmap string nat }.

Definition Globals_default : Globals := {| gdecls := []; gby_name := ∅ |}.

Definition Globals_rebuild_index (g : Globals) : Globals :=
  {| gdecls := gdecls g; gby_name := index_names 0 (map gname (gdecls g)) ∅ |}.

Definition set_span (d : GlobalData) (s : option N) : GlobalData :=
  match span d with
  | None => {| gname := gname d; span := s |}
  | Some _ => d
  end.

Definition declare (g : Globals) (n : string) (s : option N) : outcome (Globals * nat) :=
  let g := if decide (size (gby_name g) <> length (gdecls g)) then Globals_rebuild_index g else g in
  match gby_name g !! n with
  | Some idx =>
      d ← unwrap (gdecls g !! idx);
      mret ({| gdecls := <[idx := set_span d s]> (gdecls g); gby_name := gby_name g |}, idx)
  | None =>
      let idx := length (gdecls g) in
      mret ({| gdecls := gdecls g ++ [{| gname := n; span := s |}];
               gby_name := <[n := idx]> (gby_name g) |}, idx)
  end.

Fixpoint find_name (n : string) (l : list string) : option nat :=
  match l with
  | [] => None
  | m :: l' => if decide (m = n) then Some 0 else S <$> find_name n l'
  end.

Definition lookup_global (g : Globals) (n : string) : option nat :=
  if decide (size (gby_name g) = length (gdecls g)) then gby_name g !! n
  else find_name n (map gname (gdecls g)).

(** ** Functions and programs *)

Inductive ParameterType : Type := Copied | SharedFields | Shared.

Record FunctionData : Type := {
  name : string;
  params : list ParameterType;
  arity : nat;
  blocks : list BasicBlockData;
  locals : Locals;
}.

Definition with_blocks (f : FunctionData) (bs : list BasicBlockData) : FunctionData :=
  {| name := name f; params := params f; arity := arity f; blocks := bs; locals := locals f |}.
Definition with_locals (f : FunctionData) (l : Locals) : FunctionData :=
  {| name := name f; params := params f; arity := arity f; blocks := blocks f; locals := l |}.

Definition num_parameters (f : FunctionData) : nat := length (params f).

Definition intern_local (f : FunctionData) (n : string) : FunctionData * nat :=
  let '(l, idx) := get_or_intern (locals f) n in (with_locals f l, idx).

Record Program : Type := { functions : list FunctionData; globals : Globals }.

Definition FunctionData_default : FunctionData :=
  {| name := ""; params := []; arity := 0; blocks := []; locals := Locals_default |}.

Definition new_function (p : Program) : Program * nat :=
  ({| functions := functions p ++ [FunctionData_default]; globals := globals p |},
   length (functions p)).

Definition declare_global (p : Program) (n : string) (s : option N) : outcome (Program * nat) :=
  '(g, idx) ← declare (globals p) n s;
  mret ({| functions := functions p; globals := g |}, idx).

Definition global_named (p : Program) (n : string) : option nat := lookup_global (globals p) n.

Definition global_name (p : Program) (idx : nat) : outcome string :=
  unwrap (gname <$> gdecls (globals p) !! idx).

(** ** Read and write sets *)

Lemma base_variable_map f e : base_variable (map_base_variable f e) = f <$> base_variable e.
Proof. by destruct e. Qed.

Lemma omap_base_variable_map f l :
  omap base_variable (map (map_base_variable f) l) = map f (omap base_variable l).
Proof.
  induction l as [|e l IH]; [done|]. csimpl. rewrite base_variable_map.
  destruct (base_variable e); csimpl; by rewrite IH.
Qed.

Lemma receiver_map f s : receiver (map_receiver f s) = f <$> receiver s.
Proof. by destruct s. Qed.

Lemma map_base_variable_ext f g e :
  (forall v, base_variable e = Some v -> f v = g v) -> map_base_variable f e = map_base_variable g e.
Proof. destruct e; unfold map_base_variable; simpl; intros H; try done; by rewrite H. Qed.

Lemma map_map_base_variable_ext f g l :
  (forall v, v ∈ omap base_variable l -> f v = g v) ->
  map (map_base_variable f) l = map (map_base_variable g) l.
Proof.
  intros H. apply map_ext_in. intros e He%list_elem_of_In.
  apply map_base_variable_ext. intros v Hv. apply H, list_elem_of_omap. eauto.
Qed.

Lemma map_src_var_ext f g k :
  (forall v, v ∈ iter_src_var k -> f v = g v) -> map_src_var f k = map_src_var g k.
Proof.
  destruct k as [d ss|s rs args|d ops|]; simpl; intros H; [| | |done].
  - f_equal; [|apply map_map_base_variable_ext; set_solver].
    destruct (is_pathless d); [done|]. rewrite H; [done|set_solver].
  - f_equal; [|apply map_map_base_variable_ext; set_solver].
    destruct s; simpl in *; try done; rewrite H; set_solver.
  - f_equal. apply map_ext_in. intros [b v] Hv%list_elem_of_In. f_equal. apply H.
    by apply (list_elem_of_fmap_2 snd _ (b, v)).
Qed.

Lemma is_pathless_set_base d v : is_pathless (ap_set_base d v) = is_pathless d.
Proof. done. Qed.

Lemma iter_src_var_map f k : iter_src_var (map_src_var f k) = map f (iter_src_var k).
Proof.
  destruct k as [d ss|s rs args|d ops|]; simpl.
  - rewrite map_app, omap_base_variable_map. by destruct (is_pathless d) eqn:E; rewrite ?is_pathless_set_base, E.
  - rewrite map_app, omap_base_variable_map, receiver_map. by destruct (receiver s).
  - rewrite !map_map. apply map_ext. by intros [].
  - done.
Qed.

Lemma iter_dst_var_map f k : iter_dst_var (map_src_var f k) = iter_dst_var k.
Proof.
  destruct k as [d ss| | |]; simpl; try done. destruct (is_pathless d) eqn:E; [by rewrite E|].
  by rewrite is_pathless_set_base, E.
Qed.

Lemma map_src_var_id k : map_src_var (fun v => v) k = k.
Proof.
  assert (forall e, map_base_variable (fun v => v) e = e) as He by (by intros [[]|[]| | | |]).
  assert (forall l, map (map_base_variable (fun v => v)) l = l) as Hl.
  { induction l as [|e l IH]; simpl; [done|]. by rewrite He, IH. }
  destruct k as [d ss|s rs args|d ops|]; simpl; rewrite ?Hl; [| | |done].
  - destruct (is_pathless d); [done|]. by destruct d.
  - f_equal. destruct s as [| |[] | | |]; done.
  - f_equal. induction ops as [|[] ops IH]; simpl; [done|]. by rewrite IH.
Qed.

Lemma map_src_var_fixed f k : Forall (fun v => f v = v) (iter_src_var k) -> map_src_var f k = k.
Proof.
  rewrite Forall_forall. intros H. rewrite <- (map_src_var_id k) at 2. apply map_src_var_ext. auto.
Qed.

(** Renaming the variables a statement reads ([iter_src_var_mut]) reaches exactly the
    occurrences that [iter_src_var] lists, in the same order: the renamed statement reads the
    renamed variables, it defines what it defined before, stays a store exactly when it was
    one, and a renaming that fixes every variable read changes nothing. *)
Theorem map_src_var_reads (f : VariableRef -> VariableRef) (k : StatementKind) :
  iter_src_var (map_src_var f k) = map f (iter_src_var k) /\
  iter_dst_var (map_src_var f k) = iter_dst_var k /\
  is_store (map_src_var f k) = is_store k /\
  (Forall (fun v => f v = v) (iter_src_var k) <-> map_src_var f k = k).
Proof.
  pose proof (iter_src_var_map f k) as Hr. split_and!; [done|apply iter_dst_var_map| |split].
  - destruct k as [d ss| | |]; simpl; try done. destruct (is_pathless d) eqn:E; by rewrite ?is_pathless_set_base, E.
  - apply map_src_var_fixed.
  - intros E. rewrite E in Hr. apply Forall_forall. intros v Hv. clear E.
    induction (iter_src_var k) as [|w l IH]; [by apply not_elem_of_nil in Hv|].
    simpl in Hr. injection Hr as Ew El. apply elem_of_cons in Hv as [->|Hv]; auto.
Qed.

(** The statements and the reads of a function body. *)
Definition term_reads (b : BasicBlockData) : list VariableRef :=
  match terminator b with Some t => term_iter_src_var t | None => [] end.

Definition stmts_of (blocks : list BasicBlockData) : list Statement := blocks ≫= statements.
Definition reads_of (blocks : list BasicBlockData) : list VariableRef := blocks ≫= block_src_vars.

Lemma elem_of_reads_of blocks r :
  r ∈ reads_of blocks <-> (exists s, s ∈ stmts_of blocks /\ r ∈ iter_src_var (kind s)) \/ r ∈ blocks ≫= term_reads.
Proof.
  unfold reads_of, stmts_of. induction blocks as [|b blocks IH]; csimpl; [set_solver|].
  rewrite !elem_of_app, IH. unfold block_src_vars. rewrite elem_of_app, list_elem_of_bind.
  fold (term_reads b). setoid_rewrite elem_of_app. set_solver.
Qed.

(** ** [assign] *)

Definition exp_nf (e : Exp) : Prop :=
  match access_path e with Some ap => nf (segments ap) | None => True end.

Lemma concat_nil_r p : concat p [] = p.
Proof. done. Qed.

#[local] Instance ends_plain_dec p : Decision (ends_plain p).
Proof. unfold ends_plain. repeat case_match; apply _. Defined.

(** What [assign] does to one source when the destination's trailing offset is [k]. *)
Definition shifted (k : path) (src src' : Exp) : Prop :=
  match src with
  | Exp_Path ap => exists ap', src' = Exp_Path ap' /\ base ap' = base ap /\
                     nf (segments ap') /\ concat (segments ap') k = segments ap
  | _ => src' = src
  end.

(** [StatementKind::assign] never builds an address destination (S5).  The statement it
    builds has the destination's base and a normal-form destination that is not an address, and
    both sides are shifted by the same constant: adding one offset [k] back to the destination
    and to every access-path source gives the assignment that was asked for, while value
    sources and constants are untouched. *)
Theorem assign_correct (dest : AccessPath) (srcs : list Exp) :
  Forall seg_i64 (segments dest) -> Forall exp_nf srcs ->
  exists d ss k,
    assign dest srcs = Assign d ss /\ base d = base dest /\
    nf (segments d) /\ class d <> Address /\
    concat (segments d) k = normalize (segments dest) /\
    (k = [] \/ exists z, k = [Offset z]) /\
    Forall2 (shifted k) srcs ss.
Proof.
  intros Hd Hs. pose proof (normalize_nf _ Hd) as Hn. unfold assign, rewrite_address_dest_stmt.
  destruct (decide (ends_plain (normalize (segments dest)))) as [He|He].
  - exists {| base := base dest; segments := normalize (segments dest) |}, srcs, [].
    split_and!; auto.
    + unfold ends_plain in He. by destruct (last _) as [[]|].
    + by apply ends_plain_not_address.
    + apply Forall2_same_length_lookup. split; [done|]. intros i e e' Hi Hi'. simplify_eq.
      rewrite Forall_lookup in Hs. specialize (Hs _ _ Hi). destruct e; try done. by exists ap.
  - unfold ends_plain in He. destruct (last (normalize (segments dest))) as [s|] eqn:El; [|done].
    destruct s as [|k| |]; try done. apply last_Some in El as [i El]. rewrite El in Hn |- *.
    destruct (nf_offset_init _ _ Hn) as (Hi & Hk & Hk0 & Hp & Hv).
    unfold rewrite_address_dest. rewrite split_last_snoc.
    eexists _, _, [Offset k]. split; [reflexivity|]. split_and!; simpl; auto.
    + by apply ends_plain_not_address.
    + apply concat_app_nf. done.
    + eauto.
    + clear -Hs Hk. induction Hs as [|e l He' Hl IH]; simpl; constructor; [clear IH|done].
      destruct e as [ap|ap| | | |]; simpl in *; try done.
      eexists. split; [reflexivity|]. simpl. split_and!; [done| |by apply concat_cancel].
      apply concat_nf; [done|]. constructor; [|done]. apply wrapping_neg_range.
Qed.

Lemma assign_correct_witness :
  exists d, (exists ss, assign {| base := new_local_idx 0; segments := [Deref; Offset 8] |}
     [Exp_variable (new_local_idx 1)] = Assign d ss) /\ class d <> Address.
Proof.
  destruct (assign_correct {| base := new_local_idx 0; segments := [Deref; Offset 8] |}
     [Exp_variable (new_local_idx 1)]) as (d & ss & k & E & _ & _ & Hc & _).
  - repeat constructor; vm_compute; discriminate.
  - repeat constructor.
  - exists d. split; [by exists ss|done].
Defined.

(** ** [read_into_temp] *)

Lemma rposition_None l : rposition l = None -> Forall (fun s => is_offset s = true) l.
Proof.
  induction l as [|s l IH]; simpl; [done|]. destruct (rposition l); [done|].
  destruct (is_offset s) eqn:E; [|done]. intros _. auto.
Qed.

Lemma rposition_Some l i : rposition l = Some i ->
  exists pre x post, l = (pre ++ [x]) ++ post /\ length pre = i /\ is_offset x = false /\
    Forall (fun s => is_offset s = true) post.
Proof.
  revert i. induction l as [|s l IH]; simpl; [done|]. intros i.
  destruct (rposition l) as [j|] eqn:E.
  - intros [= <-]. destruct (IH j eq_refl) as (pre & x & post & -> & <- & ? & ?).
    by exists (s :: pre), x, post.
  - destruct (is_offset s) eqn:Es; [done|]. intros [= <-].
    exists [], s, l. by pose proof (rposition_None _ E).
Qed.

(** [read_into_temp] splits an access path at its last memory segment.  A path that is only
    offsets is returned as it is and no statement is appended; otherwise exactly one load
    [t = base.pre] is appended, where [pre] ends in a non-offset segment, and what is returned
    is [t] followed by offsets only, so that substituting the load for [t] gives the original
    path back. *)
Theorem read_into_temp_correct (ap : AccessPath) (out : list Statement) (t : VariableRef) :
  nf (segments ap) ->
  let (out', ap') := read_into_temp ap out t in
  Forall (fun s => is_offset s = true) (segments ap') /\ nf (segments ap') /\
  ((out' = out /\ ap' = ap) \/
   exists pre, ends_plain pre /\ pre <> [] /\ nf pre /\
     out' = out ++ [new_kind (Assign (ap_of_var t) [Exp_Path {| base := base ap; segments := pre |}])] /\
     base ap' = t /\ concat pre (segments ap') = segments ap).
Proof.
  intros Hn. unfold read_into_temp. destruct (rposition (segments ap)) as [i|] eqn:E; cbn.
  2: { split_and!; [by apply rposition_None|done|by left]. }
  destruct (rposition_Some _ _ E) as (pre & x & post & Es & <- & Hx & Hpost).
  rewrite Es in *. rewrite take_app_length', drop_app_length' by (rewrite length_app; simpl; lia).
  pose proof (nf_app_l _ _ Hn) as Hpre. pose proof (nf_app_r _ _ Hn) as Hpo.
  rewrite !(normalize_id post) by done. split_and!; [done..|].
  right. exists (pre ++ [x]). split_and!; [|by destruct pre|done| |done|by apply concat_app_nf].
  - unfold ends_plain. rewrite last_snoc. by destruct x.
  - unfold AccessPath_new. by rewrite (normalize_id (pre ++ [x])).
Qed.

Lemma read_into_temp_correct_witness :
  let (out', ap') := read_into_temp {| base := new_local_idx 0; segments := [Field "f"; Offset 8] |} []
                       (new_local_idx 1) in
  Forall (fun s => is_offset s = true) (segments ap').
Proof.
  refine (proj1 (read_into_temp_correct
    {| base := new_local_idx 0; segments := [Field "f"; Offset 8] |} [] (new_local_idx 1) _)).
  apply (nf_snoc [Field "f"]); [by apply nf_single| |done].
  split; vm_compute; [split|]; discriminate.
Defined.

(** ** Interning *)

(** The name map answers what a search of the declarations would. *)
Definition indexed (ds : list string) (m : gmap string nat) : Prop :=
  forall n, m !! n = find_name n ds.

Lemma find_name_Some n ds i :
  find_name n ds = Some i -> ds !! i = Some n.
Proof.
  revert i. induction ds as [|d ds IH]; simpl; [done|]. intros i.
  destruct (decide (d = n)) as [->|]; [by intros [= <-]|].
  destruct (find_name n ds) as [j|]; [|done]. intros [= <-]. simpl. auto.
Qed.

Lemma find_name_None n ds : find_name n ds = None <-> n ∉ ds.
Proof.
  induction ds as [|d ds IH]; simpl; [set_solver|]. destruct (decide (d = n)) as [->|]; [set_solver|].
  rewrite fmap_None, IH. set_solver.
Qed.

Lemma find_name_snoc n m ds : find_name n (ds ++ [m]) =
  match find_name n ds with Some i => Some i | None => if decide (m = n) then Some (length ds) else None end.
Proof.
  induction ds as [|d ds IH]; simpl; [done|]. destruct (decide (d = n)); [done|]. rewrite IH.
  destruct (find_name n ds); simpl; [done|]. by case_decide.
Qed.

Lemma find_name_lookup ds i n : NoDup ds -> ds !! i = Some n -> find_name n ds = Some i.
Proof.
  intros Hd Hi. destruct (find_name n ds) as [j|] eqn:E.
  - apply find_name_Some in E. f_equal. by eapply NoDup_lookup.
  - apply find_name_None in E. apply list_elem_of_lookup_2 in Hi. done.
Qed.

Lemma index_names_lookup n l i m : index_names i l m !! n =
  match m !! n with Some x => Some x | None => (fun j => i + j) <$> find_name n l end.
Proof.
  revert i m. induction l as [|d l IH]; intros i m; simpl; [by destruct (m !! n)|].
  rewrite IH. destruct (decide (d = n)) as [->|Hd].
  - destruct (m !! n) eqn:E; [by rewrite E|]. rewrite lookup_insert_eq. simpl. f_equal. lia.
  - assert ((match m !! d with Some _ => m | None => <[d:=i]> m end) !! n = m !! n) as ->.
    { destruct (m !! d); [done|]. by rewrite lookup_insert_ne. }
    destruct (m !! n); [done|]. destruct (find_name n l); simpl; [|done]. f_equal. lia.
Qed.

Lemma indexed_rebuild ds : indexed ds (index_names 0 ds ∅).
Proof.
  intros n. rewrite index_names_lookup, lookup_empty. by destruct (find_name n ds).
Qed.

Lemma indexed_snoc ds m n : indexed ds m -> find_name n ds = None ->
  indexed (ds ++ [n]) (<[n := length ds]> m).
Proof.
  intros H Hn n'. rewrite find_name_snoc, <- H. destruct (decide (n = n')) as [->|].
  - by rewrite lookup_insert_eq, H, Hn.
  - rewrite lookup_insert_ne by done. by destruct (m !! n').
Qed.

(** A name map for [NoDup] declarations has as many entries as there are declarations. *)
Lemma indexed_size ds m : NoDup ds -> indexed ds m -> size m = length ds.
Proof.
  intros Hd. revert m. induction ds as [|n ds IH] using rev_ind; intros m Hm.
  - simpl. apply map_size_empty_iff, map_empty. intros k. apply Hm.
  - apply NoDup_app in Hd as (Hd & Hn & _).
    assert (find_name n ds = None) as Hf by (apply find_name_None; set_solver).
    assert (m = <[n := length ds]> (delete n m)) as ->.
    { apply map_eq. intros k. destruct (decide (n = k)) as [<-|].
      - rewrite lookup_insert_eq, Hm, find_name_snoc, Hf. by case_decide.
      - by rewrite lookup_insert_ne, lookup_delete_ne. }
    rewrite map_size_insert_None by apply lookup_delete_eq. rewrite IH; [rewrite length_app; simpl; lia|done|].
    intros k. destruct (decide (n = k)) as [<-|].
    + by rewrite lookup_delete_eq.
    + rewrite lookup_delete_ne by done. rewrite Hm, find_name_snoc. destruct (find_name k ds); [done|]. by case_decide.
Qed.

(** The state of an interning table: as built, or freshly deserialised (the map is not
    serialised, so it is empty). *)
Definition Locals_wf (l : Locals) : Prop :=
  NoDup (decls l) /\ (by_name l = ∅ \/ indexed (decls l) (by_name l)).

Lemma get_or_intern_indexed l n : Locals_wf l ->
  exists m, indexed (decls l) m /\
  get_or_intern l n =
    match find_name n (decls l) with
    | Some idx => ({| decls := decls l; by_name := m |}, idx)
    | None => ({| decls := decls l ++ [n]; by_name := <[n := length (decls l)]> m |}, length (decls l))
    end.
Proof.
  intros [Hd Hm]. unfold get_or_intern. destruct (bool_decide (by_name l = ∅)) eqn:Eb; simpl.
  - apply bool_decide_eq_true in Eb. destruct (decide (decls l = [])) as [E|E].
    + rewrite bool_decide_eq_true_2 by done. simpl. exists ∅. rewrite Eb, lookup_empty, E. simpl.
      split; [|done]. intros k. by rewrite lookup_empty.
    + rewrite bool_decide_eq_false_2 by done. cbn [negb]. exists (index_names 0 (decls l) ∅).
      split; [apply indexed_rebuild|]. unfold Locals_rebuild_index; cbn [by_name decls].
      rewrite (indexed_rebuild (decls l) n). by destruct (find_name n (decls l)).
  - apply bool_decide_eq_false in Eb. destruct Hm as [|Hm]; [done|]. exists (by_name l).
    split; [done|]. rewrite Hm. by destruct l, (find_name n _).
Qed.

(** One step of interning. *)
Lemma get_or_intern_step l n : Locals_wf l -> let (l1, i) := get_or_intern l n in
  NoDup (decls l1) /\ indexed (decls l1) (by_name l1) /\
  decls l1 !! i = Some n /\ decls l `prefix_of` decls l1 /\
  length (decls l1) <= S (length (decls l)).
Proof.
  intros Hl. pose proof Hl as [Hd _].
  destruct (get_or_intern_indexed l n Hl) as (mp & Hm & ->).
  destruct (find_name n (decls l)) as [i|] eqn:E; simpl.
  - split_and!; [done..|by apply find_name_Some|done|lia].
  - split_and!.
    + apply NoDup_app. apply find_name_None in E. split_and!; [done|set_solver|apply NoDup_singleton].
    + by apply indexed_snoc.
    + by rewrite lookup_app_r, Nat.sub_diag by lia.
    + by apply prefix_app_r.
    + rewrite length_app. simpl. lia.
Qed.

(** Interning a local keeps the one-local-per-name invariant SSA relies on, whether the
    table was built in memory or deserialised without its name map.  The index returned names
    [n], existing indices keep their names, no name gets two indices, and interning any name
    [m] next gives the same index exactly when [m = n]. *)
Theorem get_or_intern_correct (l : Locals) (n m : string) :
  Locals_wf l ->
  let (l1, i) := get_or_intern l n in
  let (l2, j) := get_or_intern l1 m in
  Locals_wf l1 /\ indexed (decls l1) (by_name l1) /\
  decls l1 !! i = Some n /\ decls l `prefix_of` decls l1 /\
  length (decls l1) <= S (length (decls l)) /\
  (i = j <-> n = m) /\ (n = m -> l2 = l1).
Proof.
  intros Hl. pose proof (get_or_intern_step l n Hl) as H1. destruct (get_or_intern l n) as [l1 i].
  destruct H1 as (Hd1 & Hx1 & Hi & Hp & Hlen).
  assert (Locals_wf l1) as Hl1 by (split; auto).
  pose proof (get_or_intern_step l1 m Hl1) as H2. destruct (get_or_intern l1 m) as [l2 j] eqn:E2.
  destruct H2 as (Hd2 & _ & Hj & Hp2 & _).
  assert (decls l2 !! i = Some n) as Hi2 by (by eapply prefix_lookup_Some).
  split_and!; auto.
  - split; [intros ->; congruence|]. intros ->. by eapply NoDup_lookup.
  - intros ->. unfold get_or_intern in E2.
    rewrite bool_decide_eq_false_2 in E2; simpl in E2.
    2: { intros E. apply (find_name_lookup _ _ _ Hd1) in Hi. by rewrite <- Hx1, E in Hi. }
    rewrite Hx1, (find_name_lookup _ _ _ Hd1 Hi) in E2. congruence.
Qed.

Lemma get_or_intern_correct_witness :
  Locals_wf {| decls := ["a"; "b"]; by_name := ∅ |} /\
  let (l1, i) := get_or_intern {| decls := ["a"; "b"]; by_name := ∅ |} "b" in
  let (l2, j) := get_or_intern l1 "c" in i = 1 /\ j = 2 /\ (i = j <-> "b" = "c").
Proof.
  assert (Locals_wf {| decls := ["a"; "b"]; by_name := ∅ |}) as H.
  { split; [by_decide|by left]. }
  split; [exact H|]. pose proof (get_or_intern_correct _ "b" "c" H) as T. vm_compute in T |- *.
  destruct T as (_ & _ & _ & _ & _ & T & _). auto.
Defined.

Definition gnames (g : Globals) : list string := map gname (gdecls g).

Definition Globals_wf (g : Globals) : Prop :=
  NoDup (gnames g) /\ (gby_name g = ∅ \/ indexed (gnames g) (gby_name g)).

Lemma Globals_indexed g : Globals_wf g ->
  indexed (gnames g) (gby_name (if decide (size (gby_name g) <> length (gdecls g))
                                then Globals_rebuild_index g else g)).
Proof.
  intros [Hd Hm]. case_decide as E; [apply indexed_rebuild|].
  destruct Hm as [Hm|Hm]; [|done]. rewrite Hm, map_size_empty in E.
  intros k. unfold gnames. destruct (gdecls g); [by rewrite Hm|]. simpl in E. lia.
Qed.

Lemma lookup_global_spec g n : Globals_wf g -> lookup_global g n = find_name n (gnames g).
Proof.
  intros Hg. unfold lookup_global. case_decide as E; [|done].
  pose proof (Globals_indexed g Hg) as Hx. rewrite decide_False in Hx by auto. apply Hx.
Qed.

Lemma gnames_insert_span (ds : list GlobalData) idx d s : ds !! idx = Some d ->
  map gname (<[idx := set_span d s]> ds) = map gname ds.
Proof.
  revert idx. induction ds as [|x ds IH]; intros [|idx] H; simpl in *; simplify_eq.
  - f_equal. unfold set_span. by destruct (span d).
  - by rewrite IH.
Qed.

(** Declaring a global never panics and interns by name: the index returned carries the
    name, a name already declared keeps its index and its first span, every other global keeps
    its index, and [lookup] afterwards finds exactly the declared names, whether or not the
    name map survived serialisation. *)
Theorem declare_correct (g : Globals) (n : string) (s : option N) :
  Globals_wf g ->
  exists g' i,
    declare g n s = Ret (g', i) /\ Globals_wf g' /\
    lookup_global g' n = Some i /\
    (forall m, m <> n -> lookup_global g' m = lookup_global g m) /\
    (forall j, lookup_global g n = Some j -> j = i /\ gnames g' = gnames g) /\
    (lookup_global g n = None -> gnames g' = gnames g ++ [n]) /\
    (forall d, gdecls g !! i = Some d -> exists d', gdecls g' !! i = Some d' /\
       span d' = match span d with Some x => Some x | None => s end).
Proof.
  intros Hg. pose proof Hg as [Hd _]. pose proof (Globals_indexed g Hg) as Hx.
  unfold declare.
  set (g0 := if decide (size (gby_name g) ≠ length (gdecls g)) then Globals_rebuild_index g else g) in *.
  assert (gdecls g0 = gdecls g) as Eg by (unfold g0; by case_decide).
  clearbody g0. rewrite Hx. destruct (find_name n (gnames g)) as [i|] eqn:Ef.
  - pose proof (find_name_Some _ _ _ Ef) as Hi. unfold gnames in Hi.
    rewrite lookup_map in Hi. apply fmap_Some in Hi as (d & Hi & ->).
    rewrite Eg, Hi. eexists _, i. split; [reflexivity|].
    assert (Globals_wf {| gdecls := <[i:=set_span d s]> (gdecls g); gby_name := gby_name g0 |}) as Hw.
    { split; unfold gnames in *; simpl; rewrite gnames_insert_span; auto. }
    rewrite !lookup_global_spec by done. unfold gnames in *; simpl in *.
    rewrite gnames_insert_span by done. split_and!; auto.
    + intros m Hm. rewrite !lookup_global_spec by done. unfold gnames; simpl. by rewrite gnames_insert_span.
    + intros j Hj. rewrite Ef in Hj. by simplify_eq.
    + rewrite Ef. done.
    + intros d' Hd'. simplify_eq. eexists. rewrite list_lookup_insert_eq by (by eapply lookup_lt_Some).
      split; [done|]. unfold set_span. by destruct (span d) eqn:Es.
  - eexists _, _. split; [reflexivity|]. rewrite Eg.
    assert (gnames {| gdecls := gdecls g ++ [{| gname := n; span := s |}];
               gby_name := <[n:=length (gdecls g)]> (gby_name g0) |} = gnames g ++ [n]) as En
      by (unfold gnames; simpl; by rewrite map_app).
    assert (length (gdecls g) = length (gnames g)) as El by (unfold gnames; by rewrite length_map).
    assert (Globals_wf {| gdecls := gdecls g ++ [{| gname := n; span := s |}];
               gby_name := <[n:=length (gdecls g)]> (gby_name g0) |}) as Hw.
    { split; rewrite En; simpl.
      - apply NoDup_app. apply find_name_None in Ef. split_and!; [done|set_solver|apply NoDup_singleton].
      - right. rewrite El. by apply indexed_snoc. }
    rewrite !lookup_global_spec, En, find_name_snoc, Ef by done. split_and!; auto.
    + case_decide; [|done]. by rewrite El.
    + intros m Hm. rewrite !lookup_global_spec, En, find_name_snoc by done.
      destruct (find_name m _); [done|]. by case_decide.
    + done.
    + intros d' Hd'. apply lookup_lt_Some in Hd'. lia.
Qed.

Lemma declare_correct_witness :
  let g := {| gdecls := [{| gname := "g"; span := None |}]; gby_name := ∅ |} in
  Globals_wf g /\ exists g' i, declare g "g" (Some 7%N) = Ret (g', i) /\ lookup_global g' "g" = Some i.
Proof.
  assert (Globals_wf {| gdecls := [{| gname := "g"; span := None |}]; gby_name := ∅ |}) as H.
  { split; [by_decide|by left]. }
  split; [exact H|]. destruct (declare_correct _ "g" (Some 7%N) H) as (g' & i & E & _ & L & _).
  exists g', i. auto.
Defined.
