(* ===== verification/Graph.v ===== *)
(** * Graph: the graph traits and searches of [ctadl-ir/src/graph]

    The traits of [graph/mod.rs] as type classes, the reversed view of [graph/reversed.rs], the
    depth-first searches [find_path], [find_path_to_set] and [find_annotated_path_to_set], the
    breadth-first [find_annotated_paths_from_set], and [reachable] and [is_connected].

    A graph's [successors] may panic (a control-flow graph whose block has no terminator), so
    it returns an [outcome].  [while] loops carry fuel; each theorem gives a bound on the fuel
    (the total out-degree of the nodes that can be reached) and shows that any larger fuel
    gives the result. *)

From S2P Require Import Prelude Index.

(** ** Traits *)

Class DirectedGraph (G : Type) : Type := { num_nodes : G -> nat }.

Definition iter_nodes `{DirectedGraph G} (g : G) : list nat := seq 0 (num_nodes g).

Class StartNode (G : Type) `{DirectedGraph G} : Type := { start_node : G -> nat }.
Class Successors (G : Type) `{DirectedGraph G} : Type := { successors : G -> nat -> outcome (list nat) }.
Class Predecessors (G : Type) `{DirectedGraph G} : Type := { predecessors : G -> nat -> outcome (list nat) }.

Class LabeledSuccessors (G L : Type) `{DirectedGraph G} : Type :=
  { labeled_successors : G -> nat -> list (nat * L) }.

Class Annotation (G L A : Type) : Type := {
  annot_start : A;
  expand : G -> A -> nat -> L -> nat -> option A;
}.

Class LazySuccessors (G N L : Type) : Type := { lazy_successors : G -> N -> list (N * L) }.

Class LazyAnnotation (G N L A : Type) : Type := {
  lazy_start : A;
  lazy_expand : G -> A -> N -> L -> N -> option A;
}.

(** [ReversedGraph]. *)
Record ReversedGraph (G : Type) : Type := { inner : G }.
Arguments inner {G} _.

#[export] Instance Reversed_DirectedGraph `{DirectedGraph G} : DirectedGraph (ReversedGraph G) :=
  {| num_nodes g := num_nodes (inner g) |}.
#[export] Instance Reversed_Successors `{Predecessors G} : Successors (ReversedGraph G) :=
  {| successors g n := predecessors (inner g) n |}.
#[export] Instance Reversed_Predecessors `{Successors G} : Predecessors (ReversedGraph G) :=
  {| predecessors g n := successors (inner g) n |}.

(** [n] has an edge to [m]. *)
Definition edge {S} (succ : S -> outcome (list S)) (n m : S) : Prop :=
  exists l, succ n = Ret l /\ m ∈ l.

(** ** Depth-first search

    The loop shared by [find_path_to_set] and [find_annotated_path_to_set]: [queue] is the
    stack, its top at the head. *)
Section dfs.
Context {S M : Type} `{Countable S} `{PartialMap S S M}.
Variable succ : S -> outcome (list S).
Variable is_target : S -> bool.

(** [for m in succs { if !visited.contains(&m) { parent.insert(m, n); queue.push(m); } }]. *)
Definition dfs_push (visited : gset S) (n : S) (st : M * list S) (m : S) : M * list S :=
  let '(parent, queue) := st in
  if decide (m ∈ visited) then (parent, queue) else (pm_insert parent m n, m :: queue).

Fixpoint dfs_loop (fuel : nat) (visited : gset S) (parent : M) (queue : list S)
  : outcome (option S * M) :=
  match fuel with
  | 0 => OutOfFuel
  | Datatypes.S fuel =>
      match queue with
      | [] => Ret (None, parent)
      | n :: queue =>
          if decide (n ∈ visited) then dfs_loop fuel visited parent queue
          else
            let visited := {[ n ]} ∪ visited in
            if is_target n then Ret (Some n, parent)
            else
              succs ← succ n;
              let '(parent, queue) := foldl (dfs_push visited n) (parent, queue) succs in
              dfs_loop fuel visited parent queue
      end
  end.

(** [while let Some(p) = parent.remove(end) { path.push(p); end = p; }]. *)
Fixpoint unwind (fuel : nat) (parent : M) (e : S) (path : list S) : outcome (list S) :=
  match fuel with
  | 0 => OutOfFuel
  | Datatypes.S fuel =>
      let '(parent, p) := pm_remove parent e in
      match p with
      | Some p => unwind fuel parent p (path ++ [p])
      | None => Ret path
      end
  end.
End dfs.

Definition find_path_to_set `{Successors G} (fuel : nat) (graph : G) (start : nat)
    (is_target : nat -> bool) : outcome (option (list nat)) :=
  '(e, parent) ← dfs_loop (successors graph) is_target fuel ∅
                   (replicate (num_nodes graph) None) [start];
  let e := default start e in
  if negb (is_target e) then Ret None
  else
    path ← unwind fuel parent e [e];
    Ret (Some (rev path)).

Definition find_path `{Successors G} (fuel : nat) (graph : G) (start e : nat)
  : outcome (option (list nat)) :=
  find_path_to_set fuel graph start (fun n => bool_decide (e = n)).

(** The states [(m, b)] that [find_annotated_path_to_set] tries from a state [(n, a)]. *)
Definition annotated_succ `{LabeledSuccessors G L} `{Annotation G L A} (graph : G) (st : nat * A)
  : outcome (list (nat * A)) :=
  let '(n, a) := st in
  Ret (omap (fun '(m, label) => (fun b => (m, b)) <$> expand graph a n label m)
            (labeled_successors graph n)).

Definition find_annotated_path_to_set {G L A : Type} `{LabeledSuccessors G L} `{Annotation G L A}
    `{Countable A} (fuel : nat) (graph : G) (start : nat) (is_target : nat -> A -> bool)
  : outcome (option (list (nat * A))) :=
  '(e, parent) ← dfs_loop (annotated_succ graph) (fun st => is_target st.1 st.2) fuel ∅
                   (∅ : gmap (nat * A) (nat * A)) [(start, annot_start)];
  match e with
  | None => Ret None
  | Some e =>
      path ← unwind fuel parent e [e];
      Ret (Some (rev path))
  end.

(** ** [reachable] and [is_connected] *)

Section reach.
Context `{Successors G} `{!StartNode G}.

(** The loop of both: [acc] is the list of nodes seen, in the order they were first popped. *)
Fixpoint reach_loop (fuel : nat) (graph : G) (nodes : list nat) (seen : gset nat) (acc : list nat)
  : outcome (list nat) :=
  match fuel with
  | 0 => OutOfFuel
  | S fuel =>
      match nodes with
      | [] => Ret acc
      | n :: nodes =>
          if decide (n ∈ seen) then reach_loop fuel graph nodes seen acc
          else
            succs ← successors graph n;
            reach_loop fuel graph (rev succs ++ nodes) ({[ n ]} ∪ seen) (acc ++ [n])
      end
  end.

Definition reachable (fuel : nat) (graph : G) : outcome (list nat) :=
  reach_loop fuel graph [start_node graph] ∅ [].

(** [is_connected] keeps only a counter of the nodes first popped. *)
Fixpoint connected_loop (fuel : nat) (graph : G) (nodes : list nat) (seen : gset nat)
    (dfs_counter : nat) : outcome nat :=
  match fuel with
  | 0 => OutOfFuel
  | S fuel =>
      match nodes with
      | [] => Ret dfs_counter
      | n :: nodes =>
          if decide (n ∈ seen) then connected_loop fuel graph nodes seen dfs_counter
          else
            succs ← successors graph n;
            connected_loop fuel graph (rev succs ++ nodes) ({[ n ]} ∪ seen) (dfs_counter + 1)
      end
  end.

Definition is_connected (fuel : nat) (graph : G) : outcome bool :=
  dfs_counter ← connected_loop fuel graph [start_node graph] ∅ 0;
  Ret (bool_decide (dfs_counter = num_nodes graph)).
End reach.

(** ** Paths and the fuel bound *)

(** The total out-degree of a set of nodes: how many times a search can push. *)
Definition out_degree {S} (succ : S -> outcome (list S)) (n : S) : nat :=
  match succ n with Ret l => length l | _ => 0 end.

Definition total_degree {S} `{Countable S} (succ : S -> outcome (list S)) (U : gset S) : nat :=
  sum_list_with (out_degree succ) (elements U).

Definition search_fuel {S} `{Countable S} (succ : S -> outcome (list S)) (U : gset S) : nat :=
  size U + total_degree succ U + 2.

(** Every node of [U] has successors, and they are in [U]. *)
Definition closed_under {S} `{Countable S} (succ : S -> outcome (list S)) (U : gset S) : Prop :=
  forall n, n ∈ U -> exists l, succ n = Ret l /\ forall m, m ∈ l -> m ∈ U.

Definition is_path {S} (succ : S -> outcome (list S)) (l : list S) : Prop :=
  forall i x y, l !! i = Some x -> l !! Datatypes.S i = Some y -> edge succ x y.

Lemma rtc_closed {S} (R : relation S) (X : S -> Prop) a b :
  (forall x y, X x -> R x y -> X y) -> rtc R a b -> X a -> X b.
Proof. intros HX. induction 1; eauto. Qed.

Lemma total_degree_visit {S} `{Countable S} (succ : S -> outcome (list S)) (U V : gset S) n :
  n ∈ U -> n ∉ V ->
  total_degree succ (U ∖ V) = out_degree succ n + total_degree succ (U ∖ ({[ n ]} ∪ V)).
Proof.
  intros Hn HV. unfold total_degree.
  assert (U ∖ V = {[ n ]} ∪ U ∖ ({[ n ]} ∪ V)) as ->.
  { apply set_eq. intros x. destruct (decide (x = n)); set_solver. }
  rewrite (elements_disj_union {[ n ]}) by set_solver. rewrite elements_singleton. done.
Qed.

Lemma is_path_snoc {S} (succ : S -> outcome (list S)) l p m :
  is_path succ l -> last l = Some p -> edge succ p m -> is_path succ (l ++ [m]).
Proof.
  intros Hl Hp He i x y Hx Hy. pose proof (lookup_lt_Some _ _ _ Hy) as Hi.
  rewrite length_app in Hi. simpl in Hi. rewrite lookup_app_l in Hx by lia.
  destruct (decide (Datatypes.S i = length l)) as [E|].
  - rewrite E, lookup_app_r, Nat.sub_diag in Hy by lia. simpl in Hy. simplify_eq.
    rewrite last_lookup, <- E in Hp. simpl in Hp. by simplify_eq.
  - rewrite lookup_app_l in Hy by lia. by eapply Hl.
Qed.

(** ** Correctness of the depth-first search *)

Section dfs_correct.
Context {S M : Type} `{Countable S} `{PartialMap S S M}.
Variable succ : S -> outcome (list S).
Variable is_target : S -> bool.
Variable start : S.
Variable U : gset S.
Hypothesis Hstart : start ∈ U.
Hypothesis Hclosed : closed_under succ U.

(** [l] is the path the parent links spell from [start] to [m]. *)
Inductive chain (P : M) : S -> list S -> Prop :=
| chain_start : pm_get P start = None -> chain P start [start]
| chain_step p m l : chain P p l -> pm_get P m = Some p -> edge succ p m -> m ∉ l ->
    chain P m (l ++ [m]).

Record dfs_inv (V : gset S) (P : M) (Q : list S) : Prop := {
  dfs_root : pm_get P start = None;
  dfs_start : start ∈ V \/ (V = ∅ /\ Q = [start]);
  dfs_V : V ⊆ U;
  dfs_Q : forall q, q ∈ Q -> q ∈ U;
  dfs_chain : forall v, v ∈ V -> exists l, chain P v l /\ forall x, x ∈ l -> x ∈ V;
  dfs_queue : forall q, q ∈ Q -> q ∉ V -> q = start \/ exists p, p ∈ V /\ pm_get P q = Some p /\ edge succ p q;
  dfs_plain : forall v, v ∈ V -> is_target v = false;
  dfs_closed : forall v m, v ∈ V -> edge succ v m -> m ∈ V \/ m ∈ Q;
}.

Lemma dfs_push_all V n l P Q :
  let '(P', Q') := foldl (dfs_push V n) (P, Q) l in
  (forall k, k ∈ V \/ k ∉ l -> pm_get P' k = pm_get P k) /\
  (forall k, k ∈ l -> k ∉ V -> pm_get P' k = Some n) /\
  (forall q, q ∈ Q' <-> q ∈ Q \/ (q ∈ l /\ q ∉ V)) /\
  length Q' <= length Q + length l.
Proof.
  revert P Q. induction l as [|m l IH]; intros P Q; simpl.
  - split_and!; [done|set_solver|set_solver|lia].
  - case_decide as Hm; [specialize (IH P Q)|specialize (IH (pm_insert P m n) (m :: Q))];
      destruct (foldl _ _ l) as [P' Q']; destruct IH as (H1 & H2 & H3 & H4); split_and!.
    + intros k Hk. apply H1. set_solver.
    + intros k Hk HV. apply H2; set_solver.
    + intros q. rewrite H3. set_solver.
    + lia.
    + intros k Hk. rewrite H1 by set_solver. apply pm_get_insert_ne. set_solver.
    + intros k Hk HV. destruct (decide (k ∈ l)); [by apply H2|].
      rewrite H1 by auto. assert (k = m) as -> by set_solver. apply pm_get_insert_eq.
    + intros q. rewrite H3. set_solver.
    + simpl in H4. lia.
Qed.

Lemma chain_mono P P' v l : chain P v l -> (forall x, x ∈ l -> pm_get P' x = pm_get P x) -> chain P' v l.
Proof.
  induction 1 as [Hr|p m l Hc IH Hp He Hm]; intros Hx.
  - constructor. rewrite Hx; set_solver.
  - econstructor; [apply IH| | |]; eauto; [|rewrite Hx; set_solver]. set_solver.
Qed.

Lemma chain_facts P v l : chain P v l ->
  head l = Some start /\ last l = Some v /\ NoDup l /\ is_path succ l /\ v ∈ l.
Proof.
  induction 1 as [Hr|p m l Hc (H1 & H2 & H3 & H4 & H5) Hp He Hm].
  - split_and!; [done..|apply NoDup_singleton| |set_solver]. intros [|i] x y; done.
  - split_and!.
    + by destruct l.
    + apply last_snoc.
    + apply NoDup_app. split_and!; [done|set_solver|apply NoDup_singleton].
    + by eapply is_path_snoc.
    + set_solver.
Qed.

Lemma unwind_chain P e l : chain P e l -> forall fuel acc,
  length l <= fuel -> unwind fuel P e acc = Ret (acc ++ tail (rev l)).
Proof.
  intros Hc. assert (forall P', (forall x, x ∈ l -> pm_get P' x = pm_get P x) -> forall fuel acc,
    length l <= fuel -> unwind fuel P' e acc = Ret (acc ++ tail (rev l))) as G; [|intros; by apply G].
  induction Hc as [Hr|p m l Hc IH Hp He Hm]; intros P' HP' fuel acc Hf;
    (destruct fuel as [|fuel]; [simpl in Hf; try rewrite length_app in Hf; simpl in Hf; lia|]); simpl.
  - pose proof (pm_remove_get P' start) as E. rewrite HP', Hr in E by set_solver.
    destruct (pm_remove P' start) as [P'' o]. simpl in E. subst. by rewrite app_nil_r.
  - pose proof (pm_remove_get P' m) as E. rewrite HP', Hp in E by set_solver.
    pose proof (fun k => pm_get_remove_ne P' m k) as Hne.
    destruct (pm_remove P' m) as [P'' o]. simpl in E, Hne. subst.
    destruct (chain_facts _ _ _ Hc) as (_ & Hlast & _).
    rewrite IH; [|intros x Hx; rewrite Hne by set_solver; apply HP'; set_solver
                 |rewrite length_app in Hf; simpl in Hf; lia].
    f_equal. rewrite rev_unit. simpl. rewrite <- app_assoc. f_equal.
    apply last_Some in Hlast as [l' ->]. by rewrite rev_unit.
Qed.

Lemma dfs_inv_step V P Q n succs :
  dfs_inv V P (n :: Q) -> n ∉ V -> is_target n = false -> succ n = Ret succs ->
  let '(P', Q') := foldl (dfs_push ({[ n ]} ∪ V) n) (P, Q) succs in dfs_inv ({[ n ]} ∪ V) P' Q'.
Proof.
  intros [Hr Hs HV HQ Hch Hq Hpl Hcl] Hn Ht Hl.
  pose proof (dfs_push_all ({[ n ]} ∪ V) n succs P Q) as Hp.
  destruct (foldl _ _ _) as [P' Q']. destruct Hp as (H1 & H2 & H3 & _).
  assert (n ∈ U) as HnU by (apply HQ; set_solver).
  destruct (Hclosed n HnU) as (l' & El' & Hsub). assert (l' = succs) as -> by congruence.
  assert (exists l, chain P n l /\ forall x, x ∈ l -> x ∈ {[ n ]} ∪ V) as (ln & Hln & Hlsub).
  { destruct (Hq n) as [->|(p & Hp & Hpn & He)]; [set_solver|done| |].
    - exists [start]. split; [by constructor|set_solver].
    - destruct (Hch p Hp) as (l & Hl' & Hsub'). exists (l ++ [n]). split; [|set_solver].
      econstructor; eauto. }
  assert (start ∈ {[ n ]} ∪ V) as HsV by (destruct Hs as [|[-> [= ->]]]; set_solver).
  split.
  - rewrite H1; auto.
  - auto.
  - set_solver.
  - intros q [?|[? _]]%H3; [apply HQ; set_solver|auto].
  - assert (forall v l, chain P v l -> (forall x, x ∈ l -> x ∈ {[ n ]} ∪ V) ->
      exists l, chain P' v l /\ forall x, x ∈ l -> x ∈ {[ n ]} ∪ V) as Hkeep.
    { intros v l Hc Hx. exists l. split; [|done]. eapply chain_mono; [done|]. intros x Hxl. apply H1. auto. }
    intros v [->%elem_of_singleton|Hv]%elem_of_union; [by eapply Hkeep|].
    destruct (Hch v Hv) as (l & Hc & Hx). eapply Hkeep; [done|]. set_solver.
  - intros q HqQ HqV. destruct (decide (q ∈ succs)) as [Hqs|Hqs].
    + right. exists n. split_and!; [set_solver|by apply H2|by exists succs].
    + apply H3 in HqQ as [HqQ|[? _]]; [|done]. rewrite H1 by auto.
      destruct (Hq q) as [?|(p & ? & ? & ?)]; [set_solver|set_solver|auto|].
      right. exists p. set_solver.
  - set_solver.
  - intros v m [->%elem_of_singleton|Hv]%elem_of_union He.
    + destruct He as (l & El & Hm). assert (l = succs) as -> by congruence. rewrite H3.
      destruct (decide (m ∈ {[ n ]} ∪ V)); auto.
    + destruct (Hcl v m Hv He) as [|Hm]; [set_solver|].
      rewrite H3. apply elem_of_cons in Hm as [->|]; set_solver.
Qed.

Lemma dfs_loop_correct fuel : forall V P Q,
  dfs_inv V P Q -> length Q + total_degree succ (U ∖ V) < fuel ->
  exists r P', dfs_loop succ is_target fuel V P Q = Ret (r, P') /\
    match r with
    | Some e => is_target e = true /\ exists l, chain P' e l /\ forall x, x ∈ l -> x ∈ U
    | None => forall x, rtc (edge succ) start x -> is_target x = false
    end.
Proof.
  induction fuel as [|fuel IH]; intros V P Q Hinv Hf; [lia|]. simpl.
  destruct Q as [|n Q].
  - eexists _, _. split; [reflexivity|]. intros x Hx.
    destruct Hinv as [_ Hs _ _ _ _ Hpl Hcl]. apply Hpl. destruct Hs as [Hs|[_ Hs]]; [|done].
    revert Hs. apply (rtc_closed (edge succ) (fun a => a ∈ V) start x); [|done].
    intros a b Ha He. destruct (Hcl a b Ha He) as [|?%elem_of_nil]; done.
  - case_decide as Hn.
    + apply IH; [|simpl in Hf; lia]. destruct Hinv as [Hr Hs HV HQ Hch Hq Hpl Hcl].
      split; [done| |done| |done| |done|].
      * destruct Hs as [|[-> _]]; set_solver.
      * intros q Hq'. apply HQ. set_solver.
      * intros q Hq' HqV. apply Hq; [set_solver|done].
      * intros v m Hv He. destruct (Hcl v m Hv He); set_solver.
    + assert (n ∈ U) as HnU by (apply (dfs_Q _ _ _ Hinv); set_solver).
      destruct (is_target n) eqn:Ht.
      { eexists _, _. split; [reflexivity|]. split; [done|]. pose proof Hinv as [Hr Hs HV HQ Hch Hq _ _].
        destruct (Hq n) as [->|(p & Hp & Hpn & He)]; [set_solver|done| |].
        - exists [start]. split; [by constructor|set_solver].
        - destruct (Hch p Hp) as (l & Hl' & Hsub'). exists (l ++ [n]). split; [|set_solver].
          econstructor; eauto. }
      destruct (Hclosed n HnU) as (succs & El & _). rewrite El. simpl.
      pose proof (dfs_inv_step V P Q n succs Hinv Hn Ht El) as Hinv'.
      pose proof (dfs_push_all ({[ n ]} ∪ V) n succs P Q) as Hp.
      destruct (foldl _ _ _) as [P' Q']. destruct Hp as (_ & _ & _ & Hlen).
      apply IH; [done|]. rewrite (total_degree_visit succ U V n) in Hf by done.
      unfold out_degree in Hf. rewrite El in Hf. simpl in Hf. lia.
Qed.

Lemma dfs_inv_init P : (forall k, pm_get P k = None) -> dfs_inv ∅ P [start].
Proof. intros HP. split; auto; set_solver. Qed.

(** The search as a whole: loop and path reconstruction. *)
Lemma dfs_search_correct P fuel : (forall k, pm_get P k = None) -> search_fuel succ U <= fuel ->
  exists r P', dfs_loop succ is_target fuel ∅ P [start] = Ret (r, P') /\
    match r with
    | Some e => is_target e = true /\ exists l, unwind fuel P' e [e] = Ret (rev l) /\
        head l = Some start /\ last l = Some e /\ NoDup l /\ is_path succ l
    | None => forall x, rtc (edge succ) start x -> is_target x = false
    end.
Proof.
  intros HP Hf. unfold search_fuel in Hf.
  destruct (dfs_loop_correct fuel ∅ P [start]) as (r & P' & E & Hr); [by apply dfs_inv_init| |].
  { rewrite difference_empty_L. simpl. lia. }
  exists r, P'. split; [done|]. destruct r as [e|]; [|done].
  destruct Hr as (Ht & l & Hc & Hsub). split; [done|]. exists l.
  destruct (chain_facts _ _ _ Hc) as (Hh & Hl & Hnd & Hp & _). split_and!; auto.
  rewrite (unwind_chain _ _ _ Hc).
  - apply last_Some in Hl as [l' ->]. by rewrite rev_unit.
  - assert (length l <= size U); [|lia]. rewrite <- (size_list_to_set (C:=gset S) l) by done.
    apply subseteq_size. set_solver.
Qed.
End dfs_correct.

(** ** Graph-level statements *)

Definition node_set `{DirectedGraph G} (g : G) : gset nat := set_seq 0 (num_nodes g).

(** Nodes are densely numbered and every edge stays in range. *)
Definition graph_wf `{Successors G} (g : G) : Prop := closed_under (successors g) (node_set g).

Lemma elem_of_node_set `{DirectedGraph G} (g : G) n : n ∈ node_set g <-> n < num_nodes g.
Proof. unfold node_set. rewrite elem_of_set_seq. lia. Qed.

Definition reaches `{Successors G} (g : G) : relation nat := rtc (edge (successors g)).

Definition valid_path `{Successors G} (g : G) (start e : nat) (l : list nat) : Prop :=
  head l = Some start /\ last l = Some e /\ NoDup l /\ is_path (successors g) l.

Section reach_correct.
Context `{Successors G} `{!StartNode G}.
Variable g : G.
Hypothesis Hwf : graph_wf g.
Hypothesis Hstart : start_node g < num_nodes g.

Record reach_inv (nodes : list nat) (seen : gset nat) (acc : list nat) : Prop := {
  ri_nodup : NoDup acc;
  ri_acc : forall x, x ∈ acc <-> x ∈ seen;
  ri_seen : forall x, x ∈ seen -> x < num_nodes g /\ reaches g (start_node g) x;
  ri_nodes : forall x, x ∈ nodes -> x < num_nodes g /\ reaches g (start_node g) x;
  ri_start : start_node g ∈ seen \/ start_node g ∈ nodes;
  ri_closed : forall v m, v ∈ seen -> edge (successors g) v m -> m ∈ seen \/ m ∈ nodes;
}.

Lemma reach_inv_skip n nodes seen acc :
  reach_inv (n :: nodes) seen acc -> n ∈ seen -> reach_inv nodes seen acc.
Proof.
  intros [? ? ? Hn Hs Hc] Hin. split; auto; [set_solver| |].
  - destruct Hs as [|[->|]%elem_of_cons]; auto.
  - intros v m Hv He. destruct (Hc v m Hv He) as [|[->|]%elem_of_cons]; auto.
Qed.

Lemma reach_inv_visit n nodes seen acc succs :
  reach_inv (n :: nodes) seen acc -> n ∉ seen -> successors g n = Ret succs ->
  reach_inv (rev succs ++ nodes) ({[ n ]} ∪ seen) (acc ++ [n]).
Proof.
  intros [Hnd Hacc Hseen Hn Hs Hc] Hin El.
  destruct (Hn n) as [Hlt Hr]; [set_solver|].
  assert (forall m, m ∈ rev succs <-> m ∈ succs) as Hrev by (intros m; rewrite !list_elem_of_In; symmetry; apply in_rev).
  split.
  - apply NoDup_app. split_and!; [done|set_solver|apply NoDup_singleton].
  - set_solver.
  - set_solver.
  - intros x [Hx|Hx]%elem_of_app; [|apply Hn; set_solver]. apply Hrev in Hx.
    assert (edge (successors g) n x) as He by (by exists succs). split.
    + destruct (Hwf n) as (l & El' & Hl); [by apply elem_of_node_set|].
      assert (l = succs) as -> by congruence. by apply elem_of_node_set, Hl.
    + eapply rtc_r; eauto.
  - set_solver.
  - intros v m [->%elem_of_singleton|Hv]%elem_of_union He.
    + destruct He as (l & El' & Hm). assert (l = succs) as -> by congruence. right. apply elem_of_app. left. by apply Hrev.
    + destruct (Hc v m Hv He) as [|[->|]%elem_of_cons]; set_solver.
Qed.

Lemma reach_loop_correct fuel : forall nodes seen acc,
  reach_inv nodes seen acc -> length nodes + total_degree (successors g) (node_set g ∖ seen) < fuel ->
  exists r, reach_loop fuel g nodes seen acc = Ret r /\ NoDup r /\
    connected_loop fuel g nodes seen (length acc) = Ret (length r) /\
    forall x, x ∈ r <-> reaches g (start_node g) x.
Proof.
  induction fuel as [|fuel IH]; intros nodes seen acc Hinv Hf; [lia|]. simpl.
  destruct nodes as [|n nodes].
  - destruct Hinv as [Hnd Hacc Hseen _ [Hs|Hs%elem_of_nil] Hc]; [|done].
    exists acc. split_and!; auto. intros x. rewrite Hacc. split; [apply Hseen|].
    intros Hr. revert Hs. eapply (rtc_closed _ (fun v => v ∈ seen)); [|exact Hr].
    intros v m Hv He. by destruct (Hc v m Hv He) as [|?%elem_of_nil].
  - destruct (decide (n ∈ seen)) as [Hn|Hn].
    + apply IH; [by eapply reach_inv_skip|]. simpl in Hf. lia.
    + assert (n ∈ node_set g) as HnU by (apply elem_of_node_set, (ri_nodes _ _ _ Hinv); set_solver).
      destruct (Hwf n HnU) as (succs & El & _). rewrite El. simpl.
      replace (length acc + 1) with (length (acc ++ [n])) by (rewrite length_app; done).
      apply IH; [by apply reach_inv_visit|].
      rewrite (total_degree_visit _ _ seen n) in Hf by done. unfold out_degree in Hf.
      rewrite El in Hf. rewrite length_app, length_rev. simpl in Hf. lia.
Qed.

Lemma reach_search_correct fuel : search_fuel (successors g) (node_set g) <= fuel ->
  exists r, reachable fuel g = Ret r /\ NoDup r /\
    is_connected fuel g = Ret (bool_decide (length r = num_nodes g)) /\
    forall x, x ∈ r <-> reaches g (start_node g) x.
Proof.
  intros Hf. unfold search_fuel in Hf.
  destruct (reach_loop_correct fuel [start_node g] ∅ []) as (r & E & Hnd & Ec & Hr).
  - assert (forall x, x ∈ [start_node g] -> x < num_nodes g /\ reaches g (start_node g) x)
      by (intros x ->%list_elem_of_singleton; split; [done|apply rtc_refl]).
    split; [apply NoDup_nil_2|set_solver..].
  - rewrite difference_empty_L. simpl. lia.
  - exists r. unfold is_connected, reachable. simpl in Ec. by rewrite E, Ec.
Qed.
End reach_correct.

(** A closed set contains everything reachable from it. *)
Lemma reaches_in_range `{Successors G} (g : G) n x :
  graph_wf g -> n < num_nodes g -> reaches g n x -> x < num_nodes g.
Proof.
  intros Hwf Hn Hr. revert Hn. eapply (rtc_closed _ (fun v => v < num_nodes g)); [|exact Hr].
  intros v m Hv (l & El & Hm). destruct (Hwf v) as (l' & El' & Hl); [by apply elem_of_node_set|].
  assert (l = l') as -> by congruence. apply elem_of_node_set. auto.
Qed.

(** The adjacency-list graph the graph tests use. *)
Definition AdjList : Type := list (list nat).
#[export] Instance AdjList_DirectedGraph : DirectedGraph AdjList := {| num_nodes g := length g |}.
#[export] Instance AdjList_StartNode : StartNode AdjList := {| start_node _ := 0 |}.
#[export] Instance AdjList_Successors : Successors AdjList := {| successors g n := iv_index g n |}.

#[export] Instance graph_wf_dec (g : AdjList) : Decision (graph_wf g).
Proof.
  refine (cast_if (decide (Forall (Forall (fun m => m < length g)) g))).
  - intros n Hn%elem_of_node_set. destruct (lookup_lt_is_Some_2 g n Hn) as [l Hl].
    exists l. split; [by unfold successors, AdjList_Successors, iv_index; rewrite Hl|].
    intros m Hm. apply elem_of_node_set. rewrite Forall_lookup in f.
    by apply (proj1 (Forall_forall _ _) (f n l Hl)).
  - intros Hwf. apply n. apply Forall_lookup. intros i l Hl.
    destruct (Hwf i) as (l' & El & Hm); [apply elem_of_node_set; by eapply lookup_lt_Some|].
    unfold successors, AdjList_Successors, iv_index in El. rewrite Hl in El. injection El as <-.
    apply Forall_forall. intros m Hm'. exact (proj1 (elem_of_node_set g m) (Hm m Hm')).
Defined.

(** [find_path_to_set] is sound, complete and total: from a node of a well-formed graph it
    terminates without panicking; the path it returns starts at [start], follows edges, repeats
    no node and ends at a target, and it returns [None] only when no target is reachable. *)
Theorem find_path_to_set_correct `{Successors G} (g : G) (start : nat) (is_target : nat -> bool) fuel :
  graph_wf g -> start < num_nodes g -> search_fuel (successors g) (node_set g) <= fuel ->
  exists r, find_path_to_set fuel g start is_target = Ret r /\
    match r with
    | Some l => exists e, is_target e = true /\ valid_path g start e l
    | None => forall x, reaches g start x -> is_target x = false
    end.
Proof.
  intros Hwf Hs Hf. apply elem_of_node_set in Hs as HsU.
  destruct (dfs_search_correct (successors g) is_target start (node_set g) HsU Hwf
    (replicate (num_nodes g) None) fuel) as (r & P' & E & Hr); [|done|].
  { apply iv_get_replicate. }
  unfold find_path_to_set. rewrite E. simpl. destruct r as [e|]; simpl.
  - destruct Hr as (Ht & l & -> & Hl). rewrite Ht. exists (Some l). simpl. rewrite rev_involutive.
    split; [done|]. by exists e.
  - rewrite (Hr start) by apply rtc_refl. by exists None.
Qed.

Lemma find_path_to_set_correct_witness :
  let g : AdjList := [[1; 2]; [3]; [0]; [1]] in
  exists l e, find_path_to_set 20 g 2 (fun n => Nat.odd n) = Ret (Some l) /\ valid_path g 2 e l.
Proof.
  pose proof (find_path_to_set_correct ([[1; 2]; [3]; [0]; [1]] : AdjList) 2 (fun n => Nat.odd n) 20) as T.
  destruct T as (r & E & Hr); [by_decide|by_decide|by_decide|].
  destruct r as [l|]; [|vm_compute in E; discriminate].
  destruct Hr as (e & _ & Hl). exists l, e. auto.
Defined.

(** [find_path] decides reachability: it returns a path from [start] to [e] exactly when
    [e] is reachable from [start]. *)
Theorem find_path_correct `{Successors G} (g : G) (start e : nat) fuel :
  graph_wf g -> start < num_nodes g -> search_fuel (successors g) (node_set g) <= fuel ->
  exists r, find_path fuel g start e = Ret r /\ (is_Some r <-> reaches g start e) /\
    forall l, r = Some l -> valid_path g start e l.
Proof.
  intros Hwf Hs Hf. apply elem_of_node_set in Hs as HsU.
  destruct (dfs_search_correct (successors g) (fun n => bool_decide (e = n)) start (node_set g) HsU Hwf
    (replicate (num_nodes g) None) fuel) as (r & P' & E & Hr); [|done|].
  { apply iv_get_replicate. }
  unfold find_path, find_path_to_set. rewrite E. simpl. destruct r as [e'|]; simpl.
  - destruct Hr as (Ht & l & -> & Hl). rewrite Ht. simpl. rewrite rev_involutive.
    apply bool_decide_eq_true in Ht as <-. exists (Some l). split_and!; [done| |by intros ? [= <-]].
    split; [intros _|eauto]. destruct Hl as (Hh & Hlast & _ & Hp). clear -Hh Hlast Hp.
    revert start Hh. induction l as [|x l IH]; intros start Hh; [done|]. simplify_eq/=.
    destruct l as [|y l]; simplify_eq/=; [apply rtc_refl|].
    eapply rtc_l; [apply (Hp 0); done|]. apply IH; [done|intros i; apply (Hp (S i))|done].
  - rewrite (Hr start) by apply rtc_refl. exists None. split_and!; [done| |done].
    split; [by intros []|]. intros Hr'%Hr. by apply bool_decide_eq_false in Hr'.
Qed.

Lemma find_path_correct_witness :
  let g : AdjList := [[1; 2]; [3]; [0]; [1]] in
  exists r, find_path 20 g 3 0 = Ret r /\ (is_Some r <-> reaches g 3 0).
Proof.
  destruct (find_path_correct ([[1; 2]; [3]; [0]; [1]] : AdjList) 3 0 20) as (r & E & Hr & _);
    [by_decide|by_decide|by_decide|]. exists r. auto.
Defined.

(** [reachable] lists exactly the nodes reachable from the start node, each once, and
    [is_connected] answers whether that is every node of the graph; neither panics nor loops
    on a well-formed graph. *)
Theorem reachable_correct `{Successors G} `{!StartNode G} (g : G) fuel :
  graph_wf g -> start_node g < num_nodes g -> search_fuel (successors g) (node_set g) <= fuel ->
  exists r b, reachable fuel g = Ret r /\ NoDup r /\ (forall x, x ∈ r <-> reaches g (start_node g) x) /\
    is_connected fuel g = Ret b /\
    (b = true <-> forall n, n < num_nodes g -> reaches g (start_node g) n).
Proof.
  intros Hwf Hs Hf. destruct (reach_search_correct g Hwf Hs fuel Hf) as (r & E & Hnd & Ec & Hr).
  exists r, (bool_decide (length r = num_nodes g)). split_and!; auto.
  rewrite bool_decide_eq_true. split.
  - intros Hlen n Hn. apply Hr.
    assert (r ⊆+ seq 0 (num_nodes g)) as Hsub.
    { apply NoDup_submseteq; [done|]. intros x Hx%Hr. apply elem_of_seq.
      pose proof (reaches_in_range g _ x Hwf Hs Hx). lia. }
    apply submseteq_length_Permutation in Hsub; [|by rewrite length_seq, Hlen].
    rewrite Hsub. apply elem_of_seq. lia.
  - intros Hall. rewrite <- (length_seq (num_nodes g) 0). apply Permutation_length, NoDup_Permutation;
      [done|apply NoDup_seq|]. intros x. rewrite Hr, elem_of_seq. split.
    + intros Hx. pose proof (reaches_in_range g _ x Hwf Hs Hx). lia.
    + intros [_ Hx]. by apply Hall.
Qed.

Lemma reachable_correct_witness :
  let g : AdjList := [[1; 2]; [3]; [0]; [1]] in
  exists r b, reachable 20 g = Ret r /\ is_connected 20 g = Ret b /\
    (b = true <-> forall n, n < num_nodes g -> reaches g (start_node g) n).
Proof.
  destruct (reachable_correct ([[1; 2]; [3]; [0]; [1]] : AdjList) 20) as (r & b & E & _ & _ & Ec & Hb);
    [by_decide|by_decide|by_decide|]. exists r, b. auto.
Defined.

(** One step of an annotated search: an edge the annotation does not prune. *)
Definition annotated_step {G L A} `{LabeledSuccessors G L} `{Annotation G L A} (g : G)
    (s t : nat * A) : Prop :=
  exists label, (t.1, label) ∈ labeled_successors g s.1 /\ expand g s.2 s.1 label t.1 = Some t.2.

Lemma annotated_edge {G L A} `{LabeledSuccessors G L} `{Annotation G L A} (g : G) s t :
  edge (annotated_succ g) s t <-> annotated_step g s t.
Proof.
  destruct s as [n a], t as [m b]. unfold edge, annotated_step; simpl. split.
  - intros (l & [= <-] & ([m' label] & Hl & Hb)%list_elem_of_omap).
    destruct (expand _ _ _ _ _) eqn:E; simplify_eq/=. eauto.
  - intros (label & Hl & Hb). eexists. split; [done|]. apply list_elem_of_omap.
    exists (m, label). by rewrite Hb.
Qed.

(** [find_annotated_path_to_set] is sound, complete and total over [(node, annotation)]
    states: whenever the states it can reach are finitely many, the path it returns starts at
    [start] with the start annotation, each step is an edge the annotation expands along, no
    state repeats, the last state is a target, and [None] means no target state is reachable. *)
Theorem find_annotated_path_to_set_correct {G L A} `{LabeledSuccessors G L} `{Annotation G L A}
    `{Countable A} (g : G) (start : nat) (is_target : nat -> A -> bool) (U : gset (nat * A)) fuel :
  (start, annot_start) ∈ U ->
  (forall s t, s ∈ U -> annotated_step g s t -> t ∈ U) ->
  search_fuel (annotated_succ g) U <= fuel ->
  exists r, find_annotated_path_to_set fuel g start is_target = Ret r /\
    match r with
    | Some l => exists e, is_target e.1 e.2 = true /\ head l = Some (start, annot_start) /\
        last l = Some e /\ NoDup l /\
        forall i s t, l !! i = Some s -> l !! S i = Some t -> annotated_step g s t
    | None => forall s, rtc (annotated_step g) (start, annot_start) s -> is_target s.1 s.2 = false
    end.
Proof.
  intros Hs Hc Hf.
  destruct (dfs_search_correct (annotated_succ g) (fun st => is_target st.1 st.2) (start, annot_start) U
    Hs) with (P := ∅ : gmap (nat * A) (nat * A)) (fuel := fuel) as (r & P' & E & Hr); [|done|done|].
  { intros [n a] Hn. eexists. split; [reflexivity|]. intros t Ht. eapply Hc; [done|].
    apply annotated_edge. by eexists. }
  unfold find_annotated_path_to_set. rewrite E. simpl. destruct r as [e|].
  - destruct Hr as (Ht & l & -> & Hh & Hl & Hnd & Hp). exists (Some l). simpl. rewrite rev_involutive.
    split; [done|]. exists e. split_and!; auto. intros i s t Hi Hi'. apply annotated_edge. by eapply Hp.
  - exists None. split; [done|]. intros s Hr'. apply Hr. clear -Hr'.
    induction Hr'; [apply rtc_refl|]. eapply rtc_l; [|done]. by apply annotated_edge.
Qed.

(** An edge-labelled graph where an annotation allows one [true] edge per path. *)
Definition LabeledAdjList : Type := list (list (nat * bool)).
#[local] Instance LabeledAdjList_DirectedGraph : DirectedGraph LabeledAdjList := {| num_nodes g := length g |}.
#[local] Instance LabeledAdjList_Labeled : LabeledSuccessors LabeledAdjList bool :=
  {| labeled_successors g n := default [] (g !! n) |}.
#[local] Instance once : Annotation LabeledAdjList bool bool :=
  {| annot_start := false; expand _ a _ label _ := if a && label then None else Some (a || label) |}.

Lemma find_annotated_path_to_set_correct_witness :
  let g : LabeledAdjList := [[(1, true)]; [(2, true); (0, false)]; []] in
  exists r, find_annotated_path_to_set 30 g 0 (fun n _ => bool_decide (n = 2)) = Ret r /\
    (r = None -> forall s, rtc (annotated_step g) (0, false) s -> bool_decide (s.1 = 2) = false).
Proof.
  set (g := [[(1, true)]; [(2, true); (0, false)]; []] : LabeledAdjList).
  destruct (find_annotated_path_to_set_correct g 0 (fun n _ => bool_decide (n = 2))
    (list_to_set [(0, false); (1, true); (0, true)]) 30) as (r & E & Hr).
  - by_decide.
  - intros s [m b] Hs (label & Hl & He). apply elem_of_list_to_set in Hs.
    repeat (apply elem_of_cons in Hs as [->|Hs]); [..|by apply elem_of_nil in Hs]; simpl in Hl, He;
      repeat (apply elem_of_cons in Hl as [[= -> ->]|Hl]); try (by apply elem_of_nil in Hl);
      simplify_eq/=; by_decide.
  - by_decide.
  - exists r. split; [exact E|]. intros ->. exact Hr.
Defined.
