(* ===== verification/Search.v ===== *)
(** * Search: breadth-first search from a set of nodes ([graph/mod.rs])

    [find_annotated_paths_from_set] explores the whole reachable state space of a lazily
    expanded graph and records the first-reach forest; [path_to] follows its parent links.
    State indices are [u32]: [states.len() as u32] wraps, so the theorem asks for fewer than
    [2^32] reachable states.  The loops run once per state, so any fuel above the number of
    reachable states is enough. *)

From S2P Require Import Prelude Index Graph.

Definition as_u32 (n : nat) : N := (N.of_nat n mod 2 ^ 32)%N.

Record SearchState (Nd L A : Type) : Type := mk_state {
  node : Nd;
  annot : A;
  parent : option N;
  edge_label : option L;
}.
Arguments mk_state {Nd L A}.
Arguments node {Nd L A}.
Arguments annot {Nd L A}.
Arguments parent {Nd L A}.
Arguments edge_label {Nd L A}.

Record AnnotatedSetSearch (Nd L A : Type) : Type := { states : list (SearchState Nd L A); targets : list N }.
Arguments states {Nd L A}.
Arguments targets {Nd L A}.
Arguments Build_AnnotatedSetSearch {Nd L A}.

(** The parent-link walk of [path_to], newest state first. *)
Fixpoint path_to_loop {Nd L A} (fuel : nat) (sts : list (SearchState Nd L A)) (path : list N) (cur : N)
  : outcome (list N) :=
  match fuel with
  | 0 => OutOfFuel
  | S fuel =>
      s ← unwrap (sts !! N.to_nat cur);
      match parent s with
      | Some p => path_to_loop fuel sts (path ++ [p]) p
      | None => Ret path
      end
  end.

Definition path_to {Nd L A} (fuel : nat) (r : AnnotatedSetSearch Nd L A) (state : N) : outcome (list N) :=
  path ← path_to_loop fuel (states r) [state] state;
  Ret (rev path).

Section bfs.
Context {G Nd L A : Type} `{LazySuccessors G Nd L} `{LazyAnnotation G Nd L A} `{Countable Nd} `{Countable A}.

(** The locals of the search: [visited], [states], [targets] and [queue]. *)
Record search_vars : Type := mk_vars {
  visited : gmap (Nd * A) N;
  v_states : list (SearchState Nd L A);
  v_targets : list N;
  queue : list N;
}.

(** The body shared by both loops: record a state unless its key was visited. *)
Definition add_state (is_target : Nd -> A -> bool) (key : Nd * A) (par : option N) (lab : option L)
    (v : search_vars) : search_vars :=
  match visited v !! key with
  | Some _ => v
  | None =>
      let idx := as_u32 (length (v_states v)) in
      {| visited := <[key := idx]> (visited v);
         v_states := v_states v ++ [mk_state key.1 key.2 par lab];
         v_targets := if is_target key.1 key.2 then v_targets v ++ [idx] else v_targets v;
         queue := queue v ++ [idx] |}
  end.

Definition add_start (is_target : Nd -> A -> bool) (v : search_vars) (n : Nd) : search_vars :=
  add_state is_target (n, lazy_start) None None v.

Definition add_succ (graph : G) (is_target : Nd -> A -> bool) (cur : N) (s : SearchState Nd L A)
    (v : search_vars) (e : Nd * L) : search_vars :=
  let '(next, label) := e in
  match lazy_expand graph (annot s) (node s) label next with
  | None => v
  | Some a => add_state is_target (next, a) (Some cur) (Some label) v
  end.

Fixpoint bfs_loop (fuel : nat) (graph : G) (is_target : Nd -> A -> bool) (v : search_vars)
  : outcome search_vars :=
  match fuel with
  | 0 => OutOfFuel
  | S fuel =>
      match queue v with
      | [] => Ret v
      | cur :: q =>
          let v := {| visited := visited v; v_states := v_states v; v_targets := v_targets v; queue := q |} in
          s ← unwrap (v_states v !! N.to_nat cur);
          let succs := lazy_successors graph (node s) in
          bfs_loop fuel graph is_target (foldl (add_succ graph is_target cur s) v succs)
      end
  end.

Definition find_annotated_paths_from_set (fuel : nat) (graph : G) (starts : list Nd)
    (is_target : Nd -> A -> bool) : outcome (AnnotatedSetSearch Nd L A) :=
  let v := foldl (add_start is_target) (mk_vars ∅ [] [] []) starts in
  v ← bfs_loop fuel graph is_target v;
  Ret {| states := v_states v; targets := v_targets v |}.

(** ** Correctness *)

Definition key (s : SearchState Nd L A) : Nd * A := (node s, annot s).

(** An edge of the annotated state space. *)
Definition lazy_step (graph : G) (s t : Nd * A) : Prop :=
  exists label, (t.1, label) ∈ lazy_successors graph s.1 /\
    lazy_expand graph s.2 s.1 label t.1 = Some t.2.

Definition target_indices (is_target : Nd -> A -> bool) (sts : list (SearchState Nd L A)) : list N :=
  mjoin (imap (fun i s => if is_target (node s) (annot s) then [N.of_nat i] else []) sts).

Context (graph : G) (is_target : Nd -> A -> bool) (starts : list Nd) (U : gset (Nd * A)).
Hypothesis Hsmall : (N.of_nat (size U) < 2 ^ 32)%N.
Hypothesis Hstarts : forall n, n ∈ starts -> (n, lazy_start) ∈ U.
Hypothesis Hclosed : forall s t, s ∈ U -> lazy_step graph s t -> t ∈ U.

(** Where state [i] came from, with its depth [d] in the forest. *)
Definition link_ok (sts : list (SearchState Nd L A)) (ds : list nat) (i : nat) (s : SearchState Nd L A) (d : nat) : Prop :=
  match parent s with
  | None => node s ∈ starts /\ annot s = lazy_start /\ edge_label s = None /\ d = 0
  | Some p => exists j sp label d', p = N.of_nat j /\ j < i /\ sts !! j = Some sp /\
      edge_label s = Some label /\ (node s, label) ∈ lazy_successors graph (node sp) /\
      lazy_expand graph (annot sp) (node sp) label (node s) = Some (annot s) /\
      ds !! j = Some d' /\ d = S d'
  end.

Record core (v : search_vars) (ds : list nat) : Prop := {
  c_nodup : NoDup (key <$> v_states v);
  c_visited : forall k, is_Some (visited v !! k) <-> k ∈ key <$> v_states v;
  c_U : forall k, k ∈ key <$> v_states v -> k ∈ U;
  c_len : length ds = length (v_states v);
  c_link : forall i s d, v_states v !! i = Some s -> ds !! i = Some d -> link_ok (v_states v) ds i s d;
  c_sorted : forall i j a b, i <= j -> ds !! i = Some a -> ds !! j = Some b -> a <= b;
  c_targets : v_targets v = target_indices is_target (v_states v);
}.

(** State [k] is recorded at depth at most [d]. *)
Definition found (v : search_vars) (ds : list nat) (k : Nd * A) (d : nat) : Prop :=
  exists j s d', v_states v !! j = Some s /\ key s = k /\ ds !! j = Some d' /\ d' <= d.

(** [v'] extends [v]: states and depths are appended, and the new indices are queued. *)
Record extends (v v' : search_vars) (ds ds' : list nat) : Prop := {
  e_states : v_states v `prefix_of` v_states v';
  e_ds : ds `prefix_of` ds';
  e_queue : queue v' = queue v ++ (N.of_nat <$> seq (length (v_states v)) (length (v_states v') - length (v_states v)));
}.

Lemma core_small v ds : core v ds -> (N.of_nat (length (v_states v)) < 2 ^ 32)%N /\ length (v_states v) <= size U.
Proof.
  intros Hc. assert (length (v_states v) <= size U); [|lia].
  rewrite <- (length_fmap key), <- (size_list_to_set (C:=gset _) _ (c_nodup _ _ Hc)).
  apply subseteq_size. intros k. rewrite elem_of_list_to_set. apply (c_U _ _ Hc).
Qed.

Lemma prefix_lookup_Some' {B} (l l' : list B) i x : l `prefix_of` l' -> l !! i = Some x -> l' !! i = Some x.
Proof. intros [k ->] Hi. by apply lookup_app_l_Some. Qed.

Lemma found_mono v v' ds ds' k d : extends v v' ds ds' -> found v ds k d -> found v' ds' k d.
Proof.
  intros [Hs Hd _] (j & s & d' & ? & ? & ? & ?).
  exists j, s, d'. split_and!; eauto using prefix_lookup_Some'.
Qed.

Lemma extends_refl v ds : extends v v ds ds.
Proof. split; [done..|]. by rewrite Nat.sub_diag, app_nil_r. Qed.

Lemma extends_trans v1 v2 v3 d1 d2 d3 : extends v1 v2 d1 d2 -> extends v2 v3 d2 d3 -> extends v1 v3 d1 d3.
Proof.
  intros [[k1 E1] [k2 E2] Q1] [[k3 E3] [k4 E4] Q2].
  split; [exists (k1 ++ k3); by rewrite E3, E1, app_assoc|exists (k2 ++ k4); by rewrite E4, E2, app_assoc|].
  rewrite Q2, Q1, <- app_assoc, <- fmap_app. do 2 f_equal.
  rewrite E3, E1, !length_app.
  replace (length (v_states v1) + length k1 - length (v_states v1)) with (length k1) by lia.
  replace (length (v_states v1) + length k1 + length k3 - (length (v_states v1) + length k1))
    with (length k3) by lia.
  rewrite <- seq_app. f_equal. lia.
Qed.

Lemma target_indices_snoc sts s : target_indices is_target (sts ++ [s]) =
  target_indices is_target sts ++ (if is_target (node s) (annot s) then [N.of_nat (length sts)] else []).
Proof.
  unfold target_indices. rewrite imap_app. unfold mjoin. rewrite list.join_app. simpl.
  by rewrite Nat.add_0_r, app_nil_r.
Qed.

(** Recording a state at depth [d], no shallower than any state so far. *)
Lemma add_state_core v ds k par lab d :
  core v ds -> k ∈ U -> Forall (fun x => x <= d) ds ->
  (forall i, i = length (v_states v) -> link_ok (v_states v) ds i (mk_state k.1 k.2 par lab) d) ->
  exists ds', core (add_state is_target k par lab v) ds' /\
    extends v (add_state is_target k par lab v) ds ds' /\
    Forall (fun x => x <= d) ds' /\ found (add_state is_target k par lab v) ds' k d.
Proof.
  intros Hc HkU Hd Hlink. destruct (core_small v ds Hc) as [Hsm _].
  destruct Hc as [Hnd Hv HU Hlen Hl Hs Ht]. unfold add_state.
  destruct (visited v !! k) as [i|] eqn:E.
  { exists ds. split_and!; [by split|apply extends_refl|done|].
    assert (k ∈ key <$> v_states v) as Hk by (apply Hv; eauto).
    apply list_elem_of_fmap in Hk as (s & -> & [j Hj]%list_elem_of_lookup).
    destruct (lookup_lt_is_Some_2 ds j) as [d' Hd']; [rewrite Hlen; by eapply lookup_lt_Some|].
    exists j, s, d'. split_and!; auto. rewrite Forall_lookup in Hd. eauto. }
  assert (k ∉ key <$> v_states v) as Hk by (rewrite <- Hv, E; by intros []).
  assert (as_u32 (length (v_states v)) = N.of_nat (length (v_states v))) as Eu by (by apply N.mod_small).
  rewrite Eu. set (s := mk_state k.1 k.2 par lab).
  assert (key s = k) as Eks by (by destruct k). exists (ds ++ [d]). split_and!.
  - split; simpl.
    + rewrite fmap_app. apply NoDup_app. simpl. rewrite Eks. split_and!; [done|set_solver|apply NoDup_singleton].
    + intros k'. rewrite fmap_app, elem_of_app. simpl. rewrite Eks, list_elem_of_singleton, <- Hv.
      destruct (decide (k = k')) as [<-|]; [rewrite lookup_insert_eq; split; eauto|].
      rewrite lookup_insert_ne by done. naive_solver.
    + intros k'. rewrite fmap_app, elem_of_app. simpl. rewrite Eks, list_elem_of_singleton. naive_solver.
    + rewrite !length_app. simpl. lia.
    + assert (forall i s' d', link_ok (v_states v) ds i s' d' -> link_ok (v_states v ++ [s]) (ds ++ [d]) i s' d') as Hm.
      { intros i s' d'. unfold link_ok. destruct (parent s'); [|done].
        intros (j & sp & lb & d'' & H1' & H2' & H3' & H4' & H5' & H6' & H7' & H8'). exists j, sp, lb, d''.
        split_and!; auto; by apply lookup_app_l_Some. }
      intros i s' d' Hi Hi'. apply lookup_app_Some in Hi as [Hi|[Hi Hi2]].
      * apply Hm, Hl; [done|]. rewrite lookup_app_l in Hi'; [done|]. rewrite Hlen. by eapply lookup_lt_Some.
      * apply list_lookup_singleton_Some in Hi2 as [Hi0 <-].
        assert (i = length ds) as -> by lia. rewrite lookup_app_r, Nat.sub_diag in Hi' by lia.
        simplify_eq/=. apply Hm. apply Hlink. lia.
    + intros i j a b Hij Hi Hj. apply lookup_app_Some in Hj as [Hj|[Hj Hj2]].
      * rewrite lookup_app_l in Hi by (apply lookup_lt_Some in Hj; lia). eauto.
      * apply list_lookup_singleton_Some in Hj2 as [_ <-].
        apply lookup_app_Some in Hi as [Hi|[_ [_ <-]%list_lookup_singleton_Some]]; [|done].
        rewrite Forall_lookup in Hd. eauto.
    + rewrite target_indices_snoc, Ht. simpl. destruct (is_target k.1 k.2); [done|by rewrite app_nil_r].
  - split; simpl; [by eexists|by eexists|]. rewrite length_app. simpl.
    by replace (length (v_states v) + 1 - length (v_states v)) with 1 by lia.
  - apply Forall_app; auto.
  - exists (length (v_states v)), s, d. simpl. rewrite <- Hlen at 2.
    rewrite !lookup_app_r, !Nat.sub_diag by lia. auto.
Qed.

Lemma add_starts_core l : forall v ds,
  (forall n, n ∈ l -> n ∈ starts) -> core v ds -> Forall (fun x => x <= 0) ds ->
  exists ds', let v' := foldl (add_start is_target) v l in
    core v' ds' /\ extends v v' ds ds' /\ Forall (fun x => x <= 0) ds' /\
    forall n, n ∈ l -> found v' ds' (n, lazy_start) 0.
Proof.
  induction l as [|n l IH]; intros v ds Hl Hc Hd; simpl.
  { exists ds. split_and!; [done|apply extends_refl|done|set_solver]. }
  destruct (add_state_core v ds (n, lazy_start) None None 0 Hc) as (ds1 & Hc1 & He1 & Hd1 & Hf1);
    [apply Hstarts, Hl; set_solver|done| |].
  { intros i _. unfold link_ok. simpl. split_and!; auto. apply Hl. set_solver. }
  fold (add_start is_target v n) in *.
  destruct (IH _ _ ltac:(set_solver) Hc1 Hd1) as (ds2 & Hc2 & He2 & Hd2 & Hf2). exists ds2.
  split_and!; [done|by eapply extends_trans|done|].
  intros n' [->|Hn']%elem_of_cons; [by eapply found_mono|auto].
Qed.

Lemma add_succs_core c s a l : forall v ds,
  (forall e, e ∈ l -> e ∈ lazy_successors graph (node s)) ->
  core v ds -> v_states v !! c = Some s -> ds !! c = Some a -> Forall (fun x => x <= S a) ds ->
  exists ds', let v' := foldl (add_succ graph is_target (N.of_nat c) s) v l in
    core v' ds' /\ extends v v' ds ds' /\ Forall (fun x => x <= S a) ds' /\
    forall m label b, (m, label) ∈ l -> lazy_expand graph (annot s) (node s) label m = Some b ->
      found v' ds' (m, b) (S a).
Proof.
  induction l as [|[m label] l IH]; intros v ds Hl Hc Hs Ha Hd; simpl.
  { exists ds. split_and!; [done|apply extends_refl|done|set_solver]. }
  destruct (lazy_expand graph (annot s) (node s) label m) as [b|] eqn:Eb.
  - assert (lazy_step graph (key s) (m, b)) as Hstep by (exists label; split; [apply Hl; set_solver|done]).
    destruct (add_state_core v ds (m, b) (Some (N.of_nat c)) (Some label) (S a) Hc)
      as (ds1 & Hc1 & He1 & Hd1 & Hf1).
    + eapply Hclosed; [|done]. apply (c_U _ _ Hc), list_elem_of_fmap. exists s.
      split; [done|]. by eapply list_elem_of_lookup_2.
    + done.
    + intros i ->. unfold link_ok. simpl. exists c, s, label, a.
      split_and!; auto; [by eapply lookup_lt_Some|apply Hl; set_solver].
    + destruct (IH _ _ ltac:(set_solver) Hc1) as (ds2 & Hc2 & He2 & Hd2 & Hf2);
        [eapply prefix_lookup_Some'; [apply He1|done]|eapply prefix_lookup_Some'; [apply He1|done]|done|].
      exists ds2. split_and!; [done|by eapply extends_trans|done|].
      intros m' label' b' [[= -> ->]|Hin]%elem_of_cons Hb'; [|eauto].
      rewrite Eb in Hb'. simplify_eq. by eapply found_mono.
  - destruct (IH v ds ltac:(set_solver) Hc Hs Ha Hd) as (ds2 & Hc2 & He2 & Hd2 & Hf2).
    exists ds2. split_and!; [done..|].
    intros m' label' b' [[= -> ->]|Hin]%elem_of_cons Hb'; [congruence|eauto].
Qed.

(** The state of the search when the states before [c] have been expanded. *)
Record bfs_inv (c : nat) (v : search_vars) (ds : list nat) : Prop := {
  b_core : core v ds;
  b_c : c <= length (v_states v);
  b_queue : queue v = N.of_nat <$> seq c (length (v_states v) - c);
  b_frontier : forall a, ds !! c = Some a -> Forall (fun x => x <= S a) ds;
  b_closed : forall i s d t, i < c -> v_states v !! i = Some s -> ds !! i = Some d ->
    lazy_step graph (key s) t -> found v ds t (S d);
  b_starts : forall n, n ∈ starts -> found v ds (n, lazy_start) 0;
}.

Lemma bfs_inv_step c v ds s q :
  bfs_inv c v ds -> queue v = N.of_nat c :: q -> v_states v !! c = Some s ->
  exists ds', bfs_inv (S c) (foldl (add_succ graph is_target (N.of_nat c) s)
      (mk_vars (visited v) (v_states v) (v_targets v) q) (lazy_successors graph (node s))) ds'.
Proof.
  intros [Hc Hle Hq Hf Hcl Hst] Eq Hs. set (v0 := mk_vars _ _ _ _).
  destruct (lookup_lt_is_Some_2 ds c) as [a Ha];
    [rewrite (c_len _ _ Hc); by eapply lookup_lt_Some|].
  assert (core v0 ds) as Hc0 by (destruct Hc; by split).
  destruct (add_succs_core c s a (lazy_successors graph (node s)) v0 ds) as (ds' & Hc' & He & Hd & Hfnd); auto.
  exists ds'. pose proof He as [Hp1 Hp2 Hq']. simpl in Hq'. simpl in Hp1.
  pose proof (prefix_length _ _ Hp1) as Hlen. pose proof (lookup_lt_Some _ _ _ Hs) as Hlt.
  split; [done|lia| | | |].
  - rewrite Hq'. rewrite Hq in Eq.
    replace (length (v_states v) - c) with (S (length (v_states v) - S c)) in Eq by lia.
    simpl in Eq. injection Eq as <-. rewrite <- fmap_app. f_equal.
    set (n := length (v_states v)) in *. set (n' := length (v_states (foldl _ _ _))) in *.
    replace (seq n (n' - n)) with (seq (S c + (n - S c)) (n' - n)) by (f_equal; lia).
    rewrite <- seq_app. f_equal. lia.
  - intros a' Ha'. eapply Forall_impl; [exact Hd|]. simpl. intros x Hx.
    enough (a <= a') by lia. eapply (c_sorted _ _ Hc' c (S c)); [lia| |exact Ha'].
    by eapply prefix_lookup_Some'.
  - intros i si d t Hi Hsi Hdi Hstep. destruct (decide (i = c)) as [->|].
    + assert (si = s) as -> by (apply (prefix_lookup_Some' _ _ _ _ Hp1) in Hs; congruence).
      assert (d = a) as -> by (apply (prefix_lookup_Some' _ _ _ _ Hp2) in Ha; congruence).
      destruct t as [m b], Hstep as (label & Hl & Hb). simpl in Hl, Hb. eauto.
    + eapply found_mono; [exact He|].
      assert (v_states v !! i = Some si) as Hsi'.
      { destruct Hp1 as [k Ek]. rewrite Ek, lookup_app_l in Hsi by lia. done. }
      assert (ds !! i = Some d) as Hdi'.
      { destruct Hp2 as [k ->]. rewrite lookup_app_l in Hdi by (rewrite (c_len _ _ Hc); lia). done. }
      destruct (Hcl i si d t) as (j & s' & d' & ?); [lia|done..|]. by exists j, s', d'.
  - intros n Hn. eapply found_mono; [exact He|]. destruct (Hst n Hn) as (j & s' & d' & ?). by exists j, s', d'.
Qed.

Lemma bfs_loop_correct fuel : forall c v ds,
  bfs_inv c v ds -> size U < fuel + c ->
  exists v' ds', bfs_loop fuel graph is_target v = Ret v' /\ bfs_inv (length (v_states v')) v' ds'.
Proof.
  induction fuel as [|fuel IH]; intros c v ds Hinv Hf.
  { destruct (core_small _ _ (b_core _ _ _ Hinv)). pose proof (b_c _ _ _ Hinv). lia. }
  simpl. pose proof (b_queue _ _ _ Hinv) as Hq. pose proof (b_c _ _ _ Hinv) as Hle.
  destruct (length (v_states v) - c) as [|m] eqn:E; rewrite Hq; simpl.
  - exists v, ds. split; [done|]. by replace (length (v_states v)) with c by lia.
  - destruct (lookup_lt_is_Some_2 (v_states v) c) as [s Hs]; [lia|].
    rewrite Nat2N.id, Hs. simpl.
    destruct (bfs_inv_step c v ds s (N.of_nat <$> seq (S c) m)) as [ds' Hinv']; [done..|].
    eapply IH; [exact Hinv'|lia].
Qed.

Lemma bfs_correct fuel : size U < fuel ->
  exists v ds, bfs_loop fuel graph is_target (foldl (add_start is_target) (mk_vars ∅ [] [] []) starts) = Ret v /\
    bfs_inv (length (v_states v)) v ds.
Proof.
  intros Hf. destruct (add_starts_core starts (mk_vars ∅ [] [] []) []) as (ds & Hc & He & Hd & Hfnd); auto.
  { split; simpl; try done; [apply NoDup_nil_2| |set_solver].
    intros k. rewrite lookup_empty. split; [by intros []|set_solver]. }
  eapply (bfs_loop_correct fuel 0); [|lia]. split; [exact Hc|lia| | |lia|done].
  - rewrite (e_queue _ _ _ _ He). done.
  - intros a Ha. eapply Forall_impl; [exact Hd|]. simpl. lia.
Qed.

(** Following parent links from state [i] at depth [d] gives a step path of length [d]. *)
Lemma path_to_loop_correct v ds : core v ds ->
  forall i s d acc fuel, v_states v !! i = Some s -> ds !! i = Some d -> d < fuel ->
  exists l s0, path_to_loop fuel (v_states v) acc (N.of_nat i) = Ret (acc ++ l) /\ length l = d /\
    s0 ∈ starts /\
    exists ks, length ks = S d /\ head ks = Some (s0, lazy_start) /\ last ks = Some (key s) /\
      Forall2 (fun j k => key <$> v_states v !! N.to_nat j = Some k) (rev l ++ [N.of_nat i]) ks /\
      forall x a b, ks !! x = Some a -> ks !! S x = Some b -> lazy_step graph a b.
Proof.
  intros Hc i. induction i as [i IH] using lt_wf_ind. intros s d acc [|fuel] Hs Hd Hf; [lia|].
  simpl. rewrite Nat2N.id, Hs. simpl. pose proof (c_link _ _ Hc i s d Hs Hd) as Hl.
  unfold link_ok in Hl. destruct (parent s) as [p|].
  - destruct Hl as (j & sp & label & d' & -> & Hj & Hsp & _ & Hin & Hex & Hd' & ->).
    destruct (IH j Hj sp d' (acc ++ [N.of_nat j]) fuel Hsp Hd') as (l & s0 & -> & Hlen & Hs0 & ks & Hk1 & Hk2 & Hk3 & Hk4 & Hk5); [lia|].
    exists (N.of_nat j :: l), s0. split_and!; [by rewrite <- app_assoc|simpl; lia|done|].
    exists (ks ++ [key s]). split_and!.
    + rewrite length_app. simpl. lia.
    + by destruct ks.
    + apply last_snoc.
    + simpl. apply Forall2_app; [done|]. constructor; [|done]. by rewrite Nat2N.id, Hs.
    + intros x a b Ha Hb. pose proof (lookup_lt_Some _ _ _ Hb) as Hx. rewrite length_app in Hx. simpl in Hx.
      rewrite lookup_app_l in Ha by lia. destruct (decide (S x = length ks)) as [Ex|].
      * rewrite Ex, lookup_app_r, Nat.sub_diag in Hb by lia. simplify_eq/=.
        rewrite last_lookup, <- Ex in Hk3. simpl in Hk3. simplify_eq. by exists label.
      * rewrite lookup_app_l in Hb by lia. eauto.
  - destruct Hl as (Hn & Ha & _ & ->). exists [], (node s). rewrite app_nil_r. split_and!; [done..|].
    exists [key s]. unfold key. rewrite Ha. split_and!; [done..| |by intros [|]].
    constructor; [|done]. rewrite Nat2N.id, Hs. simpl. unfold key. by rewrite Ha.
Qed.

(** A path of [m] steps from a start reaches a state recorded at depth at most [m]. *)
Lemma bfs_shortest v ds : bfs_inv (length (v_states v)) v ds ->
  forall m n k, n ∈ starts -> nsteps (lazy_step graph) m (n, lazy_start) k -> found v ds k m.
Proof.
  intros Hinv m n k Hn. revert k. induction m as [|m IH]; intros k Hm.
  - inversion Hm; subst. by apply (b_starts _ _ _ Hinv).
  - apply nsteps_inv_r in Hm as (k' & Hm & Hstep).
    destruct (IH k' Hm) as (j & s & d & Hj & <- & Hd & Hle).
    destruct (b_closed _ _ _ Hinv j s d k) as (j' & s' & d' & ? & ? & ? & ?); auto;
      [by eapply lookup_lt_Some|]. exists j', s', d'. split_and!; auto. lia.
Qed.
End bfs.

Section theorems.
Context {G Nd L A : Type} `{LazySuccessors G Nd L} `{LazyAnnotation G Nd L A} `{Countable Nd} `{Countable A}.

(** [find_annotated_paths_from_set] is a correct breadth-first search.  When the states
    reachable from the start set lie in a finite closed set [U] of fewer than [2^32] states, it
    terminates without panicking; it records every reachable [(node, annotation)] state exactly
    once and nothing else; [targets] is exactly the indices of the recorded target states, in
    order; and for every recorded state [path_to] returns a path of indices from a start whose
    keys follow unpruned edges to the state, and that path is a shortest one. *)
Theorem find_annotated_paths_from_set_correct (graph : G) (is_target : Nd -> A -> bool)
    (starts : list Nd) (U : gset (Nd * A)) (fuel : nat) :
  (N.of_nat (size U) < 2 ^ 32)%N ->
  (forall n, n ∈ starts -> (n, lazy_start) ∈ U) ->
  (forall s t, s ∈ U -> lazy_step graph s t -> t ∈ U) ->
  size U < fuel ->
  exists r, find_annotated_paths_from_set fuel graph starts is_target = Ret r /\
    NoDup (key <$> states r) /\
    (forall k, k ∈ key <$> states r <-> exists n, n ∈ starts /\ rtc (lazy_step graph) (n, lazy_start) k) /\
    targets r = target_indices is_target (states r) /\
    forall i s, states r !! i = Some s ->
      exists l ks n, path_to (S (length (states r))) r (N.of_nat i) = Ret l /\
        Forall2 (fun j k => key <$> states r !! N.to_nat j = Some k) l ks /\
        n ∈ starts /\ head ks = Some (n, lazy_start) /\ last ks = Some (key s) /\
        (forall x a b, ks !! x = Some a -> ks !! S x = Some b -> lazy_step graph a b) /\
        forall n' m, n' ∈ starts -> nsteps (lazy_step graph) m (n', lazy_start) (key s) -> length l <= S m.
Proof.
  intros Hsm Hst Hcl Hf.
  destruct (bfs_correct graph is_target starts U Hsm Hst Hcl fuel Hf) as (v & ds & E & Hinv).
  pose proof (b_core _ _ _ _ _ _ _ Hinv) as Hc.
  assert (forall m n k, n ∈ starts -> nsteps (lazy_step graph) m (n, lazy_start) k -> found v ds k m)
    as Hshort by (by eapply bfs_shortest).
  unfold find_annotated_paths_from_set. rewrite E. simpl. eexists. split; [reflexivity|]. simpl.
  assert (forall i s d, v_states v !! i = Some s -> ds !! i = Some d -> d <= i) as Hdep.
  { intros i. induction i as [i IH] using lt_wf_ind. intros s d Hs Hd.
    pose proof (c_link _ _ _ _ _ _ Hc i s d Hs Hd) as Hl. unfold link_ok in Hl.
    destruct (parent s); [|lia]. destruct Hl as (j & sp & _ & d' & _ & Hj & Hsp & _ & _ & _ & Hd' & ->).
    specialize (IH j Hj sp d' Hsp Hd'). lia. }
  assert (forall i s, v_states v !! i = Some s -> exists d, ds !! i = Some d) as Hds.
  { intros i s Hs. apply lookup_lt_is_Some_2. rewrite (c_len _ _ _ _ _ _ Hc). by eapply lookup_lt_Some. }
  split_and!; [apply Hc| |apply Hc|].
  - intros k. rewrite list_elem_of_fmap. split.
    + intros (s & -> & [i Hi]%list_elem_of_lookup). destruct (Hds i s Hi) as [d Hd].
      destruct (path_to_loop_correct graph is_target starts U Hsm v ds Hc i s d [] (S d) Hi Hd) as (l & s0 & _ & _ & Hs0 & ks & _ & Hh & Hl & _ & Hp); [lia|].
      exists s0. split; [done|]. clear -Hh Hl Hp. revert Hh. generalize (s0, @lazy_start G Nd L A _) as k0.
      induction ks as [|a ks IH]; intros k0 Hh; simplify_eq/=.
      destruct ks as [|b ks]; simplify_eq/=; [apply rtc_refl|].
      eapply rtc_l; [by apply (Hp 0)|]. apply IH; [done|intros x; apply (Hp (S x))|done].
    + intros (n & Hn & [m Hm]%rtc_nsteps_1). destruct (Hshort m n k Hn Hm) as (j & s & d & Hj & <- & _).
      exists s. split; [done|]. by eapply list_elem_of_lookup_2.
  - intros i s Hi. destruct (Hds i s Hi) as [d Hd]. pose proof (Hdep _ _ _ Hi Hd) as Hdi.
    pose proof (lookup_lt_Some _ _ _ Hi) as Hlt.
    destruct (path_to_loop_correct graph is_target starts U Hsm v ds Hc i s d [N.of_nat i] (S (length (v_states v))) Hi Hd)
      as (l & s0 & Ep & Hlen & Hs0 & ks & _ & Hh & Hl & Hk & Hp); [lia|].
    exists (rev l ++ [N.of_nat i]), ks, s0. unfold path_to. cbn [states]. rewrite Ep.
    split_and!; auto. intros n' m Hn' Hm. rewrite length_app, length_rev, Hlen. simpl.
    destruct (Hshort m n' (key s) Hn' Hm) as (j & s' & d' & Hj & Ekey & Hd' & Hle).
    assert (j = i) as ->; [|rewrite Hd in Hd'; simplify_eq; lia].
    eapply (NoDup_lookup _ j i (key s) (c_nodup _ _ _ _ _ _ Hc)); rewrite list_lookup_fmap, ?Hj, ?Hi; [by rewrite <- Ekey|done].
Qed.
End theorems.

(** A lazily expanded adjacency list, with an annotation that forbids a second [true] edge. *)
#[local] Instance lazy_adj : LazySuccessors LabeledAdjList nat bool :=
  {| lazy_successors g n := default [] (g !! n) |}.
#[local] Instance lazy_once : LazyAnnotation LabeledAdjList nat bool bool :=
  {| lazy_start := false; lazy_expand _ a _ label _ := if a && label then None else Some (a || label) |}.

Lemma find_annotated_paths_from_set_correct_witness :
  let g : LabeledAdjList := [[(1, true)]; [(2, true); (0, false)]; []] in
  exists r, find_annotated_paths_from_set 9 g [0] (fun n _ => bool_decide (n = 2)) = Ret r /\
    NoDup (key <$> states r) /\ targets r = target_indices (fun n _ => bool_decide (n = 2)) (states r).
Proof.
  set (g := [[(1, true)]; [(2, true); (0, false)]; []] : LabeledAdjList).
  destruct (find_annotated_paths_from_set_correct g (fun n _ => bool_decide (n = 2)) [0]
    (list_to_set [(0, false); (1, true); (0, true)]) 9) as (r & E & Hn & _ & Ht & _).
  - by_decide.
  - intros n ->%list_elem_of_singleton. by_decide.
  - intros s [m b] Hs (label & Hl & He). apply elem_of_list_to_set in Hs.
    repeat (apply elem_of_cons in Hs as [->|Hs]); [..|by apply elem_of_nil in Hs]; simpl in Hl, He;
      repeat (apply elem_of_cons in Hl as [[= -> ->]|Hl]); try (by apply elem_of_nil in Hl);
      simplify_eq/=; by_decide.
  - by_decide.
  - exists r. auto.
Defined.
