(* ===== verification/TopoSort.v ===== *)
(** * TopoSort: Kahn's topological sort ([ctadl-ir/src/graph/sort/mod.rs])

    [in_degree] is the index vector of the source, indexed with bounds checks, and its
    decrement panics below zero; the theorem shows that neither happens.  The queue loop pops
    each node at most once, so fuel above the number of nodes is enough. *)

From S2P Require Import Prelude Index Graph.

Inductive CycleError_t : Type := CycleError.

(** [in_degree[i] += 1] and [in_degree[i] -= 1]. *)
Definition incr (d : list nat) (i : nat) : outcome (list nat) :=
  x ← iv_index d i; iv_set d i (x + 1).

Definition decr (d : list nat) (i : nat) : outcome (list nat) :=
  x ← iv_index d i; if decide (x = 0) then Panic else iv_set d i (x - 1).

Section sort.
Context `{Successors G}.

(** Phase 1. *)
Definition in_degrees (graph : G) : outcome (list nat) :=
  foldM (fun d node => succs ← successors graph node; foldM incr d succs)
        (replicate (num_nodes graph) 0) (iter_nodes graph).

(** Phase 2: the nodes of zero in-degree, in index order. *)
Fixpoint zero_nodes (i : nat) (d : list nat) : list nat :=
  match d with
  | [] => []
  | x :: d' => (if decide (x = 0) then [i] else []) ++ zero_nodes (S i) d'
  end.

(** The body of phase 3's inner loop. *)
Definition remove_edge (st : list nat * list nat) (successor : nat) : outcome (list nat * list nat) :=
  let '(d, queue) := st in
  d ← decr d successor;
  x ← iv_index d successor;
  Ret (d, if decide (x = 0) then queue ++ [successor] else queue).

(** Phase 3. *)
Fixpoint kahn_loop (fuel : nat) (graph : G) (d : list nat) (queue result : list nat) : outcome (list nat) :=
  match fuel with
  | 0 => OutOfFuel
  | S fuel =>
      match queue with
      | [] => Ret result
      | current :: queue =>
          succs ← successors graph current;
          '(d, queue) ← foldM remove_edge (d, queue) succs;
          kahn_loop fuel graph d queue (result ++ [current])
      end
  end.

Definition topological_sort (fuel : nat) (graph : G) : outcome (result CycleError_t (list nat)) :=
  d ← in_degrees graph;
  result ← kahn_loop fuel graph d (zero_nodes 0 d) [];
  Ret (if decide (length result <> num_nodes graph) then Err CycleError else Ok result).

(** ** Correctness *)

Lemma elem_of_zero_nodes d : forall i m,
  m ∈ zero_nodes i d <-> i <= m /\ d !! (m - i) = Some 0.
Proof.
  induction d as [|x d IH]; intros i m; simpl.
  - rewrite lookup_nil, elem_of_nil. naive_solver.
  - rewrite elem_of_app, IH. destruct (decide (m = i)) as [->|Hm].
    + rewrite Nat.sub_diag. simpl. destruct (decide (x = 0)) as [->|].
      * split; [by split|]. left. set_solver.
      * split; [intros [?%elem_of_nil|[? _]]; [done|lia]|naive_solver].
    + destruct (decide (i <= m)) as [Hle|Hle].
      * replace (m - i) with (S (m - S i)) by lia. simpl. split.
        -- intros [Hx|[? ?]]; [|by split]. case_decide; set_solver.
        -- intros [_ ?]. right. split; [lia|done].
      * split; [|lia]. intros [Hx|[? _]]; [case_decide; set_solver|lia].
Qed.

Lemma NoDup_zero_nodes d : forall i, NoDup (zero_nodes i d).
Proof.
  induction d as [|x d IH]; intros i; simpl; [apply NoDup_nil_2|].
  case_decide; simpl; [|done]. apply NoDup_cons. split; [|done]. rewrite elem_of_zero_nodes. lia.
Qed.

Context (g : G).
Hypothesis Hwf : graph_wf g.

Definition succ_list (n : nat) : list nat :=
  match successors g n with Ret l => l | _ => [] end.

Definition occ (m : nat) (l : list nat) : nat := count_occ Nat.eq_dec l m.

#[local] Arguments occ : simpl never.

(** How many edges into [m] come from nodes of [l] outside [R]. *)
Definition remain (R l : list nat) (m : nat) : nat :=
  sum_list_with (fun n => if decide (n ∈ R) then 0 else occ m (succ_list n)) l.

Lemma succ_list_wf n : n < num_nodes g ->
  successors g n = Ret (succ_list n) /\ Forall (fun m => m < num_nodes g) (succ_list n).
Proof.
  intros Hn. destruct (Hwf n) as (l & El & Hl); [by apply elem_of_node_set|].
  unfold succ_list. rewrite El. split; [done|]. apply Forall_forall. intros m Hm.
  by apply elem_of_node_set, Hl.
Qed.

Lemma edge_succ_list n m : n < num_nodes g -> edge (successors g) n m <-> m ∈ succ_list n.
Proof.
  intros Hn. destruct (succ_list_wf n Hn) as [E _]. unfold edge. rewrite E.
  split; [by intros (l & [= <-] & ?)|by eexists].
Qed.

Lemma edge_occ_pos m l : 0 < occ m l <-> m ∈ l.
Proof. unfold occ. rewrite list_elem_of_In. symmetry. apply count_occ_In. Qed.

Lemma edge_occ_cons m x l : occ m (x :: l) = (if decide (x = m) then 1 else 0) + occ m l.
Proof. unfold occ. simpl. destruct (Nat.eq_dec x m), (decide (x = m)); done. Qed.

Lemma in_remain_visit R l c m : NoDup l -> c ∈ l -> c ∉ R ->
  remain R l m = occ m (succ_list c) + remain (R ++ [c]) l m.
Proof.
  intros Hnd Hc HR. unfold remain.
  induction l as [|x l IH]; [by apply elem_of_nil in Hc|]. simpl.
  apply NoDup_cons in Hnd as [Hx Hnd]. destruct (decide (x = c)) as [->|Hxc].
  - rewrite decide_False by done. rewrite decide_True by set_solver. simpl. f_equal.
    apply sum_list_with_ext. intros y Hy. destruct (decide (y ∈ R)); [by rewrite decide_True by set_solver|].
    rewrite decide_False; [done|]. intros [?|?%list_elem_of_singleton]%elem_of_app; [done|]. by subst.
  - apply elem_of_cons in Hc as [->|Hc]; [done|]. rewrite (IH Hnd Hc).
    destruct (decide (x ∈ R)); [rewrite decide_True by set_solver; lia|].
    rewrite decide_False; [lia|]. intros [?|?%list_elem_of_singleton]%elem_of_app; done.
Qed.

Lemma foldM_incr l : forall d, Forall (fun m => m < length d) l ->
  exists d', foldM incr d l = Ret d' /\ length d' = length d /\
    forall m x, d !! m = Some x -> d' !! m = Some (x + occ m l).
Proof.
  induction l as [|y l IH]; intros d Hl; simpl.
  { exists d. split_and!; [done..|]. intros m x ->. f_equal. unfold occ. simpl. lia. }
  apply Forall_cons in Hl as [Hy Hl]. destruct (lookup_lt_is_Some_2 d y Hy) as [z Hz].
  unfold incr at 1, iv_index, iv_set. rewrite Hz. simpl. rewrite decide_True by done.
  destruct (IH (<[y:=z + 1]> d)) as (d' & -> & Hlen & Hd'); [by rewrite length_insert|].
  rewrite length_insert in Hlen. exists d'. split_and!; [done..|]. intros m x Hm. rewrite edge_occ_cons.
  destruct (decide (y = m)) as [->|Hne].
  - assert (z = x) as -> by congruence. rewrite (Hd' m (x + 1)); [f_equal; lia|]. by apply list_lookup_insert_eq.
  - rewrite (Hd' m x); [done|]. by rewrite list_lookup_insert_ne.
Qed.

(** Phase 1 counts the edges into every node. *)
Lemma in_degrees_correct : exists d, in_degrees g = Ret d /\ length d = num_nodes g /\
  forall m, m < num_nodes g -> d !! m = Some (remain [] (iter_nodes g) m).
Proof.
  unfold in_degrees.
  destruct (foldM_inv (fun d node => succs ← successors g node; foldM incr d succs)
    (fun pre d => length d = num_nodes g /\
       forall m, m < num_nodes g -> d !! m = Some (sum_list_with (fun n => occ m (succ_list n)) pre))
    (iter_nodes g) [] (replicate (num_nodes g) 0)) as (d & E & Hlen & Hd).
  - split; [apply length_replicate|]. intros m Hm. by apply lookup_replicate_2.
  - intros pre n d Hn [Hlen Hd]. apply elem_of_seq in Hn as [_ Hn].
    destruct (succ_list_wf n Hn) as [-> Hl]. simpl.
    destruct (foldM_incr (succ_list n) d) as (d' & -> & Hlen' & Hd'); [by rewrite Hlen|].
    exists d'. split_and!; [done|lia|]. intros m Hm. rewrite (Hd' _ _ (Hd m Hm)). f_equal.
    rewrite sum_list_with_app. simpl. lia.
  - exists d. split_and!; [done..|]. intros m Hm. by rewrite Hd.
Qed.

(** The state between two nodes of phase 3: [done] were output, and [rest] are the successors of
    the last of them whose edges are still to be removed. *)
Record kahn_inv (rest d queue done : list nat) : Prop := {
  k_len : length d = num_nodes g;
  k_deg : forall m, m < num_nodes g -> d !! m = Some (remain done (iter_nodes g) m + occ m rest);
  k_nodup : NoDup (done ++ queue);
  k_zero : forall m, m ∈ done ++ queue <-> d !! m = Some 0;
  k_order : forall i m n, (done ++ queue) !! i = Some m -> n < num_nodes g -> m ∈ succ_list n ->
    exists j, j < i /\ (done ++ queue) !! j = Some n;
}.

Lemma in_remain_0 R m n : remain R (iter_nodes g) m = 0 -> n < num_nodes g -> m ∈ succ_list n -> n ∈ R.
Proof.
  intros Hr0 Hn Hm. destruct (decide (n ∈ R)) as [|HnR]; [done|].
  assert (0 < remain R (iter_nodes g) m); [|lia]. apply sum_list_with_pos. exists n.
  split; [apply elem_of_seq; lia|]. rewrite decide_False by done. by apply edge_occ_pos.
Qed.

Lemma remove_edge_inv x rest d queue done :
  x < num_nodes g -> kahn_inv (x :: rest) d queue done ->
  exists d' queue', remove_edge (d, queue) x = Ret (d', queue') /\ kahn_inv rest d' queue' done.
Proof.
  intros Hx [Hlen Hdeg Hnd Hz Ho]. unfold remove_edge, decr, iv_index, iv_set.
  pose proof (Hdeg x Hx) as Hdx. rewrite edge_occ_cons, decide_True in Hdx by done. rewrite Hdx. simpl.
  rewrite decide_False by lia. rewrite Hlen. rewrite decide_True by done. simpl.
  rewrite list_lookup_insert_eq by lia. simpl.
  set (y := remain done (iter_nodes g) x + S (occ x rest) - 1).
  assert (x ∉ done ++ queue) as HxQ by (rewrite Hz, Hdx; intros [=]; lia).
  assert (forall m, m < num_nodes g ->
    <[x:=y]> d !! m = Some (remain done (iter_nodes g) m + occ m rest)) as Hdeg'.
  { intros m Hm. destruct (decide (x = m)) as [<-|].
    - rewrite list_lookup_insert_eq by lia. f_equal. lia.
    - rewrite list_lookup_insert_ne by done. rewrite Hdeg by done.
      rewrite edge_occ_cons, decide_False by done. done. }
  eexists _, _. split; [reflexivity|]. destruct (decide (y = 0)) as [Hy|Hy].
  - split; [by rewrite length_insert|done| | |].
    + rewrite app_assoc. apply NoDup_app. split_and!; [done|set_solver|apply NoDup_singleton].
    + intros m. rewrite app_assoc, elem_of_app, Hz, list_elem_of_singleton.
      destruct (decide (x = m)) as [<-|].
      * rewrite list_lookup_insert_eq by lia. rewrite Hy. naive_solver.
      * rewrite list_lookup_insert_ne by done. naive_solver.
    + rewrite app_assoc. intros i m n Hi Hn Hm. apply lookup_app_Some in Hi as [Hi|[Hi Hi']].
      * destruct (Ho i m n Hi Hn Hm) as (j & ? & ?). exists j. split; [done|]. by apply lookup_app_l_Some.
      * apply list_lookup_singleton_Some in Hi' as [_ <-].
        assert (n ∈ done) as Hnd' by (eapply in_remain_0; [|done|done]; lia).
        apply list_elem_of_lookup in Hnd' as [j Hj]. pose proof (lookup_lt_Some _ _ _ Hj).
        exists j. rewrite length_app in Hi. split; [lia|]. by do 2 apply lookup_app_l_Some.
  - split; [by rewrite length_insert|done|done| |done].
    intros m. rewrite Hz. destruct (decide (x = m)) as [<-|].
    + rewrite list_lookup_insert_eq by lia. rewrite Hdx. naive_solver lia.
    + by rewrite list_lookup_insert_ne.
Qed.

Lemma remove_edges_inv rest : forall d queue done,
  Forall (fun m => m < num_nodes g) rest -> kahn_inv rest d queue done ->
  exists d' queue', foldM remove_edge (d, queue) rest = Ret (d', queue') /\ kahn_inv [] d' queue' done.
Proof.
  induction rest as [|x rest IH]; intros d queue done Hr Hinv; [by exists d, queue|].
  apply Forall_cons in Hr as [Hx Hr].
  destruct (remove_edge_inv x rest d queue done Hx Hinv) as (d1 & q1 & E & Hinv1).
  cbn [foldM]. rewrite E. by apply IH.
Qed.

Lemma kahn_pop current queue d done :
  kahn_inv [] d (current :: queue) done -> current < num_nodes g /\
  kahn_inv (succ_list current) d queue (done ++ [current]).
Proof.
  intros [Hlen Hdeg Hnd Hz Ho].
  assert (current < num_nodes g) as Hc.
  { rewrite <- Hlen. eapply lookup_lt_Some. apply Hz. set_solver. }
  assert (current ∉ done) as Hcd by (apply NoDup_app in Hnd as (_ & Hd & _); set_solver).
  split; [done|]. replace (done ++ current :: queue) with ((done ++ [current]) ++ queue) in *
    by (by rewrite <- app_assoc).
  split; [done| |done|done|done]. intros m Hm. rewrite Hdeg by done. f_equal.
  rewrite (in_remain_visit done (iter_nodes g) current m); [unfold occ; simpl; lia|apply NoDup_seq| |done].
  apply elem_of_seq. lia.
Qed.

Lemma kahn_loop_correct fuel : forall d queue done,
  kahn_inv [] d queue done -> num_nodes g < fuel + length done ->
  exists d' r, kahn_loop fuel g d queue done = Ret r /\ kahn_inv [] d' [] r.
Proof.
  assert (forall d queue done, kahn_inv [] d queue done -> length done <= num_nodes g) as Hle.
  { intros d queue done [Hlen _ Hnd Hz _]. rewrite <- (length_seq (num_nodes g) 0).
    apply submseteq_length, NoDup_submseteq; [by apply NoDup_app in Hnd as [? _]|].
    intros m Hm. apply elem_of_seq. rewrite <- Hlen.
    split; [lia|]. eapply lookup_lt_Some. apply Hz. set_solver. }
  induction fuel as [|fuel IH]; intros d queue done Hinv Hf.
  { specialize (Hle _ _ _ Hinv). lia. }
  simpl. destruct queue as [|c queue]; [by exists d, done|].
  destruct (kahn_pop c queue d done Hinv) as [Hc Hinv'].
  destruct (succ_list_wf c Hc) as [-> Hs]. simpl.
  destruct (remove_edges_inv _ _ _ _ Hs Hinv') as (d' & q' & -> & Hinv''). simpl.
  apply (IH _ _ _ Hinv''). rewrite length_app. simpl. lia.
Qed.
Lemma kahn_init d : length d = num_nodes g ->
  (forall m, m < num_nodes g -> d !! m = Some (remain [] (iter_nodes g) m)) -> kahn_inv [] d (zero_nodes 0 d) [].
Proof.
  intros Hlen Hd. split; [done| |apply NoDup_zero_nodes| |].
  - intros m Hm. rewrite Hd by done. f_equal. unfold occ. simpl. lia.
  - intros m. simpl. rewrite elem_of_zero_nodes, Nat.sub_0_r. naive_solver lia.
  - intros i m n Hi Hn Hm. simpl in Hi. apply list_elem_of_lookup_2 in Hi.
    apply elem_of_zero_nodes in Hi as [_ Hi]. rewrite Nat.sub_0_r in Hi.
    pose proof (lookup_lt_Some _ _ _ Hi) as Hm'. rewrite Hlen in Hm'. rewrite (Hd m Hm') in Hi.
    injection Hi as Hi. pose proof (in_remain_0 [] m n Hi Hn Hm) as Hx. by apply elem_of_nil in Hx.
Qed.

Lemma edge_in_range n m : n < num_nodes g -> edge (successors g) n m -> m < num_nodes g.
Proof.
  intros Hn He. apply (edge_succ_list n m Hn) in He.
  destruct (succ_list_wf n Hn) as [_ Hs]. by apply (proj1 (Forall_forall _ _) Hs).
Qed.

Lemma kahn_range d r m : kahn_inv [] d [] r -> m ∈ r -> m < num_nodes g.
Proof. intros [Hlen' _ _ Hz _] Hm. rewrite <- Hlen'. eapply lookup_lt_Some. apply Hz. by rewrite app_nil_r. Qed.

(** The nodes left out are closed under "has a predecessor left out", so they hold a cycle. *)
Lemma kahn_cycle d r : kahn_inv [] d [] r -> length r <> num_nodes g ->
  exists n, n < num_nodes g /\ tc (edge (successors g)) n n.
Proof.
  intros Hinv Hne. pose proof (fun m => kahn_range d r m Hinv) as Hrng.
  destruct Hinv as [Hlen' Hdeg Hnd Hz Ho]. rewrite app_nil_r in *.
  set (X := node_set g ∖ list_to_set r).
  assert (exists x, x ∈ X) as [x Hx].
  { apply set_choose_L. intros HX. apply Hne. rewrite <- (length_seq (num_nodes g) 0).
    apply Permutation_length, NoDup_Permutation; [done|apply NoDup_seq|].
    intros m. rewrite elem_of_seq. split; [intros; split; [lia|]; auto|]. intros [_ Hm].
    destruct (decide (m ∈ r)) as [|Hmr]; [done|]. exfalso.
    assert (m ∈ X) as HmX; [|by rewrite HX in HmX; apply elem_of_empty in HmX].
    apply elem_of_difference. rewrite elem_of_node_set, elem_of_list_to_set. done. }
  destruct (backward_closed_cycle (edge (successors g)) X x Hx) as (y & Hy & Hcyc).
  - intros y [Hy Hyr]%elem_of_difference. rewrite elem_of_node_set in Hy. rewrite elem_of_list_to_set in Hyr.
    assert (0 < remain r (iter_nodes g) y) as Hpos.
    { pose proof (Hdeg y Hy) as Hy'. destruct (decide (remain r (iter_nodes g) y = 0)) as [E|]; [|lia].
      exfalso. apply Hyr, Hz. rewrite Hy', E. done. }
    apply sum_list_with_pos in Hpos as (z & Hz' & Hocc). apply elem_of_seq in Hz' as [_ Hz'].
    case_decide as HzR; [lia|]. apply edge_occ_pos in Hocc. exists z. split.
    + apply elem_of_difference. rewrite elem_of_node_set, elem_of_list_to_set. done.
    + by apply edge_succ_list.
  - exists y. split; [|done]. apply elem_of_difference in Hy as [Hy _]. by apply elem_of_node_set in Hy.
Qed.

Lemma kahn_sorted d r : kahn_inv [] d [] r -> length r = num_nodes g ->
  r ≡ₚ seq 0 (num_nodes g) /\
  forall n m, n < num_nodes g -> edge (successors g) n m -> exists i j, r !! i = Some n /\ r !! j = Some m /\ i < j.
Proof.
  intros Hinv Heq. pose proof (fun m => kahn_range d r m Hinv) as Hrng.
  destruct Hinv as [Hlen' Hdeg Hnd Hz Ho]. rewrite app_nil_r in *.
  assert (r ≡ₚ seq 0 (num_nodes g)) as Hperm.
  { apply submseteq_length_Permutation; [|by rewrite length_seq, Heq].
    apply NoDup_submseteq; [done|]. intros m Hm. apply elem_of_seq. split; [lia|]. auto. }
  split; [done|]. intros n m Hn He. assert (m ∈ r) as [j Hj]%list_elem_of_lookup.
  { rewrite Hperm. apply elem_of_seq. split; [lia|]. eauto using edge_in_range. }
  apply (edge_succ_list n m Hn) in He. destruct (Ho j m n Hj Hn He) as (i & ? & ?). eauto.
Qed.

(** Edges that go forward in an order without repetitions form no cycle. *)
Lemma sorted_acyclic r n : NoDup r ->
  (forall n m, n < num_nodes g -> edge (successors g) n m -> exists i j, r !! i = Some n /\ r !! j = Some m /\ i < j) ->
  n < num_nodes g -> ~ tc (edge (successors g)) n n.
Proof.
  intros Hnd Hord Hn Hcyc.
  assert (forall a b, tc (edge (successors g)) a b -> a < num_nodes g ->
    exists i j, r !! i = Some a /\ r !! j = Some b /\ i < j) as Htc.
  { clear n Hn Hcyc. induction 1 as [a b He|a b c He _ IH]; intros Ha; [by apply Hord|].
    destruct (Hord a b Ha He) as (i & j & ? & Hj & ?).
    destruct (IH (edge_in_range _ _ Ha He)) as (j' & k & Hj' & ? & ?).
    assert (j = j') as <- by (by eapply NoDup_lookup). exists i, k. split_and!; auto. lia. }
  destruct (Htc n n Hcyc Hn) as (i & j & Hi & Hj & Hij).
  assert (i = j) by (by eapply NoDup_lookup). lia.
Qed.
End sort.

(** C35: Kahn's algorithm sorts topologically or reports a cycle.  On a well-formed graph
    [TopologicalSort::new] terminates, never indexes out of range and never decrements an
    in-degree below zero; it returns [Ok] exactly when the graph is acyclic, the order it
    returns lists every node once with every edge going forward, and when it returns
    [CycleError] some node lies on a cycle. *)
Theorem topological_sort_correct `{Successors G} (g : G) (fuel : nat) :
  graph_wf g -> num_nodes g < fuel ->
  exists r, topological_sort fuel g = Ret r /\
    ((exists l, r = Ok l) <-> forall n, n < num_nodes g -> ~ tc (edge (successors g)) n n) /\
    match r with
    | Ok l => l ≡ₚ seq 0 (num_nodes g) /\
        forall n m, n < num_nodes g -> edge (successors g) n m ->
          exists i j, l !! i = Some n /\ l !! j = Some m /\ i < j
    | Err _ => exists n, n < num_nodes g /\ tc (edge (successors g)) n n
    end.
Proof.
  intros Hwf Hf. unfold topological_sort.
  destruct (in_degrees_correct g Hwf) as (d & -> & Hlen & Hd). simpl.
  destruct (kahn_loop_correct g Hwf fuel d (zero_nodes 0 d) []) as (d' & r & -> & Hinv);
    [by apply kahn_init|simpl; lia|].
  simpl. destruct (decide (length r ≠ num_nodes g)) as [Hne|Heq%dec_stable]; eexists; (split; [reflexivity|]).
  - destruct (kahn_cycle g Hwf d' r Hinv Hne) as (n & Hn & Hcyc).
    split; [|by exists n]. split; [by intros [l [=]]|]. intros Hacyc. by destruct (Hacyc n Hn).
  - destruct (kahn_sorted g Hwf d' r Hinv Heq) as [Hperm Hord]. split; [|done]. split; [|by eexists].
    intros _ n Hn. eapply sorted_acyclic; [done| |done|done]. rewrite Hperm. apply NoDup_seq.
Qed.

Lemma topological_sort_correct_witness :
  exists r, topological_sort 5 ([[1; 2]; [3]; [1; 1]; []] : AdjList) = Ret r /\
    ((exists l, r = Ok l) <-> forall n, n < 4 -> ~ tc (edge (iv_index ([[1; 2]; [3]; [1; 1]; []] : AdjList))) n n).
Proof.
  destruct (topological_sort_correct ([[1; 2]; [3]; [1; 1]; []] : AdjList) 5) as (r & E & Hr & _);
    [by_decide|by_decide|]. exists r. split; [exact E|exact Hr].
Defined.
