(* ===== verification/DeadTemps.v ===== *)
(** * DeadTemps: dead-temporary elimination ([ctadl-ir/src/ssa/dead_temps/mod.rs])

    The pass counts reads per variable over the whole function, then deletes unread copies into
    unversioned locals, propagating through the reads each deletion drops.  Rust iterates the
    [HashMap] of definition sites in an unspecified order: [hash_iter] is that order, any
    enumeration of the entries.  The read counters are naturals (the [u32] bound is not
    modelled); [get_mut().expect] and the decrement below zero are panics, which the theorem
    rules out.  The work-list pops each site at most once, so the fuel is one more than the
    number of statements. *)

From S2P Require Import Prelude Index Path IR.

(** A statement's block and position. *)
Notation site := (nat * nat)%type.

(** What the function reads and defines, statement by statement. *)
Definition block_sites (bb : nat) (b : BasicBlockData) : list (site * Statement) :=
  map (fun '(pos, s) => ((bb, pos), s)) (enumerate (statements b)).
Definition all_sites (blocks : list BasicBlockData) : list (site * Statement) :=
  enumerate blocks ≫= fun '(bb, b) => block_sites bb b.

Definition removable_dest (k : StatementKind) : option Var :=
  match k with
  | Assign dest _ =>
      if is_pathless dest then
        match version (base dest), variable (base dest) with
        | None, Variable_Local i => Some (Variable_Local i)
        | _, _ => None
        end
      else None
  | _ => None
  end.

Notation use_counts := (gmap Var nat).
Notation site_map := (gmap Var (list site)).

(** [*uses.entry(v.variable).or_default() += 1]. *)
Definition count_use (uses : use_counts) (v : VariableRef) : use_counts :=
  <[variable v := default 0 (uses !! variable v) + 1]> uses.

Definition scan_stmt (bb : nat) (st : use_counts * site_map) (e : nat * Statement) : use_counts * site_map :=
  let '(uses, def_sites) := st in
  let '(pos, stmt) := e in
  let uses := foldl count_use uses (iter_src_var (kind stmt)) in
  match removable_dest (kind stmt) with
  | Some var => (uses, <[var := default [] (def_sites !! var) ++ [(bb, pos)]]> def_sites)
  | None => (uses, def_sites)
  end.

Definition scan_block (st : use_counts * site_map) (e : nat * BasicBlockData) : use_counts * site_map :=
  let '(bb, block) := e in
  let '(uses, def_sites) := foldl (scan_stmt bb) st (enumerate (statements block)) in
  (match terminator block with Some t => foldl count_use uses (term_iter_src_var t) | None => uses end,
   def_sites).

Definition scan (blocks : list BasicBlockData) : use_counts * site_map :=
  foldl scan_block (∅, ∅) (enumerate blocks).

(** [for &site in sites { if dead.insert(site) { worklist.push(site); } }]. *)
Definition mark (st : gset site * list site) (s : site) : gset site * list site :=
  let '(dead, worklist) := st in
  if decide (s ∈ dead) then (dead, worklist) else ({[ s ]} ∪ dead, s :: worklist).

Definition seed (uses : use_counts) (entries : list (Var * list site)) : gset site * list site :=
  foldl (fun st '(var, sites) =>
           if decide (default 0 (uses !! var) = 0) then foldl mark st sites else st) (∅, []) entries.

(** One read dropped: the body of the propagation's inner loop. *)
Definition drop_read (def_sites : site_map) (st : use_counts * (gset site * list site)) (var : Var)
  : outcome (use_counts * (gset site * list site)) :=
  let '(uses, dw) := st in
  count ← unwrap (uses !! var);
  if decide (count = 0) then Panic
  else
    let count := count - 1 in
    let uses := <[var := count]> uses in
    Ret (uses, if decide (count = 0) then foldl mark dw (default [] (def_sites !! var)) else dw).

Fixpoint propagate (fuel : nat) (blocks : list BasicBlockData) (def_sites : site_map)
    (uses : use_counts) (dead : gset site) (worklist : list site) : outcome (gset site) :=
  match fuel with
  | 0 => OutOfFuel
  | S fuel =>
      match worklist with
      | [] => Ret dead
      | (bb, pos) :: worklist =>
          block ← iv_index blocks bb;
          stmt ← iv_index (statements block) pos;
          let read := map variable (iter_src_var (kind stmt)) in
          '(uses, (dead, worklist)) ← foldM (drop_read def_sites) (uses, (dead, worklist)) read;
          propagate fuel blocks def_sites uses dead worklist
      end
  end.

(** The rebuild loop: [positions] is sorted and peeked at from the front. *)
Fixpoint drop_positions (i : nat) (positions : list nat) (old : list Statement) : list Statement :=
  match old with
  | [] => []
  | s :: old =>
      match positions with
      | p :: rest =>
          if decide (p = i) then drop_positions (S i) rest old
          else s :: drop_positions (S i) positions old
      | [] => s :: drop_positions (S i) positions old
      end
  end.

Definition positions_in (dead : gset site) (bb : nat) : list nat :=
  omap (fun s => if decide (s.1 = bb) then Some s.2 else None) (elements dead).

Definition rebuild (dead : gset site) (blocks : list BasicBlockData) : list BasicBlockData :=
  map (fun '(bb, b) =>
         match positions_in dead bb with
         | [] => b
         | positions => with_statements b (drop_positions 0 (merge_sort (≤) positions) (statements b))
         end) (enumerate blocks).

Section pass.
Variable hash_iter : site_map -> list (Var * list site).

Definition eliminate_dead_temps_function (f : FunctionData) : outcome (FunctionData * nat) :=
  if decide (blocks f = []) then Ret (f, 0)
  else
    let '(uses, def_sites) := scan (blocks f) in
    let '(dead, worklist) := seed uses (hash_iter def_sites) in
    dead ← propagate (S (length (all_sites (blocks f)))) (blocks f) def_sites uses dead worklist;
    if decide (dead = ∅) then Ret (f, 0)
    else Ret (with_blocks f (rebuild dead (blocks f)), size dead).

Definition eliminate_dead_temps (p : Program) : outcome (Program * nat) :=
  '(fs, deleted) ← foldM (fun '(fs, deleted) f =>
      '(f, n) ← eliminate_dead_temps_function f; Ret (fs ++ [f], deleted + n)) ([], 0) (functions p);
  Ret ({| functions := fs; globals := globals p |}, deleted).
End pass.

(** ** Counting reads *)

Definition occ (v : Var) (l : list VariableRef) : nat :=
  length (filter (fun r => variable r = v) l).

#[local] Arguments occ : simpl never.

Lemma occ_app v l1 l2 : occ v (l1 ++ l2) = occ v l1 + occ v l2.
Proof. unfold occ. by rewrite filter_app, length_app. Qed.

Lemma occ_cons v r l : occ v (r :: l) = (if decide (variable r = v) then 1 else 0) + occ v l.
Proof. unfold occ. rewrite filter_cons. by case_decide. Qed.

Lemma occ_pos v l : 0 < occ v l <-> exists r, r ∈ l /\ variable r = v.
Proof.
  induction l as [|r l IH]; [split; [unfold occ; simpl; lia|set_solver]|].
  rewrite occ_cons. case_decide as Hr.
  - split; [|lia]. intros _. exists r. set_solver.
  - simpl. rewrite IH. set_solver.
Qed.

Definition count (uses : use_counts) (v : Var) : nat := default 0 (uses !! v).

Lemma count_use_all l : forall uses v, count (foldl count_use uses l) v = count uses v + occ v l.
Proof.
  induction l as [|r l IH]; intros uses v; simpl; [unfold occ; simpl; lia|].
  rewrite IH, occ_cons. unfold count, count_use.
  destruct (decide (variable r = v)) as [->|Hne]; [rewrite lookup_insert_eq; simpl; lia|].
  by rewrite lookup_insert_ne.
Qed.

Definition stmt_reads (e : site * Statement) : list VariableRef := iter_src_var (kind e.2).

Definition sites_at (m : site_map) (v : Var) : list site := default [] (m !! v).

Lemma scan_stmts_spec bb l : forall uses m,
  let '(uses', m') := foldl (scan_stmt bb) (uses, m) l in
  (forall v, count uses' v = count uses v + sum_list_with (fun e => occ v (iter_src_var (kind e.2))) l) /\
  (forall v s, s ∈ sites_at m' v <-> s ∈ sites_at m v \/
     exists pos stmt, (pos, stmt) ∈ l /\ s = (bb, pos) /\ removable_dest (kind stmt) = Some v).
Proof.
  induction l as [|[pos stmt] l IH]; intros uses m; simpl.
  { split; [intros; lia|]. set_solver. }
  set (uses1 := foldl count_use uses (iter_src_var (kind stmt))).
  assert (forall v, count uses1 v = count uses v + occ v (iter_src_var (kind stmt))) as Hu
    by (intros; apply count_use_all). clearbody uses1.
  destruct (removable_dest (kind stmt)) as [var|] eqn:E;
    [specialize (IH uses1 (<[var := default [] (m !! var) ++ [(bb, pos)]]> m))|specialize (IH uses1 m)];
    destruct (foldl _ _ l) as [uses' m']; destruct IH as [H1 H2]; split.
  1, 3: intros v; rewrite H1, Hu; lia.
  - intros v s. rewrite H2. unfold sites_at. destruct (decide (var = v)) as [->|Hne].
    + rewrite lookup_insert_eq. simpl. rewrite elem_of_app. set_solver.
    + rewrite lookup_insert_ne by done. split; [set_solver|].
      intros [?|(pos' & stmt' & [[= -> ->]|?]%elem_of_cons & -> & Hr)]; [auto|congruence|]. right. eauto.
  - intros v s. rewrite H2. split; [set_solver|].
    intros [?|(pos' & stmt' & [[= -> ->]|?]%elem_of_cons & -> & Hr)]; [auto|congruence|]. right. eauto.
Qed.

Lemma block_sites_sum v bb b :
  sum_list_with (fun e => occ v (stmt_reads e)) (block_sites bb b) =
  sum_list_with (fun e => occ v (iter_src_var (kind e.2))) (enumerate (statements b)).
Proof.
  unfold block_sites. induction (enumerate (statements b)) as [|[pos s] l IH]; simpl; [done|].
  by rewrite IH.
Qed.

Lemma elem_of_block_sites s stmt bb b :
  (s, stmt) ∈ block_sites bb b <-> exists pos, s = (bb, pos) /\ (pos, stmt) ∈ enumerate (statements b).
Proof.
  unfold block_sites. rewrite elem_of_map. split.
  - intros ([pos s'] & [= -> ->] & ?). eauto.
  - intros (pos & -> & ?). by exists (pos, stmt).
Qed.

Lemma scan_blocks_spec l : forall uses m,
  let '(uses', m') := foldl scan_block (uses, m) l in
  let sites := l ≫= fun '(bb, b) => block_sites bb b in
  (forall v, count uses' v = count uses v + sum_list_with (fun e => occ v (stmt_reads e)) sites +
                             occ v (l.*2 ≫= term_reads)) /\
  (forall v s, s ∈ sites_at m' v <-> s ∈ sites_at m v \/
     exists stmt, (s, stmt) ∈ sites /\ removable_dest (kind stmt) = Some v).
Proof.
  induction l as [|[bb b] l IH]; intros uses m; csimpl.
  { split; [intros v; change (occ v []) with 0; lia|]. set_solver. }
  pose proof (scan_stmts_spec bb (enumerate (statements b)) uses m) as Hs.
  destruct (foldl (scan_stmt bb) (uses, m) (enumerate (statements b))) as [uses1 m1].
  destruct Hs as [Hu Hm].
  set (uses2 := match terminator b with Some t => _ | None => _ end).
  assert (forall v, count uses2 v = count uses1 v + occ v (term_reads b)) as Hu2.
  { intros v. unfold uses2, term_reads. destruct (terminator b); [apply count_use_all|].
    change (occ v []) with 0. lia. }
  clearbody uses2. specialize (IH uses2 m1). destruct (foldl scan_block _ l) as [uses' m'].
  destruct IH as [H1 H2]. split.
  - intros v. rewrite H1, Hu2, Hu, sum_list_with_app, block_sites_sum, occ_app. lia.
  - intros v s. rewrite H2, Hm. setoid_rewrite elem_of_app. setoid_rewrite elem_of_block_sites. set_solver.
Qed.

Lemma scan_spec blocks :
  let '(uses, m) := scan blocks in
  (forall v, count uses v = sum_list_with (fun e => occ v (stmt_reads e)) (all_sites blocks) +
                            occ v (blocks ≫= term_reads)) /\
  (forall v s, s ∈ sites_at m v <-> exists stmt, (s, stmt) ∈ all_sites blocks /\ removable_dest (kind stmt) = Some v).
Proof.
  unfold scan, all_sites. pose proof (scan_blocks_spec (enumerate blocks) ∅ ∅) as Hs.
  destruct (foldl _ _ _) as [uses m]. destruct Hs as [Hu Hm]. rewrite enum_from_snd in Hu. split.
  - intros v. rewrite Hu. unfold count. by rewrite lookup_empty.
  - intros v s. rewrite Hm. unfold sites_at. rewrite lookup_empty. set_solver.
Qed.

Lemma elem_of_all_sites blocks bb pos stmt :
  ((bb, pos), stmt) ∈ all_sites blocks <->
  exists b, blocks !! bb = Some b /\ statements b !! pos = Some stmt.
Proof.
  unfold all_sites. rewrite list_elem_of_bind. split.
  - intros ([bb' b] & (pos' & [= -> ->] & Hp%elem_of_enumerate)%elem_of_block_sites & Hb%elem_of_enumerate). eauto.
  - intros (b & Hb & Hp). exists (bb, b). rewrite elem_of_block_sites, elem_of_enumerate.
    split; [|done]. exists pos. by rewrite elem_of_enumerate.
Qed.

Lemma all_sites_fun blocks s stmt stmt' :
  (s, stmt) ∈ all_sites blocks -> (s, stmt') ∈ all_sites blocks -> stmt = stmt'.
Proof.
  destruct s as [bb pos]. rewrite !elem_of_all_sites. intros (b & Hb & Hs) (b' & Hb' & Hs'). congruence.
Qed.

Lemma all_sites_nodup blocks : NoDup (all_sites blocks).*1.
Proof.
  unfold all_sites. generalize 0 as i. induction blocks as [|b blocks IH]; intros i; csimpl; [apply NoDup_nil_2|].
  rewrite fmap_app. apply NoDup_app. split_and!; [| |apply IH].
  - unfold block_sites. generalize 0 as j. induction (statements b) as [|s l IHl]; intros j; csimpl; [apply NoDup_nil_2|].
    apply NoDup_cons. split; [|apply IHl]. intros ([[bb pos] s'] & E & Hin)%list_elem_of_fmap.
    apply elem_of_map in Hin as ([pos' s''] & E' & Hin). apply elem_of_enum_from in Hin. simplify_eq/=. lia.
  - intros [bb pos] ([s1 x1] & E1 & H1)%list_elem_of_fmap ([s2 x2] & E2 & H2)%list_elem_of_fmap. simplify_eq/=.
    apply elem_of_block_sites in H1 as (p1 & [= -> ->] & _).
    apply list_elem_of_bind in H2 as ([bb' b'] & Hb & Hin%elem_of_enum_from).
    apply elem_of_block_sites in Hb as (p2 & [= -> ->] & _). lia.
Qed.

(** The definition sites that can be deleted: an unread removable definition, or one whose every
    reader can be deleted. *)
Inductive dead_site (blocks : list BasicBlockData) : site -> Prop :=
| dead_intro s stmt v :
    (s, stmt) ∈ all_sites blocks -> removable_dest (kind stmt) = Some v ->
    (forall s' stmt' r, (s', stmt') ∈ all_sites blocks -> r ∈ iter_src_var (kind stmt') ->
       variable r = v -> dead_site blocks s') ->
    (forall r, r ∈ blocks ≫= term_reads -> variable r <> v) ->
    dead_site blocks s.

(** Reads of [v] by statements outside [P] and by terminators. *)
Definition remain (blocks : list BasicBlockData) (P : gset site) (v : Var) : nat :=
  sum_list_with (fun e => if decide (e.1 ∈ P) then 0 else occ v (stmt_reads e)) (all_sites blocks) +
  occ v (blocks ≫= term_reads).

Lemma remain_visit blocks P s stmt v : (s, stmt) ∈ all_sites blocks -> s ∉ P ->
  remain blocks P v = occ v (iter_src_var (kind stmt)) + remain blocks ({[ s ]} ∪ P) v.
Proof.
  unfold remain. pose proof (all_sites_nodup blocks) as Hnd. intros Hin HP.
  assert (sum_list_with (fun e => if decide (e.1 ∈ P) then 0 else occ v (stmt_reads e)) (all_sites blocks) =
    occ v (iter_src_var (kind stmt)) +
    sum_list_with (fun e => if decide (e.1 ∈ {[ s ]} ∪ P) then 0 else occ v (stmt_reads e)) (all_sites blocks)); [|lia].
  induction (all_sites blocks) as [|[s' x'] l IH]; [by apply elem_of_nil in Hin|]. csimpl in Hnd. simpl.
  apply NoDup_cons in Hnd as [Hs' Hnd]. apply elem_of_cons in Hin as [[= <- <-]|Hin].
  - rewrite decide_False by done. rewrite decide_True by set_solver. simpl. f_equal.
    apply sum_list_with_ext. intros [s2 x2] Hy. simpl.
    assert (s2 <> s) by (intros ->; apply Hs', list_elem_of_fmap; by exists (s, x2)).
    destruct (decide (s2 ∈ P)), (decide (s2 ∈ {[ s ]} ∪ P)); set_solver.
  - rewrite (IH Hnd Hin).
    assert (s' <> s) by (intros ->; apply Hs', list_elem_of_fmap; by exists (s, stmt)).
    destruct (decide (s' ∈ P)), (decide (s' ∈ {[ s ]} ∪ P)); [lia|set_solver|set_solver|lia].
Qed.

Lemma remain_0 blocks P v : remain blocks P v = 0 ->
  (forall s stmt r, (s, stmt) ∈ all_sites blocks -> r ∈ iter_src_var (kind stmt) -> variable r = v -> s ∈ P) /\
  (forall r, r ∈ blocks ≫= term_reads -> variable r <> v).
Proof.
  unfold remain. intros Hr. split.
  - intros s stmt r Hin Hread Hv. destruct (decide (s ∈ P)) as [|HP]; [done|].
    assert (0 < sum_list_with (fun e => if decide (e.1 ∈ P) then 0 else occ v (stmt_reads e)) (all_sites blocks)); [|lia].
    apply sum_list_with_pos. exists (s, stmt). split; [done|]. simpl. rewrite decide_False by done.
    apply occ_pos. eauto.
  - intros r Hin Hv. assert (0 < occ v (blocks ≫= term_reads)); [|lia]. apply occ_pos. eauto.
Qed.

Lemma mark_all l : forall dead W,
  let '(dead', W') := foldl mark (dead, W) l in
  (forall s, s ∈ dead' <-> s ∈ dead \/ s ∈ l) /\
  exists new, W' = new ++ W /\ NoDup new /\ forall s, s ∈ new <-> s ∈ l /\ s ∉ dead.
Proof.
  induction l as [|s l IH]; intros dead W; simpl.
  { split; [set_solver|]. exists []. split_and!; [done|apply NoDup_nil_2|set_solver]. }
  case_decide as Hs; [specialize (IH dead W)|specialize (IH ({[ s ]} ∪ dead) (s :: W))];
    destruct (foldl _ _ l) as [dead' W']; destruct IH as (H1 & new & -> & Hnd & Hnew).
  - split; [set_solver|]. exists new. split_and!; [done..|]. set_solver.
  - split; [set_solver|]. exists (new ++ [s]). split_and!; [by rewrite <- app_assoc| |].
    + apply NoDup_app. split_and!; [done| |apply NoDup_singleton]. intros x Hx%Hnew. set_solver.
    + intros x. rewrite elem_of_app, list_elem_of_singleton, Hnew, elem_of_cons, not_elem_of_union, not_elem_of_singleton.
      destruct (decide (x = s)) as [->|]; naive_solver.
Qed.

(** ** The propagation *)

Section propagate_correct.
Context (blocks : list BasicBlockData) (m : site_map).
Hypothesis Hm : forall v s, s ∈ sites_at m v <->
  exists stmt, (s, stmt) ∈ all_sites blocks /\ removable_dest (kind stmt) = Some v.

(** [dead ∖ worklist] are the sites whose reads have been dropped, [rest] the reads of the
    current one that are still counted. *)
Record prop_inv (rest : list VariableRef) (uses : use_counts) (dead : gset site) (W : list site) : Prop := {
  p_count : forall v, count uses v = remain blocks (dead ∖ list_to_set W) v + occ v rest;
  p_nodup : NoDup W;
  p_sub : forall s, s ∈ W -> s ∈ dead;
  p_just : forall s, s ∈ dead -> dead_site blocks s;
  p_complete : forall v s, s ∈ sites_at m v -> count uses v = 0 -> s ∈ dead;
}.

Lemma unread_dead dead W v s : (forall s, s ∈ dead -> dead_site blocks s) ->
  remain blocks (dead ∖ list_to_set W) v = 0 -> s ∈ sites_at m v -> dead_site blocks s.
Proof.
  intros Hj [Hr Ht]%remain_0 (stmt & Hin & Hrem)%Hm. eapply dead_intro; [done|done| |done].
  intros s' stmt' r Hin' Hread Hv. apply Hj. pose proof (Hr s' stmt' r Hin' Hread Hv). set_solver.
Qed.

Lemma drop_read_inv r rest uses dead W :
  prop_inv (r :: rest) uses dead W ->
  exists uses' dead' W', drop_read m (uses, (dead, W)) (variable r) = Ret (uses', (dead', W')) /\
    prop_inv rest uses' dead' W' /\ dead' ∖ list_to_set W' = dead ∖ list_to_set W.
Proof.
  intros [Hc Hnd Hsub Hj Hcomp]. unfold drop_read. pose proof (Hc (variable r)) as Hcr.
  rewrite occ_cons, decide_True in Hcr by done. unfold count in Hcr at 1.
  destruct (uses !! variable r) as [n|] eqn:E; simpl in Hcr; [|lia]. simpl.
  rewrite decide_False by lia.
  set (uses' := <[variable r:=n - 1]> uses).
  assert (forall v, count uses' v = remain blocks (dead ∖ list_to_set W) v + occ v rest) as Hc'.
  { intros v. unfold count, uses'. destruct (decide (variable r = v)) as [<-|Hne].
    - rewrite lookup_insert_eq. simpl. lia.
    - rewrite lookup_insert_ne by done. specialize (Hc v). unfold count in Hc. rewrite Hc.
      rewrite occ_cons, decide_False by done. done. }
  assert (forall v, v <> variable r -> count uses' v = count uses v) as Hne.
  { intros v Hv. unfold count, uses'. by rewrite lookup_insert_ne. }
  destruct (decide (n - 1 = 0)) as [Hz|Hz].
  - fold (sites_at m (variable r)). pose proof (mark_all (sites_at m (variable r)) dead W) as Hmk.
    destruct (foldl mark _ _) as [dead' W']. destruct Hmk as (Hd & new & -> & Hnn & Hnew).
    assert (dead' ∖ list_to_set (new ++ W) = dead ∖ list_to_set W) as EP.
    { apply set_eq. intros s. rewrite !elem_of_difference, !elem_of_list_to_set, Hd, elem_of_app, Hnew.
      destruct (decide (s ∈ dead)); naive_solver. }
    eexists _, _, _. split; [reflexivity|]. split; [|done]. split.
    + intros v. rewrite EP. apply Hc'.
    + apply NoDup_app. split_and!; [done| |done]. intros s [_ Hs]%Hnew HW. by apply Hs, Hsub.
    + intros s. rewrite elem_of_app, Hnew, Hd. naive_solver.
    + intros s [Hs|Hs]%Hd; [by apply Hj|]. eapply (unread_dead dead W (variable r)); [done| |done]. lia.
    + intros v s Hs Hv. apply Hd. destruct (decide (v = variable r)) as [->|Hv']; [by right|].
      left. eapply Hcomp; [done|]. by rewrite <- Hne.
  - eexists _, _, _. split; [reflexivity|]. split; [|done]. split; try done.
    intros v s Hs Hv. destruct (decide (v = variable r)) as [->|Hv']; [|eapply Hcomp; [done|]; by rewrite <- Hne].
    rewrite Hc' in Hv. lia.
Qed.

Lemma drop_reads_inv rest : forall uses dead W,
  prop_inv rest uses dead W ->
  exists uses' dead' W', foldM (drop_read m) (uses, (dead, W)) (map variable rest) = Ret (uses', (dead', W')) /\
    prop_inv [] uses' dead' W' /\ dead' ∖ list_to_set W' = dead ∖ list_to_set W.
Proof.
  induction rest as [|r rest IH]; intros uses dead W Hinv; [by exists uses, dead, W|].
  destruct (drop_read_inv r rest uses dead W Hinv) as (u1 & d1 & W1 & E & Hinv1 & EP).
  cbn [map foldM]. rewrite E. destruct (IH u1 d1 W1 Hinv1) as (u2 & d2 & W2 & E2 & Hinv2 & EP2).
  exists u2, d2, W2. by rewrite EP2.
Qed.

Lemma dead_site_stmt s : dead_site blocks s -> exists stmt, (s, stmt) ∈ all_sites blocks.
Proof. destruct 1. eauto. Qed.

Lemma propagate_correct fuel : forall uses dead W,
  prop_inv [] uses dead W -> length (all_sites blocks) < fuel + size (dead ∖ list_to_set W) ->
  exists D, propagate fuel blocks m uses dead W = Ret D /\ forall s, s ∈ D <-> dead_site blocks s.
Proof.
  assert (forall uses dead W, prop_inv [] uses dead W -> size (dead ∖ list_to_set W) <= length (all_sites blocks)) as Hsize.
  { intros uses dead W Hinv. rewrite <- (length_fmap fst), <- (size_list_to_set (C:=gset _) _ (all_sites_nodup blocks)).
    apply subseteq_size. intros s [Hs _]%elem_of_difference.
    apply (p_just _ _ _ _ Hinv), dead_site_stmt in Hs as [stmt Hs].
    apply elem_of_list_to_set, list_elem_of_fmap. by exists (s, stmt). }
  induction fuel as [|fuel IH]; intros uses dead W Hinv Hf.
  { specialize (Hsize _ _ _ Hinv). lia. }
  cbn [propagate]. destruct W as [|[bb pos] W].
  - exists dead. split; [done|]. intros s. split; [apply Hinv|].
    destruct Hinv as [Hc _ _ _ Hcomp].
    induction 1 as [s stmt v Hin Hrem _ IHr Ht]. apply (Hcomp v s); [apply Hm; eauto|].
    rewrite Hc. change (list_to_set []) with (∅ : gset site). rewrite difference_empty_L.
    change (occ v []) with 0. rewrite Nat.add_0_r. unfold remain.
    destruct (occ v (blocks ≫= term_reads)) as [|k] eqn:Eo.
    2: { assert (0 < occ v (blocks ≫= term_reads)) as (r & Hr & Hv)%occ_pos by lia. by destruct (Ht r Hr). }
    rewrite Nat.add_0_r. apply Nat.le_0_r, Nat.nlt_ge. intros ([s' stmt'] & Hin' & Hpos)%sum_list_with_pos.
    simpl in Hpos. case_decide as Hd; [lia|]. apply occ_pos in Hpos as (r & Hr & Hv).
    destruct Hd. by eapply IHr.
  - assert (dead_site blocks (bb, pos)) as [stmt Hin]%dead_site_stmt by (apply Hinv, Hinv; set_solver).
    pose proof Hin as (b & Hb & Hs)%elem_of_all_sites. unfold iv_index.
    rewrite Hb. cbn [unwrap mbind outcome_bind]. rewrite Hs. cbn [unwrap mbind outcome_bind].
    assert ((bb, pos) ∉ W) as HnW by (pose proof (p_nodup _ _ _ _ Hinv) as Hnd; by apply NoDup_cons in Hnd as [? _]).
    assert (dead ∖ list_to_set W = {[ (bb, pos) ]} ∪ dead ∖ list_to_set ((bb, pos) :: W)) as EP.
    { apply set_eq. intros s. destruct (decide (s = (bb, pos))) as [->|].
      - pose proof (p_sub _ _ _ _ Hinv (bb, pos) ltac:(set_solver)). set_solver.
      - set_solver. }
    assert ((bb, pos) ∉ dead ∖ list_to_set ((bb, pos) :: W)) as HnP by set_solver.
    assert (prop_inv (iter_src_var (kind stmt)) uses dead W) as Hinv1.
    { destruct Hinv as [Hc Hnd Hsub Hj Hcomp]. split; [| |set_solver|done|done].
      - intros v. rewrite Hc, (remain_visit blocks _ (bb, pos) stmt) by done. rewrite EP.
        change (occ v []) with 0. lia.
      - by apply NoDup_cons in Hnd as [_ ?]. }
    destruct (drop_reads_inv _ _ _ _ Hinv1) as (u' & d' & W' & -> & Hinv' & EP'). simpl.
    apply (IH _ _ _ Hinv'). rewrite EP', EP, size_union, size_singleton by set_solver. lia.
Qed.

Lemma seed_spec uses entries :
  (forall v l, (v, l) ∈ entries <-> m !! v = Some l) ->
  let '(dead, W) := seed uses entries in
  NoDup W /\ (forall s, s ∈ W <-> s ∈ dead) /\
  forall s, s ∈ dead <-> exists v, count uses v = 0 /\ s ∈ sites_at m v.
Proof.
  intros He. unfold seed.
  assert (forall l dead W, NoDup W -> (forall s, s ∈ W <-> s ∈ dead) ->
    let '(dead', W') := foldl (fun st '(var, sites) =>
           if decide (default 0 (uses !! var) = 0) then foldl mark st sites else st) (dead, W) l in
    NoDup W' /\ (forall s, s ∈ W' <-> s ∈ dead') /\
    forall s, s ∈ dead' <-> s ∈ dead \/ exists v sites, (v, sites) ∈ l /\ count uses v = 0 /\ s ∈ sites) as G.
  { induction l as [|[v sites] l IH]; intros dead W Hnd HW; simpl; [split_and!; set_solver|].
    fold (count uses v). destruct (decide (count uses v = 0)) as [Hz|Hz].
    - pose proof (mark_all sites dead W) as Hmk. destruct (foldl mark _ sites) as [d1 W1].
      destruct Hmk as (Hd & new & -> & Hnn & Hnew).
      specialize (IH d1 (new ++ W)). destruct (foldl _ (d1, _) l) as [d2 W2].
      destruct IH as (? & ? & Hd2).
      + apply NoDup_app. split_and!; [done| |done]. intros s [_ Hs]%Hnew HsW. by apply Hs, HW.
      + intros s. rewrite elem_of_app, Hnew, Hd, HW. destruct (decide (s ∈ dead)); naive_solver.
      + split_and!; [done..|]. intros s. rewrite Hd2, Hd. split; [|set_solver]. set_solver.
    - specialize (IH dead W Hnd HW). destruct (foldl _ _ l) as [d2 W2]. destruct IH as (? & ? & Hd2).
      split_and!; [done..|]. intros s. rewrite Hd2. split; [set_solver|].
      intros [?|(v' & sites' & [[= -> ->]|?]%elem_of_cons & ? & ?)]; [auto|done|]. right. eauto 10. }
  specialize (G entries ∅ [] (NoDup_nil_2) ltac:(set_solver)).
  destruct (foldl _ _ entries) as [dead W]. destruct G as (? & ? & Hd). split_and!; [done..|].
  intros s. rewrite Hd. unfold sites_at. split.
  - intros [?%elem_of_empty|(v & l & Hl%He & ? & ?)]; [done|]. exists v. by rewrite Hl.
  - intros (v & Hv & Hs). destruct (m !! v) as [l|] eqn:E; simpl in Hs; [|set_solver].
    right. exists v, l. rewrite He. auto.
Qed.
End propagate_correct.

(** ** The rebuilt function *)

Definition keep_block (D : gset site) (e : nat * BasicBlockData) : BasicBlockData :=
  with_statements e.2 (filter (fun x => (e.1, x.1) ∉ D) (enumerate (statements e.2))).*2.

Definition keep (D : gset site) (blocks : list BasicBlockData) : list BasicBlockData :=
  map (keep_block D) (enumerate blocks).

Lemma drop_positions_spec old : forall i ps,
  StronglySorted lt ps -> Forall (fun p => i <= p) ps ->
  drop_positions i ps old = (filter (fun x => x.1 ∉ ps) (enum_from i old)).*2.
Proof.
  induction old as [|s old IH]; intros i ps Hs Hi; [done|]. simpl. rewrite filter_cons. simpl.
  destruct ps as [|p ps].
  - rewrite decide_True by set_solver. simpl. f_equal. by apply IH.
  - apply StronglySorted_inv in Hs as [Hs Hp]. apply Forall_cons in Hi as [Hpi Hi]. case_decide as Hd.
    + subst p. rewrite decide_False by set_solver. rewrite IH; [|done|].
      * f_equal. apply filter_ext_in. intros [j x] Hin%elem_of_enum_from. simpl.
        rewrite not_elem_of_cons. split; [|naive_solver]. intros; split; [lia|done].
      * eapply Forall_impl; [exact Hp|]. simpl. lia.
    + rewrite decide_True; [|rewrite not_elem_of_cons, Forall_forall in *; split; [done|intros Hin%Hp; lia]].
      simpl. f_equal. apply IH; [by constructor|]. constructor; [lia|].
      eapply Forall_impl; [exact Hp|]. simpl. lia.
Qed.

Lemma StronglySorted_le_lt ps : StronglySorted le ps -> NoDup ps -> StronglySorted lt ps.
Proof.
  induction 1 as [|p ps Hs IH Hp]; intros Hnd; [constructor|].
  apply NoDup_cons in Hnd as [Hin Hnd]. constructor; [auto|].
  rewrite Forall_forall in *. intros x Hx. specialize (Hp x Hx). assert (x <> p) by congruence. lia.
Qed.

Lemma elem_of_positions_in D bb pos : pos ∈ positions_in D bb <-> (bb, pos) ∈ D.
Proof.
  unfold positions_in. rewrite list_elem_of_omap. split.
  - intros ([bb' pos'] & Hin%elem_of_elements & E). simpl in E. case_decide; simplify_eq/=. done.
  - intros Hin. exists (bb, pos). rewrite elem_of_elements. simpl. by rewrite decide_True.
Qed.

Lemma positions_in_nodup D bb : NoDup (positions_in D bb).
Proof.
  unfold positions_in. pose proof (NoDup_elements D) as Hnd.
  induction (elements D) as [|[bb' pos] l IH]; csimpl; [apply NoDup_nil_2|].
  apply NoDup_cons in Hnd as [Hin Hnd]. case_decide as E; [|auto]. simpl in E. subst bb'.
  apply NoDup_cons. split; [|auto]. intros ([b p] & Hin' & E)%list_elem_of_omap. simpl in E.
  case_decide; simplify_eq/=. done.
Qed.

Lemma rebuild_keep D blocks : rebuild D blocks = keep D blocks.
Proof.
  unfold rebuild, keep. apply map_ext_in. intros [bb b] _. unfold keep_block. simpl.
  assert (forall ps, (forall pos, pos ∈ ps <-> (bb, pos) ∈ D) -> NoDup ps -> StronglySorted le ps ->
    drop_positions 0 ps (statements b) = (filter (fun x => (bb, x.1) ∉ D) (enumerate (statements b))).*2) as G.
  { intros ps Hps Hnd Hs. rewrite drop_positions_spec; [|by apply StronglySorted_le_lt|].
    - f_equal. apply filter_ext_in. intros [j x] _. simpl. by rewrite Hps.
    - apply Forall_forall. lia. }
  destruct (positions_in D bb) as [|p ps] eqn:E.
  - rewrite <- (G []); [|intros pos; rewrite <- elem_of_positions_in, E; done|apply NoDup_nil_2|constructor].
    destruct b as [l t]. unfold with_statements. simpl. f_equal. clear.
    generalize 0 as i. induction l as [|s l IH]; intros i; simpl; [done|]. by rewrite <- IH.
  - f_equal. apply G.
    + intros pos. rewrite merge_sort_Permutation, <- E. apply elem_of_positions_in.
    + rewrite merge_sort_Permutation, <- E. apply positions_in_nodup.
    + apply Sorted_StronglySorted; [intros ???; lia|]. apply Sorted_merge_sort. intros ??. lia.
Qed.

Lemma stmts_of_keep D blocks :
  stmts_of (keep D blocks) = (filter (fun e => e.1 ∉ D) (all_sites blocks)).*2.
Proof.
  unfold stmts_of, keep, all_sites. generalize 0 as i.
  induction blocks as [|b blocks IH]; intros i; csimpl; [done|].
  rewrite filter_app, fmap_app, IH. f_equal. unfold block_sites. generalize 0 as j.
  induction (statements b) as [|s l IHl]; intros j; csimpl; [done|]. rewrite !filter_cons. simpl.
  case_decide; csimpl; by rewrite IHl.
Qed.

Lemma term_reads_keep D blocks : keep D blocks ≫= term_reads = blocks ≫= term_reads.
Proof.
  unfold keep. generalize 0 as i. induction blocks as [|b blocks IH]; intros i; csimpl; [done|]. by rewrite IH.
Qed.

Lemma elem_of_stmts_keep D blocks stmt :
  stmt ∈ stmts_of (keep D blocks) <-> exists s, (s, stmt) ∈ all_sites blocks /\ s ∉ D.
Proof.
  rewrite stmts_of_keep, list_elem_of_fmap. split.
  - intros ([s x] & -> & [? ?]%list_elem_of_filter). eauto.
  - intros (s & ? & ?). exists (s, stmt). split; [done|]. by apply list_elem_of_filter.
Qed.

Lemma all_sites_snd blocks : (all_sites blocks).*2 = stmts_of blocks.
Proof.
  unfold all_sites, stmts_of. generalize 0 as i. induction blocks as [|b blocks IH]; intros i; csimpl; [done|].
  rewrite fmap_app, IH. f_equal. unfold block_sites. generalize 0 as j.
  induction (statements b) as [|s l IHl]; intros j; csimpl; [done|]. by rewrite IHl.
Qed.

(** [hash_iter] enumerates the entries of a hash map. *)
Definition enumerates (hash_iter : site_map -> list (Var * list site)) : Prop :=
  forall m, hash_iter m ≡ₚ map_to_list m.

Lemma keep_empty blocks : keep ∅ blocks = blocks.
Proof.
  unfold keep. generalize 0 as i. induction blocks as [|b blocks IH]; intros i; [done|]. csimpl.
  rewrite IH. f_equal. unfold keep_block, with_statements. destruct b as [l t]. simpl. f_equal. clear.
  generalize 0 as j. induction l as [|s l IH]; intros j; [done|]. csimpl.
  rewrite filter_cons, decide_True by set_solver. csimpl. by rewrite IH.
Qed.

Lemma eliminate_spec hash_iter f : enumerates hash_iter ->
  exists D, (forall s, s ∈ D <-> dead_site (blocks f) s) /\
    eliminate_dead_temps_function hash_iter f = Ret (with_blocks f (keep D (blocks f)), size D).
Proof.
  intros Hit. unfold eliminate_dead_temps_function.
  assert (forall bs, bs = blocks f -> with_blocks f bs = f) as Eta by (intros ? ->; by destruct f).
  destruct (decide (blocks f = [])) as [Eb|Eb].
  { exists ∅. split.
    - intros s. split; [by intros ?%elem_of_empty|]. rewrite Eb. intros [stmt Hs]%dead_site_stmt. by apply elem_of_nil in Hs.
    - by rewrite Eta by apply keep_empty. }
  pose proof (scan_spec (blocks f)) as Hs. destruct (scan (blocks f)) as [uses m]. destruct Hs as [Hu Hm].
  pose proof (seed_spec (blocks f) m Hm uses (hash_iter m)) as Hseed. destruct (seed uses (hash_iter m)) as [dead W].
  destruct Hseed as (Hnd & HW & Hd).
  { intros v l. rewrite (Hit m). apply elem_of_map_to_list. }
  assert (dead ∖ list_to_set W = ∅) as EP by set_solver.
  assert (forall v, count uses v = remain (blocks f) ∅ v) as Hc.
  { intros v. rewrite Hu. unfold remain. reflexivity. }
  destruct (propagate_correct (blocks f) m Hm (S (length (all_sites (blocks f)))) uses dead W) as (D & -> & HD).
  - split; [|done|set_solver| |].
    + intros v. rewrite EP, Hc. change (occ v []) with 0. lia.
    + intros s (v & Hz & Hsv)%Hd. rewrite Hc in Hz.
      eapply (unread_dead (blocks f) m Hm ∅ [] v); [set_solver| |done].
      by replace (∅ ∖ list_to_set [] : gset site) with (∅ : gset site) by set_solver.
    + intros v s Hsv Hz. apply Hd. eauto.
  - rewrite EP, size_empty. lia.
  - exists D. split; [done|]. simpl. destruct (decide (D = ∅)) as [->|].
    + by rewrite Eta by apply keep_empty.
    + by rewrite rebuild_keep.
Qed.

(** ** Theorems *)

(** C30: Dead-temporary elimination deletes exactly the dead definitions, whatever order the
    hash map iterates in.  It never panics (no read is uncounted, no counter underflows, no
    site is out of range) and terminates; the statements deleted are precisely the inductively
    dead ones (an unread copy into an unversioned local, or one whose every reader is dead),
    every other statement and every terminator is kept in place, and the number returned is
    the number of deleted statements. *)
Theorem eliminate_dead_temps_function_correct hash_iter (f : FunctionData) :
  enumerates hash_iter ->
  exists f' n, eliminate_dead_temps_function hash_iter f = Ret (f', n) /\
    exists D : gset site, (forall s, s ∈ D <-> dead_site (blocks f) s) /\ n = size D /\
    f' = with_blocks f (map (fun '(bb, b) =>
           with_statements b (filter (fun x => (bb, x.1) ∉ D) (enumerate (statements b))).*2)
         (enumerate (blocks f))).
Proof.
  intros Hit. destruct (eliminate_spec hash_iter f Hit) as (D & HD & ->).
  eexists _, _. split; [reflexivity|]. exists D. split_and!; [done..|].
  f_equal. apply map_ext. by intros [].
Qed.

(** [x = y; y = a.f; return p] in one block: both copies are dead. *)
Definition dead_example : FunctionData := {|
  name := "f"; params := [Shared]; arity := 1; locals := Locals_default;
  blocks := [ {| statements :=
      [ new_kind (assign (ap_of_var (new_local_idx 1)) [Exp_variable (new_local_idx 2)]);
        new_kind (assign (ap_of_var (new_local_idx 0)) [Exp_variable (new_local_idx 1)]);
        new_kind (store (ap_of_var (new_local_idx 3)) Deref (Exp_Int 1)) ];
    terminator := Some (term_new_kind (Return [Exp_variable (new_parameter 0)])) |} ] |}.

Lemma map_to_list_enumerates : enumerates map_to_list.
Proof. by intros m. Qed.

Lemma eliminate_dead_temps_function_correct_witness :
  exists f' n, eliminate_dead_temps_function map_to_list dead_example = Ret (f', n) /\ n = 2.
Proof.
  destruct (eliminate_dead_temps_function_correct map_to_list dead_example map_to_list_enumerates)
    as (f' & n & E & _).
  exists f', n. split; [exact E|]. vm_compute in E. injection E as _ <-. reflexivity.
Defined.

Lemma dead_readers blocks D s stmt v r :
  (forall s, s ∈ D <-> dead_site blocks s) ->
  (s, stmt) ∈ all_sites blocks -> removable_dest (kind stmt) = Some v -> variable r = v ->
  r ∈ reads_of (keep D blocks) -> s ∉ D.
Proof.
  intros HD Hin Hrem Hv Hr Hs. apply HD in Hs. inversion Hs as [s0 stmt0 v0 Hin0 Hrem0 Hread0 Ht0]; subst s0.
  assert (stmt0 = stmt) as -> by (by eapply all_sites_fun). assert (v0 = v) as -> by congruence.
  apply elem_of_reads_of in Hr as [(x & (s' & Hs' & HsD)%elem_of_stmts_keep & Hx)|Hr].
  - apply HsD, HD. by eapply Hread0.
  - rewrite term_reads_keep in Hr. by apply (Ht0 r Hr).
Qed.

Lemma unread_is_dead blocks D s stmt v :
  (forall s, s ∈ D <-> dead_site blocks s) ->
  (s, stmt) ∈ all_sites blocks -> removable_dest (kind stmt) = Some v ->
  (forall r, r ∈ reads_of (keep D blocks) -> variable r <> v) -> s ∈ D.
Proof.
  intros HD Hin Hrem Hun. apply HD. eapply dead_intro; [done..| |].
  - intros s' stmt' r Hin' Hr Hv. apply HD. destruct (decide (s' ∈ D)) as [|HsD]; [done|].
    exfalso. apply (Hun r); [|done]. apply elem_of_reads_of. left. exists stmt'.
    rewrite elem_of_stmts_keep. eauto.
  - intros r Hr. apply Hun, elem_of_reads_of. right. by rewrite term_reads_keep.
Qed.

(** What dead-temporary elimination leaves.  Every variable still read has all the
    statements that define it, in order; statements other than copies into unversioned locals
    (calls, stores, phis) are never touched; every remaining copy into an unversioned local is
    read by something that remains; and running the pass again deletes nothing. *)
Theorem eliminate_dead_temps_preserves hash_iter (f f' : FunctionData) (n : nat) :
  enumerates hash_iter -> eliminate_dead_temps_function hash_iter f = Ret (f', n) ->
  (forall r, r ∈ reads_of (blocks f') ->
     filter (fun s => removable_dest (kind s) = Some (variable r)) (stmts_of (blocks f')) =
     filter (fun s => removable_dest (kind s) = Some (variable r)) (stmts_of (blocks f))) /\
  filter (fun s => removable_dest (kind s) = None) (stmts_of (blocks f')) =
  filter (fun s => removable_dest (kind s) = None) (stmts_of (blocks f)) /\
  (forall s v, s ∈ stmts_of (blocks f') -> removable_dest (kind s) = Some v ->
     exists r, r ∈ reads_of (blocks f') /\ variable r = v) /\
  eliminate_dead_temps_function hash_iter f' = Ret (f', 0).
Proof.
  intros Hit E. destruct (eliminate_spec hash_iter f Hit) as (D & HD & E'). rewrite E in E'.
  injection E' as -> _. simpl.
  assert (forall P : Statement -> Prop, forall (Pdec : forall s, Decision (P s)),
    (forall s stmt, (s, stmt) ∈ all_sites (blocks f) -> P stmt -> s ∉ D) ->
    filter P (stmts_of (keep D (blocks f))) = filter P (stmts_of (blocks f))) as Hfilter.
  { intros P Pdec HP. rewrite stmts_of_keep, <- (all_sites_snd (blocks f)).
    induction (all_sites (blocks f)) as [|[s stmt] l IH]; [done|]. rewrite filter_cons. csimpl.
    destruct (decide (P stmt)) as [HPs|HPs].
    - rewrite decide_True by (by apply (HP s stmt (list_elem_of_here _ _))). csimpl.
      rewrite !filter_cons, !decide_True by done. f_equal. apply IH. set_solver.
    - assert (filter P (filter (fun e : site * Statement => e.1 ∉ D) l).*2 = filter P l.*2) as EI by (apply IH; set_solver).
      csimpl. rewrite (filter_cons P stmt), (decide_False (P:=P stmt)), <- EI by done.
      destruct (decide (s ∉ D)); csimpl; [|done]. by rewrite filter_cons, (decide_False (P:=P stmt)). }
  assert (forall s v, s ∈ stmts_of (keep D (blocks f)) -> removable_dest (kind s) = Some v ->
     exists r, r ∈ reads_of (keep D (blocks f)) /\ variable r = v) as Hread.
  { intros s v (s' & Hin & HsD)%elem_of_stmts_keep Hrem.
    destruct (decide (Exists (fun r => variable r = v) (reads_of (keep D (blocks f))))) as [Hex|Hex];
      [apply Exists_exists in Hex as (r & ? & ?); eauto|].
    exfalso. apply HsD. eapply unread_is_dead; [done..|]. intros r Hr Hv.
    apply Hex, Exists_exists. eauto. }
  split_and!; [| |done|].
  - intros r Hr. apply Hfilter. intros s stmt Hin Hrem. by eapply dead_readers.
  - apply Hfilter. intros s stmt Hin Hrem Hs. apply HD in Hs. inversion Hs as [s0 stmt0 v0 Hin0 Hrem0 _ _]; subst s0.
    assert (stmt0 = stmt) as -> by (by eapply all_sites_fun). congruence.
  - destruct (eliminate_spec hash_iter (with_blocks f (keep D (blocks f))) Hit) as (D' & HD' & ->). simpl.
    assert (forall s, dead_site (keep D (blocks f)) s -> False) as Hno.
    { induction 1 as [s stmt v Hin Hrem _ IHr Ht].
      destruct (Hread stmt v) as (r & Hr & Hv); [|done|].
      { rewrite <- all_sites_snd. apply list_elem_of_fmap. by exists (s, stmt). }
      apply elem_of_reads_of in Hr as [(x & Hx & Hxr)|Hr]; [|by apply (Ht r Hr)].
      rewrite <- all_sites_snd in Hx. apply list_elem_of_fmap in Hx as ([s' x'] & -> & Hx). by eapply IHr. }
    assert (D' = ∅) as -> by (apply set_eq; intros s; rewrite HD'; set_solver).
    rewrite keep_empty, size_empty. by destruct f.
Qed.

Lemma eliminate_dead_temps_preserves_witness :
  exists f' n, eliminate_dead_temps_function map_to_list dead_example = Ret (f', n) /\
    eliminate_dead_temps_function map_to_list f' = Ret (f', 0).
Proof.
  destruct (eliminate_dead_temps_function map_to_list dead_example) as [[f' n]| |] eqn:E;
    [|vm_compute in E; discriminate..].
  exists f', n. split; [done|].
  apply (eliminate_dead_temps_preserves map_to_list dead_example f' n map_to_list_enumerates E).
Defined.
