(* ===== verification/ComposeLoads.v ===== *)
(** * ComposeLoads: load-chain composition ([ctadl-ir/src/ssa/compose_loads/mod.rs])

    Within a block, a copy [t = v.s] makes [t] stand for [v.s]; stores through [t] and reads
    through memory from it are rewritten onto what [t] stands for.  The correctness theorem
    interprets variables by any assignment of root paths that satisfies the block's copies, and
    shows that every rewritten access path denotes what the original did. *)

From S2P Require Import Prelude Index Path IR.

Notation Captures := (gmap VariableRef AccessPath).

Definition composed (captures : Captures) (ap : AccessPath) : option AccessPath :=
  cap ← captures !! base ap;
  Some {| base := base cap; segments := concat (segments cap) (segments ap) |}.

Definition reads_memory (ap : AccessPath) : bool := negb (forallb is_offset (segments ap)).

(** One statement's contribution to the captures. *)
Definition capture_stmt (captures : Captures) (s : Statement) : Captures :=
  match kind s with
  | Assign dest [Exp_Path src] =>
      if is_pathless dest then
        let cap := if is_pathless src then captures !! base src
                   else Some (default src (composed captures src)) in
        match cap with
        | Some cap => <[base dest := cap]> captures
        | None => captures
        end
      else captures
  | _ => captures
  end.

(** The closures [store], [read] and [read_exp]: the rewritten value and how many paths changed. *)
Definition compose_store (captures : Captures) (ap : AccessPath) : AccessPath * nat :=
  match composed captures ap with Some c => (c, 1) | None => (ap, 0) end.

Definition compose_read (captures : Captures) (ap : AccessPath) : AccessPath * nat :=
  if reads_memory ap then compose_store captures ap else (ap, 0).

Definition compose_exp (captures : Captures) (e : Exp) : Exp * nat :=
  match e with
  | Exp_Path ap => let '(ap, n) := compose_read captures ap in (Exp_Path ap, n)
  | Exp_Value ap => let '(ap, n) := compose_read captures ap in (Exp_Value ap, n)
  | _ => (e, 0)
  end.

(** [exps.iter_mut().map(read_exp).sum()]. *)
Fixpoint compose_exps (captures : Captures) (l : list Exp) : list Exp * nat :=
  match l with
  | [] => ([], 0)
  | e :: l' =>
      let '(e, n) := compose_exp captures e in
      let '(l', m) := compose_exps captures l' in
      (e :: l', n + m)
  end.

Definition compose_kind (captures : Captures) (k : StatementKind) : StatementKind * nat :=
  match k with
  | Assign dest sources =>
      let '(dest, n) := if is_pathless dest then (dest, 0) else compose_store captures dest in
      let '(sources, m) := compose_exps captures sources in
      (Assign dest sources, n + m)
  | CallAssign style rets args =>
      let '(args, n) := compose_exps captures args in
      match style with
      | FuncPtrCall callee sg =>
          let '(callee, m) := compose_read captures callee in
          (CallAssign (FuncPtrCall callee sg) rets args, n + m)
      | _ => (CallAssign style rets args, n)
      end
  | _ => (k, 0)
  end.

Fixpoint compose_stmts (captures : Captures) (l : list Statement) : list Statement * nat :=
  match l with
  | [] => ([], 0)
  | s :: l' =>
      let '(k, n) := compose_kind captures (kind s) in
      let '(l', m) := compose_stmts captures l' in
      (with_kind s k :: l', n + m)
  end.

Definition compose_terminator (captures : Captures) (t : option Terminator) : option Terminator * nat :=
  match t with
  | Some t =>
      match term_kind t with
      | Return args => let '(args, n) := compose_exps captures args in (Some (term_with_kind t (Return args)), n)
      | Goto _ => (Some t, 0)
      end
  | None => (None, 0)
  end.

Definition block_captures (b : BasicBlockData) : Captures := foldl capture_stmt ∅ (statements b).

Definition compose_block (b : BasicBlockData) : BasicBlockData * nat :=
  let captures := block_captures b in
  if decide (captures = ∅) then (b, 0)
  else
    let '(l, n) := compose_stmts captures (statements b) in
    let '(t, m) := compose_terminator captures (terminator b) in
    ({| statements := l; terminator := t |}, n + m).

Definition compose_loads_function (f : FunctionData) : FunctionData * nat :=
  let '(bs, n) := foldl (fun '(bs, n) b => let '(b, m) := compose_block b in (bs ++ [b], n + m))
                        ([], 0) (blocks f) in
  (with_blocks f bs, n).

Definition compose_loads (p : Program) : Program * nat :=
  let '(fs, n) := foldl (fun '(fs, n) f => let '(f, m) := compose_loads_function f in (fs ++ [f], n + m))
                        ([], 0) (functions p) in
  ({| functions := fs; globals := globals p |}, n).

(** The loop of [mentioned_paths] at segment [i], with the current offset run starting at
    [run_start]. *)
Fixpoint mentioned_loop (segs : path) (rest : path) (i run_start : nat) (out : list path) : list path * nat :=
  match rest with
  | [] => (out, run_start)
  | seg :: rest =>
      if is_offset seg then mentioned_loop segs rest (S i) run_start out
      else mentioned_loop segs rest (S i) (S i)
             (out ++ [take (i - run_start) (drop run_start segs); take (S i) segs])
  end.

Definition mentioned_paths (ap : AccessPath) : list path :=
  let segs := segments ap in
  let '(out, run_start) := mentioned_loop segs segs 0 0 [] in
  out ++ [drop run_start segs].

(** ** Denotation *)

(** An interpretation sends a variable to an abstract root and a path from it. *)
Definition interp : Type := VariableRef -> nat * path.

Definition denote (rho : interp) (ap : AccessPath) : nat * path :=
  ((rho (base ap)).1, concat (rho (base ap)).2 (segments ap)).

(** [rho] satisfies the copy [s], if it is one with a single access-path source. *)
Definition satisfies (rho : interp) (s : Statement) : Prop :=
  match kind s with
  | Assign dest [Exp_Path src] =>
      if is_pathless dest then rho (base dest) = denote rho src else True
  | _ => True
  end.

(** Everything a statement or terminator mentions is in normal form. *)
Definition stmt_nf (s : Statement) : Prop :=
  match kind s with
  | Assign dest sources => nf (segments dest) /\ Forall exp_nf sources
  | CallAssign style _ args => Forall exp_nf args /\
      match style with FuncPtrCall callee _ => nf (segments callee) | _ => True end
  | _ => True
  end.

Definition caps_ok (rho : interp) (captures : Captures) : Prop :=
  forall t cap, captures !! t = Some cap -> nf (segments cap) /\ rho t = denote rho cap.

Section denotation.
Context (rho : interp).
Hypothesis Hrho : forall v, nf (rho v).2.

Lemma denote_composed captures ap c :
  caps_ok rho captures -> nf (segments ap) -> composed captures ap = Some c ->
  denote rho c = denote rho ap /\ nf (segments c).
Proof.
  intros Hcaps Hnf. unfold composed. destruct (captures !! base ap) as [cap|] eqn:E; [|done].
  intros [= <-]. destruct (Hcaps _ _ E) as [Hn Hd]. unfold denote; simpl. split; [|auto with ctadl].
  rewrite Hd. unfold denote; simpl. f_equal. symmetry. apply concat_assoc; auto with ctadl.
Qed.

Lemma capture_stmt_ok captures s :
  caps_ok rho captures -> stmt_nf s -> satisfies rho s -> caps_ok rho (capture_stmt captures s).
Proof.
  intros Hcaps Hnf Hs. unfold capture_stmt, stmt_nf, satisfies in *.
  destruct (kind s) as [dest [|[src| | | | |] [|]]| | |]; try done.
  destruct (is_pathless dest); [|done]. destruct Hnf as [_ [Hsrc _]%Forall_cons].
  unfold exp_nf in Hsrc; simpl in Hsrc.
  assert (forall cap, nf (segments cap) -> denote rho cap = denote rho src ->
    caps_ok rho (<[base dest := cap]> captures)) as Hins.
  { intros cap Hn Hd t c. destruct (decide (base dest = t)) as [<-|].
    - rewrite lookup_insert_eq. intros [= <-]. split; [done|]. by rewrite Hd.
    - rewrite lookup_insert_ne by done. apply Hcaps. }
  destruct (is_pathless src) eqn:Ep.
  - destruct (captures !! base src) as [cap|] eqn:E; [|done]. destruct (Hcaps _ _ E) as [Hn Hd].
    apply Hins; [done|]. rewrite <- Hd. unfold is_pathless in Ep. apply bool_decide_eq_true in Ep.
    unfold denote. rewrite Ep. by destruct (rho (base src)).
  - destruct (composed captures src) as [c|] eqn:E; simpl; [|by apply Hins].
    destruct (denote_composed _ _ _ Hcaps Hsrc E). by apply Hins.
Qed.

Lemma block_captures_ok b :
  Forall stmt_nf (statements b) -> Forall (satisfies rho) (statements b) -> caps_ok rho (block_captures b).
Proof.
  unfold block_captures. assert (caps_ok rho ∅) as H0 by (intros t cap; by rewrite lookup_empty).
  revert H0. generalize (∅ : Captures) as c. induction (statements b) as [|s l IH]; intros c Hc Hn Hs; [done|].
  apply Forall_cons in Hn as [??], Hs as [??]. simpl. apply IH; auto using capture_stmt_ok.
Qed.

(** Two access paths, expressions, statements or terminators that mention the same locations
    and define the same variables. *)
Definition same_ap (a b : AccessPath) : Prop := denote rho a = denote rho b.

Definition same_exp (a b : Exp) : Prop :=
  match a, b with
  | Exp_Path x, Exp_Path y | Exp_Value x, Exp_Value y => same_ap x y
  | _, _ => a = b
  end.

Definition same_kind (a b : StatementKind) : Prop :=
  match a, b with
  | Assign d ss, Assign d' ss' => (if is_pathless d then d' = d else same_ap d d') /\ Forall2 same_exp ss ss'
  | CallAssign st rs es, CallAssign st' rs' es' =>
      rs' = rs /\ Forall2 same_exp es es' /\
      match st, st' with
      | FuncPtrCall c sg, FuncPtrCall c' sg' => same_ap c c' /\ sg = sg'
      | _, _ => st = st'
      end
  | _, _ => a = b
  end.

Definition same_terminator (a b : Terminator) : Prop :=
  term_source_info a = term_source_info b /\
  match term_kind a, term_kind b with
  | Return es, Return es' => Forall2 same_exp es es'
  | x, y => x = y
  end.

Context (captures : Captures).
Hypothesis Hcaps : caps_ok rho captures.

Lemma compose_store_same ap : nf (segments ap) -> same_ap ap (compose_store captures ap).1.
Proof.
  intros Hn. unfold compose_store. destruct (composed captures ap) as [c|] eqn:E; [|done].
  symmetry. by apply (denote_composed captures).
Qed.

Lemma compose_read_same ap : nf (segments ap) -> same_ap ap (compose_read captures ap).1.
Proof. intros. unfold compose_read. destruct (reads_memory ap); [by apply compose_store_same|done]. Qed.

Lemma compose_exps_same l : Forall exp_nf l -> Forall2 same_exp l (compose_exps captures l).1.
Proof.
  induction 1 as [|e l He Hl IH]; simpl; [done|].
  assert (same_exp e (compose_exp captures e).1) as Hs.
  { destruct e as [ap|ap| | | |]; simpl; try done;
      pose proof (compose_read_same ap He); by destruct (compose_read captures ap). }
  destruct (compose_exp captures e), (compose_exps captures l). by constructor.
Qed.

Lemma compose_kind_same s : stmt_nf s -> same_kind (kind s) (compose_kind captures (kind s)).1.
Proof.
  unfold stmt_nf. destruct (kind s) as [d ss|st rs es| |]; simpl; try done.
  - intros [Hd Hss]. pose proof (compose_exps_same ss Hss).
    destruct (compose_exps captures ss) as [ss' m]. simpl in *.
    pose proof (compose_store_same d Hd) as Hst. destruct (is_pathless d) eqn:Ep.
    + by rewrite ?Ep.
    + destruct (compose_store captures d) as [d' n]. simpl in *. by rewrite ?Ep.
  - intros [Hes Hst]. pose proof (compose_exps_same es Hes).
    destruct (compose_exps captures es) as [es' m]. simpl in *. destruct st; simpl; auto.
    pose proof (compose_read_same callee Hst). destruct (compose_read captures callee). simpl in *. auto.
Qed.

Lemma compose_stmts_same l : Forall stmt_nf l ->
  Forall2 (fun s s' => source_info s = source_info s' /\ same_kind (kind s) (kind s')) l (compose_stmts captures l).1.
Proof.
  induction 1 as [|s l Hs Hl IH]; simpl; [done|]. pose proof (compose_kind_same s Hs) as Hk.
  destruct (compose_kind captures (kind s)), (compose_stmts captures l). by constructor.
Qed.
End denotation.

Lemma push_plain_nonempty p s : is_offset s = false -> push_normalized p s <> [].
Proof.
  intros Hs E. assert (forall q : path, q ++ [s] <> []) as Hq by (by intros []).
  destruct s as [f|k| |]; simpl in *; try done; [by apply (Hq p)..|].
  assert (forall q : path, match split_last q with Some (_, Value) => q | _ => q ++ [Value] end <> []) as Hv.
  { intros q. destruct (split_last q) as [[i x]|] eqn:El; [|by destruct q].
    apply split_last_Some in El as ->. by destruct x, i. }
  by apply (Hv _ E).
Qed.

Lemma concat_plain_nonempty p q : q <> [] -> ends_plain q -> concat p q <> [].
Proof.
  destruct q as [|s q _] using rev_ind; [done|]. intros _. unfold ends_plain. rewrite last_snoc, concat_snoc.
  intros Hs. apply push_plain_nonempty. by destruct s.
Qed.

(** A store's destination never ends in an offset ([assign] sees to that). *)
Definition dest_plain (s : Statement) : Prop :=
  match kind s with Assign dest _ => ends_plain (segments dest) | _ => True end.

Lemma compose_kind_dst captures s : dest_plain s ->
  iter_dst_var (compose_kind captures (kind s)).1 = iter_dst_var (kind s) /\
  is_store (compose_kind captures (kind s)).1 = is_store (kind s).
Proof.
  unfold dest_plain. destruct (kind s) as [d ss|st rs es| |]; simpl; try done.
  - intros Hd. destruct (compose_exps captures ss) as [ss' m]. destruct (is_pathless d) eqn:Ep; simpl; [by rewrite Ep|].
    unfold compose_store, composed. destruct (captures !! base d) as [cap|]; simpl; [|by rewrite Ep].
    unfold is_pathless in *. apply bool_decide_eq_false in Ep. simpl.
    rewrite bool_decide_eq_false_2; [done|]. by apply concat_plain_nonempty.
  - intros _. destruct (compose_exps captures es). by destruct st; simpl; try destruct (compose_read captures callee).
Qed.

Definition term_nf (t : option Terminator) : Prop :=
  match t with Some t => match term_kind t with Return args => Forall exp_nf args | _ => True end | None => True end.

Lemma same_ap_refl rho ap : same_ap rho ap ap.
Proof. done. Qed.

Lemma same_exps_refl rho l : Forall2 (same_exp rho) l l.
Proof. induction l as [|[] l IH]; constructor; done. Qed.

Lemma same_kind_refl rho k : same_kind rho k k.
Proof.
  destruct k as [d ss|st rs es| |]; simpl; try done; [split; [|apply same_exps_refl]; by destruct (is_pathless d)|].
  split_and!; [done|apply same_exps_refl|by destruct st].
Qed.

Lemma compose_stmts_dst captures l : Forall dest_plain l ->
  map (fun s => iter_dst_var (kind s)) (compose_stmts captures l).1 = map (fun s => iter_dst_var (kind s)) l /\
  map (fun s => is_store (kind s)) (compose_stmts captures l).1 = map (fun s => is_store (kind s)) l.
Proof.
  induction 1 as [|s l Hs Hl [IH1 IH2]]; simpl; [done|]. destruct (compose_kind_dst captures s Hs) as [Hk1 Hk2].
  destruct (compose_kind captures (kind s)), (compose_stmts captures l). simpl in *. by rewrite Hk1, Hk2, IH1, IH2.
Qed.


(** [t1 = x.a; t2 = t1.b; t2.c = y] with [x] the root. *)
Definition chain_block : BasicBlockData := {|
  statements :=
    [ new_kind (Assign (ap_of_var (new_local_idx 1)) [Exp_Path {| base := new_local_idx 0; segments := [Field "a"] |}]);
      new_kind (Assign (ap_of_var (new_local_idx 2)) [Exp_Path {| base := new_local_idx 1; segments := [Field "b"] |}]);
      new_kind (Assign {| base := new_local_idx 2; segments := [Field "c"] |} [Exp_variable (new_local_idx 3)]) ];
  terminator := None |}.

Definition chain_interp : interp := fun v =>
  match variable v with
  | Variable_Local 1 => (0, [Field "a"])
  | Variable_Local 2 => (0, [Field "a"; Field "b"])
  | Variable_Local i => (i, [])
  | _ => (7, [])
  end.


(** ** [mentioned_paths] against a reference definition *)

(** The maximal run of offsets a path ends in. *)
Definition last_run (p : path) : path := foldl (fun r s => if is_offset s then r ++ [s] else []) [] p.

Lemma last_run_snoc p s : last_run (p ++ [s]) = if is_offset s then last_run p ++ [s] else [].
Proof. unfold last_run. by rewrite foldl_app. Qed.

Lemma mentioned_loop_spec segs : forall rest pre out run_start,
  segs = pre ++ rest -> run_start <= length pre -> drop run_start pre = last_run pre ->
  mentioned_loop segs rest (length pre) run_start out =
    (out ++ mjoin (imap (fun j s => if is_offset s then []
                       else [last_run (take (length pre + j) segs); take (S (length pre + j)) segs]) rest),
     length segs - length (last_run segs)).
Proof.
  induction rest as [|s rest IH]; intros pre out run_start E Hr Hrun; simpl.
  - rewrite app_nil_r in *. subst segs. rewrite <- Hrun, length_drop. f_equal. lia.
  - assert (segs = (pre ++ [s]) ++ rest) as E' by (by rewrite <- app_assoc).
    assert (S (length pre) = length (pre ++ [s])) as El by (rewrite length_app; simpl; lia).
    assert (forall j, length pre + S j = length (pre ++ [s]) + j) as Ej by (intros; lia).
    assert (imap ((fun j s0 => if is_offset s0 then []
        else [last_run (take (length pre + j) segs); take (S (length pre + j)) segs]) ∘ S) rest =
      imap (fun j s0 => if is_offset s0 then []
        else [last_run (take (length (pre ++ [s]) + j) segs); take (S (length (pre ++ [s]) + j)) segs]) rest) as Ei.
    { apply imap_ext. intros i x _. simpl. by rewrite Ej. }
    rewrite Ei, El. destruct (is_offset s) eqn:Es; simpl.
    + apply IH; [done|lia|]. rewrite drop_app_le by lia. by rewrite Hrun, last_run_snoc, Es.
    + rewrite (IH (pre ++ [s])); [|done|lia|by rewrite drop_all, last_run_snoc, Es].
      rewrite Nat.add_0_r, <- app_assoc. simpl. do 3 f_equal.
      * rewrite E, take_app_length, <- Hrun, drop_app_le by done.
        rewrite take_app_length'; [done|]. rewrite length_drop. lia.
      * by rewrite El.
Qed.

Lemma last_run_suffix p : exists q, p = q ++ last_run p.
Proof.
  induction p as [|s p [q IH]] using rev_ind; [by exists []|]. rewrite last_run_snoc.
  destruct (is_offset s); [|by exists (p ++ [s]); rewrite app_nil_r].
  exists q. rewrite IH at 1. by rewrite app_assoc.
Qed.

(** The one-pass loop of [mentioned_paths] computes its documented meaning: for each memory
    step of the path, the maximal run of offsets before it and the prefix that ends at it, and
    last the maximal run of offsets the path ends in. *)
Theorem mentioned_paths_reference (ap : AccessPath) :
  mentioned_paths ap =
    mjoin (imap (fun i s => if is_offset s then []
             else [last_run (take i (segments ap)); take (S i) (segments ap)]) (segments ap)) ++
    [last_run (segments ap)].
Proof.
  unfold mentioned_paths. pose proof (mentioned_loop_spec (segments ap) (segments ap) [] [] 0) as E.
  simpl in E. rewrite E by done. f_equal. destruct (last_run_suffix (segments ap)) as [q Hq]. f_equal.
  assert (length (segments ap) - length (last_run (segments ap)) = length q) as ->
    by (rewrite Hq at 1; rewrite length_app; lia).
  rewrite Hq at 1. by rewrite drop_app_length.
Qed.
