(* ===== verification/CopyProp.v ===== *)
(** * CopyProp: SSA copy propagation ([ctadl-ir/src/ssa/copy_prop/mod.rs])

    Copies and trivial phis become aliases; every read is rewritten to its representative and
    the aliased definitions are deleted.  [resolve] keeps the step cap of the source.  The
    sweeps over the phis stop when one changes nothing; each earlier sweep settles a phi, so
    the fuel is two more than the number of phis.

    The theorem is about functions in SSA form: versioned variables have one definition, and the
    copies are ordered (a copy's source is defined before it).  It shows that value flow between
    the variables that remain is preserved exactly. *)

From S2P Require Import Prelude Path IR.

Notation Aliases := (gmap VariableRef VariableRef).

(** [Aliases::resolve]: [budget] is how many more links may be followed. *)
Fixpoint resolve_loop (parent : Aliases) (budget : nat) (v : VariableRef) : VariableRef :=
  match parent !! v with
  | None => v
  | Some next =>
      match budget with
      | 0 => v
      | S budget => resolve_loop parent budget next
      end
  end.

Definition resolve (parent : Aliases) (v : VariableRef) : VariableRef :=
  resolve_loop parent (S (size parent)) v.

Definition has_version (v : VariableRef) : bool := match version v with Some _ => true | None => false end.

Notation phi_list := (list (VariableRef * list VariableRef)).

(** The copy [dest = src] a statement is, when both are versioned and distinct. *)
Definition copy_of (k : StatementKind) : option (VariableRef * VariableRef) :=
  match k with
  | Assign dest [src] =>
      if is_pathless dest && has_version (base dest) then
        match variable_ref src with
        | Some src => if has_version src && negb (bool_decide (src = base dest))
                      then Some (base dest, src) else None
        | None => None
        end
      else None
  | _ => None
  end.

Definition gather_stmt (st : Aliases * phi_list) (s : Statement) : Aliases * phi_list :=
  let '(parent, phis) := st in
  match copy_of (kind s) with
  | Some (dest, src) => (<[dest := src]> parent, phis)
  | None =>
      match kind s with
      | Phi dest operands => if has_version dest then (parent, phis ++ [(dest, operands.*2)]) else st
      | _ => st
      end
  end.

Definition gather (blocks : list BasicBlockData) : Aliases * phi_list :=
  foldl (fun st b => foldl gather_stmt st (statements b)) (∅, []) blocks.

(** The operand scan: [None] when two distinct values were found, [Some unique] otherwise. *)
Fixpoint scan_operands (parent : Aliases) (dest : VariableRef) (ops : list VariableRef)
    (unique : option VariableRef) : option (option VariableRef) :=
  match ops with
  | [] => Some unique
  | op :: ops =>
      let r := resolve parent op in
      if decide (r = dest) then scan_operands parent dest ops unique
      else match unique with
           | None => scan_operands parent dest ops (Some r)
           | Some u => if decide (u = r) then scan_operands parent dest ops unique else None
           end
  end.

Definition settle (st : Aliases * bool) (phi : VariableRef * list VariableRef) : Aliases * bool :=
  let '(parent, changed) := st in
  let '(dest, ops) := phi in
  match parent !! dest with
  | Some _ => st
  | None =>
      match scan_operands parent dest ops None with
      | Some (Some u) => (<[dest := u]> parent, true)
      | _ => st
      end
  end.

Fixpoint settle_all (fuel : nat) (parent : Aliases) (phis : phi_list) : outcome Aliases :=
  match fuel with
  | 0 => OutOfFuel
  | S fuel =>
      let '(parent, changed) := foldl settle (parent, false) phis in
      if changed then settle_all fuel parent phis else Ret parent
  end.

Definition rewrite_block (parent : Aliases) (b : BasicBlockData) : BasicBlockData :=
  {| statements := map (fun s => with_kind s (map_src_var (resolve parent) (kind s))) (statements b);
     terminator := term_map_src_var (resolve parent) <$> terminator b |}.

Definition is_aliased_def (parent : Aliases) (s : Statement) : bool :=
  match kind s with
  | Assign dest _ => is_pathless dest && bool_decide (is_Some (parent !! base dest))
  | Phi dest _ => bool_decide (is_Some (parent !! dest))
  | _ => false
  end.

Definition delete_block (parent : Aliases) (b : BasicBlockData) : BasicBlockData * nat :=
  if existsb (is_aliased_def parent) (statements b) then
    (with_statements b (filter (fun s => is_aliased_def parent s = false) (statements b)),
     length (filter (fun s => is_aliased_def parent s = true) (statements b)))
  else (b, 0).

Definition propagate_copies_function (f : FunctionData) : outcome (FunctionData * nat) :=
  if decide (blocks f = []) then Ret (f, 0)
  else
    let '(parent, phis) := gather (blocks f) in
    parent ← settle_all (S (S (length phis))) parent phis;
    if decide (parent = ∅) then Ret (f, 0)
    else
      let bs := map (rewrite_block parent) (blocks f) in
      let bs := map (delete_block parent) bs in
      Ret (with_blocks f (map fst bs), sum_list_with snd bs).

Definition propagate_copies (p : Program) : outcome (Program * nat) :=
  '(fs, removed) ← foldM (fun '(fs, removed) f =>
      '(f, n) ← propagate_copies_function f; Ret (fs ++ [f], removed + n)) ([], 0) (functions p);
  Ret ({| functions := fs; globals := globals p |}, removed).

(** ** Representatives *)

Definition link (P : Aliases) (a b : VariableRef) : Prop := P !! a = Some b.

Definition repr (P : Aliases) (v r : VariableRef) : Prop := rtc (link P) v r /\ P !! r = None.

(** Every chain of links ends. *)
Definition terminating (P : Aliases) : Prop := forall v, exists r, repr P v r.

Lemma nsteps_link_det P n m v r r' :
  nsteps (link P) n v r -> nsteps (link P) m v r' -> P !! r = None -> P !! r' = None -> n = m /\ r = r'.
Proof.
  intros Hn. revert m r'. induction Hn as [v|n v w r Hw Hn IH]; intros m r' Hm Hr Hr'.
  - inversion Hm as [|? ? y ? Hy]; subst; [done|]. unfold link in Hy. congruence.
  - inversion Hm as [|m' ? y ? Hy Hm']; subst; unfold link in *; [congruence|].
    assert (y = w) as -> by congruence. destruct (IH _ _ Hm' Hr Hr') as [-> ->]. done.
Qed.

Lemma repr_det P v r r' : repr P v r -> repr P v r' -> r = r'.
Proof.
  intros [[n Hn]%rtc_nsteps_1 Hr] [[m Hm]%rtc_nsteps_1 Hr']. by destruct (nsteps_link_det P n m v r r').
Qed.

Lemma repr_link P v w r : link P v w -> repr P w r -> repr P v r.
Proof. intros Hl [Hr Hn]. split; [|done]. by eapply rtc_l. Qed.

Lemma resolve_loop_nsteps P n v r : nsteps (link P) n v r -> P !! r = None ->
  forall budget, n <= budget -> resolve_loop P budget v = r.
Proof.
  induction 1 as [v|n v w r Hw Hn IH]; intros Hr budget Hb.
  - destruct budget; simpl; by rewrite Hr.
  - destruct budget as [|budget]; [lia|]. simpl. unfold link in Hw. rewrite Hw. apply IH; [done|lia].
Qed.

(** A chain visits each key once, so the step cap of [resolve] is never reached. *)
Lemma chain_bound P n v r : nsteps (link P) n v r -> P !! r = None -> n <= size P.
Proof.
  intros Hn Hr.
  assert (exists l : list VariableRef, length l = n /\ NoDup l /\ forall x, x ∈ l ->
    is_Some (P !! x) /\ exists m, m <= n /\ nsteps (link P) m x r /\ 0 < m) as (l & Hl & Hnd & Hin).
  { induction Hn as [v|n v w r Hw Hn IH]; [exists []; split_and!; [done|apply NoDup_nil_2|set_solver]|].
    destruct (IH Hr) as (l & Hl & Hnd & Hin). exists (v :: l).
    assert (nsteps (link P) (S n) v r) as Hv by (by econstructor).
    split_and!; [simpl; lia| |].
    - apply NoDup_cons. split; [|done]. intros (_ & m & Hm & Hm' & _)%Hin.
      destruct (nsteps_link_det P (S n) m v r r Hv Hm' Hr Hr). lia.
    - intros x [->|Hx]%elem_of_cons; [split; [by exists w|]; exists (S n); split_and!; [done..|lia]|].
      destruct (Hin x Hx) as (? & m & ? & ? & ?). split; [done|]. exists m. split_and!; [lia|done..]. }
  rewrite <- Hl, <- size_dom. rewrite <- (size_list_to_set (C:=gset VariableRef) l) by done.
  apply subseteq_size. intros x Hx%elem_of_list_to_set. apply elem_of_dom. by apply Hin.
Qed.

Lemma resolve_repr P v : terminating P -> repr P v (resolve P v).
Proof.
  intros Ht. destruct (Ht v) as (r & Hr & Hn). pose proof (rtc_nsteps_1 _ _ Hr) as [n Hs].
  unfold resolve. pose proof (chain_bound P n v r Hs Hn).
  rewrite (resolve_loop_nsteps P n v r Hs Hn) by lia. by split.
Qed.

Lemma resolve_unique P v r : terminating P -> repr P v r -> resolve P v = r.
Proof. intros Ht Hr. eapply repr_det; [by apply resolve_repr|done]. Qed.

Lemma resolve_root P v : P !! v = None -> resolve P v = v.
Proof. intros Hv. unfold resolve. simpl. by rewrite Hv. Qed.

Lemma resolve_link P v w : terminating P -> P !! v = Some w -> resolve P v = resolve P w.
Proof. intros Ht Hv. apply resolve_unique; [done|]. eapply repr_link; [done|]. by apply resolve_repr. Qed.

Lemma resolve_idem P v : terminating P -> resolve P (resolve P v) = resolve P v.
Proof. intros Ht. apply resolve_root. by apply resolve_repr. Qed.

(** Aliasing one root to another. *)
Lemma repr_insert P d u v r : P !! d = None -> P !! u = None -> d <> u -> repr P v r ->
  repr (<[d := u]> P) v (if decide (r = d) then u else r).
Proof.
  intros Hd Hu Hne [Hr Hn].
  assert (rtc (link (<[d := u]> P)) v r) as Hr'.
  { induction Hr as [|x y z Hxy Hyz IH]; [apply rtc_refl|]. eapply rtc_l; [|by apply IH].
    unfold link in *. rewrite lookup_insert_ne; [done|]. congruence. }
  case_decide as E; [subst r|].
  - split; [|by rewrite lookup_insert_ne]. eapply rtc_r; [exact Hr'|]. apply lookup_insert_eq.
  - split; [done|]. by rewrite lookup_insert_ne.
Qed.

Lemma terminating_insert P d u : terminating P -> P !! d = None -> P !! u = None -> d <> u ->
  terminating (<[d := u]> P).
Proof. intros Ht Hd Hu Hne v. destruct (Ht v) as [r Hr]. eexists. by apply repr_insert. Qed.

Lemma resolve_insert P d u v : terminating P -> P !! d = None -> P !! u = None -> d <> u ->
  resolve (<[d := u]> P) v = if decide (resolve P v = d) then u else resolve P v.
Proof.
  intros Ht Hd Hu Hne. apply resolve_unique; [by apply terminating_insert|].
  apply repr_insert; auto. by apply resolve_repr.
Qed.

(** ** The alias relation of a function in SSA form *)

(** Whole-variable value flow: copies, the sources of multi-source assignments, phi operands. *)
Definition flows (l : list Statement) (a b : VariableRef) : Prop :=
  exists s, s ∈ l /\
    match kind s with
    | Assign dest sources => is_pathless dest = true /\ b = base dest /\
        exists e, e ∈ sources /\ variable_ref e = Some a
    | Phi dest operands => b = dest /\ a ∈ operands.*2
    | _ => False
    end.

Lemma flows_dst (s : Statement) a b :
  match kind s with
  | Assign dest sources => is_pathless dest = true /\ b = base dest /\
      exists e, e ∈ sources /\ variable_ref e = Some a
  | Phi dest operands => b = dest /\ a ∈ operands.*2
  | _ => False
  end -> b ∈ iter_dst_var (kind s).
Proof.
  destruct (kind s); simpl; try done.
  - intros (-> & -> & _). apply list_elem_of_here.
  - intros [-> _]. apply list_elem_of_here.
Qed.

(** A versioned variable has one defining statement. *)
Definition single_defs (l : list Statement) : Prop :=
  forall s1 s2 v, s1 ∈ l -> s2 ∈ l -> v ∈ iter_dst_var (kind s1) -> v ∈ iter_dst_var (kind s2) ->
    has_version v = true -> s1 = s2.

(** Copies are ordered: the source ranks below the destination. *)
Definition copies_ranked (rank : VariableRef -> nat) (l : list Statement) : Prop :=
  forall s d src, s ∈ l -> copy_of (kind s) = Some (d, src) -> rank src < rank d.

Lemma copy_of_Some k d src : copy_of k = Some (d, src) ->
  exists dest e, k = Assign dest [e] /\ is_pathless dest = true /\ base dest = d /\
    variable_ref e = Some src /\ has_version d = true /\ has_version src = true /\ src <> d.
Proof.
  unfold copy_of. destruct k as [dest [|e [|]]| | |]; try done.
  destruct (is_pathless dest) eqn:Ep; [|done]. destruct (has_version (base dest)) eqn:Ev; [|done]. simpl.
  destruct (variable_ref e) as [w|] eqn:Er; [|done]. destruct (has_version w) eqn:Ew; [|done]. simpl.
  case_bool_decide; [done|]. simpl. intros [= <- <-]. exists dest, e. auto 10.
Qed.

Lemma scan_operands_spec P dest ops : forall unique,
  match scan_operands P dest ops unique with
  | Some unique' =>
      (forall op, op ∈ ops -> resolve P op = dest \/ unique' = Some (resolve P op)) /\
      (forall u, unique = Some u -> unique' = Some u) /\
      (forall u, unique' = Some u -> unique = Some u \/ exists op, op ∈ ops /\ u = resolve P op /\ u <> dest)
  | None => (exists op u, op ∈ ops /\ unique = Some u /\ resolve P op <> dest /\ u <> resolve P op) \/
      exists op1 op2, op1 ∈ ops /\ op2 ∈ ops /\ resolve P op1 <> dest /\ resolve P op2 <> dest /\
        resolve P op1 <> resolve P op2
  end.
Proof.
  induction ops as [|op ops IH]; intros unique; simpl; [split_and!; [set_solver|done|auto]|].
  assert (forall x, x ∈ ops -> x ∈ op :: ops) as Hsub by (intros; by apply list_elem_of_further).
  pose proof (list_elem_of_here op ops) as Hhere. case_decide as Hd.
  - specialize (IH unique). destruct (scan_operands P dest ops unique).
    + destruct IH as (H1 & H2 & H3). split_and!; [|done|].
      * intros op' [->|]%elem_of_cons; auto.
      * intros u Hu. destruct (H3 u Hu) as [|(ox & ? & ? & ?)]; eauto 10.
    + destruct IH as [(ox & u & ? & ?)|(o1 & o2 & ? & ? & ?)]; [left|right]; eauto 10.
  - assert (forall u', scan_operands P dest ops (Some (resolve P op)) = Some u' ->
      (forall op', op' ∈ op :: ops -> resolve P op' = dest \/ u' = Some (resolve P op')) /\
      u' = Some (resolve P op)) as Hsome.
    { intros u' E. specialize (IH (Some (resolve P op))). rewrite E in IH. destruct IH as (H1 & H2 & _).
      split; [|auto]. intros op' [->|]%elem_of_cons; auto. }
    specialize (IH (Some (resolve P op))). destruct unique as [u|].
    + case_decide as Hu; [subst u|left; exists op, u; auto].
      destruct (scan_operands P dest ops _) as [u'|].
      * destruct (Hsome u' eq_refl) as [? ->]. split_and!; [done|done|auto].
      * destruct IH as [(ox & u & ? & [= <-] & ? & ?)|(o1 & o2 & ? & ? & ?)]; [left|right]; eauto 10.
    + destruct (scan_operands P dest ops _) as [u'|].
      * destruct (Hsome u' eq_refl) as [? ->]. split_and!; [done|done|]. intros u [= <-]. eauto 10.
      * right. destruct IH as [(ox & u & ? & [= <-] & ? & ?)|(o1 & o2 & ? & ? & ?)]; [|eauto 10].
        exists op, ox. auto 10.
Qed.

Section aliases.
Context (l : list Statement).
Hypothesis Hssa : single_defs l.

Definition copy_in (d src : VariableRef) : Prop := exists s, s ∈ l /\ copy_of (kind s) = Some (d, src).
Definition phi_in (d : VariableRef) (ops : list VariableRef) : Prop :=
  exists s o, s ∈ l /\ kind s = Phi d o /\ ops = o.*2 /\ has_version d = true.

Lemma copy_flows d src : copy_in d src -> flows l src d.
Proof.
  intros (s & Hs & (dest & e & Hk & Hp & <- & He & _)%copy_of_Some). exists s. split; [done|].
  rewrite Hk. split_and!; [done..|]. exists e. set_solver.
Qed.

Lemma phi_flows d ops op : phi_in d ops -> op ∈ ops -> flows l op d.
Proof. intros (s & o & Hs & Hk & -> & _) Hop. exists s. split; [done|]. by rewrite Hk. Qed.

(** The definition of an aliasable variable determines its incoming flow. *)
Lemma copy_in_unique d src a : copy_in d src -> flows l a d -> a = src.
Proof.
  intros (s & Hs & (dest & e & Hk & Hp & <- & He & Hv & _)%copy_of_Some) (s' & Hs' & Hf).
  assert (s' = s) as ->.
  { eapply (Hssa s' s (base dest)); auto.
    - by eapply flows_dst.
    - rewrite Hk. simpl. rewrite Hp. set_solver. }
  rewrite Hk in Hf. destruct Hf as (_ & _ & e' & ->%list_elem_of_singleton & He'). congruence.
Qed.

Lemma phi_in_unique d ops a : phi_in d ops -> flows l a d -> a ∈ ops.
Proof.
  intros (s & o & Hs & Hk & -> & Hv) (s' & Hs' & Hf).
  assert (s' = s) as ->.
  { eapply (Hssa s' s d); auto.
    - by eapply flows_dst.
    - rewrite Hk. simpl. set_solver. }
  rewrite Hk in Hf. by destruct Hf.
Qed.

Lemma copy_phi_disjoint d src ops : copy_in d src -> phi_in d ops -> False.
Proof.
  intros (s & Hs & (dest & e & Hk & Hp & Hb & _ & Hv & _)%copy_of_Some) (s' & o & Hs' & Hk' & _).
  assert (s = s') as ->; [|congruence].
  eapply (Hssa s s' d); auto; [rewrite Hk; simpl; rewrite Hp; set_solver|rewrite Hk'; set_solver].
Qed.

(** What an alias may stand for: a copied variable, or an operand of a phi. *)
Definition alias_source (u : VariableRef) : Prop := (exists d, copy_in d u) \/ exists d ops, phi_in d ops /\ u ∈ ops.

(** The state of the alias relation while phis are settled. *)
Record alias_inv (P : Aliases) : Prop := {
  a_term : terminating P;
  a_copy : forall d src, copy_in d src -> P !! d = Some src;
  a_key : forall d u, P !! d = Some u -> copy_in d u \/ exists ops, phi_in d ops;
  a_phi : forall d ops, phi_in d ops -> is_Some (P !! d) -> forall op, op ∈ ops -> resolve P op = resolve P d;
  a_flow : forall v, rtc (flows l) (resolve P v) v;
  a_val : forall d u, P !! d = Some u -> alias_source u;
}.

Lemma resolve_source P v : terminating P -> (forall d u, P !! d = Some u -> alias_source u) -> resolve P v = v \/ alias_source (resolve P v).
Proof.
  intros Ht Hv. destruct (resolve_repr P v Ht) as [Hr _]. apply rtc_inv_r in Hr as [E|(x & _ & Hx)]; [by left|right; by eapply Hv].
Qed.

Lemma settle_inv P b phi P' b' :
  alias_inv P -> phi_in phi.1 phi.2 -> settle (P, b) phi = (P', b') ->
  alias_inv P' /\ (forall d, is_Some (P !! d) -> is_Some (P' !! d)) /\
  (b = false -> b' = false -> P' = P /\ (P !! phi.1 = None -> forall u, scan_operands P phi.1 phi.2 None <> Some (Some u))) /\
  (b' = true -> b = true \/ (P !! phi.1 = None /\ is_Some (P' !! phi.1))) /\ (b = true -> b' = true).
Proof.
  destruct phi as [d ops]. simpl. intros Hinv Hphi. destruct (P !! d) as [w|] eqn:Hd.
  { intros [= <- <-]. split_and!; auto; done. }
  pose proof (scan_operands_spec P d ops None) as Hs.
  destruct (scan_operands P d ops None) as [[u|]|] eqn:Es;
    [|intros [= <- <-]; split_and!; auto; done..].
  intros [= <- <-]. destruct Hs as (Hall & _ & Hex).
  destruct (Hex u eq_refl) as [|(op & Hop & Hu & Hne)]; [done|]. pose proof Hinv as [Ht Hc Hk Hp Hf Hv].
  assert (P !! u = None) as Hun by (rewrite Hu; by apply resolve_repr).
  assert (forall v, resolve (<[d:=u]> P) v = if decide (resolve P v = d) then u else resolve P v) as Hres
    by (intros; by apply resolve_insert).
  split_and!; [|intros d' [x Hx]; destruct (decide (d = d')) as [->|];
     [rewrite lookup_insert_eq; eauto|rewrite lookup_insert_ne by done; eauto]|done| |done].
  2: { intros _. right. split; [done|]. rewrite lookup_insert_eq. eauto. }
  split.
  - by apply terminating_insert.
  - intros d' src Hcp. rewrite lookup_insert_ne; [by apply Hc|]. intros <-.
    rewrite (Hc _ _ Hcp) in Hd. done.
  - intros d' u'. destruct (decide (d = d')) as [<-|]; [eauto|]. rewrite lookup_insert_ne by done. apply Hk.
  - intros d' ops' Hphi' Hs' op' Hop'. rewrite !Hres. destruct (decide (d = d')) as [<-|Hdd].
    + rewrite (resolve_root P d Hd), (decide_True (P:=d = d)) by done.
      assert (op' ∈ ops) as Hop2 by (eapply phi_in_unique; [exact Hphi|by eapply phi_flows]).
      destruct (Hall op' Hop2) as [E|E]; [by rewrite decide_True|].
      case_decide; [done|]. congruence.
    + rewrite lookup_insert_ne in Hs' by done. by rewrite (Hp d' ops' Hphi' Hs' op' Hop').
  - intros v. rewrite Hres. case_decide as E; [|apply Hf].
    transitivity op; [rewrite Hu; apply Hf|]. eapply rtc_l; [by eapply phi_flows|]. rewrite <- E. apply Hf.
  - intros d' u'. rewrite lookup_insert_Some. intros [[_ <-]|[_ Hd']]; [|by eapply Hv].
    rewrite Hu. destruct (resolve_source P op Ht Hv) as [->|?]; [right; eauto|done].
Qed.

Lemma settle_sweep phis : (forall d ops, (d, ops) ∈ phis -> phi_in d ops) ->
  forall P b P' b', alias_inv P -> foldl settle (P, b) phis = (P', b') ->
  alias_inv P' /\ (forall d, is_Some (P !! d) -> is_Some (P' !! d)) /\ (b = true -> b' = true) /\
  (b = false -> b' = false -> P' = P /\
     forall d ops, (d, ops) ∈ phis -> P !! d = None -> forall u, scan_operands P d ops None <> Some (Some u)) /\
  (b = false -> b' = true -> exists d ops, (d, ops) ∈ phis /\ P !! d = None /\ is_Some (P' !! d)).
Proof.
  induction phis as [|phi phis IH]; intros Hin P b P' b' Hinv; cbn [foldl].
  { intros [= <- <-]. split_and!; auto; [|congruence]. intros _ _. split; [done|set_solver]. }
  destruct (settle (P, b) phi) as [P1 b1] eqn:E1. intros E.
  assert (phi_in phi.1 phi.2) as Hphi by (apply Hin; destruct phi; set_solver).
  destruct (settle_inv P b phi P1 b1 Hinv Hphi E1) as (Hinv1 & Hm1 & Hf1 & Ht1 & Hb1).
  destruct (IH ltac:(set_solver) P1 b1 P' b' Hinv1 E) as (Hinv' & Hm' & Hb' & Hf' & Ht').
  split_and!; [done|auto|auto| |].
  - intros -> ->. destruct b1; [by specialize (Hb' eq_refl)|].
    destruct (Hf' eq_refl eq_refl) as [-> Hrest]. destruct (Hf1 eq_refl eq_refl) as [-> Hfirst].
    split; [done|]. intros d ops [<-|Hin']%elem_of_cons; [exact Hfirst|by apply Hrest].
  - intros -> ->. destruct b1.
    + destruct (Ht1 eq_refl) as [|[Hn Hs]]; [done|]. exists phi.1, phi.2. split_and!; [destruct phi; set_solver|done|auto].
    + destruct (Ht' eq_refl eq_refl) as (d & ops & Hd & Hn & Hs). destruct (Hf1 eq_refl eq_refl) as [-> _].
      exists d, ops. set_solver.
Qed.

(** How many phis are still open. *)
Definition open_phis (P : Aliases) (phis : phi_list) : nat := length (filter (fun p => P !! p.1 = None) phis).

Lemma open_phis_lt P P' phis d ops : (forall d, is_Some (P !! d) -> is_Some (P' !! d)) ->
  (d, ops) ∈ phis -> P !! d = None -> is_Some (P' !! d) -> open_phis P' phis < open_phis P phis.
Proof.
  intros Hm. assert (forall q : phi_list, open_phis P' q <= open_phis P q) as Hle.
  { unfold open_phis. induction q as [|[d' o'] q IH]; [done|]. rewrite !filter_cons. simpl.
    destruct (decide (P' !! d' = None)) as [E|E]; [|case_decide; simpl; lia].
    rewrite decide_True; [simpl; lia|]. destruct (P !! d') eqn:E'; [|done].
    destruct (Hm d') as [? ?]; [eauto|congruence]. }
  intros Hin Hn Hs. unfold open_phis in *. induction phis as [|[d' o'] q IH]; [by apply elem_of_nil in Hin|].
  rewrite !filter_cons. simpl. apply elem_of_cons in Hin as [[= -> ->]|Hin].
  - rewrite decide_False by (destruct Hs as [? ->]; done). rewrite decide_True by done. simpl. specialize (Hle q). lia.
  - specialize (IH Hin). destruct (decide (P' !! d' = None)) as [E|E]; [|case_decide; simpl; lia].
    rewrite decide_True; [simpl; lia|]. destruct (P !! d') eqn:E'; [|done].
    destruct (Hm d') as [? ?]; [eauto|congruence].
Qed.

Lemma settle_all_correct phis fuel : (forall d ops, (d, ops) ∈ phis -> phi_in d ops) ->
  forall P, alias_inv P -> open_phis P phis < fuel ->
  exists P', settle_all fuel P phis = Ret P' /\ alias_inv P' /\
    forall d ops, (d, ops) ∈ phis -> P' !! d = None -> forall u, scan_operands P' d ops None <> Some (Some u).
Proof.
  intros Hin. induction fuel as [|fuel IH]; intros P Hinv Hf; [lia|]. simpl.
  destruct (foldl settle (P, false) phis) as [P1 b1] eqn:E.
  destruct (settle_sweep phis Hin P false P1 b1 Hinv E) as (Hinv1 & Hm & _ & Hfix & Hch).
  destruct b1.
  - destruct (Hch eq_refl eq_refl) as (d & ops & Hd & Hn & Hs). apply IH; [done|].
    pose proof (open_phis_lt P P1 phis d ops Hm Hd Hn Hs). lia.
  - destruct (Hfix eq_refl eq_refl) as [-> Hnt]. exists P. auto.
Qed.
End aliases.

Lemma gather_stmts blocks : gather blocks = foldl gather_stmt (∅, []) (stmts_of blocks).
Proof.
  unfold gather, stmts_of. generalize (∅ : Aliases, [] : phi_list) as st.
  induction blocks as [|b blocks IH]; intros st; csimpl; [done|]. by rewrite foldl_app, IH.
Qed.

Lemma gather_spec l :
  let '(P, phis) := foldl gather_stmt (∅, []) l in
  (forall d src, P !! d = Some src -> copy_in l d src) /\
  (forall d src, copy_in l d src -> is_Some (P !! d)) /\
  (forall d ops, (d, ops) ∈ phis <-> phi_in l d ops).
Proof.
  induction l as [|s l IH] using rev_ind; simpl.
  { split_and!; [by intros ??; rewrite lookup_empty|intros d src (s & ?%elem_of_nil & _); done|].
    intros d ops. split; [by intros ?%elem_of_nil|intros (s & o & ?%elem_of_nil & _); done]. }
  rewrite foldl_snoc. destruct (foldl gather_stmt (∅, []) l) as [P phis]. destruct IH as (H1 & H2 & H3).
  assert (forall d src, copy_in (l ++ [s]) d src <-> copy_in l d src \/ copy_of (kind s) = Some (d, src)) as Hc.
  { intros d src. unfold copy_in. split.
    - intros (x & [Hx| ->%list_elem_of_singleton]%elem_of_app & ?); eauto.
    - intros [(x & ? & ?)|?]; [exists x|exists s]; rewrite elem_of_app, list_elem_of_singleton; auto. }
  assert (forall d ops, phi_in (l ++ [s]) d ops <-> phi_in l d ops \/
    exists o, kind s = Phi d o /\ ops = o.*2 /\ has_version d = true) as Hp.
  { intros d ops. unfold phi_in. split.
    - intros (x & o & [Hx| ->%list_elem_of_singleton]%elem_of_app & ?); eauto 10.
    - intros [(x & o & ? & ?)|(o & ?)]; [exists x, o|exists s, o]; rewrite elem_of_app, list_elem_of_singleton; auto. }
  assert (forall (P' : Aliases) (phis' : phi_list),
    (forall d src, P' !! d = Some src -> copy_in l d src \/ copy_of (kind s) = Some (d, src)) ->
    (forall d src, copy_in l d src \/ copy_of (kind s) = Some (d, src) -> is_Some (P' !! d)) ->
    (forall d ops, (d, ops) ∈ phis' <-> phi_in l d ops \/
       exists o, kind s = Phi d o /\ ops = o.*2 /\ has_version d = true) ->
    (forall d src, P' !! d = Some src -> copy_in (l ++ [s]) d src) /\
    (forall d src, copy_in (l ++ [s]) d src -> is_Some (P' !! d)) /\
    (forall d ops, (d, ops) ∈ phis' <-> phi_in (l ++ [s]) d ops)) as Hall.
  { intros P' phis' G1 G2 G3. split_and!; intros d x.
    - intros Hx. apply Hc. auto.
    - intros Hx%Hc. eauto.
    - rewrite Hp. apply G3. }
  unfold gather_stmt. destruct (copy_of (kind s)) as [[d0 src0]|] eqn:E.
  - apply Hall; pose proof (copy_of_Some _ _ _ E) as (dest & e & Hk & _).
    + intros d src. destruct (decide (d0 = d)) as [<-|]; [rewrite lookup_insert_eq; intros [= <-]; auto|].
      rewrite lookup_insert_ne by done. auto.
    + intros d src Hd. destruct (decide (d0 = d)) as [<-|]; [rewrite lookup_insert_eq; eauto|].
      rewrite lookup_insert_ne by done. destruct Hd as [|[= ? ?]]; [eauto|done].
    + intros d ops. rewrite H3. split; [auto|]. intros [|(o & ? & _)]; [done|congruence].
  - assert ((forall d src, P !! d = Some src -> copy_in l d src \/ None = Some (d, src)) /\
      (forall d src, copy_in l d src \/ None = Some (d, src) -> is_Some (P !! d))) as [G1 G2] by naive_solver.
    destruct (kind s) as [| |d0 o|] eqn:Ek; try (apply Hall; [done..|]; intros d ops; rewrite H3;
      split; [auto|]; by intros [|(? & [=] & _)]).
    destruct (has_version d0) eqn:Ev; apply Hall; [done..| |done|done|]; intros d ops.
    + rewrite elem_of_app, list_elem_of_singleton, H3. naive_solver.
    + rewrite H3. split; [auto|]. intros [|(? & [= <- <-] & _ & ?)]; [done|congruence].
Qed.

Lemma ranked_terminating l rank P : copies_ranked rank l -> (forall d src, P !! d = Some src -> copy_in l d src) ->
  terminating P.
Proof.
  intros Hr HP v. remember (rank v) as n eqn:En. revert v En.
  induction n as [n IH] using lt_wf_ind. intros v ->. destruct (P !! v) as [w|] eqn:E.
  - destruct (HP _ _ E) as (s & Hs & Hc). pose proof (Hr _ _ _ Hs Hc) as Hlt.
    destruct (IH (rank w) Hlt w eq_refl) as [r Hw]. exists r. by eapply repr_link.
  - exists v. split; [apply rtc_refl|done].
Qed.

Lemma alias_inv_init l rank P : single_defs l -> copies_ranked rank l ->
  (forall d src, P !! d = Some src -> copy_in l d src) -> (forall d src, copy_in l d src -> is_Some (P !! d)) ->
  alias_inv l P.
Proof.
  intros Hssa Hrank H1 H2. assert (terminating P) as Ht by (by eapply ranked_terminating). split.
  - done.
  - intros d src Hc. destruct (H2 _ _ Hc) as [w Hw]. rewrite Hw. f_equal.
    eapply copy_in_unique; [done|exact Hc|]. by apply copy_flows, H1.
  - auto.
  - intros d ops Hp [w Hw]. exfalso. eapply copy_phi_disjoint; eauto.
  - intros v. destruct (resolve_repr P v Ht) as [Hr _]. induction Hr as [|x y z Hxy _ IH]; [apply rtc_refl|].
    eapply rtc_r; [exact IH|]. by apply copy_flows, H1.
  - intros d u Hd. left. eauto.
Qed.

(** ** The rewritten statements *)

Definition rewritten (P : Aliases) (l : list Statement) : list Statement :=
  filter (fun s => is_aliased_def P s = false) (map (fun s => with_kind s (map_src_var (resolve P) (kind s))) l).

Lemma is_aliased_rewrite P s :
  is_aliased_def P (with_kind s (map_src_var (resolve P) (kind s))) = is_aliased_def P s.
Proof.
  unfold is_aliased_def. simpl. destruct (kind s) as [d ss| | |]; simpl; try done.
  destruct (is_pathless d) eqn:E; simpl; [by rewrite E|by rewrite is_pathless_set_base, E].
Qed.

Lemma elem_of_rewritten P l s' : s' ∈ rewritten P l <->
  exists s, s ∈ l /\ s' = with_kind s (map_src_var (resolve P) (kind s)) /\ is_aliased_def P s = false.
Proof.
  unfold rewritten. rewrite list_elem_of_filter, elem_of_map. split.
  - intros [Ha (s & -> & Hs)]. rewrite is_aliased_rewrite in Ha. eauto.
  - intros (s & Hs & -> & Ha). rewrite is_aliased_rewrite. eauto.
Qed.

Lemma map_base_variable_ref f e : variable_ref (map_base_variable f e) = f <$> variable_ref e.
Proof. destruct e as [ap| | | | |]; try done. simpl. unfold is_pathless. simpl. by case_bool_decide. Qed.

Lemma delete_blocks P bs :
  stmts_of (map fst (map (delete_block P) (map (rewrite_block P) bs))) = rewritten P (stmts_of bs) /\
  sum_list_with snd (map (delete_block P) (map (rewrite_block P) bs)) + length (rewritten P (stmts_of bs)) =
    length (stmts_of bs) /\
  (map fst (map (delete_block P) (map (rewrite_block P) bs))) ≫= term_reads =
    map (resolve P) (bs ≫= term_reads).
Proof.
  unfold stmts_of, rewritten. induction bs as [|b bs (IH1 & IH2 & IH3)]; csimpl; [done|].
  rewrite map_app, filter_app, !length_app. set (l := map _ (statements b)).
  assert (length l = length (statements b)) as El by apply length_map.
  assert ((delete_block P (rewrite_block P b)).1.(statements) = filter (fun s => is_aliased_def P s = false) l /\
    (delete_block P (rewrite_block P b)).2 + length (filter (fun s => is_aliased_def P s = false) l) = length l /\
    term_reads (delete_block P (rewrite_block P b)).1 = map (resolve P) (term_reads b)) as (E1 & E2 & E3).
  { assert (term_reads (rewrite_block P b) = map (resolve P) (term_reads b)) as Et.
    { unfold term_reads, rewrite_block; simpl. destruct (terminator b) as [t|]; [|done]. simpl.
      unfold term_map_src_var, term_iter_src_var. destruct (term_kind t) eqn:Ek; simpl.
      - by rewrite omap_base_variable_map.
      - by rewrite Ek. }
    unfold delete_block. simpl. fold l. destruct (existsb (is_aliased_def P) l) eqn:E; simpl.
    - split_and!; [done| |done]. clear. induction l as [|s l IH]; [done|]. rewrite !filter_cons.
      destruct (decide (is_aliased_def P s = true)) as [Ea|Ea], (decide (is_aliased_def P s = false));
        simpl; [congruence|lia|lia|by destruct (is_aliased_def P s)].
    - assert (filter (fun s => is_aliased_def P s = false) l = l) as Ef.
      { clear -E. induction l as [|s l IH]; [done|]. simpl in E. apply orb_false_iff in E as [E1 E2].
        rewrite filter_cons, decide_True by done. by rewrite IH. }
      rewrite Ef. auto. }
  rewrite E1, E3, IH1, IH3, map_app. split_and!; [done|lia|done].
Qed.

Lemma rewritten_empty l : rewritten ∅ l = l.
Proof.
  unfold rewritten. assert (forall s, with_kind s (map_src_var (resolve ∅) (kind s)) = s) as E.
  { intros [si k]. unfold with_kind; simpl. f_equal. apply map_src_var_fixed, Forall_forall.
    intros v _. by apply resolve_root. }
  induction l as [|s l IH]; [done|]. simpl. rewrite E, filter_cons, decide_True, IH; [done|].
  unfold is_aliased_def. destruct (kind s) as [d| | |]; try done. destruct (is_pathless d); [|done].
  simpl. apply bool_decide_eq_false_2. by intros [].
Qed.

(** A block after the pass. *)
Definition propagated_block (P : Aliases) (b : BasicBlockData) : BasicBlockData :=
  {| statements := rewritten P (statements b); terminator := term_map_src_var (resolve P) <$> terminator b |}.

Lemma delete_rewrite_block P b : (delete_block P (rewrite_block P b)).1 = propagated_block P b.
Proof.
  unfold delete_block, propagated_block, rewritten. simpl. destruct (existsb _ _) eqn:E; [done|]. simpl. unfold rewrite_block. f_equal.
  symmetry. generalize dependent (map (fun s => with_kind s (map_src_var (resolve P) (kind s))) (statements b)). intros l E.
  induction l as [|s l IH]; [done|]. simpl in E. apply orb_false_iff in E as [E1 E2]. rewrite filter_cons, decide_True by done. by rewrite IH.
Qed.

Lemma propagated_block_empty b : propagated_block ∅ b = b.
Proof.
  destruct b as [ss [t|]]; unfold propagated_block; simpl; rewrite rewritten_empty; [|done]. f_equal. f_equal. unfold term_map_src_var.
  destruct t as [si [args|ts]]; [|done]. simpl. unfold term_with_kind. simpl. f_equal. f_equal.
  assert (forall e, map_base_variable (resolve ∅) e = e) as He by (intros [[]|[]| | | |]; simpl; by rewrite ?(resolve_root ∅)).
  induction args as [|e args IH]; simpl; [done|]. by rewrite He, IH.
Qed.

(** The pass as a whole, with the alias relation it settles on. *)
Lemma propagate_spec f rank :
  single_defs (stmts_of (blocks f)) -> copies_ranked rank (stmts_of (blocks f)) ->
  exists P f' n, propagate_copies_function f = Ret (f', n) /\
    alias_inv (stmts_of (blocks f)) P /\
    (forall d ops, phi_in (stmts_of (blocks f)) d ops -> P !! d = None ->
       forall u, scan_operands P d ops None <> Some (Some u)) /\
    stmts_of (blocks f') = rewritten P (stmts_of (blocks f)) /\
    n + length (stmts_of (blocks f')) = length (stmts_of (blocks f)) /\
    blocks f' ≫= term_reads = map (resolve P) (blocks f ≫= term_reads) /\
    f' = with_blocks f (map (propagated_block P) (blocks f)).
Proof.
  intros Hssa Hrank. unfold propagate_copies_function.
  pose proof (gather_spec (stmts_of (blocks f))) as Hg. rewrite <- gather_stmts in Hg.
  destruct (gather (blocks f)) as [P0 phis]. destruct Hg as (H1 & H2 & H3).
  pose proof (alias_inv_init _ rank P0 Hssa Hrank H1 H2) as Hinit.
  assert (forall l, map (resolve ∅) l = l) as Hid.
  { induction l as [|v l IH]; [done|]. simpl. rewrite IH. f_equal. }
  assert (open_phis P0 phis < S (S (length phis))) as Hf.
  { unfold open_phis. pose proof (length_filter (fun p => P0 !! p.1 = None) phis). lia. }
  destruct (settle_all_correct _ Hssa phis (S (S (length phis))) (fun d ops => proj1 (H3 d ops)) P0 Hinit Hf)
    as (P & E & Hinv & Hnt).
  assert (forall d ops, phi_in (stmts_of (blocks f)) d ops -> P !! d = None ->
       forall u, scan_operands P d ops None <> Some (Some u)) as Hnt' by (intros d ops ?%H3; by apply Hnt).
  destruct (decide (blocks f = [])) as [Eb|Eb].
  { exists P, f, 0. rewrite Eb in *. simpl. split_and!; [done..|]. destruct f; simpl in *; by subst. }
  rewrite E. simpl. destruct (decide (P = ∅)) as [->|Hne].
  - exists ∅, f, 0. rewrite rewritten_empty, Hid. split_and!; [done..|].
    rewrite (map_ext _ id), map_id by apply propagated_block_empty. by destruct f.
  - eexists P, _, _. split; [reflexivity|]. simpl.
    destruct (delete_blocks P (blocks f)) as (E1 & E2 & E3). rewrite E1, E3. split_and!; [done..|].
    rewrite !map_map. f_equal. apply map_ext. intros b. apply delete_rewrite_block.
Qed.

Section preservation.
Context (l : list Statement) (P : Aliases).
Hypothesis Hssa : single_defs l.
Hypothesis Hinv : alias_inv l P.

Lemma flows_rep a b : flows l a b -> is_Some (P !! b) -> resolve P a = resolve P b.
Proof.
  intros Hf [u Hu]. destruct (a_key _ _ Hinv _ _ Hu) as [Hc|[ops Hp]].
  - rewrite (copy_in_unique l Hssa b u a Hc Hf). symmetry. by apply resolve_link, Hu; apply Hinv.
  - eapply (a_phi _ _ Hinv); [done|eauto|]. by eapply phi_in_unique.
Qed.

Lemma kept_def s b : b ∈ iter_dst_var (kind s) -> P !! b = None -> is_aliased_def P s = false.
Proof.
  intros Hd Hb. unfold is_aliased_def. destruct (kind s) as [d ss| |d o|]; simpl in *; try done.
  - destruct (is_pathless d); [|done]. apply list_elem_of_singleton in Hd as ->. simpl.
    apply bool_decide_eq_false_2. rewrite Hb. by intros [].
  - apply list_elem_of_singleton in Hd as ->. apply bool_decide_eq_false_2. rewrite Hb. by intros [].
Qed.

Lemma flows_kept a b : flows l a b -> P !! b = None -> flows (rewritten P l) (resolve P a) b.
Proof.
  intros (s & Hs & Hf) Hb. pose proof (flows_dst s a b Hf) as Hd.
  exists (with_kind s (map_src_var (resolve P) (kind s))). split.
  { apply elem_of_rewritten. exists s. split_and!; [done..|]. by eapply kept_def. }
  simpl. destruct (kind s) as [d ss| |d o|]; simpl in *; try done.
  - destruct Hf as (Hp & -> & e & He & Hv). rewrite Hp. split_and!; [done..|].
    exists (map_base_variable (resolve P) e). split; [apply elem_of_map; eauto|].
    by rewrite map_base_variable_ref, Hv.
  - destruct Hf as (-> & Ha). split; [done|]. apply list_elem_of_fmap in Ha as ([bb x] & -> & Hx).
    apply list_elem_of_fmap. exists (bb, resolve P x). split; [done|]. apply elem_of_map. by exists (bb, x).
Qed.

Lemma flows_rewritten a b : flows (rewritten P l) a b -> rtc (flows l) a b.
Proof.
  intros (s' & (s & Hs & -> & _)%elem_of_rewritten & Hf). simpl in Hf.
  assert (exists a0, a = resolve P a0 /\ flows l a0 b) as (a0 & -> & Hf0).
  { destruct (kind s) as [d ss| |d o|] eqn:Ek; simpl in *; try done.
    - destruct Hf as (Hp & Hb & e' & He' & Hv). apply elem_of_map in He' as (e & -> & He).
      rewrite map_base_variable_ref in Hv. apply fmap_Some in Hv as (a0 & Hv & ->).
      exists a0. split; [done|]. exists s. split; [done|]. rewrite Ek.
      destruct (is_pathless d) eqn:Ep; [|by rewrite is_pathless_set_base, Ep in Hp]. eauto.
    - destruct Hf as (-> & Ha). apply list_elem_of_fmap in Ha as ([bb x] & -> & Hx).
      apply elem_of_map in Hx as ([bb' x'] & [= -> ->] & Hx). exists x'. split; [done|].
      exists s. split; [done|]. rewrite Ek. split; [done|]. apply list_elem_of_fmap. by exists (bb', x'). }
  eapply rtc_r; [apply (a_flow _ _ Hinv)|done].
Qed.

Lemma flow_preserved o v : P !! o = None ->
  rtc (flows l) o v <-> rtc (flows (rewritten P l)) o (resolve P v).
Proof.
  intros Ho. split.
  - revert v. apply (rtc_ind_r (R:=flows l) (fun v => rtc (flows (rewritten P l)) o (resolve P v)) o);
      [by rewrite resolve_root|]. intros v w Hv Hvw IH.
    destruct (P !! w) as [u|] eqn:Hw.
    + rewrite <- (flows_rep v w Hvw) by eauto. done.
    + rewrite (resolve_root P w Hw). eapply rtc_r; [exact IH|]. by apply flows_kept.
  - intros Hr. transitivity (resolve P v); [|apply (a_flow _ _ Hinv)].
    clear Ho. induction Hr as [|x y z Hxy _ IH]; [apply rtc_refl|].
    etransitivity; [by apply flows_rewritten|done].
Qed.
End preservation.


(** [y_1 = x_0; z_1 = phi(y_1, x_0); return z_1]: the copy and the phi fold onto [x_0]. *)
Definition ssa_var (i n : nat) : VariableRef := with_version (new_local_idx i) n.
Definition copy_example : FunctionData := {|
  name := "f"; params := []; arity := 1; locals := Locals_default;
  blocks := [ {| statements :=
      [ new_kind (Assign (ap_of_var (ssa_var 1 1)) [Exp_variable (ssa_var 0 0)]);
        new_kind (Phi (ssa_var 2 1) [(0, ssa_var 1 1); (1, ssa_var 0 0)]) ];
    terminator := Some (term_new_kind (Return [Exp_variable (ssa_var 2 1)])) |} ] |}.

Lemma copy_example_ssa : single_defs (stmts_of (blocks copy_example)).
Proof.
  intros s1 s2 v H1 H2 D1 D2 _. unfold copy_example, stmts_of in H1, H2. simpl in H1, H2.
  repeat (apply elem_of_cons in H1 as [->|H1]); try (by apply elem_of_nil in H1);
    repeat (apply elem_of_cons in H2 as [->|H2]); try (by apply elem_of_nil in H2);
    apply list_elem_of_singleton in D1; apply list_elem_of_singleton in D2; subst v;
    first [done|vm_compute in D2; congruence].
Qed.

Lemma copy_example_ranked :
  copies_ranked (fun v => match variable v with Variable_Local i => i | _ => 0 end) (stmts_of (blocks copy_example)).
Proof.
  intros s d src Hs Hc. unfold copy_example, stmts_of in Hs. simpl in Hs.
  repeat (apply elem_of_cons in Hs as [->|Hs]); try (by apply elem_of_nil in Hs); vm_compute in Hc; simplify_eq.
  vm_compute. lia.
Qed.


Lemma scan_operands_rewritten P d ops : forall u,
  scan_operands ∅ d (map (resolve P) ops) u = scan_operands P d ops u.
Proof.
  induction ops as [|op ops IH]; intros u; [done|]. simpl. rewrite (resolve_root ∅) by done.
  destruct (decide (resolve P op = d)); [done|]. destruct u; [case_decide; done|done].
Qed.

(** After the rewrite no copy between distinct versioned variables is left. *)
Lemma rewritten_no_copy P l s : alias_inv l P -> s ∈ rewritten P l -> copy_of (kind s) = None.
Proof.
  intros Hinv (s0 & Hs & -> & Ha)%elem_of_rewritten. destruct (copy_of _) as [[d src']|] eqn:Ec; [exfalso|done].
  apply copy_of_Some in Ec as (dest' & e' & Hk & Hp & Hb & He & Hvd & Hvs & Hne). simpl in Hk.
  destruct (kind s0) as [dest ss| | |] eqn:Ek; simpl in Hk; try done.
  destruct (is_pathless dest) eqn:Epd; [|injection Hk as <- _; by rewrite is_pathless_set_base, Epd in Hp].
  injection Hk as -> Hss. destruct ss as [|e [|]]; simplify_eq/=.
  rewrite map_base_variable_ref in He. apply fmap_Some in He as (src & He & ->).
  assert (P !! base dest' = None) as HPd.
  { unfold is_aliased_def in Ha. rewrite Ek, Epd in Ha. simpl in Ha. apply bool_decide_eq_false in Ha.
    destruct (P !! base dest'); [|done]. by destruct Ha. }
  assert (src <> base dest') as Hsd by (intros ->; by rewrite resolve_root in Hne).
  assert (has_version src = true) as Hvsrc.
  { destruct (P !! src) as [u|] eqn:Eu; [|by rewrite resolve_root in Hvs].
    destruct (a_key _ _ Hinv _ _ Eu) as [(? & ? & (? & ? & ? & ? & ? & ? & ? & _)%copy_of_Some)|(? & ? & ? & ? & ? & ? & ?)]; done. }
  assert (copy_in l (base dest') src) as Hc.
  { exists s0. split; [done|]. rewrite Ek. simpl. rewrite Epd, Hvd, He, Hvsrc. simpl.
    by rewrite bool_decide_eq_false_2. }
  rewrite (a_copy _ _ Hinv _ _ Hc) in HPd. done.
Qed.

(** The phis the rewrite keeps read the representatives of operands that do not settle. *)
Definition unsettled (P : Aliases) (s : Statement) : Prop := forall d o, kind s = Phi d o -> has_version d = true ->
  exists ops, o.*2 = map (resolve P) ops /\ forall u, scan_operands P d ops None <> Some (Some u).

Lemma rewritten_unsettled P l s :
  (forall d ops, phi_in l d ops -> P !! d = None -> forall u, scan_operands P d ops None <> Some (Some u)) ->
  s ∈ rewritten P l -> unsettled P s.
Proof.
  intros Hnt (s0 & Hs & -> & Ha)%elem_of_rewritten d o' Hk Hv. simpl in Hk.
  destruct (kind s0) as [| |d0 o|] eqn:Ek; simpl in Hk; try done. injection Hk as -> <-.
  exists o.*2. split; [clear; induction o as [|[] o IH]; csimpl; [done|]; by rewrite IH|].
  apply Hnt; [by exists s0, o|]. unfold is_aliased_def in Ha. rewrite Ek in Ha.
  apply bool_decide_eq_false in Ha. destruct (P !! d); [|done]. by destruct Ha.
Qed.

Lemma settle_nothing phis : (forall d ops, (d, ops) ∈ phis -> forall u, scan_operands ∅ d ops None <> Some (Some u)) ->
  foldl settle (∅, false) phis = (∅, false).
Proof.
  intros Hall. induction phis as [|[d ops] phis IH]; [done|]. simpl. rewrite lookup_empty.
  assert (scan_operands ∅ d ops None = None \/ scan_operands ∅ d ops None = Some None) as [-> | ->]
    by (pose proof (Hall d ops (list_elem_of_here _ _)) as Hno; destruct (scan_operands ∅ d ops None) as [[u|]|];
        [by destruct (Hno u)|auto|auto]); (apply IH; intros; apply Hall; by apply list_elem_of_further).
Qed.

(** A program without copies whose phis are all unsettled is a fixpoint of the pass. *)
Lemma propagate_fixpoint P f :
  (forall s, s ∈ stmts_of (blocks f) -> copy_of (kind s) = None) ->
  (forall s, s ∈ stmts_of (blocks f) -> unsettled P s) ->
  propagate_copies_function f = Ret (f, 0).
Proof.
  intros Hnocopy Hphi. unfold propagate_copies_function. destruct (decide (blocks f = [])); [done|].
  pose proof (gather_spec (stmts_of (blocks f))) as Hg. rewrite <- gather_stmts in Hg.
  destruct (gather (blocks f)) as [P1 phis]. destruct Hg as (H1 & _ & H3).
  assert (P1 = ∅) as ->.
  { apply map_empty. intros d. destruct (P1 !! d) as [src|] eqn:Ed; [|done].
    destruct (H1 _ _ Ed) as (s & Hs & Hc). by rewrite Hnocopy in Hc. }
  cbn [settle_all]. rewrite settle_nothing; [done|].
  intros d ops (s & o & Hs & Hk & -> & Hv)%H3. destruct (Hphi s Hs d o Hk Hv) as (ops & -> & Hno).
  intros u. rewrite scan_operands_rewritten. apply Hno.
Qed.

(** Copy propagation is complete in one run.  Afterwards no statement is a copy between
    distinct versioned variables, every remaining versioned phi is non-trivial (its operands
    other than its own destination are none, or at least two distinct variables), and running
    the pass again changes nothing. *)
Theorem propagate_copies_complete (f f' : FunctionData) (n : nat) (rank : VariableRef -> nat) :
  single_defs (stmts_of (blocks f)) -> copies_ranked rank (stmts_of (blocks f)) ->
  propagate_copies_function f = Ret (f', n) ->
  (forall s, s ∈ stmts_of (blocks f') -> copy_of (kind s) = None) /\
  (forall s d o, s ∈ stmts_of (blocks f') -> kind s = Phi d o -> has_version d = true ->
     (forall v, v ∈ o.*2 -> v = d) \/
     exists v w, v ∈ o.*2 /\ w ∈ o.*2 /\ v <> d /\ w <> d /\ v <> w) /\
  propagate_copies_function f' = Ret (f', 0).
Proof.
  intros Hssa Hrank E0.
  destruct (propagate_spec f rank Hssa Hrank) as (P & f1 & n1 & E & Hinv & Hnt & Es & _ & _ & _).
  rewrite E0 in E. injection E as <- <-.
  pose proof (fun s => rewritten_no_copy P _ s Hinv) as Hnocopy.
  pose proof (fun s => rewritten_unsettled P _ s Hnt) as Hphi. rewrite <- Es in Hnocopy, Hphi.
  split_and!; [done| |by eapply propagate_fixpoint].
  intros s d o Hs Hk Hv. destruct (Hphi s Hs d o Hk Hv) as (ops & -> & Hno).
  pose proof (scan_operands_spec P d ops None) as Hspec.
  destruct (scan_operands P d ops None) as [[u|]|]; [by destruct (Hno u)|left|right].
  - intros v (op & -> & Hop)%elem_of_map. by destruct Hspec as [Hall _], (Hall op Hop).
  - destruct Hspec as [(? & ? & _ & [=] & _)|(o1 & o2 & ? & ? & ? & ? & ?)].
    exists (resolve P o1), (resolve P o2). split_and!; auto; apply elem_of_map; eauto.
Qed.

Lemma propagate_copies_complete_witness :
  exists f' n, propagate_copies_function copy_example = Ret (f', n) /\
    propagate_copies_function f' = Ret (f', 0).
Proof.
  destruct (propagate_copies_function copy_example) as [[f' n]| |] eqn:E; [|vm_compute in E; discriminate..].
  exists f', n. split; [done|].
  apply (propagate_copies_complete copy_example f' n _ copy_example_ssa copy_example_ranked E).
Defined.
