(* ===== verification/Dominators.v ===== *)
(** * Dominators: dominator trees and dominance frontiers ([ctadl-ir/src/graph/dominators/mod.rs])

    [DomImpl] (Lengauer-Tarjan with path compression) is modelled phase by phase over its index
    vectors: [dfs], [semidom] with [find_candidate_ancestor] and [link], and the final [dom]
    pass; then [DominatorTree] with its tree views and iteration orders, and
    [DominanceFrontier].  [hash_iter] is the order in which a [HashSet] bucket is iterated.
    Loops over the work stack carry fuel; [find_candidate_ancestor] recurses along ancestor
    links, at most once per node. *)

From S2P Require Import Prelude Index Graph.

Record DomImpl : Type := mk_dom {
  dfnum : list nat;
  vertex : list nat;
  d_parent : list (option nat);
  semi : list nat;
  samedom : list (option nat);
  bucket : list (gset nat);
  ancestor : list (option nat);
  best : list nat;
  dom : list nat;
}.

Definition set_semi (d : DomImpl) x := mk_dom (dfnum d) (vertex d) (d_parent d) x (samedom d) (bucket d) (ancestor d) (best d) (dom d).
Definition set_samedom (d : DomImpl) x := mk_dom (dfnum d) (vertex d) (d_parent d) (semi d) x (bucket d) (ancestor d) (best d) (dom d).
Definition set_bucket (d : DomImpl) x := mk_dom (dfnum d) (vertex d) (d_parent d) (semi d) (samedom d) x (ancestor d) (best d) (dom d).
Definition set_ancestor (d : DomImpl) x := mk_dom (dfnum d) (vertex d) (d_parent d) (semi d) (samedom d) (bucket d) x (best d) (dom d).
Definition set_best (d : DomImpl) x := mk_dom (dfnum d) (vertex d) (d_parent d) (semi d) (samedom d) (bucket d) (ancestor d) x (dom d).
Definition set_dom (d : DomImpl) x := mk_dom (dfnum d) (vertex d) (d_parent d) (semi d) (samedom d) (bucket d) (ancestor d) (best d) x.

Record DominatorTree : Type := { dt_start : nat; dt_idom : list nat; dt_dfnum : list nat }.

Record DominanceFrontier : Type := { frontiers : list (gset nat) }.

Section dominators.
Context `{Successors G} `{!StartNode G} `{!Predecessors G}.
Variable hash_iter : gset nat -> list nat.

Definition DomImpl_new (graph : G) : DomImpl :=
  let num_nodes := num_nodes graph in
  mk_dom (replicate num_nodes 0) (replicate num_nodes 0) (replicate num_nodes None) (seq 0 num_nodes)
    (replicate num_nodes None) (replicate num_nodes ∅) (replicate num_nodes None) (seq 0 num_nodes)
    (replicate num_nodes 0).

(** The work loop of [dfs]; [nodes] is the stack of (node, parent), its top at the head. *)
Fixpoint dfs_visit (fuel : nat) (graph : G) (nodes : list (nat * option nat)) (seen : gset nat)
    (dfs_counter : nat) (df vx : list nat) (par : list (option nat))
  : outcome (nat * list nat * list nat * list (option nat)) :=
  match fuel with
  | 0 => OutOfFuel
  | S fuel =>
      match nodes with
      | [] => Ret (dfs_counter, df, vx, par)
      | (n, p) :: nodes =>
          if decide (n ∈ seen) then dfs_visit fuel graph nodes seen dfs_counter df vx par
          else
            let dfs_n := dfs_counter in
            df ← iv_set df n dfs_n;
            vx ← iv_set vx dfs_n n;
            par ← iv_set par n p;
            succs ← successors graph n;
            dfs_visit fuel graph (map (fun w => (w, Some n)) (rev succs) ++ nodes) ({[ n ]} ∪ seen)
              (dfs_counter + 1) df vx par
      end
  end.

Definition dfs (fuel : nat) (graph : G) (d : DomImpl) : outcome DomImpl :=
  '(dfs_counter, df, vx, par) ←
    dfs_visit fuel graph [(start_node graph, None)] ∅ 0 (dfnum d) (vertex d) (d_parent d);
  _ ← rust_assert (bool_decide (dfs_counter = num_nodes graph));
  Ret (mk_dom df vx par (semi d) (samedom d) (bucket d) (ancestor d) (best d) (dom d)).

Fixpoint find_candidate_ancestor (fuel : nat) (d : DomImpl) (v : nat) : outcome (DomImpl * nat) :=
  match fuel with
  | 0 => OutOfFuel
  | S fuel =>
      a ← iv_index (ancestor d) v;
      a ← unwrap a;
      ancestor_a ← iv_index (ancestor d) a;
      d ← match ancestor_a with
          | Some ancestor_a =>
              '(d, b) ← find_candidate_ancestor fuel d a;
              anc ← iv_set (ancestor d) v (Some ancestor_a);
              let d := set_ancestor d anc in
              cur_best ← iv_index (best d) v;
              semi_b ← iv_index (semi d) b;
              df_b ← iv_index (dfnum d) semi_b;
              semi_cur ← iv_index (semi d) cur_best;
              df_cur ← iv_index (dfnum d) semi_cur;
              if decide (df_b < df_cur) then bs ← iv_set (best d) v b; Ret (set_best d bs) else Ret d
          | None => Ret d
          end;
      r ← iv_index (best d) v;
      Ret (d, r)
  end.

Definition link (d : DomImpl) (parent child : nat) : outcome DomImpl :=
  anc ← iv_set (ancestor d) child (Some parent);
  bs ← iv_set (best d) child child;
  Ret (set_best (set_ancestor d anc) bs).

(** One predecessor [v] of [n]: the candidate semidominator it gives. *)
Definition semidom_pred (n : nat) (st : DomImpl * nat) (v : nat) : outcome (DomImpl * nat) :=
  let '(d, s) := st in
  df_v ← iv_index (dfnum d) v;
  df_n ← iv_index (dfnum d) n;
  '(d, s1) ← (if decide (df_v <= df_n) then Ret (d, v)
              else '(d, u) ← find_candidate_ancestor (length (ancestor d)) d v;
                   s1 ← iv_index (semi d) u; Ret (d, s1));
  df_s1 ← iv_index (dfnum d) s1;
  df_s ← iv_index (dfnum d) s;
  Ret (d, if decide (df_s1 < df_s) then s1 else s).

(** One entry [v] of the bucket of [p]. *)
Definition semidom_bucket (p : nat) (d : DomImpl) (v : nat) : outcome DomImpl :=
  '(d, y) ← find_candidate_ancestor (length (ancestor d)) d v;
  semi_y ← iv_index (semi d) y;
  semi_v ← iv_index (semi d) v;
  if decide (semi_y = semi_v) then dm ← iv_set (dom d) v p; Ret (set_dom d dm)
  else sd ← iv_set (samedom d) v (Some y); Ret (set_samedom d sd).

Definition semidom_step (graph : G) (d : DomImpl) (i : nat) : outcome DomImpl :=
  if decide (i = start_node graph) then Ret d
  else
    n ← iv_index (vertex d) i;
    p ← iv_index (d_parent d) n;
    p ← unwrap p;
    preds ← predecessors graph n;
    '(d, s) ← foldM (semidom_pred n) (d, p) preds;
    sm ← iv_set (semi d) n s;
    let d := set_semi d sm in
    bk_s ← iv_index (bucket d) s;
    bk ← iv_set (bucket d) s ({[ n ]} ∪ bk_s);
    let d := set_bucket d bk in
    d ← link d p n;
    bk_p ← iv_index (bucket d) p;
    d ← foldM (semidom_bucket p) d (hash_iter bk_p);
    bk ← iv_set (bucket d) p ∅;
    Ret (set_bucket d bk).

Definition semidom (graph : G) (d : DomImpl) : outcome DomImpl :=
  foldM (semidom_step graph) d (rev (iter_nodes graph)).

Definition dom_step (graph : G) (d : DomImpl) (i : nat) : outcome DomImpl :=
  if decide (i = start_node graph) then Ret d
  else
    n ← iv_index (vertex d) i;
    sd ← iv_index (samedom d) n;
    match sd with
    | Some y =>
        x ← iv_index (dom d) y;
        dm ← iv_set (dom d) n x;
        Ret (set_dom d dm)
    | None => Ret d
    end.

Definition DomImpl_dom (graph : G) (d : DomImpl) : outcome (list nat) :=
  d ← foldM (dom_step graph) d (rev (iter_nodes graph));
  Ret (dom d).

Definition DominatorTree_new (fuel : nat) (graph : G) : outcome DominatorTree :=
  let dimpl := DomImpl_new graph in
  dimpl ← dfs fuel graph dimpl;
  dimpl ← semidom graph dimpl;
  let df := dfnum dimpl in
  idom ← DomImpl_dom graph dimpl;
  Ret {| dt_start := start_node graph; dt_idom := idom; dt_dfnum := df |}.
End dominators.

(** ** Views of the dominator tree *)

Definition idom (dt : DominatorTree) (n : nat) : outcome nat := iv_index (dt_idom dt) n.

#[export] Instance DominatorTree_DirectedGraph : DirectedGraph DominatorTree :=
  {| num_nodes dt := length (dt_idom dt) |}.
#[export] Instance DominatorTree_StartNode : StartNode DominatorTree := {| start_node dt := dt_start dt |}.

Definition dt_predecessors (dt : DominatorTree) (n : nat) : outcome (list nat) :=
  if decide (n = dt_start dt) then Ret [] else p ← iv_index (dt_idom dt) n; Ret [p].
#[export] Instance DominatorTree_Predecessors : Predecessors DominatorTree := {| predecessors := dt_predecessors |}.

(** The cached child lists: [succs[idom[n]].push(n)] for every [n] but the start node. *)
Definition dt_children (dt : DominatorTree) : outcome (list (list nat)) :=
  foldM (fun succs '(n, pred) =>
           if decide (n = dt_start dt) then Ret succs
           else l ← iv_index succs pred; iv_set succs pred (l ++ [n]))
        (replicate (length (dt_idom dt)) []) (enumerate (dt_idom dt)).

#[export] Instance DominatorTree_Successors : Successors DominatorTree :=
  {| successors dt n := succs ← dt_children dt; iv_index succs n |}.

(** Insertion into a list sorted by a key: Rust's stable [sort_by], as an insertion sort. *)
Fixpoint insert_by (lt : nat -> nat -> bool) (x : nat) (l : list nat) : list nat :=
  match l with
  | [] => [x]
  | y :: l' => if lt y x then y :: insert_by lt x l' else x :: l
  end.
Definition sort_by (lt : nat -> nat -> bool) (l : list nat) : list nat :=
  foldr (insert_by lt) [] l.

Definition dfnum_of (dt : DominatorTree) (n : nat) : nat := default 0 (dt_dfnum dt !! n).

(** Descending and ascending [dfnum].  ([dfnum] has an entry for every node, so the lookups of
    the comparison closures are in range.) *)
Definition iter_postorder (dt : DominatorTree) : list nat :=
  sort_by (fun n m => bool_decide (dfnum_of dt m < dfnum_of dt n)) (iter_nodes dt).
Definition iter_preorder (dt : DominatorTree) : list nat :=
  sort_by (fun n m => bool_decide (dfnum_of dt n < dfnum_of dt m)) (iter_nodes dt).

(** ** Dominance frontiers *)

Section frontier.
Context `{Successors G}.

Definition frontier_add (dt : DominatorTree) (x : nat) (fr : list (gset nat)) (y : nat) : outcome (list (gset nat)) :=
  i ← idom dt y;
  if decide (i <> x) then fx ← iv_index fr x; iv_set fr x ({[ y ]} ∪ fx) else Ret fr.

Definition frontier_step (graph : G) (dt : DominatorTree) (fr : list (gset nat)) (x : nat) : outcome (list (gset nat)) :=
  succs ← successors graph x;
  fr ← foldM (frontier_add dt x) fr succs;
  children ← successors dt x;
  foldM (fun fr z => fz ← iv_index fr z; foldM (frontier_add dt x) fr (elements fz)) fr children.

Definition DominanceFrontier_new (graph : G) (dt : DominatorTree) : outcome DominanceFrontier :=
  fr ← foldM (frontier_step graph dt) (replicate (num_nodes graph) ∅) (iter_postorder dt);
  Ret {| frontiers := fr |}.
End frontier.

(** [BitSet] iterates in index order. *)
Definition frontier_iter (df : DominanceFrontier) (n : nat) : outcome (list nat) :=
  s ← iv_index (frontiers df) n; Ret (merge_sort (≤) (elements s)).

(** ** The defect of the final pass *)

(** A graph given by successor lists, with its predecessor lists. *)
Record FlowGraph : Type := { fg_succ : list (list nat) }.
#[export] Instance FlowGraph_DirectedGraph : DirectedGraph FlowGraph := {| num_nodes g := length (fg_succ g) |}.
#[export] Instance FlowGraph_StartNode : StartNode FlowGraph := {| start_node _ := 0 |}.
#[export] Instance FlowGraph_Successors : Successors FlowGraph := {| successors g n := iv_index (fg_succ g) n |}.
#[export] Instance FlowGraph_Predecessors : Predecessors FlowGraph :=
  {| predecessors g n :=
       if decide (n < length (fg_succ g))
       then Ret (omap (fun '(p, l) => if decide (n ∈ l) then Some p else None) (enumerate (fg_succ g)))
       else Panic |}.

(** [d] dominates [n]: every path of edges from the start node to [n] visits [d]. *)
Definition dominates `{Successors G} `{!StartNode G} (g : G) (d n : nat) : Prop :=
  forall l, head l = Some (start_node g) -> last l = Some n -> is_path (successors g) l -> d ∈ l.

(** [0 -> 1; 1 -> 3, 2; 2 -> 5, 3; 3 -> 4, 5; 5 -> 4]. *)
Definition defect_graph : FlowGraph := {| fg_succ := [[1]; [3; 2]; [5; 3]; [4; 5]; []; [4]] |}.

(** C33: The dominator tree can be wrong.  On a six-node acyclic graph the tree that
    [DominatorTree::new] returns makes node 0 the parent of node 4, although node 1 is a strict
    dominator of node 4 that does not dominate node 0: node 0 is not the immediate dominator.
    The final pass [DomImpl::dom] visits nodes in descending depth-first order, so it copies
    [dom[samedom[n]]] before that entry has been filled in. *)
Theorem dominator_tree_not_immediate :
  exists dt, DominatorTree_new elements 30 defect_graph = Ret dt /\
    idom dt 4 = Ret 0 /\ dominates defect_graph 1 4 /\ ~ dominates defect_graph 1 0.
Proof.
  eexists. split; [vm_compute; reflexivity|]. split; [reflexivity|]. split.
  - intros l Hh Hl Hp. destruct l as [|x [|y l]]; simplify_eq/=.
    destruct (Hp 0 0 y eq_refl eq_refl) as (s & Hs & Hy). vm_compute in Hs. simplify_eq.
    apply list_elem_of_singleton in Hy as ->. set_solver.
  - intros Hd. assert (1 ∈ [0]) as H1 by (apply Hd; [done|done|by intros [|]]).
    by apply list_elem_of_singleton in H1.
Qed.

(** ** Depth-first numbering *)

Section dfs_correct.
Context `{Successors G} `{!StartNode G} `{!Predecessors G}.
Variable g : G.
Hypothesis Hwf : graph_wf g.
Hypothesis Hstart : start_node g < num_nodes g.

(** [p] is the tree parent recorded for [n], which is the [i]-th node of [acc]. *)
Definition parent_ok (acc : list nat) (i n : nat) (p : option nat) : Prop :=
  match p with
  | None => n = start_node g
  | Some q => edge (successors g) q n /\ exists j, j < i /\ acc !! j = Some q
  end.

Record numbering (acc df vx : list nat) (par : list (option nat)) : Prop := {
  n_df : length df = num_nodes g;
  n_vx : length vx = num_nodes g;
  n_par : length par = num_nodes g;
  n_num : forall i n, acc !! i = Some n -> df !! n = Some i /\ vx !! i = Some n /\
    exists p, par !! n = Some p /\ parent_ok acc i n p;
}.

Lemma parent_ok_mono acc acc' i n p : acc `prefix_of` acc' -> parent_ok acc i n p -> parent_ok acc' i n p.
Proof.
  intros [k ->]. destruct p as [q|]; simpl; [|done]. intros (He & j & Hj & Hq).
  split; [done|]. exists j. split; [done|]. by apply lookup_app_l_Some.
Qed.

Lemma numbering_visit acc df vx par n p :
  numbering acc df vx par -> n ∉ acc -> n < num_nodes g -> length acc < num_nodes g ->
  parent_ok acc (length acc) n p ->
  numbering (acc ++ [n]) (<[n := length acc]> df) (<[length acc := n]> vx) (<[n := p]> par).
Proof.
  intros [Hdf Hvx Hpar Hnum] Hn Hlt Hlen Hp. split; rewrite ?length_insert; auto.
  intros i m Hi. apply lookup_app_Some in Hi as [Hi|[Hi Hm]].
  - destruct (Hnum i m Hi) as (H1 & H2 & q & H3 & H4).
    assert (n <> m) by (intros ->; apply Hn; by eapply list_elem_of_lookup_2).
    apply lookup_lt_Some in Hi. rewrite !list_lookup_insert_ne by (done || lia). split_and!; [done..|].
    exists q. split; [done|]. eapply parent_ok_mono; [|done]. by apply prefix_app_r.
  - apply list_lookup_singleton_Some in Hm as [Hi0 <-]. assert (i = length acc) as -> by lia.
    rewrite !list_lookup_insert_eq by lia. split_and!; [done..|]. exists p. split; [done|].
    eapply parent_ok_mono; [|done]. by apply prefix_app_r.
Qed.

Lemma reach_inv_length nodes seen acc : reach_inv g nodes seen acc -> length acc <= num_nodes g.
Proof.
  intros [Hnd Hacc Hseen _ _ _]. rewrite <- (length_seq (num_nodes g) 0).
  apply submseteq_length, NoDup_submseteq; [done|]. intros x Hx. apply elem_of_seq.
  apply Hacc, Hseen in Hx as [? _]. lia.
Qed.

(** A property of the stack, the nodes visited and the parents that the loop keeps. *)
Record visit_inv (J : list (nat * option nat) -> list nat -> list (option nat) -> Prop) : Prop := {
  vi_skip : forall n p nodes acc par, n ∈ acc -> J ((n, p) :: nodes) acc par -> J nodes acc par;
  vi_visit : forall n p nodes acc par succs, n ∉ acc -> n < length par -> successors g n = Ret succs ->
    J ((n, p) :: nodes) acc par -> J (map (fun w => (w, Some n)) (rev succs) ++ nodes) (acc ++ [n]) (<[n := p]> par);
}.

Lemma dfs_visit_correct J fuel : visit_inv J -> forall nodes seen acc df vx par,
  reach_inv g nodes.*1 seen acc -> numbering acc df vx par -> J nodes acc par ->
  (forall n p, (n, p) ∈ nodes -> parent_ok acc (length acc) n p) ->
  length nodes + total_degree (successors g) (node_set g ∖ seen) < fuel ->
  exists r df' vx' par', dfs_visit fuel g nodes seen (length acc) df vx par = Ret (length r, df', vx', par') /\
    numbering r df' vx' par' /\ NoDup r /\ J [] r par' /\ forall x, x ∈ r <-> reaches g (start_node g) x.
Proof.
  intros HJ. induction fuel as [|fuel IH]; intros nodes seen acc df vx par Hinv Hnum HJn Hst Hf; [lia|]. cbn [dfs_visit].
  destruct nodes as [|[n p] nodes].
  - exists acc, df, vx, par. split_and!; [done..|apply Hinv|done|]. destruct Hinv as [Hnd Hacc Hseen _ [Hs|Hs] Hc];
      [|by apply elem_of_nil in Hs].
    intros x. rewrite Hacc. split; [apply Hseen|]. intros Hr. revert Hs.
    eapply (rtc_closed _ (fun v => v ∈ seen)); [|exact Hr]. intros v m Hv He.
    by destruct (Hc v m Hv He) as [|?%elem_of_nil].
  - csimpl in Hinv. destruct (decide (n ∈ seen)) as [Hn|Hn].
    + apply IH; [by eapply reach_inv_skip|done| |set_solver|simpl in Hf; lia].
      eapply (vi_skip _ HJ); [|exact HJn]. by apply (ri_acc _ _ _ _ Hinv).
    + assert (n < num_nodes g) as Hlt by (apply (ri_nodes _ _ _ _ Hinv); set_solver).
      assert (n ∈ node_set g) as HnU by (by apply elem_of_node_set).
      destruct (Hwf n HnU) as (succs & El & _).
      pose proof (reach_inv_visit g Hwf Hstart n nodes.*1 seen acc succs Hinv Hn El) as Hinv'.
      pose proof (reach_inv_length _ _ _ Hinv') as Hlen. rewrite length_app in Hlen. simpl in Hlen.
      assert (n ∉ acc) as Hna by (by rewrite (ri_acc _ _ _ _ Hinv)).
      assert (parent_ok acc (length acc) n p) as Hp by (apply Hst; set_solver).
      pose proof Hnum as [Hdf Hvx Hpar _]. unfold iv_set.
      rewrite decide_True by lia. cbn [mbind outcome_bind].
      rewrite decide_True by lia. cbn [mbind outcome_bind].
      rewrite decide_True by lia. cbn [mbind outcome_bind]. rewrite El. cbn [mbind outcome_bind].
      replace (length acc + 1) with (length (acc ++ [n])) by (rewrite length_app; done).
      apply IH.
      * rewrite fmap_app. replace ((map (fun w => (w, Some n)) (rev succs)).*1) with (rev succs); [done|].
        clear. induction (rev succs) as [|w l IHl]; csimpl; [done|]. by rewrite <- IHl.
      * apply numbering_visit; auto. lia.
      * apply (vi_visit _ HJ); [done|lia|done..].
      * intros m q [Hm|Hm]%elem_of_app.
        -- apply elem_of_map in Hm as (w & [= -> ->] & Hw). simpl. split.
           ++ exists succs. split; [done|]. rewrite list_elem_of_In in Hw |- *. by apply in_rev.
           ++ exists (length acc). rewrite length_app. simpl. split; [lia|].
              by rewrite lookup_app_r, Nat.sub_diag by lia.
        -- specialize (Hst m q ltac:(set_solver)). destruct q as [q|]; simpl in *; [|done].
           destruct Hst as (He & j & Hj & Hq). split; [done|]. exists j. rewrite length_app. simpl.
           split; [lia|]. by apply lookup_app_l_Some.
      * rewrite (total_degree_visit _ _ seen n) in Hf by done. unfold out_degree in Hf. rewrite El in Hf.
        rewrite length_app, length_map, length_rev. simpl in Hf. lia.
Qed.

Lemma dfs_new_correct J fuel : visit_inv J -> J [(start_node g, None)] [] (replicate (num_nodes g) None) ->
  search_fuel (successors g) (node_set g) <= fuel ->
  exists r df vx par, numbering r df vx par /\ NoDup r /\ J [] r par /\ (forall x, x ∈ r <-> reaches g (start_node g) x) /\
    dfs fuel g (DomImpl_new g) =
      if decide (length r = num_nodes g)
      then Ret (mk_dom df vx par (semi (DomImpl_new g)) (samedom (DomImpl_new g)) (bucket (DomImpl_new g))
                  (ancestor (DomImpl_new g)) (best (DomImpl_new g)) (dom (DomImpl_new g)))
      else Panic.
Proof.
  intros HJ HJ0 Hf. unfold search_fuel in Hf.
  destruct (dfs_visit_correct J fuel HJ [(start_node g, None)] ∅ [] (replicate (num_nodes g) 0)
    (replicate (num_nodes g) 0) (replicate (num_nodes g) None)) as (r & df & vx & par & E & Hnum & Hnd & HJr & Hr).
  - assert (forall x, x ∈ [start_node g] -> x < num_nodes g /\ reaches g (start_node g) x)
      by (intros x ->%list_elem_of_singleton; split; [done|apply rtc_refl]).
    split; [apply NoDup_nil_2|set_solver..].
  - split; [by rewrite length_replicate..|]. intros i n. by rewrite lookup_nil.
  - exact HJ0.
  - intros n p [= -> ->]%list_elem_of_singleton. done.
  - rewrite difference_empty_L. simpl. lia.
  - exists r, df, vx, par. split_and!; [done..|]. unfold dfs. simpl in E. cbn [dfnum vertex d_parent DomImpl_new].
    rewrite E. simpl. unfold rust_assert. case_decide; [by rewrite bool_decide_eq_true_2|by rewrite bool_decide_eq_false_2].
Qed.
End dfs_correct.

(** The depth-first numbering of [DominatorTree::new] is right, and unreachable nodes are
    refused.  On a well-formed graph, if every node is reachable from the start node then
    [dfs] returns: [dfnum] and [vertex] are inverse numberings of all the nodes, the start node
    has no parent, and every other node's recorded parent is a predecessor with a smaller
    number.  If some node is not reachable, [DominatorTree::new] panics. *)
Theorem dominator_dfs_correct `{Successors G} `{!StartNode G} `{!Predecessors G} hash_iter (g : G) fuel :
  graph_wf g -> start_node g < num_nodes g -> search_fuel (successors g) (node_set g) <= fuel ->
  ((forall n, n < num_nodes g -> reaches g (start_node g) n) ->
     exists d, dfs fuel g (DomImpl_new g) = Ret d /\
       (forall i n, vertex d !! i = Some n <-> dfnum d !! n = Some i) /\
       vertex d ≡ₚ seq 0 (num_nodes g) /\
       (forall n, n < num_nodes g -> n = start_node g \/
          exists q i j, d_parent d !! n = Some (Some q) /\ edge (successors g) q n /\
            dfnum d !! q = Some i /\ dfnum d !! n = Some j /\ i < j)) /\
  ((exists n, n < num_nodes g /\ ~ reaches g (start_node g) n) ->
     DominatorTree_new hash_iter fuel g = Panic).
Proof.
  intros Hwf Hs Hf.
  destruct (dfs_new_correct g Hwf Hs (fun _ _ _ => True) fuel) as (r & df & vx & par & Hnum & Hnd & _ & Hr & E); [done..|].
  assert (r ⊆+ seq 0 (num_nodes g)) as Hsub.
  { apply NoDup_submseteq; [done|]. intros x Hx%Hr. apply elem_of_seq.
    pose proof (reaches_in_range g _ x Hwf Hs Hx). lia. }
  split.
  - intros Hall. assert (r ≡ₚ seq 0 (num_nodes g)) as Hperm.
    { apply NoDup_Permutation; [done|apply NoDup_seq|]. intros x. rewrite Hr, elem_of_seq. split.
      - intros Hx. pose proof (reaches_in_range g _ x Hwf Hs Hx). lia.
      - intros [_ ?]. by apply Hall. }
    assert (length r = num_nodes g) as Hlen by (rewrite Hperm; apply length_seq).
    rewrite decide_True in E by done. eexists. split; [exact E|]. simpl. destruct Hnum as [Hdf Hvx Hpar Hnum].
    assert (vx = r) as ->.
    { apply list_eq. intros i. destruct (r !! i) as [n|] eqn:Ei; [by apply Hnum|].
      apply lookup_ge_None in Ei. apply lookup_ge_None. lia. }
    assert (forall i n, r !! i = Some n <-> df !! n = Some i) as Hiff.
    { intros i n. split; [apply Hnum|]. intros Hn. pose proof (lookup_lt_Some _ _ _ Hn) as Hlt.
      assert (n ∈ r) as [j Hj]%list_elem_of_lookup by (rewrite Hperm; apply elem_of_seq; lia).
      destruct (Hnum _ _ Hj) as (Hn' & _). rewrite Hn in Hn'. by simplify_eq. }
    split_and!; [done..|]. intros n Hn.
    assert (n ∈ r) as [i Hi]%list_elem_of_lookup by (rewrite Hperm; apply elem_of_seq; lia).
    destruct (Hnum _ _ Hi) as (Hd & _ & p & Hp & Hok). destruct p as [q|]; simpl in Hok; [|by left].
    right. destruct Hok as (He & j & Hj & Hq). exists q, j, i. split_and!; auto. by apply Hiff.
  - intros (n & Hn & Hnr). unfold DominatorTree_new. rewrite E, decide_False; [done|].
    intros Hlen. apply Hnr, Hr. apply submseteq_length_Permutation in Hsub; [|rewrite length_seq; lia].
    rewrite Hsub. apply elem_of_seq. lia.
Qed.

#[export] Instance flow_graph_wf_dec (g : FlowGraph) : Decision (graph_wf g).
Proof.
  refine (cast_if (decide (graph_wf (fg_succ g : AdjList)))); [exact g0|exact n].
Defined.

Lemma dominator_dfs_correct_witness :
  DominatorTree_new elements 30 {| fg_succ := [[1]; []; [1]] |} = Panic.
Proof.
  apply (dominator_dfs_correct elements ({| fg_succ := [[1]; []; [1]] |} : FlowGraph) 30);
    [by_decide|by_decide|by_decide|].
  exists 2. split; [by_decide|]. intros Hr.
  assert (forall x y, x = 0 \/ x = 1 -> edge (successors ({| fg_succ := [[1]; []; [1]] |} : FlowGraph)) x y -> y = 0 \/ y = 1) as Hc.
  { intros x y [->| ->] (l & Hl & Hy); vm_compute in Hl; simplify_eq; [|by apply elem_of_nil in Hy].
    apply list_elem_of_singleton in Hy. auto. }
  destruct (rtc_closed _ (fun x => x = 0 \/ x = 1) 0 2 Hc Hr (or_introl eq_refl)); discriminate.
Defined.

(** ** Dominance frontiers are Cytron's *)

Lemma insert_by_perm lt x l : insert_by lt x l ≡ₚ x :: l.
Proof.
  induction l as [|y l IH]; simpl; [done|]. destruct (lt y x); [|done]. rewrite IH. apply Permutation_swap.
Qed.

Lemma sort_by_perm lt l : sort_by lt l ≡ₚ l.
Proof. induction l as [|x l IH]; simpl; [done|]. by rewrite insert_by_perm, IH. Qed.

(** Sorting by descending key. *)
Lemma sort_by_desc (f : nat -> nat) l :
  StronglySorted (fun a b => f b <= f a) (sort_by (fun n m => bool_decide (f m < f n)) l).
Proof.
  induction l as [|x l IH]; simpl; [constructor|]. revert IH.
  generalize (sort_by (fun n m => bool_decide (f m < f n)) l) as k.
  induction k as [|y k IHk]; intros Hs; simpl; [repeat constructor|].
  apply StronglySorted_inv in Hs as [Hs Hy]. case_bool_decide as Hlt.
  - constructor; [auto|]. rewrite insert_by_perm. constructor; [lia|done].
  - constructor; [by constructor|]. constructor; [lia|]. eapply Forall_impl; [exact Hy|]. simpl. lia.
Qed.

Section frontier_correct.
Context `{Successors G}.
Variable g : G.
Variable dt : DominatorTree.
Hypothesis Hwf : graph_wf g.

(** [a] is the tree parent of [b]; the root is its own. *)
Definition par (a b : nat) : Prop := dt_idom dt !! b = Some a.

(** A tree: one entry per node, rooted at the start node, numbered from the root down. *)
Record tree_wf : Prop := {
  t_len : length (dt_idom dt) = num_nodes g;
  t_start : dt_start dt < num_nodes g;
  t_root : par (dt_start dt) (dt_start dt);
  t_num : forall a b, par a b -> b <> dt_start dt -> a < num_nodes g /\ dfnum_of dt a < dfnum_of dt b;
}.
Hypothesis Htree : tree_wf.

Lemma par_total b : b < num_nodes g -> exists a, par a b.
Proof. intros Hb. apply lookup_lt_is_Some_2. by rewrite (t_len Htree). Qed.

Lemma par_lt a b : par a b -> a < num_nodes g /\ b < num_nodes g.
Proof.
  intros Hp. assert (b < num_nodes g) as Hb by (rewrite <- (t_len Htree); by eapply lookup_lt_Some).
  split; [|done]. destruct (decide (b = dt_start dt)) as [->|Hne]; [|by apply (t_num Htree) in Hp as [? _]].
  pose proof (t_root Htree) as Hr. unfold par in *. rewrite Hr in Hp. by simplify_eq.
Qed.

Lemma par_le a b : par a b -> a = b \/ dfnum_of dt a < dfnum_of dt b.
Proof.
  intros Hp. destruct (decide (b = dt_start dt)) as [->|Hne]; [left|right; by apply (t_num Htree)].
  pose proof (t_root Htree) as Hr. unfold par in *. rewrite Hr in Hp. by simplify_eq.
Qed.

Lemma anc_antisym a b : rtc par a b -> rtc par b a -> a = b.
Proof.
  assert (forall a b, rtc par a b -> a = b \/ dfnum_of dt a < dfnum_of dt b) as Hle.
  { induction 1 as [|x y z Hxy _ IH]; [by left|].
    destruct (par_le _ _ Hxy) as [->|]; [done|]. destruct IH as [->|]; [auto|]. right. lia. }
  intros Hab Hba. destruct (Hle _ _ Hab), (Hle _ _ Hba); auto. lia.
Qed.

(** Two ancestors of a node are comparable. *)
Lemma anc_comparable p a : rtc par a p -> forall b, rtc par b p -> rtc par a b \/ rtc par b a.
Proof.
  induction 1 as [a|a c x Hac Hcx IH]; intros b Hb; [by right|].
  destruct (IH b Hb) as [Hcb|Hbc].
  - left. by eapply rtc_l.
  - apply rtc_inv_r in Hbc as [->|(d & Hbd & Hdc)]; [left; by apply rtc_once|].
    unfold par in Hac, Hdc. rewrite Hac in Hdc. simplify_eq. by right.
Qed.

(** The recurrence the pass computes: a successor, or a child's frontier, not owned by [x]. *)
Inductive df_rec : nat -> nat -> Prop :=
| df_local x y a : edge (successors g) x y -> x < num_nodes g -> par a y -> a <> x -> df_rec x y
| df_up x y z a : par x z -> z <> dt_start dt -> df_rec z y -> par a y -> a <> x -> df_rec x y.

(** In a tree where a node's parent is an ancestor of all its predecessors, as an immediate
    dominator is, the recurrence is Cytron's frontier. *)
Lemma df_rec_cytron x y : (forall p y a, edge (successors g) p y -> p < num_nodes g -> par a y -> rtc par a p) ->
  df_rec x y <-> (exists p, p < num_nodes g /\ rtc par x p /\ edge (successors g) p y) /\ ~ tc par x y.
Proof.
  intros Hdom.
  assert (forall x y a, par a y -> a <> x -> tc par x y -> tc par x a) as Hstep.
  { clear. intros x y a Ha Hne Ht.
    induction Ht as [x y Hxy|x z y Hxz Hzy IH]; [unfold par in *; congruence|].
    destruct (decide (a = z)) as [->|]; [by apply tc_once|]. eapply tc_l; [done|]. by apply IH. }
  split.
  - induction 1 as [x y a He Hx Ha Hne|x y z a Hxz Hz _ [(p & Hp & Hzp & He) Hns] Ha Hne].
    + split; [exists x; split_and!; [done|apply rtc_refl|done]|]. intros Ht.
      pose proof (Hdom x y a He Hx Ha) as Hax. apply Hne. apply anc_antisym; [done|].
      by apply tc_rtc, (Hstep x y a).
    + split; [exists p; split_and!; [done|by eapply rtc_l|done]|]. intros Ht.
      pose proof (Hdom p y a He Hp Ha) as Hap. pose proof (Hstep x y a Ha Hne Ht) as Hxa.
      destruct (anc_comparable p z Hzp a Hap) as [Hza|Haz].
      * apply Hns. eapply tc_rtc_l; [exact Hza|]. by apply tc_once.
      * apply rtc_inv_r in Haz as [->|(w & Haw & Hwz)].
        -- apply Hns. by apply tc_once.
        -- unfold par in Hwz, Hxz. rewrite Hwz in Hxz. simplify_eq. apply Hne. apply anc_antisym; [done|]. by apply tc_rtc.
  - intros [(p & Hp & Hxp & He) Hns].
    assert (exists a, par a y) as [a Ha].
    { apply par_total. destruct (Hwf p) as (l & El & Hl); [by apply elem_of_node_set|].
      apply elem_of_node_set. destruct He as (l' & El' & Hy). assert (l' = l) as -> by congruence. auto. }
    induction Hxp as [p|x z p Hxz Hzp IH].
    + eapply df_local; [done..|]. intros ->. apply Hns. by apply tc_once.
    + destruct (decide (z = dt_start dt)) as [Hz|Hz].
      * destruct (par_le _ _ Hxz) as [->|Hlt]; [by apply IH|].
        pose proof (t_root Htree) as Hr. subst z. unfold par in *. rewrite Hr in Hxz. simplify_eq. lia.
      * eapply df_up; [done|done| |done|].
        -- apply IH; [done..|]. intros Ht. apply Hns. by eapply tc_l.
        -- intros ->. apply Hns. by apply tc_once.
Qed.

Lemma dt_children_spec : exists succs, dt_children dt = Ret succs /\ length succs = num_nodes g /\
  forall x l, succs !! x = Some l -> NoDup l /\ forall z, z ∈ l <-> par x z /\ z <> dt_start dt.
Proof.
  clear Hwf. unfold dt_children.
  destruct (foldM_split (fun succs '(n, pred) =>
      if decide (n = dt_start dt) then Ret succs
      else l ← iv_index succs pred; iv_set succs pred (l ++ [n]))
    (fun pre succs => length succs = num_nodes g /\
       forall x l, succs !! x = Some l -> NoDup l /\ forall z, z ∈ l <-> (z, x) ∈ pre /\ z <> dt_start dt)
    (enumerate (dt_idom dt)) (replicate (length (dt_idom dt)) [])) as (succs & E & Hlen & Hs).
  - split; [rewrite length_replicate; apply Htree|]. intros x l [-> _]%lookup_replicate. split; [constructor|set_solver].
  - intros pre [n a] post succs Epre [Hlen Hs].
    assert (par a n) as Hn by (apply elem_of_enumerate; rewrite Epre; set_solver).
    pose proof (NoDup_enumerate (dt_idom dt)) as Hnd. rewrite Epre in Hnd. apply NoDup_app in Hnd as (_ & Hnd & _).
    destruct (decide (n = dt_start dt)) as [->|Hne].
    + exists succs. split_and!; [done..|]. intros x l Hx. destruct (Hs x l Hx) as [Hl Hz]. split; [done|].
      intros z. rewrite Hz, elem_of_app, list_elem_of_singleton. naive_solver.
    + destruct (lookup_lt_is_Some_2 succs a) as [l Hl]; [rewrite Hlen; by apply (par_lt a n)|].
      unfold iv_index. rewrite Hl. cbn [unwrap mbind outcome_bind]. unfold iv_set.
      rewrite decide_True by (by eapply lookup_lt_Some). eexists. split; [reflexivity|].
      split; [by rewrite length_insert|]. intros x k Hx. destruct (decide (a = x)) as [<-|Hax].
      * rewrite list_lookup_insert_eq in Hx by (by eapply lookup_lt_Some). injection Hx as <-. destruct (Hs _ _ Hl) as [Hln Hz]. split.
        -- apply NoDup_app. split_and!; [done| |apply NoDup_singleton]. intros z [Hp _]%Hz ->%list_elem_of_singleton.
           apply (Hnd _ Hp). by left.
        -- intros z. rewrite !elem_of_app, !list_elem_of_singleton, Hz. naive_solver.
      * rewrite list_lookup_insert_ne in Hx by done. destruct (Hs _ _ Hx) as [Hln Hz]. split; [done|].
        intros z. rewrite Hz, elem_of_app, list_elem_of_singleton. naive_solver.
  - exists succs. split_and!; [done..|]. intros x l Hx. destruct (Hs x l Hx) as [Hl Hz]. split; [done|].
    intros z. by rewrite Hz, elem_of_enumerate.
Qed.

Lemma dt_successors_spec x : x < num_nodes g -> exists zs, successors dt x = Ret zs /\ NoDup zs /\
  forall z, z ∈ zs <-> par x z /\ z <> dt_start dt.
Proof.
  clear Hwf. intros Hx. destruct dt_children_spec as (succs & E & Hlen & Hs).
  destruct (lookup_lt_is_Some_2 succs x) as [zs Hzs]; [lia|]. exists zs. split; [|by apply Hs].
  simpl. rewrite E. cbn [mbind outcome_bind]. unfold iv_index. by rewrite Hzs.
Qed.

(** Adding the candidates [ys] to the frontier of [x]. *)
Lemma frontier_add_all x ys : x < num_nodes g -> Forall (fun y => y < num_nodes g) ys -> forall fr,
  length fr = num_nodes g ->
  exists fr', foldM (frontier_add dt x) fr ys = Ret fr' /\ length fr' = num_nodes g /\
    (forall z, z <> x -> fr' !! z = fr !! z) /\
    forall s s', fr !! x = Some s -> fr' !! x = Some s' ->
      forall y, y ∈ s' <-> y ∈ s \/ (y ∈ ys /\ exists a, par a y /\ a <> x).
Proof.
  intros Hx. induction 1 as [|y ys Hy Hys IH]; intros fr Hlen; simpl.
  { exists fr. split_and!; [done..|]. intros s s' -> [= ->]. set_solver. }
  unfold frontier_add at 1, idom, iv_index. destruct (par_total y Hy) as [a Ha]. unfold par in Ha. rewrite Ha.
  cbn [unwrap mbind outcome_bind].
  assert (forall b, par b y -> b = a) as Hdet by (unfold par; intros; congruence).
  destruct (decide (a ≠ x)) as [Hne|Heq].
  - destruct (lookup_lt_is_Some_2 fr x) as [fx Hfx]; [lia|]. rewrite Hfx. cbn [unwrap mbind outcome_bind].
    unfold iv_set. rewrite decide_True by lia.
    destruct (IH (<[x:={[y]} ∪ fx]> fr)) as (fr' & -> & Hlen' & Hoth & Hin); [by rewrite length_insert|].
    exists fr'. split_and!; [done..| |].
    + intros z Hz. rewrite Hoth by done. by rewrite list_lookup_insert_ne.
    + intros s s' Hs Hs' z. simplify_eq.
      rewrite (Hin _ s' (list_lookup_insert_eq fr x _ ltac:(lia)) Hs'), elem_of_union, elem_of_singleton, elem_of_cons.
      split; [|naive_solver]. intros [[->|?]|?]; [right; split; [by left|by exists a]|by left|naive_solver].
  - apply dec_stable in Heq. subst a. destruct (IH fr Hlen) as (fr' & -> & Hlen' & Hoth & Hin).
    exists fr'. split_and!; [done..|]. intros s s' Hs Hs' z. rewrite (Hin s s' Hs Hs'), elem_of_cons.
    split; [naive_solver|]. intros [?|[[->|?] (b & Hb & Hbx)]]; [by left|by apply Hdet in Hb|]. right. eauto.
Qed.

Lemma df_rec_range x y : df_rec x y -> y < num_nodes g.
Proof.
  induction 1 as [x y a He Hx Ha _|x y z a _ _ _ IH _ _]; [|done]. by apply (par_lt a).
Qed.

(** The children loop of [frontier_step]. *)
Lemma frontier_children x zs : x < num_nodes g -> Forall (fun z => z < num_nodes g /\ z <> x) zs -> forall fr,
  length fr = num_nodes g -> (forall z s, z ∈ zs -> fr !! z = Some s -> forall y, y ∈ s -> y < num_nodes g) ->
  exists fr', foldM (fun fr z => fz ← iv_index fr z; foldM (frontier_add dt x) fr (elements fz)) fr zs = Ret fr' /\
    length fr' = num_nodes g /\ (forall z, z <> x -> fr' !! z = fr !! z) /\
    forall s s', fr !! x = Some s -> fr' !! x = Some s' ->
      forall y, y ∈ s' <-> y ∈ s \/ (exists z sz, z ∈ zs /\ fr !! z = Some sz /\ y ∈ sz) /\ exists a, par a y /\ a <> x.
Proof.
  intros Hx. induction 1 as [|z zs [Hz Hzx] Hzs IH]; intros fr Hlen Hrange; simpl.
  { exists fr. split_and!; [done..|]. intros s s' -> [= ->]. set_solver. }
  destruct (lookup_lt_is_Some_2 fr z) as [sz Hsz]; [lia|]. unfold iv_index at 1. rewrite Hsz. cbn [unwrap mbind outcome_bind].
  assert (Forall (fun y => y < num_nodes g) (elements sz)) as Hel.
  { apply Forall_forall. intros y Hy%elem_of_elements. eapply Hrange; [apply list_elem_of_here|done|done]. }
  destruct (frontier_add_all x (elements sz) Hx Hel fr Hlen) as (fr1 & -> & Hlen1 & Hoth1 & Hin1).
  destruct (IH fr1 Hlen1) as (fr2 & -> & Hlen2 & Hoth2 & Hin2).
  { intros w s Hw Hs y Hy. rewrite Forall_forall in Hzs. destruct (Hzs w Hw) as [_ Hwx]. rewrite Hoth1 in Hs by done.
    eapply Hrange; [|done|done]. by apply list_elem_of_further. }
  exists fr2. split_and!; [done|done| |].
  - intros w Hw. by rewrite Hoth2, Hoth1.
  - intros s s' Hs Hs' y. destruct (lookup_lt_is_Some_2 fr1 x) as [s1 Hs1]; [lia|].
    rewrite (Hin2 s1 s' Hs1 Hs'), (Hin1 s s1 Hs Hs1), elem_of_elements. rewrite Forall_forall in Hzs. split.
    + intros [[?|[? ?]]|[(w & sw & Hw & Hsw & ?) ?]]; [by left| |].
      * right. split; [|done]. exists z, sz. split_and!; [apply list_elem_of_here|done..].
      * right. split; [|done]. exists w, sw. rewrite Hoth1 in Hsw by (by apply Hzs).
        split_and!; [by apply list_elem_of_further|done..].
    + intros [?|[(w & sw & [->|Hw]%elem_of_cons & Hsw & ?) ?]]; [auto| |].
      * left. right. simplify_eq. auto.
      * right. split; [|done]. exists w, sw. rewrite Hoth1 by (by apply Hzs). auto.
Qed.

Lemma frontier_new_spec : exists df, DominanceFrontier_new g dt = Ret df /\
  length (frontiers df) = num_nodes g /\
  forall x s, frontiers df !! x = Some s -> forall y, y ∈ s <-> df_rec x y.
Proof.
  unfold DominanceFrontier_new.
  assert (forall x, x ∈ iter_postorder dt <-> x < num_nodes g) as Hpo.
  { intros x. unfold iter_postorder. rewrite sort_by_perm. unfold iter_nodes, num_nodes at 1, DominatorTree_DirectedGraph.
    rewrite (t_len Htree), elem_of_seq. lia. }
  pose proof (sort_by_desc (dfnum_of dt) (iter_nodes dt)) as Hsorted. fold (iter_postorder dt) in Hsorted.
  destruct (foldM_split (frontier_step g dt)
    (fun pre fr => length fr = num_nodes g /\
       forall x s, fr !! x = Some s -> forall y, y ∈ s <-> x ∈ pre /\ df_rec x y)
    (iter_postorder dt) (replicate (num_nodes g) ∅)) as (fr & -> & Hlen & Hfr).
  - split; [apply length_replicate|]. intros x s [-> _]%lookup_replicate. set_solver.
  - intros pre x post fr El [Hlen Hfr].
    assert (x < num_nodes g) as Hx by (apply Hpo; rewrite El; set_solver).
    assert (forall z, par x z -> z <> dt_start dt -> z ∈ pre /\ z < num_nodes g /\ z <> x) as Hpre.
    { intros z Hz Hzs. destruct (t_num Htree x z Hz Hzs) as [_ Hlt]. destruct (par_lt x z Hz) as [_ Hzn].
      split_and!; [|done|intros ->; lia]. assert (z ∈ iter_postorder dt) as Hin by (by apply Hpo).
      rewrite El in Hin, Hsorted. apply elem_of_app in Hin as [|[->|Hin]%elem_of_cons]; [done|lia|].
      exfalso. assert (StronglySorted (fun a b => dfnum_of dt b <= dfnum_of dt a) (x :: post)) as Hss.
      { revert Hsorted. clear. induction pre as [|w pre IH]; [done|]. simpl. intros Hsorted.
        apply IH. by apply StronglySorted_inv in Hsorted as [? _]. }
      apply StronglySorted_inv in Hss as [_ Hall]. rewrite Forall_forall in Hall. specialize (Hall z Hin). simpl in Hall. lia. }
    unfold frontier_step. destruct (Hwf x) as (ss & Ess & Hss); [by apply elem_of_node_set|]. rewrite Ess.
    cbn [mbind outcome_bind].
    assert (Forall (fun y => y < num_nodes g) ss) as Hssr by (apply Forall_forall; intros y Hy; by apply elem_of_node_set, Hss).
    destruct (frontier_add_all x ss Hx Hssr fr Hlen) as (fr1 & -> & Hlen1 & Hoth1 & Hin1). cbn [mbind outcome_bind].
    destruct (dt_successors_spec x Hx) as (zs & -> & _ & Hch).
    cbn [mbind outcome_bind].
    assert (Forall (fun z => z < num_nodes g /\ z <> x) zs) as Hzr.
    { apply Forall_forall. intros z [Hz Hzn]%Hch. destruct (Hpre z Hz Hzn) as (_ & ? & ?). done. }
    destruct (frontier_children x zs Hx Hzr fr1 Hlen1) as (fr2 & -> & Hlen2 & Hoth2 & Hin2).
    { intros z s Hz Hs y Hy. rewrite Forall_forall in Hzr. destruct (Hzr z Hz) as [_ Hzx]. rewrite Hoth1 in Hs by done.
      apply (Hfr z s Hs) in Hy as [_ Hy]. by eapply df_rec_range. }
    exists fr2. split_and!; [done..|]. intros w s Hs y. rewrite elem_of_app, list_elem_of_singleton.
    destruct (decide (w = x)) as [->|Hwx].
    + destruct (lookup_lt_is_Some_2 fr x) as [s0 Hs0]; [lia|]. destruct (lookup_lt_is_Some_2 fr1 x) as [s1 Hs1]; [lia|].
      rewrite (Hin2 s1 s Hs1 Hs), (Hin1 s0 s1 Hs0 Hs1), (Hfr x s0 Hs0). rewrite Forall_forall in Hzr. split.
      * intros [[[_ ?]|[Hy (a & Ha & Hax)]]|[(z & sz & Hz & Hsz & Hy) (a & Ha & Hax)]]; (split; [by right|]).
        -- done.
        -- eapply df_local; [by exists ss|done..].
        -- rewrite Hoth1 in Hsz by (by apply Hzr). apply (Hfr z sz Hsz) in Hy as [_ Hy].
           apply Hch in Hz as [? ?]. by eapply df_up.
      * intros [_ Hd]. inversion Hd as [? ? a He ? Ha Hax|? ? z a Hxz Hzn Hzy Ha Hax]; subst.
        -- left. right. destruct He as (l & El' & Hy). assert (l = ss) as -> by congruence. eauto.
        -- right. split; [|eauto]. destruct (Hpre z Hxz Hzn) as (Hzp & Hzlt & Hzx).
           destruct (lookup_lt_is_Some_2 fr z) as [sz Hsz]; [lia|]. exists z, sz. rewrite Hoth1 by done.
           split_and!; [by apply Hch|done|]. by apply (Hfr z sz Hsz).
    + rewrite Hoth2, Hoth1 in Hs by done. rewrite (Hfr w s Hs). naive_solver.
  - simpl. eexists. split; [reflexivity|]. simpl. split; [done|]. intros x s Hs y. rewrite (Hfr x s Hs).
    split; [naive_solver|]. intros Hd. split; [|done]. apply Hpo. rewrite <- Hlen. by eapply lookup_lt_Some.
Qed.
End frontier_correct.


(** The diamond [0 -> 1, 2 -> 3]: node 3 is in the frontier of node 1. *)
Definition diamond : FlowGraph := {| fg_succ := [[1; 2]; [3]; [3]; []] |}.
Definition diamond_tree : DominatorTree := {| dt_start := 0; dt_idom := [0; 0; 0; 0]; dt_dfnum := [0; 3; 1; 2] |}.

Lemma diamond_par a b : par diamond_tree a b <-> a = 0 /\ b < 4.
Proof. unfold par. do 4 (destruct b as [|b]; [simpl; split; [intros [= <-]; lia|intros [-> _]; done]|]). simpl. split; [done|lia]. Qed.

