(* ===== verification/LengauerTarjan.v ===== *)
(** * LengauerTarjan: what [DomImpl] computes ([ctadl-ir/src/graph/dominators/mod.rs])

    The code of [Dominators] is Lengauer and Tarjan's algorithm.  This file proves what its tree
    says: every recorded parent dominates its node, and is the immediate dominator or the start
    node.  First the theory of semidominators over a numbered depth-first tree, then the facts of
    the tree that [dfs] builds, then the link-eval forest with its path compression, then the
    loops of [semidom] and [dom]. *)

From S2P Require Import Prelude Index Graph Dominators.

(** ** Semidominators over a depth-first tree *)

(** A path of one edge or more from [x] to the last argument whose interior vertices have
    numbers above [k]. *)
Inductive high_path (E : relation nat) (num : nat -> nat) (k : nat) (x : nat) : nat -> Prop :=
| hp_one y : E x y -> high_path E num k x y
| hp_step y z : high_path E num k x y -> k < num y -> E y z -> high_path E num k x z.

(** Reached from [r] without visiting [d]. *)
Inductive avoids (E : relation nat) (r d : nat) : nat -> Prop :=
| av_root : r <> d -> avoids E r d r
| av_step y z : avoids E r d y -> E y z -> z <> d -> avoids E r d z.

(** A depth-first spanning tree with its preorder numbers: an edge to a higher number leads to a
    descendant, and the numbers of the descendants of a node are an interval. *)
Record dfs_tree (E : relation nat) (num : nat -> nat) (tp : relation nat) (r : nat) (V : nat -> Prop) : Prop := {
  dt_inj : forall x y, V x -> V y -> num x = num y -> x = y;
  dt_edge : forall x y, V x -> E x y -> V y;
  dt_par : forall q n, tp q n -> E q n /\ num q < num n /\ V q /\ V n;
  dt_fun : forall q q' n, tp q n -> tp q' n -> q = q';
  dt_cross : forall x y, V x -> E x y -> num x < num y -> rtc tp x y;
  dt_interval : forall a m b, V m -> V b -> rtc tp a b -> num a <= num m -> num m <= num b -> rtc tp a m;
  dt_reach : forall n, V n -> rtc tp r n;
  dt_root : V r;
}.

Section semidominators.
Context (E : relation nat) (num : nat -> nat) (tp : relation nat) (r : nat) (V : nat -> Prop).
Hypothesis T : dfs_tree E num tp r V.
Notation anc := (rtc tp).

Lemma anc_num a b : anc a b -> a = b \/ num a < num b.
Proof.
  induction 1 as [|a c b Hac _ IH]; [by left|]. right. apply (dt_par _ _ _ _ _ T) in Hac as (_ & ? & _). destruct IH as [->|]; lia.
Qed.

Lemma anc_le a b : anc a b -> num a <= num b.
Proof. intros [->|]%anc_num; lia. Qed.

Lemma anc_V a b : anc a b -> V b -> V a.
Proof. intros [->|(c & Hc & _)]%rtc_inv Hb; [done|]. apply (dt_par _ _ _ _ _ T) in Hc. tauto. Qed.

Lemma root_num n : V n -> num r <= num n.
Proof. intros Hn. apply anc_le. by apply (dt_reach _ _ _ _ _ T). Qed.

(** Tree paths below a vertex stay above its number. *)
Lemma hp_tree k x u v : high_path E num k x u -> k < num u -> anc u v -> high_path E num k x v.
Proof.
  intros Hp Hk Hv. revert Hp Hk. induction Hv as [|u w v Huw _ IH]; intros Hp Hk; [done|].
  apply (dt_par _ _ _ _ _ T) in Huw as (He & Hn & _). apply IH; [by eapply hp_step|lia].
Qed.

Lemma hp_weaken k k' x y : high_path E num k x y -> k' <= k -> high_path E num k' x y.
Proof. intros Hp Hk. induction Hp as [y He|y z _ IH Hy He]; [by apply hp_one|]. eapply hp_step; [exact IH|lia|done]. Qed.

Lemma hp_V k x y : V x -> high_path E num k x y -> V y.
Proof. intros Hx. induction 1 as [y He|y z _ IH _ He]; by eapply (dt_edge _ _ _ _ _ T). Qed.

(** A high path to [z] enters the tree path to [z] at a vertex [y] by a path above [y]. *)
Lemma hp_enter k x z : V x -> high_path E num k x z -> k < num z ->
  exists y, anc y z /\ k < num y /\ high_path E num (num y) x y.
Proof.
  intros Hx. induction 1 as [z He|y0 z Hp IH Hy0 He]; intros Hz.
  { exists z. split; [done|]. split; [done|]. by apply hp_one. }
  destruct (IH Hy0) as (y & Hy & Hk & Hxy). pose proof (hp_V _ _ _ Hx Hp) as HV0. pose proof (dt_edge _ _ _ _ _ T _ _ HV0 He) as HVz.
  destruct (decide (num y0 < num z)) as [Hlt|Hge].
  { exists y. split; [|done]. etrans; [exact Hy|]. by apply (dt_cross _ _ _ _ _ T). }
  destruct (decide (num y <= num z)) as [Hle|Hgt].
  { exists y. split; [|done]. apply (dt_interval _ _ _ _ _ T y z y0); auto. lia. }
  pose proof (anc_le _ _ Hy). exists z. split; [done|]. split; [done|]. apply (hp_step _ _ _ _ y0); [|lia|done].
  apply (hp_tree _ _ y); [|lia|done]. eapply hp_weaken; [exact Hxy|lia].
Qed.

(** Leaving the vertices below [d] for [v] without visiting [d]. *)
Lemma avoids_enter d v : V d -> avoids E r d v -> num d < num v ->
  exists x, V x /\ num x < num d /\ high_path E num (num d) x v.
Proof.
  intros Hd Hv. assert (V v /\ (num v <= num d -> num v < num d) /\
    (num d < num v -> exists x, V x /\ num x < num d /\ high_path E num (num d) x v)) as (_ & _ & H); [|exact H].
  induction Hv as [Hne|y z _ (HVy & Hle & IH) He Hne].
  - pose proof (root_num d Hd). split; [apply T|]. split; [|lia]. intros _. destruct (decide (num r = num d)) as [E0|]; [|lia].
    by apply (dt_inj _ _ _ _ _ T) in E0; [|apply T|].
  - assert (V z) as HVz by (by eapply (dt_edge _ _ _ _ _ T)). split; [done|]. split.
    + intros Hz. destruct (decide (num z = num d)) as [E0|]; [|lia]. by apply (dt_inj _ _ _ _ _ T) in E0.
    + intros Hz. destruct (decide (num y <= num d)) as [Hy|Hy].
      * exists y. split; [done|]. split; [auto|]. by apply hp_one.
      * destruct IH as (x & Hx & Hxd & Hp); [lia|]. exists x. split; [done|]. split; [done|]. eapply hp_step; [exact Hp|lia|done].
Qed.

Lemma avoids_tree d u v : avoids E r d u -> num d < num u -> anc u v -> avoids E r d v.
Proof.
  intros Hu Hd Hv. revert Hu Hd. induction Hv as [|u w v Huw _ IH]; intros Hu Hd; [done|].
  apply (dt_par _ _ _ _ _ T) in Huw as (He & Hn & _). apply IH; [|lia]. eapply av_step; [done..|]. intros ->. lia.
Qed.

Lemma avoids_high d k x y : avoids E r d x -> high_path E num k x y -> num d <= k -> y <> d -> avoids E r d y.
Proof.
  intros Hx Hp Hk. induction Hp as [y He|y z _ IH Hy He]; intros Hne; [by eapply av_step|].
  eapply av_step; [apply IH|done|done]. intros ->. lia.
Qed.

(** A vertex with a smaller number is reached without [d]. *)
Lemma avoids_low d x : V x -> num x < num d -> avoids E r d x.
Proof.
  intros Hx. refine (rtc_ind_r (fun x => num x < num d -> avoids E r d x) r _ _ x (dt_reach _ _ _ _ _ T x Hx)).
  - intros Hd. apply av_root. intros ->. lia.
  - intros y z _ Hyz IH Hd. apply (dt_par _ _ _ _ _ T) in Hyz as (He & Hn & ? & ?). eapply av_step; [apply IH; lia|done|]. intros ->. lia.
Qed.

(** ** The dominator theorem *)

Section dominators.
Variable semi : nat -> nat.

(** [semi u] starts a high path to [u], and no start has a smaller number. *)
Record semidominator (u : nat) : Prop := {
  sd_V : V u;
  sd_anc : anc (semi u) u;
  sd_ne : semi u <> u;
  sd_path : high_path E num (num u) (semi u) u;
  sd_low : forall x, V x -> high_path E num (num u) x u -> num (semi u) <= num x;
}.

Lemma sd_lt u : semidominator u -> num (semi u) < num u.
Proof. intros [_ Ha Hne _ _]. destruct (anc_num _ _ Ha); [done|lia]. Qed.

(** A strict dominator of [v] is at or above its semidominator. *)
Lemma strict_dominator_num d v : semidominator v -> V d -> d <> v -> ~ avoids E r d v -> num d <= num (semi v).
Proof.
  intros Hs Hd Hne Hav. pose proof (sd_lt v Hs) as Hlt. destruct Hs as [HV Ha Hn Hp _]. apply Nat.nlt_ge. intros Hl.
  apply Hav. destruct (decide (num d <= num v)) as [Hle|Hgt]; [|apply avoids_low; [done|lia]].
  eapply avoids_high; [|exact Hp|done|done]. apply avoids_low; [by eapply anc_V|done].
Qed.

(** Clause 1: no vertex between has a smaller semidominator. *)
Lemma dominator_clause1 v : semidominator v ->
  (forall u, anc u v -> num (semi v) < num u -> semidominator u /\ num (semi v) <= num (semi u)) -> ~ avoids E r (semi v) v.
Proof.
  intros Hs Hu Hav. pose proof (sd_lt v Hs) as Hlt. assert (V (semi v)) as HV by (destruct Hs; by eapply anc_V).
  destruct (avoids_enter _ _ HV Hav Hlt) as (x & Hx & Hxd & Hp). destruct (hp_enter _ _ _ Hx Hp Hlt) as (y & Hy & Hyn & Hxy).
  destruct (Hu y Hy Hyn) as [Hsy Hle]. pose proof (sd_low _ Hsy x Hx Hxy). lia.
Qed.

(** Clause 2: the dominator of a vertex between that has the smallest semidominator. *)
Lemma dominator_clause2 v y : semidominator v -> semidominator y -> anc y v -> num (semi v) < num y ->
  (forall u, anc u v -> num (semi v) < num u -> semidominator u /\ num (semi y) <= num (semi u)) ->
  ~ avoids E r (semi y) y -> ~ avoids E r (semi y) v.
Proof.
  intros Hsv Hsy Hyv Hvy Hu Hd Hav. pose proof (sd_lt y Hsy) as Hlt. pose proof (anc_le _ _ Hyv) as Hle.
  assert (V (semi y)) as HV by (destruct Hsy; by eapply anc_V).
  destruct (avoids_enter (semi y) v) as (x & Hx & Hxd & Hp); [done..|lia|].
  destruct (hp_enter _ _ _ Hx Hp) as (u & Huv & Hun & Hxu); [lia|].
  destruct (decide (num (semi v) < num u)) as [Hbelow|Habove].
  { destruct (Hu u Huv Hbelow) as [Hsu Hm]. pose proof (sd_low _ Hsu x Hx Hxu). lia. }
  apply Hd. apply (avoids_tree _ u); [|done|].
  - eapply avoids_high; [|exact Hxu|lia|]; [by apply avoids_low|]. intros ->. lia.
  - apply (dt_interval _ _ _ _ _ T u y v); [apply Hsy|apply Hsv|done|lia|done].
Qed.

(** The dominators that the two clauses give are immediate. *)
Lemma clause1_immediate d v : semidominator v -> V d -> d <> v -> ~ avoids E r d v -> ~ avoids E r d (semi v).
Proof.
  intros Hs Hd Hne Hav Ha. apply Hav. pose proof (strict_dominator_num d v Hs Hd Hne Hav). pose proof (sd_lt v Hs).
  eapply avoids_high; [exact Ha|apply Hs|lia|done].
Qed.

Lemma clause2_immediate d v y : semidominator v -> semidominator y -> anc y v -> num (semi v) < num y ->
  V d -> d <> v -> ~ avoids E r d v -> ~ avoids E r d (semi y).
Proof.
  intros Hsv Hsy Hyv Hvy Hd Hne Hav Ha. apply Hav. pose proof (strict_dominator_num d v Hsv Hd Hne Hav).
  apply (avoids_tree _ y); [|lia|done]. eapply avoids_high; [exact Ha|apply Hsy|lia|]. intros ->. lia.
Qed.
End dominators.
End semidominators.

(** ** The tree of [dfs] *)

Definition tpar (par : list (option nat)) (q n : nat) : Prop := par !! n = Some (Some q).

Lemma tpar_insert par n p q m : n < length par -> tpar (<[n := p]> par) q m <-> (m = n /\ p = Some q) \/ (m <> n /\ tpar par q m).
Proof.
  intros Hn. unfold tpar. destruct (decide (n = m)) as [<-|Hne].
  - rewrite list_lookup_insert_eq by done. naive_solver.
  - rewrite list_lookup_insert_ne by done. naive_solver.
Qed.

Section dfs_tree_inv.
Context `{Successors G} `{!StartNode G}.
Variable g : G.
Notation edge := (edge (successors g)).

(** The stack below an entry belongs to ancestors of the entry's parent, and what is not on the
    stack is finished. *)
Record dfs_inv (nodes : list (nat * option nat)) (acc : list nat) (par : list (option nat)) : Prop := {
  di_first : acc = [] -> exists n, nodes = [(n, None)];
  di_last : forall e l, e ∈ nodes -> last acc = Some l -> exists q, e.2 = Some q /\ rtc (tpar par) q l;
  di_sorted : StronglySorted (fun e1 e2 : nat * option nat =>
    forall q1 q2, e1.2 = Some q1 -> e2.2 = Some q2 -> rtc (tpar par) q2 q1) nodes;
  di_pending : forall x y, x ∈ acc -> edge x y -> y ∉ acc -> (y, Some x) ∈ nodes;
  di_cross : forall i j x y, acc !! i = Some x -> acc !! j = Some y -> edge x y -> i < j -> rtc (tpar par) x y;
  di_step : forall i x y, acc !! i = Some x -> acc !! S i = Some y -> exists q, tpar par q y /\ rtc (tpar par) q x;
  di_dom : forall q n, tpar par q n -> n ∈ acc;
}.

Lemma dfs_inv_visit : visit_inv g dfs_inv.
Proof.
  split.
  - intros n p nodes acc par Hn [Hf Hl Hs Hp Hc Hst Hd]. split; auto.
    + intros ->. by apply elem_of_nil in Hn.
    + intros e l He. apply Hl. by apply list_elem_of_further.
    + by inversion Hs.
    + intros x y Hx He Hy. pose proof (Hp x y Hx He Hy) as Hin. apply elem_of_cons in Hin as [[= -> _]|]; done.
  - intros n p nodes acc par succs Hn Hlt Es [Hf Hl Hs Hp Hc Hst Hd].
    assert (forall q m, tpar par q m -> tpar (<[n := p]> par) q m) as Hmono.
    { intros q m Hq. apply tpar_insert; [done|]. right. split; [|done]. intros ->. by apply Hn, Hd with q. }
    assert (forall a b, rtc (tpar par) a b -> rtc (tpar (<[n := p]> par)) a b) as Hrtc.
    { intros a b Hab. eapply (rtc_congruence id); [|exact Hab]. exact Hmono. }
    assert (forall q, p = Some q -> tpar (<[n := p]> par) q n) as Hnew by (intros q ->; apply tpar_insert; auto).
    assert (forall l, last acc = Some l -> exists q, p = Some q /\ rtc (tpar par) q l) as Hp0.
    { intros l E. apply (Hl (n, p) l); [apply list_elem_of_here|done]. }
    apply StronglySorted_inv in Hs as [Hs Hall]. rewrite Forall_forall in Hall.
    assert (forall e q2, e ∈ nodes -> e.2 = Some q2 -> rtc (tpar (<[n := p]> par)) q2 n) as Hbelow.
    { intros e q2 He Eq. destruct (last acc) as [l|] eqn:El.
      - destruct (Hp0 l eq_refl) as (q0 & -> & _). eapply rtc_r; [|by apply Hnew]. by apply Hrtc, (Hall e He).
      - apply last_None in El. destruct (Hf El) as [n' [= -> -> ->]]. by apply elem_of_nil in He. }
    assert (forall e, e ∈ nodes -> exists q2, e.2 = Some q2) as Hsome.
    { intros e He. destruct (last acc) as [l|] eqn:El.
      - destruct (Hl e l) as (q & ? & _); [by apply list_elem_of_further|done|eauto].
      - apply last_None in El. destruct (Hf El) as [n' [= -> -> ->]]. by apply elem_of_nil in He. }
    split.
    + intros []%app_nil. done.
    + intros e l He. rewrite last_snoc. intros [= <-]. apply elem_of_app in He as [(w & -> & _)%elem_of_map|He]; [by exists n|].
      destruct (Hsome e He) as [q2 Eq]. eauto.
    + apply StronglySorted_app. split_and!.
      * intros e1 e2 (w & -> & _)%elem_of_map He q1 q2 [= <-] E2. eauto.
      * clear. induction (rev succs) as [|w l IH]; simpl; constructor; [done|]. apply Forall_forall.
        intros e (w' & -> & _)%elem_of_map q1 q2 [= <-] [= <-]. done.
      * clear -Hs Hrtc. induction Hs as [|e l _ IH Hl]; constructor; [done|]. eapply Forall_impl; [exact Hl|]. simpl. intros. eauto.
    + intros x y Hx He Hy. apply not_elem_of_app in Hy as [Hy Hyn]. apply elem_of_app in Hx as [Hx| ->%list_elem_of_singleton].
      * pose proof (Hp x y Hx He Hy) as Hin. apply elem_of_cons in Hin as [[= -> _]|Hin]; [set_solver|]. apply elem_of_app. by right.
      * destruct He as (l' & El & Hin). assert (l' = succs) as -> by congruence. apply elem_of_app. left.
        apply elem_of_map. exists y. split; [done|]. by rewrite <- Permutation_rev.
    + intros i j x y Hi Hj He Hij. apply lookup_app_Some in Hj as [Hj|[Hj Hy]].
      * rewrite lookup_app_l in Hi by (apply lookup_lt_Some in Hj; lia). eauto.
      * apply list_lookup_singleton_Some in Hy as [Hj0 <-]. rewrite lookup_app_l in Hi by lia.
        assert ((n, Some x) ∈ (n, p) :: nodes) as Hin by (apply Hp; [by eapply list_elem_of_lookup_2|done..]).
        apply elem_of_cons in Hin as [[= <-]|Hin].
        -- apply rtc_once. auto.
        -- by eapply Hbelow.
    + intros i x y Hi Hj. apply lookup_app_Some in Hj as [Hj|[Hj Hy]].
      * rewrite lookup_app_l in Hi by (apply lookup_lt_Some in Hj; lia). destruct (Hst i x y Hi Hj) as (q & ? & ?). eauto.
      * apply list_lookup_singleton_Some in Hy as [Hj0 <-]. rewrite lookup_app_l in Hi by lia.
        destruct (Hp0 x) as (q & -> & Hq); [|by eauto]. rewrite last_lookup. by replace (pred (length acc)) with i by lia.
    + intros q m [[-> _]|[_ Hq]]%tpar_insert; [set_solver|apply elem_of_app; left; eauto|done].
Qed.
End dfs_tree_inv.

Lemma rtc_tpar_inv par a b : rtc (tpar par) a b -> a = b \/ exists q, rtc (tpar par) a q /\ tpar par q b.
Proof. intros [->|(q & ? & ?)]%rtc_inv_r; eauto. Qed.

Section dfs_result.
Context `{Successors G} `{!StartNode G} `{!Predecessors G}.
Variable g : G.
Hypothesis Hwf : graph_wf g.
Hypothesis Hstart : start_node g < num_nodes g.
Hypothesis Hreach : forall n, n < num_nodes g -> reaches g (start_node g) n.

(** The depth-first number of a node. *)
Definition dfn (df : list nat) (x : nat) : nat := default 0 (df !! x).

Record numbered (df vx : list nat) (par : list (option nat)) : Prop := {
  nb_df : length df = num_nodes g;
  nb_vx : length vx = num_nodes g;
  nb_par : length par = num_nodes g;
  nb_inv : forall i n, vx !! i = Some n <-> df !! n = Some i;
  nb_start : df !! start_node g = Some 0;
  nb_parent : forall n, n < num_nodes g -> n <> start_node g -> exists q, tpar par q n;
  nb_tree : dfs_tree (edge (successors g)) (dfn df) (tpar par) (start_node g) (fun x => x < num_nodes g);
}.

Lemma dfs_interval (r df vx : list nat) par : dfs_inv g [] r par ->
  (forall i n, r !! i = Some n <-> df !! n = Some i) -> (forall q n, tpar par q n -> dfn df q < dfn df n) ->
  forall k j a m b, r !! j = Some m -> r !! (j + k) = Some b -> rtc (tpar par) a b -> dfn df a <= j -> rtc (tpar par) a m.
Proof.
  intros Hinv Hrd Hlt. induction k as [|k IH]; intros j a m b Hm Hb Hab Ha.
  { rewrite Nat.add_0_r in Hb. by simplify_eq. }
  destruct (lookup_lt_is_Some_2 r (j + k)) as [b' Hb']; [apply lookup_lt_Some in Hb; lia|].
  apply (IH j a m b'); [done..| |done]. rewrite Nat.add_succ_r in Hb.
  destruct (di_step _ _ _ _ Hinv _ _ _ Hb' Hb) as (q & Hq & Hqb). etrans; [|exact Hqb].
  apply rtc_tpar_inv in Hab as [->|(q' & Haq & Hq')].
  - apply Hrd in Hb. unfold dfn in Ha. rewrite Hb in Ha. simpl in Ha. lia.
  - unfold tpar in *. congruence.
Qed.

Lemma dfs_numbered fuel : search_fuel (successors g) (node_set g) <= fuel ->
  exists df vx par, numbered df vx par /\ dfs fuel g (DomImpl_new g) =
    Ret (mk_dom df vx par (semi (DomImpl_new g)) (samedom (DomImpl_new g)) (bucket (DomImpl_new g))
           (ancestor (DomImpl_new g)) (best (DomImpl_new g)) (dom (DomImpl_new g))).
Proof.
  intros Hf. destruct (dfs_new_correct g Hwf Hstart (dfs_inv g) fuel (dfs_inv_visit g))
    as (r & df & vx & par & Hnum & Hnd & Hinv & Hr & E); [|done|].
  { split; [eauto|done|repeat constructor|by intros ? ? ?%elem_of_nil|done|done|].
    intros q n Hq. unfold tpar in Hq. apply lookup_replicate in Hq as [? _]. done. }
  assert (r ≡ₚ seq 0 (num_nodes g)) as Hperm.
  { apply NoDup_Permutation; [done|apply NoDup_seq|]. intros x. rewrite Hr, elem_of_seq. split.
    - intros Hx. pose proof (reaches_in_range g _ x Hwf Hstart Hx). lia.
    - intros [_ ?]. by apply Hreach. }
  assert (length r = num_nodes g) as Hlen by (rewrite Hperm; apply length_seq).
  rewrite decide_True in E by done. exists df, vx, par. split; [|exact E]. clear E. destruct Hnum as [Hdf Hvx Hpar Hnum].
  assert (vx = r) as ->.
  { apply list_eq. intros i. destruct (r !! i) as [n|] eqn:Ei; [by apply Hnum|].
    apply lookup_ge_None in Ei. apply lookup_ge_None. lia. }
  assert (forall x, x < num_nodes g -> exists i, r !! i = Some x) as Hex.
  { intros x Hx. apply list_elem_of_lookup. rewrite Hperm. apply elem_of_seq. lia. }
  assert (forall i n, r !! i = Some n <-> df !! n = Some i) as Hiff.
  { intros i n. split; [apply Hnum|]. intros Hn. pose proof (lookup_lt_Some _ _ _ Hn) as Hlt.
    destruct (Hex n) as [j Hj]; [lia|]. destruct (Hnum _ _ Hj) as (Hn' & _). rewrite Hn in Hn'. by simplify_eq. }
  assert (forall i x, r !! i = Some x -> dfn df x = i /\ x < num_nodes g) as Hdfn.
  { intros i x Hi%Hiff. unfold dfn. rewrite Hi. apply lookup_lt_Some in Hi. split; [done|lia]. }
  assert (forall q n, tpar par q n -> edge (successors g) q n /\ dfn df q < dfn df n /\ q < num_nodes g /\ n < num_nodes g) as Htp.
  { intros q n Hq. destruct (Hex n) as [i Hi]; [apply lookup_lt_Some in Hq; lia|].
    destruct (Hnum _ _ Hi) as (_ & _ & p & Hp & Hok). unfold tpar in Hq. simplify_eq. destruct Hok as (He & j & Hj & Hq').
    destruct (Hdfn _ _ Hi), (Hdfn _ _ Hq'). split_and!; [done|lia|done..]. }
  assert (forall n, n < num_nodes g -> n <> start_node g -> exists q, tpar par q n) as Hparent.
  { intros n Hn Hne. destruct (Hex n Hn) as [i Hi]. destruct (Hnum _ _ Hi) as (_ & _ & [q|] & Hp & Hok); [by exists q|done]. }
  split; auto.
  - apply Hiff. destruct (lookup_lt_is_Some_2 r 0) as [x Hx]; [lia|]. destruct (Hnum _ _ Hx) as (_ & _ & [q|] & Hp & Hok).
    + destruct Hok as (_ & j & ? & _). lia.
    + simpl in Hok. by subst.
  - assert (forall x y, x < num_nodes g -> y < num_nodes g -> dfn df x = dfn df y -> x = y) as Hinj.
    { intros x y [i Hi]%Hex [j Hj]%Hex Exy. destruct (Hdfn _ _ Hi) as [<- _], (Hdfn _ _ Hj) as [<- _]. rewrite Exy in Hi. congruence. }
    split; auto.
    + intros x y Hx He. eapply (reaches_in_range g x); [done..|]. by apply rtc_once.
    + unfold tpar. intros q q' n ? ?. congruence.
    + intros x y Hx He Hxy. destruct (Hex x Hx) as [i Hi]. destruct (Hex y) as [j Hj].
      { eapply (reaches_in_range g x); [done..|]. by apply rtc_once. }
      destruct (Hdfn _ _ Hi), (Hdfn _ _ Hj). eapply (di_cross _ _ _ _ Hinv i j); [done..|]. lia.
    + intros a m b Hm Hb Hab Ham Hmb. destruct (Hex m Hm) as [j Hj]. destruct (Hex b Hb) as [k Hk].
      destruct (Hdfn _ _ Hj), (Hdfn _ _ Hk). eapply (dfs_interval r df r par Hinv Hiff) with (k := k - j) (j := j) (b := b); auto.
      * intros q n Hq. by apply Htp.
      * by replace (j + (k - j)) with k by lia.
      * lia.
    + intros n. remember (dfn df n) as k eqn:Ek. revert n Ek. induction (lt_wf k) as [k _ IH]. intros n -> Hn.
      destruct (decide (n = start_node g)) as [->|Hne]; [done|]. destruct (Hparent n Hn Hne) as [q Hq].
      destruct (Htp q n Hq) as (_ & Hlt & Hqn & _). eapply rtc_r; [|exact Hq]. by eapply IH.
Qed.
End dfs_result.

(** ** The link-eval forest *)

Section forest.
Context `{Successors G} `{!StartNode G} `{!Predecessors G}.
Variable g : G.
Hypothesis Hstart : start_node g < num_nodes g.
Context (df vx : list nat) (par : list (option nat)).
Hypothesis Hnb : numbered g df vx par.
Notation N := (num_nodes g).
Notation num := (dfn df).
Notation anc := (rtc (tpar par)).
Notation T := (nb_tree _ _ _ _ Hnb).

Definition sm (d : DomImpl) (x : nat) : nat := default 0 (semi d !! x).

(** The fields that evaluation does not touch. *)
Definition same_but_forest (d d' : DomImpl) : Prop :=
  d' = set_best (set_ancestor d (ancestor d')) (best d').

(** The nodes numbered from [k] on are linked.  [best x] is a linked ancestor of [x] whose
    semidominator is no higher than those between [x] and [ancestor x]; it may lie beyond
    [ancestor x], since compression keeps the link that was there before the recursion. *)
Record forest (k : nat) (d : DomImpl) : Prop := {
  fo_df : dfnum d = df;
  fo_anc : length (ancestor d) = N;
  fo_best : length (best d) = N;
  fo_semi : length (semi d) = N;
  fo_range : forall x, x < N -> sm d x < N;
  fo_none : forall x, x < N -> num x < k -> ancestor d !! x = Some None;
  fo_some : forall x, x < N -> k <= num x -> exists a b, ancestor d !! x = Some (Some a) /\ best d !! x = Some b /\
    anc a x /\ a <> x /\ anc b x /\ k <= num b /\
    forall z, anc a z -> z <> a -> anc z x -> k <= num z /\ num (sm d b) <= num (sm d z);
}.

Lemma num_lt x : x < N -> num x < N.
Proof.
  intros Hx. destruct (lookup_lt_is_Some_2 df x) as [i Hi]; [by rewrite (nb_df _ _ _ _ Hnb)|]. unfold dfn. rewrite Hi. simpl.
  apply (nb_inv _ _ _ _ Hnb), lookup_lt_Some in Hi. by rewrite (nb_vx _ _ _ _ Hnb) in Hi.
Qed.

Lemma df_index x : x < N -> iv_index df x = Ret (num x).
Proof.
  intros Hx. destruct (lookup_lt_is_Some_2 df x) as [i Hi]; [by rewrite (nb_df _ _ _ _ Hnb)|]. unfold dfn, iv_index. by rewrite Hi.
Qed.

Lemma semi_index k d x : forest k d -> x < N -> iv_index (semi d) x = Ret (sm d x).
Proof.
  intros Hd Hx. destruct (lookup_lt_is_Some_2 (semi d) x) as [i Hi]; [by rewrite (fo_semi _ _ Hd)|]. unfold sm, iv_index. by rewrite Hi.
Qed.

Lemma forest_below k d x a : forest k d -> x < N -> anc a x -> num a < k -> forall z, anc z x -> k <= num z -> anc a z /\ z <> a.
Proof.
  intros Hd Hx Ha Hk z Hz Hkz. split; [|intros ->; lia]. apply (dt_interval _ _ _ _ _ T a z x); auto; [|lia|by eapply (anc_le _ _ _ _ _ T)].
  by eapply (anc_V _ _ _ _ _ T).
Qed.

Lemma anc_trichotomy x a z : x < N -> anc a x -> anc z x -> anc z a \/ (anc a z /\ z <> a).
Proof.
  intros Hx Ha Hz. destruct (decide (num z <= num a)) as [Hle|Hgt].
  - left. apply (dt_interval _ _ _ _ _ T z a x); auto; [by eapply (anc_V _ _ _ _ _ T)|by eapply (anc_le _ _ _ _ _ T)].
  - right. split; [|intros ->; lia]. apply (dt_interval _ _ _ _ _ T a z x); auto; [by eapply (anc_V _ _ _ _ _ T)|lia|by eapply (anc_le _ _ _ _ _ T)].
Qed.

(** Pointing [v] at its grandparent, with a best that covers all of its linked ancestors. *)
Lemma forest_compress k d v a a' u anc' bs' : forest k d -> v < N -> k <= num v ->
  anc a' a -> a' <> a -> anc a v -> a <> v -> anc u v -> k <= num u ->
  (forall z, anc a' z -> z <> a' -> anc z v -> k <= num z) ->
  (forall z, anc z v -> k <= num z -> num (sm d u) <= num (sm d z)) ->
  anc' = <[v := Some a']> (ancestor d) -> bs' = <[v := u]> (best d) ->
  forest k (set_best (set_ancestor d anc') bs').
Proof.
  intros Hd Hv Hk Ha' Hne' Ha Hne Hu Hku Hlk Hmin -> ->. pose proof Hd as [H1 H2 H3 H4 H5 H6 H7].
  split; simpl; rewrite ?length_insert; auto.
  - intros x Hx Hxk. rewrite list_lookup_insert_ne; [auto|]. intros ->. lia.
  - intros x Hx Hxk. destruct (decide (v = x)) as [<-|Hvx].
    + exists a', u. rewrite !list_lookup_insert_eq by lia. split_and!; auto; [by etrans| |].
      * intros ->. pose proof (anc_num _ _ _ _ _ T _ _ Ha). pose proof (anc_num _ _ _ _ _ T _ _ Ha'). intuition (congruence || lia).
      * intros z Hz1 Hz2 Hz3. split; [auto|]. unfold sm. simpl. apply Hmin; auto.
    + destruct (H7 x Hx Hxk) as (b & c & ? & ? & ? & ? & ? & ? & Hz). exists b, c. rewrite !list_lookup_insert_ne by done. auto 10.
Qed.

Lemma same_trans d1 d2 d3 : same_but_forest d1 d2 -> same_but_forest d2 d3 -> same_but_forest d1 d3.
Proof. unfold same_but_forest. intros -> ->. done. Qed.

Lemma same_semi d d' : same_but_forest d d' -> semi d' = semi d.
Proof. unfold same_but_forest. by intros ->. Qed.

(** What evaluation of [v] promises: [u] is a linked ancestor of [v] with the lowest
    semidominator, and only entries of ancestors of [v] change. *)
Record evaluated (k : nat) (d d' : DomImpl) (v u : nat) : Prop := {
  ev_same : same_but_forest d d';
  ev_forest : forest k d';
  ev_above : forall x, num v < num x -> ancestor d' !! x = ancestor d !! x /\ best d' !! x = best d !! x;
  ev_anc : anc u v;
  ev_linked : k <= num u;
  ev_min : forall z, anc z v -> k <= num z -> num (sm d u) <= num (sm d z);
}.

Lemma find_candidate_ancestor_spec k fuel : forall d v, forest k d -> v < N -> k <= num v -> num v < fuel ->
  exists d' u, find_candidate_ancestor fuel d v = Ret (d', u) /\ evaluated k d d' v u.
Proof.
  induction fuel as [|fuel IH]; intros d v Hd Hv Hk Hf; [lia|]. cbn [find_candidate_ancestor].
  destruct (fo_some _ _ Hd v Hv Hk) as (a & b & Ea & Eb & Hav & Hne & Hbv & Hkb & Hz).
  assert (a < N) as Ha by (by eapply (anc_V _ _ _ _ _ T)). assert (num a < num v) as Hlt by (destruct (anc_num _ _ _ _ _ T _ _ Hav); done).
  rewrite (iv_index_Some _ _ _ Ea). cbn [mbind outcome_bind unwrap].
  destruct (decide (k <= num a)) as [Hka|Hka].
  - destruct (fo_some _ _ Hd a Ha Hka) as (a' & c & Ea' & _ & Ha'a & Hne' & _ & _ & Hz').
    rewrite (iv_index_Some _ _ _ Ea'). cbn [mbind outcome_bind unwrap]. destruct (IH d a Hd Ha Hka ltac:(lia)) as (d1 & u & -> & Hev). cbn [mbind outcome_bind].
    pose proof Hev as [Hsame Hd1 Habove Hua Hku Hmin]. pose proof (same_semi _ _ Hsame) as Es.
    assert (forall x, sm d1 x = sm d x) as Hsm by (intros x; unfold sm; by rewrite Es).
    destruct (Habove v Hlt) as [Eav Ebv]. rewrite Ea in Eav. rewrite Eb in Ebv.
    assert (u < N) as Hu by (by eapply (anc_V _ _ _ _ _ T)). assert (b < N) as Hb by (by eapply (anc_V _ _ _ _ _ T)).
    rewrite (iv_set_lt (ancestor d1)) by (by rewrite (fo_anc _ _ Hd1)). cbn [mbind outcome_bind].
    change (best (set_ancestor d1 (<[v:=Some a']> (ancestor d1)))) with (best d1).
    rewrite (iv_index_Some _ _ _ Ebv). cbn [mbind outcome_bind].
    change (semi (set_ancestor d1 (<[v:=Some a']> (ancestor d1)))) with (semi d1).
    change (dfnum (set_ancestor d1 (<[v:=Some a']> (ancestor d1)))) with (dfnum d1).
    rewrite (fo_df _ _ Hd1), (semi_index _ _ u Hd1 Hu). cbn [mbind outcome_bind]. rewrite df_index by (by apply (fo_range _ _ Hd1)). cbn [mbind outcome_bind].
    rewrite (semi_index _ _ b Hd1 Hb). cbn [mbind outcome_bind]. rewrite df_index by (by apply (fo_range _ _ Hd1)). cbn [mbind outcome_bind].
    set (w := if decide (num (sm d1 u) < num (sm d1 b)) then u else b).
    assert (anc w v /\ k <= num w /\ num (sm d w) <= num (sm d u) /\ num (sm d w) <= num (sm d b)) as (Hwv & Hkw & Hwu & Hwb).
    { unfold w. rewrite !Hsm. case_decide; split_and!; auto; [by etrans|lia|lia]. }
    assert (forall z, anc z v -> k <= num z -> num (sm d w) <= num (sm d z)) as Hall.
    { intros z Hzv Hkz. destruct (anc_trichotomy v a z Hv Hav Hzv) as [Hza|[Haz Hzne]].
      - specialize (Hmin z Hza Hkz). lia.
      - destruct (Hz z Haz Hzne Hzv). lia. }
    exists (set_best (set_ancestor d1 (<[v := Some a']> (ancestor d1))) (<[v := w]> (best d1))), w. split.
    { unfold w. case_decide.
      - rewrite iv_set_lt by (by rewrite (fo_best _ _ Hd1)). cbn [mbind outcome_bind]. unfold iv_index. simpl.
        by rewrite list_lookup_insert_eq by (by rewrite (fo_best _ _ Hd1)).
      - cbn [mbind outcome_bind]. change (best (set_ancestor d1 (<[v:=Some a']> (ancestor d1)))) with (best d1).
        rewrite (iv_index_Some _ _ _ Ebv). simpl. rewrite (list_insert_id _ _ _ Ebv). by destruct d1. }
    split; auto.
    + eapply same_trans; [exact Hsame|]. done.
    + eapply (forest_compress k d1 v a a' w); try done.
      * intros z Hz1 Hz2 Hz3. destruct (anc_trichotomy v a z Hv Hav Hz3) as [Hza|[Haz Hzne]]; [by apply Hz'|by apply Hz].
      * intros z Hz1 Hz2. rewrite !Hsm. auto.
    + intros x Hx. simpl. rewrite !list_lookup_insert_ne by (intros ->; lia). apply Habove. lia.
  - rewrite (iv_index_Some _ _ _ (fo_none _ _ Hd a Ha ltac:(lia))). cbn [mbind outcome_bind].
    rewrite (iv_index_Some _ _ _ Eb). cbn [mbind outcome_bind].
    exists d, b. split; [done|]. split; auto.
    + by destruct d.
    + intros z Hzv Hkz. apply Hz; auto; by eapply (forest_below k d v a); try done; lia.
Qed.

(** ** [semidom] *)

Notation E := (edge (successors g)).
Notation sdom d := (semidominator E num (tpar par) (fun x => x < N) (sm d)).
Notation avoiding := (avoids E (start_node g)).

(** [y] has the lowest semidominator below the semidominator of [v]. *)
Definition lowest_below (k : nat) (d : DomImpl) (v y : nat) : Prop :=
  anc y v /\ num (sm d v) < num y /\
  forall u, anc u v -> num (sm d v) < num u -> k <= num u /\ num (sm d y) <= num (sm d u).

(** The state when the nodes numbered from [k] on have been processed. *)
Record semi_inv (k : nat) (d : DomImpl) : Prop := {
  si_forest : forest k d;
  si_vx : vertex d = vx;
  si_par : d_parent d = par;
  si_samedom : length (samedom d) = N;
  si_buckets : length (bucket d) = N;
  si_doms : length (dom d) = N;
  si_semi : forall x, x < N -> k <= num x -> sdom d x;
  si_bucket : forall s v bk, bucket d !! s = Some bk -> v ∈ bk -> v < N /\ k <= num v /\ sm d v = s;
  si_dom : forall v x, dom d !! v = Some x -> x = 0 \/ (v < N /\ k <= num v /\ x = sm d v /\ ~ avoiding (sm d v) v);
  si_same : forall v y, samedom d !! v = Some (Some y) -> v < N /\ k <= num v /\ y <> v /\ lowest_below k d v y;
}.

Lemma semi_inv_forest k d d' : semi_inv k d -> same_but_forest d d' -> forest k d' -> semi_inv k d'.
Proof.
  intros [] Hs Hf. unfold same_but_forest in Hs. rewrite Hs in Hf |- *. split; simpl; auto.
Qed.

Lemma sdom_ext (f f' : nat -> nat) u : f u = f' u -> semidominator E num (tpar par) (fun x => x < N) f u ->
  semidominator E num (tpar par) (fun x => x < N) f' u.
Proof. intros Eu []. split; rewrite <- ?Eu; auto. Qed.

(** A candidate for the semidominator of [n]. *)
Definition candidate (n s : nat) : Prop := anc s n /\ s <> n /\ high_path E num (num n) s n.

(** The candidate [s] accounts for the predecessor [v] of [n]. *)
Definition accounts (d : DomImpl) (n s v : nat) : Prop :=
  (num v <= num n -> num s <= num v) /\
  (num n < num v -> forall z, anc z v -> num n < num z -> num s <= num (sm d z)).

Lemma candidate_range n s : n < N -> candidate n s -> s < N /\ num s < num n.
Proof.
  intros Hn (Ha & Hne & _). split; [by eapply (anc_V _ _ _ _ _ T)|]. by destruct (anc_num _ _ _ _ _ T _ _ Ha).
Qed.

Lemma semidom_pred_spec n d0 d s v : n < N -> semi_inv (S (num n)) d -> candidate n s -> E v n -> v < N ->
  sm d0 = sm d -> exists d' s', semidom_pred n (d, s) v = Ret (d', s') /\ semi_inv (S (num n)) d' /\ same_but_forest d d' /\
    candidate n s' /\ num s' <= num s /\ accounts d0 n s' v.
Proof.
  intros Hn Hi Hc He Hv E0. pose proof (si_forest _ _ Hi) as Hfo. destruct (candidate_range _ _ Hn Hc) as [Hs Hsn].
  assert (exists d' s1, (if decide (num v <= num n) then Ret (d, v) else
      '(d, u) ← find_candidate_ancestor (length (ancestor d)) d v; s1 ← iv_index (semi d) u; Ret (d, s1)) = Ret (d', s1) /\
    semi_inv (S (num n)) d' /\ same_but_forest d d' /\ s1 < N /\ (num s1 < num n -> candidate n s1) /\ accounts d0 n s1 v)
    as (d' & s1 & E1 & Hi' & Hsame & Hs1 & Hc1 & Hacc).
  { destruct (decide (num v <= num n)) as [Hle|Hgt].
    - exists d, v. split; [done|]. split; [done|]. split; [by destruct d|]. split; [done|]. split; [|split; [done|lia]].
      intros Hlt. split; [by apply (dt_cross _ _ _ _ _ T)|]. split; [intros ->; lia|by apply hp_one].
    - destruct (find_candidate_ancestor_spec (S (num n)) (length (ancestor d)) d v Hfo Hv ltac:(lia)) as (d' & u & -> & Hev).
      { rewrite (fo_anc _ _ Hfo). by apply num_lt. }
      destruct Hev as [Hsame Hfo' _ Huv Hku Hmin]. cbn [mbind outcome_bind]. assert (u < N) as Hu by (by eapply (anc_V _ _ _ _ _ T)).
      rewrite (semi_index _ _ u Hfo' Hu). cbn [mbind outcome_bind]. assert (sm d' u = sm d u) as Eu by (unfold sm; by rewrite (same_semi _ _ Hsame)).
      pose proof (si_semi _ _ Hi u Hu Hku) as Hsu. exists d', (sm d' u). split; [done|]. split; [by eapply semi_inv_forest|]. split; [done|].
      split; [by apply (fo_range _ _ Hfo')|]. rewrite Eu. split.
      + intros Hlt. split; [|split; [intros Eq; rewrite Eq in Hlt; lia|]].
        * apply (dt_interval _ _ _ _ _ T _ n v); auto; [etrans; [apply Hsu|done]|lia|lia].
        * apply (hp_step _ _ _ _ v); [|lia|done]. apply (hp_tree _ _ _ _ _ T _ _ u); [|lia|done].
          eapply hp_weaken; [apply Hsu|lia].
      + split; [lia|]. intros _ z Hz Hkz. rewrite E0. apply Hmin; [done|lia]. }
  cbn [semidom_pred]. rewrite (fo_df _ _ Hfo), (df_index v Hv), (df_index n Hn). cbn [mbind outcome_bind]. rewrite E1. cbn [mbind outcome_bind].
  rewrite (fo_df _ _ (si_forest _ _ Hi')), (df_index s1 Hs1), (df_index s Hs). cbn [mbind outcome_bind].
  exists d'. eexists. split; [reflexivity|]. split; [done|]. split; [done|]. clear E1. destruct (decide (num s1 < num s)) as [Hcmp|Hcmp].
  - split; [apply Hc1; lia|]. split; [lia|done].
  - split; [done|]. split; [lia|]. destruct Hacc as [H1 H2]. split; [intros ?; specialize (H1 ltac:(done)); lia|].
    intros Hvn z Hz Hkz. specialize (H2 Hvn z Hz Hkz). lia.
Qed.

Lemma sm_same d d' : same_but_forest d d' -> sm d' = sm d.
Proof. intros Hs. unfold sm. by rewrite (same_semi _ _ Hs). Qed.

Lemma accounts_le d n s s' v : accounts d n s v -> num s' <= num s -> accounts d n s' v.
Proof.
  intros [H1 H2] Hle. split; [intros Hv; specialize (H1 Hv); lia|]. intros Hv z Hz Hk. specialize (H2 Hv z Hz Hk). lia.
Qed.

Lemma semidom_preds_spec n d p preds : n < N -> semi_inv (S (num n)) d -> candidate n p ->
  (forall v, v ∈ preds -> E v n /\ v < N) ->
  exists d' s, foldM (semidom_pred n) (d, p) preds = Ret (d', s) /\ semi_inv (S (num n)) d' /\ same_but_forest d d' /\
    candidate n s /\ forall v, v ∈ preds -> accounts d n s v.
Proof.
  intros Hn Hi Hc Hp.
  destruct (foldM_split (semidom_pred n) (fun pre '(d', s) => semi_inv (S (num n)) d' /\ same_but_forest d d' /\
    candidate n s /\ forall v, v ∈ pre -> accounts d n s v) preds (d, p)) as ([d' s] & E1 & H').
  - split; [done|]. split; [by destruct d|]. split; [done|]. by intros v ?%elem_of_nil.
  - intros pre v post [d1 s] Epre (Hi1 & Hs1 & Hc1 & Ha1). destruct (Hp v) as [He Hv]; [rewrite Epre; set_solver|].
    destruct (semidom_pred_spec n d d1 s v) as (d2 & s2 & E2 & Hi2 & Hs2 & Hc2 & Hle & Ha2); [done..|by rewrite (sm_same _ _ Hs1)|].
    exists (d2, s2). split; [done|]. split; [done|]. split; [by eapply same_trans|]. split; [done|].
    intros w [Hw| ->%list_elem_of_singleton]%elem_of_app; [|done]. eapply accounts_le; eauto.
  - exists d', s. split; [done|]. exact H'.
Qed.

(** The computed candidate is the semidominator. *)
Lemma candidate_semidominator n d s (preds : list nat) : n < N -> semi_inv (S (num n)) d -> candidate n s ->
  (forall v, v ∈ preds <-> E v n /\ v < N) -> (forall v, v ∈ preds -> accounts d n s v) ->
  semidominator E num (tpar par) (fun x => x < N) (fun _ => s) n.
Proof.
  intros Hn Hi Hc Hp Ha. pose proof (candidate_range _ _ Hn Hc) as [Hs Hsn]. destruct Hc as (H1 & H2 & H3). split; auto.
  intros x Hx Hpath. inversion Hpath as [? He|y ? Hxy Hy He]; subst.
  - destruct (Ha x) as [Hl _]; [by apply Hp|]. destruct (decide (num x <= num n)); [auto|lia].
  - assert (y < N) as HyV by (by eapply (hp_V _ _ _ _ _ T)). destruct (hp_enter _ _ _ _ _ T _ _ _ Hx Hxy Hy) as (w & Hwy & Hwn & Hxw).
    assert (w < N) as Hw by (by eapply (anc_V _ _ _ _ _ T)). destruct (Ha y) as [_ Hr]; [by apply Hp|].
    specialize (Hr Hy w Hwy Hwn). pose proof (sd_low _ _ _ _ _ _ (si_semi _ _ Hi w Hw Hwn) x Hx Hxw). lia.
Qed.

(** The child of [p] that is processed is the only node between. *)
Lemma only_child p n z : tpar par p n -> anc p z -> z <> p -> anc z n -> z = n.
Proof.
  intros Hp Hpz Hne Hz. apply rtc_tpar_inv in Hz as [->|(q & Hzq & Hq)]; [done|]. assert (q = p) as -> by (unfold tpar in *; congruence).
  pose proof (anc_num _ _ _ _ _ T _ _ Hpz). pose proof (anc_num _ _ _ _ _ T _ _ Hzq). intuition (congruence || lia).
Qed.

(** Setting the semidominator of [n], filing it and linking it. *)
Lemma semi_inv_link n p s d bk : n < N -> 0 < num n -> tpar par p n -> semi_inv (S (num n)) d ->
  semidominator E num (tpar par) (fun x => x < N) (fun _ => s) n -> bucket d !! s = Some bk ->
  semi_inv (num n) (mk_dom (dfnum d) (vertex d) (d_parent d) (<[n := s]> (semi d)) (samedom d) (<[s := {[ n ]} ∪ bk]> (bucket d))
    (<[n := Some p]> (ancestor d)) (<[n := n]> (best d)) (dom d)).
Proof.
  intros Hn Hn0 Hp Hi Hs Hbk. pose proof (si_forest _ _ Hi) as Hfo. set (d' := mk_dom _ _ _ _ _ _ _ _ _).
  assert (s < N) as HsN by (destruct Hs as [? Ha]; by eapply (anc_V _ _ _ _ _ T)).
  assert (sm d' n = s) as En by (unfold sm, d'; simpl; rewrite list_lookup_insert_eq; [done|by rewrite (fo_semi _ _ Hfo)]).
  assert (forall x, x <> n -> sm d' x = sm d x) as Eo by (intros x Hx; unfold sm, d'; simpl; by rewrite list_lookup_insert_ne).
  assert (forall x, S (num n) <= num x -> sm d' x = sm d x) as Eh by (intros x Hx; apply Eo; intros ->; lia).
  assert (forall x, x < N -> num n <= num x -> x <> n -> S (num n) <= num x) as Hge.
  { intros x Hx Hle Hne. destruct (decide (num n = num x)) as [Eq|]; [|lia]. by apply (dt_inj _ _ _ _ _ T) in Eq. }
  assert (num n < N) as HnN by (by apply num_lt). destruct (dt_par _ _ _ _ _ T p n Hp) as (_ & Hpn & _ & _).
  assert (forall v y, num n < num v -> v < N -> lowest_below (S (num n)) d v y -> lowest_below (num n) d' v y) as Hlb.
  { intros v y Hv HvN (Hyv & Hlt & Hall). destruct (Hall y Hyv Hlt) as [Hky _]. split; [done|]. rewrite (Eh v) by lia. split; [done|].
    intros u Hu Hlu. destruct (Hall u Hu Hlu) as [Hku Hle]. rewrite (Eh y), (Eh u) by lia. split; [lia|done]. }
  split; [split|..]; simpl; rewrite ?length_insert; try apply Hi; try apply Hfo.
  - intros x Hx. destruct (decide (x = n)) as [->|Hne]; [by rewrite En|]. rewrite Eo by done. by apply (fo_range _ _ Hfo).
  - intros x Hx Hlt. rewrite list_lookup_insert_ne by (intros ->; lia). apply (fo_none _ _ Hfo); [done|lia].
  - intros x Hx Hle. destruct (decide (n = x)) as [<-|Hne].
    + exists p, n. rewrite !list_lookup_insert_eq by (by rewrite ?(fo_anc _ _ Hfo), ?(fo_best _ _ Hfo)). split_and!; auto.
      * by apply rtc_once.
      * intros ->. lia.
      * done.
      * intros z Hz1 Hz2 Hz3. by rewrite (only_child p n z).
    + rewrite !list_lookup_insert_ne by done. assert (S (num n) <= num x) as Hx' by auto.
      destruct (fo_some _ _ Hfo x Hx Hx') as (a & b & ? & ? & ? & ? & ? & ? & Hz). exists a, b. split_and!; auto; [lia|].
      intros z Hz1 Hz2 Hz3. destruct (Hz z Hz1 Hz2 Hz3). rewrite !Eh by lia. split; [lia|done].
  - intros x Hx Hle. destruct (decide (x = n)) as [->|Hne].
    + eapply sdom_ext; [|exact Hs]. by rewrite En.
    + eapply sdom_ext; [|apply (si_semi _ _ Hi x Hx); auto]. by rewrite Eo.
  - intros t v bk' Hb Hv. destruct (decide (s = t)) as [<-|Hne].
    + rewrite list_lookup_insert_eq in Hb by (by rewrite (si_buckets _ _ Hi)). injection Hb as <-.
      apply elem_of_union in Hv as [->%elem_of_singleton|Hv]; [auto|].
      destruct (si_bucket _ _ Hi s v bk Hbk Hv) as (? & ? & ?). rewrite Eh by done. split_and!; auto; lia.
    + rewrite list_lookup_insert_ne in Hb by done. destruct (si_bucket _ _ Hi t v bk' Hb Hv) as (? & ? & ?). rewrite Eh by done. split_and!; auto; lia.
  - intros v x Hv. destruct (si_dom _ _ Hi v x Hv) as [->|(? & ? & -> & ?)]; [by left|]. right. rewrite Eh by done. split_and!; auto; lia.
  - intros v y Hv. destruct (si_same _ _ Hi v y Hv) as (? & ? & ? & ?). split; [done|]. split; [lia|]. split; [done|]. apply Hlb; [lia|done..].
Qed.

(** Every node below [p] on the way to a processed node of the bucket of [p] is linked. *)
Lemma bucket_linked n p v u : tpar par p n -> v < N -> num n <= num v -> anc p v -> anc u v -> num p < num u -> num n <= num u.
Proof.
  intros Hp Hv Hnv Hpv Huv Hpu. apply Nat.nlt_ge. intros Hlt. destruct (dt_par _ _ _ _ _ T p n Hp) as (_ & _ & HpN & HnN).
  assert (anc u n) as Hun by (apply (dt_interval _ _ _ _ _ T u n v); auto; lia).
  assert (anc p u) as Hpu'.
  { apply (dt_interval _ _ _ _ _ T p u v); auto; [by eapply (anc_V _ _ _ _ _ T)|lia|by eapply (anc_le _ _ _ _ _ T)]. }
  assert (u = n) as -> by (apply (only_child p n u); auto; intros ->; lia). lia.
Qed.

Lemma semi_inv_dom k d v x : semi_inv k d -> x = sm d v -> v < N -> k <= num v -> ~ avoiding (sm d v) v ->
  semi_inv k (set_dom d (<[v := x]> (dom d))).
Proof.
  intros Hi -> Hv Hk Hav. pose proof Hi as [Hf ?????????]. split; simpl; rewrite ?length_insert; auto; [by destruct Hf|].
  intros w x Hw. apply list_lookup_insert_Some in Hw as [(<- & <- & _)|[_ Hw]]; [auto|]. by apply (si_dom _ _ Hi).
Qed.

Lemma semi_inv_samedom k d v y : semi_inv k d -> v < N -> k <= num v -> y <> v -> lowest_below k d v y ->
  semi_inv k (set_samedom d (<[v := Some y]> (samedom d))).
Proof.
  intros Hi Hv Hk Hne Hlb. pose proof Hi as [Hf ?????????]. split; simpl; rewrite ?length_insert; auto; [by destruct Hf|].
  intros w y' Hw. apply list_lookup_insert_Some in Hw as [(<- & [= <-] & _)|[_ Hw]]; [auto|]. by apply (si_same _ _ Hi).
Qed.

Lemma semi_inv_bucket k d s bk : semi_inv k d -> (forall v, v ∈ bk -> v < N /\ k <= num v /\ sm d v = s) ->
  semi_inv k (set_bucket d (<[s := bk]> (bucket d))).
Proof.
  intros Hi Hb. pose proof Hi as [Hf ?????????]. split; simpl; rewrite ?length_insert; auto; [by destruct Hf|].
  intros t v bk' Ht Hv. apply list_lookup_insert_Some in Ht as [(<- & <- & _)|[_ Ht]]; [by apply Hb|]. by eapply (si_bucket _ _ Hi).
Qed.

Lemma semidom_bucket_spec n p d v : tpar par p n -> semi_inv (num n) d -> v < N -> num n <= num v -> sm d v = p ->
  exists d', semidom_bucket p d v = Ret d' /\ semi_inv (num n) d' /\ sm d' = sm d /\ bucket d' = bucket d.
Proof.
  intros Hp Hi Hv Hnv Esm. pose proof (si_forest _ _ Hi) as Hfo. pose proof (si_semi _ _ Hi v Hv Hnv) as Hsv.
  destruct (find_candidate_ancestor_spec (num n) (length (ancestor d)) d v Hfo Hv Hnv) as (d1 & y & E1 & Hev).
  { rewrite (fo_anc _ _ Hfo). by apply num_lt. }
  destruct Hev as [Hsame Hfo' _ Hyv Hky Hmin]. pose proof (sm_same _ _ Hsame) as Es. pose proof (semi_inv_forest _ _ _ Hi Hsame Hfo') as Hi1.
  assert (bucket d1 = bucket d) as Eb by (unfold same_but_forest in Hsame; by rewrite Hsame).
  assert (y < N) as Hy by (by eapply (anc_V _ _ _ _ _ T)). destruct (dt_par _ _ _ _ _ T p n Hp) as (_ & Hpn & _ & _).
  unfold semidom_bucket. rewrite E1. cbn [mbind outcome_bind]. rewrite (semi_index _ _ y Hfo' Hy), (semi_index _ _ v Hfo' Hv). cbn [mbind outcome_bind].
  assert (forall u, anc u v -> num (sm d v) < num u -> num n <= num u /\ num (sm d y) <= num (sm d u)) as Hall.
  { intros u Hu Hlt. assert (num n <= num u) as Hk.
    { apply (bucket_linked n p v u); auto; [|by rewrite <- Esm]. rewrite <- Esm. apply Hsv. }
    split; [done|]. by apply Hmin. }
  destruct (decide (sm d1 y = sm d1 v)) as [Eq|Hne].
  - rewrite iv_set_lt by (by rewrite (si_doms _ _ Hi1)). cbn [mbind outcome_bind]. eexists. split; [reflexivity|]. rewrite Es in Eq.
    split; [|by split]. apply semi_inv_dom; auto; rewrite Es; [done|].
    apply (dominator_clause1 _ _ _ _ _ T); [done|]. intros u Hu Hlt. destruct (Hall u Hu Hlt) as [Hk Hle].
    split; [|by rewrite <- Eq]. apply (si_semi _ _ Hi); [|done]. by eapply (anc_V _ _ _ _ _ T).
  - rewrite iv_set_lt by (by rewrite (si_samedom _ _ Hi1)). cbn [mbind outcome_bind]. eexists. split; [reflexivity|].
    split; [|by split]. apply semi_inv_samedom; auto. rewrite Es in Hne. unfold lowest_below. rewrite !Es.
    split; [done|]. split; [rewrite Esm; lia|done].
Qed.

Variable hash_iter : gset nat -> list nat.
Hypothesis Hhash : forall s x, x ∈ hash_iter s -> x ∈ s.
Hypothesis Hpreds : forall n, n < N -> exists l, predecessors g n = Ret l /\ forall v, v ∈ l <-> E v n /\ v < N.
Hypothesis Hzero : start_node g = 0.

Lemma start_num : num (start_node g) = 0.
Proof. unfold dfn. by rewrite (nb_start _ _ _ _ Hnb). Qed.

Lemma semidom_step_spec d i : 0 < i -> i < N -> semi_inv (S i) d ->
  exists d', semidom_step hash_iter g d i = Ret d' /\ semi_inv i d'.
Proof.
  intros Hi0 HiN Hi. destruct (lookup_lt_is_Some_2 vx i) as [n En]; [by rewrite (nb_vx _ _ _ _ Hnb)|].
  assert (n < N /\ num n = i) as [Hn Enum].
  { apply (nb_inv _ _ _ _ Hnb) in En. split; [apply lookup_lt_Some in En; by rewrite (nb_df _ _ _ _ Hnb) in En|]. unfold dfn. by rewrite En. }
  subst i. destruct (nb_parent _ _ _ _ Hnb n Hn) as [p Hp]; [intros ->; rewrite start_num in Hi0; lia|].
  destruct (dt_par _ _ _ _ _ T p n Hp) as (He & Hpn & HpN & _).
  unfold semidom_step. rewrite Hzero, decide_False by lia. rewrite (si_vx _ _ Hi), (iv_index_Some _ _ _ En). cbn [mbind outcome_bind].
  rewrite (si_par _ _ Hi), (iv_index_Some _ _ _ Hp). cbn [mbind outcome_bind unwrap].
  destruct (Hpreds n Hn) as (preds & -> & Hpr). cbn [mbind outcome_bind].
  destruct (semidom_preds_spec n d p preds Hn Hi) as (d1 & s & -> & Hi1 & Hsame & Hc & Hacc).
  { split; [by apply rtc_once|]. split; [intros ->; lia|by apply hp_one]. }
  { intros v. apply Hpr. }
  cbn [mbind outcome_bind]. pose proof (candidate_semidominator n d s preds Hn Hi Hc Hpr Hacc) as Hsd.
  pose proof (candidate_range _ _ Hn Hc) as [Hs _]. pose proof (si_forest _ _ Hi1) as Hfo.
  rewrite iv_set_lt by (by rewrite (fo_semi _ _ Hfo)). cbn [mbind outcome_bind]. cbn [bucket set_semi].
  destruct (lookup_lt_is_Some_2 (bucket d1) s) as [bk Ebk]; [by rewrite (si_buckets _ _ Hi1)|].
  rewrite (iv_index_Some _ _ _ Ebk). cbn [mbind outcome_bind]. rewrite iv_set_lt by (by rewrite (si_buckets _ _ Hi1)). cbn [mbind outcome_bind].
  unfold link. rewrite !iv_set_lt by (simpl; by rewrite ?(fo_anc _ _ Hfo), ?(fo_best _ _ Hfo)). cbn [mbind outcome_bind].
  pose proof (semi_inv_link n p s d1 bk Hn Hi0 Hp Hi1 Hsd Ebk) as Hi2. set (d2 := mk_dom _ _ _ _ _ _ _ _ _) in Hi2.
  change (set_best _ _) with d2. clearbody d2.
  destruct (lookup_lt_is_Some_2 (bucket d2) p) as [bkp Ebkp]; [by rewrite (si_buckets _ _ Hi2)|].
  rewrite (iv_index_Some _ _ _ Ebkp). cbn [mbind outcome_bind].
  destruct (foldM_split (semidom_bucket p) (fun _ d3 => semi_inv (num n) d3 /\ sm d3 = sm d2 /\ bucket d3 = bucket d2) (hash_iter bkp) d2)
    as (d3 & -> & Hi3 & _ & Eb3).
  - done.
  - intros pre v post d3 Epre (Hi3 & Es3 & Eb3). destruct (si_bucket _ _ Hi2 p v bkp Ebkp) as (Hv & Hnv & Esm).
    { apply Hhash. rewrite Epre. set_solver. }
    destruct (semidom_bucket_spec n p d3 v Hp Hi3 Hv Hnv) as (d4 & -> & Hi4 & Es4 & Eb4); [by rewrite Es3|]. exists d4. split_and!; [done..| |]; congruence.
  - cbn [mbind outcome_bind]. rewrite iv_set_lt by (by rewrite (si_buckets _ _ Hi3)). cbn [mbind outcome_bind]. eexists. split; [reflexivity|].
    apply semi_inv_bucket; [done|]. set_solver.
Qed.

Lemma semidom_spec d : semi_inv N d -> exists d', semidom hash_iter g d = Ret d' /\ semi_inv 1 d'.
Proof.
  intros Hi. unfold semidom, iter_nodes.
  assert (forall k d, 1 <= k -> k <= N -> semi_inv k d -> exists d', foldM (semidom_step hash_iter g) d (rev (seq 0 k)) = Ret d' /\ semi_inv 1 d') as Hloop.
  { induction k as [|k IH]; intros d0 Hk HkN Hd; [lia|]. rewrite seq_S, rev_app_distr. simpl. destruct (decide (k = 0)) as [->|Hk0].
    - unfold semidom_step. rewrite Hzero, decide_True by done. simpl. eauto.
    - destruct (semidom_step_spec d0 k) as (d1 & -> & Hd1); [lia..|done|]. apply IH; [lia..|done]. }
  apply Hloop; auto. lia.
Qed.

(** ** [dom] *)

(** [a] is a sound parent for [v]. *)
Definition sound_parent (v a : nat) : Prop :=
  a = start_node g \/ (anc a v /\ a <> v /\ ~ avoiding a v /\ forall d, d < N -> d <> v -> ~ avoiding d v -> ~ avoiding d a).

(** The entries numbered from [k] on are final. *)
Record dom_inv (d0 : DomImpl) (k : nat) (d : DomImpl) : Prop := {
  do_eq : d = set_dom d0 (dom d);
  do_len : length (dom d) = N;
  do_low : forall v, v < N -> num v < k -> dom d !! v = dom d0 !! v;
  do_high : forall v a, v < N -> k <= num v -> dom d !! v = Some a -> sound_parent v a;
}.

Lemma entry_sound d v a : semi_inv 1 d -> dom d !! v = Some a -> sound_parent v a.
Proof.
  intros Hi Ha. destruct (si_dom _ _ Hi v a Ha) as [->|(Hv & Hk & -> & Hav)]; [by left|]. right.
  pose proof (si_semi _ _ Hi v Hv Hk) as Hs. split_and!; [apply Hs..|done|].
  intros e He Hne Hav'. by apply (clause1_immediate _ _ _ _ _ T (sm d) e v).
Qed.

Lemma deferred_sound d v y a : semi_inv 1 d -> samedom d !! v = Some (Some y) -> dom d !! y = Some a -> sound_parent v a.
Proof.
  intros Hi Hy Ha. destruct (si_same _ _ Hi v y Hy) as (Hv & Hk & Hne & Hyv & Hlt & Hall).
  destruct (si_dom _ _ Hi y a Ha) as [->|(HyN & Hky & -> & Hav)]; [by left|]. right.
  pose proof (si_semi _ _ Hi v Hv Hk) as Hsv. pose proof (si_semi _ _ Hi y HyN Hky) as Hsy.
  pose proof (sd_lt _ _ _ _ _ T _ _ Hsy) as Hlty. pose proof (anc_le _ _ _ _ _ T _ _ Hyv) as Hle. split_and!.
  - etrans; [apply Hsy|done].
  - intros E1. rewrite E1 in Hlty. lia.
  - apply (dominator_clause2 _ _ _ _ _ T (sm d) v y); auto. intros u Hu Hlu. destruct (Hall u Hu Hlu) as [Hku Hm].
    split; [|done]. apply (si_semi _ _ Hi); [|done]. by eapply (anc_V _ _ _ _ _ T).
  - intros e He Hev Hav'. by apply (clause2_immediate _ _ _ _ _ T (sm d) e v y).
Qed.

Lemma dom_step_spec d0 d i : semi_inv 1 d0 -> 0 < i -> i < N -> dom_inv d0 (S i) d ->
  exists d', dom_step g d i = Ret d' /\ dom_inv d0 i d'.
Proof.
  intros Hi Hi0 HiN Hd. destruct (lookup_lt_is_Some_2 vx i) as [n En]; [by rewrite (nb_vx _ _ _ _ Hnb)|].
  assert (n < N /\ num n = i) as [Hn Enum].
  { apply (nb_inv _ _ _ _ Hnb) in En. split; [apply lookup_lt_Some in En; by rewrite (nb_df _ _ _ _ Hnb) in En|]. unfold dfn. by rewrite En. }
  subst i. assert (forall v, v < N -> num n <= num v -> v <> n -> S (num n) <= num v) as Hge.
  { intros v Hv Hle Hne. destruct (decide (num n = num v)) as [Eq|]; [|lia]. by apply (dt_inj _ _ _ _ _ T) in Eq. }
  pose proof Hd as [Eq Hlen Hlow Hhigh].
  assert (vertex d = vx /\ samedom d = samedom d0) as [Evx Esd] by (rewrite Eq; split; [apply Hi|done]).
  unfold dom_step. rewrite Hzero, decide_False by lia. rewrite Evx, Esd, (iv_index_Some _ _ _ En). cbn [mbind outcome_bind].
  destruct (lookup_lt_is_Some_2 (samedom d0) n) as [sd Esn]; [by rewrite (si_samedom _ _ Hi)|].
  rewrite (iv_index_Some _ _ _ Esn). cbn [mbind outcome_bind]. destruct sd as [y|].
  - destruct (si_same _ _ Hi n y Esn) as (_ & _ & Hne & Hyn & _). assert (y < N) as Hy by (by eapply (anc_V _ _ _ _ _ T)).
    assert (num y < num n) as Hlt by (by destruct (anc_num _ _ _ _ _ T _ _ Hyn)).
    destruct (lookup_lt_is_Some_2 (dom d0) y) as [x Ex]; [by rewrite (si_doms _ _ Hi)|]. rewrite (iv_index_Some _ _ x) by (rewrite Hlow; [done..|lia]).
    cbn [mbind outcome_bind]. rewrite iv_set_lt by (by rewrite Hlen). cbn [mbind outcome_bind]. eexists. split; [reflexivity|].
    split; simpl; rewrite ?length_insert; auto.
    + by rewrite Eq.
    + intros v Hv Hlv. rewrite list_lookup_insert_ne by (intros ->; lia). apply Hlow; [done|lia].
    + intros v a Hv Hle Ha. apply list_lookup_insert_Some in Ha as [(<- & <- & _)|[Hvn Ha]]; [by eapply deferred_sound|]. apply Hhigh; auto.
  - exists d. split; [done|]. split; auto.
    intros v a Hv Hle Ha. destruct (decide (v = n)) as [->|Hvn]; [|apply Hhigh; auto]. apply (entry_sound d0); [done|]. rewrite <- Hlow; [done..|lia].
Qed.

Lemma dom_spec d0 : semi_inv 1 d0 -> exists l, DomImpl_dom g d0 = Ret l /\ length l = N /\ l !! start_node g = Some (start_node g) /\
  forall v a, v < N -> l !! v = Some a -> sound_parent v a.
Proof.
  intros Hi. unfold DomImpl_dom, iter_nodes.
  assert (forall k d, 1 <= k -> k <= N -> dom_inv d0 k d -> exists d', foldM (dom_step g) d (rev (seq 0 k)) = Ret d' /\ dom_inv d0 1 d') as Hloop.
  { induction k as [|k IH]; intros d Hk HkN Hd; [lia|]. rewrite seq_S, rev_app_distr. simpl. destruct (decide (k = 0)) as [->|Hk0].
    - unfold dom_step. rewrite Hzero, decide_True by done. simpl. eauto.
    - destruct (dom_step_spec d0 d k) as (d1 & -> & Hd1); [done|lia..|done|]. apply IH; [lia..|done]. }
  destruct (Hloop N d0) as (d' & -> & Hd); [lia..| |].
  { split; [by destruct d0|apply Hi|done|]. intros v a Hv Hk. pose proof (num_lt v Hv). lia. }
  cbn [mbind outcome_bind]. exists (dom d'). pose proof start_num as Hs0. split; [done|]. split; [apply Hd|].
  assert (dom d' !! start_node g = Some (start_node g)) as Hroot.
  { rewrite (do_low _ _ _ Hd) by lia. destruct (lookup_lt_is_Some_2 (dom d0) (start_node g)) as [x Hx]; [by rewrite (si_doms _ _ Hi)|].
    rewrite Hx. destruct (si_dom _ _ Hi _ _ Hx) as [->|(_ & ? & _)]; [by rewrite Hzero|lia]. }
  split; [done|]. intros v a Hv Ha. destruct (decide (1 <= num v)) as [Hk|Hk]; [by apply (do_high _ _ _ Hd)|].
  assert (v = start_node g) as -> by (apply (dt_inj _ _ _ _ _ T); [done..|lia]). left. congruence.
Qed.

Lemma semi_inv_new : semi_inv N (mk_dom df vx par (semi (DomImpl_new g)) (samedom (DomImpl_new g)) (bucket (DomImpl_new g))
  (ancestor (DomImpl_new g)) (best (DomImpl_new g)) (dom (DomImpl_new g))).
Proof.
  clear Hhash Hpreds Hzero hash_iter Hstart. assert (forall x, x < N -> N <= num x -> False) as Hno by (intros x Hx ?; pose proof (num_lt x Hx); lia).
  split; [split|..]; simpl; rewrite ?length_replicate, ?length_seq; auto.
  - intros x Hx. unfold sm. simpl. by rewrite lookup_seq_lt.
  - intros x Hx _. by rewrite lookup_replicate_2.
  - intros x Hx Hk. by destruct (Hno x Hx).
  - intros x Hx Hk. by destruct (Hno x Hx).
  - intros s v bk [-> _]%lookup_replicate Hv. set_solver.
  - intros v x [-> _]%lookup_replicate. by left.
  - intros v y [? _]%lookup_replicate. done.
Qed.
End forest.

(** ** Dominators *)

Lemma path_avoids `{Successors G} `{!StartNode G} (g : G) d l : forall n, head l = Some (start_node g) -> last l = Some n ->
  is_path (successors g) l -> d ∉ l -> avoids (edge (successors g)) (start_node g) d n.
Proof.
  induction l as [|z l IH] using rev_ind; intros n Hh Hl Hp Hn; [done|]. rewrite last_snoc in Hl. injection Hl as <-.
  destruct (last l) as [y|] eqn:Ey.
  - eapply av_step; [apply IH| |].
    + by destruct l.
    + reflexivity.
    + intros i x x' Hx Hx'. eapply Hp; by apply lookup_app_l_Some.
    + set_solver.
    + apply (Hp (pred (length l)) y z).
      * rewrite last_lookup in Ey. by apply lookup_app_l_Some.
      * assert (length l <> 0) by (by destruct l). rewrite Nat.succ_pred by done. by rewrite list_lookup_middle.
    + set_solver.
  - apply last_None in Ey as ->. injection Hh as ->. apply av_root. set_solver.
Qed.

Lemma dominates_avoids `{Successors G} `{!StartNode G} (g : G) d n : dominates g d n <-> ~ avoids (edge (successors g)) (start_node g) d n.
Proof.
  split.
  - intros Hd Hav. assert (exists l, head l = Some (start_node g) /\ last l = Some n /\ is_path (successors g) l /\ d ∉ l) as (l & ? & ? & ? & Hn).
    { clear Hd. induction Hav as [Hne|y z _ IH He Hne].
      - exists [start_node g]. split_and!; [done..|by intros [|]|by rewrite list_elem_of_singleton].
      - destruct IH as (l & Hh & Hl & Hp & Hn). exists (l ++ [z]). rewrite last_snoc. split_and!; [by destruct l|done|by eapply is_path_snoc|].
        rewrite elem_of_app, list_elem_of_singleton. intros [?| ->]; done. }
    by apply Hn, Hd.
  - intros Hav l Hh Hl Hp. destruct (decide (d ∈ l)) as [|Hn]; [done|]. destruct Hav. by eapply path_avoids.
Qed.

(** [a] is the immediate dominator of [n]. *)
Definition immediate_dominator `{Successors G} `{!StartNode G} (g : G) (a n : nat) : Prop :=
  dominates g a n /\ a <> n /\ forall d, dominates g d n -> d <> n -> dominates g d a.

(** The predecessor lists agree with the successor lists. *)
Definition preds_ok `{Successors G} `{!Predecessors G} (g : G) : Prop :=
  forall n, n < num_nodes g -> exists l, predecessors g n = Ret l /\ forall v, v ∈ l <-> edge (successors g) v n /\ v < num_nodes g.

Section tree.
Context `{Successors G} `{!StartNode G} `{!Predecessors G}.
Variables (g : G) (hash_iter : gset nat -> list nat) (fuel : nat).
Hypothesis Hwf : graph_wf g.
Hypothesis Hpreds : preds_ok g.
Hypothesis Hhash : forall s x, x ∈ hash_iter s -> x ∈ s.
Hypothesis Hzero : start_node g = 0.
Hypothesis Hpos : 0 < num_nodes g.
Hypothesis Hreach : forall n, n < num_nodes g -> reaches g (start_node g) n.
Hypothesis Hfuel : search_fuel (successors g) (node_set g) <= fuel.

Lemma avoids_outside e n : ~ e < num_nodes g -> reaches g (start_node g) n -> avoids (edge (successors g)) (start_node g) e n.
Proof.
  intros He. refine (rtc_ind_r (fun n => avoids (edge (successors g)) (start_node g) e n) _ _ _ n).
  - apply av_root. intros <-. lia.
  - intros y z Hy Hyz IH. eapply av_step; [exact IH|done|]. intros ->. apply He. eapply (reaches_in_range g (start_node g)); [done|lia|]. by eapply rtc_r.
Qed.

Lemma dominator_tree_spec : exists dt, DominatorTree_new hash_iter fuel g = Ret dt /\ tree_wf g dt /\ dt_start dt = start_node g /\
  forall a y, par dt a y -> dominates g a y /\ (a = start_node g \/ immediate_dominator g a y).
Proof.
  assert (start_node g < num_nodes g) as Hs by lia.
  destruct (dfs_numbered g Hwf Hs Hreach fuel Hfuel) as (df & vx & pr & Hnb & E). unfold DominatorTree_new. rewrite E. cbn [mbind outcome_bind]. clear E.
  destruct (semidom_spec g Hs df vx pr Hnb hash_iter Hhash Hpreds Hzero _ (semi_inv_new g df vx pr Hnb)) as (d & -> & Hd). cbn [mbind outcome_bind].
  destruct (dom_spec g Hs df vx pr Hnb Hzero d Hd) as (l & -> & Hlen & Hroot & Hsound). cbn [mbind outcome_bind].
  eexists. split; [reflexivity|]. pose proof (nb_tree _ _ _ _ Hnb) as T.
  assert (forall a y, l !! y = Some a -> y < num_nodes g) as Hy by (intros a y ?%lookup_lt_Some; lia).
  split; [|split; [done|]].
  - split; [done|done|done|]. unfold par, dfnum_of. simpl. rewrite (fo_df _ _ _ _ _ (si_forest _ _ _ _ _ _ Hd)). intros a y Ha Hne.
    destruct (Hsound y a (Hy a y Ha) Ha) as [->|(Hanc & Hnea & _)].
    + split; [done|]. change (dfn df (start_node g) < dfn df y). pose proof (root_num _ _ _ _ _ T y (Hy _ y Ha)).
      destruct (decide (dfn df (start_node g) = dfn df y)) as [Eq|]; [|lia]. apply (dt_inj _ _ _ _ _ T) in Eq; [done..|by eapply Hy].
    + split; [by eapply (anc_V _ _ _ _ _ T); eauto|]. by destruct (anc_num _ _ _ _ _ T _ _ Hanc).
  - unfold par. simpl. intros a y Ha. destruct (Hsound y a (Hy a y Ha) Ha) as [->|(_ & Hne & Hav & Him)].
    + split; [|by left]. apply dominates_avoids. intros Hav. clear -Hav. by induction Hav.
    + apply dominates_avoids in Hav. split; [done|]. right. split; [done|]. split; [done|]. intros e He Hney.
      apply dominates_avoids. apply Him; [|done|by apply dominates_avoids].
      destruct (decide (e < num_nodes g)) as [|Hge]; [done|]. exfalso.
      apply (proj1 (dominates_avoids g e y) He). apply avoids_outside; [done|]. apply Hreach. by eapply Hy.
Qed.
End tree.


