(* ===== verification/Scc.v ===== *)
(** * Scc: strongly connected components ([ctadl-ir/src/graph/scc/mod.rs])

    A depth-first search with an explicit stack of frames.  A node that is done but whose component
    is not gets a link toward the root of its component; [find_state] follows the links
    and compresses them, turning them around on the way there and overwriting them on the way back.
    [Vec]s used as stacks are lists with the top last, but the stack of frames has its top first.
    [successors_stack] and [duplicate_set] are kept between calls in the source for their storage
    only.  The assertions of debug builds are assertions here. *)

From S2P Require Import Prelude Index Graph.

(** ** Annotations *)

Class SccAnnotation (A : Type) : Type := { merge_scc : A -> A -> A; merge_reached : A -> A -> A }.

(** The accumulator of annotations, [B]. *)
Class SccAnnotations (B A : Type) : Type := { create_annotation : B -> nat -> A; annotate_scc : B -> nat -> A -> B }.

#[export] Instance unit_annotation : SccAnnotation unit := {| merge_scc _ _ := tt; merge_reached _ _ := tt |}.
#[export] Instance NoAnnotations : SccAnnotations unit unit := {| create_annotation _ _ := tt; annotate_scc _ _ _ := tt |}.

(** ** The components *)

(** [scc_details] holds, per component, the range of its successors in [all_successors]. *)
Record SccData : Type := mk_scc_data { scc_details : list (nat * nat); all_successors : list nat }.

Record Sccs : Type := mk_sccs { scc_indices : list nat; sccs_data : SccData }.

Definition SccData_successors (d : SccData) (scc : nat) : outcome (list nat) :=
  range ← iv_index (scc_details d) scc; slice (all_successors d) range.

Definition create_scc (d : SccData) (successors : list nat) : SccData * nat :=
  let all := all_successors d ++ successors in
  let '(details, scc) := iv_push (scc_details d) (length (all_successors d), length all) in
  (mk_scc_data details all, scc).

Definition num_sccs (s : Sccs) : nat := length (scc_details (sccs_data s)).
Definition all_sccs (s : Sccs) : list nat := seq 0 (num_sccs s).
Definition scc (s : Sccs) (r : nat) : outcome nat := iv_index (scc_indices s) r.
Definition scc_successors (s : Sccs) (c : nat) : outcome (list nat) := SccData_successors (sccs_data s) c.
Definition scc_num_edges (s : Sccs) : nat := length (all_successors (sccs_data s)).

#[export] Instance Sccs_DirectedGraph : DirectedGraph Sccs := {| num_nodes := num_sccs |}.
#[export] Instance Sccs_Successors : Successors Sccs := {| successors := scc_successors |}.

(** ** Construction *)

Section construction.
Context {A B : Type} `{!SccAnnotation A} `{!SccAnnotations B A}.

Inductive NodeState : Type :=
| NotVisited
| BeingVisited (depth : nat) (annotation : A)
| InCycle (scc_index : nat) (annotation : A)
| InCycleWith (parent : nat).

Inductive WalkReturn : Type := Cycle (min_depth : nat) (annotation : A) | Complete (scc_index : nat) (annotation : A).

Record SccsConstruction : Type := mk_construction {
  node_states : list NodeState; node_stack : list nat; successors_stack : list nat; scc_data : SccData; annotations : B }.

Definition with_states (st : SccsConstruction) (l : list NodeState) : SccsConstruction :=
  mk_construction l (node_stack st) (successors_stack st) (scc_data st) (annotations st).

(** The first loop of [find_state]: the states with the links turned around, the last two nodes,
    the state at the end, and the state to assign on the way back, if there is one. *)
Fixpoint find_down (fuel : nat) (path : list nat) (states : list NodeState) (node previous_node : nat)
  : outcome (list NodeState * nat * nat * NodeState * option NodeState) :=
  match fuel with
  | 0 => OutOfFuel
  | S fuel =>
      s ← iv_index states node;
      match s with
      | NotVisited => Ret (states, node, previous_node, s, None)
      | InCycle _ _ => Ret (states, node, previous_node, s, Some s)
      | BeingVisited depth _ => p ← iv_index path depth; Ret (states, node, previous_node, s, Some (InCycleWith p))
      | InCycleWith parent =>
          _ ← rust_assert (bool_decide (node <> parent));
          states ← iv_set states node (InCycleWith previous_node);
          find_down fuel path states parent node
      end
  end.

(** The second loop: back to the node that is linked to itself. *)
Fixpoint find_up (fuel : nat) (states : list NodeState) (node previous_node : nat) (assigned : NodeState) : outcome (list NodeState) :=
  match fuel with
  | 0 => OutOfFuel
  | S fuel =>
      if decide (previous_node = node) then Ret states
      else
        s ← iv_index states previous_node;
        match s with
        | InCycleWith previous => states ← iv_set states previous_node assigned; find_up fuel states previous_node previous assigned
        | _ => Panic
        end
  end.

Definition find_state (fuel : nat) (st : SccsConstruction) (node : nat) : outcome (SccsConstruction * NodeState) :=
  '(states, node, previous_node, root_state, assigned) ← find_down fuel (node_stack st) (node_states st) node node;
  match assigned with
  | None => Ret (with_states st states, root_state)
  | Some assigned => states ← find_up fuel states node previous_node assigned; Ret (with_states st states, root_state)
  end.

Definition inspect_node (fuel : nat) (st : SccsConstruction) (node : nat) : outcome (SccsConstruction * option WalkReturn) :=
  '(st, s) ← find_state fuel st node;
  match s with
  | InCycle scc_index annotation => Ret (st, Some (Complete scc_index annotation))
  | BeingVisited depth annotation => Ret (st, Some (Cycle depth annotation))
  | NotVisited => Ret (st, None)
  | InCycleWith _ => Panic
  end.

Record VisitingNodeFrame : Type := mk_frame {
  fr_node : nat; fr_successors : option (list nat); fr_depth : nat; fr_min_depth : nat; fr_successors_len : nat;
  fr_min_cycle_root : nat; fr_successor_node : nat; fr_annotation : A }.

Definition new_frame (b : B) (node depth : nat) : VisitingNodeFrame :=
  mk_frame node None depth depth 0 node node (create_annotation b node).

(** [assert!(matches!(.., NotVisited))], the push on the stack, and the first look at the successors. *)
Definition init_frame `{Successors G} (graph : G) (st : SccsConstruction) (fr : VisitingNodeFrame)
  : outcome (SccsConstruction * VisitingNodeFrame * list nat) :=
  match fr_successors fr with
  | Some successors => Ret (st, fr, successors)
  | None =>
      s ← iv_index (node_states st) (fr_node fr);
      _ ← rust_assert match s with NotVisited => true | _ => false end;
      states ← iv_set (node_states st) (fr_node fr) (BeingVisited (fr_depth fr) (fr_annotation fr));
      successors ← successors graph (fr_node fr);
      Ret (mk_construction states (node_stack st ++ [fr_node fr]) (successors_stack st) (scc_data st) (annotations st),
           mk_frame (fr_node fr) (Some successors) (fr_depth fr) (fr_min_depth fr) (length (successors_stack st))
             (fr_min_cycle_root fr) (fr_successor_node fr) (fr_annotation fr),
           successors)
  end.

Definition absorb (st : SccsConstruction) (fr : VisitingNodeFrame) (successor_node : nat) (walk : WalkReturn)
  : outcome (SccsConstruction * VisitingNodeFrame) :=
  match walk with
  | Cycle successor_min_depth successor_annotation =>
      _ ← rust_assert (bool_decide (successor_min_depth <= fr_depth fr));
      let lower := bool_decide (successor_min_depth < fr_min_depth fr) in
      Ret (st, mk_frame (fr_node fr) (fr_successors fr) (fr_depth fr) (if lower then successor_min_depth else fr_min_depth fr)
                 (fr_successors_len fr) (if lower then successor_node else fr_min_cycle_root fr) (fr_successor_node fr)
                 (merge_scc (fr_annotation fr) successor_annotation))
  | Complete successor_scc_index successor_annotation =>
      Ret (mk_construction (node_states st) (node_stack st) (successors_stack st ++ [successor_scc_index]) (scc_data st) (annotations st),
           mk_frame (fr_node fr) (fr_successors fr) (fr_depth fr) (fr_min_depth fr) (fr_successors_len fr) (fr_min_cycle_root fr)
             (fr_successor_node fr) (merge_reached (fr_annotation fr) successor_annotation))
  end.

(** The [for] loop over the remaining successors; [Some s] when it breaks off to walk [s]. *)
Fixpoint walk_successors (fuel : nat) (st : SccsConstruction) (fr : VisitingNodeFrame) (l : list nat)
  : outcome (SccsConstruction * VisitingNodeFrame * option nat) :=
  match l with
  | [] => Ret (st, fr, None)
  | s :: l =>
      '(st, walk) ← inspect_node fuel st s;
      match walk with
      | Some walk => '(st, fr) ← absorb st fr s walk; walk_successors fuel st fr l
      | None =>
          Ret (st, mk_frame (fr_node fr) (Some l) (fr_depth fr) (fr_min_depth fr) (fr_successors_len fr) (fr_min_cycle_root fr) s
                     (fr_annotation fr), Some s)
      end
  end.

(** [.filter(|&i| duplicate_set.insert(i))]. *)
Fixpoint dedup (duplicate_set : gset nat) (l : list nat) : list nat :=
  match l with
  | [] => []
  | i :: l => if decide (i ∈ duplicate_set) then dedup duplicate_set l else i :: dedup ({[ i ]} ∪ duplicate_set) l
  end.

Definition finish_frame (st : SccsConstruction) (fr : VisitingNodeFrame) : outcome (SccsConstruction * WalkReturn) :=
  '(path, r) ← unwrap (split_last (node_stack st));
  _ ← rust_assert (bool_decide (r = fr_node fr));
  if decide (fr_min_depth fr = fr_depth fr) then
    _ ← rust_assert (bool_decide (fr_successors_len fr <= length (successors_stack st)));
    let deduplicated_successors := dedup ∅ (drop (fr_successors_len fr) (successors_stack st)) in
    let '(data, scc_index) := create_scc (scc_data st) deduplicated_successors in
    states ← iv_set (node_states st) (fr_node fr) (InCycle scc_index (fr_annotation fr));
    Ret (mk_construction states path (take (fr_successors_len fr) (successors_stack st)) data
           (annotate_scc (annotations st) scc_index (fr_annotation fr)),
         Complete scc_index (fr_annotation fr))
  else
    states ← iv_set (node_states st) (fr_node fr) (InCycleWith (fr_min_cycle_root fr));
    Ret (mk_construction states path (successors_stack st) (scc_data st) (annotations st), Cycle (fr_min_depth fr) (fr_annotation fr)).

(** One round of ['recurse]. *)
Definition walk_step `{Successors G} (fuel : nat) (graph : G) (st : SccsConstruction) (fr : VisitingNodeFrame)
    (stack : list VisitingNodeFrame) (return_value : option WalkReturn)
  : outcome (SccsConstruction * list VisitingNodeFrame * option WalkReturn) :=
  '(st, fr, successors) ← init_frame graph st fr;
  '(st, fr) ← match return_value with Some walk => absorb st fr (fr_successor_node fr) walk | None => Ret (st, fr) end;
  '(st, fr, next) ← walk_successors fuel st fr successors;
  match next with
  | Some s => Ret (st, new_frame (annotations st) s (fr_depth fr + 1) :: fr :: stack, None)
  | None => '(st, walk) ← finish_frame st fr; Ret (st, stack, Some walk)
  end.

Fixpoint walk_loop `{Successors G} (n fuel : nat) (graph : G) (st : SccsConstruction) (stack : list VisitingNodeFrame)
    (return_value : option WalkReturn) : outcome (SccsConstruction * option WalkReturn) :=
  match n with
  | 0 => OutOfFuel
  | S n =>
      match stack with
      | [] => Ret (st, return_value)
      | fr :: stack =>
          '(st, stack, return_value) ← walk_step fuel graph st fr stack return_value;
          walk_loop n fuel graph st stack return_value
      end
  end.

Definition walk_unvisited_node `{Successors G} (fuel : nat) (graph : G) (st : SccsConstruction) (initial : nat)
  : outcome (SccsConstruction * WalkReturn) :=
  _ ← rust_assert (bool_decide (successors_stack st = []));
  '(st, return_value) ← walk_loop fuel fuel graph st [new_frame (annotations st) initial 0] None;
  _ ← rust_assert (bool_decide (successors_stack st = []));
  walk ← unwrap return_value; Ret (st, walk).

Definition start_walk_from `{Successors G} (fuel : nat) (graph : G) (st : SccsConstruction) (node : nat)
  : outcome (SccsConstruction * WalkReturn) :=
  '(st, walk) ← inspect_node fuel st node;
  match walk with
  | Some walk => Ret (st, walk)
  | None => walk_unvisited_node fuel graph st node
  end.

Definition construct `{Successors G} (fuel : nat) (graph : G) (b : B) : outcome (Sccs * B) :=
  let this := mk_construction (replicate (num_nodes graph) NotVisited) [] [] (mk_scc_data [] []) b in
  '(this, indices) ← foldM (fun '(this, indices) node =>
      '(this, walk) ← start_walk_from fuel graph this node;
      match walk with Complete scc_index _ => Ret (this, indices ++ [scc_index]) | Cycle _ _ => Panic end)
    (this, []) (iter_nodes graph);
  Ret (mk_sccs indices (scc_data this), annotations this).
End construction.
Arguments NodeState A : clear implicits.
Arguments WalkReturn A : clear implicits.
Arguments SccsConstruction A B : clear implicits.
Arguments VisitingNodeFrame A : clear implicits.

Definition Sccs_new `{Successors G} (fuel : nat) (graph : G) : outcome Sccs := '(sccs, _) ← construct fuel graph tt; Ret sccs.

(** ** What the states mean *)

Section states.
Context {A : Type} (n : nat).
Implicit Types (states : list (NodeState A)) (res : nat -> NodeState A) (s : NodeState A).

Definition slink (states : list (NodeState A)) (u p : nat) : Prop := states !! u = Some (InCycleWith p).
Definition is_root (s : NodeState A) : Prop := match s with InCycleWith _ => False | _ => True end.

(** The state at the end of the links from [v] is [s]. *)
Definition resolved (states : list (NodeState A)) (v : nat) (s : NodeState A) : Prop :=
  exists r, rtc (slink states) v r /\ states !! r = Some s /\ is_root s.

(** [res] is the resolved state of every node; the nodes being visited are those on the path, at
    their depths; nothing leads to a node that was not visited. *)
Record states_ok (path : list nat) (states : list (NodeState A)) (res : nat -> NodeState A) : Prop := {
  so_len : length states = n;
  so_res : forall v, v < n -> resolved states v (res v);
  so_path : forall d v, path !! d = Some v -> exists a, states !! v = Some (BeingVisited d a);
  so_being : forall v d a, states !! v = Some (BeingVisited d a) -> path !! d = Some v;
  so_new : forall v, v < n -> res v = NotVisited -> states !! v = Some NotVisited;
}.

Lemma resolved_root states v s : states !! v = Some s -> is_root s -> resolved states v s.
Proof. intros. exists v. eauto using rtc_refl. Qed.

Lemma resolved_link states u v s : slink states u v -> resolved states v s -> resolved states u s.
Proof. intros Hl (r & Hr & ?). exists r. split; [by eapply rtc_l|done]. Qed.

Lemma steps_root states k j u r s : nsteps (slink states) k u r -> states !! r = Some s -> is_root s -> nsteps (slink states) j u r -> j = k.
Proof.
  intros Hk. revert j. induction Hk as [u|k u v r Huv Hk IH]; intros j Hr Hs Hj.
  - inversion Hj as [|? ? y ? Hy]; subst; [done|]. unfold slink in Hy. rewrite Hy in Hr. injection Hr as <-. done.
  - inversion Hj as [|j' ? y ? Hy Hj']; subst; unfold slink in *.
    + rewrite Huv in Hr. injection Hr as <-. done.
    + assert (y = v) as -> by congruence. f_equal. by apply IH.
Qed.

(** No node on the way to a root comes twice. *)
Lemma steps_no_cycle states k j u r s : nsteps (slink states) k u r -> states !! r = Some s -> is_root s -> nsteps (slink states) j u u -> j = 0.
Proof.
  intros Hk Hr Hs Hj. pose proof (steps_root states k (j + k) u r s Hk Hr Hs (nsteps_trans _ _ _ _ _ Hj Hk)). lia.
Qed.

Lemma resolved_det states u s s' : resolved states u s -> resolved states u s' -> s = s'.
Proof.
  intros (r & Hr & Es & Hs) (r' & Hr' & Es' & Hs').
  assert (forall x y, rtc (slink states) u x -> rtc (slink states) u y -> rtc (slink states) x y \/ rtc (slink states) y x) as Hlin.
  { clear. intros x y Hx. revert y. induction Hx as [u|u v x Huv Hvx IH]; intros y Hy; [by left|].
    inversion Hy as [|? w ? Huw Hwy]; subst; [right; by eapply rtc_l|]. unfold slink in *. assert (w = v) as -> by congruence. by apply IH. }
  assert (forall x y sx, states !! x = Some sx -> is_root sx -> rtc (slink states) x y -> x = y) as Hend.
  { intros x y sx Hx Hsx Hxy. inversion Hxy as [|? w ? Hw _]; [done|]. unfold slink in Hw. rewrite Hx in Hw. by injection Hw as ->. }
  assert (r = r') as <-; [|congruence]. destruct (Hlin r r' Hr Hr') as [H|H]; [by eapply Hend|symmetry; by eapply Hend].
Qed.

(** ** Path compression *)

(** The nodes in [vs], the last one first, are linked backward, the first one to itself. *)
Fixpoint turned (states : list (NodeState A)) (vs : list nat) : Prop :=
  match vs with
  | [] => True
  | x :: rest => slink states x (hd x rest) /\ turned states rest
  end.

Lemma turned_other states u s vs : u ∉ vs -> turned states vs -> turned (<[u := s]> states) vs.
Proof.
  induction vs as [|x vs IH]; simpl; [done|]. intros Hu [Hx Hvs]. split; [|apply IH; [set_solver|done]].
  unfold slink. rewrite list_lookup_insert_ne; [done|set_solver].
Qed.

Definition assigned_state (r : nat) (s : NodeState A) : option (NodeState A) :=
  match s with NotVisited => None | BeingVisited _ _ => Some (InCycleWith r) | _ => Some s end.

Lemma find_down_spec path states0 r s : states0 !! r = Some s -> is_root s -> (forall d a, s = BeingVisited d a -> path !! d = Some r) ->
  forall k fuel node vs states, nsteps (slink states0) k node r -> k < fuel -> length states = length states0 ->
    (forall u, u ∉ vs -> states !! u = states0 !! u) -> turned states vs -> NoDup vs ->
    (forall x, x ∈ vs -> exists j, 0 < j /\ nsteps (slink states0) j x node) ->
  exists states' vs', find_down fuel path states node (hd node vs) = Ret (states', r, hd r vs', s, assigned_state r s) /\
    length states' = length states0 /\ (forall u, u ∉ vs' -> states' !! u = states0 !! u) /\ turned states' vs' /\ NoDup vs' /\
    (forall x, x ∈ vs' -> exists j, 0 < j /\ nsteps (slink states0) j x r) /\ (vs = [] -> k = 0 -> vs' = []).
Proof.
  intros Hr Hs Hpath. induction k as [|k IH]; intros fuel node vs states Hk Hf Hlen Hout Hturn Hnd Hin; (destruct fuel as [|fuel]; [lia|]).
  - assert (node = r) as -> by (by inversion Hk). assert (r ∉ vs) as Hrv.
    { intros (j & Hj & Hjr)%Hin. pose proof (steps_no_cycle states0 0 j r r s ltac:(constructor) Hr Hs Hjr). lia. }
    exists states, vs. split_and!; [|done..]. simpl. unfold iv_index. rewrite (Hout r Hrv), Hr. simpl.
    destruct s as [|d a|c a|]; try done. by rewrite (Hpath d a eq_refl).
  - inversion Hk as [|? ? p ? Hp Hkp]; subst. assert (node ∉ vs) as Hnv.
    { intros (j & Hj & Hjn)%Hin. pose proof (steps_no_cycle states0 (S k) j node r s Hk Hr Hs Hjn). lia. }
    assert (node < length states) as Hlt by (rewrite Hlen; by eapply lookup_lt_Some).
    destruct (IH fuel p (node :: vs) (<[node := InCycleWith (hd node vs)]> states)) as (states' & vs' & E & H1 & H2 & H3 & H4 & H5 & _);
      [done|lia|by rewrite length_insert| | | | |].
    + intros u Hu. rewrite list_lookup_insert_ne by set_solver. apply Hout. set_solver.
    + simpl. split; [unfold slink; by rewrite list_lookup_insert_eq|by apply turned_other].
    + by constructor.
    + intros x [->|Hx]%elem_of_cons; [exists 1; split; [lia|by apply nsteps_once]|]. destruct (Hin x Hx) as (j & Hj & Hjx).
      exists (S j). split; [lia|]. by eapply nsteps_r.
    + exists states', vs'. split_and!; [|done..|done]. simpl. unfold iv_index. rewrite (Hout node Hnv), Hp. simpl.
      rewrite bool_decide_eq_true_2; [|intros <-; pose proof (steps_no_cycle states0 (S k) 1 node r s Hk Hr Hs ltac:(by apply nsteps_once)); lia].
      simpl. unfold iv_set. rewrite decide_True by done. simpl. exact E.
Qed.

Lemma find_up_spec assigned vs : forall fuel states node, turned states vs -> NoDup (node :: vs) -> Forall (fun x => x < length states) vs -> length vs < fuel ->
  exists states', find_up fuel states node (hd node vs) assigned = Ret states' /\ length states' = length states /\
    (forall u, u ∈ vs -> states' !! u = Some assigned) /\ (forall u, u ∉ vs -> states' !! u = states !! u).
Proof.
  induction vs as [|x vs IH]; intros fuel states node Ht [Hn Hnd]%NoDup_cons Hall Hf; (destruct fuel as [|fuel]; [simpl in Hf; lia|]).
  - exists states. simpl. rewrite decide_True by done. split_and!; try done. intros u Hu. by apply elem_of_nil in Hu.
  - simpl in Ht. destruct Ht as [Hx Ht]. apply Forall_cons in Hall as [Hlt Hall]. cbn [find_up hd]. rewrite decide_False by set_solver.
    unfold iv_index, slink in *. rewrite Hx. simpl. unfold iv_set. rewrite decide_True by done. simpl.
    destruct (IH fuel (<[x := assigned]> states) x) as (states' & -> & Hlen & H1 & H2); [| done | by rewrite length_insert|simpl in Hf; lia|].
    { apply turned_other; [by apply NoDup_cons in Hnd as [? _]|done]. }
    apply NoDup_cons in Hnd as [Hxv _]. exists states'. rewrite length_insert in Hlen. split_and!; [done|done| |].
    + intros u [->|Hu]%elem_of_cons; [|auto]. rewrite H2 by done. by apply list_lookup_insert_eq.
    + intros u Hu. rewrite H2 by set_solver. apply list_lookup_insert_ne. set_solver.
Qed.

(** Compression changes no resolved state. *)
Lemma compressed_ok path states res states' (vs : list nat) r s : states_ok path states res -> states !! r = Some s -> is_root s -> s <> NotVisited ->
  length states' = length states -> (forall u, u ∈ vs -> exists j, 0 < j /\ nsteps (slink states) j u r) ->
  (forall u, u ∈ vs -> states' !! u = assigned_state r s) -> (forall u, u ∉ vs -> states' !! u = states !! u) -> states_ok path states' res.
Proof.
  intros [Hn Hres Hpath Hbeing Hnew] Hr Hs Hnv Hlen Hvs Hin Hout.
  assert (r ∉ vs) as Hrv.
  { intros (j & Hj & Hjr)%Hvs. pose proof (steps_no_cycle states 0 j r r s ltac:(constructor) Hr Hs Hjr). lia. }
  assert (forall u, u ∈ vs -> resolved states' u s) as Hcomp.
  { intros u Hu. specialize (Hin u Hu). destruct s as [|d a|c a|]; [done| | |done]; simpl in Hin.
    - eapply resolved_link; [exact Hin|]. apply resolved_root; [by rewrite Hout|done].
    - by apply resolved_root. }
  assert (forall u, u ∈ vs -> exists p, states !! u = Some (InCycleWith p)) as Hlinks.
  { intros u Hu. destruct (Hvs u Hu) as (j & Hj & Hjr). inversion Hjr as [|? ? p ? Hp]; subst; [lia|eauto]. }
  split.
  - congruence.
  - intros v Hv. destruct (Hres v Hv) as (q & Hq & Eq & Hsq). assert (resolved states v (res v)) as Hrv0 by (by exists q).
    clear Hv. generalize dependent (res v). clear res Hres Hnew. intros sv Eq Hsv Hrv0. induction Hq as [q|u p q Hup Hpq IH].
    + apply resolved_root; [|done]. rewrite Hout; [done|]. intros (p & Hp)%Hlinks. rewrite Eq in Hp. injection Hp as ->. done.
    + destruct (decide (u ∈ vs)) as [Hu|Hu].
      * destruct (Hvs u Hu) as (j & _ & Hj). assert (resolved states u s) as Hus by (exists r; split; [by eapply rtc_nsteps_2|done]).
        rewrite (resolved_det states u sv s Hrv0 Hus). by apply Hcomp.
      * eapply resolved_link; [unfold slink; rewrite Hout by done; exact Hup|]. apply IH; [done|]. by exists q.
  - intros d v Hd. destruct (Hpath d v Hd) as [a Ha]. exists a. rewrite Hout; [done|]. intros (p & Hp)%Hlinks. congruence.
  - intros v d a Hv. destruct (decide (v ∈ vs)) as [Hvv|Hvv]; [|rewrite Hout in Hv by done; by eapply Hbeing].
    rewrite Hin in Hv by done. destruct s; simpl in Hv; congruence.
  - intros v Hv Hnew'. specialize (Hnew v Hv Hnew'). rewrite Hout; [done|]. intros (p & Hp)%Hlinks. congruence.
Qed.
End states.

(** Links end within [n] steps. *)
Lemma steps_short {A} n path (states : list (NodeState A)) res k u r s : states_ok n path states res -> nsteps (slink states) k u r ->
  states !! r = Some s -> is_root s -> k < n.
Proof.
  intros [Hn _ _ _ _] Hk Hr Hs.
  assert (exists l, length l = S k /\ NoDup l /\ forall x, x ∈ l -> x < n /\ exists j, j <= k /\ nsteps (slink states) j x r) as (l & Hl & Hnd & Hin).
  { induction Hk as [r|k u v r Huv Hk IH].
    - exists [r]. split_and!; [done|apply NoDup_singleton|]. intros x ->%list_elem_of_singleton. split; [rewrite <- Hn; by eapply lookup_lt_Some|].
      exists 0. split; [done|constructor].
    - destruct (IH Hr) as (l & Hl & Hnd & Hin). exists (u :: l). split_and!; [simpl; lia| |].
      + apply NoDup_cons. split; [|done]. intros (_ & j & Hj & Hju)%Hin.
        pose proof (steps_root states j (S k) u r s Hju Hr Hs ltac:(by econstructor)). lia.
      + intros x [->|Hx]%elem_of_cons; [|destruct (Hin x Hx) as (? & j & ? & ?); split; [done|]; exists j; split; [lia|done]].
        split; [rewrite <- Hn; by eapply lookup_lt_Some|]. exists (S k). split; [done|by econstructor]. }
  assert (l ⊆+ seq 0 n) as Hsub%submseteq_length.
  { apply NoDup_submseteq; [done|]. intros x [Hx _]%Hin. apply elem_of_seq. lia. }
  rewrite length_seq in Hsub. lia.
Qed.

Lemma find_state_spec {A B} n (st : SccsConstruction A B) res v fuel : states_ok n (node_stack st) (node_states st) res -> v < n -> n < fuel ->
  exists states, find_state fuel st v = Ret (with_states st states, res v) /\ states_ok n (node_stack st) states res.
Proof.
  intros Hok Hv Hf. pose proof Hok as [Hn Hres _ Hbeing Hnew]. destruct (Hres v Hv) as (r & [k Hk]%rtc_nsteps_1 & Hr & Hs).
  pose proof (steps_short n _ _ _ k v r _ Hok Hk Hr Hs) as Hlt.
  destruct (find_down_spec (node_stack st) (node_states st) r (res v) Hr Hs) with k fuel v (@nil nat) (node_states st)
    as (states1 & vs & E & Hlen & Hout & Ht & Hnd & Hvs & Hempty); [|done|lia|done|done|done|constructor|intros x Hx; by apply elem_of_nil in Hx|].
  { intros d a Ed. rewrite Ed in Hr. by eapply Hbeing. }
  unfold find_state. simpl in E. rewrite E. cbn [mbind outcome_bind].
  assert (r ∉ vs) as Hrv.
  { intros (j & Hj & Hjr)%Hvs. pose proof (steps_no_cycle _ 0 j r r _ ltac:(constructor) Hr Hs Hjr). lia. }
  assert (forall x, x ∈ vs -> x < n) as Hvn.
  { intros x (j & Hj & Hjx)%Hvs. destruct Hjx as [|? ? p ? Hp]; [lia|]. rewrite <- Hn. by eapply lookup_lt_Some. }
  destruct (assigned_state r (res v)) as [assigned|] eqn:Ea; cbn [mbind outcome_bind].
  - destruct (find_up_spec assigned vs fuel states1 r) as (states & -> & Hl & Hin & Hout'); [done|by constructor| | |].
    { apply Forall_forall. intros x Hx. rewrite Hlen, Hn. auto. }
    { assert (vs ⊆+ seq 0 n) as Hsub%submseteq_length by (apply NoDup_submseteq; [done|]; intros x Hx; apply elem_of_seq; specialize (Hvn x Hx); lia).
      rewrite length_seq in Hsub. lia. }
    exists states. split; [done|]. eapply (compressed_ok n _ _ _ _ vs r (res v)); [done|done|done| |congruence|done| |].
    + intros E0. by rewrite E0 in Ea.
    + intros u Hu. rewrite Ea. auto.
    + intros u Hu. rewrite Hout' by done. auto.
  - exists states1. split; [done|]. assert (res v = NotVisited) as E0 by (by destruct (res v)).
    assert (k = 0) as ->. { specialize (Hnew v Hv E0). destruct Hk as [|? ? p ? Hp]; [done|]. unfold slink in Hp. congruence. }
    rewrite (Hempty eq_refl eq_refl) in Hout. assert (states1 = node_states st) as ->; [|done]. apply list_eq. intros i. apply Hout. set_solver.
Qed.

(** ** Changes of state *)

Section changes.
Context {A : Type} (n : nat) (path : list nat) (states : list (NodeState A)) (res : nat -> NodeState A) (v : nat).

(** A node is put on the path. *)
Lemma states_visit a : states_ok n path states res -> v < n -> res v = NotVisited ->
  states_ok n (path ++ [v]) (<[v := BeingVisited (length path) a]> states)
    (fun u => if decide (u = v) then BeingVisited (length path) a else res u).
Proof.
  intros [Hn Hres Hpath Hbeing Hnew] Hv Hnv. pose proof (Hnew v Hv Hnv) as Ev. assert (v < length states) as Hlt by lia.
  assert (forall u s, resolved states u s -> u <> v -> s <> NotVisited -> resolved (<[v := BeingVisited (length path) a]> states) u s) as Hkeep.
  { intros u s (r & Hr & Es & Hs) _ Hne. induction Hr as [r|u p r Hup Hpr IH].
    - apply resolved_root; [|done]. rewrite list_lookup_insert_ne; [done|]. congruence.
    - eapply resolved_link; [|by apply IH]. unfold slink in *. rewrite list_lookup_insert_ne; [done|]. congruence. }
  split.
  - by rewrite length_insert.
  - intros u Hu. case_decide as E; [subst; apply resolved_root; [by apply list_lookup_insert_eq|done]|].
    destruct (res u) eqn:Eu; [|specialize (Hres u Hu); rewrite Eu in Hres; by apply Hkeep..].
    apply resolved_root; [|done]. rewrite list_lookup_insert_ne by done. auto.
  - intros d u [Hd|[-> <-]]%lookup_snoc_Some.
    + destruct Hd as [_ Hd]. destruct (Hpath d u Hd) as [b Hb]. exists b. rewrite list_lookup_insert_ne; [done|]. congruence.
    + exists a. by apply list_lookup_insert_eq.
  - intros u d b. rewrite list_lookup_insert_Some. intros [(<- & [= <- <-] & _)|[_ Hu]]; apply lookup_snoc_Some; [by right|left].
    pose proof (Hbeing u d b Hu) as Hd. split; [by eapply lookup_lt_Some|done].
  - intros u Hu. case_decide; [done|]. intros Eu. rewrite list_lookup_insert_ne by done. auto.
Qed.

(** The resolved states after the node at depth [k] is done: [new] for it and what was linked to it. *)
Definition pop_state (k : nat) (new s : NodeState A) : NodeState A :=
  match s with BeingVisited d _ => if decide (d = k) then new else s | _ => s end.
Definition pop_res (k : nat) (new : NodeState A) (u : nat) : NodeState A := pop_state k new (res u).

Lemma states_pop s new : states_ok n (path ++ [v]) states res -> (forall d a, s <> BeingVisited d a) -> new <> NotVisited -> s <> NotVisited ->
  resolved (<[v := s]> states) v new -> states_ok n path (<[v := s]> states) (pop_res (length path) new).
Proof.
  intros [Hn Hres Hpath Hbeing Hnew] Hs Hnew0 Hs0 Hv. set (k := length path) in *.
  destruct (Hpath k v) as [a Ea]; [by rewrite lookup_app_r, Nat.sub_diag by done|].
  assert (forall u su, resolved states u su -> resolved (<[v := s]> states) u (pop_state k new su)) as Hkeep.
  { intros u su (r & Hr & Es & Hsu). induction Hr as [r|u p r Hup Hpr IH].
    - destruct (decide (r = v)) as [->|Hne]; [assert (su = BeingVisited k a) as -> by congruence; simpl; by rewrite decide_True|].
      assert (resolved (<[v := s]> states) r su) as Hru by (apply resolved_root; [by rewrite list_lookup_insert_ne by congruence|done]).
      destruct su as [|d b| |]; [done| |done|done]. simpl. rewrite decide_False; [done|]. intros ->. apply Hbeing in Es.
      rewrite lookup_app_r, Nat.sub_diag in Es by done. by injection Es as ->.
    - eapply resolved_link; [|by apply IH]. unfold slink in *. rewrite list_lookup_insert_ne; [done|]. congruence. }
  split.
  - by rewrite length_insert.
  - intros u Hu. apply (Hkeep u (res u)). auto.
  - intros d u Hd. destruct (Hpath d u) as [b Hb]; [by apply lookup_app_l_Some|]. exists b. rewrite list_lookup_insert_ne; [done|].
    intros <-. apply lookup_lt_Some in Hd. assert (d = k) by congruence. lia.
  - intros u d b. rewrite list_lookup_insert_Some. intros [(<- & E & _)|[Hne Hu]]; [by destruct (Hs d b)|].
    apply Hbeing in Hu. apply lookup_snoc_Some in Hu as [[_ Hu]|[_ Hu]]; [done|congruence].
  - intros u Hu. unfold pop_res. intros E. assert (res u = NotVisited) as E0 by (destruct (res u) as [|d b| |]; simpl in E; [done|case_decide; done|done|done]).
    rewrite list_lookup_insert_ne; [auto|]. intros <-. specialize (Hnew v Hu E0). congruence.
Qed.

Lemma states_close c a : states_ok n (path ++ [v]) states res ->
  states_ok n path (<[v := InCycle c a]> states) (pop_res (length path) (InCycle c a)).
Proof.
  intros Hok. apply states_pop; [done..|]. apply resolved_root; [|done]. apply list_lookup_insert_eq.
  destruct Hok as [_ _ Hpath _ _]. destruct (Hpath (length path) v) as [b Hb]; [by rewrite lookup_app_r, Nat.sub_diag by done|].
  by eapply lookup_lt_Some.
Qed.

Lemma states_defer q m a : states_ok n (path ++ [v]) states res -> q < n -> res q = BeingVisited m a -> m < length path ->
  states_ok n path (<[v := InCycleWith q]> states) (pop_res (length path) (BeingVisited m a)).
Proof.
  intros Hok Hq Eq Hm. apply states_pop; [done..|]. destruct Hok as [_ Hres Hpath Hbeing _].
  destruct (Hpath (length path) v) as [b Hb]; [by rewrite lookup_app_r, Nat.sub_diag by done|].
  eapply resolved_link; [apply list_lookup_insert_eq; by eapply lookup_lt_Some|]. specialize (Hres q Hq). rewrite Eq in Hres.
  destruct Hres as (r & Hr & Es & Hs). assert (forall u, u <> v -> <[v := InCycleWith q]> states !! u = states !! u) as Hout
    by (intros u Hu; by apply list_lookup_insert_ne). revert Hout. generalize (<[v := InCycleWith q]> states). intros states' Hout.
  clear Hq Eq. induction Hr as [r|u p r Hup Hpr IH].
  - apply resolved_root; [|done]. rewrite Hout; [done|]. intros ->. assert (length path = m) by congruence. lia.
  - eapply resolved_link; [|by apply IH]. unfold slink in *. rewrite Hout; [done|]. congruence.
Qed.
End changes.

(** ** Creating a component *)

Lemma dedup_spec l : forall seen, NoDup (dedup seen l) /\ forall i, i ∈ dedup seen l <-> i ∈ l /\ i ∉ seen.
Proof.
  induction l as [|j l IH]; intros seen; simpl; [split; [constructor|]; intros i; rewrite elem_of_nil; naive_solver|].
  destruct (decide (j ∈ seen)) as [Hj|Hj].
  - destruct (IH seen) as [Hnd Hin]. split; [done|]. intros i. rewrite Hin, elem_of_cons. naive_solver.
  - destruct (IH ({[ j ]} ∪ seen)) as [Hnd Hin]. split.
    + constructor; [|done]. rewrite Hin. set_solver.
    + intros i. rewrite !elem_of_cons, Hin, not_elem_of_union, not_elem_of_singleton. destruct (decide (i = j)); naive_solver.
Qed.

Lemma create_scc_old d l t r : SccData_successors d t = Ret r -> SccData_successors (create_scc d l).1 t = Ret r.
Proof.
  unfold SccData_successors, create_scc, iv_index. simpl. destruct (scc_details d !! t) as [rng|] eqn:E; [|done]. simpl.
  rewrite lookup_app_l, E by (by eapply lookup_lt_Some). simpl. unfold slice. case_decide as Hr; [|done]. intros [= <-].
  rewrite decide_True by (rewrite length_app; lia). f_equal. rewrite drop_app_le, take_app_le; [done|rewrite length_drop; lia|lia].
Qed.

Lemma create_scc_new d l : SccData_successors (create_scc d l).1 (length (scc_details d)) = Ret l.
Proof.
  unfold SccData_successors, create_scc, iv_index. simpl. rewrite list_lookup_middle by done. simpl. unfold slice. simpl.
  rewrite decide_True by (rewrite length_app; lia). f_equal. rewrite drop_app_length, take_ge; [done|]. rewrite length_app. lia.
Qed.

(** ** The invariant of the search *)

Section invariant.
Context `{Successors G} (g : G) {A B : Type} `{!SccAnnotation A} `{!SccAnnotations B A}.
Hypothesis Hwf : graph_wf g.
Let n := num_nodes g.

(** An order in which the annotations are joined: within a component always, from the components
    reached only if [full].  The trivial order asks nothing. *)
Context (le : A -> A -> Prop) (cr : nat -> A) (full : bool).
Hypothesis le_refl : forall a, le a a.
Hypothesis le_trans : forall a b c, le a b -> le b c -> le a c.
Hypothesis scc_l : forall a b, le a (merge_scc a b).
Hypothesis scc_r : forall a b, le b (merge_scc a b).
Hypothesis scc_lub : forall a b c, le a c -> le b c -> le (merge_scc a b) c.
Hypothesis reached_l : forall a b, le a (merge_reached a b).
Hypothesis reached_r : forall a b, full = true -> le b (merge_reached a b).
Hypothesis reached_lub : forall a b c, le a c -> (full = true -> le b c) -> le (merge_reached a b) c.
Hypothesis cr_l : forall b v, le (cr v) (create_annotation (b : B) v).
Hypothesis cr_r : forall b v, le (create_annotation (b : B) v) (cr v).

Notation Ed := (edge (successors g)).
Notation reach := (reaches g).
Definition mutual (u v : nat) : Prop := reach u v /\ reach v u.
(** The nodes whose annotations [v]'s component joins. *)
Definition group (v u : nat) : Prop := if full then reach v u else mutual v u.

Implicit Types (res : nat -> NodeState A).
Definition done_at res (v t : nat) : Prop := exists a, res v = InCycle t a.
Definition at_depth res (v d : nat) : Prop := exists a, res v = BeingVisited d a.

(** A frame, with the successors seen so far, the nodes done below it whose component is open, and
    its part of [successors_stack]. *)
Record gframe : Type := mk_gframe { gx : VisitingNodeFrame A; g_done : list nat; g_pend : list nat; g_ent : list nat }.

(** Where an edge from under a frame at depth [k] with minimum depth [d] may lead. *)
Definition settled res (d k w : nat) : Prop := (exists t, done_at res w t) \/ exists d', at_depth res w d' /\ d <= d' <= k.

Definition seg_ok res (k m : nat) (seg : list nat) : Prop := forall u, u ∈ seg ->
  u < n /\ (exists d, at_depth res u d /\ m <= d <= k) /\ forall w, Ed u w -> settled res m k w.

Definition ent_ok res (R : nat -> nat -> Prop) (ent : list nat) : Prop := forall t, t ∈ ent <-> exists u w, R u w /\ done_at res w t.

Record ann_ok (anns : list A) (v : nat) (seg ent : list nat) (a : A) : Prop := {
  an_seg : forall u, u ∈ seg -> le (cr u) a;
  an_ent : forall t, t ∈ ent -> exists b, anns !! t = Some b /\ (full = true -> le b a);
  an_hi : forall c, (forall u, group v u -> le (cr u) c) -> le a c;
}.

Definition frame_edges (x : gframe) (u w : nat) : Prop := (u = fr_node (gx x) /\ w ∈ g_done x) \/ (u ∈ g_pend x /\ Ed u w).

Record frame_ok res (anns : list A) (k len : nat) (inprog rem : list nat) (x : gframe) : Prop := {
  fo_node : fr_node (gx x) < n;
  fo_depth : fr_depth (gx x) = k;
  fo_succ : successors g (fr_node (gx x)) = Ret (g_done x ++ inprog ++ rem);
  fo_len : fr_successors_len (gx x) = len;
  fo_min : fr_min_depth (gx x) <= k;
  fo_root : fr_min_depth (gx x) < k -> Ed (fr_node (gx x)) (fr_min_cycle_root (gx x)) /\ at_depth res (fr_min_cycle_root (gx x)) (fr_min_depth (gx x));
  fo_at : at_depth res (fr_node (gx x)) k;
  fo_done : forall w, w ∈ g_done x -> settled res (fr_min_depth (gx x)) k w;
  fo_pend : seg_ok res k (fr_min_depth (gx x)) (g_pend x);
  fo_ent : ent_ok res (frame_edges x) (g_ent x);
  fo_ann : ann_ok anns (fr_node (gx x)) (fr_node (gx x) :: g_pend x) (g_ent x) (fr_annotation (gx x));
}.

Fixpoint ents (X : list gframe) : list nat := match X with [] => [] | x :: X => ents X ++ g_ent x end.
Definition nodes (X : list gframe) : list nat := rev (map (fun x => fr_node (gx x)) X).

(** Frames, the top first, that wait for [child] and each for the one above it. *)
Fixpoint frames_ok res (anns : list A) (child : nat) (X : list gframe) : Prop :=
  match X with
  | [] => True
  | x :: X => (fr_successor_node (gx x) = child /\
      exists rem, fr_successors (gx x) = Some rem /\ frame_ok res anns (length X) (length (ents X)) [child] rem x) /\
      frames_ok res anns (fr_node (gx x)) X
  end.

Definition covered res (X : list gframe) (seg : list nat) : Prop := forall v d, v < n -> at_depth res v d ->
  v ∈ seg \/ exists x, x ∈ X /\ ((v = fr_node (gx x) /\ d = fr_depth (gx x)) \/ v ∈ g_pend x).

Definition log_annotations (b0 : B) (anns : list A) : B := foldl (fun b '(t, a) => annotate_scc b t a) b0 (enumerate anns).

(** The components found so far. *)
Record core (b0 : B) (anns : list A) res (path : list nat) (st : SccsConstruction A B) : Prop := {
  co_states : states_ok n path (node_states st) res;
  co_edge : forall v w t, v < n -> done_at res v t -> Ed v w -> exists t', done_at res w t' /\ t' <= t;
  co_same : forall v w t, v < n -> w < n -> done_at res v t -> done_at res w t -> mutual v w;
  co_lt : forall v t, v < n -> done_at res v t -> t < length (scc_details (scc_data st));
  co_used : forall t, t < length (scc_details (scc_data st)) -> exists v, v < n /\ done_at res v t;
  co_succ : forall t, t < length (scc_details (scc_data st)) -> exists l, SccData_successors (scc_data st) t = Ret l /\ NoDup l /\
    forall t', t' ∈ l <-> t' <> t /\ exists v w, v < n /\ done_at res v t /\ Ed v w /\ done_at res w t';
  co_mutual : forall v d p, v < n -> at_depth res v d -> path !! d = Some p -> mutual v p;
  co_path : forall d p q, path !! d = Some p -> path !! S d = Some q -> Ed p q;
  co_anns : length anns = length (scc_details (scc_data st)) /\ annotations st = log_annotations b0 anns;
  co_ann : forall v t a, v < n -> res v = InCycle t a -> anns !! t = Some a /\ (forall u, group v u -> le (cr u) a) /\
    forall c, (forall u, group v u -> le (cr u) c) -> le a c;
  co_being : forall v d a p, v < n -> res v = BeingVisited d a -> path !! d = Some p -> le a (cr p);
}.

Lemma scc_edge_range u w : u < n -> Ed u w -> w < n.
Proof.
  intros Hu (l & El & Hw). destruct (Hwf u) as (l' & El' & Hl'); [by apply elem_of_node_set|]. assert (l' = l) as -> by congruence.
  by apply elem_of_node_set, Hl'.
Qed.

Lemma group_mutual u v x : mutual u v -> group u x -> group v x.
Proof.
  intros [Huv Hvu]. unfold group, mutual. destruct full; [by etrans|]. intros [? ?]. split; by etrans.
Qed.

Lemma mutual_group u v : mutual u v -> group u v.
Proof. unfold group. destruct full; [by intros [? _]|done]. Qed.

Lemma mutual_trans u v w : mutual u v -> mutual v w -> mutual u w.
Proof. intros [? ?] [? ?]. split; by etrans. Qed.

Lemma mutual_sym u v : mutual u v -> mutual v u.
Proof. intros [? ?]. by split. Qed.

(** ** Frames under a change of state *)

(** [res'] has the components of [res], and the open nodes at depths below [k]. *)
Definition agrees (k : nat) res (res' : nat -> NodeState A) : Prop :=
  (forall w t a, res w = InCycle t a -> res' w = InCycle t a) /\ (forall w d a, d < k -> res w = BeingVisited d a -> res' w = BeingVisited d a).

Lemma agrees_done k res res' w t : agrees k res res' -> done_at res w t -> done_at res' w t.
Proof. intros [Ha _] [a Hw]. exists a. auto. Qed.

Lemma agrees_depth k res res' w d : agrees k res res' -> d < k -> at_depth res w d -> at_depth res' w d.
Proof. intros [_ Ha] Hd [a Hw]. exists a. auto. Qed.

Lemma agrees_settled k res res' d w : agrees (S k) res res' -> settled res d k w -> settled res' d k w /\ forall t, done_at res' w t -> done_at res w t.
Proof.
  intros Ha [[t Ht]|(d' & Hd' & Hle)].
  - split; [left; exists t; by eapply agrees_done|]. intros t' [a' Ht']. destruct Ht as [a Ht]. pose proof (proj1 Ha _ _ _ Ht). exists a. congruence.
  - split; [right; exists d'; split; [eapply agrees_depth; [exact Ha|lia|done]|done]|]. intros t' [a' Ht']. destruct Hd' as [a Hd'].
    pose proof (proj2 Ha w d' a ltac:(lia) Hd'). congruence.
Qed.

Lemma seg_ok_agrees k m res res' seg : agrees (S k) res res' -> seg_ok res k m seg -> seg_ok res' k m seg.
Proof.
  intros Ha Hs u Hu. destruct (Hs u Hu) as (Hn & (d & Hd & Hle) & Hw). split; [done|]. split; [exists d; split; [eapply agrees_depth; [exact Ha|lia|done]|done]|].
  intros w Hw'. eapply agrees_settled; [exact Ha|auto].
Qed.

Lemma frame_settled res anns k len inprog rem x u w : frame_ok res anns k len inprog rem x -> frame_edges x u w -> exists d, settled res d k w.
Proof.
  intros Hf [[_ Hw]|[Hu Hw]]; [eexists; by apply (fo_done _ _ _ _ _ _ _ Hf)|].
  destruct (fo_pend _ _ _ _ _ _ _ Hf u Hu) as (_ & _ & Hs). eauto.
Qed.

Lemma ann_ok_prefix anns anns' v seg ent a : anns `prefix_of` anns' -> ann_ok anns v seg ent a -> ann_ok anns' v seg ent a.
Proof.
  intros Hp [H1 H2 H3]. split; [done| |done]. intros t Ht. destruct (H2 t Ht) as (b & Hb & ?). exists b. split; [|done]. by eapply prefix_lookup_Some.
Qed.

Lemma frame_ok_agrees res res' anns anns' k len inprog rem x : agrees (S k) res res' -> anns `prefix_of` anns' ->
  frame_ok res anns k len inprog rem x -> frame_ok res' anns' k len inprog rem x.
Proof.
  intros Ha Hp Hf. pose proof (frame_settled res anns k len inprog rem x) as Hset. destruct Hf as [H1 H2 H3 H4 H5 H6 H7 H8 H9 H10 H11]. split; try done.
  - intros Hlt. destruct (H6 Hlt) as [? ?]. split; [done|]. eapply agrees_depth; [exact Ha|lia|done].
  - eapply agrees_depth; [exact Ha|lia|done].
  - intros w Hw. eapply agrees_settled; [exact Ha|auto].
  - by eapply seg_ok_agrees.
  - intros t. rewrite (H10 t). split; intros (u & w & HR & Hw); exists u, w; (split; [done|]).
    + by eapply agrees_done.
    + destruct (Hset u w) as [d Hd]; [by split|done|]. by eapply agrees_settled.
  - by eapply ann_ok_prefix.
Qed.

Lemma agrees_le k k' res res' : k' <= k -> agrees k res res' -> agrees k' res res'.
Proof. intros Hk [H1 H2]. split; [done|]. intros w d a Hd. apply H2. lia. Qed.

Lemma frames_ok_agrees res res' anns anns' X : anns `prefix_of` anns' -> forall child, agrees (length X) res res' ->
  frames_ok res anns child X -> frames_ok res' anns' child X.
Proof.
  intros Hp. induction X as [|x X IH]; intros child Ha; [done|]. intros [(Hs & rem & Hr & Hx) HX].
  split; [split; [done|]; exists rem; split; [done|]; by eapply frame_ok_agrees|].
  apply IH; [|done]. eapply agrees_le; [|exact Ha]. simpl. lia.
Qed.

Lemma depth_path b0 anns res path st v d : core b0 anns res path st -> v < n -> at_depth res v d -> exists p, path !! d = Some p /\ mutual v p.
Proof.
  intros Hc Hv Hd. destruct (so_res _ _ _ _ (co_states _ _ _ _ _ Hc) v Hv) as (r & _ & Er & _). destruct Hd as [a Ha]. rewrite Ha in Er.
  pose proof (so_being _ _ _ _ (co_states _ _ _ _ _ Hc) _ _ _ Er) as Hp. exists r. split; [done|]. eapply (co_mutual _ _ _ _ _ Hc); [done|by exists a|done].
Qed.

(** The frames' nodes are the path. *)
Lemma nodes_snoc x X : nodes (x :: X) = nodes X ++ [fr_node (gx x)].
Proof. done. Qed.

Lemma nodes_length X : length (nodes X) = length X.
Proof. unfold nodes. by rewrite length_rev, length_map. Qed.

Lemma frames_top_path b0 anns res st x X : core b0 anns res (nodes (x :: X)) st -> forall d p, nodes (x :: X) !! d = Some p -> reach p (fr_node (gx x)).
Proof.
  intros Hc d p Hp. pose proof (co_path _ _ _ _ _ Hc) as Hpath.
  assert (forall j d p, d + j = length X -> nodes (x :: X) !! d = Some p -> reach p (fr_node (gx x))) as Hj.
  { induction j as [|j IH]; intros d0 p0 Hd Hp0.
    - rewrite nodes_snoc, lookup_app_r, nodes_length in Hp0 by (rewrite nodes_length; lia). replace (d0 - length X) with 0 in Hp0 by lia. by injection Hp0 as ->.
    - destruct (lookup_lt_is_Some_2 (nodes (x :: X)) (S d0)) as [q Hq]; [rewrite nodes_length; simpl; lia|].
      eapply rtc_l; [by eapply Hpath|]. eapply (IH (S d0)); [lia|done]. }
  apply lookup_lt_Some in Hp as Hlt. rewrite nodes_length in Hlt. simpl in Hlt. apply (Hj (length X - d) d); [lia|done].
Qed.

(** ** While a frame's successors are looked at *)

(** The top frame is [x]; its successors [rem] have not been looked at, those in [inprog] are being
    walked, and [cseg] and [cents] are what the last walk left open. *)
Record work (b0 : B) (anns : list A) res (st : SccsConstruction A B) (x : gframe) (X : list gframe) (inprog rem cseg cents : list nat) : Prop := {
  wk_core : core b0 anns res (node_stack st) st;
  wk_path : node_stack st = nodes (x :: X);
  wk_top : frame_ok res anns (length X) (length (ents X)) inprog rem x;
  wk_rest : frames_ok res anns (fr_node (gx x)) X;
  wk_ents : successors_stack st = ents (x :: X) ++ cents;
  wk_cover : covered res (x :: X) cseg;
}.

Lemma core_states b0 anns res path st st' : core b0 anns res path st -> states_ok n path (node_states st') res ->
  scc_data st' = scc_data st -> annotations st' = annotations st -> core b0 anns res path st'.
Proof. intros [H1 H2 H3 H4 H5 H6 H7 H8 H9 H10 H11] Hs Hd Ha. split; rewrite ?Hd, ?Ha; done. Qed.

Lemma settled_le res d d' k w : d' <= d -> settled res d k w -> settled res d' k w.
Proof. intros Hd [?|(e & ? & ?)]; [by left|right]. exists e. split; [done|lia]. Qed.

Lemma seg_ok_le res k m m' seg : m' <= m -> seg_ok res k m seg -> seg_ok res k m' seg.
Proof. intros Hm Hs u Hu. destruct (Hs u Hu) as (? & (d & ? & ?) & Hw). split; [done|]. split; [exists d; split_and!; [done|lia|lia]|].
  intros w Hw'. eapply settled_le; [exact Hm|auto]. Qed.

Lemma seg_ok_app res k m seg seg' : seg_ok res k m seg -> seg_ok res k m seg' -> seg_ok res k m (seg ++ seg').
Proof. intros H1 H2 u [Hu|Hu]%elem_of_app; auto. Qed.

(** What the walk of a successor of [x] tells. *)
Definition walk_ok (anns : list A) res (x : gframe) (k child : nat) (walk : WalkReturn A) (cseg cents : list nat) : Prop :=
  match walk with
  | Complete t a => res child = InCycle t a /\ cseg = [] /\ cents = []
  | Cycle m a => m <= k /\ at_depth res child m /\ seg_ok res k m cseg /\ ent_ok res (fun u w => u ∈ cseg /\ Ed u w) cents /\
      ann_ok anns (fr_node (gx x)) cseg cents a
  end.

Lemma done_not_depth res w t d : done_at res w t -> at_depth res w d -> False.
Proof. intros [a Ha] [b Hb]. congruence. Qed.

Lemma done_unique res w t t' : done_at res w t -> done_at res w t' -> t = t'.
Proof. intros [a Ha] [b Hb]. congruence. Qed.

(** The frame after the walk of [c]. *)
Definition absorbed (x : gframe) (fr : VisitingNodeFrame A) (c : nat) (walk : WalkReturn A) (cseg cents : list nat) : gframe :=
  mk_gframe fr (g_done x ++ [c]) (g_pend x ++ cseg) (g_ent x ++ cents ++ match walk with Complete t _ => [t] | _ => [] end).

Lemma absorb_cycle b0 anns res st x X c rem m a cseg cents : work b0 anns res st x X [c] rem cseg cents ->
  walk_ok anns res x (length X) c (Cycle m a) cseg cents ->
  exists st' fr', absorb st (gx x) c (Cycle m a) = Ret (st', fr') /\ work b0 anns res st' (absorbed x fr' c (Cycle m a) cseg cents) X [] rem [] [] /\
    fr_node fr' = fr_node (gx x) /\ fr_successors fr' = fr_successors (gx x) /\ annotations st' = annotations st.
Proof.
  intros [Hc Hp Hf Hr He Hcov] (Hm & Hcm & Hseg & Hcents & Hann). destruct Hf as [H1 H2 H3 H4 H5 H6 H7 H8 H9 H10 H11].
  unfold absorb. rewrite H2, (bool_decide_eq_true_2 (m <= length X)) by done. cbn [mbind outcome_bind rust_assert]. eexists _, _. split; [reflexivity|].
  split; [|done]. set (mn := if bool_decide (m < fr_min_depth (gx x)) then m else fr_min_depth (gx x)).
  assert (mn <= m /\ mn <= fr_min_depth (gx x)) as [Hm1 Hm2] by (unfold mn; case_bool_decide; lia).
  split; [done|done| |done| |].
  - split; simpl; try done.
    + rewrite <- app_assoc. exact H3.
    + unfold mn. case_bool_decide; lia.
    + unfold mn. case_bool_decide; [|done]. intros _. split; [|done]. eexists. split; [exact H3|]. set_solver.
    + intros w [Hw| ->%list_elem_of_singleton]%elem_of_app; [eapply settled_le; [|by apply H8]; done|]. right. exists m. done.
    + apply seg_ok_app; (eapply seg_ok_le; [|done]); done.
    + intros t. rewrite app_nil_r, elem_of_app, (H10 t), (Hcents t). unfold frame_edges. simpl. split.
      * intros [(u & w & HR & Hw)|(u & w & HR & Hw)]; exists u, w; (split; [|done]); set_solver.
      * intros (u & w & [[-> [Hw| ->%list_elem_of_singleton]%elem_of_app]|[[Hu|Hu]%elem_of_app Hw]] & Ht).
        -- left. exists (fr_node (gx x)), w. split; [by left|done].
        -- exfalso. by eapply done_not_depth.
        -- left. exists u, w. split; [by right|done].
        -- right. by exists u, w.
    + destruct H11 as [A1 A2 A3], Hann as [B1 B2 B3]. split.
      * intros u [->|[Hu|Hu]%elem_of_app]%elem_of_cons; [eapply le_trans; [apply A1; by left|done]|eapply le_trans; [apply A1; by right|done]|].
        eapply le_trans; [by apply B1|done].
      * intros t. rewrite app_nil_r. intros [Ht|Ht]%elem_of_app; [destruct (A2 t Ht) as (b & ? & Hb)|destruct (B2 t Ht) as (b & ? & Hb)];
          exists b; (split; [done|]); intros Hfull; (eapply le_trans; [by apply Hb|done]).
      * intros d Hd. apply scc_lub; auto.
  - simpl. rewrite !app_nil_r, He. simpl. by rewrite app_assoc.
  - intros v d Hv Hd. destruct (Hcov v d Hv Hd) as [Hin|(y & Hy & Hcase)].
    + right. eexists. split; [by left|]. right. simpl. set_solver.
    + right. apply elem_of_cons in Hy as [->|Hy]; [|exists y; split; [by right|done]]. eexists. split; [by left|]. simpl.
      destruct Hcase as [[-> ->]|Hin]; [left; by rewrite ?H2|right; set_solver].
Qed.

Lemma absorb_complete b0 anns res st x X c rem t a : work b0 anns res st x X [c] rem [] [] -> res c = InCycle t a ->
  exists st' fr', absorb st (gx x) c (Complete t a) = Ret (st', fr') /\ work b0 anns res st' (absorbed x fr' c (Complete t a) [] []) X [] rem [] [] /\
    fr_node fr' = fr_node (gx x) /\ fr_successors fr' = fr_successors (gx x) /\ annotations st' = annotations st.
Proof.
  intros [Hc Hp Hf Hr He Hcov] Hct. destruct Hf as [H1 H2 H3 H4 H5 H6 H7 H8 H9 H10 H11]. eexists _, _. split; [reflexivity|].
  assert (Ed (fr_node (gx x)) c) as Hec by (eexists; split; [exact H3|]; set_solver).
  split; [|done]. split; [by eapply core_states; [|apply Hc|..]|done| |done| |].
  - split; simpl; rewrite ?app_nil_r; try done.
    + rewrite <- app_assoc. exact H3.
    + intros w [Hw| ->%list_elem_of_singleton]%elem_of_app; [by apply H8|]. left. exists t, a. done.
    + intros t'. rewrite elem_of_app, (H10 t'), list_elem_of_singleton. unfold frame_edges. simpl. rewrite app_nil_r. split.
      * intros [(u & w & HR & Hw)| ->]; [exists u, w; split; [set_solver|done]|]. exists (fr_node (gx x)), c. split; [set_solver|by exists a].
      * intros (u & w & [[-> [Hw| ->%list_elem_of_singleton]%elem_of_app]|[Hu Hw]] & Ht).
        -- left. exists (fr_node (gx x)), w. split; [by left|done].
        -- right. eapply done_unique; [done|by exists a].
        -- left. exists u, w. split; [by right|done].
    + destruct H11 as [A1 A2 A3]. destruct (co_ann _ _ _ _ _ Hc c t a (scc_edge_range _ _ H1 Hec) Hct) as (Ha & Hlo & Hhi). split.
      * intros u Hu. eapply le_trans; [by apply A1|done].
      * intros t' [Ht'| ->%list_elem_of_singleton]%elem_of_app; [|by exists a; auto].
        destruct (A2 t' Ht') as (b & ? & Hb). exists b. split; [done|]. intros Hfull. eapply le_trans; [by apply Hb|done].
      * intros d Hd. apply reached_lub; [auto|]. intros Hfull. apply Hhi. intros u Hu. apply Hd. unfold group in *. rewrite Hfull in *.
        by eapply rtc_l.
  - simpl. rewrite !app_nil_r. rewrite He. simpl. by rewrite app_nil_r, app_assoc.
  - intros v d Hv Hd. destruct (Hcov v d Hv Hd) as [Hin|(y & Hy & Hcase)]; [by apply elem_of_nil in Hin|].
    right. apply elem_of_cons in Hy as [->|Hy]; [|exists y; split; [by right|done]]. eexists. split; [by left|]. simpl. by rewrite app_nil_r.
Qed.

Lemma work_states b0 anns res st x X inprog rem cseg cents states : work b0 anns res st x X inprog rem cseg cents ->
  states_ok n (node_stack st) states res -> work b0 anns res (with_states st states) x X inprog rem cseg cents.
Proof. intros [Hc Hp Hf Hr He Hcov] Hs. split; [by eapply core_states|done..]. Qed.

Lemma work_begin b0 anns res st x X s rem cseg cents : work b0 anns res st x X [] (s :: rem) cseg cents -> work b0 anns res st x X [s] rem cseg cents.
Proof. intros [Hc Hp Hf Hr He Hcov]. split; [done..| |done|done|done]. by destruct Hf. Qed.

(** A successor that is open already: it lies on a cycle through the frame's node. *)
Lemma back_edge_ok b0 anns res st x X s rem d a : work b0 anns res st x X [s] rem [] [] -> s < n -> res s = BeingVisited d a ->
  walk_ok anns res x (length X) s (Cycle d a) [] [].
Proof.
  intros [Hc Hp Hf Hr He Hcov] Hs Ed0. destruct (depth_path _ _ _ _ _ s d Hc Hs) as (p & Hpd & Hsp); [by exists a|].
  assert (d <= length X) as Hd.
  { apply lookup_lt_Some in Hpd. rewrite Hp, nodes_length in Hpd. simpl in Hpd. lia. }
  assert (mutual (fr_node (gx x)) p) as Hmut.
  { destruct Hsp as [Hsp1 Hsp2]. split.
    - eapply rtc_l; [|exact Hsp1]. eexists. split; [exact (fo_succ _ _ _ _ _ _ _ Hf)|]. set_solver.
    - rewrite Hp in Hc, Hpd. by eapply frames_top_path. }
  split_and!; [done|by exists a|intros u Hu; by apply elem_of_nil in Hu| |].
  - intros t. split; [by intros ?%elem_of_nil|]. intros (u & w & [?%elem_of_nil _] & _). done.
  - split; [intros u Hu; by apply elem_of_nil in Hu|intros t Ht; by apply elem_of_nil in Ht|]. intros c Hcs.
    eapply le_trans; [by eapply (co_being _ _ _ _ _ Hc)|]. by apply Hcs, mutual_group.
Qed.

(** What the loop over the successors ends with. *)
Definition loop_end (b0 : B) (anns : list A) res (st : SccsConstruction A B) (x : gframe) (X : list gframe) (next : option nat) : Prop :=
  match next with
  | None => work b0 anns res st x X [] [] [] []
  | Some s => exists rem, fr_successors (gx x) = Some rem /\ fr_successor_node (gx x) = s /\ work b0 anns res st x X [s] rem [] [] /\
      s < n /\ res s = NotVisited
  end.

Lemma work_refresh b0 anns res st x X s rem l : work b0 anns res st x X [s] rem [] [] ->
  work b0 anns res st (mk_gframe (mk_frame (fr_node (gx x)) l (fr_depth (gx x)) (fr_min_depth (gx x)) (fr_successors_len (gx x))
    (fr_min_cycle_root (gx x)) s (fr_annotation (gx x))) (g_done x) (g_pend x) (g_ent x)) X [s] rem [] [].
Proof.
  intros [Hc Hp Hf Hr He Hcov]. destruct Hf as [H1 H2 H3 H4 H5 H6 H7 H8 H9 H10 H11]. split; [done|done|by split|done|done|].
  intros v d Hv Hd. destruct (Hcov v d Hv Hd) as [?|(y & Hy & Hcase)]; [by left|right].
  apply elem_of_cons in Hy as [->|Hy]; [|exists y; split; [by right|done]]. eexists. split; [by left|]. done.
Qed.

Lemma walk_successors_spec fuel b0 anns res X l : n < fuel -> forall st x, work b0 anns res st x X [] l [] [] ->
  exists st' x' next, walk_successors fuel st (gx x) l = Ret (st', gx x', next) /\ fr_node (gx x') = fr_node (gx x) /\
    loop_end b0 anns res st' x' X next.
Proof.
  intros Hf. induction l as [|s l IH]; intros st x Hw; [by exists st, x, None|]. apply work_begin in Hw. cbn [walk_successors].
  assert (s < n) as Hs.
  { destruct Hw as [_ _ Hfr _ _ _]. eapply scc_edge_range; [apply (fo_node _ _ _ _ _ _ _ Hfr)|]. eexists. split; [apply (fo_succ _ _ _ _ _ _ _ Hfr)|]. set_solver. }
  destruct (find_state_spec n st res s fuel (co_states _ _ _ _ _ (wk_core _ _ _ _ _ _ _ _ _ _ Hw)) Hs Hf) as (states & E & Hok).
  unfold inspect_node. rewrite E. cbn [mbind outcome_bind]. pose proof (work_states _ _ _ _ _ _ _ _ _ _ _ Hw Hok) as Hw1.
  pose proof (so_res _ _ _ _ Hok s Hs) as (r & _ & _ & Hroot). destruct (res s) as [|d a|t a|] eqn:Es; [| | |done]; cbn [mbind outcome_bind].
  - eexists _, (mk_gframe (mk_frame _ _ _ _ _ _ s _) (g_done x) (g_pend x) (g_ent x)), (Some s). split; [reflexivity|]. split; [done|].
    exists l. split_and!; [done|done| |done|done]. by apply work_refresh.
  - destruct (absorb_cycle b0 anns res (with_states st states) x X s l d a [] [] Hw1) as (st2 & fr2 & -> & Hw2 & Hn2 & _); [by eapply back_edge_ok|].
    cbn [mbind outcome_bind]. destruct (IH st2 _ Hw2) as (st3 & x3 & next & E3 & Hn3 & Hend). simpl in E3, Hn3. rewrite E3.
    exists st3, x3, next. split_and!; [done|congruence|done].
  - destruct (absorb_complete b0 anns res (with_states st states) x X s l t a Hw1 Es) as (st2 & fr2 & -> & Hw2 & Hn2 & _).
    cbn [mbind outcome_bind]. destruct (IH st2 _ Hw2) as (st3 & x3 & next & E3 & Hn3 & Hend). simpl in E3, Hn3. rewrite E3.
    exists st3, x3, next. split_and!; [done|congruence|done].
Qed.

(** ** A new frame *)

Definition visit_res res (v d : nat) (a : A) (u : nat) : NodeState A := if decide (u = v) then BeingVisited d a else res u.

Lemma visit_agrees res v d a k : res v = NotVisited -> agrees k res (visit_res res v d a).
Proof. intros Hv. split; intros w; unfold visit_res; intros; case_decide; congruence. Qed.

Lemma visit_done res v d a w t : res v = NotVisited -> done_at (visit_res res v d a) w t <-> done_at res w t.
Proof. intros Hv. unfold done_at, visit_res. case_decide; [subst|done]. rewrite Hv. split; intros [? [=]]. Qed.

Lemma visit_depth res v d a w d' : at_depth (visit_res res v d a) w d' <-> (w = v /\ d' = d) \/ (w <> v /\ at_depth res w d').
Proof. unfold at_depth, visit_res. case_decide; naive_solver. Qed.

Lemma frames_child_edge res anns child x X : frames_ok res anns child (x :: X) -> Ed (fr_node (gx x)) child.
Proof. intros [(_ & rem & _ & Hf) _]. eexists. split; [apply (fo_succ _ _ _ _ _ _ _ Hf)|]. set_solver. Qed.

Lemma core_visit b0 anns res st X v a states st' : core b0 anns res (node_stack st) st -> node_stack st = nodes X -> frames_ok res anns v X ->
  v < n -> res v = NotVisited -> le a (cr v) -> states = <[v := BeingVisited (length X) a]> (node_states st) ->
  st' = mk_construction states (node_stack st ++ [v]) (successors_stack st) (scc_data st) (annotations st) ->
  core b0 anns (visit_res res v (length X) a) (node_stack st ++ [v]) st'.
Proof.
  intros Hc Hp HX Hv Hnv Ha -> ->. assert (length (node_stack st) = length X) as Hlen by (rewrite Hp; apply nodes_length).
  pose proof (fun w d => depth_path _ _ _ _ _ w d Hc) as Hdp. destruct Hc as [H1 H2 H3 H4 H5 H6 H7 H8 H9 H10 H11].
  assert (forall w t, done_at (visit_res res v (length X) a) w t <-> done_at res w t) as Hd by (intros; by apply visit_done).
  split; simpl; try done.
  - rewrite <- Hlen. by apply states_visit.
  - intros u w t Hu. rewrite !Hd. intros. setoid_rewrite Hd. eauto.
  - intros u w t Hu Hw. rewrite !Hd. eauto.
  - intros u t Hu. rewrite !Hd. eauto.
  - intros t Ht. setoid_rewrite Hd. eauto.
  - intros t Ht. setoid_rewrite Hd. eauto.
  - intros u d p Hu. rewrite visit_depth. intros [[-> ->]|[Hne Hu']] Hpd.
    + rewrite lookup_app_r, <- Hlen, Nat.sub_diag in Hpd by lia. injection Hpd as <-. split; apply rtc_refl.
    + destruct (Hdp u d Hu Hu') as (p' & Hp' & Hm). rewrite lookup_app_l in Hpd by (by eapply lookup_lt_Some). congruence.
  - intros d p q Hpd Hq. apply lookup_snoc_Some in Hq as [[Hlt Hq]|[Hq <-]].
    + rewrite lookup_app_l in Hpd by lia. eauto.
    + destruct X as [|x X]; [simpl in Hlen; lia|]. rewrite lookup_app_l in Hpd by lia. rewrite Hp, nodes_snoc, lookup_app_r, nodes_length in Hpd by
        (rewrite nodes_length; rewrite Hp, nodes_length in Hq; simpl in Hq; lia).
      replace (d - length X) with 0 in Hpd by (rewrite Hp, nodes_length in Hq; simpl in Hq; lia). injection Hpd as <-. by eapply frames_child_edge.
  - intros u t b Hu. unfold visit_res. case_decide; [done|]. eauto.
  - intros u d b p Hu. unfold visit_res. case_decide.
    + intros [= <- <-] Hpd. subst u. rewrite lookup_app_r, <- Hlen, Nat.sub_diag in Hpd by lia. by injection Hpd as <-.
    + intros Hub Hpd. destruct (Hdp u d Hu) as (p' & Hp' & _); [by exists b|]. rewrite lookup_app_l in Hpd by (by eapply lookup_lt_Some). eauto.
Qed.

Lemma init_spec b0 anns res st X v b : core b0 anns res (node_stack st) st -> node_stack st = nodes X -> frames_ok res anns v X ->
  successors_stack st = ents X -> covered res X [] -> v < n -> res v = NotVisited ->
  exists st' x rem, init_frame g st (new_frame b v (length X)) = Ret (st', gx x, rem) /\ fr_node (gx x) = v /\
    work b0 anns (visit_res res v (length X) (create_annotation b v)) st' x X [] rem [] [].
Proof.
  intros Hc Hp HX He Hcov Hv Hnv. set (a := create_annotation b v). destruct (Hwf v) as (l & El & _); [by apply elem_of_node_set|].
  pose proof (so_new _ _ _ _ (co_states _ _ _ _ _ Hc) v Hv Hnv) as Ev. unfold init_frame. simpl. unfold iv_index. rewrite Ev. simpl.
  unfold iv_set. rewrite decide_True by (by eapply lookup_lt_Some). simpl. rewrite El. simpl.
  eexists _, (mk_gframe (mk_frame v (Some l) _ _ _ v v a) [] [] []), l. split; [reflexivity|]. split; [done|].
  pose proof (visit_agrees res v (length X) a (length X) Hnv) as Hag.
  assert (at_depth (visit_res res v (length X) a) v (length X)) as Hav by (apply visit_depth; by left).
  split; simpl.
  - eapply core_visit; [done..|apply cr_r|done|done].
  - by rewrite Hp.
  - split; simpl; try done.
    + by rewrite He.
    + lia.
    + intros w Hw. by apply elem_of_nil in Hw.
    + intros u Hu. by apply elem_of_nil in Hu.
    + intros t. split; [by intros ?%elem_of_nil|]. intros (u & w & [[_ ?%elem_of_nil]|[?%elem_of_nil _]] & _); done.
    + split; [intros u ->%list_elem_of_singleton; apply cr_l|intros t Ht; by apply elem_of_nil in Ht|]. intros c Hcs.
      eapply le_trans; [apply cr_r|]. apply Hcs, mutual_group. split; apply rtc_refl.
  - by eapply frames_ok_agrees.
  - by rewrite He, !app_nil_r.
  - intros u d Hu. rewrite visit_depth. intros [[-> ->]|[Hne Hu']].
    + right. eexists. split; [by left|]. left. done.
    + destruct (Hcov u d Hu Hu') as [?%elem_of_nil|(y & Hy & ?)]; [done|]. right. exists y. split; [by right|done].
Qed.

(** ** The end of a frame *)

Lemma pop_done res k new w t : done_at (pop_res res k new) w t <-> done_at res w t \/ (at_depth res w k /\ exists a, new = InCycle t a).
Proof.
  unfold done_at, at_depth, pop_res, pop_state. destruct (res w) as [|d b| |]; [naive_solver| |naive_solver|naive_solver].
  case_decide; [subst; naive_solver|]. split; [naive_solver|]. intros [[? [=]]|[[? [= ? ?]] _]]. done.
Qed.

Lemma pop_depth res k new w d : at_depth (pop_res res k new) w d <-> (at_depth res w d /\ d <> k) \/ (at_depth res w k /\ exists a, new = BeingVisited d a).
Proof.
  unfold at_depth, pop_res, pop_state. destruct (res w) as [|e b| |]; [naive_solver| |naive_solver|naive_solver].
  case_decide; [subst; naive_solver|]. split; [naive_solver|]. intros [[[? [= -> ->]] ?]|[[? [= ? ?]] _]]; naive_solver.
Qed.

Lemma pop_agrees res k new : agrees k res (pop_res res k new).
Proof.
  split; intros w; unfold pop_res, pop_state; [by intros t a ->|]. intros d a Hd ->. rewrite decide_False by lia. done.
Qed.

Lemma depth_unique res w d d' : at_depth res w d -> at_depth res w d' -> d = d'.
Proof. intros [a Ha] [b Hb]. congruence. Qed.

Lemma frames_below res anns child X y : frames_ok res anns child X -> y ∈ X -> fr_depth (gx y) < length X /\
  forall u, u ∈ g_pend y -> exists d, at_depth res u d /\ d < length X.
Proof.
  revert child. induction X as [|x X IH]; intros child HX Hy; [by apply elem_of_nil in Hy|]. destruct HX as [(_ & rem & _ & Hf) HX].
  simpl. apply elem_of_cons in Hy as [->|Hy].
  - rewrite (fo_depth _ _ _ _ _ _ _ Hf). split; [lia|]. intros u Hu. destruct (fo_pend _ _ _ _ _ _ _ Hf u Hu) as (_ & (d & ? & ?) & _). exists d. split; [done|lia].
  - destruct (IH _ HX Hy) as [? Hp]. split; [lia|]. intros u Hu. destruct (Hp u Hu) as (d & ? & ?). exists d. split; [done|lia].
Qed.

Section finish.
Context (b0 : B) (anns : list A) (res : nat -> NodeState A) (st : SccsConstruction A B) (x : gframe) (X : list gframe).
Hypothesis Hw : work b0 anns res st x X [] [] [] [].
Notation k := (length X).
Notation v := (fr_node (gx x)).
Notation a := (fr_annotation (gx x)).
Let Hc := wk_core _ _ _ _ _ _ _ _ _ _ Hw.
Let Hf := wk_top _ _ _ _ _ _ _ _ _ _ Hw.

Lemma top_path : node_stack st = nodes X ++ [v].
Proof. apply (wk_path _ _ _ _ _ _ _ _ _ _ Hw). Qed.

Lemma top_lookup : node_stack st !! k = Some v.
Proof. rewrite top_path, lookup_app_r, nodes_length, Nat.sub_diag by (rewrite nodes_length; done). done. Qed.

Lemma below_lookup d p : nodes X !! d = Some p -> node_stack st !! d = Some p /\ d < k.
Proof. intros Hd. rewrite top_path. split; [by apply lookup_app_l_Some|]. rewrite <- nodes_length. by eapply lookup_lt_Some. Qed.

(** The nodes and edges the frame is answerable for. *)
Lemma seg_facts u : u ∈ v :: g_pend x -> u < n /\ (exists d, at_depth res u d /\ fr_min_depth (gx x) <= d <= k) /\
  forall w, Ed u w -> settled res (fr_min_depth (gx x)) k w /\ frame_edges x u w.
Proof.
  intros [->|Hu]%elem_of_cons.
  - split; [apply (fo_node _ _ _ _ _ _ _ Hf)|]. split; [exists k; split; [apply (fo_at _ _ _ _ _ _ _ Hf)|split; [apply (fo_min _ _ _ _ _ _ _ Hf)|done]]|].
    intros w (l & El & Hl). rewrite (fo_succ _ _ _ _ _ _ _ Hf), !app_nil_r in El. injection El as <-.
    split; [by apply (fo_done _ _ _ _ _ _ _ Hf)|by left].
  - destruct (fo_pend _ _ _ _ _ _ _ Hf u Hu) as (Hn & Hd & Hs). split; [done|]. split; [done|]. intros w Hw'. split; [by apply Hs|by right].
Qed.

Lemma open_at_top u : u < n -> at_depth res u k -> u ∈ v :: g_pend x.
Proof.
  intros Hu Hk. destruct (wk_cover _ _ _ _ _ _ _ _ _ _ Hw u k Hu Hk) as [?%elem_of_nil|(y & [->|Hy]%elem_of_cons & Hcase)]; [done|set_solver|].
  destruct (frames_below _ _ _ _ y (wk_rest _ _ _ _ _ _ _ _ _ _ Hw) Hy) as [Hd Hp].
  destruct Hcase as [[_ Hk']|Hin]; [lia|]. destruct (Hp u Hin) as (d & Hud & Hlt). pose proof (depth_unique _ _ _ _ Hk Hud). lia.
Qed.

Lemma at_top_mutual u : u < n -> at_depth res u k -> mutual u v.
Proof. intros Hu Hk. eapply (co_mutual _ _ _ _ _ Hc); [done|done|apply top_lookup]. Qed.

Lemma done_closed w u t : w < n -> done_at res w t -> reach w u -> exists t', done_at res u t'.
Proof.
  intros Hwn Ht Hr. revert t Hwn Ht. induction Hr as [w|w y u Hwy Hyu IH]; intros t Hwn Ht; [eauto|].
  destruct (co_edge _ _ _ _ _ Hc w y t Hwn Ht Hwy) as (t' & Ht' & _). eapply IH; [by eapply scc_edge_range|done].
Qed.

Section close.
Hypothesis Hmin : fr_min_depth (gx x) = k.
Let t := length (scc_details (scc_data st)).
Let res' := pop_res res k (InCycle t a).

Lemma close_seg u : u < n -> u ∈ v :: g_pend x <-> at_depth res u k.
Proof.
  intros Hu. split; [|by apply open_at_top]. intros Hin. destruct (seg_facts u Hin) as (_ & (d & Hd & Hle) & _).
  assert (d = k) as -> by lia. done.
Qed.

Lemma close_done w s : done_at res' w s <-> done_at res w s \/ (at_depth res w k /\ s = t).
Proof. unfold res'. rewrite pop_done. split; intros [?|[? Ht]]; auto; [destruct Ht; naive_solver|subst; right; eauto]. Qed.

Lemma close_old w s : w < n -> done_at res w s -> s < t.
Proof. intros. by eapply (co_lt _ _ _ _ _ Hc). Qed.

Lemma close_edge u w : u < n -> at_depth res u k -> Ed u w -> (exists s, s ∈ g_ent x /\ done_at res w s) \/ at_depth res w k.
Proof.
  intros Hu Hk He. apply open_at_top in Hk; [|done]. destruct (seg_facts u Hk) as (_ & _ & Hs). destruct (Hs w He) as [[[s Hd]|(d & Hd & Hle)] Hfe].
  - left. exists s. split; [|done]. apply (fo_ent _ _ _ _ _ _ _ Hf). eauto.
  - right. assert (d = k) as -> by lia. done.
Qed.

(** The annotation bounds those of the component, and of what it reaches. *)
Lemma close_group u : group v u -> le (cr u) a.
Proof.
  intros Hg. assert (forall y, y < n -> at_depth res y k -> reach y u -> (full = false -> reach u v) -> le (cr u) a) as Hind.
  { intros y Hy Hk Hr Hback. induction Hr as [u|y w u Hyw Hwu IH].
    - apply (an_seg _ _ _ _ _ (fo_ann _ _ _ _ _ _ _ Hf)). by apply open_at_top.
    - pose proof (scc_edge_range y w Hy Hyw) as Hwn. destruct (close_edge y w Hy Hk Hyw) as [(s & Hs & Hd)|Hwk]; [|by apply IH].
      destruct full eqn:Ef.
      + destruct (an_ent _ _ _ _ _ (fo_ann _ _ _ _ _ _ _ Hf) s Hs) as (b & Hb & Hle). eapply le_trans; [|by apply Hle]. destruct Hd as [b' Hd].
        destruct (co_ann _ _ _ _ _ Hc w s b' Hwn Hd) as (Hb' & Hlo & _). assert (b' = b) as -> by congruence. apply Hlo. unfold group. by rewrite Ef.
      + exfalso. destruct (done_closed w v s Hwn Hd) as [s' Hs']; [etrans; [exact Hwu|auto]|].
        eapply done_not_depth; [exact Hs'|apply (fo_at _ _ _ _ _ _ _ Hf)]. }
  apply (Hind v); [apply (fo_node _ _ _ _ _ _ _ Hf)|apply (fo_at _ _ _ _ _ _ _ Hf)|..].
  - unfold group in Hg. destruct full; [done|apply Hg].
  - intros Ef. unfold group in Hg. rewrite Ef in Hg. apply Hg.
Qed.
Lemma core_close l states st' : (forall s, s ∈ l <-> s ∈ g_ent x) -> NoDup l -> states = <[v := InCycle t a]> (node_states st) ->
  st' = mk_construction states (nodes X) (ents X) (create_scc (scc_data st) l).1 (annotate_scc (annotations st) t a) ->
  core b0 (anns ++ [a]) res' (nodes X) st'.
Proof.
  intros Hl Hnd -> ->. assert (length (nodes X) = k) as Hlen by apply nodes_length.
  assert (v < n) as Hv by apply (fo_node _ _ _ _ _ _ _ Hf). assert (at_depth res v k) as Hvk by apply (fo_at _ _ _ _ _ _ _ Hf).
  pose proof close_done as Hdone. pose proof close_old as Hold. pose proof Hc as [H1 H2 H3 H4 H5 H6 H7 H8 [H9 H9'] H10 H11].
  assert (forall u w, u < n -> Ed u w -> forall s, s < t -> done_at res' u s -> done_at res u s /\ exists s', done_at res w s') as Hsmall.
  { intros u w Hu He s Hs [Hd|[_ ->]]%Hdone; [|lia]. split; [done|]. destruct (H2 u w s Hu Hd He) as (s' & ? & _). eauto. }
  split; simpl.
  - unfold res'. rewrite <- Hlen. apply states_close. by rewrite <- top_path.
  - intros u w s Hu [Hd|[Hk ->]]%Hdone He.
    + destruct (H2 u w s Hu Hd He) as (s' & ? & ?). exists s'. split; [apply Hdone; by left|done].
    + destruct (close_edge u w Hu Hk He) as [(s & _ & Hd)|Hwk].
      * exists s. split; [apply Hdone; by left|]. pose proof (Hold w s (scc_edge_range _ _ Hu He) Hd). lia.
      * exists t. split; [apply Hdone; by right|done].
  - intros u w s Hu Hwn [Hd|[Hk ->]]%Hdone [Hd'|[Hk' Es]]%Hdone.
    + eauto.
    + subst. pose proof (Hold u t Hu Hd). lia.
    + pose proof (Hold w t Hwn Hd'). lia.
    + eapply mutual_trans; [by apply at_top_mutual|]. apply mutual_sym. by apply at_top_mutual.
  - intros u s Hu [Hd|[_ ->]]%Hdone; rewrite length_app; simpl; [pose proof (Hold u s Hu Hd)|]; unfold t in *; lia.
  - intros s Hs. rewrite length_app in Hs. simpl in Hs. destruct (decide (s = t)) as [->|Hne].
    + exists v. split; [done|]. apply Hdone. by right.
    + destruct (H5 s) as (u & Hu & Hd); [unfold t in *; lia|]. exists u. split; [done|]. apply Hdone. by left.
  - intros s Hs. rewrite length_app in Hs. simpl in Hs. destruct (decide (s = t)) as [->|Hne].
    + exists l. split; [apply create_scc_new|]. split; [done|]. intros s'. rewrite (Hl s'), (fo_ent _ _ _ _ _ _ _ Hf s'). split.
      * intros (u & w & Hfe & Hd). assert (u ∈ v :: g_pend x) as Hu by (destruct Hfe as [[-> _]|[? _]]; set_solver).
        destruct (seg_facts u Hu) as (Hun & _). assert (Ed u w) as He.
        { destruct Hfe as [[-> Hwd]|[_ ?]]; [|done]. eexists. split; [apply (fo_succ _ _ _ _ _ _ _ Hf)|]. set_solver. }
        split; [pose proof (Hold w s' (scc_edge_range _ _ Hun He) Hd); lia|]. exists u, w. split_and!; [done| |done|apply Hdone; by left].
        apply Hdone. right. split; [by apply close_seg|done].
      * intros [Hne (u & w & Hu & Hd & He & Hd')]. apply Hdone in Hd as [Hd|[Hk _]]; [pose proof (Hold u t Hu Hd); lia|].
        apply Hdone in Hd' as [Hd'|[_ ?]]; [|done]. apply open_at_top in Hk; [|done]. destruct (seg_facts u Hk) as (_ & _ & Hs'). destruct (Hs' w He) as [_ Hfe]. eauto.
    + assert (s < t) as Hst by (unfold t in *; lia). destruct (H6 s Hst) as (r & Er & Hndr & Hr). exists r. split; [by apply create_scc_old|]. split; [done|].
      intros s'. rewrite Hr. split; intros [Hne' (u & w & Hu & Hd & He & Hd')]; (split; [done|]); exists u, w.
      * split_and!; [done|apply Hdone; by left|done|apply Hdone; by left].
      * destruct (Hsmall u w Hu He s Hst Hd) as [Hd0 [s0 Hs0]]. split_and!; [done|done|done|].
        assert (done_at res' w s0) as Hs1 by (apply Hdone; by left). by rewrite (done_unique _ _ _ _ Hd' Hs1).
  - intros u d p Hu Hd Hp. apply below_lookup in Hp as [Hp Hlt]. apply pop_depth in Hd as [[Hd _]|[_ [? [=]]]]. eauto.
  - intros d p q Hp Hq. apply below_lookup in Hp as [Hp _], Hq as [Hq _]. eauto.
  - split; [rewrite !length_app; simpl; lia|]. rewrite H9'. unfold log_annotations. unfold t. rewrite <- H9. clear.
    assert (forall i, enum_from i (anns ++ [a]) = enum_from i anns ++ [(i + length anns, a)]) as E.
    { induction anns as [|b l IH]; intros i; simpl; [by rewrite Nat.add_0_r|]. rewrite IH. by replace (i + S (length l)) with (S i + length l) by lia. }
    by rewrite E, foldl_app.
  - intros u s b Hu Eu. assert (done_at res' u s) as [Hd|[Hk ->]]%Hdone by (by exists b).
    + destruct Hd as [b' Hd]. assert (b' = b) as -> by (unfold res', pop_res, pop_state in Eu; rewrite Hd in Eu; congruence).
      destruct (H10 u s b Hu Hd) as (Hb & Hlo & Hhi). split_and!; [by apply lookup_app_l_Some|done|done].
    + assert (b = a) as -> by (destruct Hk as [b' Hk]; unfold res', pop_res, pop_state in Eu; rewrite Hk, decide_True in Eu by done; congruence).
      pose proof (at_top_mutual u Hu Hk) as Hm. split_and!.
      * unfold t. rewrite <- H9. by apply list_lookup_middle.
      * intros y Hy. apply close_group. by eapply group_mutual.
      * intros c Hcs. apply (an_hi _ _ _ _ _ (fo_ann _ _ _ _ _ _ _ Hf)). intros y Hy. apply Hcs. eapply group_mutual; [|exact Hy]. by apply mutual_sym.
  - intros u d b p Hu Eu Hp. apply below_lookup in Hp as [Hp Hlt]. unfold res', pop_res, pop_state in Eu.
    destruct (res u) as [|e b'| |] eqn:Eu0; [done| |done|done]. case_decide; [done|]. injection Eu as -> ->. eauto.
Qed.
End close.

Section defer.
Hypothesis Hmin : fr_min_depth (gx x) < k.
Notation m := (fr_min_depth (gx x)).
Context (aq : A).
Hypothesis Hq : res (fr_min_cycle_root (gx x)) = BeingVisited m aq.
Let res' := pop_res res k (BeingVisited m aq).

Lemma defer_root : Ed v (fr_min_cycle_root (gx x)) /\ fr_min_cycle_root (gx x) < n.
Proof.
  destruct (fo_root _ _ _ _ _ _ _ Hf Hmin) as [He _]. split; [done|]. eapply scc_edge_range; [apply (fo_node _ _ _ _ _ _ _ Hf)|done].
Qed.

Lemma defer_done w s : done_at res' w s <-> done_at res w s.
Proof. unfold res'. rewrite pop_done. naive_solver. Qed.

Lemma defer_depth w d : at_depth res' w d <-> (at_depth res w d /\ d <> k) \/ (at_depth res w k /\ d = m).
Proof. unfold res'. rewrite pop_depth. split; (intros [?|[? E]]; [by left|right]; split; [done|]); [destruct E; congruence|subst; eauto]. Qed.

Lemma defer_settled w : settled res m k w -> settled res' m (Nat.pred k) w.
Proof.
  intros [[s Hd]|(d & Hd & Hle)]; [left; exists s; by apply defer_done|right]. destruct (decide (d = k)) as [->|Hne].
  - exists m. split; [apply defer_depth; by right|lia].
  - exists d. split; [apply defer_depth; by left|lia].
Qed.

Lemma core_defer states st' : states = <[v := InCycleWith (fr_min_cycle_root (gx x))]> (node_states st) ->
  st' = mk_construction states (nodes X) (successors_stack st) (scc_data st) (annotations st) -> core b0 anns res' (nodes X) st'.
Proof.
  intros -> ->. assert (length (nodes X) = k) as Hlen by apply nodes_length. destruct defer_root as [He Hqn].
  pose proof defer_done as Hdone. pose proof (co_states _ _ _ _ _ Hc) as H1. rewrite top_path in H1.
  assert (forall p, node_stack st !! m = Some p -> mutual v p) as Hvm.
  { intros p Hp. assert (mutual (fr_min_cycle_root (gx x)) p) as [Hm1 Hm2] by (eapply (co_mutual _ _ _ _ _ Hc); [done|by exists aq|done]).
    split; [by eapply rtc_l|]. pose proof Hc as Hc'. rewrite (wk_path _ _ _ _ _ _ _ _ _ _ Hw) in Hc', Hp. by eapply frames_top_path. }
  pose proof Hc as [_ H2 H3 H4 H5 H6 H7 H8 H9 H10 H11]. split; simpl; try done.
  - unfold res'. rewrite <- Hlen. apply states_defer; [done|done|done|rewrite nodes_length; done].
  - intros u w s Hu. rewrite !Hdone. intros. setoid_rewrite Hdone. eauto.
  - intros u w s Hu Hwn. rewrite !Hdone. eauto.
  - intros u s Hu. rewrite !Hdone. eauto.
  - intros s Hs. setoid_rewrite Hdone. eauto.
  - intros s Hs. setoid_rewrite Hdone. eauto.
  - intros u d p Hu Hd Hp. apply below_lookup in Hp as [Hp Hlt]. apply defer_depth in Hd as [[Hd _]|[Hk ->]]; [eauto|].
    eapply mutual_trans; [by apply at_top_mutual|auto].
  - intros d p q Hp Hq'. apply below_lookup in Hp as [Hp _], Hq' as [Hq' _]. eauto.
  - intros u s b Hu Eu. unfold res', pop_res, pop_state in Eu. destruct (res u) as [|e b'| |] eqn:Eu0; [done|case_decide; done| |done]. injection Eu as -> ->. eauto.
  - intros u d b p Hu Eu Hp. apply below_lookup in Hp as [Hp Hlt]. unfold res', pop_res, pop_state in Eu.
    destruct (res u) as [|e b'| |] eqn:Eu0; [done| |done|done]. case_decide; injection Eu as <- <-; eauto.
Qed.
End defer.
End finish.

(** ** A frame that has returned *)

(** The walk of [child] is over; [X] are the frames that are left. *)
Record returned (b0 : B) (anns : list A) res (st : SccsConstruction A B) (X : list gframe) (child : nat) (walk : WalkReturn A)
    (cseg cents : list nat) : Prop := {
  rt_core : core b0 anns res (node_stack st) st;
  rt_path : node_stack st = nodes X;
  rt_frames : frames_ok res anns child X;
  rt_ents : successors_stack st = ents X ++ cents;
  rt_cover : covered res X cseg;
  rt_child : child < n;
  rt_walk : match X with
            | [] => exists t a, walk = Complete t a /\ res child = InCycle t a /\ cseg = [] /\ cents = []
            | x :: X => walk_ok anns res x (length X) child walk cseg cents
            end;
}.

(** Components stay, and no node is forgotten. *)
Definition grows res (res' : nat -> NodeState A) : Prop :=
  (forall u s, done_at res u s -> done_at res' u s) /\ (forall u, res' u = NotVisited -> res u = NotVisited).

Lemma scc_grows_refl res : grows res res.
Proof. done. Qed.

Lemma scc_grows_trans res res1 res2 : grows res res1 -> grows res1 res2 -> grows res res2.
Proof. intros [H1 H2] [H3 H4]. split; auto. Qed.

Lemma pop_grows res k new : new <> NotVisited -> grows res (pop_res res k new).
Proof.
  intros Hn. split; [intros u s Hd; apply pop_done; by left|]. intros u. unfold pop_res, pop_state.
  destruct (res u) as [|d b| |]; [done|case_decide; done|done|done].
Qed.

Lemma covered_pop res anns x X new inprog rem seg : frame_ok res anns (length X) (length (ents X)) inprog rem x -> covered res (x :: X) [] ->
  (forall u, u < n -> u ∈ g_pend x -> u ∈ seg \/ at_depth res u (length X)) ->
  (forall u d, u < n -> at_depth res u (length X) -> new = BeingVisited d (fr_annotation (gx x)) \/ (exists a, new = BeingVisited d a) -> u ∈ seg) ->
  covered (pop_res res (length X) new) X seg.
Proof.
  intros Hf Hcov Hp Hn u d Hu Hd. apply pop_depth in Hd as [[Hd Hne]|[Hk E]]; [|left; eapply Hn; eauto].
  destruct (Hcov u d Hu Hd) as [?%elem_of_nil|(y & [->|Hy]%elem_of_cons & Hcase)]; [done| |right; eauto].
  destruct Hcase as [[-> ->]|Hin]; [by rewrite (fo_depth _ _ _ _ _ _ _ Hf) in Hne|]. destruct (Hp u Hu Hin) as [?|Hk]; [by left|].
  by destruct (depth_unique _ _ _ _ Hd Hk).
Qed.

Lemma finish_spec b0 anns res st x X : work b0 anns res st x X [] [] [] [] ->
  exists st' walk anns' res' cseg cents, finish_frame st (gx x) = Ret (st', walk) /\
    returned b0 anns' res' st' X (fr_node (gx x)) walk cseg cents /\ grows res res'.
Proof.
  intros Hw. pose proof Hw as [Hc Hp Hf Hr He Hcov]. rewrite app_nil_r in He. unfold finish_frame. rewrite Hp, nodes_snoc, split_last_snoc. cbn [unwrap mbind outcome_bind].
  rewrite (bool_decide_eq_true_2 (fr_node (gx x) = fr_node (gx x))) by done. cbn [rust_assert mbind outcome_bind].
  assert (fr_node (gx x) < length (node_states st)) as Hlt by (rewrite (so_len _ _ _ _ (co_states _ _ _ _ _ Hc)); apply (fo_node _ _ _ _ _ _ _ Hf)).
  rewrite (fo_depth _ _ _ _ _ _ _ Hf), (fo_len _ _ _ _ _ _ _ Hf), He. simpl. destruct (decide (fr_min_depth (gx x) = length X)) as [Hmin|Hmin].
  - rewrite bool_decide_eq_true_2 by (rewrite length_app; lia). cbn [rust_assert mbind outcome_bind].
    rewrite drop_app_length, take_app_length. unfold iv_set. rewrite decide_True by done. cbn [mbind outcome_bind].
    set (t := length (scc_details (scc_data st))). destruct (dedup_spec (g_ent x) ∅) as [Hnd Hin].
    eexists _, _, (anns ++ [fr_annotation (gx x)]), (pop_res res (length X) (InCycle t (fr_annotation (gx x)))), [], []. split; [reflexivity|].
    split; [|by apply pop_grows]. assert (fr_node (gx x) < n) as Hv by apply (fo_node _ _ _ _ _ _ _ Hf). split; simpl.
    + eapply (core_close b0 anns res st x X Hw Hmin (dedup ∅ (g_ent x))); [|done|done|done]. intros s. rewrite Hin. set_solver.
    + done.
    + eapply frames_ok_agrees; [by apply prefix_app_r|apply pop_agrees|done].
    + by rewrite app_nil_r.
    + eapply covered_pop; [done|done| |].
      * intros u Hu Hpend. right. apply (close_seg b0 anns res st x X Hw Hmin u Hu). by right.
      * intros u d _ _ [?|[? ?]]; done.
    + done.
    + assert (pop_res res (length X) (InCycle t (fr_annotation (gx x))) (fr_node (gx x)) = InCycle t (fr_annotation (gx x))) as E.
      { unfold pop_res, pop_state. destruct (fo_at _ _ _ _ _ _ _ Hf) as [b ->]. by rewrite decide_True. }
      destruct X as [|y X]; simpl in *; [by eexists _, _|done].
  - assert (fr_min_depth (gx x) < length X) as Hlt' by (pose proof (fo_min _ _ _ _ _ _ _ Hf); lia).
    unfold iv_set. rewrite decide_True by done. cbn [mbind outcome_bind]. destruct (fo_root _ _ _ _ _ _ _ Hf Hlt') as [_ [aq Hq]].
    eexists _, _, anns, (pop_res res (length X) (BeingVisited (fr_min_depth (gx x)) aq)), (fr_node (gx x) :: g_pend x), (g_ent x).
    split; [reflexivity|]. split; [|by apply pop_grows].
    pose proof (core_defer b0 anns res st x X Hw Hlt' aq Hq _ _ eq_refl eq_refl) as Hcore. rewrite He in Hcore. split; simpl.
    + exact Hcore.
    + done.
    + eapply frames_ok_agrees; [done|apply pop_agrees|done].
    + done.
    + eapply covered_pop; [done|done| |].
      * intros u Hu Hpend. left. by right.
      * intros u d Hu Hk _. by apply (open_at_top b0 anns res st x X Hw).
    + apply (fo_node _ _ _ _ _ _ _ Hf).
    + destruct X as [|y X]; [simpl in Hlt'; lia|]. pose proof (defer_settled res x (y :: X) Hlt' aq) as Hset. simpl length in Hset. simpl Nat.pred in Hset.
      pose proof (defer_depth res x (y :: X) aq) as Hdep. simpl length in Hdep.
      assert (mutual (fr_node (gx y)) (fr_node (gx x))) as Hxy.
      { destruct (lookup_lt_is_Some_2 (nodes (y :: X)) (fr_min_depth (gx x))) as [p Hpm]; [by rewrite nodes_length|].
        assert (mutual (fr_node (gx x)) p) as [Hm _].
        { eapply (co_mutual _ _ _ _ _ Hcore); [apply (fo_node _ _ _ _ _ _ _ Hf)| |exact Hpm]. apply Hdep. right. split; [apply (fo_at _ _ _ _ _ _ _ Hf)|done]. }
        split; [apply rtc_once; by eapply frames_child_edge|]. etrans; [exact Hm|]. by eapply frames_top_path. }
      split_and!; [simpl in Hlt'; lia| | | |].
      * apply Hdep. right. split; [apply (fo_at _ _ _ _ _ _ _ Hf)|done].
      * intros u Hu. destruct (seg_facts b0 anns res st x (y :: X) Hw u Hu) as (Hun & (d & Hd & Hle) & Hs). split; [done|]. split.
        -- destruct (decide (d = S (length X))) as [->|Hne]; [exists (fr_min_depth (gx x))|exists d]; (split; [apply Hdep; auto|simpl in *; lia]).
        -- intros w Hwe. apply Hset. by apply Hs.
      * intros s. rewrite (fo_ent _ _ _ _ _ _ _ Hf s). split; intros (u & w & HR & Hd); exists u, w.
        -- split; [|by apply (defer_done res x (y :: X) aq)]. destruct HR as [[-> Hwd]|[Hu Hwe]]; [|split; [by right|done]].
           split; [by left|]. eexists. split; [apply (fo_succ _ _ _ _ _ _ _ Hf)|]. set_solver.
        -- destruct HR as [Hu Hwe]. apply (defer_done res x (y :: X) aq) in Hd. split; [|done].
           by destruct (seg_facts b0 anns res st x (y :: X) Hw u Hu) as (_ & _ & Hs); apply Hs.
      * destruct (fo_ann _ _ _ _ _ _ _ Hf) as [A1 A2 A3]. split; [done|done|]. intros c Hcs. apply A3. intros u Hu. apply Hcs.
        eapply group_mutual; [|exact Hu]. by apply mutual_sym.
Qed.

(** ** The search terminates *)

Definition is_new (s : NodeState A) : bool := match s with NotVisited => true | _ => false end.
Definition unvisited res : list nat := filter (fun u => is_new (res u) = true) (seq 0 n).

Lemma elem_of_unvisited res u : u ∈ unvisited res <-> u < n /\ res u = NotVisited.
Proof. unfold unvisited. rewrite list_elem_of_filter, elem_of_seq. destruct (res u); simpl; naive_solver lia. Qed.

Lemma unvisited_NoDup res : NoDup (unvisited res).
Proof. apply NoDup_filter, NoDup_seq. Qed.

Lemma unvisited_grows res res' : grows res res' -> length (unvisited res') <= length (unvisited res).
Proof.
  intros [_ Hg]. apply submseteq_length, NoDup_submseteq; [apply unvisited_NoDup|]. intros u. rewrite !elem_of_unvisited. naive_solver.
Qed.

Lemma unvisited_visit res v d a : v < n -> res v = NotVisited -> length (unvisited (visit_res res v d a)) < length (unvisited res).
Proof.
  intros Hv Hnv. change (length (v :: unvisited (visit_res res v d a)) <= length (unvisited res)). apply submseteq_length, NoDup_submseteq.
  - constructor; [|apply unvisited_NoDup]. rewrite elem_of_unvisited. unfold visit_res. rewrite decide_True by done. by intros [_ ?].
  - intros u. rewrite elem_of_cons, !elem_of_unvisited. unfold visit_res. case_decide; naive_solver.
Qed.

Lemma visit_grows res v d a : res v = NotVisited -> grows res (visit_res res v d a).
Proof. intros Hv. split; [intros u s; by rewrite visit_done|]. intros u. unfold visit_res. by case_decide. Qed.

(** The node the walk started from. *)
Fixpoint bottom (child : nat) (X : list gframe) : nat := match X with [] => child | x :: X => bottom (fr_node (gx x)) X end.

(** The states between rounds of the loop: a new frame is on top, or a frame has returned.  At most
    [m] rounds are left. *)
Inductive phase (b0 : B) (initial : nat) (res0 : nat -> NodeState A)
  : SccsConstruction A B -> list (VisitingNodeFrame A) -> option (WalkReturn A) -> nat -> Prop :=
| ph_new anns res st X v b m : core b0 anns res (node_stack st) st -> node_stack st = nodes X -> frames_ok res anns v X ->
    successors_stack st = ents X -> covered res X [] -> v < n -> res v = NotVisited -> bottom v X = initial -> grows res0 res ->
    2 * length (unvisited res) + length X <= m -> phase b0 initial res0 st (new_frame b v (length X) :: map gx X) None m
| ph_ret anns res st X child walk cseg cents m : returned b0 anns res st X child walk cseg cents -> bottom child X = initial -> grows res0 res ->
    2 * length (unvisited res) + length X + 1 <= m -> phase b0 initial res0 st (map gx X) (Some walk) m.

Lemma walk_rest fuel b0 initial res0 anns res st x X rem : n < fuel -> work b0 anns res st x X [] rem [] [] ->
  bottom (fr_node (gx x)) X = initial -> grows res0 res ->
  exists st' stack' ret', ('(st, fr, next) ← walk_successors fuel st (gx x) rem;
    match next with
    | Some s => Ret (st, new_frame (annotations st) s (fr_depth fr + 1) :: fr :: map gx X, None)
    | None => '(st, walk) ← finish_frame st fr; Ret (st, map gx X, Some walk)
    end) = Ret (st', stack', ret') /\ phase b0 initial res0 st' stack' ret' (2 * length (unvisited res) + length X + 1).
Proof.
  intros Hf Hw Hb Hg. destruct (walk_successors_spec fuel b0 anns res X rem Hf st x Hw) as (st1 & x1 & next & -> & Hn & Hend). cbn [mbind outcome_bind].
  destruct next as [s|]; simpl in Hend.
  - destruct Hend as (rem1 & Hr1 & Hs1 & [Hc Hp Hfr Hrest He Hcov] & Hsn & Hs). eexists _, _, _. split; [reflexivity|].
    rewrite (fo_depth _ _ _ _ _ _ _ Hfr). replace (length X + 1) with (length (x1 :: X)) by (simpl; lia).
    change (gx x1 :: map gx X) with (map gx (x1 :: X)). apply (ph_new b0 initial res0 anns res); [done|done| |by rewrite He, app_nil_r|done|done|done| |done|simpl; lia].
    + split; [split; [done|]; exists rem1; split; [done|exact Hfr]|exact Hrest].
    + simpl. by rewrite Hn.
  - destruct (finish_spec b0 anns res st1 x1 X Hend) as (st2 & walk & anns2 & res2 & cseg & cents & -> & Hret & Hg2). cbn [mbind outcome_bind].
    eexists _, _, _. split; [reflexivity|]. rewrite Hn in Hret. eapply (ph_ret b0 initial res0 anns2 res2); [exact Hret|done| |].
    + by eapply scc_grows_trans.
    + pose proof (unvisited_grows res res2 Hg2). lia.
Qed.

Lemma walk_step_spec fuel b0 initial res0 st fr stack ret m : n < fuel -> phase b0 initial res0 st (fr :: stack) ret m ->
  exists st' stack' ret' m', walk_step fuel g st fr stack ret = Ret (st', stack', ret') /\ phase b0 initial res0 st' stack' ret' m' /\ m' < m.
Proof.
  intros Hf Hph. inversion Hph as [anns res st0 X v b m0 Hc Hp HX He Hcov Hv Hnv Hb Hg Hm|anns res st0 X child walk cseg cents m0 Hret Hb Hg Hm]; subst.
  - destruct (init_spec b0 anns res st X v b Hc Hp HX He Hcov Hv Hnv) as (st1 & x & rem & E & Hn & Hw). unfold walk_step. rewrite E. cbn [mbind outcome_bind].
    pose proof (unvisited_visit res v (length X) (create_annotation b v) Hv Hnv) as Hlt.
    destruct (walk_rest fuel b0 (bottom v X) res0 anns _ st1 x X rem Hf Hw) as (st2 & stack2 & ret2 & -> & Hph2); [by rewrite Hn| |].
    { eapply scc_grows_trans; [exact Hg|]. by apply visit_grows. }
    eexists _, _, _, _. split; [reflexivity|]. split; [exact Hph2|lia].
  - destruct X as [|x X]; [done|]. simplify_eq/=. destruct Hret as [Hc Hp [(Hs & rem & Hr & Hfr) Hrest] He Hcov Hchild Hwalk].
    assert (work b0 anns res st x X [child] rem cseg cents) as Hw by (by split).
    assert (exists st1 fr1, absorb st (gx x) child walk = Ret (st1, fr1) /\ work b0 anns res st1 (absorbed x fr1 child walk cseg cents) X [] rem [] [] /\
      fr_node fr1 = fr_node (gx x)) as (st1 & fr1 & E1 & Hw1 & Hn1).
    { destruct walk as [d a|t a].
      - destruct (absorb_cycle b0 anns res st x X child rem d a cseg cents Hw Hwalk) as (st1 & fr1 & ? & ? & ? & _). eauto 10.
      - destruct Hwalk as (Ht & -> & ->). destruct (absorb_complete b0 anns res st x X child rem t a Hw Ht) as (st1 & fr1 & ? & ? & ? & _). eauto 10. }
    unfold walk_step, init_frame. rewrite Hr. cbn [mbind outcome_bind]. rewrite Hs, E1. cbn [mbind outcome_bind].
    destruct (walk_rest fuel b0 (bottom (fr_node (gx x)) X) res0 anns res st1 _ X rem Hf Hw1) as (st2 & stack2 & ret2 & E2 & Hph2); [simpl; by rewrite Hn1|done|].
    simpl in E2. rewrite E2. eexists _, _, _, _. split; [reflexivity|]. split; [exact Hph2|lia].
Qed.

(** The state between walks. *)
Record idle (b0 : B) (anns : list A) res (st : SccsConstruction A B) : Prop := {
  id_core : core b0 anns res [] st;
  id_path : node_stack st = [];
  id_ents : successors_stack st = [];
  id_done : forall v, v < n -> res v = NotVisited \/ exists t, done_at res v t;
}.

Lemma walk_loop_spec fuel b0 initial res0 : n < fuel -> forall m N st stack ret, phase b0 initial res0 st stack ret m -> m < N ->
  exists st' t a anns res, walk_loop N fuel g st stack ret = Ret (st', Some (Complete t a)) /\ idle b0 anns res st' /\
    res initial = InCycle t a /\ grows res0 res.
Proof.
  intros Hf m. induction (lt_wf m) as [m _ IH]. intros N st stack ret Hph HN. destruct N as [|N]; [lia|]. destruct stack as [|fr stack].
  - inversion Hph as [|anns res st0 X child walk cseg cents m0 Hret Hb Hg Hm]; subst. destruct X; [|done]. simpl in *.
    destruct Hret as [Hc Hp _ He Hcov Hchild (t & a & -> & Hct & -> & ->)]. exists st, t, a, anns, res. split_and!; [done| |done|done]. rewrite Hp in Hc. split; [done..|].
    intros v Hv. pose proof (so_res _ _ _ _ (co_states _ _ _ _ _ Hc) v Hv) as (r & _ & _ & Hroot). destruct (res v) as [|d b|s b|] eqn:Ev; [by left| |right|done].
    + exfalso. destruct (Hcov v d Hv) as [?%elem_of_nil|(y & ?%elem_of_nil & _)]; [by exists b|done..].
    + exists s. by exists b.
  - destruct (walk_step_spec fuel b0 initial res0 st fr stack ret m Hf Hph) as (st' & stack' & ret' & m' & E & Hph' & Hlt). simpl. rewrite E. cbn [mbind outcome_bind].
    apply (IH m' Hlt N st' stack' ret' Hph'). lia.
Qed.

Lemma start_walk_spec fuel b0 anns res st v : 2 * n + 1 < fuel -> idle b0 anns res st -> v < n ->
  exists st' t a anns' res', start_walk_from fuel g st v = Ret (st', Complete t a) /\ idle b0 anns' res' st' /\ res' v = InCycle t a /\ grows res res'.
Proof.
  intros Hf [Hc Hp He Hd] Hv. pose proof (co_states _ _ _ _ _ Hc) as Hok. rewrite <- Hp in Hok.
  destruct (find_state_spec n st res v fuel Hok Hv) as (states & E & Hok'); [lia|]. unfold start_walk_from, inspect_node. rewrite E. cbn [mbind outcome_bind].
  assert (core b0 anns res [] (with_states st states)) as Hc1 by (eapply core_states; [exact Hc|rewrite <- Hp; exact Hok'|done|done]).
  destruct (Hd v Hv) as [Hnv|(t & a & Ht)].
  - rewrite Hnv. cbn [mbind outcome_bind]. unfold walk_unvisited_node. simpl. rewrite bool_decide_eq_true_2 by done. cbn [rust_assert mbind outcome_bind].
    destruct (walk_loop_spec fuel b0 v res ltac:(lia) (2 * n) fuel (with_states st states) [new_frame (annotations st) v 0] None)
      as (st' & t & a & anns' & res' & -> & Hidle & Hvt & Hg); [|lia|].
    { apply (ph_new b0 v res anns res (with_states st states) []); simpl; [by rewrite Hp|done|done|done| |done|done|done|done|].
      - intros u d Hu Hud. exfalso. destruct (Hd u Hu) as [Hun|[s Hs]]; [destruct Hud; congruence|by eapply done_not_depth].
      - unfold unvisited. pose proof (length_filter (fun u => is_new (res u) = true) (seq 0 n)) as Hl. rewrite length_seq in Hl. lia. }
    cbn [mbind outcome_bind]. rewrite (id_ents _ _ _ _ Hidle). simpl. by exists st', t, a, anns', res'.
  - rewrite Ht. cbn [mbind outcome_bind]. exists (with_states st states), t, a, anns, res. split_and!; [done|by split|done|done].
Qed.

(** The whole construction, with a name for the state it ends in. *)
Lemma construct_spec fuel b0 : 2 * n + 1 < fuel -> exists st indices anns res, construct fuel g b0 = Ret (mk_sccs indices (scc_data st), log_annotations b0 anns) /\
  core b0 anns res [] st /\ length indices = n /\ forall v t, indices !! v = Some t <-> v < n /\ done_at res v t.
Proof.
  intros Hf. unfold construct. set (st0 := mk_construction _ _ _ _ _).
  destruct (foldM_split (fun '(this, indices) node => '(this, walk) ← start_walk_from fuel g this node;
      match walk with Complete scc_index _ => Ret (this, indices ++ [scc_index]) | Cycle _ _ => Panic end)
    (fun pre '(st, indices) => exists anns res, idle b0 anns res st /\ length indices = length pre /\
       forall i t, indices !! i = Some t -> done_at res i t) (iter_nodes g) (st0, [])) as ([st indices] & -> & anns & res & Hidle & Hlen & Hi).
  - exists [], (fun _ => NotVisited). split_and!; [|done|intros i t; by rewrite lookup_nil].
    assert (forall t v, ~ done_at (fun _ => NotVisited) v t) as Hnd by (intros t v [? [=]]).
    split; simpl; [|done|done|by left]. split; simpl; try done; try (intros; exfalso; by eapply Hnd); try (intros; lia).
    + split; simpl; [by rewrite length_replicate| |done| |].
      * intros v Hv. apply resolved_root; [|done]. by apply lookup_replicate_2.
      * intros v d a [? ?]%lookup_replicate. done.
      * intros v Hv _. by apply lookup_replicate_2.
  - intros pre v post [st indices] Epre (anns & res & Hidle & Hlen & Hi).
    assert (v = length pre /\ v < n) as [Ev Hv].
    { assert (iter_nodes g !! length pre = Some v) as Hl by (rewrite Epre; by apply list_lookup_middle). unfold iter_nodes in Hl.
      apply lookup_seq in Hl as [? ?]. split; [lia|]. unfold n. lia. }
    destruct (start_walk_spec fuel b0 anns res st v Hf Hidle Hv) as (st' & t & a & anns' & res' & -> & Hidle' & Hvt & Hg). cbn [mbind outcome_bind].
    eexists (_, _). split; [reflexivity|]. exists anns', res'. split; [done|]. split; [rewrite !length_app; simpl; lia|].
    intros i s [[_ His]|[-> <-]]%lookup_snoc_Some; [apply Hg; auto|]. exists a. by rewrite Hlen, <- Ev.
  - cbn [mbind outcome_bind]. destruct Hidle as [Hc Hp He Hd]. rewrite (proj2 (co_anns _ _ _ _ _ Hc)).
    assert (length indices = n) as Hln by (rewrite Hlen; apply length_seq). exists st, indices, anns, res. split_and!; [done|done|done|].
    intros v t. split; [intros Hvt; split; [rewrite <- Hln; by eapply lookup_lt_Some|auto]|]. intros [Hv Ht].
    destruct (lookup_lt_is_Some_2 indices v) as [s Hs]; [by rewrite Hln|]. rewrite Hs. f_equal. eapply done_unique; [by apply Hi|done].
Qed.
End invariant.

(** ** Correctness *)

(** What the components of a graph are. *)
Record sccs_of `{Successors G} (g : G) (s : Sccs) : Prop := {
  sp_total : length (scc_indices s) = num_nodes g /\ forall u, u < num_nodes g -> exists c, scc s u = Ret c /\ c < num_sccs s;
  sp_used : forall c, c < num_sccs s -> exists u, u < num_nodes g /\ scc s u = Ret c;
  sp_mutual : forall u v c d, u < num_nodes g -> v < num_nodes g -> scc s u = Ret c -> scc s v = Ret d -> c = d <-> mutual g u v;
  sp_successors : forall c, c < num_sccs s -> exists l, scc_successors s c = Ret l /\ NoDup l /\
    forall d, d ∈ l <-> d <> c /\ exists u v, edge (successors g) u v /\ scc s u = Ret c /\ scc s v = Ret d;
  sp_order : forall c l d, scc_successors s c = Ret l -> d ∈ l -> d < c;
}.

Lemma scc_lookup s u c : scc s u = Ret c <-> scc_indices s !! u = Some c.
Proof. unfold scc, iv_index. destruct (scc_indices s !! u); simpl; naive_solver. Qed.

Lemma core_sccs `{Successors G} (g : G) {A B} `{!SccAnnotation A} `{!SccAnnotations B A} le cr full (b0 : B) (anns : list A) res st indices :
  graph_wf g -> core g le cr full b0 anns res [] st -> length indices = num_nodes g ->
  (forall v t, indices !! v = Some t <-> v < num_nodes g /\ done_at res v t) -> sccs_of g (mk_sccs indices (scc_data st)).
Proof.
  intros Hwf Hc Hlen Hi. set (s := mk_sccs indices (scc_data st)). assert (forall u c, scc s u = Ret c <-> u < num_nodes g /\ done_at res u c) as Hs
    by (intros; rewrite scc_lookup; apply Hi).
  assert (forall u v c d, u < num_nodes g -> reaches g u v -> done_at res u c -> done_at res v d -> d <= c) as Hmono.
  { intros u v c d Hu Hr Hc' Hd'. revert c Hu Hc'. induction Hr as [v|u w v Huw Hwv IH]; intros c Hu Huc.
    - by rewrite (done_unique _ _ _ _ Hd' Huc).
    - destruct (co_edge _ _ _ _ _ _ _ _ _ Hc u w c Hu Huc Huw) as (c' & Hw & Hle). specialize (IH Hd' c'). pose proof (scc_edge_range g Hwf u w Hu Huw). etrans; [apply IH|]; done. }
  split.
  - split; [done|]. intros u Hu. destruct (lookup_lt_is_Some_2 indices u) as [c Hcu]; [by rewrite Hlen|]. exists c.
    split; [by apply scc_lookup|].
    apply Hi in Hcu as [_ Hd]. by eapply (co_lt _ _ _ _ _ _ _ _ _ Hc).
  - intros c Hcn. destruct (co_used _ _ _ _ _ _ _ _ _ Hc c Hcn) as (u & Hu & Hd). exists u. split; [done|]. apply Hs. by split.
  - intros u v c d Hu Hv [_ Huc]%Hs [_ Hvd]%Hs. split.
    + intros <-. by eapply (co_same _ _ _ _ _ _ _ _ _ Hc).
    + intros [Huv Hvu]. apply (anti_symm (≤)); [by eapply (Hmono v u)|by eapply (Hmono u v)].
  - intros c Hcn. destruct (co_succ _ _ _ _ _ _ _ _ _ Hc c Hcn) as (l & El & Hnd & Hl). exists l. split; [done|]. split; [done|]. intros d. rewrite Hl.
    split; intros [Hne (u & v & Hrest)]; (split; [done|]); exists u, v.
    + destruct Hrest as (Hu & Huc & He & Hvd). split_and!; [done|apply Hs; by split|]. apply Hs. split; [by eapply scc_edge_range|done].
    + destruct Hrest as (He & [Hu Huc]%Hs & [Hv Hvd]%Hs). by split_and!.
  - intros c l d El Hd. assert (c < num_sccs s) as Hcn.
    { unfold scc_successors, SccData_successors, iv_index in El. destruct (scc_details (sccs_data s) !! c) eqn:E; [|done]. by eapply lookup_lt_Some. }
    destruct (co_succ _ _ _ _ _ _ _ _ _ Hc c Hcn) as (l' & El' & _ & Hl). assert (l' = l) as -> by (unfold scc_successors in El; simpl in El; congruence).
    apply Hl in Hd as [Hne (u & v & Hu & Huc & He & Hvd)]. destruct (co_edge _ _ _ _ _ _ _ _ _ Hc u v c Hu Huc He) as (d' & Hd' & Hle).
    assert (d' = d) as -> by (by eapply done_unique). lia.
Qed.

(** C34: [Sccs::new] computes the strongly connected components.  On every graph whose edges lead to
    its nodes it returns without panicking, no assertion of a debug build failing, with fuel linear in the
    number of nodes.  Every node has a component and every component a node; two nodes have the
    same component exactly when each reaches the other; the successors listed for a component
    are, without repetition, exactly the other components an edge leads to from it; and they
    come before it in the numbering. *)
Theorem sccs_correct `{Successors G} (g : G) (fuel : nat) : graph_wf g -> 2 * num_nodes g + 1 < fuel ->
  exists s, Sccs_new fuel g = Ret s /\ sccs_of g s.
Proof.
  intros Hwf Hf. destruct (construct_spec g Hwf (fun _ _ : unit => True) (fun _ => tt) true ltac:(done) ltac:(done) ltac:(done) ltac:(done) ltac:(done)
    ltac:(done) ltac:(done) ltac:(done) ltac:(done) ltac:(done) fuel tt Hf) as (st & indices & anns & res & E & Hc & Hlen & Hi).
  unfold Sccs_new. rewrite E. cbn [mbind outcome_bind]. eexists. split; [reflexivity|]. by eapply core_sccs.
Qed.

Definition scc_example : AdjList := [[1; 3]; [2]; [0; 4]; [4]; [5]; [4; 6]; []; [0; 7]].

Lemma sccs_correct_witness : exists s, Sccs_new 20 scc_example = Ret s /\ scc_indices s = [3; 3; 3; 2; 1; 1; 0; 4] /\ mutual scc_example 0 2 /\
  scc_successors s 3 = Ret [1; 2].
Proof.
  destruct (sccs_correct scc_example 20) as (s & E & Hs).
  - by_decide.
  - by_decide.
  - exists s. split; [exact E|]. assert (scc_indices s = [3; 3; 3; 2; 1; 1; 0; 4] /\ scc_successors s 3 = Ret [1; 2]) as [Ei Es]
      by (vm_compute in E; injection E as <-; split; vm_compute; reflexivity).
    split; [exact Ei|]. split; [|exact Es]. apply (sp_mutual _ _ Hs 0 2 3 3); [by_decide|by_decide|by rewrite scc_lookup, Ei|by rewrite scc_lookup, Ei|reflexivity].
Defined.

(** An annotation whose merges are joins of an order: within a component, and, if [full], also with
    the components reached. *)
Record join_annotation (A B : Type) `{!SccAnnotation A} `{!SccAnnotations B A} (le : A -> A -> Prop) (cr : nat -> A) (full : bool) : Prop := {
  ja_order : PreOrder le;
  ja_scc : forall a b c, le (merge_scc a b) c <-> le a c /\ le b c;
  ja_reached : forall a b c, le (merge_reached a b) c <-> le a c /\ (full = true -> le b c);
  ja_create : forall (b : B) v, create_annotation b v = cr v;
}.

(** The annotation of a component is the join of the annotations of its nodes, or, when reached
    annotations are merged as well, of all the nodes it reaches; [annotate_scc] is called once for
    every component, in the order of their numbers. *)
Theorem scc_annotations_correct `{Successors G} (g : G) {A B : Type} `{!SccAnnotation A} `{!SccAnnotations B A} (le : A -> A -> Prop) (cr : nat -> A)
    (full : bool) (b0 : B) (fuel : nat) : join_annotation A B le cr full -> graph_wf g -> 2 * num_nodes g + 1 < fuel ->
  exists s anns, construct fuel g b0 = Ret (s, log_annotations b0 anns) /\ sccs_of g s /\ length anns = num_sccs s /\
    forall u c a, u < num_nodes g -> scc s u = Ret c -> anns !! c = Some a ->
      forall b, le a b <-> forall v, group g full u v -> le (cr v) b.
Proof.
  intros [Hord Hscc Hre Hcr] Hwf Hf.
  assert (forall a b, le a (merge_scc a b) /\ le b (merge_scc a b)) as Hub by (intros a b; by apply Hscc).
  assert (forall a b, le a (merge_reached a b) /\ (full = true -> le b (merge_reached a b))) as Hub' by (intros a b; by apply Hre).
  destruct (construct_spec g Hwf le cr full) with fuel b0 as (st & indices & anns & res & E & Hc & Hlen & Hi); try done.
  - intros a b c. by transitivity b.
  - intros a b. apply Hub.
  - intros a b. apply Hub.
  - intros a b c ? ?. by apply Hscc.
  - intros a b. apply Hub'.
  - intros a b. apply Hub'.
  - intros a b c ? ?. by apply Hre.
  - intros b v. by rewrite Hcr.
  - intros b v. by rewrite Hcr.
  - eexists _, anns. split; [exact E|]. split; [by eapply core_sccs|]. split; [apply (co_anns _ _ _ _ _ _ _ _ _ Hc)|].
    intros u c a Hu Hs Ha b. apply scc_lookup, Hi in Hs as [_ [a' Ha']].
    destruct (co_ann _ _ _ _ _ _ _ _ _ Hc u c a' Hu Ha') as (Ea & Hlo & Hhi). assert (a' = a) as -> by congruence.
    split; [|by apply Hhi]. intros Hab v Hv. transitivity a; [by apply Hlo|done].
Qed.

(** The largest node reached, as in the tests of the module. *)
#[local] Instance max_annotation : SccAnnotation nat := {| merge_scc := Nat.max; merge_reached := Nat.max |}.
#[local] Instance max_annotations : SccAnnotations (list nat) nat := {| create_annotation _ v := v; annotate_scc l _ a := l ++ [a] |}.

Lemma scc_annotations_correct_witness : exists s (anns : list nat), construct 20 scc_example ([] : list nat) =
    Ret (s, log_annotations [] anns) /\ log_annotations [] anns = [6; 6; 6; 6; 7] /\ length anns = num_sccs s.
Proof.
  destruct (scc_annotations_correct scc_example Nat.le (fun v => v) true ([] : list nat) 20)
    as (s & anns & E & _ & Hl & _).
  - split; [split; [intros a; exact (le_n a)|intros a b c; apply Nat.le_trans]| | |done].
    + intros a b c. apply Nat.max_lub_iff.
    + intros a b c. simpl. rewrite Nat.max_lub_iff. naive_solver.
  - by_decide.
  - by_decide.
  - exists s, anns. split; [exact E|]. split; [|exact Hl].
    assert (match construct 20 scc_example ([] : list nat) with Ret (_, b) => b | _ => [] end = [6; 6; 6; 6; 7]) as Eb
      by (vm_compute; reflexivity). rewrite E in Eb. exact Eb.
Defined.
