(* ===== verification/Semantics.v ===== *)
(** * Semantics: the reference evaluator of the IR ([ctadl-ir/src/semantics/mod.rs])

    The evaluator saturates a labeling over the unfolding of a project's programs: labels sit at
    locations of the variables of function instances, and instances appear as calls resolve.
    This file is its model: the fields of [Eval] that never change ([programs], [ports],
    [config], [by_name]) are Section variables, the others are the record [Eval].  Indexing out
    of range panics.  The loops [run] and [sweep] carry fuel.  [Outcome::unresolved] keeps the
    data its strings print.  The specification and the theorems are in [Unfolding] and
    [Saturation]. *)

From S2P Require Import Prelude Index Text Path IR.

(** ** Labels *)

Inductive Label : Type :=
| Taint (l : string)
| Target (f : string)
| Class_ (c : string)
| Str (s : string).

#[export] Instance Label_eq_dec : EqDecision Label.
Proof. solve_decision. Defined.

#[export] Instance Label_countable : Countable Label.
Proof.
  refine (inj_countable'
    (fun l => match l with
              | Taint s => inl (inl s) | Target s => inl (inr s)
              | Class_ s => inr (inl s) | Str s => inr (inr s) end)
    (fun t => match t with
              | inl (inl s) => Taint s | inl (inr s) => Target s
              | inr (inl s) => Class_ s | inr (inr s) => Str s end) _).
  by intros [].
Defined.

Inductive Scope : Type := Fixed | All.

#[export] Instance Scope_eq_dec : EqDecision Scope.
Proof. solve_decision. Defined.

(** The derived order: [Fixed < All]. *)
Definition scope_leb (a b : Scope) : bool :=
  match a, b with All, Fixed => false | _, _ => true end.

Record Config : Type := { path_bound : nat; depth : nat }.
Definition Config_default : Config := {| path_bound := 6; depth := 5 |}.

Record Seed : Type := { seed_function : string; seed_path : AccessPath; seed_label : string }.
Record Observer : Type := { obs_function : string; obs_path : AccessPath; obs_name : string }.

Record Ports : Type := {
  sources : gset string;
  sinks : gset string;
  seeds : list Seed;
  observers : list Observer;
}.

Record Observation : Type := { o_function : string; o_site : string; o_label : string }.

#[export] Instance Observation_eq_dec : EqDecision Observation.
Proof. solve_decision. Defined.
#[export] Instance Observation_countable : Countable Observation.
Proof.
  refine (inj_countable' (fun o => (o_function o, o_site o, o_label o))
            (fun t => {| o_function := t.1.1; o_site := t.1.2; o_label := t.2 |}) _).
  by intros [].
Defined.

(** Why a call is zero assignments, in place of the message. *)
Inductive Why : Type :=
| NoTarget (callee : AccessPath)
| UnsupportedStyle (style : CallStyle)
| NoBody (f : string).

Record Unresolved : Type := { u_function : string; u_block : nat; u_statement : nat; u_why : Why }.

#[export] Instance Unresolved_eq_dec : EqDecision Unresolved.
Proof. assert (EqDecision Why) by solve_decision. solve_decision. Defined.

(** [Outcome]. [unresolved] is a set, kept as a list without repetitions. *)
Record Outcome : Type := {
  observed : gset Observation;
  unresolved : list Unresolved;
  truncated : bool;
}.
Definition Outcome_default : Outcome := {| observed := ∅; unresolved := []; truncated := false |}.

Inductive Owner : Type := Owner_Instance (i : nat) | Owner_Global (n : string).

#[export] Instance Owner_eq_dec : EqDecision Owner.
Proof. solve_decision. Defined.
#[export] Instance Owner_countable : Countable Owner.
Proof.
  refine (inj_countable'
    (fun o => match o with Owner_Instance i => inl i | Owner_Global n => inr n end)
    (fun t => match t with inl i => Owner_Instance i | inr n => Owner_Global n end) _).
  by intros [].
Defined.

(** The types [Var] and [Labels] of the evaluator, and the key of a child instance. *)
Notation CellVar := (prod Owner VariableRef).
Notation Labels := (gmap Label Scope).
Notation site_key := (prod (prod (prod nat nat) nat) nat).

Record Instance_ : Type := mk_instance {
  i_program : nat;
  i_function : nat;
  i_depth : nat;
  children : gmap site_key nat;
}.

Record Eval : Type := mk_eval {
  instances : list Instance_;
  cells : gmap CellVar (gmap path Labels);
  out : Outcome;
  changed : bool;
}.

Definition set_instances (ev : Eval) x := mk_eval x (cells ev) (out ev) (changed ev).
Definition set_cells (ev : Eval) x := mk_eval (instances ev) x (out ev) (changed ev).
Definition set_out (ev : Eval) x := mk_eval (instances ev) (cells ev) x (changed ev).
Definition set_changed (ev : Eval) x := mk_eval (instances ev) (cells ev) (out ev) x.

Definition set_truncated (ev : Eval) : Eval :=
  set_out ev {| observed := observed (out ev); unresolved := unresolved (out ev); truncated := true |}.
Definition add_unresolved (ev : Eval) (u : Unresolved) : Eval :=
  if decide (u ∈ unresolved (out ev)) then ev
  else set_out ev {| observed := observed (out ev); unresolved := u :: unresolved (out ev); truncated := truncated (out ev) |}.

(** [CallObject::to_string]. *)
Definition show_CallObject (o : CallObject) : string :=
  match o with
  | FunctionPtr n => "ptr<" +:+ n +:+ ">"
  | JavaObject c => "java<" +:+ c +:+ ">"
  | LuaClass c => "lua<" +:+ c +:+ ">"
  | CilObject c => "cil<" +:+ c +:+ ">"
  end.

(** Whether some variable reference of the function is versioned. *)
Definition is_ssa (f : FunctionData) : bool :=
  existsb (fun b => existsb (fun s =>
    existsb (fun v => bool_decide (is_Some (version v))) (iter_dst_var (kind s)) ||
    existsb (fun v => bool_decide (is_Some (version v))) (iter_src_var (kind s))) (statements b)) (blocks f).

(** A [BTreeSet<String>] iterates in byte order. *)
Definition string_le (a b : string) : Prop := String.leb a b = true.
#[export] Instance string_le_dec : RelDecision string_le.
Proof. intros a b. unfold string_le. apply _. Defined.
Definition btree_iter (s : gset string) : list string := merge_sort string_le (elements s).

(** ** The evaluator *)

Section eval.
Variable programs : list Program.
Variable ports : Ports.
Variable config : Config.

(** The functions with a body: (program, function, data). *)
Definition bodies : list (nat * nat * FunctionData) :=
  enumerate programs ≫= fun '(p, program) =>
    omap (fun '(i, f) => if decide (blocks f = []) then None else Some (p, i, f)) (enumerate (functions program)).

Definition eval_by_name : gmap string (nat * nat) :=
  foldl (fun m '(p, i, f) => match m !! name f with Some _ => m | None => <[name f := (p, i)]> m end) ∅ bodies.

Definition Eval_new : Eval :=
  mk_eval (map (fun '(p, i, _) => mk_instance p i 0 ∅) bodies) ∅ Outcome_default false.

Definition eval_var (ev : Eval) (inst : nat) (v : VariableRef) : outcome CellVar :=
  match variable v with
  | Variable_Global idx =>
      i ← iv_index (instances ev) inst;
      program ← iv_index programs (i_program i);
      n ← global_name program idx;
      Ret (Owner_Global n, global_ref 0)
  | _ => Ret (Owner_Instance inst, v)
  end.

Definition program_function (p i : nat) : outcome FunctionData :=
  program ← iv_index programs p; iv_index (functions program) i.

Definition function_of (ev : Eval) (inst : nat) : outcome FunctionData :=
  i ← iv_index (instances ev) inst; program_function (i_program i) (i_function i).

(** The loop of [add] over the labels of one cell. *)
Definition cell_merge (st : Labels * bool) (ls : Label * Scope) : Labels * bool :=
  let '(cell, ch) := st in
  let '(label, scope) := ls in
  match cell !! label with
  | Some s => if scope_leb scope s then (cell, ch) else (<[label := scope]> cell, true)
  | None => (<[label := scope]> cell, true)
  end.

Definition eval_add (ev : Eval) (v : CellVar) (p : path) (labels : list (Label * Scope)) : Eval :=
  if decide (classify p <> Location) then ev
  else if decide (path_bound config < length p) then set_truncated ev
  else
    let of_var := default ∅ (cells ev !! v) in
    let cell := default ∅ (of_var !! p) in
    let '(cell, ch) := foldl cell_merge (cell, changed ev) labels in
    set_changed (set_cells ev (<[v := <[p := cell]> of_var]> (cells ev))) ch.

Definition eval_read (ev : Eval) (v : CellVar) (p : path) : Labels :=
  default ∅ (cells ev !! v ≫= fun c => c !! location_of p).

(** The targets of the label at [src.p] under the assignment [dst.d = src.s]. *)
Definition forward_targets (d s p : path) : list path :=
  match strip_prefix p s with
  | Some t =>
      concat d t ::
      (if decide (t = [] /\ last s = Some Value) then [concat d [Value]] else [])
  | None => []
  end ++
  (if decide (classify s = Address /\ location_of s = p) then [d] else []).

Definition eval_assign (ev : Eval) (dst : CellVar) (d : path) (src : CellVar) (s : path) (store : bool) : Eval :=
  if decide (classify d = Void \/ classify s = Void) then ev
  else
    let fwd_scope := if store then All else Fixed in
    let src_cells := map_to_list (default ∅ (cells ev !! src)) in
    let ev := foldl (fun ev '(p, labels) =>
        foldl (fun ev target => eval_add ev dst target (map (fun '(l, _) => (l, fwd_scope)) (map_to_list labels)))
          ev (forward_targets d s p))
      ev src_cells in
    let dst_cells := map_to_list (default ∅ (cells ev !! dst)) in
    foldl (fun ev '(q, l) =>
        let labels := filter (fun ls : Label * Scope => ls.2 = All) (map_to_list l) in
        if decide (labels = []) then ev else
        match strip_prefix q d with
        | None => ev
        | Some t =>
            if decide (t = [] \/ t = [Value]) then ev
            else eval_add ev src (concat s t) (map (fun '(l, _) => (l, All)) labels)
        end)
      ev dst_cells.

Definition assign_exp (ev : Eval) (dst : CellVar) (d : path) (src_inst : nat) (e : Exp) : outcome Eval :=
  let store := negb (bool_decide (d = [])) in
  let scope := if store then All else Fixed in
  match e with
  | Exp_Path ap => v ← eval_var ev src_inst (base ap); Ret (eval_assign ev dst d v (segments ap) store)
  | Exp_Value ap =>
      let d := concat d [Value] in
      v ← eval_var ev src_inst (base ap); Ret (eval_assign ev dst d v (segments ap) true)
  | Exp_ObjectRef obj =>
      let label := match obj with
                   | FunctionPtr f => Target f
                   | other => Class_ (show_CallObject other)
                   end in
      Ret (eval_add ev dst d [(label, scope)])
  | Exp_Str s => Ret (eval_add ev dst d [(Str s, scope)])
  | Exp_Int _ | Exp_Bytes _ => Ret ev
  end.

Definition taints (labels : Labels) : list string :=
  omap (fun '(l, _) => match l with Taint t => Some t | _ => None end) (map_to_list labels).

Definition add_observed (ev : Eval) (o : Observation) : Eval :=
  if decide (o ∈ observed (out ev)) then ev
  else set_changed (set_out ev {| observed := {[ o ]} ∪ observed (out ev); unresolved := unresolved (out ev);
                                  truncated := truncated (out ev) |}) true.

(** [labels.extend(other)] keeps the scopes of [other]; only the keys are used. *)
Definition observe (ev : Eval) (inst : nat) (ap : AccessPath) (site : string) : outcome Eval :=
  v ← eval_var ev inst (base ap);
  let value := concat (segments ap) [Value] in
  let labels := eval_read ev v value ∪ eval_read ev v (segments ap) in
  f ← function_of ev inst;
  Ret (foldl (fun ev t => add_observed ev {| o_function := name f; o_site := site; o_label := t |})
         ev (taints labels)).

Definition eval_source (ev : Eval) (inst : nat) (f : string) (rets : list VariableRef) (args : list Exp) : outcome Eval :=
  match rets with
  | [] => Ret ev
  | r :: _ =>
      let label := match args with Exp_Str s :: _ => Taint s | _ => Taint f end in
      v ← eval_var ev inst r;
      Ret (eval_add (eval_add ev v [] [(label, All)]) v [Value] [(label, All)])
  end.

Definition sink_site (f : string) (args : list Exp) (span : N) : string :=
  let port_label := match args !! 1 with Some (Exp_Str s) => s | _ => "_" end in
  f +:+ "(" +:+ port_label +:+ ")@" +:+ pretty span.

Definition eval_sink (ev : Eval) (inst : nat) (span : N) (f : string) (args : list Exp) : outcome Eval :=
  match head args ≫= access_path with
  | None => Ret ev
  | Some ap => observe ev inst ap (sink_site f args span)
  end.

(** The arguments of every return of the function. *)
Definition returns_of (f : FunctionData) : list (list Exp) :=
  omap (fun b => match terminator b with
                 | Some t => match term_kind t with Return args => Some args | _ => None end
                 | None => None
                 end) (blocks f).

(** The child instance of a call: the one recorded, or a new one within the depth bound. *)
Definition child_instance (ev : Eval) (inst : nat) (key : site_key) : outcome (Eval * option nat) :=
  i ← iv_index (instances ev) inst;
  match children i !! key with
  | Some c => Ret (ev, Some c)
  | None =>
      let d := i_depth i + 1 in
      if decide (depth config < d) then Ret (set_truncated ev, None)
      else
        let c := length (instances ev) in
        let '(_, _, callee_program, callee) := key in
        let pushed := instances ev ++ [mk_instance callee_program callee d ∅] in
        insts ← iv_set pushed inst (mk_instance (i_program i) (i_function i) (i_depth i) (<[key := c]> (children i)));
        Ret (set_changed (set_instances ev insts) true, Some c)
  end.

Definition instantiate (ev : Eval) (inst bb i : nat) (callee : nat * nat) (rets : list VariableRef) (args : list Exp)
  : outcome Eval :=
  '(ev, child) ← child_instance ev inst (bb, i, callee.1, callee.2);
  match child with
  | None => Ret ev
  | Some child =>
      f ← program_function callee.1 callee.2;
      ev ← foldM (fun ev '(idx, arg) =>
             v ← eval_var ev child (new_parameter idx); assign_exp ev v [] inst arg)
           ev (take (num_parameters f) (enumerate args));
      foldM (fun ev ret => foldM (fun ev '(r, e) =>
               v ← eval_var ev inst r; assign_exp ev v [] child e) ev (zip rets ret))
        ev (returns_of f)
  end.

(** The target labels at the callee path and at its value (S11). *)
Definition func_ptr_targets (ev : Eval) (v : CellVar) (callee : AccessPath) : gset string :=
  list_to_set (
    [segments callee; concat (segments callee) [Value]] ≫= fun p =>
      omap (fun '(l, _) => match l with Target f => Some f | _ => None end) (map_to_list (eval_read ev v p))).

(** [unresolved.insert(format!("{site}: ..."))], with [site] the call's function and position. *)
Definition unresolved_at (ev : Eval) (inst bb i : nat) (why : Why) : outcome Eval :=
  f ← function_of ev inst;
  Ret (add_unresolved ev {| u_function := name f; u_block := bb; u_statement := i; u_why := why |}).

(** Whom a call reaches: the names, and the state with an unresolved call recorded. *)
Definition call_targets (ev : Eval) (inst bb i : nat) (style : CallStyle) : outcome (Eval * list string) :=
  match style with
  | DirectCall (Explicit names) => Ret (ev, names)
  | FuncPtrCall callee _ =>
      v ← eval_var ev inst (base callee);
      let names := func_ptr_targets ev v callee in
      ev ← (if decide (names = ∅) then unresolved_at ev inst bb i (NoTarget callee) else Ret ev);
      Ret (ev, btree_iter names)
  | other => ev ← unresolved_at ev inst bb i (UnsupportedStyle other); Ret (ev, [])
  end.

(** One target name of a call: a source, a sink, a function with a body, or nothing. *)
Definition call_name (inst bb i : nat) (span : N) (rets : list VariableRef) (args : list Exp) (ev : Eval) (n : string)
  : outcome Eval :=
  if decide (n ∈ sources ports) then eval_source ev inst n rets args
  else if decide (n ∈ sinks ports) then eval_sink ev inst span n args
  else match eval_by_name !! n with
       | Some callee => instantiate ev inst bb i callee rets args
       | None => unresolved_at ev inst bb i (NoBody n)
       end.

Definition eval_call (ev : Eval) (inst bb i : nat) (span : N) (style : CallStyle) (rets : list VariableRef) (args : list Exp)
  : outcome Eval :=
  '(ev, targets) ← call_targets ev inst bb i style;
  foldM (call_name inst bb i span rets args) ev targets.

Definition eval_seed (inst : nat) (ev : Eval) (s : Seed) : outcome Eval :=
  v ← eval_var ev inst (base (seed_path s));
  let label := Taint (seed_label s) in
  let value := concat (segments (seed_path s)) [Value] in
  Ret (eval_add (eval_add ev v (segments (seed_path s)) [(label, All)]) v value [(label, All)]).

Definition eval_stmt (inst bb : nat) (ev : Eval) (istmt : nat * Statement) : outcome Eval :=
  let '(i, stmt) := istmt in
  match kind stmt with
  | Assign dest srcs =>
      dst ← eval_var ev inst (base dest);
      foldM (fun ev e => assign_exp ev dst (segments dest) inst e) ev srcs
  | Phi dest operands =>
      dst ← eval_var ev inst dest;
      foldM (fun ev '(_, op) => v ← eval_var ev inst op; Ret (eval_assign ev dst [] v [] false)) ev operands
  | CallAssign style rets args => eval_call ev inst bb i (source_info stmt) style rets args
  | Nop => Ret ev
  end.

Definition eval_step (ev : Eval) (inst : nat) : outcome Eval :=
  f ← function_of ev inst;
  ev ← foldM (eval_seed inst) ev (filter (fun s => seed_function s = name f) (seeds ports));
  ev ← foldM (fun ev o => observe ev inst (obs_path o) (obs_name o)) ev
         (filter (fun o => obs_function o = name f) (observers ports));
  foldM (fun ev '(bb, block) => foldM (eval_stmt inst bb) ev (enumerate (statements block))) ev
    (enumerate (blocks f)).

(** [while i < self.instances.len()]: the instances a step adds are visited too. *)
Fixpoint sweep (fuel : nat) (i : nat) (ev : Eval) : outcome Eval :=
  match fuel with
  | 0 => OutOfFuel
  | S fuel =>
      if decide (i < length (instances ev)) then ev ← eval_step ev i; sweep fuel (S i) ev
      else Ret ev
  end.

Fixpoint run (fuel : nat) (ev : Eval) : outcome Eval :=
  match fuel with
  | 0 => OutOfFuel
  | S fuel' =>
      ev ← sweep fuel 0 (set_changed ev false);
      if changed ev then run fuel' ev else Ret ev
  end.

Definition evaluate_programs (fuel : nat) : outcome Outcome := ev ← run fuel Eval_new; Ret (out ev).
End eval.

Definition evaluate (program : Program) := evaluate_programs [program].
