(* ===== verification/Unfolding.v ===== *)
(** * Unfolding: the labeling the IR's rules define ([docs/ir.md], S1-S17, G2-G5)

    An instance of a function is a call string: the root function and the calls that lead from
    it, the most recent first.  [derives B D] is the least set of judgements closed under the
    rules, over paths whose length satisfies [B] and instances whose depth satisfies [D]; with
    both bounds trivial it is the semantics of the documentation, and with the bounds of
    [Config] it is what the evaluator is meant to compute.  Nothing here depends on the
    evaluator's tables: instances have no index and labels sit in no cell. *)

From S2P Require Import Prelude Index Text Path IR Semantics.

(** ** Instances and variables *)

Record CallString : Type := mk_cs { cs_calls : list site_key; cs_root : nat * nat }.

#[export] Instance CallString_eq_dec : EqDecision CallString.
Proof. solve_decision. Defined.

(** The (program, function) the instance is an instance of. *)
Definition cs_function (cs : CallString) : nat * nat :=
  match cs_calls cs with (_, _, p, f) :: _ => (p, f) | [] => cs_root cs end.
Definition cs_depth (cs : CallString) : nat := length (cs_calls cs).
Definition cs_call (cs : CallString) (key : site_key) : CallString := mk_cs (key :: cs_calls cs) (cs_root cs).

(** A variable of an instance, or the one global of a name (G2, G3). *)
Inductive AOwner : Type := A_Instance (cs : CallString) | A_Global (n : string).
Notation AVar := (prod AOwner VariableRef).

#[export] Instance AOwner_eq_dec : EqDecision AOwner.
Proof. solve_decision. Defined.

(** ** Judgements *)

Inductive Judgement : Type :=
| J_live (cs : CallString)
(** the call at block [bb], statement [k] reaches the name [n] *)
| J_call (cs : CallString) (bb k : nat) (span : N) (rets : list VariableRef) (args : list Exp) (n : string)
(** the assignment [a.d = e], [e] read in [cs] *)
| J_assign (a : AVar) (d : path) (cs : CallString) (e : Exp)
(** the label [l] at [a.p] with at least the scope [s] *)
| J_hold (a : AVar) (p : path) (l : Label) (s : Scope)
(** a sink named [site] observes [ap] in [cs] *)
| J_observe (cs : CallString) (ap : AccessPath) (site : string)
| J_observed (o : Observation).

Section derives.
Variable programs : list Program.
Variable ports : Ports.
Variable B D : nat -> Prop.

Definition function_at (cs : CallString) : option FunctionData :=
  program ← programs !! (cs_function cs).1; functions program !! (cs_function cs).2.

(** The variable [v] names in [cs]. *)
Definition abs_var (cs : CallString) (v : VariableRef) : option AVar :=
  match variable v with
  | Variable_Global idx =>
      program ← programs !! (cs_function cs).1;
      g ← gdecls (globals program) !! idx;
      Some (A_Global (gname g), global_ref 0)
  | _ => Some (A_Instance cs, v)
  end.

(** Statement [k] of block [bb] of the function of [cs]. *)
Definition stmt_at (cs : CallString) (bb k : nat) : option Statement :=
  f ← function_at cs; b ← blocks f !! bb; statements b !! k.

(** The assignment an access-path operand makes: its destination path, its source, and whether it
    is a store. *)
Definition exp_flow (d : path) (e : Exp) : option (path * AccessPath * bool) :=
  match e with
  | Exp_Path ap => Some (d, ap, negb (bool_decide (d = [])))
  | Exp_Value ap => Some (concat d [Value], ap, true)
  | _ => None
  end.

(** The label a constant operand places. *)
Definition exp_label (e : Exp) : option Label :=
  match e with
  | Exp_ObjectRef (FunctionPtr f) => Some (Target f)
  | Exp_ObjectRef other => Some (Class_ (show_CallObject other))
  | Exp_Str s => Some (Str s)
  | _ => None
  end.

Definition scope_of (store : bool) : Scope := if store then All else Fixed.

(** A location within the bound. *)
Definition location (p : path) : Prop := classify p = Location /\ B (length p).

Definition source_label (n : string) (args : list Exp) : Label :=
  match args with Exp_Str s :: _ => Taint s | _ => Taint n end.

Inductive derives : Judgement -> Prop :=
| d_root p i f :
    (p, i, f) ∈ bodies programs -> derives (J_live (mk_cs [] (p, i)))
| d_child cs bb k span rets args n cp cf :
    derives (J_call cs bb k span rets args n) -> n ∉ sources ports -> n ∉ sinks ports ->
    eval_by_name programs !! n = Some (cp, cf) -> D (S (cs_depth cs)) ->
    derives (J_live (cs_call cs (bb, k, cp, cf)))
| d_direct cs bb k st names rets args n :
    derives (J_live cs) -> stmt_at cs bb k = Some st ->
    kind st = CallAssign (DirectCall (Explicit names)) rets args -> n ∈ names ->
    derives (J_call cs bb k (source_info st) rets args n)
| d_indirect cs bb k st callee sg rets args n a p s :
    derives (J_live cs) -> stmt_at cs bb k = Some st ->
    kind st = CallAssign (FuncPtrCall callee sg) rets args ->
    abs_var cs (base callee) = Some a ->
    p = segments callee \/ p = concat (segments callee) [Value] ->
    derives (J_hold a (location_of p) (Target n) s) ->
    derives (J_call cs bb k (source_info st) rets args n)
| d_statement cs bb k st dest srcs e a :
    derives (J_live cs) -> stmt_at cs bb k = Some st -> kind st = Assign dest srcs -> e ∈ srcs ->
    abs_var cs (base dest) = Some a ->
    derives (J_assign a (segments dest) cs e)
| d_phi cs bb k st dest ops b op a :
    derives (J_live cs) -> stmt_at cs bb k = Some st -> kind st = Phi dest ops -> (b, op) ∈ ops ->
    abs_var cs dest = Some a ->
    derives (J_assign a [] cs (Exp_variable op))
| d_argument cs bb k span rets args n cp cf f idx e :
    derives (J_call cs bb k span rets args n) -> n ∉ sources ports -> n ∉ sinks ports ->
    eval_by_name programs !! n = Some (cp, cf) -> D (S (cs_depth cs)) ->
    function_at (cs_call cs (bb, k, cp, cf)) = Some f -> args !! idx = Some e -> idx < num_parameters f ->
    derives (J_assign (A_Instance (cs_call cs (bb, k, cp, cf)), new_parameter idx) [] cs e)
| d_return cs bb k span rets args n cp cf f ret j r e a :
    derives (J_call cs bb k span rets args n) -> n ∉ sources ports -> n ∉ sinks ports ->
    eval_by_name programs !! n = Some (cp, cf) -> D (S (cs_depth cs)) ->
    function_at (cs_call cs (bb, k, cp, cf)) = Some f -> ret ∈ returns_of f ->
    rets !! j = Some r -> ret !! j = Some e -> abs_var cs r = Some a ->
    derives (J_assign a [] (cs_call cs (bb, k, cp, cf)) e)
| d_seed cs f sd a p :
    derives (J_live cs) -> function_at cs = Some f -> sd ∈ seeds ports -> seed_function sd = name f ->
    abs_var cs (base (seed_path sd)) = Some a ->
    p = segments (seed_path sd) \/ p = concat (segments (seed_path sd)) [Value] -> location p ->
    derives (J_hold a p (Taint (seed_label sd)) All)
| d_source cs bb k span r rets args n a p :
    derives (J_call cs bb k span (r :: rets) args n) -> n ∈ sources ports ->
    abs_var cs r = Some a -> p = [] \/ p = [Value] -> location p ->
    derives (J_hold a p (source_label n args) All)
| d_constant a d cs e l :
    derives (J_assign a d cs e) -> exp_label e = Some l -> location d ->
    derives (J_hold a d l (scope_of (negb (bool_decide (d = [])))))
| d_weaken a p l :
    derives (J_hold a p l All) -> derives (J_hold a p l Fixed)
| d_forward a d0 cs e d ap store a' p l sc t :
    derives (J_assign a d0 cs e) -> exp_flow d0 e = Some (d, ap, store) -> abs_var cs (base ap) = Some a' ->
    classify d <> Void -> classify (segments ap) <> Void ->
    derives (J_hold a' p l sc) -> t ∈ forward_targets d (segments ap) p -> location t ->
    derives (J_hold a t l (scope_of store))
| d_backward a d0 cs e d ap store a' q l t :
    derives (J_assign a d0 cs e) -> exp_flow d0 e = Some (d, ap, store) -> abs_var cs (base ap) = Some a' ->
    classify d <> Void -> classify (segments ap) <> Void ->
    derives (J_hold a q l All) -> strip_prefix q d = Some t -> t <> [] -> t <> [Value] ->
    location (concat (segments ap) t) ->
    derives (J_hold a' (concat (segments ap) t) l All)
| d_observer cs f o :
    derives (J_live cs) -> function_at cs = Some f -> o ∈ observers ports -> obs_function o = name f ->
    derives (J_observe cs (obs_path o) (obs_name o))
| d_sink cs bb k span rets args n ap :
    derives (J_call cs bb k span rets args n) -> n ∉ sources ports -> n ∈ sinks ports ->
    head args ≫= access_path = Some ap ->
    derives (J_observe cs ap (sink_site n args span))
| d_observed cs ap site f a p t s :
    derives (J_observe cs ap site) -> function_at cs = Some f -> abs_var cs (base ap) = Some a ->
    p = segments ap \/ p = concat (segments ap) [Value] ->
    derives (J_hold a (location_of p) (Taint t) s) ->
    derives (J_observed {| o_function := name f; o_site := site; o_label := t |}).
End derives.

(** ** Function tables *)

Section bodies.
Variable programs : list Program.

Lemma elem_of_bodies p i f : (p, i, f) ∈ bodies programs <->
  exists program, programs !! p = Some program /\ functions program !! i = Some f /\ blocks f <> [].
Proof.
  unfold bodies. rewrite list_elem_of_bind. split.
  - intros ([p' program] & Hin & Hp%elem_of_enumerate). apply list_elem_of_omap in Hin as ([i' f'] & Hi%elem_of_enumerate & Hd).
    case_decide; simplify_eq. eauto.
  - intros (program & Hp & Hi & Hb). exists (p, program). split; [|by apply elem_of_enumerate].
    apply list_elem_of_omap. exists (i, f). rewrite decide_False by done. split; [by apply elem_of_enumerate|done].
Qed.

Lemma by_name_fold (l : list (nat * nat * FunctionData)) : forall (m : gmap string (nat * nat)) n c,
  foldl (fun (m : gmap string (nat * nat)) '(p, i, f) => match m !! name f with Some _ => m | None => <[name f := (p, i)]> m end) m l !! n = Some c ->
  m !! n = Some c \/ exists f, (c, f) ∈ l.
Proof.
  induction l as [|[[p i] f] l IH]; intros m n c; simpl; [by left|]. intros [Hm|(f' & Hf)]%IH; [|right; exists f'; set_solver].
  destruct (m !! name f); [by left|]. destruct (decide (name f = n)) as [<-|Hn].
  - rewrite lookup_insert_eq in Hm. simplify_eq. right. exists f. set_solver.
  - rewrite lookup_insert_ne in Hm by done. by left.
Qed.

Lemma by_name_body n cp cf : eval_by_name programs !! n = Some (cp, cf) -> exists f, (cp, cf, f) ∈ bodies programs.
Proof. intros H. apply by_name_fold in H as [H|[f H]]; [by rewrite lookup_empty in H|eauto]. Qed.

Lemma body_function_at cs p i f : (p, i, f) ∈ bodies programs -> cs_function cs = (p, i) -> function_at programs cs = Some f.
Proof. intros (program & Hp & Hi & _)%elem_of_bodies Hc. unfold function_at. rewrite Hc. simpl. by rewrite Hp. Qed.

End bodies.

(** ** Finiteness

    Within the bounds only finitely many judgements are derivable: the labels, variables, fields
    and call sites are the program's, and offsets are [i64]. *)

Lemma bounded_lists {A} (P : A -> Prop) (xs : list A) (n : nat) : (forall x, P x -> x ∈ xs) ->
  exists ls : list (list A), forall l, Forall P l -> length l <= n -> l ∈ ls.
Proof.
  intros Hxs. induction n as [|n [ls IH]].
  - exists [[]]. intros [|x l] _ Hl; simpl in Hl; [set_solver|lia].
  - exists ([] :: (xs ≫= fun x => map (cons x) ls)). intros [|x l] Hf Hl; [set_solver|]. apply Forall_cons in Hf as [Hx Hf].
    apply elem_of_cons. right. apply list_elem_of_bind. exists x. split; [|by apply Hxs].
    apply elem_of_map. exists l. split; [done|]. apply IH; [done|]. simpl in Hl. lia.
Qed.

Section segments.
Variable segs : list PathSegment.

(** A segment of the program, or one the path operations make. *)
Definition seg_in (s : PathSegment) : Prop :=
  s ∈ segs \/ s = Deref \/ s = Value \/ exists z, s = Offset z /\ in_i64 z.

Lemma seg_in_finite : exists ss : list PathSegment, forall s, seg_in s -> s ∈ ss.
Proof.
  exists (segs ++ [Deref; Value] ++ map Offset (seqZ i64_min (i64_max - i64_min + 1))).
  intros s [?|[->|[->|(z & -> & Hz)]]]; rewrite !elem_of_app; [by left|right; left; set_solver..|].
  right. right. apply elem_of_map. exists z. split; [done|]. apply elem_of_seqZ. unfold in_i64 in Hz. lia.
Qed.

Lemma push_seg_in p s : Forall seg_in p -> seg_in s -> Forall seg_in (push_normalized p s).
Proof.
  intros Hp Hs.
  assert (forall o, Forall seg_in o -> forall i x, split_last o = Some (i, x) -> Forall seg_in i) as Hi.
  { intros o Ho i x ->%split_last_Some. by apply Forall_app in Ho as [? _]. }
  assert (forall o x, Forall seg_in o -> seg_in x -> Forall seg_in (o ++ [x])) as Hsnoc.
  { intros. apply Forall_app. split; [done|by apply Forall_singleton]. }
  unfold push_normalized. destruct s as [n|k| |]; [by auto| |by auto|].
  - destruct (split_last p) as [[i x]|] eqn:E; [|case_decide; auto]. apply Hi in E; [|done].
    destruct x; try (case_decide; by auto); [|done]. case_decide; [done|]. apply Hsnoc; [done|].
    right. right. right. eexists. split; [done|apply wrapping_add_range].
  - set (o := match split_last p with Some (i, Offset _) => i | _ => p end).
    assert (Forall seg_in o) as Ho.
    { unfold o. destruct (split_last p) as [[i []]|] eqn:E; try done. by eapply Hi. }
    destruct (split_last o) as [[i []]|]; auto.
Qed.

Lemma concat_seg_in p q : Forall seg_in p -> Forall seg_in q -> Forall seg_in (concat p q).
Proof.
  intros Hp Hq. revert p Hp. induction Hq as [|s q Hs Hq IH]; intros p Hp; [done|].
  change (Forall seg_in (concat (push_normalized p s) q)). apply IH. by apply push_seg_in.
Qed.

Lemma value_seg_in : Forall seg_in [Value].
Proof. apply Forall_singleton. right. right. by left. Qed.

Lemma location_of_seg_in p : Forall seg_in p -> Forall seg_in (location_of p).
Proof.
  unfold location_of. intros Hp. destruct (split_last p) as [[i x]|] eqn:E; [|done]. apply split_last_Some in E as ->.
  destruct x; [done| |done|done]. by apply Forall_app in Hp as [? _].
Qed.

Lemma strip_seg_in p q t : Forall seg_in p -> strip_prefix p q = Some t -> Forall seg_in t.
Proof.
  intros Hp. unfold strip_prefix. destruct (split_last q) as [[i x]|]; [|by intros [= <-]].
  do 2 (case_decide; [done|]). assert (Forall seg_in (drop (length i) p)) as Hd by (by apply Forall_drop).
  destruct x as [n|m| |].
  - destruct (drop (length i) p) as [|h tl]; [done|]. case_decide; [|done]. intros [= <-]. by apply Forall_cons in Hd as [_ ?].
  - case_decide; [|done]. intros [= <-]. apply concat_seg_in; [|done]. apply (concat_seg_in [] [_]); [done|].
    apply Forall_singleton. right. right. right. eexists. split; [done|apply wrapping_neg_range].
  - destruct (drop (length i) p) as [|h tl]; [done|]. case_decide; [|done]. intros [= <-]. by apply Forall_cons in Hd as [_ ?].
  - destruct (drop (length i) p) as [|h tl]; [done|]. case_decide; [|done]. intros [= <-]. by apply Forall_cons in Hd as [_ ?].
Qed.

Lemma forward_seg_in d s p t : Forall seg_in d -> Forall seg_in p -> t ∈ forward_targets d s p -> Forall seg_in t.
Proof.
  intros Hd Hp. unfold forward_targets. rewrite elem_of_app. intros [Ht|Ht].
  - destruct (strip_prefix p s) as [u|] eqn:E; [|by apply elem_of_nil in Ht]. apply elem_of_cons in Ht as [->|Ht].
    + apply concat_seg_in; [done|]. by eapply strip_seg_in.
    + case_decide; [|by apply elem_of_nil in Ht]. apply list_elem_of_singleton in Ht as ->. apply concat_seg_in; [done|apply value_seg_in].
  - case_decide; [|by apply elem_of_nil in Ht]. by apply list_elem_of_singleton in Ht as ->.
Qed.
End segments.

Section finite.
Variable programs : list Program.
Variable ports : Ports.
Variables pb db : nat.
Notation der := (derives programs ports (fun n => n <= pb) (fun n => n <= db)).

(** What the programs and the ports name. *)
Definition fns : list FunctionData := programs ≫= functions.
Definition stmts : list (nat * nat * Statement) :=
  fns ≫= fun f => enumerate (blocks f) ≫= fun '(bb, b) => map (fun '(k, st) => (bb, k, st)) (enumerate (statements b)).
Definition body_ids : list (nat * nat) := map fst (bodies programs).
Definition keys : list site_key := stmts ≫= fun '(bb, k, _) => map (fun '(p, f) => (bb, k, p, f)) body_ids.
Definition exps_of (k : StatementKind) : list Exp :=
  match k with
  | Assign _ srcs => srcs
  | CallAssign _ _ args => args
  | Phi _ ops => map (fun x => Exp_variable x.2) ops
  | Nop => []
  end.
Definition exps : list Exp := (stmts ≫= fun x => exps_of (kind x.2)) ++ (fns ≫= fun f => mjoin (returns_of f)).
Definition dests : list AccessPath := omap (fun x => match kind x.2 with Assign dest _ => Some dest | _ => None end) stmts.
Definition aps : list AccessPath := omap access_path exps ++ dests ++ map seed_path (seeds ports).
Definition segs : path := aps ≫= segments.
Definition vars : list VariableRef :=
  [global_ref 0] ++ map base aps ++ (stmts ≫= fun x => iter_dst_var (kind x.2)) ++
  (fns ≫= fun f => map new_parameter (seq 0 (num_parameters f))).
Definition gnames : list string := programs ≫= fun p => map gname (gdecls (globals p)).
Definition labs : list Label :=
  omap exp_label exps ++ map (fun s => Taint (seed_label s)) (seeds ports) ++ map Taint (elements (sources ports)) ++
  omap (fun e => match e with Exp_Str s => Some (Taint s) | _ => None end) exps.
Definition sites : list string :=
  map obs_name (observers ports) ++
  (stmts ≫= fun x => match kind x.2 with
                     | CallAssign _ _ args => map (fun n => sink_site n args (source_info x.2)) (elements (sinks ports))
                     | _ => []
                     end).

Definition good_cs (cs : CallString) : Prop :=
  Forall (fun key => key ∈ keys) (cs_calls cs) /\ length (cs_calls cs) <= db /\ cs_root cs ∈ body_ids.
Definition good_var (a : AVar) : Prop :=
  match a.1 with A_Instance cs => good_cs cs | A_Global n => n ∈ gnames end /\ a.2 ∈ vars.

Definition good (j : Judgement) : Prop :=
  match j with
  | J_live cs => good_cs cs
  | J_call cs bb k span rets args n => good_cs cs /\
      exists st style, (bb, k, st) ∈ stmts /\ kind st = CallAssign style rets args /\ span = source_info st
  | J_assign a d cs e => good_var a /\ Forall (seg_in segs) d /\ good_cs cs /\ e ∈ exps
  | J_hold a p l s => good_var a /\ Forall (seg_in segs) p /\ length p <= pb /\ l ∈ labs
  | J_observe cs ap site => site ∈ sites
  | J_observed o => o_function o ∈ map name fns /\ o_site o ∈ sites /\ Taint (o_label o) ∈ labs
  end.

Lemma function_at_fns cs f : function_at programs cs = Some f -> f ∈ fns.
Proof.
  unfold function_at, fns. intros H. destruct (programs !! _) as [pr|] eqn:E; [|done]. simpl in H.
  apply list_elem_of_bind. exists pr. split; by eapply list_elem_of_lookup_2.
Qed.

Lemma stmt_at_stmts cs bb k st : stmt_at programs cs bb k = Some st -> (bb, k, st) ∈ stmts.
Proof.
  unfold stmt_at. destruct (function_at programs cs) as [f|] eqn:Ef; [|done]. simpl.
  destruct (blocks f !! bb) as [b|] eqn:Eb; [|done]. simpl. intros Hk. apply list_elem_of_bind. exists f.
  split; [|by eapply function_at_fns]. apply list_elem_of_bind. exists (bb, b). split; [|by apply elem_of_enumerate].
  apply elem_of_map. exists (k, st). split; [done|]. by apply elem_of_enumerate.
Qed.

Lemma abs_var_good cs v a : good_cs cs -> abs_var programs cs v = Some a -> v ∈ vars -> good_var a.
Proof.
  unfold abs_var. intros Hcs Ha Hv. destruct (variable v); simplify_eq; try done.
  destruct (programs !! _) as [pr|] eqn:E; [|done]. simpl in Ha. destruct (gdecls _ !! _) as [g|] eqn:Eg; [|done].
  simplify_eq/=. split; simpl; [|by apply elem_of_app; left; apply list_elem_of_here].
  apply list_elem_of_bind. exists pr. split; [|by eapply list_elem_of_lookup_2].
  apply elem_of_map. exists g. split; [done|by eapply list_elem_of_lookup_2].
Qed.

Lemma aps_good ap : ap ∈ aps -> base ap ∈ vars /\ Forall (seg_in segs) (segments ap).
Proof.
  intros Hap. split.
  - unfold vars. rewrite !elem_of_app. right. left. apply elem_of_map. eauto.
  - apply Forall_forall. intros s Hs. left. apply list_elem_of_bind. eauto.
Qed.

Lemma exp_good e ap : e ∈ exps -> access_path e = Some ap -> base ap ∈ vars /\ Forall (seg_in segs) (segments ap).
Proof. intros He Hap. apply aps_good. unfold aps. rewrite elem_of_app. left. apply list_elem_of_omap. eauto. Qed.

Lemma stmt_exps bb k st e : (bb, k, st) ∈ stmts -> e ∈ exps_of (kind st) -> e ∈ exps.
Proof. intros Hs He. unfold exps. rewrite elem_of_app. left. apply list_elem_of_bind. by exists (bb, k, st). Qed.

Lemma stmt_dst bb k st v : (bb, k, st) ∈ stmts -> v ∈ iter_dst_var (kind st) -> v ∈ vars.
Proof.
  intros Hs Hv. unfold vars. rewrite !elem_of_app. right. right. left. apply list_elem_of_bind. by exists (bb, k, st).
Qed.

Lemma flow_good d0 e d ap store : Forall (seg_in segs) d0 -> e ∈ exps -> exp_flow d0 e = Some (d, ap, store) ->
  Forall (seg_in segs) d /\ base ap ∈ vars /\ Forall (seg_in segs) (segments ap).
Proof.
  intros Hd He Hfl. destruct e; simplify_eq/=; destruct (exp_good _ ap He eq_refl); split_and!; try done.
  apply concat_seg_in; [done|apply value_seg_in].
Qed.

Lemma body_in cp cf n : eval_by_name programs !! n = Some (cp, cf) -> (cp, cf) ∈ body_ids.
Proof. intros [f Hf]%by_name_body. apply elem_of_map. by exists (cp, cf, f). Qed.

Lemma call_good cs bb k span rets args n cp cf : good (J_call cs bb k span rets args n) ->
  eval_by_name programs !! n = Some (cp, cf) -> S (cs_depth cs) <= db -> good_cs (cs_call cs (bb, k, cp, cf)).
Proof.
  intros ((Hk & Hd & Hr) & st & style & Hst & _) Hn Hdb. split_and!; [|done|done].
  apply Forall_cons. split; [|done]. apply list_elem_of_bind. exists (bb, k, st). split; [|done].
  apply elem_of_map. exists (cp, cf). split; [done|]. by eapply body_in.
Qed.

Lemma derives_good j : der j -> good j.
Proof.
  induction 1 as [p i f Hb|cs bb k span rets args n cp cf _ IH _ _ Hn Hd|cs bb k st names rets args n _ IH Hst Hk _
    |cs bb k st callee sg rets args n a p s _ IH Hst Hk _ _ _ _|cs bb k st dest srcs e a _ IH Hst Hk He Ha
    |cs bb k st dest ops b op a _ IH Hst Hk Ho Ha|cs bb k span rets args n cp cf f idx e _ IH _ _ Hn Hd Hf He Hidx
    |cs bb k span rets args n cp cf f ret j r e a _ IH _ _ Hn Hd Hf Hret Hr He Ha
    |cs f sd a p _ IH Hf Hsd _ Ha Hp [_ Hlen]|cs bb k span r rets args n a p _ IH Hn Ha Hp [_ Hlen]
    |a d cs e l _ IH Hl [_ Hlen]|a p l _ IH|a d0 cs e d ap store a' p l sc t _ IH1 Hfl Ha _ _ _ IH2 Ht [_ Hlen]
    |a d0 cs e d ap store a' q l t _ IH1 Hfl Ha _ _ _ IH2 Ht _ _ [_ Hlen]|cs f o _ IH Hf Ho _
    |cs bb k span rets args n ap _ IH _ Hn _|cs ap site f a p t s _ IH1 Hf Ha Hp _ IH2].
  - split_and!; [constructor|simpl; lia|]. apply elem_of_map. by exists (p, i, f).
  - by eapply call_good.
  - split; [done|]. exists st. eauto using stmt_at_stmts.
  - split; [done|]. exists st. eauto using stmt_at_stmts.
  - apply stmt_at_stmts in Hst. destruct (aps_good dest) as [Hb Hs].
    { unfold aps. rewrite !elem_of_app. right. left. apply list_elem_of_omap. exists (bb, k, st). simpl. by rewrite Hk. }
    split_and!; [by eapply abs_var_good|done|done|]. eapply stmt_exps; [done|]. by rewrite Hk.
  - apply stmt_at_stmts in Hst. split_and!; [|constructor|done|].
    + eapply abs_var_good; [done..|]. eapply stmt_dst; [done|]. rewrite Hk. simpl. set_solver.
    + eapply stmt_exps; [done|]. rewrite Hk. simpl. apply elem_of_map. by exists (b, op).
  - pose proof (call_good _ _ _ _ _ _ _ _ _ IH Hn Hd) as Hc. destruct IH as [Hcs (st & style & Hst & Hk & _)].
    split_and!; [split|constructor|done|].
    + done.
    + unfold vars. rewrite !elem_of_app. right. right. right. apply list_elem_of_bind. exists f.
      split; [|by eapply function_at_fns]. apply elem_of_map. exists idx. split; [done|]. apply elem_of_seq. lia.
    + eapply stmt_exps; [done|]. rewrite Hk. simpl. by eapply list_elem_of_lookup_2.
  - pose proof (call_good _ _ _ _ _ _ _ _ _ IH Hn Hd) as Hc. destruct IH as [Hcs (st & style & Hst & Hk & _)].
    split_and!; [|constructor|done|].
    + eapply abs_var_good; [exact Hcs|done|]. eapply stmt_dst; [done|]. rewrite Hk. simpl. by eapply list_elem_of_lookup_2.
    + unfold exps. rewrite elem_of_app. right. apply list_elem_of_bind. exists f. split; [|by eapply function_at_fns].
      apply list_elem_of_join. exists ret. split; [by eapply list_elem_of_lookup_2|done].
  - destruct (aps_good (seed_path sd)) as [Hb Hs].
    { unfold aps. rewrite !elem_of_app. right. right. apply elem_of_map. eauto. }
    split_and!; [by eapply abs_var_good| |done|].
    + destruct Hp as [-> | ->]; [done|]. apply concat_seg_in; [done|apply value_seg_in].
    + unfold labs. rewrite !elem_of_app. right. left. apply elem_of_map. eauto.
  - destruct IH as [Hcs (st & style & Hst & Hk & _)]. split_and!; [| |done|].
    + eapply abs_var_good; [exact Hcs|done|]. eapply stmt_dst; [done|]. rewrite Hk. simpl. set_solver.
    + destruct Hp as [-> | ->]; [constructor|apply value_seg_in].
    + unfold labs, source_label. rewrite !elem_of_app.
      destruct args as [|[|ap|ob|s|z|bs] args]; try (right; right; left; apply elem_of_map; exists n; split; [done|by apply elem_of_elements]).
      right. right. right. apply list_elem_of_omap. exists (Exp_Str s). split; [|done].
      eapply stmt_exps; [done|]. rewrite Hk. simpl. set_solver.
  - destruct IH as (Hv & Hd & _ & He). split_and!; [done..|]. unfold labs. rewrite !elem_of_app. left.
    apply list_elem_of_omap. eauto.
  - done.
  - destruct IH1 as (Hv & Hd & Hcs & He). destruct (flow_good _ _ _ _ _ Hd He Hfl) as (Hd' & _ & _).
    destruct IH2 as (_ & Hp & _ & Hl). split_and!; [done| |done|done]. by eapply (forward_seg_in _ d _ p).
  - destruct IH1 as (Hv & Hd & Hcs & He). destruct (flow_good _ _ _ _ _ Hd He Hfl) as (Hd' & Hb & Hs).
    destruct IH2 as (_ & Hq & _ & Hl). split_and!; [by eapply abs_var_good| |done|done].
    apply concat_seg_in; [done|]. by eapply (strip_seg_in _ q d).
  - unfold good, sites. rewrite elem_of_app. left. apply elem_of_map. eauto.
  - destruct IH as [Hcs (st & style & Hst & Hk & ->)]. unfold good, sites. rewrite elem_of_app. right.
    apply list_elem_of_bind. exists (bb, k, st). simpl. rewrite Hk. split; [|done]. apply elem_of_map.
    exists n. split; [done|by apply elem_of_elements].
  - split_and!; simpl; [|done|by destruct IH2 as (_ & _ & _ & ?)]. apply elem_of_map. exists f. eauto using function_at_fns.
Qed.

(** The judgements that the evaluator keeps a record of. *)
Definition recorded (j : Judgement) : Prop :=
  match j with J_live _ | J_hold _ _ _ _ | J_observed _ => True | _ => False end.

Lemma finite_judgements : exists js : list Judgement, forall j, der j -> recorded j -> j ∈ js.
Proof.
  destruct (bounded_lists (fun key => key ∈ keys) keys db (fun x H => H)) as [calls Hcalls].
  destruct (seg_in_finite segs) as [ss Hss]. destruct (bounded_lists _ ss pb Hss) as [paths Hpaths].
  pose (css := calls ≫= fun c => map (mk_cs c) body_ids).
  pose (avars := (map A_Instance css ++ map A_Global gnames) ≫= fun o => map (pair o) vars).
  pose (obs := map name fns ≫= fun n => sites ≫= fun site => omap (fun l => match l with
          | Taint t => Some {| o_function := n; o_site := site; o_label := t |} | _ => None end) labs).
  assert (forall cs, good_cs cs -> cs ∈ css) as Hcs.
  { intros [c r] (Hk & Hl & Hr). apply list_elem_of_bind. exists c. split; [|by apply Hcalls]. apply elem_of_map. eauto. }
  exists (map J_live css ++ (avars ≫= fun a => paths ≫= fun p => labs ≫= fun l => map (J_hold a p l) [Fixed; All]) ++ map J_observed obs).
  intros j Hj Hr. apply derives_good in Hj. rewrite !elem_of_app, !elem_of_map. destruct j as [cs| | |a p l s| |o]; try done.
  - left. exists cs. auto.
  - right. left. destruct Hj as ((Ho & Hv) & Hp & Hlen & Hl). apply list_elem_of_bind. exists a. split.
    + apply list_elem_of_bind. exists p. split; [|by apply Hpaths]. apply list_elem_of_bind. exists l. split; [|done].
      apply elem_of_map. exists s. split; [done|]. destruct s; set_solver.
    + apply list_elem_of_bind. exists a.1. destruct a as [o v]. cbn [fst snd] in *. split; [apply elem_of_map; eauto|].
      apply elem_of_app. destruct o; [left|right]; apply elem_of_map; eauto.
  - right. right. exists o. split; [done|]. destruct Hj as (Hn & Hs & Hl). apply list_elem_of_bind. exists (o_function o). split; [|done].
    apply list_elem_of_bind. exists (o_site o). split; [|done]. apply list_elem_of_omap. exists (Taint (o_label o)).
    split; [done|by destruct o].
Qed.
End finite.
