(* ===== verification/Saturation.v ===== *)
(** * Saturation: the evaluator computes the least labeling

    The proof that [Semantics.run] is total on programs whose global references are in range,
    and that what it returns is exactly what [Unfolding.derives] derives within the bounds.

    The evaluator's instance table is related to the unfolding by a list [css] that gives the
    call string of every instance.  [Inv] says that every instance is live and every label and
    observation is derivable; [ext] says how one operation changes the state: labels,
    observations and instances only grow, and [changed] records exactly whether they did.  An
    operation is specified by [op P f C]: from a state satisfying [Inv] and [P] it returns, it
    keeps [Inv], and [C] holds in every later state in which [changed] is still unset. *)

From S2P Require Import Prelude Index Text Path IR Semantics Unfolding.

#[local] Arguments concat : simpl never.

(** ** Scopes and labels *)

Lemma scope_leb_refl s : scope_leb s s = true.
Proof. by destruct s. Qed.

Lemma scope_leb_trans a b c : scope_leb a b = true -> scope_leb b c = true -> scope_leb a c = true.
Proof. by destruct a, b, c. Qed.

Lemma scope_leb_total a b : scope_leb a b = false -> scope_leb b a = true.
Proof. by destruct a, b. Qed.

Definition lab (ev : Eval) (v : CellVar) (p : path) (l : Label) : option Scope :=
  of_var ← cells ev !! v; cell ← of_var !! p; cell !! l.

Definition labelled (ev : Eval) (v : CellVar) (p : path) (l : Label) (s : Scope) : Prop :=
  exists s', lab ev v p l = Some s' /\ scope_leb s s' = true.

#[export] Instance labelled_dec ev v p l s : Decision (labelled ev v p l s).
Proof.
  destruct (lab ev v p l) as [s'|] eqn:E; [destruct (scope_leb s s') eqn:Es|].
  - left. exists s'. by rewrite E.
  - right. intros (s'' & ? & ?). congruence.
  - right. intros (s'' & ? & ?). congruence.
Defined.

Lemma lab_labelled ev v p l s : lab ev v p l = Some s -> labelled ev v p l s.
Proof. intros E. exists s. by rewrite scope_leb_refl. Qed.

(** [cell_merge] folds a list of labels into a cell by taking the greater scope. *)
Lemma cell_merge_spec labels : forall cell ch cell' ch',
  foldl cell_merge (cell, ch) labels = (cell', ch') ->
  (forall l s, cell !! l = Some s -> exists s', cell' !! l = Some s' /\ scope_leb s s' = true) /\
  (forall l s, (l, s) ∈ labels -> exists s', cell' !! l = Some s' /\ scope_leb s s' = true) /\
  (forall l s, cell' !! l = Some s -> cell !! l = Some s \/ (l, s) ∈ labels) /\
  (ch' = false -> ch = false /\ cell' = cell) /\
  (ch' = true -> ch = true \/ exists l s, cell' !! l = Some s /\
     forall s', cell !! l = Some s' -> scope_leb s s' = false).
Proof.
  induction labels as [|[l s] labels IH]; intros cell ch cell' ch'; simpl.
  { intros [= <- <-]. split_and!; [|set_solver|auto..].
    intros l s Hl. exists s. by rewrite scope_leb_refl. }
  assert (forall c, (forall s', cell !! l = Some s' -> scope_leb s s' = false) -> c = <[l := s]> cell ->
    foldl cell_merge (c, true) labels = (cell', ch') ->
    (forall k t, cell !! k = Some t -> exists t', cell' !! k = Some t' /\ scope_leb t t' = true) /\
    (forall k t, (k, t) ∈ (l, s) :: labels -> exists t', cell' !! k = Some t' /\ scope_leb t t' = true) /\
    (forall k t, cell' !! k = Some t -> cell !! k = Some t \/ (k, t) ∈ (l, s) :: labels) /\
    (ch' = false -> ch = false /\ cell' = cell) /\
    (ch' = true -> ch = true \/ exists k t, cell' !! k = Some t /\
       forall t', cell !! k = Some t' -> scope_leb t t' = false)) as Hgrow.
  { intros c Hnew -> E. destruct (IH _ _ _ _ E) as (H1 & H2 & H3 & H4 & _).
    destruct (H1 l s ltac:(by rewrite lookup_insert_eq)) as (sl & Hl & Hsl). split_and!.
    - intros k t Hk. destruct (decide (k = l)) as [->|Hkl].
      + exists sl. split; [done|]. eapply scope_leb_trans; [|exact Hsl]. by apply scope_leb_total, Hnew.
      + apply H1. by rewrite lookup_insert_ne.
    - intros k t [[= -> ->]|Hin]%elem_of_cons; [by exists sl|by apply H2].
    - intros k t [Hk|Hk]%H3; [|set_solver]. destruct (decide (k = l)) as [->|Hkl].
      + rewrite lookup_insert_eq in Hk. simplify_eq. set_solver.
      + rewrite lookup_insert_ne in Hk by done. by left.
    - intros ->. by destruct (H4 eq_refl).
    - intros _. right. exists l, sl. split; [done|]. intros s' Hs'. specialize (Hnew s' Hs').
      destruct (scope_leb sl s') eqn:E'; [|done]. by rewrite (scope_leb_trans _ _ _ Hsl E') in Hnew. }
  destruct (cell !! l) as [s0|] eqn:El; [destruct (scope_leb s s0) eqn:Es|].
  - intros E. destruct (IH _ _ _ _ E) as (H1 & H2 & H3 & H4 & H5). split_and!; [done| | |done|done].
    + intros k t [[= -> ->]|Hin]%elem_of_cons; [|by apply H2]. destruct (H1 l s0 El) as (s1 & ? & ?).
      exists s1. split; [done|]. by eapply scope_leb_trans.
    + intros k t [?|?]%H3; [by left|set_solver].
  - apply Hgrow; [|done]. intros s' [= <-]. done.
  - apply Hgrow; [|done]. done.
Qed.

(** ** The invariant *)

Section saturation.
Variable programs : list Program.
Variable ports : Ports.
Variable config : Config.

Definition within_path (n : nat) : Prop := n <= path_bound config.
Definition within_depth (n : nat) : Prop := n <= depth config.
Notation der := (derives programs ports within_path within_depth).

(** The variable of the unfolding that a variable of the evaluator is. *)
Definition abs (css : list CallString) (v : CellVar) : option AVar :=
  match v.1 with
  | Owner_Instance i => cs ← css !! i; Some (A_Instance cs, v.2)
  | Owner_Global n => Some (A_Global n, v.2)
  end.

Record Inv (ev : Eval) (css : list CallString) : Prop := {
  inv_len : length css = length (instances ev);
  inv_nodup : NoDup css;
  inv_inst : forall i I, instances ev !! i = Some I ->
    exists cs, css !! i = Some cs /\ (i_program I, i_function I) = cs_function cs /\ i_depth I = cs_depth cs /\
      forall key c, children I !! key = Some c -> css !! c = Some (cs_call cs key);
  inv_parent : forall cs key, cs_call cs key ∈ css ->
    exists i I c, css !! i = Some cs /\ instances ev !! i = Some I /\ children I !! key = Some c;
  inv_live : forall cs, cs ∈ css -> der (J_live cs);
  inv_roots : forall p i f, (p, i, f) ∈ bodies programs -> mk_cs [] (p, i) ∈ css;
  inv_lab : forall v p l s, lab ev v p l = Some s -> exists a, abs css v = Some a /\ der (J_hold a p l s);
  inv_obs : forall o, o ∈ observed (out ev) -> der (J_observed o);
}.

(** Something of [ev'] that [ev] does not have. *)
Definition fresh_in (ev ev' : Eval) : Prop :=
  (exists v p l s, labelled ev' v p l s /\ ~ labelled ev v p l s) \/
  length (instances ev) < length (instances ev') \/
  (exists o, o ∈ observed (out ev') /\ o ∉ observed (out ev)).

Record ext (ev ev' : Eval) : Prop := {
  x_lab : forall v p l s, labelled ev v p l s -> labelled ev' v p l s;
  x_len : length (instances ev) <= length (instances ev');
  x_obs : observed (out ev) ⊆ observed (out ev');
  x_trunc : truncated (out ev) = true -> truncated (out ev') = true;
  x_stable : changed ev' = false -> changed ev = false /\
    (forall v p l, lab ev' v p l = lab ev v p l) /\ length (instances ev') = length (instances ev);
  x_progress : changed ev' = true -> changed ev = true \/ fresh_in ev ev';
}.

Lemma ext_refl ev : ext ev ev.
Proof. split; auto. Qed.

Lemma ext_trans a b c : ext a b -> ext b c -> ext a c.
Proof.
  intros [l1 n1 o1 t1 s1 p1] [l2 n2 o2 t2 s2 p2]. split; [eauto|lia|set_solver|auto| |].
  - intros Hc. destruct (s2 Hc) as (Hb & Hl2 & Hn2). destruct (s1 Hb) as (Ha & Hl1 & Hn1).
    split_and!; [done| |lia]. intros. by rewrite Hl2, Hl1.
  - intros Hc. assert (fresh_in a b -> fresh_in a c) as Hl.
    { intros [(v & p & l & s & ? & ?)|[?|(o & ? & ?)]]; [left; exists v, p, l, s; eauto|right; left; lia|right; right; exists o; set_solver]. }
    destruct (p2 Hc) as [Hb|Hf]; [destruct (p1 Hb); auto|]. right.
    destruct Hf as [(v & p & l & s & ? & Hn)|[?|(o & ? & Hn)]].
    + left. exists v, p, l, s. eauto.
    + right; left; lia.
    + right; right. exists o. set_solver.
Qed.

(** A later state in which nothing has changed. *)
Record final (ev : Eval) (css : list CallString) (evf : Eval) (cssf : list CallString) : Prop := {
  f_inv : Inv evf cssf;
  f_css : css `prefix_of` cssf;
  f_ext : ext ev evf;
  f_changed : changed evf = false;
}.

Definition op (P : list CallString -> Prop) (f : Eval -> outcome Eval) (C : Eval -> list CallString -> Prop) : Prop :=
  forall ev css, Inv ev css -> P css -> exists ev' css',
    f ev = Ret ev' /\ Inv ev' css' /\ css `prefix_of` css' /\ ext ev ev' /\
    forall evf cssf, final ev' css' evf cssf -> C evf cssf.

Definition persist (P : list CallString -> Prop) : Prop :=
  forall css css', P css -> css `prefix_of` css' -> P css'.

Lemma final_trans ev css ev' css' evf cssf :
  css `prefix_of` css' -> ext ev ev' -> final ev' css' evf cssf -> final ev css evf cssf.
Proof. intros Hp Hx [? ? ? ?]. split; [done|by etrans|by eapply ext_trans|done]. Qed.

Lemma final_css ev css evf cssf : Inv ev css -> final ev css evf cssf -> cssf = css.
Proof.
  intros Hi [Hf [k ->] Hx Hc]. destruct (x_stable _ _ Hx Hc) as (_ & _ & Hn).
  pose proof (inv_len _ _ Hf) as Hl. rewrite length_app, Hn, <- (inv_len _ _ Hi) in Hl.
  destruct k; [by rewrite app_nil_r|simpl in Hl; lia].
Qed.

Lemma final_lab ev css evf cssf v p l : final ev css evf cssf -> lab evf v p l = lab ev v p l.
Proof. intros [_ _ Hx Hc]. by destruct (x_stable _ _ Hx Hc) as (_ & Hl & _). Qed.

(** ** Combining operations *)

Lemma op_weaken (P P' : list CallString -> Prop) f (C C' : Eval -> list CallString -> Prop) :
  op P f C -> (forall css, P' css -> P css) -> (forall ev css, C ev css -> C' ev css) -> op P' f C'.
Proof.
  intros Ho HP HC ev css Hi Hp. destruct (Ho ev css Hi (HP _ Hp)) as (ev' & css' & ? & ? & ? & ? & ?).
  exists ev', css'. split_and!; auto.
Qed.

Lemma op_ret P : op P (fun ev => Ret ev) (fun _ _ => True).
Proof. intros ev css Hi _. exists ev, css. split_and!; auto using ext_refl. Qed.

Lemma op_seq P f g C1 C2 : persist P -> op P f C1 -> op P g C2 ->
  op P (fun ev => ev ← f ev; g ev) (fun ev css => C1 ev css /\ C2 ev css).
Proof.
  intros HP Hf Hg ev css Hi Hp. destruct (Hf ev css Hi Hp) as (ev1 & css1 & E1 & Hi1 & Hp1 & Hx1 & H1).
  destruct (Hg ev1 css1 Hi1 (HP _ _ Hp Hp1)) as (ev2 & css2 & E2 & Hi2 & Hp2 & Hx2 & H2).
  exists ev2, css2. rewrite E1. split_and!; [done|done|by etrans|by eapply ext_trans|].
  intros evf cssf Hfin. split; [|by apply H2]. apply H1. by eapply final_trans.
Qed.

Lemma op_foldM {A} P (f : Eval -> A -> outcome Eval) (C : A -> Eval -> list CallString -> Prop) (l : list A) :
  persist P -> (forall x, x ∈ l -> op P (fun ev => f ev x) (C x)) ->
  op P (fun ev => foldM f ev l) (fun ev css => forall x, x ∈ l -> C x ev css).
Proof.
  intros HP. induction l as [|x l IH]; intros Hf.
  - eapply op_weaken; [apply op_ret|done|]. set_solver.
  - eapply op_weaken; [eapply op_seq; [done|apply Hf; set_solver|apply IH; set_solver]|done|].
    intros ev css [Hx Hl] y [->|Hy]%elem_of_cons; auto.
Qed.

Lemma op_foldl {A} P (f : Eval -> A -> Eval) (C : A -> Eval -> list CallString -> Prop) (l : list A) :
  persist P -> (forall x, x ∈ l -> op P (fun ev => Ret (f ev x)) (C x)) ->
  op P (fun ev => Ret (foldl f ev l)) (fun ev css => forall x, x ∈ l -> C x ev css).
Proof.
  intros HP. induction l as [|x l IH]; intros Hf.
  - eapply op_weaken; [apply op_ret|done|]. set_solver.
  - eapply op_weaken; [apply (op_seq P (fun ev => Ret (f ev x)) (fun ev => Ret (foldl f ev l))); [done|apply Hf; set_solver|apply IH; set_solver]|done|].
    intros ev css [Hx Hl] y [->|Hy]%elem_of_cons; auto.
Qed.

(** ** Variables of the unfolding *)

Lemma abs_mono css css' v a : abs css v = Some a -> css `prefix_of` css' -> abs css' v = Some a.
Proof.
  unfold abs. destruct v as [[i|n] x]; simpl; [|done]. intros E Hp.
  destruct (css !! i) as [cs|] eqn:Ei; [|done]. by rewrite (prefix_lookup_Some _ _ _ _ Ei Hp).
Qed.

Lemma abs_inj css v v' a : NoDup css -> abs css v = Some a -> abs css v' = Some a -> v = v'.
Proof.
  unfold abs. destruct v as [[i|n] x], v' as [[j|m] y]; simpl; intros Hnd E1 E2;
    try (destruct (css !! i) as [cs|] eqn:Ei); try (destruct (css !! j) as [cs'|] eqn:Ej); simplify_eq/=; try done.
  f_equal. f_equal. by eapply NoDup_lookup.
Qed.

Definition held (ev : Eval) (css : list CallString) (a : AVar) (p : path) (l : Label) (s : Scope) : Prop :=
  exists v, abs css v = Some a /\ labelled ev v p l s.

(** The label is there, unless the path is not a location or the bound dropped it. *)
Definition settled (ev : Eval) (css : list CallString) (a : AVar) (p : path) (l : Label) (s : Scope) : Prop :=
  classify p = Location ->
  held ev css a p l s \/ (truncated (out ev) = true /\ path_bound config < length p).

Lemma settled_final ev css evf cssf a p l s :
  settled ev css a p l s -> css `prefix_of` cssf -> ext ev evf -> settled evf cssf a p l s.
Proof.
  intros Hs Hp Hx Hc. destruct (Hs Hc) as [(v & Hv & Hl)|[? ?]].
  - left. exists v. split; [by eapply abs_mono|by apply (x_lab _ _ Hx)].
  - right. split; [by apply (x_trunc _ _ Hx)|done].
Qed.

(** What [held] says in a final state was so before. *)
Lemma held_final ev css evf cssf v a p l s :
  Inv ev css -> final ev css evf cssf -> abs css v = Some a -> held evf cssf a p l s -> labelled ev v p l s.
Proof.
  intros Hi Hf Ha (v' & Ha' & s' & Hl & Hs). pose proof (final_css _ _ _ _ Hi Hf) as ->.
  pose proof (abs_inj _ _ _ _ (inv_nodup _ _ Hi) Ha Ha') as <-.
  exists s'. by rewrite <- (final_lab _ _ _ _ v p l Hf).
Qed.

Lemma derives_weaken a p l s s' : der (J_hold a p l s) -> scope_leb s' s = true -> der (J_hold a p l s').
Proof. destruct s, s'; try done. intros. by apply d_weaken. Qed.

Lemma inv_labelled ev css v a p l s : Inv ev css -> abs css v = Some a -> labelled ev v p l s -> der (J_hold a p l s).
Proof.
  intros Hi Ha (s' & Hl & Hs). destruct (inv_lab _ _ Hi _ _ _ _ Hl) as (a' & Ha' & Hd). simplify_eq.
  by eapply derives_weaken.
Qed.

(** ** Adding labels *)

Lemma lab_insert ev v p cell v' p' l' x y z :
  lab (mk_eval x (<[v := <[p := cell]> (default ∅ (cells ev !! v))]> (cells ev)) y z) v' p' l' =
  if decide (v' = v /\ p' = p) then cell !! l' else lab ev v' p' l'.
Proof.
  unfold lab. simpl. destruct (decide (v = v')) as [<-|Hv].
  - rewrite lookup_insert_eq. cbn [mbind option_bind]. destruct (decide (p = p')) as [<-|Hp].
    + rewrite lookup_insert_eq, decide_True by done. done.
    + rewrite lookup_insert_ne by done. rewrite decide_False by naive_solver. by destruct (cells ev !! v).
  - rewrite lookup_insert_ne by done. by rewrite decide_False by naive_solver.
Qed.

Lemma default_lab ev v p l : (default ∅ (default ∅ (cells ev !! v) !! p) : Labels) !! l = lab ev v p l.
Proof. unfold lab. destruct (cells ev !! v) as [m|]; simpl; [|done]. by destruct (m !! p). Qed.

(** A change that leaves labels, instances and observations alone. *)
Lemma same_ext ev ev' : instances ev' = instances ev -> cells ev' = cells ev -> observed (out ev') = observed (out ev) ->
  changed ev' = changed ev -> (truncated (out ev) = true -> truncated (out ev') = true) -> ext ev ev'.
Proof.
  intros Ei Ec Eo Eh Ht. assert (forall v p l, lab ev' v p l = lab ev v p l) as El by (intros; unfold lab; by rewrite Ec).
  split; [|by rewrite Ei|by rewrite Eo|done| |].
  - intros v p l s (s' & ? & ?). exists s'. by rewrite El.
  - rewrite Eh, Ei. auto.
  - rewrite Eh. auto.
Qed.

Lemma same_inv ev ev' css : instances ev' = instances ev -> cells ev' = cells ev -> observed (out ev') = observed (out ev) ->
  Inv ev css -> Inv ev' css.
Proof.
  intros Ei Ec Eo [? ? ? ? ? ? Hlab ?]. split; rewrite ?Ei, ?Eo; try done.
  intros v p l s Hl. apply Hlab. unfold lab in *. by rewrite <- Ec.
Qed.

Lemma op_add P v p labels a : persist P -> (forall css, P css -> abs css v = Some a) ->
  (forall l s, (l, s) ∈ labels -> location within_path p -> der (J_hold a p l s)) ->
  op P (fun ev => Ret (eval_add config ev v p labels))
    (fun ev css => forall l s, (l, s) ∈ labels -> settled ev css a p l s).
Proof.
  intros HP Ha Hd ev css Hi Hp. unfold eval_add. case_decide as Hc.
  { exists ev, css. split_and!; [done..|apply ext_refl|]. intros ? ? _ l s _ ?. done. }
  case_decide as Hlen.
  { exists (set_truncated ev), css. split_and!; [done|by apply (same_inv ev)|done|by apply same_ext|].
    intros evf cssf Hf l s _ _. right. split; [|done]. by apply (x_trunc _ _ (f_ext _ _ _ _ Hf)). }
  destruct (foldl cell_merge _ labels) as [cell' ch'] eqn:E.
  apply cell_merge_spec in E as (Hold & Hnew & Hback & Hst & Hpr).
  eexists _, css. split; [reflexivity|]. unfold set_changed, set_cells. simpl.
  assert (forall l s, (l, s) ∈ labels -> der (J_hold a p l s)) as Hder.
  { intros l s Hl. apply Hd; [done|]. split; [done|]. unfold within_path. lia. }
  set (ev' := mk_eval _ _ _ _).
  assert (forall v' p' l', lab ev' v' p' l' = if decide (v' = v /\ p' = p) then cell' !! l' else lab ev v' p' l') as Hlab
    by (intros; apply lab_insert).
  assert (ext ev ev') as Hx.
  { split; [|done|done|done| |].
    - intros v' p' l' s (s' & Hs' & Hle). destruct (decide (v' = v /\ p' = p)) as [[-> ->]|Hn].
      + rewrite <- default_lab in Hs'. destruct (Hold _ _ Hs') as (s2 & ? & ?). exists s2.
        rewrite Hlab, decide_True by done. split; [done|]. by eapply scope_leb_trans.
      + exists s'. by rewrite Hlab, decide_False.
    - simpl. intros H0. destruct (Hst H0) as [? ->]. split_and!; [done| |done]. intros v' p' l'. rewrite Hlab.
      case_decide as Hvp; [|done]. destruct Hvp as [-> ->]. apply default_lab.
    - simpl. intros H0. destruct (Hpr H0) as [|(l & s & Hl & Hn)]; [by left|]. right. left. exists v, p, l, s. split.
      + exists s. rewrite Hlab, decide_True by done. by rewrite scope_leb_refl.
      + intros (s' & Hs' & Hle). rewrite <- default_lab in Hs'. apply Hn in Hs'. congruence. }
  split_and!; [|done|done|].
  - destruct Hi as [? ? ? ? ? ? Hl ?]. split; try done. intros v' p' l s. rewrite Hlab.
    case_decide as Hvp; [|apply Hl]. destruct Hvp as [-> ->]. intros [Hc'|Hin]%Hback.
    + rewrite default_lab in Hc'. by apply Hl.
    + exists a. split; [by apply Ha|by apply Hder].
  - intros evf cssf Hf l s Hin. apply (settled_final ev' css); [|apply Hf..]. intros _. left. exists v. split; [by apply Ha|].
    destruct (Hnew l s Hin) as (s' & ? & ?). exists s'. by rewrite Hlab, decide_True.
Qed.

(** ** Assignments *)

Definition flow_sound (a : AVar) (d : path) (a' : AVar) (s : path) (store : bool) : Prop :=
  classify d <> Void -> classify s <> Void ->
  (forall p l sc t, der (J_hold a' p l sc) -> t ∈ forward_targets d s p -> location within_path t ->
     der (J_hold a t l (scope_of store))) /\
  (forall q l t, der (J_hold a q l All) -> strip_prefix q d = Some t -> t <> [] -> t <> [Value] ->
     location within_path (concat s t) -> der (J_hold a' (concat s t) l All)).

Definition flow_closed (ev : Eval) (css : list CallString) (a : AVar) (d : path) (a' : AVar) (s : path) (store : bool) : Prop :=
  classify d <> Void -> classify s <> Void ->
  (forall p l sc t, held ev css a' p l sc -> t ∈ forward_targets d s p -> settled ev css a t l (scope_of store)) /\
  (forall q l t, held ev css a q l All -> strip_prefix q d = Some t -> t <> [] -> t <> [Value] ->
     settled ev css a' (concat s t) l All).

(** A label of a variable, as an entry of the list of its cells. *)
Lemma labelled_cell ev v p l s : labelled ev v p l s ->
  exists (labels : Labels) s', (p, labels) ∈ map_to_list (default ∅ (cells ev !! v)) /\ (l, s') ∈ map_to_list labels /\ scope_leb s s' = true.
Proof.
  intros (s' & Hl & Hs). unfold lab in Hl. destruct (cells ev !! v) as [m|] eqn:Ev; [|done]. simpl in Hl.
  destruct (m !! p) as [labels|] eqn:Ep; [|done]. simpl in Hl. exists labels, s'.
  split_and!; [by apply elem_of_map_to_list|by apply elem_of_map_to_list|done].
Qed.

Lemma cell_labelled ev v p (labels : Labels) l s : (p, labels) ∈ map_to_list (default ∅ (cells ev !! v)) -> (l, s) ∈ map_to_list labels ->
  labelled ev v p l s.
Proof.
  rewrite !elem_of_map_to_list. intros Hp Hl. exists s. rewrite scope_leb_refl. unfold lab.
  destruct (cells ev !! v); simpl in *; [|by rewrite lookup_empty in Hp]. by rewrite Hp.
Qed.

Section assign.
Variable P : list CallString -> Prop.
Variables dst src : CellVar.
Variables a a' : AVar.
Variables d s : path.
Variable store : bool.
Hypothesis HP : persist P.
Hypothesis Hdst : forall css, P css -> abs css dst = Some a.
Hypothesis Hsrc : forall css, P css -> abs css src = Some a'.
Hypothesis Hflow : flow_sound a d a' s store.
Hypothesis Hd : classify d <> Void.
Hypothesis Hs : classify s <> Void.

Lemma op_forward : op P
  (fun ev => Ret (foldl (fun ev '(p, labels) =>
        foldl (fun ev target => eval_add config ev dst target (map (fun '(l, _) => (l, scope_of store)) (map_to_list labels)))
          ev (forward_targets d s p))
      ev (map_to_list (default ∅ (cells ev !! src)))))
  (fun ev css => forall p l sc t, held ev css a' p l sc -> t ∈ forward_targets d s p -> settled ev css a t l (scope_of store)).
Proof.
  intros ev css Hi Hp.
  destruct (op_foldl P (fun ev '(p, labels) =>
        foldl (fun ev target => eval_add config ev dst target (map (fun '(l, _) => (l, scope_of store)) (map_to_list labels)))
          ev (forward_targets d s p))
    (fun x ev css => forall t, t ∈ forward_targets d s x.1 -> forall l sc, (l, sc) ∈ map (fun '(l, _) => (l, scope_of store)) (map_to_list x.2) ->
       settled ev css a t l sc)
    (map_to_list (default ∅ (cells ev !! src))) HP) with (ev := ev) (css := css) as (ev' & css' & E & Hi' & Hp' & Hx & Hc); [|done|done|].
  { intros [p labels] Hin. apply op_foldl; [done|]. intros t Ht. apply op_add; [done|done|].
    intros l sc ([l' sc'] & [= -> ->] & Hl)%elem_of_map Hloc. simpl in Ht.
    destruct (Hflow Hd Hs) as [Hfwd _]. eapply Hfwd; [|exact Ht|done].
    apply (inv_labelled ev css src); [done|by apply Hsrc|]. by eapply cell_labelled. }
  exists ev', css'. split_and!; [done..|]. intros evf cssf Hf p l sc t Hheld Ht.
  pose proof (final_trans _ _ _ _ _ _ Hp' Hx Hf) as Hf0.
  destruct (labelled_cell ev src p l sc) as (labels & s' & Hin & Hl & _); [by eapply held_final; [..|exact Hheld]; eauto|].
  apply (Hc evf cssf Hf _ Hin t Ht l). apply elem_of_map. by exists (l, s').
Qed.

Lemma op_backward : op P
  (fun ev => Ret (foldl (fun ev '(q, l) =>
        let labels := filter (fun ls : Label * Scope => ls.2 = All) (map_to_list l) in
        if decide (labels = []) then ev else
        match strip_prefix q d with
        | None => ev
        | Some t =>
            if decide (t = [] \/ t = [Value]) then ev
            else eval_add config ev src (concat s t) (map (fun '(l, _) => (l, All)) labels)
        end)
      ev (map_to_list (default ∅ (cells ev !! dst)))))
  (fun ev css => forall q l t, held ev css a q l All -> strip_prefix q d = Some t -> t <> [] -> t <> [Value] ->
     settled ev css a' (concat s t) l All).
Proof.
  intros ev css Hi Hp.
  destruct (op_foldl P (fun ev '(q, l) =>
        let labels := filter (fun ls : Label * Scope => ls.2 = All) (map_to_list l) in
        if decide (labels = []) then ev else
        match strip_prefix q d with
        | None => ev
        | Some t =>
            if decide (t = [] \/ t = [Value]) then ev
            else eval_add config ev src (concat s t) (map (fun '(l, _) => (l, All)) labels)
        end)
    (fun x ev css => forall l t, (l, All) ∈ map_to_list x.2 -> strip_prefix x.1 d = Some t -> t <> [] -> t <> [Value] ->
       settled ev css a' (concat s t) l All)
    (map_to_list (default ∅ (cells ev !! dst))) HP) with (ev := ev) (css := css) as (ev' & css' & E & Hi' & Hp' & Hx & Hc); [|done|done|].
  { intros [q labels] Hin. cbv beta iota zeta. destruct (decide (filter _ (map_to_list labels) = [])) as [Hnil|_].
    { eapply op_weaken; [apply op_ret|done|]. intros ev1 css1 _ l t Hl _ _ _. exfalso. simpl in Hl.
      assert ((l, All) ∈ filter (fun ls : Label * Scope => ls.2 = All) (map_to_list labels)) as Hf by (by apply list_elem_of_filter).
      rewrite Hnil in Hf. by apply elem_of_nil in Hf. }
    simpl. destruct (strip_prefix q d) as [t|] eqn:Et; [|eapply op_weaken; [apply op_ret|done|]; naive_solver].
    destruct (decide (t = [] \/ t = [Value])) as [Ht|Ht]; [eapply op_weaken; [apply op_ret|done|]; naive_solver|].
    eapply op_weaken; [apply (op_add P src (concat s t) _ a' HP Hsrc)|done|].
    - intros l sc ([l' sc'] & [= -> ->] & [Hsc Hl]%list_elem_of_filter)%elem_of_map Hloc. simpl in Hsc. subst.
      destruct (Hflow Hd Hs) as [_ Hbwd]. eapply Hbwd; [|exact Et|naive_solver..].
      apply (inv_labelled ev css dst); [done|by apply Hdst|]. by eapply cell_labelled.
    - intros ev1 css1 Hset l t' Hl [= <-] _ _. apply Hset. apply elem_of_map. exists (l, All). split; [done|].
      by apply list_elem_of_filter. }
  exists ev', css'. split_and!; [done..|]. intros evf cssf Hf q l t Hheld Ht Hn1 Hn2.
  pose proof (final_trans _ _ _ _ _ _ Hp' Hx Hf) as Hf0.
  destruct (labelled_cell ev dst q l All) as (labels & s' & Hin & Hl & Hle); [by eapply held_final; [..|exact Hheld]; eauto|].
  destruct s'; [done|]. by apply (Hc evf cssf Hf _ Hin l t).
Qed.
End assign.

Lemma op_assign P dst src a a' d s store : persist P ->
  (forall css, P css -> abs css dst = Some a) -> (forall css, P css -> abs css src = Some a') ->
  flow_sound a d a' s store ->
  op P (fun ev => Ret (eval_assign config ev dst d src s store)) (fun ev css => flow_closed ev css a d a' s store).
Proof.
  intros HP Hdst Hsrc Hflow. unfold eval_assign.
  destruct (decide (classify d = Void \/ classify s = Void)) as [Hv|Hv].
  { eapply op_weaken; [apply op_ret|done|]. intros ev css _ ? ?. naive_solver. }
  assert (classify d <> Void) as Hd by naive_solver. assert (classify s <> Void) as Hs by naive_solver.
  eapply op_weaken; [exact (op_seq P _ _ _ _ HP (op_forward P dst src a a' d s store HP Hdst Hsrc Hflow Hd Hs)
                             (op_backward P dst src a a' d s store HP Hdst Hsrc Hflow Hd Hs))|done|].
  intros ev css [? ?] ? ?. done.
Qed.

(** ** Reading the tables *)

Lemma inv_lookup ev css inst cs : Inv ev css -> css !! inst = Some cs ->
  exists I, instances ev !! inst = Some I /\ (i_program I, i_function I) = cs_function cs /\ i_depth I = cs_depth cs /\
    forall key c, children I !! key = Some c -> css !! c = Some (cs_call cs key).
Proof.
  intros Hi Hcs. destruct (lookup_lt_is_Some_2 (instances ev) inst) as [I HI].
  { rewrite <- (inv_len _ _ Hi). by eapply lookup_lt_Some. }
  destruct (inv_inst _ _ Hi _ _ HI) as (cs' & Hcs' & ? & ? & ?). simplify_eq. eauto.
Qed.

Lemma program_function_spec cs f :
  function_at programs cs = Some f -> program_function programs (cs_function cs).1 (cs_function cs).2 = Ret f.
Proof.
  unfold function_at, program_function, iv_index. destruct (programs !! _) as [pr|]; [|done]. simpl. by intros ->.
Qed.

Lemma function_of_spec ev css inst cs f : Inv ev css -> css !! inst = Some cs -> function_at programs cs = Some f ->
  function_of programs ev inst = Ret f.
Proof.
  intros Hi Hcs Hf. destruct (inv_lookup _ _ _ _ Hi Hcs) as (I & HI & HIf & _). unfold function_of, iv_index at 1.
  rewrite HI. simpl. apply program_function_spec in Hf. by rewrite <- HIf in Hf.
Qed.

Lemma eval_var_spec ev css inst cs v a : Inv ev css -> css !! inst = Some cs -> abs_var programs cs v = Some a ->
  exists cv, eval_var programs ev inst v = Ret cv /\ abs css cv = Some a.
Proof.
  intros Hi Hcs Ha. unfold eval_var, abs_var in *. destruct (variable v) as [idx|idx|idx] eqn:Ev.
  - destruct (inv_lookup _ _ _ _ Hi Hcs) as (I & HI & HIf & _). unfold iv_index. rewrite HI. simpl.
    rewrite <- HIf in Ha. simpl in Ha. destruct (programs !! i_program I) as [pr|]; [|done]. simpl in *.
    unfold global_name. destruct (gdecls (globals pr) !! idx) as [g|]; [|done]. simpl in *. simplify_eq. eauto.
  - simplify_eq. eexists. split; [done|]. unfold abs. simpl. by rewrite Hcs.
  - simplify_eq. eexists. split; [done|]. unfold abs. simpl. by rewrite Hcs.
Qed.

Lemma persist_and P Q : persist P -> persist Q -> persist (fun css => P css /\ Q css).
Proof. intros HP HQ css css' [? ?] ?. split; eauto. Qed.

Lemma persist_abs v a : persist (fun css => abs css v = Some a).
Proof. intros css css'. apply abs_mono. Qed.

Lemma persist_lookup inst cs : persist (fun css => css !! inst = Some cs).
Proof. intros css css' ? ?. by eapply prefix_lookup_Some. Qed.

Hint Resolve persist_and persist_abs persist_lookup : core.

Lemma op_with_var P inst cs v a (f : CellVar -> Eval -> outcome Eval) C :
  (forall css, P css -> css !! inst = Some cs) -> abs_var programs cs v = Some a ->
  (forall cv, op (fun css => P css /\ abs css cv = Some a) (f cv) C) ->
  op P (fun ev => cv ← eval_var programs ev inst v; f cv ev) C.
Proof.
  intros Hcs Ha Hf ev css Hi Hp. destruct (eval_var_spec ev css inst cs v a Hi (Hcs _ Hp) Ha) as (cv & E & Hcv).
  destruct (Hf cv ev css Hi (conj Hp Hcv)) as (ev' & css' & E' & ?). exists ev', css'. rewrite E. simpl. by rewrite E'.
Qed.

Lemma op_with_function P inst cs f (g : FunctionData -> Eval -> outcome Eval) C :
  (forall css, P css -> css !! inst = Some cs) -> function_at programs cs = Some f ->
  op P (g f) C -> op P (fun ev => f ← function_of programs ev inst; g f ev) C.
Proof.
  intros Hcs Ha Hf ev css Hi Hp. destruct (Hf ev css Hi Hp) as (ev' & css' & E' & ?). exists ev', css'.
  rewrite (function_of_spec ev css inst cs f Hi (Hcs _ Hp) Ha). simpl. by rewrite E'.
Qed.

(** ** Operands *)

Definition var_ok (cs : CallString) (v : VariableRef) : Prop := is_Some (abs_var programs cs v).
Definition exp_ok (cs : CallString) (e : Exp) : Prop := forall ap, access_path e = Some ap -> var_ok cs (base ap).

Definition assign_closed (ev : Eval) (css : list CallString) (a : AVar) (d : path) (cs : CallString) (e : Exp) : Prop :=
  (forall d' ap store a', exp_flow d e = Some (d', ap, store) -> abs_var programs cs (base ap) = Some a' ->
     flow_closed ev css a d' a' (segments ap) store) /\
  (forall l, exp_label e = Some l -> settled ev css a d l (scope_of (negb (bool_decide (d = []))))).

Lemma assign_flow_sound a d cs e d' ap store a' :
  der (J_assign a d cs e) -> exp_flow d e = Some (d', ap, store) -> abs_var programs cs (base ap) = Some a' ->
  flow_sound a d' a' (segments ap) store.
Proof. intros Hj He Ha Hd Hs. split; intros; [by eapply d_forward|by eapply d_backward]. Qed.

Lemma op_const P dst d a e l : persist P -> (forall css, P css -> abs css dst = Some a) -> forall cs,
  der (J_assign a d cs e) -> exp_label e = Some l -> exp_flow d e = None ->
  op P (fun ev => Ret (eval_add config ev dst d [(l, scope_of (negb (bool_decide (d = []))))]))
    (fun ev css => assign_closed ev css a d cs e).
Proof.
  intros HP Hdst cs Hj Hl Hn. eapply op_weaken; [apply (op_add P dst d _ a HP Hdst)|done|].
  - intros l' s [= -> ->]%list_elem_of_singleton Hloc. by eapply d_constant.
  - intros ev css Hset. split; [congruence|]. intros l' Hl'. simplify_eq. apply Hset. set_solver.
Qed.

Lemma op_assign_exp P dst d src_inst cs e a : persist P ->
  (forall css, P css -> abs css dst = Some a) -> (forall css, P css -> css !! src_inst = Some cs) ->
  der (J_assign a d cs e) -> exp_ok cs e ->
  op P (fun ev => assign_exp programs config ev dst d src_inst e) (fun ev css => assign_closed ev css a d cs e).
Proof.
  intros HP Hdst Hcs Hj Hok. unfold assign_exp.
  assert (forall d' ap store, exp_flow d e = Some (d', ap, store) -> access_path e = Some ap ->
    op P (fun ev => v ← eval_var programs ev src_inst (base ap); Ret (eval_assign config ev dst d' v (segments ap) store))
      (fun ev css => assign_closed ev css a d cs e)) as Hflow.
  { intros d' ap store He Hap. destruct (Hok ap Hap) as [a' Ha'].
    eapply (op_with_var P); [done|exact Ha'|]. intros cv. eapply op_weaken; [apply (op_assign (fun css => P css /\ abs css cv = Some a') dst cv a a')|done|].
    - by auto.
    - naive_solver.
    - naive_solver.
    - by eapply assign_flow_sound.
    - intros ev css Hc. split; [intros; simplify_eq; done|]. intros l Hl. by destruct e. }
  destruct e as [ap|ap|obj|s|z|bs].
  - by apply Hflow.
  - by apply Hflow.
  - destruct obj; by apply op_const.
  - by apply op_const.
  - eapply op_weaken; [apply op_ret|done|]. intros ev css _. split; done.
  - eapply op_weaken; [apply op_ret|done|]. intros ev css _. split; done.
Qed.

(** ** Observations, sources and seeds *)

Lemma eval_read_lab ev v p l : eval_read ev v p !! l = lab ev v (location_of p) l.
Proof. unfold eval_read, lab. destruct (cells ev !! v) as [m|]; simpl; [|done]. by destruct (m !! location_of p). Qed.

Lemma elem_of_taints t (m : Labels) : t ∈ taints m <-> exists s, m !! Taint t = Some s.
Proof.
  unfold taints. rewrite list_elem_of_omap. split.
  - intros ([l s] & Hin%elem_of_map_to_list & Hl). destruct l; simplify_eq. eauto.
  - intros [s Hs]. exists (Taint t, s). split; [by apply elem_of_map_to_list|done].
Qed.

Lemma op_add_observed P o : der (J_observed o) ->
  op P (fun ev => Ret (add_observed ev o)) (fun ev _ => o ∈ observed (out ev)).
Proof.
  intros Ho ev css Hi _. unfold add_observed. case_decide as Hin.
  - exists ev, css. split_and!; [done..|apply ext_refl|]. intros evf cssf Hf. by apply (x_obs _ _ (f_ext _ _ _ _ Hf)).
  - eexists _, css. split; [reflexivity|]. split_and!.
    + destruct Hi as [? ? ? ? ? ? ? Hobs]. split; try done. simpl. intros o' [->%elem_of_singleton|?]%elem_of_union; auto.
    + done.
    + split; simpl; [done|done|set_solver|done|done|]. intros _. right. right. right. exists o. simpl. set_solver.
    + intros evf cssf Hf. apply (x_obs _ _ (f_ext _ _ _ _ Hf)). simpl. set_solver.
Qed.

Definition observe_closed (ev : Eval) (css : list CallString) (cs : CallString) (ap : AccessPath) (site : string) : Prop :=
  forall f a p t s, function_at programs cs = Some f -> abs_var programs cs (base ap) = Some a ->
    p = segments ap \/ p = concat (segments ap) [Value] -> held ev css a (location_of p) (Taint t) s ->
    {| o_function := name f; o_site := site; o_label := t |} ∈ observed (out ev).

Lemma op_observe P inst cs f ap site : persist P -> (forall css, P css -> css !! inst = Some cs) ->
  function_at programs cs = Some f -> var_ok cs (base ap) -> der (J_observe cs ap site) ->
  op P (fun ev => observe programs ev inst ap site) (fun ev css => observe_closed ev css cs ap site).
Proof.
  intros HP Hcs Hf [a Ha] Hj. unfold observe. eapply op_with_var; [done|exact Ha|]. intros cv. cbv zeta.
  intros ev css Hi Hp. rewrite (function_of_spec ev css inst cs f Hi (Hcs _ (proj1 Hp)) Hf). cbn [mbind outcome_bind].
  set (labels := _ ∪ _).
  assert (forall t, t ∈ taints labels <-> exists p s, (p = segments ap \/ p = concat (segments ap) [Value]) /\
            labelled ev cv (location_of p) (Taint t) s) as Ht.
  { intros t. rewrite elem_of_taints. split.
    - intros [s [Hs|[_ Hs]]%lookup_union_Some_raw]; rewrite eval_read_lab in Hs; apply lab_labelled in Hs; eauto.
    - intros (p & s & Hpp & s' & Hl & _). rewrite <- eval_read_lab in Hl. unfold labels.
      destruct Hpp as [-> | ->]; [|exists s'; by apply lookup_union_Some_l].
      destruct (eval_read ev cv (concat (segments ap) [Value]) !! Taint t) as [s''|] eqn:E.
      + exists s''. by apply lookup_union_Some_l.
      + exists s'. by rewrite lookup_union_r. }
  destruct (op_foldl (fun css => P css /\ abs css cv = Some a)
     (fun ev t => add_observed ev {| o_function := name f; o_site := site; o_label := t |})
     (fun t ev css => {| o_function := name f; o_site := site; o_label := t |} ∈ observed (out ev)) (taints labels))
     with (ev := ev) (css := css) as (ev' & css' & E' & Hi' & Hp' & Hx & Hc); [by auto| |done|done|].
  { intros t (p & s & Hpp & Hl)%Ht. apply op_add_observed. eapply d_observed; [done|done|done|exact Hpp|].
    eapply inv_labelled; [done|apply Hp|done]. }
  exists ev', css'. split_and!; [done..|]. intros evf cssf Hfin f' a1 p t s Hf' Ha1 Hpp Hheld. simplify_eq.
  apply (Hc evf cssf Hfin). apply Ht. exists p, s. split; [done|].
  eapply (held_final ev css evf cssf); [done|by eapply final_trans|apply Hp|done].
Qed.

(** A port: a label at a path and at its value. *)
Lemma op_port P v a p l : persist P -> (forall css, P css -> abs css v = Some a) ->
  (forall p', p' = p \/ p' = concat p [Value] -> location within_path p' -> der (J_hold a p' l All)) ->
  op P (fun ev => Ret (eval_add config (eval_add config ev v p [(l, All)]) v (concat p [Value]) [(l, All)]))
    (fun ev css => forall p', p' = p \/ p' = concat p [Value] -> settled ev css a p' l All).
Proof.
  intros HP Hv Hd.
  assert (forall p', p' = p \/ p' = concat p [Value] ->
    op P (fun ev => Ret (eval_add config ev v p' [(l, All)])) (fun ev css => settled ev css a p' l All)) as Hone.
  { intros p' Hp'. eapply op_weaken; [apply (op_add P v p' _ a HP Hv)|done|].
    - intros l' s [= -> ->]%list_elem_of_singleton ?. by apply Hd.
    - intros ev css Hset. apply Hset. set_solver. }
  eapply op_weaken; [exact (op_seq P _ _ _ _ HP (Hone p (or_introl eq_refl)) (Hone _ (or_intror eq_refl)))|done|].
  intros ev css [? ?] p' [-> | ->]; done.
Qed.

Definition source_closed (ev : Eval) (css : list CallString) (cs : CallString) (n : string) (rets : list VariableRef) (args : list Exp) : Prop :=
  forall r rets' a p, rets = r :: rets' -> abs_var programs cs r = Some a -> p = [] \/ p = [Value] ->
    settled ev css a p (source_label n args) All.

Lemma op_source P inst cs n bb k span rets args : persist P -> (forall css, P css -> css !! inst = Some cs) ->
  der (J_call cs bb k span rets args n) -> n ∈ sources ports -> Forall (var_ok cs) rets ->
  op P (fun ev => eval_source programs config ev inst n rets args) (fun ev css => source_closed ev css cs n rets args).
Proof.
  intros HP Hcs Hj Hn Hr. unfold eval_source. destruct rets as [|r rets].
  { eapply op_weaken; [apply op_ret|done|]. intros ev css _ ? ? ? ? [=]. }
  apply Forall_cons in Hr as [[a Ha] _]. eapply op_with_var; [done|exact Ha|]. intros cv.
  change [Value] with (concat [] [Value]). eapply op_weaken; [apply (op_port (fun css => P css /\ abs css cv = Some a) cv a [] (source_label n args))|done|].
  - auto.
  - naive_solver.
  - intros p' Hp' Hloc. by eapply d_source.
  - intros ev css Hset r' rets' a1 p [= <- <-] Ha1 Hp. simplify_eq. by apply Hset.
Qed.

Lemma op_seed P inst cs f sd : persist P -> (forall css, P css -> css !! inst = Some cs) ->
  function_at programs cs = Some f -> der (J_live cs) -> sd ∈ seeds ports -> seed_function sd = name f ->
  var_ok cs (base (seed_path sd)) ->
  op P (fun ev => eval_seed programs config inst ev sd)
    (fun ev css => forall a p, abs_var programs cs (base (seed_path sd)) = Some a ->
       p = segments (seed_path sd) \/ p = concat (segments (seed_path sd)) [Value] ->
       settled ev css a p (Taint (seed_label sd)) All).
Proof.
  intros HP Hcs Hf Hl Hin Hname [a Ha]. unfold eval_seed. eapply op_with_var; [done|exact Ha|]. intros cv.
  eapply op_weaken; [apply (op_port (fun css => P css /\ abs css cv = Some a) cv a (segments (seed_path sd)) (Taint (seed_label sd)))|done|].
  - auto.
  - naive_solver.
  - intros p' Hp' Hloc. by eapply d_seed.
  - intros ev css Hset a1 p Ha1 Hp. simplify_eq. by apply Hset.
Qed.

(** ** Functions of live instances *)

Lemma live_function B D cs : derives programs ports B D (J_live cs) -> exists f, function_at programs cs = Some f.
Proof.
  inversion 1 as [p i f Hb|cs' bb k span rets args n cp cf ? _ _ Hn _| | | | | | | | | | | | | | | ]; subst.
  - exists f. by eapply body_function_at.
  - apply by_name_body in Hn as [f Hb]. exists f. by eapply body_function_at.
Qed.

(** ** Calls *)

Lemma cs_call_inj cs key cs' key' : cs_call cs key = cs_call cs' key' -> cs = cs' /\ key = key'.
Proof. destruct cs, cs'. unfold cs_call. simpl. intros [= -> -> ->]. done. Qed.

Lemma live_call_depth x cs key : der (J_live x) -> x = cs_call cs key -> within_depth (S (cs_depth cs)).
Proof.
  intros Hd Ex. remember (J_live x) as j eqn:Ej. destruct Hd; simplify_eq.
  unfold cs_depth in *. congruence.
Qed.

Lemma child_instance_spec ev css inst cs bb k cp cf :
  Inv ev css -> css !! inst = Some cs ->
  (within_depth (S (cs_depth cs)) -> der (J_live (cs_call cs (bb, k, cp, cf)))) ->
  exists ev' css' child, child_instance config ev inst (bb, k, cp, cf) = Ret (ev', child) /\
    Inv ev' css' /\ css `prefix_of` css' /\ ext ev ev' /\
    match child with
    | None => truncated (out ev') = true /\ depth config < S (cs_depth cs)
    | Some c => css' !! c = Some (cs_call cs (bb, k, cp, cf)) /\ within_depth (S (cs_depth cs))
    end.
Proof.
  intros Hi Hcs Hlive. set (key := (bb, k, cp, cf)) in *.
  destruct (inv_lookup _ _ _ _ Hi Hcs) as (I & HI & HIf & HId & HIc). unfold child_instance, iv_index. rewrite HI.
  cbn [unwrap mbind outcome_bind]. destruct (children I !! key) as [c|] eqn:Ec.
  { exists ev, css, (Some c). split_and!; [done..|apply ext_refl|by apply HIc|].
    apply HIc, list_elem_of_lookup_2, (inv_live _ _ Hi) in Ec. by eapply live_call_depth. }
  case_decide as Hd.
  { exists (set_truncated ev), css, None. split_and!; [done|by apply (same_inv ev)|done|by apply same_ext|done|lia]. }
  assert (within_depth (S (cs_depth cs))) as Hw by (unfold within_depth; lia).
  assert (inst < length (instances ev)) as Hlt by (by eapply lookup_lt_Some).
  unfold iv_set, key. fold key. rewrite decide_True by (rewrite length_app; simpl; lia). cbn [mbind outcome_bind].
  set (I' := mk_instance (i_program I) _ _ _). set (insts := <[inst := I']> _).
  assert (length insts = S (length (instances ev))) as Hlen by (unfold insts; rewrite length_insert, length_app; simpl; lia).
  eexists _, (css ++ [cs_call cs key]), (Some (length (instances ev))). split; [reflexivity|].
  assert (cs_call cs key ∉ css) as Hnew.
  { intros (i & J & c & Hi' & HJ & Hc)%(inv_parent _ _ Hi).
    pose proof (NoDup_lookup _ _ _ _ (inv_nodup _ _ Hi) Hcs Hi') as <-. by simplify_eq. }
  assert (forall i J, i <> inst -> instances ev !! i = Some J -> insts !! i = Some J) as Hother.
  { intros i J Hne HJ. unfold insts. rewrite list_lookup_insert_ne by done. by apply lookup_app_l_Some. }
  assert (insts !! inst = Some I') as Hinst by (unfold insts; rewrite list_lookup_insert_eq; [done|rewrite length_app; simpl; lia]).
  assert (forall i x, css !! i = Some x -> (css ++ [cs_call cs key]) !! i = Some x) as Hmono by (intros; by apply lookup_app_l_Some).
  assert ((css ++ [cs_call cs key]) !! length (instances ev) = Some (cs_call cs key)) as Hlast.
  { rewrite <- (inv_len _ _ Hi), lookup_app_r, Nat.sub_diag by done. done. }
  split_and!; [|by eexists| |done|done].
  - split; simpl.
    + rewrite length_app, Hlen, (inv_len _ _ Hi). simpl. lia.
    + apply NoDup_app. split_and!; [apply Hi|set_solver|apply NoDup_singleton].
    + intros i J HJ. destruct (decide (i = inst)) as [->|Hne]; [|destruct (decide (i = length (instances ev))) as [->|Hnl]].
      * rewrite Hinst in HJ. injection HJ as <-. exists cs. split_and!; [by apply Hmono|done|done|]. simpl.
        intros key' c [[<- <-]|[? Hc]]%lookup_insert_Some; [done|]. by apply Hmono, HIc.
      * unfold insts in HJ. rewrite list_lookup_insert_ne in HJ by done. rewrite lookup_app_r, Nat.sub_diag in HJ by done.
        simplify_eq/=. exists (cs_call cs key). split_and!; [done|done|by rewrite HId, Nat.add_1_r|]. set_solver.
      * unfold insts in HJ. rewrite list_lookup_insert_ne in HJ by done. apply lookup_app_Some in HJ as [HJ|[? HJ]].
        -- destruct (inv_inst _ _ Hi _ _ HJ) as (cs' & ? & ? & ? & Hc). exists cs'. split_and!; auto.
        -- apply list_lookup_singleton_Some in HJ as [? _]. lia.
    + intros cs' key' [Hin|Hin%list_elem_of_singleton]%elem_of_app.
      * destruct (inv_parent _ _ Hi _ _ Hin) as (i & J & c & Hi' & HJ & Hc).
        destruct (decide (i = inst)) as [->|Hne]; [|exists i, J, c; auto].
        simplify_eq. exists inst, I'. simpl. destruct (decide (key' = key)) as [->|Hk]; [congruence|].
        exists c. rewrite lookup_insert_ne by done. auto.
      * apply cs_call_inj in Hin as [-> ->]. exists inst, I', (length (instances ev)). simpl. rewrite lookup_insert_eq. auto.
    + intros cs' [Hin| ->%list_elem_of_singleton]%elem_of_app; [by apply (inv_live _ _ Hi)|by apply Hlive].
    + intros p i f Hb. apply elem_of_app. left. by eapply (inv_roots _ _ Hi).
    + intros v p l s Hl. destruct (inv_lab _ _ Hi v p l s Hl) as (a & Ha & ?). exists a. split; [|done].
      eapply abs_mono; [done|]. by eexists.
    + apply Hi.
  - split; simpl; [done|lia|done|done|done|]. intros _. right. right. left. simpl. lia.
Qed.

(** ** Programs whose global references are in range *)

Definition function_vars (f : FunctionData) : list VariableRef :=
  blocks f ≫= fun b => block_src_vars b ++ (statements b ≫= fun s => iter_dst_var (kind s)).

Definition port_vars (f : FunctionData) : list VariableRef :=
  map (fun s => base (seed_path s)) (filter (fun s => seed_function s = name f) (seeds ports)) ++
  map (fun o => base (obs_path o)) (filter (fun o => obs_function o = name f) (observers ports)).

Definition globals_in_range : Prop :=
  forall p program i f v idx, programs !! p = Some program -> functions program !! i = Some f ->
    v ∈ function_vars f ++ port_vars f -> variable v = Variable_Global idx -> idx < length (gdecls (globals program)).

Hypothesis Hwf : globals_in_range.

Lemma wf_var cs f v : function_at programs cs = Some f -> v ∈ function_vars f ++ port_vars f -> var_ok cs v.
Proof.
  unfold function_at, var_ok, abs_var. intros Hf Hv. destruct (variable v) as [idx|idx|idx] eqn:Ev; [|by eexists..].
  destruct (programs !! (cs_function cs).1) as [pr|] eqn:Ep; [|done]. simpl in *.
  destruct (lookup_lt_is_Some_2 (gdecls (globals pr)) idx) as [g ->]; [by eapply Hwf|]. by eexists.
Qed.

Lemma wf_stmt cs f bb k st v : function_at programs cs = Some f -> stmt_at programs cs bb k = Some st ->
  v ∈ iter_src_var (kind st) ++ iter_dst_var (kind st) -> var_ok cs v.
Proof.
  intros Hf Hst Hv. apply (wf_var cs f v Hf). apply elem_of_app. left. unfold stmt_at in Hst. rewrite Hf in Hst. simpl in Hst.
  destruct (blocks f !! bb) as [b|] eqn:Eb; [|done]. simpl in Hst. apply list_elem_of_bind. exists b.
  split; [|by eapply list_elem_of_lookup_2]. apply list_elem_of_lookup_2 in Hst. unfold block_src_vars.
  rewrite !elem_of_app, !list_elem_of_bind. apply elem_of_app in Hv as [Hv|Hv]; [left; left|right]; eauto.
Qed.

Lemma wf_return cs f ret e : function_at programs cs = Some f -> ret ∈ returns_of f -> e ∈ ret -> exp_ok cs e.
Proof.
  intros Hf Hr He ap Hap. apply (wf_var cs f _ Hf). apply elem_of_app. left.
  unfold returns_of in Hr. apply list_elem_of_omap in Hr as (b & Hb & Hret).
  destruct (terminator b) as [t|] eqn:Et; [|done]. destruct (term_kind t) as [args|] eqn:Ek; simplify_eq.
  apply list_elem_of_bind. exists b. split; [|done]. unfold block_src_vars. rewrite Et. rewrite !elem_of_app. left. right.
  unfold term_iter_src_var. rewrite Ek. apply list_elem_of_omap. exists e. split; [done|]. unfold base_variable. by rewrite Hap.
Qed.

Lemma operand_var e ap (l : list Exp) : e ∈ l -> access_path e = Some ap -> base ap ∈ omap base_variable l.
Proof. intros He Hap. apply list_elem_of_omap. exists e. split; [done|]. unfold base_variable. by rewrite Hap. Qed.

Lemma take_enum_from {A} n (l : list A) : forall i, take n (enum_from i l) = enum_from i (take n l).
Proof. revert n. induction l as [|x l IH]; intros [|n] i; simpl; [done..|]. by rewrite IH. Qed.

Definition instantiate_closed (ev : Eval) (css : list CallString) (cs child : CallString) (rets : list VariableRef) (args : list Exp) : Prop :=
  (truncated (out ev) = true /\ depth config < S (cs_depth cs)) \/
  (child ∈ css /\ forall f, function_at programs child = Some f ->
     (forall idx e, args !! idx = Some e -> idx < num_parameters f ->
        assign_closed ev css (A_Instance child, new_parameter idx) [] cs e) /\
     (forall ret j r e a, ret ∈ returns_of f -> rets !! j = Some r -> ret !! j = Some e -> abs_var programs cs r = Some a ->
        assign_closed ev css a [] child e)).

Lemma op_instantiate P inst cs bb k span rets args n cp cf : persist P -> (forall css, P css -> css !! inst = Some cs) ->
  der (J_call cs bb k span rets args n) -> n ∉ sources ports -> n ∉ sinks ports ->
  eval_by_name programs !! n = Some (cp, cf) -> Forall (var_ok cs) rets -> Forall (exp_ok cs) args ->
  op P (fun ev => instantiate programs config ev inst bb k (cp, cf) rets args)
    (fun ev css => instantiate_closed ev css cs (cs_call cs (bb, k, cp, cf)) rets args).
Proof.
  intros HP Hcs Hj Hn1 Hn2 Hn Hrets Hargs ev css Hi Hp. unfold instantiate. set (child := cs_call cs (bb, k, cp, cf)).
  destruct (child_instance_spec ev css inst cs bb k cp cf Hi (Hcs _ Hp)) as (ev1 & css1 & c & E & Hi1 & Hp1 & Hx1 & Hc).
  { intros Hw. by eapply d_child. }
  cbn [fst snd]. rewrite E. cbn [mbind outcome_bind]. destruct c as [c|].
  2:{ exists ev1, css1. split_and!; [done..|]. intros evf cssf Hf. left. split; [|apply Hc].
      apply (x_trunc _ _ (f_ext _ _ _ _ Hf)), Hc. }
  destruct Hc as [Hc Hw]. destruct (by_name_body _ _ _ _ Hn) as [f Hb].
  assert (function_at programs child = Some f) as Hf by (by eapply body_function_at).
  pose proof (program_function_spec child f Hf) as Epf. simpl in Epf. rewrite Epf. cbn [mbind outcome_bind].
  set (P1 := fun css => P css /\ css !! c = Some child). assert (persist P1) as HP1 by (apply persist_and; auto).
  assert (op P1 (fun ev => foldM (fun ev '(idx, arg) => v ← eval_var programs ev c (new_parameter idx); assign_exp programs config ev v [] inst arg)
             ev (take (num_parameters f) (enumerate args)))
           (fun ev css => forall x, x ∈ take (num_parameters f) (enumerate args) ->
              assign_closed ev css (A_Instance child, new_parameter x.1) [] cs x.2)) as Oargs.
  { apply op_foldM; [done|]. intros [idx e] Hin. simpl. rewrite take_enum_from, elem_of_enumerate in Hin.
    apply lookup_take_Some in Hin as [He Hidx].
    apply op_assign_exp.
    - done.
    - intros css' [_ Hcc]. unfold abs. simpl. by rewrite Hcc.
    - intros ? [? _]. auto.
    - by eapply d_argument.
    - eapply Forall_lookup_1; [exact Hargs|exact He]. }
  assert (op P1 (fun ev => foldM (fun ev ret => foldM (fun ev '(r, e) =>
               v ← eval_var programs ev inst r; assign_exp programs config ev v [] c e) ev (zip rets ret)) ev (returns_of f))
           (fun ev css => forall ret, ret ∈ returns_of f -> forall x, x ∈ zip rets ret ->
              forall a, abs_var programs cs x.1 = Some a -> assign_closed ev css a [] child x.2)) as Orets.
  { apply op_foldM; [done|]. intros ret Hret. apply op_foldM; [done|]. intros [r e] [j Hz]%list_elem_of_lookup. cbv beta iota. cbn [fst snd].
    apply lookup_zip_with_Some in Hz as (r' & e' & [= <- <-] & Hr & He).
    destruct (Forall_lookup_1 _ _ _ _ Hrets Hr) as [a Ha].
    eapply op_weaken; [|done|intros ? ? Hcl a' Ha'; replace a' with a by congruence; exact Hcl].
    eapply (op_with_var P1 inst cs); [intros ? [? _]; auto|done|]. intros cv. apply op_assign_exp.
    - auto.
    - by intros ? [_ ?].
    - by intros ? [[_ ?] _].
    - by eapply d_return.
    - eapply wf_return; [done|done|by eapply list_elem_of_lookup_2]. }
  destruct (op_seq P1 _ _ _ _ HP1 Oargs Orets ev1 css1 Hi1) as (ev2 & css2 & E2 & Hi2 & Hp2 & Hx2 & Hc2).
  { split; [by eapply HP|done]. }
  exists ev2, css2. split_and!; [exact E2|done|by etrans|by eapply ext_trans|].
  intros evf cssf Hfin. destruct (Hc2 evf cssf Hfin) as [Ha Hr]. right. split.
  - eapply list_elem_of_lookup_2. eapply prefix_lookup_Some; [exact Hc|]. etrans; [exact Hp2|apply Hfin].
  - intros f' Hf'. simplify_eq. split.
    + intros idx e He Hidx. apply (Ha (idx, e)). rewrite take_enum_from, elem_of_enumerate. by apply lookup_take_Some.
    + intros ret j r e a Hret Hrj Hej Ha'. apply (Hr ret Hret (r, e)); [|done].
      apply list_elem_of_lookup. exists j. apply lookup_zip_with_Some. eauto.
Qed.

Lemma op_unresolved P inst cs f bb i why : (forall css, P css -> css !! inst = Some cs) -> function_at programs cs = Some f ->
  op P (fun ev => unresolved_at programs ev inst bb i why) (fun _ _ => True).
Proof.
  intros Hcs Hf. unfold unresolved_at. eapply op_with_function; [done..|]. intros ev css Hi Hp. unfold add_unresolved.
  case_decide.
  - exists ev, css. split_and!; auto using ext_refl.
  - eexists _, css. split_and!; [reflexivity|by apply (same_inv ev)|done|by apply same_ext|done].
Qed.

Lemma elem_of_btree_iter n s : n ∈ btree_iter s <-> n ∈ s.
Proof. unfold btree_iter. by rewrite merge_sort_Permutation, elem_of_elements. Qed.

Lemma elem_of_targets ev v callee n : n ∈ func_ptr_targets ev v callee <->
  exists p s, (p = segments callee \/ p = concat (segments callee) [Value]) /\ labelled ev v (location_of p) (Target n) s.
Proof.
  unfold func_ptr_targets. rewrite elem_of_list_to_set, list_elem_of_bind. split.
  - intros (p & Hin & Hp). apply list_elem_of_omap in Hin as ([l s] & Hl%elem_of_map_to_list & Ht). destruct l; simplify_eq.
    rewrite eval_read_lab in Hl. exists p, s. split; [set_solver|by apply lab_labelled].
  - intros (p & s & Hp & s' & Hl & _). exists p. split; [|set_solver]. apply list_elem_of_omap. exists (Target n, s').
    split; [|done]. apply elem_of_map_to_list. by rewrite eval_read_lab.
Qed.

(** The name [n] is among the targets of the call. *)
Definition reaches_name (ev : Eval) (css : list CallString) (cs : CallString) (style : CallStyle) (n : string) : Prop :=
  match style with
  | DirectCall (Explicit names) => n ∈ names
  | FuncPtrCall callee _ => exists a p s, abs_var programs cs (base callee) = Some a /\
      (p = segments callee \/ p = concat (segments callee) [Value]) /\ held ev css a (location_of p) (Target n) s
  | _ => False
  end.

Definition name_closed (ev : Eval) (css : list CallString) (cs : CallString) (bb k : nat) (span : N)
    (rets : list VariableRef) (args : list Exp) (n : string) : Prop :=
  (n ∈ sources ports -> source_closed ev css cs n rets args) /\
  (n ∉ sources ports -> n ∈ sinks ports -> forall ap, head args ≫= access_path = Some ap ->
     observe_closed ev css cs ap (sink_site n args span)) /\
  (n ∉ sources ports -> n ∉ sinks ports -> forall cp cf, eval_by_name programs !! n = Some (cp, cf) ->
     instantiate_closed ev css cs (cs_call cs (bb, k, cp, cf)) rets args).

Section call.
Variable P : list CallString -> Prop.
Variables inst bb k : nat.
Variable cs : CallString.
Variable f : FunctionData.
Variable st : Statement.
Variable style : CallStyle.
Variable rets : list VariableRef.
Variable args : list Exp.
Hypothesis HP : persist P.
Hypothesis Hcs : forall css, P css -> css !! inst = Some cs.
Hypothesis Hlive : der (J_live cs).
Hypothesis Hf : function_at programs cs = Some f.
Hypothesis Hst : stmt_at programs cs bb k = Some st.
Hypothesis Hkind : kind st = CallAssign style rets args.

Lemma call_rets_ok : Forall (var_ok cs) rets.
Proof.
  apply Forall_forall. intros r Hr. eapply wf_stmt; [exact Hf|exact Hst|]. rewrite Hkind. simpl. set_solver.
Qed.

Lemma call_args_ok : Forall (exp_ok cs) args.
Proof.
  apply Forall_forall. intros e He ap Hap. eapply wf_stmt; [exact Hf|exact Hst|]. rewrite Hkind. simpl.
  rewrite !elem_of_app. left. left. by eapply operand_var.
Qed.

Lemma op_name n : der (J_call cs bb k (source_info st) rets args n) ->
  op P (fun ev => call_name programs ports config inst bb k (source_info st) rets args ev n)
    (fun ev css => name_closed ev css cs bb k (source_info st) rets args n).
Proof.
  intros Hj. unfold call_name. destruct (decide (n ∈ sources ports)) as [Hs|Hs].
  { eapply op_weaken; [eapply op_source; eauto using call_rets_ok|done|]. intros ev css Hc. split_and!; [done|done|done]. }
  destruct (decide (n ∈ sinks ports)) as [Hk|Hk].
  { unfold eval_sink. destruct (head args ≫= access_path) as [ap|] eqn:Eap.
    - eapply op_weaken; [eapply (op_observe P inst cs f); [done|done|done| |by eapply d_sink]|done|].
      + pose proof call_args_ok as Ha. rewrite Forall_forall in Ha. destruct (head args) as [e|] eqn:Eh; [|done].
        apply (Ha e); [by apply head_Some_elem_of|done].
      + intros ev css Hc. split_and!; [done| |done]. intros _ _ ap' Hap'. rewrite Eap in Hap'. by simplify_eq.
    - eapply op_weaken; [apply op_ret|done|]. intros ev css _. split_and!; [done| |done]. intros _ _ ap' Hap'. congruence. }
  destruct (eval_by_name programs !! n) as [[cp cf]|] eqn:En.
  - eapply op_weaken; [eapply (op_instantiate P inst cs bb k); eauto using call_rets_ok, call_args_ok|done|].
    intros ev css Hc. split_and!; [done|done|]. intros _ _ cp' cf' Hn. rewrite En in Hn. by simplify_eq.
  - eapply op_weaken; [by eapply op_unresolved|done|]. intros ev css _. split_and!; [done|done|]. intros _ _ cp' cf'. congruence.
Qed.

Lemma op_call : op P (fun ev => eval_call programs ports config ev inst bb k (source_info st) style rets args)
  (fun ev css => forall n, reaches_name ev css cs style n -> name_closed ev css cs bb k (source_info st) rets args n).
Proof.
  unfold eval_call, call_targets.
  pose proof op_name as Hname. destruct style as [|[names]|callee sg|? ? ? ? ? ?|? ?|? ? ? ?] eqn:Estyle;
    try (intros ev css Hi Hp;
         match goal with |- context [UnsupportedStyle ?o] =>
           destruct (op_unresolved P inst cs f bb k (UnsupportedStyle o) Hcs Hf ev css Hi Hp) as (ev' & css' & E & ? & ? & ? & _) end;
         exists ev', css'; rewrite E; by split_and!).
  - apply op_foldM; [done|]. intros n Hn. apply Hname. by eapply d_direct.
  - assert (var_ok cs (base callee)) as [a Ha].
    { eapply wf_stmt; [exact Hf|exact Hst|]. rewrite Hkind. simpl. rewrite !elem_of_app. left. right. set_solver. }
    intros ev css Hi Hp. destruct (eval_var_spec ev css inst cs _ a Hi (Hcs _ Hp) Ha) as (cv & Ecv & Hcv). rewrite Ecv.
    cbn [mbind outcome_bind]. set (names := func_ptr_targets ev cv callee).
    assert (op P (fun ev => if decide (names = ∅) then unresolved_at programs ev inst bb k (NoTarget callee) else Ret ev) (fun _ _ => True)) as O1.
    { destruct (decide (names = ∅)); [by eapply op_unresolved|apply op_ret]. }
    destruct (O1 ev css Hi Hp) as (ev1 & css1 & E1 & Hi1 & Hp1 & Hx1 & _). rewrite E1. cbn [mbind outcome_bind].
    destruct (op_foldM P (call_name programs ports config inst bb k (source_info st) rets args)
      (fun n ev css => name_closed ev css cs bb k (source_info st) rets args n) (btree_iter names) HP) with (ev := ev1) (css := css1)
      as (ev2 & css2 & E2 & Hi2 & Hp2 & Hx2 & Hc2); [|done|by eapply HP|].
    { intros n (p & s & Hpp & Hl)%elem_of_btree_iter%elem_of_targets. apply Hname.
      eapply d_indirect; [done|done|exact Hkind|exact Ha|exact Hpp|]. by eapply (inv_labelled ev css cv). }
    exists ev2, css2. split_and!; [exact E2|done|by etrans|by eapply ext_trans|].
    intros evf cssf Hfin n (a' & p & s & Ha' & Hpp & Hh). simplify_eq. apply (Hc2 evf cssf Hfin).
    apply elem_of_btree_iter, elem_of_targets. exists p, s. split; [done|].
    eapply (held_final ev css evf cssf); [done| |done|done]. eapply final_trans; [| |exact Hfin]; [by etrans|by eapply ext_trans].
Qed.
End call.

(** ** Statements and steps *)

Definition stmt_closed (ev : Eval) (css : list CallString) (cs : CallString) (bb k : nat) (st : Statement) : Prop :=
  match kind st with
  | Assign dest srcs => forall a e, abs_var programs cs (base dest) = Some a -> e ∈ srcs ->
      assign_closed ev css a (segments dest) cs e
  | Phi dest ops => forall a b op, abs_var programs cs dest = Some a -> (b, op) ∈ ops ->
      assign_closed ev css a [] cs (Exp_variable op)
  | CallAssign style rets args => forall n, reaches_name ev css cs style n ->
      name_closed ev css cs bb k (source_info st) rets args n
  | Nop => True
  end.

Lemma op_stmt P inst cs f bb k st : persist P -> (forall css, P css -> css !! inst = Some cs) -> der (J_live cs) ->
  function_at programs cs = Some f -> stmt_at programs cs bb k = Some st ->
  op P (fun ev => eval_stmt programs ports config inst bb ev (k, st)) (fun ev css => stmt_closed ev css cs bb k st).
Proof.
  intros HP Hcs Hlive Hf Hst. unfold eval_stmt, stmt_closed. destruct (kind st) as [dest srcs|style rets args|dest ops|] eqn:Ek.
  - assert (var_ok cs (base dest)) as [a Ha].
    { eapply wf_stmt; [done..|]. rewrite Ek. simpl. destruct (is_pathless dest); set_solver. }
    eapply op_with_var; [done|exact Ha|]. intros cv.
    eapply op_weaken; [apply (op_foldM (fun css => P css /\ abs css cv = Some a) _ (fun e ev css => assign_closed ev css a (segments dest) cs e))|done|].
    + auto.
    + intros e He. apply (op_assign_exp _ cv (segments dest) inst cs e a); [auto|by intros ? [_ ?]|intros ? [? _]; auto|by eapply d_statement|].
      intros ap Hap. eapply wf_stmt; [done..|]. rewrite Ek. simpl. rewrite !elem_of_app. left. right. by eapply operand_var.
    + intros ev css Hc a' e Ha' He. simplify_eq. by apply Hc.
  - by eapply op_call.
  - assert (var_ok cs dest) as [a Ha] by (eapply wf_stmt; [done..|]; rewrite Ek; simpl; set_solver).
    eapply op_with_var; [done|exact Ha|]. intros cv. eapply op_weaken; [apply (op_foldM (fun css => P css /\ abs css cv = Some a) _ (fun x ev css => assign_closed ev css a [] cs (Exp_variable x.2)))|done|].
    + auto.
    + intros [b op'] Ho.
      apply (op_assign_exp _ cv [] inst cs (Exp_variable op') a); [auto|by intros ? [_ ?]|intros ? [? _]; auto|by eapply d_phi|].
      intros ap [= <-]. simpl. eapply wf_stmt; [done..|]. rewrite Ek. simpl. rewrite elem_of_app. left. apply elem_of_map. by exists (b, op').
    + intros ev css Hc a' b op' Ha' Ho. simplify_eq. by apply (Hc (b, op')).
  - eapply op_weaken; [apply op_ret|done|done].
Qed.

Definition instance_closed (ev : Eval) (css : list CallString) (cs : CallString) : Prop :=
  forall f, function_at programs cs = Some f ->
  (forall sd a p, sd ∈ seeds ports -> seed_function sd = name f -> abs_var programs cs (base (seed_path sd)) = Some a ->
     p = segments (seed_path sd) \/ p = concat (segments (seed_path sd)) [Value] ->
     settled ev css a p (Taint (seed_label sd)) All) /\
  (forall o, o ∈ observers ports -> obs_function o = name f -> observe_closed ev css cs (obs_path o) (obs_name o)) /\
  (forall bb k st, stmt_at programs cs bb k = Some st -> stmt_closed ev css cs bb k st).

Lemma op_step inst cs : der (J_live cs) ->
  op (fun css => css !! inst = Some cs) (fun ev => eval_step programs ports config ev inst)
    (fun ev css => instance_closed ev css cs).
Proof.
  intros Hlive. destruct (live_function _ _ _ Hlive) as [f Hf]. unfold eval_step. eapply op_with_function; [done|exact Hf|].
  set (P := fun css : list CallString => css !! inst = Some cs). assert (persist P) as HP by apply persist_lookup.
  assert (forall css, P css -> css !! inst = Some cs) as Hcs by done.
  eapply op_weaken; [apply (op_seq P); [done| |apply (op_seq P); [done| |]]|done|].
  - apply op_foldM; [done|]. intros sd [Hn Hsd]%list_elem_of_filter. apply (op_seed P inst cs f); [done..|].
    eapply wf_var; [done|]. unfold port_vars. rewrite !elem_of_app. right. left. apply elem_of_map. exists sd.
    split; [done|]. by apply list_elem_of_filter.
  - apply (op_foldM P _ (fun o ev css => observe_closed ev css cs (obs_path o) (obs_name o))); [done|].
    intros o [Hn Ho]%list_elem_of_filter. apply (op_observe P inst cs f); [done..| |by eapply d_observer].
    eapply wf_var; [done|]. unfold port_vars. rewrite !elem_of_app. right. right. apply elem_of_map. exists o.
    split; [done|]. by apply list_elem_of_filter.
  - apply (op_foldM P _ (fun x ev css => forall y, y ∈ enumerate (statements x.2) -> stmt_closed ev css cs x.1 y.1 y.2)); [done|].
    intros [bb b] Hb%elem_of_enumerate. apply op_foldM; [done|]. intros [k st] Hk%elem_of_enumerate.
    apply (op_stmt P inst cs f); [done..|]. unfold stmt_at. rewrite Hf. simpl. rewrite Hb. done.
  - intros ev css (Hs & Ho & Hb) f' Hf'. simplify_eq. split_and!.
    + intros sd a p Hsd Hn Ha Hp. apply (Hs sd); [by apply list_elem_of_filter|done|done].
    + intros o Hin Hn. apply Ho. by apply list_elem_of_filter.
    + intros bb k st Hst. unfold stmt_at in Hst. rewrite Hf in Hst. simpl in Hst.
      destruct (blocks f !! bb) as [b|] eqn:Eb; [|done]. simpl in Hst.
      apply (Hb (bb, b)) with (y := (k, st)); by apply elem_of_enumerate.
Qed.

(** ** Termination

    Every round that reports a change records a derivable judgement for the first time, and
    only finitely many are derivable. *)

Definition realised (ev : Eval) (css : list CallString) (j : Judgement) : Prop :=
  match j with
  | J_live cs => cs ∈ css
  | J_hold a p l s => held ev css a p l s
  | J_observed o => o ∈ observed (out ev)
  | _ => False
  end.

Lemma realised_mono ev css ev' css' j : css `prefix_of` css' -> ext ev ev' -> realised ev css j -> realised ev' css' j.
Proof.
  intros [k ->] Hx. destruct j; simpl; try done.
  - set_solver.
  - intros (v & Hv & Hl). exists v. split; [eapply abs_mono; [done|by eexists]|by apply (x_lab _ _ Hx)].
  - apply (x_obs _ _ Hx).
Qed.

Lemma fresh_realised ev css ev' css' : Inv ev css -> Inv ev' css' -> css `prefix_of` css' -> fresh_in ev ev' ->
  exists j, der j /\ recorded j /\ realised ev' css' j /\ ~ realised ev css j.
Proof.
  intros Hi Hi' Hp [(v & p & l & s & Hl & Hn)|[Hlen|(o & Ho & Hn)]].
  - destruct Hl as (s' & Hl & Hs). destruct (inv_lab _ _ Hi' _ _ _ _ Hl) as (a & Ha & _). exists (J_hold a p l s).
    assert (labelled ev' v p l s) as Hl' by (by exists s'). split_and!; [by eapply inv_labelled|done|by exists v|].
    intros (v' & Ha' & Hl''). apply Hn. replace v with v'; [done|]. eapply abs_inj; [apply Hi'| |exact Ha]. by eapply abs_mono.
  - destruct Hp as [[|x k] ->]; [rewrite app_nil_r in Hi'; rewrite <- (inv_len _ _ Hi), (inv_len _ _ Hi') in Hlen; lia|].
    exists (J_live x). split_and!; [apply (inv_live _ _ Hi'); set_solver|done|simpl; set_solver|]. simpl.
    pose proof (inv_nodup _ _ Hi') as (_ & Hd & _)%NoDup_app. intros Hx. apply (Hd x Hx). set_solver.
  - exists (J_observed o). split_and!; [by apply (inv_obs _ _ Hi')|done|done|done].
Qed.

Section bounded.
Variable js : list Judgement.
Hypothesis Hjs : forall j, der j -> recorded j -> j ∈ js.

Lemma inv_bound ev css : Inv ev css -> length css <= length js.
Proof.
  intros Hi. rewrite <- (length_map J_live css). apply submseteq_length, NoDup_submseteq.
  - apply NoDup_ListNoDup, List.NoDup_map_inv with (f := fun j => match j with J_live cs => cs | _ => mk_cs [] (0, 0) end).
    rewrite map_map, map_id. apply NoDup_ListNoDup, Hi.
  - intros j (cs & -> & Hcs)%elem_of_map. apply Hjs; [by apply (inv_live _ _ Hi)|done].
Qed.

Lemma sweep_spec fuel : forall i ev css, Inv ev css -> i <= length css -> length js < i + fuel ->
  exists ev' css', sweep programs ports config fuel i ev = Ret ev' /\ Inv ev' css' /\ css `prefix_of` css' /\ ext ev ev' /\
    forall evf cssf, final ev' css' evf cssf -> forall j cs, i <= j -> cssf !! j = Some cs -> instance_closed evf cssf cs.
Proof.
  induction fuel as [|fuel IH]; intros i ev css Hi Hle Hfuel; simpl; [pose proof (inv_bound _ _ Hi); lia|].
  case_decide as Hlt.
  - rewrite <- (inv_len _ _ Hi) in Hlt. destruct (lookup_lt_is_Some_2 css i Hlt) as [cs Hcs].
    destruct (op_step i cs) with (ev := ev) (css := css) as (ev1 & css1 & E1 & Hi1 & Hp1 & Hx1 & H1); [|done|done|].
    { apply (inv_live _ _ Hi). by eapply list_elem_of_lookup_2. }
    rewrite E1. cbn [mbind outcome_bind]. pose proof (prefix_length _ _ Hp1).
    destruct (IH (S i) ev1 css1 Hi1) as (ev2 & css2 & E2 & Hi2 & Hp2 & Hx2 & H2); [lia|lia|].
    exists ev2, css2. split_and!; [done|done|by etrans|by eapply ext_trans|].
    intros evf cssf Hf j csj Hj Hcsj. destruct (decide (j = i)) as [->|Hne]; [|apply (H2 evf cssf Hf j csj); [lia|done]].
    assert (cssf !! i = Some cs) as Hcs'.
    { eapply prefix_lookup_Some; [exact Hcs|]. etrans; [exact Hp1|]. etrans; [exact Hp2|apply Hf]. }
    simplify_eq. apply H1. by eapply final_trans.
  - exists ev, css. split_and!; [done..|apply ext_refl|]. intros evf cssf Hf j cs Hj Hcs.
    rewrite (final_css _ _ _ _ Hi Hf) in Hcs. apply lookup_lt_Some in Hcs. rewrite (inv_len _ _ Hi) in Hcs. lia.
Qed.

Definition saturated (ev : Eval) (css : list CallString) : Prop :=
  Inv ev css /\ forall cs, cs ∈ css -> instance_closed ev css cs.

Lemma run_spec n : forall fuel ev css rs, Inv ev css -> NoDup rs -> (forall j, j ∈ rs -> der j /\ recorded j /\ realised ev css j) ->
  length js < n + length rs -> length js + n < fuel ->
  exists ev' css', run programs ports config fuel ev = Ret ev' /\ saturated ev' css'.
Proof.
  induction n as [|n IH]; intros fuel ev css rs Hi Hnd Hrs Hn Hfuel.
  { assert (length rs <= length js); [|lia]. apply submseteq_length, NoDup_submseteq; [done|].
    intros j (? & ? & _)%Hrs. auto. }
  destruct fuel as [|fuel]; [lia|]. cbn [run].
  assert (Inv (set_changed ev false) css) as Hi0 by (by apply (same_inv ev)).
  destruct (sweep_spec (S fuel) 0 _ css Hi0) as (ev1 & css1 & E1 & Hi1 & Hp1 & Hx1 & H1); [lia|lia|].
  rewrite E1. cbn [mbind outcome_bind]. destruct (changed ev1) eqn:Ech.
  - destruct (x_progress _ _ Hx1 Ech) as [?|Hfr]; [done|].
    destruct (fresh_realised _ _ _ _ Hi0 Hi1 Hp1 Hfr) as (j & Hd & Hrec & Hr1 & Hnr).
    apply (IH fuel ev1 css1 (j :: rs)); [done| | |simpl; lia|lia].
    + apply NoDup_cons. split; [|done]. intros (_ & _ & Hr)%Hrs. apply Hnr.
      destruct j; simpl in *; done.
    + intros j' [->|(? & ? & Hr)%Hrs]%elem_of_cons; [done|]. split_and!; [done..|].
      eapply realised_mono; [exact Hp1|exact Hx1|]. destruct j'; done.
  - exists ev1, css1. split; [done|]. split; [done|]. intros cs [j Hj]%list_elem_of_lookup.
    apply (H1 ev1 css1) with (j := j); [|lia|done]. split; [done|done|apply ext_refl|done].
Qed.
End bounded.

(** ** Saturated states have every derivable judgement *)

Definition holds_in (ev : Eval) (css : list CallString) (j : Judgement) : Prop :=
  match j with
  | J_live cs => cs ∈ css
  | J_call cs bb k span rets args n => cs ∈ css /\ exists st style, stmt_at programs cs bb k = Some st /\
      kind st = CallAssign style rets args /\ span = source_info st /\ reaches_name ev css cs style n
  | J_assign a d cs e => assign_closed ev css a d cs e
  | J_hold a p l s => held ev css a p l s
  | J_observe cs ap site => observe_closed ev css cs ap site
  | J_observed o => o ∈ observed (out ev)
  end.

Section complete.
Variables B D : nat -> Prop.
Variable ev : Eval.
Variable css : list CallString.
Hypothesis Hsat : saturated ev css.
(** Either the bounds are the evaluator's, or none was reached. *)
Hypothesis Hbounds : (forall n, B n -> within_path n) /\ (forall n, D n -> within_depth n) \/ truncated (out ev) = false.

Lemma settled_held a p l s : settled ev css a p l s -> location B p -> held ev css a p l s.
Proof.
  intros Hs [Hc Hb]. destruct (Hs Hc) as [?|[Ht Hl]]; [done|]. exfalso.
  destruct Hbounds as [[Hp _]|?]; [|congruence]. apply Hp in Hb. unfold within_path in Hb. lia.
Qed.

Lemma call_closed cs bb k span rets args n : holds_in ev css (J_call cs bb k span rets args n) ->
  name_closed ev css cs bb k span rets args n.
Proof.
  intros (Hcs & st & style & Hst & Hk & -> & Hn). destruct Hsat as [Hi Hcl].
  destruct (live_function _ _ _ (inv_live _ _ Hi _ Hcs)) as [f Hf]. destruct (Hcl cs Hcs f Hf) as (_ & _ & Hs).
  specialize (Hs bb k st Hst). unfold stmt_closed in Hs. rewrite Hk in Hs. by apply Hs.
Qed.

Lemma call_instantiated cs bb k span rets args n cp cf : holds_in ev css (J_call cs bb k span rets args n) ->
  n ∉ sources ports -> n ∉ sinks ports -> eval_by_name programs !! n = Some (cp, cf) -> D (S (cs_depth cs)) ->
  cs_call cs (bb, k, cp, cf) ∈ css /\ forall f, function_at programs (cs_call cs (bb, k, cp, cf)) = Some f ->
     (forall idx e, args !! idx = Some e -> idx < num_parameters f ->
        assign_closed ev css (A_Instance (cs_call cs (bb, k, cp, cf)), new_parameter idx) [] cs e) /\
     (forall ret j r e a, ret ∈ returns_of f -> rets !! j = Some r -> ret !! j = Some e -> abs_var programs cs r = Some a ->
        assign_closed ev css a [] (cs_call cs (bb, k, cp, cf)) e).
Proof.
  intros Hc%call_closed H1 H2 Hn Hd. destruct Hc as (_ & _ & Hc). destruct (Hc H1 H2 _ _ Hn) as [[Ht Hlt]|?]; [|done].
  exfalso. destruct Hbounds as [[_ Hdd]|?]; [|congruence]. apply Hdd in Hd. unfold within_depth in Hd. lia.
Qed.

Lemma derives_holds j : derives programs ports B D j -> holds_in ev css j.
Proof.
  induction 1 as [p i f Hb|cs bb k span rets args n cp cf _ IH H1 H2 Hn Hd|cs bb k st names rets args n _ IH Hst Hk Hn
    |cs bb k st callee sg rets args n a p s _ IH Hst Hk Ha Hp _ IHh|cs bb k st dest srcs e a _ IH Hst Hk He Ha
    |cs bb k st dest ops b op' a _ IH Hst Hk Ho Ha|cs bb k span rets args n cp cf f idx e _ IH H1 H2 Hn Hd Hf He Hidx
    |cs bb k span rets args n cp cf f ret j r e a _ IH H1 H2 Hn Hd Hf Hret Hr He Ha
    |cs f sd a p _ IH Hf Hsd Hn Ha Hp Hloc|cs bb k span r rets args n a p _ IH Hn Ha Hp Hloc
    |a d cs e l _ IH Hl Hloc|a p l _ IH|a d0 cs e d ap store a' p l sc t _ IH1 Hfl Ha Hv1 Hv2 _ IH2 Ht Hloc
    |a d0 cs e d ap store a' q l t _ IH1 Hfl Ha Hv1 Hv2 _ IH2 Ht Ht1 Ht2 Hloc|cs f o _ IH Hf Ho Hn
    |cs bb k span rets args n ap _ IH H1 Hn Hap|cs ap site f a p t s _ IH1 Hf Ha Hp _ IH2].
  - by eapply (inv_roots _ _ (proj1 Hsat)).
  - by eapply call_instantiated.
  - split; [done|]. exists st, (DirectCall (Explicit names)). done.
  - split; [done|]. exists st, (FuncPtrCall callee sg). split_and!; [done..|]. exists a, p, s. done.
  - destruct Hsat as [Hi Hcl]. destruct (live_function _ _ _ (inv_live _ _ Hi _ IH)) as [f Hf].
    destruct (Hcl cs IH f Hf) as (_ & _ & Hs). specialize (Hs bb k st Hst). unfold stmt_closed in Hs. rewrite Hk in Hs. by apply Hs.
  - destruct Hsat as [Hi Hcl]. destruct (live_function _ _ _ (inv_live _ _ Hi _ IH)) as [f Hf].
    destruct (Hcl cs IH f Hf) as (_ & _ & Hs). specialize (Hs bb k st Hst). unfold stmt_closed in Hs. rewrite Hk in Hs. by eapply Hs.
  - destruct (call_instantiated _ _ _ _ _ _ _ _ _ IH H1 H2 Hn Hd) as [_ Hc]. by apply (Hc f Hf).
  - destruct (call_instantiated _ _ _ _ _ _ _ _ _ IH H1 H2 Hn Hd) as [_ Hc]. by eapply (proj2 (Hc f Hf)).
  - destruct Hsat as [Hi Hcl]. destruct (Hcl cs IH f Hf) as (Hs & _ & _). eapply settled_held; [by eapply Hs|done].
  - apply call_closed in IH as [Hs _]. eapply settled_held; [by eapply (Hs Hn)|done].
  - destruct IH as [_ Hc]. eapply settled_held; [by apply Hc|done].
  - destruct IH as (v & Hv & s' & Hl & Hs). exists v. split; [done|]. exists s'. split; [done|]. by destruct s'.
  - destruct IH1 as [Hc _]. destruct (Hc _ _ _ _ Hfl Ha Hv1 Hv2) as [Hf _]. eapply settled_held; [by eapply Hf|done].
  - destruct IH1 as [Hc _]. destruct (Hc _ _ _ _ Hfl Ha Hv1 Hv2) as [_ Hb]. eapply settled_held; [by eapply Hb|done].
  - destruct Hsat as [Hi Hcl]. destruct (Hcl cs IH f Hf) as (_ & Hob & _). by apply Hob.
  - apply call_closed in IH as (_ & Hs & _). by eapply Hs.
  - by eapply IH1.
Qed.
End complete.
End saturation.

(** ** The initial state and more fuel *)

Section evaluate.
Variable programs : list Program.
Variable ports : Ports.
Variable config : Config.

Definition roots : list CallString := map (fun '(p, i, _) => mk_cs [] (p, i)) (bodies programs).

Lemma NoDup_bodies : NoDup (bodies programs).
Proof.
  unfold bodies. apply NoDup_bind; [| |apply NoDup_enumerate].
  - intros [p1 pr1] [p2 pr2] [[p i] f] H1%elem_of_enumerate H2%elem_of_enumerate.
    intros ([i1 f1] & _ & E1)%list_elem_of_omap ([i2 f2] & _ & E2)%list_elem_of_omap. repeat case_decide; simplify_eq. done.
  - intros [p pr] _. apply NoDup_omap; [|apply NoDup_enumerate].
    intros [i1 f1] [i2 f2] b _ _ E1 E2. repeat case_decide; simplify_eq. done.
Qed.

Lemma NoDup_roots : NoDup roots.
Proof.
  unfold roots. apply NoDup_fmap_2_strong; [|apply NoDup_bodies].
  intros [[p i] f] [[p' i'] f'] (pr & Hp & Hi & _)%elem_of_bodies (pr' & Hp' & Hi' & _)%elem_of_bodies [= -> ->].
  by simplify_eq.
Qed.

Lemma inv_new : Inv programs ports config (Eval_new programs) roots.
Proof.
  assert (forall cs, cs ∈ roots -> exists p i f, cs = mk_cs [] (p, i) /\ (p, i, f) ∈ bodies programs) as Hroots.
  { intros cs ([[p i] f] & -> & Hb)%elem_of_map. eauto. }
  split; simpl.
  - unfold roots. by rewrite !length_map.
  - apply NoDup_roots.
  - intros i I. unfold roots. rewrite !lookup_map. destruct (bodies programs !! i) as [[[p j] f]|]; [|done].
    intros [= <-]. exists (mk_cs [] (p, j)). split_and!; [done..|]. intros key c. simpl. by rewrite lookup_empty.
  - intros cs key (p & i & f & [=] & _)%Hroots.
  - intros cs (p & i & f & -> & Hb)%Hroots. by eapply d_root.
  - intros p i f Hb. apply elem_of_map. by exists (p, i, f).
  - intros v p l s. unfold lab. simpl. by rewrite lookup_empty.
  - intros o. set_solver.
Qed.

Lemma sweep_fuel fuel : forall fuel' i ev ev', fuel <= fuel' -> sweep programs ports config fuel i ev = Ret ev' ->
  sweep programs ports config fuel' i ev = Ret ev'.
Proof.
  induction fuel as [|fuel IH]; intros [|fuel'] i ev ev' Hle; simpl; try done; [lia|].
  case_decide; [|done]. destruct (eval_step _ _ _ ev i); simpl; try done. apply IH. lia.
Qed.

Lemma run_fuel fuel : forall fuel' ev ev', fuel <= fuel' -> run programs ports config fuel ev = Ret ev' ->
  run programs ports config fuel' ev = Ret ev'.
Proof.
  induction fuel as [|fuel IH]; intros [|fuel'] ev ev' Hle; cbn [run]; try done; [lia|].
  destruct (sweep _ _ _ (S fuel) 0 _) as [ev1| |] eqn:E; [|done..].
  rewrite (sweep_fuel (S fuel) (S fuel') _ _ _ Hle E). cbn [mbind outcome_bind].
  destruct (changed ev1); [|done]. apply IH. lia.
Qed.

Lemma evaluate_fuel fuel fuel' oc : fuel <= fuel' -> evaluate_programs programs ports config fuel = Ret oc ->
  evaluate_programs programs ports config fuel' = Ret oc.
Proof.
  unfold evaluate_programs. destruct (run _ _ _ fuel _) as [ev| |] eqn:E; [|done..]. intros Hle.
  by rewrite (run_fuel fuel fuel' _ _ Hle E).
Qed.

Lemma run_saturates : globals_in_range programs ports ->
  exists fuel0 ev css, (forall fuel, fuel0 <= fuel -> run programs ports config fuel (Eval_new programs) = Ret ev) /\
    saturated programs ports config ev css.
Proof.
  intros Hwf. destruct (finite_judgements programs ports (path_bound config) (depth config)) as [js Hjs].
  destruct (run_spec programs ports config Hwf js Hjs (S (length js)) (2 * length js + 2) (Eval_new programs) roots [])
    as (ev & css & E & Hs); [apply inv_new|constructor|set_solver|simpl; lia|lia|].
  exists (2 * length js + 2), ev, css. split; [|done]. intros fuel Hle. by eapply run_fuel.
Qed.

Lemma derives_mono (B D B' D' : nat -> Prop) j : (forall n, B n -> B' n) -> (forall n, D n -> D' n) ->
  derives programs ports B D j -> derives programs ports B' D' j.
Proof. intros HB HD. induction 1; unfold location in *; econstructor; unfold location; naive_solver. Qed.
End evaluate.

(** ** The theorems *)

(** C1: The evaluator terminates and computes the least labeling.  On programs whose global
    references are in range, [Eval::run] returns (with the same result for all large enough
    fuel), never panicking; and for a numbering [css] of its instances by call strings, the
    instances are exactly the live instances of the unfolding, each once, and the labels in its
    cells, with their scopes, are exactly those derivable by the rules within the path and depth
    bounds. *)
Theorem evaluate_least_labeling (programs : list Program) (ports : Ports) (config : Config) :
  globals_in_range programs ports ->
  exists fuel0 ev css,
    (forall fuel, fuel0 <= fuel -> run programs ports config fuel (Eval_new programs) = Ret ev) /\
    NoDup css /\ length css = length (instances ev) /\
    (forall cs, cs ∈ css <-> derives programs ports (within_path config) (within_depth config) (J_live cs)) /\
    (forall a p l s, held ev css a p l s <->
       derives programs ports (within_path config) (within_depth config) (J_hold a p l s)).
Proof.
  intros Hwf. destruct (run_saturates programs ports config Hwf) as (fuel0 & ev & css & Hrun & Hsat).
  exists fuel0, ev, css. pose proof (proj1 Hsat) as Hi. split_and!; [done|apply Hi|apply Hi|intros cs|intros a p l s]; split.
  - apply (inv_live _ _ _ _ _ Hi).
  - apply (derives_holds _ _ _ _ _ _ _ Hsat). by left.
  - intros (v & Ha & Hl). by eapply inv_labelled.
  - apply (derives_holds _ _ _ _ _ _ _ Hsat). by left.
Qed.

(** C2: The evaluator's observations are the semantics'.  On programs whose global references
    are in range, [evaluate_programs] returns, its observations are exactly the observable of
    the bounded rules, and when [Outcome::truncated] is unset they are exactly the observable of
    the rules without any bound: a missing observation then is one that is not derivable. *)
Theorem evaluate_observed (programs : list Program) (ports : Ports) (config : Config) :
  globals_in_range programs ports ->
  exists fuel0 oc,
    (forall fuel, fuel0 <= fuel -> evaluate_programs programs ports config fuel = Ret oc) /\
    (forall o, o ∈ observed oc <->
       derives programs ports (within_path config) (within_depth config) (J_observed o)) /\
    (truncated oc = false -> forall o, o ∈ observed oc <->
       derives programs ports (fun _ => True) (fun _ => True) (J_observed o)).
Proof.
  intros Hwf. destruct (run_saturates programs ports config Hwf) as (fuel0 & ev & css & Hrun & Hsat).
  exists fuel0, (out ev). pose proof (proj1 Hsat) as Hi. split_and!.
  - intros fuel Hle. unfold evaluate_programs. by rewrite (Hrun fuel Hle).
  - intros o. split; [apply (inv_obs _ _ _ _ _ Hi)|]. apply (derives_holds _ _ _ _ _ _ _ Hsat). by left.
  - intros Ht o. split; [|apply (derives_holds _ _ _ _ _ _ _ Hsat); by right].
    intros Ho%(inv_obs _ _ _ _ _ Hi). by eapply derives_mono; [| |exact Ho].
Qed.

(** [id(x) = x; main() { a = source(k); b = id(a); sink(b) }]. *)
Definition demo_id : FunctionData :=
  {| name := "id"; params := [Copied]; arity := 1;
     blocks := [{| statements := [];
                   terminator := Some (term_new_kind (Return [Exp_variable (new_parameter 0)])) |}];
     locals := Locals_default |}.
Definition demo_call (f : string) (rets : list VariableRef) (args : list Exp) : Statement :=
  new_kind (CallAssign (DirectCall (Explicit [f])) rets args).
Definition demo_main : FunctionData :=
  {| name := "main"; params := []; arity := 0;
     blocks := [{| statements := [demo_call "source" [new_local_idx 0] [Exp_Str "k"];
                                  demo_call "id" [new_local_idx 1] [Exp_variable (new_local_idx 0)];
                                  demo_call "sink" [] [Exp_variable (new_local_idx 1)]];
                   terminator := Some (term_new_kind (Return [])) |}];
     locals := Locals_default |}.
Definition demo_program : Program := {| functions := [demo_id; demo_main]; globals := Globals_default |}.
Definition demo_ports : Ports := {| sources := {[ "source" ]}; sinks := {[ "sink" ]}; seeds := []; observers := [] |}.

Lemma demo_in_range : globals_in_range [demo_program] demo_ports.
Proof.
  intros p program i f v idx Hp Hf Hv Hg. exfalso. destruct p as [|p]; [|by destruct p]. simplify_eq/=.
  do 2 (destruct i as [|i]; [simplify_eq/=; vm_compute in Hv;
    repeat (apply elem_of_cons in Hv as [->|Hv]; [discriminate Hg|]); by apply elem_of_nil in Hv|]).
  done.
Qed.

Lemma evaluate_observed_witness :
  derives [demo_program] demo_ports (fun _ => True) (fun _ => True)
    (J_observed {| o_function := "main"; o_site := "sink(_)@0"; o_label := "k" |}).
Proof.
  destruct (evaluate_observed [demo_program] demo_ports Config_default demo_in_range) as (fuel0 & oc & Hrun & _ & Hoc).
  assert (exists oc', evaluate_programs [demo_program] demo_ports Config_default 40 = Ret oc' /\ truncated oc' = false /\
            {| o_function := "main"; o_site := "sink(_)@0"; o_label := "k" |} ∈ observed oc') as (oc' & E & Ht & Ho).
  { eexists. split; [vm_compute; reflexivity|]. split; [reflexivity|by_decide]. }
  specialize (Hrun (40 + fuel0) ltac:(lia)). apply (evaluate_fuel _ _ _ 40 (40 + fuel0)) in E; [|lia].
  rewrite Hrun in E. injection E as ->. by apply (Hoc Ht).
Defined.

Lemma evaluate_least_labeling_witness :
  exists css : list CallString, forall cs, cs ∈ css <->
    derives [demo_program] demo_ports (within_path Config_default) (within_depth Config_default) (J_live cs).
Proof.
  destruct (evaluate_least_labeling [demo_program] demo_ports Config_default demo_in_range) as (_ & _ & css & _ & _ & _ & H & _).
  by exists css.
Defined.
