(* ===== verification/Verify.v ===== *)
(** * Verify: the IR verifier ([ctadl-ir/src/cir/verify.rs], [cir/visit/mod.rs])

    [CirVerify] is a visitor that accumulates errors while it walks a program.  The [visit_*]
    methods it overrides and the [super_*] traversals they call are state-passing functions
    here, from the leaves up; [unwrap] and [panic!] of the verifier's own bookkeeping panic.
    An error that carries a printed access path or variable keeps the access path or variable.

    The theorems say that a program verifies exactly when it is well formed, declaratively, and
    that the evaluator is total on a program that verifies. *)

From S2P Require Import Prelude Index Text Path PathSyntax IR Semantics Unfolding Saturation.

Record Location_ : Type := { loc_function : nat; loc_block : nat; statement_index : nat }.

Inductive VerifyError : Type :=
| UnnamedFunction (index : nat)
| MultiplyDefinedFunction (index : nat)
| ParameterDoesNotExist (function : string) (parameter : nat)
| LocalDoesNotExist (function : string) (local : nat)
| BlockDoesNotExist (function : string) (block target : nat)
| InconsistentReturns (function : string) (expected_arity actual_arity : nat)
| VariableRefOutsideFunction
| NoTerminator (function block : nat)
| EmptyGoto (function : string) (location : Location_)
| NotNormal (function : string) (location : Location_) (p : AccessPath)
| VoidPath (function : string) (location : Location_) (p : AccessPath)
| AddressDestination (function : string) (location : Location_) (p : AccessPath)
| MisplacedValue (function : string) (location : Location_)
| GlobalOutOfRange (function : string) (global : nat)
| VersionedGlobal (function : string) (global version : nat)
| CopyIntoGlobal (function : string) (location : Location_) (global : VariableRef)
| CallResultIntoGlobal (function : string) (location : Location_) (global : VariableRef)
| PhiOverGlobal (function : string) (location : Location_) (global : VariableRef)
| ValueSpelledAsField (function : string) (location : Location_) (p : AccessPath)
| StoreDefinesBase (function : string) (location : Location_) (base : VariableRef).

Record CirVerify : Type := mk_verify {
  error : list VerifyError;
  v_name : string;
  num_blocks : option nat;
  params_len : option nat;
  locals_len : option nat;
  return_arity : option nat;
  globals_len : option nat;
  defines : gset string;
}.

Definition CirVerify_default : CirVerify := mk_verify [] "" None None None None None ∅.

(** ** The visitor *)

Definition add_errors (st : CirVerify) (es : list VerifyError) : CirVerify :=
  mk_verify (error st ++ es) (v_name st) (num_blocks st) (params_len st) (locals_len st) (return_arity st)
    (globals_len st) (defines st).
Definition add_error (st : CirVerify) (e : VerifyError) : CirVerify := add_errors st [e].

(** [if b { self.add_error(e) }]. *)
Definition error_if (b : bool) (e : VerifyError) (st : CirVerify) : CirVerify := if b then add_error st e else st.

Definition take_error (st : CirVerify) : CirVerify * result (list VerifyError) unit :=
  (CirVerify_default, if decide (error st = []) then Ok tt else Err (error st)).

Definition is_value_field (s : PathSegment) : bool :=
  match s with Field f => bool_decide (f = VALUE) | _ => false end.

Definition check_access_path (st : CirVerify) (ap : AccessPath) (location : Location_) : CirVerify :=
  let st := error_if (negb (is_normal (segments ap))) (NotNormal (v_name st) location ap) st in
  let st := error_if (bool_decide (classify (segments ap) = Void)) (VoidPath (v_name st) location ap) st in
  error_if (existsb is_value_field (segments ap)) (ValueSpelledAsField (v_name st) location ap) st.

Definition is_exp_value (e : Exp) : bool := match e with Exp_Value _ => true | _ => false end.

Definition check_exp (st : CirVerify) (e : Exp) (value_ok : bool) (location : Location_) : CirVerify :=
  let st := match access_path e with Some ap => check_access_path st ap location | None => st end in
  error_if (is_exp_value e && negb value_ok) (MisplacedValue (v_name st) location) st.

(** The destination of a store whose base is a versioned reference that nothing defines. *)
Definition bad_store_base (defined : gset VariableRef) (k : StatementKind) : option VariableRef :=
  match k with
  | Assign dest _ =>
      if negb (is_pathless dest) &&
         match version (base dest) with Some v => bool_decide (v <> 0) | None => false end &&
         negb (bool_decide (base dest ∈ defined))
      then Some (base dest) else None
  | _ => None
  end.

Definition check_store_bases (st : CirVerify) (idx : nat) (data : FunctionData) : CirVerify :=
  let defined : gset VariableRef :=
    list_to_set (blocks data ≫= fun b => statements b ≫= fun s => iter_dst_var (kind s)) in
  foldl (fun st '(bb, block) =>
      foldl (fun st '(i, s) =>
          match bad_store_base defined (kind s) with
          | Some b => add_error st (StoreDefinesBase (name data) {| loc_function := idx; loc_block := bb; statement_index := i |} b)
          | None => st
          end) st (enumerate (statements block)))
    st (enumerate (blocks data)).

Definition visit_variable_ref (st : CirVerify) (v : VariableRef) : outcome CirVerify :=
  match params_len st with
  | None => Ret (add_error st VariableRefOutsideFunction)
  | Some params_len =>
      let st := match variable v with
                | Variable_Param idx => error_if (bool_decide (params_len <= idx)) (ParameterDoesNotExist (v_name st) idx) st
                | _ => st
                end in
      let st := match variable v with
                | Variable_Global idx =>
                    let st := error_if (match globals_len st with Some len => bool_decide (len <= idx) | None => false end)
                                (GlobalOutOfRange (v_name st) idx) st in
                    match version v with Some n => add_error st (VersionedGlobal (v_name st) idx n) | None => st end
                | _ => st
                end in
      match variable v with
      | Variable_Local idx =>
          len ← unwrap (locals_len st);
          Ret (error_if (bool_decide (len <= idx)) (LocalDoesNotExist (v_name st) idx) st)
      | _ => Ret st
      end
  end.

(** [super_access_path], [super_exp] and [super_call_style] are not overridden. *)
Definition visit_access_path (st : CirVerify) (ap : AccessPath) : outcome CirVerify := visit_variable_ref st (base ap).

Definition visit_exp (st : CirVerify) (e : Exp) : outcome CirVerify :=
  match e with
  | Exp_Path ap | Exp_Value ap => visit_access_path st ap
  | Exp_Bytes _ | Exp_Int _ | Exp_Str _ | Exp_ObjectRef _ => Ret st
  end.

Definition visit_call_style (st : CirVerify) (style : CallStyle) : outcome CirVerify :=
  match style with
  | DirectCall _ => Ret st
  | FuncPtrCall callee _ => visit_access_path st callee
  | JavaCall receiver _ _ _ _ _ => visit_variable_ref st receiver
  | LuaCall receiver _ => visit_variable_ref st receiver
  | CilCall receiver _ _ _ => visit_variable_ref st receiver
  | Unknown => Ret st
  end.

Definition super_statement_kind (st : CirVerify) (k : StatementKind) : outcome CirVerify :=
  match k with
  | Assign dest srcs => st ← foldM visit_exp st srcs; visit_access_path st dest
  | CallAssign style rets args =>
      st ← visit_call_style st style;
      st ← foldM visit_exp st args;
      foldM visit_variable_ref st rets
  | Phi dest operands =>
      st ← visit_variable_ref st dest;
      foldM (fun st '(_, op) => visit_variable_ref st op) st operands
  | Nop => Ret st
  end.

(** What [visit_statement_kind] checks after the traversal. *)
Definition check_statement_kind (st : CirVerify) (k : StatementKind) (location : Location_) : CirVerify :=
  match k with
  | Assign dest srcs =>
      let st := check_access_path st dest location in
      let st := error_if (bool_decide (classify (segments dest) = Address)) (AddressDestination (v_name st) location dest) st in
      let st := error_if (is_pathless dest && is_global (variable (base dest))) (CopyIntoGlobal (v_name st) location (base dest)) st in
      foldl (fun st e => check_exp st e true location) st srcs
  | CallAssign style rets args =>
      let st := foldl (fun st e => check_exp st e false location) st args in
      let st := match style with FuncPtrCall callee _ => check_access_path st callee location | _ => st end in
      foldl (fun st r => add_error st (CallResultIntoGlobal (v_name st) location r)) st
        (filter (fun r => is_global (variable r) = true) rets)
  | Phi dest operands =>
      match list_find (fun v => is_global (variable v) = true) (dest :: map snd operands) with
      | Some (_, global) => add_error st (PhiOverGlobal (v_name st) location global)
      | None => st
      end
  | Nop => st
  end.

Definition visit_statement_kind (st : CirVerify) (k : StatementKind) (location : Location_) : outcome CirVerify :=
  st ← super_statement_kind st k; Ret (check_statement_kind st k location).

Definition super_terminator_kind (st : CirVerify) (k : TerminatorKind) : outcome CirVerify :=
  match k with Return args => foldM visit_exp st args | Goto _ => Ret st end.

Definition visit_terminator_kind (st : CirVerify) (k : TerminatorKind) (location : Location_) : outcome CirVerify :=
  st ← super_terminator_kind st k;
  match k with
  | Return args =>
      let st := foldl (fun st e => check_exp st e false location) st args in
      arity ← unwrap (return_arity st);
      Ret (error_if (bool_decide (length args <> arity)) (InconsistentReturns (v_name st) arity (length args)) st)
  | Goto targets =>
      if decide (targets = []) then Ret (add_error st (EmptyGoto (v_name st) location))
      else foldM (fun st target =>
             n ← unwrap (num_blocks st);
             Ret (error_if (bool_decide (n <= target)) (BlockDoesNotExist (v_name st) (loc_block location) target) st)) st targets
  end.

Definition super_basic_block_data (st : CirVerify) (function block : nat) (data : BasicBlockData) : outcome CirVerify :=
  st ← foldM (fun st '(i, s) => visit_statement_kind st (kind s) {| loc_function := function; loc_block := block; statement_index := i |})
         st (enumerate (statements data));
  match terminator data with
  | Some t => visit_terminator_kind st (term_kind t)
                {| loc_function := function; loc_block := block; statement_index := length (statements data) |}
  | None => Ret st
  end.

Definition visit_basic_block_data (st : CirVerify) (function block : nat) (data : BasicBlockData) : outcome CirVerify :=
  st ← super_basic_block_data st function block data;
  Ret (error_if (bool_decide (terminator data = None)) (NoTerminator function block) st).

(** Parameters and return types have nothing to visit. *)
Definition super_function_data (st : CirVerify) (idx : nat) (data : FunctionData) : outcome CirVerify :=
  foldM (fun st '(bb, block) => visit_basic_block_data st idx bb block) st (enumerate (blocks data)).

Definition visit_function_data (st : CirVerify) (idx : nat) (data : FunctionData) : outcome CirVerify :=
  let st := error_if (bool_decide (name data = "")) (UnnamedFunction idx) st in
  let st := error_if (bool_decide (name data ∈ defines st)) (MultiplyDefinedFunction idx) st in
  let st := mk_verify (error st) (name data) (Some (length (blocks data))) (Some (num_parameters data))
              (Some (length (decls (locals data)))) (Some (arity data)) (globals_len st) ({[ name data ]} ∪ defines st) in
  st ← super_function_data st idx data;
  let st := check_store_bases st idx data in
  Ret (mk_verify (error st) "" None None None None (globals_len st) (defines st)).

Definition visit_program (st : CirVerify) (program : Program) : outcome CirVerify :=
  let st := mk_verify (error st) (v_name st) (num_blocks st) (params_len st) (locals_len st) (return_arity st)
              (Some (length (gdecls (globals program)))) (defines st) in
  foldM (fun st '(idx, data) => visit_function_data st idx data) st (enumerate (functions program)).

(** [Program::verify], [FunctionData::verify] and [Program::verify_function]. *)
Definition verify (program : Program) : outcome (result (list VerifyError) unit) :=
  st ← visit_program CirVerify_default program; Ret (snd (take_error st)).
Definition FunctionData_verify (f : FunctionData) : outcome (result (list VerifyError) unit) :=
  st ← visit_function_data CirVerify_default 0 f; Ret (snd (take_error st)).
Definition verify_function (program : Program) (idx : nat) : outcome (result (list VerifyError) unit) :=
  f ← iv_index (functions program) idx;
  st ← visit_function_data CirVerify_default idx f; Ret (snd (take_error st)).

(** ** Well-formed programs, declaratively *)

Section well_formed.
Variable f : FunctionData.
(** The number of globals of the program, when there is one. *)
Variable G : option nat.

Definition path_wf (ap : AccessPath) : Prop :=
  normalize (segments ap) = segments ap /\ classify (segments ap) <> Void /\ Field VALUE ∉ segments ap.

Definition var_wf (v : VariableRef) : Prop :=
  match variable v with
  | Variable_Param i => i < num_parameters f
  | Variable_Local i => i < length (decls (locals f))
  | Variable_Global i => (forall n, G = Some n -> i < n) /\ version v = None
  end.

Definition exp_wf (e : Exp) : Prop := forall ap, access_path e = Some ap -> path_wf ap.
Definition operand_wf (e : Exp) : Prop := exp_wf e /\ forall ap, e <> Exp_Value ap.

Definition kind_wf (k : StatementKind) : Prop :=
  Forall var_wf (iter_src_var k ++ iter_dst_var k) /\
  match k with
  | Assign dest srcs =>
      path_wf dest /\ classify (segments dest) <> Address /\
      ~ (segments dest = [] /\ is_global (variable (base dest)) = true) /\ Forall exp_wf srcs
  | CallAssign style rets args =>
      Forall operand_wf args /\ (forall callee sg, style = FuncPtrCall callee sg -> path_wf callee) /\
      Forall (fun r => is_global (variable r) = false) rets
  | Phi dest ops => Forall (fun v => is_global (variable v) = false) (dest :: map snd ops)
  | Nop => True
  end.

Definition term_wf (k : TerminatorKind) : Prop :=
  match k with
  | Return args => Forall var_wf (omap base_variable args) /\ Forall operand_wf args /\ length args = arity f
  | Goto targets => targets <> [] /\ Forall (fun t => t < length (blocks f)) targets
  end.

Definition block_wf (b : BasicBlockData) : Prop :=
  Forall (fun s => kind_wf (kind s)) (statements b) /\ exists t, terminator b = Some t /\ term_wf (term_kind t).

Definition definitions_of : list VariableRef := blocks f ≫= fun b => statements b ≫= fun s => iter_dst_var (kind s).

(** A store's base is unversioned, the incoming version, or defined in the function. *)
Definition store_wf (k : StatementKind) : Prop :=
  match k with
  | Assign dest _ => segments dest <> [] -> forall v, version (base dest) = Some v -> v <> 0 -> base dest ∈ definitions_of
  | _ => True
  end.

Definition function_wf : Prop :=
  name f <> "" /\ Forall block_wf (blocks f) /\
  Forall (fun b => Forall (fun s => store_wf (kind s)) (statements b)) (blocks f).
End well_formed.

Definition program_wf (p : Program) : Prop :=
  NoDup (map name (functions p)) /\ Forall (fun f => function_wf f (Some (length (gdecls (globals p))))) (functions p).

(** ** Checks

    [checks C f P]: from a state satisfying [C], [f] returns, does nothing but append errors,
    and appends none exactly when [P] holds. *)

Definition checks (C : CirVerify -> Prop) (f : CirVerify -> outcome CirVerify) (P : Prop) : Prop :=
  forall st, C st -> exists es, f st = Ret (add_errors st es) /\ (es = [] <-> P).

Lemma add_errors_nil st : add_errors st [] = st.
Proof. destruct st. unfold add_errors. simpl. by rewrite app_nil_r. Qed.

Lemma add_errors_app st es es' : add_errors (add_errors st es) es' = add_errors st (es ++ es').
Proof. unfold add_errors. simpl. by rewrite app_assoc. Qed.

Section checks.
Variable C : CirVerify -> Prop.
Hypothesis HC : forall st es, C st -> C (add_errors st es).

Lemma checks_ret : checks C (fun st => Ret st) True.
Proof. intros st _. exists []. by rewrite add_errors_nil. Qed.

Lemma checks_iff f P Q : checks C f P -> (P <-> Q) -> checks C f Q.
Proof. intros Hf HPQ st Hc. destruct (Hf st Hc) as (es & ? & ?). exists es. split; [done|]. by rewrite <- HPQ. Qed.

Lemma checks_seq f g P Q : checks C f P -> checks C g Q -> checks C (fun st => st ← f st; g st) (P /\ Q).
Proof.
  intros Hf Hg st Hc. destruct (Hf st Hc) as (es & -> & H1). destruct (Hg (add_errors st es) (HC _ _ Hc)) as (es' & E & H2).
  exists (es ++ es'). cbn [mbind outcome_bind]. rewrite E, add_errors_app. split; [done|]. rewrite app_nil. naive_solver.
Qed.

Lemma checks_then (f g : CirVerify -> CirVerify) P Q :
  checks C (fun st => Ret (f st)) P -> checks C (fun st => Ret (g st)) Q -> checks C (fun st => Ret (g (f st))) (P /\ Q).
Proof. exact (checks_seq (fun st => Ret (f st)) (fun st => Ret (g st)) P Q). Qed.

Lemma checks_foldM {A} (f : CirVerify -> A -> outcome CirVerify) (P : A -> Prop) (l : list A) :
  (forall x, x ∈ l -> checks C (fun st => f st x) (P x)) -> checks C (fun st => foldM f st l) (Forall P l).
Proof.
  induction l as [|x l IH]; intros Hf; [eapply checks_iff; [apply checks_ret|]; by rewrite Forall_nil|].
  eapply checks_iff; [apply (checks_seq (fun st => f st x)); [apply Hf; set_solver|apply IH; set_solver]|].
  by rewrite Forall_cons.
Qed.

Lemma checks_foldl {A} (f : CirVerify -> A -> CirVerify) (P : A -> Prop) (l : list A) :
  (forall x, x ∈ l -> checks C (fun st => Ret (f st x)) (P x)) -> checks C (fun st => Ret (foldl f st l)) (Forall P l).
Proof.
  intros Hf st Hc. destruct (checks_foldM (fun st x => Ret (f st x)) P l Hf st Hc) as (es & E & Hes).
  exists es. split; [|done]. rewrite <- E. clear. revert st. induction l as [|x l IH]; intros st; simpl; [done|apply IH].
Qed.

Lemma checks_error_if b e : checks C (fun st => Ret (error_if b (e st) st)) (b = false).
Proof.
  intros st _. unfold error_if. destruct b; [by exists [e st]|]. exists []. by rewrite add_errors_nil.
Qed.

Lemma checks_add_error e : checks C (fun st => Ret (add_error st (e st))) False.
Proof. intros st _. by exists [e st]. Qed.
End checks.

Section visit.
Variable f : FunctionData.
Variable G : option nat.

Definition in_function (st : CirVerify) : Prop :=
  num_blocks st = Some (length (blocks f)) /\ params_len st = Some (num_parameters f) /\
  locals_len st = Some (length (decls (locals f))) /\ return_arity st = Some (arity f) /\ globals_len st = G.

Lemma in_function_add st es : in_function st -> in_function (add_errors st es).
Proof. done. Qed.

Notation chk := (checks in_function).

Lemma chk_var v : chk (fun st => visit_variable_ref st v) (var_wf f G v).
Proof.
  intros st (Hb & Hp & Hl & Hr & Hg). unfold visit_variable_ref, var_wf. rewrite Hp. destruct (variable v) as [i|i|i] eqn:Ev.
  - unfold error_if. rewrite Hg. destruct G as [n|]; [destruct (bool_decide (n <= i)) eqn:En|].
    + apply bool_decide_eq_true in En. destruct (version v) as [k|].
      * exists [GlobalOutOfRange (v_name st) i; VersionedGlobal (v_name st) i k]. unfold add_error. rewrite add_errors_app.
        split; [done|]. naive_solver.
      * eexists [_]. split; [reflexivity|]. split; [done|]. intros [H _]. specialize (H n eq_refl). lia.
    + apply bool_decide_eq_false in En. destruct (version v) as [k|].
      * eexists [_]. split; [reflexivity|]. naive_solver.
      * exists []. rewrite add_errors_nil. split; [done|]. split; [|done]. intros _. split; [|done]. intros ? [= <-]. lia.
    + destruct (version v) as [k|].
      * eexists [_]. split; [reflexivity|]. naive_solver.
      * exists []. rewrite add_errors_nil. done.
  - rewrite Hl. cbn [unwrap mbind outcome_bind]. unfold error_if. case_bool_decide.
    + eexists [_]. split; [reflexivity|]. split; [done|lia].
    + exists []. rewrite add_errors_nil. split; [done|]. split; [lia|done].
  - unfold error_if. case_bool_decide.
    + eexists [_]. split; [reflexivity|]. split; [done|lia].
    + exists []. rewrite add_errors_nil. split; [done|]. split; [lia|done].
Qed.

Lemma chk_exp e : chk (fun st => visit_exp st e) (Forall (var_wf f G) (match base_variable e with Some v => [v] | None => [] end)).
Proof.
  destruct e; simpl; try (eapply checks_iff; [apply checks_ret|by rewrite Forall_nil]);
    (eapply checks_iff; [apply chk_var|by rewrite Forall_singleton]).
Qed.

Lemma chk_exps es : chk (fun st => foldM visit_exp st es) (Forall (var_wf f G) (omap base_variable es)).
Proof.
  eapply checks_iff; [apply checks_foldM; [apply in_function_add|]; intros e _; apply chk_exp|].
  induction es as [|e es IH]; [by rewrite !Forall_nil|]. rewrite Forall_cons, IH. csimpl.
  destruct (base_variable e); rewrite ?Forall_cons, ?Forall_nil; naive_solver.
Qed.

Lemma chk_style style : chk (fun st => visit_call_style st style)
  (Forall (var_wf f G) (match receiver style with Some r => [r] | None => [] end)).
Proof.
  destruct style; simpl; try (eapply checks_iff; [apply checks_ret|by rewrite Forall_nil]);
    (eapply checks_iff; [apply chk_var|by rewrite Forall_singleton]).
Qed.

Lemma chk_super_kind k : chk (fun st => super_statement_kind st k) (Forall (var_wf f G) (iter_src_var k ++ iter_dst_var k)).
Proof.
  destruct k as [dest srcs|style rets args|dest ops|]; unfold super_statement_kind.
  - eapply checks_iff; [apply checks_seq; [apply in_function_add|apply chk_exps|apply chk_var]|]. simpl.
    destruct (is_pathless dest); rewrite ?Forall_app, ?Forall_cons, ?Forall_nil; naive_solver.
  - eapply checks_iff; [apply checks_seq; [apply in_function_add|apply chk_style|]; apply checks_seq;
      [apply in_function_add|apply chk_exps|apply checks_foldM; [apply in_function_add|]; intros r _; apply chk_var]|].
    simpl. rewrite !Forall_app. naive_solver.
  - eapply checks_iff; [apply checks_seq; [apply in_function_add|apply chk_var|];
      apply (checks_foldM _ in_function_add _ (fun x => var_wf f G x.2)); intros [b v] _; apply chk_var|].
    simpl. rewrite Forall_app, Forall_singleton, Forall_map. naive_solver.
  - eapply checks_iff; [apply checks_ret|]. simpl. by rewrite Forall_nil.
Qed.

Lemma value_field_wf p : existsb is_value_field p = false <-> Field VALUE ∉ p.
Proof.
  induction p as [|s p IH]; simpl; [set_solver|]. rewrite orb_false_iff, not_elem_of_cons, IH.
  destruct s; simpl; try naive_solver. rewrite bool_decide_eq_false. naive_solver.
Qed.

Lemma chk_path ap loc : chk (fun st => Ret (check_access_path st ap loc)) (path_wf ap).
Proof.
  eapply checks_iff.
  - refine (checks_then _ in_function_add (fun st => error_if (negb (is_normal (segments ap))) (NotNormal (v_name st) loc ap) st)
             (fun st => _) _ _ _ (checks_then _ in_function_add
                (fun st => error_if (bool_decide (classify (segments ap) = Void)) (VoidPath (v_name st) loc ap) st)
                (fun st => error_if (existsb is_value_field (segments ap)) (ValueSpelledAsField (v_name st) loc ap) st) _ _ _ _));
      apply checks_error_if.
  - unfold path_wf, is_normal. rewrite negb_false_iff, bool_decide_eq_true, bool_decide_eq_false, value_field_wf. done.
Qed.

Lemma chk_check_exp e ok loc : chk (fun st => Ret (check_exp st e ok loc))
  (exp_wf e /\ (ok = false -> forall ap, e <> Exp_Value ap)).
Proof.
  eapply checks_iff.
  - refine (checks_then _ in_function_add
       (fun st => match access_path e with Some ap => check_access_path st ap loc | None => st end)
       (fun st => error_if (is_exp_value e && negb ok) (MisplacedValue (v_name st) loc) st) (exp_wf e) _ _ _);
      [|apply checks_error_if].
    unfold exp_wf. destruct (access_path e) as [ap|]; [eapply checks_iff; [apply chk_path|]|eapply checks_iff; [apply checks_ret|]]; naive_solver.
  - destruct e, ok; simpl; naive_solver.
Qed.

Lemma chk_operands es ok loc : chk (fun st => Ret (foldl (fun st e => check_exp st e ok loc) st es))
  (Forall (fun e => exp_wf e /\ (ok = false -> forall ap, e <> Exp_Value ap)) es).
Proof. apply checks_foldl; [apply in_function_add|]. intros e _. apply chk_check_exp. Qed.

Lemma chk_plain_operands es loc : chk (fun st => Ret (foldl (fun st e => check_exp st e false loc) st es)) (Forall operand_wf es).
Proof. eapply checks_iff; [apply chk_operands|]. apply Forall_iff. unfold operand_wf. naive_solver. Qed.

Lemma chk_rets rets loc : chk (fun st => Ret (foldl (fun st r => add_error st (CallResultIntoGlobal (v_name st) loc r)) st
    (filter (fun r => is_global (variable r) = true) rets))) (Forall (fun r => is_global (variable r) = false) rets).
Proof.
  eapply checks_iff.
  - apply (checks_foldl _ in_function_add (fun st r => add_error st (CallResultIntoGlobal (v_name st) loc r)) (fun _ => False)).
    intros r _. apply checks_add_error.
  - rewrite !Forall_forall. setoid_rewrite list_elem_of_filter. split; [|intros H r [Hg Hr]; specialize (H r Hr); congruence].
    intros H r Hr. destruct (is_global (variable r)) eqn:E; [|done]. by destruct (H r).
Qed.

Lemma chk_check_kind k loc : chk (fun st => Ret (check_statement_kind st k loc))
  match k with
  | Assign dest srcs =>
      path_wf dest /\ classify (segments dest) <> Address /\
      ~ (segments dest = [] /\ is_global (variable (base dest)) = true) /\ Forall exp_wf srcs
  | CallAssign style rets args =>
      Forall operand_wf args /\ (forall callee sg, style = FuncPtrCall callee sg -> path_wf callee) /\
      Forall (fun r => is_global (variable r) = false) rets
  | Phi dest ops => Forall (fun v => is_global (variable v) = false) (dest :: map snd ops)
  | Nop => True
  end.
Proof.
  destruct k as [dest srcs|style rets args|dest ops|].
  - eapply checks_iff.
    + refine (checks_then _ in_function_add (fun st => check_access_path st dest loc) (fun st => _) _ _ _
        (checks_then _ in_function_add
           (fun st => error_if (bool_decide (classify (segments dest) = Address)) (AddressDestination (v_name st) loc dest) st) (fun st => _) _ _ _
           (checks_then _ in_function_add
              (fun st => error_if (is_pathless dest && is_global (variable (base dest))) (CopyIntoGlobal (v_name st) loc (base dest)) st)
              (fun st => foldl (fun st e => check_exp st e true loc) st srcs) _ _ _ _)));
        [apply chk_path|apply checks_error_if|apply checks_error_if|apply chk_operands].
    + rewrite bool_decide_eq_false, andb_false_iff. unfold is_pathless. rewrite bool_decide_eq_false.
      assert (Forall (fun e => exp_wf e /\ (true = false -> forall ap, e <> Exp_Value ap)) srcs <-> Forall exp_wf srcs) as ->.
      { apply Forall_iff. naive_solver. }
      destruct (is_global (variable (base dest))); naive_solver.
  - eapply checks_iff.
    + refine (checks_then _ in_function_add (fun st => foldl (fun st e => check_exp st e false loc) st args) (fun st => _) _ _ _
        (checks_then _ in_function_add
           (fun st => match style with FuncPtrCall callee _ => check_access_path st callee loc | _ => st end)
           (fun st => foldl (fun st r => add_error st (CallResultIntoGlobal (v_name st) loc r)) st
              (filter (fun r => is_global (variable r) = true) rets))
           (forall callee sg, style = FuncPtrCall callee sg -> path_wf callee) _ _ _));
        [apply chk_plain_operands| |apply chk_rets].
      destruct style; try (eapply checks_iff; [apply checks_ret|naive_solver]). eapply checks_iff; [apply chk_path|]. naive_solver.
    + done.
  - unfold check_statement_kind. destruct (list_find _ (dest :: map snd ops)) as [[i v]|] eqn:E.
    + apply list_find_Some in E as (Hi & Hg & _). eapply checks_iff; [apply checks_add_error|]. split; [done|]. intros Hall.
      apply (Forall_lookup_1 _ _ _ _ Hall) in Hi. congruence.
    + apply list_find_None in E. eapply checks_iff; [apply checks_ret|]. split; [|done]. intros _.
      eapply Forall_impl; [exact E|]. intros v Hv. by apply not_true_is_false.
  - eapply checks_iff; [apply checks_ret|done].
Qed.

Lemma chk_kind k loc : chk (fun st => visit_statement_kind st k loc) (kind_wf f G k).
Proof. apply checks_seq; [apply in_function_add|apply chk_super_kind|apply chk_check_kind]. Qed.

Lemma chk_term k loc : chk (fun st => visit_terminator_kind st k loc) (term_wf f G k).
Proof.
  unfold visit_terminator_kind. destruct k as [args|targets].
  - eapply checks_iff; [apply checks_seq; [apply in_function_add|apply chk_exps|]|].
    + apply (checks_seq _ in_function_add (fun st => Ret (foldl (fun st e => check_exp st e false loc) st args))
        (fun st => arity ← unwrap (return_arity st);
           Ret (error_if (bool_decide (length args <> arity)) (InconsistentReturns (v_name st) arity (length args)) st))
        (Forall operand_wf args) (length args = arity f)); [apply chk_plain_operands|].
      intros st (_ & _ & _ & Hr & _). rewrite Hr. cbn [unwrap mbind outcome_bind]. unfold error_if. case_bool_decide.
      * eexists [_]. done.
      * exists []. rewrite add_errors_nil. done.
    + done.
  - eapply checks_iff; [apply checks_seq; [apply in_function_add|apply checks_ret|]|].
    + instantiate (1 := targets <> [] /\ Forall (fun t => t < length (blocks f)) targets). case_decide as Ht.
      * subst. eapply checks_iff; [apply checks_add_error|naive_solver].
      * eapply checks_iff; [apply (checks_foldM _ in_function_add _ (fun t => t < length (blocks f)))|naive_solver].
        intros t _ st (Hb & _). rewrite Hb. cbn [unwrap mbind outcome_bind]. unfold error_if. case_bool_decide.
        -- eexists [_]. split; [reflexivity|]. split; [done|lia].
        -- exists []. rewrite add_errors_nil. split; [done|]. split; [lia|done].
    + simpl. naive_solver.
Qed.

Lemma chk_block idx bb b : chk (fun st => visit_basic_block_data st idx bb b) (block_wf f G b).
Proof.
  unfold visit_basic_block_data, super_basic_block_data. eapply checks_iff.
  - apply (checks_seq _ in_function_add); [apply (checks_seq _ in_function_add)|apply checks_error_if].
    + apply (checks_foldM _ in_function_add _ (fun x => kind_wf f G (kind x.2))). intros [i s] _. apply chk_kind.
    + instantiate (1 := forall t, terminator b = Some t -> term_wf f G (term_kind t)). destruct (terminator b) as [t|].
      * eapply checks_iff; [apply chk_term|]. naive_solver.
      * eapply checks_iff; [apply checks_ret|done].
  - unfold block_wf. rewrite bool_decide_eq_false.
    assert (Forall (fun x : nat * Statement => kind_wf f G (kind x.2)) (enumerate (statements b)) <->
            Forall (fun s => kind_wf f G (kind s)) (statements b)) as ->.
    { rewrite <- (enum_from_snd (statements b) 0) at 2. by rewrite Forall_fmap. }
    destruct (terminator b); naive_solver.
Qed.
End visit.

(** ** Functions and programs *)

Lemma store_bases_checks f idx : checks (fun _ => True) (fun st => Ret (check_store_bases st idx f))
  (Forall (fun b => Forall (fun s => store_wf f (kind s)) (statements b)) (blocks f)).
Proof.
  assert (forall st es, (fun _ : CirVerify => True) st -> (fun _ => True) (add_errors st es)) as HC by done.
  unfold check_store_bases. set (defined := list_to_set _). eapply checks_iff.
  - apply (checks_foldl _ HC _ (fun x => Forall (fun y => store_wf f (kind y.2)) (enumerate (statements x.2)))). intros [bb b] _.
    apply (checks_foldl _ HC). intros [i s] _. simpl.
    assert (bad_store_base defined (kind s) = None <-> store_wf f (kind s)) as Hb.
    { destruct (kind s) as [dest srcs| | |]; simpl; try done. unfold is_pathless, defined, definitions_of.
      destruct (version (base dest)) as [v|]; repeat case_bool_decide; simpl; rewrite ?elem_of_list_to_set in *; naive_solver. }
    destruct (bad_store_base defined (kind s)).
    + eapply checks_iff; [apply checks_add_error|]. naive_solver.
    + eapply checks_iff; [apply checks_ret|]. naive_solver.
  - rewrite <- (enum_from_snd (blocks f) 0) at 2. rewrite Forall_fmap. apply Forall_proper; [|done]. intros [bb b]. simpl.
    rewrite <- (enum_from_snd (statements b) 0) at 2. by rewrite Forall_fmap.
Qed.

Lemma visit_function_spec st idx f : exists es, visit_function_data st idx f =
    Ret (mk_verify (error st ++ es) "" None None None None (globals_len st) ({[ name f ]} ∪ defines st)) /\
  (es = [] <-> function_wf f (globals_len st) /\ name f ∉ defines st).
Proof.
  unfold visit_function_data. set (e1 := if bool_decide (name f = "") then [UnnamedFunction idx] else []).
  set (e2 := if bool_decide (name f ∈ defines st) then [MultiplyDefinedFunction idx] else []).
  set (st1 := error_if (bool_decide (name f = "")) _ st).
  assert (st1 = add_errors st e1) as ->.
  { unfold st1, e1, error_if. case_bool_decide; [done|by rewrite add_errors_nil]. }
  set (st2 := error_if _ (MultiplyDefinedFunction idx) _).
  assert (st2 = add_errors st (e1 ++ e2)) as ->.
  { unfold st2, e2, error_if. rewrite <- add_errors_app. simpl. case_bool_decide; [done|by rewrite add_errors_nil]. }
  cbv zeta. set (st3 := mk_verify _ _ _ _ _ _ _ _).
  assert (in_function f (globals_len st) st3) as Hin by done.
  destruct (checks_foldM _ (in_function_add f (globals_len st)) (fun st '(bb, block) => visit_basic_block_data st idx bb block)
    (fun x => block_wf f (globals_len st) x.2) (enumerate (blocks f))) with (st := st3) as (e3 & E3 & H3); [|done|].
  { intros [bb b] _. apply chk_block. }
  unfold super_function_data. rewrite E3. cbn [mbind outcome_bind].
  destruct (store_bases_checks f idx (add_errors st3 e3) I) as (e4 & E4 & H4). injection E4 as E4. rewrite E4.
  exists (e1 ++ e2 ++ e3 ++ e4). split; [simpl; by rewrite <- !app_assoc|]. unfold function_wf.
  assert (Forall (fun x : nat * BasicBlockData => block_wf f (globals_len st) x.2) (enumerate (blocks f)) <->
          Forall (block_wf f (globals_len st)) (blocks f)) as Hb.
  { rewrite <- (enum_from_snd (blocks f) 0) at 2. by rewrite Forall_fmap. }
  rewrite !app_nil. unfold e1, e2. repeat case_bool_decide; naive_solver.
Qed.

Lemma visit_functions_spec fs : forall i st, exists es st', 
  foldM (fun st '(idx, data) => visit_function_data st idx data) st (enum_from i fs) = Ret st' /\
  error st' = error st ++ es /\
  (es = [] <-> Forall (fun f => function_wf f (globals_len st)) fs /\ NoDup (map name fs) /\ forall f, f ∈ fs -> name f ∉ defines st).
Proof.
  induction fs as [|f fs IH]; intros i st; simpl.
  { exists [], st. rewrite app_nil_r. split_and!; [done|done|]. rewrite Forall_nil, NoDup_nil. set_solver. }
  destruct (visit_function_spec st i f) as (es & -> & Hes).
  destruct (IH (S i) (mk_verify (error st ++ es) "" None None None None (globals_len st) ({[ name f ]} ∪ defines st)))
    as (es' & st' & -> & He & Hes'). simpl in He, Hes'.
  exists (es ++ es'), st'. split_and!; [done|by rewrite He, app_assoc|].
  rewrite app_nil, Hes, Hes', Forall_cons, NoDup_cons, elem_of_map. setoid_rewrite elem_of_cons.
  setoid_rewrite not_elem_of_union. setoid_rewrite not_elem_of_singleton. split.
  - intros [[? ?] (? & ? & Hd)]. split_and!; [done|done| |done|].
    + intros (g & Hg & Hin). destruct (Hd g Hin) as [? _]. done.
    + intros g [->|Hin]; [done|]. by apply Hd.
  - intros ([? ?] & [Hn ?] & Hd). split_and!; [done|by apply Hd; left|done|done|]. intros g Hin. split; [|by apply Hd; right].
    intros E. apply Hn. exists g. done.
Qed.

Lemma verify_spec (p : Program) :
  exists r, verify p = Ret r /\ (r = Ok tt <-> program_wf p) /\ (forall es, r = Err es -> es <> []).
Proof.
  unfold verify, visit_program, program_wf.
  destruct (visit_functions_spec (functions p) 0 (mk_verify [] "" None None None None (Some (length (gdecls (globals p)))) ∅))
    as (es & st' & E & He & Hes). simpl in *. rewrite E. cbn [mbind outcome_bind]. eexists. split; [reflexivity|]. unfold take_error. simpl. rewrite He.
  split.
  - case_decide as Hnil; [subst|]; split; try done.
    + intros _. destruct Hes as [Hes _]. destruct (Hes Hnil) as (? & ? & _). done.
    + intros [? ?]. exfalso. apply Hnil. apply Hes. split_and!; [done..|]. set_solver.
  - intros es'. case_decide; [done|]. by intros [= <-].
Qed.


Lemma kind_vars_wf f G b v : block_wf f G b -> v ∈ block_src_vars b ++ (statements b ≫= fun s => iter_dst_var (kind s)) -> var_wf f G v.
Proof.
  intros [Hs (t & Ht & Hw)]. rewrite Forall_forall in Hs. unfold block_src_vars. rewrite Ht, !elem_of_app, !list_elem_of_bind.
  intros [[(s & Hv & Hin)|Hv]|(s & Hv & Hin)].
  - destruct (Hs s Hin) as [Hk _]. rewrite Forall_forall in Hk. apply Hk. set_solver.
  - unfold term_iter_src_var in Hv. destruct (term_kind t) as [args|]; [|by apply elem_of_nil in Hv].
    destruct Hw as [Hw _]. rewrite Forall_forall in Hw. by apply Hw.
  - destruct (Hs s Hin) as [Hk _]. rewrite Forall_forall in Hk. apply Hk. set_solver.
Qed.

(** Ports whose seeds and observers are not at globals. *)
Definition local_ports (ports : Ports) : Prop :=
  Forall (fun s => is_global (variable (base (seed_path s))) = false) (seeds ports) /\
  Forall (fun o => is_global (variable (base (obs_path o))) = false) (observers ports).

Lemma verified_in_range ps ports : Forall (fun p => verify p = Ret (Ok tt)) ps -> local_ports ports -> globals_in_range ps ports.
Proof.
  intros Hver [Hseeds Hobs] i p j f v idx Hp Hf Hv Hg.
  assert (program_wf p) as [_ Hwf].
  { destruct (verify_spec p) as (r & E & Hr & _). apply Hr. apply (Forall_lookup_1 _ _ _ _ Hver) in Hp. congruence. }
  apply (Forall_lookup_1 _ _ _ _ Hwf) in Hf as (_ & Hb & _). rewrite Forall_forall in Hb. rewrite Forall_forall in Hseeds. rewrite Forall_forall in Hobs.
  apply elem_of_app in Hv as [Hv|Hv].
  - apply list_elem_of_bind in Hv as (b & Hv & Hin). apply (kind_vars_wf f _ b v (Hb b Hin)) in Hv.
    unfold var_wf in Hv. rewrite Hg in Hv. by apply Hv.
  - exfalso. unfold port_vars in Hv. apply elem_of_app in Hv as [Hv|Hv].
    + apply elem_of_map in Hv as (s & -> & [_ Hs]%list_elem_of_filter). specialize (Hseeds s Hs). by rewrite Hg in Hseeds.
    + apply elem_of_map in Hv as (o & -> & [_ Ho]%list_elem_of_filter). specialize (Hobs o Ho). by rewrite Hg in Hobs.
Qed.

(** The evaluator is total on verified programs.  When every program of a project passes
    [Program::verify] (and no port sits at a global), [evaluate_programs] returns an outcome
    for all large enough fuel: it neither panics nor runs forever. *)
Theorem verified_programs_evaluate (programs : list Program) (ports : Ports) (config : Config) :
  Forall (fun p => verify p = Ret (Ok tt)) programs -> local_ports ports ->
  exists fuel0 oc, forall fuel, fuel0 <= fuel -> evaluate_programs programs ports config fuel = Ret oc.
Proof.
  intros Hv Hl. destruct (run_saturates programs ports config (verified_in_range _ _ Hv Hl)) as (fuel0 & ev & _ & Hrun & _).
  exists fuel0, (out ev). intros fuel Hle. unfold evaluate_programs. by rewrite (Hrun fuel Hle).
Qed.

(** [demo_program] with its two locals declared. *)
Definition declared_main : FunctionData :=
  with_locals demo_main {| decls := ["a"; "b"]; by_name := ∅ |}.
Definition verified_program : Program := {| functions := [demo_id; declared_main]; globals := Globals_default |}.

Lemma verified_programs_evaluate_witness :
  exists fuel0 oc, forall fuel, fuel0 <= fuel -> evaluate_programs [verified_program] demo_ports Config_default fuel = Ret oc.
Proof.
  apply verified_programs_evaluate.
  - apply Forall_singleton. vm_compute. reflexivity.
  - split; apply Forall_nil; exact I.
Defined.
