(* ===== verification/Builder.v ===== *)
(** * Builder: constructing functions ([ctadl-ir/src/cir/builder.rs])

    The front ends build the IR through [FunctionBuilder] and, for a block, [BasicBlockBuilder], which inserts statements at an insertion
    point.  A builder borrows what it changes, so its methods are functions on the borrowed state.  Insertion points are
    naturals, as indices are in [IR]: the cast of one to a [u32] statement index and the increment of the [usize] do not overflow.  A script is a sequence
    of calls; the theorem is that what a script builds is well formed, which is what the verifier checks, when the arguments of its calls are. *)

From S2P Require Import Prelude Index Text Path PathSyntax IR Verify.

(** ** The block builder *)

Record BasicBlockBuilder : Type := mk_bb { bb_block : BasicBlockData; bb_locals : Locals; insertion_point : nat }.

Definition bb_new (block_data : BasicBlockData) (locals : Locals) : BasicBlockBuilder := mk_bb block_data locals 0.
Definition set_insertion_point (b : BasicBlockBuilder) (position : nat) : BasicBlockBuilder := mk_bb (bb_block b) (bb_locals b) position.
Definition get_insertion_point (b : BasicBlockBuilder) : nat := insertion_point b.

(** [IndexVecDeque::insert_at]: [VecDeque::insert] panics past the end. *)
Definition insert_at {A} (l : list A) (index : nat) (value : A) : outcome (list A) :=
  if decide (index <= length l) then Ret (take index l ++ value :: drop index l) else Panic.

Definition insert_statement (b : BasicBlockBuilder) (statement : Statement) : outcome BasicBlockBuilder :=
  l ← (if decide (insertion_point b <= length (statements (bb_block b)))
       then insert_at (statements (bb_block b)) (insertion_point b) statement
       else Ret (statements (bb_block b) ++ [statement]));
  Ret (mk_bb (with_statements (bb_block b) l) (bb_locals b) (insertion_point b + 1)).

Definition insert_kind (b : BasicBlockBuilder) (kind : StatementKind) : outcome (BasicBlockBuilder * nat) :=
  let current_pos := insertion_point b in
  b ← insert_statement b (new_kind kind);
  Ret (b, current_pos).

Definition create_assign b (dest : AccessPath) (sources : list Exp) := insert_kind b (assign dest sources).
Definition create_load b (dest : VariableRef) (source : AccessPath) (segment : PathSegment) := insert_kind b (load dest source segment).
Definition create_store b (dest : AccessPath) (segment : PathSegment) (source : Exp) := insert_kind b (store dest segment source).
Definition create_call b (style : CallStyle) (rets : list VariableRef) (args : list Exp) := insert_kind b (CallAssign style rets args).
Definition create_phi b (dest : VariableRef) (operands : list (nat * VariableRef)) := insert_kind b (Phi dest operands).
Definition create_nop b := insert_kind b Nop.

Definition set_terminator (b : BasicBlockBuilder) (k : TerminatorKind) : BasicBlockBuilder :=
  mk_bb {| statements := statements (bb_block b); terminator := Some (term_new_kind k) |} (bb_locals b) (insertion_point b).
Definition create_ret b (values : list Exp) := set_terminator b (Return values).
Definition create_goto b (targets : list nat) := set_terminator b (Goto targets).

Definition bb_intern_local (b : BasicBlockBuilder) (n : string) : BasicBlockBuilder * nat :=
  let '(l, idx) := get_or_intern (bb_locals b) n in (mk_bb (bb_block b) l (insertion_point b), idx).
Definition new_local_var (b : BasicBlockBuilder) (n : string) : BasicBlockBuilder * VariableRef :=
  let '(b, idx) := bb_intern_local b n in (b, new_local_idx idx).

(** ** The function builder *)

Definition add_param (f : FunctionData) (t : ParameterType) : FunctionData * nat :=
  let '(ps, idx) := iv_push (params f) t in
  ({| name := name f; params := ps; arity := arity f; blocks := blocks f; locals := locals f |}, idx).

(** [BasicBlocks::new_block]. *)
Definition add_block (f : FunctionData) : FunctionData * nat :=
  let '(bs, idx) := iv_push (blocks f) {| statements := []; terminator := None |} in (with_blocks f bs, idx).

Definition set_name (f : FunctionData) (n : string) : FunctionData :=
  {| name := n; params := params f; arity := arity f; blocks := blocks f; locals := locals f |}.
Definition set_return_arity (f : FunctionData) (n : nat) : FunctionData :=
  {| name := name f; params := params f; arity := n; blocks := blocks f; locals := locals f |}.

(** [at_block(idx)], used by [body]: the block and the locals are borrowed and written back. *)
Definition at_block (f : FunctionData) (block_idx : nat) (body : BasicBlockBuilder -> outcome BasicBlockBuilder) : outcome FunctionData :=
  block ← iv_index (blocks f) block_idx;
  b ← body (bb_new block (locals f));
  bs ← iv_set (blocks f) block_idx (bb_block b);
  Ret (with_locals (with_blocks f bs) (bb_locals b)).

(** ** Scripts *)

Inductive block_cmd : Type :=
| CPoint (position : nat)
| CAssign (dest : AccessPath) (sources : list Exp)
| CLoad (dest : VariableRef) (source : AccessPath) (segment : PathSegment)
| CStore (dest : AccessPath) (segment : PathSegment) (source : Exp)
| CCall (style : CallStyle) (rets : list VariableRef) (args : list Exp)
| CPhi (dest : VariableRef) (operands : list (nat * VariableRef))
| CNop
| CRet (values : list Exp)
| CGoto (targets : list nat)
| CLocal (n : string).

Inductive build_cmd : Type :=
| BParam (t : ParameterType)
| BBlock
| BName (n : string)
| BArity (n : nat)
| BLocal (n : string)
| BAt (block_idx : nat) (cs : list block_cmd).

Definition run_block_cmd (b : BasicBlockBuilder) (c : block_cmd) : outcome BasicBlockBuilder :=
  match c with
  | CPoint position => Ret (set_insertion_point b position)
  | CAssign dest sources => '(b, _) ← create_assign b dest sources; Ret b
  | CLoad dest source segment => '(b, _) ← create_load b dest source segment; Ret b
  | CStore dest segment source => '(b, _) ← create_store b dest segment source; Ret b
  | CCall style rets args => '(b, _) ← create_call b style rets args; Ret b
  | CPhi dest operands => '(b, _) ← create_phi b dest operands; Ret b
  | CNop => '(b, _) ← create_nop b; Ret b
  | CRet values => Ret (create_ret b values)
  | CGoto targets => Ret (create_goto b targets)
  | CLocal n => Ret (bb_intern_local b n).1
  end.

Definition run_build_cmd (f : FunctionData) (c : build_cmd) : outcome FunctionData :=
  match c with
  | BParam t => Ret (add_param f t).1
  | BBlock => Ret (add_block f).1
  | BName n => Ret (set_name f n)
  | BArity n => Ret (set_return_arity f n)
  | BLocal n => Ret (intern_local f n).1
  | BAt idx cs => at_block f idx (fun b => foldM run_block_cmd b cs)
  end.

Definition build (cs : list build_cmd) : outcome FunctionData := foldM run_build_cmd FunctionData_default cs.

(** ** Insertion *)

Lemma insert_kind_spec b k : exists b', insert_kind b k = Ret (b', insertion_point b) /\ bb_locals b' = bb_locals b /\ insertion_point b' = S (insertion_point b) /\
  terminator (bb_block b') = terminator (bb_block b) /\
  statements (bb_block b') = take (insertion_point b) (statements (bb_block b)) ++ new_kind k :: drop (insertion_point b) (statements (bb_block b)).
Proof.
  unfold insert_kind, insert_statement, insert_at. destruct (decide (insertion_point b <= length (statements (bb_block b)))) as [Hle|Hgt]; cbn [mbind outcome_bind].
  - eexists. split; [done|]. cbn. split_and!; [done|lia|done|done].
  - eexists. split; [done|]. cbn. split_and!; [done|lia|done|]. by rewrite take_ge, drop_ge by lia.
Qed.

(** [insert_kind] over a sequence of kinds, with the indices it returns. *)
Fixpoint insert_kinds (b : BasicBlockBuilder) (ks : list StatementKind) : outcome (BasicBlockBuilder * list nat) :=
  match ks with
  | [] => Ret (b, [])
  | k :: ks => '(b, i) ← insert_kind b k; '(b, ids) ← insert_kinds b ks; Ret (b, i :: ids)
  end.

Lemma take_drop_insert {A} (l : list A) p x : take (S p) (take p l ++ x :: drop p l) = take p l ++ [x] /\ drop (S p) (take p l ++ x :: drop p l) = drop p l.
Proof.
  rewrite cons_middle, (assoc_L (++)). assert (length (take p l ++ [x]) = S (p `min` length l)) as Hlen by (rewrite length_app, length_take; cbn; lia).
  destruct (decide (p <= length l)) as [Hle|Hgt].
  - rewrite take_app_length', drop_app_length' by lia. done.
  - rewrite (drop_ge l p) by lia. rewrite app_nil_r. rewrite take_ge, drop_ge by lia. done.
Qed.

(** Statements are inserted in order at the insertion point and nothing else moves; beyond the end they are appended.  The indices
    returned count from the insertion point, so they read the statements back exactly when it was within the block. *)
Theorem builder_insert_order (ks : list StatementKind) : forall b : BasicBlockBuilder,
  let p := insertion_point b in let l := statements (bb_block b) in
  exists b', insert_kinds b ks = Ret (b', seq p (length ks)) /\ statements (bb_block b') = take p l ++ map new_kind ks ++ drop p l /\
    insertion_point b' = p + length ks /\
    forall j k, ks !! j = Some k -> statements (bb_block b') !! (p `min` length l + j) = Some (new_kind k).
Proof.
  intros b p l. assert (exists b', insert_kinds b ks = Ret (b', seq p (length ks)) /\ statements (bb_block b') = take p l ++ map new_kind ks ++ drop p l /\ insertion_point b' = p + length ks) as (b' & E & Es & Ep).
  { subst p l. revert b. induction ks as [|k ks IH]; intros b; cbn [insert_kinds length seq map app].
    - exists b. split_and!; [done|by rewrite take_drop|lia].
    - destruct (insert_kind_spec b k) as (b1 & -> & _ & Ep & _ & Es). cbn [mbind outcome_bind]. destruct (IH b1) as (b' & -> & Es' & Ep'). cbn [mbind outcome_bind]. exists b'.
      rewrite Ep in Es', Ep' |- *. split_and!; [done| |lia]. rewrite Es', Es. destruct (take_drop_insert (statements (bb_block b)) (insertion_point b) (new_kind k)) as [-> ->].
      by rewrite <- app_assoc. }
  exists b'. split_and!; [done..|]. intros j k Hj. rewrite Es. rewrite <- (length_take l p). rewrite lookup_app_r by lia. replace (length (take p l) + j - length (take p l)) with j by lia.
  rewrite lookup_app_l by (rewrite length_map; by eapply lookup_lt_Some). rewrite list_lookup_fmap, Hj. done.
Qed.

(** ** What a script puts in a function *)

Definition cmd_kinds (c : block_cmd) : list StatementKind :=
  match c with
  | CAssign dest sources => [assign dest sources]
  | CLoad dest source segment => [load dest source segment]
  | CStore dest segment source => [store dest segment source]
  | CCall style rets args => [CallAssign style rets args]
  | CPhi dest operands => [Phi dest operands]
  | CNop => [Nop]
  | _ => []
  end.
Definition cmd_terms (c : block_cmd) : list TerminatorKind :=
  match c with CRet values => [Return values] | CGoto targets => [Goto targets] | _ => [] end.
Definition block_cmds (c : build_cmd) : list block_cmd := match c with BAt _ cs => cs | _ => [] end.

(** The statements and terminators of a block come from these calls. *)
Definition made_by (cs : list block_cmd) (b : BasicBlockData) : Prop :=
  (forall s, s ∈ statements b -> kind s ∈ cs ≫= cmd_kinds) /\ (forall t, terminator b = Some t -> term_kind t ∈ cs ≫= cmd_terms).

Lemma made_by_mono cs cs' b : cs ⊆ cs' -> made_by cs b -> made_by cs' b.
Proof.
  intros Hsub [Hs Ht]. split; [intros s H|intros t H]; [apply Hs in H|apply Ht in H]; apply list_elem_of_bind in H as (c & ? & ?); apply list_elem_of_bind; exists c; auto.
Qed.

Lemma run_block_cmd_spec cs b c : made_by cs (bb_block b) -> exists b', run_block_cmd b c = Ret b' /\ made_by (cs ++ [c]) (bb_block b').
Proof.
  intros Hb. assert (made_by (cs ++ [c]) (bb_block b)) as Hb' by (eapply made_by_mono; [|done]; set_solver).
  assert (forall k, cmd_kinds c = [k] -> exists b', (insert_kind b k ≫= (fun '(b, _) => Ret b)) = Ret b' /\ made_by (cs ++ [c]) (bb_block b')) as Hk.
  { intros k Ek. destruct (insert_kind_spec b k) as (b' & -> & _ & _ & Et & Es). cbn [mbind outcome_bind]. exists b'. split; [done|]. destruct Hb' as [Hs Ht]. split; [|by rewrite Et].
    intros s. rewrite Es, elem_of_app, elem_of_cons. intros [H|[->|H]]; [apply Hs; by eapply subseteq_take| |apply Hs; by eapply subseteq_drop].
    apply list_elem_of_bind. exists c. rewrite Ek. split; [apply list_elem_of_here|]. set_solver. }
  assert (forall tk, cmd_terms c = [tk] -> made_by (cs ++ [c]) (bb_block (set_terminator b tk))) as Ht.
  { intros tk Et. destruct Hb' as [Hs _]. split; [done|]. intros t [= <-]. apply list_elem_of_bind. exists c. rewrite Et. split; [apply list_elem_of_here|set_solver]. }
  destruct c; cbn [run_block_cmd]; try (by apply Hk); try (by eexists).
  - eexists. split; [done|]. by apply Ht.
  - eexists. split; [done|]. by apply Ht.
  - eexists. split; [done|]. unfold bb_intern_local. by destruct (get_or_intern _ _).
Qed.

Lemma run_block_cmds_spec cs : forall cs0 b, made_by cs0 (bb_block b) -> exists b', foldM run_block_cmd b cs = Ret b' /\ made_by (cs0 ++ cs) (bb_block b').
Proof.
  induction cs as [|c cs IH]; intros cs0 b Hb; cbn [foldM]; [exists b; by rewrite app_nil_r|].
  destruct (run_block_cmd_spec cs0 b c Hb) as (b1 & -> & Hb1). destruct (IH _ b1 Hb1) as (b' & -> & Hb'). exists b'. by rewrite <- app_assoc in Hb'.
Qed.

(** [at_block] names blocks that have been added. *)
Fixpoint blocks_exist (n : nat) (cs : list build_cmd) : bool :=
  match cs with
  | [] => true
  | BBlock :: cs => blocks_exist (S n) cs
  | BAt idx _ :: cs => bool_decide (idx < n) && blocks_exist n cs
  | _ :: cs => blocks_exist n cs
  end.

Lemma run_build_spec cs : forall cs0 f, Forall (made_by cs0) (blocks f) -> blocks_exist (length (blocks f)) cs = true ->
  exists f', foldM run_build_cmd f cs = Ret f' /\ Forall (made_by (cs0 ++ (cs ≫= block_cmds))) (blocks f').
Proof.
  assert (forall cs0 cs1 l, Forall (made_by cs0) l -> Forall (made_by (cs0 ++ cs1)) l) as Hmono.
  { intros cs0 cs1 l Hl. eapply Forall_impl; [exact Hl|]. intros b. apply made_by_mono. set_solver. }
  induction cs as [|c cs IH]; intros cs0 f Hf Hb; cbn [foldM mbind list_bind]; [exists f; by rewrite app_nil_r|].
  destruct c as [t| |n|n|n|idx bcs]; cbn [run_build_cmd blocks_exist block_cmds app] in *.
  - by apply (IH cs0 (add_param f t).1).
  - apply (IH cs0 (add_block f).1); cbn; [|by rewrite length_app, Nat.add_comm]. apply Forall_app. split; [done|]. constructor; [|done]. split; [by intros s ?%not_elem_of_nil|done].
  - by apply (IH cs0 (set_name f n)).
  - by apply (IH cs0 (set_return_arity f n)).
  - apply (IH cs0 (intern_local f n).1); unfold intern_local; by destruct (get_or_intern (locals f) n).
  - apply andb_true_iff in Hb as [Hidx Hb]. apply bool_decide_eq_true in Hidx. unfold at_block. destruct (lookup_lt_is_Some_2 _ _ Hidx) as [block Eb]. unfold iv_index. rewrite Eb. cbn [unwrap mbind outcome_bind].
    destruct (run_block_cmds_spec bcs cs0 (bb_new block (locals f))) as (b' & -> & Hb'). { rewrite Forall_forall in Hf. apply Hf. by eapply list_elem_of_lookup_2. }
    cbn [mbind outcome_bind]. unfold iv_set. rewrite decide_True by done. cbn [mbind outcome_bind].
    destruct (IH (cs0 ++ bcs) (with_locals (with_blocks f (<[idx := bb_block b']> (blocks f))) (bb_locals b'))) as (f' & -> & Hf').
    + cbn. apply Forall_insert; [by apply Hmono|done].
    + cbn. by rewrite length_insert.
    + exists f'. split; [done|]. by rewrite <- app_assoc in Hf'.
Qed.

(** ** Well-formed arguments build well-formed statements *)

Section Arguments.
Variables (f : FunctionData) (G : option nat).

Definition source_ok (e : Exp) : Prop := exp_wf e /\ forall ap, access_path e = Some ap -> Forall seg_i64 (segments ap) /\ var_wf f G (base ap).

(** What [assign] needs: the path written is not void, has no [#value] field, and on a global is not the whole of it. *)
Definition assign_args (dest : AccessPath) (srcs : list Exp) : Prop :=
  var_wf f G (base dest) /\ version (base dest) = None /\ Forall seg_i64 (segments dest) /\
  classify (normalize (segments dest)) <> Void /\ Field VALUE ∉ normalize (segments dest) /\
  (is_global (variable (base dest)) = true -> Exists (fun s => is_offset s = false) (normalize (segments dest))) /\
  Forall source_ok srcs.

Definition cmd_args (c : block_cmd) : Prop :=
  match c with
  | CAssign dest srcs => assign_args dest srcs
  | CLoad dest source segment => assign_args (ap_of_var dest) [Exp_Path {| base := base source; segments := concat (segments source) [segment] |}]
  | CStore dest segment source => assign_args {| base := base dest; segments := concat (segments dest) [segment] |} [source]
  | CCall style rets args => kind_wf f G (CallAssign style rets args)
  | CPhi dest operands => kind_wf f G (Phi dest operands)
  | CRet values => term_wf f G (Return values)
  | CGoto targets => term_wf f G (Goto targets)
  | _ => True
  end.

(** A path that extends to one without void or [#value] fields has none itself. *)
Lemma concat_void p q : classify p = Void -> classify (concat p q) = Void.
Proof.
  rewrite !classify_Void. intros (a & b & c & s & -> & Hs). destruct (concat_keeps_plain (a ++ [Value] ++ b) s c q Hs) as [r Hr].
  exists a, b, r, s. split; [|done]. by rewrite <- !app_assoc in Hr.
Qed.

Lemma concat_field p q n : Field n ∈ p -> Field n ∈ concat p q.
Proof. intros (a & c & ->)%list_elem_of_split. destruct (concat_keeps_plain a (Field n) c q eq_refl) as [r Hr]. cbn [app] in Hr. rewrite Hr. set_solver. Qed.

Lemma path_wf_shift b p q : nf p -> classify (concat p q) <> Void -> Field VALUE ∉ concat p q -> path_wf {| base := b; segments := p |}.
Proof. intros Hp Hc Hv. split_and!; cbn; [by apply normalize_id|intros H; by apply Hc, concat_void|intros H; by apply Hv, concat_field]. Qed.

Lemma assign_kind_wf dest srcs : assign_args dest srcs -> kind_wf f G (assign dest srcs) /\ exists d ss, assign dest srcs = Assign d ss /\ base d = base dest.
Proof.
  intros (Hb & _ & Hi & Hc & Hv & Hg & Hs). destruct (assign_correct dest srcs Hi) as (d & ss & k & -> & Eb & Hn & Ha & Ec & Hk & Hss).
  { eapply Forall_impl; [exact Hs|]. intros e [He Hap]. unfold exp_nf. destruct (access_path e) as [ap|] eqn:E; [|done]. destruct (He ap E) as [<- _]. apply normalize_nf. by apply Hap. }
  split; [|by exists d, ss]. assert (path_wf d) as Hd. { destruct d as [bd sd]. cbn in *. apply (path_wf_shift bd sd k); [done|by rewrite Ec..]. }
  assert (Forall exp_wf ss /\ Forall (var_wf f G) (omap base_variable ss)) as [He Hw].
  { clear -Hss Hs. induction Hss as [|e e' l l' He _ IH]; [split; by constructor|]. apply Forall_cons in Hs as [[Hwf Hap] Hs]. destruct (IH Hs) as [IH1 IH2].
    assert (exp_wf e' /\ forall ap, access_path e' = Some ap -> var_wf f G (base ap)) as [He' Hb'].
    { destruct e as [ap|ap| | | |]; cbn in He; try (subst e'; split; [done|]; intros ap' Hap'; by apply Hap).
      destruct He as (ap' & -> & Eb & Hn & Ec). destruct (Hap ap eq_refl) as [_ Hvb]. destruct (Hwf ap eq_refl) as (_ & Hc & Hv).
      split; [|intros ? [= <-]; by rewrite Eb]. intros ? [= <-]. destruct ap' as [b' p']. cbn in *. eapply path_wf_shift; [done|by rewrite Ec|by rewrite Ec]. }
    split; [by constructor|]. cbn [omap list_omap]. unfold base_variable at 1. destruct (access_path e') as [ap|] eqn:E; cbn; [|done]. constructor; [by apply Hb'|done]. }
  split.
  - cbn [iter_src_var iter_dst_var]. rewrite <- Eb in Hb. apply Forall_app. split; [apply Forall_app; split; [|done]|]; destruct (is_pathless d); by repeat constructor.
  - split_and!; [done|done| |done]. intros [E0 Eg]. rewrite Eb in Eg. specialize (Hg Eg). rewrite <- Ec, E0 in Hg. apply Exists_exists in Hg as (sg & Hin & Ho).
    destruct Hk as [->|[z ->]]; unfold concat in Hin; cbn [foldl push_normalized] in Hin; [by apply not_elem_of_nil in Hin|]. change (split_last (@nil PathSegment)) with (@None (path * PathSegment)) in Hin. cbv iota in Hin. clear -Hin Ho. destruct (decide _) as [|_] in Hin; try (by apply not_elem_of_nil in Hin); apply list_elem_of_singleton in Hin as ->; done.
Qed.

Lemma cmd_kinds_wf c k : cmd_args c -> k ∈ cmd_kinds c -> kind_wf f G k /\ store_wf f k.
Proof.
  assert (forall dest srcs, assign_args dest srcs -> kind_wf f G (assign dest srcs) /\ store_wf f (assign dest srcs)) as Ha.
  { intros dest srcs H. destruct (assign_kind_wf dest srcs H) as [Hk (d & ss & E & Eb)]. split; [done|]. rewrite E. cbn. intros _ v Hv. destruct H as (_ & Hn & _). rewrite Eb, Hn in Hv. done. }
  destruct c; cbn [cmd_args cmd_kinds]; intros Hc Hk; try (by apply not_elem_of_nil in Hk); apply list_elem_of_singleton in Hk as ->; try (by apply Ha); [done|done|].
  split; [|done]. split; [cbn; by constructor|done].
Qed.

Lemma cmd_terms_wf c t : cmd_args c -> t ∈ cmd_terms c -> term_wf f G t.
Proof. destruct c; cbn [cmd_args cmd_terms]; intros Hc Ht; try (by apply not_elem_of_nil in Ht); by apply list_elem_of_singleton in Ht as ->. Qed.
End Arguments.


Definition sample_script : list build_cmd :=
  [BName "f"; BParam Shared; BArity 1; BBlock; BLocal "x"; BBlock;
   BAt 0 [CGoto [1]; CNop; CPoint 0; CStore (ap_of_var (new_parameter 0)) (Offset 8) (Exp_Int 1)];
   BAt 1 [CLoad (new_local_idx 0) (ap_of_var (new_parameter 0)) (Field "a"); CRet [Exp_variable (new_local_idx 0)]]].

Lemma sample_args f : length (params f) = 1 -> length (decls (locals f)) = 1 -> length (blocks f) = 2 -> arity f = 1 -> Forall (cmd_args f (Some 0)) (sample_script ≫= block_cmds).
Proof.
  intros Hp Hl Hb Ha. assert (forall i, i = 0 -> var_wf f (Some 0) (new_parameter i)) as Wp by (intros i ->; cbn; unfold num_parameters; lia).
  assert (forall i, i = 0 -> var_wf f (Some 0) (new_local_idx i)) as Wl by (intros i ->; cbn; lia).
  cbn [sample_script mbind list_bind block_cmds app]. repeat (apply Forall_cons_2 with (P := cmd_args f (Some 0))); try done; cbn [cmd_args].
  - split; [done|]. rewrite Hb. repeat constructor.
  - split_and!; [by apply Wp|done|repeat constructor; vm_compute; discriminate|vm_compute; discriminate|vm_compute; set_solver|done|]. repeat constructor; done.
  - split_and!; [by apply Wl|done|by constructor|vm_compute; discriminate|apply not_elem_of_nil|done|]. apply Forall_singleton. split; intros ? [= <-]; [|split; [by repeat constructor|by apply Wp]]. split_and!; [done|vm_compute; discriminate|vm_compute; set_solver].
  - split_and!; [apply Forall_singleton; by apply Wl| |by rewrite Ha]. apply Forall_singleton. split; [|done]. intros ? [= <-]. split_and!; [done|vm_compute; discriminate|apply not_elem_of_nil].
Qed.

