(* ===== verification/Vmt.v ===== *)
(** * Vmt: what an import says about its functions and types ([VirtualMethodTable] of [ctadl-ir/src/cir/call.rs])

    The table of the names each IR function is known by, and, per language, the rows call resolution joins.  [type_facts] reads
    off a Java table which interfaces are functional.  [Symbol]s are strings: they are interned, and equal exactly when their texts are.
    The order [finish_names] sorts them by is the interner's, a parameter of which only totality is used.  A [HashMap] or [HashSet] is iterated in
    an order that does not show in the results. *)

From S2P Require Import Prelude Index Text IR.

(** ** Names *)

Record FunctionNames : Type := mk_fn {
  fq : string;
  simple : string;
  other : list string;
  fn_parent : option string;
  fn_signature : option string;
}.

Definition fn_new (fq simple : string) : FunctionNames := mk_fn fq simple [] None None.
Definition with_parent (n : FunctionNames) (parent : string) : FunctionNames := mk_fn (fq n) (simple n) (other n) (Some parent) (fn_signature n).
Definition with_signature (n : FunctionNames) (signature : string) : FunctionNames := mk_fn (fq n) (simple n) (other n) (fn_parent n) (Some signature).
Definition with_other (n : FunctionNames) (nm : string) : FunctionNames :=
  if negb (bool_decide (nm = fq n)) && negb (bool_decide (nm = simple n)) && negb (bool_decide (nm ∈ other n))
  then mk_fn (fq n) (simple n) (other n ++ [nm]) (fn_parent n) (fn_signature n) else n.

(** ** Tables *)

(** The newtypes [JavaClass], [CilMethod] and the like are the symbols they wrap. *)
Inductive Dispatch : Type :=
| Dispatch_Unknown
| Dispatch_Java (methods : list (string * string * string * string)) (hierarchy : gmap string (list string)) (interfaces : list string)
    (abstract_methods : list (string * string * string)) (natives : list (string * string * string * string * bool))
| Dispatch_Native
| Dispatch_Lua (methods : list (string * string * string)) (hierarchy : gmap string (list string))
| Dispatch_Cil (methods : list (string * string * string * string)) (hierarchy : gmap string (list string)) (interfaces : list string)
    (abstract_methods : list (string * string * string)) (pinvokes : list (string * string * string * string * string * string)).

Record VirtualMethodTable : Type := mk_vmt { names : list FunctionNames; dispatch : Dispatch }.

Definition vmt_new (d : Dispatch) : VirtualMethodTable := mk_vmt [] d.
Definition new_java : VirtualMethodTable := vmt_new (Dispatch_Java [] ∅ [] [] []).
Definition new_native : VirtualMethodTable := vmt_new Dispatch_Native.
Definition new_cil : VirtualMethodTable := vmt_new (Dispatch_Cil [] ∅ [] [] []).
Definition new_lua : VirtualMethodTable := vmt_new (Dispatch_Lua [] ∅).

Definition implemented (d : Dispatch) : list (string * string * string * string) :=
  match d with
  | Dispatch_Java methods _ _ _ _ => methods
  | Dispatch_Cil methods _ _ _ _ => methods
  | Dispatch_Lua methods _ => map (fun '(c, n, m) => (c, n, "", m)) methods
  | Dispatch_Unknown | Dispatch_Native => []
  end.

Definition edges_of (hierarchy : gmap string (list string)) : list (string * string) :=
  map_to_list hierarchy ≫= fun '(sub, sups) => map (fun sup => (sub, sup)) sups.
Definition hierarchy_edges (d : Dispatch) : list (string * string) :=
  match d with
  | Dispatch_Java _ hierarchy _ _ _ => edges_of hierarchy
  | Dispatch_Cil _ hierarchy _ _ _ => edges_of hierarchy
  | Dispatch_Lua _ hierarchy => edges_of hierarchy
  | Dispatch_Unknown | Dispatch_Native => []
  end.

Definition interface_types (d : Dispatch) : list string :=
  match d with
  | Dispatch_Java _ _ interfaces _ _ => interfaces
  | Dispatch_Cil _ _ interfaces _ _ => interfaces
  | _ => []
  end.

(** ** Functional interfaces *)

Definition OBJECT_METHODS : list (string * string) := [("toString", "()Ljava/lang/String;"); ("equals", "(Ljava/lang/Object;)Z"); ("hashCode", "()I")].

Record TypeFacts : Type := mk_facts { facts_interfaces : gset string; single_abstract_method : gset string }.
Definition TypeFacts_default : TypeFacts := mk_facts ∅ ∅.
Definition facts_is_empty (t : TypeFacts) : bool := bool_decide (facts_interfaces t = ∅).
Definition receiver_is_interface (t : TypeFacts) (cls : string) : option bool :=
  if negb (facts_is_empty t) then Some (bool_decide (cls ∈ facts_interfaces t)) else None.

(** The methods of each class, by name and descriptor. *)
Notation method_map := (gmap string (gset (string * string))).

(** [entry(cls).or_default().insert(m)]. *)
Definition add_method (t : method_map) (cls : string) (m : string * string) : method_map := <[cls := {[m]} ∪ default ∅ (t !! cls)]> t.

Definition declared_methods (abstract_methods : list (string * string * string)) : method_map :=
  foldl (fun t '(cls, nm, desc) => add_method t cls (nm, desc)) ∅ abstract_methods.

Definition implemented_methods (declared : method_map) (methods : list (string * string * string * string)) : method_map :=
  foldl (fun t '(cls, nm, desc, _) =>
    match declared !! cls with
    | Some ms => if bool_decide ((nm, desc) ∈ ms) then t else add_method t cls (nm, desc)
    | None => add_method t cls (nm, desc)
    end) ∅ methods.

Section closure.
Context (hierarchy : gmap string (list string)) (interfaces : gset string).

Definition visit_parent (st : list string * gset string) (parent : string) : list string * gset string :=
  let '(closure, seen) := st in
  if bool_decide (parent ∈ interfaces) && bool_decide (parent ∉ seen) then (closure ++ [parent], {[parent]} ∪ seen) else (closure, seen).

(** [while next < closure.len()]. *)
Fixpoint closure_loop (fuel next : nat) (closure : list string) (seen : gset string) : outcome (list string) :=
  match fuel with
  | 0 => OutOfFuel
  | S fuel =>
      if decide (next < length closure) then
        cls ← iv_index closure next;
        let '(closure, seen) := match hierarchy !! cls with
                                | None => (closure, seen)
                                | Some parents => foldl visit_parent (closure, seen) parents
                                end in
        closure_loop fuel (next + 1) closure seen
      else Ret closure
  end.
End closure.

Definition closure_abstracts (declared implemented : method_map) (closure : list string) : gset (string * string) :=
  let abstracts := foldl (fun a cls => match declared !! cls with Some ms => a ∪ ms | None => a end) ∅ closure in
  let abstracts := foldl (fun a cls => match implemented !! cls with Some ms => a ∖ ms | None => a end) abstracts closure in
  foldl (fun a m => a ∖ {[m]}) abstracts OBJECT_METHODS.

Definition type_facts (fuel : nat) (t : VirtualMethodTable) : outcome TypeFacts :=
  match dispatch t with
  | Dispatch_Java methods hierarchy interfaces abstract_methods _ =>
      let interfaces : gset string := list_to_set interfaces in
      let declared := declared_methods abstract_methods in
      let implemented := implemented_methods declared methods in
      sam ← foldM (fun (sam : gset string) iface =>
              closure ← closure_loop hierarchy interfaces fuel 0 [iface] {[iface]};
              Ret (if decide (size (closure_abstracts declared implemented closure) = 1) then {[iface]} ∪ sam else sam))
            ∅ (elements interfaces);
      Ret (mk_facts interfaces sam)
  | _ => Ret TypeFacts_default
  end.

(** ** The name table *)

Section sorting.
Context (cmp_le : string -> string -> Prop) {Hdec : RelDecision cmp_le}.

(** [sort_by], which is stable. *)
Fixpoint insert_name (n : FunctionNames) (l : list FunctionNames) : list FunctionNames :=
  match l with
  | [] => [n]
  | m :: l' => if decide (cmp_le (fq n) (fq m)) then n :: l else m :: insert_name n l'
  end.
Definition sort_names (l : list FunctionNames) : list FunctionNames := foldr insert_name [] l.

(** [dedup_by], from the entry last kept. *)
Fixpoint dedup_from (kept : FunctionNames) (l : list FunctionNames) : list FunctionNames :=
  match l with
  | [] => [kept]
  | n :: l' => if decide (fq n = fq kept) then dedup_from kept l' else kept :: dedup_from n l'
  end.
Definition dedup_names (l : list FunctionNames) : list FunctionNames := match l with [] => [] | n :: l' => dedup_from n l' end.

Definition finish_names (t : VirtualMethodTable) : VirtualMethodTable := mk_vmt (dedup_names (sort_names (names t))) (dispatch t).

Definition named_by_ir (program : Program) : VirtualMethodTable :=
  finish_names (mk_vmt (map (fun f => fn_new (name f) (name f)) (functions program)) Dispatch_Unknown).
End sorting.

(** The set of names seen, or the error of the first entry whose name was seen before. *)
Fixpoint seen_names (seen : gset string) (l : list FunctionNames) : result string (gset string) :=
  match l with
  | [] => Ok seen
  | n :: l' => if decide (fq n ∈ seen) then Err ("function " +:+ fq n +:+ " has two name table entries") else seen_names ({[fq n]} ∪ seen) l'
  end.

Definition check_names (t : VirtualMethodTable) (fs : list string) : result string unit :=
  match seen_names ∅ (names t) with
  | Err e => Err e
  | Ok seen =>
      match filter (fun f => f ∉ seen) fs with
      | [] => Ok tt
      | (first :: _) as missing => Err (show_nat (length missing) +:+ " function(s) have no name table entry, the first " +:+ first)
      end
  end.

(** ** The closure of an interface *)

Lemma prefix_elem {A} (l l' : list A) x : x ∈ l -> l `prefix_of` l' -> x ∈ l'.
Proof. intros Hx [k ->]. apply elem_of_app. by left. Qed.

Section closure_spec.
Context (hierarchy : gmap string (list string)) (interfaces : gset string).

Definition super_interface (c p : string) : Prop := exists parents, hierarchy !! c = Some parents /\ p ∈ parents /\ p ∈ interfaces.

(** The classes found so far, from [iface]. *)
Record found_from (iface : string) (closure : list string) (seen : gset string) : Prop := {
  ff_NoDup : NoDup closure;
  ff_seen : forall c, c ∈ closure <-> c ∈ seen;
  ff_sub : forall c, c ∈ closure -> c ∈ interfaces /\ rtc super_interface iface c;
  ff_start : iface ∈ closure;
}.

Lemma visit_parents_spec iface c parents : (forall p, p ∈ parents -> p ∈ interfaces -> super_interface c p) -> forall closure seen, found_from iface closure seen -> c ∈ closure ->
  let '(closure', seen') := foldl (visit_parent interfaces) (closure, seen) parents in
  found_from iface closure' seen' /\ closure `prefix_of` closure' /\ forall p, p ∈ parents -> p ∈ interfaces -> p ∈ closure'.
Proof.
  induction parents as [|p parents IH]; intros Hsup closure seen Hf Hc; cbn [foldl].
  { split_and!; [done|done|]. by intros p ?%not_elem_of_nil. }
  assert (exists cl1 seen1, visit_parent interfaces (closure, seen) p = (cl1, seen1) /\ found_from iface cl1 seen1 /\ closure `prefix_of` cl1 /\ (p ∈ interfaces -> p ∈ cl1)) as (cl1 & seen1 & -> & Hf1 & Hp1 & Hin1).
  { unfold visit_parent. destruct Hf as [Hnd Hs Hsub Hst]. destruct (bool_decide_reflect (p ∈ interfaces)) as [Hi|Hi]; [destruct (bool_decide_reflect (p ∉ seen)) as [Hn|Hn]|]; cbn [andb].
    - eexists _, _. split; [done|]. split_and!; [|by apply prefix_app_r|set_solver]. split.
      + apply NoDup_app. split_and!; [done|intros x Hx ->%list_elem_of_singleton; by apply Hn, Hs|apply NoDup_singleton].
      + set_solver.
      + intros x [Hx| ->%list_elem_of_singleton]%elem_of_app; [by apply Hsub|]. split; [done|]. eapply rtc_r; [by apply Hsub|]. apply Hsup; [by left|done].
      + set_solver.
    - eexists _, _. split; [done|]. split_and!; [done|done|]. intros _. apply Hs. by apply dec_stable.
    - eexists _, _. split; [done|]. by split_and!. }
  specialize (IH (fun q Hq => Hsup q (list_elem_of_further _ _ _ Hq)) cl1 seen1 Hf1 (prefix_elem _ _ _ Hc Hp1)). destruct (foldl _ _ _) as [cl' seen']. destruct IH as (Hf' & Hp' & Hin').
  split_and!; [done|by etrans|]. intros q [->|Hq]%elem_of_cons Hqi; [|by apply Hin']. eapply prefix_elem; [by apply Hin1|done].
Qed.

(** The parents of the classes before [next] have been visited. *)
Definition parents_visited (next : nat) (closure : list string) : Prop := forall j c p, j < next -> closure !! j = Some c -> super_interface c p -> p ∈ closure.

Lemma closure_loop_spec iface fuel : forall next closure seen, found_from iface closure seen -> parents_visited next closure -> next <= length closure -> size interfaces - next < fuel ->
  exists closure', closure_loop hierarchy interfaces fuel next closure seen = Ret closure' /\ forall c, c ∈ closure' <-> rtc super_interface iface c.
Proof.
  induction fuel as [|fuel IH]; intros next closure seen Hf Hv Hn Hfuel; [lia|]. cbn [closure_loop].
  assert (length closure <= size interfaces) as Hsz.
  { rewrite <- (size_list_to_set (C := gset string) closure) by apply Hf. apply subseteq_size. intros c. rewrite elem_of_list_to_set. apply Hf. }
  destruct (decide (next < length closure)) as [Hlt|Hge].
  - destruct (lookup_lt_is_Some_2 _ _ Hlt) as [cls Ec]. unfold iv_index. rewrite Ec. cbn [unwrap mbind outcome_bind].
    assert (cls ∈ closure) as Hc by (by eapply list_elem_of_lookup_2).
    assert (exists cl' seen', match hierarchy !! cls with None => (closure, seen) | Some parents => foldl (visit_parent interfaces) (closure, seen) parents end = (cl', seen') /\
      found_from iface cl' seen' /\ closure `prefix_of` cl' /\ forall p, super_interface cls p -> p ∈ cl') as (cl' & seen' & -> & Hf' & Hp & Hin).
    { destruct (hierarchy !! cls) as [parents|] eqn:Eh.
      - pose proof (visit_parents_spec iface cls parents (fun p Hp Hi => ex_intro _ parents (conj Eh (conj Hp Hi))) closure seen Hf Hc) as H. destruct (foldl _ _ _) as [cl' seen']. exists cl', seen'.
        destruct H as (? & ? & H). split_and!; [done..|]. intros p (ps & E & Hp & Hi). rewrite Eh in E. injection E as <-. by apply H.
      - exists closure, seen. split_and!; [done..|]. intros p (ps & E & _). congruence. }
    apply (IH (next + 1) cl' seen'); [done| |apply prefix_length in Hp; lia|lia].
    intros j c p Hj Hjc Hsup. destruct (decide (j = next)) as [->|Hne].
    + apply (prefix_lookup_Some _ _ _ _ Ec) in Hp. rewrite Hp in Hjc. injection Hjc as <-. by apply Hin.
    + destruct (lookup_lt_is_Some_2 closure j) as [c' Ec']; [lia|]. pose proof (prefix_lookup_Some _ _ _ _ Ec' Hp) as E. rewrite E in Hjc. injection Hjc as <-.
      eapply prefix_elem; [|exact Hp]. eapply (Hv j); [lia|done..].
  - exists closure. split; [done|]. intros c. split; [apply Hf|]. revert c. refine (rtc_ind_r (fun c => c ∈ closure) iface _ _); [by eapply ff_start|]. intros c p _ Hcp [j Hj]%list_elem_of_lookup.
    eapply (Hv j); [|done..]. apply lookup_lt_Some in Hj. lia.
Qed.
End closure_spec.

(** ** The method maps *)

Notation has t cls m := (exists ms, t !! cls = Some ms /\ m ∈ ms).

Lemma add_method_has (t : method_map) cls m cls' m' : has (add_method t cls m) cls' m' <-> has t cls' m' \/ (cls' = cls /\ m' = m).
Proof.
  unfold add_method. destruct (decide (cls' = cls)) as [->|Hne].
  - split.
    + intros (ms & E & Hm). rewrite lookup_insert_eq in E. injection E as <-. apply elem_of_union in Hm as [->%elem_of_singleton|Hm]; [by right|]. left.
      destruct (t !! cls) as [ms|] eqn:E; [by exists ms|]. by apply elem_of_empty in Hm.
    + intros [(ms & E & Hm)|[_ ->]]; (eexists; split; [apply lookup_insert_eq|]); [rewrite E|]; set_solver.
  - rewrite lookup_insert_ne by done. naive_solver.
Qed.

Lemma declared_has l cls m : has (declared_methods l) cls m <-> (cls, m.1, m.2) ∈ l.
Proof.
  unfold declared_methods. assert (forall t : method_map, has (foldl (fun t '(cls, nm, desc) => add_method t cls (nm, desc)) t l) cls m <-> has t cls m \/ (cls, m.1, m.2) ∈ l) as H.
  { induction l as [|[[c n] d] l IH]; intros t; cbn [foldl]; [rewrite elem_of_nil; tauto|]. rewrite IH, add_method_has, elem_of_cons. destruct m as [n' d']. cbn. naive_solver. }
  rewrite H. split; [|by right]. intros [(ms & E & _)|?]; [by rewrite lookup_empty in E|done].
Qed.

Lemma implemented_has (declared : method_map) l cls m : has (implemented_methods declared l) cls m <-> (exists id, (cls, m.1, m.2, id) ∈ l) /\ ~ has declared cls m.
Proof.
  unfold implemented_methods. set (step := fun (t : method_map) _ => _). assert (forall t : method_map, has (foldl step t l) cls m <-> has t cls m \/ ((exists id, (cls, m.1, m.2, id) ∈ l) /\ ~ has declared cls m)) as H.
  { induction l as [|[[[c n] d] i] l IH]; intros t; cbn [foldl]; [setoid_rewrite elem_of_nil; naive_solver|]. rewrite IH.
    assert (has (step t (c, n, d, i)) cls m <-> has t cls m \/ (cls = c /\ m = (n, d) /\ ~ has declared cls m)) as ->.
    { unfold step. destruct (declared !! c) as [ms|] eqn:E; [destruct (bool_decide_reflect ((n, d) ∈ ms))|]; rewrite ?add_method_has; naive_solver. }
    setoid_rewrite elem_of_cons. destruct m as [n' d']. cbn. naive_solver. }
  rewrite H. split; [|by right]. intros [(ms & E & _)|?]; [by rewrite lookup_empty in E|done].
Qed.

Lemma closure_abstracts_spec (declared implemented : method_map) closure m : m ∈ closure_abstracts declared implemented closure <->
  (exists c, c ∈ closure /\ has declared c m) /\ ~ (exists c, c ∈ closure /\ has implemented c m) /\ m ∉ OBJECT_METHODS.
Proof.
  unfold closure_abstracts.
  assert (forall l (a : gset (string * string)), m ∈ foldl (fun a m => a ∖ {[m]}) a l <-> m ∈ a /\ m ∉ l) as ->.
  { induction l as [|x l IH]; intros a; cbn [foldl]; [set_solver|]. rewrite IH. set_solver. }
  assert (forall l (a : gset (string * string)), m ∈ foldl (fun a cls => match implemented !! cls with Some ms => a ∖ ms | None => a end) a l <-> m ∈ a /\ ~ exists c, c ∈ l /\ has implemented c m) as ->.
  { induction l as [|x l IH]; intros a; cbn [foldl]; [set_solver|]. rewrite IH. setoid_rewrite elem_of_cons. destruct (implemented !! x) as [ms|] eqn:E; rewrite ?elem_of_difference; naive_solver. }
  assert (forall l (a : gset (string * string)), m ∈ foldl (fun a cls => match declared !! cls with Some ms => a ∪ ms | None => a end) a l <-> m ∈ a \/ exists c, c ∈ l /\ has declared c m) as ->.
  { induction l as [|x l IH]; intros a; cbn [foldl]; [set_solver|]. rewrite IH. setoid_rewrite elem_of_cons. destruct (declared !! x) as [ms|] eqn:E; rewrite ?elem_of_union; naive_solver. }
  set_solver.
Qed.

(** ** Functional interfaces, declaratively *)

Lemma size_list_to_set_le (l : list string) : size (list_to_set l : gset string) <= length l.
Proof.
  induction l as [|x l IH]; cbn [list_to_set foldr length]; [by rewrite size_empty|]. rewrite size_union_alt, size_singleton.
  assert (size (list_to_set l ∖ {[x]} : gset string) <= size (list_to_set l : gset string)) by (apply subseteq_size; set_solver). lia.
Qed.

Section functional.
Context (methods : list (string * string * string * string)) (hierarchy : gmap string (list string)) (interfaces : list string)
  (abstract_methods : list (string * string * string)).

(** [c] is [iface] or an interface it extends, directly or not. *)
Definition extends_interface (iface c : string) : Prop := rtc (super_interface hierarchy (list_to_set interfaces)) iface c.

(** [m] is abstract in [iface]: one of the interfaces declares it so, none has a body for it, and it is not one of [Object]'s. *)
Definition abstract_in (iface : string) (m : string * string) : Prop :=
  (exists c, extends_interface iface c /\ (c, m.1, m.2) ∈ abstract_methods) /\
  ~ (exists c id, extends_interface iface c /\ (c, m.1, m.2, id) ∈ methods /\ (c, m.1, m.2) ∉ abstract_methods) /\
  m ∉ OBJECT_METHODS.

Definition one_abstract (iface : string) : Prop := exists m, abstract_in iface m /\ forall m', abstract_in iface m' -> m' = m.

Lemma closure_abstracts_in iface closure : (forall c, c ∈ closure <-> extends_interface iface c) -> forall m,
  m ∈ closure_abstracts (declared_methods abstract_methods) (implemented_methods (declared_methods abstract_methods) methods) closure <-> abstract_in iface m.
Proof.
  intros Hc m. rewrite closure_abstracts_spec. unfold abstract_in. setoid_rewrite implemented_has. setoid_rewrite declared_has. setoid_rewrite Hc. naive_solver.
Qed.

Lemma size_one_unique (s : gset (string * string)) (Q : string * string -> Prop) : (forall m, m ∈ s <-> Q m) -> size s = 1 <-> exists m, Q m /\ forall m', Q m' -> m' = m.
Proof.
  intros Hs. split.
  - intros [m E]%size_1_elem_of. exists m. setoid_rewrite <- Hs. set_solver.
  - intros (m & Hm & Hu). assert (s = {[m]}) as ->; [|apply size_singleton]. apply set_eq. intros m'. rewrite elem_of_singleton, Hs. naive_solver.
Qed.

Lemma closure_of_interface fuel iface : length interfaces < fuel -> iface ∈ interfaces ->
  exists closure, closure_loop hierarchy (list_to_set interfaces) fuel 0 [iface] {[iface]} = Ret closure /\ forall c, c ∈ closure <-> extends_interface iface c.
Proof.
  intros Hf Hi. apply closure_loop_spec; [|intros j c p ?; lia|cbn; lia|].
  - split; [apply NoDup_singleton|set_solver| |by left]. intros c ->%list_elem_of_singleton. split; [by apply elem_of_list_to_set|done].
  - pose proof (size_list_to_set_le interfaces). lia.
Qed.
End functional.

(** C36: [type_facts] finds the functional interfaces of a Java table.  With fuel for the interfaces it declares it returns; [interfaces] is the
    column as a set; and [single_abstract_method] holds exactly the declared interfaces in which one method, no more, is abstract: declared so
    by the interface or one it extends, directly or not and through cycles, with a body in none of them, and not one of [Object]'s.  An entry
    of [methods] that is an abstract declaration of its class is not a body, and a row that occurs twice counts once. *)
Theorem type_facts_correct (ns : list FunctionNames) methods hierarchy interfaces abstract_methods natives (fuel : nat) (Hf : length interfaces < fuel) :
  exists t, type_facts fuel (mk_vmt ns (Dispatch_Java methods hierarchy interfaces abstract_methods natives)) = Ret t /\
    facts_interfaces t = list_to_set interfaces /\
    forall i, i ∈ single_abstract_method t <->
      i ∈ interfaces /\ one_abstract methods hierarchy interfaces abstract_methods i.
Proof.
  unfold type_facts. cbn [dispatch]. set (P := one_abstract methods hierarchy interfaces abstract_methods). set (step := fun sam iface => _).
  assert (forall l sam, (forall i, i ∈ l -> i ∈ interfaces) -> exists sam', foldM step sam l = Ret sam' /\ forall i, i ∈ sam' <-> i ∈ sam \/ (i ∈ l /\ P i)) as H.
  { induction l as [|i l IH]; intros sam Hl; cbn [foldM]; [exists sam; split; [done|]; intros i; rewrite elem_of_nil; tauto|].
    destruct (closure_of_interface hierarchy interfaces fuel i Hf (Hl i (list_elem_of_here _ _))) as (closure & E & Hc).
    unfold step at 1. rewrite E. cbn [mbind outcome_bind]. set (sam1 := if decide _ then _ else _).
    assert (forall j, j ∈ sam1 <-> j ∈ sam \/ (j = i /\ P j)) as H1.
    { intros j. pose proof (size_one_unique _ _ (closure_abstracts_in methods hierarchy interfaces abstract_methods i closure Hc)) as Hs. subst sam1. case_decide as Hd.
      - rewrite elem_of_union, elem_of_singleton. apply Hs in Hd. fold (P i) in Hd. naive_solver.
      - split; [by left|]. intros [?|[-> HP]]; [done|]. by apply Hs in HP. }
    destruct (IH sam1) as (sam' & -> & H'); [set_solver|]. exists sam'. split; [done|]. intros j. rewrite H', H1, elem_of_cons. naive_solver. }
  destruct (H (elements (list_to_set interfaces : gset string)) ∅) as (sam & -> & Hsam); [intros i; by rewrite elem_of_elements, elem_of_list_to_set|].
  cbn [mbind outcome_bind]. eexists. split; [done|]. cbn. split; [done|]. intros i. rewrite Hsam, elem_of_elements, elem_of_list_to_set. set_solver.
Qed.

(** [LI;] extends [LBase;], which declares two abstract methods, and has a body for one of them. *)
Definition default_methods : list (string * string * string * string) :=
  [("LI;", "helper", "()V", "LI;->helper()V"); ("LBase;", "run", "()V", "LBase;->run()V"); ("LBase;", "helper", "()V", "LBase;->helper()V")].
Definition default_abstract : list (string * string * string) := [("LBase;", "run", "()V"); ("LBase;", "helper", "()V")].
Definition default_table : VirtualMethodTable :=
  mk_vmt [] (Dispatch_Java default_methods {["LI;" := ["LBase;"]]} ["LBase;"; "LI;"] default_abstract []).

Lemma type_facts_correct_witness : exists t, type_facts 3 default_table = Ret t /\ single_abstract_method t = {["LI;"]} /\
  one_abstract default_methods {["LI;" := ["LBase;"]]} ["LBase;"; "LI;"] default_abstract "LI;".
Proof.
  destruct (type_facts_correct [] default_methods {["LI;" := ["LBase;"]]} ["LBase;"; "LI;"] default_abstract [] 3) as (t & E & _ & H); [cbn; lia|].
  assert (single_abstract_method t = {["LI;"]}) as Et. { vm_compute in E. injection E as <-. reflexivity. }
  exists t. split; [exact E|]. split; [exact Et|]. apply H. rewrite Et. by apply elem_of_singleton.
Defined.

(** ** The name table *)

Lemma seen_names_spec l : forall seen, match seen_names seen l with
  | Ok seen' => NoDup (map fq l) /\ (forall n, n ∈ map fq l -> n ∉ seen) /\ seen' = seen ∪ list_to_set (map fq l)
  | Err _ => ~ (NoDup (map fq l) /\ forall n, n ∈ map fq l -> n ∉ seen)
  end.
Proof.
  induction l as [|n l IH]; intros seen; cbn [seen_names map]; [split_and!; [constructor|by intros ? ?%not_elem_of_nil|set_solver]|].
  destruct (decide (fq n ∈ seen)) as [Hin|Hin]; [intros [_ H]; by apply (H (fq n)); [left|]|]. specialize (IH ({[fq n]} ∪ seen)). destruct (seen_names _ l) as [seen'|e].
  - destruct IH as (Hnd & Hs & ->). split_and!; [constructor; [|done]; set_solver| |]; set_solver.
  - intros [[Hn Hnd]%NoDup_cons Hs]. apply IH. split; [done|]. intros m Hm. specialize (Hs m (list_elem_of_further _ _ _ Hm)). set_solver.
Qed.

(** [check_names] accepts exactly the tables with one entry per name and one for every function. *)
Lemma check_names_spec t fs : check_names t fs = Ok tt <-> NoDup (map fq (names t)) /\ forall f, f ∈ fs -> f ∈ map fq (names t).
Proof.
  unfold check_names. pose proof (seen_names_spec (names t) ∅) as H. destruct (seen_names ∅ (names t)) as [seen|e].
  - destruct H as (Hnd & _ & ->). destruct (filter _ fs) as [|f l] eqn:E; (split; [intros Hok|intros [_ Hall]]); [|done|done|].
    + split; [done|]. intros f Hf. apply dec_stable. intros Hn. apply (not_elem_of_nil f). rewrite <- E. apply list_elem_of_filter. set_solver.
    + assert (f ∈ f :: l) as Hf by left. rewrite <- E in Hf. apply list_elem_of_filter in Hf as [Hn Hf]. apply Hall in Hf. set_solver.
  - split; [done|]. intros [Hnd _]. exfalso. apply H. split; [done|set_solver].
Qed.

Section names_spec.
Context (cmp_le : string -> string -> Prop) {Hdec : RelDecision cmp_le}.
Hypothesis Hord : TotalOrder cmp_le.

Notation first_of l n := (List.find (fun e => bool_decide (fq e = n)) l).
Notation sorted l := (StronglySorted cmp_le (map fq l)).

Lemma insert_name_spec n l : sorted l -> sorted (insert_name cmp_le n l) /\ (forall x, x ∈ insert_name cmp_le n l <-> x = n \/ x ∈ l) /\
  forall k, first_of (insert_name cmp_le n l) k = if decide (fq n = k) then Some n else first_of l k.
Proof.
  induction l as [|m l IH]; intros Hs; cbn [insert_name map].
  - split_and!; [by repeat constructor|set_solver|]. intros k. cbn [List.find]. by repeat case_decide; repeat case_bool_decide.
  - inversion Hs as [|? ? Hs' Hm]; subst. destruct (decide (cmp_le (fq n) (fq m))) as [Hle|Hle].
    + split_and!; [|set_solver|].
      * constructor; [done|]. constructor; [done|]. eapply Forall_impl; [exact Hm|]. intros x Hx. by etrans.
      * intros k. cbn [List.find]. by case_decide; case_bool_decide.
    + destruct (IH Hs') as (IHs & IHx & IHf). assert (cmp_le (fq m) (fq n)) as Hmn by (destruct (total cmp_le (fq n) (fq m)); done). split_and!.
      * cbn [map]. constructor; [done|]. apply Forall_fmap, Forall_forall. intros x [->|Hx]%IHx; [done|]. rewrite Forall_fmap, Forall_forall in Hm. by apply Hm.
      * set_solver.
      * intros k. cbn [List.find]. rewrite IHf. case_bool_decide; case_decide; try done. subst. exfalso. apply Hle. replace (fq n) with (fq m) by congruence. done.
Qed.

Lemma sort_names_spec l : sorted (sort_names cmp_le l) /\ (forall x, x ∈ sort_names cmp_le l <-> x ∈ l) /\ forall k, first_of (sort_names cmp_le l) k = first_of l k.
Proof.
  induction l as [|n l (Hs & Hx & Hf)]; cbn [sort_names foldr]; [split_and!; [constructor|done|done]|]. fold (sort_names cmp_le l).
  destruct (insert_name_spec n (sort_names cmp_le l) Hs) as (Hs' & Hx' & Hf'). split_and!; [done|set_solver|]. intros k. rewrite Hf'. cbn [List.find]. rewrite Hf. by case_decide; case_bool_decide.
Qed.

Lemma dedup_from_spec l : forall kept, sorted (kept :: l) -> exists rest, dedup_from kept l = kept :: rest /\ (forall x, x ∈ rest -> x ∈ l /\ fq x <> fq kept) /\
  NoDup (map fq rest) /\ sorted rest /\ forall k, first_of (dedup_from kept l) k = first_of (kept :: l) k.
Proof.
  induction l as [|n l IH]; intros kept Hs; cbn [dedup_from]; [exists []; split_and!; [done|set_solver|constructor|constructor|done]|].
  inversion Hs as [|? ? Hs' Hk]; subst. inversion Hs' as [|? ? Hs'' Hn]; subst. apply Forall_cons in Hk as [Hkn Hk]. destruct (decide (fq n = fq kept)) as [E|E].
  - destruct (IH kept) as (rest & Er & Hx & Hnd & Hss & Hf); [by constructor|]. exists rest. split_and!; [done| |done|done|]; [intros x Hr; destruct (Hx x Hr); set_solver|].
    intros k. rewrite Hf. cbn [List.find]. repeat case_bool_decide; congruence.
  - destruct (IH n Hs') as (rest & Er & Hx & Hnd & Hss & Hf). exists (n :: rest). rewrite Forall_fmap, Forall_forall in Hn. split_and!.
    + by rewrite Er.
    + intros x [->|Hr]%elem_of_cons; [split; [by left|done]|]. destruct (Hx x Hr) as [Hl _]. split; [by right|]. intros Ex. apply E, (anti_symm cmp_le); [|done]. rewrite <- Ex. by apply Hn.
    + cbn [map]. constructor; [|done]. intros (x & Ex & Hr)%list_elem_of_fmap. destruct (Hx x Hr). congruence.
    + cbn [map]. constructor; [done|]. apply Forall_fmap, Forall_forall. intros x Hr. apply Hn. by apply Hx.
    + intros k. cbn [List.find] in *. by rewrite Hf.
Qed.

(** [finish_names] sorts the table, and for each name keeps the entry that came first; a table that has an entry for every
    function then passes [check_names]. *)
Theorem finish_names_correct (t : VirtualMethodTable) :
  let t' := finish_names cmp_le t in
  dispatch t' = dispatch t /\ sorted (names t') /\ NoDup (map fq (names t')) /\ (forall k, first_of (names t') k = first_of (names t) k) /\
  forall fs, check_names t' fs = Ok tt <-> forall f, f ∈ fs -> f ∈ map fq (names t).
Proof.
  destruct (sort_names_spec (names t)) as (Hs & Hx & Hf). unfold finish_names. cbn [names dispatch].
  assert (sorted (dedup_names (sort_names cmp_le (names t))) /\ NoDup (map fq (dedup_names (sort_names cmp_le (names t)))) /\
    forall k, first_of (dedup_names (sort_names cmp_le (names t))) k = first_of (names t) k) as (Hs' & Hnd & Hf').
  { setoid_rewrite <- Hf. destruct (sort_names cmp_le (names t)) as [|n l]; cbn [dedup_names]; [split_and!; [constructor|constructor|done]|].
    destruct (dedup_from_spec l n Hs) as (rest & E & Hr & Hnd & Hss & Hk). split_and!; [| |done]; rewrite E; cbn [map]; constructor; try done.
    - inversion Hs as [|? ? _ Hn]; subst. rewrite Forall_fmap, Forall_forall in Hn |- *. intros x Hin. apply Hn. by apply Hr.
    - intros (x & Ex & Hin)%list_elem_of_fmap. destruct (Hr x Hin). congruence. }
  split_and!; [done..|]. intros fs. rewrite check_names_spec. cbn [names].
  assert (forall l k, k ∈ map fq l <-> first_of l k <> None) as Hin.
  { induction l as [|x l IH]; intros k; cbn [map List.find]; [set_solver|]. rewrite elem_of_cons, IH. case_bool_decide; naive_solver. }
  setoid_rewrite Hin. setoid_rewrite Hf'. naive_solver.
Qed.

(** A front end whose IR names are the source's has named every function. *)
Corollary named_by_ir_checks (program : Program) : check_names (named_by_ir cmp_le program) (map name (functions program)) = Ok tt.
Proof.
  apply finish_names_correct. intros f. cbn [names]. rewrite map_map. done.
Qed.
End names_spec.

Example finish_names_example : map simple (names (finish_names String.le (mk_vmt [fn_new "g" "a"; fn_new "f" "b"; fn_new "g" "c"] Dispatch_Unknown))) = ["b"; "a"] /\
  check_names (named_by_ir String.le {| functions := []; globals := Globals_default |}) ["f"] = Err "1 function(s) have no name table entry, the first f".
Proof. split; vm_compute; reflexivity. Qed.
