(* ===== verification/Coalesce.v ===== *)
(** * Coalesce: copy coalescing ([ctadl-ir/src/ssa/coalesce/mod.rs])

    The pass fuses a copy into a temporary that is defined once and read once, in the same
    block, into its use, and deletes the copy.  The model keeps the source's shape: use and
    definition counts over the function, then per block one pass over the statements with the
    map [pending] of fusable definitions and the list [dead] of positions to delete.

    The theorem is a simulation: under any interpretation of values, loads, stores and calls,
    every path through the control-flow graph leaves the same heap and returns the same values
    before and after the pass, and the deleted temporaries are read nowhere. *)

From S2P Require Import Prelude Index Text Path IR.

(** Position in the block, right-hand side, and the variables it reads. *)
Record Pending : Type := { stmt_pos : nat; p_sources : list Exp; src_vars : list Var }.

Notation FuseState := (prod (gmap Var Pending) (list nat)).

(** ** The pass *)

(** [*map.entry(v).or_default() += 1] for every [v]. *)
Definition bump (m : gmap Var nat) (v : Var) : gmap Var nat := <[v := S (default 0 (m !! v))]> m.
Definition count_vars (l : list Var) : gmap Var nat := foldl bump ∅ l.

Definition block_dst_vars (b : BasicBlockData) : list VariableRef := statements b ≫= fun s => iter_dst_var (kind s).

Definition use_counts (f : FunctionData) : gmap Var nat := count_vars (map variable (blocks f ≫= block_src_vars)).
Definition def_counts (f : FunctionData) : gmap Var nat := count_vars (map variable (blocks f ≫= block_dst_vars)).

Definition is_candidate_var (defs uses : gmap Var nat) (v : Var) : bool :=
  is_local v && bool_decide (defs !! v = Some 1) && bool_decide (uses !! v = Some 1).

(** What a pending pure copy [t = src] substitutes for a read of [t]. *)
Definition subst_for (is_value in_assign : bool) (src : Exp) : option Exp :=
  match is_value, src with
  | true, Exp_Value y => Some (Exp_Value y)
  | true, Exp_Path y => if is_pathless y then Some (Exp_Value y) else None
  | true, _ => None
  | false, Exp_Value _ => if in_assign then Some src else None
  | false, _ => Some src
  end.

Definition try_subst_exp (e : Exp) (in_assign : bool) (st : FuseState) : Exp * FuseState :=
  let '(pending, dead) := st in
  let is_value := match e with Exp_Value _ => true | _ => false end in
  match access_path e with
  | None => (e, st)
  | Some ap =>
      if negb (is_pathless ap) then (e, st)
      else match version (base ap) with
      | Some _ => (e, st)
      | None =>
          match pending !! variable (base ap) with
          | None => (e, st)
          | Some p =>
              match p_sources p with
              | [src] =>
                  match subst_for is_value in_assign src with
                  | Some new_exp => (new_exp, (delete (variable (base ap)) pending, dead ++ [stmt_pos p]))
                  | None => (e, st)
                  end
              | _ => (e, st)
              end
          end
      end
  end.

Definition try_subst_address (addr : AccessPath) (st : FuseState) : AccessPath * FuseState :=
  let '(pending, dead) := st in
  match version (base addr) with
  | Some _ => (addr, st)
  | None =>
      match pending !! variable (base addr) with
      | None => (addr, st)
      | Some p =>
          match p_sources p with
          | [src] =>
              match variable_ref src with
              | Some def_var => (ap_set_base addr def_var, (delete (variable (base addr)) pending, dead ++ [stmt_pos p]))
              | None => (addr, st)
              end
          | _ => (addr, st)
          end
      end
  end.

(** [for e in es.iter_mut() { try_subst_exp(e, ...) }]. *)
Fixpoint subst_exps (es : list Exp) (in_assign : bool) (st : FuseState) : list Exp * FuseState :=
  match es with
  | [] => ([], st)
  | e :: es =>
      let '(e, st) := try_subst_exp e in_assign st in
      let '(es, st) := subst_exps es in_assign st in
      (e :: es, st)
  end.

(** The variable of a whole-variable copy [x = t] with [t] pending. *)
Definition whole_var_copy_of (srcs : list Exp) (pending : gmap Var Pending) : option (Var * Pending) :=
  match srcs with
  | [e] =>
      match variable_ref e with
      | Some v =>
          match version v, pending !! variable v with
          | None, Some p => Some (variable v, p)
          | _, _ => None
          end
      | None => None
      end
  | _ => None
  end.

(** (a): fuse pending definitions into the statement's reads. *)
Definition fuse_kind (k : StatementKind) (st : FuseState) : StatementKind * FuseState :=
  match k with
  | Assign dest srcs =>
      if negb (is_pathless dest) then let '(srcs, st) := subst_exps srcs false st in (Assign dest srcs, st)
      else match whole_var_copy_of srcs st.1 with
      | Some (v, p) => (Assign dest (p_sources p), (delete v st.1, st.2 ++ [stmt_pos p]))
      | None => let '(srcs, st) := subst_exps srcs true st in (Assign dest srcs, st)
      end
  | CallAssign style rets args =>
      let '(args, st) := subst_exps args false st in
      match style with
      | FuncPtrCall callee sg => let '(callee, st) := try_subst_address callee st in (CallAssign (FuncPtrCall callee sg) rets args, st)
      | _ => (CallAssign style rets args, st)
      end
  | Phi _ _ | Nop => (k, st)
  end.

(** (b): forget the definitions whose sources the statement may write. *)
Definition invalidate (k : StatementKind) (pending : gmap Var Pending) : gmap Var Pending :=
  let written := map variable (iter_dst_var k) ++
                 match k with CallAssign _ _ _ => map variable (iter_src_var k) | _ => [] end in
  filter (fun x : Var * Pending => Forall (fun sv => sv ∉ written) (src_vars x.2)) pending.

(** The variables the sources of a definition of [d] read, unless one is versioned or [d]. *)
Fixpoint source_vars (d : Var) (srcs : list Exp) : option (list Var) :=
  match srcs with
  | [] => Some []
  | e :: srcs =>
      match base_variable e with
      | None => source_vars d srcs
      | Some v =>
          match version v with
          | Some _ => None
          | None => if decide (variable v = d) then None else (fun l => variable v :: l) <$> source_vars d srcs
          end
      end
  end.

Definition only_offsets (e : Exp) : bool :=
  match access_path e with Some ap => forallb is_offset (segments ap) | None => true end.

(** (c): register the statement as a pending definition. *)
Definition register (cand : Var -> bool) (pos : nat) (k : StatementKind) (pending : gmap Var Pending) : gmap Var Pending :=
  match k with
  | Assign dest srcs =>
      if is_pathless dest && bool_decide (version (base dest) = None) && cand (variable (base dest)) &&
         negb (bool_decide (srcs = [])) && forallb only_offsets srcs
      then match source_vars (variable (base dest)) srcs with
           | Some vs => <[variable (base dest) := {| stmt_pos := pos; p_sources := srcs; src_vars := vs |}]> pending
           | None => pending
           end
      else pending
  | _ => pending
  end.

Definition coalesce_stmt (cand : Var -> bool) (pos : nat) (s : Statement) (st : FuseState) : Statement * FuseState :=
  let '(k, (pending, dead)) := fuse_kind (kind s) st in
  let pending := invalidate k pending in
  (with_kind s k, (register cand pos k pending, dead)).

Fixpoint coalesce_stmts (cand : Var -> bool) (pos : nat) (l : list Statement) (st : FuseState) : list Statement * FuseState :=
  match l with
  | [] => ([], st)
  | s :: l =>
      let '(s, st) := coalesce_stmt cand pos s st in
      let '(l, st) := coalesce_stmts cand (S pos) l st in
      (s :: l, st)
  end.

Definition coalesce_term (t : option Terminator) (st : FuseState) : option Terminator * FuseState :=
  match t with
  | Some t =>
      match term_kind t with
      | Return args => let '(args, st) := subst_exps args false st in (Some (term_with_kind t (Return args)), st)
      | Goto _ => (Some t, st)
      end
  | None => (None, st)
  end.

(** The peekable loop that skips the positions of the sorted list [dead]. *)
Fixpoint delete_dead (i : nat) (old : list Statement) (dead : list nat) : list Statement :=
  match old with
  | [] => []
  | s :: old =>
      match dead with
      | d :: dead' => if decide (d = i) then delete_dead (S i) old dead' else s :: delete_dead (S i) old dead
      | [] => s :: delete_dead (S i) old []
      end
  end.

Definition check_dead (uses : gmap Var nat) (stmts : list Statement) (pos : nat) : outcome unit :=
  def ← unwrap (stmts !! pos);
  rust_assert (forallb (fun v => bool_decide (uses !! variable v = Some 1)) (iter_dst_var (kind def))).

Definition coalesce_block (cand : Var -> bool) (uses : gmap Var nat) (b : BasicBlockData) : outcome (BasicBlockData * nat) :=
  let '(stmts, st) := coalesce_stmts cand 0 (statements b) (∅, []) in
  let '(term, (_, dead)) := coalesce_term (terminator b) st in
  _ ← foldM (fun _ pos => check_dead uses stmts pos) tt dead;
  Ret ({| statements := delete_dead 0 stmts (merge_sort (≤) dead); terminator := term |}, length dead).

Definition coalesce_function (f : FunctionData) : outcome (FunctionData * nat) :=
  if decide (blocks f = []) then Ret (f, 0)
  else
    let defs := def_counts f in
    let uses := use_counts f in
    '(bs, removed) ← foldM (fun '(bs, removed) b =>
        '(b, n) ← coalesce_block (is_candidate_var defs uses) uses b; Ret (bs ++ [b], removed + n)) ([], 0) (blocks f);
    Ret (with_blocks f bs, removed).

Definition coalesce_copies (p : Program) : outcome Program :=
  fs ← mapM_out (fun f => '(f, _) ← coalesce_function f; Ret f) (functions p);
  Ret {| functions := fs; globals := globals p |}.

(** ** What statements do

    Values [V] and heaps [H] are arbitrary, as are loads, stores, calls and constants.  What the
    laws say is all the pass relies on: an empty path reads the value itself, an offset reads no
    memory, [value] of a value is that value, and a single source is the source. *)

Class Interp (V H : Type) : Type := {
  rd : H -> path -> V -> V;
  vl : V -> V;
  cst : Exp -> V;
  join : list V -> V;
  put : H -> V -> path -> V -> H;
  call_heap : H -> CallStyle -> option V -> list V -> H;
  call_ret : H -> CallStyle -> option V -> list V -> nat -> V;
  phi : list (nat * V) -> V;
  rd_nil : forall h v, rd h [] v = v;
  rd_offsets : forall h h' p v, forallb is_offset p = true -> rd h p v = rd h' p v;
  vl_idem : forall v, vl (vl v) = vl v;
  join_single : forall v, join [v] = v;
}.

Section semantics.
Context `{Interp V H}.

Definition Env : Type := VariableRef -> V.

Definition upd (env : Env) (x : VariableRef) (v : V) : Env := fun y => if decide (y = x) then v else env y.

Definition ev_exp (env : Env) (h : H) (e : Exp) : V :=
  match e with
  | Exp_Path ap => rd h (segments ap) (env (base ap))
  | Exp_Value ap => vl (rd h (segments ap) (env (base ap)))
  | _ => cst e
  end.

(** A call style without its receiver, whose value is passed apart. *)
Definition erase_style (style : CallStyle) : CallStyle := map_receiver (fun _ => new_local_idx 0) style.

Fixpoint bind_rets (env : Env) (val : nat -> V) (i : nat) (rets : list VariableRef) : Env :=
  match rets with [] => env | r :: rets => bind_rets (upd env r (val i)) val (S i) rets end.

Definition exec (k : StatementKind) (st : Env * H) : Env * H :=
  let '(env, h) := st in
  match k with
  | Assign dest srcs =>
      if is_pathless dest then (upd env (base dest) (join (map (ev_exp env h) srcs)), h)
      else (env, put h (env (base dest)) (segments dest) (join (map (ev_exp env h) srcs)))
  | CallAssign style rets args =>
      let r := env <$> receiver style in
      let vs := map (ev_exp env h) args in
      (bind_rets env (call_ret h (erase_style style) r vs) 0 rets, call_heap h (erase_style style) r vs)
  | Phi dest ops => (upd env dest (phi (map (fun '(b, v) => (b, env v)) ops)), h)
  | Nop => (env, h)
  end.

Definition exec_list (l : list Statement) (st : Env * H) : Env * H := foldl (fun st s => exec (kind s) st) st l.

(** Environments that differ only at the variables of [X]. *)
Definition agree (X : Var -> Prop) (env env' : Env) : Prop := forall v, ~ X (variable v) -> env v = env' v.

Definition kvars (k : StatementKind) : list Var := map variable (iter_src_var k).
Definition lvars (l : list Statement) : list Var := l ≫= fun s => kvars (kind s).
Definition evars (es : list Exp) : list Var := map variable (omap base_variable es).

Lemma kvars_assign dest srcs : kvars (Assign dest srcs) = (if is_pathless dest then [] else [variable (base dest)]) ++ evars srcs.
Proof. unfold kvars, evars. simpl. rewrite map_app. by destruct (is_pathless dest). Qed.

Lemma kvars_call style rets args :
  kvars (CallAssign style rets args) = evars args ++ match receiver style with Some r => [variable r] | None => [] end.
Proof. unfold kvars, evars. simpl. rewrite map_app. by destruct (receiver style). Qed.

Lemma evars_cons e es : evars (e :: es) = match base_variable e with Some v => [variable v] | None => [] end ++ evars es.
Proof. unfold evars. csimpl. by destruct (base_variable e). Qed.

Lemma ev_exp_agree X env env' h e : agree X env env' -> (forall v, base_variable e = Some v -> ~ X (variable v)) ->
  ev_exp env h e = ev_exp env' h e.
Proof. intros Ha Hv. destruct e; simpl in *; rewrite ?(Ha (base ap)) by (by apply Hv); done. Qed.

Lemma ev_exps_agree X env env' h es : agree X env env' -> (forall v, v ∈ evars es -> ~ X v) ->
  map (ev_exp env h) es = map (ev_exp env' h) es.
Proof.
  intros Ha Hv. apply map_ext_in. intros e He%list_elem_of_In. eapply ev_exp_agree; [done|]. intros v Eb.
  apply Hv. unfold evars. apply elem_of_map. exists v. split; [done|]. apply list_elem_of_omap. eauto.
Qed.

Lemma agree_upd X env env' x v : agree X env env' -> agree X (upd env x v) (upd env' x v).
Proof. intros Ha y Hy. unfold upd. case_decide; [done|]. by apply Ha. Qed.

Lemma agree_bind X rets : forall env env' val i, agree X env env' -> agree X (bind_rets env val i rets) (bind_rets env' val i rets).
Proof. induction rets as [|r rets IH]; intros; simpl; [done|]. apply IH. by apply agree_upd. Qed.

Lemma exec_agree X k env env' h : agree X env env' -> (forall v, v ∈ kvars k -> ~ X v) ->
  (exec k (env, h)).2 = (exec k (env', h)).2 /\ agree X (exec k (env, h)).1 (exec k (env', h)).1.
Proof.
  intros Ha Hv. destruct k as [dest srcs|style rets args|dest ops|]; simpl.
  - rewrite kvars_assign in Hv. rewrite (ev_exps_agree X env env') by (try done; set_solver).
    destruct (is_pathless dest); simpl; [split; [done|by apply agree_upd]|]. by rewrite (Ha (base dest)) by (apply Hv; set_solver).
  - rewrite kvars_call in Hv. rewrite (ev_exps_agree X env env') by (try done; set_solver).
    assert (env <$> receiver style = env' <$> receiver style) as ->.
    { destruct (receiver style) as [r|]; [|done]. simpl. by rewrite (Ha r) by (apply Hv; set_solver). }
    split; [done|]. by apply agree_bind.
  - assert (map (fun '(b, v) => (b, env v)) ops = map (fun '(b, v) => (b, env' v)) ops) as ->.
    { apply map_ext_in. intros [b v] Hin%list_elem_of_In. f_equal. apply Ha, Hv. unfold kvars. simpl.
      apply elem_of_map. exists v. split; [done|]. apply elem_of_map. by exists (b, v). }
    split; [done|]. by apply agree_upd.
  - done.
Qed.

Lemma exec_list_cons s l st : exec_list (s :: l) st = exec_list l (exec (kind s) st).
Proof. done. Qed.

Lemma lvars_cons s l : lvars (s :: l) = kvars (kind s) ++ lvars l.
Proof. done. Qed.

Lemma exec_list_agree X l : forall env env' h, agree X env env' -> (forall v, v ∈ lvars l -> ~ X v) ->
  (exec_list l (env, h)).2 = (exec_list l (env', h)).2 /\ agree X (exec_list l (env, h)).1 (exec_list l (env', h)).1.
Proof.
  induction l as [|s l IH]; intros env env' h Ha Hv; [done|]. rewrite lvars_cons in Hv. rewrite !exec_list_cons.
  destruct (exec_agree X (kind s) env env' h Ha) as [Hh Ha']; [set_solver|].
  destruct (exec (kind s) (env, h)) as [e1 h1], (exec (kind s) (env', h)) as [e2 h2]. simpl in *. subst.
  apply IH; [done|set_solver].
Qed.

Lemma exec_list_app l l' st : exec_list (l ++ l') st = exec_list l' (exec_list l st).
Proof. apply foldl_app. Qed.

(** What a statement leaves alone. *)
Lemma bind_rets_other rets v : (forall r, r ∈ rets -> r <> v) -> forall env val i, bind_rets env val i rets v = env v.
Proof.
  induction rets as [|r rets IH]; intros Hr env val i; simpl; [done|]. rewrite IH by set_solver. unfold upd.
  rewrite decide_False; [done|]. intros ->. by apply (Hr r); [apply list_elem_of_here|].
Qed.

Lemma exec_other k env h v : v ∉ iter_dst_var k -> (exec k (env, h)).1 v = env v.
Proof.
  destruct k as [dest srcs|style rets args|dest ops|]; simpl; intros Hv; [| | |done].
  - destruct (is_pathless dest); simpl; [|done]. unfold upd. rewrite decide_False; [done|set_solver].
  - apply bind_rets_other. intros r Hr ->. done.
  - unfold upd. rewrite decide_False; [done|set_solver].
Qed.

(** Deleting a copy into [t] that is read by nothing after it. *)
Lemma exec_delete l1 dest srcs s l2 st X : kind s = Assign dest srcs -> is_pathless dest = true ->
  X (variable (base dest)) -> (forall v, v ∈ lvars l2 -> ~ X v) ->
  (exec_list (l1 ++ s :: l2) st).2 = (exec_list (l1 ++ l2) st).2 /\
  agree X (exec_list (l1 ++ s :: l2) st).1 (exec_list (l1 ++ l2) st).1.
Proof.
  intros Hk Hp Hx Hl. rewrite !exec_list_app. destruct (exec_list l1 st) as [env h]. rewrite exec_list_cons, Hk.
  simpl. rewrite Hp. apply exec_list_agree; [|done]. intros v Hv. unfold upd. rewrite decide_False; [done|].
  intros ->. done.
Qed.

(** ** Substitution *)

Definition once (t : Var) (l : list Var) : Prop := length (filter (fun v => v = t) l) <= 1.

Lemma once_app t l l' : once t (l ++ l') -> once t l /\ once t l' /\ (t ∈ l -> t ∉ l').
Proof.
  unfold once. rewrite filter_app, length_app. intros Hn. split_and!; [lia|lia|]. intros Hl Hl'.
  assert (forall k : list Var, t ∈ k -> 1 <= length (filter (fun v => v = t) k)) as Hpos.
  { intros k Hk. destruct (filter _ k) as [|x k'] eqn:E; [|simpl; lia]. exfalso.
    assert (t ∈ filter (fun v => v = t) k) as Hf by (by apply list_elem_of_filter). rewrite E in Hf. by apply elem_of_nil in Hf. }
  specialize (Hpos l Hl) as H1. specialize (Hpos l' Hl') as H2. lia.
Qed.

(** A pending definition of [t]. *)
Definition src_ok (t : Var) (p : Pending) : Prop :=
  forallb only_offsets (p_sources p) = true /\ source_vars t (p_sources p) = Some (src_vars p).

Definition pend_ok (env : Env) (h : H) (pending : gmap Var Pending) : Prop :=
  forall t p, pending !! t = Some p -> env (VariableRef_new t) = join (map (ev_exp env h) (p_sources p)).

Lemma source_vars_spec d srcs : forall vs, source_vars d srcs = Some vs ->
  vs = evars srcs /\ d ∉ vs /\ forall e v, e ∈ srcs -> base_variable e = Some v -> version v = None.
Proof.
  induction srcs as [|e srcs IH]; intros vs; simpl; [intros [= <-]; split_and!; [done|set_solver|set_solver]|].
  rewrite evars_cons. destruct (base_variable e) as [v|] eqn:Ev.
  - destruct (version v) eqn:En; [done|]. case_decide as Hd; [done|].
    destruct (source_vars d srcs) as [l|] eqn:El; [|done]. intros [= <-]. destruct (IH l eq_refl) as (-> & Hn & Hv).
    split_and!; [done|set_solver|]. intros e' v' [->|He]%elem_of_cons Hb; [congruence|eauto].
  - intros Hs. destruct (IH vs Hs) as (-> & Hn & Hv). split_and!; [done|done|].
    intros e' v' [->|He]%elem_of_cons Hb; [congruence|eauto].
Qed.

(** [F] is what was fused between two states. *)
Record fused (st st' : FuseState) (F : list (Var * Pending)) : Prop := {
  fu_pending : st'.1 = foldl (fun m x => delete x.1 m) st.1 F;
  fu_dead : st'.2 = st.2 ++ map (fun x => stmt_pos x.2) F;
  fu_in : forall x, x ∈ F -> st.1 !! x.1 = Some x.2;
  fu_nodup : NoDup (map fst F);
}.

Lemma foldl_delete_lookup (F : list (Var * Pending)) : forall (m : gmap Var Pending) t p,
  foldl (fun m x => delete x.1 m) m F !! t = Some p <-> m !! t = Some p /\ t ∉ map fst F.
Proof.
  induction F as [|[u q] F IH]; intros m t p; simpl; [set_solver|]. rewrite IH, lookup_delete_Some, not_elem_of_cons. naive_solver.
Qed.

Lemma fused_nil st : fused st st [].
Proof. destruct st. split; simpl; [done|by rewrite app_nil_r|set_solver|constructor]. Qed.

Lemma fused_one (pending : gmap Var Pending) dead t p : pending !! t = Some p ->
  fused (pending, dead) (delete t pending, dead ++ [stmt_pos p]) [(t, p)].
Proof. intros Hp. split; simpl; [done|done|set_solver|apply NoDup_singleton]. Qed.

Lemma fused_app a b c F F' : fused a b F -> fused b c F' -> fused a c (F ++ F').
Proof.
  intros [p1 d1 i1 n1] [p2 d2 i2 n2].
  assert (forall x, x ∈ F' -> a.1 !! x.1 = Some x.2 /\ x.1 ∉ map fst F) as Hi.
  { intros x Hx%i2. rewrite p1 in Hx. by apply foldl_delete_lookup in Hx. }
  split.
  - by rewrite p2, p1, foldl_app.
  - by rewrite d2, d1, map_app, app_assoc.
  - intros x [Hx|Hx]%elem_of_app; [by apply i1|by apply Hi].
  - rewrite map_app. apply NoDup_app. split_and!; [done| |done]. intros t Ht (x & -> & Hx)%elem_of_map.
    by destruct (Hi x Hx).
Qed.

Lemma fused_pend_ok env h st st' F : fused st st' F -> pend_ok env h st.1 -> pend_ok env h st'.1.
Proof. intros [-> _ _ _] Hp t p [Ht _]%foldl_delete_lookup. by apply Hp. Qed.

Lemma fused_lookup st st' F t p : fused st st' F -> st'.1 !! t = Some p -> st.1 !! t = Some p.
Proof. intros [-> _ _ _] [Ht _]%foldl_delete_lookup. done. Qed.

Lemma pathless_ref ap : is_pathless ap = true -> version (base ap) = None -> base ap = VariableRef_new (variable (base ap)) /\ segments ap = [].
Proof. unfold is_pathless. rewrite bool_decide_eq_true. intros Hs Hv. destruct ap as [[v ver] p]. simpl in *. by subst. Qed.

Lemma try_subst_exp_spec e ia st e' st' : try_subst_exp e ia st = (e', st') ->
  (e' = e /\ st' = st) \/
  exists t p, fused st st' [(t, p)] /\ t ∈ evars [e] /\ (forall v, v ∈ evars [e'] -> v ∈ evars (p_sources p)) /\
    forall env h, pend_ok env h st.1 -> ev_exp env h e = ev_exp env h e'.
Proof.
  destruct st as [pending dead]. unfold try_subst_exp. destruct (access_path e) as [ap|] eqn:Eap; [|intros [= <- <-]; by left].
  destruct (is_pathless ap) eqn:Ep; simpl; [|intros [= <- <-]; by left].
  destruct (version (base ap)) eqn:Ev; [intros [= <- <-]; by left|].
  destruct (pending !! variable (base ap)) as [p|] eqn:El; [|intros [= <- <-]; by left].
  destruct (p_sources p) as [|src [|]] eqn:Es; try (intros [= <- <-]; by left).
  destruct (subst_for _ ia src) as [new|] eqn:En; [|intros [= <- <-]; by left]. intros [= <- <-]. right.
  exists (variable (base ap)), p. split_and!.
  - by apply fused_one.
  - unfold evars, base_variable. csimpl. rewrite Eap. simpl. set_solver.
  - intros v. rewrite Es. enough (base_variable new = base_variable src \/ base_variable new = None) as [Hb|Hb];
      [by rewrite !evars_cons, Hb|rewrite evars_cons, Hb; set_solver|].
    revert En. destruct e, src, ia; simpl; try (by intros [= <-]; left); try done; destruct (is_pathless ap1); try done; intros [= <-]; by left.
  - intros env h Hpo. specialize (Hpo _ _ El). rewrite Es in Hpo. simpl in Hpo. rewrite join_single in Hpo.
    destruct (pathless_ref ap Ep Ev) as [Hb Hs].
    assert (rd h (segments ap) (env (base ap)) = ev_exp env h src) as Hval by (by rewrite Hs, rd_nil, Hb).
    destruct e; simplify_eq/=; rewrite Hval.
    + destruct src, ia; simplify_eq/=; done.
    + destruct src as [y|y| | | |]; simplify_eq/=; [|by rewrite vl_idem].
      destruct (is_pathless y); by simplify_eq/=.
Qed.

(** No variable of [n] that is pending is read by a pending definition. *)
Definition fresh_reads (pending : gmap Var Pending) (n : list Var) : Prop :=
  forall t p t' p', pending !! t = Some p -> t ∈ n -> pending !! t' = Some p' -> t ∉ evars (p_sources p').

Lemma subst_exps_spec es : forall ia st es' st', subst_exps es ia st = (es', st') ->
  exists F, fused st st' F /\ (forall x, x ∈ F -> x.1 ∈ evars es) /\
    (forall v, v ∈ evars es' -> v ∈ evars es \/ exists x, x ∈ F /\ v ∈ evars (p_sources x.2)) /\
    (forall env h, pend_ok env h st.1 -> map (ev_exp env h) es = map (ev_exp env h) es') /\
    ((forall t p, st.1 !! t = Some p -> once t (evars es)) -> fresh_reads st.1 (evars es) ->
       forall x, x ∈ F -> x.1 ∉ evars es').
Proof.
  induction es as [|e es IH]; intros ia st es' st'; cbn [subst_exps].
  { intros [= <- <-]. exists []. split_and!; [apply fused_nil|set_solver|auto|done|set_solver]. }
  destruct (try_subst_exp e ia st) as [e1 st1] eqn:E1. destruct (subst_exps es ia st1) as [es1 st2] eqn:E2. intros [= <- <-].
  destruct (IH _ _ _ _ E2) as (F & HF & Hin & Hv & Hev & Hgone). clear IH.
  assert (forall a l, evars (a :: l) = evars [a] ++ evars l) as Hcons by (intros; rewrite !evars_cons; by rewrite app_nil_r).
  rewrite (Hcons e es), (Hcons e1 es1). destruct (try_subst_exp_spec _ _ _ _ _ E1) as [[-> ->]|(t & p & Hf1 & Ht & Hv1 & Hev1)].
  - exists F. split_and!; [done|set_solver| |intros; simpl; f_equal; auto|].
    + intros v [Hv0|Hv0]%elem_of_app; [set_solver|]. destruct (Hv v Hv0); [set_solver|by right].
    + intros Ho Hfr x Hx. rewrite not_elem_of_app. pose proof (Hin x Hx) as Hxe. pose proof (fu_in _ _ _ HF x Hx) as Hxp. split.
      * destruct (once_app x.1 (evars [e]) (evars es)) as (_ & _ & Hne); [by eapply Ho|]. intros ?. by apply Hne.
      * apply Hgone; [|intros a b c d Ha Hb; apply (Hfr a b c d Ha); set_solver|done].
        intros a b Hab. by destruct (once_app a (evars [e]) (evars es)) as (_ & ? & _); [eapply Ho|].
  - exists ((t, p) :: F). pose proof (fused_app _ _ _ _ _ Hf1 HF) as Hff. split_and!.
    + done.
    + intros x [->|Hx]%elem_of_cons; [simpl; set_solver|]. specialize (Hin x Hx). set_solver.
    + intros v [Hv0|Hv0]%elem_of_app; [right; exists (t, p); simpl; set_solver|].
      destruct (Hv v Hv0) as [|(x & ? & ?)]; [set_solver|right; exists x; set_solver].
    + intros env h Hp. simpl. f_equal; [by apply Hev1|]. apply Hev. by eapply (fused_pend_ok env h st st1).
    + intros Ho Hfr.
      assert (st.1 !! t = Some p) as Htp by (apply (fu_in _ _ _ Hf1 (t, p)); set_solver).
      assert (t ∉ evars es) as Hte.
      { destruct (once_app t (evars [e]) (evars es)) as (_ & _ & Hne); [by eapply Ho|]. by apply Hne. }
      assert (forall u q, st1.1 !! u = Some q -> st.1 !! u = Some q) as Hsub by (intros; by eapply (fused_lookup st st1)).
      assert (forall x, x ∈ F -> x.1 ∉ evars es1) as Hg.
      { apply Hgone.
        - intros a b Hab. by destruct (once_app a (evars [e]) (evars es)) as (_ & ? & _); [eapply Ho; eauto|].
        - intros a b c d Ha Hb Hc. apply (Hfr a b c d); [eauto|set_solver|eauto]. }
      intros x [->|Hx]%elem_of_cons; rewrite not_elem_of_app; simpl.
      * split; [intros Hx%Hv1; revert Hx; apply (Hfr t p t p Htp); [set_solver|done]|].
        intros [?|(x & Hx & Hxv)]%Hv; [done|]. revert Hxv. apply (Hfr t p x.1); [done|set_solver|].
        apply Hsub, (fu_in _ _ _ HF x Hx).
      * split; [|by apply Hg]. intros Hxv%Hv1. revert Hxv. apply (Hfr x.1 x.2 t p); [|specialize (Hin x Hx); set_solver|done].
        apply Hsub, (fu_in _ _ _ HF x Hx).
Qed.

Lemma try_subst_address_spec addr st addr' st' : try_subst_address addr st = (addr', st') ->
  (addr' = addr /\ st' = st) \/
  exists t p, fused st st' [(t, p)] /\ t = variable (base addr) /\ variable (base addr') ∈ evars (p_sources p) /\
    segments addr' = segments addr /\ forall env h, pend_ok env h st.1 -> env (base addr) = env (base addr').
Proof.
  destruct st as [pending dead]. unfold try_subst_address. destruct (version (base addr)) eqn:Ev; [intros [= <- <-]; by left|].
  destruct (pending !! variable (base addr)) as [p|] eqn:El; [|intros [= <- <-]; by left].
  destruct (p_sources p) as [|src [|]] eqn:Es; try (intros [= <- <-]; by left).
  destruct (variable_ref src) as [d|] eqn:Er; [|intros [= <- <-]; by left]. intros [= <- <-]. right.
  unfold variable_ref in Er. destruct src as [y| | | | |]; try done. destruct (is_pathless y) eqn:Ep; simplify_eq.
  exists (variable (base addr)), p. split_and!.
  - by apply fused_one.
  - done.
  - rewrite Es. simpl. set_solver.
  - done.
  - intros env h Hpo. specialize (Hpo _ _ El). rewrite Es in Hpo. simpl in Hpo. rewrite join_single in Hpo.
    unfold is_pathless in Ep. apply bool_decide_eq_true in Ep. rewrite Ep, rd_nil in Hpo. simpl. rewrite <- Hpo. f_equal.
    destruct addr as [[]]. simpl in *. by subst.
Qed.

Definition fuse_ok (n n' : list Var) (st st' : FuseState) (F : list (Var * Pending)) : Prop :=
  fused st st' F /\ (forall x, x ∈ F -> x.1 ∈ n) /\
  (forall v, v ∈ n' -> v ∈ n \/ exists x, x ∈ F /\ v ∈ evars (p_sources x.2)) /\
  ((forall t p, st.1 !! t = Some p -> once t n) -> fresh_reads st.1 n -> forall x, x ∈ F -> x.1 ∉ n').

Lemma fuse_ok_refl n st : fuse_ok n n st st [].
Proof. split_and!; [apply fused_nil|set_solver|auto|set_solver]. Qed.

Lemma subst_exps_ok es ia st es' st' : subst_exps es ia st = (es', st') ->
  exists F, fuse_ok (evars es) (evars es') st st' F /\
    forall env h, pend_ok env h st.1 -> map (ev_exp env h) es = map (ev_exp env h) es'.
Proof. intros E. destruct (subst_exps_spec _ _ _ _ _ E) as (F & ? & ? & ? & ? & ?). exists F. done. Qed.

Lemma fuse_ok_app n1 n1' n2 n2' a b c F1 F2 : fuse_ok n1 n1' a b F1 -> fuse_ok n2 n2' b c F2 ->
  fuse_ok (n1 ++ n2) (n1' ++ n2') a c (F1 ++ F2).
Proof.
  intros (f1 & i1 & v1 & g1) (f2 & i2 & v2 & g2).
  assert (forall t p, b.1 !! t = Some p -> a.1 !! t = Some p) as Hsub by (intros t p; by apply (fused_lookup a b F1)).
  split_and!.
  - by eapply fused_app.
  - intros x [Hx|Hx]%elem_of_app; apply elem_of_app; [left; by apply i1|right; by apply i2].
  - intros v [Hv|Hv]%elem_of_app.
    + destruct (v1 v Hv) as [|(x & ? & ?)]; [left; apply elem_of_app; by left|].
      right. exists x. split; [apply elem_of_app; by left|done].
    + destruct (v2 v Hv) as [|(x & ? & ?)]; [left; apply elem_of_app; by right|].
      right. exists x. split; [apply elem_of_app; by right|done].
  - intros Ho Hfr.
    assert (forall x, x ∈ F1 -> x.1 ∉ n1') as G1.
    { apply g1; [intros t p Ht; by destruct (once_app t n1 n2 (Ho t p Ht))|].
      intros t p t' p' Ht Hn. apply (Hfr t p t' p' Ht). apply elem_of_app. by left. }
    assert (forall x, x ∈ F2 -> x.1 ∉ n2') as G2.
    { apply g2; [intros t p Ht; by destruct (once_app t n1 n2 (Ho t p (Hsub _ _ Ht))) as (_ & ? & _)|].
      intros t p t' p' Ht Hn Ht'. apply (Hfr t p t' p'); [eauto|apply elem_of_app; by right|eauto]. }
    assert (forall x, x ∈ F1 -> a.1 !! x.1 = Some x.2) as A1 by apply f1.
    assert (forall x, x ∈ F2 -> a.1 !! x.1 = Some x.2) as A2 by (intros x Hx; by apply Hsub, (fu_in _ _ _ f2)).
    intros x Hx. rewrite not_elem_of_app. apply elem_of_app in Hx as [Hx|Hx].
    + split; [by apply G1|]. intros Hv. destruct (once_app x.1 n1 n2) as (_ & _ & Hd); [by eapply Ho; apply A1|].
      destruct (v2 _ Hv) as [Hn|(y & Hy & Hyv)]; [by apply Hd; [apply i1|]|].
      revert Hyv. apply (Hfr x.1 x.2 y.1); [by apply A1|apply elem_of_app; left; by apply i1|by apply A2].
    + split; [|by apply G2]. intros Hv. destruct (once_app x.1 n1 n2) as (_ & _ & Hd); [by eapply Ho; apply A2|].
      destruct (v1 _ Hv) as [Hn|(y & Hy & Hyv)]; [by apply Hd; [|apply i2]|].
      revert Hyv. apply (Hfr x.1 x.2 y.1); [by apply A2|apply elem_of_app; right; by apply i2|by apply A1].
Qed.

Lemma fuse_ok_one t p n' st st' : fused st st' [(t, p)] -> (forall v, v ∈ n' -> v ∈ evars (p_sources p)) -> fuse_ok [t] n' st st' [(t, p)].
Proof.
  intros Hf Hn. assert (st.1 !! t = Some p) as Ht by (apply (fu_in _ _ _ Hf (t, p)); set_solver). split_and!.
  - done.
  - intros x ->%list_elem_of_singleton. simpl. set_solver.
  - intros v Hv. right. exists (t, p). split; [set_solver|by apply Hn].
  - intros _ Hfr x ->%list_elem_of_singleton Hx%Hn. revert Hx. apply (Hfr t p t p Ht); [set_solver|done].
Qed.

Lemma fuse_kind_spec k st k' st' : fuse_kind k st = (k', st') ->
  exists F, fuse_ok (kvars k) (kvars k') st st' F /\ iter_dst_var k' = iter_dst_var k /\
    forall env h, pend_ok env h st.1 -> exec k (env, h) = exec k' (env, h).
Proof.
  destruct k as [dest srcs|style rets args|dest ops|]; cbn [fuse_kind].
  - destruct (is_pathless dest) eqn:Ep; cbn [negb].
    + destruct (whole_var_copy_of srcs st.1) as [[t p]|] eqn:Ew.
      * intros [= <- <-]. unfold whole_var_copy_of in Ew. destruct srcs as [|e [|]]; try done.
        destruct (variable_ref e) as [v|] eqn:Ev; [|done]. destruct (version v) eqn:En; [done|].
        destruct (st.1 !! variable v) as [q|] eqn:El; [|done]. injection Ew as <- <-.
        unfold variable_ref in Ev. destruct e as [ap| | | | |]; try done. destruct (is_pathless ap) eqn:Epa; simplify_eq.
        exists [(variable (base ap), q)]. split_and!.
        -- rewrite !kvars_assign, Ep. simpl. apply fuse_ok_one; [|done]. destruct st as [pd dd]. by apply fused_one.
        -- done.
        -- intros env h Hpo. specialize (Hpo _ _ El). simpl. rewrite Ep, join_single.
           destruct (pathless_ref ap Epa En) as [Hb Hs]. by rewrite Hs, rd_nil, Hb, Hpo.
      * destruct (subst_exps srcs true st) as [srcs' st1] eqn:E. intros [= <- <-].
        destruct (subst_exps_ok _ _ _ _ _ E) as (F & HF & Hev). exists F. rewrite !kvars_assign, Ep. simpl. rewrite Ep.
        split_and!; [done|done|]. intros env h Hpo. by rewrite (Hev env h Hpo).
    + destruct (subst_exps srcs false st) as [srcs' st1] eqn:E. intros [= <- <-].
      destruct (subst_exps_ok _ _ _ _ _ E) as (F & HF & Hev). exists F. rewrite !kvars_assign, Ep. simpl. rewrite Ep.
      split_and!; [|done|intros env h Hpo; by rewrite (Hev env h Hpo)].
      apply (fuse_ok_app [variable (base dest)] [variable (base dest)] _ _ st st st1 [] F); [apply fuse_ok_refl|done].
  - destruct (subst_exps args false st) as [args' st1] eqn:E. destruct (subst_exps_ok _ _ _ _ _ E) as (F & HF & Hev).
    assert (forall style', erase_style style' = erase_style style -> receiver style' = receiver style ->
      exists F, fuse_ok (kvars (CallAssign style rets args)) (kvars (CallAssign style' rets args')) st st1 F /\
        iter_dst_var (CallAssign style' rets args') = iter_dst_var (CallAssign style rets args) /\
        forall env h, pend_ok env h st.1 -> exec (CallAssign style rets args) (env, h) = exec (CallAssign style' rets args') (env, h)) as Hsame.
    { intros style' Hes Hr. exists F. rewrite !kvars_call, Hr. split_and!; [|done|].
      - rewrite <- (app_nil_r F). apply (fuse_ok_app _ _ _ _ st st1 st1); [done|apply fuse_ok_refl].
      - intros env h Hpo. simpl. by rewrite Hes, Hr, (Hev env h Hpo). }
    destruct style as [|edges|callee sg|? ? ? ? ? ?|? ?|? ? ? ?]; try (intros [= <- <-]; by apply Hsame).
    destruct (try_subst_address callee st1) as [callee' st2] eqn:Ea. intros [= <- <-].
    destruct (try_subst_address_spec _ _ _ _ Ea) as [[-> ->]|(t & p & Hf & -> & Hv & Hs & Hval)]; [by apply Hsame|].
    exists (F ++ [(variable (base callee), p)]). split_and!; [|done|].
    + rewrite !kvars_call. simpl. eapply fuse_ok_app; [exact HF|]. apply fuse_ok_one; [done|]. intros v ->%list_elem_of_singleton. done.
    + intros env h Hpo. simpl. rewrite (Hev env h Hpo), (Hval env h) by (eapply (fused_pend_ok env h st st1); [apply HF|done]).
      unfold erase_style. simpl. unfold ap_set_base. by rewrite Hs.
  - intros [= <- <-]. exists []. split_and!; [apply fuse_ok_refl|done|done].
  - intros [= <- <-]. exists []. split_and!; [apply fuse_ok_refl|done|done].
Qed.

(** ** Deleting definitions *)

Definition kept (l : list Statement) (dead : list nat) : list Statement :=
  map snd (filter (fun x : nat * Statement => x.1 ∉ dead) (enumerate l)).

Lemma enum_from_app {A} (l l' : list A) : forall i, enum_from i (l ++ l') = enum_from i l ++ enum_from (i + length l) l'.
Proof.
  induction l as [|x l IH]; intros i; simpl; [by rewrite Nat.add_0_r|]. rewrite IH. by rewrite Nat.add_succ_r.
Qed.

Lemma lvars_app l l' : lvars (l ++ l') = lvars l ++ lvars l'.
Proof. unfold lvars. by rewrite bind_app. Qed.

Lemma elem_of_lvars v l : v ∈ lvars l <-> exists s, s ∈ l /\ v ∈ kvars (kind s).
Proof. unfold lvars. rewrite list_elem_of_bind. naive_solver. Qed.

Lemma elem_of_kept s l dead : s ∈ kept l dead <-> exists i, l !! i = Some s /\ i ∉ dead.
Proof.
  unfold kept. rewrite elem_of_map. split.
  - intros ([i s'] & -> & [Hi Hin%elem_of_enumerate]%list_elem_of_filter). eauto.
  - intros (i & Hl & Hi). exists (i, s). split; [done|]. apply list_elem_of_filter. split; [done|by apply elem_of_enumerate].
Qed.

Lemma kept_lvars l dead v : v ∈ lvars (kept l dead) -> v ∈ lvars l.
Proof.
  rewrite !elem_of_lvars. intros (s & (i & Hi & _)%elem_of_kept & Hv). exists s. split; [by eapply list_elem_of_lookup_2|done].
Qed.

Lemma kept_snoc l s dead : length l ∉ dead -> kept (l ++ [s]) dead = kept l dead ++ [s].
Proof.
  intros Hn. unfold kept. rewrite enum_from_app, filter_app, map_app. simpl. f_equal.
  by rewrite filter_cons_True.
Qed.

Lemma kept_delete l d s dead : l !! d = Some s -> d ∉ dead ->
  exists A B, kept l dead = A ++ s :: B /\ kept l (dead ++ [d]) = A ++ B /\ forall v, v ∈ lvars B -> v ∈ lvars l.
Proof.
  intros Hl Hd. pose proof (lookup_lt_Some _ _ _ Hl) as Hlt.
  assert (forall i k, d < i \/ i + length k <= d ->
    filter (fun x : nat * Statement => x.1 ∉ dead ++ [d]) (enum_from i k) = filter (fun x => x.1 ∉ dead) (enum_from i k)) as Hsame.
  { intros i k Hi. apply filter_ext_in. intros [j x] Hj%elem_of_enum_from.
    destruct Hj as [Hj Hjk%lookup_lt_Some]. simpl. rewrite not_elem_of_app, list_elem_of_singleton. split; [naive_solver|].
    intros ?. split; [done|lia]. }
  set (B := map snd (filter (fun x : nat * Statement => x.1 ∉ dead) (enum_from (S d) (drop (S d) l)))).
  exists (map snd (filter (fun x : nat * Statement => x.1 ∉ dead) (enum_from 0 (take d l)))), B.
  assert (forall ds, kept l ds = map snd (filter (fun x : nat * Statement => x.1 ∉ ds) (enum_from 0 (take d l))) ++
    map snd (filter (fun x : nat * Statement => x.1 ∉ ds) [(d, s)]) ++
    map snd (filter (fun x : nat * Statement => x.1 ∉ ds) (enum_from (S d) (drop (S d) l)))) as Hk.
  { intros ds. rewrite <- (take_drop_middle l d s Hl) at 1. unfold kept. rewrite enum_from_app, filter_app, map_app.
    rewrite length_take_le by lia. cbn [Nat.add]. change (enum_from d (s :: drop (S d) l)) with ([(d, s)] ++ enum_from (S d) (drop (S d) l)).
    by rewrite filter_app, map_app. }
  rewrite !Hk, !Hsame by (rewrite ?length_take; lia). rewrite filter_cons_True by done. rewrite filter_cons_False by (simpl; set_solver).
  split_and!; [done|done|].
  intros v (x & ([j y] & -> & [_ Hin%elem_of_enum_from]%list_elem_of_filter)%elem_of_map & Hv)%elem_of_lvars.
  destruct Hin as [_ Hin]. apply elem_of_lvars. exists y. split; [|done]. rewrite lookup_drop in Hin. by eapply list_elem_of_lookup_2.
Qed.

(** The copy at position [d] of [done] defines [t], which [done] never reads. *)
Definition dead_def (l : list Statement) (d : nat) (t : Var) : Prop :=
  exists s dest srcs, l !! d = Some s /\ kind s = Assign dest srcs /\ is_pathless dest = true /\ base dest = VariableRef_new t.

Lemma dead_def_fun l d t t' : dead_def l d t -> dead_def l d t' -> t = t'.
Proof. intros (s & de & sr & ? & ? & _ & E) (s' & de' & sr' & ? & ? & _ & E'). assert (s = s') by congruence. subst. assert (de = de') by congruence. subst. rewrite E in E'. by injection E'. Qed.

Lemma dead_def_snoc l s d t : dead_def l d t -> dead_def (l ++ [s]) d t.
Proof. intros (s' & de & sr & Hl & ?). exists s', de, sr. split; [by apply lookup_app_l_Some|done]. Qed.

Lemma exec_delete_many (l : list Statement) (F : list (Var * Pending)) : forall dead st,
  (forall x, x ∈ F -> dead_def l (stmt_pos x.2) x.1 /\ x.1 ∉ lvars l) -> NoDup (dead ++ map (fun x => stmt_pos x.2) F) ->
  (exec_list (kept l dead) st).2 = (exec_list (kept l (dead ++ map (fun x => stmt_pos x.2) F)) st).2 /\
  agree (fun v => v ∈ map fst F) (exec_list (kept l dead) st).1 (exec_list (kept l (dead ++ map (fun x => stmt_pos x.2) F)) st).1.
Proof.
  induction F as [|[t p] F IH]; intros dead st HF Hnd; simpl; [by rewrite app_nil_r|].
  destruct (HF (t, p)) as [(s & de & sr & Hl & Hk & Hp & Hb) Ht]; [set_solver|]. simpl in *.
  assert (forall k, dead ++ stmt_pos p :: k = (dead ++ [stmt_pos p]) ++ k) as Esnoc by (intros; by rewrite <- app_assoc).
  rewrite Esnoc in Hnd |- *.
  destruct (kept_delete l (stmt_pos p) s dead Hl) as (A & B & E1 & E2 & HB).
  { apply NoDup_app in Hnd as [Hnd _]. apply NoDup_app in Hnd as (_ & Hd & _). intros ?. eapply Hd; [done|set_solver]. }
  destruct (exec_delete A de sr s B st (fun v => v = t) Hk Hp) as [Hh Ha]; [by rewrite Hb|intros v Hv%HB ->; done|].
  destruct (IH (dead ++ [stmt_pos p]) st) as [Hh' Ha']; [intros; apply HF; set_solver|done|].
  rewrite E1, Hh, <- E2. split; [done|]. intros v Hv.
  transitivity ((exec_list (A ++ B) st).1 v); [apply Ha; set_solver|]. rewrite <- E2. apply Ha'. set_solver.
Qed.

(** ** The invariant of the statement loop *)

Definition wvars (l : list Statement) : list Var := l ≫= fun s => map variable (iter_dst_var (kind s)).

Lemma wvars_app l l' : wvars (l ++ l') = wvars l ++ wvars l'.
Proof. unfold wvars. by rewrite bind_app. Qed.

Lemma ev_stable env h env' h' e : only_offsets e = true -> (forall v, base_variable e = Some v -> env' v = env v) ->
  ev_exp env' h' e = ev_exp env h e.
Proof.
  intros Ho Hv. destruct e; simpl in *; try done; unfold only_offsets in Ho; simpl in Ho; rewrite (Hv (base ap)) by done;
    by rewrite (rd_offsets h' h).
Qed.

Lemma evs_stable env h env' h' es : forallb only_offsets es = true -> (forall v, v ∈ omap base_variable es -> env' v = env v) ->
  map (ev_exp env' h') es = map (ev_exp env h) es.
Proof.
  intros Ho Hv. apply map_ext_in. intros e He. rewrite forallb_forall in Ho. apply ev_stable; [by apply Ho|].
  intros v Hb. apply Hv, list_elem_of_omap. exists e. by rewrite list_elem_of_In.
Qed.

Section loop.
Variable cand : Var -> bool.

(** [l1] is the part of the block already processed and [done] what it has become; [rr] and [rw]
    are the variables the rest of the block reads and writes. *)
Record coal_inv (l1 done : list Statement) (st : FuseState) (rr rw : list Var) : Prop := {
  c_once_r : forall t, cand t = true -> once t (lvars l1 ++ rr);
  c_once_w : forall t, cand t = true -> once t (wvars l1 ++ rw);
  c_len : length done = length l1;
  c_wvars : wvars done = wvars l1;
  c_reads : forall v, v ∈ lvars done -> v ∈ lvars l1;
  c_pend : forall t p, st.1 !! t = Some p -> cand t = true /\ src_ok t p /\ stmt_pos p ∉ st.2 /\
    exists s dest, done !! stmt_pos p = Some s /\ kind s = Assign dest (p_sources p) /\ is_pathless dest = true /\
      base dest = VariableRef_new t;
  c_nodup : NoDup st.2;
  c_dead : forall d, d ∈ st.2 -> exists t, cand t = true /\ dead_def done d t /\ t ∉ lvars done /\ t ∉ rr /\ t ∈ lvars l1;
  c_sem : forall env h,
    (exec_list (kept done st.2) (env, h)).2 = (exec_list l1 (env, h)).2 /\
    agree (fun t => exists d, d ∈ st.2 /\ dead_def done d t) (exec_list l1 (env, h)).1 (exec_list (kept done st.2) (env, h)).1 /\
    pend_ok (exec_list l1 (env, h)).1 (exec_list l1 (env, h)).2 st.1;
}.

Lemma pend_dead_def l1 done st rr rw t p : coal_inv l1 done st rr rw -> st.1 !! t = Some p -> dead_def done (stmt_pos p) t.
Proof. intros Hi Hp. destruct (c_pend _ _ _ _ _ Hi t p Hp) as (_ & _ & _ & s & de & ? & ? & ? & ?). by exists s, de, (p_sources p). Qed.

Lemma pend_sources l1 done st rr rw t p v : coal_inv l1 done st rr rw -> st.1 !! t = Some p -> v ∈ evars (p_sources p) -> v ∈ lvars done.
Proof.
  intros Hi Hp Hv. destruct (c_pend _ _ _ _ _ Hi t p Hp) as (_ & _ & _ & s & de & Hl & Hk & Hpl & _). apply elem_of_lvars.
  exists s. split; [by eapply list_elem_of_lookup_2|]. rewrite Hk, kvars_assign, Hpl. done.
Qed.

(** Fusing into the reads [n], which become [n']. *)
Lemma inv_fuse l1 done st st' n n' F rr rw : coal_inv l1 done st (n ++ rr) rw -> fuse_ok n n' st st' F ->
  NoDup st'.2 /\
  (forall d, d ∈ st'.2 -> exists t, cand t = true /\ dead_def done d t /\ t ∉ lvars done /\ t ∉ n' /\ t ∉ rr /\ t ∈ lvars l1 ++ n) /\
  (forall t p, st'.1 !! t = Some p -> st.1 !! t = Some p /\ stmt_pos p ∉ st'.2) /\
  (forall v, v ∈ n' -> v ∈ lvars l1 ++ n) /\
  (forall env h, (exec_list (kept done st'.2) (env, h)).2 = (exec_list l1 (env, h)).2 /\
    agree (fun t => exists d, d ∈ st'.2 /\ dead_def done d t) (exec_list l1 (env, h)).1 (exec_list (kept done st'.2) (env, h)).1).
Proof.
  intros Hi (Hf & Hn & Hv & Hgone).
  assert (forall t p, st.1 !! t = Some p -> t ∈ n -> t ∉ lvars l1 /\ t ∉ rr) as Huse.
  { intros t p Hp Ht. destruct (c_pend _ _ _ _ _ Hi t p Hp) as (Hc & _). pose proof (c_once_r _ _ _ _ _ Hi t Hc) as Ho.
    apply once_app in Ho as (_ & Ho & Hd). apply once_app in Ho as (_ & _ & Hd'). split; [|by apply Hd'].
    intros Hl. apply (Hd Hl). apply elem_of_app. by left. }
  assert (forall x, x ∈ F -> st.1 !! x.1 = Some x.2 /\ x.1 ∈ n) as HF by (intros x Hx; split; [by apply Hf|by apply Hn]).
  assert (forall x, x ∈ F -> dead_def done (stmt_pos x.2) x.1 /\ x.1 ∉ lvars done) as HFd.
  { intros x Hx. destruct (HF x Hx) as [Hp Hxn]. split; [by eapply pend_dead_def|].
    intros Hl%(c_reads _ _ _ _ _ Hi). by destruct (Huse _ _ Hp Hxn). }
  assert (forall x, x ∈ F -> x.1 ∉ n') as Hg.
  { apply Hgone.
    - intros t p Hp. destruct (c_pend _ _ _ _ _ Hi t p Hp) as (Hc & _). pose proof (c_once_r _ _ _ _ _ Hi t Hc) as Ho.
      apply once_app in Ho as (_ & Ho & _). by apply once_app in Ho as (? & _).
    - intros t p t' p' Hp Ht Hp' Hin. apply (pend_sources _ _ _ _ _ _ _ _ Hi Hp'), (c_reads _ _ _ _ _ Hi) in Hin.
      by destruct (Huse t p Hp Ht). }
  assert (forall v, v ∈ n' -> v ∈ lvars done \/ v ∈ n) as Hn'.
  { intros v [?|(x & Hx & Hxv)]%Hv; [by right|left]. destruct (HF x Hx) as [Hp _]. by eapply pend_sources. }
  assert (forall d, d ∈ map (fun x : Var * Pending => stmt_pos x.2) F -> d ∉ st.2) as Hpos.
  { intros d (x & -> & Hx)%elem_of_map. destruct (HF x Hx) as [Hp _]. by destruct (c_pend _ _ _ _ _ Hi _ _ Hp) as (_ & _ & ? & _). }
  assert (NoDup st'.2) as Hnd.
  { rewrite (fu_dead _ _ _ Hf). apply NoDup_app. split_and!; [apply Hi|intros d Hd Hd'; by apply (Hpos d)|].
    apply NoDup_fmap_2_strong; [|eapply NoDup_fmap_1, (fu_nodup _ _ _ Hf)].
    intros x y Hx Hy E. destruct (HFd x Hx) as [Dx _]. destruct (HFd y Hy) as [Dy _]. rewrite E in Dx.
    pose proof (dead_def_fun _ _ _ _ Dx Dy) as Exy. destruct (HF x Hx) as [Px _]. destruct (HF y Hy) as [Py _].
    rewrite Exy in Px. destruct x, y. simpl in *. congruence. }
  split_and!; [done| | | |].
  - intros d Hd. rewrite (fu_dead _ _ _ Hf) in Hd. apply elem_of_app in Hd as [Hd|(x & -> & Hx)%elem_of_map].
    + destruct (c_dead _ _ _ _ _ Hi d Hd) as (t & Hc & Hdd & Hl & Hr & Hin). rewrite not_elem_of_app in Hr. exists t.
      split_and!; [done..| |by destruct Hr|apply elem_of_app; by left]. intros [?|?]%Hn'; [done|by destruct Hr].
    + destruct (HF x Hx) as [Hp Hxn]. destruct (HFd x Hx). destruct (c_pend _ _ _ _ _ Hi _ _ Hp) as (Hc & _).
      exists x.1. split_and!; [done..|by apply Hg|by destruct (Huse _ _ Hp Hxn)|apply elem_of_app; by right].
  - intros t p Hp. rewrite (fu_pending _ _ _ Hf) in Hp. apply foldl_delete_lookup in Hp as [Hp HtF]. split; [done|].
    rewrite (fu_dead _ _ _ Hf), not_elem_of_app. destruct (c_pend _ _ _ _ _ Hi _ _ Hp) as (_ & _ & ? & _). split; [done|].
    intros (x & E & Hx)%elem_of_map. apply HtF. destruct (HFd x Hx) as [Dx _].
    pose proof (pend_dead_def _ _ _ _ _ _ _ Hi Hp) as Dt. rewrite E in Dt. rewrite (dead_def_fun _ _ _ _ Dt Dx).
    apply elem_of_map. eauto.
  - intros v [Hl|?]%Hn'; apply elem_of_app; [left; by apply (c_reads _ _ _ _ _ Hi)|by right].
  - intros env h. destruct (c_sem _ _ _ _ _ Hi env h) as (Hh & Ha & _). rewrite (fu_dead _ _ _ Hf) in *.
    destruct (exec_delete_many done F st.2 (env, h) HFd Hnd) as [Hh' Ha']. split; [congruence|]. intros v Hv'.
    rewrite Ha; [apply Ha'|].
    + intros (x & E & Hx)%elem_of_map. apply Hv'. exists (stmt_pos x.2). split; [|rewrite E; by apply HFd].
      apply elem_of_app. right. apply elem_of_map. eauto.
    + intros (d & Hd & ?). apply Hv'. exists d. split; [apply elem_of_app; by left|done].
Qed.

Lemma lvars_snoc l s : lvars (l ++ [s]) = lvars l ++ kvars (kind s).
Proof. rewrite lvars_app. unfold lvars at 2. simpl. by rewrite app_nil_r. Qed.

Lemma wvars_snoc l s : wvars (l ++ [s]) = wvars l ++ map variable (iter_dst_var (kind s)).
Proof. rewrite wvars_app. unfold wvars at 2. simpl. by rewrite app_nil_r. Qed.

Lemma exec_list_snoc l s st : exec_list (l ++ [s]) st = exec (kind s) (exec_list l st).
Proof. by rewrite exec_list_app. Qed.

(** Registering a definition, and what a registered one is. *)
Lemma register_lookup pos k pending t p : register cand pos k pending !! t = Some p ->
  pending !! t = Some p \/
  (cand t = true /\ src_ok t p /\ stmt_pos p = pos /\
   exists dest, k = Assign dest (p_sources p) /\ is_pathless dest = true /\ base dest = VariableRef_new t).
Proof.
  unfold register. destruct k as [dest srcs| | |]; try by left. destruct (_ && _ && _ && _ && _) eqn:E; [|by left].
  destruct (source_vars _ srcs) as [vs|] eqn:Es; [|by left]. intros [[<- <-]|[_ ?]]%lookup_insert_Some; [right|by left].
  repeat (apply andb_true_iff in E as [E ?]). split_and!; [done|by split|done|]. exists dest. split_and!; [done|done|].
  destruct (base dest) as [v ver]. simpl in *. match goal with H : bool_decide (ver = None) = true |- _ => apply bool_decide_eq_true in H; by subst end.
Qed.

Lemma base_not_written v (k : StatementKind) : variable v ∉ map variable (iter_dst_var k) -> v ∉ iter_dst_var k.
Proof. intros Hn Hv. apply Hn, elem_of_map. eauto. Qed.

Lemma pend_stable env h k t p : src_ok t p -> t ∉ map variable (iter_dst_var k) -> (forall v, v ∈ src_vars p -> v ∉ map variable (iter_dst_var k)) ->
  env (VariableRef_new t) = join (map (ev_exp env h) (p_sources p)) ->
  (exec k (env, h)).1 (VariableRef_new t) = join (map (ev_exp (exec k (env, h)).1 (exec k (env, h)).2) (p_sources p)).
Proof.
  intros [Ho Hs] Ht Hv E. rewrite exec_other by (by apply base_not_written). rewrite E. f_equal. symmetry. apply evs_stable; [done|].
  intros v Hin. apply exec_other, base_not_written, Hv. destruct (source_vars_spec _ _ _ Hs) as (-> & _ & _). apply elem_of_map. eauto.
Qed.

Lemma pend_new env h dest srcs t p : src_ok t p -> p_sources p = srcs -> is_pathless dest = true -> base dest = VariableRef_new t ->
  (exec (Assign dest srcs) (env, h)).1 (VariableRef_new t) =
  join (map (ev_exp (exec (Assign dest srcs) (env, h)).1 (exec (Assign dest srcs) (env, h)).2) srcs).
Proof.
  intros [Ho Hs] Hsr Hp Hb. subst srcs. simpl. rewrite Hp. simpl. unfold upd at 1. rewrite decide_True by done. f_equal. symmetry.
  apply evs_stable; [done|]. intros v Hin. unfold upd. rewrite decide_False; [done|]. rewrite Hb. intros ->.
  destruct (source_vars_spec _ _ _ Hs) as (-> & Hn & _). apply Hn, elem_of_map. by exists (VariableRef_new t).
Qed.

Lemma inv_step l1 done st s rr rw s' st' :
  coal_inv l1 done st (kvars (kind s) ++ rr) (map variable (iter_dst_var (kind s)) ++ rw) ->
  coalesce_stmt cand (length done) s st = (s', st') -> coal_inv (l1 ++ [s]) (done ++ [s']) st' rr rw.
Proof.
  intros Hi. unfold coalesce_stmt. destruct (fuse_kind (kind s) st) as [k' [pend1 dead1]] eqn:Ef. intros [= <- <-].
  destruct (fuse_kind_spec _ _ _ _ Ef) as (F & Hok & Hdst & Hex).
  destruct (inv_fuse _ _ _ _ _ _ _ _ _ Hi Hok) as (Hnd & Hdead & Hpend & Hreads & Hsem). simpl in *.
  assert (forall d, d ∈ dead1 -> d < length done) as Hlt.
  { intros d (t & _ & (x & ? & ? & Hl & _) & _)%Hdead. by eapply lookup_lt_Some. }
  assert (length done ∉ dead1) as Hfresh by (intros ?%Hlt; lia).
  assert (forall t p, invalidate k' pend1 !! t = Some p -> st.1 !! t = Some p /\ stmt_pos p ∉ dead1 /\
            forall v, v ∈ src_vars p -> v ∉ map variable (iter_dst_var (kind s))) as Hinv.
  { intros t p [Hp Hw]%map_lookup_filter_Some. destruct (Hpend t p Hp). split_and!; [done|done|].
    intros v Hv. rewrite <- Hdst. rewrite Forall_forall in Hw. specialize (Hw v Hv). simpl in Hw. by apply not_elem_of_app in Hw as [? _]. }
  split; simpl.
  - intros t Ht. rewrite lvars_snoc, <- app_assoc. by apply (c_once_r _ _ _ _ _ Hi).
  - intros t Ht. rewrite wvars_snoc, <- app_assoc. by apply (c_once_w _ _ _ _ _ Hi).
  - rewrite !length_app. simpl. by rewrite (c_len _ _ _ _ _ Hi).
  - rewrite !wvars_snoc, (c_wvars _ _ _ _ _ Hi). simpl. by rewrite Hdst.
  - intros v. rewrite !lvars_snoc. simpl. intros [Hv|Hv]%elem_of_app; [|by apply Hreads].
    apply elem_of_app. left. by apply (c_reads _ _ _ _ _ Hi).
  - intros t p [Hp|(Hc & Hs & Hpos & dest & -> & Hpl & Hb)]%register_lookup.
    + apply Hinv in Hp as (Hp & Hnd' & _). destruct (c_pend _ _ _ _ _ Hi t p Hp) as (Hc & Hs & _ & x & de & Hl & Hx).
      split_and!; [done..|]. exists x, de. split; [by apply lookup_app_l_Some|done].
    + split_and!; [done|done|by rewrite Hpos|]. rewrite Hpos. exists (with_kind s (Assign dest (p_sources p))), dest.
      split_and!; [|done..]. rewrite lookup_app_r, Nat.sub_diag by done. done.
  - done.
  - intros d Hd. destruct (Hdead d Hd) as (t & Hc & Hdd & Hl & Hn' & Hr & Hin). exists t.
    split_and!; [done|by apply dead_def_snoc| |done|by rewrite lvars_snoc]. rewrite lvars_snoc, not_elem_of_app. done.
  - intros env h. destruct (Hsem env h) as [Hh Ha]. destruct (c_sem _ _ _ _ _ Hi env h) as (_ & _ & Hpo).
    rewrite kept_snoc, !exec_list_snoc by done. simpl.
    destruct (exec_list l1 (env, h)) as [eo ho]. destruct (exec_list (kept done dead1) (env, h)) as [en hn]. simpl in *. subst hn.
    rewrite (Hex eo ho Hpo). set (R := fun t => exists d, d ∈ dead1 /\ dead_def done d t).
    destruct (exec_agree R k' eo en ho) as [Hh' Ha'].
    { done. }
    { intros v Hv (d & Hd & Hdd). destruct (Hdead d Hd) as (t & _ & Hdd' & _ & Hn' & _). by rewrite (dead_def_fun _ _ _ _ Hdd Hdd') in Hv. }
    split_and!; [done| |].
    + intros v Hv. apply Ha'. intros (d & Hd & Hdd). apply Hv. exists d. split; [done|by apply dead_def_snoc].
    + intros t p [Hp|(Hc & Hs & Hpos & dest & Hk & Hpl & Hb)]%register_lookup.
      * apply Hinv in Hp as (Hp & _ & Hw). destruct (c_pend _ _ _ _ _ Hi t p Hp) as (Hc & Hs & _ & x & de & Hl & Hx & Hxp & Hxb).
        apply (pend_stable eo ho k' t p); [done| |by rewrite Hdst|by apply Hpo].
        rewrite Hdst. pose proof (c_once_w _ _ _ _ _ Hi t Hc) as Ho. apply once_app in Ho as (_ & _ & Hd).
        assert (t ∈ wvars l1) as Htw.
        { rewrite <- (c_wvars _ _ _ _ _ Hi). apply list_elem_of_bind. exists x. split; [|by eapply list_elem_of_lookup_2].
          rewrite Hx. simpl. rewrite Hxp. simpl. rewrite Hxb. simpl. set_solver. }
        specialize (Hd Htw). by apply not_elem_of_app in Hd as [? _].
      * subst k'. by apply (pend_new eo ho dest (p_sources p) t p).
Qed.

Lemma inv_loop l : forall l1 done st rr rw l' st',
  coal_inv l1 done st (lvars l ++ rr) (wvars l ++ rw) -> coalesce_stmts cand (length done) l st = (l', st') ->
  coal_inv (l1 ++ l) (done ++ l') st' rr rw.
Proof.
  induction l as [|s l IH]; intros l1 done st rr rw l' st' Hi; simpl.
  { intros [= <- <-]. by rewrite !app_nil_r. }
  destruct (coalesce_stmt cand (length done) s st) as [s1 st1] eqn:E1.
  destruct (coalesce_stmts cand (S (length done)) l st1) as [l2 st2] eqn:E2. intros [= <- <-].
  assert (forall (x : Statement) k k', k ++ x :: k' = (k ++ [x]) ++ k') as Esnoc by (intros; by rewrite <- app_assoc).
  rewrite (Esnoc s l1 l), (Esnoc s1 done l2). apply (IH _ _ st1).
  - eapply inv_step; [|exact E1]. unfold lvars, wvars in *. csimpl in Hi. by rewrite <- !app_assoc in Hi.
  - rewrite length_app. simpl. by rewrite Nat.add_1_r.
Qed.

(** ** Blocks *)

Definition tvars (t : option Terminator) : list Var :=
  match t with Some t => map variable (term_iter_src_var t) | None => [] end.

(** The values a terminator returns. *)
Definition returned (st : Env * H) (t : option Terminator) : option (list V) :=
  match t with
  | Some t => match term_kind t with Return args => Some (map (ev_exp st.1 st.2) args) | Goto _ => None end
  | None => None
  end.

Lemma coalesce_term_spec t st t' st' : coalesce_term t st = (t', st') ->
  exists F, fuse_ok (tvars t) (tvars t') st st' F /\ (term_successors <$> t') = (term_successors <$> t) /\
    forall env h, pend_ok env h st.1 -> returned (env, h) t = returned (env, h) t'.
Proof.
  unfold coalesce_term. destruct t as [t|]; [|intros [= <- <-]; exists []; by split_and!; [apply fuse_ok_refl|..]].
  destruct (term_kind t) as [args|ts] eqn:Ek; [|intros [= <- <-]; exists []; by split_and!; [apply fuse_ok_refl|..]].
  destruct (subst_exps args false st) as [args' st1] eqn:E. intros [= <- <-].
  destruct (subst_exps_ok _ _ _ _ _ E) as (F & HF & Hev). exists F. unfold tvars, term_iter_src_var, term_successors, returned. simpl.
  rewrite Ek. split_and!; [exact HF|done|]. intros env h Hpo. by rewrite (Hev env h Hpo).
Qed.

Lemma delete_dead_spec l : forall i ds, StronglySorted (≤) ds -> NoDup ds -> Forall (fun d => i <= d) ds ->
  delete_dead i l ds = map snd (filter (fun x : nat * Statement => x.1 ∉ ds) (enum_from i l)).
Proof.
  induction l as [|s l IH]; intros i ds Hs Hn Hge; simpl; [done|].
  destruct ds as [|d ds].
  - rewrite filter_cons_True by set_solver. simpl. by rewrite IH.
  - apply Forall_cons in Hge as [Hid Hge]. apply StronglySorted_inv in Hs as [Hs Hall]. apply NoDup_cons in Hn as [Hd Hn].
    case_decide as Hdi.
    + subst d. rewrite filter_cons_False by (simpl; set_solver). rewrite IH; [|done..|].
      * f_equal. apply filter_ext_in. intros [j x] [Hj _]%elem_of_enum_from. simpl. rewrite not_elem_of_cons. naive_solver lia.
      * apply Forall_forall. intros e He. rewrite Forall_forall in Hall. specialize (Hall e He). assert (e <> i) by naive_solver. lia.
    + assert (Forall (fun e => S i <= e) (d :: ds)) as Hge'.
      { apply Forall_cons. split; [lia|]. apply Forall_forall. intros e He. rewrite Forall_forall in Hall. specialize (Hall e He). lia. }
      rewrite filter_cons_True.
      * simpl. f_equal. apply IH; [by constructor|by constructor|done].
      * simpl. intros Hi. rewrite Forall_forall in Hge'. specialize (Hge' i Hi). lia.
Qed.

Lemma delete_sorted l dead : NoDup dead -> delete_dead 0 l (merge_sort (≤) dead) = kept l dead.
Proof.
  intros Hn. rewrite delete_dead_spec.
  - unfold kept. f_equal. apply filter_ext_in. intros x _. by rewrite merge_sort_Permutation.
  - apply (StronglySorted_merge_sort (≤)).
  - by rewrite merge_sort_Permutation.
  - apply Forall_forall. lia.
Qed.

Lemma kept_nil l : kept l [] = l.
Proof.
  unfold kept. generalize 0. induction l as [|s l IH]; intros i; cbn [enum_from]; [done|].
  rewrite filter_cons_True by set_solver. simpl. by rewrite IH.
Qed.

Lemma kept_length l dead : NoDup dead -> (forall d, d ∈ dead -> d < length l) -> length (kept l dead) + length dead = length l.
Proof.
  revert l. induction dead as [|d dead IH]; intros l Hn Hlt.
  - rewrite kept_nil. simpl. lia.
  - apply NoDup_cons in Hn as [Hd Hn]. destruct (lookup_lt_is_Some_2 l d) as [s Hs]; [apply Hlt; set_solver|].
    destruct (kept_delete l d s dead Hs Hd) as (A & B & E1 & E2 & _).
    assert (kept l (d :: dead) = kept l (dead ++ [d])) as E3.
    { unfold kept. f_equal. apply filter_ext_in. intros x _. set_solver. }
    specialize (IH l Hn ltac:(set_solver)). rewrite E3, E2. rewrite E1, !length_app in *. simpl in *. lia.
Qed.

Definition exec_block (b : BasicBlockData) (st : Env * H) : Env * H * option (list V) :=
  let st := exec_list (statements b) st in (st, returned st (terminator b)).

Definition bvars (b : BasicBlockData) : list Var := map variable (block_src_vars b).

Lemma bvars_eq b : bvars b = lvars (statements b) ++ tvars (terminator b).
Proof.
  unfold bvars, block_src_vars, lvars, kvars. rewrite map_app. f_equal; [|by destruct (terminator b)].
  induction (statements b) as [|s l IH]; csimpl; [done|]. by rewrite map_app, IH.
Qed.

Lemma returned_agree X env env' h t : agree X env env' -> (forall v, v ∈ tvars t -> ~ X v) -> returned (env, h) t = returned (env', h) t.
Proof.
  intros Ha Hv. destruct t as [t|]; [|done]. unfold returned, tvars, term_iter_src_var in *. destruct (term_kind t) as [args|]; [|done].
  f_equal. by apply (ev_exps_agree X).
Qed.

Lemma exec_block_agree X b env env' h : agree X env env' -> (forall v, v ∈ bvars b -> ~ X v) ->
  (exec_block b (env, h)).1.2 = (exec_block b (env', h)).1.2 /\ (exec_block b (env, h)).2 = (exec_block b (env', h)).2 /\
  agree X (exec_block b (env, h)).1.1 (exec_block b (env', h)).1.1.
Proof.
  intros Ha Hv. rewrite bvars_eq in Hv. unfold exec_block. simpl.
  destruct (exec_list_agree X (statements b) env env' h Ha) as [Hh Ha']; [set_solver|].
  destruct (exec_list (statements b) (env, h)) as [e1 h1], (exec_list (statements b) (env', h)) as [e2 h2]. simpl in *. subst.
  split_and!; [done| |done]. apply (returned_agree X); [done|set_solver].
Qed.

Lemma block_spec uses b : (forall t, cand t = true -> uses !! t = Some 1) ->
  (forall t, cand t = true -> once t (bvars b)) -> (forall t, cand t = true -> once t (wvars (statements b))) ->
  exists b' n, coalesce_block cand uses b = Ret (b', n) /\
    length (statements b) = length (statements b') + n /\ (term_successors <$> terminator b') = (term_successors <$> terminator b) /\
    (forall v, v ∈ bvars b' -> v ∈ bvars b) /\
    forall env h, (exec_block b' (env, h)).1.2 = (exec_block b (env, h)).1.2 /\ (exec_block b' (env, h)).2 = (exec_block b (env, h)).2 /\
      agree (fun t => cand t = true /\ t ∈ bvars b /\ t ∉ bvars b') (exec_block b (env, h)).1.1 (exec_block b' (env, h)).1.1.
Proof.
  intros Huses Hr Hw. unfold coalesce_block. destruct (coalesce_stmts cand 0 (statements b) (∅, [])) as [stmts st] eqn:E1.
  destruct (coalesce_term (terminator b) st) as [term st'] eqn:E2. destruct st' as [pd dead].
  assert (coal_inv (statements b) stmts st (tvars (terminator b)) []) as Hi.
  { apply (inv_loop (statements b) [] [] (∅, []) _ [] stmts st); [|done]. split; simpl; try done.
    - intros t Ht. rewrite <- bvars_eq. by apply Hr.
    - intros t Ht. rewrite app_nil_r. by apply Hw.
    - constructor.
    - set_solver. }
  destruct (coalesce_term_spec _ _ _ _ E2) as (F & Hok & Hts & Hret).
  assert (coal_inv (statements b) stmts st (tvars (terminator b) ++ []) []) as Hi' by (by rewrite app_nil_r).
  destruct (inv_fuse _ _ _ _ _ _ _ _ _ Hi' Hok) as (Hnd & Hdead & _ & Hreads & Hsem). simpl in *.
  destruct (foldM_inv (fun (_ : unit) pos => check_dead uses stmts pos) (fun _ _ => True) dead [] tt I) as ([] & -> & _).
  { intros _ d [] Hd _. exists tt. split; [|done]. destruct (Hdead d Hd) as (t & Hc & (x & de & sr & Hl & Hk & Hp & Hb) & _).
    unfold check_dead. rewrite Hl. simpl. rewrite Hk. simpl. rewrite Hp. simpl. rewrite Hb. simpl.
    rewrite bool_decide_eq_true_2; [done|by apply Huses]. }
  cbn [mbind outcome_bind]. rewrite delete_sorted by done. eexists _, _. split; [reflexivity|]. simpl.
  assert (forall v, v ∈ bvars {| statements := kept stmts dead; terminator := term |} -> v ∈ lvars stmts \/ v ∈ tvars term) as Hb'.
  { intros v. rewrite bvars_eq. simpl. intros [Hv|Hv]%elem_of_app; [left; by eapply kept_lvars|by right]. }
  split_and!.
  - rewrite <- (c_len _ _ _ _ _ Hi), <- (kept_length stmts dead); [done|done|].
    intros d (t & _ & (x & ? & ? & Hl & _) & _)%Hdead. by eapply lookup_lt_Some.
  - done.
  - intros v [Hv|Hv]%Hb'; rewrite bvars_eq; [|by apply Hreads]. apply elem_of_app. left. by apply (c_reads _ _ _ _ _ Hi).
  - intros env h. destruct (Hsem env h) as [Hh Ha]. destruct (c_sem _ _ _ _ _ Hi env h) as (_ & _ & Hpo). unfold exec_block. simpl.
    destruct (exec_list (statements b) (env, h)) as [eo ho]. destruct (exec_list (kept stmts dead) (env, h)) as [en hn]. simpl in *. subst hn.
    split_and!; [done| |].
    + rewrite (Hret eo ho Hpo). symmetry. apply (returned_agree (fun t => exists d, d ∈ dead /\ dead_def stmts d t)); [done|].
      intros v Hv (d & Hd & Hdd). destruct (Hdead d Hd) as (t & _ & Hdd' & _ & Hn & _). by rewrite (dead_def_fun _ _ _ _ Hdd Hdd') in Hv.
    + intros v Hv. apply Ha. intros (d & Hd & Hdd). apply Hv. destruct (Hdead d Hd) as (t & Hc & Hdd' & Hl & Hn & _ & Hin).
      rewrite (dead_def_fun _ _ _ _ Hdd Hdd'). split_and!; [done|by rewrite bvars_eq|]. intros [?|?]%Hb'; done.
Qed.
End loop.

(** ** Functions *)

Lemma count_vars_spec v l : forall m, default 0 (foldl bump m l !! v) = default 0 (m !! v) + length (filter (fun x => x = v) l).
Proof.
  induction l as [|x l IH]; intros m; simpl; [lia|]. rewrite IH. unfold bump. rewrite filter_cons. destruct (decide (x = v)) as [->|Hne].
  - rewrite lookup_insert_eq. simpl. lia.
  - by rewrite lookup_insert_ne.
Qed.

Lemma count_once v l : count_vars l !! v = Some 1 -> once v l.
Proof. intros Hc. pose proof (count_vars_spec v l ∅) as E. unfold count_vars in Hc. rewrite Hc, lookup_empty in E. simpl in E. unfold once. lia. Qed.

Definition fvars (bs : list BasicBlockData) : list Var := bs ≫= bvars.

Lemma map_bind {A B C} (g : B -> C) (f : A -> list B) (l : list A) : map g (l ≫= f) = l ≫= fun x => map g (f x).
Proof. induction l as [|x l IH]; csimpl; [done|]. by rewrite map_app, IH. Qed.

Lemma fvars_eq bs : map variable (bs ≫= block_src_vars) = fvars bs.
Proof. apply map_bind. Qed.

Lemma dvars_eq bs : map variable (bs ≫= block_dst_vars) = bs ≫= fun b => wvars (statements b).
Proof.
  rewrite map_bind. unfold block_dst_vars, wvars. induction bs as [|b bs IH]; csimpl; [done|]. by rewrite map_bind, IH.
Qed.

Lemma once_bind {A} (f : A -> list Var) t (l : list A) : once t (l ≫= f) -> forall i x, l !! i = Some x ->
  once t (f x) /\ (t ∈ f x -> forall j y, l !! j = Some y -> j <> i -> t ∉ f y).
Proof.
  intros Ho i x Hx. pose proof (take_drop_middle l i x Hx) as E. rewrite <- E, bind_app in Ho. csimpl in Ho.
  apply once_app in Ho as (_ & Ho & Hd1). apply once_app in Ho as (Ho & _ & Hd2). split; [done|].
  intros Ht j y Hy Hne Hty. destruct (decide (j < i)) as [Hlt|Hge].
  - apply (Hd1); [|apply elem_of_app; by left]. apply list_elem_of_bind. exists y. split; [done|].
    apply list_elem_of_lookup. exists j. rewrite lookup_take_lt; done.
  - apply (Hd2 Ht). apply list_elem_of_bind. exists y. split; [done|]. apply list_elem_of_lookup. exists (j - S i).
    rewrite lookup_drop. replace (S i + (j - S i)) with j by lia. done.
Qed.

(** Running a sequence of blocks: the final state, and what each block returned. *)
Definition path_step (bs : list BasicBlockData) (acc : Env * H * list (option (list V))) (i : nat) : Env * H * list (option (list V)) :=
  match bs !! i with
  | Some b => ((exec_block b acc.1).1, acc.2 ++ [(exec_block b acc.1).2])
  | None => acc
  end.

Definition exec_path (f : FunctionData) (pth : list nat) (st : Env * H) : Env * H * list (option (list V)) :=
  foldl (path_step (blocks f)) (st, []) pth.

Definition block_sim (cand : Var -> bool) (b b' : BasicBlockData) : Prop :=
  (term_successors <$> terminator b') = (term_successors <$> terminator b) /\ (forall v, v ∈ bvars b' -> v ∈ bvars b) /\
  forall env h, (exec_block b' (env, h)).1.2 = (exec_block b (env, h)).1.2 /\ (exec_block b' (env, h)).2 = (exec_block b (env, h)).2 /\
    agree (fun t => cand t = true /\ t ∈ bvars b /\ t ∉ bvars b') (exec_block b (env, h)).1.1 (exec_block b' (env, h)).1.1.

Definition num_statements (f : FunctionData) : nat := sum_list_with (fun b => length (statements b)) (blocks f).

Lemma coalesce_blocks cand uses bs : (forall t, cand t = true -> uses !! t = Some 1) ->
  (forall b t, b ∈ bs -> cand t = true -> once t (bvars b) /\ once t (wvars (statements b))) -> forall acc n,
  exists bs' k, foldM (fun '(bs, removed) b => '(b, n) ← coalesce_block cand uses b; Ret (bs ++ [b], removed + n)) (acc, n) bs = Ret (acc ++ bs', n + k) /\
    Forall2 (block_sim cand) bs bs' /\
    sum_list_with (fun b => length (statements b)) bs = sum_list_with (fun b => length (statements b)) bs' + k.
Proof.
  intros Hu. induction bs as [|b bs IH]; intros Hb acc n; simpl.
  { exists [], 0. rewrite app_nil_r, Nat.add_0_r. split_and!; [done|constructor|done]. }
  destruct (block_spec cand uses b Hu) as (b' & k & -> & Hlen & Hs); [intros; by eapply Hb; [set_solver|]..|].
  cbn [mbind outcome_bind]. destruct (IH ltac:(intros; apply Hb; [set_solver|done]) (acc ++ [b']) (n + k)) as (bs' & k' & -> & Hf & Hsum).
  exists (b' :: bs'), (k + k'). rewrite <- app_assoc, Nat.add_assoc. split_and!; [done| |simpl; lia]. constructor; [|done]. by destruct Hs as (? & ? & ?).
Qed.

Lemma coalesce_function_spec f : exists f' n, coalesce_function f = Ret (f', n) /\
  num_statements f = num_statements f' + n /\ f' = with_blocks f (blocks f') /\
  map (fun b => term_successors <$> terminator b) (blocks f') = map (fun b => term_successors <$> terminator b) (blocks f) /\
  forall pth env h,
    (exec_path f' pth (env, h)).1.2 = (exec_path f pth (env, h)).1.2 /\ (exec_path f' pth (env, h)).2 = (exec_path f pth (env, h)).2 /\
    agree (fun t => is_candidate_var (def_counts f) (use_counts f) t = true /\ t ∉ fvars (blocks f'))
      (exec_path f pth (env, h)).1.1 (exec_path f' pth (env, h)).1.1.
Proof.
  unfold coalesce_function. case_decide as Hnil.
  { exists f, 0. split_and!; [done|lia|by destruct f|done|]. intros pth env h. by split_and!. }
  set (cand := is_candidate_var (def_counts f) (use_counts f)).
  assert (forall t, cand t = true -> use_counts f !! t = Some 1 /\ def_counts f !! t = Some 1) as Hcand.
  { intros t. unfold cand, is_candidate_var. rewrite !andb_true_iff, !bool_decide_eq_true. naive_solver. }
  assert (forall t, cand t = true -> once t (fvars (blocks f)) /\ once t (blocks f ≫= fun b => wvars (statements b))) as Honce.
  { intros t [Hu Hd]%Hcand. apply count_once in Hu, Hd. by rewrite fvars_eq in Hu; rewrite dvars_eq in Hd. }
  destruct (coalesce_blocks cand (use_counts f) (blocks f)) with (acc := @nil BasicBlockData) (n := 0) as (bs' & k & E & Hsim & Hsum).
  { intros t Ht. by apply Hcand. }
  { intros b t [i Hi]%list_elem_of_lookup Ht. destruct (Honce t Ht) as [H1 H2].
    split; [by apply (once_bind bvars t _ H1 i b Hi)|by apply (once_bind (fun b => wvars (statements b)) t _ H2 i b Hi)]. }
  rewrite E. cbn [mbind outcome_bind]. simpl. eexists _, _. split; [reflexivity|]. split_and!; [done|by destruct f| |].
  { simpl. clear -Hsim. induction Hsim as [|b b' bs bs' (Ht & _) _ IH]; simpl; [done|]. by rewrite Ht, IH. }
  simpl. intros pth. set (X := fun t => cand t = true /\ t ∉ fvars bs').
  assert (forall i b b', blocks f !! i = Some b -> bs' !! i = Some b' -> forall t, cand t = true /\ t ∈ bvars b /\ t ∉ bvars b' -> X t) as HX.
  { intros i b b' Hb Hb' t (Hc & Ht & Hn). split; [done|]. intros (c' & Hin & [j Hj]%list_elem_of_lookup)%list_elem_of_bind.
    destruct (decide (j = i)) as [->|Hne]; [by simplify_eq|]. destruct (Forall2_lookup_r _ _ _ _ _ Hsim Hj) as (c & Hcj & _ & Hsub & _).
    destruct (Honce t Hc) as [Ho _]. destruct (once_bind _ _ _ Ho i b Hb) as [_ Hoth]. by apply (Hoth Ht j c Hcj Hne), Hsub. }
  enough (forall env env' h rs, agree X env env' ->
    (foldl (path_step bs') (env', h, rs) pth).1.2 = (foldl (path_step (blocks f)) (env, h, rs) pth).1.2 /\
    (foldl (path_step bs') (env', h, rs) pth).2 = (foldl (path_step (blocks f)) (env, h, rs) pth).2 /\
    agree X (foldl (path_step (blocks f)) (env, h, rs) pth).1.1 (foldl (path_step bs') (env', h, rs) pth).1.1) as G
    by (intros env h; by apply G).
  induction pth as [|i pth IH]; intros env env' h rs Ha; cbn [foldl]; [done|]. unfold path_step at 2 4 6 8 10 12.
  destruct (blocks f !! i) as [b|] eqn:Eb.
  - destruct (Forall2_lookup_l _ _ _ _ _ Hsim Eb) as (b' & Eb' & _ & Hsub & Hex). rewrite Eb'.
    destruct (Hex env h) as (Hh1 & Hr1 & Ha1).
    destruct (exec_block_agree cand X b' env env' h Ha) as (Hh2 & Hr2 & Ha2).
    { intros v Hv [_ Hn]. apply Hn, list_elem_of_bind. exists b'. split; [done|by eapply list_elem_of_lookup_2]. }
    cbn [fst snd] in *.
    destruct (exec_block b (env, h)) as [[e1 h1] r1], (exec_block b' (env, h)) as [[e2 h2] r2], (exec_block b' (env', h)) as [[e3 h3] r3].
    cbn [fst snd] in *. subst h2 r2 h3 r3. apply IH. intros v Hv. rewrite Ha1; [by apply Ha2|]. intros Hv'. by apply Hv, (HX i b b').
  - assert (bs' !! i = None) as ->; [|by apply IH]. apply lookup_ge_None_2. rewrite <- (Forall2_length _ _ _ Hsim). by apply lookup_ge_None_1.
Qed.
End semantics.

#[export] Program Instance unit_Interp : Interp unit unit := {|
  rd _ _ v := v; vl v := v; cst _ := tt; join _ := tt; put h _ _ _ := h; call_heap h _ _ _ := h;
  call_ret _ _ _ _ _ := tt; phi _ := tt |}.
Solve Obligations with try done; by intros [].

(** C5: Copy coalescing preserves behaviour.  On every function the pass returns (its assertion
    that a deleted definition has a single use never fails), the count it returns is the number
    of statements deleted, and the control-flow graph is unchanged.  Under every interpretation
    of values, loads, stores and calls, running any sequence of blocks before and after the pass
    leaves the same heap and returns the same values, and the variables agree except for
    locals, defined once and read once before, that nothing reads any more. *)
Theorem coalesce_function_correct (f : FunctionData) :
  exists f' n, coalesce_function f = Ret (f', n) /\
    num_statements f = num_statements f' + n /\ f' = with_blocks f (blocks f') /\
    map (fun b => term_successors <$> terminator b) (blocks f') = map (fun b => term_successors <$> terminator b) (blocks f) /\
    forall (V H : Type) (I : Interp V H) (pth : list nat) (env : VariableRef -> V) (h : H),
      (exec_path f' pth (env, h)).1.2 = (exec_path f pth (env, h)).1.2 /\
      (exec_path f' pth (env, h)).2 = (exec_path f pth (env, h)).2 /\
      agree (fun t => is_candidate_var (def_counts f) (use_counts f) t = true /\ t ∉ fvars (blocks f'))
        (exec_path f pth (env, h)).1.1 (exec_path f' pth (env, h)).1.1.
Proof.
  destruct (coalesce_function_spec f) as (f' & n & E & Hn & Hf & Ht & _). exists f', n. split_and!; [done..|].
  intros V H I pth env h. destruct (coalesce_function_spec (V := V) (H := H) f) as (f2 & n2 & E2 & _ & _ & _ & Hs).
  rewrite E in E2. injection E2 as <- <-. apply Hs.
Qed.

(** [t = y; g(t, z); return t2] with [t2 = a, b; u = t2]: the copies into [t] and [t2] go. *)
Example coalesce_example :
  let v i := new_local_idx i in let e i := Exp_variable (v i) in
  let f stmts := {| name := "f"; params := []; arity := 1;
                    blocks := [{| statements := map new_kind stmts; terminator := Some (term_new_kind (Return [e 9])) |}];
                    locals := Locals_default |} in
  coalesce_function (f [Assign (ap_of_var (v 0)) [e 1]; CallAssign (DirectCall (Explicit ["g"])) [] [e 0; e 2];
                        Assign (ap_of_var (v 3)) [e 4; e 5]; Assign (ap_of_var (v 9)) [e 3]; Assign (ap_of_var (v 9)) [e 7]]) =
  Ret (f [CallAssign (DirectCall (Explicit ["g"])) [] [e 1; e 2]; Assign (ap_of_var (v 9)) [e 4; e 5]; Assign (ap_of_var (v 9)) [e 7]], 2).
Proof. vm_compute. reflexivity. Qed.
