(* ===== verification/Cfg.v ===== *)
(** * Cfg: basic blocks as a graph, pruning and the single exit
      ([ctadl-ir/src/cir/basic_blocks.rs], [ctadl-ir/src/ssa/mod.rs])

    [BasicBlocks] is a list of blocks; it implements the graph traits by reading the edges out
    of the terminators, so that asking a block without a terminator for its successors panics.
    The predecessor table is cached in the source; here it is computed at each use, which is the
    same value as long as the callers of [blocks_mut_preserves_cfg] keep their promise not to
    change the edges.

    [prune_unreachable_nodes] and [complete] are the first two steps of SSA construction. *)

From S2P Require Import Prelude Index Text Path IR Graph Coalesce.

Notation BasicBlocks := (list BasicBlockData).

#[export] Instance BasicBlocks_DirectedGraph : DirectedGraph BasicBlocks := {| num_nodes := @length _ |}.
#[export] Instance BasicBlocks_StartNode : StartNode BasicBlocks := {| start_node _ := 0 |}.

(** [self.basic_blocks[node].terminator().successors()]. *)
Definition block_successors (bs : BasicBlocks) (n : nat) : outcome (list nat) :=
  b ← iv_index bs n; t ← unwrap (terminator b); Ret (term_successors t).
#[export] Instance BasicBlocks_Successors : Successors BasicBlocks := {| successors := block_successors |}.

(** [preds[succ].push(bb)]. *)
Definition push_pred (bb : nat) (preds : list (list nat)) (succ : nat) : outcome (list (list nat)) :=
  l ← iv_index preds succ; iv_set preds succ (l ++ [bb]).

Definition predecessor_table (bs : BasicBlocks) : outcome (list (list nat)) :=
  foldM (fun preds '(bb, data) =>
      match terminator data with
      | Some t => foldM (push_pred bb) preds (term_successors t)
      | None => Ret preds
      end)
    (replicate (length bs) []) (enumerate bs).

Definition block_predecessors (bs : BasicBlocks) (n : nat) : outcome (list nat) :=
  preds ← predecessor_table bs; iv_index preds n.
#[export] Instance BasicBlocks_Predecessors : Predecessors BasicBlocks := {| predecessors := block_predecessors |}.

(** ** [prune_unreachable_nodes] *)

(** Old indices to new ones. *)
Definition prune_mapping (reachable_indices : list nat) : gmap nat nat :=
  foldl (fun m '(new_idx, old_idx) => <[old_idx := new_idx]> m) ∅ (enumerate reachable_indices).

Definition prune_terminator (mapping : gmap nat nat) (t : Terminator) : outcome Terminator :=
  match term_kind t with
  | Goto targets =>
      targets ← mapM_out (fun target => unwrap (mapping !! target)) targets;
      Ret (term_with_kind t (Goto targets))
  | Return _ => Ret t
  end.

Definition prune_stmt (mapping : gmap nat nat) (s : Statement) : outcome Statement :=
  match kind s with
  | Phi dest operands =>
      operands ← mapM_out (fun '(pred, v) => pred ← unwrap (mapping !! pred); Ret (pred, v))
                   (filter (fun o : nat * VariableRef => is_Some (mapping !! o.1)) operands);
      Ret (with_kind s (Phi dest operands))
  | _ => Ret s
  end.

Definition prune_block (bs : BasicBlocks) (mapping : gmap nat nat) (old_idx : nat) : outcome BasicBlockData :=
  data ← iv_index bs old_idx;
  term ← match terminator data with
         | Some t => t ← prune_terminator mapping t; Ret (Some t)
         | None => Ret None
         end;
  stmts ← mapM_out (prune_stmt mapping) (statements data);
  Ret {| statements := stmts; terminator := term |}.

Definition prune_unreachable_nodes (fuel : nat) (f : FunctionData) : outcome FunctionData :=
  reachable_indices ← reachable fuel (blocks f);
  if decide (length reachable_indices = num_nodes (blocks f)) then Ret f
  else
    let mapping := prune_mapping reachable_indices in
    new_blocks ← mapM_out (prune_block (blocks f) mapping) reachable_indices;
    Ret (with_blocks f new_blocks).

(** ** [complete] *)

Definition ret_name (i : nat) : string := "_$ret" +:+ show_nat i.

(** The return variables, interned in the table of locals. *)
Definition intern_retvars (f : FunctionData) : FunctionData * list VariableRef :=
  foldl (fun '(f, vs) i => let '(f, idx) := intern_local f (ret_name i) in (f, vs ++ [new_local_idx idx]))
    (f, []) (seq 0 (arity f)).

(** [SingleExitRewrite::visit_basic_block_data]. *)
Definition single_exit_block (exit : nat) (retvars : list VariableRef) (data : BasicBlockData) : outcome BasicBlockData :=
  t ← unwrap (terminator data);
  match term_kind t with
  | Return args =>
      Ret {| statements := statements data ++
               map (fun '(retvar, arg) => new_kind (assign (ap_of_var retvar) [arg])) (zip retvars args);
             terminator := Some (term_new_kind (Goto [exit])) |}
  | Goto _ => Ret data
  end.

Definition complete (f : FunctionData) : outcome FunctionData :=
  let '(f, retvars) := intern_retvars f in
  let exit_block_contents :=
    {| statements := []; terminator := Some (term_new_kind (Return (map Exp_variable retvars))) |} in
  let exit := length (blocks f) in
  bs ← mapM_out (single_exit_block exit retvars) (blocks f);
  start ← iv_index bs 0;
  t ← unwrap (terminator start);
  match term_kind t with
  | Return _ => Panic
  | Goto targets =>
      let targets := if decide (exit ∈ targets) then targets else targets ++ [exit] in
      bs ← iv_set bs 0 {| statements := statements start; terminator := Some (term_with_kind t (Goto targets)) |};
      Ret (with_blocks f (bs ++ [exit_block_contents]))
  end.

(** ** The graph of the blocks *)

Lemma edge_block (bs : BasicBlocks) n m :
  edge (successors bs) n m <-> exists b t, bs !! n = Some b /\ terminator b = Some t /\ m ∈ term_successors t.
Proof.
  unfold edge. simpl. unfold block_successors, iv_index, unwrap. split.
  - intros (l & E & Hm). destruct (bs !! n) as [b|]; [|done]. simpl in E.
    destruct (terminator b) as [t|] eqn:Et; [|done]. injection E as <-. eauto.
  - intros (b & t & -> & E & Hm). simpl. rewrite E. simpl. eauto.
Qed.

(** Every block has a terminator, and its targets are blocks. *)
Lemma graph_wf_blocks (bs : BasicBlocks) :
  graph_wf bs <-> forall n b, bs !! n = Some b ->
    exists t, terminator b = Some t /\ forall m, m ∈ term_successors t -> m < length bs.
Proof.
  unfold graph_wf, closed_under. split.
  - intros H n b Hn. destruct (H n) as (l & E & Hl); [by apply elem_of_node_set; apply lookup_lt_Some in Hn|].
    simpl in E. unfold block_successors, iv_index, unwrap in E. rewrite Hn in E. simpl in E.
    destruct (terminator b) as [t|]; [|done]. injection E as <-. exists t. split; [done|].
    intros m Hm. exact (proj1 (elem_of_node_set bs m) (Hl m Hm)).
  - intros H n Hn%elem_of_node_set. destruct (lookup_lt_is_Some_2 bs n Hn) as [b Hb].
    destruct (H n b Hb) as (t & Et & Ht). exists (term_successors t). simpl.
    unfold block_successors, iv_index, unwrap. rewrite Hb. simpl. rewrite Et. split; [done|].
    intros m Hm. exact (proj2 (elem_of_node_set bs m) (Ht m Hm)).
Qed.

Definition block_targets_ok (n : nat) (b : BasicBlockData) : Prop :=
  is_Some (terminator b) /\ Forall (fun m => m < n) (from_option term_successors [] (terminator b)).

#[export] Instance block_targets_ok_dec n b : Decision (block_targets_ok n b).
Proof. unfold block_targets_ok. apply _. Defined.

#[export] Instance blocks_wf_dec (bs : BasicBlocks) : Decision (graph_wf bs).
Proof.
  refine (cast_if (decide (Forall (block_targets_ok (length bs)) bs))).
  - apply graph_wf_blocks. intros n b Hb. destruct (proj1 (Forall_lookup _ _) f n b Hb) as [[t Et] Ht].
    rewrite Et in Ht. exists t. split; [done|]. by apply Forall_forall.
  - intros HF. apply n, Forall_lookup. intros i b Hb.
    destruct (proj1 (graph_wf_blocks bs) HF i b Hb) as (t & Et & Ht). split; rewrite Et; [done|]. by apply Forall_forall.
Defined.

(** ** Predecessors *)

Lemma push_preds_spec bb ts : forall T, (forall m, m ∈ ts -> m < length T) ->
  exists T', foldM (push_pred bb) T ts = Ret T' /\ length T' = length T /\
    forall y p, p ∈ default [] (T' !! y) <-> p ∈ default [] (T !! y) \/ (p = bb /\ y ∈ ts).
Proof.
  induction ts as [|m ts IH]; intros T HT; simpl; [exists T; set_solver|].
  destruct (lookup_lt_is_Some_2 T m) as [l Hl]; [apply HT; by left|].
  unfold push_pred at 1, iv_index, iv_set. rewrite Hl. simpl. rewrite decide_True by (by eapply lookup_lt_Some).
  destruct (IH (<[m := l ++ [bb]]> T)) as (T' & -> & Hlen & HT').
  { intros m' Hm'. rewrite length_insert. apply HT. by right. }
  exists T'. rewrite length_insert in Hlen. split_and!; [done..|]. intros y p. rewrite HT', elem_of_cons.
  destruct (decide (y = m)) as [->|].
  - rewrite list_lookup_insert_eq, Hl by (by eapply lookup_lt_Some). simpl. rewrite elem_of_app, list_elem_of_singleton. tauto.
  - rewrite list_lookup_insert_ne by done. tauto.
Qed.

Lemma predecessor_table_spec bs : graph_wf bs -> exists T, predecessor_table bs = Ret T /\ length T = length bs /\
  forall y p, p ∈ default [] (T !! y) <-> edge (successors bs) p y.
Proof.
  intros Hwf. unfold predecessor_table.
  destruct (foldM_split (fun preds '(bb, data) => match terminator data with
      | Some t => foldM (push_pred bb) preds (term_successors t) | None => Ret preds end)
    (fun done T => length T = length bs /\ forall y p, p ∈ default [] (T !! y) <->
       exists b, (p, b) ∈ done /\ exists t, terminator b = Some t /\ y ∈ term_successors t)
    (enumerate bs) (replicate (length bs) [])) as (T & -> & Hlen & HT).
  - rewrite length_replicate. split; [done|]. intros y p. split; [|set_solver].
    destruct (replicate (length bs) [] !! y) as [l|] eqn:E; [|set_solver].
    apply lookup_replicate in E as [-> _]. set_solver.
  - intros pre [bb b] post T Epre [Hlen HT].
    assert (bs !! bb = Some b) as Hb by (apply elem_of_enumerate; rewrite Epre; set_solver).
    destruct (proj1 (graph_wf_blocks bs) Hwf bb b Hb) as (t & Et & Ht). rewrite Et.
    destruct (push_preds_spec bb (term_successors t) T) as (T' & -> & Hlen' & HT'); [by rewrite Hlen|].
    exists T'. split; [done|]. split; [congruence|]. intros y p. rewrite HT', HT.
    setoid_rewrite elem_of_app. setoid_rewrite list_elem_of_singleton. split.
    + intros [(b' & ? & ?)|[-> ?]]; [exists b'|exists b]; eauto.
    + intros (b' & [?|[= -> ->]] & t' & Et' & ?); [left; eauto|right]. by simplify_eq.
  - exists T. split_and!; [done..|]. intros y p. rewrite HT, edge_block. setoid_rewrite elem_of_enumerate. naive_solver.
Qed.

(** The table depends on the terminators only: this is the promise of [blocks_mut_preserves_cfg]. *)
Lemma predecessor_table_ext bs bs' : map terminator bs = map terminator bs' -> predecessor_table bs = predecessor_table bs'.
Proof.
  intros E. unfold predecessor_table. assert (length bs = length bs') as -> by (by rewrite <- (length_map terminator), E, length_map).
  generalize (replicate (length bs') ([] : list nat)) as T. generalize 0. revert bs' E.
  induction bs as [|b bs IH]; intros [|b' bs'] E i T; simplify_eq/=; [done|].
  rewrite H. destruct (match terminator b' with Some _ => _ | None => _ end) as [T'| |]; [|done..]. by apply IH.
Qed.

Lemma graph_wf_ext bs bs' : map terminator bs = map terminator bs' -> graph_wf bs -> graph_wf bs'.
Proof.
  intros E Hwf. apply graph_wf_blocks. intros n b' Hb'.
  assert (length bs = length bs') as Hl by (by rewrite <- (length_map terminator), E, length_map).
  pose proof (f_equal (fun l => l !! n) E) as En. simpl in En. rewrite !lookup_map, Hb' in En. simpl in En.
  destruct (bs !! n) as [b|] eqn:Hb; [|done]. injection En as En.
  destruct (proj1 (graph_wf_blocks bs) Hwf n b Hb) as (t & Et & Ht). exists t. split; [congruence|]. by rewrite <- Hl.
Qed.

Lemma edge_ext bs bs' p y : map terminator bs = map terminator bs' -> edge (successors bs) p y <-> edge (successors bs') p y.
Proof.
  intros E. rewrite !edge_block. pose proof (f_equal (fun l => l !! p) E) as En. simpl in En. rewrite !lookup_map in En.
  destruct (bs !! p) as [b|], (bs' !! p) as [b'|]; simplify_eq/=; [|naive_solver].
  split; intros (c & t & [= <-] & Et & Hm); eexists _, t; split_and!; [done|congruence|done|done|congruence|done].
Qed.

Lemma reach_loop_prefix `{Successors G} (g : G) fuel : forall nodes seen acc r,
  reach_loop fuel g nodes seen acc = Ret r -> acc `prefix_of` r.
Proof.
  induction fuel as [|fuel IH]; intros nodes seen acc r; simpl; [done|].
  destruct nodes as [|n nodes]; [by intros [= <-]|]. case_decide; [by apply IH|].
  destruct (successors g n) as [l| |]; [|done..]. simpl. intros E%IH.
  etrans; [|exact E]. by eexists.
Qed.

Lemma reachable_head `{Successors G} `{!StartNode G} (g : G) fuel r :
  reachable fuel g = Ret r -> r !! 0 = Some (start_node g).
Proof.
  unfold reachable. destruct fuel as [|fuel]; [done|]. simpl. rewrite decide_False by set_solver.
  destruct (successors g (start_node g)) as [l| |]; [|done..]. simpl.
  intros [k ->]%reach_loop_prefix. done.
Qed.

(** ** Pruning *)

Lemma prune_mapping_spec r x i : NoDup r -> prune_mapping r !! x = Some i <-> r !! i = Some x.
Proof.
  intros Hnd. unfold prune_mapping.
  assert (forall i0 (m : gmap nat nat), foldl (fun m '(n, o) => <[o := n]> m) m (enum_from i0 r) !! x =
    match list_find (fun y => y = x) r with Some (k, _) => Some (i0 + k) | None => m !! x end) as Hf.
  { induction r as [|y r IH]; intros i0 m; simpl; [done|]. apply NoDup_cons in Hnd as [Hy Hnd].
    rewrite (IH Hnd). case_decide as Hx.
    - subst y. destruct (list_find _ r) as [[k z]|] eqn:Ef.
      + apply list_find_Some in Ef as (Hk & -> & _). destruct Hy. by eapply list_elem_of_lookup_2.
      + rewrite lookup_insert_eq. f_equal. lia.
    - destruct (list_find _ r) as [[k z]|]; simpl; [f_equal; lia|]. by rewrite lookup_insert_ne. }
  rewrite Hf, lookup_empty. destruct (list_find _ r) as [[k z]|] eqn:Ef.
  - apply list_find_Some in Ef as (Hk & -> & _). simpl. split; [by intros [= <-]|].
    intros Hi. f_equal. by eapply NoDup_lookup.
  - split; [done|]. intros Hi. rewrite list_find_None, Forall_lookup in Ef. by destruct (Ef i x Hi).
Qed.

(** What pruning does to a block: indices are renumbered along [r], the list of the old indices
    that are kept, and phi operands that come from deleted blocks disappear. *)
Definition renamed_term (r : list nat) (t t' : Terminator) : Prop :=
  term_source_info t' = term_source_info t /\
  match term_kind t with
  | Return args => term_kind t' = Return args
  | Goto ts => exists ts', term_kind t' = Goto ts' /\ Forall2 (fun old new => r !! new = Some old) ts ts'
  end.

Definition renamed_stmt (r : list nat) (s s' : Statement) : Prop :=
  source_info s' = source_info s /\
  match kind s with
  | Phi d ops => exists ops', kind s' = Phi d ops' /\
      Forall2 (fun o o' => r !! o'.1 = Some o.1 /\ o'.2 = o.2) (filter (fun o => o.1 ∈ r) ops) ops'
  | k => kind s' = k
  end.

Definition renamed_block (r : list nat) (b b' : BasicBlockData) : Prop :=
  Forall2 (renamed_stmt r) (statements b) (statements b') /\
  exists t t', terminator b = Some t /\ terminator b' = Some t' /\ renamed_term r t t'.

Section prune.
Context (bs : BasicBlocks) (r : list nat).
Hypothesis Hwf : graph_wf bs.
Hypothesis Hnd : NoDup r.
Hypothesis Hr : forall x, x ∈ r <-> reaches bs 0 x.
Hypothesis H0 : r !! 0 = Some 0.
Hypothesis Hpos : 0 < length bs.

Lemma kept_successors x m : x ∈ r -> edge (successors bs) x m -> m ∈ r.
Proof. rewrite !Hr. intros H E. eapply rtc_r; [exact H|exact E]. Qed.

Lemma prune_stmt_spec s : exists s', prune_stmt (prune_mapping r) s = Ret s' /\ renamed_stmt r s s'.
Proof.
  unfold prune_stmt, renamed_stmt. destruct (kind s) as [| |d ops|] eqn:Ek; [by eexists..| |by eexists].
  assert (filter (fun o : nat * VariableRef => is_Some (prune_mapping r !! o.1)) ops = filter (fun o => o.1 ∈ r) ops) as ->.
  { apply filter_ext_in. intros [p v] _. simpl. split.
    - intros [i Hi%prune_mapping_spec]; [|done]. by eapply list_elem_of_lookup_2.
    - intros [i Hi]%list_elem_of_lookup. exists i. by apply prune_mapping_spec. }
  destruct (mapM_out_total (fun '(pred, v) => pred ← unwrap (prune_mapping r !! pred); Ret (pred, v))
    (filter (fun o => o.1 ∈ r) ops)) as [ops' E].
  { intros [p v] [[i Hi]%list_elem_of_lookup _]%list_elem_of_filter. simpl in *.
    apply prune_mapping_spec in Hi; [|done]. rewrite Hi. by eexists. }
  rewrite E. simpl. eexists. split; [reflexivity|]. split; [done|]. exists ops'. split; [done|].
  apply mapM_out_Ret in E. eapply Forall2_impl; [exact E|]. intros [p v] [p' v']. simpl.
  destruct (prune_mapping r !! p) as [q|] eqn:Eq; [|done]. simpl. intros [= -> ->].
  split; [|done]. by apply prune_mapping_spec.
Qed.

Lemma prune_block_spec x b : bs !! x = Some b -> x ∈ r ->
  exists b', prune_block bs (prune_mapping r) x = Ret b' /\ renamed_block r b b'.
Proof.
  intros Hb Hx. unfold prune_block, iv_index. rewrite Hb. simpl.
  destruct (proj1 (graph_wf_blocks bs) Hwf x b Hb) as (t & Et & Ht). rewrite Et.
  assert (exists t', prune_terminator (prune_mapping r) t = Ret t' /\ renamed_term r t t') as (t' & -> & Hrt).
  { unfold prune_terminator, renamed_term. destruct (term_kind t) as [args|ts] eqn:Ek; [by exists t|].
    destruct (mapM_out_total (fun target => unwrap (prune_mapping r !! target)) ts) as [ts' E].
    { intros m Hm. assert (m ∈ r) as [i Hi]%list_elem_of_lookup.
      { apply (kept_successors x m Hx), edge_block. exists b, t. unfold term_successors. by rewrite Ek. }
      apply prune_mapping_spec in Hi; [|done]. rewrite Hi. by eexists. }
    rewrite E. simpl. eexists. split; [done|]. split; [done|]. exists ts'. split; [done|].
    apply mapM_out_Ret in E. eapply Forall2_impl; [exact E|]. intros p q. simpl.
    destruct (prune_mapping r !! p) as [q'|] eqn:Eq; [|done]. intros [= ->]. by apply prune_mapping_spec. }
  simpl. destruct (mapM_out_total (prune_stmt (prune_mapping r)) (statements b)) as [l E].
  { intros s _. destruct (prune_stmt_spec s) as (s' & ? & _). eauto. }
  rewrite E. simpl. eexists. split; [reflexivity|]. split; [|eauto].
  apply mapM_out_Ret in E. eapply Forall2_impl; [exact E|]. intros s s' Es.
  destruct (prune_stmt_spec s) as (s'' & Es' & Hs). rewrite Es in Es'. by injection Es' as <-.
Qed.

Lemma prune_blocks_spec : exists bs', mapM_out (prune_block bs (prune_mapping r)) r = Ret bs' /\
  Forall2 (fun old b' => exists b, bs !! old = Some b /\ renamed_block r b b') r bs'.
Proof.
  assert (forall x, x ∈ r -> exists b, bs !! x = Some b) as Hin.
  { intros x Hx%Hr. apply lookup_lt_is_Some. by eapply (reaches_in_range bs 0 x Hwf). }
  destruct (mapM_out_total (prune_block bs (prune_mapping r)) r) as [bs' E].
  { intros x Hx. destruct (Hin x Hx) as [b Hb]. destruct (prune_block_spec x b Hb Hx) as (b' & ? & _). eauto. }
  exists bs'. split; [done|]. apply mapM_out_Ret in E.
  apply Forall2_same_length_lookup. apply Forall2_same_length_lookup in E as [Hlen E]. split; [done|].
  intros i x b' Hx Hb'. pose proof (list_elem_of_lookup_2 _ _ _ Hx) as Hxr. destruct (Hin x Hxr) as [b Hb].
  destruct (prune_block_spec x b Hb Hxr) as (b'' & E' & Hren). rewrite (E i x b' Hx Hb') in E'. naive_solver.
Qed.

(** The pruned blocks are the reachable part of the graph, renumbered. *)
Lemma pruned_edge bs' i j x y :
  Forall2 (fun old b' => exists b, bs !! old = Some b /\ renamed_block r b b') r bs' ->
  r !! i = Some x -> r !! j = Some y -> edge (successors bs') i j <-> edge (successors bs) x y.
Proof.
  intros Hb Hi Hj. rewrite !edge_block. apply Forall2_same_length_lookup in Hb as [Hlen Hb].
  destruct (lookup_lt_is_Some_2 bs' i) as [b' Hb']; [rewrite <- Hlen; by eapply lookup_lt_Some|].
  destruct (Hb i x b' Hi Hb') as (b & Ebs & _ & t & t' & Et & Et' & _ & Hk).
  assert (j ∈ term_successors t' <-> y ∈ term_successors t) as Hs.
  { unfold term_successors. destruct (term_kind t) as [args|ts]; [rewrite Hk; set_solver|].
    destruct Hk as (ts' & -> & Hts). apply Forall2_same_length_lookup in Hts as [Hl Hts].
    rewrite !list_elem_of_lookup. split; intros [k Hk].
    - destruct (lookup_lt_is_Some_2 ts k) as [z Hz]; [rewrite Hl; by eapply lookup_lt_Some|].
      exists k. rewrite Hz. f_equal. pose proof (Hts k z j Hz Hk). congruence.
    - destruct (lookup_lt_is_Some_2 ts' k) as [z Hz]; [rewrite <- Hl; by eapply lookup_lt_Some|].
      exists k. rewrite Hz. f_equal. pose proof (Hts k y z Hk Hz) as Hzy. by eapply NoDup_lookup. }
  naive_solver.
Qed.
Lemma pruned_wf bs' :
  Forall2 (fun old b' => exists b, bs !! old = Some b /\ renamed_block r b b') r bs' -> graph_wf bs'.
Proof.
  intros Hb. apply graph_wf_blocks. pose proof (Forall2_length _ _ _ Hb) as Hl. intros i b' Hb'.
  destruct (Forall2_lookup_r _ _ _ _ _ Hb Hb') as (x & Hx & b & Ebs & _ & t & t' & Et & Et' & _ & Hk).
  exists t'. split; [done|]. intros m. unfold term_successors. destruct (term_kind t) as [args|ts].
  - rewrite Hk. set_solver.
  - destruct Hk as (ts' & -> & Hts). intros [k Hm]%list_elem_of_lookup.
    destruct (Forall2_lookup_r _ _ _ _ _ Hts Hm) as (y & _ & Hy). rewrite <- Hl. by eapply lookup_lt_Some.
Qed.
End prune.

Lemma pruned_reaches bs r bs' : graph_wf bs -> NoDup r -> (forall x, x ∈ r <-> reaches bs 0 x) -> r !! 0 = Some 0 ->
  (forall i j x y, r !! i = Some x -> r !! j = Some y -> edge (successors bs') i j <-> edge (successors bs) x y) ->
  forall i x, r !! i = Some x -> reaches bs' 0 i.
Proof.
  intros Hwf Hnd Hr H0 He i x Hi.
  assert (reaches bs 0 x) as Hx by (apply Hr; by eapply list_elem_of_lookup_2).
  revert x Hx i Hi. refine (rtc_ind_r _ _ _ _); [|intros y x Hy Hyx IH]; intros i Hi.
  - assert (i = 0) as -> by (by eapply NoDup_lookup). apply rtc_refl.
  - assert (y ∈ r) as [j Hj]%list_elem_of_lookup by (by apply Hr).
    eapply rtc_r; [by apply IH|]. by eapply He.
Qed.

(** What pruning keeps: [r] lists the old indices of the blocks that stay. *)
Definition pruned (f f' : FunctionData) (r : list nat) : Prop :=
  f' = with_blocks f (blocks f') /\ NoDup r /\ (forall x, x ∈ r <-> reaches (blocks f) 0 x) /\ r !! 0 = Some 0 /\
  ((f' = f /\ r ≡ₚ seq 0 (length (blocks f))) \/
   Forall2 (fun old b' => exists b, blocks f !! old = Some b /\ renamed_block r b b') r (blocks f')) /\
  graph_wf (blocks f') /\ length (blocks f') = length r.

Lemma prune_spec (fuel : nat) (f : FunctionData) : graph_wf (blocks f) -> 0 < length (blocks f) ->
  search_fuel (successors (blocks f)) (node_set (blocks f)) <= fuel ->
  exists f' r, prune_unreachable_nodes fuel f = Ret f' /\ pruned f f' r.
Proof.
  intros Hwf Hpos Hf. unfold prune_unreachable_nodes.
  destruct (reach_search_correct (blocks f) Hwf ltac:(exact Hpos) fuel Hf) as (r & E & Hnd & _ & Hr).
  pose proof (reachable_head _ _ _ E) as H0. rewrite E. simpl in *. case_decide as Hlen.
  - assert (r ≡ₚ seq 0 (length (blocks f))) as Hperm.
    { apply submseteq_length_Permutation; [|by rewrite length_seq, Hlen].
      apply NoDup_submseteq; [done|]. intros x Hx%Hr. apply elem_of_seq.
      pose proof (reaches_in_range (blocks f) 0 x Hwf Hpos Hx) as Hlt. simpl in Hlt. lia. }
    exists f, r. split; [done|]. split_and!; try done; [by destruct f|by left].
  - destruct (prune_blocks_spec (blocks f) r Hwf Hnd Hr Hpos) as (bs' & E' & Hb). rewrite E'. simpl.
    pose proof (Forall2_length _ _ _ Hb) as Hl.
    exists (with_blocks f bs'), r. simpl. split; [done|]. split_and!; try done; [by right|by eapply pruned_wf].
Qed.

Lemma pruned_reachable (f f' : FunctionData) r : graph_wf (blocks f) -> 0 < length (blocks f) -> pruned f f' r -> forall n, n < length (blocks f') -> reaches (blocks f') 0 n.
Proof.
  intros Hwf Hpos (_ & Hnd & Hr & H0 & Hb & _ & Hl) n Hn. destruct Hb as [[-> Hperm]|Hb].
  - apply Hr. rewrite Hperm. apply elem_of_seq. lia.
  - destruct (lookup_lt_is_Some_2 r n) as [x Hx]; [lia|]. eapply (pruned_reaches (blocks f) r); [done..| |exact Hx].
    intros i j y z. by apply (pruned_edge (blocks f) r).
Qed.

(** [prune_unreachable_nodes] keeps exactly the blocks the start block reaches.  On a
    non-empty function whose blocks are terminated and whose targets are blocks, it returns; the
    list [r] of the old indices of the blocks it keeps starts with the start block and holds
    each reachable block once; the new blocks are the old ones with indices renumbered along [r]
    and phi operands of deleted blocks dropped (or the function is unchanged when nothing is
    unreachable); the new graph is the reachable part of the old one, it is well formed, and
    every block of it is reachable, which is what the dominator computation asks for. *)
Theorem prune_correct (fuel : nat) (f : FunctionData) :
  graph_wf (blocks f) -> 0 < length (blocks f) ->
  search_fuel (successors (blocks f)) (node_set (blocks f)) <= fuel ->
  exists f' r, prune_unreachable_nodes fuel f = Ret f' /\ pruned f f' r /\
    forall n, n < length (blocks f') -> reaches (blocks f') 0 n.
Proof.
  intros Hwf Hpos Hf. destruct (prune_spec fuel f Hwf Hpos Hf) as (f' & r & E & Hp). exists f', r. split_and!; [done..|].
  by eapply pruned_reachable.
Qed.

Definition prune_example : FunctionData :=
  let goto l := {| statements := []; terminator := Some (term_new_kind (Goto l)) |} in
  with_blocks FunctionData_default [goto [2]; goto [0]; {| statements := []; terminator := Some (term_new_kind (Return [])) |}].

Lemma prune_correct_witness : exists f' r, prune_unreachable_nodes 20 prune_example = Ret f' /\
  (forall x, x ∈ r <-> reaches (blocks prune_example) 0 x) /\ length (blocks f') = 2 /\ length r = 2.
Proof.
  destruct (prune_correct 20 prune_example) as (f' & r & E & (_ & _ & Hr & _ & _ & _ & Hl) & _).
  - by_decide.
  - by_decide.
  - by_decide.
  - exists f', r. split; [exact E|]. split; [exact Hr|]. vm_compute in E. injection E as <-. vm_compute in Hl. auto.
Defined.

(** ** The single exit *)

Lemma ret_name_inj i j : ret_name i = ret_name j -> i = j.
Proof. unfold ret_name. intros [= E]. by apply (inj pretty) in E. Qed.

(** The return variables are distinct locals, named [_$ret0], [_$ret1], ... *)
Definition ret_locals (l : Locals) (vs : list VariableRef) : Prop :=
  forall i v, vs !! i = Some v -> exists idx, v = new_local_idx idx /\ decls l !! idx = Some (ret_name i).

Lemma ret_locals_NoDup l vs : ret_locals l vs -> NoDup vs.
Proof.
  intros H. apply NoDup_alt. intros i j v Hi Hj. destruct (H i v Hi) as (x & -> & Hx).
  destruct (H j _ Hj) as (y & [= <-] & Hy). apply ret_name_inj. congruence.
Qed.

Lemma intern_retvars_spec f : Locals_wf (locals f) ->
  exists l vs, intern_retvars f = (with_locals f l, vs) /\ Locals_wf l /\ decls (locals f) `prefix_of` decls l /\
    length vs = arity f /\ ret_locals l vs.
Proof.
  intros Hl. unfold intern_retvars. generalize (arity f) as n.
  induction n as [|n (l & vs & E & Hl' & Hp & Hlen & Hv)]; [exists (locals f), []; by destruct f|].
  rewrite seq_S, foldl_app, E. simpl. unfold intern_local. simpl.
  pose proof (get_or_intern_step l (ret_name n) Hl') as Hs. destruct (get_or_intern l (ret_name n)) as [l1 i].
  destruct Hs as (Hd & Hx & Hi & Hp' & _). exists l1, (vs ++ [new_local_idx i]).
  split_and!; [done|split; auto|by etrans|rewrite length_app; simpl; lia|].
  intros j v. rewrite lookup_snoc_Some. intros [[Hj Hv']|[-> <-]].
  - destruct (Hv j v Hv') as (x & -> & Hx'). exists x. split; [done|]. by eapply prefix_lookup_Some.
  - exists i. split; [done|]. by rewrite Hlen.
Qed.

Definition ret_assigns (vs : list VariableRef) (args : list Exp) : list Statement :=
  map (fun '(v, e) => new_kind (Assign (ap_of_var v) [e])) (zip vs args).

(** What [complete] makes of block [i], with [n] the index of the exit block. *)
Definition completed (n : nat) (vs : list VariableRef) (i : nat) (b b' : BasicBlockData) : Prop :=
  exists t t', terminator b = Some t /\ terminator b' = Some t' /\
  match term_kind t with
  | Goto ts => statements b' = statements b /\
      term_kind t' = Goto (if decide (i = 0 /\ n ∉ ts) then ts ++ [n] else ts)
  | Return args => statements b' = statements b ++ ret_assigns vs args /\ term_kind t' = Goto [n]
  end.

Lemma completed_goto n vs i b b' : completed n vs i b b' ->
  exists ts, term_kind <$> terminator b' = Some (Goto ts) /\ (i = 0 -> n ∈ ts) /\
  (forall m, m ∈ ts -> m = n \/ exists t, terminator b = Some t /\ m ∈ term_successors t) /\
  (forall t m, terminator b = Some t -> m ∈ term_successors t -> m ∈ ts).
Proof.
  intros (t & t' & Et & Et' & Hk). unfold term_successors. destruct (term_kind t) as [args|ts] eqn:Ek.
  - destruct Hk as [_ Hk]. exists [n]. rewrite Et', Et. simpl. rewrite Hk.
    split_and!; [done|set_solver|set_solver|]. intros t0 m [= <-]. rewrite Ek. set_solver.
  - destruct Hk as [_ Hk]. rewrite Et', Et. simpl. rewrite Hk. eexists. split; [done|]. case_decide as Hd.
    + split_and!; [set_solver|..].
      * intros m [Hm| ->%list_elem_of_singleton]%elem_of_app; [right|by left]. exists t. by rewrite Ek.
      * intros t0 m [= <-]. rewrite Ek. set_solver.
    + split_and!.
      * intros ->. destruct (decide (n ∈ ts)); [done|]. by destruct Hd.
      * intros m Hm. right. exists t. by rewrite Ek.
      * intros t0 m [= <-]. by rewrite Ek.
Qed.

Lemma single_exit_spec n vs b b' : single_exit_block n vs b = Ret b' ->
  forall i, i <> 0 \/ (forall t ts, terminator b = Some t -> term_kind t = Goto ts -> n ∈ ts) -> completed n vs i b b'.
Proof.
  unfold single_exit_block. destruct (terminator b) as [t|] eqn:Et; [|done]. simpl. intros E i Hi.
  destruct (term_kind t) as [args|ts] eqn:Ek; injection E as <-; exists t; rewrite Et, Ek; eexists; split; try done; simpl.
  split; [reflexivity|]. split; [done|]. rewrite Ek, decide_False; [done|].
  intros [-> Hn]. destruct Hi as [|Hi]; [done|]. apply Hn. by eapply Hi.
Qed.

Lemma complete_blocks f : Locals_wf (locals f) -> graph_wf (blocks f) -> 0 < length (blocks f) ->
  exists l vs bs, complete f = Ret (with_blocks (with_locals f l)
      (bs ++ [{| statements := []; terminator := Some (term_new_kind (Return (map Exp_variable vs))) |}])) /\
    Locals_wf l /\ decls (locals f) `prefix_of` decls l /\ length vs = arity f /\ ret_locals l vs /\
    length bs = length (blocks f) /\
    forall i b b', blocks f !! i = Some b -> bs !! i = Some b' -> completed (length (blocks f)) vs i b b'.
Proof.
  intros Hl Hwf Hpos. destruct (intern_retvars_spec f Hl) as (l & vs & E & Hl' & Hp & Hlen & Hv).
  unfold complete. rewrite E. simpl. set (n := length (blocks f)).
  destruct (mapM_out_total (single_exit_block n vs) (blocks f)) as [bs Ebs].
  { intros b [i Hb]%list_elem_of_lookup. destruct (proj1 (graph_wf_blocks _) Hwf i b Hb) as (t & Et & _).
    unfold single_exit_block. rewrite Et. simpl. destruct (term_kind t); eauto. }
  rewrite Ebs. apply mapM_out_Ret in Ebs. pose proof (Forall2_length _ _ _ Ebs) as Hn. simpl.
  destruct (lookup_lt_is_Some_2 (blocks f) 0 Hpos) as [b0 Hb0].
  destruct (Forall2_lookup_l _ _ _ _ _ Ebs Hb0) as (b0' & Hb0' & E0).
  pose proof (single_exit_spec n vs b0 b0' E0 1 ltac:(by left)) as (t0 & t0' & Et0 & Et0' & Hk0).
  unfold iv_index. rewrite Hb0'. simpl. rewrite Et0'. simpl.
  assert (exists ts, term_kind t0' = Goto ts) as [ts Ets] by (destruct (term_kind t0); destruct Hk0 as [_ ->]; eauto).
  rewrite Ets. unfold iv_set. rewrite decide_True by lia. simpl.
  eexists l, vs, _. split; [reflexivity|]. split_and!; try done; [by rewrite length_insert|].
  intros i b b' Hb. rewrite list_lookup_insert_Some. intros [(<- & <- & _)|[Hi Hb']].
  - assert (b = b0) as -> by congruence. eexists t0, _. split; [done|]. split; [reflexivity|]. simpl.
    destruct (term_kind t0) as [args|ts0] eqn:Ek; destruct Hk0 as [Hst Hk].
    + rewrite Hk in Ets. injection Ets as <-. split; [done|]. by rewrite decide_True by set_solver.
    + rewrite decide_False in Hk by naive_solver. rewrite Hk in Ets. injection Ets as <-. split; [done|].
      destruct (decide (n ∈ ts0)); [rewrite decide_False by naive_solver|rewrite decide_True by naive_solver]; done.
  - pose proof (Forall2_lookup_lr _ _ _ _ _ _ Ebs Hb Hb') as E'. eapply single_exit_spec; [done|by left].
Qed.

(** Assigning the returned expressions to variables they do not read, and returning those, is
    returning the expressions. *)
Lemma ret_assigns_spec `{Interp V H} vs : forall args env h, NoDup vs -> length args = length vs ->
  (forall v, v ∈ evars args -> v ∉ map variable vs) ->
  exists env', exec_list (ret_assigns vs args) (env, h) = (env', h) /\
    (forall x, x ∉ vs -> env' x = env x) /\
    map (ev_exp env' h) (map Exp_variable vs) = map (ev_exp env h) args.
Proof.
  induction vs as [|v vs IH]; intros [|e args] env h Hnd Hlen Hfr; simplify_eq/=; [by exists env|].
  apply NoDup_cons in Hnd as [Hv Hnd].
  destruct (IH args (upd env v (ev_exp env h e)) h Hnd) as (env' & E & Hout & Hev); [lia| |].
  { intros w Hw Hin. apply (Hfr w); [|by right]. rewrite evars_cons. set_solver. }
  exists env'. unfold ret_assigns in *. cbn. rewrite join_single. rewrite E.
  assert (forall y, variable y <> variable v -> upd env v (ev_exp env h e) y = env y) as Hupd.
  { intros y Hy. unfold upd. by rewrite decide_False by (by intros ->). }
  split_and!; [done| |].
  - intros x Hx. rewrite Hout by set_solver. unfold upd. by rewrite decide_False by set_solver.
  - f_equal.
    + simpl. rewrite rd_nil, Hout by done. unfold upd. by rewrite decide_True.
    + rewrite Hev. eapply (ev_exps_agree (fun x => x = variable v)); [intros y Hy; by apply Hupd|].
      intros w Hw ->. apply (Hfr (variable v)); [|by left]. rewrite evars_cons. set_solver.
Qed.

Section completed.
Context (bs bs' : BasicBlocks) (vs : list VariableRef).
Hypothesis Hwf : graph_wf bs.
Hypothesis Hn : length bs' = length bs.
Hypothesis Hc : forall i b b', bs !! i = Some b -> bs' !! i = Some b' -> completed (length bs) vs i b b'.
Let exit : BasicBlockData := {| statements := []; terminator := Some (term_new_kind (Return (map Exp_variable vs))) |}.

Lemma completed_of i b : bs !! i = Some b -> exists b', bs' !! i = Some b' /\ completed (length bs) vs i b b'.
Proof.
  intros Hb. destruct (lookup_lt_is_Some_2 bs' i) as [b' Hb']; [rewrite Hn; by eapply lookup_lt_Some|]. eauto.
Qed.

Lemma completed_from i b' : bs' !! i = Some b' -> exists b, bs !! i = Some b /\ completed (length bs) vs i b b'.
Proof.
  intros Hb'. destruct (lookup_lt_is_Some_2 bs i) as [b Hb]; [rewrite <- Hn; by eapply lookup_lt_Some|]. eauto.
Qed.

Lemma completed_wf : graph_wf (bs' ++ [exit]).
Proof.
  apply graph_wf_blocks. intros i b'. rewrite lookup_snoc_Some, length_app, Hn. simpl. intros [[_ Hb']|[_ <-]].
  - destruct (completed_from i b' Hb') as (b & Hb & Hcomp). destruct (completed_goto _ _ _ _ _ Hcomp) as (ts & Ets & _ & Hts & _).
    apply fmap_Some in Ets as (t & Et & Ek). exists t. split; [done|]. unfold term_successors. rewrite <- Ek.
    intros m Hm. destruct (Hts m Hm) as [->|(t0 & Et0 & Hm0)]; [lia|].
    destruct (proj1 (graph_wf_blocks _) Hwf i b Hb) as (t1 & Et1 & Ht1). assert (t1 = t0) as -> by congruence.
    specialize (Ht1 m Hm0). lia.
  - eexists. split; [reflexivity|]. simpl. set_solver.
Qed.

Lemma completed_single_return i b : (bs' ++ [exit]) !! i = Some b ->
  (exists args, term_kind <$> terminator b = Some (Return args)) <-> i = length bs.
Proof.
  rewrite lookup_snoc_Some, Hn. intros [[Hi Hb']|[-> <-]]; [split; [|lia]|split; [done|by eexists]].
  intros [args Ha]. destruct (completed_from i b Hb') as (b0 & Hb & Hcomp).
  destruct (completed_goto _ _ _ _ _ Hcomp) as (ts & Ets & _). congruence.
Qed.

Lemma completed_edge i j : edge (successors bs) i j \/ (i = 0 /\ j = length bs /\ 0 < length bs) ->
  edge (successors (bs' ++ [exit])) i j.
Proof.
  intros He. assert (exists b, bs !! i = Some b) as [b Hb].
  { destruct He as [(b & ? & ? & _)%edge_block|(-> & _ & Hpos)]; [eauto|]. by apply lookup_lt_is_Some. }
  destruct (completed_of i b Hb) as (b' & Hb' & Hcomp). destruct (completed_goto _ _ _ _ _ Hcomp) as (ts & Ets & H0 & _ & Hts).
  apply fmap_Some in Ets as (t & Et & Ek). apply edge_block. exists b', t.
  split; [by apply lookup_app_l_Some|]. split; [done|]. unfold term_successors. rewrite <- Ek.
  destruct He as [(b0 & t0 & Hb0 & Et0 & Hj)%edge_block|(-> & -> & _)]; [|auto].
  assert (b0 = b) as -> by congruence. eauto.
Qed.

Lemma completed_returns `{Interp V H} i b t args st : bs !! i = Some b -> terminator b = Some t -> term_kind t = Return args ->
  NoDup vs -> length args = length vs -> (forall v, v ∈ evars args -> v ∉ map variable vs) ->
  exists b', (bs' ++ [exit]) !! i = Some b' /\
    (exec_list (statements b') st).2 = (exec_list (statements b) st).2 /\
    (exec_block exit (exec_list (statements b') st)).2 = (exec_block b st).2.
Proof.
  intros Hb Et Ek Hnd Hlen Hfr. destruct (completed_of i b Hb) as (b' & Hb' & t0 & t' & Et0 & Et' & Hk).
  assert (t0 = t) as -> by congruence. rewrite Ek in Hk. destruct Hk as [Hst _].
  exists b'. split; [by apply lookup_app_l_Some|]. rewrite Hst, exec_list_app. unfold exec_block, exit. simpl. rewrite Et.
  destruct (exec_list (statements b) st) as [env h].
  destruct (ret_assigns_spec vs args env h Hnd Hlen Hfr) as (env' & E & _ & Hev). rewrite E.
  split; [done|]. unfold returned. simpl. rewrite Ek. by f_equal.
Qed.
End completed.

(** Every block stays reachable, and so is the exit. *)
Lemma complete_reachable (f f' : FunctionData) : Locals_wf (locals f) -> graph_wf (blocks f) -> 0 < length (blocks f) -> complete f = Ret f' ->
  (forall n, n < length (blocks f) -> reaches (blocks f) 0 n) -> forall n, n < length (blocks f') -> reaches (blocks f') 0 n.
Proof.
  intros Hl Hwf Hpos E Hr n. destruct (complete_blocks f Hl Hwf Hpos) as (l & vs & bs & E' & _ & _ & _ & _ & Hn & Hc).
  rewrite E in E'. injection E' as ->. simpl. rewrite length_app, Hn. simpl. intros Hlt.
  destruct (decide (n = length (blocks f))) as [->|Hne].
  - apply rtc_once. apply (completed_edge (blocks f)); auto.
  - eapply (rtc_congruence id); [|apply Hr; lia]. intros i j He. apply (completed_edge (blocks f)); auto.
Qed.

(** [complete] gives the function a single exit without changing what it returns.  On a
    non-empty, well-formed function it returns; exactly one block of the result returns, the
    exit block it adds at the end, and the start block jumps to it; the new locals are distinct
    and named [_$ret0], ...; the graph stays well formed, every edge stays and every block
    reachable before is reachable after, as is the exit.  Under every interpretation, a block that
    returned [args] now leaves the same heap and, followed by the exit block, returns the same
    values, as long as [args] has the function's arity and does not read the return variables. *)
Theorem complete_correct (f : FunctionData) :
  Locals_wf (locals f) -> graph_wf (blocks f) -> 0 < length (blocks f) ->
  exists f' vs exit, complete f = Ret f' /\ name f' = name f /\ params f' = params f /\ arity f' = arity f /\
    Locals_wf (locals f') /\ decls (locals f) `prefix_of` decls (locals f') /\
    length vs = arity f /\ ret_locals (locals f') vs /\
    length (blocks f') = S (length (blocks f)) /\ graph_wf (blocks f') /\
    (forall i b, blocks f' !! i = Some b ->
       (exists args, term_kind <$> terminator b = Some (Return args)) <-> i = length (blocks f)) /\
    edge (successors (blocks f')) 0 (length (blocks f)) /\
    (forall i j, edge (successors (blocks f)) i j -> edge (successors (blocks f')) i j) /\
    blocks f' !! length (blocks f) = Some exit /\
    (forall `{Interp V H} i b t args st, blocks f !! i = Some b -> terminator b = Some t -> term_kind t = Return args ->
       length args = arity f -> (forall v, v ∈ evars args -> v ∉ map variable vs) ->
       exists b', blocks f' !! i = Some b' /\
         (exec_list (statements b') st).2 = (exec_list (statements b) st).2 /\
         (exec_block exit (exec_list (statements b') st)).2 = (exec_block b st).2).
Proof.
  intros Hl Hwf Hpos.
  destruct (complete_blocks f Hl Hwf Hpos) as (l & vs & bs & E & Hl' & Hp & Hlen & Hv & Hn & Hc).
  eexists _, vs, _. split; [exact E|]. simpl.
  split_and!; try done; [rewrite length_app, Hn; simpl; lia| | | | |by rewrite lookup_app_r, Hn, Nat.sub_diag by lia|].
  - by apply (completed_wf (blocks f)).
  - by apply completed_single_return.
  - apply (completed_edge (blocks f)); auto.
  - intros i j He. apply (completed_edge (blocks f)); auto.
  - intros V H HI i b t args st Hb Et Ek Ha Hfr. eapply completed_returns; eauto using ret_locals_NoDup. by rewrite Hlen.
Qed.

(** [0: goto 1; 1: return l0], of arity one. *)
Definition complete_example : FunctionData :=
  {| name := "f"; params := []; arity := 1;
     blocks := [{| statements := []; terminator := Some (term_new_kind (Goto [1])) |};
                {| statements := []; terminator := Some (term_new_kind (Return [Exp_variable (new_local_idx 0)])) |}];
     locals := {| decls := ["x"]; by_name := ∅ |} |}.

Lemma complete_correct_witness : exists f' (vs : list VariableRef) exit, complete complete_example = Ret f' /\ length vs = 1 /\
  graph_wf (blocks f') /\ length (blocks f') = 3 /\ blocks f' !! 2 = Some exit.
Proof.
  destruct (complete_correct complete_example) as
    (f' & vs & exit & E & _ & _ & _ & _ & _ & Hvs & _ & Hn & Hwf & _ & _ & _ & Hx & _).
  - split; [by_decide|by left].
  - by_decide.
  - by_decide.
  - exists f', vs, exit. auto.
Defined.
