(* ===== verification/PhiPlace.v ===== *)
(** * PhiPlace: pruned phi placement ([PhiPlace] of [ctadl-ir/src/ssa/mod.rs])

    The scan collects, per variable, the blocks that assign it and the blocks that read it before
    assigning it; then, per variable, one work-list walks backward from the upward-exposed uses
    (liveness) and another the iterated dominance frontier of the assignments, inserting phis at
    the front of the blocks.  The vectors [work], [has_already], [defines] and [live_in] hold the
    number of the last variable that stamped an entry, as in the source, so that they are never
    cleared.

    [BTreeSet<Variable>] iterates in the derived order, globals, locals, parameters, by index.
    The work-lists carry fuel: each pushes a block at most once per variable, besides the blocks
    it starts from. *)

From S2P Require Import Prelude Index Text Path IR Graph Dominators Coalesce Cfg.

Inductive PhiMode : Type := Minimal | Pruned.
#[export] Instance PhiMode_eq_dec : EqDecision PhiMode.
Proof. solve_decision. Defined.

(** The derived order of [Variable]. *)
Definition var_rank (v : Var) : nat * nat :=
  match v with Variable_Global i => (0, i) | Variable_Local i => (1, i) | Variable_Param i => (2, i) end.
Definition var_le (v w : Var) : Prop :=
  (var_rank v).1 < (var_rank w).1 \/ ((var_rank v).1 = (var_rank w).1 /\ (var_rank v).2 <= (var_rank w).2).
#[export] Instance var_le_dec : RelDecision var_le.
Proof. intros v w. unfold var_le. apply _. Defined.

Definition var_set_iter (s : gset Var) : list Var := merge_sort var_le (elements s).

(** ** The scan *)

Record Scan : Type := { s_assigns : gmap Var (list nat); s_upward : gmap Var (list nat); s_variables : gset Var }.

Definition Scan_default : Scan := {| s_assigns := ∅; s_upward := ∅; s_variables := ∅ |}.

(** [map.entry(v).or_default().push(bb)]. *)
Definition push_block (m : gmap Var (list nat)) (v : Var) (bb : nat) : gmap Var (list nat) :=
  <[v := default [] (m !! v) ++ [bb]]> m.

(** The scan of one block: the tables, [killed] and [used]. *)
Definition scan_state : Type := (Scan * gset Var * gset Var)%type.

(** [variables.insert(v); note_use(v)]. *)
Definition scan_use (bb : nat) (st : scan_state) (v : VariableRef) : scan_state :=
  let '(sc, killed, used) := st in
  let x := variable v in
  let vars := {[ x ]} ∪ s_variables sc in
  if decide (x ∉ killed /\ x ∉ used) then
    ({| s_assigns := s_assigns sc; s_upward := push_block (s_upward sc) x bb; s_variables := vars |}, killed, {[ x ]} ∪ used)
  else ({| s_assigns := s_assigns sc; s_upward := s_upward sc; s_variables := vars |}, killed, used).

Definition scan_def (bb : nat) (st : scan_state) (v : VariableRef) : scan_state :=
  let '(sc, killed, used) := st in
  let x := variable v in
  ({| s_assigns := push_block (s_assigns sc) x bb; s_upward := s_upward sc; s_variables := {[ x ]} ∪ s_variables sc |},
   {[ x ]} ∪ killed, used).

(** The uses that SSA renames: neither versioned nor global. *)
Definition renamable (v : VariableRef) : Prop := version v = None /\ is_global (variable v) = false.
#[export] Instance renamable_dec v : Decision (renamable v).
Proof. unfold renamable. apply _. Defined.
Definition not_global (v : VariableRef) : Prop := is_global (variable v) = false.
#[export] Instance not_global_dec v : Decision (not_global v).
Proof. unfold not_global. apply _. Defined.

Definition ssa_scan_stmt (bb : nat) (st : scan_state) (s : Statement) : scan_state :=
  let st := foldl (scan_use bb) st (filter renamable (iter_src_var (kind s))) in
  foldl (scan_def bb) st (iter_dst_var (kind s)).

Definition ssa_scan_block (sc : Scan) (e : nat * BasicBlockData) : outcome Scan :=
  let '(bb, data) := e in
  let st := foldl (ssa_scan_stmt bb) (sc, ∅, ∅) (statements data) in
  t ← unwrap (terminator data);
  let '(sc, _, _) := foldl (scan_use bb) st (filter not_global (term_iter_src_var t)) in
  Ret sc.

Definition ssa_scan (bs : BasicBlocks) : outcome Scan := foldM ssa_scan_block Scan_default (enumerate bs).

(** ** Placement *)

(** [while let Some(x) = live_w.pop() { for p in predecessors(x) { ... } }]; the top of the
    stack is at the head. *)
Definition live_push (iter : nat) (defines : list nat) (st : list nat * list nat) (p : nat) : outcome (list nat * list nat) :=
  let '(live_in, live_w) := st in
  l ← iv_index live_in p; d ← iv_index defines p;
  if decide (l < iter /\ d < iter) then live_in ← iv_set live_in p iter; Ret (live_in, p :: live_w)
  else Ret (live_in, live_w).

Fixpoint live_loop (fuel iter : nat) (bs : BasicBlocks) (defines : list nat) (live_in live_w : list nat)
  : outcome (list nat) :=
  match fuel with
  | 0 => OutOfFuel
  | S fuel =>
      match live_w with
      | [] => Ret live_in
      | x :: live_w =>
          preds ← predecessors bs x;
          '(live_in, live_w) ← foldM (live_push iter defines) (live_in, live_w) preds;
          live_loop fuel iter bs defines live_in live_w
      end
  end.

(** [for x in xs { v[x] = iter }]. *)
Definition stamp (iter : nat) (l : list nat) (xs : list nat) : outcome (list nat) :=
  foldM (fun l x => iv_set l x iter) l xs.

(** A phi for [v] with one placeholder operand per predecessor of [y], at the front of [y]. *)
Definition insert_phi (v : Var) (bs : BasicBlocks) (y : nat) : outcome BasicBlocks :=
  preds ← predecessors bs y;
  b ← iv_index bs y;
  iv_set bs y (with_statements b
    (new_kind (Phi (VariableRef_new v) (map (fun pred => (pred, VariableRef_new v)) preds)) :: statements b)).

Record PlaceState : Type := mk_place { pl_blocks : BasicBlocks; pl_already : list nat; pl_work : list nat; pl_w : list nat }.

(** One node [y] of the frontier of [x]. *)
Definition place_frontier (mode : PhiMode) (iter : nat) (live_in : list nat) (v : Var) (st : PlaceState) (y : nat)
  : outcome PlaceState :=
  h ← iv_index (pl_already st) y;
  if decide (h < iter) then
    l ← iv_index live_in y;
    bs ← (if decide (mode = Minimal \/ l = iter) then insert_phi v (pl_blocks st) y else Ret (pl_blocks st));
    already ← iv_set (pl_already st) y iter;
    k ← iv_index (pl_work st) y;
    if decide (k < iter) then
      work ← iv_set (pl_work st) y iter; Ret (mk_place bs already work (y :: pl_w st))
    else Ret (mk_place bs already (pl_work st) (pl_w st))
  else Ret st.

Fixpoint place_loop (fuel : nat) (mode : PhiMode) (iter : nat) (df : DominanceFrontier) (live_in : list nat) (v : Var)
    (st : PlaceState) : outcome PlaceState :=
  match fuel with
  | 0 => OutOfFuel
  | S fuel =>
      match pl_w st with
      | [] => Ret st
      | x :: w =>
          ys ← frontier_iter df x;
          st ← foldM (place_frontier mode iter live_in v) (mk_place (pl_blocks st) (pl_already st) (pl_work st) w) ys;
          place_loop fuel mode iter df live_in v st
      end
  end.

(** The stamped vectors and [iter_count], across variables. *)
Record PlaceVars : Type := mk_vars {
  pv_blocks : BasicBlocks; pv_work : list nat; pv_already : list nat;
  pv_defines : list nat; pv_live : list nat; pv_iter : nat }.

Definition place_var (fuel : nat) (mode : PhiMode) (df : DominanceFrontier) (sc : Scan) (st : PlaceVars) (v : Var)
  : outcome PlaceVars :=
  let iter := pv_iter st + 1 in
  let defs := default [] (s_assigns sc !! v) in
  '(defines, live_in) ←
    match mode with
    | Pruned =>
        let uses := default [] (s_upward sc !! v) in
        defines ← stamp iter (pv_defines st) defs;
        live_in ← stamp iter (pv_live st) uses;
        live_in ← live_loop fuel iter (pv_blocks st) defines live_in (rev uses);
        Ret (defines, live_in)
    | Minimal => Ret (pv_defines st, pv_live st)
    end;
  work ← stamp iter (pv_work st) defs;
  pl ← place_loop fuel mode iter df live_in v (mk_place (pv_blocks st) (pv_already st) work (rev defs));
  Ret (mk_vars (pl_blocks pl) (pl_work pl) (pl_already pl) defines live_in iter).

(** The loop over the variables, for a given frontier. *)
Definition place_phis (fuel : nat) (mode : PhiMode) (df : DominanceFrontier) (sc : Scan) (bs : BasicBlocks) : outcome BasicBlocks :=
  let zeros := replicate (num_nodes bs) 0 in
  st ← foldM (place_var fuel mode df sc) (mk_vars bs zeros zeros zeros zeros 0) (var_set_iter (s_variables sc));
  Ret (pv_blocks st).

(** [PhiPlace::new]: the new blocks, the variables and the dominator tree. *)
Definition PhiPlace_new (hash_iter : gset nat -> list nat) (fuel : nat) (mode : PhiMode) (bs : BasicBlocks)
  : outcome (BasicBlocks * gset Var * DominatorTree) :=
  dominators ← DominatorTree_new hash_iter fuel bs;
  sc ← ssa_scan bs;
  df ← DominanceFrontier_new bs dominators;
  bs ← place_phis fuel mode df sc bs;
  Ret (bs, s_variables sc, dominators).

(** ** What the scan finds *)

Definition var_in (l : list VariableRef) (v : Var) : Prop := exists u, u ∈ l /\ variable u = v.

Lemma var_in_cons u l v : var_in (u :: l) v <-> v = variable u \/ var_in l v.
Proof.
  unfold var_in. split.
  - intros (w & [->|Hw]%elem_of_cons & Hv); [by left|right; eauto].
  - intros [->|(w & ? & ?)]; [exists u|exists w]; rewrite elem_of_cons; auto.
Qed.

Lemma var_in_filter (P : VariableRef -> Prop) `{!forall x, Decision (P x)} l v :
  var_in (filter P l) v <-> exists u, u ∈ l /\ P u /\ variable u = v.
Proof. unfold var_in. split; intros (u & Hu); exists u; rewrite list_elem_of_filter in *; tauto. Qed.

(** The variables a list of statements defines, and those it reads before defining them. *)
Definition defs_in (l : list Statement) (v : Var) : Prop := exists s u, s ∈ l /\ u ∈ iter_dst_var (kind s) /\ variable u = v.
Definition uses_in (l : list Statement) (v : Var) : Prop :=
  exists s u, s ∈ l /\ u ∈ iter_src_var (kind s) /\ renamable u /\ variable u = v.
Definition exposed (l : list Statement) (v : Var) : Prop :=
  exists pre s post u, l = pre ++ s :: post /\ u ∈ iter_src_var (kind s) /\ renamable u /\ variable u = v /\ ~ defs_in pre v.
Definition term_use (t : option Terminator) (v : Var) : Prop :=
  exists t' u, t = Some t' /\ u ∈ term_iter_src_var t' /\ not_global u /\ variable u = v.

(** Block [x] assigns [v]; block [x] reads [v] before assigning it. *)
Definition assigns (bs : BasicBlocks) (v : Var) (x : nat) : Prop := exists b, bs !! x = Some b /\ defs_in (statements b) v.
Definition upward (bs : BasicBlocks) (v : Var) (x : nat) : Prop :=
  exists b, bs !! x = Some b /\
    (exposed (statements b) v \/ (term_use (terminator b) v /\ ~ defs_in (statements b) v)).
Definition occurs (bs : BasicBlocks) (v : Var) : Prop :=
  exists x b, bs !! x = Some b /\ (defs_in (statements b) v \/ uses_in (statements b) v \/ term_use (terminator b) v).

Definition blocks_of (m : gmap Var (list nat)) (v : Var) : list nat := default [] (m !! v).

Lemma push_block_spec m v bb w x : x ∈ blocks_of (push_block m v bb) w <-> x ∈ blocks_of m w \/ (w = v /\ x = bb).
Proof.
  unfold blocks_of, push_block. destruct (decide (w = v)) as [->|].
  - rewrite lookup_insert_eq. simpl. set_solver.
  - rewrite lookup_insert_ne by done. naive_solver.
Qed.

Lemma defs_in_app l l' v : defs_in (l ++ l') v <-> defs_in l v \/ defs_in l' v.
Proof. unfold defs_in. set_solver. Qed.

Lemma defs_in_snoc l s v : defs_in (l ++ [s]) v <-> defs_in l v \/ var_in (iter_dst_var (kind s)) v.
Proof.
  unfold defs_in, var_in. setoid_rewrite elem_of_app. setoid_rewrite list_elem_of_singleton. naive_solver.
Qed.

Lemma uses_in_snoc l s v : uses_in (l ++ [s]) v <-> uses_in l v \/ var_in (filter renamable (iter_src_var (kind s))) v.
Proof.
  rewrite var_in_filter. unfold uses_in. split.
  - intros (s0 & u & [Hs| ->%list_elem_of_singleton]%elem_of_app & Hu); [left; eauto|right; eauto].
  - intros [(s0 & u & Hs & Hu)|(u & Hu)]; [exists s0, u|exists s, u]; (split; [|done]); apply elem_of_app; [by left|].
    right. by apply list_elem_of_singleton.
Qed.

Lemma exposed_snoc l s v : exposed (l ++ [s]) v <->
  exposed l v \/ ((exists u, u ∈ iter_src_var (kind s) /\ renamable u /\ variable u = v) /\ ~ defs_in l v).
Proof.
  split.
  - intros (pre & s' & post & u & E & Hu & Hr & Hv & Hd). destruct post as [|p post _] using rev_ind.
    + apply app_inj_tail in E as [-> ->]. right. eauto.
    + rewrite app_comm_cons, app_assoc in E. apply app_inj_tail in E as [-> ->]. left. exists pre, s', post, u. done.
  - intros [(pre & s' & post & u & -> & H)|[(u & Hu & Hr & Hv) Hd]].
    + exists pre, s', (post ++ [s]), u. by rewrite <- app_assoc.
    + exists l, s, [], u. done.
Qed.

(** The state after a prefix [l] of block [bb]; the tables before the block are [sc0]. *)
Record scan_inv (sc0 : Scan) (bb : nat) (K U W : Var -> Prop) (st : scan_state) : Prop := {
  si_killed : forall v, v ∈ st.1.2 <-> K v;
  si_used : forall v, v ∈ st.2 <-> U v;
  si_assigns : forall v x, x ∈ blocks_of (s_assigns st.1.1) v <-> x ∈ blocks_of (s_assigns sc0) v \/ (x = bb /\ K v);
  si_upward : forall v x, x ∈ blocks_of (s_upward st.1.1) v <-> x ∈ blocks_of (s_upward sc0) v \/ (x = bb /\ U v);
  si_vars : forall v, v ∈ s_variables st.1.1 <-> v ∈ s_variables sc0 \/ W v;
}.

Lemma scan_uses_inv sc0 bb l : forall K U W st, scan_inv sc0 bb K U W st ->
  scan_inv sc0 bb K (fun v => U v \/ (var_in l v /\ ~ K v))
    (fun v => W v \/ var_in l v) (foldl (scan_use bb) st l).
Proof.
  induction l as [|u l IH]; intros K U W st Hinv; simpl.
  { destruct Hinv as [H1 H2 H3 H4 H5]. assert (forall v, ~ var_in [] v) as Hnil by (intros v (u & Hu & _); set_solver).
    split; intros; rewrite ?H1, ?H2, ?H3, ?H4, ?H5; pose proof (Hnil v); tauto. }
  destruct st as [[sc killed] used]. destruct Hinv as [H1 H2 H3 H4 H5]. simpl in *.
  assert (scan_inv sc0 bb K (fun v => U v \/ (v = variable u /\ ~ K v)) (fun v => W v \/ v = variable u)
    (scan_use bb (sc, killed, used) u)) as Hinv'.
  { unfold scan_use. set (x := variable u). case_decide as Hd.
    - assert (~ K x /\ ~ U x) as [HK HU] by (by rewrite <- H1, <- H2).
      split; simpl; intros; rewrite ?push_block_spec, ?elem_of_union, ?elem_of_singleton, ?H1, ?H2, ?H3, ?H4, ?H5;
        destruct (decide (v = x)) as [->|]; intuition auto.
    - assert (K x \/ U x) as HKU.
      { rewrite <- H1, <- H2. destruct (decide (x ∈ killed)), (decide (x ∈ used)); auto. by destruct Hd. }
      split; simpl; intros; rewrite ?elem_of_union, ?elem_of_singleton, ?H1, ?H2, ?H3, ?H4, ?H5;
        destruct (decide (v = x)) as [->|]; intuition auto. }
  specialize (IH _ _ _ _ Hinv'). destruct IH as [I1 I2 I3 I4 I5].
  split; intros; rewrite ?I1, ?I2, ?I3, ?I4, ?I5, ?var_in_cons; tauto.
Qed.

Lemma scan_defs_inv sc0 bb l : forall K U W st, scan_inv sc0 bb K U W st ->
  scan_inv sc0 bb (fun v => K v \/ var_in l v) U
    (fun v => W v \/ var_in l v) (foldl (scan_def bb) st l).
Proof.
  induction l as [|u l IH]; intros K U W st Hinv; simpl.
  { destruct Hinv as [H1 H2 H3 H4 H5]. assert (forall v, ~ var_in [] v) as Hnil by (intros v (u & Hu & _); set_solver).
    split; intros; rewrite ?H1, ?H2, ?H3, ?H4, ?H5; pose proof (Hnil v); tauto. }
  destruct st as [[sc killed] used]. destruct Hinv as [H1 H2 H3 H4 H5]. simpl in *.
  assert (scan_inv sc0 bb (fun v => K v \/ v = variable u) U (fun v => W v \/ v = variable u)
    (scan_def bb (sc, killed, used) u)) as Hinv'.
  { split; simpl; intros; rewrite ?push_block_spec, ?elem_of_union, ?elem_of_singleton, ?H1, ?H2, ?H3, ?H4, ?H5; naive_solver. }
  specialize (IH _ _ _ _ Hinv'). destruct IH as [I1 I2 I3 I4 I5].
  split; intros; rewrite ?I1, ?I2, ?I3, ?I4, ?I5, ?var_in_cons; tauto.
Qed.

Lemma scan_inv_iff sc0 bb (K K' U U' W W' : Var -> Prop) st :
  (forall v, K v <-> K' v) -> (forall v, U v <-> U' v) -> (forall v, W v <-> W' v) ->
  scan_inv sc0 bb K U W st -> scan_inv sc0 bb K' U' W' st.
Proof.
  intros HK HU HW [H1 H2 H3 H4 H5]. split; intros; rewrite <- ?HK, <- ?HU, <- ?HW; auto.
Qed.

Lemma scan_stmts_inv sc0 bb l : scan_inv sc0 bb (defs_in l) (exposed l) (fun v => defs_in l v \/ uses_in l v)
  (foldl (ssa_scan_stmt bb) (sc0, ∅, ∅) l).
Proof.
  induction l as [|s l IH] using rev_ind.
  - assert (forall v, ~ exposed [] v) by (intros v ([] & ? & ? & ? & ? & _); done).
    assert (forall v, ~ defs_in [] v /\ ~ uses_in [] v) by (intros v; split; intros (? & ? & ?%elem_of_nil & _); done).
    split; simpl; intros; rewrite ?elem_of_empty; naive_solver.
  - rewrite foldl_app. simpl. unfold ssa_scan_stmt at 1.
    eapply scan_inv_iff; [..|apply scan_defs_inv, scan_uses_inv, IH]; intros v; simpl.
    + rewrite defs_in_snoc. tauto.
    + rewrite exposed_snoc, var_in_filter. tauto.
    + rewrite defs_in_snoc, uses_in_snoc. tauto.
Qed.

Lemma scan_block_spec sc bb b t : terminator b = Some t ->
  exists sc', ssa_scan_block sc (bb, b) = Ret sc' /\ (forall v x, x ∈ blocks_of (s_assigns sc') v <-> x ∈ blocks_of (s_assigns sc) v \/ (x = bb /\ defs_in (statements b) v)) /\
    (forall v x, x ∈ blocks_of (s_upward sc') v <-> x ∈ blocks_of (s_upward sc) v \/
       (x = bb /\ (exposed (statements b) v \/ (term_use (terminator b) v /\ ~ defs_in (statements b) v)))) /\
    (forall v, v ∈ s_variables sc' <-> v ∈ s_variables sc \/
       defs_in (statements b) v \/ uses_in (statements b) v \/ term_use (terminator b) v).
Proof.
  intros Et. unfold ssa_scan_block. rewrite Et. simpl.
  pose proof (scan_uses_inv _ _ (filter not_global (term_iter_src_var t)) _ _ _ _ (scan_stmts_inv sc bb (statements b))) as Hinv.
  destruct (foldl (scan_use bb) _ _) as [[sc' killed] used]. destruct Hinv as [_ _ H3 H4 H5]. simpl in *.
  assert (forall v, var_in (filter not_global (term_iter_src_var t)) v <-> term_use (Some t) v) as Ht.
  { intros v. rewrite var_in_filter. unfold term_use. naive_solver. }
  exists sc'. split; [done|]. split_and!; [done|..]; intros; rewrite ?H4, ?H5, Ht; tauto.
Qed.

Lemma ex_snoc {A B} (l : list (A * B)) a0 b0 (P : B -> Prop) a :
  (exists b, (a, b) ∈ l ++ [(a0, b0)] /\ P b) <-> (exists b, (a, b) ∈ l /\ P b) \/ (a = a0 /\ P b0).
Proof.
  setoid_rewrite elem_of_app. setoid_rewrite list_elem_of_singleton. split.
  - intros (b & [Hb|[= -> ->]] & HP); [left; eauto|by right].
  - intros [(b & ? & ?)|[-> ?]]; [exists b|exists b0]; auto.
Qed.

(** The scan never panics on terminated blocks, and its tables are the declarative ones. *)
Lemma ssa_scan_spec bs : graph_wf bs -> exists sc, ssa_scan bs = Ret sc /\
  (forall v x, x ∈ blocks_of (s_assigns sc) v <-> assigns bs v x) /\
  (forall v x, x ∈ blocks_of (s_upward sc) v <-> upward bs v x) /\
  (forall v, v ∈ s_variables sc <-> occurs bs v).
Proof.
  intros Hwf.
  destruct (foldM_split ssa_scan_block (fun done sc =>
    (forall v x, x ∈ blocks_of (s_assigns sc) v <-> exists b, (x, b) ∈ done /\ defs_in (statements b) v) /\
    (forall v x, x ∈ blocks_of (s_upward sc) v <-> exists b, (x, b) ∈ done /\
      (exposed (statements b) v \/ (term_use (terminator b) v /\ ~ defs_in (statements b) v))) /\
    (forall v, v ∈ s_variables sc <-> exists x b, (x, b) ∈ done /\
      (defs_in (statements b) v \/ uses_in (statements b) v \/ term_use (terminator b) v)))
    (enumerate bs) Scan_default) as (sc & E & H1 & H2 & H3).
  - unfold Scan_default, blocks_of. simpl. setoid_rewrite lookup_empty. simpl. set_solver.
  - intros pre [bb b] post sc Epre (H1 & H2 & H3).
    assert (bs !! bb = Some b) as Hb by (apply elem_of_enumerate; rewrite Epre; set_solver).
    destruct (proj1 (graph_wf_blocks bs) Hwf bb b Hb) as (t & Et & _).
    destruct (scan_block_spec sc bb b t Et) as (sc' & -> & G1 & G2 & G3). exists sc'. split; [done|].
    split_and!; [intros v x; by rewrite G1, H1, ex_snoc|intros v x; by rewrite G2, H2, ex_snoc|].
    intros v. rewrite G3, H3. setoid_rewrite ex_snoc. split; [|naive_solver].
    intros [(x & b' & Hb' & Hv)|Hv]; [exists x; eauto|exists bb; by right].
  - exists sc. split; [done|]. unfold assigns, upward, occurs. setoid_rewrite elem_of_enumerate in H1.
    setoid_rewrite elem_of_enumerate in H2. setoid_rewrite elem_of_enumerate in H3. done.
Qed.

(** ** Stamps *)

Definition stamped (iter : nat) (l : list nat) (x : nat) : Prop := l !! x = Some iter.
#[export] Instance stamped_dec iter l x : Decision (stamped iter l x).
Proof. unfold stamped. apply _. Defined.

(** [l] has [n] entries, none above [iter]. *)
Definition stamps (n iter : nat) (l : list nat) : Prop := length l = n /\ Forall (fun k => k <= iter) l.

Definition unstamped (iter : nat) (l : list nat) : nat := length (filter (fun k => k <> iter) l).

Lemma stamps_lookup n iter l x : stamps n iter l -> x < n ->
  exists k, l !! x = Some k /\ k <= iter /\ (k < iter <-> ~ stamped iter l x).
Proof.
  intros [Hl Hf] Hx. destruct (lookup_lt_is_Some_2 l x) as [k Hk]; [lia|].
  pose proof (Forall_lookup_1 _ _ _ _ Hf Hk) as Hle. simpl in Hle. exists k. split_and!; [done..|].
  unfold stamped. rewrite Hk. split; [intros ? [= ->]; lia|]. intros Hne. assert (k <> iter) by congruence. lia.
Qed.

Lemma stamp_set n iter l x : stamps n iter l -> x < n ->
  iv_set l x iter = Ret (<[x := iter]> l) /\ stamps n iter (<[x := iter]> l) /\
  (forall y, stamped iter (<[x := iter]> l) y <-> y = x \/ stamped iter l y) /\
  (~ stamped iter l x -> S (unstamped iter (<[x := iter]> l)) = unstamped iter l).
Proof.
  intros [Hl Hf] Hx. unfold iv_set. rewrite decide_True by lia. split; [done|]. split_and!.
  - split; [by rewrite length_insert|by apply Forall_insert].
  - intros y. unfold stamped. destruct (decide (y = x)) as [->|].
    + rewrite list_lookup_insert_eq by lia. naive_solver.
    + rewrite list_lookup_insert_ne by done. naive_solver.
  - intros Hne. destruct (lookup_lt_is_Some_2 l x) as [k Hk]; [lia|]. unfold stamped in Hne. rewrite Hk in Hne.
    assert (k <> iter) as Hki by congruence. pose proof (take_drop_middle l x k Hk) as El. unfold unstamped.
    rewrite insert_take_drop by lia. rewrite <- El at 3. rewrite !filter_app, !length_app.
    rewrite filter_cons_False, filter_cons_True by auto. simpl. lia.
Qed.

Lemma stamps_next n iter l : stamps n iter l -> stamps n (iter + 1) l /\ forall x, ~ stamped (iter + 1) l x.
Proof.
  intros [Hl Hf]. split; [split; [done|]; eapply Forall_impl; [exact Hf|simpl; lia]|].
  intros x Hx. pose proof (Forall_lookup_1 _ _ _ _ Hf Hx). simpl in *. lia.
Qed.

Lemma stamp_spec n iter xs : forall l, stamps n iter l -> (forall x, x ∈ xs -> x < n) ->
  exists l', stamp iter l xs = Ret l' /\ stamps n iter l' /\ forall y, stamped iter l' y <-> y ∈ xs \/ stamped iter l y.
Proof.
  unfold stamp. induction xs as [|x xs IH]; intros l Hl Hxs; cbn [foldM]; [exists l; set_solver|].
  destruct (stamp_set n iter l x Hl) as (-> & Hl' & Hs & _); [apply Hxs; by left|].
  destruct (IH _ Hl') as (l' & -> & Hl'' & Hs'); [intros; apply Hxs; by right|].
  exists l'. split_and!; [done..|]. intros y. rewrite Hs', Hs, elem_of_cons. tauto.
Qed.

(** ** Liveness *)

(** [v] is live on entry to [x]: [x] reads it before assigning it, or does not assign it and
    passes control to a block where it is live. *)
Inductive live_at (bs : BasicBlocks) (D U : nat -> Prop) : nat -> Prop :=
| live_use x : U x -> live_at bs D U x
| live_back p x : edge (successors bs) p x -> live_at bs D U x -> ~ D p -> live_at bs D U p.

Section live.
Context (bs : BasicBlocks) (iter : nat) (defines : list nat).
Hypothesis Hwf : graph_wf bs.
Hypothesis Hdef : stamps (length bs) iter defines.
Let n := length bs.

Lemma live_push_spec ps : forall live_in w, stamps n iter live_in -> (forall p, p ∈ ps -> p < n) ->
  exists live_in' w', foldM (live_push iter defines) (live_in, w) ps = Ret (live_in', w') /\ stamps n iter live_in' /\
    (forall x, stamped iter live_in' x <-> stamped iter live_in x \/ (x ∈ ps /\ ~ stamped iter defines x)) /\
    (forall x, x ∈ w' <-> x ∈ w \/ (stamped iter live_in' x /\ ~ stamped iter live_in x)) /\
    length w' + unstamped iter live_in' = length w + unstamped iter live_in.
Proof.
  induction ps as [|p ps IH]; intros live_in w Hl Hps; [exists live_in, w; set_solver|].
  assert (p < n) as Hp by (apply Hps; by left).
  destruct (stamps_lookup n iter live_in p Hl Hp) as (k & Hk & Hle & Hlt).
  destruct (stamps_lookup n iter defines p Hdef Hp) as (d & Hd & Hled & Hltd).
  cbn [foldM]. unfold live_push at 1, iv_index. rewrite Hk, Hd. cbn [unwrap mbind outcome_bind].
  assert (forall q, q ∈ ps -> q < n) as Hps' by (intros; apply Hps; by right).
  case_decide as Hc.
  - destruct Hc as [Hc1%Hlt Hc2%Hltd]. destruct (stamp_set n iter live_in p Hl Hp) as (-> & Hl' & Hs & Hu).
    cbn [unwrap mbind outcome_bind]. destruct (IH _ (p :: w) Hl' Hps') as (live_in' & w' & -> & Hl'' & H1 & H2 & H3).
    exists live_in', w'. split_and!; [done..| | |].
    + intros x. rewrite H1, Hs, elem_of_cons. destruct (decide (x = p)) as [->|]; tauto.
    + intros x. rewrite H2, Hs, elem_of_cons. pose proof (proj2 (H1 p) ltac:(left; apply Hs; by left)) as Hp'.
      destruct (decide (x = p)) as [->|]; tauto.
    + specialize (Hu Hc1). simpl in H3. lia.
  - destruct (IH live_in w Hl Hps') as (live_in' & w' & -> & Hl'' & H1 & H2 & H3).
    exists live_in', w'. split_and!; [done..| |done|done]. intros x. rewrite H1, elem_of_cons.
    destruct (decide (x = p)) as [->|]; [|tauto]. rewrite Hlt, Hltd in Hc.
    destruct (decide (stamped iter live_in p)), (decide (stamped iter defines p)); tauto.
Qed.

Record live_inv (U : nat -> Prop) (live_in w : list nat) : Prop := {
  lv_stamps : stamps n iter live_in;
  lv_sound : forall x, stamped iter live_in x -> live_at bs (stamped iter defines) U x;
  lv_work : forall x, x ∈ w -> stamped iter live_in x;
  lv_seed : forall x, U x -> stamped iter live_in x;
  lv_closed : forall x, stamped iter live_in x -> x ∈ w \/
    forall p, edge (successors bs) p x -> ~ stamped iter defines p -> stamped iter live_in p;
}.

Lemma live_loop_spec U fuel : forall live_in w, live_inv U live_in w -> length w + unstamped iter live_in < fuel ->
  exists live_in', live_loop fuel iter bs defines live_in w = Ret live_in' /\ stamps n iter live_in' /\
    forall x, stamped iter live_in' x <-> live_at bs (stamped iter defines) U x.
Proof.
  induction fuel as [|fuel IH]; intros live_in w [Hl Hsound Hw Hseed Hcl] Hf; [lia|]. cbn [live_loop].
  destruct w as [|x w].
  - exists live_in. split_and!; [done..|]. intros x. split; [apply Hsound|].
    induction 1 as [x Hx|p x He _ IH' Hd]; [by apply Hseed|]. destruct (Hcl x IH') as [?%elem_of_nil|Hc]; [done|]. by apply Hc.
  - destruct (predecessor_table_spec bs Hwf) as (T & ET & HTlen & HT). simpl. unfold block_predecessors. rewrite ET. simpl.
    assert (x < n) as Hx. { pose proof (lookup_lt_Some _ _ _ (Hw x (list_elem_of_here _ _))). by destruct Hl as [<- _]. }
    destruct (lookup_lt_is_Some_2 T x) as [ps Hps]; [by rewrite HTlen|]. unfold iv_index. rewrite Hps. simpl.
    assert (forall p, p ∈ ps <-> edge (successors bs) p x) as Hpe by (intros p; by rewrite <- HT, Hps).
    destruct (live_push_spec ps live_in w Hl) as (live_in' & w' & -> & Hl' & H1 & H2 & H3).
    { intros p Hp%Hpe. apply edge_block in Hp as (b & t & Hb & _). by eapply lookup_lt_Some. }
    simpl. apply IH; [|simpl in Hf; lia]. split; [done|..].
    + intros y [Hy|[Hy Hd]]%H1; [by apply Hsound|]. eapply live_back; [by apply Hpe|apply Hsound, Hw; by left|done].
    + intros y [Hy|[Hy _]]%H2; [|done]. apply H1. left. apply Hw. by right.
    + intros y Hy. apply H1. left. by apply Hseed.
    + intros y Hy. destruct (decide (stamped iter live_in y)) as [Hy'|Hy']; [|left; apply H2; tauto].
      destruct (Hcl y Hy') as [[->|Hyw]%elem_of_cons|Hc].
      * right. intros p Hp%Hpe Hd. apply H1. auto.
      * left. apply H2. by left.
      * right. intros p Hp Hd. apply H1. left. by apply Hc.
Qed.
End live.

(** ** The iterated frontier *)

Inductive idf (fr : nat -> nat -> Prop) (D : nat -> Prop) : nat -> Prop :=
| idf_def x y : D x -> fr x y -> idf fr D y
| idf_step x y : idf fr D x -> fr x y -> idf fr D y.

Definition frontier_of (df : DominanceFrontier) (x y : nat) : Prop := exists s, frontiers df !! x = Some s /\ y ∈ s.

(** The placeholder phi for [v] at [y], with one operand per entry of the predecessor table. *)
Definition phi_stmt (T : list (list nat)) (v : Var) (y : nat) : Statement :=
  new_kind (Phi (VariableRef_new v) (map (fun p => (p, VariableRef_new v)) (default [] (T !! y)))).

Definition add_phis (T : list (list nat)) (y : nat) (vs : list Var) (b : BasicBlockData) : BasicBlockData :=
  with_statements b (map (fun v => phi_stmt T v y) vs ++ statements b).

Section place.
Context (mode : PhiMode) (iter : nat) (df : DominanceFrontier) (live_in : list nat) (v : Var).
Context (cur : BasicBlocks) (T : list (list nat)).
Let n := length cur.
Hypothesis HT : predecessor_table cur = Ret T.
Hypothesis HTlen : length T = n.
Hypothesis Hlive : stamps n iter live_in.
Hypothesis Hdf : length (frontiers df) = n.
Hypothesis Hdfr : forall x y, frontier_of df x y -> y < n.

(** The phi of [v] is wanted at [y]. *)
Definition wanted (y : nat) : Prop := mode = Minimal \/ stamped iter live_in y.
#[local] Instance wanted_dec y : Decision (wanted y).
Proof. unfold wanted. apply _. Defined.

Record place_inv (st : PlaceState) : Prop := {
  pi_blocks : forall y, pl_blocks st !! y =
    (fun b => add_phis T y (if decide (stamped iter (pl_already st) y /\ wanted y) then [v] else []) b) <$> cur !! y;
  pi_already : stamps n iter (pl_already st);
  pi_work : stamps n iter (pl_work st);
  pi_sub : forall y, stamped iter (pl_already st) y -> stamped iter (pl_work st) y;
}.

Lemma place_terminators st : place_inv st -> map terminator (pl_blocks st) = map terminator cur.
Proof.
  intros [Hb _ _ _]. apply list_eq. intros i. rewrite !lookup_map, Hb. by destruct (cur !! i).
Qed.

Lemma insert_phi_spec st y : place_inv st -> y < n -> ~ stamped iter (pl_already st) y ->
  exists bs, insert_phi v (pl_blocks st) y = Ret bs /\
    forall z, bs !! z = if decide (z = y) then add_phis T y [v] <$> cur !! y else pl_blocks st !! z.
Proof.
  intros Hinv Hy Hns. unfold insert_phi. simpl. unfold block_predecessors.
  rewrite (predecessor_table_ext _ _ (place_terminators st Hinv)), HT. simpl.
  destruct (lookup_lt_is_Some_2 T y) as [ps Hps]; [by rewrite HTlen|].
  destruct (lookup_lt_is_Some_2 cur y Hy) as [b Hb].
  pose proof (pi_blocks _ Hinv y) as Hyb. rewrite Hb, decide_False in Hyb by tauto. simpl in Hyb.
  unfold iv_index. rewrite Hps, Hyb. simpl. unfold iv_set. rewrite decide_True by (by eapply lookup_lt_Some).
  eexists. split; [reflexivity|]. intros z. case_decide as Hz.
  - subst z. rewrite list_lookup_insert_eq by (by eapply lookup_lt_Some). rewrite Hb. simpl. unfold add_phis, phi_stmt. simpl. by rewrite Hps.
  - by rewrite list_lookup_insert_ne.
Qed.

Lemma place_frontier_spec st y : place_inv st -> y < n ->
  exists st', place_frontier mode iter live_in v st y = Ret st' /\ place_inv st' /\
    (forall x, stamped iter (pl_already st') x <-> x = y \/ stamped iter (pl_already st) x) /\
    (forall x, stamped iter (pl_work st') x <-> x = y \/ stamped iter (pl_work st) x) /\
    (forall x, x ∈ pl_w st' <-> x ∈ pl_w st \/ (x = y /\ ~ stamped iter (pl_work st) y)) /\
    length (pl_w st') + unstamped iter (pl_already st') <= length (pl_w st) + unstamped iter (pl_already st).
Proof.
  intros Hinv Hy. pose proof Hinv as [Hb Ha Hw Hsub].
  destruct (stamps_lookup n iter _ y Ha Hy) as (h & Hh & _ & Hlt).
  destruct (stamps_lookup n iter _ y Hw Hy) as (k & Hk & _ & Hltk).
  destruct (stamps_lookup n iter _ y Hlive Hy) as (l & Hl & _ & _).
  unfold place_frontier, iv_index. rewrite Hh. cbn [unwrap mbind outcome_bind]. case_decide as Hc.
  2: { assert (stamped iter (pl_already st) y) as Hst by (apply dec_stable; by rewrite <- Hlt).
       exists st. split; [done|]. pose proof (Hsub y Hst). split_and!; try done; intros x; try (destruct (decide (x = y)) as [->|]; tauto). }
  apply Hlt in Hc. rewrite Hl. cbn [unwrap mbind outcome_bind].
  assert (exists bs, (if decide (mode = Minimal \/ l = iter) then insert_phi v (pl_blocks st) y else Ret (pl_blocks st)) = Ret bs /\
    forall z, bs !! z = if decide (z = y) then add_phis T y (if decide (wanted y) then [v] else []) <$> cur !! y else pl_blocks st !! z)
    as (bs & -> & Hbs).
  { assert (wanted y <-> (mode = Minimal \/ l = iter)) as Hwant by (unfold wanted, stamped; rewrite Hl; naive_solver).
    destruct (decide (mode = Minimal \/ l = iter)) as [Hm|Hm].
    - destruct (insert_phi_spec st y Hinv Hy Hc) as (bs & -> & Hbs). exists bs. split; [done|].
      intros z. rewrite Hbs. by rewrite (decide_True (P := wanted y)) by tauto.
    - eexists. split; [done|]. intros z. rewrite (decide_False (P := wanted y)) by tauto. case_decide; [subst z|done].
      rewrite Hb. rewrite (decide_False (P := stamped iter (pl_already st) y /\ _)) by tauto. done. }
  destruct (stamp_set n iter _ y Ha Hy) as (-> & Ha' & Hsa & Hu). cbn [unwrap mbind outcome_bind].
  specialize (Hu Hc). rewrite Hk. cbn [unwrap mbind outcome_bind].
  assert (forall z, bs !! z = (fun b => add_phis T z (if decide (stamped iter (<[y := iter]> (pl_already st)) z /\ wanted z) then [v] else []) b) <$> cur !! z) as Hbs'.
  { intros z. rewrite Hbs. destruct (decide (z = y)) as [->|Hz].
    - destruct (cur !! y); simpl; [|done]. do 2 f_equal. repeat case_decide; naive_solver.
    - rewrite Hb. destruct (cur !! z); simpl; [|done]. do 2 f_equal. repeat case_decide; naive_solver. }
  destruct (decide (k < iter)) as [Hkc|Hkc].
  - apply Hltk in Hkc. destruct (stamp_set n iter _ y Hw Hy) as (-> & Hw' & Hsw & _). cbn [unwrap mbind outcome_bind].
    eexists. split; [reflexivity|]. simpl. split; [split; simpl; auto; intros z; rewrite Hsa, Hsw; naive_solver|].
    split_and!; [done..| |lia]. intros x. rewrite elem_of_cons. naive_solver.
  - rewrite Hltk in Hkc. apply dec_stable in Hkc.
    eexists. split; [reflexivity|]. simpl. split; [split; simpl; auto; intros z; rewrite Hsa; naive_solver|].
    split_and!; [done| | |lia]; intros x; naive_solver.
Qed.

Lemma place_frontiers_spec ys : forall st, place_inv st -> (forall y, y ∈ ys -> y < n) ->
  exists st', foldM (place_frontier mode iter live_in v) st ys = Ret st' /\ place_inv st' /\
    (forall x, stamped iter (pl_already st') x <-> x ∈ ys \/ stamped iter (pl_already st) x) /\
    (forall x, stamped iter (pl_work st') x <-> x ∈ ys \/ stamped iter (pl_work st) x) /\
    (forall x, x ∈ pl_w st' <-> x ∈ pl_w st \/ (x ∈ ys /\ ~ stamped iter (pl_work st) x)) /\
    length (pl_w st') + unstamped iter (pl_already st') <= length (pl_w st) + unstamped iter (pl_already st).
Proof.
  induction ys as [|y ys IH]; intros st Hinv Hys; [exists st; set_solver|].
  destruct (place_frontier_spec st y Hinv) as (st1 & E1 & Hinv1 & A1 & W1 & V1 & M1); [apply Hys; by left|].
  destruct (IH st1 Hinv1) as (st2 & E2 & Hinv2 & A2 & W2 & V2 & M2); [intros; apply Hys; by right|].
  cbn [foldM]. rewrite E1. exists st2. split_and!; [done..| | | |lia]; intros x; rewrite ?A2, ?W2, ?V2, ?A1, ?W1, ?V1, elem_of_cons;
    destruct (decide (x = y)) as [->|]; try tauto.
Qed.

(** The work-list: what is done, and what is left. *)
Record place_work (D : nat -> Prop) (st : PlaceState) : Prop := {
  pw_sound : forall y, stamped iter (pl_already st) y -> idf (frontier_of df) D y;
  pw_work : forall x, stamped iter (pl_work st) x <-> D x \/ stamped iter (pl_already st) x;
  pw_w : forall x, x ∈ pl_w st -> D x \/ stamped iter (pl_already st) x;
  pw_closed : forall x, D x \/ stamped iter (pl_already st) x -> x ∈ pl_w st \/
    forall y, frontier_of df x y -> stamped iter (pl_already st) y;
}.

Lemma place_loop_spec (D : nat -> Prop) fuel : (forall x, D x -> x < n) -> forall st, place_inv st -> place_work D st ->
  length (pl_w st) + unstamped iter (pl_already st) < fuel ->
  exists st', place_loop fuel mode iter df live_in v st = Ret st' /\ place_inv st' /\
    forall y, stamped iter (pl_already st') y <-> idf (frontier_of df) D y.
Proof.
  intros HD. induction fuel as [|fuel IH]; intros st Hinv [Hsound Hwork Hw Hcl] Hf; [lia|]. cbn [place_loop].
  destruct (pl_w st) as [|x w] eqn:Ew.
  - exists st. split_and!; [done..|]. intros y. split; [apply Hsound|].
    induction 1 as [x y Hx Hy|x y _ IHx Hy].
    + destruct (Hcl x (or_introl Hx)) as [?%elem_of_nil|Hc]; [done|]. by apply Hc.
    + destruct (Hcl x (or_intror IHx)) as [?%elem_of_nil|Hc]; [done|]. by apply Hc.
  - assert (x < n) as Hx.
    { destruct (Hw x (list_elem_of_here _ _)) as [?|Hs]; [by apply HD|]. pose proof (lookup_lt_Some _ _ _ Hs).
      by destruct (pi_already _ Hinv) as [<- _]. }
    unfold frontier_iter, iv_index. destruct (lookup_lt_is_Some_2 (frontiers df) x) as [s Hs]; [by rewrite Hdf|].
    rewrite Hs. cbn [unwrap mbind outcome_bind].
    assert (forall y, y ∈ merge_sort (≤) (elements s) <-> frontier_of df x y) as Hys.
    { intros y. rewrite merge_sort_Permutation, elem_of_elements. unfold frontier_of. rewrite Hs. naive_solver. }
    destruct (place_frontiers_spec (merge_sort (≤) (elements s)) (mk_place (pl_blocks st) (pl_already st) (pl_work st) w))
      as (st' & -> & Hinv' & A & W & V & M); [destruct Hinv; by split|intros y Hy%Hys; by eapply Hdfr|].
    simpl in A, W, V, M. apply IH; [done| |simpl in Hf; lia].
    assert (forall y, frontier_of df x y -> idf (frontier_of df) D y) as Hidf.
    { intros y Hy. destruct (Hw x (list_elem_of_here _ _)) as [Hd|Hst]; [by eapply idf_def|]. eapply idf_step; [by apply Hsound|done]. }
    split.
    + intros y [Hy%Hys|Hy]%A; [by apply Hidf|by apply Hsound].
    + intros y. rewrite W, A, Hwork. tauto.
    + intros y [Hy|[Hy _]]%V; [|right; apply A; by left]. rewrite A.
      destruct (Hw y (list_elem_of_further _ _ _ Hy)); tauto.
    + intros y Hy. destruct (decide (stamped iter (pl_work st) y)) as [Hyw|Hyw].
      * apply Hwork in Hyw. destruct (Hcl y Hyw) as [[->|Hin]%elem_of_cons|Hc].
        -- right. intros z Hz%Hys. apply A. by left.
        -- left. apply V. by left.
        -- right. intros z Hz. apply A. right. by apply Hc.
      * left. apply V. right. split; [|done]. rewrite A in Hy. rewrite Hwork in Hyw. tauto.
Qed.
End place.

(** ** All variables *)

Lemma live_at_mono bs bs' (D D' U U' : nat -> Prop) x : map terminator bs = map terminator bs' ->
  (forall x, D' x -> D x) -> (forall x, U x -> U' x) -> live_at bs D U x -> live_at bs' D' U' x.
Proof.
  intros E HD HU. induction 1 as [x Hx|p x He _ IH Hd]; [by apply live_use, HU|].
  eapply live_back; [by apply (edge_ext bs bs')|done|naive_solver].
Qed.

Lemma idf_mono fr (D D' : nat -> Prop) x : (forall x, D x -> D' x) -> idf fr D x -> idf fr D' x.
Proof. intros HD. induction 1; [eapply idf_def; eauto|eapply idf_step; eauto]. Qed.

(** Blocks, vectors: what [place_var] keeps. *)
Record vars_ok (n : nat) (st : PlaceVars) : Prop := {
  vo_work : stamps n (pv_iter st) (pv_work st); vo_already : stamps n (pv_iter st) (pv_already st);
  vo_defines : stamps n (pv_iter st) (pv_defines st); vo_live : stamps n (pv_iter st) (pv_live st) }.

Definition place_fuel (sc : Scan) (n : nat) : nat :=
  1 + n + max_list (map length ((map_to_list (s_assigns sc)).*2 ++ (map_to_list (s_upward sc)).*2)).

Lemma place_fuel_bound sc n v : length (blocks_of (s_assigns sc) v) + n < place_fuel sc n /\
  length (blocks_of (s_upward sc) v) + n < place_fuel sc n.
Proof.
  unfold place_fuel.
  assert (forall m, (forall l, l ∈ (map_to_list m).*2 -> l ∈ (map_to_list (s_assigns sc)).*2 ++ (map_to_list (s_upward sc)).*2) ->
    length (blocks_of m v) <= max_list (map length ((map_to_list (s_assigns sc)).*2 ++ (map_to_list (s_upward sc)).*2))) as Hm.
  { intros m Hin. unfold blocks_of. destruct (m !! v) as [l|] eqn:E; simpl; [|lia].
    apply max_list_elem_of_le, elem_of_map. exists l. split; [done|]. apply Hin, list_elem_of_fmap.
    exists (v, l). split; [done|]. by apply elem_of_map_to_list. }
  pose proof (Hm (s_assigns sc) ltac:(set_solver)). pose proof (Hm (s_upward sc) ltac:(set_solver)). lia.
Qed.

Lemma unstamped_le n iter l : stamps n iter l -> unstamped iter l <= n.
Proof. intros [<- _]. apply length_filter. Qed.

Lemma elem_of_rev {A} (l : list A) x : x ∈ rev l <-> x ∈ l.
Proof. by rewrite !list_elem_of_In, <- in_rev. Qed.

Section place_all.
Context (fuel : nat) (mode : PhiMode) (df : DominanceFrontier) (sc : Scan) (bs : BasicBlocks) (T : list (list nat)).
Let n := length bs.
Hypothesis Hwf : graph_wf bs.
Hypothesis HT : predecessor_table bs = Ret T.
Hypothesis HTlen : length T = n.
Hypothesis Hdf : length (frontiers df) = n.
Hypothesis Hdfr : forall x y, frontier_of df x y -> y < n.
Hypothesis Hassigns : forall v x, x ∈ blocks_of (s_assigns sc) v <-> assigns bs v x.
Hypothesis Hupward : forall v x, x ∈ blocks_of (s_upward sc) v <-> upward bs v x.
Hypothesis Hfuel : place_fuel sc n <= fuel.

(** Where [v] gets a phi. *)
Definition placed (v : Var) (y : nat) : Prop :=
  idf (frontier_of df) (assigns bs v) y /\ (mode = Minimal \/ live_at bs (assigns bs v) (upward bs v) y).

Lemma liveness_spec v st : mode = Pruned -> vars_ok n st -> map terminator (pv_blocks st) = map terminator bs ->
  let iter := pv_iter st + 1 in
  exists defines live0 live_in, stamp iter (pv_defines st) (blocks_of (s_assigns sc) v) = Ret defines /\
    stamp iter (pv_live st) (blocks_of (s_upward sc) v) = Ret live0 /\
    live_loop fuel iter (pv_blocks st) defines live0 (rev (blocks_of (s_upward sc) v)) = Ret live_in /\
    stamps n iter defines /\ stamps n iter live_in /\
    forall y, stamped iter live_in y <-> live_at bs (assigns bs v) (upward bs v) y.
Proof.
  intros Hm [_ _ Hd Hl] Ht iter. fold iter in Hd, Hl. destruct (stamps_next _ _ _ Hd) as [Hd1 Hd0].
  destruct (stamps_next _ _ _ Hl) as [Hl1 Hl0]. fold iter in Hd1, Hd0, Hl1, Hl0.
  assert (length (pv_blocks st) = n) as Hlen by (by rewrite <- (length_map terminator), Ht, length_map).
  destruct (stamp_spec n iter (blocks_of (s_assigns sc) v) _ Hd1) as (defines & E1 & Hds & Hdst).
  { intros x (b & Hb & _)%Hassigns. by eapply lookup_lt_Some. }
  destruct (stamp_spec n iter (blocks_of (s_upward sc) v) _ Hl1) as (live0 & E2 & Hls & Hlst).
  { intros x (b & Hb & _)%Hupward. by eapply lookup_lt_Some. }
  assert (forall x, stamped iter defines x <-> assigns bs v x) as HD.
  { intros x. rewrite Hdst, Hassigns. pose proof (Hd0 x). tauto. }
  destruct (live_loop_spec (pv_blocks st) iter defines (graph_wf_ext _ _ (eq_sym Ht) Hwf) ltac:(by rewrite Hlen)
    (upward bs v) fuel live0 (rev (blocks_of (s_upward sc) v))) as (live_in & E3 & Hs & Hst).
  - split.
    + by rewrite Hlen.
    + intros x Hx%Hlst. apply live_use, Hupward. pose proof (Hl0 x). tauto.
    + intros x Hx. apply Hlst. left. by apply elem_of_rev.
    + intros x Hx%Hupward. apply Hlst. by left.
    + intros x Hx. left. apply Hlst in Hx as [Hx|Hx]; [|by destruct (Hl0 x)]. by apply elem_of_rev.
  - rewrite length_rev. pose proof (unstamped_le n iter live0 Hls). pose proof (place_fuel_bound sc n v). lia.
  - exists defines, live0, live_in. rewrite Hlen in Hs. split_and!; try done. intros y. rewrite Hst.
    split; apply live_at_mono; try done; intros x; by rewrite ?HD.
Qed.

Definition place_live (st : PlaceVars) (v : Var) : outcome (list nat * list nat) :=
  let iter := pv_iter st + 1 in
  match mode with
  | Pruned => defines ← stamp iter (pv_defines st) (blocks_of (s_assigns sc) v);
      live_in ← stamp iter (pv_live st) (blocks_of (s_upward sc) v);
      live_in ← live_loop fuel iter (pv_blocks st) defines live_in (rev (blocks_of (s_upward sc) v));
      Ret (defines, live_in)
  | Minimal => Ret (pv_defines st, pv_live st)
  end.

Lemma place_live_spec v st : vars_ok n st -> map terminator (pv_blocks st) = map terminator bs ->
  exists defines live_in, place_live st v = Ret (defines, live_in) /\
    stamps n (pv_iter st + 1) defines /\ stamps n (pv_iter st + 1) live_in /\
    (forall y, wanted mode (pv_iter st + 1) live_in y <-> mode = Minimal \/ live_at bs (assigns bs v) (upward bs v) y).
Proof.
  intros Hok Ht. unfold place_live, wanted. destruct mode eqn:Em.
  - exists (pv_defines st), (pv_live st). destruct Hok as [_ _ Hd Hl]. split_and!; [done|by apply stamps_next..|].
    intros y. tauto.
  - destruct (liveness_spec v st Em Hok Ht) as (d & l0 & l & E1 & E2 & E3 & Hd & Hl & Hst).
    rewrite E1. simpl. rewrite E2. simpl. rewrite E3. exists d, l. split_and!; [done..|].
    intros y. by rewrite Hst.
Qed.

Lemma place_var_spec v st : vars_ok n st -> map terminator (pv_blocks st) = map terminator bs ->
  exists st' (p : nat -> bool), place_var fuel mode df sc st v = Ret st' /\ vars_ok n st' /\
    (forall y, p y = true <-> placed v y) /\
    forall y, pv_blocks st' !! y = add_phis T y (if p y then [v] else []) <$> pv_blocks st !! y.
Proof.
  intros Hok Ht. unfold place_var. fold (blocks_of (s_assigns sc) v). fold (blocks_of (s_upward sc) v).
  fold (place_live st v). set (iter := pv_iter st + 1).
  assert (length (pv_blocks st) = n) as Hlen by (by rewrite <- (length_map terminator), Ht, length_map).
  destruct (place_live_spec v st Hok Ht) as (defines & live_in & -> & Hds & Hls & Hwant). fold iter in Hds, Hls, Hwant.
  destruct (stamps_next _ _ _ (vo_work _ _ Hok)) as [Hw1 Hw0]. destruct (stamps_next _ _ _ (vo_already _ _ Hok)) as [Ha1 Ha0].
  fold iter in Hw1, Hw0, Ha1, Ha0. cbn [mbind outcome_bind].
  assert (forall x, assigns bs v x -> x < n) as HD by (intros x (b & Hb & _); by eapply lookup_lt_Some).
  destruct (stamp_spec n iter (blocks_of (s_assigns sc) v) _ Hw1) as (work & -> & Hws & Hwst); [intros x Hx%Hassigns; auto|].
  cbn [mbind outcome_bind]. set (st0 := mk_place (pv_blocks st) (pv_already st) work (rev (blocks_of (s_assigns sc) v))).
  assert (place_inv mode iter live_in v (pv_blocks st) T st0) as Hinv0.
  { split; simpl; rewrite ?Hlen; try done.
    - intros y. rewrite decide_False by (pose proof (Ha0 y); tauto). unfold add_phis. simpl. by destruct (pv_blocks st !! y) as [[]|].
    - intros y Hy. by destruct (Ha0 y). }
  assert (place_work iter df (assigns bs v) st0) as Hw.
  { split; simpl.
    - intros y Hy. by destruct (Ha0 y).
    - intros x. rewrite Hwst, Hassigns. pose proof (Hw0 x). pose proof (Ha0 x). tauto.
    - intros x Hx%elem_of_rev%Hassigns. by left.
    - intros x [Hx|Hx]; [|by destruct (Ha0 x)]. left. by apply elem_of_rev, Hassigns. }
  destruct (place_loop_spec mode iter df live_in v (pv_blocks st) T ltac:(by rewrite (predecessor_table_ext _ bs))
    ltac:(by rewrite Hlen) ltac:(by rewrite Hlen) ltac:(by rewrite Hlen) ltac:(by rewrite Hlen) (assigns bs v) fuel
    ltac:(by rewrite Hlen) st0 Hinv0 Hw) as (pl & -> & Hinv & Hst).
  { simpl. rewrite length_rev. pose proof (unstamped_le n iter _ Ha1). pose proof (place_fuel_bound sc n v). lia. }
  destruct Hinv as [Hb Ha Hwk _]. rewrite Hlen in Ha, Hwk. simpl.
  eexists _, (fun y => bool_decide (stamped iter (pl_already pl) y /\ wanted mode iter live_in y)). split; [reflexivity|].
  split; [by split|]. split.
  - intros y. rewrite bool_decide_eq_true, Hst, Hwant. done.
  - intros y. simpl. rewrite Hb. destruct (pv_blocks st !! y); [|done]. simpl. do 2 f_equal.
    case_bool_decide; case_decide; tauto.
Qed.

Lemma place_phis_spec : exists bs' (Ps : nat -> list Var), place_phis fuel mode df sc bs = Ret bs' /\
  (forall y, NoDup (Ps y) /\ forall v, v ∈ Ps y <-> v ∈ s_variables sc /\ placed v y) /\
  forall y, bs' !! y = add_phis T y (Ps y) <$> bs !! y.
Proof.
  unfold place_phis. set (zeros := replicate (num_nodes bs) 0).
  assert (stamps n 0 zeros) as Hz by (split; [apply length_replicate|by apply Forall_replicate]).
  assert (NoDup (var_set_iter (s_variables sc))) as Hnd.
  { unfold var_set_iter. rewrite merge_sort_Permutation. apply NoDup_elements. }
  destruct (foldM_split (place_var fuel mode df sc) (fun vs st => vars_ok n st /\ exists Ps : nat -> list Var,
    (forall y, NoDup (Ps y) /\ forall v, v ∈ Ps y <-> v ∈ vs /\ placed v y) /\
    forall y, pv_blocks st !! y = add_phis T y (Ps y) <$> bs !! y)
    (var_set_iter (s_variables sc)) (mk_vars bs zeros zeros zeros zeros 0)) as (st & -> & _ & Ps & HPs & Hb).
  - split; [by split|]. exists (fun _ => []). split; [intros y; split; [constructor|set_solver]|].
    intros y. simpl. destruct (bs !! y) as [[]|]; done.
  - intros pre v post st Epre (Hok & Ps & HPs & Hb).
    assert (map terminator (pv_blocks st) = map terminator bs) as Ht.
    { apply list_eq. intros i. rewrite !lookup_map, Hb. by destruct (bs !! i). }
    destruct (place_var_spec v st Hok Ht) as (st' & p & -> & Hok' & Hp & Hb'). exists st'. split; [done|]. split; [done|].
    assert (v ∉ pre) as Hv by (rewrite Epre in Hnd; apply NoDup_app in Hnd as (_ & Hd & _); intros Hin; apply (Hd v Hin); by left).
    exists (fun y => (if p y then [v] else []) ++ Ps y). split.
    + intros y. destruct (HPs y) as [Hn HPy]. specialize (Hp y). destruct (p y); simpl; split.
      * apply NoDup_cons. split; [rewrite HPy; naive_solver|done].
      * intros w. rewrite elem_of_cons, HPy, elem_of_app, list_elem_of_singleton. naive_solver.
      * done.
      * intros w. rewrite HPy, elem_of_app, list_elem_of_singleton. assert (~ placed v y) by (by rewrite <- Hp). naive_solver.
    + intros y. rewrite Hb', Hb. destruct (bs !! y); [|done]. simpl. f_equal. unfold add_phis, with_statements. simpl.
      by rewrite map_app, app_assoc.
  - exists (pv_blocks st), Ps. split; [done|]. split; [|done]. intros y. destruct (HPs y) as [Hn Hv]. split; [done|].
    intros v. rewrite Hv. unfold var_set_iter. by rewrite merge_sort_Permutation, elem_of_elements.
Qed.
End place_all.

Lemma idf_nonempty fr (D : nat -> Prop) y : idf fr D y -> exists x, D x.
Proof. induction 1; eauto. Qed.

(** Phi placement is pruned SSA's.  On a well-formed graph, for any frontier table with one
    entry per block, the scan and the placement return, and the only change they make is to put
    phis at the front of the blocks: block [y] gets one phi for [v], with an operand for each
    predecessor, exactly when [y] is in the iterated dominance frontier of the blocks that assign
    [v] and, in pruned mode, [v] is live on entry to [y], that is, some path from [y] reads [v]
    before assigning it.  No block gets two phis for one variable. *)
Theorem phi_place_correct (mode : PhiMode) (df : DominanceFrontier) (bs : BasicBlocks) :
  graph_wf bs -> length (frontiers df) = length bs -> (forall x y, frontier_of df x y -> y < length bs) ->
  exists sc T, ssa_scan bs = Ret sc /\ predecessor_table bs = Ret T /\
    (forall y p, p ∈ default [] (T !! y) <-> edge (successors bs) p y) /\
    forall fuel, place_fuel sc (length bs) <= fuel ->
      exists bs' (Ps : nat -> list Var), place_phis fuel mode df sc bs = Ret bs' /\
        (forall y, bs' !! y = add_phis T y (Ps y) <$> bs !! y) /\
        forall y, NoDup (Ps y) /\ forall v, v ∈ Ps y <->
          idf (frontier_of df) (assigns bs v) y /\ (mode = Minimal \/ live_at bs (assigns bs v) (upward bs v) y).
Proof.
  intros Hwf Hdf Hdfr. destruct (ssa_scan_spec bs Hwf) as (sc & Esc & Ha & Hu & Hv).
  destruct (predecessor_table_spec bs Hwf) as (T & ET & HTlen & HT).
  exists sc, T. split_and!; [done..|]. intros fuel Hf.
  destruct (place_phis_spec fuel mode df sc bs T Hwf ET HTlen Hdf Hdfr Ha Hu Hf) as (bs' & Ps & E & HPs & Hb).
  exists bs', Ps. split_and!; [done..|]. intros y. destruct (HPs y) as [Hn HPy]. split; [done|].
  intros v. rewrite HPy, Hv. unfold placed. split; [tauto|]. intros Hp. split; [|done].
  destruct (idf_nonempty _ _ _ (proj1 Hp)) as (x & b & Hb' & Hd). exists x, b. auto.
Qed.

(** A diamond whose branches assign [l0] and whose join returns it. *)
Definition phi_example : BasicBlocks :=
  let set0 := new_kind (Assign (ap_of_var (new_local_idx 0)) [Exp_Int 1]) in
  let goto l b := {| statements := l; terminator := Some (term_new_kind (Goto b)) |} in
  [goto [] [1; 2]; goto [set0] [3]; goto [set0] [3];
   {| statements := []; terminator := Some (term_new_kind (Return [Exp_variable (new_local_idx 0)])) |}].

Definition phi_example_df : DominanceFrontier := {| frontiers := [∅; {[ 3 ]}; {[ 3 ]}; ∅] |}.

Lemma phi_place_correct_witness : exists sc bs', ssa_scan phi_example = Ret sc /\
  place_phis 20 Pruned phi_example_df sc phi_example = Ret bs' /\
  (statements <$> bs' !! 3) = Some [new_kind (Phi (new_local_idx 0) [(1, new_local_idx 0); (2, new_local_idx 0)])].
Proof.
  destruct (phi_place_correct Pruned phi_example_df phi_example) as (sc & T & Esc & ET & _ & H).
  - by_decide.
  - reflexivity.
  - intros [|[|[|[|x]]]] y (s & [= <-] & Hy); simpl; set_solver by lia.
  - destruct (H 20) as (bs' & Ps & E & _). { vm_compute in Esc. injection Esc as <-. vm_compute. lia. }
    exists sc, bs'. split; [exact Esc|]. split; [exact E|]. vm_compute in Esc. injection Esc as <-. vm_compute in E. injection E as <-. reflexivity.
Defined.
