(* ===== verification/Rename.v ===== *)
(** * Rename: SSA renaming ([SsaRename] of [ctadl-ir/src/ssa/mod.rs])

    [SsaRename::search] walks the dominator tree: it gives every definition of a block the next
    version of its variable, every use the version on top of the variable's stack, fills in the
    operand of each phi of a successor that comes from the block, and pops its versions on the
    way back.  A stack is a list with its top at the head.  A version is a natural: the [u32]
    bound of [try_into().unwrap()] is not modelled.  The recursion carries fuel, one per level of
    the tree. *)

From S2P Require Import Prelude Index Text Path IR Graph Dominators Coalesce Cfg PhiPlace.

Record SsaRename : Type := mk_rename { rn_s : gmap Var (list nat); rn_c : gmap Var nat }.

(** [*self.s(v).last().unwrap()]. *)
Definition rn_top (st : SsaRename) (v : Var) : outcome nat := l ← unwrap (rn_s st !! v); unwrap (head l).

(** The version on top of the stack of [v], for a rename whose stacks have been checked. *)
Definition tops (st : SsaRename) (v : Var) : nat := default 0 (head (default [] (rn_s st !! v))).

Definition rename_ref (P : VariableRef -> Prop) `{!forall v, Decision (P v)} (tau : Var -> nat) (v : VariableRef) : VariableRef :=
  if decide (P v) then with_version v (tau (variable v)) else v.

(** [for v in iter_src_var_mut().filter(P) { v.version = Some(top) }]: the lookups, then the update. *)
Definition check_uses (P : VariableRef -> Prop) `{!forall v, Decision (P v)} (st : SsaRename) (l : list VariableRef) : outcome unit :=
  foldM (fun _ v => _ ← rn_top st (variable v); Ret tt) tt (filter P l).

Definition rename_srcs (st : SsaRename) (k : StatementKind) : outcome StatementKind :=
  match k with
  | Phi _ _ => Ret k
  | _ => _ ← check_uses renamable st (iter_src_var k); Ret (map_src_var (rename_ref renamable (tops st)) k)
  end.

(** One definition: the next version of the variable, pushed on its stack. *)
Definition rename_def (st : SsaRename) (v : VariableRef) : outcome (SsaRename * VariableRef) :=
  i ← unwrap (rn_c st !! variable v);
  l ← unwrap (rn_s st !! variable v);
  Ret (mk_rename (<[variable v := i :: l]> (rn_s st)) (<[variable v := i + 1]> (rn_c st)), with_version v i).

Fixpoint rename_defs (st : SsaRename) (l : list VariableRef) : outcome (SsaRename * list VariableRef) :=
  match l with
  | [] => Ret (st, [])
  | v :: l => '(st, v) ← rename_def st v; '(st, l) ← rename_defs st l; Ret (st, v :: l)
  end.

(** [iter_dst_var_mut]: the destinations replaced by [ds]. *)
Definition set_dst_vars (k : StatementKind) (ds : list VariableRef) : StatementKind :=
  match k, ds with
  | Assign dest srcs, d :: _ => if is_pathless dest then Assign (ap_set_base dest d) srcs else k
  | CallAssign style _ args, _ => CallAssign style ds args
  | Phi _ ops, d :: _ => Phi d ops
  | _, _ => k
  end.

Definition rename_stmt (st : SsaRename) (s : Statement) : outcome (SsaRename * Statement) :=
  k ← rename_srcs st (kind s);
  '(st, ds) ← rename_defs st (iter_dst_var k);
  Ret (st, with_kind s (set_dst_vars k ds)).

Fixpoint rename_stmts (st : SsaRename) (l : list Statement) : outcome (SsaRename * list Statement) :=
  match l with
  | [] => Ret (st, [])
  | s :: l => '(st, s) ← rename_stmt st s; '(st, l) ← rename_stmts st l; Ret (st, s :: l)
  end.

Definition rename_term (st : SsaRename) (t : Terminator) : outcome Terminator :=
  _ ← check_uses not_global st (term_iter_src_var t);
  Ret (term_map_src_var (rename_ref not_global (tops st)) t).

(** The first operand that comes from [x]. *)
Fixpoint rename_operand (st : SsaRename) (x : nat) (ops : list (nat * VariableRef)) : outcome (list (nat * VariableRef)) :=
  match ops with
  | [] => Ret []
  | (p, op) :: ops =>
      if decide (x = p) then i ← rn_top st (variable op); Ret ((p, with_version op i) :: ops)
      else ops ← rename_operand st x ops; Ret ((p, op) :: ops)
  end.

Definition rename_phi (st : SsaRename) (x : nat) (s : Statement) : outcome Statement :=
  match kind s with
  | Phi d ops => ops ← rename_operand st x ops; Ret (with_kind s (Phi d ops))
  | _ => Ret s
  end.

Definition rename_succ (st : SsaRename) (x : nat) (bs : BasicBlocks) (y : nat) : outcome BasicBlocks :=
  b ← iv_index bs y;
  l ← mapM_out (rename_phi st x) (statements b);
  iv_set bs y (with_statements b l).

(** [self.s_mut(v).pop()]. *)
Definition rename_pop (st : SsaRename) (v : VariableRef) : outcome SsaRename :=
  l ← unwrap (rn_s st !! variable v);
  Ret (mk_rename (<[variable v := tail l]> (rn_s st)) (rn_c st)).

(** The part of [search] before its recursion: the block itself and the phis of its successors. *)
Definition search_visit (st : SsaRename) (bs : BasicBlocks) (x : nat) : outcome (SsaRename * BasicBlocks) :=
  b ← iv_index bs x;
  '(st, l) ← rename_stmts st (statements b);
  t ← unwrap (terminator b);
  t ← rename_term st t;
  bs ← iv_set bs x {| statements := l; terminator := Some t |};
  succs ← successors bs x;
  bs ← foldM (rename_succ st x) bs succs;
  Ret (st, bs).

Fixpoint search (fuel : nat) (dominators : DominatorTree) (st : SsaRename) (bs : BasicBlocks) (x : nat)
  : outcome (SsaRename * BasicBlocks) :=
  match fuel with
  | 0 => OutOfFuel
  | S fuel =>
      '(st, bs) ← search_visit st bs x;
      children ← successors dominators x;
      '(st, bs) ← foldM (fun '(st, bs) y => search fuel dominators st bs y) (st, bs) children;
      b ← iv_index bs x;
      st ← foldM rename_pop st (block_dst_vars b);
      Ret (st, bs)
  end.

Definition SsaRename_new (fuel : nat) (bs : BasicBlocks) (variables : gset Var) (dominators : DominatorTree)
  : outcome BasicBlocks :=
  let st := mk_rename (set_to_map (fun v => (v, [0])) variables) (set_to_map (fun v => (v, 1)) variables) in
  '(_, bs) ← search fuel dominators st bs (start_node bs);
  Ret bs.

(** ** What renaming does to a block

    A version map gives the current version of every variable. *)
Notation vers := (Var -> nat).

Definition upd_ver (tau : vers) (v : Var) (i : nat) : vers := fun w => if decide (w = v) then i else tau w.

(** The versions after the definitions [ds]. *)
Definition def_vers (tau : vers) (ds : list VariableRef) : vers :=
  foldl (fun tau d => upd_ver tau (variable d) (default 0 (version d))) tau ds.

Definition ren_srcs (tau : vers) (k : StatementKind) : StatementKind :=
  match k with Phi _ _ => k | _ => map_src_var (rename_ref renamable tau) k end.

(** From versions [tau], the statements become [l'] and the versions [tau']: every use but a
    phi's gets its variable's version, every definition some version, which is then current. *)
Inductive ren_stmts : vers -> list Statement -> list Statement -> vers -> Prop :=
| ren_nil tau tau' : (forall v, tau v = tau' v) -> ren_stmts tau [] [] tau'
| ren_cons tau s ds l l' tau' :
    map variable ds = map variable (iter_dst_var (kind s)) -> Forall (fun d => is_Some (version d)) ds ->
    ren_stmts (def_vers tau ds) l l' tau' ->
    ren_stmts tau (s :: l) (with_kind s (set_dst_vars (ren_srcs tau (kind s)) ds) :: l') tau'.

Lemma iter_dst_ren tau k : iter_dst_var (ren_srcs tau k) = iter_dst_var k.
Proof. destruct k as [dest srcs| | |]; simpl; [|done..]. by destruct (is_pathless dest) eqn:E; rewrite ?E, ?is_pathless_set_base, ?E. Qed.

Lemma iter_dst_set k ds : length ds = length (iter_dst_var k) -> iter_dst_var (set_dst_vars k ds) = ds.
Proof.
  destruct k as [dest srcs|style rets args|d ops|]; simpl.
  - destruct (is_pathless dest) eqn:E; destruct ds as [|d [|]]; simpl; try done; [|by rewrite E].
    by rewrite is_pathless_set_base, E.
  - destruct ds; done.
  - destruct ds as [|? [|]]; done.
  - destruct ds; done.
Qed.

Lemma iter_dst_renamed tau k ds : map variable ds = map variable (iter_dst_var k) ->
  iter_dst_var (set_dst_vars (ren_srcs tau k) ds) = ds.
Proof. intros E%(f_equal length). rewrite !length_map in E. apply iter_dst_set. by rewrite iter_dst_ren. Qed.

(** The definitions of a list of statements. *)
Definition dsts (l : list Statement) : list VariableRef := l ≫= fun s => iter_dst_var (kind s).

(** ** The operand of a phi that comes from a renamed block *)

(** [S] is the set of the predecessors that have been renamed; of several operands with the same
    predecessor only the first is filled in. *)
Fixpoint patch_ops (S : gset nat) (tout : nat -> vers) (seen : list nat) (ops : list (nat * VariableRef)) : list (nat * VariableRef) :=
  match ops with
  | [] => []
  | (p, op) :: ops =>
      (p, if decide (p ∈ S /\ p ∉ seen) then with_version op (tout p (variable op)) else op) :: patch_ops S tout (p :: seen) ops
  end.

Definition patch_kind (S : gset nat) (tout : nat -> vers) (k : StatementKind) : StatementKind :=
  match k with Phi d ops => Phi d (patch_ops S tout [] ops) | _ => k end.

Definition patch_stmt (S : gset nat) (tout : nat -> vers) (s : Statement) : Statement := with_kind s (patch_kind S tout (kind s)).

Lemma with_kind_id s : with_kind s (kind s) = s.
Proof. by destruct s. Qed.

Lemma patch_ops_empty tout ops : forall seen, patch_ops ∅ tout seen ops = ops.
Proof. induction ops as [|[p op] ops IH]; intros seen; simpl; [done|]. by rewrite IH, decide_False by set_solver. Qed.

Lemma patch_stmt_empty tout s : patch_stmt ∅ tout s = s.
Proof. destruct s as [i k]. unfold patch_stmt, with_kind. simpl. f_equal. destruct k; simpl; [done..| |done]. by rewrite patch_ops_empty. Qed.

Lemma iter_dst_patch S tout k : iter_dst_var (patch_kind S tout k) = iter_dst_var k.
Proof. by destruct k. Qed.

Lemma dsts_patch S tout l : dsts (map (patch_stmt S tout) l) = dsts l.
Proof. unfold dsts. induction l as [|s l IH]; csimpl; [done|]. by rewrite IH, iter_dst_patch. Qed.

Lemma patch_ops_ext S S' tout tout' ops : forall seen,
  (forall p op, (p, op) ∈ ops -> p ∉ seen -> (p ∈ S <-> p ∈ S') /\ (p ∈ S -> tout p (variable op) = tout' p (variable op))) ->
  patch_ops S tout seen ops = patch_ops S' tout' seen ops.
Proof.
  induction ops as [|[p op] ops IH]; intros seen H; simpl; [done|]. f_equal.
  - f_equal. destruct (decide (p ∈ seen)); [by rewrite !decide_False by tauto|].
    destruct (H p op) as [HS Ht]; [by left|done|]. destruct (decide (p ∈ S)).
    + rewrite !decide_True by tauto. by rewrite Ht.
    + by rewrite !decide_False by tauto.
  - apply IH. intros q oq Hq Hn. apply H; [by right|]. set_solver.
Qed.

Lemma patch_stmt_ext S S' tout tout' s :
  (forall d ops p op, kind s = Phi d ops -> (p, op) ∈ ops -> (p ∈ S <-> p ∈ S') /\ (p ∈ S -> tout p (variable op) = tout' p (variable op))) ->
  patch_stmt S tout s = patch_stmt S' tout' s.
Proof.
  intros H. unfold patch_stmt, patch_kind. destruct (kind s) as [| |d ops|] eqn:E; try done.
  do 2 f_equal. apply patch_ops_ext. eauto.
Qed.

(** Renaming commutes with patching. *)
Lemma set_dst_patch S tout k ds : set_dst_vars (patch_kind S tout k) ds = patch_kind S tout (set_dst_vars k ds).
Proof. destruct k as [dest srcs| | |], ds; simpl; try done. by destruct (is_pathless dest). Qed.

Lemma ren_srcs_patch S tout tau k : ren_srcs tau (patch_kind S tout k) = patch_kind S tout (ren_srcs tau k).
Proof. by destruct k. Qed.

Lemma ren_stmts_patch S tout tau l0 l' tau' : ren_stmts tau (map (patch_stmt S tout) l0) l' tau' ->
  exists l1, ren_stmts tau l0 l1 tau' /\ l' = map (patch_stmt S tout) l1.
Proof.
  revert tau l'. induction l0 as [|s l0 IH]; intros tau l' H; inversion H; subst; clear H; [exists []; split; [by constructor|done]|].
  match goal with H : ren_stmts _ (map _ l0) _ _ |- _ => apply IH in H as (l1 & Hl1 & ->) end.
  eexists (_ :: l1). split; [econstructor; [|done|exact Hl1]|].
  - by rewrite <- (iter_dst_patch S tout).
  - simpl. f_equal. unfold patch_stmt. simpl. by rewrite ren_srcs_patch, set_dst_patch.
Qed.

(** ** The stacks and counters *)

Definition rn_ok (X : gset Var) (st : SsaRename) : Prop :=
  forall v, v ∈ X -> exists i l c, rn_s st !! v = Some (i :: l) /\ rn_c st !! v = Some c.

Definition cnt (v : Var) (ds : list VariableRef) : nat := length (filter (fun d => variable d = v) ds).

Lemma cnt_app v ds ds' : cnt v (ds ++ ds') = cnt v ds + cnt v ds'.
Proof. unfold cnt. by rewrite filter_app, length_app. Qed.

(** From [st] to [st'] the definitions [ds] were made: their versions are new, distinct, and on
    top of the stacks. *)
Record pushed (st st' : SsaRename) (ds : list VariableRef) : Prop := {
  pu_stack : forall v, exists new, rn_s st' !! v = app new <$> rn_s st !! v /\ length new = cnt v ds /\
    forall i, i ∈ new -> {| variable := v; version := Some i |} ∈ ds;
  pu_fresh : NoDup ds;
  pu_range : forall d, d ∈ ds -> exists i c c', version d = Some i /\
    rn_c st !! variable d = Some c /\ rn_c st' !! variable d = Some c' /\ c <= i < c';
  pu_count : forall v c, rn_c st !! v = Some c -> exists c', rn_c st' !! v = Some c' /\ c <= c';
  pu_dom : forall v, rn_c st !! v = None -> rn_c st' !! v = None;
}.

Lemma pushed_refl st : pushed st st [].
Proof.
  split; [|constructor|set_solver|eauto|done]. intros v. exists []. split_and!; [by destruct (rn_s st !! v)|done|set_solver].
Qed.

Lemma pushed_trans st st1 st2 ds ds' : pushed st st1 ds -> pushed st1 st2 ds' -> pushed st st2 (ds ++ ds').
Proof.
  intros [S1 F1 R1 C1 D1] [S2 F2 R2 C2 D2]. split.
  - intros v. destruct (S1 v) as (n1 & E1 & L1 & I1), (S2 v) as (n2 & E2 & L2 & I2). exists (n2 ++ n1).
    rewrite E2, E1, length_app, cnt_app. split_and!; [destruct (rn_s st !! v); simpl; [by rewrite app_assoc|done]|lia|].
    intros i [?|?]%elem_of_app; apply elem_of_app; auto.
  - apply NoDup_app. split_and!; [done| |done]. intros d H1 H2.
    destruct (R1 d H1) as (i & c & c1 & Ei & _ & Ec1 & Hi), (R2 d H2) as (j & c2 & c3 & Ej & Ec2 & _ & Hj).
    simplify_eq. lia.
  - intros d [H|H]%elem_of_app.
    + destruct (R1 d H) as (i & c & c1 & Ei & Ec & Ec1 & Hi). destruct (C2 _ _ Ec1) as (c2 & Ec2 & ?).
      exists i, c, c2. split_and!; [done..|lia|lia].
    + destruct (R2 d H) as (i & c1 & c2 & Ei & Ec1 & Ec2 & Hi).
      destruct (rn_c st !! variable d) as [c|] eqn:Ec; [|by rewrite D1 in Ec1].
      destruct (C1 _ _ Ec) as (c1' & Ec1' & ?). simplify_eq. exists i, c, c2. split_and!; [done..|lia|lia].
  - intros v c Ec. destruct (C1 v c Ec) as (c1 & Ec1 & ?). destruct (C2 v c1 Ec1) as (c2 & ? & ?). exists c2. split; [done|lia].
  - auto.
Qed.

Lemma pushed_ok X st st' ds : rn_ok X st -> pushed st st' ds -> rn_ok X st'.
Proof.
  intros Hok [S _ _ C _] v Hv. destruct (Hok v Hv) as (i & l & c & Es & Ec). destruct (C v c Ec) as (c' & Ec' & _).
  destruct (S v) as (new & E & _). rewrite E, Es, Ec'. simpl. destruct new as [|j new]; simpl; eauto.
Qed.

Lemma check_uses_spec (P : VariableRef -> Prop) `{!forall v, Decision (P v)} X st l :
  rn_ok X st -> (forall u, u ∈ l -> P u -> variable u ∈ X) -> check_uses P st l = Ret tt.
Proof.
  intros Hok Hl. unfold check_uses. induction l as [|u l IH]; [done|].
  assert (foldM (fun _ v => _ ← rn_top st (variable v); Ret tt) tt (filter P l) = Ret tt) as IH'
    by (apply IH; intros; apply Hl; [by right|done]).
  rewrite filter_cons. case_decide as Hp; [|done]. cbn [foldM]. unfold rn_top at 1.
  destruct (Hok (variable u)) as (i & k & c & -> & _); [apply Hl; [by left|done]|]. done.
Qed.

Lemma rename_def_spec X st v : rn_ok X st -> variable v ∈ X ->
  exists st' d, rename_def st v = Ret (st', d) /\ variable d = variable v /\ is_Some (version d) /\
    pushed st st' [d] /\ forall w, tops st' w = upd_ver (tops st) (variable d) (default 0 (version d)) w.
Proof.
  intros Hok Hv. destruct (Hok _ Hv) as (i & l & c & Es & Ec). unfold rename_def. rewrite Ec, Es. simpl.
  eexists _, _. split; [reflexivity|]. simpl. split_and!; [done|done| |].
  - split; simpl.
    + intros w. destruct (decide (w = variable v)) as [->|Hne].
      * exists [c]. rewrite lookup_insert_eq, Es. unfold cnt. rewrite filter_cons_True by done. split_and!; [done..|].
        intros j ->%list_elem_of_singleton. by left.
      * exists []. rewrite lookup_insert_ne by done. unfold cnt. rewrite filter_cons_False by (simpl; congruence).
        split_and!; [by destruct (rn_s st !! w)|done|set_solver].
    + apply NoDup_singleton.
    + intros d ->%list_elem_of_singleton. simpl. exists c, c, (c + 1). rewrite lookup_insert_eq. split_and!; [done..|lia].
    + intros w c' Ew. destruct (decide (w = variable v)) as [->|Hne].
      * exists (c + 1). rewrite lookup_insert_eq. simplify_eq. split; [done|lia].
      * exists c'. by rewrite lookup_insert_ne.
    + intros w Ew. rewrite lookup_insert_ne; [done|]. congruence.
  - intros w. unfold tops, upd_ver. simpl. case_decide as Hw; [subst w; by rewrite lookup_insert_eq|by rewrite lookup_insert_ne].
Qed.

Lemma def_vers_ext tau tau' ds : (forall w, tau w = tau' w) -> forall w, def_vers tau ds w = def_vers tau' ds w.
Proof.
  revert tau tau'. induction ds as [|d ds IH]; intros tau tau' E w; [apply E|]. simpl. apply IH. intros x. unfold upd_ver. by case_decide.
Qed.

Lemma rename_defs_spec X l : forall st, rn_ok X st -> (forall u, u ∈ l -> variable u ∈ X) ->
  exists st' ds, rename_defs st l = Ret (st', ds) /\ map variable ds = map variable l /\
    Forall (fun d => is_Some (version d)) ds /\ pushed st st' ds /\ forall w, tops st' w = def_vers (tops st) ds w.
Proof.
  induction l as [|u l IH]; intros st Hok Hl; simpl; [exists st, []; split_and!; try done; apply pushed_refl|].
  destruct (rename_def_spec X st u Hok) as (st1 & d & -> & Hd & Hs & Hp & Ht); [apply Hl; by left|]. simpl.
  destruct (IH st1) as (st2 & ds & -> & Hds & Hss & Hps & Hts); [by eapply pushed_ok|intros; apply Hl; by right|].
  simpl. exists st2, (d :: ds). split_and!; [done|simpl; by rewrite Hd, Hds|by constructor|by eapply (pushed_trans _ st1 _ [d])|].
  intros w. rewrite Hts. simpl. by apply def_vers_ext.
Qed.

Lemma ren_srcs_ext tau tau' k : (forall w, tau w = tau' w) -> ren_srcs tau k = ren_srcs tau' k.
Proof.
  intros E. unfold ren_srcs. destruct k; try done; apply map_src_var_ext; intros v _; unfold rename_ref; case_decide; by rewrite ?E.
Qed.

Lemma ren_stmts_ext tau tau1 l l' tau' : (forall w, tau w = tau1 w) -> ren_stmts tau l l' tau' -> ren_stmts tau1 l l' tau'.
Proof.
  intros E H. revert tau1 E. induction H as [tau tau' H|tau s ds l l' tau' Hv Hs _ IH]; intros tau1 E.
  - constructor. intros v. by rewrite <- E.
  - rewrite (ren_srcs_ext tau tau1) by done. constructor; [done..|]. apply IH. by apply def_vers_ext.
Qed.

(** The variables a statement makes SSA look up. *)
Definition stmt_vars_in (X : gset Var) (s : Statement) : Prop :=
  (forall u, u ∈ iter_src_var (kind s) -> renamable u -> variable u ∈ X) /\
  (forall u, u ∈ iter_dst_var (kind s) -> variable u ∈ X).

Lemma rename_stmt_spec X st s : rn_ok X st -> stmt_vars_in X s ->
  exists st' ds, rename_stmt st s = Ret (st', with_kind s (set_dst_vars (ren_srcs (tops st) (kind s)) ds)) /\
    map variable ds = map variable (iter_dst_var (kind s)) /\ Forall (fun d => is_Some (version d)) ds /\
    pushed st st' ds /\ forall w, tops st' w = def_vers (tops st) ds w.
Proof.
  intros Hok [Hs Hd]. unfold rename_stmt.
  assert (rename_srcs st (kind s) = Ret (ren_srcs (tops st) (kind s))) as ->.
  { unfold rename_srcs, ren_srcs. destruct (kind s) eqn:Ek; rewrite ?(check_uses_spec _ X) by (done || (intros; by apply Hs)); done. }
  cbn [mbind outcome_bind]. rewrite iter_dst_ren.
  destruct (rename_defs_spec X (iter_dst_var (kind s)) st Hok Hd) as (st' & ds & -> & ?). simpl. exists st', ds. done.
Qed.

Lemma rename_stmts_spec X l : forall st, rn_ok X st -> (forall s, s ∈ l -> stmt_vars_in X s) ->
  exists st' l', rename_stmts st l = Ret (st', l') /\ ren_stmts (tops st) l l' (tops st') /\ pushed st st' (dsts l').
Proof.
  induction l as [|s l IH]; intros st Hok Hl; cbn [rename_stmts]; [exists st, []; split_and!; [done|by constructor|apply pushed_refl]|].
  destruct (rename_stmt_spec X st s Hok) as (st1 & ds & -> & Hv & Hs & Hp & Ht); [apply Hl; by left|]. cbn [mbind outcome_bind].
  destruct (IH st1) as (st2 & l' & -> & Hr & Hp2); [by eapply pushed_ok|intros; apply Hl; by right|].
  eexists _, _. split; [reflexivity|]. split.
  - constructor; [done..|]. by eapply ren_stmts_ext.
  - unfold dsts. csimpl. rewrite iter_dst_renamed by done. by eapply pushed_trans.
Qed.

(** Popping what was pushed restores the stacks. *)
Lemma rename_pops_spec ds : forall st, (forall v, v ∈ map variable ds -> is_Some (rn_s st !! v)) ->
  exists st', foldM rename_pop st ds = Ret st' /\ rn_c st' = rn_c st /\
    forall v, rn_s st' !! v = drop (cnt v ds) <$> rn_s st !! v.
Proof.
  induction ds as [|d ds IH]; intros st Hd; cbn [foldM].
  { exists st. split_and!; [done..|]. intros v. by destruct (rn_s st !! v). }
  destruct (Hd (variable d)) as [l El]; [by left|]. unfold rename_pop at 1. rewrite El. cbn [unwrap mbind outcome_bind].
  destruct (IH (mk_rename (<[variable d := tail l]> (rn_s st)) (rn_c st))) as (st' & -> & Ec & Es).
  { intros v Hv. simpl. destruct (decide (v = variable d)) as [->|]; [rewrite lookup_insert_eq; done|].
    rewrite lookup_insert_ne by done. apply Hd. by right. }
  exists st'. split_and!; [done..|]. intros v. rewrite Es. simpl. unfold cnt. rewrite filter_cons.
  destruct (decide (v = variable d)) as [->|].
  - rewrite lookup_insert_eq, El, decide_True by done. simpl. destruct l; simpl; [by rewrite drop_nil|done].
  - rewrite lookup_insert_ne, decide_False by congruence. done.
Qed.

Lemma pops_restore st st1 st2 ds : pushed st st1 ds -> (forall v, rn_s st2 !! v = rn_s st1 !! v) ->
  (forall d, d ∈ ds -> is_Some (rn_s st !! variable d)) ->
  exists st', foldM rename_pop st2 ds = Ret st' /\ rn_c st' = rn_c st2 /\ forall v, rn_s st' !! v = rn_s st !! v.
Proof.
  intros [S _ _ _ _] E Hd. destruct (rename_pops_spec ds st2) as (st' & E' & Ec & Es).
  - intros v (d & -> & Hin)%elem_of_map. destruct (S (variable d)) as (new & Es & _), (Hd d Hin) as [l El].
    rewrite E, Es, El. done.
  - exists st'. split_and!; [done..|]. intros v. destruct (S v) as (new & Ev & Hl & _). rewrite Es, E, Ev.
    destruct (rn_s st !! v); [|done]. simpl. f_equal. by rewrite <- Hl, drop_app_length.
Qed.

(** ** Filling in the operands *)

Lemma patch_ops_seen S tout x ops : forall seen, x ∈ seen -> patch_ops (S ∪ {[ x ]}) tout seen ops = patch_ops S tout seen ops.
Proof. intros seen Hx. apply patch_ops_ext. intros p op _ Hp. set_solver. Qed.

Lemma rename_operand_spec X S tout st x ops : rn_ok X st -> (forall w, tops st w = tout x w) ->
  (forall p op, (p, op) ∈ ops -> variable op ∈ X) -> forall seen, x ∉ seen ->
  rename_operand st x (patch_ops S tout seen ops) = Ret (patch_ops (S ∪ {[ x ]}) tout seen ops).
Proof.
  intros Hok Ht. induction ops as [|[p op] ops IH]; intros Hops seen Hx; simpl; [done|]. case_decide as Hp.
  - subst p. rewrite (patch_ops_seen S tout x ops) by (by left). rewrite (decide_True (P := x ∈ S ∪ {[ x ]} /\ _)) by set_solver.
    set (op' := if decide (x ∈ S /\ x ∉ seen) then _ else _).
    assert (variable op' = variable op) as Ev by (unfold op'; by case_decide).
    destruct (Hok (variable op)) as (i & l & c & Es & _); [apply (Hops x); by left|].
    unfold rn_top. rewrite Ev, Es. simpl. do 3 f_equal. rewrite <- Ht. unfold tops. rewrite Es. simpl.
    unfold with_version. by rewrite Ev.
  - rewrite IH; [|intros; eapply Hops; by right|set_solver]. simpl. do 3 f_equal.
    destruct (decide (p ∈ S /\ p ∉ seen)); [rewrite decide_True by set_solver|rewrite decide_False by set_solver]; done.
Qed.

(** The variables of the phi operands of a statement. *)
Definition phi_vars_in (X : gset Var) (s : Statement) : Prop :=
  forall d ops p op, kind s = Phi d ops -> (p, op) ∈ ops -> variable op ∈ X.

Lemma rename_phis_spec X S tout st x l : rn_ok X st -> (forall w, tops st w = tout x w) ->
  (forall s, s ∈ l -> phi_vars_in X s) ->
  mapM_out (rename_phi st x) (map (patch_stmt S tout) l) = Ret (map (patch_stmt (S ∪ {[ x ]}) tout) l).
Proof.
  intros Hok Ht. induction l as [|s l IH]; intros Hl; cbn [map mapM_out]; [done|].
  assert (rename_phi st x (patch_stmt S tout s) = Ret (patch_stmt (S ∪ {[ x ]}) tout s)) as ->.
  { unfold rename_phi, patch_stmt. simpl. destruct (kind s) as [| |d ops|] eqn:Ek; simpl; try done.
    rewrite (rename_operand_spec X); [done|done|done| |set_solver]. intros p op Hin. eapply (Hl s); [by left|done|done]. }
  rewrite IH by (intros; apply Hl; by right). done.
Qed.

(** ** The walk over the tree *)

Lemma term_successors_map f t : term_successors (term_map_src_var f t) = term_successors t.
Proof. unfold term_map_src_var, term_successors. by destruct (term_kind t) eqn:E; rewrite ?E. Qed.

Lemma patch_vars_in X S tout s : stmt_vars_in X s -> phi_vars_in X s ->
  stmt_vars_in X (patch_stmt S tout s).
Proof.
  intros [Hs Hd] Hp. split; unfold patch_stmt; simpl; [|by rewrite iter_dst_patch].
  destruct (kind s) as [| |d ops|] eqn:Ek; simpl; try (intros; by apply Hs).
  intros u Hu _. assert (forall p op, (p, op) ∈ ops -> variable op ∈ X) as Ho by (intros p op; by apply (Hp d ops)). revert Hu. clear -Ho. generalize (@nil nat).
  induction ops as [|[p op] ops IH]; intros seen Hu; simpl in Hu; [by apply elem_of_nil in Hu|].
  apply elem_of_cons in Hu as [->|Hu].
  - assert (variable op ∈ X) by (apply (Ho p); by left). by case_decide.
  - eapply IH; [|exact Hu]. intros q o Hin. apply (Ho q). by right.
Qed.

Lemma rename_succs_spec X st x tout : rn_ok X st -> (forall w, tops st w = tout x w) -> forall succs bs,
  (forall y, y ∈ succs -> exists b S L, bs !! y = Some b /\ statements b = map (patch_stmt S tout) L /\
     forall s, s ∈ L -> phi_vars_in X s) ->
  exists bs', foldM (rename_succ st x) bs succs = Ret bs' /\ length bs' = length bs /\
    forall y b, bs !! y = Some b -> exists b', bs' !! y = Some b' /\ terminator b' = terminator b /\
      forall S L, statements b = map (patch_stmt S tout) L -> (forall s, s ∈ L -> phi_vars_in X s) ->
        statements b' = map (patch_stmt (if decide (y ∈ succs) then S ∪ {[ x ]} else S) tout) L.
Proof.
  intros Hok Ht succs. induction succs as [|z succs IH]; intros bs Hs; cbn [foldM].
  { exists bs. split_and!; [done..|]. intros y b Hb. exists b. split_and!; [done..|]. intros S L E _.
    by rewrite decide_False by set_solver. }
  destruct (Hs z) as (b & S & L & Hb & E & HL); [by left|].
  assert (rename_succ st x bs z = Ret (<[z := with_statements b (map (patch_stmt (S ∪ {[ x ]}) tout) L)]> bs)) as ->.
  { unfold rename_succ, iv_index. rewrite Hb. cbn [unwrap mbind outcome_bind]. rewrite E, (rename_phis_spec X) by done.
    cbn [mbind outcome_bind]. unfold iv_set. by rewrite decide_True by (by eapply lookup_lt_Some). }
  destruct (IH (<[z := with_statements b (map (patch_stmt (S ∪ {[ x ]}) tout) L)]> bs)) as (bs' & -> & Hlen & Hbs').
  { intros y Hy. destruct (decide (y = z)) as [->|Hne].
    - exists (with_statements b (map (patch_stmt (S ∪ {[ x ]}) tout) L)), (S ∪ {[ x ]}), L.
      rewrite list_lookup_insert_eq by (by eapply lookup_lt_Some). done.
    - rewrite list_lookup_insert_ne by done. apply Hs. by right. }
  exists bs'. rewrite length_insert in Hlen. split_and!; [done..|]. intros y c Hc. destruct (decide (y = z)) as [->|Hne].
  - rewrite Hb in Hc. injection Hc as <-.
    destruct (Hbs' z (with_statements b (map (patch_stmt (S ∪ {[ x ]}) tout) L))) as (b' & Hb' & Et & Es).
    { apply list_lookup_insert_eq. by eapply lookup_lt_Some. }
    exists b'. split_and!; [done..|]. intros S1 L1 E1 HL1. rewrite decide_True by (by left).
    assert (map (patch_stmt (S ∪ {[ x ]}) tout) L = map (patch_stmt (S1 ∪ {[ x ]}) tout) L1) as EL.
    { pose proof (rename_phis_spec X S tout st x L Hok Ht HL) as H1. pose proof (rename_phis_spec X S1 tout st x L1 Hok Ht HL1) as H2.
      rewrite <- E in H1. rewrite <- E1 in H2. congruence. }
    rewrite (Es (S1 ∪ {[ x ]}) L1) by done. case_decide; [|done]. f_equal. f_equal. set_solver.
  - destruct (Hbs' y c) as (b' & Hb' & Et & Es); [by rewrite list_lookup_insert_ne|].
    exists b'. split_and!; [done..|]. intros S1 L1 E1 HL1. rewrite (Es S1 L1) by done.
    destruct (decide (y ∈ succs)); [rewrite decide_True by (by right)|rewrite decide_False by set_solver]; done.
Qed.

Lemma ren_stmts_phi tau l l' tau' : ren_stmts tau l l' tau' -> forall s' d ops, s' ∈ l' -> kind s' = Phi d ops ->
  exists s d0, s ∈ l /\ kind s = Phi d0 ops.
Proof.
  induction 1 as [|tau s ds l l' tau' Hv Hs _ IH]; intros s' d ops Hin Hk; [by apply elem_of_nil in Hin|].
  apply elem_of_cons in Hin as [->|Hin].
  - simpl in Hk. destruct (kind s) as [dest srcs|style rets args|d0 ops0|] eqn:Ek; simpl in Hk.
    + destruct ds; simpl in Hk; [done|]. by destruct (is_pathless _).
    + by destruct ds.
    + exists s, d0. split; [by left|]. destruct ds; simplify_eq/=; by rewrite Ek.
    + by destruct ds.
  - destruct (IH s' d ops Hin Hk) as (s0 & d0 & ? & ?). exists s0, d0. split; [by right|done].
Qed.

Lemma rename_phi_dsts st x l l' : mapM_out (rename_phi st x) l = Ret l' -> dsts l' = dsts l.
Proof.
  intros H%mapM_out_Ret. unfold dsts. induction H as [|s s' l l' Hs _ IH]; csimpl; [done|]. rewrite IH. f_equal.
  unfold rename_phi in Hs. destruct (kind s) as [| |d ops|] eqn:Ek; try (injection Hs as <-; by rewrite Ek).
  destruct (rename_operand st x ops); [|done..]. injection Hs as <-. done.
Qed.

Definition dsts_at (bs : BasicBlocks) (y : nat) : list VariableRef :=
  match bs !! y with Some b => dsts (statements b) | None => [] end.

(** Block [y], which was [b0], after the blocks of [ord] were renamed and their versions entered
    in the phis from the predecessors in [S]. *)
Definition block_ok (S : gset nat) (ord : list nat) (tin tout : nat -> vers) (y : nat) (b0 b : BasicBlockData) : Prop :=
  exists l1, statements b = map (patch_stmt S tout) l1 /\
    ((y ∈ ord /\ ren_stmts (tin y) (statements b0) l1 (tout y) /\
      terminator b = term_map_src_var (rename_ref not_global (tout y)) <$> terminator b0) \/
     (y ∉ ord /\ l1 = statements b0 /\ terminator b = terminator b0)).

Definition set_at (tau : nat -> vers) (x : nat) (t : vers) : nat -> vers := fun y => if decide (y = x) then t else tau y.

(** The versions [A] given out so far are distinct, at least 1 and below the counters, and the
    stacks hold those and the incoming version 0. *)
Record ver_inv (X : gset Var) (st : SsaRename) (A : list VariableRef) : Prop := {
  vi_ok : rn_ok X st;
  vi_nodup : NoDup A;
  vi_range : forall d, d ∈ A -> exists i c, version d = Some i /\ 1 <= i /\ rn_c st !! variable d = Some c /\ i < c;
  vi_stack : forall v l i, rn_s st !! v = Some l -> i ∈ l -> i = 0 \/ {| variable := v; version := Some i |} ∈ A;
  vi_pos : forall v c, rn_c st !! v = Some c -> 1 <= c;
}.

Lemma ver_inv_push X st st1 A ds : ver_inv X st A -> pushed st st1 ds -> ver_inv X st1 (A ++ ds).
Proof.
  intros [Ho Hn Hr Hs Hp] Hpu. pose proof (pushed_ok X st st1 ds Ho Hpu) as Ho1. destruct Hpu as [S F R C D]. split; [done|..].
  - apply NoDup_app. split_and!; [done| |done]. intros d H1 H2.
    destruct (Hr d H1) as (i & c & Ei & _ & Ec & Hi), (R d H2) as (j & c1 & c2 & Ej & Ec1 & _ & Hj). simplify_eq. lia.
  - intros d [Hd|Hd]%elem_of_app.
    + destruct (Hr d Hd) as (i & c & Ei & Hi & Ec & Hlt). destruct (C _ _ Ec) as (c' & Ec' & ?). exists i, c'.
      split_and!; [done..|lia].
    + destruct (R d Hd) as (i & c & c' & Ei & Ec & Ec' & Hi). exists i, c'. pose proof (Hp _ _ Ec). split_and!; [done|lia|done|lia].
  - intros v l i El Hi. destruct (S v) as (new & E & _ & Hin). rewrite E in El.
    destruct (rn_s st !! v) as [l0|] eqn:E0; [|done]. injection El as <-.
    apply elem_of_app in Hi as [Hi|Hi]; [right; apply elem_of_app; right; auto|].
    destruct (Hs v l0 i E0 Hi); [by left|right]. apply elem_of_app. by left.
  - intros v c Ec. destruct (rn_c st !! v) as [c0|] eqn:E0; [|by rewrite D in Ec].
    destruct (C v c0 E0) as (c' & Ec' & ?). pose proof (Hp v c0 E0). simplify_eq. lia.
Qed.

(** The stacks go back to what they were at an earlier point. *)
Lemma ver_inv_pop X st0 A0 st st' A : ver_inv X st0 A0 -> ver_inv X st A -> A0 ⊆ A ->
  (forall v, rn_s st' !! v = rn_s st0 !! v) -> rn_c st' = rn_c st -> ver_inv X st' A.
Proof.
  intros [Ho0 _ _ Hs0 _] [Ho Hn Hr Hs Hp] HA Es Ec. split; rewrite ?Ec; try done.
  - intros v Hv. destruct (Ho0 v Hv) as (i & l & _ & Ei & _), (Ho v Hv) as (_ & _ & c & _ & Hc).
    exists i, l, c. by rewrite Es, Ec.
  - intros v l i El Hi. rewrite Es in El. destruct (Hs0 v l i El Hi); auto.
Qed.

Section search.
Context (bs0 : BasicBlocks) (dt : DominatorTree) (X : gset Var).
Let n := length bs0.
Hypothesis Hwf : graph_wf bs0.
Hypothesis Htree : tree_wf bs0 dt.
Hypothesis Hvars : forall y b s, bs0 !! y = Some b -> s ∈ statements b -> stmt_vars_in X s /\ phi_vars_in X s.
Hypothesis Hterm : forall y b t u, bs0 !! y = Some b -> terminator b = Some t -> u ∈ term_iter_src_var t -> not_global u ->
  variable u ∈ X.
Hypothesis Hphi : forall y b s d ops p op, bs0 !! y = Some b -> s ∈ statements b -> kind s = Phi d ops -> (p, op) ∈ ops ->
  edge (successors bs0) p y.

Definition child (a b : nat) : Prop := par dt a b /\ b <> dt_start dt.

Record rinv (ord : list nat) (tin tout : nat -> vers) (st : SsaRename) (bs : BasicBlocks) : Prop := {
  ri_len : length bs = n;
  ri_blocks : forall y b0, bs0 !! y = Some b0 -> exists b, bs !! y = Some b /\ block_ok (list_to_set ord) ord tin tout y b0 b;
  ri_ord : NoDup ord /\ forall y, y ∈ ord -> y < n;
  ri_tin : forall y, y ∈ ord -> (y = dt_start dt /\ forall w, tin y w = 0) \/
    exists p, child p y /\ p ∈ ord /\ forall w, tin y w = tout p w;
  ri_ver : ver_inv X st (ord ≫= dsts_at bs);
}.

(** Statements that renaming made of those of block [y] have phi operands from its predecessors. *)
Lemma block_phis y b0 l1 : bs0 !! y = Some b0 ->
  (exists tau tau', ren_stmts tau (statements b0) l1 tau') \/ l1 = statements b0 ->
  forall s d ops p op, s ∈ l1 -> kind s = Phi d ops -> (p, op) ∈ ops -> edge (successors bs0) p y /\ variable op ∈ X.
Proof.
  intros Hb0 H s d ops p op Hs Hk Hin.
  assert (exists s0 d0, s0 ∈ statements b0 /\ kind s0 = Phi d0 ops) as (s0 & d0 & Hs0 & Hk0).
  { destruct H as [(? & ? & Hr)| ->]; [by eapply ren_stmts_phi|eauto]. }
  split; [by eapply Hphi|]. destruct (Hvars y b0 s0 Hb0 Hs0) as [_ Hp]. by eapply Hp.
Qed.

Lemma block_ok_phis S ord tin tout y b0 b : bs0 !! y = Some b0 -> block_ok S ord tin tout y b0 b ->
  exists l1, statements b = map (patch_stmt S tout) l1 /\
    (forall s d ops p op, s ∈ l1 -> kind s = Phi d ops -> (p, op) ∈ ops -> edge (successors bs0) p y /\ variable op ∈ X).
Proof.
  intros Hb0 (l1 & E & H). exists l1. split; [done|]. eapply block_phis; [done|].
  destruct H as [(_ & Hr & _)|(_ & -> & _)]; eauto.
Qed.

Lemma patch_block_ext (S S' : gset nat) tout tout' y b0 l1 : bs0 !! y = Some b0 ->
  (exists tau tau', ren_stmts tau (statements b0) l1 tau') \/ l1 = statements b0 ->
  (forall p, edge (successors bs0) p y -> (p ∈ S <-> p ∈ S') /\ (p ∈ S -> tout p = tout' p)) ->
  map (patch_stmt S tout) l1 = map (patch_stmt S' tout') l1.
Proof.
  intros Hb0 Hl1 HS. apply map_ext_in. intros s Hs%list_elem_of_In. apply patch_stmt_ext. intros d ops p op Hk Hin.
  destruct (block_phis y b0 l1 Hb0 Hl1 s d ops p op) as [He _]; [done..|].
  destruct (HS p He) as [? Hp]. split; [done|]. intros Hps. by rewrite Hp.
Qed.

Lemma block_ok_ext (S S' : gset nat) (ord ord' : list nat) tin tin' tout tout' y b0 b : bs0 !! y = Some b0 ->
  (forall p, edge (successors bs0) p y -> (p ∈ S <-> p ∈ S') /\ (p ∈ S -> tout p = tout' p)) ->
  (y ∈ ord <-> y ∈ ord') -> (y ∈ ord -> tin y = tin' y /\ tout y = tout' y) ->
  block_ok S ord tin tout y b0 b -> block_ok S' ord' tin' tout' y b0 b.
Proof.
  intros Hb0 HS Ho Ht (l1 & E & H). exists l1. split.
  - rewrite E. eapply patch_block_ext; [done| |done]. destruct H as [(_ & Hr & _)|(_ & -> & _)]; eauto.
  - destruct H as [(Hy & Hr & Et)|(Hy & ? & ?)]; [left|right; by rewrite <- Ho]. destruct (Ht Hy) as [<- <-]. by rewrite <- Ho.
Qed.

Lemma set_at_eq tau x t : set_at tau x t x = t.
Proof. unfold set_at. by rewrite decide_True. Qed.
Lemma set_at_ne tau x t y : y <> x -> set_at tau x t y = tau y.
Proof. intros. unfold set_at. by rewrite decide_False. Qed.

(** Renaming block [x] alone, before its versions are entered in its successors' phis. *)
Lemma visit_block ord tin tout st bs x : rinv ord tin tout st bs -> x < n -> x ∉ ord ->
  exists st1 b t l t', bs !! x = Some b /\ rename_stmts st (statements b) = Ret (st1, l) /\
    terminator b = Some t /\ rename_term st1 t = Ret t' /\ pushed st st1 (dsts l) /\
    (forall y, y ∈ term_successors t' <-> edge (successors bs0) x y) /\
    let tin' := set_at tin x (tops st) in let tout' := set_at tout x (tops st1) in
    forall y b0, bs0 !! y = Some b0 -> exists c,
      <[x := {| statements := l; terminator := Some t' |}]> bs !! y = Some c /\
      block_ok (list_to_set ord) (ord ++ [x]) tin' tout' y b0 c.
Proof.
  intros [Hlen Hb [Hnd Hr] Htin Hver] Hx Hxo. destruct (lookup_lt_is_Some_2 bs0 x Hx) as [b0 Hb0].
  destruct (Hb x b0 Hb0) as (b & Hbx & l0 & El & [(? & _)|(_ & -> & Et)]); [done|].
  destruct (proj1 (graph_wf_blocks bs0) Hwf x b0 Hb0) as (t & Et0 & _). rewrite Et0 in Et.
  destruct (rename_stmts_spec X (statements b) st) as (st1 & l' & E1 & Hr1 & Hp1); [apply Hver| |].
  { rewrite El. intros s (s0 & -> & Hs0)%elem_of_map. destruct (Hvars x b0 s0 Hb0 Hs0). by apply patch_vars_in. }
  rewrite El in Hr1. apply ren_stmts_patch in Hr1 as (l1 & Hr1 & ->).
  exists st1, b, t, (map (patch_stmt (list_to_set ord) tout) l1), (term_map_src_var (rename_ref not_global (tops st1)) t).
  split_and!; [done..| |done| |].
  - unfold rename_term. rewrite (check_uses_spec _ X); [done|by eapply pushed_ok; [apply Hver|]|]. intros u. by apply (Hterm x b0).
  - intros y. rewrite term_successors_map. rewrite edge_block, Hb0. split; [eauto|]. intros (? & ? & [= <-] & ? & ?). congruence.
  - intros tin' tout' y c0 Hc0. destruct (decide (y = x)) as [->|Hne].
    + rewrite list_lookup_insert_eq by lia. eexists. split; [done|]. simplify_eq. exists l1. simpl. split.
      * eapply patch_block_ext; [done|eauto|]. intros p _. split; [done|]. rewrite elem_of_list_to_set. intros Hp.
        unfold tout'. rewrite set_at_ne; [done|]. by intros ->.
      * left. unfold tin', tout'. rewrite !set_at_eq, Et0. split_and!; [set_solver|done..].
    + rewrite list_lookup_insert_ne by done. destruct (Hb y c0 Hc0) as (c & Hc & Hok). exists c. split; [done|].
      eapply block_ok_ext; [done| | | |exact Hok].
      * intros p _. split; [done|]. rewrite elem_of_list_to_set. intros Hp. unfold tout'. rewrite set_at_ne; [done|]. by intros ->.
      * set_solver.
      * intros _. unfold tin', tout'. by rewrite !set_at_ne.
Qed.
(** The whole visit: what it does to every block. *)
Lemma visit_blocks ord tin tout st bs x : rinv ord tin tout st bs -> x < n -> x ∉ ord ->
  exists st1 bs2 l, search_visit st bs x = Ret (st1, bs2) /\ length bs2 = n /\ pushed st st1 (dsts l) /\
    forall y, y < n -> exists c0 c', bs0 !! y = Some c0 /\ bs2 !! y = Some c' /\
      dsts (statements c') = (if decide (y = x) then dsts l else dsts_at bs y) /\
      block_ok (list_to_set (ord ++ [x])) (ord ++ [x]) (set_at tin x (tops st)) (set_at tout x (tops st1)) y c0 c'.
Proof.
  intros Hinv Hx Hxo.
  destruct (visit_block ord tin tout st bs x Hinv Hx Hxo) as (st1 & b & t & l & t' & Hb & E1 & Et & E2 & Hpu & Hsucc & Hbl).
  destruct Hinv as [Hlen _ _ _ Hver].
  set (bs1 := <[x := {| statements := l; terminator := Some t' |}]> bs) in *.
  set (tin' := set_at tin x (tops st)) in *. set (tout' := set_at tout x (tops st1)) in *.
  assert (forall y, y ∈ term_successors t' -> y < n) as Hsn.
  { intros y (c & u & Hc & Hu & Hy)%Hsucc%edge_block. destruct (proj1 (graph_wf_blocks bs0) Hwf x c Hc) as (u' & Hu' & Hlt).
    apply Hlt. congruence. }
  destruct (rename_succs_spec X st1 x tout' (pushed_ok X st st1 _ (vi_ok _ _ _ Hver) Hpu) ltac:(intros w; unfold tout'; by rewrite set_at_eq)
    (term_successors t') bs1) as (bs2 & E3 & Hlen2 & Hbs2).
  { intros y Hy%Hsn. destruct (lookup_lt_is_Some_2 bs0 y Hy) as [c0 Hc0]. destruct (Hbl y c0 Hc0) as (c & Hc & Hok).
    destruct (block_ok_phis _ _ _ _ y c0 c Hc0 Hok) as (L & EL & HL). exists c, (list_to_set ord), L. split_and!; [done..|].
    intros s Hs d ops p op Hk Hop. by eapply HL. }
  exists st1, bs2, l. split_and!; [| |done|].
  - unfold search_visit, iv_index. rewrite Hb. cbn [unwrap mbind outcome_bind]. rewrite E1. cbn [mbind outcome_bind]. rewrite Et.
    cbn [unwrap mbind outcome_bind]. rewrite E2. cbn [mbind outcome_bind]. unfold iv_set.
    rewrite decide_True by (rewrite Hlen; exact Hx). cbn [mbind outcome_bind]. fold bs1.
    assert (successors bs1 x = Ret (term_successors t')) as ->.
    { simpl. unfold block_successors, iv_index, bs1. rewrite list_lookup_insert_eq by (rewrite Hlen; exact Hx). done. }
    cbn [mbind outcome_bind]. by rewrite E3.
  - rewrite Hlen2. unfold bs1. by rewrite length_insert.
  - intros y Hy. destruct (lookup_lt_is_Some_2 bs0 y Hy) as [c0 Hc0]. destruct (Hbl y c0 Hc0) as (c & Hc & Hok).
    destruct (Hbs2 y c Hc) as (c' & Hc' & Et' & HS). exists c0, c'. split_and!; [done..| |].
    + assert (dsts (statements c') = dsts (statements c)) as ->.
      { destruct (block_ok_phis _ _ _ _ y c0 c Hc0 Hok) as (L & EL & HL).
        rewrite (HS _ L EL), EL, !dsts_patch; [done|]. intros s Hs d ops p op Hk Hop. by eapply HL. }
      unfold bs1 in Hc. destruct (decide (y = x)) as [->|Hyx].
      * rewrite list_lookup_insert_eq in Hc by (rewrite Hlen; exact Hx). by injection Hc as <-.
      * rewrite list_lookup_insert_ne in Hc by done. unfold dsts_at. by rewrite Hc.
    + assert (block_ok (if decide (y ∈ term_successors t') then list_to_set ord ∪ {[ x ]} else list_to_set ord)
        (ord ++ [x]) tin' tout' y c0 c') as Hok'.
      { pose proof Hok as (L & EL & HL). exists L. rewrite Et'. split; [|done]. apply HS; [done|].
        intros s Hs d ops p op Hk Hop. eapply block_phis; [done| |done..]. destruct HL as [(_ & ? & _)|(_ & -> & _)]; eauto. }
      revert Hok'. apply block_ok_ext; [done| |done|done]. intros p Hp. split; [|done]. rewrite list_to_set_app_L.
      destruct (decide (y ∈ term_successors t')) as [|Hd]; [set_solver|]. destruct (decide (p = x)) as [->|]; [|set_solver]. by apply Hsucc in Hp.
Qed.

Lemma visit_spec ord tin tout st bs x : rinv ord tin tout st bs -> x < n -> x ∉ ord ->
  (x = dt_start dt /\ (forall w, tops st w = 0)) \/ (exists p, child p x /\ p ∈ ord /\ forall w, tops st w = tout p w) ->
  exists st1 bs2, search_visit st bs x = Ret (st1, bs2) /\
    rinv (ord ++ [x]) (set_at tin x (tops st)) (set_at tout x (tops st1)) st1 bs2 /\
    pushed st st1 (dsts_at bs2 x) /\ forall y, y <> x -> dsts_at bs2 y = dsts_at bs y.
Proof.
  intros Hinv Hx Hxo Hin.
  destruct (visit_blocks ord tin tout st bs x Hinv Hx Hxo) as (st1 & bs2 & l & E & Hlen2 & Hpu & Hall).
  destruct Hinv as [Hlen _ [Hnd Hr] Htin Hver]. exists st1, bs2. split; [done|].
  assert (dsts_at bs2 x = dsts l) as Edx.
  { destruct (Hall x Hx) as (c0 & c' & _ & Hc' & Ed & _). unfold dsts_at. by rewrite Hc', Ed, decide_True. }
  assert (forall y, y <> x -> dsts_at bs2 y = dsts_at bs y) as Edy.
  { intros y Hy. destruct (decide (y < n)) as [Hyn|Hyn].
    - destruct (Hall y Hyn) as (c0 & c' & _ & Hc' & Ed & _). unfold dsts_at at 1. by rewrite Hc', Ed, decide_False.
    - unfold dsts_at. rewrite !(lookup_ge_None_2); [done|lia..]. }
  split; [|split; [by rewrite Edx|done]].
  split.
  - done.
  - intros y c0 Hc0. destruct (Hall y) as (c1 & c' & Hc1 & Hc' & _ & Hok); [by eapply lookup_lt_Some|].
    simplify_eq. eauto.
  - split; [|set_solver]. apply NoDup_app. split_and!; [done|set_solver|apply NoDup_singleton].
  - intros y [Hy|Hy]%elem_of_app.
    + assert (y <> x) by (by intros ->). rewrite set_at_ne by done.
      destruct (Htin y Hy) as [?|(p & Hc & Hp & Ht)]; [by left|right]. exists p. rewrite set_at_ne by (by intros ->).
      split_and!; [done|set_solver|done].
    + apply list_elem_of_singleton in Hy as ->. rewrite set_at_eq.
      destruct Hin as [?|(p & Hc & Hp & Ht)]; [by left|right]. exists p. rewrite set_at_ne by (by intros ->).
      split_and!; [done|set_solver|done].
  - rewrite bind_app. simpl. rewrite app_nil_r, Edx.
    assert (ord ≫= dsts_at bs2 = ord ≫= dsts_at bs) as ->.
    { apply Forall_bind_ext, Forall_forall. intros y Hy. apply Edy. by intros ->. }
    by eapply ver_inv_push.
Qed.
Lemma ren_stmts_vars tau l l' tau' : ren_stmts tau l l' tau' -> map variable (dsts l') = map variable (dsts l).
Proof.
  induction 1 as [|tau s ds l l' tau' Hv Hs _ IH]; [done|]. unfold dsts in *. csimpl. rewrite !map_app, IH, iter_dst_renamed by done.
  by rewrite Hv.
Qed.

Lemma rinv_vars ord tin tout st bs y d : rinv ord tin tout st bs -> d ∈ dsts_at bs y -> variable d ∈ X.
Proof.
  intros [Hlen Hb _ _ _] Hd. unfold dsts_at in Hd. destruct (bs !! y) as [b|] eqn:Ey; [|by apply elem_of_nil in Hd].
  destruct (lookup_lt_is_Some_2 bs0 y) as [b0 Hb0]; [fold n; rewrite <- Hlen; by eapply lookup_lt_Some|].
  destruct (Hb y b0 Hb0) as (b' & Hb' & l1 & E & Hl). simplify_eq. rewrite E, dsts_patch in Hd.
  assert (variable d ∈ map variable (dsts (statements b0))) as (d0 & -> & Hd0)%elem_of_map.
  { assert (map variable (dsts (statements b0)) = map variable (dsts l1)) as ->.
    { destruct Hl as [(_ & Hr & _)|(_ & -> & _)]; [|done]. by rewrite (ren_stmts_vars _ _ _ _ Hr). }
    apply elem_of_map. eauto. }
  apply list_elem_of_bind in Hd0 as (s & Hd0 & Hs). destruct (Hvars y b0 s Hb0 Hs) as [[_ Hdst] _]. auto.
Qed.

Lemma child_par a b : child a b -> par dt a b.
Proof. by intros [? _]. Qed.

(** The subtrees of two children do not meet, and do not hold the parent. *)
Lemma child_not_anc x c : child x c -> ~ rtc child c x.
Proof.
  intros [Hp Hs] H. apply (rtc_subrel _ _ _ _ child_par) in H.
  assert (c = x) as -> by (apply (anc_antisym bs0 dt Htree); [done|by apply rtc_once]).
  apply (t_num _ _ Htree) in Hp as [_ ?]; [lia|done].
Qed.

Lemma children_disjoint x c c' z : child x c -> child x c' -> rtc child c z -> rtc child c' z -> c = c'.
Proof.
  intros Hc Hc' Hz Hz'. destruct (decide (c = c')) as [|Hne]; [done|exfalso].
  assert (forall a b, child x a -> child x b -> a <> b -> ~ rtc (par dt) a b) as Hno.
  { intros a b [Ha Has] [Hb _] Hab H. apply rtc_inv_r in H as [?|(d & Had & Hdb)]; [done|].
    assert (d = x) as -> by (unfold par in *; congruence).
    assert (a = x) as -> by (apply (anc_antisym bs0 dt Htree); [done|by apply rtc_once]).
    apply (t_num _ _ Htree) in Ha as [_ ?]; [lia|done]. }
  apply (rtc_subrel _ _ _ _ child_par) in Hz, Hz'.
  destruct (anc_comparable dt z c Hz c' Hz') as [H|H]; [by apply (Hno c c')|by apply (Hno c' c)].
Qed.
(** What renaming a set [D] of further blocks keeps of a state. *)
Definition search_kept (ord ord' : list nat) (tin tin' tout tout' : nat -> vers) (st st' : SsaRename) (bs bs' : BasicBlocks)
  (D : nat -> Prop) : Prop :=
  ord `prefix_of` ord' /\ (forall z, z ∈ ord' <-> z ∈ ord \/ D z) /\ (forall v, rn_s st' !! v = rn_s st !! v) /\
  forall y, y ∈ ord -> tin' y = tin y /\ tout' y = tout y /\ dsts_at bs' y = dsts_at bs y.

Lemma tops_stacks st st' : (forall v, rn_s st' !! v = rn_s st !! v) -> forall w, tops st' w = tops st w.
Proof. intros H w. unfold tops. by rewrite H. Qed.

(** The recursive calls on the children of [x], given that each call is right. *)
Lemma search_children fuel ord tin tout st bs x zs :
  (forall ord tin tout st bs x, rinv ord tin tout st bs -> x < n -> (forall z, rtc child x z -> z ∉ ord) ->
    (exists p, child p x /\ p ∈ ord /\ forall w, tops st w = tout p w) -> n < fuel + length ord ->
    exists ord' tin' tout' st' bs', search fuel dt st bs x = Ret (st', bs') /\ rinv ord' tin' tout' st' bs' /\
      search_kept ord ord' tin tin' tout tout' st st' bs bs' (rtc child x)) ->
  rinv ord tin tout st bs -> x ∈ ord -> (forall z, tc child x z -> z ∉ ord) -> (forall w, tops st w = tout x w) ->
  n < fuel + length ord -> NoDup zs -> (forall z, z ∈ zs <-> child x z) ->
  exists ord' tin' tout' st' bs', foldM (fun '(st, bs) y => search fuel dt st bs y) (st, bs) zs = Ret (st', bs') /\
    rinv ord' tin' tout' st' bs' /\ search_kept ord ord' tin tin' tout tout' st st' bs bs' (tc child x).
Proof.
  intros IH Hinv Hx Hsub Htop Hfuel Hnd Hzs.
  destruct (foldM_split (fun '(st, bs) y => search fuel dt st bs y)
    (fun pre '(stk, bsk) => exists ordk tink toutk, rinv ordk tink toutk stk bsk /\
      search_kept ord ordk tin tink tout toutk st stk bs bsk (fun z => exists c, c ∈ pre /\ rtc child c z)) zs (st, bs))
    as ([st' bs'] & E & ord' & tin' & tout' & Hinv' & Hk).
  - exists ord, tin, tout. split; [done|]. split_and!; [done| |done|done]. intros z. set_solver.
  - intros pre c post [stk bsk] Ezs (ordk & tink & toutk & Hinvk & Hpre & Hord & Hst & Hkeep).
    assert (child x c) as Hc by (apply Hzs; rewrite Ezs; set_solver).
    destruct (Hkeep x Hx) as (_ & Hto & _).
    destruct (IH ordk tink toutk stk bsk c Hinvk) as (ord1 & tin1 & tout1 & st1 & bs1 & E1 & Hinv1 & Hpre1 & Hord1 & Hst1 & Hkeep1).
    + apply (par_lt bs0 dt Htree x). by apply child_par.
    + intros z Hz [Hin|(c' & Hc' & Hz')]%Hord; [apply (Hsub z); [by eapply tc_rtc_r; [apply tc_once|]|done]|].
      assert (child x c') as Hcx by (apply Hzs; rewrite Ezs; set_solver).
      assert (c = c') as <- by (by eapply children_disjoint). rewrite Ezs in Hnd. apply NoDup_app in Hnd as (_ & Hnd & _).
      apply (Hnd c Hc'). by left.
    + exists x. split_and!; [done|apply Hord; by left|]. intros w. rewrite Hto, <- Htop. by apply tops_stacks.
    + apply prefix_length in Hpre. lia.
    + exists (st1, bs1). split; [done|]. exists ord1, tin1, tout1. split; [done|]. split_and!.
      * by etrans.
      * intros z. rewrite Hord1, Hord. split.
        -- intros [[?|(c' & ? & ?)]|?]; [by left|right; exists c'; split; [set_solver|done]|right; exists c; split; [set_solver|done]].
        -- intros [?|(c' & [?| ->%list_elem_of_singleton]%elem_of_app & ?)]; eauto.
      * intros v. by rewrite Hst1.
      * intros y Hy. destruct (Hkeep y Hy) as (<- & <- & <-). apply Hkeep1, Hord. by left.
  - exists ord', tin', tout', st', bs'. split_and!; [done|done|]. destruct Hk as (? & Hord & ? & ?). split_and!; [done| |done|done].
    intros z. rewrite Hord. assert (tc child x z <-> exists c, c ∈ zs /\ rtc child c z) as ->; [|done]. split.
    + intros Ht. inversion Ht as [? ? Hxz|? c ? Hxc Hcz]; subst; [exists z; split; [by apply Hzs|done]|].
      exists c. split; [by apply Hzs|by apply tc_rtc].
    + intros (c & Hc%Hzs & Hz). eapply tc_rtc_r; [by apply tc_once|done].
Qed.
Definition entry_ok (ord : list nat) (tout : nat -> vers) (st : SsaRename) (x : nat) : Prop :=
  (x = dt_start dt /\ (forall w, tops st w = 0)) \/ (exists p, child p x /\ p ∈ ord /\ forall w, tops st w = tout p w).

Lemma search_spec fuel : forall ord tin tout st bs x, rinv ord tin tout st bs -> x < n ->
  (forall z, rtc child x z -> z ∉ ord) -> entry_ok ord tout st x -> n < fuel + length ord ->
  exists ord' tin' tout' st' bs', search fuel dt st bs x = Ret (st', bs') /\ rinv ord' tin' tout' st' bs' /\
    search_kept ord ord' tin tin' tout tout' st st' bs bs' (rtc child x).
Proof.
  induction fuel as [|fuel IH]; intros ord tin tout st bs x Hinv Hx Hsub Hentry Hfuel.
  { exfalso. destruct (ri_ord _ _ _ _ _ Hinv) as [Hnd Hr]. assert (length ord <= length (seq 0 n)); [|rewrite length_seq in *; lia].
    apply submseteq_length, NoDup_submseteq; [done|]. intros y Hy%Hr. apply elem_of_seq. lia. }
  assert (x ∉ ord) as Hxo by (by apply Hsub).
  destruct (visit_spec ord tin tout st bs x Hinv Hx Hxo Hentry) as (st1 & bs2 & E1 & Hinv1 & Hpu & Hd).
  destruct (dt_successors_spec bs0 dt Htree x Hx) as (zs & Ezs & Hnd & Hzs).
  destruct (search_children fuel (ord ++ [x]) (set_at tin x (tops st)) (set_at tout x (tops st1)) st1 bs2 x zs)
    as (ord' & tin' & tout' & st2 & bs3 & E2 & Hinv2 & Hpre & Hord & Hst & Hkeep).
  - intros o ti to s b y Hi Hy Hs He Hf. apply IH; [done..|by right|done].
  - done.
  - set_solver.
  - intros z Hz [Hin|Hin]%elem_of_app; [by apply (Hsub z); [apply tc_rtc|]|]. apply list_elem_of_singleton in Hin as ->.
    inversion Hz as [? ? H|? c ? H Hc]; subst; [by apply (child_not_anc x x H)|]. by apply (child_not_anc x c H), tc_rtc.
  - intros w. by rewrite set_at_eq.
  - rewrite length_app. simpl. lia.
  - done.
  - done.
  - destruct (Hkeep x) as (_ & _ & Hdx); [set_solver|].
    destruct (pops_restore st st1 st2 (dsts_at bs2 x) Hpu Hst) as (st3 & E3 & Ec3 & Es3).
    { intros d Hdin. assert (variable d ∈ X) as Hv by (by eapply rinv_vars; [exact Hinv1|]).
      destruct (vi_ok _ _ _ (ri_ver _ _ _ _ _ Hinv) _ Hv) as (i & l & c & -> & _). done. }
    assert (exists b, bs3 !! x = Some b) as [b Hb].
    { apply lookup_lt_is_Some_2. by rewrite (ri_len _ _ _ _ _ Hinv2). }
    exists ord', tin', tout', st3, bs3. split; [|split].
    + cbn [search]. rewrite E1. cbn [mbind outcome_bind]. rewrite Ezs. cbn [mbind outcome_bind]. rewrite E2.
      cbn [mbind outcome_bind]. unfold iv_index. rewrite Hb. cbn [unwrap mbind outcome_bind].
      assert (block_dst_vars b = dsts_at bs2 x) as -> by (rewrite <- Hdx; unfold dsts_at; by rewrite Hb). by rewrite E3.
    + destruct Hinv2 as [Hl2 Hb2 Ho2 Ht2 Hv2]. split; [done..|].
      apply (ver_inv_pop X st (ord ≫= dsts_at bs) st2); [apply Hinv|done| |done|done].
      intros d (y & Hdy & Hy)%list_elem_of_bind. apply list_elem_of_bind. exists y.
      destruct (Hkeep y) as (_ & _ & ->); [set_solver|]. rewrite Hd by (by intros ->). split; [done|]. apply Hord. set_solver.
    + split_and!.
      * etrans; [|exact Hpre]. by apply prefix_app_r.
      * intros z. rewrite Hord, elem_of_app, list_elem_of_singleton. split.
        -- intros [[?| ->]|?]; [by left|by right|right; by apply tc_rtc].
        -- intros [?|Hz]; [by left; left|]. apply rtc_tc in Hz as [<-|?]; auto.
      * done.
      * intros y Hy. assert (y <> x) by (by intros ->). destruct (Hkeep y) as (-> & -> & ->); [set_solver|].
        rewrite !set_at_ne by done. auto.
Qed.
End search.

(** ** The renamed program *)

(** [X] has every variable whose stack renaming looks up. *)
Definition covers (X : gset Var) (bs : BasicBlocks) : Prop := forall y b, bs !! y = Some b ->
  (forall s, s ∈ statements b -> stmt_vars_in X s /\ phi_vars_in X s) /\
  forall t u, terminator b = Some t -> u ∈ term_iter_src_var t -> not_global u -> variable u ∈ X.

(** The operands of the phis come from predecessors. *)
Definition phis_wf (bs : BasicBlocks) : Prop := forall y b s d ops p op,
  bs !! y = Some b -> s ∈ statements b -> kind s = Phi d ops -> (p, op) ∈ ops -> edge (successors bs) p y.

(** [bs'] is [bs] with versions: [tin y] and [tout y] are the versions current at the start and
    at the end of block [y]. *)
Record renamed (bs : BasicBlocks) (dt : DominatorTree) (bs' : BasicBlocks) (tin tout : nat -> vers) : Prop := {
  rd_len : length bs' = length bs;
  rd_blocks : forall y b, bs !! y = Some b -> exists b' l, bs' !! y = Some b' /\
    ren_stmts (tin y) (statements b) l (tout y) /\
    statements b' = map (patch_stmt (list_to_set (seq 0 (length bs))) tout) l /\
    terminator b' = term_map_src_var (rename_ref not_global (tout y)) <$> terminator b;
  rd_start : forall w, tin (dt_start dt) w = 0;
  rd_tree : forall p y, par dt p y -> y <> dt_start dt -> forall w, tin y w = tout p w;
  rd_single : NoDup (bs' ≫= block_dst_vars);
  rd_pos : forall d, d ∈ bs' ≫= block_dst_vars -> exists i, version d = Some i /\ 1 <= i;
}.

Lemma all_children (bs : BasicBlocks) dt : tree_wf bs dt -> forall y, y < length bs -> rtc (child dt) (dt_start dt) y.
Proof.
  intros Ht y. remember (dfnum_of dt y) as k eqn:Ek. revert y Ek. induction (lt_wf k) as [k _ IH]; intros y -> Hy.
  destruct (decide (y = dt_start dt)) as [->|Hne]; [done|]. destruct (par_total bs dt Ht y Hy) as [a Ha].
  destruct (t_num _ _ Ht a y Ha Hne) as [Han Hlt]. eapply rtc_r; [by eapply IH|]. done.
Qed.

Lemma defs_by_order (bs : BasicBlocks) ord : NoDup ord -> (forall y, y ∈ ord <-> y < length bs) ->
  ord ≫= dsts_at bs ≡ₚ bs ≫= block_dst_vars.
Proof.
  intros Hnd Ho. assert (ord ≡ₚ seq 0 (length bs)) as ->.
  { apply NoDup_Permutation; [done|apply NoDup_seq|]. intros y. rewrite Ho, elem_of_seq. lia. }
  assert (seq 0 (length bs) ≫= dsts_at bs = bs ≫= block_dst_vars) as ->; [|done].
  clear. induction bs as [|b bs IH] using rev_ind; [done|]. rewrite length_app, seq_app, !bind_app. simpl.
  f_equal; [rewrite <- IH|].
  - apply Forall_bind_ext, Forall_forall. intros y [_ Hy]%elem_of_seq. unfold dsts_at. by rewrite lookup_app_l.
  - unfold dsts_at. by rewrite list_lookup_middle.
Qed.

Lemma rename_spec (bs : BasicBlocks) dt X fuel : graph_wf bs -> tree_wf bs dt -> dt_start dt = start_node bs ->
  covers X bs -> phis_wf bs -> length bs < fuel ->
  exists bs' tin tout, SsaRename_new fuel bs X dt = Ret bs' /\ renamed bs dt bs' tin tout.
Proof.
  intros Hwf Ht Hs Hc Hp Hf. unfold SsaRename_new. rewrite <- Hs.
  set (st := mk_rename _ _). pose proof (t_start _ _ Ht) as Hstart.
  destruct (search_spec bs dt X Hwf Ht) with fuel (@nil nat) (fun (_ : nat) (_ : Var) => 0) (fun (_ : nat) (_ : Var) => 0) st bs (dt_start dt)
    as (ord & tin & tout & st' & bs' & -> & [Hlen Hb [Hnd Hr] Htin Hv] & _ & Hord & _ & _).
  - intros y b s Hy Hin. by apply (Hc y b Hy).
  - intros y b t u Hy. by apply (Hc y b Hy).
  - exact Hp.
  - split; [done| | | |].
    + intros y b Hy. exists b. split; [done|]. exists (statements b). split.
      * symmetry. erewrite map_ext_in; [by rewrite map_id|]. intros s _. apply patch_stmt_empty.
      * right. set_solver.
    + split; [constructor|set_solver].
    + set_solver.
    + simpl. assert (forall v l, rn_s st !! v = Some l -> l = [0]) as Hst.
      { intros v l (w & Hw & [= -> ->])%lookup_set_to_map; [done|]. done. }
      split; [|constructor|set_solver| |].
      * intros v Hvin. exists 0, [], 1. split; simpl; apply lookup_set_to_map; try done; by exists v.
      * intros v l i ->%Hst. set_solver.
      * intros v c (w & Hw & [= -> <-])%lookup_set_to_map; [lia|]. done.
  - done.
  - set_solver.
  - left. split; [done|]. intros w. unfold tops. destruct (rn_s st !! w) as [l|] eqn:E; [|done].
    apply lookup_set_to_map in E as (v & _ & [= -> <-]); done.
  - simpl. lia.
  - assert (forall y, y ∈ ord <-> y < length bs) as Ho.
    { intros y. rewrite Hord. split; [intros Hy; apply Hr, Hord; done|]. intros Hy. right. by eapply all_children. }
    exists bs', tin, tout. split; [done|].
    pose proof (defs_by_order bs' ord Hnd ltac:(by rewrite Hlen)) as Hperm. split; [done| | | | |].
    + intros y b Hy. destruct (Hb y b Hy) as (b' & Hb' & l & El & [(_ & Hren & Et)|(Hno & _)]).
      * exists b', l. split_and!; [done..| |done]. rewrite El. f_equal. f_equal. apply set_eq. intros p.
        rewrite !elem_of_list_to_set, Ho, elem_of_seq. lia.
      * destruct Hno. apply Ho. by eapply lookup_lt_Some.
    + destruct (Htin (dt_start dt)) as [[_ ?]|(p & [_ ?] & _)]; [by apply Ho|done|done].
    + intros p y Hpy Hy w. destruct (Htin y) as [[? _]|(q & [Hq _] & _ & Hqw)]; [apply Ho; by apply (par_lt bs dt Ht p)|done|].
      unfold par in *. congruence.
    + rewrite <- Hperm. apply Hv.
    + intros d. rewrite <- Hperm. intros Hd. destruct (vi_range _ _ _ Hv d Hd) as (i & c & ? & ? & _). eauto.
Qed.

(** Every use but a phi's names a version. *)
Definition is_phi (k : StatementKind) : bool := match k with Phi _ _ => true | _ => false end.

Definition uses_versioned (b : BasicBlockData) : Prop :=
  (forall s u, s ∈ statements b -> is_phi (kind s) = false -> u ∈ iter_src_var (kind s) -> not_global u -> is_Some (version u)) /\
  (forall t u, terminator b = Some t -> u ∈ term_iter_src_var t -> not_global u -> is_Some (version u)).

Lemma iter_src_set k ds : iter_src_var (set_dst_vars k ds) = iter_src_var k.
Proof.
  destruct k as [dest srcs| | |], ds; simpl; try done. destruct (is_pathless dest) eqn:E; simpl; rewrite ?is_pathless_set_base, E; done.
Qed.

Lemma is_phi_set k ds : is_phi (set_dst_vars k ds) = is_phi k.
Proof. destruct k as [dest srcs| | |], ds; simpl; try done. by destruct (is_pathless dest). Qed.

Lemma is_phi_ren tau k : is_phi (ren_srcs tau k) = is_phi k.
Proof. by destruct k. Qed.

Lemma iter_src_ren tau k : is_phi k = false -> iter_src_var (ren_srcs tau k) = map (rename_ref renamable tau) (iter_src_var k).
Proof. intros H. rewrite <- iter_src_var_map. by destruct k. Qed.

Lemma rename_ref_variable P `{!forall v, Decision (P v)} tau u : variable (rename_ref P tau u) = variable u.
Proof. unfold rename_ref. by case_decide. Qed.

Lemma rename_ref_versioned tau u : not_global u -> is_Some (version (rename_ref renamable tau u)).
Proof.
  intros Hg. unfold rename_ref. destruct (decide (renamable u)) as [|Hn]; [done|]. unfold renamable in Hn.
  destruct (version u) eqn:E; [done|]. by destruct Hn.
Qed.

Lemma ren_stmts_versioned tau l l' tau' : ren_stmts tau l l' tau' -> forall s u, s ∈ l' -> is_phi (kind s) = false ->
  u ∈ iter_src_var (kind s) -> not_global u -> is_Some (version u).
Proof.
  induction 1 as [|tau s ds l l' tau' Hv Hs _ IH]; intros s' u Hin Hk Hu Hg; [by apply elem_of_nil in Hin|].
  apply elem_of_cons in Hin as [->|Hin]; [|by eapply IH]. simpl in *. rewrite is_phi_set, is_phi_ren in Hk.
  rewrite iter_src_set, iter_src_ren in Hu by done. apply elem_of_map in Hu as (u0 & -> & Hu0).
  apply rename_ref_versioned. unfold not_global in *. by rewrite rename_ref_variable in Hg.
Qed.

Lemma term_iter_src_map f t : term_iter_src_var (term_map_src_var f t) = map f (term_iter_src_var t).
Proof.
  unfold term_iter_src_var, term_map_src_var. destruct (term_kind t) eqn:E; simpl; [|by rewrite E]. apply omap_base_variable_map.
Qed.

Lemma renamed_versioned bs dt bs' tin tout y b' : renamed bs dt bs' tin tout -> bs' !! y = Some b' -> uses_versioned b'.
Proof.
  intros [Hlen Hb _ _ _ _] Hy. destruct (lookup_lt_is_Some_2 bs y) as [b Hb0]; [rewrite <- Hlen; by eapply lookup_lt_Some|].
  destruct (Hb y b Hb0) as (b1 & l & Hb1 & Hr & El & Et). simplify_eq. split.
  - intros s u Hs Hk Hu Hg. rewrite El in Hs. apply elem_of_map in Hs as (s0 & -> & Hs0).
    assert (patch_kind (list_to_set (seq 0 (length bs))) tout (kind s0) = kind s0) as E.
    { unfold patch_stmt in Hk. simpl in Hk. by destruct (kind s0). }
    unfold patch_stmt in Hk, Hu. simpl in Hk, Hu. rewrite E in Hk, Hu. by eapply ren_stmts_versioned.
  - intros t u Ht Hu Hg. rewrite Et in Ht. destruct (terminator b) as [t0|]; [|done]. injection Ht as <-.
    rewrite term_iter_src_map in Hu. apply elem_of_map in Hu as (u0 & -> & _). unfold not_global in *. rewrite rename_ref_variable in Hg.
    unfold rename_ref. by rewrite decide_True.
Qed.

(** SSA renaming.  Given the blocks with their phis, a table of all their variables and any
    tree over the blocks rooted at the start block, [SsaRename::new] returns.  There are versions
    [tin y] and [tout y] for the start and the end of every block such that every statement and
    terminator of the block uses the current versions and every definition changes its own, the
    start block begins with version 0 of everything, every other block begins with the versions
    its tree parent ends with, and the operand of a phi that comes from [p] has the version that
    [p] ends with.  No two definitions of the program have the same variable and version, none
    has version 0, and every use outside the phis names a version unless it is of a global. *)
Theorem rename_correct (bs : BasicBlocks) (dt : DominatorTree) (X : gset Var) (fuel : nat) :
  graph_wf bs -> tree_wf bs dt -> dt_start dt = start_node bs -> covers X bs -> phis_wf bs -> length bs < fuel ->
  exists bs' tin tout, SsaRename_new fuel bs X dt = Ret bs' /\ renamed bs dt bs' tin tout /\
    forall y b', bs' !! y = Some b' -> uses_versioned b'.
Proof.
  intros Hwf Ht Hs Hc Hp Hf. destruct (rename_spec bs dt X fuel Hwf Ht Hs Hc Hp Hf) as (bs' & tin & tout & E & Hr).
  exists bs', tin, tout. split_and!; [done..|]. intros y b'. by eapply renamed_versioned.
Qed.

(** The diamond with its phi: the branches define versions 1 and 2 of [l0], the phi version 3. *)
Definition rename_example : BasicBlocks :=
  let l0 := new_local_idx 0 in
  let set0 := new_kind (Assign (ap_of_var l0) [Exp_Int 1]) in
  let goto l b := {| statements := l; terminator := Some (term_new_kind (Goto b)) |} in
  [goto [] [1; 2]; goto [set0] [3]; goto [set0] [3];
   {| statements := [new_kind (Phi l0 [(1, l0); (2, l0)])]; terminator := Some (term_new_kind (Return [Exp_variable l0])) |}].

Lemma rename_correct_witness : exists bs', SsaRename_new 9 rename_example {[ Variable_Local 0 ]} diamond_tree = Ret bs' /\
  NoDup (bs' ≫= block_dst_vars) /\ forall b', bs' !! 3 = Some b' -> uses_versioned b'.
Proof.
  destruct (rename_correct rename_example diamond_tree {[ Variable_Local 0 ]} 9) as (bs' & tin & tout & E & Hr & Hu).
  - by_decide.
  - split; [done|by_decide|done|]. intros a b [-> Hb]%diamond_par Hne. split; [by_decide|].
    do 4 (destruct b as [|b]; [first [done | by_decide]|]). lia.
  - done.
  - intros [|[|[|[|y]]]] b; simpl; intros [= <-]; (split; [|intros t u [= <-]; simpl; set_solver]); simpl; intros s Hs;
      repeat (apply elem_of_cons in Hs as [->|Hs]); try (by apply elem_of_nil in Hs);
      (split; [split; simpl; set_solver|intros d ops p op; simpl; set_solver]).
  - intros [|[|[|[|y]]]] b s d ops p op; simpl; intros [= <-] Hs Hk Hin; simpl in Hs;
      repeat (apply elem_of_cons in Hs as [->|Hs]); try (by apply elem_of_nil in Hs); simplify_eq/=.
    apply edge_block. apply elem_of_cons in Hin as [[= -> ->]|Hin]; [|apply list_elem_of_singleton in Hin as [= -> ->]];
      simpl; do 2 eexists; (split; [reflexivity|]); (split; [reflexivity|]); simpl; set_solver.
  - simpl. lia.
  - exists bs'. split; [exact E|]. split; [apply Hr|]. intros b' Hb'. by apply (Hu 3).
Defined.
