(* ===== verification/Reaching.v ===== *)
(** * Reaching: where phis make the versions meet

    Why pruned SSA with phis at the iterated dominance frontier is right: at an edge of the graph
    into a block without a phi for a live variable, the version at the end of the edge's source
    is the version at the start of its target.  The tree over the blocks need not be made of
    immediate dominators, only of dominators: that is all [DominatorTree::new] may be trusted for
    (see [Dominators.dominator_tree_not_immediate]). *)

From S2P Require Import Prelude Index Text Path IR Graph Dominators Coalesce Cfg PhiPlace Rename.

(** ** Paths *)

Lemma is_path_prefix {S} (succ : S -> outcome (list S)) l l' : is_path succ (l ++ l') -> is_path succ l.
Proof.
  intros H i x y Hx Hy. apply (H i x y); rewrite lookup_app_l; try done; by eapply lookup_lt_Some.
Qed.

Lemma is_path_edge {S} (succ : S -> outcome (list S)) l x y l' : is_path succ (l ++ x :: y :: l') -> edge succ x y.
Proof.
  intros H. apply (H (length l) x y); [by rewrite list_lookup_middle|].
  rewrite lookup_app_r, Nat.sub_succ_l, Nat.sub_diag by lia. done.
Qed.

(** Ancestors of a node dominate it, when parents do. *)
Lemma ancestors_dominate `{Successors G} `{!StartNode G} (g : G) (R : nat -> nat -> Prop) z y :
  (forall a y, R a y -> dominates g a y) -> rtc R z y -> dominates g z y.
Proof.
  intros Hd Hr. induction Hr as [z|z a y Hza Hay IH]; intros l Hh Hl Hp.
  - by apply list_elem_of_lookup; exists (Nat.pred (length l)); rewrite <- last_lookup.
  - pose proof (IH l Hh Hl Hp) as Ha. apply list_elem_of_split in Ha as (l1 & l2 & ->).
    assert (z ∈ l1 ++ [a]) as Hz; [|set_solver]. apply (Hd z a Hza); [|by rewrite last_snoc|].
    + by destruct l1.
    + apply (is_path_prefix _ _ l2). by rewrite <- app_assoc.
Qed.

Section reaching.
Context (bs : BasicBlocks) (dt : DominatorTree).
Hypothesis Hwf : graph_wf bs.
Hypothesis Htree : tree_wf bs dt.
Hypothesis Hroot : dt_start dt = start_node bs.
(** The parent of a block dominates it, and no edge leads back to the start block. *)
Hypothesis Hdom : forall a y, par dt a y -> dominates bs a y.
Hypothesis Hentry : forall x, ~ edge (successors bs) x (start_node bs).

Notation anc := (rtc (child dt)).

Lemma anc_dec a x : x < length bs -> anc a x \/ ~ anc a x.
Proof.
  remember (dfnum_of dt x) as k eqn:Ek. revert x Ek. induction (lt_wf k) as [k _ IH]; intros x -> Hx.
  destruct (decide (a = x)) as [->|Hne]; [by left|].
  destruct (decide (x = dt_start dt)) as [->|Hs].
  { right. intros Ha. apply rtc_inv_r in Ha as [?|(w & _ & [_ ?])]; done. }
  destruct (par_total bs dt Htree x Hx) as [p Hp]. destruct (t_num _ _ Htree p x Hp Hs) as [Hpn Hlt].
  destruct (IH (dfnum_of dt p) Hlt p eq_refl Hpn) as [Ha|Ha].
  - left. eapply rtc_r; [done|]. done.
  - right. intros H. apply rtc_inv_r in H as [?|(w & Haw & [Hw _])]; [done|].
    unfold par in Hw, Hp. rewrite Hp in Hw. by simplify_eq.
Qed.

Lemma anc_irrefl a b : child dt a b -> ~ anc b a.
Proof. apply (child_not_anc bs dt Htree). Qed.

(** ** Where a definition calls for a phi *)

Context (mode : PhiMode) (Ps : nat -> list Var) (v : Var).
Hypothesis HPs : forall y, v ∈ Ps y <-> idf (df_rec bs dt) (assigns bs v) y /\
  (mode = Minimal \/ live_at bs (assigns bs v) (upward bs v) y).

Notation live := (live_at bs (assigns bs v) (upward bs v)).

(** Block [z] defines [v], by an assignment or by a phi. *)
Definition hasdef (z : nat) : Prop := assigns bs v z \/ v ∈ Ps z.

Lemma df_rec_chain z p y a : p < length bs -> edge (successors bs) p y -> par dt a y -> anc z p ->
  (forall w, anc z w -> anc w p -> w <> a) -> df_rec bs dt z y.
Proof.
  intros Hp He Ha Hzp. induction Hzp as [p|z z1 p Hz Hz1 IH]; intros Hw.
  - eapply df_local; [done..|]. intros E. by apply (Hw p).
  - eapply df_up; [apply Hz|apply Hz| |done|].
    + apply IH; [done..|]. intros w ? ?. apply Hw; [by eapply rtc_l|done].
    + intros E. apply (Hw z); [done|by eapply rtc_l|done].
Qed.

Lemma phi_needed z p y a : p < length bs -> edge (successors bs) p y -> par dt a y -> anc z p ->
  (forall w, anc z w -> anc w p -> w <> a) -> hasdef z -> live y -> v ∈ Ps y.
Proof.
  intros Hp He Ha Hzp Hw Hd Hl. assert (df_rec bs dt z y) as Hz by (by eapply df_rec_chain).
  apply HPs. split; [|by right]. destruct Hd as [Hd|[Hd _]%HPs]; [by eapply idf_def|by eapply idf_step].
Qed.

Lemma edge_range x y : edge (successors bs) x y -> x < length bs /\ y < length bs.
Proof.
  intros (b & t & Hb & Et & Hy)%edge_block. split; [by eapply lookup_lt_Some|].
  destruct (proj1 (graph_wf_blocks bs) Hwf x b Hb) as (t' & Et' & Hlt). apply Hlt. congruence.
Qed.

Lemma edge_parent x y : edge (successors bs) x y -> exists a, child dt a y.
Proof.
  intros He. destruct (edge_range x y He) as [_ Hy]. destruct (par_total bs dt Htree y Hy) as [a Ha]. exists a. split; [done|].
  rewrite Hroot. intros ->. by apply (Hentry x).
Qed.

(** Along an edge into a live block, a definition above the source is a definition above the target. *)
Lemma chain_edge z x y : edge (successors bs) x y -> live y -> anc z x -> hasdef z ->
  exists z', anc z' y /\ hasdef z'.
Proof.
  intros He Hl Hzx Hz. destruct (edge_range x y He) as [Hx Hy]. destruct (anc_dec z y Hy) as [|Hn]; [eauto|].
  exists y. split; [done|]. right. destruct (edge_parent x y He) as (a & Hay).
  eapply (phi_needed z x y a); [done..|apply Hay|done| |done|done].
  intros w Hzw _ ->. apply Hn. by eapply rtc_r.
Qed.

(** On a path whose end leads to a live block, a definition leaves one above the end. *)
Lemma chain_path l : forall x y z, is_path (successors bs) (l ++ [x]) -> edge (successors bs) x y -> live y ->
  z ∈ l ++ [x] -> hasdef z -> exists z', anc z' x /\ hasdef z'.
Proof.
  induction l as [|w l IH] using rev_ind; intros x y z Hp He Hl Hz Hd.
  - apply list_elem_of_singleton in Hz as ->. exists x. eauto using rtc_refl.
  - apply elem_of_app in Hz as [Hz|Hz]; [|apply list_elem_of_singleton in Hz as ->; exists x; eauto using rtc_refl].
    rewrite <- app_assoc in Hp. pose proof (is_path_edge _ _ _ _ _ Hp) as Hwx.
    destruct (edge_range x y He) as [Hx _].
    destruct (decide (v ∈ map variable (dsts (default [] (statements <$> bs !! x))))) as [Ha|Ha].
    { exists x. split; [done|]. left. apply elem_of_map in Ha as (d & -> & Hin). destruct (lookup_lt_is_Some_2 bs x Hx) as [b Hb].
      rewrite Hb in Hin. apply list_elem_of_bind in Hin as (s & Hin & Hs). exists b. split; [done|]. exists s, d. done. }
    assert (live x) as Hlx.
    { eapply live_back; [exact He|done|]. intros (b & Hb & s & d & Hs & Hin & Hdv). apply Ha. rewrite Hb. simpl.
      apply elem_of_map. exists d. split; [done|]. apply list_elem_of_bind. eauto. }
    destruct (IH w x z) as (z' & Hz' & Hd'); [|done|done|done|done|].
    { eapply (is_path_prefix _ _ [x]). by rewrite <- app_assoc. }
    by eapply chain_edge.
Qed.

(** ** Versions *)

Context (tin tout : nat -> vers).
Hypothesis Htin0 : tin (dt_start dt) v = 0.
Hypothesis Htin : forall p y, par dt p y -> y <> dt_start dt -> tin y v = tout p v.
Hypothesis Htout : forall y, y < length bs -> ~ hasdef y -> tout y v = tin y v.

Lemma child_range a b : child dt a b -> a < length bs /\ b < length bs.
Proof. intros [Hp _]. by apply (par_lt bs dt Htree). Qed.

Lemma tout_between a x : anc a x -> (forall z, tc (child dt) a z -> anc z x -> ~ hasdef z) -> tout x v = tout a v.
Proof.
  revert x. apply (rtc_ind_r (fun x => (forall z, tc (child dt) a z -> anc z x -> ~ hasdef z) -> tout x v = tout a v)); [done|].
  intros w x Haw Hwx IH Hno.
  rewrite Htout; [|by apply (child_range w)|apply Hno; [by eapply tc_rtc_l; [|apply tc_once]|done]].
  rewrite (Htin w x) by apply Hwx. apply IH. intros z Hz Hzw. apply Hno; [done|by eapply rtc_r].
Qed.

Lemma tout_incoming x : x < length bs -> (forall z, anc z x -> ~ hasdef z) -> tout x v = 0.
Proof.
  intros Hx Hno. pose proof (all_children bs dt Htree x Hx) as Hs.
  rewrite (tout_between (dt_start dt) x Hs); [|intros z _ Hz; by apply Hno].
  rewrite Htout; [done|apply Htree|by apply Hno].
Qed.

Lemma edge_versions l x y : head (l ++ [x]) = Some (start_node bs) -> is_path (successors bs) (l ++ [x]) ->
  edge (successors bs) x y -> live y -> v ∉ Ps y -> tin y v = tout x v.
Proof.
  intros Hh Hp He Hl Hv. destruct (edge_range x y He) as [Hx Hy]. destruct (edge_parent x y He) as (a & Hay).
  rewrite (Htin a y) by apply Hay. symmetry. destruct (anc_dec a x Hx) as [Hax|Hax].
  - apply tout_between; [done|]. intros z Haz Hzx Hz. apply Hv. eapply (phi_needed z x y a); [done..|apply Hay|done| |done|done].
    intros w Hzw _ ->. assert (tc (child dt) a a) as Hc by (by eapply tc_rtc_r).
    inversion Hc as [? ? H|? c ? H Hca]; subst; [by apply (anc_irrefl a a H)|by apply (anc_irrefl a c H), tc_rtc].
  - assert (forall z, anc z x -> ~ hasdef z) as Hno.
    { intros z Hzx Hz. apply Hv. eapply (phi_needed z x y a); [done..|apply Hay|done| |done|done]. by intros w _ Hwx ->. }
    rewrite (tout_incoming x Hx Hno). symmetry. apply tout_incoming; [by apply (child_range a y)|].
    intros z Hza Hz.
    assert (z ∈ (l ++ [x]) ++ [y]) as Hin.
    { eapply (ancestors_dominate bs (child dt) z y); [intros ? ? [? _]; by apply Hdom|by eapply rtc_r| |by rewrite last_snoc|].
      - by destruct l.
      - by eapply is_path_snoc; [|rewrite last_snoc|]. }
    apply elem_of_app in Hin as [Hin|Hin].
    + destruct (chain_path l x y z Hp He Hl Hin Hz) as (z' & Hz' & Hd'). by apply (Hno z').
    + apply list_elem_of_singleton in Hin as ->. by apply (anc_irrefl a y).
Qed.
End reaching.
