(* ===== verification/SsaExec.v ===== *)
(** * SsaExec: programs along a path, and SSA programs along the same path

    A semantics of the statements as general as SSA allows: [interp] says what a statement without
    its versions does to a memory, given the values of the variables it reads, and the values it
    gives to its destinations.  Anything that one of the analyses sees of a statement can be put
    in the memory, so that equal memories mean equal behaviour.  A global is never versioned and
    is not in the environment: it belongs to the memory. *)

From S2P Require Import Prelude Index Text Path IR Graph Dominators Coalesce Cfg PhiPlace Rename.

(** Versions forgotten. *)
Definition erase_ref (u : VariableRef) : VariableRef := VariableRef_new (variable u).
Definition erase_kind (k : StatementKind) : StatementKind :=
  set_dst_vars (map_src_var erase_ref k) (map erase_ref (iter_dst_var k)).
Definition erase_stmt (s : Statement) : Statement := with_kind s (erase_kind (kind s)).
Definition erase_term (t : Terminator) : Terminator := term_map_src_var erase_ref t.

Notation env V := (VariableRef -> V).

Definition upd_env {V} (e : env V) (u : VariableRef) (x : V) : env V := fun w => if decide (w = u) then x else e w.

(** The operand of a phi that comes from [p]. *)
Fixpoint phi_operand (p : nat) (ops : list (nat * VariableRef)) : option VariableRef :=
  match ops with
  | [] => None
  | (q, op) :: ops => if decide (p = q) then Some op else phi_operand p ops
  end.

Section exec.
Context {V M : Type} (interp : Statement -> M -> list V -> M * (nat -> V)).

Definition define_from (k : nat) (r : nat -> V) (e : env V) (ds : list VariableRef) : env V :=
  foldl (fun e '(i, d) => upd_env e d (r i)) e (enum_from k ds).

Definition exec_stmt (st : env V * M) (s : Statement) : env V * M :=
  let '(e, m) := st in
  if is_phi (kind s) then st
  else let '(m, r) := interp (erase_stmt s) m (map e (filter not_global (iter_src_var (kind s)))) in
       (define_from 0 r e (iter_dst_var (kind s)), m).

(** One phi, all of which read the environment [e0] at the end of the predecessor [p]. *)
Definition exec_phi (p : nat) (e0 e : env V) (s : Statement) : env V :=
  match kind s with
  | Phi d ops => match phi_operand p ops with Some op => upd_env e d (e0 op) | None => e end
  | _ => e
  end.

(** Block [y], entered from [pred] if it is not the first. *)
Definition run_block (bs : BasicBlocks) (pred : option nat) (st : env V * M) (y : nat) : env V * M :=
  match bs !! y with
  | None => st
  | Some b =>
      let e := match pred with Some p => foldl (exec_phi p st.1) st.1 (statements b) | None => st.1 end in
      foldl exec_stmt (e, st.2) (statements b)
  end.

Fixpoint run_path (bs : BasicBlocks) (pred : option nat) (st : env V * M) (l : list nat) : env V * M :=
  match l with
  | [] => st
  | y :: l => run_path bs (Some y) (run_block bs pred st y) l
  end.

(** What the terminator of [y] sees: itself without versions, and the values it reads. *)
Definition exit_view (bs : BasicBlocks) (e : env V) (y : nat) : option (Terminator * list V) :=
  b ← bs !! y; t ← terminator b; Some (erase_term t, map e (filter not_global (term_iter_src_var t))).

(** ** Renamed statements do what the statements do *)

(** [e'] has at the current versions the values that [e] has of the variables of [G]. *)
Definition sim (tau : vers) (G : Var -> Prop) (e e' : env V) : Prop :=
  forall v, G v -> e' {| variable := v; version := Some (tau v) |} = e (VariableRef_new v).

Lemma sim_ext tau tau' (G G' : Var -> Prop) e e' : (forall v, tau v = tau' v) -> (forall v, G' v -> G v) -> sim tau G e e' -> sim tau' G' e e'.
Proof. intros Et HG H v Hv. rewrite <- Et. auto. Qed.

Lemma define_sim r ds : forall k ds' tau G e e', map variable ds' = map variable ds ->
  Forall (fun d => is_Some (version d)) ds' -> Forall (fun d => version d = None) ds -> sim tau G e e' ->
  sim (def_vers tau ds') (fun v => G v \/ v ∈ map variable ds) (define_from k r e ds) (define_from k r e' ds').
Proof.
  induction ds as [|d ds IH]; intros k [|d' ds'] tau G e e' Ev Hs Hn Hsim; simplify_eq/=; [unfold define_from; simpl; intros v [?|?]; [auto|set_solver]|].
  apply Forall_cons in Hs as [[i Hi] Hs], Hn as [Hd Hn]. unfold define_from. cbn [enum_from foldl]. fold (define_from (S k) r).
  eapply sim_ext; [done| |apply (IH (S k) ds' (upd_ver tau (variable d') (default 0 (version d'))) (fun v => G v \/ v = variable d))]; [|done|done|done|].
  - intros v [?|[->|?]%elem_of_cons]; auto.
  - intros v Hv. rewrite Hi. simpl. unfold upd_env, upd_ver. assert (d' = {| variable := variable d; version := Some i |}) as Ed'.
    { destruct d'; simpl in *; congruence. } assert (d = VariableRef_new (variable d)) as Ed by (destruct d; simpl in *; unfold VariableRef_new; congruence).
    destruct (decide (v = variable d)) as [->|Hne].
    + rewrite (decide_True (P := variable d = variable d')) by done. by rewrite !decide_True by congruence.
    + rewrite (decide_False (P := v = variable d')) by congruence. rewrite decide_False by congruence.
      rewrite (decide_False (P := VariableRef_new v = d)) by (by intros <-). apply Hsim. by destruct Hv.
Qed.

(** A statement before SSA: not a phi, and no reference has a version. *)
Definition plain_stmt (s : Statement) : Prop :=
  is_phi (kind s) = false /\ Forall (fun u => version u = None) (iter_src_var (kind s) ++ iter_dst_var (kind s)).

Lemma erase_ref_plain u : version u = None -> erase_ref u = u.
Proof. destruct u; simpl. by intros ->. Qed.

Lemma set_dst_same k : set_dst_vars k (iter_dst_var k) = k.
Proof. destruct k as [dest srcs|style rets args| |]; simpl; [|by destruct rets|done|done]. destruct (is_pathless dest) eqn:E; simpl; rewrite ?E; [|done]. by destruct dest. Qed.

Lemma erase_plain s : plain_stmt s -> erase_stmt s = s.
Proof.
  intros [_ H]. apply Forall_app in H as [Hs Hd]. unfold erase_stmt, erase_kind.
  rewrite map_src_var_fixed by (eapply Forall_impl; [exact Hs|]; intros u; apply erase_ref_plain).
  assert (map erase_ref (iter_dst_var (kind s)) = iter_dst_var (kind s)) as ->.
  { induction Hd as [|u l Hu _ IH]; simpl; [done|]. by rewrite IH, erase_ref_plain. }
  rewrite set_dst_same. apply with_kind_id.
Qed.

(** Renaming changes nothing but versions. *)
Lemma erase_renamed tau k ds : is_phi k = false -> map variable ds = map variable (iter_dst_var k) ->
  erase_kind (set_dst_vars (ren_srcs tau k) ds) = erase_kind k.
Proof.
  intros Hk Hv. assert (map erase_ref ds = map erase_ref (iter_dst_var k)) as Ed.
  { unfold erase_ref. rewrite <- !(map_map variable VariableRef_new). by rewrite Hv. }
  unfold erase_kind. rewrite iter_dst_renamed by done. rewrite Ed.
  assert (forall f g k, map_src_var f (map_src_var g k) = map_src_var (fun u => f (g u)) k) as Hmm.
  { clear. assert (forall f g e, map_base_variable f (map_base_variable g e) = map_base_variable (fun u => f (g u)) e) as He
      by (by intros f g [[]|[]| | | |]).
    intros f g [d ss|st rs args|d ops|]; simpl; rewrite ?map_map.
    - destruct (is_pathless d) eqn:E; rewrite ?is_pathless_set_base, E; f_equal; apply map_ext; auto.
    - f_equal; [by destruct st|apply map_ext; auto].
    - f_equal. apply map_ext. by intros [].
    - done. }
  assert (map_src_var erase_ref (ren_srcs tau k) = map_src_var erase_ref k) as Es.
  { transitivity (map_src_var erase_ref (map_src_var (rename_ref renamable tau) k)); [by destruct k|]. rewrite Hmm.
    apply map_src_var_ext. intros u _. unfold erase_ref. by rewrite rename_ref_variable. }
  rewrite <- Es. assert (length (map erase_ref (iter_dst_var k)) = length ds) as Hl by (rewrite <- Ed; apply length_map).
  revert Hl. generalize (ren_srcs tau k) (map erase_ref (iter_dst_var k)). intros k' es Hl.
  destruct k' as [dest srcs|style rets args|d ops|], ds as [|d' ds], es as [|x es]; try done.
  simpl. destruct (is_pathless dest) eqn:E; simpl; rewrite ?is_pathless_set_base, ?E; simpl; by rewrite ?is_pathless_set_base, ?E.
Qed.

Lemma filter_renamed tau l : filter not_global (map (rename_ref renamable tau) l) = map (rename_ref renamable tau) (filter not_global l).
Proof.
  induction l as [|u l IH]; simpl; [done|]. rewrite !filter_cons, IH.
  assert (not_global (rename_ref renamable tau u) <-> not_global u) as Hg.
  { unfold not_global. by rewrite (rename_ref_variable renamable tau u). }
  destruct (decide (not_global u)) as [H|H]; [rewrite decide_True by (by apply Hg)|rewrite decide_False by (by rewrite Hg)]; done.
Qed.

(** A renamed statement reads the values the statement reads. *)
Lemma reads_sim tau (G : Var -> Prop) e e' l : sim tau G e e' -> Forall (fun u => version u = None) l ->
  (forall u, u ∈ l -> not_global u -> G (variable u)) ->
  map e' (filter not_global (map (rename_ref renamable tau) l)) = map e (filter not_global l).
Proof.
  intros Hs Hn HG. rewrite filter_renamed, map_map. apply map_ext_in. intros u Hu%list_elem_of_In.
  apply list_elem_of_filter in Hu as [Hg Hu]. rewrite Forall_forall in Hn. specialize (Hn u Hu).
  unfold rename_ref. rewrite decide_True by done. unfold with_version. rewrite (Hs (variable u)) by auto.
  f_equal. by apply erase_ref_plain.
Qed.

Lemma exposed_cons s l v : exposed l v -> v ∉ map variable (iter_dst_var (kind s)) -> exposed (s :: l) v.
Proof.
  intros (pre & s' & post & u & -> & Hu & Hr & Hv & Hd) Hn. exists (s :: pre), s', post, u. split_and!; [done..|].
  intros (s1 & d & [->|Hs]%elem_of_cons & Hin & Hdv); [|by apply Hd; exists s1, d]. apply Hn, elem_of_map. eauto.
Qed.

Lemma exec_stmts_sim l : forall tau l' tau' (G : Var -> Prop) e e' m, ren_stmts tau l l' tau' -> Forall plain_stmt l ->
  (forall v, exposed l v -> G v) -> sim tau G e e' ->
  exists e1 e1' m1, foldl exec_stmt (e, m) l = (e1, m1) /\ foldl exec_stmt (e', m) l' = (e1', m1) /\
    sim tau' (fun v => G v \/ defs_in l v) e1 e1'.
Proof.
  induction l as [|s l IH]; intros tau l' tau' G e e' m Hr Hp HG Hs; inversion Hr as [? ? E|? ? ds ? l1 ? Hv Hv' Hr']; subst; clear Hr.
  { exists e, e', m. split_and!; [done..|]. eapply sim_ext; [exact E| |exact Hs]. intros v [?|(? & ? & ?%elem_of_nil & _)]; done. }
  apply Forall_cons in Hp as [Hps Hp]. pose proof Hps as [Hphi Hn]. apply Forall_app in Hn as [Hns Hnd].
  cbn [foldl]. unfold exec_stmt at 2 4. cbn [kind with_kind]. rewrite is_phi_set, is_phi_ren, Hphi.
  assert (erase_stmt (with_kind s (set_dst_vars (ren_srcs tau (kind s)) ds)) = erase_stmt s) as ->.
  { unfold erase_stmt. cbn [kind with_kind]. by rewrite erase_renamed. }
  rewrite iter_src_set, iter_src_ren, (reads_sim tau G e) by (done || (intros u Hu Hg; apply HG; exists [], s, l, u;
    rewrite Forall_forall in Hns; split_and!; [done|done|by split; [apply Hns|]|done|by intros (? & ? & ?%elem_of_nil & _)])).
  rewrite iter_dst_renamed by done. destruct (interp _ _ _) as [m' r].
  destruct (IH (def_vers tau ds) l1 tau' (fun v => G v \/ v ∈ map variable (iter_dst_var (kind s)))
    (define_from 0 r e (iter_dst_var (kind s))) (define_from 0 r e' ds) m' Hr' Hp) as (e1 & e1' & m1 & E1 & E2 & Hsim).
  - intros v Hv1. destruct (decide (v ∈ map variable (iter_dst_var (kind s)))) as [|Hn]; [by right|]. left. apply HG. by apply exposed_cons.
  - by apply define_sim.
  - exists e1, e1', m1. split_and!; [done..|]. eapply sim_ext; [done| |exact Hsim].
    intros v [?|(s1 & d & [->|Hs1]%elem_of_cons & Hin & Hdv)]; [by left; left|left; right; apply elem_of_map; eauto|right; exists s1, d; done].
Qed.

(** ** Phis *)

Lemma phi_operand_patch S tout p (v : Var) preds : p ∈ S -> p ∈ preds -> forall seen, p ∉ seen ->
  phi_operand p (patch_ops S tout seen (map (fun q => (q, VariableRef_new v)) preds)) =
    Some {| variable := v; version := Some (tout p v) |}.
Proof.
  intros HS. induction preds as [|q preds IH]; intros Hp seen Hs; [by apply elem_of_nil in Hp|]. simpl.
  destruct (decide (p = q)) as [->|Hne]; [by rewrite decide_True|].
  apply IH; set_solver.
Qed.

Lemma exec_phis_sim S tout T p y vs : p ∈ S -> p ∈ default [] (T !! y) -> NoDup vs -> forall tau l1 tm,
  ren_stmts tau (map (fun v => phi_stmt T v y) vs) l1 tm ->
  (forall v, v ∉ vs -> tm v = tau v) /\ Forall (fun s => is_phi (kind s) = true) l1 /\
  forall e0 e : env V, let e1 := foldl (exec_phi p e0) e (map (patch_stmt S tout) l1) in
    (forall v, v ∈ vs -> e1 {| variable := v; version := Some (tm v) |} = e0 {| variable := v; version := Some (tout p v) |}) /\
    (forall u, variable u ∉ vs -> e1 u = e u).
Proof.
  intros HS Hp Hnd. induction Hnd as [|v vs Hv Hnd IH]; intros tau l1 tm Hr; cbn [map] in Hr;
    inversion Hr as [? ? E|? ? ds ? l2 ? Hds Hvs Hr']; subst; clear Hr.
  { split_and!; [by intros|constructor|]. intros e0 e. simpl. split; [set_solver|done]. }
  simpl in Hds. destruct ds as [|[d vd] [|]]; simpl in Hds; simplify_eq. apply Forall_cons in Hvs as [[i [= ->]] _].
  destruct (IH _ _ _ Hr') as (Ht & Hphi & He). simpl in Ht.
  assert (tm v = i) as Etv by (rewrite Ht by done; unfold upd_ver; by rewrite decide_True).
  split_and!.
  - intros w Hw. rewrite Ht by set_solver. unfold upd_ver. rewrite decide_False; [done|set_solver].
  - by constructor.
  - intros e0 e. cbn [map foldl]. set (e2 := exec_phi p e0 e _).
    assert (e2 = upd_env e {| variable := v; version := Some i |} (e0 {| variable := v; version := Some (tout p v) |})) as ->.
    { unfold e2, exec_phi, patch_stmt. simpl. rewrite phi_operand_patch; [done|done|done|set_solver]. }
    destruct (He e0 (upd_env e {| variable := v; version := Some i |} (e0 {| variable := v; version := Some (tout p v) |}))) as [He1 He2].
    split.
    + intros w [->|Hw]%elem_of_cons; [|by apply He1]. rewrite He2 by done. unfold upd_env. by rewrite Etv, decide_True.
    + intros u Hu. rewrite He2 by set_solver. unfold upd_env. rewrite decide_False; [done|]. intros ->. set_solver.
Qed.
End exec.
