(* ===== verification/Ssa.v ===== *)
(** * Ssa: SSA construction as a whole ([ctadl-ir/src/ssa/mod.rs])

    [transform_with] composes pruning, the single exit, phi placement, renaming and the entry
    bindings of the parameters.  The first theorem is the correctness of the two steps in the
    middle: the SSA program does along every path of the graph what the program did. *)

From S2P Require Import Prelude Index Text Path IR Graph Dominators LengauerTarjan Coalesce Verify Cfg PhiPlace Rename Reaching SsaExec.

(** [PhiPlace::new] and [SsaRename::new], as [transform_with] runs them. *)
Definition ssa_blocks (hash_iter : gset nat -> list nat) (fuel : nat) (mode : PhiMode) (bs : BasicBlocks) : outcome BasicBlocks :=
  '(bs, variables, dominators) ← PhiPlace_new hash_iter fuel mode bs;
  SsaRename_new fuel bs variables dominators.

(** Version 0 of parameter [i] is the incoming parameter. *)
Definition bind_param (bs : BasicBlocks) (i : nat) : outcome BasicBlocks :=
  b ← iv_index bs 0;
  iv_set bs 0 (with_statements b
    (new_kind (Assign (ap_of_var (with_version (new_parameter i) 0)) [Exp_variable (new_parameter i)]) :: statements b)).

Definition transform_with (hash_iter : gset nat -> list nat) (fuel : nat) (prune : bool) (mode : PhiMode) (f : FunctionData)
  : outcome FunctionData :=
  if decide (blocks f = []) then Ret f
  else
    f ← (if prune then prune_unreachable_nodes fuel f else Ret f);
    f ← complete f;
    bs ← ssa_blocks hash_iter fuel mode (blocks f);
    bs ← foldM bind_param bs (seq 0 (length (params f)));
    let f := with_blocks f bs in
    r ← FunctionData_verify f;
    match r with Ok _ => Ret f | Err _ => Panic end.

(** ** The simulation *)

Definition plain_blocks (bs : BasicBlocks) : Prop := forall y b, bs !! y = Some b ->
  Forall plain_stmt (statements b) /\ forall t, terminator b = Some t -> Forall (fun u => version u = None) (term_iter_src_var t).

Lemma def_vers_other ds : forall tau v, v ∉ map variable ds -> def_vers tau ds v = tau v.
Proof.
  induction ds as [|d ds IH]; intros tau v Hv; simpl in *; [done|]. rewrite IH by set_solver. unfold upd_ver.
  rewrite decide_False; [done|set_solver].
Qed.

Lemma ren_stmts_other tau l l' tau' v : ren_stmts tau l l' tau' -> ~ defs_in l v -> tau' v = tau v.
Proof.
  induction 1 as [tau tau' E|tau s ds l l' tau' Hv _ _ IH]; intros Hd; [done|].
  rewrite IH by (intros (s1 & u & ? & ?); apply Hd; exists s1, u; split; [by right|done]).
  apply def_vers_other. rewrite Hv. intros (u & -> & Hu)%elem_of_map. apply Hd. exists s, u. split; [by left|done].
Qed.

Lemma ren_stmts_app a : forall b tau l' tau', ren_stmts tau (a ++ b) l' tau' ->
  exists l1 l2 tm, l' = l1 ++ l2 /\ ren_stmts tau a l1 tm /\ ren_stmts tm b l2 tau'.
Proof.
  induction a as [|s a IH]; intros b tau l' tau' H; [exists [], l', tau; split_and!; [done|by constructor|done]|].
  simpl in H. inversion H as [|? ? ds ? l1 ? Hv Hs Hr]; subst. destruct (IH _ _ _ _ Hr) as (l2 & l3 & tm & -> & H1 & H2).
  eexists (_ :: l2), l3, tm. split_and!; [reflexivity|by constructor|done].
Qed.

Lemma ren_stmts_nophi tau l l' tau' : ren_stmts tau l l' tau' -> Forall plain_stmt l -> Forall (fun s => is_phi (kind s) = false) l'.
Proof.
  induction 1 as [|tau s ds l l' tau' _ _ _ IH]; intros Hp; [constructor|]. apply Forall_cons in Hp as [[Hk _] Hp].
  constructor; [|by apply IH]. simpl. by rewrite is_phi_set, is_phi_ren.
Qed.

Lemma patch_nophi S tout l : Forall (fun s => is_phi (kind s) = false) l -> map (patch_stmt S tout) l = l.
Proof.
  induction 1 as [|s l Hs _ IH]; simpl; [done|]. rewrite IH. f_equal. unfold patch_stmt, patch_kind.
  destruct (kind s) eqn:E; try done; rewrite <- E; apply with_kind_id.
Qed.

Lemma exec_phi_nophi {V} p (e0 : env V) l : Forall (fun s => is_phi (kind s) = false) l -> forall e, foldl (exec_phi p e0) e l = e.
Proof.
  induction 1 as [|s l Hs _ IH]; intros e; simpl; [done|]. rewrite IH. unfold exec_phi. by destruct (kind s).
Qed.

Lemma exec_stmt_phis {V M} (interp : Statement -> M -> list V -> M * (nat -> V)) l st :
  Forall (fun s => is_phi (kind s) = true) l -> foldl (exec_stmt interp) st l = st.
Proof.
  induction 1 as [|s l Hs _ IH]; simpl; [done|]. unfold exec_stmt at 2. rewrite Hs. by destruct st.
Qed.

(** The definitions of a block, as a decidable list. *)
Lemma defs_in_dsts l v : defs_in l v <-> v ∈ map variable (dsts l).
Proof.
  rewrite elem_of_map. split.
  - intros (s & d & Hs & Hin & <-). exists d. split; [done|]. apply list_elem_of_bind. eauto.
  - intros (d & -> & (s & Hin & Hs)%list_elem_of_bind). exists s, d. done.
Qed.

#[export] Instance defs_in_dec l v : Decision (defs_in l v).
Proof. refine (cast_if (decide (v ∈ map variable (dsts l)))); by rewrite defs_in_dsts. Defined.

Lemma add_phis_length (bs bs1 : BasicBlocks) T Ps : (forall y, bs1 !! y = add_phis T y (Ps y) <$> bs !! y) -> length bs1 = length bs.
Proof.
  intros Hbs1. assert (forall i, i < length bs1 <-> i < length bs) as H; [|pose proof (H (length bs)); pose proof (H (length bs1)); lia].
  intros i. rewrite <- !lookup_lt_is_Some, Hbs1. by destruct (bs !! i).
Qed.

Section simulation.
Context (bs bs1 bs' : BasicBlocks) (dt : DominatorTree) (mode : PhiMode) (T : list (list nat)) (Ps : nat -> list Var).
Context (tin tout : nat -> vers).
Hypothesis Hwf : graph_wf bs.
Hypothesis Htree : tree_wf bs dt.
Hypothesis Hroot : dt_start dt = start_node bs.
Hypothesis Hdom : forall a y, par dt a y -> dominates bs a y.
Hypothesis Hentry : forall x, ~ edge (successors bs) x (start_node bs).
Hypothesis Hplain : plain_blocks bs.
Hypothesis HT : forall y p, p ∈ default [] (T !! y) <-> edge (successors bs) p y.
Hypothesis HPs : forall y, NoDup (Ps y) /\ forall v, v ∈ Ps y <-> idf (df_rec bs dt) (assigns bs v) y /\
  (mode = Minimal \/ live_at bs (assigns bs v) (upward bs v) y).
Hypothesis Hbs1 : forall y, bs1 !! y = add_phis T y (Ps y) <$> bs !! y.
Hypothesis Hren : renamed bs1 dt bs' tin tout.

Notation live v := (live_at bs (assigns bs v) (upward bs v)).
Let A : gset nat := list_to_set (seq 0 (length bs1)).

(** A renamed block is its phis, then its statements. *)
Lemma block_parts y b : bs !! y = Some b -> exists b' l1 l2 tm, bs' !! y = Some b' /\
  statements b' = map (patch_stmt A tout) l1 ++ l2 /\
  ren_stmts (tin y) (map (fun v => phi_stmt T v y) (Ps y)) l1 tm /\ ren_stmts tm (statements b) l2 (tout y) /\
  Forall (fun s => is_phi (kind s) = false) l2 /\
  terminator b' = term_map_src_var (rename_ref not_global (tout y)) <$> terminator b.
Proof.
  intros Hb. destruct (rd_blocks _ _ _ _ _ Hren y (add_phis T y (Ps y) b)) as (b' & l & Hb' & Hr & El & Et); [by rewrite Hbs1, Hb|].
  simpl in Hr. apply ren_stmts_app in Hr as (l1 & l2 & tm & -> & H1 & H2). destruct (Hplain y b Hb) as [Hp _].
  pose proof (ren_stmts_nophi _ _ _ _ H2 Hp) as Hn. exists b', l1, l2, tm. split_and!; [done| |done..].
  rewrite El, map_app. f_equal. by apply patch_nophi.
Qed.

Lemma ssa_edges x y : edge (successors bs') x y <-> edge (successors bs) x y.
Proof.
  rewrite !edge_block. split.
  - intros (b' & t & Hb' & Et & Hy). destruct (lookup_lt_is_Some_2 bs x) as [b Hb].
    { rewrite <- (add_phis_length bs bs1 T Ps Hbs1), <- (rd_len _ _ _ _ _ Hren). by eapply lookup_lt_Some. }
    destruct (block_parts x b Hb) as (b1 & _ & _ & _ & Hb1' & _ & _ & _ & _ & Et').
    simplify_eq. rewrite Et in Et'. destruct (terminator b) as [t0|] eqn:E0; [|done]. injection Et' as ->.
    rewrite term_successors_map in Hy. eauto.
  - intros (b & t & Hb & Et & Hy). destruct (block_parts x b Hb) as (b1 & _ & _ & _ & Hb1' & _ & _ & _ & _ & Et').
    rewrite Et in Et'. eexists b1, _. split_and!; [done..|]. by rewrite term_successors_map.
Qed.

Lemma no_start_phi : Ps (start_node bs) = [].
Proof.
  destruct (Ps (start_node bs)) as [|v l] eqn:E; [done|exfalso].
  assert (v ∈ Ps (start_node bs)) as [Hi _]%HPs by (rewrite E; by left).
  assert (exists x, df_rec bs dt x (start_node bs)) as [x Hx] by (inversion Hi; eauto).
  remember (start_node bs) as y eqn:Ey. induction Hx as [x y a He|x y z a _ _ _ IH]; [subst; by apply (Hentry x)|by apply IH].
Qed.

Lemma phi_stmts_defs y v : defs_in (map (fun v => phi_stmt T v y) (Ps y)) v -> v ∈ Ps y.
Proof. intros (s & u & (w & -> & Hw)%elem_of_map & Hu & <-). simpl in Hu. by apply list_elem_of_singleton in Hu as ->. Qed.

Lemma tout_keeps v y : y < length bs -> ~ hasdef bs Ps v y -> tout y v = tin y v.
Proof.
  intros Hy Hn. destruct (lookup_lt_is_Some_2 bs y Hy) as [b Hb].
  destruct (block_parts y b Hb) as (b' & l1 & l2 & tm & _ & _ & H1 & H2 & _).
  rewrite (ren_stmts_other _ _ _ _ v H2) by (intros Hd; apply Hn; left; exists b; done).
  apply (ren_stmts_other _ _ _ _ v H1). intros Hd%phi_stmts_defs. apply Hn. by right.
Qed.

(** The variables whose values are tracked at the end of [x]. *)
Definition tracked (x : nat) (v : Var) : Prop := live v x \/ assigns bs v x.

Lemma tracked_edge x y v : edge (successors bs) x y -> live v y -> tracked x v.
Proof.
  intros He Hl. destruct (edge_range bs Hwf x y He) as [Hx _]. destruct (lookup_lt_is_Some_2 bs x Hx) as [b Hb].
  destruct (decide (defs_in (statements b) v)) as [Ha|Ha]; [right; by exists b|].
  left. eapply live_back; [exact He|done|]. intros (b1 & Hb1 & Hd). by simplify_eq.
Qed.

Context {V M : Type} (interp : Statement -> M -> list V -> M * (nat -> V)).

(** The versions after the phis of [y], entered along a path that ends in [x]. *)
Lemma entry_sim l x y b e e' l1 tm : head (l ++ [x]) = Some (start_node bs) -> is_path (successors bs) (l ++ [x]) ->
  edge (successors bs) x y -> bs !! y = Some b -> ren_stmts (tin y) (map (fun v => phi_stmt T v y) (Ps y)) l1 tm ->
  sim (V := V) (tout x) (tracked x) e e' ->
  sim tm (fun v => live v y) e (foldl (exec_phi x e') e' (map (patch_stmt A tout) l1)).
Proof.
  intros Hh Hp He Hb H1 Hs. destruct (HPs y) as [Hnd HPy]. destruct (edge_range bs Hwf x y He) as [Hx _].
  destruct (exec_phis_sim (V := V) A tout T x y (Ps y)) with (tin y) l1 tm as (Htm & _ & Hev); [|by apply HT|done|done|].
  { unfold A. rewrite elem_of_list_to_set, elem_of_seq, (add_phis_length bs bs1 T Ps Hbs1). lia. }
  intros v Hl. destruct (Hev e' e') as [Hin Hout]. pose proof (Hs v (tracked_edge x y v He Hl)) as Hv.
  destruct (decide (v ∈ Ps y)) as [Hphi|Hphi]; [by rewrite Hin|]. rewrite Hout by done. rewrite Htm by done.
  rewrite (edge_versions bs dt Hwf Htree Hroot Hdom Hentry mode Ps v (fun y => proj2 (HPs y) v) tin tout) with l x y; [done|..|done|done|done|done|done].
  - by apply (rd_start _ _ _ _ _ Hren).
  - intros p z Hpz Hz. by apply (rd_tree _ _ _ _ _ Hren).
  - intros z. apply tout_keeps.
Qed.

Lemma statements_sim y b e e' m l2 tm : bs !! y = Some b -> ren_stmts tm (statements b) l2 (tout y) ->
  sim (V := V) tm (fun v => live v y) e e' ->
  exists e1 e1' m1, foldl (exec_stmt interp) (e, m) (statements b) = (e1, m1) /\
    foldl (exec_stmt interp) (e', m) l2 = (e1', m1) /\ sim (tout y) (tracked y) e1 e1'.
Proof.
  intros Hb Hr Hs. destruct (Hplain y b Hb) as [Hp _].
  destruct (exec_stmts_sim interp (statements b) tm l2 (tout y) (fun v => live v y) e e' m Hr Hp) as (e1 & e1' & m1 & E & E' & Hs1); [|done|].
  - intros v Hv. apply live_use. exists b. auto.
  - exists e1, e1', m1. split_and!; [done..|]. eapply sim_ext; [done| |exact Hs1]. intros v [?|(b1 & Hb1 & ?)]; [by left|].
    right. by simplify_eq.
Qed.

Lemma phis_are_phis y tau l1 tm : ren_stmts tau (map (fun v => phi_stmt T v y) (Ps y)) l1 tm ->
  Forall (fun s => is_phi (kind s) = true) (map (patch_stmt A tout) l1).
Proof.
  intros H. remember (map _ (Ps y)) as l eqn:E. assert (Forall (fun s => is_phi (kind s) = true) l) as Hl.
  { subst. apply Forall_forall. intros s (v & -> & _)%elem_of_map. done. }
  clear E. induction H as [|tau s ds l l' tau' _ _ _ IH]; [constructor|]. apply Forall_cons in Hl as [Hk Hl]. simpl. constructor; [|by apply IH].
  simpl. destruct (kind s); try done. by destruct ds.
Qed.

(** One block, entered from [x]. *)
Lemma run_block_sim l x y e e' m : head (l ++ [x]) = Some (start_node bs) -> is_path (successors bs) ((l ++ [x]) ++ [y]) ->
  sim (V := V) (tout x) (tracked x) e e' ->
  exists e1 e1' m1, run_block interp bs (Some x) (e, m) y = (e1, m1) /\ run_block interp bs' (Some x) (e', m) y = (e1', m1) /\
    sim (tout y) (tracked y) e1 e1'.
Proof.
  intros Hh Hp Hs. pose proof (is_path_prefix _ _ _ Hp) as Hp1.
  assert (edge (successors bs) x y) as He by (apply (is_path_edge _ l x y []); by rewrite <- app_assoc in Hp).
  destruct (edge_range bs Hwf x y He) as [_ Hy]. destruct (lookup_lt_is_Some_2 bs y Hy) as [b Hb].
  destruct (block_parts y b Hb) as (b' & l1 & l2 & tm & Hb' & El & H1 & H2 & Hn & _). unfold run_block. rewrite Hb, Hb'. cbn [fst snd].
  destruct (Hplain y b Hb) as [Hpl _].
  rewrite (exec_phi_nophi x e (statements b)) by (eapply Forall_impl; [exact Hpl|]; by intros s [? _]).
  rewrite El, !foldl_app, (exec_phi_nophi x e' l2) by done. rewrite (exec_stmt_phis interp (map (patch_stmt A tout) l1)) by (by eapply phis_are_phis).
  apply (statements_sim y b) with tm; [done..|]. by eapply entry_sim.
Qed.

Lemma path_sim r : forall l x e e' m, head (l ++ [x]) = Some (start_node bs) -> is_path (successors bs) ((l ++ [x]) ++ r) ->
  sim (V := V) (tout x) (tracked x) e e' ->
  exists e1 e1' m1 z, run_path interp bs (Some x) (e, m) r = (e1, m1) /\ run_path interp bs' (Some x) (e', m) r = (e1', m1) /\
    last (x :: r) = Some z /\ sim (tout z) (tracked z) e1 e1'.
Proof.
  induction r as [|y r IH]; intros l x e e' m Hh Hp Hs; [exists e, e', m, x; done|]. cbn [run_path].
  change (y :: r) with ([y] ++ r) in Hp. rewrite app_assoc in Hp.
  destruct (run_block_sim l x y e e' m Hh) as (e1 & e1' & m1 & -> & -> & Hs1); [by eapply is_path_prefix|done|].
  destruct (IH (l ++ [x]) y e1 e1' m1) as (e2 & e2' & m2 & z & E & E' & Hz & Hs2); [by destruct l|done|done|].
  exists e2, e2', m2, z. done.
Qed.

(** The first block, entered with version 0 of everything. *)
Lemma start_sim e e' m : start_node bs < length bs -> (forall v, e' {| variable := v; version := Some 0 |} = e (VariableRef_new v)) ->
  exists e1 e1' m1, run_block interp bs None (e, m) (start_node bs) = (e1, m1) /\
    run_block interp bs' None (e', m) (start_node bs) = (e1', m1) /\
    sim (V := V) (tout (start_node bs)) (tracked (start_node bs)) e1 e1'.
Proof.
  intros Hn He. destruct (lookup_lt_is_Some_2 bs (start_node bs) Hn) as [b Hb].
  destruct (block_parts _ b Hb) as (b' & l1 & l2 & tm & Hb' & El & H1 & H2 & _). unfold run_block. rewrite Hb, Hb'. cbn [fst snd].
  rewrite El, foldl_app, (exec_stmt_phis interp (map (patch_stmt A tout) l1)) by (by eapply phis_are_phis).
  apply (statements_sim _ b) with tm; [done..|]. intros v _. rewrite <- He. do 3 f_equal.
  rewrite no_start_phi in H1. inversion H1 as [? ? E|]; subst. rewrite <- E, <- Hroot. apply (rd_start _ _ _ _ _ Hren).
Qed.

Lemma exit_sim y e e' : y < length bs -> sim (V := V) (tout y) (tracked y) e e' -> exit_view bs' e' y = exit_view bs e y.
Proof.
  intros Hy Hs. destruct (lookup_lt_is_Some_2 bs y Hy) as [b Hb]. destruct (block_parts y b Hb) as (b' & _ & _ & _ & Hb' & _ & _ & _ & _ & Et).
  unfold exit_view. rewrite Hb, Hb'. simpl. rewrite Et. destruct (terminator b) as [t|] eqn:Hbt; [|done]. simpl.
  destruct (Hplain y b Hb) as [_ Ht]. specialize (Ht t Hbt). f_equal. f_equal.
  - unfold erase_term, term_map_src_var. destruct (term_kind t) as [args|tg] eqn:Ek; simpl; [|by rewrite Ek]. f_equal. f_equal.
    rewrite map_map. apply map_ext. intros [[]|[]| | | |]; simpl; try done; unfold ap_set_base, erase_ref; simpl; by rewrite ?rename_ref_variable.
  - rewrite term_iter_src_map.
    assert (map (rename_ref not_global (tout y)) (term_iter_src_var t) = map (rename_ref renamable (tout y)) (term_iter_src_var t)) as ->.
    { apply map_ext_in. intros u Hu%list_elem_of_In. rewrite Forall_forall in Ht. specialize (Ht u Hu). unfold rename_ref, renamable.
      destruct (decide (not_global u)) as [Hg|Hg]; [by rewrite decide_True|by rewrite decide_False by tauto]. }
    apply (reads_sim (tout y) (tracked y)); [done..|]. intros u Hu Hg.
    destruct (decide (defs_in (statements b) (variable u))) as [Ha|Ha]; [right; by exists b|].
    left. apply live_use. exists b. split; [done|]. right. split; [by exists t, u|done].
Qed.
End simulation.

(** ** Correctness *)

(** What the dominator tree promises: it is a tree over the blocks, rooted at the start block and
    numbered from the root down, and the parent of a block dominates it. *)
Record dominator_tree_ok (bs : BasicBlocks) (dt : DominatorTree) : Prop := {
  dk_tree : tree_wf bs dt;
  dk_root : dt_start dt = start_node bs;
  dk_dom : forall a y, par dt a y -> dominates bs a y;
}.

(** Fuel for the depth-first search, the loops of phi placement and the depth of the renaming. *)
Definition ssa_fuel (bs : BasicBlocks) (fuel : nat) : Prop :=
  search_fuel (successors bs) (node_set bs) <= fuel /\ length bs < fuel /\ forall sc, ssa_scan bs = Ret sc -> place_fuel sc (length bs) <= fuel.

Lemma blocks_preds_ok (bs : BasicBlocks) : graph_wf bs -> preds_ok bs.
Proof.
  intros Hwf n Hn. destruct (predecessor_table_spec bs Hwf) as (T & ET & HTlen & HT). simpl. unfold block_predecessors. rewrite ET. simpl.
  destruct (lookup_lt_is_Some_2 T n) as [l El]; [simpl in Hn; lia|]. unfold iv_index. rewrite El. exists l. split; [done|].
  intros v. specialize (HT n v). rewrite El in HT. simpl in HT. rewrite HT. split; [|tauto]. intros He. split; [done|].
  apply edge_block in He as (b & t & Hb & _). by apply lookup_lt_Some in Hb.
Qed.

(** The interface is implemented: [DominatorTree::new] of [Dominators] gives such a tree. *)
Lemma dominator_tree_ready hash_iter fuel (bs : BasicBlocks) : graph_wf bs -> 0 < length bs ->
  (forall n, n < length bs -> reaches bs 0 n) -> (forall s x, x ∈ hash_iter s -> x ∈ s) -> ssa_fuel bs fuel ->
  exists dt, DominatorTree_new hash_iter fuel bs = Ret dt /\ dominator_tree_ok bs dt.
Proof.
  intros Hwf Hpos Hr Hh (Hf & _ & _). destruct (dominator_tree_spec bs hash_iter fuel) as (dt & E & Ht & Hs & Hd); try done.
  - by apply blocks_preds_ok.
  - exists dt. split; [done|]. split; [done..|]. intros a y Ha. by apply Hd.
Qed.

Lemma tree_wf_length (bs bs1 : BasicBlocks) dt : length bs1 = length bs -> tree_wf bs dt -> tree_wf bs1 dt.
Proof. intros E [H1 H2 H3 H4]. simpl in *. split; simpl; rewrite ?E; done. Qed.

Lemma idf_mono_fr (fr fr' : nat -> nat -> Prop) D y : (forall x y, fr x y -> fr' x y) -> idf fr D y -> idf fr' D y.
Proof. intros H. induction 1; [eapply idf_def|eapply idf_step]; eauto. Qed.

(** Placing the phis gives blocks that renaming accepts. *)
Lemma add_phis_covers bs bs1 sc T Ps : graph_wf bs -> plain_blocks bs ->
  (forall v, v ∈ s_variables sc <-> occurs bs v) ->
  (forall y p, p ∈ default [] (T !! y) <-> edge (successors bs) p y) ->
  (forall y v, v ∈ Ps y -> v ∈ s_variables sc) -> (forall y, bs1 !! y = add_phis T y (Ps y) <$> bs !! y) ->
  covers (s_variables sc) bs1 /\ phis_wf bs1 /\ map terminator bs = map terminator bs1.
Proof.
  intros Hwf Hpl Hv HT HPs Hb1.
  assert (map terminator bs = map terminator bs1) as Eterm.
  { apply list_eq. intros i. rewrite !lookup_map, Hb1. by destruct (bs !! i). }
  split_and!; [| |done].
  - intros y b1 Hy. rewrite Hb1 in Hy. destruct (bs !! y) as [b|] eqn:Hb; [|done]. injection Hy as <-. split.
    + simpl. intros s [(v & -> & Hvy)%elem_of_map|Hs]%elem_of_app.
      * assert (v ∈ s_variables sc) as Hvs by (by eapply HPs). split; [split|]; simpl.
        -- intros u (q & -> & (p & -> & _)%elem_of_map)%elem_of_map _. done.
        -- intros u ->%list_elem_of_singleton. done.
        -- intros d ops p op [= <- <-] (q & [= -> ->] & _)%elem_of_map. done.
      * destruct (Hpl y b Hb) as [Hp _]. rewrite Forall_forall in Hp. specialize (Hp s Hs). split; [split|].
        -- intros u Hu Hr. apply Hv. exists y, b. split; [done|]. right. left. exists s, u. done.
        -- intros u Hu. apply Hv. exists y, b. split; [done|]. left. exists s, u. done.
        -- intros d ops p op Hk. destruct Hp as [Hp _]. by rewrite Hk in Hp.
    + simpl. intros t u Et Hu Hg. apply Hv. exists y, b. split; [done|]. right. right. exists t, u. done.
  - intros y b1 s d ops p op Hy Hs Hk Hop. rewrite <- (edge_ext bs bs1) by done. apply HT.
    rewrite Hb1 in Hy. destruct (bs !! y) as [b|] eqn:Hb; [|done]. injection Hy as <-. simpl in Hs.
    apply elem_of_app in Hs as [(v & -> & _)%elem_of_map|Hs].
    + simpl in Hk. injection Hk as <- <-. by apply elem_of_map in Hop as (q & [= -> ->] & ?).
    + destruct (Hpl y b Hb) as [Hp _]. rewrite Forall_forall in Hp. destruct (Hp s Hs) as [Hn _]. by rewrite Hk in Hn.
Qed.

(** The run of the two steps, in terms of the specifications of each. *)
Lemma ssa_blocks_spec hash_iter fuel mode bs dt : graph_wf bs -> plain_blocks bs ->
  DominatorTree_new hash_iter fuel bs = Ret dt -> dominator_tree_ok bs dt -> ssa_fuel bs fuel ->
  exists bs1 bs' T Ps tin tout, ssa_blocks hash_iter fuel mode bs = Ret bs' /\
    (forall y p, p ∈ default [] (T !! y) <-> edge (successors bs) p y) /\
    (forall y, NoDup (Ps y) /\ forall v, v ∈ Ps y <-> idf (df_rec bs dt) (assigns bs v) y /\
      (mode = Minimal \/ live_at bs (assigns bs v) (upward bs v) y)) /\
    (forall y, bs1 !! y = add_phis T y (Ps y) <$> bs !! y) /\ renamed bs1 dt bs' tin tout.
Proof.
  intros Hwf Hpl Edt [Ht Hr Hd] (_ & Hf1 & Hf2).
  destruct (ssa_scan_spec bs Hwf) as (sc & Esc & Ha & Hu & Hv).
  destruct (frontier_new_spec bs dt Hwf Ht) as (df & Edf & Hdflen & Hdf).
  destruct (predecessor_table_spec bs Hwf) as (T & ET & HTlen & HT).
  assert (forall x y, frontier_of df x y <-> df_rec bs dt x y) as Hfr.
  { intros x y. split; [intros (s & Hs & Hy); by apply (Hdf x s Hs)|]. intros Hxy.
    assert (x < length bs) as Hx by (inversion Hxy as [? ? a ? ?|? ? z a Hz]; subst; [done|by apply (par_lt bs dt Ht x z)]).
    destruct (lookup_lt_is_Some_2 (frontiers df) x) as [s Hs]; [by rewrite Hdflen|]. exists s. split; [done|]. by apply (Hdf x s Hs). }
  destruct (place_phis_spec fuel mode df sc bs T Hwf ET HTlen Hdflen) as (bs1 & Ps & E1 & HPs & Hb1); [|done|done|by apply Hf2|].
  { intros x y Hxy%Hfr. by apply (df_rec_range bs dt Ht x). }
  destruct (add_phis_covers bs bs1 sc T Ps) as (Hc & Hphi & Eterm); [done..|intros y v; apply HPs|done|].
  assert (length bs1 = length bs) as Hlen by (by rewrite <- (length_map terminator), <- Eterm, length_map).
  destruct (rename_spec bs1 dt (s_variables sc) fuel) as (bs' & tin & tout & E2 & Hren); [|by eapply tree_wf_length|done|done|done|lia|].
  { by eapply graph_wf_ext. }
  exists bs1, bs', T, Ps, tin, tout. split_and!; [|done| |done|done].
  - unfold ssa_blocks, PhiPlace_new. rewrite Edt. cbn [mbind outcome_bind]. rewrite Esc. cbn [mbind outcome_bind]. rewrite Edf.
    cbn [mbind outcome_bind]. rewrite E1. done.
  - intros y. destruct (HPs y) as [Hnd HPy]. split; [done|]. intros v. rewrite HPy, Hv. unfold placed. split.
    + intros (_ & Hi & ?). split; [|done]. eapply idf_mono_fr; [|exact Hi]. intros. by apply Hfr.
    + intros [Hi Hl]. destruct (idf_nonempty _ _ _ Hi) as (x & b & Hb & Hdv). split; [exists x, b; auto|]. split; [|done].
      eapply idf_mono_fr; [|exact Hi]. intros. by apply Hfr.
Qed.

(** C6: SSA construction preserves behaviour.  Take blocks without versions or phis, all
    reachable from the start block, which has no predecessor.  Then [PhiPlace::new] and
    [SsaRename::new] return, in either phi mode, whatever the order in which the dominator
    computation reads its buckets; the result has the same edges and no two definitions of one
    variable and version; and along every path from the start block it computes what the original
    computes, for every interpretation of the statements: from equal memories, with version 0 of
    every variable equal to the variable, both programs reach the same memory and the terminator
    of the last block reads the same values. *)
Theorem ssa_preserves_behaviour (hash_iter : gset nat -> list nat) fuel mode (bs : BasicBlocks) :
  graph_wf bs -> plain_blocks bs -> 0 < length bs -> (forall n, n < length bs -> reaches bs 0 n) ->
  (forall x, ~ edge (successors bs) x (start_node bs)) -> (forall s x, x ∈ hash_iter s -> x ∈ s) -> ssa_fuel bs fuel ->
  exists bs', ssa_blocks hash_iter fuel mode bs = Ret bs' /\ NoDup (bs' ≫= block_dst_vars) /\
    (forall x y, edge (successors bs') x y <-> edge (successors bs) x y) /\
    forall V M (interp : Statement -> M -> list V -> M * (nat -> V)) (e e' : env V) (m : M) l y,
      (forall v, e' {| variable := v; version := Some 0 |} = e (VariableRef_new v)) ->
      head l = Some (start_node bs) -> last l = Some y -> is_path (successors bs) l ->
      exists e1 e1' m1, run_path interp bs None (e, m) l = (e1, m1) /\ run_path interp bs' None (e', m) l = (e1', m1) /\
        exit_view bs' e1' y = exit_view bs e1 y.
Proof.
  intros Hwf Hpl Hpos Hreach He Hit Hf. destruct (dominator_tree_ready hash_iter fuel bs Hwf Hpos Hreach Hit Hf) as (dt & Edt & Hdk).
  destruct (ssa_blocks_spec hash_iter fuel mode bs dt Hwf Hpl Edt Hdk Hf) as (bs1 & bs' & T & Ps & tin & tout & E & HT & HPs & Hb1 & Hren).
  destruct Hdk as [Ht Hr Hd]. exists bs'. split_and!; [done|by apply Hren| |].
  - intros x y. by eapply ssa_edges.
  - intros V M interp e e' m [|x l] y Hee Hh Hl Hp; [done|]. assert (x = start_node bs) as -> by (by injection Hh). cbn [run_path].
    assert (start_node bs < length bs) as Hn by (rewrite <- Hr; apply Ht).
    edestruct (start_sim bs bs1 bs') with (e := e) (e' := e') (m := m) (interp := interp) as (e1 & e1' & m1 & -> & -> & Hs); try done.
    edestruct (path_sim bs bs1 bs') with (l := @nil nat) (x := start_node bs) (e := e1) (e' := e1') (m := m1) (r := l) (interp := interp)
      as (e2 & e2' & m2 & z & -> & -> & Hz & Hs2); try done.
    exists e2, e2', m2. split_and!; [done..|]. assert (z = y) as -> by congruence.
    eapply (exit_sim bs bs1 bs'); try done.
    destruct l as [|w l _] using rev_ind; [by injection Hl as <-|].
    rewrite app_comm_cons, last_snoc in Hl. injection Hl as ->. destruct l as [|w l _] using rev_ind.
    + apply (edge_range bs Hwf (start_node bs)). by apply (is_path_edge _ [] _ _ []).
    + apply (edge_range bs Hwf w). apply (is_path_edge _ (start_node bs :: l) _ _ []). by rewrite <- app_assoc in Hp.
Qed.

(** The diamond of [phi_example]: through block 1, the phi returns what block 1 assigned. *)
Definition step_interp (s : Statement) (m : nat) (_ : list nat) : nat * (nat -> nat) := (S m, fun _ => m).

Lemma ssa_preserves_behaviour_witness : exists bs', ssa_blocks elements 50 Pruned phi_example = Ret bs' /\
  NoDup (bs' ≫= block_dst_vars) /\
  exit_view bs' (run_path step_interp bs' None (fun _ => 7, 5) [0; 1; 3]).1 3 =
    exit_view phi_example (run_path step_interp phi_example None (fun _ => 7, 5) [0; 1; 3]).1 3.
Proof.
  destruct (ssa_preserves_behaviour elements 50 Pruned phi_example) as (bs' & E & Hnd & _ & H).
  - by_decide.
  - intros [|[|[|[|y]]]] b [= <-]; (split; [|intros t [= <-]]); repeat constructor.
  - simpl. lia.
  - intros n Hn. assert (forall x, x = 1 \/ x = 2 -> edge (successors phi_example) 0 x /\ edge (successors phi_example) x 3) as He.
    { intros x Hx. split; apply edge_block; destruct Hx as [-> | ->]; do 2 eexists; (split; [reflexivity|]); (split; [reflexivity|]);
        apply list_elem_of_In; simpl; auto. }
    destruct n as [|[|[|[|n]]]]; [done|apply rtc_once, He; auto|apply rtc_once, He; auto| |simpl in Hn; lia].
    eapply rtc_l; [apply (He 1); auto|]. apply rtc_once, He. auto.
  - intros x (b & t & Hb & Ht & Hin)%edge_block. destruct x as [|[|[|[|x]]]]; simplify_eq/=; set_solver.
  - intros s x. apply elem_of_elements.
  - split; [vm_compute; lia|]. split; [simpl; lia|]. intros sc Esc. vm_compute in Esc. injection Esc as <-. vm_compute. lia.
  - exists bs'. split; [exact E|]. split; [exact Hnd|].
    destruct (H nat nat step_interp (fun _ => 7) (fun _ => 7) 5 [0; 1; 3] 3) as (e1 & e1' & m1 & E1 & E2 & E3); [done..| |].
    + clear. intros [|[|i]] x y Hx Hy; simplify_eq/=; apply edge_block; do 2 eexists; (split; [reflexivity|]); (split; [reflexivity|]);
        apply list_elem_of_In; simpl; auto.
    + by rewrite E1, E2.
Defined.

(** ** A loop through the start block *)

(** Block 0 reads and assigns [l0], then goes back to itself or on to block 1, which returns [l0]. *)
Definition entry_loop : BasicBlocks :=
  let l0 := new_local_idx 0 in
  [{| statements := [new_kind (Assign (ap_of_var l0) [Exp_variable l0])]; terminator := Some (term_new_kind (Goto [0; 1])) |};
   {| statements := []; terminator := Some (term_new_kind (Return [Exp_variable l0])) |}].

Definition entry_loop_tree : DominatorTree := {| dt_start := 0; dt_idom := [0; 0]; dt_dfnum := [0; 1] |}.

(** Each statement adds one to what it reads. *)
Definition count_interp (s : Statement) (m : unit) (reads : list nat) : unit * (nat -> nat) := (m, fun _ => S (sum_list reads)).

(** C24: SSA construction is wrong when an edge leads back to the start block.  On a two-block
    program that meets every documented precondition, with a right dominator tree, no phi is
    placed at the start block (a block's parent is excluded from its frontier, and the start
    block is recorded as its own parent), so its use of [l0] always names the incoming version 0:
    after two rounds of the loop the program returns 2 and the SSA program 1. *)
Theorem ssa_entry_loop_wrong : exists bs', graph_wf entry_loop /\ plain_blocks entry_loop /\
  DominatorTree_new elements 50 entry_loop = Ret entry_loop_tree /\ dominator_tree_ok entry_loop entry_loop_tree /\
  ssa_blocks elements 50 Pruned entry_loop = Ret bs' /\ is_path (successors entry_loop) [0; 0; 1] /\
  snd <$> exit_view entry_loop (run_path count_interp entry_loop None (fun _ => 0, tt) [0; 0; 1]).1 1 = Some [2] /\
  snd <$> exit_view bs' (run_path count_interp bs' None (fun _ => 0, tt) [0; 0; 1]).1 1 = Some [1].
Proof.
  eexists. split_and!.
  - by_decide.
  - intros [|[|y]] b [= <-]; (split; [|intros t [= <-]]); repeat constructor.
  - vm_compute. reflexivity.
  - split; [split; [done|by_decide|done|]|done|].
    + intros a [|[|b]]; [done|intros [= <-] _; split; by_decide|done].
    + intros a y Ha l Hh _ _. assert (a = 0) as -> by (destruct y as [|[|y]]; by inversion Ha).
      destruct l; [done|]. injection Hh as ->. apply list_elem_of_here.
  - vm_compute. reflexivity.
  - intros [|[|i]] x y Hx Hy; simplify_eq/=; apply edge_block; do 2 eexists; (split; [reflexivity|]); (split; [reflexivity|]);
      apply list_elem_of_In; simpl; auto.
  - vm_compute. reflexivity.
  - vm_compute. reflexivity.
Qed.
