(* ===== verification/SsaVerify.v ===== *)
(** * SsaVerify: the SSA form of a verified function verifies

    [transform_with] ends with [function.verify().unwrap()].  The steps before it keep a function
    well formed, one after the other: pruning, the single exit, the phis and the versions, and
    the entry bindings of the parameters. *)

From S2P Require Import Prelude Index Text Path IR Graph Dominators Coalesce Verify Cfg PhiPlace Rename Reaching SsaExec Ssa.

Lemma function_wf_graph f G : function_wf f G -> graph_wf (blocks f).
Proof.
  intros (_ & Hb & _). apply graph_wf_blocks. intros n b Hn. apply (Forall_lookup_1 _ _ _ _ Hb) in Hn as [_ (t & Et & Ht)].
  exists t. split; [done|]. intros m Hm. unfold term_successors, term_wf in *. destruct (term_kind t) as [|ts]; [by apply elem_of_nil in Hm|].
  destruct Ht as [_ Ht]. rewrite Forall_forall in Ht. by apply Ht.
Qed.

(** ** Well-formedness across a change of function *)

(** [f'] declares what [f] declares. *)
Definition declares (f f' : FunctionData) : Prop :=
  num_parameters f = num_parameters f' /\ length (decls (locals f)) <= length (decls (locals f')).

Lemma var_wf_declares f f' G v : declares f f' -> var_wf f G v -> var_wf f' G v.
Proof. intros [E Hl]. unfold var_wf. destruct (variable v); [done|lia|lia]. Qed.

Lemma kind_wf_declares f f' G k : declares f f' -> kind_wf f G k -> kind_wf f' G k.
Proof. intros Hd [Hv Hk]. split; [|done]. eapply Forall_impl; [exact Hv|]. intros v. by apply var_wf_declares. Qed.

(** Without versions the store check asks nothing. *)
Lemma plain_store_wf f s : plain_stmt s -> store_wf f (kind s).
Proof.
  intros [_ Hn]. unfold store_wf. destruct (kind s) as [dest srcs| | |]; try done. intros Hseg v Hv. exfalso.
  assert (version (base dest) = None) as E; [|congruence]. rewrite Forall_forall in Hn. apply Hn. simpl.
  unfold is_pathless. rewrite bool_decide_eq_false_2 by done. by left.
Qed.

(** A verified function before SSA. *)
Definition pre_ssa (G : option nat) (f : FunctionData) : Prop :=
  name f <> "" /\ Forall (block_wf f G) (blocks f) /\ plain_blocks (blocks f) /\ Locals_wf (locals f) /\ 0 < length (blocks f).

Lemma pre_ssa_graph f G : pre_ssa G f -> graph_wf (blocks f).
Proof.
  intros (Hn & Hb & Hp & _). apply (function_wf_graph f G). split_and!; [done..|]. apply Forall_forall. intros b [y Hy]%list_elem_of_lookup.
  destruct (Hp y b Hy) as [Hs _]. eapply Forall_impl; [exact Hs|]. intros s. apply plain_store_wf.
Qed.

(** ** Pruning *)

Lemma renamed_stmt_plain r s s' : plain_stmt s -> renamed_stmt r s s' -> s' = s.
Proof.
  intros [Hk _] [Ei Hs]. destruct s as [i k], s' as [i' k']. simpl in *. subst. destruct k; by simplify_eq/=.
Qed.

Lemma prune_pre_ssa f f' r G : pre_ssa G f -> pruned f f' r -> pre_ssa G f'.
Proof.
  intros (Hn & Hb & Hp & Hl & Hpos) (Ef & Hnd & Hr & H0 & Hblocks & _ & Hlen). destruct Hblocks as [[-> _]|Hblocks]; [done|].
  assert (forall y b', blocks f' !! y = Some b' -> exists x b, blocks f !! x = Some b /\ statements b' = statements b /\
    exists t t', terminator b = Some t /\ terminator b' = Some t' /\ renamed_term r t t') as Hold.
  { intros y b' Hy. destruct (Forall2_lookup_r _ _ _ _ _ Hblocks Hy) as (x & Hx & b & Hbx & Hs & Ht). exists x, b. split_and!; [done| |done].
    destruct (Hp x b Hbx) as [Hpl _]. revert Hpl. induction Hs as [|s s' l l' Hs _ IH]; [done|]. intros [Hps Hpl]%Forall_cons.
    rewrite IH by done. f_equal. by eapply renamed_stmt_plain. }
  rewrite Ef. split_and!; [done| | |done|]; simpl.
  - apply Forall_forall. intros b' [y Hy]%list_elem_of_lookup. destruct (Hold y b' Hy) as (x & b & Hbx & Es & t & t' & Et & Et' & Ht).
    apply (Forall_lookup_1 _ _ _ _ Hb) in Hbx as [Hk (t0 & Et0 & Hw)]. split.
    + rewrite Es. eapply Forall_impl; [exact Hk|]. intros s. by apply kind_wf_declares.
    + exists t'. split; [done|]. assert (t0 = t) as -> by congruence. destruct Ht as [_ Ht]. unfold term_wf in *. destruct (term_kind t) as [args|ts]; [by rewrite Ht|].
      destruct Ht as (ts' & -> & Hts). destruct Hw as [Hne Hw]. split; [intros ->; by inversion Hts; subst|].
      apply Forall_forall. intros m [k Hm]%list_elem_of_lookup. destruct (Forall2_lookup_r _ _ _ _ _ Hts Hm) as (o & _ & Ho).
      simpl. rewrite Hlen. by eapply lookup_lt_Some.
  - intros y b' Hy. destruct (Hold y b' Hy) as (x & b & Hbx & Es & t & t' & Et & Et' & Ht). destruct (Hp x b Hbx) as [Hpl Hterm].
    rewrite Es. split; [done|]. intros t0 Et0. assert (t0 = t') as -> by congruence. specialize (Hterm t Et). unfold term_iter_src_var in *. destruct Ht as [_ Ht].
    destruct (term_kind t) as [args|ts]; [by rewrite Ht|]. destruct Ht as (ts' & -> & _). constructor.
  - rewrite Hlen. by eapply lookup_lt_Some.
Qed.

(** ** The single exit *)

Lemma path_wf_var v : path_wf (ap_of_var v).
Proof. split_and!; [done|done|]. simpl. set_solver. Qed.

Lemma ret_assigns_wf f G vs args : Forall (var_wf f G) vs -> Forall (fun v => version v = None /\ is_global (variable v) = false) vs ->
  Forall (var_wf f G) (omap base_variable args) -> Forall exp_wf args -> Forall (fun u => version u = None) (omap base_variable args) ->
  Forall (fun s => kind_wf f G (kind s) /\ plain_stmt s) (ret_assigns vs args).
Proof.
  intros Hvs Hvn H1 H2 H3. apply Forall_forall. intros s ([v e] & -> & Hz)%elem_of_map.
  pose proof (elem_of_zip_l _ _ _ _ Hz) as Hv. pose proof (elem_of_zip_r _ _ _ _ Hz) as He.
  rewrite Forall_forall in Hvs. rewrite Forall_forall in Hvn. rewrite Forall_forall in H2. destruct (Hvn v Hv) as [Hn Hg]. specialize (Hvs v Hv). specialize (H2 e He).
  assert (omap base_variable [e] ⊆ omap base_variable args) as Hsub.
  { intros u (e' & ->%list_elem_of_singleton & Hu)%list_elem_of_omap. apply list_elem_of_omap. eauto. }
  rewrite Forall_forall in H1. rewrite Forall_forall in H3. split; [split|split]; simpl.
  - apply Forall_app. split; [apply Forall_forall; intros u Hu; by apply H1, Hsub|by constructor].
  - split_and!; [apply path_wf_var|done|by intros [_ ?]; congruence|by constructor].
  - done.
  - apply Forall_app. split; [apply Forall_forall; intros u Hu; by apply H3, Hsub|by constructor].
Qed.

Lemma complete_pre_ssa f f' G : pre_ssa G f -> complete f = Ret f' ->
  pre_ssa G f' /\ params f' = params f /\ length (blocks f') = S (length (blocks f)) /\
  forall i b, blocks f' !! i = Some b -> (exists args, term_kind <$> terminator b = Some (Return args)) <-> i = length (blocks f).
Proof.
  intros Hpre E. pose proof (pre_ssa_graph f G Hpre) as Hwf. destruct Hpre as (Hn & Hb & Hp & Hl & Hpos).
  destruct (complete_blocks f Hl Hwf Hpos) as (l & vs & bs & E' & Hl' & Hpre & Hlen & Hv & Hbl & Hc).
  rewrite E in E'. injection E' as ->. apply prefix_length in Hpre. set (exit := {| statements := []; terminator := _ |}).
  set (f' := with_blocks _ _). assert (declares f f') as Hdecl by (split; [done|exact Hpre]).
  assert (Forall (var_wf f' G) vs /\ Forall (fun v => version v = None /\ is_global (variable v) = false) vs) as [Hvs Hvn].
  { split; apply Forall_forall; intros v [i Hi]%list_elem_of_lookup; destruct (Hv i v Hi) as (idx & -> & Hidx); [|done].
    unfold var_wf. simpl. by eapply lookup_lt_Some. }
  assert (omap base_variable (map Exp_variable vs) = vs) as Eargs
    by (clear; induction vs as [|v vs IH]; [done|]; change (v :: omap base_variable (map Exp_variable vs) = v :: vs); by rewrite IH).
  assert (forall i b b', blocks f !! i = Some b -> bs !! i = Some b' ->
    Forall (fun s => kind_wf f' G (kind s) /\ plain_stmt s) (statements b') /\
    exists t ts, terminator b' = Some t /\ term_kind t = Goto ts /\ ts <> [] /\ Forall (fun m => m < S (length (blocks f))) ts) as Hblk.
  { intros i b b' Hi Hi'. destruct (Hc i b b' Hi Hi') as (t & t' & Et & Et' & Hk). destruct (Hp i b Hi) as [Hpl Hpt].
    apply (Forall_lookup_1 _ _ _ _ Hb) in Hi as [Hkw (t0 & Et0 & Htw)]. assert (t0 = t) as -> by congruence.
    assert (Forall (fun s => kind_wf f' G (kind s) /\ plain_stmt s) (statements b)) as Hst.
    { apply Forall_and. split; [|done]. eapply Forall_impl; [exact Hkw|]. intros s. by apply kind_wf_declares. }
    unfold term_wf in Htw. specialize (Hpt t Et). unfold term_iter_src_var in Hpt. destruct (term_kind t) as [args|ts]; destruct Hk as [-> Hk].
    - destruct Htw as (H1 & H2 & _). split.
      + apply Forall_app. split; [done|]. apply ret_assigns_wf; [done|done| | |done].
        * eapply Forall_impl; [exact H1|]. intros v. by apply var_wf_declares.
        * eapply Forall_impl; [exact H2|]. by intros e [? _].
      + eexists t', _. split_and!; [done|exact Hk|done|]. repeat constructor.
    - split; [done|]. destruct Htw as [Hne Hts]. eexists t', _. split_and!; [done|exact Hk| |].
      + case_decide; [by destruct ts|done].
      + assert (Forall (fun m => m < S (length (blocks f))) ts) by (eapply Forall_impl; [exact Hts|]; simpl; lia).
        case_decide; [|done]. apply Forall_app. split; [done|]. repeat constructor. }
  assert (forall i b', (bs ++ [exit]) !! i = Some b' -> (i = length bs /\ b' = exit) \/ exists b, blocks f !! i = Some b /\ bs !! i = Some b') as Hcase.
  { intros i b'. rewrite lookup_snoc_Some. intros [[Hlt Hi]|[-> <-]]; [right|by left].
    destruct (lookup_lt_is_Some_2 (blocks f) i) as [b Hbi]; [by rewrite <- Hbl|]. eauto. }
  split_and!; [split_and!| | |]; simpl; [done| | |done| |done| |].
  - apply Forall_forall. intros b' [i Hi]%list_elem_of_lookup. destruct (Hcase i b' Hi) as [[-> ->]|(b & Hb0 & Hb')].
    + split; [constructor|]. eexists. split; [reflexivity|]. simpl. rewrite Eargs. split_and!; [done| |by rewrite length_map].
      apply Forall_forall. intros e (v & -> & _)%elem_of_map. split; [|done]. intros ap [= <-]. apply path_wf_var.
    + destruct (Hblk i b b' Hb0 Hb') as [Hs (t & ts & Et & Ek & Hne & Hts)]. split.
      * eapply Forall_impl; [exact Hs|]. by intros s [? _].
      * exists t. split; [done|]. rewrite Ek. split; [done|]. simpl. rewrite length_app, Hbl. simpl.
        eapply Forall_impl; [exact Hts|]. simpl. lia.
  - intros i b' Hi. destruct (Hcase i b' Hi) as [[-> ->]|(b & Hb0 & Hb')].
    + split; [constructor|]. intros t [= <-]. unfold term_iter_src_var. simpl. rewrite Eargs.
      eapply Forall_impl; [exact Hvn|]. by intros v [? _].
    + destruct (Hblk i b b' Hb0 Hb') as [Hs (t & ts & Et & Ek & _)]. split.
      * eapply Forall_impl; [exact Hs|]. by intros s [_ ?].
      * intros t0 Et0. assert (t0 = t) as -> by congruence. unfold term_iter_src_var. rewrite Ek. constructor.
  - rewrite length_app. simpl. lia.
  - rewrite length_app, Hbl. simpl. lia.
  - by apply completed_single_return.
Qed.

(** ** Phis and versions *)

Lemma kind_wf_dst f G k d : kind_wf f G k -> d ∈ iter_dst_var k -> var_wf f G d /\ is_global (variable d) = false.
Proof.
  intros [Hv Hk] Hd. rewrite Forall_forall in Hv. split; [apply Hv; set_solver|].
  destruct k as [dest srcs|style rets args|d0 ops|]; simpl in Hd.
  - destruct Hk as (_ & _ & Hg & _). unfold is_pathless in Hd. case_bool_decide; [|by apply elem_of_nil in Hd].
    apply list_elem_of_singleton in Hd as ->. destruct (is_global _) eqn:E; [|done]. by destruct Hg.
  - destruct Hk as (_ & _ & Hr). rewrite Forall_forall in Hr. by apply Hr.
  - apply list_elem_of_singleton in Hd as ->. by apply Forall_cons in Hk as [? _].
  - by apply elem_of_nil in Hd.
Qed.

Lemma var_wf_variable f G u u' : variable u' = variable u -> is_global (variable u) = false -> var_wf f G u -> var_wf f G u'.
Proof. intros E Hg. unfold var_wf. rewrite E. by destruct (variable u). Qed.

Lemma exp_wf_map g e : exp_wf e -> exp_wf (map_base_variable g e).
Proof.
  intros He ap Hap. destruct e as [ap0|ap0| | | |]; simpl in Hap; simplify_eq; specialize (He ap0 eq_refl); done.
Qed.

Lemma operand_wf_map g e : operand_wf e -> operand_wf (map_base_variable g e).
Proof. intros [He Hv]. split; [by apply exp_wf_map|]. intros ap. destruct e; simpl; try done. by destruct (Hv ap0). Qed.

Lemma var_wf_rename f G P `{!forall v, Decision (P v)} tau u : (P u -> is_global (variable u) = false) -> var_wf f G u -> var_wf f G (rename_ref P tau u).
Proof. intros HP Hu. unfold rename_ref. case_decide; [|done]. apply (var_wf_variable f G u); auto. Qed.

Lemma kind_wf_renamed f G tau k ds : kind_wf f G k -> is_phi k = false -> map variable ds = map variable (iter_dst_var k) ->
  kind_wf f G (set_dst_vars (ren_srcs tau k) ds).
Proof.
  intros Hk Hphi Hds.
  assert (Forall (fun d => var_wf f G d /\ is_global (variable d) = false) ds) as Hd.
  { apply Forall_forall. intros d Hd. assert (variable d ∈ map variable (iter_dst_var k)) as (d0 & Ed & Hd0)%elem_of_map
      by (rewrite <- Hds; apply elem_of_map; eauto).
    destruct (kind_wf_dst f G k d0 Hk Hd0) as [Hw Hg]. split; [by apply (var_wf_variable f G d0)|by rewrite Ed]. }
  destruct Hk as [Hv Hk]. apply Forall_app in Hv as [Hvs _]. split.
  - rewrite iter_dst_renamed, iter_src_set, iter_src_ren by done. apply Forall_app. split.
    + apply Forall_fmap. eapply Forall_impl; [exact Hvs|]. intros u Hu. simpl. apply var_wf_rename; [by intros [_ ?]|done].
    + eapply Forall_impl; [exact Hd|]. by intros d [? _].
  - destruct k as [dest srcs|style rets args|d0 ops|]; [| |done|by destruct ds].
    + destruct Hk as (Hp & Ha & Hg & Hs). simpl in Hds. simpl.
      assert (Forall exp_wf (map (map_base_variable (rename_ref renamable tau)) srcs)) as Hs'.
      { apply Forall_fmap. eapply Forall_impl; [exact Hs|]. intros e. apply exp_wf_map. }
      destruct (is_pathless dest) eqn:E; destruct ds as [|d ds]; simplify_eq/=; rewrite ?is_pathless_set_base, ?E.
      * apply Forall_cons in Hd as [[_ Hd] _]. split_and!; [done|done|by intros [_ ?]; simpl in *; congruence|done].
      * split_and!; [done|done| |done]. intros [Hseg _]. simpl in Hseg. unfold is_pathless in E. by rewrite bool_decide_eq_true_2 in E.
    + destruct Hk as (Ha & Hc & Hr). replace (set_dst_vars _ ds) with (CallAssign (map_receiver (rename_ref renamable tau) style) ds
        (map (map_base_variable (rename_ref renamable tau)) args)) by (by destruct ds). split_and!.
      * apply Forall_fmap. eapply Forall_impl; [exact Ha|]. intros e. apply operand_wf_map.
      * intros callee sg Hst. destruct style as [| |c s| | |]; simplify_eq/=. specialize (Hc c sg eq_refl). done.
      * eapply Forall_impl; [exact Hd|]. by intros d [_ ?].
Qed.

(** Every version in use is the incoming one or has a definition. *)
Definition ver_defined (D : list VariableRef) (tau : vers) : Prop := forall v, tau v = 0 \/ {| variable := v; version := Some (tau v) |} ∈ D.

Lemma def_vers_defined D ds : forall tau, ver_defined D tau -> Forall (fun d => is_Some (version d)) ds -> ds ⊆ D -> ver_defined D (def_vers tau ds).
Proof.
  induction ds as [|d ds IH]; intros tau Ht Hs HD; simpl; [done|]. apply Forall_cons in Hs as [[i Hi] Hs].
  apply IH; [|done|set_solver]. intros v. unfold upd_ver. case_decide; [|apply Ht]. right. subst v. rewrite Hi. simpl.
  apply HD. destruct d; simpl in *; subst. by left.
Qed.

Lemma ren_stmts_defined D l : forall tau l' tau', ren_stmts tau l l' tau' -> ver_defined D tau -> dsts l' ⊆ D ->
  ver_defined D tau' /\ (Forall plain_stmt l -> forall s u i, s ∈ l' -> u ∈ iter_src_var (kind s) -> version u = Some i -> i <> 0 -> u ∈ D).
Proof.
  intros tau l' tau' H. induction H as [tau tau' E|tau s ds l l' tau' Hv Hs _ IH]; intros Ht HD.
  - split; [intros v; rewrite <- E; apply Ht|]. intros _ s u i Hs. by apply elem_of_nil in Hs.
  - assert (ds ++ dsts l' ⊆ D) as HD'.
    { intros d Hd. apply HD. unfold dsts. csimpl. by rewrite iter_dst_renamed. }
    destruct IH as [Ht' IH]; [by apply def_vers_defined; [|done|set_solver]|set_solver|].
    split; [done|]. intros [[Hphi Hn] Hpl]%Forall_cons s' u i [->|Hs']%elem_of_cons Hu Hi Hi0; [|by eapply IH].
    simpl in Hu. rewrite iter_src_set, iter_src_ren in Hu by done. apply elem_of_map in Hu as (u0 & -> & Hu0).
    apply Forall_app in Hn as [Hn _]. rewrite Forall_forall in Hn. specialize (Hn u0 Hu0).
    unfold rename_ref in *. case_decide; [|congruence]. simpl in Hi. injection Hi as <-. destruct (Ht (variable u0)); [done|]. done.
Qed.

Lemma renamed_defined bs dt bs' tin tout : tree_wf bs dt -> renamed bs dt bs' tin tout ->
  forall y, y < length bs -> ver_defined (bs' ≫= block_dst_vars) (tin y).
Proof.
  intros Ht Hr y Hy. pose proof (all_children bs dt Ht y Hy) as Hc. clear Hy. revert y Hc. refine (rtc_ind_r _ _ _ _).
  - intros v. left. apply (rd_start _ _ _ _ _ Hr).
  - intros p y _ [Hpy Hys] IH v. destruct (par_lt bs dt Ht p y Hpy) as [Hp _]. destruct (lookup_lt_is_Some_2 bs p Hp) as [b Hb].
    destruct (rd_blocks _ _ _ _ _ Hr p b Hb) as (b' & l & Hb' & Hren & El & _).
    rewrite (rd_tree _ _ _ _ _ Hr p y Hpy Hys). refine (proj1 (ren_stmts_defined _ _ _ _ _ Hren IH _) v).
    intros d Hd. apply list_elem_of_bind. exists b'. split; [|by eapply list_elem_of_lookup_2].
    change (d ∈ dsts (statements b')). by rewrite El, dsts_patch.
Qed.

Lemma patch_ops_vars S tout ops : forall seen p op, (p, op) ∈ patch_ops S tout seen ops -> exists op0, (p, op0) ∈ ops /\ variable op = variable op0.
Proof.
  induction ops as [|[q oq] ops IH]; intros seen p op H; simpl in H; [by apply elem_of_nil in H|].
  apply elem_of_cons in H as [[= -> ->]|H].
  - exists oq. split; [by left|]. by case_decide.
  - destruct (IH _ _ _ H) as (op0 & ? & ?). exists op0. split; [by right|done].
Qed.

Lemma phis_shape S tout T y vs : forall tau l1 tm, ren_stmts tau (map (fun v => phi_stmt T v y) vs) l1 tm ->
  forall s, s ∈ map (patch_stmt S tout) l1 -> exists d ops, kind s = Phi d ops /\ variable d ∈ vs /\
    forall p op, (p, op) ∈ ops -> variable op = variable d.
Proof.
  induction vs as [|v vs IH]; intros tau l1 tm Hr s Hs; cbn [map] in Hr; inversion Hr as [|? ? ds ? l2 ? Hds Hvs Hr']; subst.
  - by apply elem_of_nil in Hs.
  - cbn [map] in Hs. apply elem_of_cons in Hs as [->|Hs].
    + simpl in Hds. destruct ds as [|d [|]]; simplify_eq/=. exists d. eexists. split_and!; [reflexivity|by left|].
      intros p op (op0 & Hin & ->)%patch_ops_vars. by apply elem_of_map in Hin as (q & [= -> ->] & _).
    + destruct (IH _ _ _ Hr' s Hs) as (d & ops & ? & ? & ?). exists d, ops. split_and!; [done|by right|done].
Qed.

Section blocks_wf.
Context (f : FunctionData) (G : option nat) (bs1 bs' : BasicBlocks) (dt : DominatorTree) (mode : PhiMode) (T : list (list nat))
  (Ps : nat -> list Var) (tin tout : nat -> vers).
Let bs := blocks f.
Let f' := with_blocks f bs'.
Hypothesis Hpre : pre_ssa G f.
Hypothesis Htree : tree_wf bs dt.
Hypothesis HPs : forall y v, v ∈ Ps y -> exists x, assigns bs v x.
Hypothesis Hbs1 : forall y, bs1 !! y = add_phis T y (Ps y) <$> bs !! y.
Hypothesis Hren : renamed bs1 dt bs' tin tout.

Lemma ssa_length : length bs' = length bs.
Proof. rewrite (rd_len _ _ _ _ _ Hren). by eapply add_phis_length. Qed.

Lemma placed_var_wf y v : v ∈ Ps y -> is_global v = false /\ forall u, variable u = v -> var_wf f G u.
Proof.
  intros Hv. destruct (HPs y v Hv) as (x & b & Hb & s & d & Hs & Hd & <-). destruct Hpre as (_ & Hw & _).
  apply (Forall_lookup_1 _ _ _ _ Hw) in Hb as [Hk _]. rewrite Forall_forall in Hk.
  destruct (kind_wf_dst f G _ d (Hk s Hs) Hd) as [Hdw Hg]. split; [done|]. intros u Hu. by apply (var_wf_variable f G d).
Qed.

Lemma renamed_kinds_wf l : forall tau l' tau', ren_stmts tau l l' tau' -> Forall (fun s => kind_wf f G (kind s)) l -> Forall plain_stmt l ->
  Forall (fun s => kind_wf f G (kind s)) l'.
Proof.
  intros tau l' tau' H. induction H as [|tau s ds l l' tau' Hv Hs _ IH]; intros Hk Hp; [constructor|].
  apply Forall_cons in Hk as [Hk Hks], Hp as [[Hphi _] Hp]. constructor; [|by apply IH]. by apply kind_wf_renamed.
Qed.

(** One block of the SSA form. *)
Lemma ssa_block_wf y b' : bs' !! y = Some b' -> block_wf f' G b' /\ Forall (fun s => store_wf f' (kind s)) (statements b') /\
  exists b, bs !! y = Some b /\ terminator b' = term_map_src_var (rename_ref not_global (tout y)) <$> terminator b.
Proof.
  intros Hy'. destruct (lookup_lt_is_Some_2 bs y) as [b Hy]; [rewrite <- ssa_length; by eapply lookup_lt_Some|].
  destruct Hpre as (_ & Hw & Hplain & _).
  destruct (block_parts bs bs1 bs' dt T Ps tin tout Hplain Hbs1 Hren y b Hy) as (b1 & l1 & l2 & tm & Hb1 & El & H1 & H2 & Hn & Et).
  assert (b1 = b') as -> by congruence. destruct (Hplain y b Hy) as [Hpl Hpt].
  apply (Forall_lookup_1 _ _ _ _ Hw) in Hy as Hbw. destruct Hbw as [Hkw (t & Ebt & Htw)].
  assert (declares f f') as Hdecl by done.
  split; [split|split].
  - rewrite El. apply Forall_app. split.
    + apply Forall_forall. intros s Hs. destruct (phis_shape _ _ _ _ _ _ _ _ H1 s Hs) as (d & ops & Ek & Hd & Hops).
      destruct (placed_var_wf y _ Hd) as [Hg Hvw]. rewrite Ek.
      assert (forall u, u ∈ map snd ops -> variable u = variable d) as Hu.
      { intros u ([p op] & -> & Hin)%elem_of_map. by eapply Hops. }
      split; simpl.
      * apply Forall_app. split; [|by constructor; [apply (var_wf_declares f f' G d Hdecl), Hvw|]].
        apply Forall_forall. intros u Hin. apply (var_wf_declares f f' G u Hdecl), Hvw. auto.
      * constructor; [done|]. apply Forall_forall. intros u Hin. by rewrite (Hu u Hin).
    + eapply Forall_impl; [by eapply renamed_kinds_wf|]. intros s. by apply kind_wf_declares.
  - rewrite Et, Ebt. simpl. eexists. split; [reflexivity|]. unfold term_wf, term_map_src_var in *.
    destruct (term_kind t) as [args|ts] eqn:Ek; simpl; [|rewrite Ek; by rewrite ssa_length].
    destruct Htw as (Hv & Ha & Hl). rewrite omap_base_variable_map. split_and!; [| |by rewrite length_map].
    + apply Forall_fmap. eapply Forall_impl; [exact Hv|]. intros u Hu. simpl. by apply var_wf_rename.
    + apply Forall_fmap. eapply Forall_impl; [exact Ha|]. intros e. apply operand_wf_map.
  - rewrite El. apply Forall_app. split.
    + apply Forall_forall. intros s Hs. destruct (phis_shape _ _ _ _ _ _ _ _ H1 s Hs) as (d & ops & -> & _). done.
    + apply Forall_forall. intros s Hs. unfold store_wf. destruct (kind s) as [dest srcs| | |] eqn:Ek; try done. intros Hseg i Hi Hi0.
      change (base dest ∈ bs' ≫= block_dst_vars).
      assert (dsts l1 ++ dsts l2 ⊆ bs' ≫= block_dst_vars) as HD.
      { intros d Hd. apply list_elem_of_bind. exists b'. split; [|by eapply list_elem_of_lookup_2]. change (d ∈ dsts (statements b')).
        rewrite El. unfold dsts in *. rewrite bind_app. apply elem_of_app. apply elem_of_app in Hd as [Hd|Hd]; [left|by right].
        change (d ∈ dsts (map (patch_stmt (list_to_set (seq 0 (length bs1))) tout) l1)). by rewrite dsts_patch. }
      assert (y < length bs1) as Hy1 by (rewrite (add_phis_length bs bs1 T Ps Hbs1); by eapply lookup_lt_Some).
      destruct (ren_stmts_defined (bs' ≫= block_dst_vars) _ _ _ _ H1) as [Hm _].
      { eapply renamed_defined; [eapply tree_wf_length; [|exact Htree]; by eapply add_phis_length|done..]. }
      { set_solver. }
      destruct (ren_stmts_defined (bs' ≫= block_dst_vars) _ _ _ _ H2 Hm) as [_ Huse]; [set_solver|].
      eapply (Huse Hpl s (base dest) i); [done| |done|done]. rewrite Ek. simpl. unfold is_pathless.
      rewrite bool_decide_eq_false_2 by done. by left.
  - exists b. done.
Qed.

Lemma ssa_function_wf : function_wf f' G.
Proof.
  split_and!; [apply Hpre|..]; apply Forall_forall; intros b' [y Hy]%list_elem_of_lookup; by destruct (ssa_block_wf y b' Hy) as (? & ? & _).
Qed.
End blocks_wf.

(** ** Entry bindings *)

Definition param_stmt (i : nat) : Statement :=
  new_kind (Assign (ap_of_var (with_version (new_parameter i) 0)) [Exp_variable (new_parameter i)]).

Lemma param_dsts l : (map param_stmt l ≫= fun s => iter_dst_var (kind s)) = map (fun i => with_version (new_parameter i) 0) l.
Proof. induction l as [|i l IH]; [done|]. by apply (f_equal (cons (with_version (new_parameter i) 0))) in IH. Qed.

Lemma bind_params_spec b0 rest k : forall l i, foldM bind_param (with_statements b0 l :: rest) (seq i k) =
  Ret (with_statements b0 (map param_stmt (rev (seq i k)) ++ l) :: rest).
Proof.
  induction k as [|k IH]; intros l i; [done|]. cbn [seq foldM rev].
  assert (bind_param (with_statements b0 l :: rest) i = Ret (with_statements b0 (param_stmt i :: l) :: rest)) as -> by done.
  rewrite IH, map_app, <- app_assoc. done.
Qed.

Lemma bound_wf f G b0 rest k : blocks f = b0 :: rest -> k <= num_parameters f -> function_wf f G ->
  function_wf (with_blocks f (with_statements b0 (map param_stmt (rev (seq 0 k)) ++ statements b0) :: rest)) G.
Proof.
  intros E Hk (Hn & Hb & Hs). set (f' := with_blocks _ _). rewrite E in Hb, Hs. apply Forall_cons in Hb as [[Hk0 Ht0] Hb], Hs as [Hs0 Hs].
  assert (declares f f') as Hdecl by done.
  assert (forall s, store_wf f (kind s) -> store_wf f' (kind s)) as Hst.
  { intros s H. unfold store_wf in *. destruct (kind s) as [dest srcs| | |]; try done. intros H1 v H2 H3. specialize (H H1 v H2 H3).
    unfold definitions_of in *. rewrite E in H. simpl in *. rewrite bind_app. set_solver. }
  assert (forall t, term_wf f G (term_kind t) -> term_wf f' G (term_kind t)) as Hterm.
  { intros t. unfold term_wf. destruct (term_kind t); [done|]. simpl. by rewrite E. }
  assert (forall b, block_wf f G b -> block_wf f' G b) as Hbw.
  { intros b [H1 (t & Et & Ht)]. split; [|exists t; auto]. eapply Forall_impl; [exact H1|]. intros s. by apply kind_wf_declares. }
  split_and!; [done|..]; simpl; constructor.
  - destruct (Hbw b0) as [H1 H2]; [by split|]. split; [|done]. simpl. apply Forall_app. split; [|done].
    apply Forall_forall. intros s (i & -> & Hi%elem_of_rev%elem_of_seq)%elem_of_map.
    assert (i < num_parameters f') as Hi' by (unfold num_parameters in *; simpl; lia).
    split; simpl; [repeat constructor; done|]. split_and!; [apply path_wf_var|done|by intros [_ ?]|].
    constructor; [|constructor]. intros ap [= <-]. apply path_wf_var.
  - eapply Forall_impl; [exact Hb|]. apply Hbw.
  - simpl. apply Forall_app. split; [|eapply Forall_impl; [exact Hs0|]; intros s; apply Hst].
    apply Forall_forall. intros s (i & -> & _)%elem_of_map. by intros [].
  - eapply Forall_impl; [exact Hs|]. intros b Hbs. eapply Forall_impl; [exact Hbs|]. intros s; apply Hst.
Qed.

Lemma function_verify_iff f : FunctionData_verify f = Ret (Ok tt) <-> function_wf f None.
Proof.
  unfold FunctionData_verify. destruct (visit_function_spec CirVerify_default 0 f) as (es & -> & Hes). simpl.
  assert (es = [] <-> function_wf f None) as <- by (rewrite Hes; simpl; set_solver).
  unfold take_error. simpl. destruct es; split; done.
Qed.

Lemma function_wf_none f G : function_wf f G -> function_wf f None.
Proof.
  intros (Hn & Hb & Hs). split_and!; [done| |done].
  assert (forall v, var_wf f G v -> var_wf f None v) as Hv by (intros v; unfold var_wf; destruct (variable v); try done; by intros [_ ?]).
  eapply Forall_impl; [exact Hb|]. intros b [Hk (t & Et & Ht)]. split.
  - eapply Forall_impl; [exact Hk|]. intros st [H1 H2]. split; [|done]. eapply Forall_impl; [exact H1|]. apply Hv.
  - exists t. split; [done|]. unfold term_wf in *. destruct (term_kind t); [|done]. destruct Ht as (H1 & H2 & H3). split_and!; [|done..].
    eapply Forall_impl; [exact H1|]. apply Hv.
Qed.

(** The first block with the entry bindings in front. *)
Definition bound_block (f : FunctionData) (b0 : BasicBlockData) : BasicBlockData :=
  with_statements b0 (map param_stmt (rev (seq 0 (length (params f)))) ++ statements b0).

(** What [transform_with] made of [f], by way of the completed function [f1]. *)
Record transformed (f f' f1 : FunctionData) (G : option nat) (bs1 : BasicBlocks) (b0 : BasicBlockData) (rest : list BasicBlockData)
    (dt : DominatorTree) (T : list (list nat)) (Ps : nat -> list Var) (tin tout : nat -> vers) : Prop := {
  tf_result : f' = with_blocks f1 (bound_block f1 b0 :: rest);
  tf_name : name f1 = name f;
  tf_pre : pre_ssa G f1;
  tf_dt : dominator_tree_ok (blocks f1) dt;
  tf_phis : forall y v, v ∈ Ps y -> exists x, assigns (blocks f1) v x;
  tf_placed : forall y, bs1 !! y = add_phis T y (Ps y) <$> blocks f1 !! y;
  tf_renamed : renamed bs1 dt (b0 :: rest) tin tout;
  tf_returns : forall i b, blocks f1 !! i = Some b -> (exists args, term_kind <$> terminator b = Some (Return args)) <-> S i = S (length rest);
}.

Lemma transformed_wf f f' f1 G bs1 b0 rest dt T Ps tin tout :
  transformed f f' f1 G bs1 b0 rest dt T Ps tin tout -> function_wf f' G.
Proof.
  intros [-> _ Hpre Hdk HPs Hb1 Hren _].
  apply (bound_wf (with_blocks f1 (b0 :: rest))); [done|done|]. exact (ssa_function_wf f1 G bs1 (b0 :: rest) dt T Ps tin tout Hpre (dk_tree _ _ Hdk) HPs Hb1 Hren).
Qed.

Lemma transform_spec (hash_iter : gset nat -> list nat) fuel prune mode f G : pre_ssa G f ->
  (prune = false -> forall n, n < length (blocks f) -> reaches (blocks f) 0 n) -> (forall s x, x ∈ hash_iter s -> x ∈ s) ->
  search_fuel (successors (blocks f)) (node_set (blocks f)) <= fuel ->
  (forall f0 f1, (if prune then prune_unreachable_nodes fuel f else Ret f) = Ret f0 -> complete f0 = Ret f1 -> ssa_fuel (blocks f1) fuel) ->
  exists f' f1 bs1 b0 rest dt T Ps tin tout, transform_with hash_iter fuel prune mode f = Ret f' /\
    transformed f f' f1 G bs1 b0 rest dt T Ps tin tout.
Proof.
  intros Hpre Hreach Hit Hf Hdt. unfold transform_with.
  rewrite decide_False by (destruct Hpre as (_ & _ & _ & _ & Hpos); intros E0; rewrite E0 in Hpos; simpl in Hpos; lia).
  assert (exists f0, (if prune then prune_unreachable_nodes fuel f else Ret f) = Ret f0 /\ pre_ssa G f0 /\ name f0 = name f /\
      forall n, n < length (blocks f0) -> reaches (blocks f0) 0 n) as (f0 & E0 & Hpre0 & Hn0 & Hr0).
  { destruct prune; [|exists f; auto]. destruct (prune_spec fuel f) as (f0 & r & E0 & Hpr); [by eapply pre_ssa_graph|apply Hpre|done|].
    exists f0. split; [done|]. split; [by eapply prune_pre_ssa|]. split; [destruct Hpr as (Ef & _); by rewrite Ef|].
    eapply pruned_reachable; [by eapply pre_ssa_graph|apply Hpre|done]. }
  specialize (Hdt f0). rewrite E0 in *. cbn [mbind outcome_bind].
  destruct (complete_blocks f0) as (? & ? & ? & E1 & _); [apply Hpre0|by eapply pre_ssa_graph|apply Hpre0|].
  set (f1 := with_blocks _ _) in E1. assert (name f1 = name f) as Hn1 by done. rewrite E1. clearbody f1. pose proof (Hdt f1 eq_refl E1) as Hfuel.
  destruct (complete_pre_ssa f0 f1 G Hpre0 E1) as (Hpre1 & _ & Hlen1 & Hret). cbn [mbind outcome_bind].
  destruct (dominator_tree_ready hash_iter fuel (blocks f1)) as (dt & Edt & Hdk); [by eapply pre_ssa_graph|lia| |done..|].
  { eapply complete_reachable; [apply Hpre0|by eapply pre_ssa_graph|apply Hpre0|done..]. }
  destruct (ssa_blocks_spec hash_iter fuel mode (blocks f1) dt) as (bs1 & bs' & T & Ps & tin & tout & E2 & HT & HPs & Hb1 & Hren);
    [by eapply pre_ssa_graph|apply Hpre1|done..|].
  rewrite E2. cbn [mbind outcome_bind].
  assert (length bs' = S (length (blocks f0))) as Hlen by (rewrite (rd_len _ _ _ _ _ Hren), <- Hlen1; by eapply add_phis_length).
  destruct bs' as [|b0 rest]; [done|]. assert (length rest = length (blocks f0)) as Hlr by (simpl in Hlen; lia).
  pose proof (bind_params_spec b0 rest (length (params f1)) (statements b0) 0) as Eb.
  replace (with_statements b0 (statements b0)) with b0 in Eb by (by destruct b0). rewrite Eb. cbn [mbind outcome_bind].
  assert (transformed f (with_blocks f1 (bound_block f1 b0 :: rest)) f1 G bs1 b0 rest dt T Ps tin tout) as Htf.
  { split; [done..| |done|done|].
    - intros y v Hv. apply (HPs y) in Hv as [Hi _]. by eapply idf_nonempty.
    - intros i b Hi. rewrite (Hret i b Hi), Hlr. lia. }
  change (with_statements b0 _) with (bound_block f1 b0).
  rewrite (proj2 (function_verify_iff _) (function_wf_none _ _ (transformed_wf _ _ _ _ _ _ _ _ _ _ _ _ Htf))).
  eexists _, f1, bs1, b0, rest, dt, T, Ps, tin, tout. split; [reflexivity|done].
Qed.

(** All definitions are distinct, the entry bindings included. *)
Lemma transformed_single f f' f1 G bs1 b0 rest dt T Ps tin tout :
  transformed f f' f1 G bs1 b0 rest dt T Ps tin tout -> NoDup (blocks f' ≫= block_dst_vars).
Proof.
  intros [-> _ _ _ _ _ Hren _]. simpl. unfold block_dst_vars at 1. simpl. rewrite bind_app, <- app_assoc. apply NoDup_app. split_and!.
  - rewrite param_dsts.
    apply (NoDup_fmap_2_strong (fun i => with_version (new_parameter i) 0)); [|rewrite <- Permutation_rev; apply NoDup_seq].
    intros i j _ _ H. by injection H.
  - intros d (s & Hd & (i & -> & _)%elem_of_map)%list_elem_of_bind Hin. simpl in Hd. apply list_elem_of_singleton in Hd as ->.
    destruct (rd_pos _ _ _ _ _ Hren (with_version (new_parameter i) 0)) as (j & [= <-] & ?); [exact Hin|lia].
  - apply (rd_single _ _ _ _ _ Hren).
Qed.

(** The SSA form of a verified function verifies.  Take a non-empty function that passes
    [verify] and has no versions or phis, and either prune it or let all its blocks be reachable.
    Then [transform_with] returns, so that neither the assertion of [DominatorTree::new] nor the
    final [verify().unwrap()] panics; the result passes [verify]; exactly one block returns, the
    last one; and no two definitions of it have the same variable and version, the entry bindings
    of version 0 of the parameters included. *)
Theorem transform_verifies (hash_iter : gset nat -> list nat) (fuel : nat) (prune : bool) (mode : PhiMode) (f : FunctionData) :
  FunctionData_verify f = Ret (Ok tt) -> blocks f <> [] -> Locals_wf (locals f) -> plain_blocks (blocks f) ->
  (prune = false -> forall n, n < length (blocks f) -> reaches (blocks f) 0 n) -> (forall s x, x ∈ hash_iter s -> x ∈ s) ->
  search_fuel (successors (blocks f)) (node_set (blocks f)) <= fuel ->
  (forall f0 f1, (if prune then prune_unreachable_nodes fuel f else Ret f) = Ret f0 -> complete f0 = Ret f1 -> ssa_fuel (blocks f1) fuel) ->
  exists f', transform_with hash_iter fuel prune mode f = Ret f' /\ FunctionData_verify f' = Ret (Ok tt) /\
    NoDup (blocks f' ≫= block_dst_vars) /\
    forall i b, blocks f' !! i = Some b ->
      (exists args, term_kind <$> terminator b = Some (Return args)) <-> S i = length (blocks f').
Proof.
  intros Hfw Hne Hl Hp Hreach Hit Hf Hdt. assert (pre_ssa None f) as Hpre.
  { apply function_verify_iff in Hfw as (? & ? & _). split_and!; [done..|]. by destruct (blocks f); [|simpl; lia]. }
  destruct (transform_spec hash_iter fuel prune mode f None Hpre Hreach Hit Hf Hdt) as (f' & f1 & bs1 & b0 & rest & dt & T & Ps & tin & tout & E & Htf).
  exists f'. split; [done|]. split; [by eapply function_verify_iff, transformed_wf|]. split; [by eapply transformed_single|].
  destruct Htf as [-> _ Hpre1 Hdk HPs Hb1 Hren Hret]. intros i b Hi. simpl in *.
  assert (exists b1, (b0 :: rest) !! i = Some b1 /\ terminator b = terminator b1) as (b1 & Hb1' & ->) by (destruct i; simpl in *; simplify_eq; eauto).
  destruct (ssa_block_wf f1 None bs1 (b0 :: rest) dt T Ps tin tout Hpre1 (dk_tree _ _ Hdk) HPs Hb1 Hren i b1 Hb1') as (_ & _ & b2 & Hb2 & ->).
  rewrite <- (Hret i b2 Hb2). destruct (terminator b2) as [t|]; [|done]. simpl. unfold term_map_src_var.
  destruct (term_kind t) eqn:Ek; simpl; rewrite ?Ek; naive_solver.
Qed.

(** [phi_example] as a function of one parameter. *)
Definition transform_example : FunctionData :=
  {| name := "f"; params := [Copied]; arity := 1; blocks := phi_example; locals := {| decls := ["x"]; by_name := ∅ |} |}.

Lemma transform_verifies_witness : exists f', transform_with elements 80 true Pruned transform_example = Ret f' /\
  FunctionData_verify f' = Ret (Ok tt) /\ NoDup (blocks f' ≫= block_dst_vars) /\ length (blocks f') = 5.
Proof.
  destruct (transform_verifies elements 80 true Pruned transform_example) as (f' & E & Hv & Hnd & _).
  - vm_compute. reflexivity.
  - done.
  - split; [by_decide|by left].
  - intros [|[|[|[|y]]]] b [= <-]; (split; [|intros t [= <-]]); repeat constructor.
  - done.
  - intros s x. apply elem_of_elements.
  - by_decide.
  - intros f0 f1 E0 E1. vm_compute in E0. injection E0 as <-. vm_compute in E1. injection E1 as <-.
    split; [vm_compute; lia|]. split; [simpl; lia|]. intros sc Esc. vm_compute in Esc. injection Esc as <-. vm_compute. lia.
  - exists f'. split; [exact E|]. split; [exact Hv|]. split; [exact Hnd|]. vm_compute in E. injection E as <-. reflexivity.
Defined.
