(* ===== verification/SsaOrder.v ===== *)
(** * SsaOrder: in SSA form, definitions come before their uses

    Copy propagation asks that a versioned variable have one definition and that copies be
    ordered.  The result of [transform_with] is so: a use has the version of a definition earlier
    in its block or in a block above it in the dominator tree, or the incoming version. *)

From S2P Require Import Prelude Index Text Path IR Graph Dominators CopyProp Coalesce Verify Cfg PhiPlace Rename SsaExec Ssa SsaVerify.

(** ** Distinct definitions *)

Lemma NoDup_bind_elem {A B} (g : A -> list B) (l : list A) x : NoDup (l ≫= g) -> x ∈ l -> NoDup (g x).
Proof.
  induction l as [|a l IH]; csimpl; [by intros _ ?%elem_of_nil|]. intros (H1 & _ & H2)%NoDup_app [->|Hx]%elem_of_cons; auto.
Qed.

Lemma NoDup_bind_lookup {A B} (g : A -> list B) (l : list A) d : NoDup (l ≫= g) -> forall i j x y, l !! i = Some x -> l !! j = Some y ->
  d ∈ g x -> d ∈ g y -> i = j.
Proof.
  induction l as [|a l IH]; csimpl; [done|]. intros (_ & Hd & H2)%NoDup_app i j x y Hi Hj Hx Hy.
  assert (forall k z, l !! k = Some z -> d ∈ g z -> d ∈ g a -> False) as Hno.
  { intros k z Hk Hz Ha. apply (Hd d Ha), list_elem_of_bind. exists z. split; [done|by eapply list_elem_of_lookup_2]. }
  destruct i as [|i], j as [|j]; simplify_eq/=; [done|exfalso; eauto..|]. f_equal. by eapply IH.
Qed.

Lemma bind_stmts {B} (g : Statement -> list B) (bs : BasicBlocks) : stmts_of bs ≫= g = bs ≫= fun b => statements b ≫= g.
Proof. unfold stmts_of. induction bs as [|b bs IH]; csimpl; [done|]. by rewrite bind_app, IH. Qed.

Lemma distinct_single (bs : BasicBlocks) : NoDup (bs ≫= block_dst_vars) -> single_defs (stmts_of bs).
Proof.
  intros Hnd s1 s2 v [i Hi]%list_elem_of_lookup [j Hj]%list_elem_of_lookup H1 H2 _. unfold block_dst_vars in Hnd. rewrite <- bind_stmts in Hnd.
  assert (i = j) as <- by (by eapply (NoDup_bind_lookup _ _ v Hnd)). congruence.
Qed.

(** ** Where the versions come from *)

(** A versioned variable is the incoming one or has a definition in [D]. *)
Definition defined_or_incoming (D : list VariableRef) (v : VariableRef) : Prop := forall i, version v = Some i -> i <> 0 -> v ∈ D.

Lemma ver_defined_mono D D' tau : D ⊆ D' -> ver_defined D tau -> ver_defined D' tau.
Proof. intros HD H v. destruct (H v); auto. Qed.

Lemma rename_ref_defined P `{!forall v, Decision (P v)} D tau u : ver_defined D tau -> version u = None -> defined_or_incoming D (rename_ref P tau u).
Proof.
  intros Ht Hn i Hi Hi0. unfold rename_ref in *. case_decide; [|congruence]. simpl in Hi. injection Hi as <-. by destruct (Ht (variable u)).
Qed.

Lemma ren_stmts_reads tau l l' tau' : ren_stmts tau l l' tau' -> forall D, ver_defined D tau -> forall pre s' post, l' = pre ++ s' :: post ->
  exists s, s ∈ l /\ is_phi (kind s) = is_phi (kind s') /\
    (plain_stmt s -> forall u, u ∈ iter_src_var (kind s') -> defined_or_incoming (D ++ dsts pre) u).
Proof.
  induction 1 as [|tau s ds l l' tau' Hv Hs _ IH]; intros D Ht pre s' post E; [by destruct pre|].
  destruct pre as [|x pre]; injection E as <- E.
  - exists s. split; [by left|]. simpl. rewrite is_phi_set, is_phi_ren. split; [done|]. intros [Hphi [Hn _]%Forall_app] u Hu.
    rewrite iter_src_set, iter_src_ren in Hu by done. apply elem_of_map in Hu as (u0 & -> & Hu0). rewrite app_nil_r.
    rewrite Forall_forall in Hn. apply rename_ref_defined; auto.
  - destruct (IH (D ++ ds)) with pre s' post as (s0 & Hin & Hphi & Hu); [|done|].
    { apply def_vers_defined; [by eapply ver_defined_mono; [|exact Ht]; set_solver|done|set_solver]. }
    exists s0. split; [by right|]. split; [done|]. unfold dsts in *. csimpl. rewrite iter_dst_renamed by done. by rewrite app_assoc.
Qed.

Lemma patch_ops_version S tout ops : forall seen p op, (p, op) ∈ patch_ops S tout seen ops ->
  (p ∈ S /\ version op = Some (tout p (variable op))) \/ (p, op) ∈ ops.
Proof.
  induction ops as [|[q oq] ops IH]; intros seen p op H; simpl in H; [by apply elem_of_nil in H|].
  apply elem_of_cons in H as [[= -> ->]|H].
  - case_decide as Hd; [left; by destruct Hd|right; by left].
  - destruct (IH _ _ _ H) as [?|?]; [by left|right; by right].
Qed.

Section order.
Context (bs bs1 bs' : BasicBlocks) (dt : DominatorTree) (T : list (list nat)) (Ps : nat -> list Var) (tin tout : nat -> vers).
Hypothesis Hplain : plain_blocks bs.
Hypothesis Htree : tree_wf bs1 dt.
Hypothesis Hbs1 : forall y, bs1 !! y = add_phis T y (Ps y) <$> bs !! y.
Hypothesis Hren : renamed bs1 dt bs' tin tout.

(** The definitions of the blocks numbered below [k]. *)
Definition defs_below (k : nat) : list VariableRef := filter (fun z => dfnum_of dt z < k) (seq 0 (length bs1)) ≫= dsts_at bs'.

Lemma elem_of_defs_below k d : d ∈ defs_below k <-> exists z b, dfnum_of dt z < k /\ bs' !! z = Some b /\ d ∈ block_dst_vars b.
Proof.
  unfold defs_below. rewrite list_elem_of_bind. unfold dsts_at. split.
  - intros (z & Hd & [Hz _]%list_elem_of_filter). destruct (bs' !! z) as [b|] eqn:E; [eauto|by apply elem_of_nil in Hd].
  - intros (z & b & Hz & Hb & Hd). exists z. rewrite Hb. split; [done|]. apply list_elem_of_filter. split; [done|].
    apply elem_of_seq. split; [lia|]. rewrite <- (rd_len _ _ _ _ _ Hren). simpl. by eapply lookup_lt_Some.
Qed.

Lemma tin_below y : y < length bs1 -> ver_defined (defs_below (dfnum_of dt y)) (tin y).
Proof.
  intros Hy. pose proof (all_children bs1 dt Htree y Hy) as Hc. clear Hy. revert y Hc. refine (rtc_ind_r _ _ _ _).
  - intros v. left. apply (rd_start _ _ _ _ _ Hren).
  - intros p y _ [Hpy Hys] IH v. destruct (t_num _ _ Htree p y Hpy Hys) as [Hp Hlt]. destruct (lookup_lt_is_Some_2 bs1 p Hp) as [b Hb].
    destruct (rd_blocks _ _ _ _ _ Hren p b Hb) as (b' & l & Hb' & Hr & El & _).
    rewrite (rd_tree _ _ _ _ _ Hren p y Hpy Hys). refine (proj1 (ren_stmts_defined _ _ _ _ _ Hr _ _) v).
    + eapply ver_defined_mono; [|exact IH]. intros d (z & bz & Hz & Hbz & Hd)%elem_of_defs_below. apply elem_of_defs_below. exists z, bz. split_and!; [lia|done..].
    + intros d Hd. apply elem_of_defs_below. exists p, b'. split_and!; [done..|]. change (d ∈ dsts (statements b')). by rewrite El, dsts_patch.
Qed.

Lemma below_all k : defs_below k ⊆ bs' ≫= block_dst_vars.
Proof. intros d (z & b & _ & Hb & Hd)%elem_of_defs_below. apply list_elem_of_bind. exists b. split; [done|by eapply list_elem_of_lookup_2]. Qed.

Lemma tout_defined y : y < length bs1 -> ver_defined (bs' ≫= block_dst_vars) (tout y).
Proof.
  intros Hy. destruct (lookup_lt_is_Some_2 bs1 y Hy) as [b Hb]. destruct (rd_blocks _ _ _ _ _ Hren y b Hb) as (b' & l & Hb' & Hr & El & _).
  refine (proj1 (ren_stmts_defined _ _ _ _ _ Hr _ _)).
  - eapply ver_defined_mono; [apply (below_all (dfnum_of dt y))|by apply tin_below].
  - intros d Hd. apply list_elem_of_bind. exists b'. split; [|by eapply list_elem_of_lookup_2]. change (d ∈ dsts (statements b')). by rewrite El, dsts_patch.
Qed.

(** What a statement other than a phi reads was defined before it. *)
Lemma read_before y b' pre s post u : bs' !! y = Some b' -> statements b' = pre ++ s :: post -> is_phi (kind s) = false ->
  u ∈ iter_src_var (kind s) -> defined_or_incoming (defs_below (dfnum_of dt y) ++ dsts pre) u.
Proof.
  intros Hb' Es Hphi Hu. assert (y < length bs1) as Hy by (rewrite <- (rd_len _ _ _ _ _ Hren); by eapply lookup_lt_Some).
  destruct (lookup_lt_is_Some_2 bs1 y Hy) as [b1 Hb1]. destruct (rd_blocks _ _ _ _ _ Hren y b1 Hb1) as (b2 & l & Hb2 & Hr & El & _).
  assert (b2 = b') as -> by congruence. rewrite Es in El. symmetry in El. apply map_eq_app in El as (lp & lq & -> & Ep & Eq).
  destruct lq as [|s0 lq]; [done|]. injection Eq as Es0 _.
  assert (kind s = kind s0) as Ek by (rewrite <- Es0; unfold patch_stmt; rewrite <- Es0 in Hphi; simpl in *; by destruct (kind s0)).
  destruct (ren_stmts_reads _ _ _ _ Hr _ (tin_below y Hy) lp s0 lq eq_refl) as (s1 & Hin & Ei & Hreads).
  rewrite <- Ep, dsts_patch. apply Hreads; [|by rewrite <- Ek]. rewrite Hbs1 in Hb1. destruct (bs !! y) as [b|] eqn:Hb; [|done]. injection Hb1 as <-.
  simpl in Hin. apply elem_of_app in Hin as [(v & -> & _)%elem_of_map|Hin]; [by rewrite <- Ek, Hphi in Ei|].
  destruct (Hplain y b Hb) as [Hp _]. rewrite Forall_forall in Hp. auto.
Qed.

(** A phi's operands have definitions too. *)
Lemma phi_operand_defined y b' s d ops p op : bs' !! y = Some b' -> s ∈ statements b' -> kind s = Phi d ops -> (p, op) ∈ ops ->
  defined_or_incoming (bs' ≫= block_dst_vars) op.
Proof.
  intros Hb' Hs Hk Hop i Hi Hi0. destruct (lookup_lt_is_Some_2 bs1 y) as [b1 Hb1]; [rewrite <- (rd_len _ _ _ _ _ Hren); by eapply lookup_lt_Some|].
  destruct (rd_blocks _ _ _ _ _ Hren y b1 Hb1) as (b2 & l & Hb2 & Hr & El & _). assert (b2 = b') as -> by congruence.
  rewrite El in Hs. apply elem_of_map in Hs as (s0 & -> & Hs0). unfold patch_stmt in Hk. simpl in Hk.
  destruct (kind s0) as [| |d0 ops0|] eqn:Ek0; try done. injection Hk as -> <-. destruct (patch_ops_version _ _ _ _ _ _ Hop) as [[Hp Ev]|Hin].
  - rewrite elem_of_list_to_set, elem_of_seq in Hp. rewrite Ev in Hi. injection Hi as <-.
    destruct (tout_defined p ltac:(lia) (variable op)) as [?|Hd]; [done|]. by destruct op; simpl in *; subst.
  - exfalso. destruct (ren_stmts_phi _ _ _ _ Hr s0 d ops0 Hs0 Ek0) as (s1 & d1 & Hs1 & Hk1). rewrite Hbs1 in Hb1.
    destruct (bs !! y) as [b|] eqn:Hb; [|done]. injection Hb1 as <-. simpl in Hs1. destruct (Hplain y b Hb) as [Hp _].
    apply elem_of_app in Hs1 as [(v & -> & _)%elem_of_map|Hin1].
    + simpl in Hk1. injection Hk1 as _ <-. apply elem_of_map in Hin as (q & [= -> ->] & _). done.
    + rewrite Forall_forall in Hp. destruct (Hp s1 Hin1) as [H0 _]. by rewrite Hk1 in H0.
Qed.

(** ** The order *)

Definition stmt_sites (bs : BasicBlocks) : list (nat * nat * Statement) :=
  enumerate bs ≫= fun '(y, b) => map (fun '(i, s) => (y, i, s)) (enumerate (statements b)).

Lemma elem_of_stmt_sites y i s : (y, i, s) ∈ stmt_sites bs' <-> exists b, bs' !! y = Some b /\ statements b !! i = Some s.
Proof.
  unfold stmt_sites. rewrite list_elem_of_bind. split.
  - intros ([y' b] & Hin & Hb%elem_of_enumerate). apply elem_of_map in Hin as ([i' s'] & [= -> -> ->] & Hs%elem_of_enumerate). eauto.
  - intros (b & Hb & Hs). exists (y, b). split; [|by apply elem_of_enumerate]. apply elem_of_map. exists (i, s). split; [done|by apply elem_of_enumerate].
Qed.

(** The definitions in the order of the blocks' numbers, and in a block of its statements. *)
Definition def_rank (d : VariableRef) : nat :=
  match list_find (fun e : nat * nat * Statement => d ∈ iter_dst_var (kind e.2)) (stmt_sites bs') with
  | Some (_, (y, i, _)) => dfnum_of dt y * S (length (stmts_of bs')) + S i
  | None => 0
  end.

Lemma site_unique d y i s b y' i' s' b' : bs' !! y = Some b -> statements b !! i = Some s -> d ∈ iter_dst_var (kind s) ->
  bs' !! y' = Some b' -> statements b' !! i' = Some s' -> d ∈ iter_dst_var (kind s') -> y = y' /\ i = i'.
Proof.
  intros Hb Hs Hd Hb' Hs' Hd'. pose proof (rd_single _ _ _ _ _ Hren) as Hnd.
  assert (forall b i s, statements b !! i = Some s -> d ∈ iter_dst_var (kind s) -> d ∈ block_dst_vars b) as Hin.
  { intros b0 i0 s0 H1 H2. apply list_elem_of_bind. exists s0. split; [done|by eapply list_elem_of_lookup_2]. }
  assert (y = y') as <- by (eapply (NoDup_bind_lookup _ _ d Hnd); eauto). split; [done|]. assert (b' = b) as -> by congruence.
  eapply (NoDup_bind_lookup (fun s => iter_dst_var (kind s)) (statements b) d); [|done..].
  apply (NoDup_bind_elem block_dst_vars bs'); [done|by eapply list_elem_of_lookup_2].
Qed.

Lemma def_rank_at d y i s b : bs' !! y = Some b -> statements b !! i = Some s -> d ∈ iter_dst_var (kind s) ->
  def_rank d = dfnum_of dt y * S (length (stmts_of bs')) + S i.
Proof.
  intros Hb Hs Hd. unfold def_rank. destruct (list_find _ _) as [[k [[y' i'] s']]|] eqn:E.
  - apply list_find_Some in E as (Hin%list_elem_of_lookup_2 & Hd' & _). apply elem_of_stmt_sites in Hin as (b' & Hb' & Hs'). simpl in Hd'.
    by destruct (site_unique d y i s b y' i' s' b') as [-> ->].
  - apply list_find_None in E. rewrite Forall_forall in E. exfalso. apply (E (y, i, s)); [|done]. apply elem_of_stmt_sites. eauto.
Qed.

Lemma def_rank_0 d : version d = Some 0 -> def_rank d = 0.
Proof.
  intros Hv. unfold def_rank. destruct (list_find _ _) as [[k [[y i] s]]|] eqn:E; [|done]. exfalso.
  apply list_find_Some in E as (Hin%list_elem_of_lookup_2 & Hd & _). apply elem_of_stmt_sites in Hin as (b & Hb & Hs). simpl in Hd.
  destruct (rd_pos _ _ _ _ _ Hren d) as (j & Hj & ?); [|rewrite Hv in Hj; injection Hj as <-; lia].
  apply list_elem_of_bind. exists b. split; [|by eapply list_elem_of_lookup_2]. apply list_elem_of_bind. exists s. split; [done|by eapply list_elem_of_lookup_2].
Qed.

Lemma statements_short y b : bs' !! y = Some b -> length (statements b) <= length (stmts_of bs').
Proof.
  intros Hb. apply list_elem_of_lookup_2, list_elem_of_split in Hb as (l1 & l2 & ->). unfold stmts_of. rewrite bind_app. csimpl. rewrite !length_app. lia.
Qed.

(** A variable that a statement reads ranks below one that it defines. *)
Lemma reads_ranked y b i s u d : bs' !! y = Some b -> statements b !! i = Some s -> is_phi (kind s) = false ->
  u ∈ iter_src_var (kind s) -> is_Some (version u) -> d ∈ iter_dst_var (kind s) -> def_rank u < def_rank d.
Proof.
  intros Hb Hs Hphi Hu [n Hn] Hd. rewrite (def_rank_at d y i s b) by done. destruct (decide (n = 0)) as [->|Hn0]; [rewrite def_rank_0 by done; lia|].
  pose proof (read_before y b (take i (statements b)) s (drop (S i) (statements b)) u Hb) as Hr. rewrite take_drop_middle in Hr by done.
  specialize (Hr eq_refl Hphi Hu n Hn Hn0). apply elem_of_app in Hr as [(z & bz & Hz & Hbz & Hdz)%elem_of_defs_below|Hr].
  - apply list_elem_of_bind in Hdz as (s' & Hdz & [j Hj]%list_elem_of_lookup). rewrite (def_rank_at u z j s' bz) by done.
    pose proof (statements_short z bz Hbz). apply lookup_lt_Some in Hj. nia.
  - apply list_elem_of_bind in Hr as (s' & Hds & [j Hj]%list_elem_of_lookup). apply lookup_take_Some in Hj as [Hj Hlt].
    rewrite (def_rank_at u y j s' b) by done. lia.
Qed.
End order.

(** ** The result of [transform_with] *)

Section result.
Context (f f' f1 : FunctionData) (G : option nat) (bs1 : BasicBlocks) (b0 : BasicBlockData) (rest : list BasicBlockData)
    (dt : DominatorTree) (T : list (list nat)) (Ps : nat -> list Var) (tin tout : nat -> vers).
Hypothesis Htf : transformed f f' f1 G bs1 b0 rest dt T Ps tin tout.
Let bs' := b0 :: rest.

Lemma result_plain : plain_blocks (blocks f1).
Proof. apply (tf_pre _ _ _ _ _ _ _ _ _ _ _ _ Htf). Qed.

Lemma result_tree : tree_wf bs1 dt.
Proof. eapply tree_wf_length; [eapply add_phis_length, (tf_placed _ _ _ _ _ _ _ _ _ _ _ _ Htf)|]. apply (tf_dt _ _ _ _ _ _ _ _ _ _ _ _ Htf). Qed.

(** A statement is an entry binding or one of the renamed function. *)
Lemma result_stmt s : s ∈ stmts_of (blocks f') -> (exists i, s = param_stmt i) \/ exists y b i, bs' !! y = Some b /\ statements b !! i = Some s.
Proof.
  rewrite (tf_result _ _ _ _ _ _ _ _ _ _ _ _ Htf). simpl. unfold stmts_of. csimpl. intros [[Hs|Hs]%elem_of_app|Hs]%elem_of_app.
  - apply elem_of_map in Hs as (i & -> & _). left. eauto.
  - right. apply list_elem_of_lookup in Hs as [i Hi]. by exists 0, b0, i.
  - right. apply list_elem_of_bind in Hs as (b & [i Hi]%list_elem_of_lookup & [y Hy]%list_elem_of_lookup). by exists (S y), b, i.
Qed.

Lemma result_defs d : d ∈ bs' ≫= block_dst_vars -> d ∈ definitions_of f'.
Proof.
  rewrite (tf_result _ _ _ _ _ _ _ _ _ _ _ _ Htf). unfold definitions_of, bs', block_dst_vars. csimpl. rewrite bind_app. set_solver.
Qed.

Lemma result_ranked : copies_ranked (def_rank bs' dt) (stmts_of (blocks f')).
Proof.
  intros s d src Hs Hc. destruct (result_stmt s Hs) as [(i & ->)|(y & b & i & Hb & Hi)]; [done|].
  apply copy_of_Some in Hc as (dest & e & Hk & Hp & <- & He & _ & Hv & _).
  eapply (reads_ranked (blocks f1) bs1 bs' dt T Ps tin tout result_plain result_tree (tf_placed _ _ _ _ _ _ _ _ _ _ _ _ Htf)
    (tf_renamed _ _ _ _ _ _ _ _ _ _ _ _ Htf) y b i s); rewrite ?Hk; simpl; rewrite ?Hp; [done..| | |by left].
  - destruct e as [ap| | | | |]; simpl in He; try done. destruct (is_pathless ap); [|done]. injection He as <-. by left.
  - unfold has_version in Hv. destruct (version src); [eauto|done].
Qed.

Lemma result_sources u : alias_source (stmts_of (blocks f')) u -> defined_or_incoming (definitions_of f') u.
Proof.
  intros Hu. assert (defined_or_incoming (bs' ≫= block_dst_vars) u) as Hin; [|intros i Hi Hi0; eapply result_defs, Hin; eauto].
  pose proof result_plain as Hp. pose proof result_tree as Ht. destruct Htf as [_ _ _ _ _ Hb1 Hren _].
  destruct Hu as [(d & s & Hs & Hc)|(d & ops & (s & o & Hs & Hk & -> & _) & Hop)];
    (destruct (result_stmt s Hs) as [(k & ->)|(y & b & k & Hb & Hi)]; [done|]).
  - apply copy_of_Some in Hc as (dest & e & Hk & Hpl & _ & He & _). intros i Hv Hi0.
    assert (u ∈ iter_src_var (kind s)) as Hu.
    { rewrite Hk. simpl. rewrite Hpl. destruct e as [ap| | | | |]; simpl in He; try done. destruct (is_pathless ap); [|done]. injection He as <-. by left. }
    pose proof (read_before (blocks f1) bs1 bs' dt T Ps tin tout Hp Ht Hb1 Hren y b (take k (statements b)) s (drop (S k) (statements b)) u Hb) as Hr.
    rewrite take_drop_middle in Hr by done. specialize (Hr eq_refl ltac:(by rewrite Hk) Hu i Hv Hi0).
    apply elem_of_app in Hr as [Hr|Hr]; [by eapply below_all|]. apply list_elem_of_bind. exists b. split; [|by eapply list_elem_of_lookup_2].
    apply list_elem_of_bind in Hr as (s' & Hd & Hs'). apply list_elem_of_bind. exists s'. split; [done|].
    apply list_elem_of_lookup in Hs' as [j Hj]. apply lookup_take_Some in Hj as [Hj _]. by eapply list_elem_of_lookup_2.
  - apply list_elem_of_fmap in Hop as ([p op] & -> & Hop). eapply (phi_operand_defined (blocks f1) bs1 bs' dt T Ps tin tout); try done.
    by eapply list_elem_of_lookup_2.
Qed.
End result.
