(* ===== verification/Mem2Reg.v ===== *)
(** * Mem2Reg: promotion of stack slots ([ctadl-ir/src/ssa/mem2reg/mod.rs])

    [promote_function] gives a local of its own to every stack slot that only direct accesses
    reach, and under full promotion to the others too, with a reload after the calls that may
    write them.  A [HashMap] or [BTreeMap] from slots is a [gmap Z]; a [BTreeSet] is iterated in
    ascending order.  An escape note records the sites of its samples, not their text. *)

From S2P Require Import Prelude Index Text Path PathSyntax IR.

Definition STACK_TOP : string := "__stack_top".

Inductive EscapePolicy : Type := Exact | Window (n : Z) | AllAbove.
#[export] Instance EscapePolicy_eq_dec : EqDecision EscapePolicy.
Proof. solve_decision. Defined.

(** [s.parse::<i64>()] and [s.parse::<usize>()]: an optional sign, then digits, in range. *)
Definition parse_i64_str (s : string) : option Z :=
  let '(_, digits) := split_sign s in
  if all_str is_digit digits && negb (bool_decide (digits = "")) then i64_from_str s else None.

Definition usize_max : Z := (2 ^ 64 - 1)%Z.

Definition parse_usize_str (s : string) : option Z :=
  let digits := match s with String "+" d => d | _ => s end in
  if all_str is_digit digits && negb (bool_decide (digits = "")) && bool_decide (digits_val 0 digits <= usize_max)%Z
  then Some (digits_val 0 digits) else None.

Definition EscapePolicy_parse (s : string) : option EscapePolicy :=
  if decide (s = "exact") then Some Exact
  else if decide (s = "above") then Some AllAbove
  else n ← strip_prefix_str "window:" s; n ← parse_i64_str n; if decide (0 < n)%Z then Some (Window n) else None.

Definition EscapePolicy_tag (p : EscapePolicy) : string :=
  match p with
  | Exact => "exact"
  | Window n => "w" +:+ show_Z n
  | AllAbove => "above"
  end.

(** Whether an address escaped at [j] reaches slot [k]. *)
Definition reaches_slot (p : EscapePolicy) (j k : Z) : Prop :=
  match p with
  | Exact => k = j
  | Window n => (j <= k)%Z /\ (k < saturating_add j n)%Z
  | AllAbove => (j <= k)%Z
  end.
#[export] Instance reaches_slot_dec p j k : Decision (reaches_slot p j k).
Proof. destruct p; simpl; apply _. Defined.

Definition DEFAULT_FULL_THRESHOLD : Z := 1000.

Record Mem2Reg : Type := { escape : EscapePolicy; full_above : option Z }.

Definition Mem2Reg_from (p : EscapePolicy) : Mem2Reg := {| escape := p; full_above := None |}.

Definition Mem2Reg_parse (s : string) : option Mem2Reg :=
  let full n := {| escape := Window 8; full_above := Some n |} in
  if decide (s = "full") then Some (full DEFAULT_FULL_THRESHOLD)
  else match strip_prefix_str "full:" s with
       | Some n => full <$> parse_usize_str n
       | None => Mem2Reg_from <$> EscapePolicy_parse s
       end.

Definition Mem2Reg_tag (m : Mem2Reg) : string :=
  match full_above m with
  | None => EscapePolicy_tag (escape m)
  | Some n => EscapePolicy_tag (escape m) +:+ ",full>" +:+ show_Z n
  end.

Inductive FullMode : Type := Force | Forbid.

Inductive EscapeKind : Type := CallInput | EscCopied | FieldAccess | Returned | Stored.
#[export] Instance EscapeKind_eq_dec : EqDecision EscapeKind.
Proof. solve_decision. Defined.
#[export] Instance EscapeKind_countable : Countable EscapeKind.
Proof.
  refine (inj_countable' (fun k => match k with CallInput => 0 | EscCopied => 1 | FieldAccess => 2 | Returned => 3 | Stored => 4 end)
    (fun n => match n with 0 => CallInput | 1 => EscCopied | 2 => FieldAccess | 3 => Returned | _ => Stored end) _).
  by intros [].
Defined.

Record EscapeNote : Type := { note_function : string; note_kinds : gmap EscapeKind nat; note_samples : list (nat * nat) }.

Record Mem2RegStats : Type := mk_stats {
  promoted_accesses : nat; kept_accesses : nat; promoted_slots : nat; skipped_functions : nat;
  full_functions : nat; escaped_slots : nat; reloads : nat }.

Definition Mem2RegStats_default : Mem2RegStats := mk_stats 0 0 0 0 0 0 0.

Definition stats_add (a o : Mem2RegStats) : Mem2RegStats :=
  mk_stats (promoted_accesses a + promoted_accesses o) (kept_accesses a + kept_accesses o) (promoted_slots a + promoted_slots o)
    (skipped_functions a + skipped_functions o) (full_functions a + full_functions o) (escaped_slots a + escaped_slots o)
    (reloads a + reloads o).

(** ** Uses of the frame base *)

(** The slot an access path on the frame base names, and the rest of its path. *)
Definition frame_access (ap : AccessPath) (st : Var) : option (Z * path) :=
  if decide (variable (base ap) = st) then
    match segments ap with
    | Offset k :: rest => Some (k, rest)
    | segs => Some (0%Z, segs)
    end
  else None.

Inductive Use : Type := Direct (k : Z) (is_store : bool) | Escape (k : Z) (how : EscapeKind).

Definition read_use (ap : AccessPath) (st : Var) (how : EscapeKind) : option Use :=
  '(k, rest) ← frame_access ap st;
  Some match head rest with
       | Some Deref => Direct k false
       | None => Escape k how
       | Some _ => Escape k FieldAccess
       end.

Definition exp_use (st : Var) (how : EscapeKind) (e : Exp) : option Use := ap ← access_path e; read_use ap st how.

Definition classify_uses (k : StatementKind) (st : Var) : list Use :=
  match k with
  | Assign dest sources =>
      let how := if is_pathless dest then EscCopied else Stored in
      match frame_access dest st with
      | Some (k, rest) =>
          if is_pathless dest then [] else [match head rest with Some Deref => Direct k true | _ => Escape k FieldAccess end]
      | None => []
      end ++ omap (exp_use st how) sources
  | CallAssign style _ args =>
      omap (exp_use st CallInput) args ++
      match style with
      | FuncPtrCall callee _ => match read_use callee st CallInput with Some u => [u] | None => [] end
      | _ => []
      end
  | _ => []
  end.

(** The frame addresses a call is passed or calls through. *)
Definition call_escapes (k : StatementKind) (st : Var) : list Z :=
  match k with
  | CallAssign style _ args =>
      omap (fun ap => match frame_access ap st with Some (k, []) => Some k | _ => None end)
        (omap access_path args ++ match style with FuncPtrCall callee _ => [callee] | _ => [] end)
  | _ => []
  end.

(** The access path after promotion, and whether it was a direct access and promoted. *)
Definition promote_access (ap : AccessPath) (st : Var) (promotable : gmap Z VariableRef) : AccessPath * option bool :=
  match frame_access ap st with
  | Some (k, Deref :: t) =>
      match promotable !! k with
      | Some local => (AccessPath_new local t, Some true)
      | None => (ap, Some false)
      end
  | _ => (ap, None)
  end.

Definition slot_local_name (k : Z) : string :=
  if decide (k < 0)%Z then "__stack_m" +:+ show_Z (Z.abs k) else "__stack_" +:+ show_Z k.

(** ** Pass 1: classify *)

Notation escape_site := (Z * EscapeKind * nat * nat)%type.

Record UseScan : Type := { sc_uses : list Use; sc_escapes : list escape_site }.

Fixpoint foldO {A B} (f : B -> A -> option B) (b : B) (l : list A) : option B :=
  match l with [] => Some b | x :: l => b ← f b x; foldO f b l end.

(** [None]: a use that is not classified. *)
Definition m2r_scan_stmt (st : Var) (bb : nat) (sc : UseScan) (e : nat * Statement) : option UseScan :=
  let '(i, s) := e in
  if decide (Exists (fun v => variable v = st) (iter_dst_var (kind s))) then None
  else
    let reads := length (filter (fun v => variable v = st) (iter_src_var (kind s))) in
    let uses := classify_uses (kind s) st in
    if decide (length uses = reads) then
      Some {| sc_uses := sc_uses sc ++ uses;
              sc_escapes := sc_escapes sc ++
                omap (fun u => match u with Escape j how => Some (j, how, bb, i) | _ => None end) uses |}
    else None.

Definition returned_slots (st : Var) (t : Terminator) : list Z :=
  match term_kind t with
  | Return args => omap (fun e => ap ← access_path e; '(k, _) ← frame_access ap st; Some k) args
  | Goto _ => []
  end.

Definition m2r_scan_block (st : Var) (sc : UseScan) (e : nat * BasicBlockData) : option UseScan :=
  let '(bb, data) := e in
  sc ← foldO (m2r_scan_stmt st bb) sc (enumerate (statements data));
  match terminator data with
  | Some t =>
      let reads := length (filter (fun v => variable v = st) (term_iter_src_var t)) in
      let ks := returned_slots st t in
      if decide (length ks = reads) then
        Some {| sc_uses := sc_uses sc; sc_escapes := sc_escapes sc ++ map (fun k => (k, Returned, bb, length (statements data))) ks |}
      else None
  | None => Some sc
  end.

Definition m2r_scan (st : Var) (bs : list BasicBlockData) : option UseScan :=
  foldO (m2r_scan_block st) {| sc_uses := []; sc_escapes := [] |} (enumerate bs).

(** ** Pass 2: choose *)

Definition direct_slots (uses : list Use) : gset Z := list_to_set (omap (fun u => match u with Direct k _ => Some k | _ => None end) uses).
Definition stored_slots (uses : list Use) : gset Z := list_to_set (omap (fun u => match u with Direct k true => Some k | _ => None end) uses).

Definition slot_iter (s : gset Z) : list Z := merge_sort Z.le (elements s).

Definition reached (policy : EscapePolicy) (escapes : list escape_site) (k : Z) : Prop :=
  Exists (fun e : escape_site => reaches_slot policy e.1.1.1 k) escapes.
#[export] Instance reached_dec policy escapes k : Decision (reached policy escapes k).
Proof. unfold reached. apply _. Defined.
Definition reached_by_return (policy : EscapePolicy) (escapes : list escape_site) (k : Z) : Prop :=
  Exists (fun e : escape_site => e.1.1.2 = Returned /\ reaches_slot policy e.1.1.1 k) escapes.
#[export] Instance reached_by_return_dec policy escapes k : Decision (reached_by_return policy escapes k).
Proof. unfold reached_by_return. apply _. Defined.

Record Choice : Type := { ch_function : FunctionData; ch_promotable : gmap Z VariableRef; ch_escaped : gmap Z VariableRef }.

Definition choose_slot (policy : EscapePolicy) (full : bool) (existing : gset string) (escapes : list escape_site) (c : Choice) (k : Z)
  : Choice :=
  let name := slot_local_name k in
  if decide (reached policy escapes k /\ (full = false \/ reached_by_return policy escapes k \/ name ∈ existing)) then c
  else
    let '(f, idx) := intern_local (ch_function c) name in
    let local := new_local_idx idx in
    {| ch_function := f; ch_promotable := <[k := local]> (ch_promotable c);
       ch_escaped := if decide (reached policy escapes k) then <[k := local]> (ch_escaped c) else ch_escaped c |}.

Definition choose_slots (policy : EscapePolicy) (full : bool) (f : FunctionData) (sc : UseScan) : Choice :=
  let existing : gset string :=
    if full then list_to_set (filter (fun n => is_Some (strip_prefix_str "__stack_" n)) (decls (locals f))) else ∅ in
  foldl (choose_slot policy full existing (sc_escapes sc)) {| ch_function := f; ch_promotable := ∅; ch_escaped := ∅ |}
    (slot_iter (direct_slots (sc_uses sc))).

(** The escapes that the reloads do not cover. *)
Definition lost (policy : EscapePolicy) (escaped : gmap Z VariableRef) (stored : gset Z) (e : escape_site) : Prop :=
  let '(j, how, _, _) := e in
  Exists (fun k => reaches_slot policy j k /\ (how <> CallInput \/ k ∈ stored)) (map fst (map_to_list escaped)).
#[export] Instance lost_dec policy escaped stored e : Decision (lost policy escaped stored e).
Proof. destruct e as [[[? ?] ?] ?]. simpl. apply _. Defined.

Definition note_add (n : EscapeNote) (e : escape_site) : EscapeNote :=
  let '(_, how, bb, i) := e in
  {| note_function := note_function n; note_kinds := <[how := default 0 (note_kinds n !! how) + 1]> (note_kinds n);
     note_samples := if decide (length (note_samples n) < 5) then note_samples n ++ [(bb, i)] else note_samples n |}.

Definition escape_note (name : string) (policy : EscapePolicy) (escaped : gmap Z VariableRef) (stored : gset Z) (escapes : list escape_site)
  : option EscapeNote :=
  foldl (fun note e => Some (note_add (default {| note_function := name; note_kinds := ∅; note_samples := [] |} note) e))
    None (filter (lost policy escaped stored) escapes).

(** ** Pass 3: rewrite *)

(** The two counters. *)
Definition count_access (c : nat * nat) (r : option bool) : nat * nat :=
  match r with Some true => (c.1 + 1, c.2) | Some false => (c.1, c.2 + 1) | None => c end.

Definition promote_exp (st : Var) (promotable : gmap Z VariableRef) (c : nat * nat) (e : Exp) : (nat * nat) * Exp :=
  match access_path e with
  | Some ap => let '(ap', r) := promote_access ap st promotable in (count_access c r, map_access_path (fun _ => ap') e)
  | None => (c, e)
  end.

Fixpoint promote_exps (st : Var) (promotable : gmap Z VariableRef) (c : nat * nat) (l : list Exp) : (nat * nat) * list Exp :=
  match l with
  | [] => (c, [])
  | e :: l => let '(c, e) := promote_exp st promotable c e in let '(c, l) := promote_exps st promotable c l in (c, e :: l)
  end.

Definition promote_kind (st : Var) (promotable : gmap Z VariableRef) (c : nat * nat) (k : StatementKind) : (nat * nat) * StatementKind :=
  match k with
  | Assign dest sources =>
      let '(c, dest) :=
        if is_pathless dest then (c, dest)
        else let '(ap, r) := promote_access dest st promotable in (count_access c r, ap) in
      let '(c, sources) := promote_exps st promotable c sources in
      (c, Assign dest sources)
  | CallAssign style rets args =>
      let '(c, args) := promote_exps st promotable c args in
      let '(c, style) :=
        match style with
        | FuncPtrCall callee sg => let '(ap, r) := promote_access callee st promotable in (count_access c r, FuncPtrCall ap sg)
        | _ => (c, style)
        end in
      (c, CallAssign style rets args)
  | _ => (c, k)
  end.

(** The slots to reload after a statement, in ascending order. *)
Definition reload_slots (policy : EscapePolicy) (escaped : gmap Z VariableRef) (st : Var) (k : StatementKind) : list Z :=
  slot_iter (list_to_set (call_escapes k st ≫= fun j => filter (fun s => reaches_slot policy j s) (map fst (map_to_list escaped)))).

Definition reload_stmt (st_idx : nat) (si : N) (local : VariableRef) (k : Z) : Statement :=
  {| source_info := si;
     kind := assign (ap_of_var local) [Exp_Path (AccessPath_new (new_local_idx st_idx) [Offset k; Deref])] |}.

Definition promote_stmt (policy : EscapePolicy) (st_idx : nat) (ch : Choice) (acc : nat * nat * nat * list Statement) (s : Statement)
  : nat * nat * nat * list Statement :=
  let '(c, n, out) := acc in
  let ks := reload_slots policy (ch_escaped ch) (Variable_Local st_idx) (kind s) in
  let '(c, k) := promote_kind (Variable_Local st_idx) (ch_promotable ch) c (kind s) in
  (c, n + length ks,
   out ++ with_kind s k :: omap (fun k => local ← ch_escaped ch !! k; Some (reload_stmt st_idx (source_info s) local k)) ks).

Definition promote_block (policy : EscapePolicy) (st_idx : nat) (ch : Choice) (acc : nat * nat * nat * list BasicBlockData) (b : BasicBlockData)
  : nat * nat * nat * list BasicBlockData :=
  let '(c, n, out) := acc in
  let '(c, n, l) := foldl (promote_stmt policy st_idx ch) (c, n, []) (statements b) in
  (c, n, out ++ [with_statements b l]).

Definition skipped : Mem2RegStats := mk_stats 0 0 0 1 0 0 0.

Definition is_direct (u : Use) : Prop := match u with Direct _ _ => True | _ => False end.
#[export] Instance is_direct_dec u : Decision (is_direct u).
Proof. destruct u; simpl; apply _. Defined.

Definition full_promotion (config : Mem2Reg) (mode : option FullMode) (direct_accesses : nat) : bool :=
  match mode with
  | Some Force => true
  | Some Forbid => false
  | None => match full_above config with Some n => bool_decide (n < Z.of_nat direct_accesses)%Z | None => false end
  end.

Definition promote_function (f : FunctionData) (config : Mem2Reg) (mode : option FullMode)
  : FunctionData * Mem2RegStats * option EscapeNote :=
  let policy := escape config in
  match find_name STACK_TOP (decls (locals f)) with
  | None => (f, Mem2RegStats_default, None)
  | Some st_idx =>
      let st := Variable_Local st_idx in
      match m2r_scan st (blocks f) with
      | None => (f, skipped, None)
      | Some sc =>
          let direct_accesses := length (filter is_direct (sc_uses sc)) in
          let full := full_promotion config mode direct_accesses in
          let ch := choose_slots policy full f sc in
          let stats c n := mk_stats c.1 c.2 (size (ch_promotable ch)) 0 (if full then 1 else 0) (size (ch_escaped ch)) n in
          if decide (ch_promotable ch = ∅) then (ch_function ch, stats (0, direct_accesses) 0, None)
          else
            let note := escape_note (name f) policy (ch_escaped ch) (stored_slots (sc_uses sc)) (sc_escapes sc) in
            let '(c, n, bs) := foldl (promote_block policy st_idx ch) (0, 0, 0, []) (blocks f) in
            (with_blocks (ch_function ch) bs, stats c n, note)
      end
  end.

(** ** Names and choices *)

Lemma show_Z_inj a b : show_Z a = show_Z b -> a = b.
Proof.
  intros E. destruct (show_Z_spec a) as (d & n & E1 & _ & _ & H1 & _), (show_Z_spec b) as (d' & n' & E2 & _ & _ & H2 & _).
  rewrite E, E2 in E1. injection E1 as <- <-. congruence.
Qed.

Lemma show_Z_nonneg z : (0 <= z)%Z -> all_str is_digit (show_Z z) = true.
Proof.
  intros Hz. unfold show_Z, pretty, pretty_Z. destruct z as [|p|p]; [done| |lia]. by destruct (pretty_N_spec (Npos p)) as (H1 & _ & _).
Qed.

Lemma slot_local_name_inj j k : slot_local_name j = slot_local_name k -> j = k.
Proof.
  unfold slot_local_name. intros E. case_decide as Hj; case_decide as Hk.
  - injection E as E. apply show_Z_inj in E. lia.
  - exfalso. injection E as E. pose proof (show_Z_nonneg k ltac:(lia)) as H. by rewrite <- E in H.
  - exfalso. injection E as E. pose proof (show_Z_nonneg j ltac:(lia)) as H. by rewrite E in H.
  - injection E as E. by apply show_Z_inj in E.
Qed.

Lemma slot_local_name_not_top k : slot_local_name k <> STACK_TOP.
Proof.
  unfold slot_local_name, STACK_TOP. case_decide as Hk; [done|]. intros E. injection E as E.
  pose proof (show_Z_nonneg k ltac:(lia)) as Hd. by rewrite E in Hd.
Qed.

Lemma elem_of_slot_iter s k : k ∈ slot_iter s <-> k ∈ s.
Proof. unfold slot_iter. by rewrite merge_sort_Permutation, elem_of_elements. Qed.

(** Slot [k] is promoted. *)
Definition promoted_slot (policy : EscapePolicy) (full : bool) (escapes : list escape_site) (k : Z) : Prop :=
  reached policy escapes k -> full = true /\ ~ reached_by_return policy escapes k.

(** [l] has the locals of the slots in [m], with their names, after those of [f]. *)
Definition slot_locals (f : FunctionData) (l : Locals) (m : gmap Z VariableRef) : Prop :=
  forall k v, m !! k = Some v -> exists idx, v = new_local_idx idx /\ decls l !! idx = Some (slot_local_name k) /\
    length (decls (locals f)) <= idx.

Lemma choose_slots_spec policy full f sc : Locals_wf (locals f) ->
  (forall k, k ∈ direct_slots (sc_uses sc) -> slot_local_name k ∉ decls (locals f)) ->
  exists l P E, choose_slots policy full f sc = {| ch_function := with_locals f l; ch_promotable := P; ch_escaped := E |} /\
    Locals_wf l /\ decls (locals f) `prefix_of` decls l /\ slot_locals f l P /\
    (forall k, is_Some (P !! k) <-> k ∈ direct_slots (sc_uses sc) /\ promoted_slot policy full (sc_escapes sc) k) /\
    (forall k v, E !! k = Some v <-> P !! k = Some v /\ reached policy (sc_escapes sc) k).
Proof.
  intros Hl Hfresh. unfold choose_slots. set (existing := if full then _ else _).
  assert (forall n, n ∈ existing -> n ∈ decls (locals f)) as Hex.
  { unfold existing. destruct full; [|set_solver]. intros n [_ Hn]%elem_of_list_to_set%list_elem_of_filter. done. }
  set (ks := slot_iter (direct_slots (sc_uses sc))).
  assert (forall k, k ∈ ks <-> k ∈ direct_slots (sc_uses sc)) as Hks by (intros; apply elem_of_slot_iter).
  setoid_rewrite <- Hks. setoid_rewrite <- Hks in Hfresh. clearbody ks. clear Hks.
  induction ks as [|k ks IH] using rev_ind.
  { exists (locals f), ∅, ∅. split_and!; [by destruct f|done|done|done| |]; intros k; [rewrite lookup_empty|intros v; rewrite !lookup_empty].
    - split; [by intros [? ?]|]. intros [?%elem_of_nil _]. done.
    - naive_solver. }
  destruct IH as (l & P & E & Ec & Hlw & Hpre & Hsl & HP & HE); [intros; apply Hfresh; set_solver|].
  assert (slot_local_name k ∉ decls (locals f)) as Hk by (apply Hfresh; set_solver).
  rewrite foldl_app, Ec. cbn [foldl]. unfold choose_slot. cbn [ch_function ch_promotable ch_escaped].
  destruct (decide _) as [Hskip|Hskip].
  { exists l, P, E. split_and!; [done..| |done]. intros j. rewrite HP, elem_of_app, list_elem_of_singleton. split; [tauto|].
    intros [[?| ->] Hp]; [tauto|]. exfalso. destruct Hskip as [Hr Hor]. destruct (Hp Hr) as [? ?].
    destruct Hor as [?|[?|?%Hex]]; [congruence|done|done]. }
  assert (promoted_slot policy full (sc_escapes sc) k) as Hpk.
  { intros Hr. destruct full; [|by destruct Hskip; auto]. split; [done|]. intros ?. apply Hskip. auto. }
  unfold intern_local. cbn [locals with_locals]. pose proof (get_or_intern_step l (slot_local_name k) Hlw) as Hs.
  destruct (get_or_intern l (slot_local_name k)) as [l1 i]. destruct Hs as (Hd & Hx & Hi & Hp' & _).
  assert (length (decls (locals f)) <= i) as Hfi.
  { destruct (decide (i < length (decls (locals f)))) as [Hlt|]; [|lia]. exfalso. apply Hk.
    destruct (lookup_lt_is_Some_2 _ _ Hlt) as [n Hn]. assert (decls (locals f) `prefix_of` decls l1) as Hpp by (by etrans).
    pose proof (prefix_lookup_Some _ _ _ _ Hn Hpp) as Hn'. assert (n = slot_local_name k) as <- by congruence.
    by eapply list_elem_of_lookup_2. }
  eexists l1, _, _. split; [reflexivity|]. split_and!.
  - split; auto.
  - by etrans.
  - intros j v. rewrite lookup_insert_Some. intros [[<- <-]|[Hne Hj]]; [eauto|].
    destruct (Hsl j v Hj) as (idx & -> & Hidx & ?). exists idx. split_and!; [done| |done]. by eapply prefix_lookup_Some.
  - intros j. rewrite elem_of_app, list_elem_of_singleton. destruct (decide (k = j)) as [<-|Hne].
    + rewrite lookup_insert_eq. split; [auto|done].
    + rewrite lookup_insert_ne, HP by done. naive_solver.
  - intros j v. destruct (decide (reached policy (sc_escapes sc) k)) as [Hr|Hr]; rewrite !lookup_insert_Some, HE; naive_solver.
Qed.

(** ** The rewrite, without its counters *)

Section rewrite.
Context (st : Var) (P : gmap Z VariableRef).

Definition pr_ap (ap : AccessPath) : AccessPath := (promote_access ap st P).1.
Definition pr_exp (e : Exp) : Exp := map_access_path pr_ap e.
Definition pr_style (s : CallStyle) : CallStyle := match s with FuncPtrCall callee sg => FuncPtrCall (pr_ap callee) sg | _ => s end.
Definition pr_kind (k : StatementKind) : StatementKind :=
  match k with
  | Assign dest srcs => Assign (if is_pathless dest then dest else pr_ap dest) (map pr_exp srcs)
  | CallAssign style rets args => CallAssign (pr_style style) rets (map pr_exp args)
  | _ => k
  end.

Definition direct_in (u : Use) : Prop := match u with Direct k _ => is_Some (P !! k) | _ => False end.
#[export] Instance direct_in_dec u : Decision (direct_in u).
Proof. destruct u; simpl; apply _. Defined.
Definition direct_out (u : Use) : Prop := match u with Direct k _ => P !! k = None | _ => False end.
#[export] Instance direct_out_dec u : Decision (direct_out u).
Proof. destruct u; simpl; apply _. Defined.

Definition tally (us : list Use) : nat * nat := (length (filter direct_in us), length (filter direct_out us)).
Definition add2 (a b : nat * nat) : nat * nat := (a.1 + b.1, a.2 + b.2).

Lemma tally_app us us' : tally (us ++ us') = add2 (tally us) (tally us').
Proof. unfold tally, add2. by rewrite !filter_app, !length_app. Qed.

Lemma add2_nil c : add2 c (tally []) = c.
Proof. destruct c. unfold add2, tally. simpl. f_equal; lia. Qed.

Lemma add2_escape c j how : add2 c (tally [Escape j how]) = c.
Proof.
  unfold tally. rewrite !filter_cons, (decide_False (P := direct_in (Escape j how))), (decide_False (P := direct_out (Escape j how))) by (by intros []).
  apply add2_nil.
Qed.

Lemma tally_store k b b' : tally [Direct k b] = tally [Direct k b'].
Proof.
  unfold tally. rewrite !filter_cons. destruct (decide (is_Some (P !! k))) as [H|H].
  - rewrite !(decide_True (P := direct_in (Direct k _))) by done.
    rewrite !(decide_False (P := direct_out (Direct k _))) by (simpl; destruct H; congruence). done.
  - rewrite !(decide_False (P := direct_in (Direct k _))) by done.
    rewrite !(decide_True (P := direct_out (Direct k _))) by (by apply eq_None_not_Some). done.
Qed.

Lemma add2_assoc a b c : add2 a (add2 b c) = add2 (add2 a b) c.
Proof. unfold add2. simpl. f_equal; lia. Qed.

Lemma tally_sum us : (tally us).1 + (tally us).2 = length (filter is_direct us).
Proof.
  unfold tally. simpl. induction us as [|u us IH]; [done|]. rewrite !filter_cons. destruct u as [k b|j how].
  - rewrite (decide_True (P := is_direct (Direct k b))) by done. destruct (P !! k) as [v|] eqn:E.
    + rewrite (decide_True (P := direct_in (Direct k b))) by (simpl; eauto).
      rewrite (decide_False (P := direct_out (Direct k b))) by (simpl; congruence). simpl. lia.
    + rewrite (decide_False (P := direct_in (Direct k b))) by (simpl; rewrite E; by intros [? ?]).
      rewrite (decide_True (P := direct_out (Direct k b))) by done. simpl. lia.
  - rewrite (decide_False (P := direct_in (Escape j how))), (decide_False (P := direct_out (Escape j how))),
      (decide_False (P := is_direct (Escape j how))) by (by intros []). done.
Qed.

(** Whether an access is direct is what [read_use] says. *)
Lemma count_promote c ap how : count_access c (promote_access ap st P).2 =
  add2 c (tally (match read_use ap st how with Some u => [u] | None => [] end)).
Proof.
  unfold promote_access, read_use. destruct (frame_access ap st) as [[k rest]|]; simpl; [|by rewrite add2_nil].
  destruct rest as [|[| | |] rest]; simpl; rewrite ?add2_escape; try done. unfold tally. rewrite !filter_cons.
  destruct (P !! k) as [v|] eqn:E; unfold add2; simpl.
  - rewrite (decide_True (P := direct_in (Direct k false))) by (simpl; eauto).
    rewrite (decide_False (P := direct_out (Direct k false))) by (simpl; congruence). simpl. f_equal; lia.
  - rewrite (decide_False (P := direct_in (Direct k false))) by (simpl; rewrite E; by intros [? ?]).
    rewrite (decide_True (P := direct_out (Direct k false))) by done. simpl. f_equal; lia.
Qed.

Lemma promote_exps_spec how l : forall c, promote_exps st P c l = (add2 c (tally (omap (exp_use st how) l)), map pr_exp l).
Proof.
  induction l as [|e l IH]; intros c; [simpl; by rewrite add2_nil|]. cbn [promote_exps].
  assert (promote_exp st P c e = (add2 c (tally (match exp_use st how e with Some u => [u] | None => [] end)), pr_exp e)) as ->.
  { unfold promote_exp, exp_use, pr_exp, pr_ap.
    destruct e; cbn [access_path mbind option_bind map_access_path]; rewrite ?add2_nil; try done;
      rewrite <- count_promote; by destruct (promote_access _ st P). }
  rewrite IH. f_equal. rewrite <- add2_assoc, <- tally_app. csimpl. by destruct (exp_use st how e).
Qed.

Lemma promote_kind_spec c k : promote_kind st P c k = (add2 c (tally (classify_uses k st)), pr_kind k).
Proof.
  destruct k as [dest srcs|style rets args|d ops|]; cbn [promote_kind classify_uses pr_kind]; [| |by rewrite add2_nil..].
  - destruct (is_pathless dest) eqn:Ep.
    + rewrite (promote_exps_spec EscCopied). by destruct (frame_access dest st) as [[]|].
    + assert (tally (match frame_access dest st with
          | Some (k, rest) => [match head rest with Some Deref => Direct k true | _ => Escape k FieldAccess end] | None => [] end) =
        tally (match read_use dest st FieldAccess with Some u => [u] | None => [] end)) as Et.
      { unfold read_use. destruct (frame_access dest st) as [[k rest]|]; [|done]. simpl.
        destruct (head rest) as [[]|]; by rewrite ?(tally_store k true false). }
      rewrite tally_app, Et, add2_assoc, <- count_promote. unfold pr_ap. destruct (promote_access dest st P) as [ap r].
      by rewrite (promote_exps_spec Stored).
  - rewrite (promote_exps_spec CallInput). rewrite tally_app, add2_assoc.
    destruct style as [| |callee sg| | |]; simpl; rewrite ?add2_nil; try done.
    rewrite <- count_promote. unfold pr_ap. by destruct (promote_access callee st P).
Qed.
End rewrite.

(** ** Undoing the rewrite *)

(** The access paths of a statement. *)
Definition aps_of (k : StatementKind) : list AccessPath :=
  match k with
  | Assign dest srcs => dest :: omap access_path srcs
  | CallAssign style _ args => omap access_path args ++ match style with FuncPtrCall callee _ => [callee] | _ => [] end
  | _ => []
  end.

Definition slot_of (P : gmap Z VariableRef) (v : VariableRef) : option Z :=
  head (omap (fun e : Z * VariableRef => if decide (e.2 = v) then Some e.1 else None) (map_to_list P)).

Section undo.
Context (st_idx : nat) (P : gmap Z VariableRef).
Let st := Variable_Local st_idx.

(** The slot's memory for the slot's local: [local·t] is [st.[k].deref·t]. *)
Definition demote_ap (ap : AccessPath) : AccessPath :=
  match slot_of P (base ap) with
  | Some k => {| base := new_local_idx st_idx; segments := (if decide (k = 0%Z) then [] else [Offset k]) ++ Deref :: segments ap |}
  | None => ap
  end.
Definition demote_exp : Exp -> Exp := map_access_path demote_ap.
Definition demote_kind (k : StatementKind) : StatementKind :=
  match k with
  | Assign dest srcs => Assign (demote_ap dest) (map demote_exp srcs)
  | CallAssign style rets args =>
      CallAssign (match style with FuncPtrCall callee sg => FuncPtrCall (demote_ap callee) sg | _ => style end) rets (map demote_exp args)
  | _ => k
  end.

Hypothesis Hinj : forall j k v, P !! j = Some v -> P !! k = Some v -> j = k.

Lemma slot_of_Some k v : P !! k = Some v -> slot_of P v = Some k.
Proof.
  intros Hk. unfold slot_of. set (f := fun e : Z * VariableRef => _).
  assert (forall j, j ∈ omap f (map_to_list P) -> j = k) as Hall.
  { intros j ([i w] & Hin%elem_of_map_to_list & Hj)%list_elem_of_omap. unfold f in Hj. simpl in Hj. case_decide; [|done]. subst w. injection Hj as <-.
    by eapply Hinj. }
  assert (k ∈ omap f (map_to_list P)) as Hin.
  { apply list_elem_of_omap. exists (k, v). split; [by apply elem_of_map_to_list|]. unfold f. simpl. by rewrite decide_True. }
  destruct (omap f (map_to_list P)) as [|j l]; [by apply elem_of_nil in Hin|]. simpl. f_equal. apply Hall. by left.
Qed.

Lemma slot_of_None v : (forall k, P !! k <> Some v) -> slot_of P v = None.
Proof.
  intros Hn. unfold slot_of. destruct (omap _ _) as [|j l] eqn:E; [done|exfalso].
  assert (j ∈ j :: l) as Hj by (by left). rewrite <- E in Hj. apply list_elem_of_omap in Hj as ([i w] & Hin%elem_of_map_to_list & Hj).
  simpl in Hj. case_decide; [|done]. subst. by apply (Hn i).
Qed.

(** An access path before promotion: in normal form, not on a slot's local, and on the frame base without a version. *)
Definition ap_ready (ap : AccessPath) : Prop :=
  nf (segments ap) /\ (variable (base ap) = st -> version (base ap) = None) /\ forall k, P !! k <> Some (base ap).

Lemma demote_promote ap : ap_ready ap -> demote_ap (pr_ap st P ap) = ap.
Proof.
  intros (Hnf & Hver & Hnot). unfold pr_ap, promote_access.
  assert (demote_ap ap = ap) as Hid by (unfold demote_ap; by rewrite slot_of_None).
  destruct (frame_access ap st) as [[k rest]|] eqn:Ef; [|done]. destruct rest as [|[| | |] t]; try done.
  destruct (P !! k) as [local|] eqn:Ek; [|done]. simpl. unfold demote_ap. simpl. rewrite (slot_of_Some k local Ek).
  unfold frame_access in Ef. case_decide as Hb; [|done]. specialize (Hver Hb).
  assert (base ap = new_local_idx st_idx) as Eb by (destruct ap as [[v w] segs]; simpl in *; by subst).
  assert (segments ap = (if decide (k = 0%Z) then [] else [Offset k]) ++ Deref :: t) as Es.
  { destruct (segments ap) as [|[f|o| |] segs] eqn:Es; simplify_eq/=; [|done].
    rewrite decide_False; [done|]. intros ->. pose proof (nf_app_l [Offset 0] (Deref :: t) Hnf) as H1.
    apply (nf_snoc_inv []) in H1 as (_ & [_ ?] & _). done. }
  rewrite normalize_id; [destruct ap; simpl in *; by subst|].
  rewrite Es in Hnf. apply nf_app_r in Hnf. by apply (nf_app_r [Deref]).
Qed.

Lemma demote_promote_kind k : Forall ap_ready (aps_of k) -> demote_kind (pr_kind st P k) = k.
Proof.
  assert (forall l, Forall ap_ready (omap access_path l) -> map demote_exp (map (pr_exp st P) l) = l) as Hl.
  { induction l as [|e l IH]; intros H; [done|]. cbn [map].
    assert (Forall ap_ready (omap access_path [e]) /\ Forall ap_ready (omap access_path l)) as [He Hl].
    { apply Forall_app. by destruct e. }
    rewrite IH by done. f_equal.
    destruct e as [ap|ap| | | |]; try done; unfold demote_exp, pr_exp; simpl; (rewrite demote_promote; [done|]); by apply Forall_cons in He as [? _]. }
  destruct k as [dest srcs|style rets args|d ops|]; intros H; cbn [aps_of pr_kind demote_kind] in *; [| |done..].
  - apply Forall_cons in H as [Hd Hs]. rewrite Hl by done. f_equal. destruct (is_pathless dest); [|by apply demote_promote].
    unfold demote_ap. by rewrite slot_of_None by apply Hd.
  - apply Forall_app in H as [Ha Hs]. rewrite Hl by done. f_equal. destruct style; try done. simpl. f_equal.
    apply demote_promote. by apply Forall_cons in Hs as [? _].
Qed.
End undo.

(** ** The passes over the blocks *)

Section passes.
Context (policy : EscapePolicy) (st_idx : nat) (ch : Choice).
Let st := Variable_Local st_idx.
Let P := ch_promotable ch.

Definition reloads_of (s : Statement) : list Statement :=
  omap (fun k => local ← ch_escaped ch !! k; Some (reload_stmt st_idx (source_info s) local k))
    (reload_slots policy (ch_escaped ch) st (kind s)).

Definition promoted_stmt (s : Statement) : list Statement := with_kind s (pr_kind st P (kind s)) :: reloads_of s.

Definition uses_of (b : BasicBlockData) : list Use := statements b ≫= fun s => classify_uses (kind s) st.

Lemma promote_stmts_spec l : forall c n out, exists n', foldl (promote_stmt policy st_idx ch) (c, n, out) l =
  (add2 c (tally P (l ≫= fun s => classify_uses (kind s) st)), n', out ++ (l ≫= promoted_stmt)).
Proof.
  induction l as [|s l IH]; intros c n out; [exists n; csimpl; by rewrite add2_nil, app_nil_r|]. cbn [foldl]. unfold promote_stmt at 2.
  fold st P. rewrite promote_kind_spec.
  destruct (IH (add2 c (tally P (classify_uses (kind s) st))) (n + length (reload_slots policy (ch_escaped ch) st (kind s)))
    (out ++ promoted_stmt s)) as (n' & E). exists n'. unfold promoted_stmt at 1 in E. unfold reloads_of in E at 1. rewrite E. csimpl.
  by rewrite tally_app, add2_assoc, <- app_assoc.
Qed.

Lemma promote_blocks_spec bs : forall c n out, exists n', foldl (promote_block policy st_idx ch) (c, n, out) bs =
  (add2 c (tally P (bs ≫= uses_of)), n', out ++ map (fun b => with_statements b (statements b ≫= promoted_stmt)) bs).
Proof.
  induction bs as [|b bs IH]; intros c n out; [exists n; csimpl; by rewrite add2_nil, app_nil_r|]. cbn [foldl]. unfold promote_block at 2.
  destruct (promote_stmts_spec (statements b) c n []) as (n1 & ->).
  destruct (IH (add2 c (tally P (uses_of b))) n1 (out ++ [with_statements b (statements b ≫= promoted_stmt)])) as (n' & E).
  exists n'. rewrite app_nil_l. fold (uses_of b). cbv beta iota zeta. rewrite E. csimpl. by rewrite tally_app, add2_assoc, <- app_assoc.
Qed.
End passes.

Lemma foldO_inv {A B} (f : B -> A -> option B) (I : list A -> B -> Prop) (l : list A) : forall pre b b', I pre b ->
  (forall pre x b b', I pre b -> f b x = Some b' -> I (pre ++ [x]) b') -> foldO f b l = Some b' -> I (pre ++ l) b'.
Proof.
  induction l as [|x l IH]; intros pre b b' Hb Hstep E; simpl in E; [injection E as <-; by rewrite app_nil_r|].
  destruct (f b x) as [b1|] eqn:E1; [|done]. simpl in E. change (x :: l) with ([x] ++ l). rewrite app_assoc. eauto.
Qed.

(** What the scan has recorded: the uses in order, every escape, and that the frame base is not assigned. *)
Record scanned (st : Var) (l : list Statement) (sc0 sc : UseScan) : Prop := {
  sd_uses : sc_uses sc = sc_uses sc0 ++ (l ≫= fun s => classify_uses (kind s) st);
  sd_old : forall e, e ∈ sc_escapes sc0 -> e ∈ sc_escapes sc;
  sd_escapes : forall s j how, s ∈ l -> Escape j how ∈ classify_uses (kind s) st -> exists bb i, (j, how, bb, i) ∈ sc_escapes sc;
  sd_dst : forall s v, s ∈ l -> v ∈ iter_dst_var (kind s) -> variable v <> st;
}.

Lemma scanned_trans st l l' sc0 sc1 sc2 : scanned st l sc0 sc1 -> scanned st l' sc1 sc2 -> scanned st (l ++ l') sc0 sc2.
Proof.
  intros [U1 O1 E1 D1] [U2 O2 E2 D2]. split.
  - by rewrite U2, U1, bind_app, app_assoc.
  - auto.
  - intros s j how [Hs|Hs]%elem_of_app Hj; [|eauto]. destruct (E1 s j how Hs Hj) as (bb & i & ?). eauto.
  - intros s v [Hs|Hs]%elem_of_app; eauto.
Qed.

Lemma m2r_scan_stmt_spec st bb i s sc sc' : m2r_scan_stmt st bb sc (i, s) = Some sc' -> scanned st [s] sc sc'.
Proof.
  unfold m2r_scan_stmt. case_decide as Hd; [done|]. case_decide as Hl; [|done]. intros [= <-]. split; simpl.
  - by rewrite app_nil_r.
  - intros e He. apply elem_of_app. by left.
  - intros s0 j how ->%list_elem_of_singleton Hj. exists bb, i. apply elem_of_app. right. apply list_elem_of_omap. eauto.
  - intros s0 v ->%list_elem_of_singleton Hv E. apply Hd, Exists_exists. eauto.
Qed.

Lemma m2r_scan_stmts_spec st bb l sc sc' : foldO (m2r_scan_stmt st bb) sc (enumerate l) = Some sc' -> scanned st l sc sc'.
Proof.
  intros E. apply (foldO_inv _ (fun pre s => scanned st pre.*2 sc s) _ []) in E.
  - cbv beta in E. by rewrite app_nil_l, enum_from_snd in E.
  - split; simpl; [by rewrite app_nil_r|done|..]; intros ? ? ?; set_solver.
  - intros pre [i s] s1 s2 H1 H2%m2r_scan_stmt_spec. rewrite fmap_app. by eapply scanned_trans.
Qed.

Lemma m2r_scan_spec st bs sc : m2r_scan st bs = Some sc ->
  scanned st (bs ≫= statements) {| sc_uses := []; sc_escapes := [] |} sc /\
  forall b t k, b ∈ bs -> terminator b = Some t -> k ∈ returned_slots st t -> exists bb i, (k, Returned, bb, i) ∈ sc_escapes sc.
Proof.
  intros E. apply (foldO_inv _ (fun pre s => scanned st (pre.*2 ≫= statements) {| sc_uses := []; sc_escapes := [] |} s /\
    forall b t k, b ∈ pre.*2 -> terminator b = Some t -> k ∈ returned_slots st t -> exists bb i, (k, Returned, bb, i) ∈ sc_escapes s) _ []) in E.
  - cbv beta in E. by rewrite app_nil_l, enum_from_snd in E.
  - split; [split|]; simpl; try done; intros ? ? ?; set_solver.
  - intros pre [bb b] s1 s2 [H1 R1]. unfold m2r_scan_block. intros E2.
    destruct (foldO _ _ _) as [s3|] eqn:E3; [|done]. apply m2r_scan_stmts_spec in E3. simpl in E2.
    pose proof (scanned_trans _ _ _ _ _ _ H1 E3) as [U O Es D]. rewrite fmap_app, bind_app. simpl. rewrite app_nil_r.
    assert ((exists es, s2 = {| sc_uses := sc_uses s3; sc_escapes := sc_escapes s3 ++ es |} /\
      (forall t k, terminator b = Some t -> k ∈ returned_slots st t -> exists i, (k, Returned, bb, i) ∈ es))) as (es & -> & Hes).
    { destruct (terminator b) as [t|]; [|injection E2 as <-; exists []; split; [destruct s3; by rewrite app_nil_r|done]].
      case_decide; [|done]. injection E2 as <-. eexists. split; [done|]. intros t0 k [= <-] Hk. exists (length (statements b)).
      apply elem_of_map. eauto. }
    split; [split; simpl|].
    + done.
    + intros e He. apply elem_of_app. left. auto.
    + intros s j how Hs Hj. destruct (Es s j how Hs Hj) as (b1 & i & ?). exists b1, i. apply elem_of_app. by left.
    + done.
    + simpl. intros b0 t k [Hb0| ->%list_elem_of_singleton]%elem_of_app Et Hk.
      * destruct (R1 b0 t k Hb0 Et Hk) as (b1 & i & Hi). exists b1, i. apply elem_of_app. left. by apply (sd_old _ _ _ _ E3).
      * destruct (Hes t k Et Hk) as [i Hi]. exists bb, i. apply elem_of_app. by right.
Qed.

(** ** What is left of the frame base *)

Section left.
Context (st : Var) (P : gmap Z VariableRef).
Hypothesis HP : forall k v, P !! k = Some v -> variable v <> st.

Definition use_slot (u : Use) : Z * bool := match u with Direct k _ => (k, true) | Escape j _ => (j, false) end.

Lemma read_use_pr how ap u : read_use (pr_ap st P ap) st how = Some u -> read_use ap st how = Some u /\ ~ direct_in P u.
Proof.
  unfold pr_ap, promote_access, read_use. destruct (frame_access ap st) as [[k rest]|] eqn:Ef; [|simpl; by rewrite Ef].
  destruct rest as [|[| | |] t]; simpl; rewrite ?Ef; simpl; try (intros [= <-]; split; [done|by intros []]).
  destruct (P !! k) as [local|] eqn:Ek; simpl.
  - unfold frame_access. simpl. by rewrite decide_False by (by eapply HP).
  - rewrite Ef. simpl. intros [= <-]. split; [done|]. simpl. rewrite Ek. by intros [].
Qed.

Lemma read_use_how how how' ap u : read_use ap st how = Some u -> exists u', read_use ap st how' = Some u' /\ use_slot u' = use_slot u.
Proof.
  unfold read_use. destruct (frame_access ap st) as [[k rest]|]; [|done]. simpl. intros [= <-]. eexists. split; [done|].
  by destruct (head rest) as [[]|].
Qed.

Lemma exp_uses_pr how how' l u : u ∈ omap (exp_use st how) (map (pr_exp st P) l) ->
  ~ direct_in P u /\ exists u', u' ∈ omap (exp_use st how') l /\ use_slot u' = use_slot u.
Proof.
  intros (e' & (e & -> & He)%elem_of_map & Hu)%list_elem_of_omap.
  assert (exists ap, access_path e = Some ap /\ read_use (pr_ap st P ap) st how = Some u) as (ap & Eap & Hr).
  { unfold exp_use, pr_exp in Hu. destruct e; simpl in Hu; try done; eauto. }
  apply read_use_pr in Hr as [Hr Hn]. split; [done|]. destruct (read_use_how how how' ap u Hr) as (u' & Hu' & Es). exists u'. split; [|done].
  apply list_elem_of_omap. exists e. split; [done|]. unfold exp_use. rewrite Eap. done.
Qed.

Lemma uses_pr k u : u ∈ classify_uses (pr_kind st P k) st ->
  ~ direct_in P u /\ exists u', u' ∈ classify_uses k st /\ use_slot u' = use_slot u.
Proof.
  destruct k as [dest srcs|style rets args|d ops|]; cbn [pr_kind classify_uses]; [| |by intros ?%elem_of_nil..].
  - intros [Hu|Hu]%elem_of_app.
    + destruct (is_pathless dest) eqn:Ep.
      { rewrite Ep in Hu. destruct (frame_access dest st) as [[]|]; by apply elem_of_nil in Hu. }
      unfold pr_ap, promote_access in Hu. destruct (frame_access dest st) as [[k rest]|] eqn:Ef; [|simpl in Hu; rewrite Ef in Hu; by apply elem_of_nil in Hu].
      assert (forall x, u ∈ [x] -> ~ direct_in P x -> ~ direct_in P u /\ exists u', u' ∈ [x] ++ omap (exp_use st Stored) srcs /\ use_slot u' = use_slot u) as Hone.
      { intros x ->%list_elem_of_singleton Hx. split; [done|]. exists x. split; [by left|done]. }
      destruct rest as [|[| | |] t]; simpl in Hu; rewrite ?Ef, ?Ep in Hu; simpl; try (by apply Hone; [done|intros []]).
      destruct (P !! k) as [local|] eqn:Ek; simpl in Hu.
      * unfold frame_access in Hu. simpl in Hu. rewrite decide_False in Hu by (by eapply HP). by apply elem_of_nil in Hu.
      * rewrite Ef, Ep in Hu. apply Hone; [done|]. simpl. rewrite Ek. by intros [].
    + destruct (exp_uses_pr _ (if is_pathless dest then EscCopied else Stored) srcs u Hu) as [Hn (u' & Hu' & Es)]. split; [done|].
      exists u'. split; [|done]. apply elem_of_app. by right.
  - intros [Hu|Hu]%elem_of_app.
    + destruct (exp_uses_pr _ CallInput args u Hu) as [Hn (u' & Hu' & Es)]. split; [done|]. exists u'. split; [|done]. apply elem_of_app. by left.
    + destruct style as [| |callee sg| | |]; try (by apply elem_of_nil in Hu). simpl in Hu.
      destruct (read_use (pr_ap st P callee) st CallInput) as [x|] eqn:Ex; [|by apply elem_of_nil in Hu].
      apply list_elem_of_singleton in Hu as ->. apply read_use_pr in Ex as [Ex Hn]. split; [done|]. exists x. split; [|done].
      apply elem_of_app. right. rewrite Ex. by left.
Qed.
End left.

(** ** The whole pass *)

Lemma pr_ap_empty st ap : pr_ap st ∅ ap = ap.
Proof. unfold pr_ap, promote_access. destruct (frame_access ap st) as [[k [|[] t]]|]; simpl; rewrite ?lookup_empty; done. Qed.

Lemma pr_kind_empty st k : pr_kind st ∅ k = k.
Proof.
  assert (forall l, map (pr_exp st ∅) l = l) as Hl.
  { induction l as [|e l IH]; simpl; [done|]. rewrite IH. f_equal. destruct e; unfold pr_exp; simpl; by rewrite ?pr_ap_empty. }
  destruct k as [dest srcs|style rets args|d ops|]; simpl; rewrite ?Hl; [| |done..].
  - rewrite pr_ap_empty. by destruct (is_pathless dest).
  - destruct style; simpl; by rewrite ?pr_ap_empty.
Qed.

Lemma reload_slots_empty policy st k : reload_slots policy ∅ st k = [].
Proof.
  destruct (reload_slots policy ∅ st k) as [|z l] eqn:E; [done|exfalso].
  assert (z ∈ reload_slots policy ∅ st k) as Hz by (rewrite E; by left). unfold reload_slots in Hz.
  apply elem_of_slot_iter, elem_of_list_to_set, list_elem_of_bind in Hz as (j & Hz & _). rewrite map_to_list_empty in Hz. by apply elem_of_nil in Hz.
Qed.

Lemma tally_empty us : tally ∅ us = (0, length (filter is_direct us)).
Proof.
  rewrite <- (tally_sum ∅ us). unfold tally. simpl.
  assert (filter (direct_in ∅) us = []) as ->; [|done]. induction us as [|u us IH]; [done|]. rewrite filter_cons, decide_False; [done|].
  destruct u as [k b|]; simpl; [rewrite lookup_empty; by intros [? ?]|by intros []].
Qed.

Lemma promoted_stmt_none policy st_idx ch s : ch_promotable ch = ∅ -> ch_escaped ch = ∅ -> promoted_stmt policy st_idx ch s = [s].
Proof.
  intros HP HE. unfold promoted_stmt, reloads_of. rewrite HP, HE, pr_kind_empty, reload_slots_empty. simpl. by destruct s.
Qed.

Lemma promote_function_spec f config mode st_idx sc : Locals_wf (locals f) -> find_name STACK_TOP (decls (locals f)) = Some st_idx ->
  m2r_scan (Variable_Local st_idx) (blocks f) = Some sc ->
  (forall k, k ∈ direct_slots (sc_uses sc) -> slot_local_name k ∉ decls (locals f)) ->
  let full := full_promotion config mode (length (filter is_direct (sc_uses sc))) in
  exists l P E stats note, let ch := {| ch_function := with_locals f l; ch_promotable := P; ch_escaped := E |} in
    promote_function f config mode = (with_blocks (with_locals f l)
      (map (fun b => with_statements b (statements b ≫= promoted_stmt (escape config) st_idx ch)) (blocks f)), stats, note) /\
    decls (locals f) `prefix_of` decls l /\ slot_locals f l P /\
    (forall k, is_Some (P !! k) <-> k ∈ direct_slots (sc_uses sc) /\ promoted_slot (escape config) full (sc_escapes sc) k) /\
    (forall k v, E !! k = Some v <-> P !! k = Some v /\ reached (escape config) (sc_escapes sc) k) /\
    (promoted_accesses stats, kept_accesses stats) = tally P (sc_uses sc) /\ promoted_slots stats = size P /\
    (full = false -> E = ∅ /\ note = None).
Proof.
  intros Hl Hst Hsc Hfresh full. unfold promote_function. rewrite Hst, Hsc. fold full.
  destruct (choose_slots_spec (escape config) full f sc Hl Hfresh) as (l & P & E & Ec & _ & Hpre & Hsl & HP & HE). rewrite Ec. cbn [ch_promotable ch_escaped ch_function].
  set (ch := {| ch_function := with_locals f l; ch_promotable := P; ch_escaped := E |}).
  assert (full = false -> E = ∅) as HEempty.
  { intros Hf. apply map_eq. intros k. rewrite lookup_empty. destruct (E !! k) as [v|] eqn:Ek; [exfalso|done].
    apply HE in Ek as [Hk Hr]. destruct (HP k) as [[_ Hpk] _]; [done|]. destruct (Hpk Hr). congruence. }
  pose proof (m2r_scan_spec _ _ _ Hsc) as [[Huses _ _ _] _]. simpl in Huses.
  assert (blocks f ≫= uses_of st_idx = sc_uses sc) as Eu.
  { rewrite Huses. clear. unfold uses_of. induction (blocks f) as [|b bs IH]; csimpl; [done|]. by rewrite bind_app, IH. }
  case_decide as Hemp.
  - assert (E = ∅) as HE0. { apply map_eq. intros k. rewrite lookup_empty. destruct (E !! k) as [v|] eqn:Ek; [exfalso|done].
      apply HE in Ek as [Hk _]. by rewrite Hemp, lookup_empty in Hk. }
    exists l, P, E. eexists _, _. split.
    { assert (forall bs, map (fun b => with_statements b (statements b ≫= promoted_stmt (escape config) st_idx ch)) bs = bs) as Hid.
      { induction bs as [|b bs IH]; simpl; [done|]. rewrite IH. f_equal. destruct b as [ss t]. unfold with_statements. simpl. f_equal.
        rewrite (list_bind_ext _ (fun s => [s]) ss ss); [|intros s; by apply promoted_stmt_none|done].
        clear. induction ss as [|s ss IH]; csimpl; [done|]. by rewrite IH. }
      fold ch. rewrite Hid. by destruct f. }
    split_and!; [done..| |done|by auto]. simpl. by rewrite Hemp, tally_empty.
  - destruct (promote_blocks_spec (escape config) st_idx ch (blocks f) (0, 0) 0 []) as (n' & Eb).
    rewrite Eb. exists l, P, E. eexists _, _. split; [simpl; reflexivity|]. split_and!; [done..| |done|].
    + simpl. rewrite Eu. unfold tally, add2. done.
    + intros Hf. split; [auto|]. rewrite (HEempty Hf). unfold escape_note.
      assert (forall es, filter (lost (escape config) ∅ (stored_slots (sc_uses sc))) es = []) as ->; [|done].
      induction es as [|[[[j how] bb] i] es IH]; [done|]. rewrite filter_cons, decide_False; [done|].
      simpl. rewrite map_to_list_empty. by intros ?%Exists_nil.
Qed.

Lemma slot_locals_inj f l P : slot_locals f l P -> forall j k v, P !! j = Some v -> P !! k = Some v -> j = k.
Proof.
  intros H j k v Hj Hk. destruct (H j v Hj) as (i & -> & Hi & _). destruct (H k _ Hk) as (i' & [= <-] & Hi' & _).
  apply slot_local_name_inj. congruence.
Qed.

Lemma slot_locals_not_top f l P st_idx : decls (locals f) `prefix_of` decls l -> find_name STACK_TOP (decls (locals f)) = Some st_idx ->
  slot_locals f l P -> forall k v, P !! k = Some v -> variable v <> Variable_Local st_idx.
Proof.
  intros Hp Hst%find_name_Some H k v Hk. destruct (H k v Hk) as (i & -> & Hi & _). simpl. intros [= ->].
  pose proof (prefix_lookup_Some _ _ _ _ Hst Hp). apply (slot_local_name_not_top k). congruence.
Qed.

Lemma bind_join {A B} (g : A -> list B) (l : list A) : l ≫= g = mjoin (map g l).
Proof. induction l as [|x l IH]; csimpl; [done|]. by rewrite IH. Qed.

(** A function the pass has not run on: its paths are in normal form, its references are to its
    own locals and have no version on the frame base, and no local has the name of a slot. *)
Definition m2r_ready (f : FunctionData) (st_idx : nat) (sc : UseScan) : Prop :=
  (forall k, k ∈ direct_slots (sc_uses sc) -> slot_local_name k ∉ decls (locals f)) /\
  forall b s ap, b ∈ blocks f -> s ∈ statements b -> ap ∈ aps_of (kind s) ->
    nf (segments ap) /\ (variable (base ap) = Variable_Local st_idx -> version (base ap) = None) /\
    forall i, variable (base ap) = Variable_Local i -> i < length (decls (locals f)).

(** [l] is the statement [s] promoted, then reloads of promoted slots. *)
Definition promoted_as (st_idx : nat) (P : gmap Z VariableRef) (s : Statement) (l : list Statement) : Prop :=
  exists s' rl, l = s' :: rl /\ with_kind s' (demote_kind st_idx P (kind s')) = s /\
    Forall (fun r => exists k v, P !! k = Some v /\ r = reload_stmt st_idx (source_info s) v k) rl.



(** [st.[-16].deref = 1; d = st.[-16].deref; f(st.[8]); d = st.[8].deref; return d]. *)
Definition stack_example : FunctionData :=
  let top segs := {| base := new_local_idx 0; segments := segs |} in
  let d := new_local_idx 1 in
  {| name := "f"; params := []; arity := 1;
     blocks := [{| statements := map new_kind
         [Assign (top [Offset (-16); Deref]) [Exp_Int 1]; Assign (ap_of_var d) [Exp_Path (top [Offset (-16); Deref])];
          CallAssign (DirectCall (Explicit ["g"])) [] [Exp_Path (top [Offset 8])]; Assign (ap_of_var d) [Exp_Path (top [Offset 8; Deref])]];
       terminator := Some (term_new_kind (Return [Exp_variable d])) |}];
     locals := {| decls := ["__stack_top"; "d"]; by_name := ∅ |} |}.

Definition stack_config : Mem2Reg := {| escape := Window 8; full_above := None |}.

Lemma stack_example_ready sc : m2r_scan (Variable_Local 0) (blocks stack_example) = Some sc -> m2r_ready stack_example 0 sc.
Proof.
  intros Esc. vm_compute in Esc. injection Esc as <-. split.
  - intros k Hk. unfold direct_slots in Hk. simpl in Hk.
    assert (k = -16 \/ k = 8)%Z as [-> | ->] by set_solver; vm_compute; set_solver.
  - intros b s ap ->%list_elem_of_singleton Hs Hap.
    assert (Forall (fun s => Forall (fun ap => nf (segments ap) /\ (variable (base ap) = Variable_Local 0 -> version (base ap) = None) /\
      forall i, variable (base ap) = Variable_Local i -> i < 2) (aps_of (kind s))) (statements (default {| statements := []; terminator := None |} (head (blocks stack_example))))) as H.
    { assert (forall k, in_i64 k -> k <> 0%Z -> nf [Offset k] /\ nf [Offset k; Deref]) as Hnf.
      { intros k H1 H2. assert (nf [Offset k]) by (by apply nf_single). split; [done|]. by apply (nf_snoc [Offset k]). }
      assert (in_i64 (-16)) by (by vm_compute; split). assert (in_i64 8) by (by vm_compute; split).
      repeat (first [apply Forall_nil_2 | apply Forall_cons_2]); (split_and!; simpl; [first [constructor | by apply Hnf]|done|intros i [= <-]; lia]). }
    rewrite Forall_forall in H. specialize (H s Hs). rewrite Forall_forall in H. exact (H ap Hap).
Qed.



(** ** Configurations *)

(** How far an escaped address reaches, on [i64] slots.  [Window(n)] reaches exactly the
    slots [j .. j + n], except that the saturating addition leaves out slot [i64::MAX] when
    [j + n] is beyond it; so every policy reaches no more than [AllAbove], and no less than
    [Exact] but at [i64::MAX], which a window never reaches, not even from itself. *)
Theorem escape_reach_bounds (n j k : Z) : in_i64 j -> in_i64 k -> in_i64 n -> (0 < n)%Z ->
  (reaches_slot (Window n) j k <-> (j <= k < j + n)%Z /\ (i64_max < j + n -> k < i64_max)%Z) /\
  (reaches_slot (Window n) j k -> reaches_slot AllAbove j k) /\
  (reaches_slot Exact j k -> j <> i64_max -> reaches_slot (Window n) j k) /\
  ~ reaches_slot (Window n) i64_max i64_max.
Proof.
  unfold in_i64, reaches_slot, saturating_add. intros Hj Hk Hn Hpos. assert (i64_min = - 2 ^ 63 /\ i64_max = 2 ^ 63 - 1)%Z as [E1 E2] by done.
  rewrite E1, E2 in *. split_and!; lia.
Qed.

Lemma escape_reach_bounds_witness : reaches_slot (Window 8) (-16) (-9) /\ ~ reaches_slot (Window 8) i64_max i64_max.
Proof.
  destruct (escape_reach_bounds 8 (-16) (-9)) as (H1 & _ & _ & H2).
  - by_decide.
  - by_decide.
  - by_decide.
  - by_decide.
  - split; [apply H1; by_decide|exact H2].
Defined.

Lemma digits_val_nonneg s : forall acc, (0 <= acc)%Z -> (0 <= digits_val acc s)%Z.
Proof. induction s as [|c s IH]; intros acc H; simpl; [done|]. apply IH. unfold digit_val. lia. Qed.

Lemma show_Z_digits z : (0 <= z)%Z -> all_str is_digit (show_Z z) = true /\ show_Z z <> "" /\ digits_val 0 (show_Z z) = z.
Proof.
  intros Hz. pose proof (show_Z_nonneg z Hz) as Hd. destruct (show_Z_spec z) as (d & neg & E & _ & Hne & Hv & _).
  rewrite split_sign_digits in E by done. injection E as <- <-. done.
Qed.

Definition window_valid (p : EscapePolicy) : Prop := forall n, p = Window n -> (0 < n <= i64_max)%Z.

Lemma parse_i64_str_show n : parse_i64_str (show_Z n) = if decide (in_i64 n) then Some n else None.
Proof.
  unfold parse_i64_str, i64_from_str. destruct (show_Z_spec n) as (d & neg & -> & Hd & Hne & Hv & _).
  rewrite Hd, bool_decide_eq_false_2 by done. simpl. by rewrite Hv.
Qed.

Lemma strip_prefix_app p s : strip_prefix_str p (p +:+ s) = Some s.
Proof. induction p as [|c p IH]; simpl; [done|]. by rewrite decide_True. Qed.

Lemma parse_window n : EscapePolicy_parse ("window:" +:+ show_Z n) = if decide (0 < n <= i64_max)%Z then Some (Window n) else None.
Proof.
  unfold EscapePolicy_parse. rewrite !decide_False by done. rewrite strip_prefix_app. cbn [mbind option_bind]. rewrite parse_i64_str_show.
  unfold in_i64. assert (i64_min <= 0)%Z by done. repeat case_decide; simpl; try lia; repeat case_decide; try done; lia.
Qed.

Lemma parse_usize_show n : (0 <= n)%Z -> parse_usize_str (show_Z n) = if decide (n <= usize_max)%Z then Some n else None.
Proof.
  intros Hn. destruct (show_Z_digits n Hn) as (Hd & Hne & Hv). unfold parse_usize_str.
  assert ((match show_Z n with String "+" d => d | _ => show_Z n end) = show_Z n) as ->.
  { destruct (show_Z n) as [|c s] eqn:E; [done|]. simpl in Hd. apply andb_true_iff in Hd as [Hc _].
    destruct c as [[] [] [] [] [] [] [] []]; try done; by vm_compute in Hc. }
  rewrite Hd, Hv, bool_decide_eq_false_2 by done. simpl. case_bool_decide; [by rewrite decide_True|by rewrite decide_False].
Qed.

