(* ===== verification/PassWf.v ===== *)
(** * PassWf: the passes keep functions well formed

    Each pass of the pipeline that runs before SSA construction takes a verified function without
    versions to a verified function without versions ([pre_ssa] of [SsaVerify]), and copy
    propagation takes the SSA form to a verified function.  [Pipeline] composes them. *)

From S2P Require Import Prelude Index Text Path PathSyntax IR Graph Dominators DeadTemps CopyProp Coalesce Verify Cfg PhiPlace Rename SsaExec Ssa SsaVerify SsaOrder Mem2Reg.

(** ** Statements and blocks before SSA *)

(** A well-formed access path without a version. *)
Definition good_ap (f : FunctionData) (G : option nat) (ap : AccessPath) : Prop :=
  path_wf ap /\ var_wf f G (base ap) /\ version (base ap) = None.

Definition good_exp (f : FunctionData) (G : option nat) (e : Exp) : Prop := forall ap, access_path e = Some ap -> good_ap f G ap.
Definition good_operand (f : FunctionData) (G : option nat) (e : Exp) : Prop := good_exp f G e /\ forall ap, e <> Exp_Value ap.

Definition good_style (f : FunctionData) (G : option nat) (style : CallStyle) : Prop :=
  match style with
  | FuncPtrCall callee _ => good_ap f G callee
  | _ => forall r, receiver style = Some r -> var_wf f G r /\ version r = None
  end.

Definition good_dst (f : FunctionData) (G : option nat) (v : VariableRef) : Prop :=
  var_wf f G v /\ version v = None /\ is_global (variable v) = false.

Definition good_dest (f : FunctionData) (G : option nat) (ap : AccessPath) : Prop :=
  good_ap f G ap /\ classify (segments ap) <> Address /\ ~ (segments ap = [] /\ is_global (variable (base ap)) = true).

(** What [kind_wf] and [plain_stmt] ask, one access path at a time. *)
Definition good_kind (f : FunctionData) (G : option nat) (k : StatementKind) : Prop :=
  match k with
  | Assign dest srcs => good_dest f G dest /\ Forall (good_exp f G) srcs
  | CallAssign style rets args => good_style f G style /\ Forall (good_dst f G) rets /\ Forall (good_operand f G) args
  | Phi _ _ => False
  | Nop => True
  end.

Definition good_term (f : FunctionData) (G : option nat) (k : TerminatorKind) : Prop :=
  match k with
  | Return args => Forall (good_operand f G) args /\ length args = arity f
  | Goto targets => targets <> [] /\ Forall (fun t => t < length (blocks f)) targets
  end.

Definition good_block (f : FunctionData) (G : option nat) (b : BasicBlockData) : Prop :=
  Forall (fun s => good_kind f G (kind s)) (statements b) /\ exists t, terminator b = Some t /\ good_term f G (term_kind t).

Lemma good_exps f G l : Forall (good_exp f G) l <-> Forall exp_wf l /\ Forall (var_wf f G) (omap base_variable l) /\
  Forall (fun u => version u = None) (omap base_variable l).
Proof.
  rewrite !Forall_forall. split.
  - intros H. split; [|split].
    + intros e He ap Hap. by apply (H e He ap Hap).
    + intros u (e & He & Hu)%list_elem_of_omap. unfold base_variable in Hu. destruct (access_path e) as [ap|] eqn:Hap; [|done].
      injection Hu as <-. by apply (H e He ap Hap).
    + intros u (e & He & Hu)%list_elem_of_omap. unfold base_variable in Hu. destruct (access_path e) as [ap|] eqn:Hap; [|done].
      injection Hu as <-. by apply (H e He ap Hap).
  - intros (H1 & H2 & H3) e He ap Hap. assert (base ap ∈ omap base_variable l) as Hin.
    { apply list_elem_of_omap. exists e. split; [done|]. unfold base_variable. by rewrite Hap. }
    split_and!; [by apply (H1 e He)|by apply H2|by apply H3].
Qed.

Lemma good_operands f G l : Forall (good_operand f G) l <-> Forall operand_wf l /\ Forall (var_wf f G) (omap base_variable l) /\
  Forall (fun u => version u = None) (omap base_variable l).
Proof.
  assert (Forall (good_operand f G) l <-> Forall (good_exp f G) l /\ Forall (fun e => forall ap, e <> Exp_Value ap) l) as -> by apply Forall_and.
  assert (Forall operand_wf l <-> Forall exp_wf l /\ Forall (fun e => forall ap, e <> Exp_Value ap) l) as -> by apply Forall_and.
  rewrite good_exps. tauto.
Qed.

Lemma good_style_wf f G style : good_style f G style <-> (forall callee sg, style = FuncPtrCall callee sg -> path_wf callee) /\
  (forall r, receiver style = Some r -> var_wf f G r /\ version r = None).
Proof. destruct style; simpl; unfold good_ap; naive_solver. Qed.

Lemma good_kind_wf f G s : good_kind f G (kind s) <-> kind_wf f G (kind s) /\ plain_stmt s.
Proof.
  unfold kind_wf, plain_stmt. destruct (kind s) as [dest srcs|style rets args|d ops|]; simpl; [| |naive_solver|].
  - unfold good_dest, good_ap. rewrite good_exps, !Forall_app. unfold is_pathless. destruct (bool_decide _); rewrite ?Forall_singleton, ?Forall_nil; tauto.
  - rewrite good_style_wf, good_operands, !Forall_app. unfold good_dst.
    assert (Forall (fun v => var_wf f G v /\ version v = None /\ is_global (variable v) = false) rets <->
      Forall (var_wf f G) rets /\ Forall (fun v => version v = None) rets /\ Forall (fun v => is_global (variable v) = false) rets) as ->
      by (rewrite !Forall_forall; naive_solver).
    destruct (receiver style) as [r|]; rewrite ?Forall_singleton, ?Forall_nil; naive_solver.
  - rewrite !Forall_nil. tauto.
Qed.

Lemma good_term_wf f G t : good_term f G (term_kind t) <-> term_wf f G (term_kind t) /\ Forall (fun u => version u = None) (term_iter_src_var t).
Proof.
  unfold term_iter_src_var. destruct (term_kind t) as [args|targets]; simpl; [rewrite good_operands; tauto|]. rewrite Forall_nil. tauto.
Qed.

Lemma pre_ssa_good G f : pre_ssa G f <-> name f <> "" /\ Forall (good_block f G) (blocks f) /\ Locals_wf (locals f) /\ 0 < length (blocks f).
Proof.
  unfold pre_ssa, plain_blocks. rewrite !Forall_forall. split.
  - intros (Hn & Hb & Hp & Hl & Hpos). split_and!; [done| |done..]. intros b Hin. apply list_elem_of_lookup in Hin as Hy. destruct Hy as [y Hy].
    destruct (Hp y b Hy) as [Hs Ht], (Hb b Hin) as [Hk (t & Et & Htw)]. split.
    + rewrite Forall_forall in Hs. rewrite Forall_forall in Hk. apply Forall_forall. intros s Hin'. apply good_kind_wf. auto.
    + exists t. split; [done|]. apply good_term_wf. auto.
  - intros (Hn & Hb & Hl & Hpos). split_and!; [done| | |done|done].
    + intros b Hin. destruct (Hb b Hin) as [Hs (t & Et & Ht)]. split; [|exists t; split; [done|by apply good_term_wf in Ht as [? _]]].
      eapply Forall_impl; [exact Hs|]. intros s H. by apply good_kind_wf in H as [? _].
    + intros y b Hy. destruct (Hb b) as [Hs (t & Et & Ht)]; [by eapply list_elem_of_lookup_2|]. split.
      * eapply Forall_impl; [exact Hs|]. intros s H. by apply good_kind_wf in H as [_ ?].
      * intros t' Et'. assert (t' = t) as -> by congruence. by apply good_term_wf in Ht as [_ ?].
Qed.

(** [f'] has the declarations of [f] and perhaps more locals, its arity and its number of blocks. *)
Definition extends (f f' : FunctionData) : Prop :=
  declares f f' /\ arity f' = arity f /\ length (blocks f') = length (blocks f) /\ name f' = name f.

Lemma good_ap_extends f f' G ap : declares f f' -> good_ap f G ap -> good_ap f' G ap.
Proof. intros Hd (? & ? & ?). split_and!; auto. by eapply var_wf_declares. Qed.

Lemma good_operand_extends f f' G e : declares f f' -> good_operand f G e -> good_operand f' G e.
Proof. intros Hd [H ?]. split; [|done]. intros ap Hap. eapply good_ap_extends; eauto. Qed.

Lemma good_kind_extends f f' G k : declares f f' -> good_kind f G k -> good_kind f' G k.
Proof.
  intros Hd. pose proof (fun ap => good_ap_extends f f' G ap Hd) as Hap. destruct k as [dest srcs|style rets args|d ops|]; simpl; [| |done|done].
  - intros [[? ?] Hs]. split; [by split; auto|]. eapply Forall_impl; [exact Hs|]. intros e He ap Hap'. auto.
  - intros (Hs & Hr & Ha). split_and!.
    + destruct style; simpl in *; try done; auto. all: intros r Er; destruct (Hs r Er); split; [by eapply var_wf_declares|done].
    + eapply Forall_impl; [exact Hr|]. intros v (? & ? & ?). split_and!; auto. by eapply var_wf_declares.
    + eapply Forall_impl; [exact Ha|]. intros e. by apply good_operand_extends.
Qed.

Lemma good_term_extends f f' G k : extends f f' -> good_term f G k -> good_term f' G k.
Proof.
  intros (Hd & Ea & El & _). destruct k as [args|ts]; simpl; rewrite ?Ea, ?El; [|done]. intros [Ha ?]. split; [|done].
  eapply Forall_impl; [exact Ha|]. intros e. by apply good_operand_extends.
Qed.

(** A pass is judged block by block. *)
Lemma pre_ssa_pass G f f' : pre_ssa G f -> extends f f' -> Locals_wf (locals f') ->
  (forall b', b' ∈ blocks f' -> exists b, b ∈ blocks f /\
     (good_block f G b -> good_block f' G b')) -> pre_ssa G f'.
Proof.
  rewrite !pre_ssa_good, !Forall_forall. intros (Hn & Hb & _ & Hpos) (_ & _ & El & En) Hl H. split_and!; [congruence| |done|lia].
  intros b' Hb'. destruct (H b' Hb') as (b & Hin & Himp). auto.
Qed.

(** ** Dead temporaries *)

Lemma dead_temps_pre_ssa G temps_iter f : enumerates temps_iter -> pre_ssa G f ->
  exists f' n, eliminate_dead_temps_function temps_iter f = Ret (f', n) /\ pre_ssa G f' /\ name f' = name f.
Proof.
  intros Hit Hpre. destruct (eliminate_spec temps_iter f Hit) as (D & _ & ->). eexists _, _. split; [reflexivity|]. split; [|done].
  assert (extends f (with_blocks f (keep D (blocks f)))) as Hex.
  { split; [done|]. split; [done|]. split; [|done]. simpl. unfold keep. rewrite length_map, <- (length_map fst). change (map fst (enumerate (blocks f))) with ((enumerate (blocks f)).*1). by rewrite enum_from_fst, length_seq. }
  apply (pre_ssa_pass G f); [done|done|apply Hpre|].
  intros b' (e & -> & He)%elem_of_map. destruct e as [i b]. exists b. split; [apply elem_of_enumerate in He; by eapply list_elem_of_lookup_2|].
  intros [Hs (t & Et & Ht)]. split; [|exists t; split; [done|by eapply good_term_extends]]. simpl.
  rewrite Forall_forall in Hs. apply Forall_forall. intros s ([j s'] & -> & [_ Hj]%list_elem_of_filter)%elem_of_map.
  apply (good_kind_extends f); [apply Hex|]. apply Hs. apply elem_of_enumerate in Hj. by eapply list_elem_of_lookup_2.
Qed.

(** ** Copy coalescing *)

Section coalesce.
Context (f : FunctionData) (G : option nat).

(** The right-hand sides that wait to be fused are well formed. *)
Definition pend_good (pending : gmap Var Pending) : Prop := forall t p, pending !! t = Some p -> Forall (good_exp f G) (p_sources p).

Lemma pend_good_delete t pending : pend_good pending -> pend_good (delete t pending).
Proof. intros H u p [_ Hp]%lookup_delete_Some. eauto. Qed.

Lemma try_subst_exp_good e ia st e' st' : try_subst_exp e ia st = (e', st') -> good_exp f G e -> pend_good st.1 ->
  good_exp f G e' /\ pend_good st'.1 /\ (ia = false -> (forall ap, e <> Exp_Value ap) -> forall ap, e' <> Exp_Value ap).
Proof.
  destruct st as [pending dead]. unfold try_subst_exp. intros E He Hp.
  destruct (access_path e) as [ap|]; [|by injection E as <- <-]. destruct (negb (is_pathless ap)); [by injection E as <- <-|].
  destruct (version (base ap)); [by injection E as <- <-|]. destruct (pending !! variable (base ap)) as [p|] eqn:Ep; [|by injection E as <- <-].
  destruct (p_sources p) as [|src [|]] eqn:Es; [by injection E as <- <-| |by injection E as <- <-].
  specialize (Hp _ _ Ep) as Hsrc. rewrite Es in Hsrc. rewrite Forall_singleton in Hsrc.
  destruct (subst_for _ ia src) as [e2|] eqn:Esub; [|by injection E as <- <-]. injection E as <- <-.
  split; [|split; [by apply pend_good_delete|]].
  - destruct e, src; simpl in Esub; try case_match; simplify_eq; exact Hsrc.
  - intros -> Hv ap'. destruct e as [| |?|?|?|?]; [|by destruct (Hv ap0)|..]; destruct src; simpl in Esub; simplify_eq; done.
Qed.

Lemma subst_exps_good es : forall ia st es' st', subst_exps es ia st = (es', st') -> pend_good st.1 -> Forall (good_exp f G) es ->
  pend_good st'.1 /\ Forall (good_exp f G) es' /\ length es' = length es /\ (ia = false -> Forall (good_operand f G) es -> Forall (good_operand f G) es').
Proof.
  induction es as [|e es IH]; intros ia st es' st' E Hp He; simpl in E; [by injection E as <- <-|].
  destruct (try_subst_exp e ia st) as [e1 st1] eqn:E1. destruct (subst_exps es ia st1) as [es1 st2] eqn:E2. injection E as <- <-.
  apply Forall_cons in He as [He Hes]. destruct (try_subst_exp_good _ _ _ _ _ E1 He Hp) as (He1 & Hp1 & Hv1).
  destruct (IH _ _ _ _ E2 Hp1 Hes) as (Hp2 & Hes1 & Hl & Hop). split; [done|]. split; [by constructor|]. split; [simpl; by rewrite Hl|].
  intros Hia [[_ Hv] Hes']%Forall_cons. constructor; [split; auto|auto].
Qed.

Lemma try_subst_address_good ap st ap' st' : try_subst_address ap st = (ap', st') -> pend_good st.1 -> good_ap f G ap ->
  pend_good st'.1 /\ good_ap f G ap'.
Proof.
  destruct st as [pending dead]. unfold try_subst_address. intros E Hp Ha.
  destruct (version (base ap)); [by injection E as <- <-|]. destruct (pending !! variable (base ap)) as [p|] eqn:Ep; [|by injection E as <- <-].
  destruct (p_sources p) as [|src [|]] eqn:Es; [by injection E as <- <-| |by injection E as <- <-].
  specialize (Hp _ _ Ep) as Hsrc. rewrite Es in Hsrc. rewrite Forall_singleton in Hsrc.
  destruct (variable_ref src) as [v|] eqn:Ev; [|by injection E as <- <-]. injection E as <- <-. split; [by apply pend_good_delete|].
  destruct src as [a| | | | |]; simpl in Ev; try done. destruct (is_pathless a); [|done]. injection Ev as <-.
  destruct (Hsrc a eq_refl) as (_ & ? & ?). destruct Ha as (? & _ & _). by split_and!.
Qed.

Lemma good_operands_exps l : Forall (good_operand f G) l -> Forall (good_exp f G) l.
Proof. intros H. eapply Forall_impl; [exact H|]. by intros e [? _]. Qed.

Lemma fuse_kind_good k st k' st' : fuse_kind k st = (k', st') -> good_kind f G k -> pend_good st.1 -> good_kind f G k' /\ pend_good st'.1.
Proof.
  destruct k as [dest srcs|style rets args|d ops|]; simpl; [| |done|by intros [= <- <-]].
  - intros E [Hd Hs] Hp. destruct (negb (is_pathless dest)).
    { destruct (subst_exps srcs false st) as [srcs' st1] eqn:E1. injection E as <- <-.
      destruct (subst_exps_good _ _ _ _ _ E1 Hp Hs) as (? & ? & _). by split_and!. }
    destruct (whole_var_copy_of srcs st.1) as [[v p]|] eqn:Ew.
    { injection E as <- <-. simpl. assert (st.1 !! v = Some p) as Ep.
      { unfold whole_var_copy_of in Ew. destruct srcs as [|e [|]]; try done. destruct (variable_ref e) as [r|]; [|done].
        destruct (version r); [done|]. destruct (st.1 !! variable r) eqn:Er; [|done]. by injection Ew as <- <-. }
      split; [|by apply pend_good_delete]. split; [done|]. by eapply Hp. }
    destruct (subst_exps srcs true st) as [srcs' st1] eqn:E1. injection E as <- <-.
    destruct (subst_exps_good _ _ _ _ _ E1 Hp Hs) as (? & ? & _). by split_and!.
  - intros E (Hs & Hr & Ha) Hp. destruct (subst_exps args false st) as [args' st1] eqn:E1.
    destruct (subst_exps_good _ _ _ _ _ E1 Hp (good_operands_exps _ Ha)) as (Hp1 & _ & _ & Hop).
    destruct style as [| |callee sg| | |]; try (injection E as <- <-; simpl; split_and!; auto; fail).
    destruct (try_subst_address callee st1) as [callee' st2] eqn:E2. injection E as <- <-.
    destruct (try_subst_address_good _ _ _ _ E2 Hp1 Hs) as [? ?]. simpl. split_and!; auto.
Qed.

Lemma coalesce_stmts_good cand l : forall pos st l' st', coalesce_stmts cand pos l st = (l', st') ->
  Forall (fun s => good_kind f G (kind s)) l -> pend_good st.1 -> Forall (fun s => good_kind f G (kind s)) l' /\ pend_good st'.1.
Proof.
  induction l as [|s l IH]; intros pos st l' st' E Hl Hp; simpl in E; [by injection E as <- <-|].
  unfold coalesce_stmt in E. destruct (fuse_kind (kind s) st) as [k [pending dead]] eqn:Ef. apply Forall_cons in Hl as [Hs Hl].
  destruct (fuse_kind_good _ _ _ _ Ef Hs Hp) as [Hk Hp1]. simpl in Hp1.
  destruct (coalesce_stmts cand (S pos) l _) as [l1 st1] eqn:E1. injection E as <- <-.
  destruct (IH _ _ _ _ E1 Hl) as [? ?]; [|split; [constructor; done|done]]. simpl.
  assert (pend_good (invalidate k pending)) as Hi by (intros t p [Ht _]%map_lookup_filter_Some; eauto).
  intros t p Ht. unfold register in Ht. destruct k as [dest srcs| | |]; [|by eapply Hi..]. destruct (_ && _); [|by eapply Hi].
  destruct (source_vars _ srcs) as [vs|]; [|by eapply Hi]. apply lookup_insert_Some in Ht as [[_ <-]|[_ Ht]]; [|by eapply Hi]. by destruct Hk.
Qed.

Lemma delete_dead_sub s l : forall i dead, s ∈ delete_dead i l dead -> s ∈ l.
Proof.
  induction l as [|x l IH]; intros i dead Hs; simpl in Hs; [done|]. destruct dead as [|d dead]; [|case_decide];
    rewrite ?elem_of_cons in *; naive_solver.
Qed.

Lemma coalesce_block_good cand uses b b' n : coalesce_block cand uses b = Ret (b', n) -> good_block f G b -> good_block f G b'.
Proof.
  unfold coalesce_block. destruct (coalesce_stmts cand 0 (statements b) (∅, [])) as [stmts st] eqn:E1.
  destruct (coalesce_term (terminator b) st) as [term [pending dead]] eqn:E2. destruct (foldM _ _ _) as [?| |]; [|done..]. simpl. intros [= <- _].
  intros [Hs (t & Et & Ht)]. destruct (coalesce_stmts_good _ _ _ _ _ _ E1 Hs) as [Hl Hp]; [intros t0 p0; simpl; by rewrite lookup_empty|]. split; simpl.
  - rewrite Forall_forall in Hl. apply Forall_forall. intros s Hin%delete_dead_sub. auto.
  - unfold coalesce_term in E2. rewrite Et in E2. unfold good_term in Ht. destruct (term_kind t) as [args|ts] eqn:Ek.
    + destruct (subst_exps args false st) as [args' st1] eqn:E3. injection E2 as <- _. destruct Ht as [Ha Hn].
      destruct (subst_exps_good _ _ _ _ _ E3 Hp (good_operands_exps _ Ha)) as (_ & _ & Hlen & Hop).
      eexists. split; [reflexivity|]. simpl. split; [auto|congruence].
    + injection E2 as <- _. exists t. split; [done|]. by rewrite Ek.
Qed.
End coalesce.

Lemma good_block_same f f' G b : extends f f' -> good_block f G b -> good_block f' G b.
Proof.
  intros Hex [Hs (t & Et & Ht)]. split; [|exists t; split; [done|by eapply good_term_extends]].
  eapply Forall_impl; [exact Hs|]. intros s. apply good_kind_extends, Hex.
Qed.

Lemma coalesce_pre_ssa G f : pre_ssa G f -> exists f' n, coalesce_function f = Ret (f', n) /\ pre_ssa G f' /\ name f' = name f.
Proof.
  intros Hpre. destruct (coalesce_function_spec (V := unit) (H := unit) f) as (f' & n & E & _). exists f', n. split; [done|].
  unfold coalesce_function in E. destruct (decide (blocks f = [])); [by injection E as <- _|]. rewrite fold_mapM in E.
  destruct (mapM_out _ (blocks f)) as [rs| |] eqn:Em; [|done..]. cbn [mbind outcome_bind] in E. injection E as <- _. split; [|done].
  apply mapM_out_Ret in Em. assert (extends f (with_blocks f (map fst rs))) as Hex.
  { split; [done|]. split; [done|]. split; [|done]. simpl. rewrite length_map. symmetry. by eapply Forall2_length. }
  apply (pre_ssa_pass G f); [done|done|apply Hpre|]. intros b' ([b1 m] & -> & [i Hi]%list_elem_of_lookup)%elem_of_map.
  destruct (Forall2_lookup_r _ _ _ _ _ Em Hi) as (b & Hb & Ec). exists b. split; [by eapply list_elem_of_lookup_2|].
  intros Hg. eapply good_block_same; [done|]. by eapply coalesce_block_good.
Qed.

(** ** Mem2reg *)

Lemma push_after_deref a r s : push_normalized (a ++ Deref :: r) s = a ++ Deref :: push_normalized r s.
Proof.
  assert (forall r x, split_last (a ++ Deref :: r ++ [x]) = Some (a ++ Deref :: r, x)) as Hsl.
  { intros r' x. rewrite app_comm_cons, app_assoc. apply split_last_snoc. }
  assert (split_last (a ++ [Deref]) = Some (a, Deref)) as H0 by apply split_last_snoc.
  destruct r as [|x r _] using rev_ind; [|rewrite ?app_comm_cons in *]; destruct s as [fn|k| |].
  all: simpl; rewrite ?Hsl, ?H0; simpl; rewrite <- ?app_assoc; simpl; rewrite ?split_last_snoc.
  all: try (by repeat (case_match || case_decide); simplify_eq/=; rewrite <- ?app_assoc).
  destruct x; simpl; rewrite ?Hsl, ?split_last_snoc; rewrite <- ?app_assoc; simpl; rewrite <- ?app_assoc; try done.
  destruct r as [|y r _] using rev_ind; rewrite ?H0, ?Hsl, ?split_last_snoc; simpl; [by rewrite <- ?app_assoc|].
  destruct y; simpl; rewrite <- ?app_assoc; simpl; by rewrite <- ?app_assoc.
Qed.

Lemma normalize_deref x t : normalize (x ++ Deref :: t) = normalize x ++ Deref :: normalize t.
Proof.
  unfold normalize. rewrite foldl_app. simpl. generalize (foldl push_normalized [] x) as a. intros a. generalize (@nil PathSegment) as r.
  induction t as [|s t IH]; intros r; simpl; [done|]. by rewrite push_after_deref, IH.
Qed.

(** The path below a slot is in order when the path through the slot is. *)
Lemma slot_rest_wf ap st k t : path_wf ap -> frame_access ap st = Some (k, Deref :: t) ->
  normalize t = t /\ classify t = classify (segments ap) /\ Field VALUE ∉ t.
Proof.
  intros (Hn & _ & Hf) Ha. unfold frame_access in Ha. case_decide; [|done].
  assert (exists x, segments ap = x ++ Deref :: t /\ (x = [] \/ x = [Offset k])) as (x & E & Hx).
  { destruct (segments ap) as [|[fn|o| |] segs]; simplify_eq/=; [by exists [Offset k]; auto|by exists []; auto]. }
  rewrite E in *. split_and!; [| |set_solver].
  - rewrite normalize_deref in Hn. destruct Hx as [-> | ->]; [by injection Hn|]. unfold normalize in Hn. simpl in Hn. case_decide; by simplify_eq/=.
  - unfold classify. replace (after_value (x ++ Deref :: t)) with (after_value t) by (by destruct Hx as [-> | ->]).
    destruct (match after_value t with Some rest => _ | None => _ end); [done|].
    destruct t as [|y t _] using rev_ind; [by rewrite split_last_snoc|]. by rewrite app_comm_cons, app_assoc, !split_last_snoc.
Qed.

Definition slots_declared (l : Locals) (m : gmap Z VariableRef) : Prop :=
  forall k v, m !! k = Some v -> exists idx, v = new_local_idx idx /\ idx < length (decls l).

Lemma slots_declared_insert l l' m k idx : decls l `prefix_of` decls l' -> idx < length (decls l') -> slots_declared l m ->
  slots_declared l' (<[k := new_local_idx idx]> m).
Proof.
  intros Hp Hi Hm j v. rewrite lookup_insert_Some. intros [[_ <-]|[_ Hj]]; [eauto|]. destruct (Hm j v Hj) as (i & -> & ?).
  exists i. split; [done|]. apply prefix_length in Hp. lia.
Qed.

Lemma choose_slots_declared policy full f sc : Locals_wf (locals f) ->
  exists l P E, choose_slots policy full f sc = {| ch_function := with_locals f l; ch_promotable := P; ch_escaped := E |} /\
    Locals_wf l /\ decls (locals f) `prefix_of` decls l /\ slots_declared l P /\ slots_declared l E.
Proof.
  intros Hl. unfold choose_slots. set (existing := if full then _ else _). clearbody existing.
  generalize (slot_iter (direct_slots (sc_uses sc))) as ks. intros ks. induction ks as [|k ks IH] using rev_ind.
  { exists (locals f), ∅, ∅. split_and!; [by destruct f|done|done|..]; intros k v; by rewrite lookup_empty. }
  destruct IH as (l & P & E & Ec & Hlw & Hpre & HP & HE). rewrite foldl_app, Ec. cbn [foldl]. unfold choose_slot. cbn [ch_function ch_promotable ch_escaped].
  destruct (decide _); [by exists l, P, E|]. unfold intern_local. cbn [locals with_locals].
  pose proof (get_or_intern_step l (slot_local_name k) Hlw) as Hs. destruct (get_or_intern l (slot_local_name k)) as [l1 i].
  destruct Hs as (Hd & Hx & Hi%lookup_lt_Some & Hp & _). eexists l1, _, _. split; [reflexivity|]. split_and!.
  - split; auto.
  - by etrans.
  - by eapply slots_declared_insert.
  - destruct (decide (reached policy (sc_escapes sc) k)); [by eapply slots_declared_insert|]. intros j v Hj. destruct (HE j v Hj) as (i' & -> & ?).
    exists i'. split; [done|]. apply prefix_length in Hp. lia.
Qed.

Section mem2reg.
Context (f f' : FunctionData) (G : option nat) (st : Var) (P : gmap Z VariableRef).
Hypothesis Hd : declares f f'.
Hypothesis HP : slots_declared (locals f') P.

Lemma pr_ap_good ap : good_ap f G ap -> good_ap f' G (pr_ap st P ap) /\
  (classify (segments ap) <> Address -> classify (segments (pr_ap st P ap)) <> Address) /\
  (is_pathless ap = false -> ~ (segments (pr_ap st P ap) = [] /\ is_global (variable (base (pr_ap st P ap))) = true)).
Proof.
  intros Ha. pose proof (good_ap_extends f f' G ap Hd Ha) as Ha'.
  assert (is_pathless ap = false -> ~ (segments ap = [] /\ is_global (variable (base ap)) = true)) as Hs
    by (unfold is_pathless; intros H [E _]; by rewrite bool_decide_eq_true_2 in H).
  unfold pr_ap, promote_access. destruct (frame_access ap st) as [[k [|[| | |] t]]|] eqn:Ef; try done.
  destruct (P !! k) as [v|] eqn:Ek; [|done]. destruct (HP k v Ek) as (i & -> & Hi).
  destruct Ha as ((Hn & Hc & Hv) & _). destruct (slot_rest_wf ap st k t (conj Hn (conj Hc Hv)) Ef) as (H1 & H2 & H3). simpl.
  rewrite H1, H2. split_and!; [|done|by intros _ [_ ?]]. split_and!; [|done|done]. split_and!; simpl; by rewrite ?H1, ?H2.
Qed.

Lemma pr_exp_good e : good_exp f G e -> good_exp f' G (pr_exp st P e).
Proof. intros He ap Hap. destruct e as [a|a| | | |]; simpl in Hap; simplify_eq; by apply pr_ap_good, He. Qed.

Lemma pr_operand_good e : good_operand f G e -> good_operand f' G (pr_exp st P e).
Proof. intros [He Hv]. split; [by apply pr_exp_good|]. intros ap. destruct e; simpl; try done. by destruct (Hv ap0). Qed.

Lemma pr_kind_good k : good_kind f G k -> good_kind f' G (pr_kind st P k).
Proof.
  destruct k as [dest srcs|style rets args|d ops|]; simpl; [| |done|done].
  - intros [(Ha & Hc & Hg) Hs]. split.
    + destruct (is_pathless dest) eqn:E; [split_and!; [by eapply good_ap_extends|done|done]|].
      destruct (pr_ap_good dest Ha) as (? & ? & ?). split_and!; auto.
    + apply Forall_fmap. eapply Forall_impl; [exact Hs|]. apply pr_exp_good.
  - intros (Hs & Hr & Ha). destruct (good_kind_extends f f' G (CallAssign style rets [])) as (Hs' & Hr' & _); [done|by split_and!; [..|constructor]|].
    split_and!; [|done|apply Forall_fmap; eapply Forall_impl; [exact Ha|]; apply pr_operand_good].
    destruct style; try exact Hs'. by apply pr_ap_good.
Qed.
End mem2reg.

Lemma reload_good f G st_idx si k i : st_idx < length (decls (locals f)) -> i < length (decls (locals f)) ->
  good_kind f G (kind (reload_stmt st_idx si (new_local_idx i) k)).
Proof.
  intros Hst Hi. assert (normalize [Offset k; Deref] = if decide (k = 0%Z) then [Deref] else [Offset k; Deref]) as E
    by (unfold normalize; simpl; by case_decide).
  split; [split_and!; [split_and!; [apply path_wf_var|done|done]|done|by intros [_ ?]]|].
  constructor; [|constructor]. intros ap [= <-]. split_and!; [|done|done]. unfold path_wf. simpl. rewrite E.
  case_decide; unfold normalize; simpl; rewrite ?decide_False by done; split_and!; try done; set_solver.
Qed.

Lemma mem2reg_pre_ssa G f config mode : pre_ssa G f -> exists f' stats note, promote_function f config mode = (f', stats, note) /\
  pre_ssa G f' /\ name f' = name f.
Proof.
  intros Hpre. unfold promote_function. destruct (find_name _ _) as [st|] eqn:Est; [|eauto 10]. apply find_name_Some, lookup_lt_Some in Est.
  destruct (m2r_scan _ _) as [sc|]; [|eauto 10]. set (full := full_promotion _ _ _).
  destruct (choose_slots_declared (escape config) full f sc) as (l & P & E & Ec & Hlw & Hp%prefix_length & HP & HE); [apply Hpre|].
  rewrite Ec. cbn [ch_promotable ch_escaped ch_function]. case_decide.
  { eexists _, _, _. split; [reflexivity|]. split; [|done]. apply (pre_ssa_pass G f); [done|by split_and!|done|].
    intros b' Hb'. exists b'. split; [done|]. apply good_block_same. by split_and!. }
  set (ch := {| ch_function := _; ch_promotable := P; ch_escaped := E |}).
  destruct (promote_blocks_spec (escape config) st ch (blocks f) (0, 0) 0 []) as (n' & ->). eexists _, _, _. split; [reflexivity|]. split; [|done].
  rewrite app_nil_l. set (f' := with_blocks _ _).
  assert (extends f f') as Hex by (split_and!; [by split|done|simpl; by rewrite length_map|done]).
  apply (pre_ssa_pass G f); [done..|]. intros b' (b & -> & Hb)%elem_of_map. exists b. split; [done|]. intros [Hs (t & Et & Ht)].
  split; [|exists t; split; [done|by eapply good_term_extends]]. simpl. rewrite Forall_forall in Hs. apply Forall_forall.
  intros s (s0 & Hs0 & Hin)%list_elem_of_bind. apply elem_of_cons in Hs0 as [->|Hr].
  - simpl. apply (pr_kind_good f); [apply Hex|done|auto].
  - apply list_elem_of_omap in Hr as (k & _ & Hk). simpl in Hk. destruct (E !! k) as [v|] eqn:Ev; [|done]. injection Hk as <-.
    destruct (HE k v Ev) as (i & -> & Hi). apply reload_good; simpl; lia.
Qed.

(** ** Copy propagation *)

Lemma kind_wf_map_src f G g k : kind_wf f G k -> (forall u, u ∈ iter_src_var k -> var_wf f G (g u)) ->
  (forall u, u ∈ iter_src_var k -> is_global (variable u) = false -> is_global (variable (g u)) = false) -> kind_wf f G (map_src_var g k).
Proof.
  intros [Hv Hk] Hg Hn. apply Forall_app in Hv as [_ Hd]. split.
  { rewrite iter_src_var_map, iter_dst_var_map. apply Forall_app. split; [|done]. apply Forall_fmap, Forall_forall. exact Hg. }
  destruct k as [dest srcs|style rets args|d ops|]; simpl in *; [| | |done].
  - destruct Hk as (Hp & Hc & Hgl & Hs). assert (Forall exp_wf (map (map_base_variable g) srcs)) as Hs'.
    { apply Forall_fmap. eapply Forall_impl; [exact Hs|]. intros e. apply exp_wf_map. }
    destruct (is_pathless dest) eqn:E; [done|]. split_and!; [done|done| |done]. intros [Hseg _]. simpl in Hseg.
    unfold is_pathless in E. by rewrite bool_decide_eq_true_2 in E.
  - destruct Hk as (Ha & Hc & Hr). split_and!; [| |done].
    + apply Forall_fmap. eapply Forall_impl; [exact Ha|]. intros e. apply operand_wf_map.
    + intros callee sg Hst. destruct style as [| |c s| | |]; simplify_eq/=. by specialize (Hc c sg eq_refl).
  - apply Forall_cons in Hk as [Hd0 Ho]. constructor; [done|]. rewrite Forall_forall in Ho. apply Forall_forall.
    intros u ([p op] & -> & ([q o] & [= -> ->] & Hin)%elem_of_map)%elem_of_map. simpl.
    assert (o ∈ map snd ops) as Hin' by (apply elem_of_map; by exists (q, o)). auto.
Qed.

Section copy_prop.
Context (f : FunctionData) (G : option nat) (P : Aliases).
Let l := stmts_of (blocks f).
Let f' := with_blocks f (map (propagated_block P) (blocks f)).
Hypothesis Hwf : function_wf f G.
Hypothesis Hinv : alias_inv l P.
Hypothesis Hsrc : forall u, alias_source l u -> defined_or_incoming (definitions_of f) u.

Lemma stmt_kind_wf s : s ∈ l -> kind_wf f G (kind s).
Proof.
  intros (b & Hs & Hb)%list_elem_of_bind. destruct Hwf as (_ & Hbs & _). rewrite Forall_forall in Hbs. destruct (Hbs b Hb) as [Hk _].
  rewrite Forall_forall in Hk. auto.
Qed.

Lemma alias_source_wf u : alias_source l u -> var_wf f G u /\ is_global (variable u) = false.
Proof.
  intros [(d & s & Hs & (dest & e & Hk & Hp & _ & He & _ & Hv & _)%copy_of_Some)|(d & ops & (s & o & Hs & Hk & -> & _) & Hu)].
  - pose proof (stmt_kind_wf s Hs) as [Hw _]. rewrite Hk in Hw. simpl in Hw. rewrite Hp in Hw.
    assert (base_variable e = Some u) as Eb.
    { destruct e as [ap| | | | |]; simpl in He; try done. destruct (is_pathless ap); [|done]. done. }
    rewrite Eb in Hw. apply Forall_cons in Hw as [Hw _]. split; [done|]. unfold var_wf in Hw. destruct (variable u); [|done|done].
    destruct Hw as [_ Hn]. unfold has_version in Hv. by rewrite Hn in Hv.
  - pose proof (stmt_kind_wf s Hs) as [Hw Hg]. rewrite Hk in Hw, Hg. simpl in *. apply Forall_app in Hw as [Hw _]. apply Forall_cons in Hg as [_ Hg].
    rewrite Forall_forall in Hw. rewrite Forall_forall in Hg. split; [by apply Hw|by apply Hg].
Qed.

Lemma resolve_wf v : var_wf f G v -> var_wf f G (resolve P v) /\ (is_global (variable v) = false -> is_global (variable (resolve P v)) = false).
Proof.
  intros Hv. destruct (resolve_source l P v (a_term _ _ Hinv) (a_val _ _ Hinv)) as [->|Hs]; [done|]. by apply alias_source_wf in Hs as [? ?].
Qed.

Lemma resolve_defined v : defined_or_incoming (definitions_of f) v -> defined_or_incoming (definitions_of f') (resolve P v).
Proof.
  intros Hv i Hi Hi0. assert (resolve P v ∈ definitions_of f) as Hin.
  { destruct (resolve_source l P v (a_term _ _ Hinv) (a_val _ _ Hinv)) as [E|Hs]; [rewrite E in *; by eapply Hv|by eapply Hsrc]. }
  destruct (resolve_repr P v (a_term _ _ Hinv)) as [_ Hroot]. apply list_elem_of_bind in Hin as (b & Hd & Hb).
  apply list_elem_of_bind in Hd as (s & Hd & Hs). apply list_elem_of_bind. exists (propagated_block P b). split.
  - apply list_elem_of_bind. exists (with_kind s (map_src_var (resolve P) (kind s))). split; [simpl; by rewrite iter_dst_var_map|].
    apply elem_of_rewritten. exists s. split_and!; [done..|]. by eapply kept_def.
  - simpl. apply elem_of_map. eauto.
Qed.

Lemma propagated_wf : function_wf f' G.
Proof.
  pose proof Hwf as (Hn & Hbs & Hst). rewrite Forall_forall in Hbs. rewrite Forall_forall in Hst.
  split_and!; [done|..]; apply Forall_forall; intros b' (b & -> & Hb)%elem_of_map.
  - destruct (Hbs b Hb) as [Hk (t & Et & Ht)]. split.
    + apply Forall_forall. intros s' (s & Hs & -> & _)%elem_of_rewritten. simpl. rewrite Forall_forall in Hk. specialize (Hk s Hs).
      apply (kind_wf_declares f f'); [done|]. pose proof Hk as [Hv _]. apply Forall_app in Hv as [Hv _]. rewrite Forall_forall in Hv.
      apply kind_wf_map_src; [done|..]; intros u Hu; by apply resolve_wf, Hv.
    + simpl. rewrite Et. eexists. split; [reflexivity|]. unfold term_map_src_var, term_wf in *. destruct (term_kind t) as [args|ts] eqn:Ek; simpl.
      * destruct Ht as (Hv & Ha & Hl). rewrite omap_base_variable_map. split_and!; [| |by rewrite length_map].
        -- apply Forall_fmap. eapply Forall_impl; [exact Hv|]. intros u Hu. by apply resolve_wf.
        -- apply Forall_fmap. eapply Forall_impl; [exact Ha|]. intros e. apply operand_wf_map.
      * rewrite Ek, length_map. done.
  - apply Forall_forall. intros s' (s & Hs & -> & _)%elem_of_rewritten. specialize (Hst b Hb). rewrite Forall_forall in Hst. specialize (Hst s Hs).
    unfold store_wf in *. simpl. destruct (kind s) as [dest srcs| | |]; try done. simpl. unfold is_pathless. case_bool_decide as Hseg; simpl; [done|].
    intros _ i Hi Hi0. eapply resolve_defined; [|done..]. intros j Hj Hj0. by eapply Hst.
Qed.
End copy_prop.

Lemma rewritten_dsts P l : dsts (rewritten P l) `sublist_of` dsts l.
Proof.
  unfold rewritten, dsts. induction l as [|s l IH]; csimpl; [done|]. rewrite filter_cons. destruct (decide _); csimpl.
  - rewrite iter_dst_var_map. by apply sublist_app.
  - by apply sublist_inserts_l.
Qed.

Lemma propagated_dsts P bs : map (propagated_block P) bs ≫= block_dst_vars `sublist_of` bs ≫= block_dst_vars.
Proof. induction bs as [|b bs IH]; csimpl; [done|]. apply sublist_app; [|done]. apply rewritten_dsts. Qed.

(** After SSA construction the pass returns, and keeps the function well formed and in SSA form. *)
Lemma copy_prop_transformed f f' f1 G bs1 b0 rest dt T Ps tin tout : transformed f f' f1 G bs1 b0 rest dt T Ps tin tout ->
  exists f'' n, propagate_copies_function f' = Ret (f'', n) /\ function_wf f'' G /\ name f'' = name f' /\ NoDup (blocks f'' ≫= block_dst_vars).
Proof.
  intros Htf. pose proof (transformed_single _ _ _ _ _ _ _ _ _ _ _ _ Htf) as Hnd. pose proof (transformed_wf _ _ _ _ _ _ _ _ _ _ _ _ Htf) as Hwf.
  destruct (propagate_spec f' (def_rank (b0 :: rest) dt) (distinct_single _ Hnd)) as (P & f'' & n & E & Hinv & _ & _ & _ & _ & ->).
  { by eapply result_ranked. }
  eexists _, n. split; [exact E|]. split_and!; [|done|].
  - apply propagated_wf; [done..|]. by eapply result_sources.
  - simpl. eapply sublist_NoDup; [exact Hnd|apply propagated_dsts].
Qed.

(** Without versions it changes nothing. *)
Lemma copy_prop_plain G f : pre_ssa G f -> propagate_copies_function f = Ret (f, 0).
Proof.
  intros (_ & _ & Hp & _). assert (forall s, s ∈ stmts_of (blocks f) -> plain_stmt s) as Hpl.
  { intros s (b & Hs & [y Hy]%list_elem_of_lookup)%list_elem_of_bind. destruct (Hp y b Hy) as [H _]. rewrite Forall_forall in H. auto. }
  apply (propagate_fixpoint ∅); intros s Hs; destruct (Hpl s Hs) as [Hphi Hn].
  - destruct (copy_of (kind s)) as [[d src]|] eqn:E; [exfalso|done]. apply copy_of_Some in E as (dest & e & Hk & Hpl' & <- & _ & Hv & _).
    rewrite Hk in Hn. simpl in Hn. rewrite Hpl' in Hn. apply Forall_app in Hn as [_ [Hd _]%Forall_cons]. unfold has_version in Hv. by rewrite Hd in Hv.
  - intros d o Hk. by rewrite Hk in Hphi.
Qed.

(** ** Enough fuel *)

(** [Q fuel] for every large enough [fuel]. *)
Definition eventually (Q : nat -> Prop) : Prop := exists n, forall fuel, n <= fuel -> Q fuel.

Lemma eventually_impl (Q R : nat -> Prop) : eventually Q -> (forall fuel, Q fuel -> R fuel) -> eventually R.
Proof. intros [n H] HR. exists n. auto. Qed.

Lemma eventually_and (Q R : nat -> Prop) : eventually Q -> eventually R -> eventually (fun fuel => Q fuel /\ R fuel).
Proof. intros [n H] [m H']. exists (Nat.max n m). intros fuel Hf. split; [apply H|apply H']; lia. Qed.

Lemma eventually_forall {A} (Q : nat -> A -> Prop) (l : list A) : Forall (fun x => eventually (fun fuel => Q fuel x)) l ->
  eventually (fun fuel => Forall (Q fuel) l).
Proof.
  induction 1 as [|x l Hx _ IH]; [exists 0; constructor|]. eapply eventually_impl; [exact (eventually_and _ _ Hx IH)|]. intros fuel []. by constructor.
Qed.

Lemma reach_loop_mono (bs : BasicBlocks) fuel : forall fuel' nodes seen out r, reach_loop fuel bs nodes seen out = Ret r -> fuel <= fuel' ->
  reach_loop fuel' bs nodes seen out = Ret r.
Proof.
  induction fuel as [|fuel IH]; intros fuel' nodes seen out r E Hf; [done|]. destruct fuel' as [|fuel']; [lia|].
  simpl in *. destruct nodes as [|x nodes]; [done|]. destruct (decide (x ∈ seen)); [apply IH; [done|lia]|].
  destruct (block_successors bs x) as [ss| |]; [|done..]. simpl in *. apply IH; [done|lia].
Qed.

Lemma transform_eventually (hash_iter : gset nat -> list nat) mode f G : pre_ssa G f -> (forall s x, x ∈ hash_iter s -> x ∈ s) ->
  eventually (fun fuel => exists f' f1 bs1 b0 rest dt T Ps tin tout, transform_with hash_iter fuel true mode f = Ret f' /\
    transformed f f' f1 G bs1 b0 rest dt T Ps tin tout).
Proof.
  intros Hpre Hit. set (n0 := search_fuel (successors (blocks f)) (node_set (blocks f))).
  destruct (prune_spec n0 f) as (f0 & r & E0 & Hpr); [by eapply pre_ssa_graph|apply Hpre|done|]. pose proof (prune_pre_ssa f f0 r G Hpre Hpr) as Hpre0.
  destruct (complete_blocks f0) as (? & ? & ? & E1 & _); [apply Hpre0|by eapply pre_ssa_graph|apply Hpre0|]. set (f1 := with_blocks _ _) in E1. clearbody f1.
  set (n1 := search_fuel (successors (blocks f1)) (node_set (blocks f1))).
  set (n2 := match ssa_scan (blocks f1) with Ret sc => place_fuel sc (length (blocks f1)) | _ => 0 end).
  exists (n0 + n1 + S (length (blocks f1)) + n2). intros fuel Hf. apply transform_spec; [done|done|done|fold n0; lia|].
  assert (prune_unreachable_nodes fuel f = Ret f0) as ->.
  { unfold prune_unreachable_nodes in *. destruct (reachable n0 (blocks f)) as [l| |] eqn:El; [|done..].
    unfold reachable in *. rewrite (reach_loop_mono _ _ fuel _ _ _ _ El) by lia. done. }
  intros g0 g1 [= <-] Eg. rewrite E1 in Eg. injection Eg as <-. split_and!; [fold n1; lia|lia|]. intros sc Esc. unfold n2 in Hf. rewrite Esc in Hf. lia.
Qed.
