(* ===== verification/Pipeline.v ===== *)
(** * Pipeline: the passes that run before indexing ([ctadl-ir/src/ssa/mod.rs])

    [run_function_pipeline] runs the selected passes on one function; [run_pipeline_with] runs it
    on every function of a program, on one thread or on a pool.  rayon's parallel reduction is a
    parameter: it combines the results in an order that keeps theirs, with the identity wherever
    it likes.  The hash iteration orders and the fuel of the passes are parameters too. *)

From S2P Require Import Prelude Index Text Path PathSyntax IR Graph Dominators DeadTemps CopyProp Coalesce Verify Cfg PhiPlace Rename SsaExec Ssa SsaVerify Mem2Reg PassWf.

Record Pipeline : Type := mk_pipeline {
  p_dead_temps : bool; p_coalesce : bool; p_mem2reg : option Mem2Reg; p_ssa : bool; p_copy_prop : bool; p_prune_unreachable : bool }.

Definition index_default : Pipeline :=
  mk_pipeline true true (Some {| escape := Window 8; full_above := None |}) true true true.
Definition pipeline_none : Pipeline := mk_pipeline false false None false false false.
Definition ssa_only : Pipeline := mk_pipeline false false None true false true.

Definition set_prune (p : Pipeline) (b : bool) : Pipeline :=
  mk_pipeline (p_dead_temps p) (p_coalesce p) (p_mem2reg p) (p_ssa p) (p_copy_prop p) b.
Definition set_mem2reg (p : Pipeline) (m : option Mem2Reg) : Pipeline :=
  mk_pipeline (p_dead_temps p) (p_coalesce p) m (p_ssa p) (p_copy_prop p) (p_prune_unreachable p).

Definition tag_parts (p : Pipeline) : list string :=
  (if p_dead_temps p then ["dt"] else []) ++ (if p_coalesce p then ["co"] else []) ++
  match p_mem2reg p with Some policy => ["m2r(" +:+ Mem2Reg_tag policy +:+ ")"] | None => [] end ++
  (if p_ssa p then [if p_prune_unreachable p then "ssa(prune)" else "ssa"] else []) ++
  (if p_copy_prop p then ["cp"] else []).

Definition pipeline_tag (p : Pipeline) : string :=
  match tag_parts p with [] => "none" | parts => join_str "+" parts end.

(** ** Running it *)

Record PipelineStats : Type := mk_pstats {
  ps_dead_temps : nat; ps_coalesced : nat; ps_copy_prop : nat; ps_mem2reg : Mem2RegStats; ps_notes : list EscapeNote }.

Definition PipelineStats_default : PipelineStats := mk_pstats 0 0 0 Mem2RegStats_default [].

Definition pstats_add (a o : PipelineStats) : PipelineStats :=
  mk_pstats (ps_dead_temps a + ps_dead_temps o) (ps_coalesced a + ps_coalesced o) (ps_copy_prop a + ps_copy_prop o)
    (stats_add (ps_mem2reg a) (ps_mem2reg o)) (ps_notes a ++ ps_notes o).

Record Mem2RegReport : Type := { report_stats : Mem2RegStats; report_notes : list EscapeNote }.

(** ** Passes over a whole program *)

Definition EscapeKind_display (k : EscapeKind) : string :=
  match k with
  | CallInput => "call input" | EscCopied => "copied" | FieldAccess => "field access" | Returned => "returned" | Stored => "stored"
  end.

(** A [BTreeMap]'s keys come in the derived order of the variants. *)
Definition kind_names (n : EscapeNote) : string :=
  join_str ", " (map EscapeKind_display (filter (fun k => is_Some (note_kinds n !! k)) [CallInput; EscCopied; FieldAccess; Returned; Stored])).

Definition note_message (n : EscapeNote) : string :=
  "mem2reg full: " +:+ note_function n +:+ ": frame address escapes (" +:+ kind_names n +:+ "); flows through those slots may be missed".

Definition note_list (note : option EscapeNote) : list EscapeNote := match note with Some n => [n] | None => [] end.

Definition promote_stack_slots_with (program : Program) (config : Mem2Reg) (modes : gmap string FullMode) : Program * Mem2RegReport :=
  let '(fs, report) := foldl (fun '(fs, report) f =>
      let '(f, stats, note) := promote_function f config (modes !! name f) in
      (fs ++ [f], {| report_stats := stats_add (report_stats report) stats; report_notes := report_notes report ++ note_list note |}))
    ([], {| report_stats := Mem2RegStats_default; report_notes := [] |}) (functions program) in
  ({| functions := fs; globals := globals program |}, report).

Definition promote_stack_slots (program : Program) (config : Mem2Reg) : Program * Mem2RegStats :=
  let '(program, report) := promote_stack_slots_with program config ∅ in (program, report_stats report).

Definition promote_stack_slots_function (f : FunctionData) (config : Mem2Reg) : FunctionData * Mem2RegStats :=
  let '(f, stats, _) := promote_function f config None in (f, stats).

Definition transform_program (hash_iter : gset nat -> list nat) (fuel : nat) (program : Program) (prune : bool) : outcome Program :=
  fs ← mapM_out (transform_with hash_iter fuel prune Pruned) (functions program);
  Ret {| functions := fs; globals := globals program |}.

(** ** The pipeline *)

Section run.
Context (temps_iter : gmap Var (list site) -> list (Var * list site)) (hash_iter : gset nat -> list nat) (fuel : nat).

Definition run_function_pipeline (p : Pipeline) (modes : gmap string FullMode) (f : FunctionData) : outcome (FunctionData * PipelineStats) :=
  '(f, dead_temps) ← (if p_dead_temps p then eliminate_dead_temps_function temps_iter f else Ret (f, 0));
  '(f, coalesced) ← (if p_coalesce p then coalesce_function f else Ret (f, 0));
  let '(f, m2r, notes) :=
    match p_mem2reg p with
    | Some config => let '(f, m2r, note) := promote_function f config (modes !! name f) in
        (f, m2r, note_list note)
    | None => (f, Mem2RegStats_default, [])
    end in
  f ← (if p_ssa p then transform_with hash_iter fuel (p_prune_unreachable p) Pruned f else Ret f);
  '(f, copy_prop) ← (if p_copy_prop p then propagate_copies_function f else Ret (f, 0));
  Ret (f, mk_pstats dead_temps coalesced copy_prop m2r notes).

(** The number of statements of a function, by which the pool's work is ordered. *)
Definition function_size (f : FunctionData) : nat := sum_list_with (fun b => length (statements b)) (blocks f).

(** [work.sort_by_cached_key(|f| Reverse(size))], on indices: stable, the largest first. *)
Definition work_order (fs : list FunctionData) : list nat :=
  let size i := match fs !! i with Some f => function_size f | None => 0 end in
  sort_by (fun i j => bool_decide (size j < size i)) (seq 0 (length fs)).

(** [stats.notes.sort_by(|a, b| a.function.cmp(&b.function))]. *)
Fixpoint insert_note (n : EscapeNote) (l : list EscapeNote) : list EscapeNote :=
  match l with
  | [] => [n]
  | m :: l' => if decide (String.le (note_function n) (note_function m)) then n :: l else m :: insert_note n l'
  end.
Definition sort_notes (l : list EscapeNote) : list EscapeNote := foldr insert_note [] l.

Context (reduce : list PipelineStats -> PipelineStats).

Definition run_functions (p : Pipeline) (threads : nat) (modes : gmap string FullMode) (fs : list FunctionData)
  : outcome (list FunctionData * PipelineStats) :=
  if decide (threads <= 1) then
    rs ← mapM_out (run_function_pipeline p modes) fs;
    Ret (map fst rs, foldl pstats_add PipelineStats_default (map snd rs))
  else
    let work := work_order fs in
    rs ← mapM_out (fun i => f ← iv_index fs i; run_function_pipeline p modes f) work;
    fs ← foldM (fun fs '(i, r) => iv_set fs i (fst r)) fs (zip work rs);
    Ret (fs, reduce (map snd rs)).

Definition run_pipeline_with (program : Program) (p : Pipeline) (threads : nat) (modes : gmap string FullMode)
  : outcome (Program * option Mem2RegReport) :=
  '(fs, stats) ← run_functions p threads modes (functions program);
  Ret ({| functions := fs; globals := globals program |},
       match p_mem2reg p with
       | Some _ => Some {| report_stats := ps_mem2reg stats; report_notes := sort_notes (ps_notes stats) |}
       | None => None
       end).

Definition run_pipeline (program : Program) (p : Pipeline) : outcome Program :=
  '(program, _) ← run_pipeline_with program p 1 ∅; Ret program.
End run.

(** ** One thread or many *)

(** What rayon promises of [reduce(identity, op)]: the items are combined in their order, in some
    grouping, with the identity anywhere. *)
Inductive reduces {A} (op : A -> A -> A) (e : A) : list A -> A -> Prop :=
| red_id : reduces op e [] e
| red_one x : reduces op e [x] x
| red_op l1 l2 r1 r2 : reduces op e l1 r1 -> reduces op e l2 r2 -> reduces op e (l1 ++ l2) (op r1 r2).

Lemma reduces_foldl {A} (op : A -> A -> A) e l r : (forall a b c, op a (op b c) = op (op a b) c) -> (forall a, op e a = a) ->
  (forall a, op a e = a) -> reduces op e l r -> r = foldl op e l.
Proof.
  intros Ha Hl Hr. assert (forall l a, foldl op a l = op a (foldl op e l)) as Hf.
  { intros k. induction k as [|x k IH]; intros a; simpl; [by rewrite Hr|]. by rewrite IH, (IH (op e x)), Hl, Ha. }
  induction 1 as [|x|l1 l2 r1 r2 _ -> _ ->]; simpl; [done|by rewrite Hl|]. by rewrite foldl_app, (Hf l2 (foldl op e l1)).
Qed.

Lemma stats_add_assoc a b c : stats_add a (stats_add b c) = stats_add (stats_add a b) c.
Proof. unfold stats_add. simpl. f_equal; lia. Qed.
Lemma stats_add_comm a b : stats_add a b = stats_add b a.
Proof. unfold stats_add. f_equal; lia. Qed.
Lemma stats_add_0 a : stats_add Mem2RegStats_default a = a.
Proof. by destruct a. Qed.

Lemma pstats_add_assoc a b c : pstats_add a (pstats_add b c) = pstats_add (pstats_add a b) c.
Proof. unfold pstats_add. simpl. by rewrite stats_add_assoc, app_assoc, !Nat.add_assoc. Qed.
Lemma pstats_add_0_l a : pstats_add PipelineStats_default a = a.
Proof. destruct a. unfold pstats_add. simpl. by rewrite stats_add_0. Qed.
Lemma pstats_add_0_r a : pstats_add a PipelineStats_default = a.
Proof. destruct a. unfold pstats_add. simpl. by rewrite stats_add_comm, stats_add_0, app_nil_r, !Nat.add_0_r. Qed.

(** The totals do not depend on the order, and the notes are the notes in the order taken. *)
Lemma pstats_foldl l : forall a, ps_mem2reg (foldl pstats_add a l) = stats_add (ps_mem2reg a) (foldr stats_add Mem2RegStats_default (map ps_mem2reg l)) /\
  ps_notes (foldl pstats_add a l) = ps_notes a ++ (l ≫= ps_notes).
Proof.
  induction l as [|x l IH]; intros a; csimpl; [by rewrite stats_add_comm, stats_add_0, app_nil_r|].
  destruct (IH (pstats_add a x)) as [-> ->]. simpl. by rewrite stats_add_assoc, app_assoc.
Qed.

Lemma stats_sum_perm l l' : l ≡ₚ l' -> foldr stats_add Mem2RegStats_default l = foldr stats_add Mem2RegStats_default l'.
Proof.
  induction 1 as [|x l l' _ IH|x y l|l1 l2 l3 _ IH1 _ IH2]; simpl; [done|by rewrite IH| |congruence].
  by rewrite !stats_add_assoc, (stats_add_comm x y).
Qed.

Definition note_le (a b : EscapeNote) : Prop := String.le (note_function a) (note_function b).

Lemma insert_note_perm n l : insert_note n l ≡ₚ n :: l.
Proof. induction l as [|m l IH]; simpl; [done|]. case_decide; [done|]. rewrite IH. constructor. Qed.

Lemma sort_notes_perm l : sort_notes l ≡ₚ l.
Proof. induction l as [|n l IH]; simpl; [done|]. by rewrite insert_note_perm, IH. Qed.

Lemma sort_notes_sorted l : StronglySorted note_le (sort_notes l).
Proof.
  induction l as [|n l IH]; simpl; [constructor|]. induction IH as [|m k Hk IHk Hm]; simpl; [repeat constructor|].
  case_decide as Hle; unfold note_le in *.
  - constructor; [by constructor|]. constructor; [done|]. eapply Forall_impl; [exact Hm|]. intros x Hx. by etrans.
  - assert (String.le (note_function m) (note_function n)) as Hmn by (destruct (total String.le (note_function m) (note_function n)); done).
    constructor; [done|]. apply Forall_forall. intros x Hx. rewrite insert_note_perm in Hx. apply elem_of_cons in Hx as [->|Hx]; [done|].
    rewrite Forall_forall in Hm. auto.
Qed.

(** Sorting forgets the order, when no two notes are of the same function. *)
Lemma sort_notes_unique l l' : l ≡ₚ l' -> NoDup (map note_function l) -> sort_notes l = sort_notes l'.
Proof.
  intros Hp Hnd. apply (StronglySorted_unique_strong note_le); [|apply sort_notes_sorted..|by rewrite !sort_notes_perm].
  intros x y Hx Hy H1 H2. rewrite sort_notes_perm in Hx, Hy. rewrite <- Hp in Hy. unfold note_le in *.
  assert (note_function x = note_function y) as E by (by apply (anti_symm String.le)).
  apply list_elem_of_lookup in Hx as [i Hi], Hy as [j Hj].
  assert (i = j) as <-; [|congruence]. eapply (NoDup_lookup _ _ _ (note_function x) Hnd); rewrite lookup_map, ?Hi, ?Hj; simpl; congruence.
Qed.

(** ** Notes are named after their functions *)

Lemma escape_note_name nm policy esc stored es n : escape_note nm policy esc stored es = Some n -> note_function n = nm.
Proof.
  unfold escape_note. generalize (filter (lost policy esc stored) es) as l. clear es.
  intros l. revert n. induction l as [|e l IH] using rev_ind; intros n; [done|]. rewrite foldl_app. simpl.
  intros [= <-]. destruct e as [[[j how] bb] i]. simpl. destruct (foldl _ None l) as [m|] eqn:E; [by apply IH|done].
Qed.

Lemma promote_function_note f config mode f' stats n : promote_function f config mode = (f', stats, Some n) -> note_function n = name f.
Proof.
  unfold promote_function. destruct (find_name _ _) as [st|]; [|done]. destruct (m2r_scan _ _) as [sc|]; [|done].
  case_decide; [done|]. destruct (foldl _ _ _) as [[c k] bs]. intros [= _ _ E]. by eapply escape_note_name.
Qed.

Lemma dead_temps_name it f f' n : eliminate_dead_temps_function it f = Ret (f', n) -> name f' = name f.
Proof.
  unfold eliminate_dead_temps_function. case_decide; [by intros [= <- _]|]. destruct (scan _) as [uses m]. destruct (seed _ _) as [dead W].
  destruct (propagate _ _ _ _ _ _) as [d| |]; [|done..]. simpl. case_decide; by intros [= <- _].
Qed.

Lemma coalesce_name f f' n : coalesce_function f = Ret (f', n) -> name f' = name f.
Proof.
  unfold coalesce_function. case_decide; [by intros [= <- _]|]. destruct (foldM _ _ _) as [[bs r]| |]; [|done..]. by intros [= <- _].
Qed.

Section agree.
Context (temps_iter : gmap Var (list site) -> list (Var * list site)) (hash_iter : gset nat -> list nat) (fuel : nat).
Context (p : Pipeline) (modes : gmap string FullMode).
Notation run := (run_function_pipeline temps_iter hash_iter fuel p modes).

Lemma run_notes f f' st : run f = Ret (f', st) -> ps_notes st = [] \/ exists n, ps_notes st = [n] /\ note_function n = name f.
Proof.
  unfold run_function_pipeline.
  destruct (if p_dead_temps p then _ else _) as [[f1 n1]| |] eqn:E1; [|done..]. cbn [mbind outcome_bind].
  assert (name f1 = name f) as N1 by (destruct (p_dead_temps p); [by eapply dead_temps_name|by injection E1 as <-]).
  destruct (if p_coalesce p then _ else _) as [[f2 n2]| |] eqn:E2; [|done..]. cbn [mbind outcome_bind].
  assert (name f2 = name f1) as N2 by (destruct (p_coalesce p); [by eapply coalesce_name|by injection E2 as <-]).
  set (m := match p_mem2reg p with Some _ => _ | None => _ end).
  assert (m.2 = [] \/ exists n, m.2 = [n] /\ note_function n = name f) as Hm.
  { unfold m. destruct (p_mem2reg p) as [c|]; [|by left]. destruct (promote_function f2 c _) as [[f3 s3] [n|]] eqn:E3; [right|by left].
    exists n. split; [done|]. apply promote_function_note in E3. congruence. }
  destruct m as [[f3 s3] ns]. simpl in Hm. destruct (if p_ssa p then _ else _) as [f4| |]; [|done..]. cbn [mbind outcome_bind].
  destruct (if p_copy_prop p then _ else _) as [[f5 n5]| |]; [|done..]. by intros [= _ <-].
Qed.

Lemma notes_names fs rs : Forall2 (fun f r => run f = Ret r) fs rs ->
  map note_function (map snd rs ≫= ps_notes) `sublist_of` map name fs.
Proof.
  induction 1 as [|f [f' st] fs rs Hr _ IH]; csimpl; [done|]. destruct (run_notes f f' st Hr) as [->|(n & -> & Hn)]; csimpl.
  - by constructor.
  - rewrite Hn. by constructor.
Qed.

Lemma omap_lookup_seq {A} (l : list A) : omap (fun i => l !! i) (seq 0 (length l)) = l :> list A.
Proof.
  assert (forall k pre : list A, omap (fun i => (pre ++ k) !! i) (seq (length pre) (length k)) = k) as Hk; [|exact (Hk l [])].
  induction k as [|x k IH]; intros pre; csimpl; [done|]. rewrite list_lookup_middle by done. f_equal.
  specialize (IH (pre ++ [x])). rewrite <- app_assoc, length_app in IH. simpl in IH. by rewrite Nat.add_comm in IH.
Qed.

(** Running the functions in the pool's order, and writing them back. *)
Lemma pool_results fs rs : Forall2 (fun f r => run f = Ret r) fs rs ->
  exists ws, mapM_out (fun i => f ← iv_index fs i; run f) (work_order fs) = Ret ws /\ ws ≡ₚ rs /\
    foldM (fun fs '(i, r) => iv_set fs i (fst r)) fs (zip (work_order fs) ws) = Ret (map fst rs).
Proof.
  intros Hrs. pose proof (Forall2_length _ _ _ Hrs) as Hlen.
  assert (work_order fs ≡ₚ seq 0 (length fs)) as Hperm by apply sort_by_perm.
  assert (forall i, i ∈ work_order fs <-> i < length fs) as Hin by (intros i; rewrite Hperm, elem_of_seq; lia).
  destruct (mapM_out_total (fun i => f ← iv_index fs i; run f) (work_order fs)) as [ws E].
  { intros i [f Hf]%Hin%lookup_lt_is_Some_2. destruct (Forall2_lookup_l _ _ _ _ _ Hrs Hf) as (r & _ & Hr).
    unfold iv_index. rewrite Hf. simpl. eauto. }
  assert (Forall2 (fun i w => rs !! i = Some w) (work_order fs) ws) as Hws.
  { apply mapM_out_Ret in E. eapply Forall2_impl; [exact E|]. intros i w. simpl. unfold iv_index.
    destruct (fs !! i) as [f|] eqn:Hf; [|done]. simpl. intros Hw. destruct (Forall2_lookup_l _ _ _ _ _ Hrs Hf) as (r & Hi & Hr). congruence. }
  exists ws. split; [done|]. split.
  - assert (ws = omap (fun i => rs !! i) (work_order fs)) as ->.
    { clear -Hws. induction Hws as [|i w l ws Hi _ IH]; csimpl; [done|]. by rewrite Hi, IH. }
    rewrite Hperm, Hlen. assert (omap (fun i => rs !! i) (seq 0 (length rs)) = rs) as ->; [|done].
    apply omap_lookup_seq.
  - destruct (foldM_split (fun (fs : list FunctionData) '(i, r) => iv_set fs i (fst r))
      (fun pre gs => length gs = length fs /\ forall i, gs !! i = if decide (i ∈ pre.*1) then fst <$> rs !! i else fs !! i)
      (zip (work_order fs) ws) fs) as (gs & -> & Hg & Hgs).
    + split; [done|]. intros i. by rewrite decide_False by set_solver.
    + intros pre [i w] post gs Ez [Hl Hi]. assert (rs !! i = Some w) as Hw.
      { assert ((i, w) ∈ zip (work_order fs) ws) as Hz by (rewrite Ez; set_solver).
        clear -Hz Hws. induction Hws; simpl in Hz; [by apply elem_of_nil in Hz|]. apply elem_of_cons in Hz as [[= -> ->]|]; auto. }
      assert (i < length gs) as Hlt by (rewrite Hl, Hlen; by eapply lookup_lt_Some).
      exists (<[i := w.1]> gs). split; [unfold iv_set; by rewrite decide_True|]. split; [by rewrite length_insert|].
      intros k. rewrite fmap_app. simpl. destruct (decide (k = i)) as [->|Hne].
      * rewrite list_lookup_insert_eq by done. rewrite decide_True by set_solver. by rewrite Hw.
      * rewrite list_lookup_insert_ne by done. rewrite Hi.
        destruct (decide (k ∈ pre.*1)); [rewrite decide_True by set_solver|rewrite decide_False by set_solver]; done.
    + f_equal. apply list_eq. intros i. rewrite Hgs, lookup_map, fst_zip by (by apply Forall2_length in Hws; rewrite Hws).
      destruct (decide (i ∈ work_order fs)) as [|Hn]; [done|]. rewrite !lookup_ge_None_2; [done|..]; rewrite <- ?Hlen; rewrite Hin in Hn; lia.
Qed.

(** C27: The number of threads does not matter.  On a program whose functions have distinct
    names, if the pipeline returns on one thread, it returns on a pool with any number of
    threads, whatever the grouping of the reduction, with the same functions in the same places
    and the same report: the same totals, and the same notes in the same order. *)
Theorem pipeline_threads_agree (reduce reduce' : list PipelineStats -> PipelineStats) (program : Program) (threads : nat) r :
  (forall l, reduces pstats_add PipelineStats_default l (reduce l)) -> NoDup (map name (functions program)) ->
  run_pipeline_with temps_iter hash_iter fuel reduce' program p 1 modes = Ret r ->
  run_pipeline_with temps_iter hash_iter fuel reduce program p threads modes = Ret r.
Proof.
  intros Hred Hnd. unfold run_pipeline_with, run_functions at 1. rewrite decide_True by lia.
  destruct (mapM_out run (functions program)) as [rs| |] eqn:E; [|done..]. cbn [mbind outcome_bind]. intros <-.
  unfold run_functions. destruct (decide (threads <= 1)) as [|Ht]; [by rewrite E|].
  apply mapM_out_Ret in E. destruct (pool_results _ _ E) as (ws & -> & Hperm & Eb). cbn [mbind outcome_bind]. rewrite Eb. cbn [mbind outcome_bind].
  rewrite (reduces_foldl pstats_add PipelineStats_default (map snd ws) (reduce (map snd ws))) by
    auto using pstats_add_assoc, pstats_add_0_l, pstats_add_0_r.
  destruct (pstats_foldl (map snd ws) PipelineStats_default) as [-> ->], (pstats_foldl (map snd rs) PipelineStats_default) as [-> ->]. simpl.
  rewrite (stats_sum_perm (map ps_mem2reg (map snd ws)) (map ps_mem2reg (map snd rs))) by (by rewrite Hperm).
  rewrite (sort_notes_unique (map snd ws ≫= ps_notes) (map snd rs ≫= ps_notes)); [done|by rewrite Hperm|].
  assert (map note_function (map snd ws ≫= ps_notes) ≡ₚ map note_function (map snd rs ≫= ps_notes)) as -> by (by rewrite Hperm).
  eapply sublist_NoDup; [exact Hnd|by apply notes_names].
Qed.
End agree.

(** A function with an escaping stack slot, and a larger one with a join, on four threads. *)
Definition pipeline_example : Program :=
  {| functions := [stack_example; {| name := "g"; params := [Copied]; arity := 1; blocks := phi_example; locals := {| decls := ["x"]; by_name := ∅ |} |}];
     globals := Globals_default |}.

Definition pipeline_example_ok (out : outcome (Program * option Mem2RegReport)) : bool :=
  match out with
  | Ret (program, Some _) => bool_decide (map (fun f => length (blocks f)) (functions program) = [2; 5])
  | _ => false
  end.

Lemma pipeline_threads_agree_witness : exists r,
  run_pipeline_with map_to_list elements 80 (foldr pstats_add PipelineStats_default) pipeline_example index_default 4 ∅ = Ret r /\
  pipeline_example_ok (Ret r) = true.
Proof.
  destruct (run_pipeline_with map_to_list elements 80 (fun _ => PipelineStats_default) pipeline_example index_default 1 ∅) as [r| |] eqn:E.
  - exists r. split.
    + apply (pipeline_threads_agree map_to_list elements 80 index_default ∅ (foldr pstats_add PipelineStats_default)
        (fun _ => PipelineStats_default)); [|by_decide|exact E].
      intros l. induction l as [|x l IH]; simpl; [constructor|]. apply (red_op _ _ [x]); [constructor|exact IH].
    + rewrite <- E. vm_compute. reflexivity.
  - exfalso. vm_compute in E. discriminate E.
  - exfalso. vm_compute in E. discriminate E.
Defined.

(** ** One function at a time, or one pass at a time *)

(** Each pass over the whole program in turn. *)
Section passes.
Context (temps_iter : gmap Var (list site) -> list (Var * list site)) (hash_iter : gset nat -> list nat) (fuel : nat).
Context (reduce : list PipelineStats -> PipelineStats) (p : Pipeline) (modes : gmap string FullMode).

Definition run_passes (program : Program) : outcome Program :=
  program ← (if p_dead_temps p then '(q, _) ← eliminate_dead_temps temps_iter program; Ret q else Ret program);
  program ← (if p_coalesce p then coalesce_copies program else Ret program);
  program ← match p_mem2reg p with Some config => Ret (promote_stack_slots_with program config modes).1 | None => Ret program end;
  program ← (if p_ssa p then transform_program hash_iter fuel program (p_prune_unreachable p) else Ret program);
  if p_copy_prop p then '(q, _) ← propagate_copies program; Ret q else Ret program.

(** The pass [G] runs [g] on each function and does nothing else. *)
Definition pointwise (G : Program -> outcome Program) (g : FunctionData -> outcome FunctionData) : Prop :=
  forall q q', G q = Ret q' <-> globals q' = globals q /\ Forall2 (fun f f' => g f = Ret f') (functions q) (functions q').

Lemma pointwise_ret : pointwise Ret Ret.
Proof.
  intros [fs gl] [fs' gl']. simpl. split.
  - intros [= <- <-]. split; [done|]. induction fs; constructor; auto.
  - intros [-> H]. f_equal. f_equal. induction H as [|f f' fs fs' [= <-] _ IH]; congruence.
Qed.

Lemma pointwise_mapM g : pointwise (fun q => fs ← mapM_out g (functions q); Ret {| functions := fs; globals := globals q |}) g.
Proof.
  intros [fs gl] [fs' gl']. simpl. rewrite <- mapM_out_Ret. destruct (mapM_out g fs); simpl; naive_solver.
Qed.

Lemma pointwise_fold (g : FunctionData -> outcome (FunctionData * nat)) :
  pointwise (fun q => '(q, _) ← ('(fs, n) ← foldM (fun '(fs, k) f => '(f, n) ← g f; Ret (fs ++ [f], k + n)) ([], 0) (functions q);
      Ret ({| functions := fs; globals := globals q |}, n)); Ret q) (fun f => '(f, _) ← g f; Ret f).
Proof.
  intros [fs gl] [fs' gl']. simpl. rewrite <- mapM_out_Ret, fold_mapM, mapM_out_fst.
  destruct (mapM_out g fs); simpl; naive_solver.
Qed.

Lemma pointwise_bind G G' g g' : pointwise G g -> pointwise G' g' -> pointwise (fun q => q ← G q; G' q) (fun f => f ← g f; g' f).
Proof.
  intros HG HG' q q'. split.
  - destruct (G q) as [q1| |] eqn:E; simpl; [|done..]. apply HG in E as [E1 H1]. intros [E2 H2]%HG'. split; [congruence|].
    apply Forall2_lookup. intros i. pose proof (proj1 (Forall2_lookup _ _ _) H1 i) as L1. pose proof (proj1 (Forall2_lookup _ _ _) H2 i) as L2.
    destruct L1 as [x y Hx|]; inversion L2 as [? z Hz|]; subst; constructor. rewrite Hx. by simpl.
  - intros [Eg H]. assert (exists fs1, Forall2 (fun f f1 => g f = Ret f1) (functions q) fs1 /\ Forall2 (fun f1 f' => g' f1 = Ret f') fs1 (functions q')) as (fs1 & H1 & H2).
    { induction H as [|f f' fs fs' Hf _ (fs1 & ? & ?)]; [exists []; eauto|].
      destruct (g f) as [f1| |] eqn:E1; simpl in Hf; [|done..]. exists (f1 :: fs1). eauto. }
    assert (G q = Ret {| functions := fs1; globals := globals q |}) as -> by (by apply HG). simpl. by apply HG'.
Qed.

Lemma pointwise_ext G g g' : (forall f, g' f = g f) -> pointwise G g -> pointwise G g'.
Proof.
  intros He HG q q'. rewrite (HG q q'). split; (intros [? H]; split; [done|]; eapply Forall2_impl; [exact H|]); intros; simpl in *; congruence.
Qed.

Lemma pointwise_if (b : bool) G G' g g' : pointwise G g -> pointwise G' g' ->
  pointwise (fun q => if b then G q else G' q) (fun f => if b then g f else g' f).
Proof. by destruct b. Qed.

Lemma pointwise_promote config :
  pointwise (fun q => Ret (promote_stack_slots_with q config modes).1) (fun f => Ret (promote_function f config (modes !! name f)).1.1).
Proof.
  intros q q'. assert (forall fs pre r, (foldl (fun '(fs, report) f =>
      let '(f, stats, note) := promote_function f config (modes !! name f) in
      (fs ++ [f], {| report_stats := stats_add (report_stats report) stats; report_notes := report_notes report ++ note_list note |}))
    (pre, r) fs).1 = pre ++ map (fun f => (promote_function f config (modes !! name f)).1.1) fs) as Hf.
  { induction fs as [|f fs IH]; intros pre r; simpl; [by rewrite app_nil_r|].
    destruct (promote_function f config _) as [[f' st] n]. by rewrite IH, <- app_assoc. }
  unfold promote_stack_slots_with. specialize (Hf (functions q) [] {| report_stats := Mem2RegStats_default; report_notes := [] |}).
  destruct (foldl _ _ _) as [fs r]. simpl in *. subst fs. rewrite <- mapM_out_Ret.
  assert (forall fs, mapM_out (fun f => Ret (promote_function f config (modes !! name f)).1.1) fs =
    Ret (map (fun f => (promote_function f config (modes !! name f)).1.1) fs)) as -> by (induction fs as [|f fs IH]; simpl; [done|by rewrite IH]).
  destruct q'. simpl. split; [by intros [= <- <-]|]. intros [-> [= ->]]. done.
Qed.

Lemma run_function_passes f : ('(f, _) ← run_function_pipeline temps_iter hash_iter fuel p modes f; Ret f) =
  (f ← (if p_dead_temps p then '(f, _) ← eliminate_dead_temps_function temps_iter f; Ret f else Ret f);
   f ← (if p_coalesce p then '(f, _) ← coalesce_function f; Ret f else Ret f);
   f ← match p_mem2reg p with Some config => Ret (promote_function f config (modes !! name f)).1.1 | None => Ret f end;
   f ← (if p_ssa p then transform_with hash_iter fuel (p_prune_unreachable p) Pruned f else Ret f);
   if p_copy_prop p then '(f, _) ← propagate_copies_function f; Ret f else Ret f).
Proof.
  unfold run_function_pipeline.
  destruct (p_dead_temps p); [destruct (eliminate_dead_temps_function _ _) as [[f1 n1]| |]; [|done..]|]; cbn [mbind outcome_bind].
  all: destruct (p_coalesce p); [destruct (coalesce_function _) as [[f2 n2]| |]; [|done..]|]; cbn [mbind outcome_bind].
  all: destruct (p_mem2reg p) as [c|]; [destruct (promote_function _ _ _) as [[f3 s3] n3]|]; cbn [mbind outcome_bind fst].
  all: destruct (if p_ssa p then _ else _) as [f4| |]; [|done..]; cbn [mbind outcome_bind].
  all: destruct (p_copy_prop p); [destruct (propagate_copies_function _) as [[f5 n5]| |]|]; done.
Qed.

(** Running all the passes on one function before the next, as the pipeline does, gives the
    same program as running each pass over the whole program in turn: one returns exactly when
    the other does, with the same functions and globals. *)
Theorem pipeline_pass_order (program program' : Program) :
  run_passes program = Ret program' <->
  exists report, run_pipeline_with temps_iter hash_iter fuel reduce program p 1 modes = Ret (program', report).
Proof.
  trans (globals program' = globals program /\
    Forall2 (fun f f' => ('(f, _) ← run_function_pipeline temps_iter hash_iter fuel p modes f; Ret f) = Ret f') (functions program) (functions program')).
  - revert program program'. apply (pointwise_ext _ _ _ run_function_passes). unfold run_passes. repeat apply pointwise_bind.
    all: try apply pointwise_if; try apply pointwise_ret.
    + apply (pointwise_fold (eliminate_dead_temps_function temps_iter)).
    + apply pointwise_mapM.
    + destruct (p_mem2reg p); [apply pointwise_promote|apply pointwise_ret].
    + apply pointwise_mapM.
    + apply (pointwise_fold propagate_copies_function).
  - rewrite <- mapM_out_Ret, mapM_out_fst. unfold run_pipeline_with, run_functions. rewrite decide_True by lia.
    destruct (mapM_out _ _) as [rs| |]; simpl; [|naive_solver..]. destruct program'. simpl. split.
    + intros [-> [= <-]]. eauto.
    + intros [? [= <- <- _]]. done.
Qed.
End passes.

(** [prune_unreachable] alone leaves no trace in the tag: unequal pipelines with the same tag. *)
Lemma pipeline_tag_prune (p : Pipeline) : p_ssa p = false -> pipeline_tag (set_prune p true) = pipeline_tag (set_prune p false).
Proof. intros H. unfold pipeline_tag, tag_parts. simpl. by rewrite H. Qed.

(** ** The result verifies *)

Section verifies.
Context (temps_iter : gmap Var (list site) -> list (Var * list site)) (hash_iter : gset nat -> list nat).
Context (p : Pipeline) (modes : gmap string FullMode).
Hypothesis Htemps : enumerates temps_iter.
Hypothesis Hhash : forall s x, x ∈ hash_iter s -> x ∈ s.
Hypothesis Hprune : p_ssa p = true -> p_prune_unreachable p = true.

(** What the pipeline leaves of [f]. *)
Definition well_run (G : option nat) (f : FunctionData) (r : outcome (FunctionData * PipelineStats)) : Prop :=
  exists f' st, r = Ret (f', st) /\ function_wf f' G /\ name f' = name f /\ (p_ssa p = true -> NoDup (blocks f' ≫= block_dst_vars)).

(** The passes before SSA construction, which need no fuel. *)
Definition early_passes (f : FunctionData) : outcome (FunctionData * nat * nat * Mem2RegStats * list EscapeNote) :=
  '(f, dead_temps) ← (if p_dead_temps p then eliminate_dead_temps_function temps_iter f else Ret (f, 0));
  '(f, coalesced) ← (if p_coalesce p then coalesce_function f else Ret (f, 0));
  match p_mem2reg p with
  | Some config => let '(f, m2r, note) := promote_function f config (modes !! name f) in Ret (f, dead_temps, coalesced, m2r, note_list note)
  | None => Ret (f, dead_temps, coalesced, Mem2RegStats_default, [])
  end.

Lemma run_early fuel f : run_function_pipeline temps_iter hash_iter fuel p modes f =
  '(f, dead_temps, coalesced, m2r, notes) ← early_passes f;
  f ← (if p_ssa p then transform_with hash_iter fuel (p_prune_unreachable p) Pruned f else Ret f);
  '(f, copy_prop) ← (if p_copy_prop p then propagate_copies_function f else Ret (f, 0));
  Ret (f, mk_pstats dead_temps coalesced copy_prop m2r notes).
Proof.
  unfold run_function_pipeline, early_passes. destruct (if p_dead_temps p then _ else _) as [[f1 n1]| |]; [|done..]. cbn [mbind outcome_bind].
  destruct (if p_coalesce p then _ else _) as [[f2 n2]| |]; [|done..]. cbn [mbind outcome_bind].
  destruct (p_mem2reg p) as [c|]; [|done]. by destruct (promote_function f2 c _) as [[f3 s3] n3].
Qed.

Lemma early_pre_ssa G f : pre_ssa G f -> exists f' a b c d, early_passes f = Ret (f', a, b, c, d) /\ pre_ssa G f' /\ name f' = name f.
Proof.
  intros Hpre. unfold early_passes.
  assert (exists f1 n1, (if p_dead_temps p then eliminate_dead_temps_function temps_iter f else Ret (f, 0)) = Ret (f1, n1) /\
    pre_ssa G f1 /\ name f1 = name f) as (f1 & n1 & -> & H1 & N1) by (destruct (p_dead_temps p); [by apply dead_temps_pre_ssa|eauto]).
  cbn [mbind outcome_bind].
  assert (exists f2 n2, (if p_coalesce p then coalesce_function f1 else Ret (f1, 0)) = Ret (f2, n2) /\ pre_ssa G f2 /\ name f2 = name f1)
    as (f2 & n2 & -> & H2 & N2) by (destruct (p_coalesce p); [by apply coalesce_pre_ssa|eauto]).
  cbn [mbind outcome_bind]. destruct (p_mem2reg p) as [c|]; [|eexists f2, _, _, _, _; split_and!; [done|done|congruence]].
  destruct (mem2reg_pre_ssa G f2 c (modes !! name f2) H2) as (f3 & s3 & note & -> & H3 & N3). eexists f3, _, _, _, _. split_and!; [done|done|congruence].
Qed.

(** A function without blocks passes through. *)
Lemma early_empty f : blocks f = [] -> exists a b c d, early_passes f = Ret (f, a, b, c, d).
Proof.
  intros Hb. unfold early_passes.
  assert (exists n, (if p_dead_temps p then eliminate_dead_temps_function temps_iter f else Ret (f, 0)) = Ret (f, n)) as [n1 ->].
  { destruct (p_dead_temps p); [|eauto]. unfold eliminate_dead_temps_function. rewrite decide_True by done. eauto. }
  cbn [mbind outcome_bind].
  assert (exists n, (if p_coalesce p then coalesce_function f else Ret (f, 0)) = Ret (f, n)) as [n2 ->].
  { destruct (p_coalesce p); [|eauto]. unfold coalesce_function. rewrite decide_True by done. eauto. }
  cbn [mbind outcome_bind]. destruct (p_mem2reg p) as [c|]; [|eauto]. unfold promote_function. destruct (find_name _ _) as [st|]; [|eauto].
  rewrite Hb. simpl. unfold choose_slots. replace (slot_iter (direct_slots [])) with (@nil Z) by (by vm_compute). simpl.
  rewrite decide_True by done. eauto.
Qed.

Lemma function_eventually G f : function_wf f G -> plain_blocks (blocks f) -> Locals_wf (locals f) ->
  eventually (fun fuel => well_run G f (run_function_pipeline temps_iter hash_iter fuel p modes f)).
Proof.
  intros Hwf Hpl Hl. destruct (decide (blocks f = [])) as [Hb|Hb].
  { destruct (early_empty f Hb) as (a & b & c & d & E). exists 0. intros fuel _. rewrite run_early, E. cbn [mbind outcome_bind].
    assert ((if p_ssa p then transform_with hash_iter fuel (p_prune_unreachable p) Pruned f else Ret f) = Ret f) as ->.
    { destruct (p_ssa p); [|done]. unfold transform_with. by rewrite decide_True. }
    cbn [mbind outcome_bind]. assert ((if p_copy_prop p then propagate_copies_function f else Ret (f, 0)) = Ret (f, 0)) as ->.
    { destruct (p_copy_prop p); [|done]. unfold propagate_copies_function. by rewrite decide_True. }
    eexists f, _. split_and!; [done..|]. intros _. rewrite Hb. constructor. }
  assert (pre_ssa G f) as Hpre.
  { destruct Hwf as (? & ? & _). split_and!; [done..|]. by destruct (blocks f); [|simpl; lia]. }
  destruct (early_pre_ssa G f Hpre) as (f1 & a & b & c & d & E & Hpre1 & N1). destruct (p_ssa p) eqn:Es.
  - eapply eventually_impl; [exact (transform_eventually hash_iter Pruned f1 G Hpre1 Hhash)|].
    intros fuel (f2 & g & bs1 & b0 & rest & dt & T & Ps & tin & tout & Et & Htf). rewrite run_early, E, Es, (Hprune eq_refl). cbn [mbind outcome_bind].
    rewrite Et. cbn [mbind outcome_bind]. assert (name f2 = name f1) as N2 by (destruct Htf as [-> Hn _ _ _ _ _ _]; exact Hn).
    assert (exists f3 n3, (if p_copy_prop p then propagate_copies_function f2 else Ret (f2, 0)) = Ret (f3, n3) /\ function_wf f3 G /\
      name f3 = name f2 /\ NoDup (blocks f3 ≫= block_dst_vars)) as (f3 & n3 & -> & H3 & N3 & Hnd).
    { destruct (p_copy_prop p); [by eapply copy_prop_transformed|]. exists f2, 0. split_and!; [done| |done|].
      - by eapply transformed_wf.
      - by eapply transformed_single. }
    eexists f3, _. split_and!; [done|done|congruence|done].
  - exists 0. intros fuel _. rewrite run_early, E, Es. cbn [mbind outcome_bind].
    assert ((if p_copy_prop p then propagate_copies_function f1 else Ret (f1, 0)) = Ret (f1, 0)) as -> by (destruct (p_copy_prop p); [by eapply copy_prop_plain|done]).
    eexists f1, _. split_and!; [done| |done|congruence]. destruct Hpre1 as (? & ? & Hp1 & _). split_and!; [done..|].
    apply Forall_forall. intros b1 [y Hy]%list_elem_of_lookup. destruct (Hp1 y b1 Hy) as [Hs _]. eapply Forall_impl; [exact Hs|]. intros s. apply plain_store_wf.
Qed.

Lemma run_functions_returns fuel reduce threads fs rs : Forall2 (fun f r => run_function_pipeline temps_iter hash_iter fuel p modes f = Ret r) fs rs ->
  exists st, run_functions temps_iter hash_iter fuel reduce p threads modes fs = Ret (map fst rs, st).
Proof.
  intros H. unfold run_functions. destruct (decide (threads <= 1)).
  - apply mapM_out_Ret in H. rewrite H. simpl. eauto.
  - destruct (pool_results _ _ _ _ _ _ _ H) as (ws & -> & _ & Eb). cbn [mbind outcome_bind]. rewrite Eb. simpl. eauto.
Qed.
End verifies.


