(* ===== verification/SsaForm.v ===== *)
(** * SsaForm: evaluating programs that are not in SSA form ([ssa_form] of [ctadl-ir/src/semantics/mod.rs])

    The evaluator reads programs in SSA form; [ssa_form] makes them so, function by function, leaving alone those that
    have a versioned variable.  Here the verifier, SSA construction and the evaluator come together. *)

From S2P Require Import Prelude Index Text Path IR Semantics Unfolding Saturation Verify Graph Dominators Coalesce Cfg PhiPlace Rename SsaExec Ssa SsaVerify Mem2Reg PassWf Pipeline.

Definition ssa_function (hash_iter : gset nat -> list nat) (fuel : nat) (f : FunctionData) : outcome FunctionData :=
  if negb (bool_decide (blocks f = [])) && negb (is_ssa f) then transform_with hash_iter fuel true Pruned f else Ret f.

Definition ssa_form (hash_iter : gset nat -> list nat) (fuel : nat) (program : Program) : outcome Program :=
  fs ← mapM_out (ssa_function hash_iter fuel) (functions program);
  Ret {| functions := fs; globals := globals program |}.

(** ** What is not in SSA form *)

(** A front end makes functions with a sound table of locals, no phis, and no version in a return; those that have been
    through SSA construction are not asked for anything. *)
Definition ssa_ready (f : FunctionData) : Prop := is_ssa f = false ->
  Locals_wf (locals f) /\ forall b, b ∈ blocks f -> Forall (fun s => is_phi (kind s) = false) (statements b) /\
    forall t, terminator b = Some t -> Forall (fun u => version u = None) (term_iter_src_var t).

Lemma unversioned vs : existsb (fun v => bool_decide (is_Some (version v))) vs = false -> Forall (fun u => version u = None) vs.
Proof.
  induction vs as [|v vs IH]; cbn [existsb]; [done|]. intros [Hv Hvs]%orb_false_iff. constructor; [|auto]. apply bool_decide_eq_false in Hv. destruct (version v) eqn:E; [|done]. by destruct Hv.
Qed.

Lemma existsb_false {A} (g : A -> bool) l x : existsb g l = false -> x ∈ l -> g x = false.
Proof. intros Hl Hx. induction Hx as [y l|y z l _ IH]; cbn in Hl; apply orb_false_iff in Hl as [? ?]; auto. Qed.

Lemma ready_plain f : is_ssa f = false -> ssa_ready f -> plain_blocks (blocks f).
Proof.
  intros Hf Hr y b Hb. destruct (Hr Hf) as [_ Hr']. apply list_elem_of_lookup_2 in Hb. destruct (Hr' b Hb) as [Hphi Ht]. split; [|done].
  rewrite Forall_forall in Hphi |- *. intros s Hs. split; [by apply Hphi|]. pose proof (existsb_false _ _ _ (existsb_false _ _ _ Hf Hb) Hs) as Hv. cbv beta in Hv.
  apply orb_false_iff in Hv as [Hd Hu]. apply Forall_app. split; by apply unversioned.
Qed.

(** ** SSA construction keeps the parameters, whose versions [is_ssa] finds *)

Lemma intern_retvars_params f : params (intern_retvars f).1 = params f.
Proof.
  unfold intern_retvars. set (step := fun '(_, _) _ => _). assert (forall l g vs, params (foldl step (g, vs) l).1 = params g) as H; [|apply H].
  induction l as [|i l IH]; intros g vs; [done|]. cbn [foldl]. unfold step at 2. unfold intern_local. destruct (get_or_intern (locals g) (ret_name i)). by rewrite IH.
Qed.

Lemma complete_params f f' : complete f = Ret f' -> params f' = params f.
Proof.
  unfold complete. pose proof (intern_retvars_params f) as Hp. destruct (intern_retvars f) as [f1 vs]. cbn in Hp. destruct (mapM_out _ _) as [bs| |]; cbn [mbind outcome_bind]; [|done..].
  destruct (iv_index bs 0) as [start| |]; cbn [mbind outcome_bind]; [|done..]. destruct (unwrap _) as [t| |]; cbn [mbind outcome_bind]; [|done..]. destruct (term_kind t); [done|].
  destruct (iv_set _ _ _); cbn [mbind outcome_bind]; [|done..]. by intros [= <-].
Qed.

Lemma prune_params fuel f f' : prune_unreachable_nodes fuel f = Ret f' -> params f' = params f.
Proof.
  unfold prune_unreachable_nodes. destruct (reachable _ _) as [r| |]; cbn [mbind outcome_bind]; [|done..]. destruct (decide _); [by intros [= <-]|].
  destruct (mapM_out _ _); cbn [mbind outcome_bind]; [|done..]. by intros [= <-].
Qed.

Lemma transform_params hash_iter fuel mode f f' : transform_with hash_iter fuel true mode f = Ret f' -> params f' = params f.
Proof.
  unfold transform_with. destruct (decide _); [by intros [= <-]|]. destruct (prune_unreachable_nodes fuel f) as [f0| |] eqn:E0; cbn [mbind outcome_bind]; [|done..].
  destruct (complete f0) as [f1| |] eqn:E1; cbn [mbind outcome_bind]; [|done..]. destruct (ssa_blocks _ _ _ _) as [bs| |]; cbn [mbind outcome_bind]; [|done..].
  destruct (foldM _ _ _) as [bs'| |]; cbn [mbind outcome_bind]; [|done..]. destruct (FunctionData_verify _) as [[]| |]; cbn [mbind outcome_bind]; [|done..].
  intros [= <-]. cbn. rewrite (complete_params _ _ E1). by apply (prune_params fuel).
Qed.

Lemma transformed_is_ssa f f' f1 G bs1 b0 rest dt T Ps tin tout : transformed f f' f1 G bs1 b0 rest dt T Ps tin tout -> params f' <> [] -> is_ssa f' = true.
Proof.
  intros [-> _ _ _ _ _ _ _] Hp. cbn in Hp. unfold is_ssa. cbn [blocks with_blocks existsb]. apply orb_true_iff. left. apply existsb_exists.
  exists (param_stmt 0). split; [|done]. apply list_elem_of_In. unfold bound_block. cbn. apply elem_of_app. left. apply list_elem_of_fmap. exists 0. split; [done|].
  apply list_elem_of_In. rewrite <- in_rev. destruct (params f1); [done|by left].
Qed.

Section construction.
Context (hash_iter : gset nat -> list nat).
Hypothesis Hhash : forall s x, x ∈ hash_iter s -> x ∈ s.

(** What [ssa_form] leaves of [f]. *)
Definition ssa_made (G : option nat) (f f' : FunctionData) : Prop :=
  function_wf f' G /\ name f' = name f /\ (is_ssa f = true -> f' = f) /\ (is_ssa f = false -> NoDup (blocks f' ≫= block_dst_vars)) /\
  (params f <> [] -> forall fuel, ssa_function hash_iter fuel f' = Ret f').

Lemma ssa_function_kept fuel f : blocks f = [] \/ is_ssa f = true -> ssa_function hash_iter fuel f = Ret f.
Proof. unfold ssa_function. intros [-> | ->]; [by rewrite bool_decide_true|by rewrite andb_false_r]. Qed.

Lemma ssa_function_eventually G f : function_wf f G -> ssa_ready f ->
  eventually (fun fuel => exists f', ssa_function hash_iter fuel f = Ret f' /\ ssa_made G f f').
Proof.
  intros Hwf Hr. destruct (decide (blocks f = [] \/ is_ssa f = true)) as [Hk|Hk].
  { exists 0. intros fuel _. exists f. split; [by apply ssa_function_kept|]. split_and!; [done..| |].
    - intros H. destruct Hk as [->|?]; [constructor|congruence].
    - intros _ fuel'. by apply ssa_function_kept. }
  apply Decidable.not_or in Hk as [Hb Hs]. apply not_true_is_false in Hs. destruct (Hr Hs) as [Hl _].
  assert (pre_ssa G f) as Hpre.
  { destruct Hwf as (? & ? & _). split_and!; [done..|by apply ready_plain|done|]. by destruct (blocks f); [|simpl; lia]. }
  eapply eventually_impl; [exact (transform_eventually hash_iter Pruned f G Hpre Hhash)|].
  intros fuel (f' & f1 & bs1 & b0 & rest & dt & T & Ps & tin & tout & Et & Htf). exists f'. unfold ssa_function. rewrite bool_decide_false, Hs by done. split; [exact Et|].
  split_and!; [by eapply transformed_wf| |congruence|intros _; by eapply transformed_single|].
  - destruct Htf as [-> Hn _ _ _ _ _ _]. exact Hn.
  - intros Hp fuel'. apply ssa_function_kept. right. eapply transformed_is_ssa; [exact Htf|]. by rewrite (transform_params _ _ _ _ _ Et).
Qed.

Lemma ssa_form_eventually p : verify p = Ret (Ok tt) -> Forall ssa_ready (functions p) ->
  eventually (fun fuel => exists p', ssa_form hash_iter fuel p = Ret p' /\ verify p' = Ret (Ok tt) /\ globals p' = globals p /\
    Forall2 (ssa_made (Some (length (gdecls (globals p))))) (functions p) (functions p')).
Proof.
  intros Hv Hr. destruct (verify_spec p) as (r & Er & Hiff & _). rewrite Hv in Er. injection Er as <-. destruct (proj1 Hiff eq_refl) as [Hnd Hwf].
  set (G := Some (length (gdecls (globals p)))) in *.
  eapply eventually_impl; [apply (eventually_forall (fun fuel f => exists f', ssa_function hash_iter fuel f = Ret f' /\ ssa_made G f f') (functions p))|].
  { rewrite Forall_forall in Hwf, Hr |- *. intros f Hf. apply ssa_function_eventually; auto. }
  intros fuel H. assert (exists fs, Forall2 (fun f f' => ssa_function hash_iter fuel f = Ret f') (functions p) fs /\ Forall2 (ssa_made G) (functions p) fs) as (fs & E & Hfs).
  { clear -H. induction H as [|f l (f' & E & Hf) _ (fs & E' & Hfs)]; [by exists []|]. exists (f' :: fs). split; by constructor. }
  unfold ssa_form. apply mapM_out_Ret in E. rewrite E. cbn [mbind outcome_bind]. eexists. split; [done|]. cbn [functions globals]. split_and!; [|done|done].
  destruct (verify_spec {| functions := fs; globals := globals p |}) as (r & -> & Hr' & _). f_equal. apply Hr'.
  assert (map name fs = map name (functions p) /\ Forall (fun f => function_wf f G) fs) as [En Hw].
  { clear -Hfs. induction Hfs as [|f f' l l' (Hw & Hn & _) _ [IHn IHw]]; [done|]. cbn. split; [congruence|by constructor]. }
  split; cbn; [by rewrite En|done].
Qed.

(** What a second [ssa_form] does. *)
Lemma ssa_form_again G fuel p p' : Forall2 (ssa_made G) (functions p) (functions p') -> Forall (fun f => params f <> []) (functions p) -> ssa_form hash_iter fuel p' = Ret p'.
Proof.
  intros H Hp. unfold ssa_form. assert (mapM_out (ssa_function hash_iter fuel) (functions p') = Ret (functions p')) as ->; [|by destruct p'].
  apply mapM_out_Ret. induction H as [|f f' l l' (_ & _ & _ & _ & Hf) _ IH]; [constructor|]. apply Forall_cons in Hp as [Hp1 Hp2]. constructor; auto.
Qed.
End construction.

(** C4: From a verified project to its labeling.  Take programs that pass the verifier, in which the functions that are not in
    SSA form have sound tables of locals, no phis and no versions in their returns.  With enough fuel [ssa_form] returns on each of
    them: pruning, completion, phi placement and renaming do not panic.  The programs it returns pass the verifier and keep their
    globals and the names of their functions; a function with a versioned statement is unchanged, and in every other each
    version has one definition; when all functions have parameters, a second [ssa_form] changes nothing.  On them the evaluator
    returns for all large enough fuel, whatever the configuration, when no port sits at a global. *)
Theorem ssa_form_evaluates (hash_iter : gset nat -> list nat) (programs : list Program) (ports : Ports) (config : Config) :
  (forall s x, x ∈ hash_iter s -> x ∈ s) -> Forall (fun p => verify p = Ret (Ok tt)) programs -> Forall (fun p => Forall ssa_ready (functions p)) programs -> local_ports ports ->
  exists fuel0, forall fuel, fuel0 <= fuel -> exists programs', mapM_out (ssa_form hash_iter fuel) programs = Ret programs' /\
    Forall2 (fun p p' => verify p' = Ret (Ok tt) /\ globals p' = globals p /\
      Forall2 (fun f f' => name f' = name f /\ (is_ssa f = true -> f' = f) /\ (is_ssa f = false -> NoDup (blocks f' ≫= block_dst_vars))) (functions p) (functions p') /\
      (Forall (fun f => params f <> []) (functions p) -> forall fuel', ssa_form hash_iter fuel' p' = Ret p')) programs programs' /\
    exists fuel1 oc, forall fuel', fuel1 <= fuel' -> evaluate_programs programs' ports config fuel' = Ret oc.
Proof.
  intros Hhash Hv Hr Hports.
  assert (eventually (fun fuel => Forall (fun p => exists p', ssa_form hash_iter fuel p = Ret p' /\ verify p' = Ret (Ok tt) /\ globals p' = globals p /\
    Forall2 (ssa_made hash_iter (Some (length (gdecls (globals p))))) (functions p) (functions p')) programs)) as [fuel0 H].
  { apply (eventually_forall (fun fuel p => exists p', ssa_form hash_iter fuel p = Ret p' /\ _)). rewrite Forall_forall in Hv, Hr |- *. intros p Hp. apply ssa_form_eventually; auto. }
  exists fuel0. intros fuel Hle. specialize (H fuel Hle). clear Hle Hv Hr.
  match goal with |- exists _, _ /\ Forall2 ?R _ _ /\ _ => assert (exists programs', mapM_out (ssa_form hash_iter fuel) programs = Ret programs' /\ Forall2 R programs programs' /\ Forall (fun p => verify p = Ret (Ok tt)) programs') as (ps & E & HR & Hv) end.
  { induction H as [|p l (p' & E & Hv & Hg & Hf) _ (ps & Es & Hs & Hvs)]; [by exists []|]. exists (p' :: ps). split; [cbn [mapM_out]; by rewrite E, Es|]. split; [|by constructor].
    constructor; [|done]. split_and!; [done|done| |].
    - eapply Forall2_impl; [exact Hf|]. intros f f' (_ & ? & ? & ? & _). done.
    - intros Hp fuel'. by eapply ssa_form_again. }
  exists ps. split; [done|]. split; [done|]. by apply verified_programs_evaluate.
Qed.

Lemma ssa_form_evaluates_witness : exists fuel0, forall fuel, fuel0 <= fuel -> exists programs', mapM_out (ssa_form elements fuel) [verified_program] = Ret programs' /\
  exists fuel1 oc, forall fuel', fuel1 <= fuel' -> evaluate_programs programs' demo_ports Config_default fuel' = Ret oc.
Proof.
  destruct (ssa_form_evaluates elements [verified_program] demo_ports Config_default) as [fuel0 H].
  - intros s x. apply elem_of_elements.
  - apply Forall_singleton. vm_compute. reflexivity.
  - apply Forall_singleton. repeat (apply Forall_cons; split); [..|done]; intros _; (split; [split; [by_decide|by left]|]).
    all: intros b Hb; repeat (apply elem_of_cons in Hb as [-> | Hb]); [..|by apply not_elem_of_nil in Hb]; (split; [|intros t [= <-]]); repeat constructor.
  - split; apply Forall_nil; exact I.
  - exists fuel0. intros fuel Hf. destruct (H fuel Hf) as (ps & E & _ & He). exists ps. split; [exact E|exact He].
Defined.

(** A function without variables, already through SSA construction, is not recognised: [ssa_form] adds an exit block to it each time. *)
Definition no_variables : Program :=
  {| functions := [{| name := "f"; params := []; arity := 0; blocks := [{| statements := []; terminator := Some (term_new_kind (Return [])) |}];
                      locals := {| decls := []; by_name := ∅ |} |}];
     globals := Globals_default |}.

Theorem ssa_form_not_idempotent : exists p1 p2, ssa_form elements 50 no_variables = Ret p1 /\ ssa_form elements 50 p1 = Ret p2 /\
  map (fun f => length (blocks f)) (functions p1) = [2] /\ map (fun f => length (blocks f)) (functions p2) = [3].
Proof.
  destruct (ssa_form elements 50 no_variables) as [p1| |] eqn:E1; [|vm_compute in E1; discriminate..]. destruct (ssa_form elements 50 p1) as [p2| |] eqn:E2; vm_compute in E1; injection E1 as <-; vm_compute in E2; [|discriminate..].
  injection E2 as <-. eexists _, _. done.
Qed.
